(* ===== verification/_CoqProject ===== *)
-Q . S2P
Prelude.v
JsString.v
JsMap.v
JsValue.v
JsUri.v
StatusTypes.v
StatusWire.v
StatusWireFacts.v
StatusStore.v
StatusStoreFacts.v
Paths.v
DirtyPaths.v
DirtyPathsFacts.v
RefreshRequests.v
ScmResources.v
ScmFacts.v
StoresAgree.v
ScmTheorems.v
RemoteTypes.v
ProjectionService.v
Notifications.v
NotificationsFacts.v
Witnesses.v
RemoteState.v
RemoteStateFacts.v
RemoteNotifications.v
CoverageStore.v
WriteQueue.v
JsDate.v
RefreshScheduler.v
SchedulerFacts.v
SchedulerStores.v
SchedulerTheorems.v
Watchers.v
SchedulerWitnesses.v
OperationScheduler.v
OperationJournal.v
Utf8.v
Framing.v
JsonRpc.v
JsonRpcFacts.v
OperationTypes.v
OperationClient.v
OperationClientFacts.v
OperationRequests.v
SessionTypes.v
SessionService.v
SessionFacts.v
SessionTheorems.v
SessionCollaborators.v
Discovery.v
DiscoveryFacts.v
Lifecycle.v
LifecycleFacts.v
SessionWitnesses.v
Coordinator.v
JsBase64.v
RpcClient.v
HistoryClients.v
ContentClients.v
ClientsFacts.v
ReadClients.v
RemoteClients.v
RemoteServices.v
RemoteServicesFacts.v
RemoteWitnesses.v
Async.v
CredentialTypes.v
CredentialController.v
CredentialInvariant.v
CredentialLogic.v
CredentialSafe.v
CredentialParsers.v
CredentialTheorems.v
CredentialWitnesses.v
CertificateTrust.v
CertificateTrustFacts.v
ContentUris.v
BackendService.v
RemoteProfile.v
