(* ===== verification/Prelude.v ===== *)
(** * SubversionR: the TypeScript core of the VS Code extension

    The extension shows the state of Subversion working copies.  A backend
    process sends status snapshots, deltas and notifications; a watcher reports
    file events; the editor shows the result.  All sources below are under
    src/packages/vscode-extension/src/.

    ** The parts, and where they are modelled

    - JsString, JsMap, JsValue, JsUri: the strings, [Map]s, sorting, JSON values
      and URI escapes the code uses.  Maps keep insertion order, which the code
      shows to its callers.
    - StatusTypes: the data of the status protocol (status/types.ts and the
      interfaces of the clients and stores).
    - StatusWire, StatusWireFacts: StatusSnapshotRpcClient and
      StatusRefreshRpcClient, requests and response parsers, every check and
      every error.
    - StatusStore, StatusStoreFacts: StatusSnapshotStore, the canonical status
      of each repository; one definition per method.
    - Paths, DirtyPaths, DirtyPathsFacts, RefreshRequests: normalizeWatcherEvent
      and DirtyPathSet, each with its own path functions, the folds of the set, and
      the requests made of its targets.
    - ScmResources, ScmFacts, ScmTheorems: the classifier of
      entries and SourceControlResourceStore, the projection of the status into
      resource groups.
    - StoresAgree: what both stores promise to those who feed them (the classes
      [StatusSink] and [CompleteSink]), and the relation between their data.
    - ProjectionService, Notifications, NotificationsFacts:
      SourceControlProjectionService over any presenter and listeners, the
      watcher-overflow counter, and the handler of backend notifications.
    - RemoteTypes, RemoteState, RemoteStateFacts: RemoteConnectionStateStore, the
      checks and recoveries of a repository's connection, with [rstep], its
      state machine.
    - RemoteNotifications: the daemon's connection
      reports, parsed and applied.
    - CoverageStore: StatusRefreshCoverageStore.
    - JsDate, RefreshScheduler, SchedulerFacts, SchedulerStores,
      SchedulerTheorems: StatusRefreshScheduler with [Date.toISOString]: its
      steps, what each moves, its invariants, the two stores under it.
    - Watchers: DirtyPathPipeline, RepositoryRefreshService and
      RepositoryWatcherService, over the scheduler and the editor's watchers.
    - OperationScheduler, OperationJournal: RepositoryOperationScheduler and
      RepositoryOperationJournal.
    - Utf8, Framing: UTF-8 as node encodes and decodes it, and the frames of
      transport/framing.ts.
    - WriteQueue, JsonRpc, JsonRpcFacts: OrderedWriteQueue and
      JsonRpcStreamClient, which owns a queue and a frame decoder.
    - OperationTypes, OperationClient, OperationClientFacts, OperationRequests:
      OperationRunRpcClient and BackendOperationClient, the nineteen mutating
      operations.
    - SessionTypes, SessionService, SessionFacts, SessionTheorems:
      RepositorySessionService over an interface to the watcher service, the
      stores and the projection (the class [Registries]);
      SessionCollaborators proves that the modelled ones meet it.
    - Discovery, DiscoveryFacts: RepositoryDiscoveryService and the planning of
      boundary roots.
    - Lifecycle, LifecycleFacts, Coordinator: RepositoryLifecycleService and
      RepositoryLifecycleCoordinator.
    - JsBase64, RpcClient, HistoryClients, ContentClients, ClientsFacts,
      ReadClients: the clients of the log, blame, content, properties and
      checkout requests, and the contract they share.
    - RemoteClients, RemoteServices, RemoteServicesFacts: the clients of remote
      checks and recoveries, RemoteStatusCheckService, RemoteRecoveryService and
      the restart of recoveries.
    - Async: [async] methods as programs that name their awaits, and a logic for
      programs that share an object; the two controllers below use it.
    - CredentialTypes, CredentialController: auth/credentialController.ts, its
      data and parsers, and every method of the controller as a program.
      CredentialInvariant, CredentialLogic, CredentialSafe: its invariant, and
      that each method keeps it; CredentialParsers, CredentialTheorems.
    - CertificateTrust, CertificateTrustFacts: auth/certificateTrustController.ts,
      as programs.
    - RemoteProfile: security/remoteAccessProfile.ts, the profiles of the remote
      servers and the envelope of a remote operation, composed as
      [createRemoteEnvelope] of extension.ts does; workspaceTrust.ts and
      externalToolConfiguration.ts.
    - BackendService: backend/backendService.ts, which starts, watches, restarts
      and stops the backend.
    - ContentUris: the URIs under which the editor opens the content of a file
      (content/baseContentUri.ts, headContentUri.ts, revisionContentUri.ts), with the form encoding of their query.
    - Witnesses, RemoteWitnesses, SchedulerWitnesses, SessionWitnesses,
      CredentialWitnesses: concrete inputs for the theorems; the other files hold
      their own.

    How they interact: a file event goes through Paths, the watcher service and
    the pipeline into the DirtyPathSet of the scheduler, whose targets become a
    request of the refresh client; the delta it returns, or one a notification
    brings, goes to the canonical store and then to the projection store, whose
    projection the presenter shows.  A daemon report goes to the connection
    store and then to the presenter.  Requests and notifications travel as
    frames through the JSON-RPC client; an operation's answer names targets for
    the scheduler.  A session registers its repository with the watchers, the
    stores and the projection, and the lifecycle service opens, closes, moves
    and reopens sessions, one operation at a time.  While the backend runs a
    remote operation it asks the credential controller for a credential over the
    same connection, and reports how the server took it; it asks the certificate
    controller likewise.  The connection is that of the backend service, and the
    envelope of a remote check carries the profile of its server.

    ** How code is modelled

    A pure function is a function.  A function that throws returns [result].  A
    method of an object is a [method]: it runs on the object's state and returns
    or throws, and what it wrote before a throw stays.  Callbacks (presenter,
    listeners, stream) are methods on a state of their own that may throw, or, in
    BackendService, what they throw is part of the event; where a theorem needs
    that one does not throw, its comment says so.  [triple] states what a method
    guarantees on both ways out.

    Asynchronous code is a step function on a world: shared objects and promises
    are named by their place in a list, a promise chain is the phase it is in,
    and each step is one call, one reaction, one timer or one answer from
    outside.  Between two reactions any other step may come, so theorems over
    reachable worlds hold for every interleaving; timers are set or not, and
    fire in any order.  Where methods await in many places (credentials), the
    method is a program of Async and the interleaving is that of its awaits.

    ** What the theorems show

    - File events: no accepted event is lost by the dirty-path set, however it
      folds and overflows; the set stays within its bound; a drain gives exactly
      what is held; accepted paths are inside the working copy; the watcher's
      filter and the set's agree; drained targets make valid requests.
    - Wire: the parsers accept exactly the encodings of values that meet the
      protocol's contract, and a refresh returns an answer to its own request.
    - Canonical store: its invariant over all reachable states, exception
      safety, what a delta does, and generations that only grow in an epoch.
    - Projection: the two stores never diverge, for snapshots that list no remote
      path twice; what a case-sensitive lookup shows at a path; the groups partition
      the resources; commit-all targets are exactly the committable changes.
    - Notifications: the stores are in step after each, whether it returns or
      throws; what each does when nobody throws.
    - Remote connection: the invariant of the store; a needed recovery is not
      forgotten, unless the daemon reports otherwise; each operation completes once; failures and reports round trip;
      a recovery is scheduled exactly when due.
    - Scheduler: an accepted event stays due until a refresh shows it, and is
      requested once the repository is free; one refresh at a time; an overtaken
      refresh applies nothing; an answered refresh settles; the stores stay in
      step.
    - Watchers: every event of the repository reaches its dirty-path set; what is
      watched is scheduled, with the same scope.
    - Operations: those of one repository run one at a time, in order, none
      stuck; requests are sent with exactly the caller's fields, answers checked
      against them, paths safe, and what must be refreshed afterwards can be.
    - Sessions: what is watched, stored and projected is what has an open
      session, after any calls; opening and closing are all or nothing, here and at
      the backend; reopening reports what it did; session operations exclude each
      other.  A listener of the projection that throws during a registration is
      excluded ([Registries]); an example shows what it leaves behind.
    - Discovery and lifecycle: boundary roots cover what lies below a working
      copy; the lifecycle tasks keep the sessions' invariant, report what is so,
      and close only what has disappeared.
    - Request clients: each returns only checked answers to a valid request, and
      every valid answer.
    - Remote services: a check that has begun ends when its turn comes, and incoming changes are
      called fresh exactly when both stores show them.
    - Credentials: a lease belongs to the current connection and is settled once,
      with one outcome for everybody; stored credentials and an index that are
      consistent stay so when any storage access fails; storage operations take turns and
      no turn is lost; requests that reach the controller are valid.
    - Certificates: none is trusted without a decision for it and its realm, stored
      or made by a user who was asked; prompts are single and only for requests
      that may ask.
    - Remote profiles: the envelope of a check is made exactly when the user's own
      settings hold one profile for the endpoint and trust is acknowledged.
    - Backend service: no backend is lost, and what the service reports is so,
      unless a heartbeat fails while a shutdown waits or a listener throws when it
      is told that the service is ready or that a heartbeat failed (an example
      shows the damage of each).
    - Content URIs: every valid request survives its URI, and only valid requests
      come out of one.
    - Transport and coverage: frames leave in order, are decoded as soon as their
      last byte arrives, however the bytes are cut, and every request of the JSON-RPC client settles once; the coverage store
      answers from the last 32 refreshes, the journal from its last entries.

    ** Bounds, fuel and parameters

    Strings are over U+0000 to U+00FF (JsString), on which lower-casing keeps the
    length and [encodeURIComponent] never throws; on a lone surrogate the real one
    does (Utf8 has it on all texts), which the claims about the stores exclude.
    Numbers are integers that the
    code has checked, or checks, with [Number.isSafeInteger] (see Numbers below);
    JSON fractions are carried and refused where the code refuses them.  Fuel is
    used in five loops: the ancestors of a path (its length), decimal digits
    (the number, or its binary digits), the flush of the write queue (the queue's length) and the
    frames of a buffer (its length); each is enough because a round shortens
    what it counts.  Texts of frames are UTF-16 code units (Utf8).  Parameters:
    the backend as the session service awaits it, the file system as the
    lifecycle service asks it, the collation [localeCompare], [Date.parse],
    [JSON.parse] and
    [JSON.stringify], hashes and new ids, node's [isIP] and [URL], the secret
    storage and the prompts, the JSON-RPC sender, the refresh client, the presenter, listeners and scheduler callbacks, the
    editor's watchers, and node's writable stream; what a theorem needs of one
    is a hypothesis, with a concrete instance in the witnesses.

    ** What is not modelled

    The commands of the editor (repository/repositoryCommandController.ts), the
    presenter, tree views, lenses, documents and notices are calls of the editor's
    API with prompts and texts, over the components above; extension.ts, but for
    [createRemoteEnvelope], wires them.  The start of the child process and its
    handshake (backend/backendProcess.ts), the detection and start of TortoiseSVN
    and the cache commands are node and the file system.  Diagnostics, redaction
    and the probes of the installed extension report on the components and do not
    change them.  The Rust daemon, the native bridge and the build and release
    scripts are other programs, seen through the wire clients. *)

From Stdlib Require Import ZArith Lia Ascii String List.
From stdpp Require Import base option list strings.

(** * Errors

    Every [throw] of the extension throws either one of its structured error
    classes, which all carry [code], [category], [messageKey] and [safeArgs]
    beside the class name, or a plain [Error] with a message.  A value thrown
    by code outside the model is [ForeignError], identified by a tag. *)
Inductive safe_arg :=
  | ArgString (s : string)
  | ArgNumber (z : Z).

Inductive js_error :=
  | StructuredError (name code category messageKey : string)
      (safeArgs : list (string * safe_arg))
  | PlainError (message : string)
  | ForeignError (tag : string).

#[export] Instance safe_arg_eq_dec : EqDecision safe_arg.
Proof. solve_decision. Defined.
#[export] Instance js_error_eq_dec : EqDecision js_error.
Proof. solve_decision. Defined.

(** The [code] property of an error, where it has one. *)
Definition error_code (e : js_error) : option string :=
  match e with
  | StructuredError _ code _ _ _ => Some code
  | _ => None
  end.

(** * Results

    A function that returns or throws, without touching state. *)
Inductive result (A : Type) :=
  | Ok (a : A)
  | Throw (e : js_error).
Arguments Ok {A} _.
Arguments Throw {A} _.

#[export] Instance result_ret : MRet result := fun A a => Ok a.
#[export] Instance result_bind : MBind result := fun A B f m =>
  match m with Ok a => f a | Throw e => Throw e end.
#[export] Instance result_fmap : FMap result := fun A B f m =>
  match m with Ok a => Ok (f a) | Throw e => Throw e end.

Definition is_ok {A} (r : result A) : bool :=
  match r with Ok _ => true | Throw _ => false end.

(** [if (!cond) { throw e }] *)
Definition require (cond : bool) (e : js_error) : result unit :=
  if cond then Ok tt else Throw e.

(** [array.map((x, index) => f(x, index))]: left to right, the first throw
    wins. *)
Fixpoint mapi_from {A B} (f : nat -> A -> result B) (i : nat) (l : list A) : result (list B) :=
  match l with
  | [] => Ok []
  | x :: l' => y ← f i x; ys ← mapi_from f (S i) l'; Ok (y :: ys)
  end.
Definition mapi {A B} (f : nat -> A -> result B) (l : list A) : result (list B) :=
  mapi_from f 0 l.

(** [array.forEach((x, index) => { ... })] with a body that only throws. *)
Fixpoint eachi_from {A} (f : nat -> A -> result unit) (i : nat) (l : list A) : result unit :=
  match l with
  | [] => Ok tt
  | x :: l' => _ ← f i x; eachi_from f (S i) l'
  end.
Definition eachi {A} (f : nat -> A -> result unit) (l : list A) : result unit :=
  eachi_from f 0 l.

(** * Methods

    A method of a stateful object: it runs on the object's state and either
    returns or throws.  Writes made before a throw stay, as in JavaScript, so
    a theorem that a throwing method leaves the state alone says something. *)
Definition method (S A : Type) : Type := S -> result A * S.

#[export] Instance method_ret S : MRet (method S) := fun A a s => (Ok a, s).
#[export] Instance method_bind S : MBind (method S) := fun A B f m s =>
  match m s with
  | (Ok a, s') => f a s'
  | (Throw e, s') => (Throw e, s')
  end.

Definition get_state {S} : method S S := fun s => (Ok s, s).
Definition put_state {S} (s' : S) : method S unit := fun _ => (Ok tt, s').
Definition modify_state {S} (f : S -> S) : method S unit := fun s => (Ok tt, f s).
Definition throw_error {S A} (e : js_error) : method S A := fun s => (Throw e, s).
Definition lift_result {S A} (r : result A) : method S A := fun s => (r, s).

(** [try { m } catch (error) { handler(error) }] *)
Definition try_catch {S A} (m : method S A) (handler : js_error -> method S A) : method S A := fun s =>
  match m s with
  | (Ok a, s') => (Ok a, s')
  | (Throw e, s') => handler e s'
  end.

(** A method of a part of an object: [get] reads the part, [set] writes it. *)
Definition on_part {S T A} (get : S -> T) (set : S -> T -> S) (m : method T A) : method S A := fun s =>
  let (r, t) := m (get s) in (r, set s t).

(** [for (const x of l) { f(x) }] *)
Fixpoint for_each {S A} (f : A -> method S unit) (l : list A) : method S unit :=
  match l with
  | [] => mret tt
  | x :: l' => _ ← f x; for_each f l'
  end.

Lemma method_bind_ok {S A B} (m : method S A) (f : A -> method S B) s a s' :
  m s = (Ok a, s') -> (x ← m; f x) s = f a s'.
Proof. intros H. unfold mbind, method_bind. by rewrite H. Qed.

Lemma method_bind_throw {S A B} (m : method S A) (f : A -> method S B) s e s' :
  m s = (Throw e, s') -> (x ← m; f x) s = (Throw e, s').
Proof. intros H. unfold mbind, method_bind. by rewrite H. Qed.

(** Specifications of methods: from a state with [P], the method returns with
    [Q] or throws with [X].  The rules follow the combinators above. *)
Definition triple {S A} (P : S -> Prop) (m : method S A) (Q : A -> S -> Prop) (X : js_error -> S -> Prop) : Prop :=
  forall s, P s -> match m s with (Ok a, s') => Q a s' | (Throw e, s') => X e s' end.

Section Triples.
Context {S A : Type}.
Implicit Types (P : S -> Prop) (X : js_error -> S -> Prop).

Lemma triple_ret P (a : A) X : triple P (mret a) (fun b s => b = a /\ P s) X.
Proof. by intros s Hs. Qed.

Lemma triple_bind {B} P (m : method S B) (f : B -> method S A) R Q X :
  triple P m R X -> (forall b, triple (R b) (f b) Q X) -> triple P (b ← m; f b) Q X.
Proof.
  intros Hm Hf s Hs. specialize (Hm s Hs). unfold mbind, method_bind.
  destruct (m s) as [[b|e] s']; [by apply Hf|done].
Qed.

Lemma triple_get P (f : S -> method S A) Q X :
  (forall s0, triple (fun s => s = s0 /\ P s) (f s0) Q X) -> triple P (s ← get_state; f s) Q X.
Proof. intros Hf s Hs. by apply (Hf s s). Qed.

Lemma triple_throw P e (Q : A -> S -> Prop) X : (forall s, P s -> X e s) -> triple P (throw_error e) Q X.
Proof. intros H s Hs. by apply H. Qed.

Lemma triple_lift P (r : result A) (Q : A -> S -> Prop) X :
  (forall s a, r = Ok a -> P s -> Q a s) -> (forall s e, r = Throw e -> P s -> X e s) -> triple P (lift_result r) Q X.
Proof. intros H1 H2 s Hs. unfold lift_result. destruct r; auto. Qed.

Lemma triple_catch P (m : method S A) (h : js_error -> method S A) Q Y X :
  triple P m Q Y -> (forall e, triple (Y e) (h e) Q X) -> triple P (try_catch m h) Q X.
Proof.
  intros Hm Hh s Hs. specialize (Hm s Hs). unfold try_catch. destruct (m s) as [[b|e] s']; [done|by apply Hh].
Qed.

Lemma triple_conseq P P' (m : method S A) Q Q' X X' :
  triple P m Q X -> (forall s, P' s -> P s) -> (forall a s, Q a s -> Q' a s) -> (forall e s, X e s -> X' e s) ->
  triple P' m Q' X'.
Proof.
  intros Hm HP HQ HX s Hs. specialize (Hm s (HP s Hs)). destruct (m s) as [[a|e] s']; auto.
Qed.

(** A method of one part keeps every property of the other parts. *)
Lemma triple_part {T} (get : S -> T) (set : S -> T -> S) (m : method T A) P :
  (forall s t, P s -> P (set s t)) -> triple P (on_part get set m) (fun _ => P) (fun _ => P).
Proof. intros H s Hs. unfold on_part. destruct (m (get s)) as [[?|?] t]; by apply H. Qed.

(** Its own part changes as the method says; [F] frames the other parts. *)
Lemma triple_frame {T} (get : S -> T) (set : S -> T -> S) (m : method T A) (F : S -> Prop)
    (P : T -> Prop) (Q : A -> T -> Prop) (X : js_error -> T -> Prop) :
  (forall s t, get (set s t) = t) -> (forall s t, F s -> F (set s t)) -> triple P m Q X ->
  triple (fun s => F s /\ P (get s)) (on_part get set m)
    (fun a s => F s /\ Q a (get s)) (fun e s => F s /\ X e (get s)).
Proof.
  intros Hgs HF Hm s [Hf Hp]. specialize (Hm (get s) Hp). unfold on_part.
  destruct (m (get s)) as [[a|e] t]; rewrite Hgs; auto.
Qed.
End Triples.

Lemma triple_for_each {S B} (f : B -> method S unit) l (P : S -> Prop) :
  (forall x, triple P (f x) (fun _ => P) (fun _ => P)) -> triple P (for_each f l) (fun _ => P) (fun _ => P).
Proof.
  intros Hf. induction l as [|x l IH]; [by intros s Hs|]. cbn [for_each].
  apply (triple_bind P (f x) (fun _ => for_each f l) (fun _ => P)); [apply Hf|done].
Qed.

(** * Numbers

    The model's numbers are integers: every number field the core handles has
    passed [Number.isSafeInteger] (or is checked by it), and the sums formed
    from two safe integers stay below 2^54, where rounding to a double is
    monotone, so the test on the exact sum decides the test on the double. *)
Definition MAX_SAFE_INTEGER : Z := 9007199254740991.
Definition isSafeInteger (z : Z) : bool :=
  ((- MAX_SAFE_INTEGER <=? z) && (z <=? MAX_SAFE_INTEGER))%Z.
Definition isNonNegativeSafeInteger (z : Z) : bool :=
  isSafeInteger z && (0 <=? z)%Z.

Lemma isNonNegativeSafeInteger_spec z :
  isNonNegativeSafeInteger z = true <-> (0 <= z <= MAX_SAFE_INTEGER)%Z.
Proof. unfold isNonNegativeSafeInteger, isSafeInteger, MAX_SAFE_INTEGER. lia. Qed.

(** * Tactics of the development *)

(** Run one bind of [result] or [method] by splitting on what the bound
    computation gives. *)
Ltac run_bind :=
  match goal with
  | H : context [mbind ?f ?m] |- _ =>
      match type of m with
      | result _ =>
          let E := fresh "E" in
          change (mbind f m) with
            (match m with Ok a => f a | Throw e => Throw e end) in H;
          destruct m as [?|?] eqn:E; try discriminate H
      end
  end.

(** Split a boolean test of the code into its propositional content. *)
Ltac bool_cases :=
  repeat match goal with
  | H : (_ && _)%bool = true |- _ => apply andb_prop in H; destruct H
  | H : (_ || _)%bool = false |- _ => apply orb_false_elim in H; destruct H
  | H : negb _ = true |- _ => apply negb_true_iff in H
  | H : negb _ = false |- _ => apply negb_false_iff in H
  | H : bool_decide _ = true |- _ => apply bool_decide_eq_true_1 in H
  | H : bool_decide _ = false |- _ => apply bool_decide_eq_false_1 in H
  end.

(** * Lists *)
Lemma alter_alter {A} (f g : A -> A) (i : nat) (l : list A) : alter f i (alter g i l) = alter (fun x => f (g x)) i l.
Proof. revert i. induction l as [|x l IH]; intros [|i]; [done..|]. cbn. f_equal. apply IH. Qed.

(** * Generic lemmas on the result combinators *)

Create HintDb js.
#[export] Hint Rewrite andb_true_iff orb_true_iff negb_true_iff
  andb_false_iff orb_false_iff negb_false_iff : js.

Lemma bind_ok {A B} (m : result A) (f : A -> result B) b :
  (m ≫= f) = Ok b <-> exists a, m = Ok a /\ f a = Ok b.
Proof. destruct m; cbn; naive_solver. Qed.

Lemma require_ok cond e u : require cond e = Ok u <-> cond = true.
Proof. unfold require. destruct cond, u; naive_solver. Qed.

Lemma mapi_from_ok {A B} (f : nat -> A -> result B) i l ys :
  mapi_from f i l = Ok ys <->
  length ys = length l /\
  forall k x y, l !! k = Some x -> ys !! k = Some y -> f (i + k) x = Ok y.
Proof.
  revert i ys. induction l as [|x l IH]; intros i ys; cbn [mapi_from].
  - split; [intros [= <-]; split; [done|intros; done]|].
    intros [Hlen _]. by destruct ys.
  - rewrite bind_ok. setoid_rewrite bind_ok. setoid_rewrite IH. split.
    + intros (y & Hy & ys' & [Hlen Hall] & [= <-]). split; [cbn; congruence|].
      intros [|k] x' y' Hx' Hy'; simplify_eq/=; [by rewrite Nat.add_0_r|].
      rewrite Nat.add_succ_r. by apply (Hall k).
    + destruct ys as [|y ys]; intros [Hlen Hall]; [done|].
      exists y. split; [by specialize (Hall 0 x y eq_refl eq_refl); rewrite Nat.add_0_r in Hall|].
      exists ys. split; [|done]. split; [cbn in Hlen; lia|].
      intros k x' y' Hx' Hy'. specialize (Hall (S k) x' y' Hx' Hy').
      by rewrite Nat.add_succ_r in Hall.
Qed.

(** A mapped array is accepted exactly when each element is, and the outputs
    line up with the inputs. *)
Lemma mapi_ok {A B} (f : nat -> A -> result B) l ys :
  mapi f l = Ok ys <->
  length ys = length l /\
  forall k x y, l !! k = Some x -> ys !! k = Some y -> f k x = Ok y.
Proof. apply mapi_from_ok. Qed.

Lemma mapi_forall {A B} (f : nat -> A -> result B) (P : B -> Prop) l ys :
  mapi f l = Ok ys -> (forall i x y, f i x = Ok y -> P y) -> Forall P ys.
Proof.
  intros [Hlen Hall]%mapi_ok HP. apply Forall_lookup. intros k y Hy.
  destruct (lookup_lt_is_Some_2 l k) as [x Hx].
  { rewrite <- Hlen. by eapply lookup_lt_Some. }
  eapply HP, Hall; eauto.
Qed.

Lemma eachi_from_ok {A} (f : nat -> A -> result unit) i l :
  eachi_from f i l = Ok tt <-> forall k x, l !! k = Some x -> f (i + k) x = Ok tt.
Proof.
  revert i. induction l as [|x l IH]; intros i; cbn [eachi_from].
  - split; [intros _ k x' H; done|done].
  - rewrite bind_ok. split.
    + intros ([] & Hx & Hl) [|k] x' Hk; simplify_eq/=; [by rewrite Nat.add_0_r|].
      rewrite Nat.add_succ_r. by apply (proj1 (IH (S i)) Hl).
    + intros Hall. exists tt. split.
      * specialize (Hall 0 x eq_refl). by rewrite Nat.add_0_r in Hall.
      * apply IH. intros k x' Hk. specialize (Hall (S k) x' Hk).
        by rewrite Nat.add_succ_r in Hall.
Qed.

Lemma eachi_ok {A} (f : nat -> A -> result unit) l :
  eachi f l = Ok tt <-> forall k x, l !! k = Some x -> f k x = Ok tt.
Proof. apply eachi_from_ok. Qed.
