(* ===== verification/JsString.v ===== *)
(** JavaScript strings: the string operations the extension uses, and their
    lemmas.

    A string is a sequence of code units; here a code unit is an 8-bit
    character, i.e. the model covers strings over U+0000 to U+00FF.  On that
    range [toLocaleLowerCase("en-US")], [trim] and the code-unit order [<] are
    the functions below exactly (no character of the range changes its length
    when lower-cased). *)

From Stdlib Require Import Ascii String List NArith.
From stdpp Require Import base option list strings.
From S2P Require Import Prelude.

Local Open Scope string_scope.

Notation "s1 ++ s2" := (String.append s1 s2) : string_scope.
#[global] Arguments String.append : simpl nomatch.

(** ** Characters *)

Definition slash : ascii := "/".
Definition backslash : ascii := "\".

(** White space and line terminators of [String.prototype.trim]. *)
Definition is_space (c : ascii) : bool :=
  match N_of_ascii c with
  | 9 | 10 | 11 | 12 | 13 | 32 | 160 => true
  | _ => false
  end%N.

Definition lower_char (c : ascii) : ascii :=
  let n := N_of_ascii c in
  if (((65 <=? n) && (n <=? 90)) || ((192 <=? n) && (n <=? 222) && negb (n =? 215)))%N
  then ascii_of_N (n + 32) else c.

(** ** Operations *)

Fixpoint toLocaleLowerCase (s : string) : string :=
  match s with
  | "" => ""
  | String c s' => String (lower_char c) (toLocaleLowerCase s')
  end.

Fixpoint all_space (s : string) : bool :=
  match s with
  | "" => true
  | String c s' => is_space c && all_space s'
  end.

Fixpoint trim_start (s : string) : string :=
  match s with
  | String c s' => if is_space c then trim_start s' else s
  | "" => ""
  end.

Fixpoint trim_end (s : string) : string :=
  match s with
  | "" => ""
  | String c s' => if all_space s then "" else String c (trim_end s')
  end.

Definition trim (s : string) : string := trim_end (trim_start s).

(** [s.startsWith(p)] *)
Fixpoint startsWith (s p : string) {struct p} : bool :=
  match p, s with
  | "", _ => true
  | String a p', String b s' => bool_decide (a = b) && startsWith s' p'
  | String _ _, "" => false
  end.

(** [s.includes(c)] for a one-character string [c] *)
Fixpoint includes (s : string) (c : ascii) : bool :=
  match s with
  | "" => false
  | String a s' => bool_decide (a = c) || includes s' c
  end.

(** [s.endsWith(c)] *)
Fixpoint endsWith (s : string) (c : ascii) : bool :=
  match s with
  | "" => false
  | String a "" => bool_decide (a = c)
  | String _ s' => endsWith s' c
  end.

(** [s.slice(n)] and [s.slice(0, n)] *)
Fixpoint slice_from (n : nat) (s : string) : string :=
  match n, s with
  | O, _ => s
  | S n', String _ s' => slice_from n' s'
  | S _, "" => ""
  end.

Fixpoint slice_to (n : nat) (s : string) : string :=
  match n, s with
  | S n', String a s' => String a (slice_to n' s')
  | _, _ => ""
  end.

(** [s.lastIndexOf(c)], [None] for -1 *)
Fixpoint lastIndexOf (s : string) (c : ascii) : option nat :=
  match s with
  | "" => None
  | String a s' =>
      match lastIndexOf s' c with
      | Some i => Some (S i)
      | None => if bool_decide (a = c) then Some 0 else None
      end
  end.

(** [s.split(c)]: always at least one piece *)
Fixpoint split (s : string) (c : ascii) : list string :=
  match s with
  | "" => [""]
  | String a s' =>
      match split s' c with
      | [] => [String a ""]
      | piece :: rest =>
          if bool_decide (a = c) then "" :: piece :: rest
          else String a piece :: rest
      end
  end.

(** [s.replaceAll(a, b)] for characters *)
Fixpoint replaceAll (s : string) (a b : ascii) : string :=
  match s with
  | "" => ""
  | String x s' => String (if bool_decide (x = a) then b else x) (replaceAll s' a b)
  end.

(** [s.replace(/c+$/u, "")] *)
Fixpoint strip_trailing (s : string) (c : ascii) : string :=
  match s with
  | "" => ""
  | String a s' =>
      match strip_trailing s' c with
      | "" => if bool_decide (a = c) then "" else String a ""
      | r => String a r
      end
  end.

(** The three-way comparison the sources write with [<] and [>]. *)
Definition compareText (left right : string) : comparison := String.compare left right.

(** [value.trim().length > 0] *)
Definition isNonEmptyString (s : string) : bool := negb (bool_decide (trim s = "")).

Lemma all_space_app s1 s2 : all_space (s1 ++ s2)%string = all_space s1 && all_space s2.
Proof. induction s1 as [|c s IH]; [done|]. cbn. rewrite IH. by destruct (is_space c). Qed.

(** [String(n)] for a non-negative integer, as used in field paths. *)
Definition digit (n : nat) : ascii := ascii_of_nat (48 + n).
Fixpoint decimal_go (fuel n : nat) (acc : string) : string :=
  match fuel with
  | O => acc
  | S fuel' =>
      let acc' := String (digit (n mod 10)) acc in
      match n / 10 with O => acc' | q => decimal_go fuel' q acc' end
  end.
Definition decimal (n : nat) : string := decimal_go (S n) n "".

(** ** Lemmas: append *)

Lemma app_nil_r s : s ++ "" = s.
Proof. induction s as [|a s IH]; cbn; by rewrite ?IH. Qed.

Lemma app_assoc s1 s2 s3 : (s1 ++ s2) ++ s3 = s1 ++ (s2 ++ s3).
Proof. induction s1 as [|a s1 IH]; cbn; by rewrite ?IH. Qed.

Lemma app_inj_l s s1 s2 : s ++ s1 = s ++ s2 -> s1 = s2.
Proof. induction s as [|a s IH]; cbn; [done|]. intros [= H]. auto. Qed.

Lemma length_app s1 s2 : String.length (s1 ++ s2) = String.length s1 + String.length s2.
Proof. induction s1 as [|a s1 IH]; cbn; [done|]. by rewrite IH. Qed.

(** ** Lemmas: prefixes and slices *)

Lemma startsWith_iff s p : startsWith s p = true <-> exists r, s = p ++ r.
Proof.
  revert s. induction p as [|a p IH]; intros s.
  - split; [intros _; by exists s|done].
  - destruct s as [|b s]; cbn.
    + split; [done|]. by intros [r [=]].
    + rewrite andb_true_iff, bool_decide_eq_true, IH. split.
      * intros [-> [r ->]]. by exists r.
      * intros [r [= -> ->]]. split; [done|]. by exists r.
Qed.

Lemma startsWith_app p r : startsWith (p ++ r) p = true.
Proof. apply startsWith_iff. by exists r. Qed.

Lemma startsWith_trans s p q :
  startsWith s p = true -> startsWith p q = true -> startsWith s q = true.
Proof.
  rewrite !startsWith_iff. intros [r ->] [r' ->]. exists (r' ++ r). by rewrite app_assoc.
Qed.

Lemma slice_from_app p r : slice_from (String.length p) (p ++ r) = r.
Proof. induction p as [|a p IH]; cbn; [by destruct r|done]. Qed.

Lemma slice_to_app p r : slice_to (String.length p) (p ++ r) = p.
Proof. induction p as [|a p IH]; cbn; [by destruct r|by rewrite IH]. Qed.

(** ** Lemmas: membership of a character *)

Lemma includes_app s1 s2 c : includes (s1 ++ s2) c = includes s1 c || includes s2 c.
Proof. induction s1 as [|a s1 IH]; cbn; [done|]. rewrite IH. by rewrite orb_assoc. Qed.

Lemma includes_false_cons a s c :
  includes (String a s) c = false <-> a <> c /\ includes s c = false.
Proof. cbn. rewrite orb_false_iff, bool_decide_eq_false. done. Qed.

Lemma lastIndexOf_None s c : lastIndexOf s c = None <-> includes s c = false.
Proof.
  induction s as [|a s IH]; [done|]. rewrite includes_false_cons, <- IH. cbn.
  destruct (lastIndexOf s c) as [i|]; [naive_solver|].
  case_bool_decide; naive_solver.
Qed.

Lemma lastIndexOf_app p r c :
  includes r c = false -> lastIndexOf (p ++ String c r) c = Some (String.length p).
Proof.
  intros Hr. induction p as [|b p IHp]; cbn; [|by rewrite IHp].
  rewrite (proj2 (lastIndexOf_None r c) Hr). by rewrite bool_decide_true.
Qed.

Lemma lastIndexOf_Some s c i :
  lastIndexOf s c = Some i <->
  exists p r, s = p ++ String c r /\ String.length p = i /\ includes r c = false.
Proof.
  split.
  - revert i. induction s as [|a s IH]; intros i; cbn; [done|].
    destruct (lastIndexOf s c) as [j|] eqn:E.
    + intros [= <-]. destruct (IH j eq_refl) as (p & r & -> & <- & Hr).
      by exists (String a p), r.
    + apply lastIndexOf_None in E. case_bool_decide as Ha; [|done].
      intros [= <-]. subst. by exists "", s.
  - intros (p & r & -> & <- & Hr). by apply lastIndexOf_app.
Qed.

(** ** Lemmas: lower-casing *)

Lemma lower_char_slash c : lower_char c = slash <-> c = slash.
Proof. destruct c as [[][][][][][][][]]; vm_compute; split; congruence. Qed.

Lemma lower_char_idem c : lower_char (lower_char c) = lower_char c.
Proof. by destruct c as [[][][][][][][][]]. Qed.

Lemma lower_app s1 s2 :
  toLocaleLowerCase (s1 ++ s2) = toLocaleLowerCase s1 ++ toLocaleLowerCase s2.
Proof. induction s1 as [|a s1 IH]; cbn; [done|]. by rewrite IH. Qed.

Lemma lower_idem s : toLocaleLowerCase (toLocaleLowerCase s) = toLocaleLowerCase s.
Proof. induction s as [|a s IH]; cbn; [done|]. by rewrite IH, lower_char_idem. Qed.

Lemma length_lower s : String.length (toLocaleLowerCase s) = String.length s.
Proof. induction s as [|a s IH]; cbn; [done|]. by rewrite IH. Qed.

Lemma lower_nil s : toLocaleLowerCase s = "" <-> s = "".
Proof. by destruct s. Qed.

Lemma includes_lower_slash s : includes (toLocaleLowerCase s) slash = includes s slash.
Proof.
  induction s as [|a s IH]; cbn; [done|]. rewrite IH. f_equal.
  apply bool_decide_ext, lower_char_slash.
Qed.

Lemma lastIndexOf_lower_slash s :
  lastIndexOf (toLocaleLowerCase s) slash = lastIndexOf s slash.
Proof.
  induction s as [|a s IH]; cbn; [done|]. rewrite IH.
  by rewrite (bool_decide_ext _ _ (lower_char_slash a)).
Qed.

Lemma slice_to_lower n s : slice_to n (toLocaleLowerCase s) = toLocaleLowerCase (slice_to n s).
Proof. revert s. induction n as [|n IH]; intros [|a s]; cbn; by rewrite ?IH. Qed.

(** ** Lemmas: splitting *)

Fixpoint join (l : list string) (c : ascii) : string :=
  match l with
  | [] => ""
  | [x] => x
  | x :: l' => x ++ String c (join l' c)
  end.

Lemma split_nonempty s c : split s c <> [].
Proof. destruct s; cbn; [done|]. destruct (split s c); [done|]. by case_bool_decide. Qed.

Lemma join_cons x l c : l <> [] -> join (x :: l) c = x ++ String c (join l c).
Proof. by destruct l. Qed.

(** Joining the pieces of a split gives the string back. *)
Lemma join_split s c : join (split s c) c = s.
Proof.
  induction s as [|a s IH]; [done|]. cbn [split].
  pose proof (split_nonempty s c) as Hne.
  destruct (split s c) as [|piece rest]; [done|]. case_bool_decide as Ha.
  - rewrite join_cons by done. cbn [String.append]. by rewrite IH, Ha.
  - rewrite <- IH. by destruct rest.
Qed.

Lemma split_no_sep s c : Forall (fun p => includes p c = false) (split s c).
Proof.
  induction s as [|a s IH]; cbn [split]; [by repeat constructor|].
  pose proof (split_nonempty s c) as Hne.
  destruct (split s c) as [|piece rest]; [done|].
  apply Forall_cons in IH as [Hp Hr]. case_bool_decide as Ha.
  - by repeat constructor.
  - constructor; [|done]. by apply includes_false_cons.
Qed.

Lemma split_no_sep_single s c : includes s c = false -> split s c = [s].
Proof.
  induction s as [|a s IH]; [done|]. intros [Ha Hs]%includes_false_cons.
  cbn [split]. rewrite IH by done. by rewrite bool_decide_false.
Qed.

Lemma split_app p r c :
  includes p c = false -> split (p ++ String c r) c = p :: split r c.
Proof.
  induction p as [|a p IH]; intros Hp.
  - cbn [String.append split]. pose proof (split_nonempty r c).
    destruct (split r c); [done|]. by rewrite bool_decide_true.
  - apply includes_false_cons in Hp as [Ha Hp]. cbn [String.append split].
    rewrite IH by done. by rewrite bool_decide_false.
Qed.

(** A last separator splits a string in one way. *)
Lemma app_sep_inj p p' r r' c :
  includes r c = false -> includes r' c = false ->
  (p ++ String c r = p' ++ String c r')%string -> p = p' /\ r = r'.
Proof.
  intros Hr Hr' Heq. pose proof (lastIndexOf_app p r c Hr) as Hi.
  rewrite Heq, (lastIndexOf_app p' r' c Hr') in Hi. injection Hi as Hlen.
  assert (p = p') as ->.
  { rewrite <- (slice_to_app p (String c r)), <- (slice_to_app p' (String c r')). by rewrite Heq, Hlen. }
  apply app_inj_l in Heq. by injection Heq.
Qed.
