(* ===== verification/JsMap.v ===== *)
(** JavaScript [Map], [Set] and [Array.prototype.sort].

    A [Map] iterates in insertion order: setting a present key keeps its place,
    setting a new one appends, deleting removes.  The order is visible (the
    stores copy [map.values()] into arrays), so a map is the list of its
    entries.  [to_gmap] forgets the order and relates the operations to
    stdpp's finite maps. *)

From Stdlib Require Import List Permutation Sorted NArith Ascii String.
From stdpp Require Import base option list gmap.
From S2P Require Import Prelude.

(** ** Maps *)
Section jsmap.
Context {K V : Type} `{EqDecision K}.
Implicit Types (m : list (K * V)) (k : K) (v : V).

Definition map_get m k : option V :=
  snd <$> List.find (fun e => bool_decide (fst e = k)) m.

Definition map_has m k : bool :=
  match map_get m k with Some _ => true | None => false end.

Fixpoint map_set m k v : list (K * V) :=
  match m with
  | [] => [(k, v)]
  | (k', v') :: m' => if bool_decide (k' = k) then (k, v) :: m' else (k', v') :: map_set m' k v
  end.

Definition map_delete m k : list (K * V) :=
  List.filter (fun e => negb (bool_decide (fst e = k))) m.

Definition map_keys m : list K := map fst m.
Definition map_values m : list V := map snd m.
Definition map_size m : nat := length m.

(** [new Map(entries)] *)
Definition map_of (l : list (K * V)) : list (K * V) :=
  fold_left (fun m e => map_set m (fst e) (snd e)) l [].

(** The keys of a [Map] are pairwise distinct. *)
Definition map_wf m : Prop := NoDup (map_keys m).

Lemma map_get_cons k' v' m k :
  map_get ((k', v') :: m) k = if bool_decide (k' = k) then Some v' else map_get m k.
Proof. unfold map_get. cbn. by case_bool_decide. Qed.

Lemma map_get_set m k v k' :
  map_get (map_set m k v) k' = if bool_decide (k = k') then Some v else map_get m k'.
Proof.
  induction m as [|[k0 v0] m IH]; cbn [map_set].
  - by rewrite map_get_cons.
  - destruct (bool_decide_reflect (k0 = k)) as [->|H0]; rewrite !map_get_cons.
    + by repeat case_bool_decide.
    + rewrite IH. repeat case_bool_decide; naive_solver.
Qed.

Lemma map_get_set_eq m k v : map_get (map_set m k v) k = Some v.
Proof. rewrite map_get_set. by rewrite bool_decide_true. Qed.

Lemma map_get_set_ne m k v k' : k <> k' -> map_get (map_set m k v) k' = map_get m k'.
Proof. intros H. rewrite map_get_set. by rewrite bool_decide_false. Qed.

Lemma map_get_delete m k k' :
  map_get (map_delete m k) k' = if bool_decide (k = k') then None else map_get m k'.
Proof.
  induction m as [|[k0 v0] m IH]; [cbn; by case_bool_decide|].
  unfold map_delete. cbn [List.filter fst].
  destruct (bool_decide_reflect (k0 = k)) as [->|H0]; cbn [negb];
    rewrite !map_get_cons; fold (map_delete m k); rewrite IH;
    repeat case_bool_decide; naive_solver.
Qed.

Lemma map_get_delete_eq m k : map_get (map_delete m k) k = None.
Proof. rewrite map_get_delete. by rewrite bool_decide_true. Qed.

Lemma map_get_delete_ne m k k' : k <> k' -> map_get (map_delete m k) k' = map_get m k'.
Proof. intros H. rewrite map_get_delete. by rewrite bool_decide_false. Qed.

Lemma map_get_None m k : map_get m k = None <-> k ∉ map_keys m.
Proof.
  induction m as [|[k0 v0] m IH]; [by cbn; split; [intros _; apply not_elem_of_nil|]|].
  rewrite map_get_cons. cbn [map_keys map fst]. rewrite not_elem_of_cons.
  change (map fst m) with (map_keys m). case_bool_decide; naive_solver.
Qed.

Lemma map_get_elem m k v : map_wf m -> map_get m k = Some v <-> (k, v) ∈ m.
Proof.
  unfold map_wf. induction m as [|[k0 v0] m IH]; intros Hwf.
  - cbn. split; [done|]. by intros ?%elem_of_nil.
  - cbn in Hwf. apply NoDup_cons in Hwf as [Hnot Hwf]. rewrite map_get_cons, elem_of_cons.
    case_bool_decide as H0; [|rewrite IH by done; naive_solver].
    subst. split; [naive_solver|]. intros [?|Hin]; [naive_solver|].
    exfalso. apply Hnot. apply list_elem_of_fmap. by exists (k, v).
Qed.

Lemma map_get_Some_value m k v : map_get m k = Some v -> v ∈ map_values m.
Proof.
  induction m as [|[k0 v0] m IH]; [done|]. rewrite map_get_cons. cbn [map_values map snd].
  rewrite elem_of_cons. case_bool_decide; naive_solver.
Qed.

Lemma map_get_Some_key m k v : map_get m k = Some v -> k ∈ map_keys m.
Proof.
  intros Hg. destruct (decide (k ∈ map_keys m)) as [|Hn]; [done|].
  apply map_get_None in Hn. congruence.
Qed.

Lemma elem_of_values_set m k v v' : v' ∈ map_values (map_set m k v) -> v' = v \/ v' ∈ map_values m.
Proof.
  induction m as [|[k0 v0] m IH]; cbn [map_set map_values map snd].
  - intros ->%list_elem_of_singleton. by left.
  - case_bool_decide; cbn; rewrite !elem_of_cons; [naive_solver|]. fold (map_values m). naive_solver.
Qed.

Lemma map_set_set m k v v' : map_set (map_set m k v) k v' = map_set m k v'.
Proof.
  induction m as [|[k0 v0] m IH]; cbn [map_set]; [by rewrite bool_decide_true|].
  case_bool_decide as Hk; cbn [map_set]; [by rewrite bool_decide_true|].
  rewrite bool_decide_false by done. by rewrite IH.
Qed.

Lemma map_set_fresh m k v : k ∉ map_keys m -> map_set m k v = m ++ [(k, v)].
Proof.
  induction m as [|[k' v'] m IH]; [done|]. cbn [map_keys map fst map_set].
  intros [Hne Hn]%not_elem_of_cons. rewrite bool_decide_false by done. by rewrite IH.
Qed.

Lemma map_value_get m v :
  map_wf m -> v ∈ map_values m -> exists k, map_get m k = Some v.
Proof.
  intros Hwf Hv. apply list_elem_of_fmap in Hv as ([k v'] & -> & Hin).
  exists k. by apply map_get_elem.
Qed.

Lemma map_keys_set_in m k v : k ∈ map_keys m -> map_keys (map_set m k v) = map_keys m.
Proof.
  induction m as [|[k0 v0] m IH]; cbn [map_keys map map_set fst]; [by intros ?%elem_of_nil|].
  case_bool_decide; [by subst|]. intros [->|Hin]%elem_of_cons; [done|].
  cbn. f_equal. by apply IH.
Qed.

Lemma map_keys_set_new m k v :
  k ∉ map_keys m -> map_keys (map_set m k v) = map_keys m ++ [k].
Proof.
  induction m as [|[k0 v0] m IH]; cbn [map_keys map map_set fst]; [done|].
  intros [Hne Hn]%not_elem_of_cons. rewrite bool_decide_false by done.
  cbn. f_equal. by apply IH.
Qed.

Lemma elem_of_keys_set m k v k' : k' ∈ map_keys (map_set m k v) <-> k' = k \/ k' ∈ map_keys m.
Proof.
  destruct (decide (k ∈ map_keys m)) as [Hin|Hn].
  - rewrite map_keys_set_in by done. naive_solver.
  - rewrite map_keys_set_new by done. rewrite elem_of_app, list_elem_of_singleton. naive_solver.
Qed.

Lemma map_size_set m k v :
  map_size (map_set m k v) =
  if decide (k ∈ map_keys m) then map_size m else S (map_size m).
Proof.
  unfold map_size. rewrite <- (length_map fst (map_set m k v)), <- (length_map fst m).
  fold (map_keys (map_set m k v)) (map_keys m). case_decide.
  - by rewrite map_keys_set_in.
  - rewrite map_keys_set_new by done. rewrite length_app. cbn. lia.
Qed.

Lemma map_wf_nil : map_wf [].
Proof. constructor. Qed.

Lemma map_wf_set m k v : map_wf m -> map_wf (map_set m k v).
Proof.
  unfold map_wf. intros Hwf. destruct (decide (k ∈ map_keys m)) as [Hin|Hn].
  - by rewrite map_keys_set_in.
  - rewrite map_keys_set_new by done. apply NoDup_app. repeat split; [done| |].
    + intros x Hx ->%list_elem_of_singleton. done.
    + apply NoDup_singleton.
Qed.

Lemma map_keys_delete m k : map_keys (map_delete m k) = List.filter (fun k' => negb (bool_decide (k' = k))) (map_keys m).
Proof.
  unfold map_delete, map_keys. induction m as [|[k0 v0] m IH]; cbn; [done|].
  case_bool_decide; cbn; by rewrite IH.
Qed.

Lemma elem_of_keys_delete m k k' : k' ∈ map_keys (map_delete m k) <-> k' <> k /\ k' ∈ map_keys m.
Proof.
  rewrite map_keys_delete, !list_elem_of_In, filter_In, <- list_elem_of_In.
  rewrite negb_true_iff, bool_decide_eq_false. naive_solver.
Qed.

Lemma map_wf_delete m k : map_wf m -> map_wf (map_delete m k).
Proof.
  unfold map_wf. intros Hwf. rewrite map_keys_delete. apply NoDup_ListNoDup, List.NoDup_filter.
  by apply NoDup_ListNoDup.
Qed.

Lemma map_delete_size m k : map_size (map_delete m k) <= map_size m.
Proof. apply filter_length_le. Qed.

Lemma map_wf_fold l m : map_wf m -> map_wf (fold_left (fun m e => map_set m (fst e) (snd e)) l m).
Proof. revert m. induction l as [|e l IH]; intros m Hm; cbn; [done|]. by apply IH, map_wf_set. Qed.

Lemma map_wf_of l : map_wf (map_of l).
Proof. apply map_wf_fold, map_wf_nil. Qed.
End jsmap.

#[export] Hint Resolve map_wf_nil map_wf_set map_wf_delete map_wf_of : js.

Section jsmap_bulk.
Context {K V : Type} `{EqDecision K}.
Implicit Types (m : list (K * V)).

(** A list of entries with distinct keys is the map it builds. *)
Lemma map_of_fold_app (l : list (K * V)) m :
  NoDup (map_keys (m ++ l)) ->
  fold_left (fun m e => map_set m (fst e) (snd e)) l m = m ++ l.
Proof.
  revert m. induction l as [|[k v] l IH]; intros m Hnd; cbn; [by rewrite app_nil_r|].
  assert (map_set m k v = m ++ [(k, v)]) as ->.
  { unfold map_keys in Hnd. rewrite map_app in Hnd. cbn in Hnd.
    apply NoDup_app in Hnd as (_ & Hdisj & _).
    assert (k ∉ map fst m) as Hk by (intros Hin; apply (Hdisj k Hin), elem_of_cons; by left).
    clear IH Hdisj. induction m as [|[k0 v0] m IHm]; cbn; [done|].
    cbn in Hk. apply not_elem_of_cons in Hk as [Hne Hk].
    rewrite bool_decide_false by done. by rewrite IHm. }
  rewrite IH; by rewrite <- app_assoc.
Qed.

Lemma map_of_NoDup (l : list (K * V)) : NoDup (map_keys l) -> map_of l = l.
Proof. intros H. unfold map_of. by rewrite map_of_fold_app. Qed.

(** The last binding wins in a bulk update. *)
Lemma map_get_fold_set (l : list (K * V)) m k :
  map_get (fold_left (fun m e => map_set m (fst e) (snd e)) l m) k =
  match map_get (rev l) k with Some v => Some v | None => map_get m k end.
Proof.
  induction l as [|[k0 v0] l IH] using rev_ind; [done|].
  rewrite fold_left_app, rev_app_distr. cbn [fold_left rev app fst snd].
  rewrite map_get_set. rewrite map_get_cons. by case_bool_decide.
Qed.

Lemma map_get_fold_delete l m k :
  map_get (fold_left map_delete l m) k = if bool_decide (k ∈ l) then None else map_get m k.
Proof.
  revert m. induction l as [|k0 l IH]; intros m; cbn [fold_left].
  - by rewrite bool_decide_false by apply not_elem_of_nil.
  - rewrite IH, map_get_delete. repeat case_bool_decide; try done; set_solver.
Qed.

Lemma map_wf_fold_delete l m : map_wf m -> map_wf (fold_left map_delete l m).
Proof. revert m. induction l as [|k l IH]; intros m Hm; cbn [fold_left]; [done|]. by apply IH, map_wf_delete. Qed.

(** A loop that deletes by a computed key the elements it selects. *)
Lemma map_get_fold_delete_if {A} (P : A -> bool) (f : A -> K) l m k :
  map_get (fold_left (fun m a => if P a then map_delete m (f a) else m) l m) k =
  if existsb (fun a => P a && bool_decide (f a = k)) l then None else map_get m k.
Proof.
  revert m. induction l as [|a l IH]; intros m; cbn [fold_left existsb]; [done|].
  rewrite IH. destruct (existsb _ l); [by rewrite orb_true_r|]. rewrite orb_false_r.
  destruct (P a); [|done]. by rewrite map_get_delete.
Qed.

Lemma map_wf_fold_delete_if {A} (P : A -> bool) (f : A -> K) l m :
  map_wf m -> map_wf (fold_left (fun m a => if P a then map_delete m (f a) else m) l m).
Proof. revert m. induction l as [|a l IH]; intros m ?; cbn; [done|]. apply IH. destruct (P a); auto with js. Qed.

(** A filter on entries keeps exactly the accepted bindings. *)
Lemma map_get_filter (f : K * V -> bool) m k :
  map_wf m ->
  map_get (List.filter f m) k =
  match map_get m k with Some v => if f (k, v) then Some v else None | None => None end.
Proof.
  unfold map_wf. induction m as [|[k0 v0] m IH]; intros Hwf; [done|].
  cbn in Hwf. apply NoDup_cons in Hwf as [Hnot Hwf].
  rewrite map_get_cons. cbn [List.filter]. destruct (bool_decide_reflect (k0 = k)) as [->|Hne].
  - destruct (f (k, v0)); [by rewrite map_get_cons, bool_decide_true|].
    rewrite IH by done. by rewrite (proj2 (map_get_None m k) Hnot).
  - destruct (f (k0, v0)); [rewrite map_get_cons, bool_decide_false by done|]; by apply IH.
Qed.

Lemma map_wf_filter (f : K * V -> bool) m : map_wf m -> map_wf (List.filter f m).
Proof.
  unfold map_wf. induction m as [|[k v] m IH]; intros Hwf; [done|]. cbn in *.
  apply NoDup_cons in Hwf as [Hn Hwf]. destruct (f (k, v)); cbn; [|by apply IH].
  apply NoDup_cons. split; [|by apply IH]. intros Hin. apply Hn.
  apply list_elem_of_fmap in Hin as (e & -> & He). apply list_elem_of_fmap. exists e.
  split; [done|]. apply list_elem_of_In in He. apply filter_In in He as [He _].
  by apply list_elem_of_In.
Qed.
End jsmap_bulk.

(** ** The finite-map view *)
Section to_gmap.
Context {K V : Type} `{Countable K}.

Definition to_gmap (m : list (K * V)) : gmap K V := list_to_map m.

Lemma lookup_to_gmap m k : to_gmap m !! k = map_get m k.
Proof.
  unfold to_gmap. induction m as [|[k0 v0] m IH]; [done|].
  cbn [list_to_map foldr fst snd]. rewrite lookup_insert, map_get_cons.
  case_decide; case_bool_decide; naive_solver.
Qed.

Lemma to_gmap_set m k v : to_gmap (map_set m k v) = <[k := v]> (to_gmap m).
Proof.
  apply map_eq. intros k'. rewrite lookup_insert, !lookup_to_gmap, map_get_set.
  by case_decide; case_bool_decide.
Qed.

Lemma to_gmap_delete m k : to_gmap (map_delete m k) = delete k (to_gmap m).
Proof.
  apply map_eq. intros k'. rewrite lookup_delete, !lookup_to_gmap, map_get_delete.
  by case_decide; case_bool_decide.
Qed.
End to_gmap.

(** ** Sets: insertion-ordered lists without repetition *)
Section jsset.
Context {A : Type} `{EqDecision A}.

Definition set_has (s : list A) (x : A) : bool := bool_decide (x ∈ s).
Definition set_add (s : list A) (x : A) : list A := if set_has s x then s else s ++ [x].
Definition set_delete (s : list A) (x : A) : list A :=
  List.filter (fun y => negb (bool_decide (y = x))) s.
Definition set_of (l : list A) : list A := fold_left set_add l [].

Lemma elem_of_set_add s x y : y ∈ set_add s x <-> y ∈ s \/ y = x.
Proof.
  unfold set_add, set_has. case_bool_decide; [naive_solver|].
  by rewrite elem_of_app, list_elem_of_singleton.
Qed.

Lemma elem_of_set_delete s x y : y ∈ set_delete s x <-> y ∈ s /\ y <> x.
Proof.
  unfold set_delete. rewrite !list_elem_of_In, filter_In, negb_true_iff, bool_decide_eq_false.
  done.
Qed.

Lemma elem_of_fold_set_add l s y : y ∈ fold_left set_add l s <-> y ∈ s \/ y ∈ l.
Proof.
  revert s. induction l as [|x l IH]; intros s; cbn; [set_solver|].
  rewrite IH, elem_of_set_add. set_solver.
Qed.

Lemma elem_of_set_of l y : y ∈ set_of l <-> y ∈ l.
Proof. unfold set_of. rewrite elem_of_fold_set_add. set_solver. Qed.

Lemma NoDup_set_add s x : NoDup s -> NoDup (set_add s x).
Proof.
  unfold set_add, set_has. case_bool_decide; [done|]. intros Hs. apply NoDup_app.
  split; [done|]. split; [|apply NoDup_singleton]. by intros y Hy ->%list_elem_of_singleton.
Qed.

Lemma NoDup_fold_set_add l s : NoDup s -> NoDup (fold_left set_add l s).
Proof. revert s. induction l as [|x l IH]; intros s Hs; cbn; [done|]. by apply IH, NoDup_set_add. Qed.

Lemma NoDup_set_of l : NoDup (set_of l).
Proof. apply NoDup_fold_set_add. constructor. Qed.
End jsset.

(** ** Comparators

    What [Array.prototype.sort] asks of a comparator: a total preorder. *)
Class Comparator {A} (cmp : A -> A -> comparison) : Prop := {
  cmp_antisym x y : cmp y x = CompOpp (cmp x y);
  cmp_trans x y z : cmp x y <> Gt -> cmp y z <> Gt -> cmp x z <> Gt;
}.

(** [c1 || c2] on the numbers two comparators return. *)
Definition or_else (c1 c2 : comparison) : comparison :=
  match c1 with Eq => c2 | _ => c1 end.

#[export] Instance nat_comparator : Comparator Nat.compare.
Proof.
  split; [intros; apply Nat.compare_antisym|]. intros x y z.
  rewrite !Nat.compare_gt_iff. lia.
Qed.

#[export] Instance N_comparator : Comparator N.compare.
Proof.
  split; [intros; apply N.compare_antisym|]. intros x y z.
  rewrite !N.compare_gt_iff. lia.
Qed.

Lemma comparator_flip {A} (cmp : A -> A -> comparison) : Comparator cmp -> Comparator (fun x y => cmp y x).
Proof. intros Hc. split; [intros; apply cmp_antisym|]. intros x y z H1 H2. eapply cmp_trans; eauto. Qed.

#[export] Instance comparator_on {A B} (f : A -> B) cmp :
  Comparator cmp -> Comparator (fun x y => cmp (f x) (f y)).
Proof. intros Hc. split; [intros; apply cmp_antisym|]. intros x y z. apply cmp_trans. Qed.

(** A strict step between two weak ones is strict. *)
Lemma cmp_strict {A} (cmp : A -> A -> comparison) `{!Comparator cmp} x y z :
  cmp x y <> Gt -> cmp y z <> Gt -> cmp x z = Eq -> cmp x y = Eq /\ cmp y z = Eq.
Proof.
  intros Hxy Hyz Hxz. assert (cmp z x <> Gt) as Hzx by (rewrite (cmp_antisym x z), Hxz; done).
  pose proof (cmp_trans z x y Hzx Hxy) as H1. pose proof (cmp_trans y z x Hyz Hzx) as H2.
  rewrite (cmp_antisym y z) in H1. rewrite (cmp_antisym x y) in H2.
  destruct (cmp x y), (cmp y z); cbn in *; done.
Qed.

#[export] Instance comparator_or_else {A} (c1 c2 : A -> A -> comparison) :
  Comparator c1 -> Comparator c2 -> Comparator (fun x y => or_else (c1 x y) (c2 x y)).
Proof.
  intros H1 H2. split.
  - intros x y. rewrite (cmp_antisym (cmp:=c1) x y), (cmp_antisym (cmp:=c2) x y). by destruct (c1 x y).
  - intros x y z Hxy Hyz. unfold or_else in *.
    assert (c1 x y <> Gt) as Axy by by destruct (c1 x y).
    assert (c1 y z <> Gt) as Ayz by by destruct (c1 y z).
    pose proof (cmp_trans x y z Axy Ayz) as Axz. destruct (c1 x z) eqn:E; [|done..].
    destruct (cmp_strict c1 x y z Axy Ayz E) as [E1 E2]. rewrite E1 in Hxy. rewrite E2 in Hyz.
    by eapply cmp_trans.
Qed.

#[export] Instance string_comparator : Comparator String.compare.
Proof.
  split; [intros x y; apply String.compare_antisym|].
  induction x as [|a x IH]; intros [|b y] [|c z]; cbn; try done. unfold Ascii.compare.
  intros Hxy Hyz.
  assert ((N_of_ascii a ?= N_of_ascii b)%N <> Gt) as Axy by by destruct (_ ?= _)%N.
  assert ((N_of_ascii b ?= N_of_ascii c)%N <> Gt) as Ayz by by destruct (N_of_ascii b ?= N_of_ascii c)%N.
  pose proof (cmp_trans _ _ _ Axy Ayz) as Axz. destruct (N_of_ascii a ?= N_of_ascii c)%N eqn:E; [|done..].
  destruct (cmp_strict N.compare _ _ _ Axy Ayz E) as [E1 E2]. rewrite E1 in Hxy. rewrite E2 in Hyz. eauto.
Qed.

(** ** Sorting

    [array.sort(cmp)] is stable; for a comparator that is a total preorder its
    result is determined, and insertion sort computes it. *)
Section sorting.
Context {A : Type} (cmp : A -> A -> comparison).

Fixpoint sort_insert (x : A) (l : list A) : list A :=
  match l with
  | [] => [x]
  | y :: l' => match cmp y x with Gt => x :: l | _ => y :: sort_insert x l' end
  end.

Definition sort (l : list A) : list A := fold_left (fun acc x => sort_insert x acc) l [].

Lemma sort_insert_perm x l : sort_insert x l ≡ₚ x :: l.
Proof.
  induction l as [|y l IH]; cbn; [done|]. destruct (cmp y x); try done;
    by rewrite IH, Permutation_swap.
Qed.

Lemma sort_perm l : sort l ≡ₚ l.
Proof.
  unfold sort. assert (forall acc, fold_left (fun acc x => sort_insert x acc) l acc ≡ₚ acc ++ l) as H.
  { induction l as [|x l IH]; intros acc; cbn; [by rewrite app_nil_r|].
    rewrite IH, sort_insert_perm. by rewrite <- Permutation_middle. }
  by rewrite H.
Qed.

Lemma elem_of_sort x l : x ∈ sort l <-> x ∈ l.
Proof. by rewrite sort_perm. Qed.

Context `{!Comparator cmp}.

Lemma cmp_total x y : cmp x y = Gt -> cmp y x <> Gt.
Proof. intros H. by rewrite (cmp_antisym x y), H. Qed.

Lemma sort_insert_sorted x l :
  StronglySorted (fun a b => cmp a b <> Gt) l ->
  StronglySorted (fun a b => cmp a b <> Gt) (sort_insert x l).
Proof.
  induction 1 as [|y l Hl IH Hy]; cbn; [by repeat constructor|].
  destruct (cmp y x) eqn:E.
  3: { constructor; [by constructor|]. constructor; [by apply cmp_total|].
       eapply Forall_impl; [exact Hy|]. intros z Hz. eapply cmp_trans; [by apply cmp_total|done]. }
  all: constructor; [done|]; rewrite sort_insert_perm; constructor; [congruence|done].
Qed.

Lemma sort_sorted l : StronglySorted (fun a b => cmp a b <> Gt) (sort l).
Proof.
  unfold sort. assert (forall acc, StronglySorted (fun a b => cmp a b <> Gt) acc ->
    StronglySorted (fun a b => cmp a b <> Gt) (fold_left (fun acc x => sort_insert x acc) l acc)) as H.
  { induction l as [|x l IH]; intros acc Hacc; cbn; [done|]. by apply IH, sort_insert_sorted. }
  apply H. constructor.
Qed.
End sorting.

#[global] Arguments map_get : simpl never.
#[global] Arguments map_delete : simpl never.
#[global] Arguments map_set : simpl never.
#[global] Arguments map_size : simpl never.
