(* ===== verification/JsValue.v ===== *)
(** Values of TypeScript type [unknown] that arrive as JSON. *)

From Stdlib Require Import ZArith String List.
From stdpp Require Import base option list strings.
From S2P Require Import Prelude JsString JsMap.

Local Open Scope string_scope.

(** A JSON number: an integer, or the fraction [num/den] of a number that is
    not one ([JSON.parse] gives doubles of both kinds). *)
Inductive js_number :=
  | NumInt (z : Z)
  | NumFraction (num den : Z).

(** An object carries its own properties in [Object.keys] order. *)
Inductive js_value :=
  | VNull
  | VBool (b : bool)
  | VNum (n : js_number)
  | VStr (s : string)
  | VArr (items : list js_value)
  | VObj (fields : list (string * js_value)).

(** [value[name]]; [None] is [undefined].  No name the parsers read is a
    property of [Array.prototype]. *)
Definition field (v : js_value) (name : string) : option js_value :=
  match v with
  | VObj fields => map_get fields name
  | _ => None
  end.

(** [Object.keys(value)] *)
Definition keys (v : js_value) : list string :=
  match v with
  | VObj fields => map_keys fields
  | VArr items => map decimal (seq 0 (length items))
  | _ => []
  end.

(** [typeof value === "object" && value !== null] *)
Definition isRecord (v : option js_value) : bool :=
  match v with
  | Some (VObj _) | Some (VArr _) => true
  | _ => false
  end.

(** The same, and [!Array.isArray(value)]. *)
Definition isPlainRecord (v : option js_value) : bool :=
  match v with
  | Some (VObj _) => true
  | _ => false
  end.

Definition nullable {A} (f : A -> js_value) (o : option A) : js_value :=
  match o with Some a => f a | None => VNull end.
