(* ===== verification/JsUri.v ===== *)
(** [encodeURIComponent] and [decodeURIComponent].

    Strings are sequences of code units below 256 (JsString.v).  Encoding is
    exact on them: a unit above 127 becomes the two percent-escaped bytes of its
    UTF-8 form, and it never throws, since they hold no surrogate.  On a text with
    a lone surrogate the real function throws a [URIError]; Utf8.v has the function
    on all texts ([encodeURIComponent_text]) and proves that the two are the same
    on the strings of this file ([encodeURIComponent_exact]).  Decoding is exact on every text whose decoded units are below
    256; it throws on malformed input, and also, in the model only, on escapes
    of larger code points, which no encoded string of the model contains
    ([decode_encode]). *)

From Stdlib Require Import NArith Ascii String List.
From stdpp Require Import base option list strings.
From S2P Require Import Prelude JsString.

Local Open Scope string_scope.

Definition percent : ascii := "%".

Definition between (lo hi : N) (c : ascii) : bool :=
  ((lo <=? N_of_ascii c) && (N_of_ascii c <=? hi))%N.

(** A-Z a-z 0-9 and the marks of RFC 2396. *)
Definition unreserved (c : ascii) : bool :=
  between 65 90 c || between 97 122 c || between 48 57 c || includes "-_.!~*'()" c.

Definition hex_digit (n : N) : ascii :=
  if (n <? 10)%N then ascii_of_N (48 + n) else ascii_of_N (55 + n).
Definition escape_byte (n : N) : string :=
  String percent (String (hex_digit (n / 16)) (String (hex_digit (n mod 16)) "")).

Definition encode_char (c : ascii) : string :=
  let n := N_of_ascii c in
  if unreserved c then String c ""
  else if (n <? 128)%N then escape_byte n
  else escape_byte (192 + n / 64) ++ escape_byte (128 + n mod 64).

Fixpoint encodeURIComponent (s : string) : string :=
  match s with
  | "" => ""
  | String c s' => encode_char c ++ encodeURIComponent s'
  end.

Definition hex_value (c : ascii) : option N :=
  let n := N_of_ascii c in
  if between 48 57 c then Some (n - 48)%N
  else if between 65 70 c then Some (n - 55)%N
  else if between 97 102 c then Some (n - 87)%N
  else None.

Definition byte_value (h l : ascii) : option N :=
  match hex_value h, hex_value l with
  | Some a, Some b => Some (16 * a + b)%N
  | _, _ => None
  end.

Definition URIError : js_error := PlainError "URI malformed".

Fixpoint decodeURIComponent (s : string) : result string :=
  match s with
  | "" => Ok ""
  | String c s' =>
    if negb (bool_decide (c = percent)) then String c <$> decodeURIComponent s'
    else match s' with
    | String h (String l rest) =>
      match byte_value h l with
      | None => Throw URIError
      | Some b =>
        if (b <? 128)%N then String (ascii_of_N b) <$> decodeURIComponent rest
        else if (b =? 194)%N || (b =? 195)%N then
          match rest with
          | String p (String h2 (String l2 rest2)) =>
            if negb (bool_decide (p = percent)) then Throw URIError
            else match byte_value h2 l2 with
            | Some b2 =>
              if (128 <=? b2)%N && (b2 <? 192)%N
              then String (ascii_of_N ((b - 192) * 64 + (b2 - 128))) <$> decodeURIComponent rest2
              else Throw URIError
            | None => Throw URIError
            end
          | _ => Throw URIError
          end
        else Throw URIError
      end
    | _ => Throw URIError
    end
  end.

Lemma decode_encode_char c s :
  decodeURIComponent (encode_char c ++ s) = String c <$> decodeURIComponent s.
Proof. destruct c as [[] [] [] [] [] [] [] []]; reflexivity. Qed.

(** Decoding an encoded component gives it back. *)
Lemma decode_encode s : decodeURIComponent (encodeURIComponent s) = Ok s.
Proof.
  induction s as [|c s IH]; [done|]. cbn [encodeURIComponent]. by rewrite decode_encode_char, IH.
Qed.

Lemma encodeURIComponent_inj s t : encodeURIComponent s = encodeURIComponent t -> s = t.
Proof. intros H. pose proof (decode_encode s) as Hs. rewrite H, decode_encode in Hs. congruence. Qed.
