(* ===== verification/StatusTypes.v ===== *)
(** The data of the status protocol: entries, snapshots, deltas and refresh
    targets.  Sources: status/types.ts, status/statusSnapshotRpcClient.ts,
    status/statusRefreshRpcClient.ts, status/statusSnapshotStore.ts. *)

From Stdlib Require Import ZArith String List.
From stdpp Require Import base option list strings.
From S2P Require Import Prelude JsString.

Local Open Scope string_scope.

(** ** types.ts *)

Inductive PathCasePolicy := CaseSensitive | CaseInsensitive.
Inductive FileEventKind := KCreate | KChange | KDelete | KRename | KMetadata.
Inductive RawWatcherEventKind := Created | Changed | Deleted.
Inductive StatusRefreshDepth := DEmpty | DFiles | DImmediates | DInfinity.

#[export] Instance PathCasePolicy_eq_dec : EqDecision PathCasePolicy.
Proof. solve_decision. Defined.
#[export] Instance FileEventKind_eq_dec : EqDecision FileEventKind.
Proof. solve_decision. Defined.
#[export] Instance StatusRefreshDepth_eq_dec : EqDecision StatusRefreshDepth.
Proof. solve_decision. Defined.

(** The string literals of [StatusRefreshDepth]. *)
Definition depth_name (d : StatusRefreshDepth) : string :=
  match d with
  | DEmpty => "empty" | DFiles => "files"
  | DImmediates => "immediates" | DInfinity => "infinity"
  end.

(** [boundaryRoots?] absent and empty behave alike ([?? []]). *)
Record RepositoryWatchScope := {
  scope_repositoryId : string;
  scope_epoch : Z;
  scope_workingCopyRoot : string;
  scope_pathCase : PathCasePolicy;
  scope_boundaryRoots : list string;
}.

Record DirtyFileEvent := {
  event_path : string;
  event_kind : FileEventKind;
  event_timestamp : Z;
}.

Record RawWatcherEvent := {
  raw_fsPath : string;
  raw_kind : RawWatcherEventKind;
  raw_timestamp : Z;
}.

Record StatusRefreshTarget := {
  target_path : string;
  target_depth : StatusRefreshDepth;
  target_reason : string;
}.

#[export] Instance StatusRefreshTarget_eq_dec : EqDecision StatusRefreshTarget.
Proof. solve_decision. Defined.

Record StatusRefreshRequest := {
  request_repositoryId : string;
  request_epoch : Z;
  request_targets : list StatusRefreshTarget;
}.

(** ** statusSnapshotRpcClient.ts *)

Inductive StatusSnapshotCompleteness := Complete | Partial | Stale.

#[export] Instance StatusSnapshotCompleteness_eq_dec : EqDecision StatusSnapshotCompleteness.
Proof. solve_decision. Defined.

Definition completeness_name (c : StatusSnapshotCompleteness) : string :=
  match c with Complete => "complete" | Partial => "partial" | Stale => "stale" end.

Record RepositoryIdentity := {
  identity_repositoryUuid : string;
  identity_repositoryRootUrl : string;
  identity_workingCopyRoot : string;
  identity_workspaceScopeRoot : string;
  identity_format : Z;
}.

Record LockInfo := {
  lock_token : option string;
  lock_owner : option string;
  lock_comment : option string;
  lock_createdDate : option string;
  lock_expiresDate : option string;
  lock_isRemote : bool;
}.

Record StatusEntry := {
  entry_path : string;
  entry_kind : string;
  entry_nodeStatus : string;
  entry_textStatus : string;
  entry_propertyStatus : string;
  entry_localStatus : string;
  entry_remoteStatus : string;
  entry_revision : Z;
  entry_changedRevision : Z;
  entry_changedAuthor : option string;
  entry_changedDate : option string;
  entry_changelist : option string;
  entry_lock : option LockInfo;
  entry_needsLock : bool;
  entry_copy : option string;
  entry_move : option string;
  entry_switched : bool;
  entry_depth : string;
  entry_conflict : option string;
  entry_conflictArtifacts : list string;
  entry_external : bool;
  entry_generation : Z;
}.

#[export] Instance LockInfo_eq_dec : EqDecision LockInfo.
Proof. solve_decision. Defined.
#[export] Instance StatusEntry_eq_dec : EqDecision StatusEntry.
Proof. solve_decision. Defined.

Record StatusSummary := {
  summary_localChanges : Z;
  summary_remoteChanges : Z;
  summary_conflicts : Z;
  summary_unversioned : Z;
}.

Record StatusSnapshot := {
  snapshot_repositoryId : string;
  snapshot_epoch : Z;
  snapshot_generation : Z;
  snapshot_completeness : StatusSnapshotCompleteness;
  snapshot_identity : RepositoryIdentity;
  snapshot_localEntries : list StatusEntry;
  snapshot_remoteEntries : list StatusEntry;
  snapshot_summary : StatusSummary;
  snapshot_timestamp : string;
  snapshot_source : string;
}.

(** ** statusRefreshRpcClient.ts *)

Record StatusCoverageScope := {
  coverage_path : string;
  coverage_depth : string;
  coverage_generation : Z;
  coverage_reason : string;
}.

(** [StatusSummaryDelta] has the shape of [StatusSummary]. *)
Record StatusSummaryDelta := {
  sdelta_localChanges : Z;
  sdelta_remoteChanges : Z;
  sdelta_conflicts : Z;
  sdelta_unversioned : Z;
}.

Record StatusDelta := {
  delta_repositoryId : string;
  delta_epoch : Z;
  delta_generation : Z;
  delta_coverage : list StatusCoverageScope;
  delta_upsert : list StatusEntry;
  delta_remove : list string;
  delta_remoteUpsert : list StatusEntry;
  delta_remoteRemove : list string;
  delta_summaryDelta : StatusSummaryDelta;
  delta_completeness : StatusSnapshotCompleteness;
  delta_timestamp : string;
  delta_source : string;
}.

(** ** statusSnapshotStore.ts *)

Record StatusStaleMark := {
  mark_repositoryId : string;
  mark_epoch : Z;
  mark_reason : string;
  mark_timestamp : string;
  mark_source : string;
}.
