(* ===== verification/StatusWire.v ===== *)
(** The wire clients of the status protocol.

    status/statusRefreshRpcClient.ts and status/statusSnapshotRpcClient.ts
    validate requests and parse responses.  The two files hold the same
    field parsers, each throwing its own error class; [Section Parsers] is that
    common text over the error constructor [invalid], and the modules
    [RefreshClient] and [SnapshotClient] instantiate it and add what is
    particular to each file. *)

From Stdlib Require Import ZArith Ascii String List Sorted.
From stdpp Require Import base option list strings.
From S2P Require Import Prelude JsString JsMap JsValue StatusTypes.

Local Open Scope string_scope.

Definition MAX_CONFLICT_ARTIFACTS_PER_ENTRY : nat := 4.

Inductive EntrySource := LocalSource | RemoteSource.

(** [field.child] *)
Definition dot (parent child : string) : string := parent ++ "." ++ child.
Definition at_index (parent : string) (index : nat) : string := dot parent (decimal index).

(** [path.replace(/[A-Z]/g, (c) => c.toLowerCase())] *)
Definition ascii_lower_char (c : ascii) : ascii :=
  let n := N_of_ascii c in
  if ((65 <=? n) && (n <=? 90))%N then ascii_of_N (n + 32) else c.
Fixpoint ascii_lower (s : string) : string :=
  match s with
  | "" => ""
  | String c s' => String (ascii_lower_char c) (ascii_lower s')
  end.

(** [isRepositoryRelativePath] of both files. *)
Definition safe_segment (part : string) : bool :=
  negb (bool_decide (part = "")) && negb (bool_decide (part = "."))
  && negb (bool_decide (part = "..")).

Definition isRepositoryRelativePath (path : string) : bool :=
  if bool_decide (path = ".") then true
  else
    let normalized := replaceAll path backslash slash in
    if startsWith normalized "/" || includes normalized ":" || includes normalized "000"
    then false
    else forallb safe_segment (split normalized slash).

Definition hasWorkingCopyAdminComponent (path : string) : bool :=
  existsb (fun component => bool_decide (toLocaleLowerCase component = ".svn")) (split path slash).

Definition hasConflict (conflict : option string)
    (localStatus nodeStatus textStatus propertyStatus : string) : bool :=
  negb (bool_decide (conflict = None)) || bool_decide (localStatus = "conflicted")
  || bool_decide (nodeStatus = "conflicted") || bool_decide (textStatus = "conflicted")
  || bool_decide (propertyStatus = "conflicted").

Definition ENTRY_KEYS : list string :=
  ["path"; "kind"; "nodeStatus"; "textStatus"; "propertyStatus"; "localStatus"; "remoteStatus";
   "revision"; "changedRevision"; "changedAuthor"; "changedDate"; "changelist"; "lock";
   "needsLock"; "copy"; "move"; "switched"; "depth"; "conflict"; "conflictArtifacts";
   "external"; "generation"].
Definition LOCK_KEYS : list string :=
  ["token"; "owner"; "comment"; "createdDate"; "expiresDate"; "isRemote"].
Definition SUMMARY_KEYS : list string := ["localChanges"; "remoteChanges"; "conflicts"; "unversioned"].

Section Parsers.
(** The file's [invalid...Response(field)] constructor, and
    [process.platform === "win32"]. *)
Variable invalid : string -> js_error.
Variable win32 : bool.

Definition canonicalStatusPathKey (path : string) : string :=
  if win32 then ascii_lower path else path.

Definition requireRecord (v : option js_value) (f : string) : result js_value :=
  match v with
  | Some (VObj fields) => Ok (VObj fields)
  | Some (VArr items) => Ok (VArr items)
  | _ => Throw (invalid f)
  end.

Definition requireExactKeys (v : js_value) (f : string) (expected : list string) : result unit :=
  eachi (fun _ key =>
    require (bool_decide (key ∈ expected))
      (invalid (if bool_decide (f = "result") then key else dot f key))) (keys v).

Definition requireArray (v : option js_value) (f : string) : result (list js_value) :=
  match v with
  | Some (VArr items) => Ok items
  | _ => Throw (invalid f)
  end.

Definition requireString (v : option js_value) (f : string) : result string :=
  match v with
  | Some (VStr s) => _ ← require (isNonEmptyString s) (invalid f); Ok s
  | _ => Throw (invalid f)
  end.

Definition requirePath (v : option js_value) (f : string) : result string :=
  path ← requireString v f;
  _ ← require (isRepositoryRelativePath path) (invalid f);
  Ok path.

Definition requireNullableString (v : option js_value) (f : string) : result (option string) :=
  match v with
  | Some VNull => Ok None
  | _ => s ← requireString v f; Ok (Some s)
  end.

Definition requireCompleteness (v : option js_value) (f : string) : result StatusSnapshotCompleteness :=
  completeness ← requireString v f;
  if bool_decide (completeness = "complete") then Ok Complete
  else if bool_decide (completeness = "partial") then Ok Partial
  else if bool_decide (completeness = "stale") then Ok Stale
  else Throw (invalid f).

Definition requireInteger (v : option js_value) (f : string) : result Z :=
  match v with
  | Some (VNum (NumInt z)) => _ ← require (isSafeInteger z) (invalid f); Ok z
  | _ => Throw (invalid f)
  end.

Definition requireNonNegativeInteger (v : option js_value) (f : string) : result Z :=
  match v with
  | Some (VNum (NumInt z)) => _ ← require (isNonNegativeSafeInteger z) (invalid f); Ok z
  | _ => Throw (invalid f)
  end.

Definition requireBoolean (v : option js_value) (f : string) : result bool :=
  match v with
  | Some (VBool b) => Ok b
  | _ => Throw (invalid f)
  end.

Definition parseLockInfo (rawLock : option js_value) (f : string) : result (option LockInfo) :=
  match rawLock with
  | Some VNull => Ok None
  | _ =>
    lock ← requireRecord rawLock f;
    _ ← requireExactKeys lock f LOCK_KEYS;
    token ← requireNullableString (field lock "token") (dot f "token");
    owner ← requireNullableString (field lock "owner") (dot f "owner");
    comment ← requireNullableString (field lock "comment") (dot f "comment");
    createdDate ← requireNullableString (field lock "createdDate") (dot f "createdDate");
    expiresDate ← requireNullableString (field lock "expiresDate") (dot f "expiresDate");
    isRemote ← requireBoolean (field lock "isRemote") (dot f "isRemote");
    Ok (Some {| lock_token := token; lock_owner := owner; lock_comment := comment;
                lock_createdDate := createdDate; lock_expiresDate := expiresDate;
                lock_isRemote := isRemote |})
  end.

(** The loop of [parseConflictArtifacts], with the closure's [seen] and
    [previous]. *)
Fixpoint artifacts_loop (f entryPathKey : string) (seen : list string) (previous : option string)
    (index : nat) (raw : list js_value) : result (list string) :=
  match raw with
  | [] => Ok []
  | artifact :: raw' =>
    path ← requirePath (Some artifact) (at_index f index);
    let pathKey := canonicalStatusPathKey path in
    _ ← require (negb (
           bool_decide (path = ".")
        || bool_decide (pathKey = entryPathKey)
        || hasWorkingCopyAdminComponent path
        || set_has seen pathKey
        || match previous with
           | Some p => match compareText p path with Lt => false | _ => true end
           | None => false
           end)) (invalid (at_index f index));
    rest ← artifacts_loop f entryPathKey (set_add seen pathKey) (Some path) (S index) raw';
    Ok (path :: rest)
  end.

Definition parseConflictArtifacts (raw : option js_value) (f entryPath : string) : result (list string) :=
  match raw with
  | Some (VArr items) =>
    _ ← require (length items <=? MAX_CONFLICT_ARTIFACTS_PER_ENTRY)%nat (invalid f);
    artifacts_loop f (canonicalStatusPathKey entryPath) [] None 0 items
  | _ => Throw (invalid f)
  end.

Definition parseStatusEntry (rawEntry : js_value) (f : string) (deltaGeneration : Z)
    (source : EntrySource) : result StatusEntry :=
  entry ← requireRecord (Some rawEntry) f;
  _ ← requireExactKeys entry f ENTRY_KEYS;
  generation ← requireNonNegativeInteger (field entry "generation") (dot f "generation");
  _ ← require (generation =? deltaGeneration)%Z (invalid (dot f "generation"));
  path ← requirePath (field entry "path") (dot f "path");
  conflict ← requireNullableString (field entry "conflict") (dot f "conflict");
  localStatus ← requireString (field entry "localStatus") (dot f "localStatus");
  nodeStatus ← requireString (field entry "nodeStatus") (dot f "nodeStatus");
  textStatus ← requireString (field entry "textStatus") (dot f "textStatus");
  propertyStatus ← requireString (field entry "propertyStatus") (dot f "propertyStatus");
  artifacts ← parseConflictArtifacts (field entry "conflictArtifacts") (dot f "conflictArtifacts") path;
  _ ← require (negb ((0 <? length artifacts)%nat
        && (match source with LocalSource => false | RemoteSource => true end
            || negb (hasConflict conflict localStatus nodeStatus textStatus propertyStatus))))
        (invalid (dot f "conflictArtifacts"));
  kind ← requireString (field entry "kind") (dot f "kind");
  remoteStatus ← requireString (field entry "remoteStatus") (dot f "remoteStatus");
  revision ← requireInteger (field entry "revision") (dot f "revision");
  changedRevision ← requireInteger (field entry "changedRevision") (dot f "changedRevision");
  changedAuthor ← requireNullableString (field entry "changedAuthor") (dot f "changedAuthor");
  changedDate ← requireNullableString (field entry "changedDate") (dot f "changedDate");
  changelist ← requireNullableString (field entry "changelist") (dot f "changelist");
  lock ← parseLockInfo (field entry "lock") (dot f "lock");
  needsLock ← requireBoolean (field entry "needsLock") (dot f "needsLock");
  copy ← requireNullableString (field entry "copy") (dot f "copy");
  move ← requireNullableString (field entry "move") (dot f "move");
  switched ← requireBoolean (field entry "switched") (dot f "switched");
  depth ← requireString (field entry "depth") (dot f "depth");
  external ← requireBoolean (field entry "external") (dot f "external");
  Ok {| entry_path := path; entry_kind := kind; entry_nodeStatus := nodeStatus;
        entry_textStatus := textStatus; entry_propertyStatus := propertyStatus;
        entry_localStatus := localStatus; entry_remoteStatus := remoteStatus;
        entry_revision := revision; entry_changedRevision := changedRevision;
        entry_changedAuthor := changedAuthor; entry_changedDate := changedDate;
        entry_changelist := changelist; entry_lock := lock; entry_needsLock := needsLock;
        entry_copy := copy; entry_move := move; entry_switched := switched;
        entry_depth := depth; entry_conflict := conflict;
        entry_conflictArtifacts := artifacts; entry_external := external;
        entry_generation := generation |}.

Definition requireNoConflictArtifactEntries (entries : list StatusEntry) (f : string) : result unit :=
  let artifactPaths := set_of (map canonicalStatusPathKey (flat_map entry_conflictArtifacts entries)) in
  eachi (fun index entry =>
    require (negb (set_has artifactPaths (canonicalStatusPathKey (entry_path entry))))
      (invalid (dot (at_index f index) "path"))) entries.

Definition parseStatusEntries (raw : option js_value) (f : string) (generation : Z)
    (source : EntrySource) : result (list StatusEntry) :=
  items ← requireArray raw f;
  entries ← mapi (fun index entry => parseStatusEntry entry (at_index f index) generation source) items;
  _ ← match source with
      | LocalSource => requireNoConflictArtifactEntries entries f
      | RemoteSource => Ok tt
      end;
  Ok entries.
End Parsers.

(** ** status/statusRefreshRpcClient.ts *)
Module RefreshClient.
Definition invalidRefreshRequest (f : string) : js_error :=
  StructuredError "StatusRefreshResponseError" "SUBVERSIONR_STATUS_REFRESH_REQUEST_INVALID"
    "input" "error.status.refreshRequestInvalid" [("field", ArgString f)].
Definition invalidRefreshResponse (f : string) : js_error :=
  StructuredError "StatusRefreshResponseError" "SUBVERSIONR_STATUS_REFRESH_RESPONSE_INVALID"
    "protocol" "error.status.refreshResponseInvalid" [("field", ArgString f)].

Definition requireResponseRecord := requireRecord invalidRefreshResponse.
Definition requireExactResponseKeys := requireExactKeys invalidRefreshResponse.
Definition requireResponseString := requireString invalidRefreshResponse.
Definition requireResponsePath := requirePath invalidRefreshResponse.
Definition requireNonNegativeInteger := StatusWire.requireNonNegativeInteger invalidRefreshResponse.
Definition requireInteger := StatusWire.requireInteger invalidRefreshResponse.
Definition requireNullableString := StatusWire.requireNullableString invalidRefreshResponse.
Definition requireBoolean := StatusWire.requireBoolean invalidRefreshResponse.
Definition requireCompleteness := StatusWire.requireCompleteness invalidRefreshResponse.
Definition parseLockInfo := StatusWire.parseLockInfo invalidRefreshResponse.
Definition parseConflictArtifacts win32 := StatusWire.parseConflictArtifacts invalidRefreshResponse win32.
Definition parseStatusEntry win32 := StatusWire.parseStatusEntry invalidRefreshResponse win32.
Definition parseStatusEntries win32 := StatusWire.parseStatusEntries invalidRefreshResponse win32.

Definition parseRemovedPaths (rawPaths : option js_value) (f : string) : result (list string) :=
  items ← requireArray invalidRefreshResponse rawPaths f;
  mapi (fun index path => requireResponsePath (Some path) (at_index f index)) items.

Definition parseCoverageScope (rawScope : js_value) (f : string) (deltaGeneration : Z) : result StatusCoverageScope :=
  scope ← requireResponseRecord (Some rawScope) f;
  _ ← requireExactResponseKeys scope f ["path"; "depth"; "generation"; "reason"];
  generation ← requireNonNegativeInteger (field scope "generation") (dot f "generation");
  _ ← require (generation =? deltaGeneration)%Z (invalidRefreshResponse (dot f "generation"));
  path ← requireResponsePath (field scope "path") (dot f "path");
  depth ← requireResponseString (field scope "depth") (dot f "depth");
  reason ← requireResponseString (field scope "reason") (dot f "reason");
  Ok {| coverage_path := path; coverage_depth := depth;
        coverage_generation := generation; coverage_reason := reason |}.

Definition parseCoverage (rawCoverage : option js_value) (f : string) (deltaGeneration : Z) : result (list StatusCoverageScope) :=
  items ← requireArray invalidRefreshResponse rawCoverage f;
  mapi (fun index scope => parseCoverageScope scope (at_index f index) deltaGeneration) items.

Definition parseSummaryDelta (rawSummary : option js_value) (f : string) : result StatusSummaryDelta :=
  summary ← requireResponseRecord rawSummary f;
  _ ← requireExactResponseKeys summary f SUMMARY_KEYS;
  localChanges ← requireInteger (field summary "localChanges") (dot f "localChanges");
  remoteChanges ← requireInteger (field summary "remoteChanges") (dot f "remoteChanges");
  conflicts ← requireInteger (field summary "conflicts") (dot f "conflicts");
  unversioned ← requireInteger (field summary "unversioned") (dot f "unversioned");
  Ok {| sdelta_localChanges := localChanges; sdelta_remoteChanges := remoteChanges;
        sdelta_conflicts := conflicts; sdelta_unversioned := unversioned |}.

(** The [seen] loop shared by [requireUniqueEntryPaths] and
    [requireUniquePaths]; [at_field] names the offending element. *)
Fixpoint unique_loop (at_field : nat -> string) (seen : list string) (index : nat)
    (paths : list string) : result unit :=
  match paths with
  | [] => Ok tt
  | path :: paths' =>
    _ ← require (negb (set_has seen path)) (invalidRefreshResponse (at_field index));
    unique_loop at_field (set_add seen path) (S index) paths'
  end.

Definition requireUniqueEntryPaths (entries : list StatusEntry) (f : string) : result unit :=
  unique_loop (fun index => dot (at_index f index) "path") [] 0 (map entry_path entries).
Definition requireUniquePaths (paths : list string) (f : string) : result unit :=
  unique_loop (at_index f) [] 0 paths.

Definition requireNoDeltaPathOverlap (upsert : list StatusEntry) (remove : list string)
    (removeField : string) : result unit :=
  let upsertPaths := set_of (map entry_path upsert) in
  eachi (fun index path =>
    require (negb (set_has upsertPaths path))
      (invalidRefreshResponse (at_index removeField index))) remove.

Definition DELTA_KEYS : list string :=
  ["repositoryId"; "epoch"; "generation"; "coverage"; "upsert"; "remove"; "remoteUpsert";
   "remoteRemove"; "summaryDelta"; "completeness"; "timestamp"; "source"].

Definition parseStatusDelta (win32 : bool) (rawResponse : option js_value) : result StatusDelta :=
  response ← requireResponseRecord rawResponse "result";
  _ ← requireExactResponseKeys response "result" DELTA_KEYS;
  generation ← requireNonNegativeInteger (field response "generation") "generation";
  upsert ← parseStatusEntries win32 (field response "upsert") "upsert" generation LocalSource;
  remove ← parseRemovedPaths (field response "remove") "remove";
  remoteUpsert ← parseStatusEntries win32 (field response "remoteUpsert") "remoteUpsert" generation RemoteSource;
  remoteRemove ← parseRemovedPaths (field response "remoteRemove") "remoteRemove";
  _ ← requireUniqueEntryPaths upsert "upsert";
  _ ← requireUniquePaths remove "remove";
  _ ← requireNoDeltaPathOverlap upsert remove "remove";
  _ ← requireUniqueEntryPaths remoteUpsert "remoteUpsert";
  _ ← requireUniquePaths remoteRemove "remoteRemove";
  _ ← requireNoDeltaPathOverlap remoteUpsert remoteRemove "remoteRemove";
  repositoryId ← requireResponseString (field response "repositoryId") "repositoryId";
  epoch ← requireNonNegativeInteger (field response "epoch") "epoch";
  coverage ← parseCoverage (field response "coverage") "coverage" generation;
  summaryDelta ← parseSummaryDelta (field response "summaryDelta") "summaryDelta";
  completeness ← requireCompleteness (field response "completeness") "completeness";
  timestamp ← requireResponseString (field response "timestamp") "timestamp";
  source ← requireResponseString (field response "source") "source";
  Ok {| delta_repositoryId := repositoryId; delta_epoch := epoch; delta_generation := generation;
        delta_coverage := coverage; delta_upsert := upsert; delta_remove := remove;
        delta_remoteUpsert := remoteUpsert; delta_remoteRemove := remoteRemove;
        delta_summaryDelta := summaryDelta; delta_completeness := completeness;
        delta_timestamp := timestamp; delta_source := source |}.

Definition requireDeltaMatchesRequest (delta : StatusDelta) (request : StatusRefreshRequest) : result unit :=
  _ ← require (bool_decide (delta_repositoryId delta = request_repositoryId request))
        (invalidRefreshResponse "repositoryId");
  require (delta_epoch delta =? request_epoch request)%Z (invalidRefreshResponse "epoch").

(** *** Requests *)
Definition requireExactRequestKeys (v : js_value) (f : string) (expected : list string) : result unit :=
  eachi (fun _ key =>
    require (bool_decide (key ∈ expected))
      (invalidRefreshRequest (if bool_decide (f = "request") then key else dot f key))) (keys v).
Definition requireRequestString := requireString invalidRefreshRequest.
Definition requireRequestPath := requirePath invalidRefreshRequest.

Definition requireRefreshDepth (v : option js_value) (f : string) : result StatusRefreshDepth :=
  depth ← requireRequestString v f;
  if bool_decide (depth = "empty") then Ok DEmpty
  else if bool_decide (depth = "files") then Ok DFiles
  else if bool_decide (depth = "immediates") then Ok DImmediates
  else if bool_decide (depth = "infinity") then Ok DInfinity
  else Throw (invalidRefreshRequest f).

Definition validateRefreshTarget (target : js_value) (f : string) : result StatusRefreshTarget :=
  targetRecord ← requireRecord invalidRefreshRequest (Some target) f;
  _ ← requireExactRequestKeys targetRecord f ["path"; "depth"; "reason"];
  path ← requireRequestPath (field targetRecord "path") (dot f "path");
  depth ← requireRefreshDepth (field targetRecord "depth") (dot f "depth");
  reason ← requireRequestString (field targetRecord "reason") (dot f "reason");
  Ok {| target_path := path; target_depth := depth; target_reason := reason |}.

Definition validateRefreshRequest (request : option js_value) : result StatusRefreshRequest :=
  record ← requireRecord (fun _ => invalidRefreshRequest "repositoryId") request "";
  _ ← requireExactRequestKeys record "request" ["repositoryId"; "epoch"; "targets"];
  repositoryId ← requireString invalidRefreshRequest (field record "repositoryId") "repositoryId";
  epoch ← StatusWire.requireNonNegativeInteger invalidRefreshRequest (field record "epoch") "epoch";
  targets ← requireArray invalidRefreshRequest (field record "targets") "targets";
  _ ← require (negb (length targets =? 0)%nat) (invalidRefreshRequest "targets");
  validated ← mapi (fun index target => validateRefreshTarget target (at_index "targets" index)) targets;
  Ok {| request_repositoryId := repositoryId; request_epoch := epoch; request_targets := validated |}.

(** [refreshStatus] over the JSON-RPC sender: [send] gives the raw response
    of "status/refresh", or what the sender rejected with. *)
Definition refreshStatus (win32 : bool) (send : StatusRefreshRequest -> result (option js_value))
    (request : option js_value) : result StatusDelta :=
  validatedRequest ← validateRefreshRequest request;
  rawResponse ← send validatedRequest;
  delta ← parseStatusDelta win32 rawResponse;
  _ ← requireDeltaMatchesRequest delta validatedRequest;
  Ok delta.
End RefreshClient.

(** ** status/statusSnapshotRpcClient.ts *)
Module SnapshotClient.
Record StatusSnapshotRequest := {
  snapreq_repositoryId : string;
  snapreq_epoch : Z;
}.

Definition invalidSnapshotRequest (f : string) : js_error :=
  StructuredError "StatusSnapshotResponseError" "SUBVERSIONR_STATUS_SNAPSHOT_REQUEST_INVALID"
    "input" "error.status.snapshotRequestInvalid" [("field", ArgString f)].
Definition invalidSnapshotResponse (f : string) : js_error :=
  StructuredError "StatusSnapshotResponseError" "SUBVERSIONR_STATUS_SNAPSHOT_RESPONSE_INVALID"
    "protocol" "error.status.snapshotResponseInvalid" [("field", ArgString f)].

Definition requireRecord := StatusWire.requireRecord invalidSnapshotResponse.
Definition requireExactKeys := StatusWire.requireExactKeys invalidSnapshotResponse.
Definition requireString := StatusWire.requireString invalidSnapshotResponse.
Definition requireRepositoryRelativePath := requirePath invalidSnapshotResponse.
Definition requireNullableString := StatusWire.requireNullableString invalidSnapshotResponse.
Definition requireCompleteness := StatusWire.requireCompleteness invalidSnapshotResponse.
Definition requireInteger := StatusWire.requireInteger invalidSnapshotResponse.
Definition requireSafeInteger := requireNonNegativeInteger invalidSnapshotResponse.
Definition requireBoolean := StatusWire.requireBoolean invalidSnapshotResponse.
Definition parseLockInfo := StatusWire.parseLockInfo invalidSnapshotResponse.
Definition parseConflictArtifacts win32 := StatusWire.parseConflictArtifacts invalidSnapshotResponse win32.
Definition parseStatusEntry win32 := StatusWire.parseStatusEntry invalidSnapshotResponse win32.
Definition parseStatusEntries win32 := StatusWire.parseStatusEntries invalidSnapshotResponse win32.

Definition validateSnapshotRequest (request : option js_value) : result StatusSnapshotRequest :=
  record ← StatusWire.requireRecord (fun _ => invalidSnapshotRequest "repositoryId") request "";
  repositoryId ← StatusWire.requireString invalidSnapshotRequest (field record "repositoryId") "repositoryId";
  epoch ← requireNonNegativeInteger invalidSnapshotRequest (field record "epoch") "epoch";
  Ok {| snapreq_repositoryId := repositoryId; snapreq_epoch := epoch |}.

Definition IDENTITY_KEYS : list string :=
  ["repositoryUuid"; "repositoryRootUrl"; "workingCopyRoot"; "workspaceScopeRoot"; "format"].

Definition parseRepositoryIdentity (rawIdentity : option js_value) (f : string) : result RepositoryIdentity :=
  identity ← requireRecord rawIdentity f;
  _ ← requireExactKeys identity f IDENTITY_KEYS;
  repositoryUuid ← requireString (field identity "repositoryUuid") (dot f "repositoryUuid");
  repositoryRootUrl ← requireString (field identity "repositoryRootUrl") (dot f "repositoryRootUrl");
  workingCopyRoot ← requireString (field identity "workingCopyRoot") (dot f "workingCopyRoot");
  workspaceScopeRoot ← requireString (field identity "workspaceScopeRoot") (dot f "workspaceScopeRoot");
  format ← requireSafeInteger (field identity "format") (dot f "format");
  Ok {| identity_repositoryUuid := repositoryUuid; identity_repositoryRootUrl := repositoryRootUrl;
        identity_workingCopyRoot := workingCopyRoot; identity_workspaceScopeRoot := workspaceScopeRoot;
        identity_format := format |}.

Definition parseStatusSummary (rawSummary : option js_value) (f : string) : result StatusSummary :=
  summary ← requireRecord rawSummary f;
  _ ← requireExactKeys summary f SUMMARY_KEYS;
  localChanges ← requireSafeInteger (field summary "localChanges") (dot f "localChanges");
  remoteChanges ← requireSafeInteger (field summary "remoteChanges") (dot f "remoteChanges");
  conflicts ← requireSafeInteger (field summary "conflicts") (dot f "conflicts");
  unversioned ← requireSafeInteger (field summary "unversioned") (dot f "unversioned");
  Ok {| summary_localChanges := localChanges; summary_remoteChanges := remoteChanges;
        summary_conflicts := conflicts; summary_unversioned := unversioned |}.

Definition SNAPSHOT_KEYS : list string :=
  ["repositoryId"; "epoch"; "generation"; "completeness"; "identity"; "localEntries";
   "remoteEntries"; "summary"; "timestamp"; "source"].

Definition parseStatusSnapshot (win32 : bool) (rawResponse : option js_value) : result StatusSnapshot :=
  response ← requireRecord rawResponse "result";
  _ ← requireExactKeys response "result" SNAPSHOT_KEYS;
  generation ← requireSafeInteger (field response "generation") "generation";
  repositoryId ← requireString (field response "repositoryId") "repositoryId";
  epoch ← requireSafeInteger (field response "epoch") "epoch";
  completeness ← requireCompleteness (field response "completeness") "completeness";
  identity ← parseRepositoryIdentity (field response "identity") "identity";
  localEntries ← parseStatusEntries win32 (field response "localEntries") "localEntries" generation LocalSource;
  remoteEntries ← parseStatusEntries win32 (field response "remoteEntries") "remoteEntries" generation RemoteSource;
  summary ← parseStatusSummary (field response "summary") "summary";
  timestamp ← requireString (field response "timestamp") "timestamp";
  source ← requireString (field response "source") "source";
  Ok {| snapshot_repositoryId := repositoryId; snapshot_epoch := epoch;
        snapshot_generation := generation; snapshot_completeness := completeness;
        snapshot_identity := identity; snapshot_localEntries := localEntries;
        snapshot_remoteEntries := remoteEntries; snapshot_summary := summary;
        snapshot_timestamp := timestamp; snapshot_source := source |}.

Definition requireSnapshotMatchesRequest (snapshot : StatusSnapshot) (request : StatusSnapshotRequest) : result unit :=
  _ ← require (bool_decide (snapshot_repositoryId snapshot = snapreq_repositoryId request))
        (invalidSnapshotResponse "repositoryId");
  require (snapshot_epoch snapshot =? snapreq_epoch request)%Z (invalidSnapshotResponse "epoch").

Definition getSnapshot (win32 : bool) (send : StatusSnapshotRequest -> result (option js_value))
    (request : option js_value) : result StatusSnapshot :=
  validatedRequest ← validateSnapshotRequest request;
  rawResponse ← send validatedRequest;
  snapshot ← parseStatusSnapshot win32 rawResponse;
  _ ← requireSnapshotMatchesRequest snapshot validatedRequest;
  Ok snapshot.
End SnapshotClient.
