(* ===== verification/StatusWireFacts.v ===== *)
(** Correctness of the status wire clients: exactly which responses are
    accepted, and what an accepted value satisfies. *)

From Stdlib Require Import ZArith Ascii String List Sorted.
From stdpp Require Import base option list sets strings.
From S2P Require Import Prelude JsString JsMap JsValue StatusTypes StatusWire.

Local Open Scope string_scope.

(** ** The contract of the protocol *)

Definition text_ok (s : string) : Prop := isNonEmptyString s = true.
Definition opt_text_ok (o : option string) : Prop := forall s, o = Some s -> text_ok s.
Definition path_ok (s : string) : Prop := text_ok s /\ isRepositoryRelativePath s = true.
Definition count_ok (z : Z) : Prop := (0 <= z <= MAX_SAFE_INTEGER)%Z.
Definition int_ok (z : Z) : Prop := isSafeInteger z = true.

Definition lock_ok (l : LockInfo) : Prop :=
  opt_text_ok (lock_token l) /\ opt_text_ok (lock_owner l) /\ opt_text_ok (lock_comment l) /\
  opt_text_ok (lock_createdDate l) /\ opt_text_ok (lock_expiresDate l).

(** Conflict artifacts of an entry: at most four safe paths, strictly
    increasing, none of them the entry itself, the root or inside ".svn", and
    distinct as file-system paths. *)
Record artifacts_ok (win32 : bool) (entryPath : string) (l : list string) : Prop := {
  artifacts_few : length l <= MAX_CONFLICT_ARTIFACTS_PER_ENTRY;
  artifacts_safe : Forall (fun p => path_ok p /\ p <> "." /\ hasWorkingCopyAdminComponent p = false) l;
  artifacts_keys : NoDup (map (canonicalStatusPathKey win32) (entryPath :: l));
  artifacts_sorted : Sorted (fun p q => compareText p q = Lt) l;
}.

Definition entry_conflicted (e : StatusEntry) : bool :=
  hasConflict (entry_conflict e) (entry_localStatus e) (entry_nodeStatus e)
    (entry_textStatus e) (entry_propertyStatus e).

Record entry_ok (win32 : bool) (source : EntrySource) (generation : Z) (e : StatusEntry) : Prop := {
  entry_generation_ok : entry_generation e = generation /\ count_ok (entry_generation e);
  entry_path_ok : path_ok (entry_path e);
  entry_texts_ok : Forall text_ok
    [entry_kind e; entry_nodeStatus e; entry_textStatus e; entry_propertyStatus e;
     entry_localStatus e; entry_remoteStatus e; entry_depth e];
  entry_opt_texts_ok : Forall opt_text_ok
    [entry_changedAuthor e; entry_changedDate e; entry_changelist e; entry_copy e;
     entry_move e; entry_conflict e];
  entry_revisions_ok : int_ok (entry_revision e) /\ int_ok (entry_changedRevision e);
  entry_lock_ok : forall l, entry_lock e = Some l -> lock_ok l;
  entry_artifacts_ok : artifacts_ok win32 (entry_path e) (entry_conflictArtifacts e);
  entry_artifacts_owner : entry_conflictArtifacts e <> [] ->
    source = LocalSource /\ entry_conflicted e = true;
}.

(** No local entry of one message is an artifact of another. *)
Definition artifacts_apart (win32 : bool) (entries : list StatusEntry) : Prop :=
  forall e, e ∈ entries ->
    canonicalStatusPathKey win32 (entry_path e) ∉
    map (canonicalStatusPathKey win32) (flat_map entry_conflictArtifacts entries).

Definition entries_ok (win32 : bool) (source : EntrySource) (generation : Z) (l : list StatusEntry) : Prop :=
  Forall (entry_ok win32 source generation) l /\
  (source = LocalSource -> artifacts_apart win32 l).

Definition coverage_ok (generation : Z) (c : StatusCoverageScope) : Prop :=
  coverage_generation c = generation /\ path_ok (coverage_path c) /\
  text_ok (coverage_depth c) /\ text_ok (coverage_reason c).

Definition sdelta_ok (s : StatusSummaryDelta) : Prop :=
  int_ok (sdelta_localChanges s) /\ int_ok (sdelta_remoteChanges s) /\
  int_ok (sdelta_conflicts s) /\ int_ok (sdelta_unversioned s).

(** One side of a delta: removals and upserts name distinct paths. *)
Definition side_ok (upsert : list StatusEntry) (remove : list string) : Prop :=
  NoDup (map entry_path upsert ++ remove)%list.

Record delta_ok (win32 : bool) (d : StatusDelta) : Prop := {
  delta_header_ok : text_ok (delta_repositoryId d) /\ count_ok (delta_epoch d) /\
    count_ok (delta_generation d) /\ text_ok (delta_timestamp d) /\ text_ok (delta_source d);
  delta_coverage_ok : Forall (coverage_ok (delta_generation d)) (delta_coverage d);
  delta_upsert_ok : entries_ok win32 LocalSource (delta_generation d) (delta_upsert d);
  delta_remoteUpsert_ok : entries_ok win32 RemoteSource (delta_generation d) (delta_remoteUpsert d);
  delta_removes_ok : Forall path_ok (delta_remove d) /\ Forall path_ok (delta_remoteRemove d);
  delta_sides_ok : side_ok (delta_upsert d) (delta_remove d) /\
    side_ok (delta_remoteUpsert d) (delta_remoteRemove d);
  delta_summary_ok : sdelta_ok (delta_summaryDelta d);
}.

(** ** The JSON form of the protocol values *)

Definition num (z : Z) : js_value := VNum (NumInt z).
Definition opt_str (o : option string) : js_value := nullable VStr o.

Definition encode_lock (l : LockInfo) : js_value :=
  VObj [("token", opt_str (lock_token l)); ("owner", opt_str (lock_owner l));
        ("comment", opt_str (lock_comment l)); ("createdDate", opt_str (lock_createdDate l));
        ("expiresDate", opt_str (lock_expiresDate l)); ("isRemote", VBool (lock_isRemote l))].

Definition encode_entry (e : StatusEntry) : js_value :=
  VObj [("path", VStr (entry_path e)); ("kind", VStr (entry_kind e));
        ("nodeStatus", VStr (entry_nodeStatus e)); ("textStatus", VStr (entry_textStatus e));
        ("propertyStatus", VStr (entry_propertyStatus e)); ("localStatus", VStr (entry_localStatus e));
        ("remoteStatus", VStr (entry_remoteStatus e)); ("revision", num (entry_revision e));
        ("changedRevision", num (entry_changedRevision e));
        ("changedAuthor", opt_str (entry_changedAuthor e)); ("changedDate", opt_str (entry_changedDate e));
        ("changelist", opt_str (entry_changelist e)); ("lock", nullable encode_lock (entry_lock e));
        ("needsLock", VBool (entry_needsLock e)); ("copy", opt_str (entry_copy e));
        ("move", opt_str (entry_move e)); ("switched", VBool (entry_switched e));
        ("depth", VStr (entry_depth e)); ("conflict", opt_str (entry_conflict e));
        ("conflictArtifacts", VArr (map VStr (entry_conflictArtifacts e)));
        ("external", VBool (entry_external e)); ("generation", num (entry_generation e))].

Definition encode_coverage (c : StatusCoverageScope) : js_value :=
  VObj [("path", VStr (coverage_path c)); ("depth", VStr (coverage_depth c));
        ("generation", num (coverage_generation c)); ("reason", VStr (coverage_reason c))].

Definition encode_sdelta (s : StatusSummaryDelta) : js_value :=
  VObj [("localChanges", num (sdelta_localChanges s)); ("remoteChanges", num (sdelta_remoteChanges s));
        ("conflicts", num (sdelta_conflicts s)); ("unversioned", num (sdelta_unversioned s))].

Definition encode_delta (d : StatusDelta) : js_value :=
  VObj [("repositoryId", VStr (delta_repositoryId d)); ("epoch", num (delta_epoch d));
        ("generation", num (delta_generation d));
        ("coverage", VArr (map encode_coverage (delta_coverage d)));
        ("upsert", VArr (map encode_entry (delta_upsert d))); ("remove", VArr (map VStr (delta_remove d)));
        ("remoteUpsert", VArr (map encode_entry (delta_remoteUpsert d)));
        ("remoteRemove", VArr (map VStr (delta_remoteRemove d)));
        ("summaryDelta", encode_sdelta (delta_summaryDelta d));
        ("completeness", VStr (completeness_name (delta_completeness d)));
        ("timestamp", VStr (delta_timestamp d)); ("source", VStr (delta_source d))].

(** ** The field parsers *)
Section field_parsers.
Context (invalid : string -> js_error) (win32 : bool).

Lemma requireString_ok v f s : requireString invalid v f = Ok s <-> v = Some (VStr s) /\ text_ok s.
Proof.
  unfold requireString, text_ok. destruct v as [[]|]; try naive_solver.
  rewrite bind_ok. setoid_rewrite require_ok. naive_solver.
Qed.

Lemma requirePath_ok v f s : requirePath invalid v f = Ok s <-> v = Some (VStr s) /\ path_ok s.
Proof.
  unfold requirePath, path_ok. rewrite bind_ok. setoid_rewrite bind_ok.
  setoid_rewrite requireString_ok. setoid_rewrite require_ok. naive_solver.
Qed.

Lemma requireNullableString_ok v f o :
  requireNullableString invalid v f = Ok o <-> v = Some (opt_str o) /\ opt_text_ok o.
Proof.
  unfold requireNullableString, opt_text_ok, opt_str, nullable.
  destruct v as [[]|]; try (rewrite bind_ok; setoid_rewrite requireString_ok);
    destruct o; naive_solver.
Qed.

Lemma requireInteger_ok v f z : requireInteger invalid v f = Ok z <-> v = Some (num z) /\ int_ok z.
Proof.
  unfold requireInteger, int_ok, num. destruct v as [[| |[]| | |]|]; try naive_solver.
  rewrite bind_ok. setoid_rewrite require_ok. naive_solver.
Qed.

Lemma requireNonNegativeInteger_ok v f z :
  requireNonNegativeInteger invalid v f = Ok z <-> v = Some (num z) /\ count_ok z.
Proof.
  unfold requireNonNegativeInteger, count_ok, num. destruct v as [[| |[]| | |]|]; try naive_solver.
  rewrite bind_ok. setoid_rewrite require_ok. setoid_rewrite isNonNegativeSafeInteger_spec.
  naive_solver.
Qed.

Lemma requireBoolean_ok v f b : requireBoolean invalid v f = Ok b <-> v = Some (VBool b).
Proof. unfold requireBoolean. destruct v as [[]|]; naive_solver. Qed.

Lemma requireArray_ok v f l : requireArray invalid v f = Ok l <-> v = Some (VArr l).
Proof. unfold requireArray. destruct v as [[]|]; naive_solver. Qed.

Lemma completeness_name_ok c : text_ok (completeness_name c).
Proof. by destruct c. Qed.

Lemma requireCompleteness_ok v f c :
  requireCompleteness invalid v f = Ok c <-> v = Some (VStr (completeness_name c)).
Proof.
  unfold requireCompleteness. rewrite bind_ok. setoid_rewrite requireString_ok. split.
  - intros (s & [-> Hs] & H). repeat case_bool_decide; naive_solver.
  - intros ->. eexists. split; [split; [done|apply completeness_name_ok]|]. by destruct c.
Qed.

Lemma requireRecord_ok v f r :
  requireRecord invalid v f = Ok r <-> v = Some r /\ isRecord (Some r) = true.
Proof. unfold requireRecord. destruct v as [[]|]; naive_solver. Qed.

Lemma requireExactKeys_ok v f expected :
  requireExactKeys invalid v f expected = Ok tt <-> keys v ⊆ expected.
Proof.
  unfold requireExactKeys. rewrite eachi_ok. setoid_rewrite require_ok.
  setoid_rewrite bool_decide_eq_true. split.
  - intros H key Hin. apply list_elem_of_lookup in Hin as [k Hk]. eauto.
  - intros H k key Hk. apply H. by eapply list_elem_of_lookup_2.
Qed.
End field_parsers.

(** Invert a successful chain of field parsers. *)
Ltac wire_inv :=
  repeat match goal with
  | H : (_ ≫= _) = Ok _ |- _ => apply bind_ok in H as (? & ? & ?)
  | H : requireString _ _ _ = Ok _ |- _ => apply requireString_ok in H as [? ?]
  | H : requirePath _ _ _ = Ok _ |- _ => apply requirePath_ok in H as [? ?]
  | H : requireNullableString _ _ _ = Ok _ |- _ => apply requireNullableString_ok in H as [? ?]
  | H : requireInteger _ _ _ = Ok _ |- _ => apply requireInteger_ok in H as [? ?]
  | H : requireNonNegativeInteger _ _ _ = Ok _ |- _ => apply requireNonNegativeInteger_ok in H as [? ?]
  | H : requireBoolean _ _ _ = Ok _ |- _ => apply requireBoolean_ok in H
  | H : requireArray _ _ _ = Ok _ |- _ => apply requireArray_ok in H
  | H : requireCompleteness _ _ _ = Ok _ |- _ => apply requireCompleteness_ok in H
  | H : requireRecord _ _ _ = Ok _ |- _ => apply requireRecord_ok in H as [? ?]
  | H : require _ _ = Ok _ |- _ => apply require_ok in H
  | H : Ok _ = Ok _ |- _ => injection H as ?; subst
  end.

(** Run one field parser on an encoded value. *)
Ltac wire_field :=
  first
  [ apply requireString_ok; split; [reflexivity|]
  | apply requirePath_ok; split; [reflexivity|]
  | apply requireNullableString_ok; split; [reflexivity|]
  | apply requireInteger_ok; split; [reflexivity|]
  | apply requireNonNegativeInteger_ok; split; [reflexivity|]
  | apply requireBoolean_ok; reflexivity
  | apply requireArray_ok; reflexivity
  | apply requireCompleteness_ok; reflexivity
  | apply requireRecord_ok; split; [reflexivity|reflexivity]
  | apply requireExactKeys_ok; exact (fun _ H => H)
  | apply (require_ok _ _ tt) ].
Ltac wire_step := apply bind_ok; eexists; split; [solve [wire_field; eauto]|].

Section entry_parsers.
Context (invalid : string -> js_error) (win32 : bool).

Lemma parseLockInfo_sound v f o :
  parseLockInfo invalid v f = Ok o -> forall l, o = Some l -> lock_ok l.
Proof.
  intros H l ->. unfold parseLockInfo in H.
  destruct v as [[]|]; wire_inv; try discriminate; repeat split; done.
Qed.

Lemma parseLockInfo_encode o f :
  (forall l, o = Some l -> lock_ok l) ->
  parseLockInfo invalid (Some (nullable encode_lock o)) f = Ok o.
Proof.
  destruct o as [l|]; [|done]. intros H. destruct (H l eq_refl) as (?&?&?&?&?).
  cbn [nullable]. unfold parseLockInfo, encode_lock. do 8 wire_step.
  by destruct l.
Qed.

Definition loop_ok (entryPathKey : string) (seen : list string) (previous : option string)
    (l : list string) : Prop :=
  Forall (fun p => path_ok p /\ p <> "." /\ hasWorkingCopyAdminComponent p = false) l /\
  Forall (fun p => canonicalStatusPathKey win32 p ∉ entryPathKey :: seen) l /\
  NoDup (map (canonicalStatusPathKey win32) l) /\
  Sorted (fun p q => compareText p q = Lt) (option_list previous ++ l)%list.

Lemma loop_ok_cons key seen previous p l :
  loop_ok key seen previous (p :: l) <->
  path_ok p /\
  negb (bool_decide (p = ".") || bool_decide (canonicalStatusPathKey win32 p = key)
        || hasWorkingCopyAdminComponent p || set_has seen (canonicalStatusPathKey win32 p)
        || match previous with
           | Some q => match compareText q p with Lt => false | _ => true end
           | None => false end) = true /\
  loop_ok key (set_add seen (canonicalStatusPathKey win32 p)) (Some p) l.
Proof.
  unfold loop_ok. cbn [map option_list app].
  rewrite negb_true_iff, !orb_false_iff, !bool_decide_eq_false, !Forall_cons, NoDup_cons.
  unfold set_has. rewrite bool_decide_eq_false. split.
  - intros (((?&?&?)&?) & (?&Hl) & (Hp&?) & Hs).
    assert (Forall (fun q => canonicalStatusPathKey win32 q ∉ key :: set_add seen (canonicalStatusPathKey win32 p)) l).
    { rewrite Forall_forall in Hl |- *. intros q Hq. specialize (Hl q Hq).
      rewrite elem_of_cons, elem_of_set_add. intros [Hk|[Hk|Hk]].
      - apply Hl. rewrite Hk. left.
      - apply Hl. by right.
      - apply Hp. rewrite <- Hk. apply list_elem_of_fmap. by exists q. }
    destruct previous as [q|]; cbn in Hs.
    + apply Sorted_inv in Hs as [Hs Hq]. apply HdRel_inv in Hq. rewrite Hq. set_solver.
    + set_solver.
  - intros (? & ((((?&?)&?)&?)&Hprev) & (?&Hl&?&Hs)).
    assert (Forall (fun q => canonicalStatusPathKey win32 q ∉ key :: seen) l).
    { eapply Forall_impl; [exact Hl|]. intros q. rewrite !elem_of_cons, elem_of_set_add. naive_solver. }
    assert (canonicalStatusPathKey win32 p ∉ map (canonicalStatusPathKey win32) l).
    { intros (q & Hq & Hin)%list_elem_of_fmap. rewrite Forall_forall in Hl.
      apply (Hl q Hin). rewrite elem_of_cons, elem_of_set_add. naive_solver. }
    split_and!; try done; [by apply not_elem_of_cons|].
    destruct previous as [q|]; cbn; [|done]. constructor; [done|]. constructor.
    by destruct (compareText q p).
Qed.

Lemma artifacts_loop_ok f key seen previous i raw l :
  artifacts_loop invalid win32 f key seen previous i raw = Ok l <->
  raw = map VStr l /\ loop_ok key seen previous l.
Proof.
  revert seen previous i l. induction raw as [|v raw IH]; intros seen previous i l; cbn [artifacts_loop].
  - split.
    + intros [= <-]. split; [done|]. unfold loop_ok.
      destruct previous; repeat constructor.
    + intros [Hl _]. by destruct l.
  - split.
    + intros H. wire_inv. match goal with H : artifacts_loop _ _ _ _ _ _ _ _ = Ok _ |- _ =>
        apply IH in H as [-> ?] end. simplify_eq. split; [done|]. by apply loop_ok_cons.
    + destruct l as [|p l]; intros [[= -> ->] Hl]. apply loop_ok_cons in Hl as (?&?&?).
      do 2 wire_step. apply bind_ok. exists l. split; [by apply IH|done].
Qed.

Lemma parseConflictArtifacts_ok v f entryPath l :
  parseConflictArtifacts invalid win32 v f entryPath = Ok l <->
  v = Some (VArr (map VStr l)) /\ artifacts_ok win32 entryPath l.
Proof.
  assert (loop_ok (canonicalStatusPathKey win32 entryPath) [] None l /\
          length l <= MAX_CONFLICT_ARTIFACTS_PER_ENTRY <-> artifacts_ok win32 entryPath l) as Hiff.
  { unfold loop_ok. split.
    - intros [(Hs & Hk & Hnd & Hso) Hlen]. split; try done. cbn [map]. apply NoDup_cons.
      split; [|done]. intros (q & Hq & Hin)%list_elem_of_fmap.
      rewrite Forall_forall in Hk. apply (Hk q Hin). set_solver.
    - intros [? ? Hk ?]. cbn [map] in Hk. apply NoDup_cons in Hk as [Hn ?].
      repeat split; try done. apply Forall_forall. intros q Hq Hin. apply Hn.
      apply list_elem_of_fmap. exists q. set_solver. }
  rewrite <- Hiff. unfold parseConflictArtifacts. destruct v as [[]|]; try naive_solver.
  rewrite bind_ok. setoid_rewrite require_ok. setoid_rewrite artifacts_loop_ok.
  setoid_rewrite Nat.leb_le. split.
  - intros ([] & Hlen & -> & Hl). rewrite length_map in Hlen. done.
  - intros ([= ->] & Hl & Hlen). exists tt. by rewrite length_map.
Qed.
End entry_parsers.

Section message_parsers.
Context (invalid : string -> js_error) (win32 : bool).

(** The guard on conflict artifacts, as a proposition. *)
Lemma artifact_guard (source : EntrySource) (l : list string) (conflicted : bool) :
  negb ((0 <? length l)%nat
        && (match source with LocalSource => false | RemoteSource => true end || negb conflicted)) = true
  <-> (l <> [] -> source = LocalSource /\ conflicted = true).
Proof. destruct l, source, conflicted; cbn; naive_solver. Qed.

Lemma parseStatusEntry_sound v f g source e :
  parseStatusEntry invalid win32 v f g source = Ok e -> entry_ok win32 source g e.
Proof.
  unfold parseStatusEntry. intros H. wire_inv.
  match goal with H : parseConflictArtifacts _ _ _ _ _ = Ok _ |- _ =>
    apply parseConflictArtifacts_ok in H as [? ?] end.
  match goal with H : parseLockInfo _ _ _ = Ok _ |- _ =>
    pose proof (parseLockInfo_sound _ _ _ _ H) end.
  match goal with H : (_ =? _)%Z = true |- _ => apply Z.eqb_eq in H end.
  match goal with H : negb (_ && _) = true |- _ =>
    pose proof (proj1 (artifact_guard _ _ _) H) end.
  split; cbn; try done. all: by rewrite ?Forall_cons.
Qed.

Lemma parseStatusEntry_encode e f g source :
  entry_ok win32 source g e -> parseStatusEntry invalid win32 (encode_entry e) f g source = Ok e.
Proof.
  intros [[Hg Hcount] Hpath Htexts Hopts [Hrev Hcrev] Hlock Harts Howner].
  repeat (apply Forall_cons in Htexts as [? Htexts]). repeat (apply Forall_cons in Hopts as [? Hopts]).
  unfold parseStatusEntry. do 3 wire_step.
  apply bind_ok. exists tt. split; [apply require_ok, Z.eqb_eq; done|].
  do 6 wire_step.
  apply bind_ok. exists (entry_conflictArtifacts e). split; [by apply parseConflictArtifacts_ok|].
  apply bind_ok. exists tt. split; [apply require_ok, artifact_guard; exact Howner|].
  do 7 wire_step.
  apply bind_ok. exists (entry_lock e). split; [exact (parseLockInfo_encode _ _ _ Hlock)|].
  do 6 wire_step. by destruct e.
Qed.

Lemma mapi_encode {A} (f : nat -> js_value -> result A) (enc : A -> js_value) (l : list A) (P : A -> Prop) :
  Forall P l -> (forall i a, P a -> f i (enc a) = Ok a) -> mapi f (map enc l) = Ok l.
Proof.
  intros HP Hf. apply mapi_ok. rewrite length_map. split; [done|]. intros k x y Hx Hy.
  change (map enc l) with (enc <$> l) in Hx.
  rewrite list_lookup_fmap, Hy in Hx. injection Hx as <-.
  apply Hf. by eapply Forall_lookup_1.
Qed.

Lemma requireNoConflictArtifactEntries_ok l f :
  requireNoConflictArtifactEntries invalid win32 l f = Ok tt <-> artifacts_apart win32 l.
Proof.
  unfold requireNoConflictArtifactEntries, artifacts_apart. rewrite eachi_ok.
  setoid_rewrite require_ok. setoid_rewrite negb_true_iff. unfold set_has.
  setoid_rewrite bool_decide_eq_false. setoid_rewrite elem_of_set_of. split.
  - intros H e (k & Hk)%list_elem_of_lookup. by apply (H k).
  - intros H k e Hk. apply H. by eapply list_elem_of_lookup_2.
Qed.

Lemma parseStatusEntries_sound v f g source l :
  parseStatusEntries invalid win32 v f g source = Ok l -> entries_ok win32 source g l.
Proof.
  unfold parseStatusEntries. intros H. wire_inv. split.
  - eapply mapi_forall; [done|]. intros i x0 y0. apply parseStatusEntry_sound.
  - intros ->. match goal with u : unit |- _ => destruct u end.
    by eapply requireNoConflictArtifactEntries_ok.
Qed.

Lemma parseStatusEntries_encode l f g source :
  entries_ok win32 source g l ->
  parseStatusEntries invalid win32 (Some (VArr (map encode_entry l))) f g source = Ok l.
Proof.
  intros [Hall Hapart]. unfold parseStatusEntries. wire_step.
  apply bind_ok. exists l. split.
  { eapply mapi_encode; [done|]. intros i e He. by apply parseStatusEntry_encode. }
  apply bind_ok. exists tt. split; [|done]. destruct source; [|done].
  apply requireNoConflictArtifactEntries_ok. auto.
Qed.
End message_parsers.

(** ** Deltas *)
Section deltas.
Import RefreshClient.
Context (win32 : bool).

Lemma unique_loop_ok at_field seen i paths :
  unique_loop at_field seen i paths = Ok tt <->
  NoDup paths /\ Forall (fun p => p ∉ seen) paths.
Proof.
  revert seen i. induction paths as [|p paths IH]; intros seen i; cbn [unique_loop].
  - split; [intros _; split; constructor|done].
  - rewrite NoDup_cons, Forall_cons. split.
    + intros H. wire_inv. unfold set_has in *. bool_cases. destruct x.
      match goal with H : unique_loop _ _ _ _ = Ok _ |- _ => apply IH in H as [Hnd Hall] end.
      rewrite Forall_forall in Hall |- *. setoid_rewrite elem_of_set_add in Hall.
      split_and!; try done.
      * intros Hin. apply (Hall p Hin). by right.
      * intros q Hq Hqs. apply (Hall q Hq). by left.
    + intros ((Hp & Hnd) & Hs & Hall). apply bind_ok. exists tt. split.
      { apply require_ok, negb_true_iff. by apply bool_decide_eq_false. }
      apply IH. split; [done|]. rewrite Forall_forall in Hall |- *.
      intros q Hq. rewrite elem_of_set_add. intros [?| ->]; [by apply (Hall q)|done].
Qed.

Lemma unique_ok at_field paths : unique_loop at_field [] 0 paths = Ok tt <-> NoDup paths.
Proof.
  rewrite unique_loop_ok. split; [naive_solver|]. intros H. split; [done|].
  apply Forall_forall. intros p _. apply not_elem_of_nil.
Qed.

Lemma requireNoDeltaPathOverlap_ok upsert remove f :
  requireNoDeltaPathOverlap upsert remove f = Ok tt <->
  forall p, p ∈ remove -> p ∉ map entry_path upsert.
Proof.
  unfold requireNoDeltaPathOverlap. rewrite eachi_ok. setoid_rewrite require_ok.
  setoid_rewrite negb_true_iff. unfold set_has. setoid_rewrite bool_decide_eq_false.
  setoid_rewrite elem_of_set_of. split.
  - intros H p (k & Hk)%list_elem_of_lookup. eauto.
  - intros H k p Hk. apply H. by eapply list_elem_of_lookup_2.
Qed.

Lemma side_ok_iff upsert remove :
  side_ok upsert remove <->
  NoDup (map entry_path upsert) /\ NoDup remove /\
  (forall p, p ∈ remove -> p ∉ map entry_path upsert).
Proof. unfold side_ok. rewrite NoDup_app. set_solver. Qed.

Lemma parseRemovedPaths_ok v f l :
  parseRemovedPaths v f = Ok l <-> v = Some (VArr (map VStr l)) /\ Forall path_ok l.
Proof.
  unfold parseRemovedPaths. split.
  - intros H. wire_inv. split.
    + subst v. do 2 f_equal. apply mapi_ok in H0 as [Hlen Hall]. apply list_eq. intros i.
      change (map VStr l) with (VStr <$> l). rewrite list_lookup_fmap.
      destruct (l !! i) as [p|] eqn:Hp.
      * destruct (lookup_lt_is_Some_2 x i) as [y Hy]; [rewrite <- Hlen; by eapply lookup_lt_Some|].
        specialize (Hall i y p Hy Hp). apply requirePath_ok in Hall as [[= ->] _]. by rewrite Hy.
      * apply lookup_ge_None in Hp. cbn. apply lookup_ge_None. lia.
    + eapply mapi_forall; [done|]. intros i x' y Hy. by apply requirePath_ok in Hy as [_ ?].
  - intros [-> Hl]. wire_step. eapply mapi_encode; [done|]. intros i p Hp.
    by apply requirePath_ok.
Qed.

Lemma parseCoverage_sound v f g l : parseCoverage v f g = Ok l -> Forall (coverage_ok g) l.
Proof.
  unfold parseCoverage. intros H. wire_inv. eapply mapi_forall; [done|].
  intros i x' c Hc. unfold parseCoverageScope in Hc. 
  unfold requireResponseRecord, requireExactResponseKeys, requireNonNegativeInteger,
    requireResponsePath, requireResponseString in Hc. wire_inv.
  unfold coverage_ok. cbn. split_and!; try done.
  match goal with H : (_ =? _)%Z = true |- _ => by apply Z.eqb_eq in H end.
Qed.

Lemma parseCoverage_encode l f g :
  count_ok g -> Forall (coverage_ok g) l ->
  parseCoverage (Some (VArr (map encode_coverage l))) f g = Ok l.
Proof.
  intros Hcount Hl. unfold parseCoverage. wire_step. eapply mapi_encode; [done|].
  intros i c (Hg & ? & ? & ?). unfold parseCoverageScope.
  unfold requireResponseRecord, requireExactResponseKeys, requireNonNegativeInteger,
    requireResponsePath, requireResponseString. do 2 wire_step.
  apply bind_ok. exists (coverage_generation c). split; [apply requireNonNegativeInteger_ok; split; [reflexivity|by rewrite Hg]|].
  apply bind_ok. exists tt. split; [by apply require_ok, Z.eqb_eq|].
  do 3 wire_step. by destruct c.
Qed.

Lemma parseSummaryDelta_sound v f s : parseSummaryDelta v f = Ok s -> sdelta_ok s.
Proof.
  unfold parseSummaryDelta, requireResponseRecord, requireExactResponseKeys, requireInteger.
  intros H. wire_inv. by unfold sdelta_ok.
Qed.

Lemma parseSummaryDelta_encode s f : sdelta_ok s -> parseSummaryDelta (Some (encode_sdelta s)) f = Ok s.
Proof.
  intros (?&?&?&?). unfold parseSummaryDelta, requireResponseRecord, requireExactResponseKeys, requireInteger.
  do 6 wire_step. by destruct s.
Qed.
End deltas.

(** The names [RefreshClient] gives to the shared parsers. *)
Ltac refresh_names :=
  unfold RefreshClient.requireResponseRecord, RefreshClient.requireExactResponseKeys,
    RefreshClient.requireNonNegativeInteger, RefreshClient.requireResponsePath,
    RefreshClient.requireResponseString, RefreshClient.requireCompleteness,
    RefreshClient.parseStatusEntries, RefreshClient.requireUniqueEntryPaths,
    RefreshClient.requireUniquePaths in *.

Ltac snapshot_names :=
  unfold SnapshotClient.requireRecord, SnapshotClient.requireExactKeys,
    SnapshotClient.requireSafeInteger, SnapshotClient.requireString,
    SnapshotClient.requireCompleteness, SnapshotClient.parseStatusEntries in *.

Lemma parseStatusDelta_ok win32 raw d :
  RefreshClient.parseStatusDelta win32 raw = Ok d -> delta_ok win32 d.
Proof.
  unfold RefreshClient.parseStatusDelta. refresh_names. intros H. wire_inv.
  repeat match goal with u : unit |- _ => destruct u end.
  repeat match goal with
  | H : RefreshClient.unique_loop _ _ _ _ = Ok _ |- _ => apply unique_ok in H
  | H : RefreshClient.requireNoDeltaPathOverlap _ _ _ = Ok _ |- _ => rewrite requireNoDeltaPathOverlap_ok in H
  | H : RefreshClient.parseRemovedPaths _ _ = Ok _ |- _ => apply parseRemovedPaths_ok in H as [_ ?]
  | H : parseStatusEntries _ _ _ _ _ _ = Ok _ |- _ => apply parseStatusEntries_sound in H
  | H : RefreshClient.parseCoverage _ _ _ = Ok _ |- _ => apply parseCoverage_sound in H
  | H : RefreshClient.parseSummaryDelta _ _ = Ok _ |- _ => apply parseSummaryDelta_sound in H
  end.
  split; cbn; try done. rewrite !side_ok_iff. done.
Qed.

Lemma parseStatusDelta_encode win32 d :
  delta_ok win32 d -> RefreshClient.parseStatusDelta win32 (Some (encode_delta d)) = Ok d.
Proof.
  intros [(?&?&?&?&?) Hcov Hup Hrup [? ?] [Hs1 Hs2] Hsum].
  apply side_ok_iff in Hs1 as (?&?&?). apply side_ok_iff in Hs2 as (?&?&?).
  unfold RefreshClient.parseStatusDelta. refresh_names. do 3 wire_step.
  apply bind_ok. exists (delta_upsert d). split; [exact (parseStatusEntries_encode _ _ _ _ _ _ Hup)|].
  apply bind_ok. exists (delta_remove d). split; [by apply parseRemovedPaths_ok|].
  apply bind_ok. exists (delta_remoteUpsert d). split; [exact (parseStatusEntries_encode _ _ _ _ _ _ Hrup)|].
  apply bind_ok. exists (delta_remoteRemove d). split; [by apply parseRemovedPaths_ok|].
  do 2 (apply bind_ok; exists tt; split; [by apply unique_ok|]).
  apply bind_ok; exists tt; split; [by apply requireNoDeltaPathOverlap_ok|].
  do 2 (apply bind_ok; exists tt; split; [by apply unique_ok|]).
  apply bind_ok; exists tt; split; [by apply requireNoDeltaPathOverlap_ok|].
  do 2 wire_step.
  apply bind_ok. exists (delta_coverage d). split; [by apply parseCoverage_encode|].
  apply bind_ok. exists (delta_summaryDelta d). split; [exact (parseSummaryDelta_encode _ _ Hsum)|].
  do 3 wire_step. by destruct d.
Qed.

(** ** Snapshots *)

Definition identity_ok (i : RepositoryIdentity) : Prop :=
  text_ok (identity_repositoryUuid i) /\ text_ok (identity_repositoryRootUrl i) /\
  text_ok (identity_workingCopyRoot i) /\ text_ok (identity_workspaceScopeRoot i) /\
  count_ok (identity_format i).

Definition summary_ok (s : StatusSummary) : Prop :=
  count_ok (summary_localChanges s) /\ count_ok (summary_remoteChanges s) /\
  count_ok (summary_conflicts s) /\ count_ok (summary_unversioned s).

Record snapshot_ok (win32 : bool) (s : StatusSnapshot) : Prop := {
  snapshot_header_ok : text_ok (snapshot_repositoryId s) /\ count_ok (snapshot_epoch s) /\
    count_ok (snapshot_generation s) /\ text_ok (snapshot_timestamp s) /\ text_ok (snapshot_source s);
  snapshot_identity_ok : identity_ok (snapshot_identity s);
  snapshot_local_ok : entries_ok win32 LocalSource (snapshot_generation s) (snapshot_localEntries s);
  snapshot_remote_ok : entries_ok win32 RemoteSource (snapshot_generation s) (snapshot_remoteEntries s);
  snapshot_summary_ok : summary_ok (snapshot_summary s);
}.

Definition encode_identity (i : RepositoryIdentity) : js_value :=
  VObj [("repositoryUuid", VStr (identity_repositoryUuid i));
        ("repositoryRootUrl", VStr (identity_repositoryRootUrl i));
        ("workingCopyRoot", VStr (identity_workingCopyRoot i));
        ("workspaceScopeRoot", VStr (identity_workspaceScopeRoot i));
        ("format", num (identity_format i))].
Definition encode_summary (s : StatusSummary) : js_value :=
  VObj [("localChanges", num (summary_localChanges s)); ("remoteChanges", num (summary_remoteChanges s));
        ("conflicts", num (summary_conflicts s)); ("unversioned", num (summary_unversioned s))].
Definition encode_snapshot (s : StatusSnapshot) : js_value :=
  VObj [("repositoryId", VStr (snapshot_repositoryId s)); ("epoch", num (snapshot_epoch s));
        ("generation", num (snapshot_generation s));
        ("completeness", VStr (completeness_name (snapshot_completeness s)));
        ("identity", encode_identity (snapshot_identity s));
        ("localEntries", VArr (map encode_entry (snapshot_localEntries s)));
        ("remoteEntries", VArr (map encode_entry (snapshot_remoteEntries s)));
        ("summary", encode_summary (snapshot_summary s));
        ("timestamp", VStr (snapshot_timestamp s)); ("source", VStr (snapshot_source s))].

Lemma parseRepositoryIdentity_ok v f i :
  SnapshotClient.parseRepositoryIdentity v f = Ok i -> identity_ok i.
Proof.
  unfold SnapshotClient.parseRepositoryIdentity. snapshot_names. intros H. wire_inv.
  by unfold identity_ok.
Qed.

Lemma parseStatusSummary_ok v f s : SnapshotClient.parseStatusSummary v f = Ok s -> summary_ok s.
Proof.
  unfold SnapshotClient.parseStatusSummary. snapshot_names. intros H. wire_inv.
  by unfold summary_ok.
Qed.

Lemma parseStatusSnapshot_ok win32 raw s :
  SnapshotClient.parseStatusSnapshot win32 raw = Ok s -> snapshot_ok win32 s.
Proof.
  unfold SnapshotClient.parseStatusSnapshot. snapshot_names. intros H. wire_inv.
  repeat match goal with
  | H : SnapshotClient.parseRepositoryIdentity _ _ = Ok _ |- _ => apply parseRepositoryIdentity_ok in H
  | H : SnapshotClient.parseStatusSummary _ _ = Ok _ |- _ => apply parseStatusSummary_ok in H
  | H : parseStatusEntries _ _ _ _ _ _ = Ok _ |- _ => apply parseStatusEntries_sound in H
  end.
  split; cbn; done.
Qed.

Lemma parseStatusSnapshot_encode win32 s :
  snapshot_ok win32 s -> SnapshotClient.parseStatusSnapshot win32 (Some (encode_snapshot s)) = Ok s.
Proof.
  intros [(?&?&?&?&?) (?&?&?&?&?) Hl Hr (?&?&?&?)].
  unfold SnapshotClient.parseStatusSnapshot. snapshot_names. do 6 wire_step.
  apply bind_ok. exists (snapshot_identity s). split.
  { unfold SnapshotClient.parseRepositoryIdentity. snapshot_names. do 7 wire_step. by destruct (snapshot_identity s). }
  apply bind_ok. exists (snapshot_localEntries s). split; [exact (parseStatusEntries_encode _ _ _ _ _ _ Hl)|].
  apply bind_ok. exists (snapshot_remoteEntries s). split; [exact (parseStatusEntries_encode _ _ _ _ _ _ Hr)|].
  apply bind_ok. exists (snapshot_summary s). split.
  { unfold SnapshotClient.parseStatusSummary. snapshot_names. do 6 wire_step. by destruct (snapshot_summary s). }
  do 2 wire_step. by destruct s.
Qed.

(** ** Requests *)

Definition target_ok (t : StatusRefreshTarget) : Prop := path_ok (target_path t) /\ text_ok (target_reason t).
Definition request_ok (r : StatusRefreshRequest) : Prop :=
  text_ok (request_repositoryId r) /\ count_ok (request_epoch r) /\
  request_targets r <> [] /\ Forall target_ok (request_targets r).

Definition encode_target (t : StatusRefreshTarget) : js_value :=
  VObj [("path", VStr (target_path t)); ("depth", VStr (depth_name (target_depth t)));
        ("reason", VStr (target_reason t))].
Definition encode_request (r : StatusRefreshRequest) : js_value :=
  VObj [("repositoryId", VStr (request_repositoryId r)); ("epoch", num (request_epoch r));
        ("targets", VArr (map encode_target (request_targets r)))].

Ltac request_names :=
  unfold RefreshClient.requireRequestString, RefreshClient.requireRequestPath in *.

Lemma requireRefreshDepth_name d f :
  RefreshClient.requireRefreshDepth (Some (VStr (depth_name d))) f = Ok d.
Proof. by destruct d. Qed.

Lemma validateRefreshTarget_ok v f t : RefreshClient.validateRefreshTarget v f = Ok t -> target_ok t.
Proof.
  unfold RefreshClient.validateRefreshTarget. request_names. intros H. wire_inv. by split.
Qed.

Lemma requireExactRequestKeys_ok v f expected :
  RefreshClient.requireExactRequestKeys v f expected = Ok tt <-> forall k, k ∈ keys v -> k ∈ expected.
Proof.
  unfold RefreshClient.requireExactRequestKeys. rewrite eachi_ok. split.
  - intros H k Hk. apply list_elem_of_lookup_1 in Hk as [i Hi].
    specialize (H i k Hi). apply require_ok in H. by apply bool_decide_eq_true in H.
  - intros H i k Hi. apply require_ok, bool_decide_eq_true, H. by eapply list_elem_of_lookup_2.
Qed.

Lemma validateRefreshTarget_encode t f :
  target_ok t -> RefreshClient.validateRefreshTarget (encode_target t) f = Ok t.
Proof.
  intros [Hp Hr]. unfold RefreshClient.validateRefreshTarget. request_names. wire_step.
  apply bind_ok. exists tt. split; [apply requireExactRequestKeys_ok; exact (fun _ H => H)|]. wire_step.
  apply bind_ok. eexists. split; [apply requireRefreshDepth_name|]. wire_step. by destruct t.
Qed.

Lemma validateRefreshRequest_ok v r : RefreshClient.validateRefreshRequest v = Ok r -> request_ok r.
Proof.
  unfold RefreshClient.validateRefreshRequest. intros H. wire_inv.
  match goal with H : mapi _ _ = Ok _ |- _ => rename H into Hm end.
  match goal with H : negb _ = true |- _ => rename H into Hne end.
  split; [done|]. split; [done|]. split; cbn.
  - apply mapi_ok in Hm as [Hlen _]. intros ->. rewrite <- Hlen in Hne. done.
  - eapply mapi_forall; [exact Hm|]. intros ? ? ? Hy. exact (validateRefreshTarget_ok _ _ _ Hy).
Qed.

Lemma validateRefreshRequest_encode r :
  request_ok r -> RefreshClient.validateRefreshRequest (Some (encode_request r)) = Ok r.
Proof.
  intros (Hid & He & Hne & Hall). unfold RefreshClient.validateRefreshRequest. wire_step.
  apply bind_ok. exists tt. split; [apply requireExactRequestKeys_ok; exact (fun _ H => H)|].
  do 3 wire_step.
  apply bind_ok. exists tt. split.
  { apply require_ok. rewrite length_map. by destruct (request_targets r). }
  apply bind_ok. exists (request_targets r). split; [|by destruct r].
  apply mapi_ok. rewrite length_map. split; [done|]. intros k v t Hv Ht.
  change (map encode_target (request_targets r)) with (encode_target <$> request_targets r) in Hv.
  rewrite list_lookup_fmap, Ht in Hv. injection Hv as <-.
  apply validateRefreshTarget_encode. by eapply Forall_lookup_1.
Qed.

(** ** Theorems *)

(** The delta parser accepts an encoded delta exactly when it meets the
    protocol's contract ([delta_ok]), and then returns that delta unchanged. *)
Theorem parseStatusDelta_exact win32 d :
  RefreshClient.parseStatusDelta win32 (Some (encode_delta d)) = Ok d <-> delta_ok win32 d.
Proof. split; [apply parseStatusDelta_ok|apply parseStatusDelta_encode]. Qed.

(** The snapshot parser accepts an encoded snapshot exactly when it meets
    the contract ([snapshot_ok]), and then returns it unchanged. *)
Theorem parseStatusSnapshot_exact win32 s :
  SnapshotClient.parseStatusSnapshot win32 (Some (encode_snapshot s)) = Ok s <-> snapshot_ok win32 s.
Proof. split; [apply parseStatusSnapshot_ok|apply parseStatusSnapshot_encode]. Qed.

(** A delta [refreshStatus] returns came back for a request that passed
    validation, names that request's repository and epoch, and meets the
    contract: whatever the backend answered, nothing else gets through. *)
Theorem refreshStatus_sound win32 send request d :
  RefreshClient.refreshStatus win32 send request = Ok d ->
  exists r, RefreshClient.validateRefreshRequest request = Ok r /\ request_ok r /\
    delta_repositoryId d = request_repositoryId r /\ delta_epoch d = request_epoch r /\ delta_ok win32 d.
Proof.
  unfold RefreshClient.refreshStatus. intros H.
  apply bind_ok in H as (r & Hr & H). apply bind_ok in H as (raw & Hraw & H).
  apply bind_ok in H as (d' & Hd & H). apply bind_ok in H as (u & Hm & [= <-]).
  exists r. split; [done|]. split; [by eapply validateRefreshRequest_ok|].
  unfold RefreshClient.requireDeltaMatchesRequest in Hm.
  apply bind_ok in Hm as ([] & Hid%require_ok%bool_decide_eq_true & He%require_ok%Z.eqb_eq).
  split; [done|]. split; [done|]. by eapply parseStatusDelta_ok.
Qed.
