(* ===== verification/StatusStore.v ===== *)
(** The canonical status store: status/statusSnapshotStore.ts.

    [StatusSnapshotStore] keeps, per registered repository, the last complete
    snapshot with the deltas since folded in.  Its [repositories] map is the
    state; the state object of a repository is updated in place, i.e. under its
    key.  [cloneEntry], [{ ...identity }] and [{ ...summary }] copy values so
    that callers cannot alias the store; on the immutable values of the model
    they are the identity. *)

From Stdlib Require Import ZArith String List.
From stdpp Require Import base option list sets gmap strings.
From S2P Require Import Prelude JsString JsMap StatusTypes StatusWire StatusWireFacts.

Local Open Scope string_scope.

Module StatusSnapshotStore.

Record RepositoryState := {
  st_repositoryId : string;
  st_epoch : Z;
  st_generation : option Z;
  st_completeness : option StatusSnapshotCompleteness;
  st_identity : option RepositoryIdentity;
  st_localEntries : list (string * StatusEntry);
  st_remoteEntries : list (string * StatusEntry);
  st_summary : option StatusSummary;
  st_timestamp : option string;
  st_source : option string;
}.

(** [private readonly repositories = new Map<string, RepositoryState>()] *)
Definition store := list (string * RepositoryState).

(** *** Errors *)
Definition storeError (code category messageKey : string) (args : list (string * safe_arg)) : js_error :=
  StructuredError "StatusSnapshotStoreError" code category messageKey args.
Definition statusStoreInputError (f : string) : js_error :=
  storeError "SUBVERSIONR_STATUS_STORE_INPUT_INVALID" "input" "error.status.storeInputInvalid"
    [("field", ArgString f)].
Definition alreadyRegistered (id : string) : js_error :=
  storeError "SUBVERSIONR_STATUS_STORE_REPOSITORY_ALREADY_REGISTERED" "lifecycle"
    "error.status.storeRepositoryAlreadyRegistered" [("repositoryId", ArgString id)].
Definition notRegistered (id : string) : js_error :=
  storeError "SUBVERSIONR_STATUS_STORE_REPOSITORY_NOT_REGISTERED" "lifecycle"
    "error.status.storeRepositoryNotRegistered" [("repositoryId", ArgString id)].
Definition epochMismatch (code key id : string) (expected actual : Z) : js_error :=
  storeError code "lifecycle" key
    [("repositoryId", ArgString id); ("expected", ArgNumber expected); ("actual", ArgNumber actual)].
Definition generationStale (code id : string) (current actual : Z) : js_error :=
  storeError code "lifecycle" "error.status.storeGenerationStale"
    [("repositoryId", ArgString id); ("current", ArgNumber current); ("actual", ArgNumber actual)].
Definition stateUninitialized (id : string) : js_error :=
  storeError "SUBVERSIONR_STATUS_STORE_STATE_UNINITIALIZED" "lifecycle"
    "error.status.storeStateUninitialized" [("repositoryId", ArgString id)].
Definition deltaSummaryInvalid (id f : string) (current delta : Z) : js_error :=
  storeError "SUBVERSIONR_STATUS_STORE_DELTA_SUMMARY_INVALID" "lifecycle"
    "error.status.storeDeltaSummaryInvalid"
    [("repositoryId", ArgString id); ("field", ArgString f);
     ("current", ArgNumber current); ("delta", ArgNumber delta)].

(** *** Helpers *)
Definition entriesByPath (entries : list StatusEntry) : list (string * StatusEntry) :=
  map_of (map (fun entry => (entry_path entry, entry)) entries).

(** The defined fields of an initialized state. *)
Record Initialized := {
  init_generation : Z;
  init_completeness : StatusSnapshotCompleteness;
  init_identity : RepositoryIdentity;
  init_summary : StatusSummary;
  init_timestamp : string;
  init_source : string;
}.

Definition initialized (state : RepositoryState) : option Initialized :=
  match st_generation state, st_completeness state, st_identity state, st_summary state,
        st_timestamp state, st_source state with
  | Some g, Some c, Some i, Some s, Some t, Some src =>
      Some {| init_generation := g; init_completeness := c; init_identity := i;
              init_summary := s; init_timestamp := t; init_source := src |}
  | _, _, _, _, _, _ => None
  end.

Definition requireInitializedState (state : RepositoryState) : result Initialized :=
  match initialized state with
  | Some i => Ok i
  | None => Throw (stateUninitialized (st_repositoryId state))
  end.

Definition snapshot_of (state : RepositoryState) (i : Initialized) : StatusSnapshot :=
  {| snapshot_repositoryId := st_repositoryId state; snapshot_epoch := st_epoch state;
     snapshot_generation := init_generation i; snapshot_completeness := init_completeness i;
     snapshot_identity := init_identity i; snapshot_localEntries := map_values (st_localEntries state);
     snapshot_remoteEntries := map_values (st_remoteEntries state); snapshot_summary := init_summary i;
     snapshot_timestamp := init_timestamp i; snapshot_source := init_source i |}.

Definition snapshotFromState (state : RepositoryState) : result StatusSnapshot :=
  i ← requireInitializedState state;
  Ok (snapshot_of state i).

Definition applySummaryValue (repositoryId f : string) (current delta : Z) : result Z :=
  let next := (current + delta)%Z in
  if negb (isSafeInteger next) || (next <? 0)%Z
  then Throw (deltaSummaryInvalid repositoryId f current delta)
  else Ok next.

Definition applySummaryDelta (repositoryId : string) (summary : StatusSummary)
    (delta : StatusSummaryDelta) : result StatusSummary :=
  localChanges ← applySummaryValue repositoryId "localChanges" (summary_localChanges summary) (sdelta_localChanges delta);
  remoteChanges ← applySummaryValue repositoryId "remoteChanges" (summary_remoteChanges summary) (sdelta_remoteChanges delta);
  conflicts ← applySummaryValue repositoryId "conflicts" (summary_conflicts summary) (sdelta_conflicts delta);
  unversioned ← applySummaryValue repositoryId "unversioned" (summary_unversioned summary) (sdelta_unversioned delta);
  Ok {| summary_localChanges := localChanges; summary_remoteChanges := remoteChanges;
        summary_conflicts := conflicts; summary_unversioned := unversioned |}.

(** One side of a delta: deletes, then sets, on a copy of the map. *)
Definition applyEntries (entries : list (string * StatusEntry)) (remove : list string)
    (upsert : list StatusEntry) : list (string * StatusEntry) :=
  fold_left (fun m entry => map_set m (entry_path entry) entry) upsert
    (fold_left map_delete remove entries).

(** *** Operations *)
Definition registerRepository (repositoryId : string) (epoch : Z) : method store unit :=
  repositories ← get_state;
  if negb (isNonEmptyString repositoryId) then throw_error (statusStoreInputError "repositoryId")
  else if negb (isSafeInteger epoch) || (epoch <? 0)%Z then throw_error (statusStoreInputError "epoch")
  else if map_has repositories repositoryId then throw_error (alreadyRegistered repositoryId)
  else put_state (map_set repositories repositoryId
    {| st_repositoryId := repositoryId; st_epoch := epoch; st_generation := None;
       st_completeness := None; st_identity := None; st_localEntries := []; st_remoteEntries := [];
       st_summary := None; st_timestamp := None; st_source := None |}).

Definition unregisterRepository (repositoryId : string) : method store unit :=
  modify_state (fun repositories => map_delete repositories repositoryId).

Definition applySnapshotToState (state : RepositoryState) (snapshot : StatusSnapshot) : RepositoryState :=
  {| st_repositoryId := st_repositoryId state; st_epoch := st_epoch state;
     st_generation := Some (snapshot_generation snapshot);
     st_completeness := Some (snapshot_completeness snapshot);
     st_identity := Some (snapshot_identity snapshot);
     st_localEntries := entriesByPath (snapshot_localEntries snapshot);
     st_remoteEntries := entriesByPath (snapshot_remoteEntries snapshot);
     st_summary := Some (snapshot_summary snapshot);
     st_timestamp := Some (snapshot_timestamp snapshot);
     st_source := Some (snapshot_source snapshot) |}.

(** Write the state object of [key] and return its snapshot. *)
Definition commit (key : string) (state : RepositoryState) : method store StatusSnapshot :=
  _ ← modify_state (fun repositories => map_set repositories key state);
  lift_result (snapshotFromState state).

Definition stale_generation (state : RepositoryState) (actual : Z) : option Z :=
  match st_generation state with
  | Some current => if (actual <? current)%Z then Some current else None
  | None => None
  end.

Definition applySnapshot (snapshot : StatusSnapshot) : method store StatusSnapshot :=
  repositories ← get_state;
  let id := snapshot_repositoryId snapshot in
  match map_get repositories id with
  | None => throw_error (notRegistered id)
  | Some state =>
    if negb (st_epoch state =? snapshot_epoch snapshot)%Z then
      throw_error (epochMismatch "SUBVERSIONR_STATUS_STORE_SNAPSHOT_EPOCH_MISMATCH"
        "error.status.storeSnapshotMismatch" (st_repositoryId state) (st_epoch state) (snapshot_epoch snapshot))
    else match stale_generation state (snapshot_generation snapshot) with
    | Some current =>
      throw_error (generationStale "SUBVERSIONR_STATUS_STORE_SNAPSHOT_GENERATION_STALE"
        (st_repositoryId state) current (snapshot_generation snapshot))
    | None => commit id (applySnapshotToState state snapshot)
    end
  end.

Definition set_epoch (state : RepositoryState) (epoch : Z) : RepositoryState :=
  {| st_repositoryId := st_repositoryId state; st_epoch := epoch;
     st_generation := st_generation state; st_completeness := st_completeness state;
     st_identity := st_identity state; st_localEntries := st_localEntries state;
     st_remoteEntries := st_remoteEntries state; st_summary := st_summary state;
     st_timestamp := st_timestamp state; st_source := st_source state |}.

Definition replaceSnapshot (snapshot : StatusSnapshot) : method store StatusSnapshot :=
  repositories ← get_state;
  let id := snapshot_repositoryId snapshot in
  match map_get repositories id with
  | None => throw_error (notRegistered id)
  | Some state =>
    match (if (st_epoch state =? snapshot_epoch snapshot)%Z
           then stale_generation state (snapshot_generation snapshot) else None) with
    | Some current =>
      throw_error (generationStale "SUBVERSIONR_STATUS_STORE_SNAPSHOT_GENERATION_STALE"
        (st_repositoryId state) current (snapshot_generation snapshot))
    | None => commit id (applySnapshotToState (set_epoch state (snapshot_epoch snapshot)) snapshot)
    end
  end.

(** The assignments to the state object at the end of [applyDelta]. *)
Definition assignDelta (state : RepositoryState) (delta : StatusDelta)
    (localEntries remoteEntries : list (string * StatusEntry)) (summary : StatusSummary) : RepositoryState :=
  {| st_repositoryId := st_repositoryId state; st_epoch := st_epoch state;
     st_generation := Some (delta_generation delta);
     st_completeness := Some (delta_completeness delta);
     st_identity := st_identity state;
     st_localEntries := localEntries; st_remoteEntries := remoteEntries;
     st_summary := Some summary; st_timestamp := Some (delta_timestamp delta);
     st_source := Some (delta_source delta) |}.

Definition applyDelta (delta : StatusDelta) : method store StatusSnapshot :=
  repositories ← get_state;
  let id := delta_repositoryId delta in
  match map_get repositories id with
  | None => throw_error (notRegistered id)
  | Some state =>
    if negb (st_epoch state =? delta_epoch delta)%Z then
      throw_error (epochMismatch "SUBVERSIONR_STATUS_STORE_DELTA_EPOCH_MISMATCH"
        "error.status.storeDeltaMismatch" (st_repositoryId state) (st_epoch state) (delta_epoch delta))
    else
      i ← lift_result (requireInitializedState state);
      if (delta_generation delta <=? init_generation i)%Z then
        throw_error (generationStale "SUBVERSIONR_STATUS_STORE_DELTA_GENERATION_STALE"
          (st_repositoryId state) (init_generation i) (delta_generation delta))
      else
        let localEntries := applyEntries (st_localEntries state) (delta_remove delta) (delta_upsert delta) in
        let remoteEntries := applyEntries (st_remoteEntries state) (delta_remoteRemove delta) (delta_remoteUpsert delta) in
        summary ← lift_result (applySummaryDelta (st_repositoryId state) (init_summary i) (delta_summaryDelta delta));
        commit id (assignDelta state delta localEntries remoteEntries summary)
  end.

Definition requireNonEmptyStaleField (value f : string) : result unit :=
  require (isNonEmptyString value) (statusStoreInputError f).

(** The assignments to the state object at the end of [markStale]. *)
Definition assignStale (state : RepositoryState) (mark : StatusStaleMark) : RepositoryState :=
  {| st_repositoryId := st_repositoryId state; st_epoch := st_epoch state;
     st_generation := st_generation state; st_completeness := Some Stale;
     st_identity := st_identity state; st_localEntries := st_localEntries state;
     st_remoteEntries := st_remoteEntries state; st_summary := st_summary state;
     st_timestamp := Some (mark_timestamp mark); st_source := Some (mark_source mark) |}.

Definition markStale (mark : StatusStaleMark) : method store StatusSnapshot :=
  _ ← lift_result (requireNonEmptyStaleField (mark_repositoryId mark) "repositoryId");
  _ ← lift_result (requireNonEmptyStaleField (mark_reason mark) "reason");
  _ ← lift_result (requireNonEmptyStaleField (mark_timestamp mark) "timestamp");
  _ ← lift_result (requireNonEmptyStaleField (mark_source mark) "source");
  _ ← lift_result (require (negb (negb (isSafeInteger (mark_epoch mark)) || (mark_epoch mark <? 0)%Z))
                     (statusStoreInputError "epoch"));
  repositories ← get_state;
  let id := mark_repositoryId mark in
  match map_get repositories id with
  | None => throw_error (notRegistered id)
  | Some state =>
    if negb (st_epoch state =? mark_epoch mark)%Z then
      throw_error (epochMismatch "SUBVERSIONR_STATUS_STORE_STALE_EPOCH_MISMATCH"
        "error.status.storeStaleMismatch" (st_repositoryId state) (st_epoch state) (mark_epoch mark))
    else
      _ ← lift_result (requireInitializedState state);
      commit id (assignStale state mark)
  end.

Definition getSnapshot (repositories : store) (repositoryId : string) : option StatusSnapshot :=
  state ← map_get repositories repositoryId;
  i ← initialized state;
  Some (snapshot_of state i).

Definition getLocalEntry (repositories : store) (repositoryId path : string) : option StatusEntry :=
  state ← map_get repositories repositoryId;
  map_get (st_localEntries state) path.

Definition getRemoteEntry (repositories : store) (repositoryId path : string) : option StatusEntry :=
  state ← map_get repositories repositoryId;
  map_get (st_remoteEntries state) path.
End StatusSnapshotStore.
