(* ===== verification/StatusStoreFacts.v ===== *)
(** Correctness of the canonical status store: its invariant, exception
    safety, what each operation does, and generation order. *)

From Stdlib Require Import ZArith String List.
From stdpp Require Import base option list sets gmap strings relations.
From S2P Require Import Prelude JsString JsMap StatusTypes StatusWire StatusWireFacts StatusStore.
Import StatusSnapshotStore.

Local Open Scope string_scope.

(** ** Operations as data *)
Inductive op :=
  | OpRegister (repositoryId : string) (epoch : Z)
  | OpUnregister (repositoryId : string)
  | OpSnapshot (snapshot : StatusSnapshot)
  | OpReplace (snapshot : StatusSnapshot)
  | OpDelta (delta : StatusDelta)
  | OpStale (mark : StatusStaleMark).

(** Run an operation for its effect: the error it throws, and the store after. *)
Definition exec (o : op) (s : store) : option js_error * store :=
  let drop {A} (r : result A * store) :=
    match r with (Ok _, s') => (None, s') | (Throw e, s') => (Some e, s') end in
  match o with
  | OpRegister id epoch => drop (registerRepository id epoch s)
  | OpUnregister id => drop (unregisterRepository id s)
  | OpSnapshot snapshot => drop (applySnapshot snapshot s)
  | OpReplace snapshot => drop (replaceSnapshot snapshot s)
  | OpDelta delta => drop (applyDelta delta s)
  | OpStale mark => drop (markStale mark s)
  end.

(** Inputs come from the wire clients: snapshots and deltas satisfy the
    protocol's contract. *)
Definition op_ok (win32 : bool) (o : op) : Prop :=
  match o with
  | OpSnapshot s | OpReplace s => snapshot_ok win32 s
  | OpDelta d => delta_ok win32 d
  | _ => True
  end.

(** ** The invariant *)
Definition entries_wf (m : list (string * StatusEntry)) : Prop :=
  map_wf m /\ forall p e, map_get m p = Some e -> entry_path e = p.

Definition init_ok (i : Initialized) : Prop :=
  count_ok (init_generation i) /\ summary_ok (init_summary i).

Record state_ok (id : string) (st : RepositoryState) : Prop := {
  state_id : st_repositoryId st = id;
  state_local : entries_wf (st_localEntries st);
  state_remote : entries_wf (st_remoteEntries st);
  state_init :
    (st_generation st = None /\ st_localEntries st = [] /\ st_remoteEntries st = []) \/
    (exists i, initialized st = Some i /\ init_ok i);
}.

Definition store_ok (s : store) : Prop :=
  map_wf s /\ forall id st, map_get s id = Some st -> state_ok id st.

(** ** Running methods *)
Ltac run_method :=
  unfold exec, registerRepository, unregisterRepository, applySnapshot, replaceSnapshot, applyDelta,
    markStale, commit, mbind, method_bind, get_state, put_state, modify_state, throw_error,
    lift_result in *; cbn beta iota zeta in *.

Lemma initialized_spec st i :
  initialized st = Some i <->
  st_generation st = Some (init_generation i) /\ st_completeness st = Some (init_completeness i) /\
  st_identity st = Some (init_identity i) /\ st_summary st = Some (init_summary i) /\
  st_timestamp st = Some (init_timestamp i) /\ st_source st = Some (init_source i).
Proof.
  unfold initialized. split.
  - intros H. repeat case_match; simplify_eq/=. done.
  - intros (-> & -> & -> & -> & -> & ->). by destruct i.
Qed.

Lemma requireInitializedState_ok st i : requireInitializedState st = Ok i <-> initialized st = Some i.
Proof. unfold requireInitializedState. destruct (initialized st); naive_solver. Qed.

Lemma snapshotFromState_initialized st i :
  initialized st = Some i -> snapshotFromState st = Ok (snapshot_of st i).
Proof. intros H. unfold snapshotFromState, requireInitializedState. by rewrite H. Qed.

Lemma entries_wf_nil : entries_wf [].
Proof. split; [apply map_wf_nil|done]. Qed.

Lemma entries_wf_set m e : entries_wf m -> entries_wf (map_set m (entry_path e) e).
Proof.
  intros [Hwf Hkey]. split; [by apply map_wf_set|]. intros p e'.
  rewrite map_get_set. case_bool_decide; naive_solver.
Qed.

Lemma entries_wf_delete m p : entries_wf m -> entries_wf (map_delete m p).
Proof.
  intros [Hwf Hkey]. split; [by apply map_wf_delete|]. intros p' e'.
  rewrite map_get_delete. case_bool_decide; naive_solver.
Qed.

#[export] Hint Resolve entries_wf_nil entries_wf_set entries_wf_delete : js.

Lemma applyEntries_wf m remove upsert : entries_wf m -> entries_wf (applyEntries m remove upsert).
Proof.
  intros Hm. unfold applyEntries.
  assert (entries_wf (fold_left map_delete remove m)) as Hd.
  { revert m Hm. induction remove as [|p l IH]; intros m Hm; cbn [fold_left]; eauto with js. }
  revert Hd. generalize (fold_left map_delete remove m). clear Hm m.
  induction upsert as [|e l IH]; intros m Hm; cbn [fold_left]; eauto with js.
Qed.

Lemma entriesByPath_applyEntries entries : entriesByPath entries = applyEntries [] [] entries.
Proof.
  unfold entriesByPath, applyEntries, map_of. cbn [fold_left]. generalize (@nil (string * StatusEntry)).
  induction entries as [|e l IH]; intros m; cbn; [done|]. apply IH.
Qed.

Lemma entriesByPath_wf entries : entries_wf (entriesByPath entries).
Proof. rewrite entriesByPath_applyEntries. apply applyEntries_wf, entries_wf_nil. Qed.

(** Lookup after one side of a delta, when the paths of the side are distinct. *)
Lemma applyEntries_get m remove upsert p :
  NoDup (map entry_path upsert) ->
  map_get (applyEntries m remove upsert) p =
  match List.find (fun e => bool_decide (entry_path e = p)) upsert with
  | Some e => Some e
  | None => if bool_decide (p ∈ remove) then None else map_get m p
  end.
Proof.
  intros Hnd. unfold applyEntries.
  rewrite <- map_get_fold_delete. generalize (fold_left map_delete remove m). clear m.
  induction upsert as [|e l IH]; intros m; [done|]. cbn in Hnd. apply NoDup_cons in Hnd as [Hn Hnd].
  cbn [fold_left List.find]. rewrite IH by done. case_bool_decide as He.
  - subst p. destruct (List.find _ l) as [e'|] eqn:Hf.
    + exfalso. apply find_some in Hf as [Hin ?]. apply Hn, list_elem_of_fmap. exists e'.
      bool_cases. split; [done|]. by apply list_elem_of_In.
    + apply map_get_set_eq.
  - destruct (List.find _ l); [done|]. by apply map_get_set_ne.
Qed.

Lemma applySummaryValue_ok id f current delta next :
  applySummaryValue id f current delta = Ok next <-> next = (current + delta)%Z /\ count_ok next.
Proof.
  unfold applySummaryValue, count_ok, isSafeInteger, MAX_SAFE_INTEGER. split.
  - case_match; [done|]. intros [= <-]. lia.
  - intros [-> H]. case_match; [lia|done].
Qed.

Lemma applySummaryDelta_ok id s d s' :
  applySummaryDelta id s d = Ok s' ->
  summary_ok s' /\
  summary_localChanges s' = (summary_localChanges s + sdelta_localChanges d)%Z /\
  summary_remoteChanges s' = (summary_remoteChanges s + sdelta_remoteChanges d)%Z /\
  summary_conflicts s' = (summary_conflicts s + sdelta_conflicts d)%Z /\
  summary_unversioned s' = (summary_unversioned s + sdelta_unversioned d)%Z.
Proof.
  unfold applySummaryDelta. intros H. wire_inv.
  repeat match goal with H : applySummaryValue _ _ _ _ = Ok _ |- _ =>
    apply applySummaryValue_ok in H as [? ?] end.
  unfold summary_ok. cbn. done.
Qed.

(** ** What each operation does when it returns *)

(** The initialized view after the assignments of each operation. *)
Definition snapshot_init (s : StatusSnapshot) : Initialized :=
  {| init_generation := snapshot_generation s; init_completeness := snapshot_completeness s;
     init_identity := snapshot_identity s; init_summary := snapshot_summary s;
     init_timestamp := snapshot_timestamp s; init_source := snapshot_source s |}.
Definition delta_init (i : Initialized) (d : StatusDelta) (summary : StatusSummary) : Initialized :=
  {| init_generation := delta_generation d; init_completeness := delta_completeness d;
     init_identity := init_identity i; init_summary := summary;
     init_timestamp := delta_timestamp d; init_source := delta_source d |}.
Definition stale_init (i : Initialized) (m : StatusStaleMark) : Initialized :=
  {| init_generation := init_generation i; init_completeness := Stale;
     init_identity := init_identity i; init_summary := init_summary i;
     init_timestamp := mark_timestamp m; init_source := mark_source m |}.

Lemma initialized_snapshot st s : initialized (applySnapshotToState st s) = Some (snapshot_init s).
Proof. done. Qed.

Lemma initialized_delta st d i local remote summary :
  initialized st = Some i ->
  initialized (assignDelta st d local remote summary) = Some (delta_init i d summary).
Proof. rewrite !initialized_spec. intros (?&?&?&?&?&?). by cbn. Qed.

Lemma initialized_stale st m i :
  initialized st = Some i -> initialized (assignStale st m) = Some (stale_init i m).
Proof. rewrite !initialized_spec. intros (?&?&?&?&?&?). by cbn. Qed.

(** The state object [applyDelta] leaves behind. *)
Definition delta_state (st : RepositoryState) (d : StatusDelta) (summary : StatusSummary) : RepositoryState :=
  assignDelta st d
    (applyEntries (st_localEntries st) (delta_remove d) (delta_upsert d))
    (applyEntries (st_remoteEntries st) (delta_remoteRemove d) (delta_remoteUpsert d)) summary.

Lemma applyDelta_cases d s :
  match applyDelta d s with
  | (Ok snap, s') => exists st i summary,
      map_get s (delta_repositoryId d) = Some st /\ st_epoch st = delta_epoch d /\
      initialized st = Some i /\ (init_generation i < delta_generation d)%Z /\
      applySummaryDelta (st_repositoryId st) (init_summary i) (delta_summaryDelta d) = Ok summary /\
      s' = map_set s (delta_repositoryId d) (delta_state st d summary) /\
      snap = snapshot_of (delta_state st d summary) (delta_init i d summary)
  | (Throw _, s') => s' = s
  end.
Proof.
  run_method. destruct (map_get s (delta_repositoryId d)) as [st|]; [|done].
  destruct (st_epoch st =? delta_epoch d)%Z eqn:He; cbn [negb]; [|done].
  destruct (requireInitializedState st) as [i|e] eqn:Hi; [|done].
  apply requireInitializedState_ok in Hi.
  destruct (delta_generation d <=? init_generation i)%Z eqn:Hg; [done|].
  destruct (applySummaryDelta _ _ _) as [summary|e] eqn:Hs; [|done].
  rewrite (snapshotFromState_initialized _ _ (initialized_delta st d i _ _ summary Hi)).
  exists st, i, summary. split_and!; try done; lia.
Qed.

Lemma markStale_cases m s :
  match markStale m s with
  | (Ok snap, s') => exists st i,
      map_get s (mark_repositoryId m) = Some st /\ st_epoch st = mark_epoch m /\
      initialized st = Some i /\
      s' = map_set s (mark_repositoryId m) (assignStale st m) /\
      snap = snapshot_of (assignStale st m) (stale_init i m)
  | (Throw _, s') => s' = s
  end.
Proof.
  run_method.
  do 4 (match goal with |- context [requireNonEmptyStaleField ?v ?f] =>
    destruct (requireNonEmptyStaleField v f); [|done] end).
  destruct (require _ _); [|done].
  destruct (map_get s (mark_repositoryId m)) as [st|]; [|done].
  destruct (st_epoch st =? mark_epoch m)%Z eqn:He; cbn [negb]; [|done].
  destruct (requireInitializedState st) as [i|e] eqn:Hi; [|done].
  apply requireInitializedState_ok in Hi.
  rewrite (snapshotFromState_initialized _ _ (initialized_stale st m i Hi)).
  exists st, i. split_and!; try done; lia.
Qed.

(** Both snapshot operations end in the same assignments; [replaceSnapshot]
    moves the epoch first. *)
Definition snapshot_state (st : RepositoryState) (snap : StatusSnapshot) : RepositoryState :=
  applySnapshotToState (set_epoch st (snapshot_epoch snap)) snap.

Lemma set_epoch_same st : set_epoch st (st_epoch st) = st.
Proof. by destruct st. Qed.

Lemma stale_generation_None st g :
  stale_generation st g = None <-> forall g0, st_generation st = Some g0 -> (g0 <= g)%Z.
Proof.
  unfold stale_generation. destruct (st_generation st) as [g0|]; [|naive_solver].
  destruct (g <? g0)%Z eqn:E; split; try done.
  - intros H. specialize (H g0 eq_refl). lia.
  - intros _ ? [= <-]. lia.
Qed.

Lemma applySnapshot_cases snap s :
  match applySnapshot snap s with
  | (Ok out, s') => exists st,
      map_get s (snapshot_repositoryId snap) = Some st /\ st_epoch st = snapshot_epoch snap /\
      (forall g0, st_generation st = Some g0 -> (g0 <= snapshot_generation snap)%Z) /\
      s' = map_set s (snapshot_repositoryId snap) (snapshot_state st snap) /\
      out = snapshot_of (snapshot_state st snap) (snapshot_init snap)
  | (Throw _, s') => s' = s
  end.
Proof.
  run_method. destruct (map_get s (snapshot_repositoryId snap)) as [st|]; [|done].
  destruct (st_epoch st =? snapshot_epoch snap)%Z eqn:He; cbn [negb]; [|done].
  destruct (stale_generation _ _) eqn:Hg; [done|]. cbn. apply Z.eqb_eq in He.
  exists st. rewrite stale_generation_None in Hg.
  unfold snapshot_state. rewrite <- He, set_epoch_same. done.
Qed.

Lemma replaceSnapshot_cases snap s :
  match replaceSnapshot snap s with
  | (Ok out, s') => exists st,
      map_get s (snapshot_repositoryId snap) = Some st /\
      (st_epoch st = snapshot_epoch snap ->
       forall g0, st_generation st = Some g0 -> (g0 <= snapshot_generation snap)%Z) /\
      s' = map_set s (snapshot_repositoryId snap) (snapshot_state st snap) /\
      out = snapshot_of (snapshot_state st snap) (snapshot_init snap)
  | (Throw _, s') => s' = s
  end.
Proof.
  run_method. destruct (map_get s (snapshot_repositoryId snap)) as [st|]; [|done].
  destruct (st_epoch st =? snapshot_epoch snap)%Z eqn:He.
  - destruct (stale_generation _ _) eqn:Hg; [done|]. cbn. exists st.
    rewrite stale_generation_None in Hg. done.
  - cbn. exists st. split_and!; try done. lia.
Qed.

Lemma registerRepository_cases id epoch s :
  match registerRepository id epoch s with
  | (Ok _, s') => exists st, map_get s id = None /\ text_ok id /\ count_ok epoch /\
      s' = map_set s id st /\ state_ok id st /\ st_epoch st = epoch /\ st_generation st = None
  | (Throw _, s') => s' = s
  end.
Proof.
  run_method. destruct (isNonEmptyString id) eqn:Hid; cbn [negb]; [|done].
  destruct (negb (isSafeInteger epoch) || (epoch <? 0)%Z) eqn:He; [done|].
  unfold map_has. destruct (map_get s id) eqn:Hget; [done|].
  eexists. split_and!; try done. all: try (unfold count_ok, isSafeInteger, MAX_SAFE_INTEGER in *; lia).
  split; cbn; auto with js.
Qed.

(** ** Preservation *)

Lemma store_ok_set s id st : store_ok s -> state_ok id st -> store_ok (map_set s id st).
Proof.
  intros [Hwf Hall] Hst. split; [by apply map_wf_set|]. intros id' st'.
  rewrite map_get_set. case_bool_decide; naive_solver.
Qed.

Lemma state_ok_snapshot win32 id st snap :
  state_ok id st -> snapshot_ok win32 snap -> state_ok id (snapshot_state st snap).
Proof.
  intros [Hid _ _ _] [(_ & _ & Hg & _) _ _ _ Hsum]. split; cbn; try done.
  1, 2: apply entriesByPath_wf.
  right. by exists (snapshot_init snap).
Qed.

Lemma state_ok_delta win32 id st d i summary :
  state_ok id st -> initialized st = Some i -> summary_ok summary -> delta_ok win32 d ->
  state_ok id (delta_state st d summary).
Proof.
  intros [Hid Hl Hr _] Hi Hsum Hd. split; cbn; try done.
  1, 2: by apply applyEntries_wf.
  right. exists (delta_init i d summary). split; [exact (initialized_delta st d i [] [] summary Hi)|].
  destruct Hd as [(_ & _ & Hg & _) _ _ _ _ _ _]. by split.
Qed.

Lemma state_ok_stale id st m i :
  state_ok id st -> initialized st = Some i -> state_ok id (assignStale st m).
Proof.
  intros [Hid Hl Hr Hinit] Hi. split; cbn; try done.
  right. exists (stale_init i m). split; [exact (initialized_stale st m i Hi)|].
  destruct Hinit as [(Hnone & _)|(i' & Hi' & Hok)].
  - apply initialized_spec in Hi as [? _]. congruence.
  - replace i with i' by congruence. done.
Qed.

(** ** Order of generations *)
Definition generation_le (g g' : option Z) : Prop :=
  match g, g' with
  | None, _ => True
  | Some a, Some b => (a <= b)%Z
  | Some _, None => False
  end.

Lemma generation_le_refl g : generation_le g g.
Proof. destruct g; cbn; [lia|done]. Qed.

(** What an operation may do to the state object of a repository. *)
Record transition (win32 : bool) (o : op) (id : string) (st : option RepositoryState) (st' : RepositoryState) : Prop := {
  transition_ok : (forall st0, st = Some st0 -> state_ok id st0) -> op_ok win32 o -> state_ok id st';
  transition_le : forall st0, st = Some st0 -> st_epoch st' = st_epoch st0 ->
    generation_le (st_generation st0) (st_generation st');
}.

(** Every operation keeps the store, deletes one repository, or rewrites the
    state object of one repository. *)
Lemma exec_shape win32 o s :
  (exec o s).2 = s \/ (exists id, (exec o s).2 = map_delete s id) \/
  (exists id st', (exec o s).2 = map_set s id st' /\ transition win32 o id (map_get s id) st').
Proof.
  unfold exec. destruct o as [id ep|id|snap|snap|d|m].
  - pose proof (registerRepository_cases id ep s) as H.
    destruct (registerRepository id ep s) as [[[]|e] s']; cbn in *; [|by left].
    destruct H as (st & Hnone & _ & _ & -> & Hst & _). right; right. exists id, st.
    split; [done|]. split; [done|]. by rewrite Hnone.
  - right; left. by exists id.
  - pose proof (applySnapshot_cases snap s) as H.
    destruct (applySnapshot snap s) as [[out|e] s']; cbn in *; [|by left].
    destruct H as (st & Hst & He & Hg & -> & _). right; right. eexists _, _. split; [done|].
    rewrite Hst. split.
    + intros Hok Ho. eapply state_ok_snapshot; eauto.
    + intros ? [= <-] _. cbn. destruct (st_generation st); cbn; auto.
  - pose proof (replaceSnapshot_cases snap s) as H.
    destruct (replaceSnapshot snap s) as [[out|e] s']; cbn in *; [|by left].
    destruct H as (st & Hst & Hg & -> & _). right; right. eexists _, _. split; [done|].
    rewrite Hst. split.
    + intros Hok Ho. eapply state_ok_snapshot; eauto.
    + intros ? [= <-] He. cbn in *. destruct (st_generation st); cbn; auto.
  - pose proof (applyDelta_cases d s) as H.
    destruct (applyDelta d s) as [[out|e] s']; cbn in *; [|by left].
    destruct H as (st & i & sum & Hst & _ & Hi & Hg & Hsum & -> & _). right; right.
    eexists _, _. split; [done|]. rewrite Hst. split.
    + intros Hok Ho. apply applySummaryDelta_ok in Hsum as [? _]. eapply state_ok_delta; eauto.
    + intros ? [= <-] _. cbn. apply initialized_spec in Hi as [-> _]. cbn. lia.
  - pose proof (markStale_cases m s) as H.
    destruct (markStale m s) as [[out|e] s']; cbn in *; [|by left].
    destruct H as (st & i & Hst & _ & Hi & -> & _). right; right. eexists _, _. split; [done|].
    rewrite Hst. split.
    + intros Hok Ho. eapply state_ok_stale; eauto.
    + intros ? [= <-] _. apply generation_le_refl.
Qed.

Lemma exec_preserves win32 o s : op_ok win32 o -> store_ok s -> store_ok (exec o s).2.
Proof.
  intros Ho Hs. pose proof Hs as [Hwf Hall].
  destruct (exec_shape win32 o s) as [->|[[id ->]|(id & st' & -> & [Hok _])]]; [done| |].
  - split; [by apply map_wf_delete|]. intros id' st'. rewrite map_get_delete.
    case_bool_decide; naive_solver.
  - apply store_ok_set; [done|]. eauto.
Qed.

(** A step of the store: any operation on inputs the wire clients accept,
    whether it returns or throws. *)
Definition store_step (win32 : bool) (s s' : store) : Prop :=
  exists o, op_ok win32 o /\ s' = (exec o s).2.

Lemma exec_generation o s id st st' :
  map_get s id = Some st -> map_get (exec o s).2 id = Some st' -> st_epoch st' = st_epoch st ->
  generation_le (st_generation st) (st_generation st').
Proof.
  intros Hst Hst' He.
  destruct (exec_shape false o s) as [Heq|[[id' Heq]|(id' & st0 & Heq & [_ Hle])]]; rewrite Heq in Hst'.
  - replace st' with st by congruence. apply generation_le_refl.
  - rewrite map_get_delete in Hst'. case_bool_decide; [done|].
    replace st' with st by congruence. apply generation_le_refl.
  - rewrite map_get_set in Hst'. case_bool_decide; simplify_eq; [by apply Hle|apply generation_le_refl].
Qed.

(** A throw leaves the store alone. *)
Lemma exec_throw_same o s e s' : exec o s = (Some e, s') -> s' = s.
Proof.
  unfold exec. destruct o as [id ep|id|snap|snap|d|m]; intros H.
  - pose proof (registerRepository_cases id ep s). by destruct (registerRepository id ep s) as [[[]|?] ?]; simplify_eq.
  - done.
  - pose proof (applySnapshot_cases snap s). by destruct (applySnapshot snap s) as [[?|?] ?]; simplify_eq.
  - pose proof (replaceSnapshot_cases snap s). by destruct (replaceSnapshot snap s) as [[?|?] ?]; simplify_eq.
  - pose proof (applyDelta_cases d s). by destruct (applyDelta d s) as [[?|?] ?]; simplify_eq.
  - pose proof (markStale_cases m s). by destruct (markStale m s) as [[?|?] ?]; simplify_eq.
Qed.

(** ** Properties *)

(** Exception safety. An operation of the status store that throws leaves
    every repository's stored status exactly as it was. *)
Theorem exec_throw_keeps_store o s e s' : exec o s = (Some e, s') -> s' = s.
Proof. apply exec_throw_same. Qed.

(** Invariant. Whatever sequence of operations runs on a fresh store (with
    snapshots and deltas the wire clients accept), every registered repository
    is stored under its own id, its entry maps are keyed by entry path without
    duplicates, and it is either untouched since registration or fully
    initialized with a non-negative safe generation and summary. *)
Theorem reachable_store_ok win32 s : rtc (store_step win32) [] s -> store_ok s.
Proof.
  intros H. assert (store_ok []) as H0 by (split; [apply map_wf_nil|done]).
  revert H0. induction H as [|s1 s2 s3 (o & Ho & ->) _ IH]; [done|].
  intros Hs. apply IH. by eapply exec_preserves.
Qed.

(** Generations never go back. While a repository stays registered in the
    same epoch, no operation lowers the generation of its stored status. *)
Theorem generation_monotone win32 s s' id st st' :
  store_step win32 s s' -> map_get s id = Some st -> map_get s' id = Some st' ->
  st_epoch st' = st_epoch st -> generation_le (st_generation st) (st_generation st').
Proof. intros (o & _ & ->). apply exec_generation. Qed.

(** The abstract effect of one side of a delta on a map from paths to entries. *)
Definition side_spec (upsert : list StatusEntry) (remove : list string)
    (old : string -> option StatusEntry) (p : string) : option StatusEntry :=
  match List.find (fun e => bool_decide (entry_path e = p)) upsert with
  | Some e => Some e
  | None => if bool_decide (p ∈ remove) then None else old p
  end.

(** A delta does what it says. When [applyDelta] returns for a delta the
    wire client accepts, each upserted path holds the upserted entry, each
    removed path is gone, every other path and every other repository is
    untouched, the returned snapshot is what [getSnapshot] now reports, and it
    carries the delta's generation, strictly above the previous one. *)
Theorem applyDelta_spec win32 d s snap s' :
  delta_ok win32 d -> applyDelta d s = (Ok snap, s') ->
  let id := delta_repositoryId d in
  (forall p, getLocalEntry s' id p = side_spec (delta_upsert d) (delta_remove d) (getLocalEntry s id) p) /\
  (forall p, getRemoteEntry s' id p = side_spec (delta_remoteUpsert d) (delta_remoteRemove d) (getRemoteEntry s id) p) /\
  (forall id', id' <> id -> map_get s' id' = map_get s id') /\
  getSnapshot s' id = Some snap /\
  snapshot_generation snap = delta_generation d /\
  (exists old, getSnapshot s id = Some old /\ (snapshot_generation old < delta_generation d)%Z).
Proof.
  intros Hd H id. pose proof (applyDelta_cases d s) as Hc. rewrite H in Hc.
  destruct Hc as (st & i & sum & Hst & He & Hi & Hg & Hsum & -> & ->).
  destruct (delta_sides_ok _ _ Hd) as [(Hu & _)%side_ok_iff (Hru & _)%side_ok_iff].
  unfold getLocalEntry, getRemoteEntry, getSnapshot, side_spec. subst id.
  rewrite map_get_set_eq, Hst. cbn [mbind option_bind]. split_and!.
  - intros p. by apply applyEntries_get.
  - intros p. by apply applyEntries_get.
  - intros id' Hne. by apply map_get_set_ne.
  - unfold delta_state. by rewrite (initialized_delta _ _ _ _ _ _ Hi).
  - done.
  - rewrite Hi. by eexists.
Qed.
