(* ===== verification/Paths.v ===== *)
(** File-system paths as the watcher and the dirty-path set read them.

    status/dirtyPathSet.ts and status/watcherEvents.ts each hold their own copy of
    the path functions; the first are at the top level of this file, the second in
    the module [WatcherEvents], and the lemmas at the end say what the copies have
    in common.  Texts have the characters U+0000 to U+00FF (see the root file). *)

From Stdlib Require Import ZArith Ascii String List.
From stdpp Require Import base option list strings.
From S2P Require Import Prelude JsString StatusTypes.

Local Open Scope string_scope.

Definition normalizeAbsolutePath (path : string) : string :=
  strip_trailing (replaceAll path backslash slash) slash.

Definition isAllowedAbsolutePrefix (parts : list string) (index : nat) : bool :=
  if (index =? 0)%nat && (1 <? length parts)%nat then true
  else (index =? 1)%nat && bool_decide (parts !! 0 = Some "") && (2 <? length parts)%nat.

(** [parts.some((part, index) => ...)] *)
Fixpoint unsafe_from (all : list string) (index : nat) (parts : list string) : bool :=
  match parts with
  | [] => false
  | part :: rest =>
      (if bool_decide (part = ".") || bool_decide (part = "..") then true
       else if negb (bool_decide (part = "")) then false
       else negb (isAllowedAbsolutePrefix all index))
      || unsafe_from all (S index) rest
  end.

Definition hasUnsafePathSegments (path : string) : bool :=
  let parts := split path slash in unsafe_from parts 0 parts.

Definition caseKey (pathCase : PathCasePolicy) (path : string) : string :=
  match pathCase with CaseInsensitive => toLocaleLowerCase path | CaseSensitive => path end.

Definition comparisonKey (scope : RepositoryWatchScope) (path : string) : string :=
  caseKey (scope_pathCase scope) path.

Definition isInsideBoundary (scope : RepositoryWatchScope) (candidate : string) : bool :=
  existsb (fun boundaryRoot =>
    let boundaryKey := comparisonKey scope (normalizeAbsolutePath boundaryRoot) in
    let candidateKey := comparisonKey scope candidate in
    bool_decide (candidateKey = boundaryKey) || startsWith candidateKey (boundaryKey ++ "/"))
    (scope_boundaryRoots scope).

Definition isSvnInternal (scope : RepositoryWatchScope) (relativePath : string) : bool :=
  let key := comparisonKey scope relativePath in
  bool_decide (key = ".svn") || startsWith key ".svn/".

(** dirtyPathSet.ts: the repository-relative path of an event, [None] for
    [null]. *)
Definition repositoryRelativePath (scope : RepositoryWatchScope) (eventPath : string) : option string :=
  let root := normalizeAbsolutePath (scope_workingCopyRoot scope) in
  let candidate := normalizeAbsolutePath eventPath in
  if hasUnsafePathSegments root || hasUnsafePathSegments candidate then None
  else
    let rootKey := comparisonKey scope root in
    let candidateKey := comparisonKey scope candidate in
    if negb (bool_decide (candidateKey = rootKey)) && negb (startsWith candidateKey (rootKey ++ "/")) then None
    else if isInsideBoundary scope candidate then None
    else
      let relative :=
        if bool_decide (candidateKey = rootKey) then "."
        else slice_from (S (String.length root)) candidate in
      if isSvnInternal scope relative then None else Some relative.

(** status/watcherEvents.ts *)
Module WatcherEvents.
Definition normalizePath (path : string) : string :=
  strip_trailing (replaceAll path backslash slash) slash.

Definition isAllowedAbsolutePrefix (parts : list string) (index : nat) : bool :=
  if (index =? 0)%nat && (1 <? length parts)%nat then true
  else (index =? 1)%nat && bool_decide (parts !! 0 = Some "") && (2 <? length parts)%nat.

(** [parts.some((part, index) => ...)] *)
Fixpoint some_unsafe (all : list string) (index : nat) (parts : list string) : bool :=
  match parts with
  | [] => false
  | part :: rest =>
      (if bool_decide (part = ".") || bool_decide (part = "..") then true
       else if negb (bool_decide (part = "")) then false
       else negb (isAllowedAbsolutePrefix all index))
      || some_unsafe all (S index) rest
  end.
Definition hasUnsafePathSegments (path : string) : bool :=
  let parts := split path slash in some_unsafe parts 0 parts.

Definition comparisonKey (scope : RepositoryWatchScope) (path : string) : string :=
  match scope_pathCase scope with CaseInsensitive => toLocaleLowerCase path | CaseSensitive => path end.

(** The loop over [scope.boundaryRoots]. *)
Fixpoint inside_one_of (scope : RepositoryWatchScope) (pathKey : string) (boundaryRoots : list string) : bool :=
  match boundaryRoots with
  | [] => false
  | boundaryRoot :: rest =>
      let boundary := normalizePath boundaryRoot in
      let boundaryKey := comparisonKey scope boundary in
      if bool_decide (pathKey = boundaryKey) || startsWith pathKey (boundaryKey ++ "/") then true
      else inside_one_of scope pathKey rest
  end.
Definition isInsideBoundary (scope : RepositoryWatchScope) (path : string) : bool :=
  let pathKey := comparisonKey scope path in inside_one_of scope pathKey (scope_boundaryRoots scope).

Definition isSvnInternal (scope : RepositoryWatchScope) (relativePath : string) : bool :=
  let key := comparisonKey scope relativePath in
  bool_decide (key = ".svn") || startsWith key ".svn/".

Definition mapEventKind (kind : RawWatcherEventKind) : FileEventKind :=
  match kind with Created => KCreate | Changed => KChange | Deleted => KDelete end.

Definition normalizeWatcherEvent (scope : RepositoryWatchScope) (event : RawWatcherEvent) : option DirtyFileEvent :=
  let root := normalizePath (scope_workingCopyRoot scope) in
  let path := normalizePath (raw_fsPath event) in
  if hasUnsafePathSegments root || hasUnsafePathSegments path then None
  else
    let rootKey := comparisonKey scope root in
    let pathKey := comparisonKey scope path in
    if negb (bool_decide (pathKey = rootKey)) && negb (startsWith pathKey (rootKey ++ "/")) then None
    else if isInsideBoundary scope path then None
    else
      let relative :=
        if bool_decide (pathKey = rootKey) then "."
        else slice_from (S (String.length root)) path in
      if isSvnInternal scope relative then None
      else Some {| event_path := path; event_kind := mapEventKind (raw_kind event);
                   event_timestamp := raw_timestamp event |}.
End WatcherEvents.

(** Repository-relative paths (dirtyPathSet.ts). *)
Definition parentPath (path : string) : string :=
  match lastIndexOf path slash with
  | None => "."
  | Some index => slice_to index path
  end.

Definition isDirectChild (parent path : string) : bool :=
  if bool_decide (parent = ".") then negb (includes path slash)
  else if negb (startsWith path (parent ++ "/")) then false
  else negb (includes (slice_from (S (String.length parent)) path) slash).

(** [while (current !== ".")]; [fuel] bounds the number of turns. *)
Fixpoint ancestors_from (fuel : nat) (current : string) : list string :=
  match fuel with
  | O => []
  | S fuel' =>
      if bool_decide (current = ".") then []
      else current :: ancestors_from fuel' (parentPath current)
  end.

(** Every turn but the last shortens the path, so its length is fuel enough. *)
Definition ancestorPaths (path : string) : list string :=
  ancestors_from (S (S (String.length path))) (parentPath path).

Definition pathDepth (path : string) : nat :=
  if bool_decide (path = ".") then 0 else length (split path slash).

(** ** Lemmas *)

Lemma parentPath_app p r : includes r slash = false -> parentPath (p ++ String slash r) = p.
Proof. intros Hr. unfold parentPath. rewrite lastIndexOf_app by done. apply slice_to_app. Qed.

Lemma parentPath_cases path :
  (includes path slash = false /\ parentPath path = ".") \/
  (exists r, path = parentPath path ++ String slash r /\ includes r slash = false).
Proof.
  destruct (lastIndexOf path slash) as [i|] eqn:E.
  - right. apply lastIndexOf_Some in E as (p & r & -> & <- & Hr). exists r.
    by rewrite parentPath_app.
  - left. split; [by apply lastIndexOf_None|]. unfold parentPath. by rewrite E.
Qed.

Lemma caseKey_slash_app pc p r : caseKey pc (p ++ String slash r) = caseKey pc p ++ String slash (caseKey pc r).
Proof.
  destruct pc; cbn [caseKey]; [done|]. rewrite lower_app. cbn [toLocaleLowerCase].
  done.
Qed.

Lemma includes_caseKey pc s : includes (caseKey pc s) slash = includes s slash.
Proof. destruct pc; [done|]. apply includes_lower_slash. Qed.

Lemma lower_char_dot a : lower_char a = "."%char <-> a = "."%char.
Proof. destruct a as [[][][][][][][][]]; vm_compute; split; congruence. Qed.

Lemma caseKey_dot pc s : caseKey pc s = "." <-> s = ".".
Proof.
  destruct pc; [done|]. destruct s as [|a [|b s]]; cbn; [split; done| |split; done].
  split; intros [= H]; f_equal; by apply lower_char_dot.
Qed.

Lemma parentPath_caseKey pc path : parentPath (caseKey pc path) = caseKey pc (parentPath path).
Proof.
  destruct (parentPath_cases path) as [[Hn Hp]|(r & Hr & Hinc)].
  - rewrite Hp. destruct (parentPath_cases (caseKey pc path)) as [[_ ->]|(r & Hr & _)].
    + symmetry. by apply caseKey_dot.
    + rewrite <- (includes_caseKey pc), Hr, includes_app in Hn. cbn in Hn.
      rewrite orb_true_r in Hn. done.
  - rewrite Hr at 1. rewrite caseKey_slash_app. apply parentPath_app.
    by rewrite includes_caseKey.
Qed.

Lemma caseKey_idem pc s : caseKey pc (caseKey pc s) = caseKey pc s.
Proof. destruct pc; [done|]. apply lower_idem. Qed.

(** A path strictly below [anc] stays below it when one more segment is added. *)
Lemma startsWith_dir_app s t anc :
  startsWith s (anc ++ "/") = true -> startsWith t (s ++ "/") = true -> startsWith t (anc ++ "/") = true.
Proof.
  rewrite !startsWith_iff. intros [r ->] [r' ->]. exists (r ++ String slash r').
  by rewrite !app_assoc.
Qed.

Lemma parentPath_child k tk :
  tk <> "." -> parentPath k = tk -> startsWith k (tk ++ "/") = true.
Proof.
  intros Hne <-. destruct (parentPath_cases k) as [[_ Hp]|(r & Hr & _)]; [done|].
  apply startsWith_iff. exists r. rewrite Hr at 1. by rewrite app_assoc.
Qed.

(** ** The two copies *)
Module W := WatcherEvents.
Lemma unsafe_copies path : W.hasUnsafePathSegments path = hasUnsafePathSegments path.
Proof.
  unfold W.hasUnsafePathSegments, hasUnsafePathSegments. cbn zeta. generalize (split path slash) at 2 4. generalize 0.
  intros i l. revert i. induction l as [|part l IH]; intros i; [done|]. cbn [W.some_unsafe unsafe_from]. by rewrite IH.
Qed.
Lemma boundary_copies scope path : W.isInsideBoundary scope path = isInsideBoundary scope path.
Proof.
  unfold W.isInsideBoundary, isInsideBoundary. cbn zeta. induction (scope_boundaryRoots scope) as [|root l IH]; [done|].
  cbn [W.inside_one_of existsb]. rewrite IH. change (W.comparisonKey scope) with (comparisonKey scope).
  change (W.normalizePath root) with (normalizeAbsolutePath root). by destruct (_ || _).
Qed.
(** What the watcher makes of an event, in terms of the dirty-path set's filter. *)
Lemma watcher_event_spec scope event : W.normalizeWatcherEvent scope event =
  (_ ← repositoryRelativePath scope (raw_fsPath event);
   Some {| event_path := normalizeAbsolutePath (raw_fsPath event); event_kind := W.mapEventKind (raw_kind event);
           event_timestamp := raw_timestamp event |}).
Proof.
  unfold W.normalizeWatcherEvent, repositoryRelativePath. cbn zeta. rewrite !unsafe_copies, boundary_copies.
  change W.normalizePath with normalizeAbsolutePath. change (W.comparisonKey scope) with (comparisonKey scope).
  change (W.isSvnInternal scope) with (isSvnInternal scope).
  destruct (_ || _); [done|]. destruct (negb _ && _); [done|]. destruct (isInsideBoundary _ _); [done|]. by destruct (isSvnInternal _ _).
Qed.
