(* ===== verification/DirtyPaths.v ===== *)
(** status/dirtyPathSet.ts: the set of dirty paths of one repository, which
    turns file events into refresh targets and folds them when it grows past
    its bound. *)

From Stdlib Require Import ZArith Ascii String List.
From stdpp Require Import base option list strings.
From S2P Require Import Prelude JsString JsMap StatusTypes Paths.

Local Open Scope string_scope.

Module DirtyPathSet.

Record DirtyPathRecord := {
  record_path : string;
  record_eventKinds : list FileEventKind;
  record_firstKind : FileEventKind;
  record_lastKind : FileEventKind;
  record_firstTimestamp : Z;
  record_lastTimestamp : Z;
  record_eventCount : Z;
}.

Record SubtreeFoldGroup := {
  group_ancestor : string;
  group_paths : list string;
}.

Definition DEFAULT_MAX_DIRTY_PATHS : Z := 512.

(** The mutable fields of the class. *)
Record state := {
  entries : list (string * DirtyPathRecord);
  explicitTargets : list (string * StatusRefreshTarget);
  foldedTargets : list (string * StatusRefreshTarget);
  overflowed : bool;
  overflowedAt : option Z;
}.

(** The readonly ones. *)
Record config := {
  scope : RepositoryWatchScope;
  maxDirtyPaths : Z;
}.

Definition new_config (s : RepositoryWatchScope) (maxDirtyPaths_option : option Z) : config :=
  {| scope := s; maxDirtyPaths := default DEFAULT_MAX_DIRTY_PATHS maxDirtyPaths_option |}.
Definition new_state : state := Build_state [] [] [] false None.

Definition with_entries (st : state) e :=
  Build_state e (explicitTargets st) (foldedTargets st) (overflowed st) (overflowedAt st).
Definition with_foldedTargets (st : state) f :=
  Build_state (entries st) (explicitTargets st) f (overflowed st) (overflowedAt st).
Definition with_explicitTargets (st : state) x :=
  Build_state (entries st) x (foldedTargets st) (overflowed st) (overflowedAt st).

(** ** Module functions *)

Definition has_kind (r : DirtyPathRecord) (k : FileEventKind) : bool := set_has (record_eventKinds r) k.

Definition isCreateThenDelete (r : DirtyPathRecord) : bool :=
  has_kind r KCreate && has_kind r KDelete
  && bool_decide (record_firstKind r = KCreate) && bool_decide (record_lastKind r = KDelete).

Definition isDeleteThenCreate (r : DirtyPathRecord) : bool :=
  has_kind r KCreate && has_kind r KDelete
  && bool_decide (record_firstKind r = KDelete) && bool_decide (record_lastKind r = KCreate).

Definition parentTarget (path reason : string) : StatusRefreshTarget :=
  {| target_path := parentPath path; target_depth := DImmediates; target_reason := reason |}.

Definition selfTarget (path reason : string) : StatusRefreshTarget :=
  {| target_path := path; target_depth := DEmpty; target_reason := reason |}.

Definition targetsForRecord (r : DirtyPathRecord) : list StatusRefreshTarget :=
  if has_kind r KRename then
    [{| target_path := "."; target_depth := DInfinity; target_reason := "manualFullReconcile" |}]
  else if isCreateThenDelete r then [parentTarget (record_path r) "childDeleted"]
  else if isDeleteThenCreate r then
    [parentTarget (record_path r) "childReplaced"; selfTarget (record_path r) "fileReplaced"]
  else
    (if has_kind r KCreate
     then [parentTarget (record_path r) "childCreated"; selfTarget (record_path r) "fileCreated"] else [])
    ++ (if has_kind r KDelete
        then [parentTarget (record_path r) "childDeleted"; selfTarget (record_path r) "fileDeleted"] else [])
    ++ (if has_kind r KChange || has_kind r KMetadata
        then [selfTarget (record_path r) "fileChanged"] else []).

Definition requiresSiblingDirectoryEntries (r : DirtyPathRecord) : bool :=
  has_kind r KCreate || has_kind r KDelete.

Definition NUL : ascii := Ascii.zero.
Definition targetKey (t : StatusRefreshTarget) : string :=
  (target_path t ++ String NUL (depth_name (target_depth t) ++ String NUL (target_reason t)))%string.

Definition depthRank (d : StatusRefreshDepth) : nat :=
  match d with DEmpty => 0 | DFiles => 1 | DImmediates => 2 | DInfinity => 3 end.

Definition compareTargets (left right : StatusRefreshTarget) : comparison :=
  or_else (compareText (target_path left) (target_path right))
    (or_else (Nat.compare (depthRank (target_depth left)) (depthRank (target_depth right)))
       (compareText (target_reason left) (target_reason right))).

(** ** Methods *)
Section Methods.
Variable c : config.
Notation key := (comparisonKey (scope c)).

Definition size (st : state) : nat :=
  if overflowed st then 1
  else map_size (entries st) + map_size (explicitTargets st) + map_size (foldedTargets st).

Definition watcherQueueSize (st : state) : nat :=
  map_size (entries st) + map_size (foldedTargets st).

(** [this.watcherQueueSize() > this.maxDirtyPaths] *)
Definition overfull (st : state) : bool := (maxDirtyPaths c <? Z.of_nat (watcherQueueSize st))%Z.

Definition isSameOrDescendantOf (ancestor path : string) : bool :=
  bool_decide (key path = key ancestor) || startsWith (key path) (key ancestor ++ "/")%string.
Definition isDescendantOf (ancestor path : string) : bool :=
  startsWith (key path) (key ancestor ++ "/")%string.

Definition setFoldedTarget (st : state) (path : string) (depth : StatusRefreshDepth) (reason : string) : state :=
  let targetDepth :=
    match map_get (foldedTargets st) (key path) with
    | Some existing =>
        if (depthRank depth <? depthRank (target_depth existing))%nat then target_depth existing else depth
    | None => depth
    end in
  with_foldedTargets st
    (map_set (foldedTargets st) (key path)
       {| target_path := path; target_depth := targetDepth; target_reason := reason |}).

Definition findFoldedTargetCovering (st : state) (path : string) : option StatusRefreshTarget :=
  let directParent := parentPath path in
  let fallback :=
    head (sort (fun left right =>
             or_else (Nat.compare (pathDepth (target_path right)) (pathDepth (target_path left)))
               (compareText (target_path left) (target_path right)))
           (List.filter (fun t => bool_decide (target_depth t = DInfinity) && isDescendantOf (target_path t) path)
              (map_values (foldedTargets st)))) in
  match map_get (foldedTargets st) (key directParent) with
  | Some directTarget => if isDirectChild directParent path then Some directTarget else fallback
  | None => fallback
  end.

(** [None] for the source's [false]. *)
Definition mergeIntoFoldedTargetIfCovered (st : state) (path : string) (kind : FileEventKind) : option state :=
  match findFoldedTargetCovering st path with
  | None => None
  | Some target =>
      if negb (bool_decide (target_depth target = DInfinity))
         && (bool_decide (kind = KCreate) || bool_decide (kind = KDelete))
      then Some (setFoldedTarget st (target_path target) DImmediates "dirtyPathFold")
      else Some st
  end.

(** The loop that fills [groups]: an array is pushed to or created. *)
Definition push_group (groups : list (string * list DirtyPathRecord)) (r : DirtyPathRecord) :=
  if has_kind r KRename then groups
  else
    let k := key (parentPath (record_path r)) in
    match map_get groups k with
    | Some group => map_set groups k (group ++ [r])%list
    | None => map_set groups k [r]
    end.

Definition sibling_groups (st : state) : list (list DirtyPathRecord) :=
  sort (fun left right =>
      or_else (Nat.compare (length right) (length left))
        (compareText (from_option record_path "" (head left)) (from_option record_path "" (head right))))
    (List.filter (fun records => (1 <? length records)%nat)
       (map_values (fold_left push_group (map_values (entries st)) []))).

Definition fold_siblings (st : state) (records : list DirtyPathRecord) : state :=
  match records with
  | [] => st
  | first :: _ =>
      let depth := if existsb requiresSiblingDirectoryEntries records then DImmediates else DFiles in
      let st' := setFoldedTarget st (parentPath (record_path first)) depth "dirtyPathFold" in
      with_entries st'
        (fold_left (fun m r => map_delete m (key (record_path r))) records (entries st'))
  end.

(** [for (... of groups) { if (size <= max) return; body }] *)
Fixpoint fold_while_overfull {A} (body : state -> A -> state) (groups : list A) (st : state) : state :=
  match groups with
  | [] => st
  | g :: groups' => if overfull st then fold_while_overfull body groups' (body st g) else st
  end.

Definition foldSiblingRecordsIntoTargets (st : state) : state :=
  fold_while_overfull fold_siblings (sibling_groups st) st.

Definition foldableQueuePaths (st : state) : list string :=
  map record_path (List.filter (fun r => negb (has_kind r KRename)) (map_values (entries st)))
  ++ map target_path (map_values (foldedTargets st)).

Definition deleteEntriesInside (st : state) (ancestor : string) : state :=
  with_entries st
    (fold_left (fun m r => if isSameOrDescendantOf ancestor (record_path r)
                           then map_delete m (key (record_path r)) else m)
       (map_values (entries st)) (entries st)).

Definition deleteFoldedTargetsInside (st : state) (ancestor : string) : state :=
  with_foldedTargets st
    (fold_left (fun m t => if negb (bool_decide (key (target_path t) = key ancestor))
                              && isDescendantOf ancestor (target_path t)
                           then map_delete m (key (target_path t)) else m)
       (map_values (foldedTargets st)) (foldedTargets st)).

Definition queueSizeAfterSubtreeFold (st : state) (ancestor : string) : Z :=
  let covered :=
    length (List.filter (fun r => isSameOrDescendantOf ancestor (record_path r)) (map_values (entries st)))
    + length (List.filter (fun t => isSameOrDescendantOf ancestor (target_path t)) (map_values (foldedTargets st))) in
  (Z.of_nat (watcherQueueSize st) - Z.of_nat covered + 1)%Z.

Definition push_subtree (path : string) (groups : list (string * SubtreeFoldGroup)) (ancestor : string) :=
  match map_get groups (key ancestor) with
  | Some g => map_set groups (key ancestor)
      {| group_ancestor := group_ancestor g; group_paths := (group_paths g ++ [path])%list |}
  | None => map_set groups (key ancestor) {| group_ancestor := ancestor; group_paths := [path] |}
  end.

Definition compare_subtrees (st : state) (left right : SubtreeFoldGroup) : comparison :=
  let leftFits := (queueSizeAfterSubtreeFold st (group_ancestor left) <=? maxDirtyPaths c)%Z in
  let rightFits := (queueSizeAfterSubtreeFold st (group_ancestor right) <=? maxDirtyPaths c)%Z in
  if negb (Bool.eqb leftFits rightFits) then (if rightFits then Gt else Lt)
  else
    or_else (Nat.compare (pathDepth (group_ancestor right)) (pathDepth (group_ancestor left)))
      (or_else (Nat.compare (length (group_paths right)) (length (group_paths left)))
         (compareText (group_ancestor left) (group_ancestor right))).

Definition subtree_groups (st : state) : list SubtreeFoldGroup :=
  sort (compare_subtrees st)
    (List.filter (fun g => (1 <? length (group_paths g))%nat)
       (map_values
          (fold_left (fun groups path => fold_left (push_subtree path) (ancestorPaths path) groups)
             (foldableQueuePaths st) []))).

Definition fold_subtree (st : state) (g : SubtreeFoldGroup) : state :=
  let st1 := setFoldedTarget st (group_ancestor g) DInfinity "dirtyPathSubtreeFold" in
  deleteFoldedTargetsInside (deleteEntriesInside st1 (group_ancestor g)) (group_ancestor g).

Definition foldSubtreeRecordsIntoTargets (st : state) : state :=
  fold_while_overfull fold_subtree (subtree_groups st) st.

Definition update_record (r : DirtyPathRecord) (event : DirtyFileEvent) : DirtyPathRecord :=
  {| record_path := record_path r;
     record_eventKinds := set_add (record_eventKinds r) (event_kind event);
     record_firstKind := record_firstKind r;
     record_lastKind := event_kind event;
     record_firstTimestamp :=
       if (event_timestamp event <? record_firstTimestamp r)%Z then event_timestamp event
       else record_firstTimestamp r;
     record_lastTimestamp :=
       if (record_lastTimestamp r <? event_timestamp event)%Z then event_timestamp event
       else record_lastTimestamp r;
     record_eventCount := (record_eventCount r + 1)%Z |}.

Definition new_record (path : string) (event : DirtyFileEvent) : DirtyPathRecord :=
  {| record_path := path;
     record_eventKinds := [event_kind event];
     record_firstKind := event_kind event;
     record_lastKind := event_kind event;
     record_firstTimestamp := event_timestamp event;
     record_lastTimestamp := event_timestamp event;
     record_eventCount := 1 |}.

(** The bound, after a new entry: fold siblings, then subtrees, then give up
    on single paths. *)
Definition enforce_bound (st : state) (timestamp : Z) : state :=
  if overfull st then
    let st1 := foldSiblingRecordsIntoTargets st in
    if overfull st1 then
      let st2 := foldSubtreeRecordsIntoTargets st1 in
      if overfull st2 then Build_state [] (explicitTargets st2) [] true (Some timestamp)
      else st2
    else st1
  else st.

Definition record (st : state) (event : DirtyFileEvent) : bool * state :=
  if overflowed st then (true, st)
  else
    match repositoryRelativePath (scope c) (event_path event) with
    | None | Some "" => (false, st)
    | Some normalized =>
        match mergeIntoFoldedTargetIfCovered st normalized (event_kind event) with
        | Some st' => (true, st')
        | None =>
            match map_get (entries st) (key normalized) with
            | Some existing =>
                (true, with_entries st (map_set (entries st) (key normalized) (update_record existing event)))
            | None =>
                (true, enforce_bound
                         (with_entries st (map_set (entries st) (key normalized) (new_record normalized event)))
                         (event_timestamp event))
            end
        end
    end.

Definition sortedRecords (st : state) : list DirtyPathRecord :=
  sort (fun left right => compareText (record_path left) (record_path right)) (map_values (entries st)).

Definition set_target (m : list (string * StatusRefreshTarget)) (t : StatusRefreshTarget) :=
  map_set m (targetKey t) t.

Definition toRefreshTargets (st : state) : list StatusRefreshTarget :=
  if overflowed st then
    [{| target_path := "."; target_depth := DInfinity; target_reason := "watcherOverflow" |}]
  else
    let m1 := fold_left set_target (map_values (explicitTargets st)) [] in
    let m2 := fold_left set_target (map_values (foldedTargets st)) m1 in
    let m3 := fold_left (fun m r => fold_left set_target (targetsForRecord r) m) (sortedRecords st) m2 in
    sort compareTargets (map_values m3).

Definition clear (st : state) : state := Build_state [] [] [] false None.

Definition drainToRefreshTargets (st : state) : list StatusRefreshTarget * state :=
  (toRefreshTargets st, clear st).

Definition is_root_target (t : StatusRefreshTarget) : bool :=
  bool_decide (target_path t = ".") && bool_decide (target_depth t = DInfinity).

Definition mergeTargets (st : state) (targets : list StatusRefreshTarget) : state :=
  if (length targets =? 0)%nat then st
  else if existsb is_root_target targets then Build_state [] [] [] true (overflowedAt st)
  else with_explicitTargets st (fold_left set_target targets (explicitTargets st)).
End Methods.

End DirtyPathSet.
