(* ===== verification/DirtyPathsFacts.v ===== *)
(** What the dirty-path set promises the refresh scheduler: it never loses an
    accepted event, and it stays within its bound. *)

From Stdlib Require Import ZArith Lia Ascii String List Sorted.
From stdpp Require Import base option list strings sets.
From S2P Require Import Prelude JsString JsMap StatusTypes Paths DirtyPaths.

Import DirtyPathSet.
Local Open Scope string_scope.

(** ** What a refresh target refreshes *)

(** Creations and deletions change the listing of the parent directory. *)
Definition structural (kind : FileEventKind) : bool :=
  bool_decide (kind = KCreate) || bool_decide (kind = KDelete).

(** A status walk rooted at key [tk] to depth [d] shows an event of [kind] at
    key [k]: an infinite walk from the root, from the path or from above it; a
    walk of the parent directory, which must list directories for a structural
    event; or a walk of the path itself, for an event that is not one. *)
Definition covers (tk : string) (d : StatusRefreshDepth) (k : string) (kind : FileEventKind) : Prop :=
  (d = DInfinity /\ (tk = "." \/ tk = k \/ startsWith k (tk ++ "/") = true))
  \/ (d <> DEmpty /\ parentPath k = tk /\ (structural kind = true -> d <> DFiles))
  \/ (tk = k /\ structural kind = false).

Lemma covers_mono tk d d' k kind :
  depthRank d <= depthRank d' -> covers tk d k kind -> covers tk d' k kind.
Proof.
  unfold covers. intros Hle [[-> H]|[(Hd & Hp & Hs)|H]]; [..|by right; right].
  - left. split; [by destruct d'; cbn in Hle; try lia|done].
  - right; left. split; [|split; [done|]].
    + intros ->. destruct d; cbn in Hle; try lia; done.
    + intros Hk ->. specialize (Hs Hk). destruct d; cbn in Hle; try lia; done.
Qed.

(** Whatever a walk below [anc] covers, an infinite walk of [anc] covers. *)
Lemma covers_inside anc tk d k kind :
  startsWith tk (anc ++ "/") = true -> covers tk d k kind -> covers anc DInfinity k kind.
Proof.
  intros Hin Hc. left. split; [done|]. right; right.
  assert (tk <> ".") as Hdot.
  { intros ->. apply startsWith_iff in Hin as [r Hr]. destruct anc as [|? [|? ?]]; cbn in Hr; congruence. }
  destruct Hc as [[-> [?|[<-|Hk]]]|[(_ & Hp & _)|[<- _]]]; try done.
  - by eapply startsWith_dir_app.
  - eapply startsWith_dir_app; [exact Hin|]. by apply parentPath_child.
Qed.

#[export] Instance compareTargets_comparator : Comparator compareTargets.
Proof. unfold compareTargets, compareText. apply _. Qed.

(** ** The invariant *)
Definition nul_free (s : string) : Prop := includes s NUL = false.

Section Facts.
Variable c : config.
Notation key := (comparisonKey (scope c)).

Record inv (st : state) : Prop := {
  inv_entries_wf : map_wf (entries st);
  inv_entries_key k r : map_get (entries st) k = Some r -> key (record_path r) = k;
  inv_folded_wf : map_wf (foldedTargets st);
  inv_folded_key k t : map_get (foldedTargets st) k = Some t ->
    key (target_path t) = k /\ target_depth t <> DEmpty /\ nul_free (target_reason t);
  inv_explicit t : t ∈ map_values (explicitTargets st) -> nul_free (target_reason t);
  inv_explicit_wf : map_wf (explicitTargets st);
  inv_overflowed : overflowed st = true -> entries st = [] /\ foldedTargets st = [];
}.

(** The set still answers for an event of [kind] at key [k]. *)
Definition served (st : state) (k : string) (kind : FileEventKind) : Prop :=
  overflowed st = true
  \/ (exists r, map_get (entries st) k = Some r /\ kind ∈ record_eventKinds r)
  \/ (exists k' t, map_get (foldedTargets st) k' = Some t /\ covers (key (target_path t)) (target_depth t) k kind).

Lemma inv_new : inv new_state.
Proof. split; cbn; try done; try apply NoDup_nil_2. by intros t ?%elem_of_nil. Qed.

(** *** [setFoldedTarget] *)
Lemma setFoldedTarget_inv st path d reason :
  inv st -> overflowed st = false -> d <> DEmpty -> nul_free reason ->
  inv (setFoldedTarget c st path d reason).
Proof.
  intros [] Hov Hd Hr. split; cbn; auto with js; [|by rewrite Hov].
  intros k t. rewrite map_get_set. case_bool_decide; [|by auto]. intros [= <-].
  split; [done|]. split; [|done]. cbn.
  destruct (map_get (foldedTargets st) (key path)) as [t|] eqn:E; [|done].
  case_match; [|done]. by apply inv_folded_key0 in E as (_ & ? & _).
Qed.

Lemma setFoldedTarget_get st path d reason :
  exists d', map_get (foldedTargets (setFoldedTarget c st path d reason)) (key path)
    = Some {| target_path := path; target_depth := d'; target_reason := reason |}
    /\ depthRank d <= depthRank d'
    /\ forall t, map_get (foldedTargets st) (key path) = Some t -> depthRank (target_depth t) <= depthRank d'.
Proof.
  unfold setFoldedTarget. cbn [with_foldedTargets foldedTargets]. rewrite map_get_set_eq. eexists. split; [done|].
  destruct (map_get (foldedTargets st) (key path)) as [t|]; [|split; [done|by intros]].
  destruct (Nat.ltb_spec (depthRank d) (depthRank (target_depth t))); (split; [lia|]); intros ? ?; simplify_eq; lia.
Qed.

Lemma setFoldedTarget_served st path d reason k kind :
  inv st -> served st k kind -> served (setFoldedTarget c st path d reason) k kind.
Proof.
  intros Hinv [H|[H|(k' & t & Ht & Hc)]]; [by left|by right; left|right; right].
  destruct (decide (k' = key path)) as [->|Hne].
  - destruct (setFoldedTarget_get st path d reason) as (d' & Hg & _ & Hle). do 2 eexists.
    split; [exact Hg|]. cbn. apply (inv_folded_key _ Hinv) in Ht as Hk. destruct Hk as [<- _].
    eapply covers_mono, Hc. by apply Hle.
  - exists k', t. split; [|done]. cbn. by rewrite map_get_set_ne.
Qed.

Lemma setFoldedTarget_covers st path d reason k kind :
  covers (key path) d k kind -> served (setFoldedTarget c st path d reason) k kind.
Proof.
  intros Hc. destruct (setFoldedTarget_get st path d reason) as (d' & Hg & Hle & _).
  right; right. do 2 eexists. split; [exact Hg|]. by eapply covers_mono.
Qed.

Lemma setFoldedTarget_size st path d reason :
  key path ∈ map_keys (foldedTargets st) ->
  watcherQueueSize (setFoldedTarget c st path d reason) = watcherQueueSize st.
Proof. intros Hin. unfold watcherQueueSize. cbn. rewrite map_size_set. by rewrite decide_True. Qed.

(** *** Sibling folding *)

(** The records of a group are entries of [orig], all with the same parent. *)
Definition group_ok (orig : state) (g : string) (records : list DirtyPathRecord) : Prop :=
  records <> [] /\
  forall r, r ∈ records ->
    map_get (entries orig) (key (record_path r)) = Some r /\ key (parentPath (record_path r)) = g.

Lemma push_group_ok orig groups r :
  map_wf groups -> map_get (entries orig) (key (record_path r)) = Some r ->
  (forall g records, map_get groups g = Some records -> group_ok orig g records) ->
  map_wf (push_group c groups r) /\
  forall g records, map_get (push_group c groups r) g = Some records -> group_ok orig g records.
Proof.
  intros Hwf Hr Hok. unfold push_group. destruct (has_kind r KRename); [done|].
  destruct (map_get groups _) as [group|] eqn:E; (split; [by auto with js|]); intros g records;
    rewrite map_get_set; (destruct (bool_decide_reflect (key (parentPath (record_path r)) = g)) as [<-|];
    [intros [= <-]|by apply Hok]).
  - apply Hok in E as [Hne Hall]. split; [by destruct group|].
    intros r' [?| ->%list_elem_of_singleton]%elem_of_app; [by apply Hall|done].
  - split; [done|]. by intros r' ->%list_elem_of_singleton.
Qed.

Lemma sibling_groups_ok st records :
  inv st -> records ∈ sibling_groups c st -> exists g, group_ok st g records.
Proof.
  intros Hinv Hin. unfold sibling_groups in Hin. rewrite elem_of_sort in Hin.
  apply list_elem_of_In, filter_In in Hin as [Hin%list_elem_of_In _].
  assert (forall l groups, (forall r, r ∈ l -> r ∈ map_values (entries st)) ->
    map_wf groups -> (forall g records, map_get groups g = Some records -> group_ok st g records) ->
    map_wf (fold_left (push_group c) l groups) /\
    forall g records, map_get (fold_left (push_group c) l groups) g = Some records -> group_ok st g records) as H.
  { induction l as [|r l IH]; intros groups Hl Hwf Hok; cbn [fold_left]; [done|].
    assert (map_get (entries st) (key (record_path r)) = Some r) as Hr.
    { destruct (map_value_get (entries st) r) as [k Hk]; [apply Hinv|apply Hl, list_elem_of_here|].
      by rewrite (inv_entries_key _ Hinv _ _ Hk). }
    destruct (push_group_ok st groups r Hwf Hr Hok). apply IH; [|done..].
    intros r' ?. apply Hl. by apply list_elem_of_further. }
  destruct (H (map_values (entries st)) []) as [Hwf Hok]; [done|apply map_wf_nil|done|].
  apply map_value_get in Hin as [g Hg]; [|done]. eauto.
Qed.

(** [fold_siblings] deletes with [map_delete] over the records' keys. *)
Lemma fold_siblings_entries st records k :
  map_get (entries (fold_siblings c st records)) k =
  if bool_decide (k ∈ map (fun r => key (record_path r)) records) then None else map_get (entries st) k.
Proof.
  destruct records as [|r0 records]; [cbn; by rewrite bool_decide_false by apply not_elem_of_nil|].
  unfold fold_siblings. cbn [entries with_entries setFoldedTarget with_foldedTargets].
  rewrite <- map_get_fold_delete. f_equal. generalize (entries st) (r0 :: records).
  intros m l; revert m. induction l as [|r l IH]; intros m; [done|]. apply IH.
Qed.

Lemma fold_siblings_wf st records :
  map_wf (entries st) -> map_wf (entries (fold_siblings c st records)).
Proof.
  destruct records as [|r0 records]; [done|]. unfold fold_siblings. cbn [entries with_entries setFoldedTarget with_foldedTargets].
  generalize (entries st) (r0 :: records). intros m l; revert m.
  induction l as [|r l IH]; intros m ?; cbn [fold_left]; auto with js.
Qed.

Lemma fold_siblings_inv st records :
  inv st -> overflowed st = false -> inv (fold_siblings c st records).
Proof.
  intros Hinv Hov. destruct records as [|r0 records']; [done|].
  assert (inv (setFoldedTarget c st (parentPath (record_path r0))
    (if existsb requiresSiblingDirectoryEntries (r0 :: records') then DImmediates else DFiles) "dirtyPathFold")) as H.
  { apply setFoldedTarget_inv; try done. by destruct (existsb _ _). }
  pose proof (fold_siblings_wf st (r0 :: records') (inv_entries_wf _ Hinv)) as Hwf.
  destruct H. split; try done.
  - intros k r. rewrite fold_siblings_entries. case_bool_decide; [done|]. by apply Hinv.
  - cbn. by rewrite Hov.
Qed.

Lemma fold_siblings_served orig st records g k kind :
  inv st -> group_ok orig g records ->
  (forall k r, map_get (entries st) k = Some r -> map_get (entries orig) k = Some r) ->
  served st k kind -> served (fold_siblings c st records) k kind.
Proof.
  intros Hinv [Hne Hall] Hsub Hs. destruct records as [|r0 records']; [done|].
  remember (r0 :: records') as records eqn:Hrec.
  set (d := if existsb requiresSiblingDirectoryEntries records then DImmediates else DFiles).
  set (st1 := setFoldedTarget c st (parentPath (record_path r0)) d "dirtyPathFold").
  assert (forall k kind, (exists k' t, map_get (foldedTargets st1) k' = Some t /\
      covers (key (target_path t)) (target_depth t) k kind) -> served (fold_siblings c st records) k kind) as Hf.
  { intros k1 kind1 H. right; right. by subst records. }
  destruct (setFoldedTarget_served st (parentPath (record_path r0)) d "dirtyPathFold" k kind Hinv Hs)
    as [Hov|[(r & Hr & Hk)|H]]; [left; by subst records| |by apply Hf].
  destruct (decide (k ∈ map (fun r => key (record_path r)) records)) as [Hin|Hnin].
  - assert (r ∈ records) as Hrin.
    { change (k ∈ (fun r => key (record_path r)) <$> records) in Hin.
      apply list_elem_of_fmap in Hin as (r' & -> & Hr'). cbn in Hr.
      apply Hsub in Hr. destruct (Hall r' Hr') as [Hg _]. by replace r with r' by congruence. }
    destruct (Hall r Hrin) as [_ Hpar].
    assert (r0 ∈ records) as Hr0 by (subst records; apply list_elem_of_here).
    destruct (Hall r0 Hr0) as [_ Hpar0].
    assert (key (record_path r) = k) as <- by (apply (inv_entries_key _ Hinv); done).
    assert (covers (key (parentPath (record_path r0))) d (key (record_path r)) kind) as Hcov.
    { right; left. unfold d. rewrite Hpar0, <- Hpar. split; [by destruct (existsb _ _)|].
      split; [apply parentPath_caseKey|]. intros Hst.
      replace (existsb requiresSiblingDirectoryEntries records) with true; [done|].
      symmetry. apply existsb_exists. exists r. split; [by apply list_elem_of_In|].
      unfold requiresSiblingDirectoryEntries, has_kind, set_has. unfold structural in Hst.
      apply orb_true_iff. apply orb_true_iff in Hst as [->%bool_decide_eq_true| ->%bool_decide_eq_true];
        [left|right]; by apply bool_decide_eq_true. }
    destruct (setFoldedTarget_get st (parentPath (record_path r0)) d "dirtyPathFold") as (d' & Hg & Hle & _).
    apply Hf. do 2 eexists. split; [exact Hg|]. by eapply covers_mono.
  - right; left. exists r. split; [|done]. rewrite fold_siblings_entries.
    by rewrite bool_decide_false.
Qed.

(** A loop over groups keeps whatever its body keeps. *)
Lemma fold_while_overfull_ind {A} (body : state -> A -> state) (Q : A -> Prop) (P : state -> Prop) groups st :
  (forall g, g ∈ groups -> Q g) -> (forall st g, Q g -> P st -> P (body st g)) ->
  P st -> P (fold_while_overfull c body groups st).
Proof.
  intros HQ Hbody. revert st. induction groups as [|g groups IH]; intros st Hst; cbn; [done|].
  destruct (overfull c st); [|done]. apply IH.
  - intros g' ?. apply HQ. by apply list_elem_of_further.
  - apply Hbody; [apply HQ, list_elem_of_here|done].
Qed.

(** What every folding step keeps: the invariant, no overflow, the explicit
    targets, and all the events served so far. *)
Record step_ok (st st' : state) : Prop := {
  step_inv : inv st';
  step_overflowed : overflowed st' = false;
  step_explicit : explicitTargets st' = explicitTargets st;
  step_served k kind : served st k kind -> served st' k kind;
}.

Lemma step_ok_refl st : inv st -> overflowed st = false -> step_ok st st.
Proof. by split. Qed.

Lemma step_ok_trans st1 st2 st3 : step_ok st1 st2 -> step_ok st2 st3 -> step_ok st1 st3.
Proof. intros [] []. split; auto. congruence. Qed.

Lemma fold_siblings_explicit st records : explicitTargets (fold_siblings c st records) = explicitTargets st.
Proof. by destruct records. Qed.

Lemma fold_siblings_overflowed st records : overflowed (fold_siblings c st records) = overflowed st.
Proof. by destruct records. Qed.

Lemma foldSiblings_step st :
  inv st -> overflowed st = false -> step_ok st (foldSiblingRecordsIntoTargets c st).
Proof.
  intros Hinv Hov.
  apply (fold_while_overfull_ind (fold_siblings c) (fun records => exists g, group_ok st g records)
    (fun st' => step_ok st st' /\ forall k r, map_get (entries st') k = Some r -> map_get (entries st) k = Some r)
    (sibling_groups c st) st).
  - intros records. by apply sibling_groups_ok.
  - intros st' records [g Hg] [[Hi Ho He Hs] Hsub]. split.
    + split; [by apply fold_siblings_inv|by rewrite fold_siblings_overflowed|by rewrite fold_siblings_explicit|].
      intros k kind ?. eapply fold_siblings_served; eauto.
    + intros k r. rewrite fold_siblings_entries. case_bool_decide; [done|]. apply Hsub.
  - split; [by apply step_ok_refl|done].
Qed.

(** *** Subtree folding *)
Lemma isSameOrDescendantOf_spec anc path :
  isSameOrDescendantOf c anc path = true <->
  key path = key anc \/ startsWith (key path) (key anc ++ "/") = true.
Proof. unfold isSameOrDescendantOf. by rewrite orb_true_iff, bool_decide_eq_true. Qed.

(** A key of [m] found by the deleting loops belongs to the element itself. *)
Lemma existsb_key {V} (m : list (string * V)) (path : V -> string) (P : V -> bool) k v :
  map_wf m -> (forall k v, map_get m k = Some v -> key (path v) = k) ->
  map_get m k = Some v ->
  existsb (fun a => P a && bool_decide (key (path a) = k)) (map_values m) = P v.
Proof.
  intros Hwf Hkey Hv. destruct (P v) eqn:HP.
  - apply existsb_exists. exists v. split; [by apply list_elem_of_In, map_get_Some_value with k|].
    rewrite HP. cbn. apply bool_decide_eq_true. by apply Hkey.
  - apply not_true_iff_false. intros (a & Ha & [HPa Hka]%andb_prop)%existsb_exists.
    apply list_elem_of_In, (map_value_get _ _ Hwf) in Ha as [k' Hk'].
    apply bool_decide_eq_true in Hka. rewrite (Hkey _ _ Hk') in Hka. congruence.
Qed.

Lemma deleteEntriesInside_get st anc k r :
  inv st -> map_get (entries st) k = Some r ->
  map_get (entries (deleteEntriesInside c st anc)) k =
  if isSameOrDescendantOf c anc (record_path r) then None else Some r.
Proof.
  intros Hinv Hr. cbn. rewrite map_get_fold_delete_if.
  rewrite (existsb_key _ record_path _ k r); [|apply Hinv|apply Hinv|done].
  by destruct (isSameOrDescendantOf _ _ _).
Qed.

Lemma deleteFoldedTargetsInside_get st anc k t :
  inv st -> map_get (foldedTargets st) k = Some t ->
  map_get (foldedTargets (deleteFoldedTargetsInside c st anc)) k =
  if negb (bool_decide (key (target_path t) = key anc)) && isDescendantOf c anc (target_path t)
  then None else Some t.
Proof.
  intros Hinv Ht. cbn.
  rewrite (map_get_fold_delete_if (fun t => negb (bool_decide (key (target_path t) = key anc))
                              && isDescendantOf c anc (target_path t)) (fun t => key (target_path t))).
  rewrite (existsb_key _ target_path (fun t => negb (bool_decide (key (target_path t) = key anc))
    && isDescendantOf c anc (target_path t)) k t); [|apply Hinv|intros; by apply Hinv|done].
  by destruct (_ && _).
Qed.

Lemma deleteEntriesInside_inv st anc :
  inv st -> overflowed st = false -> inv (deleteEntriesInside c st anc).
Proof.
  intros [] Hov. split; cbn; try done; [|intros k r|by rewrite Hov].
  - by apply map_wf_fold_delete_if.
  - rewrite map_get_fold_delete_if. destruct (existsb _ _); [done|]. auto.
Qed.

Lemma deleteFoldedTargetsInside_inv st anc :
  inv st -> overflowed st = false -> inv (deleteFoldedTargetsInside c st anc).
Proof.
  intros [] Hov. split; cbn; try done; [|intros k t|by rewrite Hov].
  - by apply (map_wf_fold_delete_if (fun t => _) (fun t => key (target_path t))).
  - rewrite (map_get_fold_delete_if (fun t => _) (fun t => key (target_path t))).
    destruct (existsb _ _); [done|]. auto.
Qed.

Lemma fold_subtree_step st g :
  inv st -> overflowed st = false -> step_ok st (fold_subtree c st g).
Proof.
  intros Hinv Hov. set (anc := group_ancestor g).
  set (st1 := setFoldedTarget c st anc DInfinity "dirtyPathSubtreeFold").
  assert (inv st1) as H1 by by apply setFoldedTarget_inv.
  assert (inv (deleteEntriesInside c st1 anc)) as H2 by by apply deleteEntriesInside_inv.
  assert (inv (fold_subtree c st g)) as H3 by by apply deleteFoldedTargetsInside_inv.
  split; [done|done|done|]. intros k kind Hs.
  (* the new target stays, at infinite depth *)
  assert (exists t, map_get (foldedTargets (fold_subtree c st g)) (key anc) = Some t /\
    key (target_path t) = key anc /\ target_depth t = DInfinity) as (ta & Hta & Hka & Hda).
  { destruct (setFoldedTarget_get st anc DInfinity "dirtyPathSubtreeFold") as (d' & Hg & Hle & _).
    eexists. split.
    - unfold fold_subtree. rewrite (deleteFoldedTargetsInside_get _ _ _ _ H2 Hg). cbn.
      by rewrite bool_decide_true.
    - split; [done|]. cbn. destruct d'; cbn in Hle; lia || done. }
  assert (covers (key anc) DInfinity k kind -> served (fold_subtree c st g) k kind) as Hanc.
  { intros Hc. right; right. exists (key anc), ta. by rewrite Hka, Hda. }
  apply (setFoldedTarget_served _ anc DInfinity "dirtyPathSubtreeFold") in Hs; [|done].
  destruct Hs as [Ho|[(r & Hr & Hkind)|(k' & t & Ht & Hc)]]; [by left| |].
  - pose proof (deleteEntriesInside_get st1 anc k r H1 Hr) as Hd.
    destruct (isSameOrDescendantOf c anc (record_path r)) eqn:E; [|right; left; by exists r].
    apply Hanc. apply isSameOrDescendantOf_spec in E.
    rewrite (inv_entries_key _ H1 _ _ Hr) in E. left. split; [done|]. naive_solver.
  - pose proof (deleteFoldedTargetsInside_get _ anc k' t H2 Ht) as Hd.
    destruct (negb _ && _) eqn:E; [|right; right; by exists k', t].
    apply andb_prop in E as [_ E]. apply Hanc. by eapply covers_inside.
Qed.

Lemma foldSubtree_step st :
  inv st -> overflowed st = false -> step_ok st (foldSubtreeRecordsIntoTargets c st).
Proof.
  intros Hinv Hov.
  apply (fold_while_overfull_ind (fold_subtree c) (fun _ => True) (step_ok st)); [done| |by apply step_ok_refl].
  intros st' g _ Hst. eapply step_ok_trans; [exact Hst|].
  apply fold_subtree_step; apply Hst.
Qed.

(** *** [record] *)
Lemma findFoldedTargetCovering_spec st path t :
  inv st -> findFoldedTargetCovering c st path = Some t ->
  map_get (foldedTargets st) (key (target_path t)) = Some t /\
  (target_depth t = DInfinity /\ startsWith (key path) (key (target_path t) ++ "/") = true
   \/ key (target_path t) = parentPath (key path)).
Proof.
  intros Hinv Hf.
  assert (forall l, head (sort l (List.filter (fun t => bool_decide (target_depth t = DInfinity)
      && isDescendantOf c (target_path t) path) (map_values (foldedTargets st)))) = Some t ->
    map_get (foldedTargets st) (key (target_path t)) = Some t /\
    target_depth t = DInfinity /\ startsWith (key path) (key (target_path t) ++ "/") = true) as Hfall.
  { intros cmp Hh. apply head_Some_elem_of, elem_of_sort, list_elem_of_In, filter_In in Hh as [Hin Hb].
    apply list_elem_of_In, map_value_get in Hin as [k Hk]; [|apply Hinv].
    destruct (inv_folded_key _ Hinv _ _ Hk) as [<- _]. split; [done|].
    by apply andb_prop in Hb as [?%bool_decide_eq_true ?]. }
  unfold findFoldedTargetCovering in Hf.
  destruct (map_get (foldedTargets st) (key (parentPath path))) as [direct|] eqn:E; [|naive_solver].
  destruct (isDirectChild _ _); [|naive_solver]. injection Hf as ->.
  destruct (inv_folded_key _ Hinv _ _ E) as [Hk _]. rewrite Hk. split; [done|right].
  symmetry. apply parentPath_caseKey.
Qed.

Lemma mergeIntoFolded_step st path kind st' :
  inv st -> overflowed st = false -> mergeIntoFoldedTargetIfCovered c st path kind = Some st' ->
  step_ok st st' /\ served st' (key path) kind /\ watcherQueueSize st' = watcherQueueSize st.
Proof.
  unfold mergeIntoFoldedTargetIfCovered. intros Hinv Hov Hm.
  destruct (findFoldedTargetCovering c st path) as [t|] eqn:E; [|done].
  apply findFoldedTargetCovering_spec in E as [Hget Hcov]; [|done].
  destruct (inv_folded_key _ Hinv _ _ Hget) as (_ & Hne & _).
  destruct (negb (bool_decide (target_depth t = DInfinity)) && _) eqn:Eb; injection Hm as <-.
  - split; [|split].
    + split; [by apply setFoldedTarget_inv|done|done|]. intros. by apply setFoldedTarget_served.
    + apply andb_prop in Eb as [Hd%negb_true_iff%bool_decide_eq_false _].
      apply setFoldedTarget_covers. right; left. split; [done|]. split; [|done].
      destruct Hcov as [[? _]|Hp]; done.
    + by apply setFoldedTarget_size, map_get_Some_key with t.
  - split; [by apply step_ok_refl|]. split; [|done].
    right; right. exists (key (target_path t)), t. split; [done|].
    destruct Hcov as [[Hd Hin]|Hp]; [left; split; [done|]; by right; right|].
    right; left. split; [done|]. split; [done|]. intros Hst Hfiles.
    unfold structural in Hst. rewrite Hst, Hfiles in Eb. done.
Qed.

Lemma enforce_bound_ok st timestamp :
  inv st -> overflowed st = false ->
  let st' := enforce_bound c st timestamp in
  inv st' /\ (forall k kind, served st k kind -> served st' k kind)
  /\ explicitTargets st' = explicitTargets st
  /\ (overflowed st' = true \/ overfull c st' = false).
Proof.
  intros Hinv Hov. unfold enforce_bound. cbn zeta.
  destruct (overfull c st) eqn:E0; [|by auto].
  destruct (foldSiblings_step st Hinv Hov) as [Hi1 Ho1 He1 Hs1].
  destruct (overfull c (foldSiblingRecordsIntoTargets c st)) eqn:E1; [|by auto].
  destruct (foldSubtree_step _ Hi1 Ho1) as [Hi2 Ho2 He2 Hs2].
  destruct (overfull c (foldSubtreeRecordsIntoTargets c (foldSiblingRecordsIntoTargets c st))) eqn:E2.
  - split; [|split; [by left|split; [cbn; congruence|by left]]].
    split; cbn; try done; try apply NoDup_nil_2; apply Hi2.
  - split; [done|]. split; [by auto|]. split; [congruence|by right].
Qed.

Definition within_bound (st : state) : Prop :=
  overflowed st = true \/ (Z.of_nat (watcherQueueSize st) <= maxDirtyPaths c)%Z.

Lemma overfull_within st : overfull c st = false <-> (Z.of_nat (watcherQueueSize st) <= maxDirtyPaths c)%Z.
Proof. unfold overfull. lia. Qed.

Lemma with_entries_inv st k r :
  inv st -> overflowed st = false -> key (record_path r) = k ->
  inv (with_entries st (map_set (entries st) k r)).
Proof.
  intros [] Hov Hk. split; cbn; auto with js; [|by rewrite Hov].
  intros k' r'. rewrite map_get_set. case_bool_decide; [|by auto]. intros [= <-]. congruence.
Qed.

Lemma with_entries_served st k r :
  (forall r0 kind, map_get (entries st) k = Some r0 -> kind ∈ record_eventKinds r0 -> kind ∈ record_eventKinds r) ->
  forall k' kind, served st k' kind -> served (with_entries st (map_set (entries st) k r)) k' kind.
Proof.
  intros Hr k' kind [?|[(r0 & Hr0 & Hk)|?]]; [by left| |by right; right].
  right; left. cbn. rewrite map_get_set. case_bool_decide as Hkk; [subst k'|by eauto].
  exists r. eauto.
Qed.

(** One [record] call: the invariant, the bound, the explicit targets, the
    events served before, and the event itself when it is accepted. *)
Lemma record_ok st e b st' :
  inv st -> record c st e = (b, st') ->
  inv st' /\ (within_bound st -> within_bound st')
  /\ explicitTargets st' = explicitTargets st
  /\ (forall k kind, served st k kind -> served st' k kind)
  /\ (b = true -> forall p, repositoryRelativePath (scope c) (event_path e) = Some p ->
        served st' (key p) (event_kind e)).
Proof.
  intros Hinv. unfold record. destruct (overflowed st) eqn:Hov.
  { intros [= <- <-]. split; [done|]. split; [done|]. split; [done|]. split; [done|]. intros _ ? _. by left. }
  destruct (repositoryRelativePath (scope c) (event_path e)) as [p|] eqn:Ep; [|by intros [= <- <-]].
  destruct (decide (p = "")) as [->|Hp]; [by intros [= <- <-]|].
  intros Hrec. assert (match mergeIntoFoldedTargetIfCovered c st p (event_kind e) with
    | Some st' => (true, st')
    | None => match map_get (entries st) (key p) with
        | Some existing => (true, with_entries st (map_set (entries st) (key p) (update_record existing e)))
        | None => (true, enforce_bound c (with_entries st (map_set (entries st) (key p) (new_record p e))) (event_timestamp e))
        end end = (b, st')) as Hr by by destruct p. clear Hrec.
  destruct (mergeIntoFoldedTargetIfCovered c st p (event_kind e)) as [st1|] eqn:Em.
  { injection Hr as <- <-. apply mergeIntoFolded_step in Em as ([] & Hs & Hq); [|done..].
    split; [done|]. split; [|split; [done|]; split; [done|]; intros _ ? [= <-]; done].
    intros [H|H]; [congruence|right]. by rewrite Hq. }
  destruct (map_get (entries st) (key p)) as [r|] eqn:Eg.
  - injection Hr as <- <-. assert (key (record_path r) = key p) as Hk by by apply (inv_entries_key _ Hinv).
    split; [by apply with_entries_inv|]. split.
    { intros [H|H]; [congruence|right]. unfold watcherQueueSize in *. cbn. rewrite map_size_set.
      rewrite decide_True; [done|]. by eapply map_get_Some_key. }
    split; [done|]. split.
    + apply with_entries_served. intros r0 kind Hr0 Hin. cbn. apply elem_of_set_add. left. congruence.
    + intros _ ? [= <-]. right; left. cbn. rewrite map_get_set_eq. eexists. split; [done|].
      cbn. apply elem_of_set_add. by right.
  - injection Hr as <- <-.
    destruct (enforce_bound_ok (with_entries st (map_set (entries st) (key p) (new_record p e))) (event_timestamp e))
      as (Hi & Hs & He & Hb); [by apply with_entries_inv|done|].
    split; [done|]. split; [intros _; destruct Hb as [?|Hb]; [by left|right; by apply overfull_within]|].
    split; [done|]. split.
    + intros k kind H. apply Hs. revert H. apply with_entries_served. congruence.
    + intros _ ? [= <-]. apply Hs. right; left. cbn. rewrite map_get_set_eq. eexists. split; [done|].
      cbn. apply list_elem_of_here.
Qed.

(** *** The targets of a set *)

(** A target map: keyed by [targetKey], with reasons that keep keys apart. *)
Definition tmap_ok (m : list (string * StatusRefreshTarget)) : Prop :=
  map_wf m /\ forall k t, map_get m k = Some t -> targetKey t = k /\ nul_free (target_reason t).

Lemma depth_name_nul_free d : nul_free (depth_name d).
Proof. by destruct d. Qed.

Lemma depth_name_inj d1 d2 : depth_name d1 = depth_name d2 -> d1 = d2.
Proof. by destruct d1, d2. Qed.

Lemma targetKey_inj t1 t2 :
  nul_free (target_reason t1) -> nul_free (target_reason t2) -> targetKey t1 = targetKey t2 -> t1 = t2.
Proof.
  destruct t1 as [p1 d1 r1], t2 as [p2 d2 r2]. unfold targetKey. cbn. intros H1 H2.
  change (String NUL (depth_name d1 ++ String NUL r1)) with (String NUL (depth_name d1) ++ String NUL r1).
  change (String NUL (depth_name d2 ++ String NUL r2)) with (String NUL (depth_name d2) ++ String NUL r2).
  rewrite <- !app_assoc. intros [H ->]%app_sep_inj; [|done..].
  apply app_sep_inj in H as [-> Hd%depth_name_inj]; [|apply depth_name_nul_free..]. by subst.
Qed.

Lemma set_target_ok m t :
  tmap_ok m -> nul_free (target_reason t) ->
  tmap_ok (set_target m t) /\ forall t', t' ∈ map_values (set_target m t) <-> t' ∈ map_values m \/ t' = t.
Proof.
  intros [Hwf Hm] Ht.
  assert (tmap_ok (set_target m t)) as Hok.
  { split; [by apply map_wf_set|]. intros k t'. unfold set_target. rewrite map_get_set.
    case_bool_decide; [by intros [= <-]|by apply Hm]. }
  split; [done|]. intros t'. destruct Hok as [Hwf' Hm']. split.
  - intros Hin. apply map_value_get in Hin as [k Hk]; [|done]. unfold set_target in Hk.
    rewrite map_get_set in Hk. case_bool_decide; [right; congruence|left].
    by apply map_get_Some_value with k.
  - intros [Hin| ->]; [|apply map_get_Some_value with (targetKey t); apply map_get_set_eq].
    apply map_value_get in Hin as [k Hk]; [|done]. destruct (Hm k t' Hk) as [<- Hn].
    apply map_get_Some_value with (targetKey t'). unfold set_target. rewrite map_get_set.
    case_bool_decide as E; [|done]. f_equal. by apply targetKey_inj.
Qed.

Lemma set_targets_ok l m :
  tmap_ok m -> Forall (fun t => nul_free (target_reason t)) l ->
  tmap_ok (fold_left set_target l m) /\
  forall t, t ∈ map_values (fold_left set_target l m) <-> t ∈ map_values m \/ t ∈ l.
Proof.
  intros Hm Hl. revert m Hm. induction Hl as [|t l Ht Hl IH]; intros m Hm; cbn [fold_left].
  - split; [done|]. intros t. rewrite elem_of_nil. naive_solver.
  - destruct (set_target_ok m t Hm Ht) as [Hok Hel]. destruct (IH _ Hok) as [Hok' Hel'].
    split; [done|]. intros t'. rewrite Hel', Hel, elem_of_cons. naive_solver.
Qed.

Lemma fold_targets_flat {A} (f : A -> list StatusRefreshTarget) l m :
  fold_left (fun m r => fold_left set_target (f r) m) l m = fold_left set_target (concat (map f l)) m.
Proof. revert m. induction l as [|a l IH]; intros m; cbn; [done|]. by rewrite IH, fold_left_app. Qed.

(** All the targets the set holds, before they are keyed and sorted. *)
Definition held_targets (st : state) : list StatusRefreshTarget :=
  map_values (explicitTargets st) ++ map_values (foldedTargets st)
  ++ concat (map targetsForRecord (sortedRecords st)).

Lemma targetsForRecord_nul_free r t : t ∈ targetsForRecord r -> nul_free (target_reason t).
Proof.
  unfold targetsForRecord. intros Hin. repeat case_match; cbn in Hin;
    rewrite ?elem_of_cons, ?elem_of_nil in Hin; naive_solver.
Qed.

Lemma held_targets_nul_free st : inv st -> Forall (fun t => nul_free (target_reason t)) (held_targets st).
Proof.
  intros Hinv. apply Forall_forall. intros t Hin. unfold held_targets in Hin.
  rewrite !elem_of_app in Hin. destruct Hin as [Hin|[Hin|Hin]].
  - by apply (inv_explicit _ Hinv).
  - apply map_value_get in Hin as [k Hk]; [|apply Hinv].
    by apply (inv_folded_key _ Hinv) in Hk as (_ & _ & ?).
  - apply list_elem_of_In, in_concat in Hin as (l & Hl & Ht).
    apply in_map_iff in Hl as (r & <- & _). by eapply targetsForRecord_nul_free, list_elem_of_In.
Qed.

Lemma toRefreshTargets_flat st :
  overflowed st = false ->
  toRefreshTargets st = sort compareTargets (map_values (fold_left set_target (held_targets st) [])).
Proof.
  intros Hov. unfold toRefreshTargets. rewrite Hov. cbn zeta. do 2 f_equal.
  unfold held_targets. rewrite !fold_left_app. apply fold_targets_flat.
Qed.

Lemma tmap_ok_nil : tmap_ok [].
Proof. split; [apply map_wf_nil|]. by intros. Qed.

Lemma elem_of_toRefreshTargets st t :
  inv st -> overflowed st = false -> t ∈ toRefreshTargets st <-> t ∈ held_targets st.
Proof.
  intros Hinv Hov. rewrite toRefreshTargets_flat, elem_of_sort by done.
  destruct (set_targets_ok (held_targets st) [] tmap_ok_nil (held_targets_nul_free st Hinv)) as [_ Hel].
  rewrite Hel. cbn. rewrite elem_of_nil. naive_solver.
Qed.

(** A record's targets show every kind of event it has seen. *)
Lemma targetsForRecord_covers r kind :
  kind ∈ record_eventKinds r ->
  exists t, t ∈ targetsForRecord r /\ covers (key (target_path t)) (target_depth t) (key (record_path r)) kind.
Proof.
  intros Hin. assert (has_kind r kind = true) as Hk by (by apply bool_decide_eq_true).
  assert (forall reason, covers (key (target_path (parentTarget (record_path r) reason))) DImmediates
    (key (record_path r)) kind) as Hparent.
  { intros reason. right; left. split; [done|]. split; [apply parentPath_caseKey|done]. }
  unfold targetsForRecord. destruct (has_kind r KRename) eqn:Er.
  { eexists. split; [apply list_elem_of_here|]. left. split; [done|left]. by apply caseKey_dot. }
  destruct (isCreateThenDelete r); [eexists; split; [apply list_elem_of_here|apply Hparent]|].
  destruct (isDeleteThenCreate r); [eexists; split; [apply list_elem_of_here|apply Hparent]|].
  destruct kind; rewrite ?Hk, ?orb_true_r; try congruence; eexists; rewrite !elem_of_app.
  - split; [left; apply list_elem_of_here|apply Hparent].
  - split; [right; right; apply list_elem_of_here|right; by right].
  - split; [right; left; apply list_elem_of_here|apply Hparent].
  - split; [right; right; apply list_elem_of_here|right; by right].
Qed.

Lemma served_toRefreshTargets st k kind :
  inv st -> served st k kind ->
  exists t, t ∈ toRefreshTargets st /\ covers (key (target_path t)) (target_depth t) k kind.
Proof.
  intros Hinv Hs. destruct (overflowed st) eqn:Hov.
  { unfold toRefreshTargets. rewrite Hov. eexists. split; [apply list_elem_of_here|].
    left. split; [done|left]. by apply caseKey_dot. }
  destruct Hs as [?|[(r & Hr & Hk)|(k' & t & Ht & Hc)]]; [congruence| |].
  - destruct (targetsForRecord_covers r kind Hk) as (t & Hin & Hc).
    rewrite (inv_entries_key _ Hinv _ _ Hr) in Hc. exists t. split; [|done].
    apply elem_of_toRefreshTargets; [done..|]. unfold held_targets. rewrite !elem_of_app. right; right.
    apply list_elem_of_In, in_concat. exists (targetsForRecord r). split; [|by apply list_elem_of_In].
    apply in_map, list_elem_of_In. unfold sortedRecords. apply elem_of_sort.
    by apply map_get_Some_value with k.
  - exists t. split; [|done]. apply elem_of_toRefreshTargets; [done..|].
    unfold held_targets. rewrite !elem_of_app. right; left. by apply map_get_Some_value with k'.
Qed.

(** *** Runs *)
Inductive op := Record_ (e : DirtyFileEvent) | Merge (ts : list StatusRefreshTarget).

Definition step (st : state) (o : op) : state :=
  match o with
  | Record_ e => snd (record c st e)
  | Merge ts => mergeTargets st ts
  end.
Definition run (st : state) (ops : list op) : state := fold_left step ops st.

(** Reasons are names the extension chooses; none holds the NUL that
    separates the parts of a target key. *)
Definition op_ok (o : op) : Prop :=
  match o with
  | Record_ _ => True
  | Merge ts => Forall (fun t => nul_free (target_reason t)) ts
  end.

Lemma mergeTargets_ok st ts :
  inv st -> Forall (fun t => nul_free (target_reason t)) ts ->
  inv (mergeTargets st ts) /\ (within_bound st -> within_bound (mergeTargets st ts))
  /\ (forall k kind, served st k kind -> served (mergeTargets st ts) k kind).
Proof.
  intros Hinv Hts. unfold mergeTargets. destruct ts as [|t0 ts']; [by auto|].
  change (length (t0 :: ts') =? 0)%nat with false. cbn match. destruct (existsb is_root_target _).
  - split; [|split; [by left|by left]]. split; cbn; try done; try apply NoDup_nil_2. by intros t ?%elem_of_nil.
  - split; [|split; [done|done]]. destruct Hinv. split; cbn [entries foldedTargets overflowed explicitTargets with_explicitTargets]; try done.
    + generalize dependent (explicitTargets st). intros m Hexp _.
      assert (forall t, t ∈ map_values (fold_left set_target (t0 :: ts') m) -> t ∈ map_values m \/ t ∈ t0 :: ts') as H.
      { clear. generalize (t0 :: ts') as l. intros l. revert m. induction l as [|t l IH]; intros m t'; cbn [fold_left]; [by left|].
        intros [H|H]%IH; [|right; by apply list_elem_of_further].
        unfold set_target in H. apply elem_of_values_set in H as [->|?]; [right; apply list_elem_of_here|by left]. }
      intros t [?|Hin]%H; [by auto|]. by eapply Forall_forall in Hts.
    + generalize dependent (explicitTargets st). intros m _ Hwf. revert m Hwf. clear.
      generalize (t0 :: ts') as l. induction l as [|t l IH]; intros m Hwf; cbn [fold_left]; [done|].
      by apply IH, map_wf_set.
Qed.

Lemma run_ok ops st :
  inv st -> Forall op_ok ops ->
  inv (run st ops) /\ (within_bound st -> within_bound (run st ops))
  /\ (forall k kind, served st k kind -> served (run st ops) k kind).
Proof.
  intros Hinv Hops. revert st Hinv. induction Hops as [|o ops Ho Hops IH]; intros st Hinv; [done|].
  cbn [run fold_left]. assert (inv (step st o) /\ (within_bound st -> within_bound (step st o))
    /\ (forall k kind, served st k kind -> served (step st o) k kind)) as (Hi & Hb & Hs).
  { destruct o as [e|ts]; [|by apply mergeTargets_ok]. cbn [step].
    destruct (record c st e) as [b st'] eqn:E. apply record_ok in E; naive_solver. }
  destruct (IH _ Hi) as (Hi' & Hb' & Hs'). split; [done|]. auto.
Qed.

Lemma elem_of_record_targets st t :
  t ∈ concat (map targetsForRecord (sortedRecords st)) <->
  exists r, r ∈ map_values (entries st) /\ t ∈ targetsForRecord r.
Proof.
  rewrite list_elem_of_In, in_concat. setoid_rewrite in_map_iff. split.
  - intros (l & (r & <- & Hr) & Ht). exists r. rewrite <- list_elem_of_In in Hr. rewrite <- list_elem_of_In in Ht.
    split; [|done]. unfold sortedRecords in Hr. by rewrite elem_of_sort in Hr.
  - intros (r & Hr & Ht). exists (targetsForRecord r). rewrite <- list_elem_of_In. split; [|done].
    exists r. split; [done|]. rewrite <- list_elem_of_In. unfold sortedRecords. by rewrite elem_of_sort.
Qed.

Lemma tmap_values_NoDup m : tmap_ok m -> NoDup (map_values m).
Proof.
  intros [Hwf Hm]. unfold map_wf in Hwf.
  assert (map_keys m = map targetKey (map_values m)) as Heq.
  { unfold map_keys, map_values. rewrite map_map. apply map_ext_in. intros [k t] Hin.
    symmetry. eapply Hm, map_get_elem; [done|]. by apply list_elem_of_In. }
  rewrite Heq in Hwf. apply NoDup_ListNoDup. apply NoDup_ListNoDup in Hwf. by apply NoDup_map_inv in Hwf.
Qed.

Lemma toRefreshTargets_NoDup st : inv st -> overflowed st = false -> NoDup (toRefreshTargets st).
Proof.
  intros Hinv Hov. rewrite toRefreshTargets_flat by done. rewrite sort_perm.
  apply tmap_values_NoDup. apply set_targets_ok; [apply tmap_ok_nil|by apply held_targets_nul_free].
Qed.
End Facts.

(** ** Theorems *)

(** C1: No accepted event is lost.  From any set with its invariant, once
    [record] accepts an event of the repository, every later state reached by
    recording more events and merging more targets (with all the folding and
    overflowing this triggers) still yields a refresh target that shows it. *)
Theorem no_event_lost (c : config) (st st1 : state) (e : DirtyFileEvent) (p : string) (ops : list op) :
  inv c st -> Forall op_ok ops ->
  record c st e = (true, st1) ->
  repositoryRelativePath (scope c) (event_path e) = Some p ->
  exists t, t ∈ toRefreshTargets (run c st1 ops) /\
    covers (comparisonKey (scope c) (target_path t)) (target_depth t) (comparisonKey (scope c) p) (event_kind e).
Proof.
  intros Hinv Hops Hrec Hp. apply record_ok in Hrec as (Hi & _ & _ & _ & Hs); [|done].
  destruct (run_ok c ops st1 Hi Hops) as (Hi' & _ & Hs').
  apply served_toRefreshTargets; auto.
Qed.

(** C38: The watcher queue stays within [maxDirtyPaths]: after any run from the
    empty set, either the set has overflowed to one full reconcile and holds
    no entry, or its entries and folded targets together are at most the bound. *)
Theorem queue_bounded (c : config) (ops : list op) :
  (0 <= maxDirtyPaths c)%Z -> Forall op_ok ops ->
  let st := run c new_state ops in
  (overflowed st = true /\ watcherQueueSize st = 0 /\ size st = 1)
  \/ (overflowed st = false /\ (Z.of_nat (watcherQueueSize st) <= maxDirtyPaths c)%Z).
Proof.
  intros Hmax Hops. destruct (run_ok c ops new_state (inv_new c) Hops) as (Hi & Hb & _). cbn zeta.
  destruct Hb as [Hov|Hle]; [by right| |].
  - left. split; [done|]. destruct (inv_overflowed _ _ Hi Hov) as [He Hf].
    unfold watcherQueueSize, size. by rewrite Hov, He, Hf.
  - destruct (overflowed (run c new_state ops)) eqn:Hov; [|by right].
    left. split; [done|]. destruct (inv_overflowed _ _ Hi Hov) as [He Hf].
    unfold watcherQueueSize, size. by rewrite Hov, He, Hf.
Qed.

(** What a drain gives: exactly the targets held (explicit, folded, and of
    each record), each once, in the order of [compareTargets], or the one
    root target after an overflow; and the set is left as new. *)
Theorem drain_exact (c : config) (ops : list op) :
  Forall op_ok ops ->
  let st := run c new_state ops in
  let ts := fst (drainToRefreshTargets st) in
  snd (drainToRefreshTargets st) = new_state /\ NoDup ts /\ StronglySorted (fun a b => compareTargets a b <> Gt) ts /\
  forall t, t ∈ ts <->
    if overflowed st
    then t = {| target_path := "."; target_depth := DInfinity; target_reason := "watcherOverflow" |}
    else t ∈ map_values (explicitTargets st) \/ t ∈ map_values (foldedTargets st)
         \/ exists r, r ∈ map_values (entries st) /\ t ∈ targetsForRecord r.
Proof.
  intros Hops. destruct (run_ok c ops new_state (inv_new c) Hops) as (Hi & _ & _).
  cbn zeta. cbn [drainToRefreshTargets fst snd]. set (st := run c new_state ops) in *. split; [done|].
  destruct (overflowed st) eqn:Hov.
  { unfold toRefreshTargets. rewrite Hov. split; [apply NoDup_singleton|].
    split; [repeat constructor|]. intros t. by rewrite list_elem_of_singleton. }
  split; [|split].
  - by apply toRefreshTargets_NoDup with c.
  - rewrite toRefreshTargets_flat by done. apply sort_sorted, _.
  - intros t. rewrite (elem_of_toRefreshTargets c) by done. unfold held_targets.
    rewrite !elem_of_app. do 2 apply or_iff_compat_l. apply elem_of_record_targets.
Qed.
