(* ===== verification/RefreshRequests.v ===== *)
(** From file events to refresh requests: the targets a dirty-path set drains
    are ones the refresh client accepts.  Joins status/watcherEvents.ts,
    status/dirtyPathSet.ts and status/statusRefreshRpcClient.ts. *)

From Stdlib Require Import ZArith Lia Ascii String List.
From stdpp Require Import base option list strings sets.
From S2P Require Import Prelude JsString JsMap JsValue StatusTypes StatusWire StatusWireFacts.
From S2P Require Import Paths DirtyPaths DirtyPathsFacts.

Import DirtyPathSet.
Local Open Scope string_scope.

(** ** Names the protocol can carry *)

(** A file name the client's path check lets through: not blank, and without
    ":" and NUL. *)
Definition portable_name (seg : string) : Prop :=
  isNonEmptyString seg = true /\ includes seg ":" = false /\ includes seg NUL = false.

(** A repository-relative path of safe segments. *)
Definition safe_path (p : string) : Prop :=
  p = "." \/ (includes p backslash = false /\ Forall (fun seg => safe_segment seg = true) (split p slash)).

Definition portable_path (p : string) : Prop :=
  safe_path p /\ (p = "." \/ Forall portable_name (split p slash)).

Lemma replaceAll_id s a b : includes s a = false -> replaceAll s a b = s.
Proof.
  induction s as [|x s IH]; cbn; [done|]. intros [Hx Hs]%orb_false_elim.
  rewrite IH by done. by rewrite Hx.
Qed.

Lemma replaceAll_no s a b : a <> b -> includes (replaceAll s a b) a = false.
Proof.
  intros Hab. induction s as [|x s IH]; cbn; [done|]. rewrite IH, orb_false_r.
  apply bool_decide_eq_false. case_bool_decide; congruence.
Qed.

Lemma includes_join l c x : x <> c -> Forall (fun s => includes s x = false) l -> includes (join l c) x = false.
Proof.
  intros Hne. induction 1 as [|s l Hs Hl IH]; [done|]. destruct l as [|s' l']; [done|].
  rewrite join_cons by done. rewrite includes_app, Hs. cbn [includes]. rewrite IH, orb_false_r.
  apply bool_decide_eq_false. congruence.
Qed.

Lemma includes_split_false s c x :
  includes s x = false -> Forall (fun seg => includes seg x = false) (split s c).
Proof.
  induction s as [|a s IH]; cbn [split].
  - intros _. by repeat constructor.
  - intros [Ha Hs]%includes_false_cons. specialize (IH Hs).
    pose proof (split_nonempty s c) as Hne. destruct (split s c) as [|piece rest]; [done|].
    apply Forall_cons in IH as [Hp Hr]. case_bool_decide; [by repeat constructor|].
    constructor; [|done]. apply includes_false_cons. done.
Qed.

Lemma isNonEmptyString_space s : isNonEmptyString s = negb (all_space s).
Proof.
  unfold isNonEmptyString, trim. f_equal. induction s as [|a s IH]; [done|]. cbn.
  destruct (is_space a) eqn:E; cbn; [done|]. rewrite E. done.
Qed.

Lemma portable_join l : l <> [] -> Forall portable_name l -> isNonEmptyString (join l slash) = true.
Proof.
  intros Hne Hl. destruct l as [|s l]; [done|]. apply Forall_cons in Hl as [(Hs & _) _].
  destruct l as [|s' l]; [done|]. rewrite join_cons by done.
  rewrite isNonEmptyString_space in *. rewrite all_space_app.
  apply negb_true_iff in Hs. by rewrite Hs.
Qed.

Lemma portable_path_ok p : portable_path p -> path_ok p.
Proof.
  intros [Hsafe Hport]. destruct (decide (p = ".")) as [->|Hdot]; [done|].
  destruct Hsafe as [?|[Hbs Hseg]]; [done|]. destruct Hport as [?|Hport]; [done|].
  pose proof (join_split p slash) as Hj. split.
  - unfold text_ok. rewrite <- Hj. apply portable_join; [apply split_nonempty|done].
  - unfold isRepositoryRelativePath. rewrite bool_decide_false by done. rewrite replaceAll_id by done.
    assert (forall x, x <> slash -> (forall s, portable_name s -> includes s x = false) -> includes p x = false) as Hinc.
    { intros x Hx Hn. rewrite <- Hj. apply includes_join; [done|]. eapply Forall_impl; [exact Hport|]. done. }
    rewrite (Hinc ":"%char) by (try done; by intros s (_ & ? & _)).
    rewrite (Hinc "000"%char) by (try done; by intros s (_ & _ & ?)). rewrite !orb_false_r.
    destruct (startsWith p "/") eqn:E.
    + apply startsWith_iff in E as [r ->]. change ("/" ++ r) with ("" ++ String slash r) in Hseg. rewrite split_app in Hseg by done.
      apply Forall_cons in Hseg as [Hs _]. done.
    + apply forallb_forall. intros seg Hin%list_elem_of_In. by eapply Forall_forall in Hseg.
Qed.

(** Cutting at any separator splits the segment list. *)
Lemma split_app_any p r c : split (p ++ String c r) c = (split p c ++ split r c)%list.
Proof.
  induction p as [|a p IH]; [by apply (split_app "" r c)|].
  cbn [String.append split]. rewrite IH. pose proof (split_nonempty p c) as Hne.
  destruct (split p c) as [|piece rest]; [done|]. cbn. by case_bool_decide.
Qed.

Lemma parentPath_split p :
  parentPath p = "." \/ exists r, split p slash = (split (parentPath p) slash ++ [r])%list /\ p = parentPath p ++ String slash r.
Proof.
  destruct (parentPath_cases p) as [[_ ?]|(r & Hr & Hn)]; [by left|right].
  exists r. split; [|done]. rewrite Hr at 1. rewrite split_app_any. by rewrite (split_no_sep_single r).
Qed.

Lemma portable_parent p : portable_path p -> portable_path (parentPath p).
Proof.
  intros [Hsafe Hport]. destruct (parentPath_split p) as [->|(r & Hs & Hp)]; [split; by left|].
  destruct (decide (p = ".")) as [->|Hdot]; [by split; left|].
  destruct Hsafe as [?|[Hbs Hseg]]; [done|]. destruct Hport as [?|Hport]; [done|].
  rewrite Hs in Hseg, Hport. apply Forall_app in Hseg as [Hseg _]. apply Forall_app in Hport as [Hport _].
  split; [|by right]. right. split; [|done].
  rewrite Hp, includes_app in Hbs. by apply orb_false_elim in Hbs as [? _].
Qed.

(** ** Accepted events are safe paths *)

Lemma includes_strip_trailing s c x : includes s x = false -> includes (strip_trailing s c) x = false.
Proof.
  induction s as [|a s IH]; [done|]. intros [Ha Hs]%includes_false_cons. specialize (IH Hs). cbn [strip_trailing].
  destruct (strip_trailing s c) as [|b r]; [case_bool_decide; [done|]|]; by apply includes_false_cons.
Qed.

Lemma strip_trailing_idem s c : strip_trailing (strip_trailing s c) c = strip_trailing s c.
Proof.
  induction s as [|a s IH]; [done|]. cbn [strip_trailing].
  destruct (strip_trailing s c) as [|b r] eqn:E.
  - case_bool_decide as H; [done|]. cbn. by rewrite bool_decide_false.
  - cbn [strip_trailing] in *. by rewrite IH.
Qed.

Lemma normalizeAbsolutePath_idem p : normalizeAbsolutePath (normalizeAbsolutePath p) = normalizeAbsolutePath p.
Proof.
  unfold normalizeAbsolutePath. rewrite (replaceAll_id (strip_trailing _ _)); [apply strip_trailing_idem|].
  apply includes_strip_trailing, replaceAll_no. done.
Qed.

Lemma normalizeAbsolutePath_no_backslash p : includes (normalizeAbsolutePath p) backslash = false.
Proof. apply includes_strip_trailing, replaceAll_no. done. Qed.

Lemma caseKey_slash_inv pc s k k' :
  caseKey pc s = k ++ String slash k' ->
  exists s1 s2, s = s1 ++ String slash s2 /\ caseKey pc s1 = k /\ String.length s1 = String.length k.
Proof.
  destruct pc; cbn [caseKey].
  - intros ->. by exists k, k'.
  - revert k. induction s as [|a s IH]; intros [|b k]; cbn; try done.
    + intros [= Ha _]. exists "", s. split; [|done]. cbn. f_equal. by apply lower_char_slash.
    + intros [= Ha Hs]. destruct (IH k Hs) as (s1 & s2 & -> & Hk & Hlen).
      exists (String a s1), s2. cbn. by rewrite Hk, Ha, Hlen.
Qed.

Lemma length_caseKey pc s : String.length (caseKey pc s) = String.length s.
Proof. destruct pc; [done|apply length_lower]. Qed.

Lemma unsafe_from_false all i parts :
  unsafe_from all i parts = false ->
  forall j part, parts !! j = Some part ->
    part <> "." /\ part <> ".." /\ (part = "" -> isAllowedAbsolutePrefix all (i + j) = true).
Proof.
  revert i. induction parts as [|x parts IH]; intros i; cbn [unsafe_from]; [done|].
  intros [Hx Hp]%orb_false_elim [|j] part Hj; cbn in Hj.
  - injection Hj as <-. rewrite Nat.add_0_r. repeat case_bool_decide; cbn in Hx; try done.
    apply negb_false_iff in Hx. done.
  - rewrite Nat.add_succ_r. by apply (IH (S i)).
Qed.

Lemma isAllowedAbsolutePrefix_tail all i :
  isAllowedAbsolutePrefix all (S i) = true -> i = 0 /\ all !! 0 = Some "".
Proof.
  unfold isAllowedAbsolutePrefix. cbn. destruct i; cbn; [|done]. intros [H _]%andb_prop.
  split; [done|]. by apply bool_decide_eq_true in H.
Qed.

Lemma safe_tail s1 s2 :
  s1 <> "" -> hasUnsafePathSegments (s1 ++ String slash s2) = false ->
  Forall (fun seg => safe_segment seg = true) (split s2 slash).
Proof.
  intros Hs1 Hsafe. unfold hasUnsafePathSegments in Hsafe. rewrite split_app_any in Hsafe. cbn zeta in Hsafe.
  apply Forall_lookup. intros j seg Hj. pose proof (split_nonempty s1 slash) as Hne.
  destruct (unsafe_from_false _ 0 _ Hsafe (length (split s1 slash) + j) seg) as (H1 & H2 & H3).
  { by rewrite lookup_app_r, Nat.add_comm, Nat.add_sub by lia. }
  unfold safe_segment. rewrite !bool_decide_false; try done. intros Hnil. specialize (H3 Hnil).
  destruct (split s1 slash) as [|x [|y l]] eqn:E; [done| |];
    cbn [length Nat.add] in H3; apply isAllowedAbsolutePrefix_tail in H3 as [Hi Hx]; cbn in *; [|lia].
  injection Hx as ->. apply Hs1. by rewrite <- (join_split s1 slash), E.
Qed.

(** What an accepted event went through. *)
Lemma repositoryRelativePath_inv scope ep p :
  let root := normalizeAbsolutePath (scope_workingCopyRoot scope) in
  let cand := normalizeAbsolutePath ep in
  repositoryRelativePath scope ep = Some p ->
  hasUnsafePathSegments cand = false /\ isSvnInternal scope p = false /\ isInsideBoundary scope cand = false /\
  (p = "." /\ comparisonKey scope cand = comparisonKey scope root
   \/ exists s1, s1 <> "" /\ cand = s1 ++ String slash p /\ comparisonKey scope s1 = comparisonKey scope root).
Proof.
  intros root cand. unfold repositoryRelativePath. fold root cand. cbn zeta.
  destruct (hasUnsafePathSegments root || hasUnsafePathSegments cand) eqn:Eu; [done|].
  apply orb_false_elim in Eu as [Hroot Hcand].
  destruct (negb _ && _) eqn:En; [done|]. destruct (isInsideBoundary scope cand) eqn:Eb; [done|].
  destruct (isSvnInternal scope _) eqn:Es; [done|]. intros Hp. apply (inj Some) in Hp. rewrite Hp in Es.
  repeat (split; [done|]). revert Hp. case_bool_decide as Hkey; [by left|intros Hp; right].
  cbn in En. apply negb_false_iff, startsWith_iff in En as [r Hr]. rewrite app_assoc in Hr.
  apply caseKey_slash_inv in Hr as (s1 & s2 & Hc & Hk & Hlen).
  unfold comparisonKey in Hlen. rewrite length_caseKey in Hlen.
  exists s1. split; [|split; [|done]].
  - intros ->. destruct root as [|a root']; [|done]. vm_compute in Hroot. done.
  - rewrite Hc. do 2 f_equal. rewrite <- Hp, Hc, <- Hlen. change (String slash s2) with (String slash "" ++ s2).
    rewrite <- app_assoc.
    replace (S (String.length s1)) with (String.length (s1 ++ String slash "")) by (rewrite length_app; cbn; lia).
    symmetry. apply slice_from_app.
Qed.

Lemma repositoryRelativePath_safe scope ep p :
  repositoryRelativePath scope ep = Some p -> safe_path p.
Proof.
  intros (Hu & _ & _ & [[-> _]|(s1 & Hs1 & Hc & _)])%repositoryRelativePath_inv; [by left|right].
  pose proof (normalizeAbsolutePath_no_backslash ep) as Hb. rewrite Hc in Hb, Hu. split; [|by eapply safe_tail].
  rewrite includes_app in Hb. apply orb_false_elim in Hb as [_ Hb]. by apply includes_false_cons in Hb as [_ ?].
Qed.

(** ** Every target of a set has a path built from its events' paths *)
Section Paths.
Variable c : config.
Variable P : string -> Prop.
Hypothesis P_root : P ".".
Hypothesis P_parent : forall p, P p -> P (parentPath p).

Record paths_in (st : state) : Prop := {
  paths_entries r : r ∈ map_values (entries st) -> P (record_path r);
  paths_folded t : t ∈ map_values (foldedTargets st) -> P (target_path t) /\ text_ok (target_reason t);
  paths_explicit t : t ∈ map_values (explicitTargets st) -> target_ok t;
}.

Lemma elem_of_values_delete {V} (m : list (string * V)) k v :
  v ∈ map_values (map_delete m k) -> v ∈ map_values m.
Proof.
  unfold map_values, map_delete. rewrite !list_elem_of_In, !in_map_iff.
  intros (e & <- & [Hin _]%filter_In). by exists e.
Qed.

Lemma elem_of_values_fold_delete {A V} (f : A -> bool) (k : A -> string) l (m : list (string * V)) v :
  v ∈ map_values (fold_left (fun m a => if f a then map_delete m (k a) else m) l m) -> v ∈ map_values m.
Proof.
  revert m. induction l as [|a l IH]; intros m; cbn [fold_left]; [done|]. intros Hv%IH.
  destruct (f a); [by eapply elem_of_values_delete|done].
Qed.

Lemma setFoldedTarget_paths st path d reason :
  paths_in st -> P path -> text_ok reason -> paths_in (setFoldedTarget c st path d reason).
Proof.
  intros [He Hf Hx] Hp Hr. split; cbn; [done| |done].
  intros t [->|?]%elem_of_values_set; [done|by apply Hf].
Qed.

Lemma fold_siblings_paths st records :
  paths_in st -> (forall r, r ∈ records -> P (record_path r)) -> paths_in (fold_siblings c st records).
Proof.
  intros Hst Hrec. destruct records as [|r0 records]; [done|].
  assert (P (parentPath (record_path r0))) as Hp by apply P_parent, Hrec, list_elem_of_here.
  destruct (setFoldedTarget_paths st (parentPath (record_path r0))
    (if existsb requiresSiblingDirectoryEntries (r0 :: records) then DImmediates else DFiles) "dirtyPathFold"
    Hst Hp eq_refl) as [He Hf Hx]. split; [|exact Hf|exact Hx].
  intros r Hr. apply He. unfold fold_siblings in Hr. cbn [entries with_entries] in Hr.
  by apply (elem_of_values_fold_delete (fun _ => true) (fun r => comparisonKey (scope c) (record_path r))) in Hr.
Qed.

Lemma fold_subtree_paths st g : paths_in st -> P (group_ancestor g) -> paths_in (fold_subtree c st g).
Proof.
  intros Hst Hp. destruct (setFoldedTarget_paths st (group_ancestor g) DInfinity "dirtyPathSubtreeFold" Hst Hp eq_refl)
    as [He Hf Hx]. split; [|intros t Ht|exact Hx].
  - intros r Hr. apply He.
    by apply (elem_of_values_fold_delete (fun r => _) (fun r => comparisonKey (scope c) (record_path r))) in Hr.
  - apply Hf. by apply (elem_of_values_fold_delete (fun t => _) (fun t => comparisonKey (scope c) (target_path t))) in Ht.
Qed.

Lemma ancestors_from_paths fuel p anc : P p -> anc ∈ ancestors_from fuel p -> P anc.
Proof.
  revert p. induction fuel as [|fuel IH]; intros p Hp; cbn; [by intros ?%elem_of_nil|].
  case_bool_decide; [by intros ?%elem_of_nil|]. intros [->|?]%elem_of_cons; [done|eauto].
Qed.

(** Groups of both folds are made of queue paths and their ancestors. *)
Lemma sibling_groups_paths st records r :
  inv c st -> paths_in st -> records ∈ sibling_groups c st -> r ∈ records -> P (record_path r).
Proof.
  intros Hinv Hst Hg Hr. apply sibling_groups_ok in Hg as (g & _ & Hall); [|done].
  apply Hst. destruct (Hall r Hr) as [Hget _]. by eapply map_get_Some_value.
Qed.

Lemma push_subtree_paths path l groups :
  (forall g, g ∈ map_values groups -> P (group_ancestor g)) -> (forall a, a ∈ l -> P a) ->
  forall g, g ∈ map_values (fold_left (push_subtree c path) l groups) -> P (group_ancestor g).
Proof.
  revert groups. induction l as [|a l IH]; intros groups Hg Hl; cbn [fold_left]; [done|].
  apply IH; [|intros; by apply Hl, list_elem_of_further]. intros g. unfold push_subtree.
  destruct (map_get groups _) as [g0|] eqn:E; intros [->|?]%elem_of_values_set; try by apply Hg.
  - cbn. by eapply Hg, map_get_Some_value.
  - apply Hl, list_elem_of_here.
Qed.

Lemma foldableQueuePaths_paths st p : paths_in st -> p ∈ foldableQueuePaths st -> P p.
Proof.
  intros Hst. unfold foldableQueuePaths. rewrite elem_of_app, !list_elem_of_In, !in_map_iff.
  intros [(r & <- & [Hr _]%filter_In)|(t & <- & Ht)].
  - apply Hst. by apply list_elem_of_In.
  - by apply (paths_folded _ Hst), list_elem_of_In.
Qed.

Lemma subtree_groups_paths st g : paths_in st -> g ∈ subtree_groups c st -> P (group_ancestor g).
Proof.
  intros Hst Hg. unfold subtree_groups in Hg. rewrite elem_of_sort in Hg.
  apply list_elem_of_In, filter_In in Hg as [Hg%list_elem_of_In _].
  assert (forall l groups, (forall p, p ∈ l -> P p) -> (forall g, g ∈ map_values groups -> P (group_ancestor g)) ->
    forall g, g ∈ map_values (fold_left (fun groups path => fold_left (push_subtree c path) (ancestorPaths path) groups) l groups)
    -> P (group_ancestor g)) as H.
  { induction l as [|p l IH]; intros groups Hl Hgr; cbn [fold_left]; [done|].
    apply IH; [intros; by apply Hl, list_elem_of_further|].
    apply push_subtree_paths; [done|]. intros a Ha. eapply ancestors_from_paths; [|exact Ha].
    apply P_parent, Hl, list_elem_of_here. }
  eapply H; [| |exact Hg]; [intros; by eapply foldableQueuePaths_paths|by intros ? ?%elem_of_nil].
Qed.

Lemma enforce_bound_paths st timestamp :
  inv c st -> overflowed st = false -> paths_in st -> paths_in (enforce_bound c st timestamp).
Proof.
  intros Hinv Hov Hst. unfold enforce_bound. destruct (overfull c st); [|done].
  assert (paths_in (foldSiblingRecordsIntoTargets c st)) as H1.
  { apply (fold_while_overfull_ind c _ (fun records => forall r, r ∈ records -> P (record_path r)) paths_in);
      [intros; by eapply sibling_groups_paths| |done]. intros. by apply fold_siblings_paths. }
  destruct (overfull c (foldSiblingRecordsIntoTargets c st)); [|done].
  assert (paths_in (foldSubtreeRecordsIntoTargets c (foldSiblingRecordsIntoTargets c st))) as H2.
  { apply (fold_while_overfull_ind c _ (fun g => P (group_ancestor g)) paths_in);
      [intros; by eapply subtree_groups_paths| |done]. intros. by apply fold_subtree_paths. }
  destruct (overfull c _); [|done]. split; cbn; [by intros ? ?%elem_of_nil..|apply H2].
Qed.

Lemma with_entries_paths st k r :
  paths_in st -> P (record_path r) -> paths_in (with_entries st (map_set (entries st) k r)).
Proof.
  intros [] Hr. split; cbn; [|done..]. intros r' [->|?]%elem_of_values_set; auto.
Qed.

Lemma mergeIntoFolded_paths st path kind st' :
  inv c st -> paths_in st -> mergeIntoFoldedTargetIfCovered c st path kind = Some st' -> paths_in st'.
Proof.
  intros Hinv Hst. unfold mergeIntoFoldedTargetIfCovered.
  destruct (findFoldedTargetCovering c st path) as [t|] eqn:E; [|done].
  apply findFoldedTargetCovering_spec in E as [Hget _]; [|done].
  destruct (_ && _); intros [= <-]; [|done]. apply setFoldedTarget_paths; [done| |done].
  by eapply paths_folded, map_get_Some_value.
Qed.

Lemma record_paths st e :
  inv c st -> paths_in st ->
  (forall p, repositoryRelativePath (scope c) (event_path e) = Some p -> P p) ->
  paths_in (snd (record c st e)).
Proof.
  intros Hinv Hst HP. unfold record. destruct (overflowed st) eqn:Hov; [done|].
  destruct (repositoryRelativePath (scope c) (event_path e)) as [p|]; [|done].
  specialize (HP p eq_refl). destruct p as [|a p']; [done|]. set (p := String a p') in *.
  destruct (mergeIntoFoldedTargetIfCovered c st p (event_kind e)) as [st1|] eqn:Em;
    [by eapply mergeIntoFolded_paths|].
  destruct (map_get (entries st) (comparisonKey (scope c) p)) as [r|] eqn:Eg; cbn [snd].
  - apply with_entries_paths; [done|]. cbn. by eapply paths_entries, map_get_Some_value.
  - apply enforce_bound_paths; [by apply with_entries_inv|done|by apply with_entries_paths].
Qed.

Lemma mergeTargets_paths st ts : paths_in st -> Forall target_ok ts -> paths_in (mergeTargets st ts).
Proof.
  intros [He Hf Hx] Hts. unfold mergeTargets. destruct (_ =? _)%nat; [done|].
  destruct (existsb _ _); [split; cbn; by intros ? ?%elem_of_nil|]. split; [done|done|].
  cbn [with_explicitTargets explicitTargets]. generalize dependent (explicitTargets st). intros m Hm.
  revert m Hm. induction Hts as [|t ts Ht Hts IH]; intros m Hm; cbn [fold_left]; [done|].
  apply IH. intros t' [->|?]%elem_of_values_set; auto.
Qed.

(** The held targets, through [toRefreshTargets]. *)
Lemma toRefreshTargets_paths st t :
  inv c st -> (forall p, P p -> path_ok p) -> paths_in st -> t ∈ toRefreshTargets st -> target_ok t.
Proof.
  intros Hinv HP Hst Ht. destruct (overflowed st) eqn:Hov.
  { unfold toRefreshTargets in Ht. rewrite Hov in Ht. by apply list_elem_of_singleton in Ht as ->. }
  rewrite (elem_of_toRefreshTargets c) in Ht by done. unfold held_targets in Ht.
  rewrite !elem_of_app, elem_of_record_targets in Ht. destruct Ht as [Ht|[Ht|(r & Hr & Ht)]].
  - by apply Hst.
  - apply (paths_folded _ Hst) in Ht as []. split; auto.
  - apply (paths_entries _ Hst) in Hr. pose proof (P_parent _ Hr) as Hpar.
    unfold targetsForRecord in Ht. repeat case_match; cbn in Ht;
      rewrite ?elem_of_cons, ?elem_of_nil in Ht; repeat destruct Ht as [->|Ht]; try done; split; cbn; auto; done.
Qed.
End Paths.

(** An operation with names the protocol can carry. *)
Definition op_portable (c : config) (o : op) : Prop :=
  match o with
  | Record_ e => forall p, repositoryRelativePath (scope c) (event_path e) = Some p -> p = "." \/ Forall portable_name (split p slash)
  | Merge ts => Forall target_ok ts
  end.

Lemma run_paths c ops st :
  inv c st -> paths_in portable_path st -> Forall op_ok ops -> Forall (op_portable c) ops ->
  paths_in portable_path (run c st ops).
Proof.
  intros Hinv Hst Hok Hport. revert st Hinv Hst. induction Hport as [|o ops Ho Hport IH]; intros st Hinv Hst; [done|].
  apply Forall_cons in Hok as [Hok1 Hok]. cbn [run fold_left]. apply IH; [done| |].
  - by apply (run_ok c [o] st Hinv); repeat constructor.
  - destruct o as [e|ts]; cbn [step]; [|by apply mergeTargets_paths].
    apply record_paths; [apply portable_parent|done|done|]. intros p Hp. split; [|by apply Ho].
    by eapply repositoryRelativePath_safe.
Qed.

(** ** Theorems *)

(** Dirty events turn into acceptable requests: whatever events were
    recorded and targets merged, with file names that are not blank and hold
    no ":" or NUL, the drained targets make a request that the refresh client
    validates and sends unchanged. *)
Theorem drained_request_valid (c : config) (ops : list op) (repositoryId : string) (epoch : Z) :
  Forall op_ok ops -> Forall (op_portable c) ops -> text_ok repositoryId -> count_ok epoch ->
  let ts := fst (drainToRefreshTargets (run c new_state ops)) in
  ts <> [] ->
  let request := {| request_repositoryId := repositoryId; request_epoch := epoch; request_targets := ts |} in
  RefreshClient.validateRefreshRequest (Some (encode_request request)) = Ok request.
Proof.
  intros Hok Hport Hid He ts Hne request. apply validateRefreshRequest_encode.
  split; [done|]. split; [done|]. split; [done|]. apply Forall_forall. intros t Ht.
  pose proof (run_ok c ops new_state (inv_new c) Hok) as (Hinv & _ & _).
  eapply (toRefreshTargets_paths c portable_path); [apply portable_parent|exact Hinv|apply portable_path_ok| |exact Ht].
  apply run_paths; [apply inv_new| |done|done]. split; cbn; by intros ? ?%elem_of_nil.
Qed.

(** The watcher's filter: an accepted event names a path of safe segments
    (no "", "." or "..", no backslash) strictly inside the working copy, not in
    ".svn", and outside every nested boundary root. *)
Theorem accepted_event_inside (scope : RepositoryWatchScope) (ep p : string) :
  repositoryRelativePath scope ep = Some p ->
  safe_path p /\ isSvnInternal scope p = false /\
  isInsideBoundary scope (normalizeAbsolutePath ep) = false /\
  (p = "." /\ comparisonKey scope (normalizeAbsolutePath ep)
              = comparisonKey scope (normalizeAbsolutePath (scope_workingCopyRoot scope))
   \/ exists root, comparisonKey scope root = comparisonKey scope (normalizeAbsolutePath (scope_workingCopyRoot scope))
        /\ normalizeAbsolutePath ep = root ++ "/" ++ p).
Proof.
  intros H. split; [by eapply repositoryRelativePath_safe|].
  apply repositoryRelativePath_inv in H as (_ & Hsvn & Hb & H). split; [done|]. split; [done|].
  destruct H as [?|(s1 & _ & Hc & Hk)]; [by left|right]. by exists s1.
Qed.

(** The path a raw event gets when it goes through the watcher's filter and
    then through the dirty-path set's. *)
Definition watched_path (scope : RepositoryWatchScope) (raw : RawWatcherEvent) : option string :=
  event ← WatcherEvents.normalizeWatcherEvent scope raw;
  repositoryRelativePath scope (event_path event).

Lemma relative_normalized scope p : repositoryRelativePath scope (normalizeAbsolutePath p) = repositoryRelativePath scope p.
Proof. unfold repositoryRelativePath. by rewrite normalizeAbsolutePath_idem. Qed.

(** C39: The watcher and the dirty-path set, which each have their own copy of the
    path functions, agree: an event that [normalizeWatcherEvent] passes on is one
    [record] accepts, for the path it would have had without the watcher, and an
    event it drops is one [record] would refuse; what is passed on keeps its kind
    and time.  For paths of the characters U+0000 to U+00FF. *)
Theorem watcher_agrees (scope : RepositoryWatchScope) (raw : RawWatcherEvent) :
  watched_path scope raw = repositoryRelativePath scope (raw_fsPath raw) /\
  (is_Some (WatcherEvents.normalizeWatcherEvent scope raw) <-> is_Some (repositoryRelativePath scope (raw_fsPath raw))) /\
  (forall event, WatcherEvents.normalizeWatcherEvent scope raw = Some event ->
     event_timestamp event = raw_timestamp raw /\
     match raw_kind raw, event_kind event with Created, KCreate | Changed, KChange | Deleted, KDelete => True | _, _ => False end).
Proof.
  unfold watched_path. rewrite watcher_event_spec. destruct (repositoryRelativePath scope (raw_fsPath raw)) as [p|] eqn:E; cbn.
  - rewrite relative_normalized, E. split; [done|]. split; [split; intros _; by eexists|]. intros event [= <-]. cbn. by destruct (raw_kind raw).
  - split; [done|]. split; [split; by intros []|done].
Qed.

(** ** Concrete runs *)

Definition sample_scope : RepositoryWatchScope :=
  {| scope_repositoryId := "r1"; scope_epoch := 1; scope_workingCopyRoot := "/wc";
     scope_pathCase := CaseSensitive; scope_boundaryRoots := ["/wc/ext"] |}.
Definition sample_config : config := new_config sample_scope (Some 2%Z).
Definition sample_event (path : string) (kind : FileEventKind) : op :=
  Record_ {| event_path := path; event_kind := kind; event_timestamp := 7 |}.

(** A file whose name holds a ":" (legal outside Windows) is accepted by the
    watcher and the dirty-path set, and makes a request the client refuses. *)
Example colon_name_refused :
  let ts := fst (drainToRefreshTargets (run sample_config new_state [sample_event "/wc/a:b" KChange])) in
  ts = [selfTarget "a:b" "fileChanged"] /\
  RefreshClient.validateRefreshRequest (Some (encode_request
    {| request_repositoryId := "r1"; request_epoch := 1; request_targets := ts |}))
  = Throw (RefreshClient.invalidRefreshRequest "targets.0.path").
Proof. by vm_compute. Qed.

(** A rename asks for a full reconcile, and both folds skip rename records,
    but a subtree fold deletes the ones below its ancestor. *)
Example rename_reconcile_dropped :
  toRefreshTargets (run sample_config new_state [sample_event "/wc/a/x" KRename])
  = [{| target_path := "."; target_depth := DInfinity; target_reason := "manualFullReconcile" |}] /\
  toRefreshTargets (run sample_config new_state
    [sample_event "/wc/a/x" KRename; sample_event "/wc/a/b/1" KChange; sample_event "/wc/a/c/2" KChange])
  = [{| target_path := "a"; target_depth := DInfinity; target_reason := "dirtyPathSubtreeFold" |}].
Proof. by vm_compute. Qed.
