(* ===== verification/ScmResources.v ===== *)
(** The source-control projection: scm/resourceStateClassifier.ts and
    scm/sourceControlResourceStore.ts.

    [SourceControlResourceStore] turns status entries into the resource groups
    of the source-control view and keeps them up to date under deltas.  The
    resource objects it shares between its maps, and the entries it holds, are
    never written after they are built, so they are values here and
    [cloneStatusEntry], [cloneProjectedResource] and [cloneFreshness] are the
    identity.  [localeCompare] is the host's collation, a parameter: with the
    "en-US" locale ([localeCompareEn]) and with the default one. *)

From Stdlib Require Import ZArith Ascii String List.
From stdpp Require Import base option list strings.
From S2P Require Import Prelude JsString JsMap JsValue JsUri StatusTypes Paths.

Local Open Scope string_scope.

(** ** scm/resourceStateClassifier.ts *)

Record ScmResourceClassification := {
  class_groupId : string;
  class_contextValue : string;
  class_tooltipKey : string;
}.

Definition NEUTRAL_STATUS_TOKENS : list string := ["none"; "normal"; "notChecked"].
Definition KNOWN_LOCAL_CHANGE_STATUS_TOKENS : list string :=
  ["added"; "missing"; "deleted"; "replaced"; "modified"; "merged"; "obstructed"; "incomplete"].

(** [tooltipKind = resourceKind] when the argument is left out. *)
Definition classification (groupId resourceKind : string) (tooltipKind : option string) : ScmResourceClassification :=
  {| class_groupId := groupId;
     class_contextValue := "subversionr." ++ resourceKind;
     class_tooltipKey := "scm.resource." ++ default resourceKind tooltipKind |}.

Definition hasConflict (entry : StatusEntry) : bool :=
  negb (bool_decide (entry_conflict entry = None))
  || bool_decide (entry_localStatus entry = "conflicted")
  || bool_decide (entry_nodeStatus entry = "conflicted")
  || bool_decide (entry_textStatus entry = "conflicted")
  || bool_decide (entry_propertyStatus entry = "conflicted").

Definition isActionableStatus (status : string) : bool := negb (set_has NEUTRAL_STATUS_TOKENS status).
Definition isKnownLocalChangeStatus (status : string) : bool := set_has KNOWN_LOCAL_CHANGE_STATUS_TOKENS status.

Definition isSparseStatusDepth (depth : string) : bool :=
  bool_decide (depth = "empty") || bool_decide (depth = "files") || bool_decide (depth = "immediates").

Definition hasWorkingCopyMetadataStatus (entry : StatusEntry) : bool :=
  entry_switched entry || negb (bool_decide (entry_lock entry = None)) || entry_needsLock entry
  || isSparseStatusDepth (entry_depth entry).

Definition changedResourceKind (entry : StatusEntry) : string :=
  if bool_decide (entry_kind entry = "file") then "changedFile" else "changedDirectory".

Definition CHANGELIST_PREFIX : string := "changelist:".
Definition changelistResourceGroupId (changelist : string) : string :=
  CHANGELIST_PREFIX ++ encodeURIComponent changelist.
Definition isChangelistResourceGroupId (groupId : string) : bool := startsWith groupId CHANGELIST_PREFIX.
Definition changelistNameFromResourceGroupId (groupId : string) : result string :=
  decodeURIComponent (slice_from (String.length CHANGELIST_PREFIX) groupId).

Definition any_status (f : string -> bool) (entry : StatusEntry) : bool :=
  f (entry_localStatus entry) || f (entry_nodeStatus entry) || f (entry_textStatus entry)
  || f (entry_propertyStatus entry).

Definition classifyLocalStatusEntry (entry : StatusEntry) : option ScmResourceClassification :=
  if hasConflict entry then Some (classification "conflicts" "conflicted" None)
  else if entry_external entry then Some (classification "externals" "external" None)
  else if bool_decide (entry_localStatus entry = "ignored") then Some (classification "ignored" "ignored" None)
  else if bool_decide (entry_localStatus entry = "unversioned") then
    Some (classification "unversioned" "unversioned" None)
  else if any_status isKnownLocalChangeStatus entry then
    match entry_changelist entry with
    | Some changelist =>
        Some (classification (changelistResourceGroupId changelist) (changedResourceKind entry) (Some "changed"))
    | None => Some (classification "changes" (changedResourceKind entry) (Some "changed"))
    end
  else if any_status isActionableStatus entry then Some (classification "changes" "changedUnknown" None)
  else if hasWorkingCopyMetadataStatus entry then Some (classification "metadata" "workingCopyMetadata" None)
  else None.

Definition classifyRemoteStatusEntry (entry : StatusEntry) : option ScmResourceClassification :=
  if negb (isActionableStatus (entry_remoteStatus entry)) then None
  else Some (classification "incoming"
    (if bool_decide (entry_kind entry = "file") then "incomingFile" else "incoming") (Some "incoming")).

(** ** scm/sourceControlResourceStore.ts *)
Module SourceControlResourceStore.

Definition SCM_RESOURCE_GROUP_IDS : list string :=
  ["conflicts"; "conflictArtifacts"; "changes"; "unversioned"; "metadata"; "incoming"; "externals"; "ignored"].

Record SourceControlProjectionRepository := {
  repo_repositoryId : string;
  repo_epoch : Z;
  repo_workingCopyRoot : string;
}.

Record SourceControlCountPolicy := {
  countUnversioned : bool;
  ignoreChangelistsInCount : list string;
}.

Inductive ResourceSource := Local_ | Remote_.
Definition source_name (s : ResourceSource) : string :=
  match s with Local_ => "local" | Remote_ => "remote" end.

Record ScmProjectedResource := {
  res_key : string;
  res_repositoryId : string;
  res_path : string;
  res_source : ResourceSource;
  res_groupId : string;
  res_contextValue : string;
  res_tooltipKey : string;
  res_entry : StatusEntry;
}.

Record ScmProjectedResourceGroup := {
  group_id : string;
  group_labelKey : string;
  group_changelist : option string;
  group_resources : list ScmProjectedResource;
}.

Inductive ScmProjectionRefreshKind := RSnapshot | RDelta | RStale.

Record ScmProjectionFreshness := {
  repositoryCompleteness : StatusSnapshotCompleteness;
  lastRefreshCompleteness : StatusSnapshotCompleteness;
  lastRefreshKind : ScmProjectionRefreshKind;
}.

Record ScmRepositoryProjection := {
  proj_repositoryId : string;
  proj_epoch : Z;
  proj_workingCopyRoot : string;
  proj_generation : Z;
  proj_freshness : ScmProjectionFreshness;
  proj_count : nat;
  proj_groups : list ScmProjectedResourceGroup;
}.

Record ScmCommitAllTarget := {
  commit_path : string;
  commit_changelist : option string;
  commit_status : string;
  commit_directory : string;
}.

Record ScmCommitAllTargets := {
  all_repositoryId : string;
  all_epoch : Z;
  all_workingCopyRoot : string;
  all_generation : Z;
  all_hasConflicts : bool;
  all_targets : list ScmCommitAllTarget;
}.

Record ScmProjectedResourceLookup := {
  lookup_repositoryId : string;
  lookup_epoch : Z;
  lookup_workingCopyRoot : string;
  lookup_generation : Z;
  lookup_resource : ScmProjectedResource;
}.

(** The local entries with the two artifact indexes, as one field group. *)
Record LocalEntries := {
  localEntriesByPath : list (string * StatusEntry);
  conflictArtifactPathsByOwner : list (string * list string);
  conflictArtifactOwnersByPath : list (string * list string);
}.

(** The projected resources and the maps they are shared between. *)
Record Projected := {
  localResourcesByPath : list (string * ScmProjectedResource);
  localResourcesByCaseInsensitivePath : list (string * ScmProjectedResource);
  remoteResourcesByPath : list (string * ScmProjectedResource);
  groups : list (string * list (string * ScmProjectedResource));
}.

Record RepositoryProjectionState := {
  ps_repositoryId : string;
  ps_epoch : Z;
  ps_workingCopyRoot : string;
  ps_generation : option Z;
  ps_freshness : option ScmProjectionFreshness;
  ps_entries : LocalEntries;
  ps_projected : Projected;
}.

Record store := {
  repositories : list (string * RepositoryProjectionState);
  countPolicy : SourceControlCountPolicy;
}.

(** *** Errors *)
Definition storeError (code category messageKey : string) (args : list (string * safe_arg)) : js_error :=
  StructuredError "SourceControlResourceStoreError" code category messageKey args.
Definition storeInputError (f : string) : js_error :=
  storeError "SUBVERSIONR_SCM_PROJECTION_INPUT_INVALID" "input" "error.scm.projectionInputInvalid"
    [("field", ArgString f)].
Definition alreadyRegistered (id : string) : js_error :=
  storeError "SUBVERSIONR_SCM_PROJECTION_REPOSITORY_ALREADY_REGISTERED" "lifecycle"
    "error.scm.projectionRepositoryAlreadyRegistered" [("repositoryId", ArgString id)].
Definition notRegistered (id : string) : js_error :=
  storeError "SUBVERSIONR_SCM_PROJECTION_REPOSITORY_NOT_REGISTERED" "lifecycle"
    "error.scm.projectionRepositoryNotRegistered" [("repositoryId", ArgString id)].
Definition generationStale (code id : string) (current actual : Z) : js_error :=
  storeError code "lifecycle" "error.scm.projectionGenerationStale"
    [("repositoryId", ArgString id); ("current", ArgNumber current); ("actual", ArgNumber actual)].
Definition stateUninitialized (id : string) : js_error :=
  storeError "SUBVERSIONR_SCM_PROJECTION_STATE_UNINITIALIZED" "lifecycle"
    "error.scm.projectionStateUninitialized" [("repositoryId", ArgString id)].
Definition freshnessUninitialized (id : string) : js_error :=
  storeError "SUBVERSIONR_SCM_PROJECTION_FRESHNESS_UNINITIALIZED" "lifecycle"
    "error.scm.projectionFreshnessUninitialized" [("repositoryId", ArgString id)].
Definition commitAllTargetInvalid (id path : string) : js_error :=
  storeError "SUBVERSIONR_SCM_PROJECTION_COMMIT_ALL_TARGET_INVALID" "lifecycle"
    "error.scm.projectionCommitAllTargetInvalid" [("repositoryId", ArgString id); ("path", ArgString path)].

Inductive EpochSource := ESnapshot | EDelta | EStale.
Definition projectionEpochMismatchCode (source : EpochSource) : string :=
  match source with
  | ESnapshot => "SUBVERSIONR_SCM_PROJECTION_SNAPSHOT_EPOCH_MISMATCH"
  | EDelta => "SUBVERSIONR_SCM_PROJECTION_DELTA_EPOCH_MISMATCH"
  | EStale => "SUBVERSIONR_SCM_PROJECTION_STALE_EPOCH_MISMATCH"
  end.
Definition epochMismatch (source : EpochSource) (id : string) (expected actual : Z) : js_error :=
  storeError (projectionEpochMismatchCode source) "lifecycle" "error.scm.projectionEpochMismatch"
    [("repositoryId", ArgString id); ("expected", ArgNumber expected); ("actual", ArgNumber actual)].

(** *** The local entries and their conflict artifacts *)

(** [owners.add(owner)], creating the set when [artifact] has none. *)
Definition add_owner (owner : string) (m : list (string * list string)) (artifact : string) :=
  map_set m artifact (set_add (default [] (map_get m artifact)) owner).

Definition addConflictArtifactOwner (le : LocalEntries) (entry : StatusEntry) : LocalEntries :=
  if (length (entry_conflictArtifacts entry) =? 0)%nat then le
  else
    let artifacts := set_of (entry_conflictArtifacts entry) in
    {| localEntriesByPath := localEntriesByPath le;
       conflictArtifactPathsByOwner := map_set (conflictArtifactPathsByOwner le) (entry_path entry) artifacts;
       conflictArtifactOwnersByPath :=
         fold_left (add_owner (entry_path entry)) artifacts (conflictArtifactOwnersByPath le) |}.

(** [owners?.delete(path); if (owners?.size === 0) ...delete(artifactPath)] *)
Definition remove_owner (owner : string) (m : list (string * list string)) (artifact : string) :=
  match map_get m artifact with
  | None => m
  | Some owners =>
      let owners' := set_delete owners owner in
      if (length owners' =? 0)%nat then map_delete m artifact else map_set m artifact owners'
  end.

(** With the affected paths it adds. *)
Definition removeLocalEntry (acc : LocalEntries * list string) (path : string) : LocalEntries * list string :=
  let (le, affectedPaths) := acc in
  let affectedPaths := set_add affectedPaths path in
  match map_get (conflictArtifactPathsByOwner le) path with
  | None =>
      ({| localEntriesByPath := map_delete (localEntriesByPath le) path;
          conflictArtifactPathsByOwner := conflictArtifactPathsByOwner le;
          conflictArtifactOwnersByPath := conflictArtifactOwnersByPath le |}, affectedPaths)
  | Some artifacts =>
      ({| localEntriesByPath := map_delete (localEntriesByPath le) path;
          conflictArtifactPathsByOwner := map_delete (conflictArtifactPathsByOwner le) path;
          conflictArtifactOwnersByPath :=
            fold_left (remove_owner path) artifacts (conflictArtifactOwnersByPath le) |},
       fold_left set_add artifacts affectedPaths)
  end.

(** The body of the loop over [delta.upsert]. *)
Definition upsertLocalEntry (acc : LocalEntries * list string) (entry : StatusEntry) : LocalEntries * list string :=
  let (le, affectedPaths) := removeLocalEntry acc (entry_path entry) in
  let le := {| localEntriesByPath := map_set (localEntriesByPath le) (entry_path entry) entry;
               conflictArtifactPathsByOwner := conflictArtifactPathsByOwner le;
               conflictArtifactOwnersByPath := conflictArtifactOwnersByPath le |} in
  (addConflictArtifactOwner le entry,
   fold_left set_add (entry_conflictArtifacts entry) (set_add affectedPaths (entry_path entry))).

(** *** The projected resources *)

Definition caseInsensitivePath (path : string) : string := toLocaleLowerCase path.

Definition projectedResource (repositoryId : string) (source : ResourceSource) (entry : StatusEntry)
    (c : ScmResourceClassification) : ScmProjectedResource :=
  {| res_key := source_name source ++ ":" ++ entry_path entry;
     res_repositoryId := repositoryId;
     res_path := entry_path entry;
     res_source := source;
     res_groupId := class_groupId c;
     res_contextValue := class_contextValue c;
     res_tooltipKey := class_tooltipKey c;
     res_entry := entry |}.

Definition emptyGroupMaps : list (string * list (string * ScmProjectedResource)) :=
  map_of (map (fun groupId => (groupId, [])) SCM_RESOURCE_GROUP_IDS).

Definition upsertGroupResource (gs : list (string * list (string * ScmProjectedResource)))
    (resource : ScmProjectedResource) :=
  map_set gs (res_groupId resource)
    (map_set (default [] (map_get gs (res_groupId resource))) (res_key resource) resource).

(** [state.groups.get(groupId)?.delete(key)] *)
Definition deleteGroupResource (gs : list (string * list (string * ScmProjectedResource)))
    (groupId key : string) :=
  match map_get gs groupId with
  | None => gs
  | Some group => map_set gs groupId (map_delete group key)
  end.

Definition upsertProjectedLocalEntry (repositoryId : string) (pr : Projected) (entry : StatusEntry)
    (c : ScmResourceClassification) : Projected :=
  let resource := projectedResource repositoryId Local_ entry c in
  {| localResourcesByPath := map_set (localResourcesByPath pr) (entry_path entry) resource;
     localResourcesByCaseInsensitivePath :=
       map_set (localResourcesByCaseInsensitivePath pr) (caseInsensitivePath (entry_path entry)) resource;
     remoteResourcesByPath := remoteResourcesByPath pr;
     groups := upsertGroupResource (groups pr) resource |}.

Definition upsertRemoteEntry (repositoryId : string) (pr : Projected) (entry : StatusEntry) : Projected :=
  match classifyRemoteStatusEntry entry with
  | None => pr
  | Some c =>
      let resource := projectedResource repositoryId Remote_ entry c in
      {| localResourcesByPath := localResourcesByPath pr;
         localResourcesByCaseInsensitivePath := localResourcesByCaseInsensitivePath pr;
         remoteResourcesByPath := map_set (remoteResourcesByPath pr) (entry_path entry) resource;
         groups := upsertGroupResource (groups pr) resource |}
  end.

Definition removeProjectedLocalPath (pr : Projected) (path : string) : Projected :=
  match map_get (localResourcesByPath pr) path with
  | None => pr
  | Some existing =>
      {| localResourcesByPath := map_delete (localResourcesByPath pr) path;
         localResourcesByCaseInsensitivePath :=
           map_delete (localResourcesByCaseInsensitivePath pr) (caseInsensitivePath (res_path existing));
         remoteResourcesByPath := remoteResourcesByPath pr;
         groups := deleteGroupResource (groups pr) (res_groupId existing) (res_key existing) |}
  end.

Definition removeRemotePath (pr : Projected) (path : string) : Projected :=
  match map_get (remoteResourcesByPath pr) path with
  | None => pr
  | Some existing =>
      {| localResourcesByPath := localResourcesByPath pr;
         localResourcesByCaseInsensitivePath := localResourcesByCaseInsensitivePath pr;
         remoteResourcesByPath := map_delete (remoteResourcesByPath pr) path;
         groups := deleteGroupResource (groups pr) (res_groupId existing) (res_key existing) |}
  end.

Definition emptyProjected : Projected :=
  {| localResourcesByPath := []; localResourcesByCaseInsensitivePath := [];
     remoteResourcesByPath := []; groups := emptyGroupMaps |}.
Definition emptyEntries : LocalEntries :=
  {| localEntriesByPath := []; conflictArtifactPathsByOwner := []; conflictArtifactOwnersByPath := [] |}.

(** The entry shown for a conflict artifact of [owner]. *)
Definition artifactEntry (owner : StatusEntry) (path : string) : StatusEntry :=
  {| entry_path := path; entry_kind := "file"; entry_nodeStatus := entry_nodeStatus owner;
     entry_textStatus := entry_textStatus owner; entry_propertyStatus := entry_propertyStatus owner;
     entry_localStatus := entry_localStatus owner; entry_remoteStatus := entry_remoteStatus owner;
     entry_revision := entry_revision owner; entry_changedRevision := entry_changedRevision owner;
     entry_changedAuthor := entry_changedAuthor owner; entry_changedDate := entry_changedDate owner;
     entry_changelist := entry_changelist owner; entry_lock := entry_lock owner;
     entry_needsLock := entry_needsLock owner; entry_copy := entry_copy owner; entry_move := entry_move owner;
     entry_switched := entry_switched owner; entry_depth := entry_depth owner;
     entry_conflict := entry_conflict owner; entry_conflictArtifacts := [];
     entry_external := entry_external owner; entry_generation := entry_generation owner |}.

Definition artifactClassification : ScmResourceClassification :=
  {| class_groupId := "conflictArtifacts"; class_contextValue := "subversionr.conflictArtifact";
     class_tooltipKey := "scm.resource.conflictArtifact" |}.

(** *** Counting *)
Definition isLocalChangeGroup (groupId : string) : bool :=
  bool_decide (groupId = "changes") || isChangelistResourceGroupId groupId.

Definition isCountedLocalChangeResource (resource : ScmProjectedResource) : bool :=
  isLocalChangeGroup (res_groupId resource)
  && negb (bool_decide (res_contextValue resource = "subversionr.workingCopyMetadata")).

Definition changelist_in (l : list string) (entry : StatusEntry) : bool :=
  match entry_changelist entry with Some changelist => set_has l changelist | None => false end.

(** Whether the loop of [projectionCount] counts [resource]. *)
Definition isCounted (policy : SourceControlCountPolicy) (resource : ScmProjectedResource) : bool :=
  if entry_external (res_entry resource) || bool_decide (entry_localStatus (res_entry resource) = "ignored") then false
  else if changelist_in (set_of (ignoreChangelistsInCount policy)) (res_entry resource) then false
  else if bool_decide (res_groupId resource = "conflicts") || isCountedLocalChangeResource resource then true
  else bool_decide (res_groupId resource = "unversioned") && countUnversioned policy.

Definition projectionCount (pr : Projected) (policy : SourceControlCountPolicy) : nat :=
  length (List.filter (isCounted policy) (map_values (localResourcesByPath pr))).

(** *** Commit-all targets *)
Definition isCommitAllCandidate (resource : ScmProjectedResource) (ignoredChangelists : list string) : bool :=
  match res_source resource with Local_ => true | Remote_ => false end
  && isLocalChangeGroup (res_groupId resource)
  && bool_decide (res_contextValue resource = "subversionr.changedFile")
  && bool_decide (entry_kind (res_entry resource) = "file")
  && negb (entry_external (res_entry resource))
  && negb (bool_decide (entry_localStatus (res_entry resource) = "ignored"))
  && negb (changelist_in ignoredChangelists (res_entry resource)).

Definition commitAllTargetStatus (entry : StatusEntry) : string :=
  match List.find (fun status => negb (bool_decide (status = "none")) && negb (bool_decide (status = "normal"))
                                 && negb (bool_decide (status = "notChecked")))
          [entry_localStatus entry; entry_nodeStatus entry; entry_textStatus entry; entry_propertyStatus entry] with
  | Some status => status
  | None => entry_localStatus entry
  end.

Definition repositoryRelativeParentDirectory (path : string) : string :=
  match lastIndexOf path slash with
  | None => "."
  | Some index => slice_to index path
  end.

(** [parts.some((part) => ...)] of both path checks. *)
Definition hasUnsafePart (path : string) : bool :=
  existsb (fun part => bool_decide (part = "") || bool_decide (part = ".") || bool_decide (part = ".."))
    (split path slash).

Definition isRepositoryRelativeCommitPath (path : string) : bool :=
  if bool_decide (trim path = "") || includes path backslash || startsWith path "/" || endsWith path slash
  then false
  else negb (hasUnsafePart path).

Definition isRepositoryRelativeLookupPath (path : string) : bool :=
  if bool_decide (path = ".") || bool_decide (trim path = "") || includes path backslash
     || startsWith path "/" || endsWith path slash
  then false
  else negb (hasUnsafePart path).

Definition commitAllTargetFromResource (repositoryId : string) (resource : ScmProjectedResource) : result ScmCommitAllTarget :=
  if negb (isRepositoryRelativeCommitPath (res_path resource)) then
    Throw (commitAllTargetInvalid repositoryId (res_path resource))
  else Ok {| commit_path := res_path resource;
             commit_changelist := entry_changelist (res_entry resource);
             commit_status := commitAllTargetStatus (res_entry resource);
             commit_directory := repositoryRelativeParentDirectory (res_path resource) |}.

Definition requireFreshness (state : RepositoryProjectionState) : result ScmProjectionFreshness :=
  match ps_freshness state with
  | Some freshness => Ok freshness
  | None => Throw (freshnessUninitialized (ps_repositoryId state))
  end.

Definition freshnessAfterDelta (current : ScmProjectionFreshness) (deltaCompleteness : StatusSnapshotCompleteness)
    : ScmProjectionFreshness :=
  {| repositoryCompleteness :=
       match deltaCompleteness with Partial => repositoryCompleteness current | _ => deltaCompleteness end;
     lastRefreshCompleteness := deltaCompleteness;
     lastRefreshKind := RDelta |}.

(** [typeof countPolicy.countUnversioned !== "boolean"] and so on: the options
    come from the user's configuration. *)
Definition validateCountPolicy (countUnversioned_ ignoreChangelistsInCount_ : option js_value)
    : result SourceControlCountPolicy :=
  match countUnversioned_ with
  | Some (VBool b) =>
    match ignoreChangelistsInCount_ with
    | Some (VArr items) =>
      changelists ← mapi (fun index item =>
        let e := storeInputError ("countPolicy.ignoreChangelistsInCount." ++ decimal index) in
        match item with
        | VStr changelist => if bool_decide (trim changelist = "") then Throw e else Ok changelist
        | _ => Throw e
        end) items;
      Ok {| countUnversioned := b; ignoreChangelistsInCount := changelists |}
    | _ => Throw (storeInputError "countPolicy.ignoreChangelistsInCount")
    end
  | _ => Throw (storeInputError "countPolicy.countUnversioned")
  end.

(** *** Operations *)
Section Operations.
Variable localeCompareEn localeCompare : string -> string -> comparison.

Definition comparePaths : string -> string -> comparison := localeCompareEn.

Definition sortedResources (resources : list (string * ScmProjectedResource)) : list ScmProjectedResource :=
  sort (fun left right =>
      or_else (localeCompare (res_path left) (res_path right))
        (localeCompare (source_name (res_source left)) (source_name (res_source right))))
    (map_values resources).

(** The entry of the owner an artifact at [path] is shown for. *)
Definition ownerEntry (le : LocalEntries) (path : string) : option StatusEntry :=
  match (owners ← map_get (conflictArtifactOwnersByPath le) path; head (sort comparePaths owners)) with
  | None | Some "" => None
  | Some ownerPath => map_get (localEntriesByPath le) ownerPath
  end.

Definition projectLocalPath (repositoryId : string) (le : LocalEntries) (pr : Projected) (path : string) : Projected :=
  match ownerEntry le path with
  | Some owner => upsertProjectedLocalEntry repositoryId pr (artifactEntry owner path) artifactClassification
  | None =>
    match map_get (localEntriesByPath le) path with
    | None => pr
    | Some entry =>
      match classifyLocalStatusEntry entry with
      | None => pr
      | Some c => upsertProjectedLocalEntry repositoryId pr entry c
      end
    end
  end.

Definition fixedProjectionGroup (pr : Projected) (groupId : string) : ScmProjectedResourceGroup :=
  {| group_id := groupId; group_labelKey := "scm.group." ++ groupId; group_changelist := None;
     group_resources := sortedResources (default [] (map_get (groups pr) groupId)) |}.

(** The comparator decodes the ids it compares; a malformed one would throw
    there, and does in the last [map]. *)
Definition changelistProjectionGroups (pr : Projected) : result (list ScmProjectedResourceGroup) :=
  let listed := List.filter (fun g => isChangelistResourceGroupId (fst g) && negb (map_size (snd g) =? 0)%nat) (groups pr) in
  named ← mapi (fun _ g => name ← changelistNameFromResourceGroupId (fst g); Ok (name, g)) listed;
  Ok (map (fun ng : string * (string * list (string * ScmProjectedResource)) =>
        {| group_id := fst (snd ng); group_labelKey := "scm.group.changelist";
           group_changelist := Some (fst ng); group_resources := sortedResources (snd (snd ng)) |})
      (sort (fun left right => localeCompareEn (fst left) (fst right)) named)).

Definition projectionGroupsFromState (pr : Projected) : result (list ScmProjectedResourceGroup) :=
  changelists ← changelistProjectionGroups pr;
  Ok (([fixedProjectionGroup pr "conflicts"; fixedProjectionGroup pr "conflictArtifacts"]
       ++ changelists
       ++ [fixedProjectionGroup pr "changes"; fixedProjectionGroup pr "unversioned";
           fixedProjectionGroup pr "metadata"; fixedProjectionGroup pr "incoming";
           fixedProjectionGroup pr "externals"; fixedProjectionGroup pr "ignored"])%list).

Definition projectionFromState (state : RepositoryProjectionState) (policy : SourceControlCountPolicy)
    : result ScmRepositoryProjection :=
  match ps_generation state with
  | None => Throw (stateUninitialized (ps_repositoryId state))
  | Some generation =>
    freshness ← requireFreshness state;
    gs ← projectionGroupsFromState (ps_projected state);
    Ok {| proj_repositoryId := ps_repositoryId state; proj_epoch := ps_epoch state;
          proj_workingCopyRoot := ps_workingCopyRoot state; proj_generation := generation;
          proj_freshness := freshness; proj_count := projectionCount (ps_projected state) policy;
          proj_groups := gs |}
  end.

Definition commitAllTargetsFromState (state : RepositoryProjectionState) (policy : SourceControlCountPolicy)
    : result ScmCommitAllTargets :=
  match ps_generation state with
  | None => Throw (stateUninitialized (ps_repositoryId state))
  | Some generation =>
    let ignoredChangelists := set_of (ignoreChangelistsInCount policy) in
    let pr := ps_projected state in
    let changes := sortedResources (map_of (map (fun resource => (res_key resource, resource))
      (List.filter (fun resource => isLocalChangeGroup (res_groupId resource)) (map_values (localResourcesByPath pr))))) in
    targets ← mapi (fun _ resource => commitAllTargetFromResource (ps_repositoryId state) resource)
      (List.filter (fun resource => isCommitAllCandidate resource ignoredChangelists) changes);
    Ok {| all_repositoryId := ps_repositoryId state; all_epoch := ps_epoch state;
          all_workingCopyRoot := ps_workingCopyRoot state; all_generation := generation;
          all_hasConflicts := negb (map_size (default [] (map_get (groups pr) "conflicts")) =? 0)%nat;
          all_targets := targets |}
  end.

(** Write the state object of [id] and return its projection. *)
Definition commit (id : string) (state : RepositoryProjectionState) : method store ScmRepositoryProjection :=
  st ← get_state;
  _ ← put_state {| repositories := map_set (repositories st) id state; countPolicy := countPolicy st |};
  lift_result (projectionFromState state (countPolicy st)).

Definition registerRepository (repository : SourceControlProjectionRepository) : method store unit :=
  st ← get_state;
  let id := repo_repositoryId repository in
  if negb (isNonEmptyString id) then throw_error (storeInputError "repositoryId")
  else if negb (isSafeInteger (repo_epoch repository)) || (repo_epoch repository <? 0)%Z then
    throw_error (storeInputError "epoch")
  else if negb (isNonEmptyString (repo_workingCopyRoot repository)) then throw_error (storeInputError "workingCopyRoot")
  else if map_has (repositories st) id then throw_error (alreadyRegistered id)
  else put_state {| repositories := map_set (repositories st) id
         {| ps_repositoryId := id; ps_epoch := repo_epoch repository;
            ps_workingCopyRoot := repo_workingCopyRoot repository; ps_generation := None;
            ps_freshness := None; ps_entries := emptyEntries; ps_projected := emptyProjected |};
       countPolicy := countPolicy st |}.

Definition unregisterRepository (repositoryId : string) : method store unit :=
  modify_state (fun st => {| repositories := map_delete (repositories st) repositoryId; countPolicy := countPolicy st |}).

(** [localEntriesByPath] and the artifact indexes of a snapshot. *)
Definition snapshotEntries (localEntries : list StatusEntry) : LocalEntries :=
  let byPath := map_of (map (fun entry => (entry_path entry, entry)) localEntries) in
  fold_left addConflictArtifactOwner (map_values byPath)
    {| localEntriesByPath := byPath; conflictArtifactPathsByOwner := []; conflictArtifactOwnersByPath := [] |}.

Definition applySnapshotToState (state : RepositoryProjectionState) (snapshot : StatusSnapshot) : RepositoryProjectionState :=
  let le := snapshotEntries (snapshot_localEntries snapshot) in
  let localPaths := set_of (map_keys (localEntriesByPath le) ++ map_keys (conflictArtifactOwnersByPath le))%list in
  let id := ps_repositoryId state in
  let pr1 := fold_left (projectLocalPath id le) localPaths emptyProjected in
  let pr2 := fold_left (upsertRemoteEntry id) (snapshot_remoteEntries snapshot) pr1 in
  {| ps_repositoryId := id; ps_epoch := ps_epoch state;
     ps_workingCopyRoot := identity_workingCopyRoot (snapshot_identity snapshot);
     ps_generation := Some (snapshot_generation snapshot);
     ps_freshness := Some {| repositoryCompleteness := snapshot_completeness snapshot;
                             lastRefreshCompleteness := snapshot_completeness snapshot;
                             lastRefreshKind := RSnapshot |};
     ps_entries := le; ps_projected := pr2 |}.

Definition requireRepository (repositoryId : string) : method store RepositoryProjectionState :=
  st ← get_state;
  match map_get (repositories st) repositoryId with
  | None => throw_error (notRegistered repositoryId)
  | Some state => mret state
  end.

Definition requireEpoch (state : RepositoryProjectionState) (actual : Z) (source : EpochSource) : result unit :=
  require (ps_epoch state =? actual)%Z (epochMismatch source (ps_repositoryId state) (ps_epoch state) actual).

Definition SNAPSHOT_STALE : string := "SUBVERSIONR_SCM_PROJECTION_SNAPSHOT_GENERATION_STALE".

Definition requireNotOlder (state : RepositoryProjectionState) (actual : Z) : result unit :=
  match ps_generation state with
  | Some current => require (negb (actual <? current)%Z)
                      (generationStale SNAPSHOT_STALE (ps_repositoryId state) current actual)
  | None => Ok tt
  end.

Definition applySnapshot (snapshot : StatusSnapshot) : method store ScmRepositoryProjection :=
  state ← requireRepository (snapshot_repositoryId snapshot);
  _ ← lift_result (requireEpoch state (snapshot_epoch snapshot) ESnapshot);
  _ ← lift_result (requireNotOlder state (snapshot_generation snapshot));
  commit (snapshot_repositoryId snapshot) (applySnapshotToState state snapshot).

Definition with_epoch (state : RepositoryProjectionState) (epoch : Z) : RepositoryProjectionState :=
  {| ps_repositoryId := ps_repositoryId state; ps_epoch := epoch; ps_workingCopyRoot := ps_workingCopyRoot state;
     ps_generation := ps_generation state; ps_freshness := ps_freshness state;
     ps_entries := ps_entries state; ps_projected := ps_projected state |}.

Definition replaceSnapshot (snapshot : StatusSnapshot) : method store ScmRepositoryProjection :=
  state ← requireRepository (snapshot_repositoryId snapshot);
  _ ← lift_result (if (ps_epoch state =? snapshot_epoch snapshot)%Z
                   then requireNotOlder state (snapshot_generation snapshot) else Ok tt);
  commit (snapshot_repositoryId snapshot) (applySnapshotToState (with_epoch state (snapshot_epoch snapshot)) snapshot).

(** The loops of [applyDelta], up to the assignment of [generation]. *)
Definition deltaEntries (le : LocalEntries) (delta : StatusDelta) : LocalEntries * list string :=
  fold_left upsertLocalEntry (delta_upsert delta) (fold_left removeLocalEntry (delta_remove delta) (le, [])).

Definition deltaProjected (repositoryId : string) (pr : Projected) (le : LocalEntries) (affected : list string)
    (delta : StatusDelta) : Projected :=
  let pr1 := fold_left removeProjectedLocalPath affected pr in
  let pr2 := fold_left (projectLocalPath repositoryId le) affected pr1 in
  let pr3 := fold_left removeRemotePath (delta_remoteRemove delta) pr2 in
  fold_left (fun pr entry => upsertRemoteEntry repositoryId (removeRemotePath pr (entry_path entry)) entry)
    (delta_remoteUpsert delta) pr3.

Definition applyDeltaToState (state : RepositoryProjectionState) (delta : StatusDelta) : RepositoryProjectionState :=
  let (le, affected) := deltaEntries (ps_entries state) delta in
  {| ps_repositoryId := ps_repositoryId state; ps_epoch := ps_epoch state;
     ps_workingCopyRoot := ps_workingCopyRoot state; ps_generation := Some (delta_generation delta);
     ps_freshness := ps_freshness state; ps_entries := le;
     ps_projected := deltaProjected (ps_repositoryId state) (ps_projected state) le affected delta |}.

Definition with_freshness (state : RepositoryProjectionState) (freshness : ScmProjectionFreshness) : RepositoryProjectionState :=
  {| ps_repositoryId := ps_repositoryId state; ps_epoch := ps_epoch state; ps_workingCopyRoot := ps_workingCopyRoot state;
     ps_generation := ps_generation state; ps_freshness := Some freshness;
     ps_entries := ps_entries state; ps_projected := ps_projected state |}.

Definition applyDelta (delta : StatusDelta) : method store ScmRepositoryProjection :=
  let id := delta_repositoryId delta in
  state ← requireRepository id;
  _ ← lift_result (requireEpoch state (delta_epoch delta) EDelta);
  match ps_generation state with
  | None => throw_error (stateUninitialized (ps_repositoryId state))
  | Some current =>
    if (delta_generation delta <=? current)%Z then
      throw_error (generationStale "SUBVERSIONR_SCM_PROJECTION_DELTA_GENERATION_STALE"
        (ps_repositoryId state) current (delta_generation delta))
    else
      let state1 := applyDeltaToState state delta in
      _ ← modify_state (fun st => {| repositories := map_set (repositories st) id state1; countPolicy := countPolicy st |});
      freshness ← lift_result (requireFreshness state1);
      commit id (with_freshness state1 (freshnessAfterDelta freshness (delta_completeness delta)))
  end.

Definition markStale (mark : StatusStaleMark) : method store ScmRepositoryProjection :=
  state ← requireRepository (mark_repositoryId mark);
  _ ← lift_result (requireEpoch state (mark_epoch mark) EStale);
  match ps_generation state with
  | None => throw_error (stateUninitialized (ps_repositoryId state))
  | Some _ =>
      commit (mark_repositoryId mark) (with_freshness state
        {| repositoryCompleteness := Stale; lastRefreshCompleteness := Stale; lastRefreshKind := RStale |})
  end.

Definition getProjection (st : store) (repositoryId : string) : option (result ScmRepositoryProjection) :=
  match map_get (repositories st) repositoryId with
  | None => None
  | Some state =>
      match ps_generation state with
      | None => None
      | Some _ => Some (projectionFromState state (countPolicy st))
      end
  end.

Definition updateCountPolicy (countUnversioned_ ignoreChangelistsInCount_ : option js_value)
    : method store (list ScmRepositoryProjection) :=
  validatedPolicy ← lift_result (validateCountPolicy countUnversioned_ ignoreChangelistsInCount_);
  st ← get_state;
  projections ← lift_result (mapi (fun _ state => projectionFromState state validatedPolicy)
    (List.filter (fun state => negb (bool_decide (ps_generation state = None))) (map_values (repositories st))));
  _ ← put_state {| repositories := repositories st; countPolicy := validatedPolicy |};
  mret projections.

Definition getProjectedResource (st : store) (repositoryId path : string) (pathCase : PathCasePolicy)
    : option ScmProjectedResourceLookup :=
  state ← map_get (repositories st) repositoryId;
  generation ← ps_generation state;
  if negb (isRepositoryRelativeLookupPath path) then None
  else
    resource ← match pathCase with
               | CaseInsensitive => map_get (localResourcesByCaseInsensitivePath (ps_projected state)) (caseInsensitivePath path)
               | CaseSensitive => map_get (localResourcesByPath (ps_projected state)) path
               end;
    Some {| lookup_repositoryId := ps_repositoryId state; lookup_epoch := ps_epoch state;
            lookup_workingCopyRoot := ps_workingCopyRoot state; lookup_generation := generation;
            lookup_resource := resource |}.

Definition getCommitAllTargets (st : store) (repositoryId : string) : option (result ScmCommitAllTargets) :=
  match map_get (repositories st) repositoryId with
  | None => None
  | Some state =>
      match ps_generation state with
      | None => None
      | Some _ => Some (commitAllTargetsFromState state (countPolicy st))
      end
  end.
End Operations.

End SourceControlResourceStore.
