(* ===== verification/ScmFacts.v ===== *)
(** Facts about the source-control resource store: its entries and indexes, and the
    projection made of them. *)

From Stdlib Require Import ZArith Lia Ascii String List.
From stdpp Require Import base option list strings sets.
From S2P Require Import Prelude JsString JsMap JsUri StatusTypes ScmResources.

Import SourceControlResourceStore.
Local Open Scope string_scope.

(** The entries as a function of the path. *)
Definition entry_at (le : LocalEntries) (p : string) : option StatusEntry := map_get (localEntriesByPath le) p.
(** A missing set of an index is the empty one. *)
Definition index_of (m : list (string * list string)) (a : string) : list string := default [] (map_get m a).
#[global] Arguments index_of : simpl never.
Definition owners_of (le : LocalEntries) (a : string) : list string :=
  index_of (conflictArtifactOwnersByPath le) a.
Definition artifacts_at (le : LocalEntries) (o : string) : list string :=
  match entry_at le o with Some e => entry_conflictArtifacts e | None => [] end.

(** [o] owns [a] in the index exactly when its entry lists [a]; empty sets are
    not kept. *)
Record le_ok (le : LocalEntries) : Prop := {
  le_wf : map_wf (localEntriesByPath le);
  le_key p e : entry_at le p = Some e -> entry_path e = p;
  le_paths o : map_get (conflictArtifactPathsByOwner le) o =
    match artifacts_at le o with [] => None | l => Some (set_of l) end;
  le_owners a o : o ∈ owners_of le a <-> a ∈ artifacts_at le o;
  le_owners_set a l : map_get (conflictArtifactOwnersByPath le) a = Some l -> l <> [] /\ NoDup l;
}.

Lemma le_ok_empty : le_ok emptyEntries.
Proof.
  split; cbn; try done; [apply map_wf_nil|]. intros a o. unfold owners_of, artifacts_at. cbn.
  by rewrite !elem_of_nil.
Qed.

(** ** The index loops *)
Section Index.
Implicit Types (m : list (string * list string)) (a o x : string) (l : list string).

Definition index_ok m : Prop :=
  forall a l, map_get m a = Some l -> l <> [] /\ NoDup l.

Lemma index_ok_NoDup m a : index_ok m -> NoDup (index_of m a).
Proof.
  unfold index_of. intros Hm. destruct (map_get m a) as [l|] eqn:E; [by apply Hm in E as []|apply NoDup_nil_2].
Qed.

Lemma add_owner_spec x m a :
  index_ok m -> index_ok (add_owner x m a) /\
  forall a' o, o ∈ index_of (add_owner x m a) a' <-> o ∈ index_of m a' \/ (o = x /\ a' = a).
Proof.
  intros Hm. unfold add_owner, index_of. split.
  - intros a' l. rewrite map_get_set. case_bool_decide; [|apply Hm]. intros [= <-].
    split; [|apply NoDup_set_add; by apply (index_ok_NoDup m a)].
    assert (x ∈ set_add (default [] (map_get m a)) x) as Hx by (apply elem_of_set_add; by right).
    intros Hnil. rewrite Hnil in Hx. by apply elem_of_nil in Hx.
  - intros a' o. rewrite map_get_set. case_bool_decide as E; [subst a'|naive_solver].
    cbn. rewrite elem_of_set_add. naive_solver.
Qed.

Lemma add_owners_spec x l m :
  index_ok m -> index_ok (fold_left (add_owner x) l m) /\
  forall a o, o ∈ index_of (fold_left (add_owner x) l m) a <-> o ∈ index_of m a \/ (o = x /\ a ∈ l).
Proof.
  revert m. induction l as [|b l IH]; intros m Hm; cbn [fold_left].
  - split; [done|]. intros a o. rewrite elem_of_nil. naive_solver.
  - destruct (add_owner_spec x m b Hm) as [Hm' Hel]. destruct (IH _ Hm') as [Hm'' Hel'].
    split; [done|]. intros a o. rewrite Hel', Hel, elem_of_cons. naive_solver.
Qed.

Lemma add_owners_get x l m a : a ∉ l -> map_get (fold_left (add_owner x) l m) a = map_get m a.
Proof.
  revert m. induction l as [|b l IH]; intros m; cbn [fold_left]; [done|].
  intros [Hb Hl]%not_elem_of_cons. rewrite IH by done. unfold add_owner. by rewrite map_get_set_ne.
Qed.

Lemma remove_owner_spec x m a :
  index_ok m -> index_ok (remove_owner x m a) /\
  forall a' o, o ∈ index_of (remove_owner x m a) a' <-> o ∈ index_of m a' /\ ~ (o = x /\ a' = a).
Proof.
  intros Hm. unfold remove_owner. destruct (map_get m a) as [owners|] eqn:E.
  2: { split; [done|]. intros a' o. split; [|naive_solver]. intros Hin. split; [done|].
       intros [-> ->]. unfold index_of in Hin. rewrite E in Hin. by apply elem_of_nil in Hin. }
  destruct (Hm a owners E) as [_ Hnd].
  assert (forall o, o ∈ index_of m a <-> o ∈ owners) as Hown by (intros; unfold index_of; by rewrite E).
  destruct (Nat.eqb_spec (length (set_delete owners x)) 0) as [Hz|Hz]; split.
  - intros a' l. rewrite map_get_delete. case_bool_decide; [done|apply Hm].
  - intros a' o. unfold index_of. rewrite map_get_delete. case_bool_decide as Ea; [subst a'|naive_solver].
    cbn. rewrite elem_of_nil. apply nil_length_inv in Hz. split; [done|]. intros [Hin%Hown Hne].
    assert (o ∈ set_delete owners x) as H by (apply elem_of_set_delete; naive_solver).
    rewrite Hz in H. by apply elem_of_nil in H.
  - intros a' l. rewrite map_get_set. case_bool_decide; [|apply Hm]. intros [= <-].
    split; [intros Hn; by rewrite Hn in Hz|]. unfold set_delete. apply NoDup_ListNoDup, List.NoDup_filter.
    by apply NoDup_ListNoDup.
  - intros a' o. unfold index_of. rewrite map_get_set. case_bool_decide as Ea; [subst a'|naive_solver].
    cbn. rewrite elem_of_set_delete. rewrite <- Hown. unfold index_of. naive_solver.
Qed.

Lemma remove_owners_spec x l m :
  index_ok m -> index_ok (fold_left (remove_owner x) l m) /\
  forall a o, o ∈ index_of (fold_left (remove_owner x) l m) a <-> o ∈ index_of m a /\ ~ (o = x /\ a ∈ l).
Proof.
  revert m. induction l as [|b l IH]; intros m Hm; cbn [fold_left].
  - split; [done|]. intros a o. rewrite elem_of_nil. naive_solver.
  - destruct (remove_owner_spec x m b Hm) as [Hm' Hel]. destruct (IH _ Hm') as [Hm'' Hel'].
    split; [done|]. intros a o. rewrite Hel', Hel, elem_of_cons. naive_solver.
Qed.

Lemma remove_owners_get x l m a : a ∉ l -> map_get (fold_left (remove_owner x) l m) a = map_get m a.
Proof.
  revert m. induction l as [|b l IH]; intros m; cbn [fold_left]; [done|].
  intros [Hb Hl]%not_elem_of_cons. rewrite IH by done. unfold remove_owner.
  destruct (map_get m b); [|done]. case_match; [by rewrite map_get_delete_ne|by rewrite map_get_set_ne].
Qed.
End Index.

(** ** Entry operations *)

Definition le_delete (le : LocalEntries) (p : string) : LocalEntries := fst (removeLocalEntry (le, []) p).

Lemma removeLocalEntry_fst le aff p : fst (removeLocalEntry (le, aff) p) = le_delete le p.
Proof. unfold le_delete, removeLocalEntry. by destruct (map_get _ p). Qed.

Lemma le_paths_get le p l :
  le_ok le -> map_get (conflictArtifactPathsByOwner le) p = Some l ->
  forall a, a ∈ l <-> a ∈ artifacts_at le p.
Proof.
  intros Hle. rewrite (le_paths _ Hle). destruct (artifacts_at le p) as [|b bs]; [done|].
  intros [= <-] a. apply elem_of_set_of.
Qed.

Lemma removeLocalEntry_affected le aff p x :
  le_ok le -> x ∈ snd (removeLocalEntry (le, aff) p) <-> x ∈ aff \/ x = p \/ x ∈ artifacts_at le p.
Proof.
  intros Hle. unfold removeLocalEntry. destruct (map_get _ p) as [l|] eqn:E; cbn [snd].
  - rewrite elem_of_fold_set_add, elem_of_set_add, (le_paths_get le p l) by done. tauto.
  - rewrite elem_of_set_add. rewrite (le_paths _ Hle) in E.
    destruct (artifacts_at le p); [rewrite elem_of_nil; tauto|done].
Qed.

Lemma le_delete_entry le p q : entry_at (le_delete le p) q = if bool_decide (p = q) then None else entry_at le q.
Proof.
  unfold le_delete, removeLocalEntry, entry_at. destruct (map_get (conflictArtifactPathsByOwner le) p); apply map_get_delete.
Qed.

Lemma le_delete_artifacts le p o : artifacts_at (le_delete le p) o = if bool_decide (p = o) then [] else artifacts_at le o.
Proof. unfold artifacts_at. rewrite le_delete_entry. by case_bool_decide. Qed.

Lemma le_delete_owners le p :
  le_ok le ->
  index_ok (conflictArtifactOwnersByPath (le_delete le p)) /\
  (forall a o, o ∈ owners_of (le_delete le p) a <-> o ∈ owners_of le a /\ o <> p) /\
  (forall a, a ∉ artifacts_at le p ->
     map_get (conflictArtifactOwnersByPath (le_delete le p)) a = map_get (conflictArtifactOwnersByPath le) a).
Proof.
  intros Hle. unfold le_delete, removeLocalEntry, owners_of.
  destruct (map_get (conflictArtifactPathsByOwner le) p) as [l|] eqn:E; cbn.
  - destruct (remove_owners_spec p l (conflictArtifactOwnersByPath le) (le_owners_set _ Hle)) as [Hok Hel].
    split; [done|]. split.
    + intros a o. rewrite Hel. split; [|naive_solver]. intros [Hin Hne]. split; [done|]. intros ->.
      apply Hne. split; [done|]. apply (le_paths_get le p l Hle E). by apply (le_owners _ Hle).
    + intros a Ha. apply remove_owners_get. by rewrite (le_paths_get le p l).
  - split; [exact (le_owners_set _ Hle)|]. split; [|done]. intros a o. split; [|naive_solver].
    intros Hin. split; [done|]. intros ->. apply (le_owners _ Hle) in Hin.
    rewrite (le_paths _ Hle) in E. destruct (artifacts_at le p); [by apply elem_of_nil in Hin|done].
Qed.

Lemma le_delete_ok le p : le_ok le -> le_ok (le_delete le p).
Proof.
  intros Hle. destruct (le_delete_owners le p Hle) as (Hok & Hel & _). split; [| | | |exact Hok].
  - unfold le_delete, removeLocalEntry. destruct (map_get (conflictArtifactPathsByOwner le) p); apply map_wf_delete, Hle.
  - intros q e. rewrite le_delete_entry. case_bool_decide; [done|]. apply Hle.
  - intros o. rewrite le_delete_artifacts. unfold le_delete, removeLocalEntry.
    destruct (map_get (conflictArtifactPathsByOwner le) p) as [l|] eqn:E; cbn.
    + rewrite map_get_delete, (le_paths _ Hle). by case_bool_decide.
    + case_bool_decide as Ep; [by subst o|apply Hle].
  - intros a o. rewrite Hel, le_delete_artifacts, (le_owners _ Hle).
    case_bool_decide; [rewrite elem_of_nil|]; naive_solver.
Qed.

(** [set] on the entries followed by [addConflictArtifactOwner]. *)
Definition le_insert (le : LocalEntries) (e : StatusEntry) : LocalEntries :=
  addConflictArtifactOwner
    {| localEntriesByPath := map_set (localEntriesByPath le) (entry_path e) e;
       conflictArtifactPathsByOwner := conflictArtifactPathsByOwner le;
       conflictArtifactOwnersByPath := conflictArtifactOwnersByPath le |} e.

Lemma addConflictArtifactOwner_spec le e :
  index_ok (conflictArtifactOwnersByPath le) ->
  localEntriesByPath (addConflictArtifactOwner le e) = localEntriesByPath le /\
  index_ok (conflictArtifactOwnersByPath (addConflictArtifactOwner le e)) /\
  (forall a o, o ∈ owners_of (addConflictArtifactOwner le e) a <->
     o ∈ owners_of le a \/ (o = entry_path e /\ a ∈ entry_conflictArtifacts e)) /\
  (forall o, map_get (conflictArtifactPathsByOwner (addConflictArtifactOwner le e)) o =
     match (if bool_decide (entry_path e = o) then entry_conflictArtifacts e else []) with
     | [] => map_get (conflictArtifactPathsByOwner le) o
     | l => Some (set_of l)
     end) /\
  (forall a, a ∉ entry_conflictArtifacts e ->
     map_get (conflictArtifactOwnersByPath (addConflictArtifactOwner le e)) a = map_get (conflictArtifactOwnersByPath le) a).
Proof.
  intros Hok. unfold addConflictArtifactOwner. destruct (Nat.eqb_spec (length (entry_conflictArtifacts e)) 0) as [Hz|Hz].
  - apply nil_length_inv in Hz. rewrite Hz. split; [done|]. split; [done|]. split.
    { intros a o. rewrite elem_of_nil. naive_solver. }
    split; [|done]. intros o. by case_bool_decide.
  - destruct (add_owners_spec (entry_path e) (set_of (entry_conflictArtifacts e)) (conflictArtifactOwnersByPath le) Hok)
      as [Hok' Hel].
    cbn. split; [done|]. split; [done|]. split.
    { intros a o. unfold owners_of. cbn. rewrite Hel, elem_of_set_of. done. }
    split.
    + intros o. rewrite map_get_set. case_bool_decide; [|done]. by destruct (entry_conflictArtifacts e).
    + intros a Ha. apply add_owners_get. by rewrite elem_of_set_of.
Qed.

Lemma le_insert_entry le e q :
  entry_at (le_insert le e) q = if bool_decide (entry_path e = q) then Some e else entry_at le q.
Proof.
  unfold le_insert, addConflictArtifactOwner, entry_at. case_match; cbn; apply map_get_set.
Qed.

Lemma le_insert_ok le e : le_ok le -> entry_at le (entry_path e) = None -> le_ok (le_insert le e).
Proof.
  intros Hle Hnone.
  assert (artifacts_at le (entry_path e) = []) as Hno by (unfold artifacts_at; by rewrite Hnone).
  assert (forall o, artifacts_at (le_insert le e) o =
    if bool_decide (entry_path e = o) then entry_conflictArtifacts e else artifacts_at le o) as Hart.
  { intros o. unfold artifacts_at at 1. rewrite le_insert_entry. by case_bool_decide. }
  destruct (addConflictArtifactOwner_spec
    {| localEntriesByPath := map_set (localEntriesByPath le) (entry_path e) e;
       conflictArtifactPathsByOwner := conflictArtifactPathsByOwner le;
       conflictArtifactOwnersByPath := conflictArtifactOwnersByPath le |} e (le_owners_set _ Hle))
    as (Hent & Hok & Hown & Hpaths & _). fold (le_insert le e) in *. cbn in Hpaths.
  split; [| | | |exact Hok].
  - rewrite Hent. apply map_wf_set, Hle.
  - intros q e'. rewrite le_insert_entry. case_bool_decide; [by intros [= <-]|apply Hle].
  - intros o. rewrite Hpaths, Hart. case_bool_decide as Ep; [|apply Hle].
    destruct (entry_conflictArtifacts e); [|done]. by rewrite (le_paths _ Hle), <- Ep, Hno.
  - intros a o. rewrite Hown, Hart. change (owners_of _ a) with (owners_of le a). rewrite (le_owners _ Hle).
    case_bool_decide as Ep; [|naive_solver]. rewrite <- Ep, Hno, elem_of_nil. naive_solver.
Qed.

(** ** Deltas *)

Lemma upsertLocalEntry_fst le aff e :
  fst (upsertLocalEntry (le, aff) e) = le_insert (le_delete le (entry_path e)) e.
Proof.
  unfold upsertLocalEntry. pose proof (removeLocalEntry_fst le aff (entry_path e)) as H.
  destruct (removeLocalEntry (le, aff) (entry_path e)) as [le' aff']. cbn in *. by subst.
Qed.

Lemma upsertLocalEntry_affected le aff e x :
  le_ok le ->
  x ∈ snd (upsertLocalEntry (le, aff) e) <->
  x ∈ aff \/ x = entry_path e \/ x ∈ artifacts_at le (entry_path e) \/ x ∈ entry_conflictArtifacts e.
Proof.
  intros Hle. unfold upsertLocalEntry.
  pose proof (removeLocalEntry_affected le aff (entry_path e) x Hle) as H.
  destruct (removeLocalEntry (le, aff) (entry_path e)) as [le' aff']. cbn [snd] in *.
  rewrite elem_of_fold_set_add, elem_of_set_add, H. tauto.
Qed.

(** Outside [aff], nothing a projected path depends on differs from [le0]:
    its entry, its owners, and the entries of its owners. *)
Definition stable (le0 : LocalEntries) (acc : LocalEntries * list string) : Prop :=
  le_ok (fst acc) /\
  forall p, p ∉ snd acc ->
    entry_at (fst acc) p = entry_at le0 p /\
    map_get (conflictArtifactOwnersByPath (fst acc)) p = map_get (conflictArtifactOwnersByPath le0) p /\
    forall o, o ∈ owners_of (fst acc) p -> entry_at (fst acc) o = entry_at le0 o.

Lemma stable_refl le : le_ok le -> stable le (le, []).
Proof. by split. Qed.

Lemma stable_remove le0 acc p : stable le0 acc -> stable le0 (removeLocalEntry acc p).
Proof.
  destruct acc as [le aff]. intros [Hle Hst]. cbn [fst snd] in *.
  split; rewrite removeLocalEntry_fst; [by apply le_delete_ok|].
  intros q Hq. rewrite removeLocalEntry_affected in Hq by done.
  destruct (le_delete_owners le p Hle) as (_ & Hel & Hget).
  destruct (Hst q) as (He & Ho & Hoe); [tauto|].
  rewrite le_delete_entry, Hget by tauto. rewrite bool_decide_false by naive_solver.
  split; [done|]. split; [done|]. intros o [Hin Hop]%Hel. rewrite le_delete_entry.
  rewrite bool_decide_false by naive_solver. by apply Hoe.
Qed.

Lemma stable_upsert le0 acc e : stable le0 acc -> stable le0 (upsertLocalEntry acc e).
Proof.
  destruct acc as [le aff]. intros Hst. pose proof (stable_remove le0 _ (entry_path e) Hst) as [Hled Hst'].
  destruct Hst as [Hle _]. cbn [fst snd] in *.
  rewrite removeLocalEntry_fst in Hled, Hst'.
  assert (le_ok (le_insert (le_delete le (entry_path e)) e)) as Hok.
  { apply le_insert_ok; [done|]. rewrite le_delete_entry. by rewrite bool_decide_true. }
  split; rewrite upsertLocalEntry_fst; [done|].
  intros q Hq. rewrite upsertLocalEntry_affected in Hq by done.
  destruct (Hst' q) as (He & Ho & Hoe); [rewrite removeLocalEntry_affected by done; tauto|].
  destruct (addConflictArtifactOwner_spec
    {| localEntriesByPath := map_set (localEntriesByPath (le_delete le (entry_path e))) (entry_path e) e;
       conflictArtifactPathsByOwner := conflictArtifactPathsByOwner (le_delete le (entry_path e));
       conflictArtifactOwnersByPath := conflictArtifactOwnersByPath (le_delete le (entry_path e)) |} e
    (le_owners_set _ Hled)) as (_ & _ & Hown & _ & Hget). fold (le_insert (le_delete le (entry_path e)) e) in *.
  rewrite le_insert_entry, Hget by tauto. rewrite bool_decide_false by naive_solver.
  split; [done|]. split; [done|]. intros o Hin. apply Hown in Hin as [Hin|[-> Ha]]; [|tauto].
  rewrite le_insert_entry. destruct (bool_decide_reflect (entry_path e = o)) as [<-|]; [|by apply Hoe].
  change (owners_of _ q) with (owners_of (le_delete le (entry_path e)) q) in Hin.
  destruct (le_delete_owners le (entry_path e) Hle) as (_ & Hel & _). by apply Hel in Hin as [_ ?].
Qed.

Lemma deltaEntries_stable le delta : le_ok le -> stable le (deltaEntries le delta).
Proof.
  intros Hle. unfold deltaEntries.
  assert (forall l acc, stable le acc -> stable le (fold_left removeLocalEntry l acc)) as H1.
  { induction l as [|p l IH]; intros acc H; cbn [fold_left]; [done|]. by apply IH, stable_remove. }
  assert (forall l acc, stable le acc -> stable le (fold_left upsertLocalEntry l acc)) as H2.
  { induction l as [|p l IH]; intros acc H; cbn [fold_left]; [done|]. by apply IH, stable_upsert. }
  by apply H2, H1, stable_refl.
Qed.

(** The entries themselves: removals, then insertions. *)
Lemma deltaEntries_entries le delta p :
  entry_at (fst (deltaEntries le delta)) p =
  map_get (fold_left (fun m e => map_set m (entry_path e) e) (delta_upsert delta)
    (fold_left map_delete (delta_remove delta) (localEntriesByPath le))) p.
Proof.
  unfold deltaEntries.
  assert (forall l acc m, (forall q, entry_at (fst acc) q = map_get m q) ->
    forall q, entry_at (fst (fold_left removeLocalEntry l acc)) q = map_get (fold_left map_delete l m) q) as H1.
  { induction l as [|x l IH]; intros [le' aff] m H; cbn [fold_left]; [done|]. apply IH. intros q.
    rewrite removeLocalEntry_fst, le_delete_entry, map_get_delete. by rewrite <- H. }
  assert (forall l acc m, (forall q, entry_at (fst acc) q = map_get m q) ->
    forall q, entry_at (fst (fold_left upsertLocalEntry l acc)) q =
      map_get (fold_left (fun m e => map_set m (entry_path e) e) l m) q) as H2.
  { induction l as [|e l IH]; intros [le' aff] m H; cbn [fold_left]; [done|]. apply IH. intros q.
    rewrite upsertLocalEntry_fst, le_insert_entry, le_delete_entry, map_get_set, <- H. by repeat case_bool_decide. }
  by apply H2, H1.
Qed.

(** ** Snapshots *)

Lemma fold_add_spec es le :
  index_ok (conflictArtifactOwnersByPath le) -> NoDup (map entry_path es) ->
  (forall e, e ∈ es -> map_get (conflictArtifactPathsByOwner le) (entry_path e) = None) ->
  let le' := fold_left addConflictArtifactOwner es le in
  localEntriesByPath le' = localEntriesByPath le /\
  index_ok (conflictArtifactOwnersByPath le') /\
  (forall a o, o ∈ owners_of le' a <->
     o ∈ owners_of le a \/ exists e, e ∈ es /\ o = entry_path e /\ a ∈ entry_conflictArtifacts e) /\
  (forall e, e ∈ es -> map_get (conflictArtifactPathsByOwner le') (entry_path e) =
     match entry_conflictArtifacts e with [] => None | l => Some (set_of l) end) /\
  (forall o, o ∉ map entry_path es ->
     map_get (conflictArtifactPathsByOwner le') o = map_get (conflictArtifactPathsByOwner le) o).
Proof.
  revert le. induction es as [|e es IH]; intros le Hok Hnd Hfresh; cbn [fold_left].
  - split; [done|]. split; [done|]. split; [|split; [by intros e ?%elem_of_nil|done]].
    intros a o. setoid_rewrite elem_of_nil. naive_solver.
  - cbn [map] in Hnd. apply NoDup_cons in Hnd as [Hn Hnd].
    destruct (addConflictArtifactOwner_spec le e Hok) as (Hent & Hok' & Hown & Hpaths & _).
    destruct (IH (addConflictArtifactOwner le e)) as (Hent' & Hok'' & Hown' & Hin & Hout); [done|done| |].
    { intros e' He'. rewrite Hpaths. rewrite bool_decide_false; [apply Hfresh; by apply list_elem_of_further|].
      intros Heq. apply Hn. rewrite Heq. change (map entry_path es) with (entry_path <$> es).
      by apply list_elem_of_fmap_2. }
    split; [congruence|]. split; [done|]. split; [|split].
    + intros a o. rewrite Hown', Hown. setoid_rewrite elem_of_cons. naive_solver.
    + intros e' [->|He']%elem_of_cons; [|by apply Hin].
      rewrite Hout, Hpaths by done. rewrite bool_decide_true by done.
      destruct (entry_conflictArtifacts e); [|done]. apply Hfresh, list_elem_of_here.
    + cbn [map]. intros o [Ho1 Ho2]%not_elem_of_cons. rewrite Hout, Hpaths by done.
      by rewrite bool_decide_false.
Qed.

Lemma entriesByPath_ok (l : list StatusEntry) :
  let m := map_of (map (fun entry => (entry_path entry, entry)) l) in
  map_wf m /\ forall p e, map_get m p = Some e -> entry_path e = p.
Proof.
  cbn zeta. split; [apply map_wf_of|]. unfold map_of.
  assert (forall es m, (forall p e, map_get m p = Some e -> entry_path e = p) -> forall p e,
    map_get (fold_left (fun m e => map_set m (fst e) (snd e)) (map (fun entry => (entry_path entry, entry)) es) m) p
      = Some e -> entry_path e = p) as H.
  { induction es as [|x es IH]; intros m Hm; cbn [map fold_left]; [done|]. apply IH. intros p e. cbn [fst snd].
    rewrite map_get_set. case_bool_decide; [by intros [= <-]|apply Hm]. }
  by apply H.
Qed.

Lemma snapshotEntries_entry l p :
  entry_at (snapshotEntries l) p = map_get (map_of (map (fun entry => (entry_path entry, entry)) l)) p.
Proof.
  unfold snapshotEntries, entry_at. cbn zeta.
  assert (forall es le, localEntriesByPath (fold_left addConflictArtifactOwner es le) = localEntriesByPath le) as H.
  { induction es as [|x es IH]; intros le; cbn [fold_left]; [done|]. rewrite IH.
    unfold addConflictArtifactOwner. by case_match. }
  by rewrite H.
Qed.

Lemma snapshotEntries_ok l : le_ok (snapshotEntries l).
Proof.
  pose proof (snapshotEntries_entry l) as Hentry.
  destruct (entriesByPath_ok l) as [Hwf Hkey]. unfold snapshotEntries in *. cbn zeta in *.
  set (m := map_of (map (fun entry => (entry_path entry, entry)) l)) in *.
  assert (map entry_path (map_values m) = map_keys m) as Hpaths.
  { unfold map_values, map_keys. rewrite map_map. apply map_ext_in. intros [k e] Hin%list_elem_of_In.
    cbn. by apply Hkey, map_get_elem. }
  destruct (fold_add_spec (map_values m) {| localEntriesByPath := m; conflictArtifactPathsByOwner := [];
    conflictArtifactOwnersByPath := [] |}) as (Hent & Hok & Hown & Hin & Hout); [done|by rewrite Hpaths|done|].
  set (le := fold_left addConflictArtifactOwner (map_values m) _) in *. cbn in Hent, Hown, Hout.
  assert (forall o e, entry_at le o = Some e -> e ∈ map_values m /\ entry_path e = o) as Hsome.
  { intros o e Ho. rewrite Hentry in Ho. split; [by eapply map_get_Some_value|by apply Hkey]. }
  assert (forall e, e ∈ map_values m -> entry_at le (entry_path e) = Some e) as Hval.
  { intros e He. rewrite Hentry. apply map_value_get in He as [k Hk]; [|done]. by rewrite (Hkey _ _ Hk). }
  split; [by rewrite Hent|intros p e He; by apply Hsome in He as []| | |exact Hok].
  - intros o. unfold artifacts_at. destruct (entry_at le o) as [e|] eqn:E.
    + apply Hsome in E as [He <-]. by apply Hin.
    + apply Hout. rewrite Hpaths. intros Hk. rewrite Hentry in E. by apply map_get_None in E.
  - intros a o. rewrite Hown. unfold artifacts_at. split.
    + intros [H|(e & He & -> & Ha)]; [by apply elem_of_nil in H|]. by rewrite Hval.
    + destruct (entry_at le o) as [e|] eqn:E; [|by intros ?%elem_of_nil]. intros Ha.
      apply Hsome in E as [He <-]. right. by exists e.
Qed.

Import SourceControlResourceStore.
Local Open Scope string_scope.

#[export] Instance ResourceSource_eq_dec : EqDecision ResourceSource.
Proof. solve_decision. Defined.

(** ** The maps of projected resources *)

(** The resource projected for a path, by side. *)
Definition slot (pr : Projected) (s : ResourceSource) (p : string) : option ScmProjectedResource :=
  match s with Local_ => map_get (localResourcesByPath pr) p | Remote_ => map_get (remoteResourcesByPath pr) p end.

Definition group_at (gs : list (string * list (string * ScmProjectedResource))) (g k : string) : option ScmProjectedResource :=
  map_get (default [] (map_get gs g)) k.

Definition key_of (s : ResourceSource) (p : string) : string := source_name s ++ ":" ++ p.
(** The groups there are: the fixed ones, and one per changelist. *)
Definition group_id_ok (g : string) : Prop :=
  g ∈ SCM_RESOURCE_GROUP_IDS \/ exists name, g = changelistResourceGroupId name.

(** A resource filed under the key of its side and path. *)
Definition resource_ok (r : ScmProjectedResource) : Prop :=
  res_key r = key_of (res_source r) (res_path r) /\ group_id_ok (res_groupId r) /\
  (res_source r = Remote_ -> res_groupId r = "incoming").

Record pr_ok (pr : Projected) : Prop := {
  pr_local_wf : map_wf (localResourcesByPath pr);
  pr_remote_wf : map_wf (remoteResourcesByPath pr);
  pr_slot s p r : slot pr s p = Some r -> res_source r = s /\ res_path r = p /\ resource_ok r;
  pr_groups_map_wf : map_wf (groups pr);
  pr_groups_wf g m : map_get (groups pr) g = Some m -> map_wf m;
  pr_groups_ids g : g ∈ map_keys (groups pr) -> group_id_ok g;
  pr_groups g k r : group_at (groups pr) g k = Some r <->
    res_groupId r = g /\ res_key r = k /\ slot pr (res_source r) (res_path r) = Some r;
}.

Lemma fixed_not_changelist g : g ∈ SCM_RESOURCE_GROUP_IDS -> isChangelistResourceGroupId g = false.
Proof.
  unfold SCM_RESOURCE_GROUP_IDS. rewrite !elem_of_cons, elem_of_nil. intros Hg.
  repeat destruct Hg as [->|Hg]; done.
Qed.

Lemma key_of_inj s p s' p' : key_of s p = key_of s' p' -> s = s' /\ p = p'.
Proof. destruct s, s'; cbn; intros H; try discriminate H; by injection H. Qed.

Lemma group_at_upsert gs r g k :
  group_at (upsertGroupResource gs r) g k =
  if bool_decide (res_groupId r = g /\ res_key r = k) then Some r else group_at gs g k.
Proof.
  unfold group_at, upsertGroupResource. rewrite map_get_set.
  destruct (bool_decide_reflect (res_groupId r = g)) as [<-|Hg]; cbn.
  - rewrite map_get_set. repeat case_bool_decide; naive_solver.
  - by rewrite bool_decide_false by naive_solver.
Qed.

Lemma group_at_delete gs g0 k0 g k :
  group_at (deleteGroupResource gs g0 k0) g k =
  if bool_decide (g0 = g /\ k0 = k) then None else group_at gs g k.
Proof.
  unfold group_at, deleteGroupResource. destruct (map_get gs g0) as [m|] eqn:E.
  - rewrite map_get_set. destruct (bool_decide_reflect (g0 = g)) as [<-|Hg]; cbn.
    + rewrite map_get_delete, E. cbn. repeat case_bool_decide; naive_solver.
    + by rewrite bool_decide_false by naive_solver.
  - case_bool_decide as Hb; [|done]. destruct Hb as [-> ->]. by rewrite E.
Qed.

(** Filing a resource under its slot and its group. *)
Lemma put_ok pr pr' r :
  pr_ok pr -> resource_ok r ->
  map_wf (localResourcesByPath pr') -> map_wf (remoteResourcesByPath pr') ->
  (forall s p, slot pr' s p = if bool_decide (res_source r = s /\ res_path r = p) then Some r else slot pr s p) ->
  groups pr' = upsertGroupResource (groups pr) r ->
  (forall r0, slot pr (res_source r) (res_path r) = Some r0 -> res_groupId r0 = res_groupId r) ->
  pr_ok pr'.
Proof.
  intros Hpr Hres Hwl Hwr Hslot Hgr Hsame. pose proof Hres as (Hkey & Hid & _).
  split; [done|done| |rewrite Hgr; apply map_wf_set, Hpr| | |].
  - intros s p r'. rewrite Hslot. case_bool_decide as Hb; [|apply Hpr]. intros [= <-]. by destruct Hb as [<- <-].
  - intros g m. rewrite Hgr. unfold upsertGroupResource. rewrite map_get_set.
    case_bool_decide; [|apply Hpr]. intros [= <-]. apply map_wf_set.
    destruct (map_get (groups pr) (res_groupId r)) eqn:E; [by eapply pr_groups_wf|apply map_wf_nil].
  - intros g. rewrite Hgr. unfold upsertGroupResource. intros [->|?]%elem_of_keys_set; [done|by apply Hpr].
  - intros g k r'. rewrite Hgr, group_at_upsert, Hslot.
    destruct (bool_decide_reflect (res_groupId r = g /\ res_key r = k)) as [[<- <-]|Hne].
    + split; [intros [= <-]; split; [done|]; split; [done|]; by rewrite bool_decide_true|].
      intros (Hg' & Hk' & Hs). destruct (bool_decide_reflect (res_source r = res_source r' /\ res_path r = res_path r')) as [|Hn]; [done|].
      apply (pr_slot _ Hpr) in Hs as (_ & _ & (Hkr' & _)). rewrite Hk', Hkey in Hkr'.
      apply key_of_inj in Hkr'. naive_solver.
    + rewrite (pr_groups _ Hpr).
      destruct (bool_decide_reflect (res_source r = res_source r' /\ res_path r = res_path r')) as [[Hs Hp]|Hn]; [|done].
      split; [|by intros (<- & <- & [= <-]); naive_solver]. intros (<- & <- & Hold). exfalso.
      rewrite <- Hs, <- Hp in Hold. apply Hne. split; [by rewrite (Hsame _ Hold)|].
      apply (pr_slot _ Hpr) in Hold as (H1 & H2 & (H3 & _)). by rewrite H3, H1, H2.
Qed.

(** Dropping a resource from its slot and its group. *)
Lemma drop_ok pr pr' r :
  pr_ok pr -> slot pr (res_source r) (res_path r) = Some r ->
  map_wf (localResourcesByPath pr') -> map_wf (remoteResourcesByPath pr') ->
  (forall s p, slot pr' s p = if bool_decide (res_source r = s /\ res_path r = p) then None else slot pr s p) ->
  groups pr' = deleteGroupResource (groups pr) (res_groupId r) (res_key r) ->
  pr_ok pr'.
Proof.
  intros Hpr Hr Hwl Hwr Hslot Hgr. pose proof (pr_slot _ Hpr _ _ _ Hr) as (_ & _ & (Hkey & _)).
  split; [done|done| | | | |].
  - intros s p r'. rewrite Hslot. case_bool_decide; [done|apply Hpr].
  - rewrite Hgr. unfold deleteGroupResource. case_match; [apply map_wf_set|]; apply Hpr.
  - intros g m. rewrite Hgr. unfold deleteGroupResource.
    destruct (map_get (groups pr) (res_groupId r)) as [m0|] eqn:E; [|apply Hpr].
    rewrite map_get_set. case_bool_decide; [|apply Hpr]. intros [= <-]. apply map_wf_delete. by eapply pr_groups_wf.
  - intros g. rewrite Hgr. unfold deleteGroupResource.
    destruct (map_get (groups pr) (res_groupId r)) as [m0|] eqn:E; [|apply Hpr].
    intros [->|?]%elem_of_keys_set; [|by apply Hpr]. apply Hpr. by eapply map_get_Some_key.
  - intros g k r'. rewrite Hgr, group_at_delete, Hslot.
    destruct (bool_decide_reflect (res_groupId r = g /\ res_key r = k)) as [[<- <-]|Hne].
    + split; [done|]. intros (Hg' & Hk' & Hs).
      destruct (bool_decide_reflect (res_source r = res_source r' /\ res_path r = res_path r')) as [|Hn]; [done|].
      apply (pr_slot _ Hpr) in Hs as (_ & _ & (Hkr' & _)). rewrite Hk', Hkey in Hkr'.
      apply key_of_inj in Hkr'. naive_solver.
    + rewrite (pr_groups _ Hpr).
      destruct (bool_decide_reflect (res_source r = res_source r' /\ res_path r = res_path r')) as [[Hs Hp]|Hn]; [|done].
      split; [|by intros (_ & _ & ?)]. intros (<- & <- & Hold). exfalso. rewrite <- Hs, <- Hp, Hr in Hold.
      injection Hold as <-. by apply Hne.
Qed.

Lemma emptyGroupMaps_nil g m : map_get emptyGroupMaps g = Some m -> m = [].
Proof.
  change emptyGroupMaps with (map (fun groupId => (groupId, @nil (string * ScmProjectedResource))) SCM_RESOURCE_GROUP_IDS).
  intros Hm%map_get_Some_value. cbn in Hm. rewrite !elem_of_cons, elem_of_nil in Hm. naive_solver.
Qed.

Lemma emptyGroupMaps_ids g : g ∈ map_keys emptyGroupMaps -> group_id_ok g.
Proof.
  change (map_keys emptyGroupMaps) with SCM_RESOURCE_GROUP_IDS. by left.
Qed.

Lemma pr_ok_empty : pr_ok emptyProjected.
Proof.
  split; cbn [emptyProjected localResourcesByPath remoteResourcesByPath groups]; try apply map_wf_nil.
  - intros [] p r; done.
  - apply map_wf_of.
  - intros g m ->%emptyGroupMaps_nil. apply map_wf_nil.
  - apply emptyGroupMaps_ids.
  - intros g k r. unfold group_at. split; [|intros (_ & _ & Hs); by destruct (res_source r)].
    destruct (map_get emptyGroupMaps g) as [m|] eqn:Hm; [|done]. by apply emptyGroupMaps_nil in Hm as ->.
Qed.

(** ** The operations on projected resources *)

Ltac fixed_group := apply (bool_decide_eq_true (_ ∈ SCM_RESOURCE_GROUP_IDS)); reflexivity.

Lemma classify_group_ok e c : classifyLocalStatusEntry e = Some c -> group_id_ok (class_groupId c).
Proof.
  unfold classifyLocalStatusEntry. intros H.
  repeat case_match; simplify_eq; cbn [class_groupId classification]; first [by right; eexists|left; fixed_group].
Qed.

Lemma projectedLocal_ok id e c : group_id_ok (class_groupId c) -> resource_ok (projectedResource id Local_ e c).
Proof. by intros H. Qed.

Lemma upsertProjectedLocalEntry_ok id pr e c :
  pr_ok pr -> group_id_ok (class_groupId c) -> slot pr Local_ (entry_path e) = None ->
  let r := projectedResource id Local_ e c in
  pr_ok (upsertProjectedLocalEntry id pr e c) /\
  forall s p, slot (upsertProjectedLocalEntry id pr e c) s p =
    if bool_decide (Local_ = s /\ entry_path e = p) then Some r else slot pr s p.
Proof.
  intros Hpr Hg Hnone r.
  assert (forall s p, slot (upsertProjectedLocalEntry id pr e c) s p =
    if bool_decide (Local_ = s /\ entry_path e = p) then Some r else slot pr s p) as Hslot.
  { intros [] p; cbn; [rewrite map_get_set|]; repeat case_bool_decide; naive_solver. }
  split; [|done]. apply (put_ok pr _ r); [done|by apply projectedLocal_ok| | |exact Hslot|done|].
  - cbn. apply map_wf_set, Hpr.
  - cbn. apply Hpr.
  - intros r0. cbn [r projectedResource res_source res_path]. by rewrite Hnone.
Qed.

Lemma upsertRemoteEntry_ok id pr e :
  pr_ok pr ->
  pr_ok (upsertRemoteEntry id pr e) /\
  forall s p, slot (upsertRemoteEntry id pr e) s p =
    match classifyRemoteStatusEntry e with
    | Some c => if bool_decide (Remote_ = s /\ entry_path e = p) then Some (projectedResource id Remote_ e c) else slot pr s p
    | None => slot pr s p
    end.
Proof.
  intros Hpr. unfold upsertRemoteEntry. destruct (classifyRemoteStatusEntry e) as [c|] eqn:Ec; [|done].
  assert (class_groupId c = "incoming") as Hg.
  { unfold classifyRemoteStatusEntry in Ec. by case_match; simplify_eq. }
  set (pr' := Build_Projected _ _ _ _). set (r := projectedResource id Remote_ e c).
  assert (forall s p, slot pr' s p =
    if bool_decide (Remote_ = s /\ entry_path e = p) then Some r else slot pr s p) as Hslot.
  { intros [] p; cbn; [|rewrite map_get_set]; repeat case_bool_decide; naive_solver. }
  split; [|done]. apply (put_ok pr _ r); [done| | | |exact Hslot|done|].
  - split; [done|]. split; [|done]. cbn. rewrite Hg. left. fixed_group.
  - cbn. apply Hpr.
  - cbn. apply map_wf_set, Hpr.
  - intros r0 H0. apply (pr_slot _ Hpr) in H0 as (H1 & _ & (_ & _ & H2)). cbn. rewrite Hg. by apply H2.
Qed.

Lemma removeProjectedLocalPath_ok pr path :
  pr_ok pr ->
  pr_ok (removeProjectedLocalPath pr path) /\
  forall s p, slot (removeProjectedLocalPath pr path) s p =
    if bool_decide (Local_ = s /\ path = p) then None else slot pr s p.
Proof.
  intros Hpr. unfold removeProjectedLocalPath.
  destruct (map_get (localResourcesByPath pr) path) as [r|] eqn:E.
  - destruct (pr_slot _ Hpr Local_ path r E) as (Hs & Hp & _).
    set (pr' := Build_Projected _ _ _ _).
    assert (forall s p, slot pr' s p = if bool_decide (Local_ = s /\ path = p) then None else slot pr s p) as Hslot.
    { intros [] p; cbn; [rewrite map_get_delete|]; repeat case_bool_decide; naive_solver. }
    split; [|done]. apply (drop_ok pr _ r); [done|by rewrite Hs, Hp| | |by rewrite Hs, Hp|done].
    + cbn. apply map_wf_delete, Hpr.
    + cbn. apply Hpr.
  - split; [done|]. intros s p. case_bool_decide as Hb; [|done]. by destruct Hb as [<- <-].
Qed.

Lemma removeRemotePath_ok pr path :
  pr_ok pr ->
  pr_ok (removeRemotePath pr path) /\
  forall s p, slot (removeRemotePath pr path) s p =
    if bool_decide (Remote_ = s /\ path = p) then None else slot pr s p.
Proof.
  intros Hpr. unfold removeRemotePath.
  destruct (map_get (remoteResourcesByPath pr) path) as [r|] eqn:E.
  - destruct (pr_slot _ Hpr Remote_ path r E) as (Hs & Hp & _).
    set (pr' := Build_Projected _ _ _ _).
    assert (forall s p, slot pr' s p = if bool_decide (Remote_ = s /\ path = p) then None else slot pr s p) as Hslot.
    { intros [] p; cbn; [|rewrite map_get_delete]; repeat case_bool_decide; naive_solver. }
    split; [|done]. apply (drop_ok pr _ r); [done|by rewrite Hs, Hp| | |by rewrite Hs, Hp|done].
    + cbn. apply Hpr.
    + cbn. apply map_wf_delete, Hpr.
  - split; [done|]. intros s p. case_bool_decide as Hb; [|done]. by destruct Hb as [<- <-].
Qed.

(** ** Projection as a function of the entries *)
Section View.
Variable localeCompareEn : string -> string -> comparison.
Notation ownerEntry := (ownerEntry localeCompareEn).
Notation projectLocalPath := (projectLocalPath localeCompareEn).

(** The specification: what the view shows for a local path. *)
Definition local_view (id : string) (le : LocalEntries) (p : string) : option ScmProjectedResource :=
  match ownerEntry le p with
  | Some owner => Some (projectedResource id Local_ (artifactEntry owner p) artifactClassification)
  | None => e ← entry_at le p; c ← classifyLocalStatusEntry e; Some (projectedResource id Local_ e c)
  end.

(** ... and for a remote one. *)
Definition remote_view (id : string) (remote : list (string * StatusEntry)) (p : string) : option ScmProjectedResource :=
  e ← map_get remote p; c ← classifyRemoteStatusEntry e; Some (projectedResource id Remote_ e c).

Lemma projectLocalPath_ok id le pr p :
  le_ok le -> pr_ok pr -> slot pr Local_ p = None ->
  pr_ok (projectLocalPath id le pr p) /\
  forall s q, slot (projectLocalPath id le pr p) s q =
    if bool_decide (Local_ = s /\ p = q) then local_view id le p else slot pr s q.
Proof.
  intros Hle Hpr Hnone. unfold ScmResources.SourceControlResourceStore.projectLocalPath, local_view.
  destruct (ownerEntry le p) as [owner|].
  { apply upsertProjectedLocalEntry_ok; [done|left; fixed_group|done]. }
  fold (entry_at le p). destruct (entry_at le p) as [e|] eqn:E; cbn.
  2: { split; [done|]. intros s q. case_bool_decide as Hb; [|done]. by destruct Hb as [<- <-]. }
  apply (le_key _ Hle) in E as Hk. destruct (classifyLocalStatusEntry e) as [c|] eqn:Ec; cbn.
  - subst p. apply upsertProjectedLocalEntry_ok; [done|by eapply classify_group_ok|done].
  - split; [done|]. intros s q. case_bool_decide as Hb; [|done]. by destruct Hb as [<- <-].
Qed.

Lemma project_loop id le l pr :
  le_ok le -> pr_ok pr -> NoDup l -> (forall p, p ∈ l -> slot pr Local_ p = None) ->
  pr_ok (fold_left (projectLocalPath id le) l pr) /\
  forall s q, slot (fold_left (projectLocalPath id le) l pr) s q =
    if bool_decide (Local_ = s /\ q ∈ l) then local_view id le q else slot pr s q.
Proof.
  intros Hle. revert pr. induction l as [|p l IH]; intros pr Hpr Hnd Hnone; cbn [fold_left].
  - split; [done|]. intros s q. rewrite bool_decide_false; [done|]. by intros [_ ?%elem_of_nil].
  - apply NoDup_cons in Hnd as [Hp Hnd].
    destruct (projectLocalPath_ok id le pr p Hle Hpr) as [Hpr1 Hs1]; [apply Hnone, list_elem_of_here|].
    destruct (IH _ Hpr1 Hnd) as [Hpr2 Hs2].
    { intros q Hq. rewrite Hs1. rewrite bool_decide_false by (intros [_ ->]; done).
      by apply Hnone, list_elem_of_further. }
    split; [done|]. intros s q. rewrite Hs2, Hs1. 
    repeat case_bool_decide; rewrite ?elem_of_cons in *; try done; naive_solver.
Qed.

Lemma remove_loop l pr :
  pr_ok pr ->
  pr_ok (fold_left removeProjectedLocalPath l pr) /\
  forall s q, slot (fold_left removeProjectedLocalPath l pr) s q =
    if bool_decide (Local_ = s /\ q ∈ l) then None else slot pr s q.
Proof.
  revert pr. induction l as [|p l IH]; intros pr Hpr; cbn [fold_left].
  - split; [done|]. intros s q. rewrite bool_decide_false; [done|]. by intros [_ ?%elem_of_nil].
  - destruct (removeProjectedLocalPath_ok pr p Hpr) as [Hpr1 Hs1]. destruct (IH _ Hpr1) as [Hpr2 Hs2].
    split; [done|]. intros s q. rewrite Hs2, Hs1. 
    repeat case_bool_decide; rewrite ?elem_of_cons in *; try done; naive_solver.
Qed.

Lemma remove_remote_loop id l pr remote :
  pr_ok pr -> (forall p, slot pr Remote_ p = remote_view id remote p) ->
  let pr' := fold_left removeRemotePath l pr in
  pr_ok pr' /\ (forall p, slot pr' Local_ p = slot pr Local_ p) /\
  (forall p, slot pr' Remote_ p = remote_view id (fold_left map_delete l remote) p).
Proof.
  revert pr remote. induction l as [|x l IH]; intros pr remote Hpr Hrem; cbn [fold_left]; [done|].
  destruct (removeRemotePath_ok pr x Hpr) as [Hpr1 Hs1].
  destruct (IH (removeRemotePath pr x) (map_delete remote x) Hpr1) as (Hpr2 & Hl & Hr).
  { intros p. rewrite Hs1. unfold remote_view. rewrite map_get_delete.
    destruct (bool_decide_reflect (x = p)) as [<-|Hne]; [by rewrite bool_decide_true|].
    rewrite bool_decide_false by naive_solver. apply Hrem. }
  split; [done|]. split; [|done]. intros p. rewrite Hl, Hs1. by rewrite bool_decide_false by (by intros []).
Qed.

Lemma upsert_remote_loop id l pr remote :
  pr_ok pr -> (forall p, slot pr Remote_ p = remote_view id remote p) ->
  let pr' := fold_left (fun pr entry => upsertRemoteEntry id (removeRemotePath pr (entry_path entry)) entry) l pr in
  pr_ok pr' /\ (forall p, slot pr' Local_ p = slot pr Local_ p) /\
  (forall p, slot pr' Remote_ p = remote_view id (fold_left (fun m e => map_set m (entry_path e) e) l remote) p).
Proof.
  revert pr remote. induction l as [|e l IH]; intros pr remote Hpr Hrem; cbn [fold_left]; [done|].
  destruct (removeRemotePath_ok pr (entry_path e) Hpr) as [Hpr1 Hs1].
  destruct (upsertRemoteEntry_ok id _ e Hpr1) as [Hpr2 Hs2].
  destruct (IH (upsertRemoteEntry id (removeRemotePath pr (entry_path e)) e) (map_set remote (entry_path e) e) Hpr2)
    as (Hpr3 & Hl & Hr).
  { intros p. rewrite Hs2, Hs1. unfold remote_view at 1. rewrite map_get_set.
    destruct (bool_decide_reflect (entry_path e = p)) as [<-|Hne]; cbn [mbind option_bind].
    - rewrite !bool_decide_true by done. by destruct (classifyRemoteStatusEntry e).
    - rewrite !bool_decide_false by naive_solver. rewrite Hrem. unfold remote_view. by destruct (classifyRemoteStatusEntry e). }
  split; [done|]. split; [|done]. intros p. rewrite Hl, Hs2, Hs1.
  rewrite !bool_decide_false by (by intros []). by destruct (classifyRemoteStatusEntry e).
Qed.

Lemma snapshot_remote_loop id l pr remote :
  pr_ok pr -> NoDup (map entry_path l) -> (forall e, e ∈ l -> map_get remote (entry_path e) = None) ->
  (forall p, slot pr Remote_ p = remote_view id remote p) ->
  let pr' := fold_left (upsertRemoteEntry id) l pr in
  pr_ok pr' /\ (forall p, slot pr' Local_ p = slot pr Local_ p) /\
  (forall p, slot pr' Remote_ p = remote_view id (fold_left (fun m e => map_set m (entry_path e) e) l remote) p).
Proof.
  revert pr remote. induction l as [|e l IH]; intros pr remote Hpr Hnd Hfresh Hrem; cbn [fold_left]; [done|].
  cbn [map] in Hnd. apply NoDup_cons in Hnd as [Hn Hnd].
  destruct (upsertRemoteEntry_ok id pr e Hpr) as [Hpr1 Hs1].
  destruct (IH (upsertRemoteEntry id pr e) (map_set remote (entry_path e) e) Hpr1 Hnd) as (Hpr2 & Hl & Hr).
  { intros e' He'. rewrite map_get_set_ne; [by apply Hfresh, list_elem_of_further|].
    intros Heq. apply Hn. rewrite Heq. change (map entry_path l) with (entry_path <$> l). by apply list_elem_of_fmap_2. }
  { intros p. rewrite Hs1. unfold remote_view at 1. rewrite map_get_set.
    destruct (bool_decide_reflect (entry_path e = p)) as [<-|Hne]; cbn [mbind option_bind].
    - rewrite !bool_decide_true by done. destruct (classifyRemoteStatusEntry e); [done|]. rewrite Hrem.
      unfold remote_view. by rewrite (Hfresh e) by apply list_elem_of_here.
    - rewrite !bool_decide_false by naive_solver. rewrite Hrem. unfold remote_view. by destruct (classifyRemoteStatusEntry e). }
  split; [done|]. split; [|done]. intros p. rewrite Hl, Hs1.
  rewrite !bool_decide_false by (by intros []). by destruct (classifyRemoteStatusEntry e).
Qed.

(** A path a delta does not affect keeps its view. *)
Lemma local_view_stable id le le' aff p :
  stable le (le', aff) -> p ∉ aff -> local_view id le' p = local_view id le p.
Proof.
  intros [_ Hst] Hp. destruct (Hst p Hp) as (He & Ho & Hoe). cbn [fst snd] in *.
  assert (ownerEntry le' p = ownerEntry le p) as Hown.
  { unfold ScmResources.SourceControlResourceStore.ownerEntry. rewrite Ho.
    destruct (map_get (conflictArtifactOwnersByPath le) p) as [owners|] eqn:E; cbn; [|done].
    destruct (head (sort (comparePaths localeCompareEn) owners)) as [o|] eqn:Eh; [|done].
    destruct o as [|a o]; [done|]. apply Hoe. unfold owners_of, index_of. rewrite Ho. cbn.
    apply head_Some_elem_of in Eh. by apply elem_of_sort in Eh. }
  unfold local_view. by rewrite Hown, He.
Qed.

(** ** States *)

(** The state's view is the projection of its local entries and of the remote
    entries [remote] (which the store itself does not keep). *)
Record view_ok (state : RepositoryProjectionState) (remote : list (string * StatusEntry)) : Prop := {
  view_entries : le_ok (ps_entries state);
  view_projected : pr_ok (ps_projected state);
  view_local p : slot (ps_projected state) Local_ p = local_view (ps_repositoryId state) (ps_entries state) p;
  view_remote p : slot (ps_projected state) Remote_ p = remote_view (ps_repositoryId state) remote p;
}.

Definition by_path (l : list StatusEntry) : list (string * StatusEntry) :=
  map_of (map (fun entry => (entry_path entry, entry)) l).

Lemma by_path_fold l m :
  fold_left (fun m e => map_set m (fst e) (snd e)) (map (fun entry => (entry_path entry, entry)) l) m =
  fold_left (fun m e => map_set m (entry_path e) e) l m.
Proof. revert m. induction l as [|e l IH]; intros m; cbn [map fold_left]; [done|]. apply IH. Qed.

Lemma local_view_Some id le p r :
  local_view id le p = Some r -> p ∈ map_keys (localEntriesByPath le) \/ p ∈ map_keys (conflictArtifactOwnersByPath le).
Proof.
  unfold local_view, ScmResources.SourceControlResourceStore.ownerEntry.
  destruct (map_get (conflictArtifactOwnersByPath le) p) as [owners|] eqn:Eo.
  { intros _. right. by eapply map_get_Some_key. }
  cbn [mbind option_bind]. destruct (entry_at le p) as [e|] eqn:Ee; [|done].
  intros _. left. by eapply map_get_Some_key.
Qed.

Lemma applySnapshotToState_ok state snapshot :
  NoDup (map entry_path (snapshot_remoteEntries snapshot)) ->
  let state' := applySnapshotToState localeCompareEn state snapshot in
  view_ok state' (by_path (snapshot_remoteEntries snapshot)) /\
  forall p, entry_at (ps_entries state') p = map_get (by_path (snapshot_localEntries snapshot)) p.
Proof.
  intros Hnd. unfold applySnapshotToState. cbn zeta.
  set (le := snapshotEntries (snapshot_localEntries snapshot)). set (id := ps_repositoryId state).
  set (paths := set_of _).
  assert (le_ok le) as Hle by apply snapshotEntries_ok.
  destruct (project_loop id le paths emptyProjected Hle pr_ok_empty) as [Hpr1 Hs1]; [apply NoDup_set_of|done|].
  destruct (snapshot_remote_loop id (snapshot_remoteEntries snapshot) (fold_left (projectLocalPath id le) paths emptyProjected) [])
    as (Hpr2 & Hl & Hr); [done|done|done| |].
  { intros p. rewrite Hs1. by rewrite bool_decide_false by (by intros []). }
  split; [|apply snapshotEntries_entry]. split; cbn [ps_entries ps_projected ps_repositoryId]; [done|done| |].
  - intros p. rewrite Hl, Hs1. case_bool_decide as Hb; [done|].
    destruct (local_view id le p) as [r|] eqn:E; [|done]. exfalso. apply Hb. split; [done|].
    apply elem_of_set_of, elem_of_app. by eapply local_view_Some.
  - intros p. rewrite Hr. unfold by_path, map_of. by rewrite by_path_fold.
Qed.

Definition apply_remote (remote : list (string * StatusEntry)) (delta : StatusDelta) : list (string * StatusEntry) :=
  fold_left (fun m e => map_set m (entry_path e) e) (delta_remoteUpsert delta)
    (fold_left map_delete (delta_remoteRemove delta) remote).

Lemma affected_NoDup le delta : NoDup (snd (deltaEntries le delta)).
Proof.
  unfold deltaEntries.
  assert (forall acc p, NoDup (snd acc) -> NoDup (snd (removeLocalEntry acc p))) as Hrem.
  { intros [le' aff] p H. unfold removeLocalEntry. destruct (map_get _ p); cbn;
      [apply NoDup_fold_set_add|]; by apply NoDup_set_add. }
  assert (forall acc e, NoDup (snd acc) -> NoDup (snd (upsertLocalEntry acc e))) as Hup.
  { intros acc e H. unfold upsertLocalEntry. apply (Hrem _ (entry_path e)) in H.
    destruct (removeLocalEntry acc (entry_path e)). cbn in *. by apply NoDup_fold_set_add, NoDup_set_add. }
  assert (forall l acc, NoDup (snd acc) -> NoDup (snd (fold_left removeLocalEntry l acc))) as H1.
  { induction l as [|x l IH]; intros acc H; cbn [fold_left]; auto. }
  assert (forall l acc, NoDup (snd acc) -> NoDup (snd (fold_left upsertLocalEntry l acc))) as H2.
  { induction l as [|x l IH]; intros acc H; cbn [fold_left]; auto. }
  apply H2, H1, NoDup_nil_2.
Qed.

Lemma applyDeltaToState_ok state remote delta :
  view_ok state remote ->
  let state' := applyDeltaToState localeCompareEn state delta in
  view_ok state' (apply_remote remote delta) /\
  forall p, entry_at (ps_entries state') p =
    map_get (fold_left (fun m e => map_set m (entry_path e) e) (delta_upsert delta)
      (fold_left map_delete (delta_remove delta) (localEntriesByPath (ps_entries state)))) p.
Proof.
  intros [Hle Hpr Hloc Hrem]. unfold applyDeltaToState.
  pose proof (deltaEntries_stable (ps_entries state) delta Hle) as Hst.
  pose proof (affected_NoDup (ps_entries state) delta) as Hnd.
  pose proof (deltaEntries_entries (ps_entries state) delta) as Hent.
  destruct (deltaEntries (ps_entries state) delta) as [le aff]. cbn [fst snd] in *. cbn zeta.
  destruct Hst as [Hle' Hst]. cbn [fst] in Hle'. split; [|done]. unfold deltaProjected. cbn zeta.
  set (id := ps_repositoryId state).
  destruct (remove_loop aff (ps_projected state) Hpr) as [Hpr1 Hs1].
  destruct (project_loop id le aff _ Hle' Hpr1 Hnd) as [Hpr2 Hs2].
  { intros p Hp. rewrite Hs1. by rewrite bool_decide_true. }
  destruct (remove_remote_loop id (delta_remoteRemove delta) _ remote Hpr2) as (Hpr3 & Hl3 & Hr3).
  { intros p. rewrite Hs2, Hs1. by rewrite !bool_decide_false by (by intros []). }
  destruct (upsert_remote_loop id (delta_remoteUpsert delta) _ _ Hpr3 Hr3) as (Hpr4 & Hl4 & Hr4).
  split; cbn [ps_entries ps_projected ps_repositoryId]; [done|done| |exact Hr4].
  intros p. rewrite Hl4, Hl3, Hs2, Hs1. case_bool_decide as Hb; [done|].
  rewrite Hloc. symmetry. eapply local_view_stable; [by split|]. naive_solver.
Qed.
End View.
