(* ===== verification/StoresAgree.v ===== *)
(** The canonical status store and the projection store in step.

    The session service, the refresh scheduler and the notification handler
    send every message to both stores.  [StatusSink] is what they rely on: a
    store that takes the messages of a repository through one gate (the epoch
    and the generation).  Both stores are sinks, and the data they hold stays
    related: the projection is the view of the canonical entries. *)

From Stdlib Require Import ZArith Lia Ascii String List.
From stdpp Require Import base option list strings sets.
From S2P Require Import Prelude JsString JsMap JsUri StatusTypes StatusWire StatusWireFacts.
From S2P Require Import StatusStore StatusStoreFacts ScmResources ScmFacts.

Local Open Scope string_scope.

(** ** Messages *)
Inductive message :=
  | MRegister (repositoryId : string) (epoch : Z) (workingCopyRoot : string)
  | MUnregister (repositoryId : string)
  | MSnapshot (snapshot : StatusSnapshot)
  | MReplace (snapshot : StatusSnapshot)
  | MDelta (delta : StatusDelta)
  | MStale (mark : StatusStaleMark).

Definition message_id (m : message) : string :=
  match m with
  | MRegister id _ _ | MUnregister id => id
  | MSnapshot s | MReplace s => snapshot_repositoryId s
  | MDelta d => delta_repositoryId d
  | MStale m => mark_repositoryId m
  end.

(** ** The gate

    Epoch and, once initialized, generation of each registered repository. *)
Definition gate := string -> option (Z * option Z).

Definition gate_set (g : gate) (id : string) (x : option (Z * option Z)) : gate :=
  fun id' => if bool_decide (id = id') then x else g id'.

(** What a message does to the gate; [None] when the gate refuses it. *)
Definition gate_step (m : message) (g : gate) : option gate :=
  match m with
  | MRegister id epoch _ =>
      match g id with None => Some (gate_set g id (Some (epoch, None))) | Some _ => None end
  | MUnregister id => Some (gate_set g id None)
  | MSnapshot s =>
      match g (snapshot_repositoryId s) with
      | Some (epoch, generation) =>
          if (epoch =? snapshot_epoch s)%Z && negb (default false ((fun c => snapshot_generation s <? c)%Z <$> generation))
          then Some (gate_set g (snapshot_repositoryId s) (Some (epoch, Some (snapshot_generation s)))) else None
      | None => None
      end
  | MReplace s =>
      match g (snapshot_repositoryId s) with
      | Some (epoch, generation) =>
          if (epoch =? snapshot_epoch s)%Z && default false ((fun c => snapshot_generation s <? c)%Z <$> generation)
          then None
          else Some (gate_set g (snapshot_repositoryId s) (Some (snapshot_epoch s, Some (snapshot_generation s))))
      | None => None
      end
  | MDelta d =>
      match g (delta_repositoryId d) with
      | Some (epoch, Some generation) =>
          if (epoch =? delta_epoch d)%Z && (generation <? delta_generation d)%Z
          then Some (gate_set g (delta_repositoryId d) (Some (epoch, Some (delta_generation d)))) else None
      | _ => None
      end
  | MStale mk =>
      match g (mark_repositoryId mk) with
      | Some (epoch, Some generation) => if (epoch =? mark_epoch mk)%Z then Some g else None
      | _ => None
      end
  end.

(** A sink runs messages, throws or not, and shows its gate.  It only lets
    through what the gate lets through, and then follows it.  [sink_msg] are
    the messages its clients may send. *)
Class StatusSink (S : Type) := {
  sink_run : message -> S -> option js_error * S;
  sink_gate : S -> gate;
  sink_inv : S -> Prop;
  sink_msg : message -> Prop;
  sink_sound m s s' : sink_msg m -> sink_inv s -> sink_run m s = (None, s') ->
    exists g', gate_step m (sink_gate s) = Some g' /\ forall id, sink_gate s' id = g' id;
}.

(** A sink with no reason of its own to refuse a message. *)
Class CompleteSink (S : Type) `{StatusSink S} := {
  sink_complete m s : sink_msg m -> sink_inv s -> is_Some (gate_step m (sink_gate s)) ->
    exists s', sink_run m s = (None, s') /\ sink_inv s';
}.

(** The gate step only looks at the gate pointwise. *)
Lemma gate_step_ext m g1 g2 g1' :
  (forall id, g1 id = g2 id) -> gate_step m g1 = Some g1' ->
  exists g2', gate_step m g2 = Some g2' /\ forall id, g1' id = g2' id.
Proof.
  intros Heq. assert (forall id x id', gate_set g1 id x id' = gate_set g2 id x id') as Hset.
  { intros. unfold gate_set. by rewrite Heq. }
  destruct m; cbn [gate_step]; rewrite <- ?Heq; repeat case_match; intros; simplify_eq; eexists; (split; [done|]); auto.
Qed.

(** Clients that send each message to a first sink, and to a second one when
    the first accepts it, keep the two in step. *)
Section Lockstep.
Context {A B : Type} `{SA : StatusSink A} `{SB : StatusSink B} `{!CompleteSink B}.

Lemma lockstep m (a a' : A) (b : B) :
  sink_msg (S:=A) m -> sink_msg (S:=B) m -> sink_inv a -> sink_inv b -> (forall id, sink_gate a id = sink_gate b id) ->
  sink_run m a = (None, a') ->
  exists b', sink_run m b = (None, b') /\ sink_inv b' /\ forall id, sink_gate a' id = sink_gate b' id.
Proof.
  intros Hma Hmb Ha Hb Heq Hrun.
  destruct (sink_sound m a a' Hma Ha Hrun) as (ga & Hga & Ha').
  destruct (gate_step_ext m _ _ ga Heq Hga) as (gb & Hgb & Hab).
  destruct (sink_complete m b Hmb Hb) as (b' & Hb' & Hinv); [by rewrite Hgb|].
  exists b'. split; [done|]. split; [done|].
  destruct (sink_sound m b b' Hmb Hb Hb') as (gb' & Hgb' & Hbb). intros id.
  rewrite Ha', Hab, Hbb. congruence.
Qed.
End Lockstep.

(** ** The projection of a well-formed state never throws *)
Section Projection.
Variable localeCompareEn localeCompare : string -> string -> comparison.

Lemma changelistName_roundtrip name :
  changelistNameFromResourceGroupId (changelistResourceGroupId name) = Ok name.
Proof.
  unfold changelistNameFromResourceGroupId, changelistResourceGroupId.
  rewrite slice_from_app. apply decode_encode.
Qed.

Lemma mapi_total {X Y} (f : nat -> X -> result Y) l :
  (forall i x, x ∈ l -> exists y, f i x = Ok y) -> exists ys, mapi f l = Ok ys.
Proof.
  unfold mapi. generalize 0. induction l as [|x l IH]; intros i Hf; [by eexists|]. cbn [mapi_from].
  destruct (Hf i x) as [y Hy]; [apply list_elem_of_here|].
  destruct (IH (S i)) as [ys Hys]; [intros; by apply Hf, list_elem_of_further|].
  exists (y :: ys). by rewrite Hy; cbn; rewrite Hys.
Qed.

Lemma projectionFromState_total state policy g f :
  pr_ok (SourceControlResourceStore.ps_projected state) ->
  SourceControlResourceStore.ps_generation state = Some g ->
  SourceControlResourceStore.ps_freshness state = Some f ->
  exists proj, SourceControlResourceStore.projectionFromState localeCompareEn localeCompare state policy = Ok proj.
Proof.
  intros Hpr Hg Hf.
  unfold SourceControlResourceStore.projectionFromState, SourceControlResourceStore.requireFreshness.
  rewrite Hg, Hf. cbn.
  unfold SourceControlResourceStore.projectionGroupsFromState, SourceControlResourceStore.changelistProjectionGroups.
  set (listed := List.filter _ _).
  destruct (mapi_total (fun _ gr => name ← changelistNameFromResourceGroupId (fst gr); Ok (name, gr)) listed)
    as [named Hnamed].
  { intros _ [gid m] Hin. apply list_elem_of_In, filter_In in Hin as [Hin Hb].
    apply andb_prop in Hb as [Hc _]. cbn [fst] in Hc.
    destruct (pr_groups_ids _ Hpr gid) as [Hfix|[name ->]].
    - change gid with (fst (gid, m)). unfold map_keys. by apply list_elem_of_In, in_map.
    - by rewrite (fixed_not_changelist gid Hfix) in Hc.
    - exists (name, (changelistResourceGroupId name, m)). cbn [fst]. by rewrite changelistName_roundtrip. }
  rewrite Hnamed. cbn. by eexists.
Qed.
End Projection.

(** ** The canonical store as a sink *)
Definition op_of (m : message) : op :=
  match m with
  | MRegister id epoch _ => OpRegister id epoch
  | MUnregister id => OpUnregister id
  | MSnapshot s => OpSnapshot s
  | MReplace s => OpReplace s
  | MDelta d => OpDelta d
  | MStale mk => OpStale mk
  end.

Definition status_gate (s : StatusSnapshotStore.store) : gate := fun id =>
  (fun st => (StatusSnapshotStore.st_epoch st, StatusSnapshotStore.st_generation st)) <$> map_get s id.

Lemma status_gate_set s id st id' :
  status_gate (map_set s id st) id' =
  gate_set (status_gate s) id (Some (StatusSnapshotStore.st_epoch st, StatusSnapshotStore.st_generation st)) id'.
Proof. unfold status_gate, gate_set. rewrite map_get_set. by case_bool_decide. Qed.

Lemma status_gate_get s id st :
  map_get s id = Some st ->
  status_gate s id = Some (StatusSnapshotStore.st_epoch st, StatusSnapshotStore.st_generation st).
Proof. unfold status_gate. by intros ->. Qed.

Lemma status_sound m s s' :
  exec (op_of m) s = (None, s') ->
  exists g', gate_step m (status_gate s) = Some g' /\ forall id, status_gate s' id = g' id.
Proof.
  unfold exec. destruct m as [id ep root|id|snap|snap|d|mk]; cbn [op_of gate_step].
  - pose proof (registerRepository_cases id ep s) as H.
    destruct (StatusSnapshotStore.registerRepository id ep s) as [[[]|e] s1]; [|done]. intros [= <-].
    destruct H as (st & Hnone & _ & _ & -> & _ & He & Hg).
    unfold status_gate at 1. rewrite Hnone. cbn. eexists. split; [done|]. intros id'.
    rewrite status_gate_set. by rewrite He, Hg.
  - cbn. intros [= <-]. eexists. split; [done|]. intros id'. unfold status_gate, gate_set.
    rewrite map_get_delete. by case_bool_decide.
  - pose proof (applySnapshot_cases snap s) as H.
    destruct (StatusSnapshotStore.applySnapshot snap s) as [[out|e] s1]; [|done]. intros [= <-].
    destruct H as (st & Hst & He & Hg & -> & _). rewrite (status_gate_get _ _ _ Hst).
    rewrite He, Z.eqb_refl. cbn [andb].
    replace (negb _) with true; [eexists; split; [done|]; intros; by rewrite status_gate_set|].
    destruct (StatusSnapshotStore.st_generation st) as [g0|]; [|done]. cbn. specialize (Hg g0 eq_refl). lia.
  - pose proof (replaceSnapshot_cases snap s) as H.
    destruct (StatusSnapshotStore.replaceSnapshot snap s) as [[out|e] s1]; [|done]. intros [= <-].
    destruct H as (st & Hst & Hg & -> & _). rewrite (status_gate_get _ _ _ Hst).
    replace (_ && _) with false; [eexists; split; [done|]; intros; by rewrite status_gate_set|].
    destruct (Z.eqb_spec (StatusSnapshotStore.st_epoch st) (snapshot_epoch snap)) as [He|]; [|done].
    specialize (Hg He). destruct (StatusSnapshotStore.st_generation st) as [g0|]; [|done].
    cbn. specialize (Hg g0 eq_refl). lia.
  - pose proof (applyDelta_cases d s) as H.
    destruct (StatusSnapshotStore.applyDelta d s) as [[out|e] s1]; [|done]. intros [= <-].
    destruct H as (st & i & sum & Hst & He & Hi & Hg & _ & -> & _).
    apply initialized_spec in Hi as [Hgen _]. rewrite (status_gate_get _ _ _ Hst), Hgen, He, Z.eqb_refl.
    replace (StatusSnapshotStore.init_generation i <? delta_generation d)%Z with true by lia. cbn [andb].
    eexists; split; [done|]; intros. rewrite status_gate_set. cbn. by rewrite He.
  - pose proof (markStale_cases mk s) as H.
    destruct (StatusSnapshotStore.markStale mk s) as [[out|e] s1]; [|done]. intros [= <-].
    destruct H as (st & i & Hst & He & Hi & -> & _).
    apply initialized_spec in Hi as [Hgen _]. rewrite (status_gate_get _ _ _ Hst), Hgen, He, Z.eqb_refl.
    eexists; split; [done|]; intros id'. rewrite status_gate_set. cbn. unfold gate_set.
    case_bool_decide as Hb; [|done]. subst id'. by rewrite (status_gate_get _ _ _ Hst).
Qed.

#[export] Instance status_sink : StatusSink StatusSnapshotStore.store := {
  sink_run m s := exec (op_of m) s;
  sink_gate := status_gate;
  sink_inv _ := True;
  sink_msg _ := True;
  sink_sound m s s' _ _ := status_sound m s s';
}.

(** ** The projection store as a sink *)
Section ProjectionSink.
Variable localeCompareEn localeCompare : string -> string -> comparison.
Import SourceControlResourceStore.
Notation view_ok := (view_ok localeCompareEn).

Definition drop {A S} (r : result A * S) : option js_error * S :=
  match r with (Ok _, s) => (None, s) | (Throw e, s) => (Some e, s) end.

Definition projection_run (m : message) (st : store) : option js_error * store :=
  match m with
  | MRegister id epoch root =>
      drop (registerRepository {| repo_repositoryId := id; repo_epoch := epoch; repo_workingCopyRoot := root |} st)
  | MUnregister id => drop (unregisterRepository id st)
  | MSnapshot s => drop (applySnapshot localeCompareEn localeCompare s st)
  | MReplace s => drop (replaceSnapshot localeCompareEn localeCompare s st)
  | MDelta d => drop (applyDelta localeCompareEn localeCompare d st)
  | MStale mk => drop (markStale localeCompareEn localeCompare mk st)
  end.

Definition projection_gate (st : store) : gate := fun id =>
  (fun state => (ps_epoch state, ps_generation state)) <$> map_get (repositories st) id.

(** A stored projection state: it shows some remote entries, and knows its
    freshness once it has a generation. *)
Record pstate_ok (id : string) (state : RepositoryProjectionState) (remote : list (string * StatusEntry)) : Prop := {
  pstate_id : ps_repositoryId state = id;
  pstate_view : view_ok state remote;
  pstate_fresh : is_Some (ps_generation state) -> is_Some (ps_freshness state);
}.

Definition projection_inv (st : store) : Prop :=
  forall id state, map_get (repositories st) id = Some state -> exists remote, pstate_ok id state remote.

(** Inputs both stores take: named registrations, and snapshots without a
    duplicate remote path.  The session service registers what the parser of open
    responses has checked; no parser refuses a duplicate remote path
    ([duplicate_remote_shown] of Witnesses.v). *)
Definition message_ok (m : message) : Prop :=
  match m with
  | MRegister id epoch root => text_ok id /\ count_ok epoch /\ text_ok root
  | MSnapshot s | MReplace s => NoDup (map entry_path (snapshot_remoteEntries s))
  | _ => True
  end.

Definition store_set (st : store) (id : string) (state : RepositoryProjectionState) : store :=
  {| repositories := map_set (repositories st) id state; countPolicy := countPolicy st |}.

Lemma projection_gate_set st id state id' :
  projection_gate (store_set st id state) id' =
  gate_set (projection_gate st) id (Some (ps_epoch state, ps_generation state)) id'.
Proof. unfold projection_gate, gate_set. cbn. rewrite map_get_set. by case_bool_decide. Qed.

Lemma projection_gate_get st id state :
  map_get (repositories st) id = Some state -> projection_gate st id = Some (ps_epoch state, ps_generation state).
Proof. unfold projection_gate. by intros ->. Qed.

Lemma projection_inv_set st id state remote :
  projection_inv st -> pstate_ok id state remote -> projection_inv (store_set st id state).
Proof.
  intros Hinv Hok id' state'. cbn. rewrite map_get_set. case_bool_decide; [|apply Hinv].
  intros [= <-]. subst. by eexists.
Qed.

(** The new states. *)
Definition snapshot_pstate (state : RepositoryProjectionState) (s : StatusSnapshot) :=
  applySnapshotToState localeCompareEn (with_epoch state (snapshot_epoch s)) s.
Definition delta_pstate (state : RepositoryProjectionState) (f : ScmProjectionFreshness) (d : StatusDelta) :=
  with_freshness (applyDeltaToState localeCompareEn state d) (freshnessAfterDelta f (delta_completeness d)).
Definition stale_pstate (state : RepositoryProjectionState) :=
  with_freshness state {| repositoryCompleteness := Stale; lastRefreshCompleteness := Stale; lastRefreshKind := RStale |}.

Lemma applyDeltaToState_fields state d :
  let s' := applyDeltaToState localeCompareEn state d in
  ps_repositoryId s' = ps_repositoryId state /\ ps_epoch s' = ps_epoch state /\
  ps_generation s' = Some (delta_generation d) /\ ps_freshness s' = ps_freshness state.
Proof. unfold applyDeltaToState. by destruct (deltaEntries (ps_entries state) d). Qed.

Lemma with_freshness_view state f remote : view_ok state remote -> view_ok (with_freshness state f) remote.
Proof. by intros []. Qed.

Lemma snapshot_pstate_ok id state remote s :
  pstate_ok id state remote -> NoDup (map entry_path (snapshot_remoteEntries s)) ->
  pstate_ok id (snapshot_pstate state s) (by_path (snapshot_remoteEntries s)).
Proof.
  intros [Hid _ _] Hnd. split; [done| |by eexists].
  by apply (applySnapshotToState_ok localeCompareEn (with_epoch state (snapshot_epoch s)) s).
Qed.

Lemma delta_pstate_ok id state remote f d :
  pstate_ok id state remote -> pstate_ok id (delta_pstate state f d) (apply_remote remote d).
Proof.
  intros [Hid Hview _]. destruct (applyDeltaToState_fields state d) as (Hi & _ & _ & _).
  split; [cbn; congruence| |by eexists]. apply with_freshness_view.
  by apply (applyDeltaToState_ok localeCompareEn state remote d).
Qed.

Lemma stale_pstate_ok id state remote : pstate_ok id state remote -> pstate_ok id (stale_pstate state) remote.
Proof. intros [Hid Hview _]. split; [done|by apply with_freshness_view|by eexists]. Qed.

Lemma commit_run id state st :
  pr_ok (ps_projected state) -> is_Some (ps_generation state) -> is_Some (ps_freshness state) ->
  exists proj, commit localeCompareEn localeCompare id state st = (Ok proj, store_set st id state)
    /\ projectionFromState localeCompareEn localeCompare state (countPolicy st) = Ok proj.
Proof.
  intros Hpr [g Hg] [f Hf].
  destruct (projectionFromState_total localeCompareEn localeCompare state (countPolicy st) g f Hpr Hg Hf) as [proj Hp].
  exists proj. split; [|done]. unfold commit, mbind, method_bind, get_state, put_state, lift_result. by rewrite Hp.
Qed.

Ltac run_projection :=
  unfold applySnapshot, replaceSnapshot, applyDelta, markStale, registerRepository, requireRepository,
    requireEpoch, requireNotOlder, lift_result, require, modify_state, throw_error, get_state, mbind, method_bind,
    mret, method_ret;
  cbn beta iota zeta.

(** Each operation: where it returns, and the store it leaves. *)
Lemma delta_run st state remote d g :
  map_get (repositories st) (delta_repositoryId d) = Some state -> pstate_ok (delta_repositoryId d) state remote ->
  ps_epoch state = delta_epoch d -> ps_generation state = Some g -> (g < delta_generation d)%Z ->
  exists proj f, ps_freshness state = Some f /\
    applyDelta localeCompareEn localeCompare d st = (Ok proj, store_set st (delta_repositoryId d) (delta_pstate state f d)) /\
    projectionFromState localeCompareEn localeCompare (delta_pstate state f d) (countPolicy st) = Ok proj.
Proof.
  intros Hget Hok He Hg Hlt. destruct (pstate_fresh _ _ _ Hok) as [f Hf]; [by rewrite Hg|].
  pose proof (delta_pstate_ok _ _ _ f d Hok) as [Hid Hview _].
  destruct (applyDeltaToState_fields state d) as (_ & _ & Hgen & Hfr).
  destruct (commit_run (delta_repositoryId d) (delta_pstate state f d) (store_set st (delta_repositoryId d)
    (applyDeltaToState localeCompareEn state d))) as (proj & Hc & Hp); [apply Hview|by exists (delta_generation d)|by eexists|].
  exists proj, f. split; [done|]. split; [|done]. run_projection. rewrite Hget, He, Z.eqb_refl, Hg.
  replace (delta_generation d <=? g)%Z with false by lia. unfold requireFreshness. rewrite Hfr, Hf.
  unfold delta_pstate, store_set in *. cbn [repositories countPolicy] in Hc. rewrite Hc. by rewrite map_set_set.
Qed.

Lemma stale_run st state remote mk g :
  map_get (repositories st) (mark_repositoryId mk) = Some state -> pstate_ok (mark_repositoryId mk) state remote ->
  ps_epoch state = mark_epoch mk -> ps_generation state = Some g ->
  exists proj, markStale localeCompareEn localeCompare mk st = (Ok proj, store_set st (mark_repositoryId mk) (stale_pstate state)).
Proof.
  intros Hget Hok He Hg. pose proof (stale_pstate_ok _ _ _ Hok) as [_ Hview _].
  destruct (commit_run (mark_repositoryId mk) (stale_pstate state) st) as (proj & Hc & _);
    [apply Hview|by exists g|by eexists|].
  exists proj. run_projection. by rewrite Hget, He, Z.eqb_refl, Hg.
Qed.

Lemma with_epoch_same state : with_epoch state (ps_epoch state) = state.
Proof. by destruct state. Qed.

Lemma snapshot_run st state remote s :
  map_get (repositories st) (snapshot_repositoryId s) = Some state ->
  pstate_ok (snapshot_repositoryId s) state remote -> NoDup (map entry_path (snapshot_remoteEntries s)) ->
  ps_epoch state = snapshot_epoch s -> default false ((fun c => snapshot_generation s <? c)%Z <$> ps_generation state) = false ->
  exists proj, applySnapshot localeCompareEn localeCompare s st =
    (Ok proj, store_set st (snapshot_repositoryId s) (snapshot_pstate state s)).
Proof.
  intros Hget Hok Hnd He Hg. pose proof (snapshot_pstate_ok _ _ _ s Hok Hnd) as [_ Hview _].
  destruct (commit_run (snapshot_repositoryId s) (snapshot_pstate state s) st) as (proj & Hc & _);
    [apply Hview|by eexists|by eexists|].
  exists proj. run_projection. rewrite Hget, He, Z.eqb_refl.
  unfold snapshot_pstate in Hc. rewrite <- He, with_epoch_same in Hc.
  destruct (ps_generation state) as [g|]; cbn in *; [rewrite Hg; cbn|]; rewrite Hc;
    unfold snapshot_pstate; by rewrite <- He, with_epoch_same.
Qed.

Lemma replace_run st state remote s :
  map_get (repositories st) (snapshot_repositoryId s) = Some state ->
  pstate_ok (snapshot_repositoryId s) state remote -> NoDup (map entry_path (snapshot_remoteEntries s)) ->
  (ps_epoch state =? snapshot_epoch s)%Z && default false ((fun c => snapshot_generation s <? c)%Z <$> ps_generation state) = false ->
  exists proj, replaceSnapshot localeCompareEn localeCompare s st =
    (Ok proj, store_set st (snapshot_repositoryId s) (snapshot_pstate state s)).
Proof.
  intros Hget Hok Hnd Hg. pose proof (snapshot_pstate_ok _ _ _ s Hok Hnd) as [_ Hview _].
  destruct (commit_run (snapshot_repositoryId s) (snapshot_pstate state s) st) as (proj & Hc & _);
    [apply Hview|by eexists|by eexists|].
  exists proj. unfold snapshot_pstate in *. run_projection. rewrite Hget.
  destruct (ps_epoch state =? snapshot_epoch s)%Z; [|by rewrite Hc].
  destruct (ps_generation state) as [g|]; cbn in *; [rewrite Hg; cbn|]; by rewrite Hc.
Qed.

Definition new_pstate (id : string) (epoch : Z) (root : string) : RepositoryProjectionState :=
  {| ps_repositoryId := id; ps_epoch := epoch; ps_workingCopyRoot := root; ps_generation := None;
     ps_freshness := None; ps_entries := emptyEntries; ps_projected := emptyProjected |}.

Lemma new_pstate_ok id epoch root : pstate_ok id (new_pstate id epoch root) [].
Proof.
  split; [done| |by intros [? ?]]. split; [apply le_ok_empty|apply pr_ok_empty|done|done].
Qed.

Lemma register_run st id epoch root :
  map_get (repositories st) id = None -> text_ok id -> count_ok epoch -> text_ok root ->
  registerRepository {| repo_repositoryId := id; repo_epoch := epoch; repo_workingCopyRoot := root |} st
  = (Ok tt, store_set st id (new_pstate id epoch root)).
Proof.
  intros Hget Hid He Hroot. run_projection. cbn [repo_repositoryId repo_epoch repo_workingCopyRoot].
  rewrite Hid, Hroot. cbn [negb]. unfold map_has. rewrite Hget.
  replace (negb (isSafeInteger epoch) || (epoch <? 0)%Z) with false; [done|].
  unfold count_ok, isSafeInteger, MAX_SAFE_INTEGER in *. lia.
Qed.

(** The projection store follows the gate exactly: it throws and stays as it
    was where the gate refuses, and returns where it accepts. *)
Definition follows_gate (m : message) (st : store) : Prop :=
  match gate_step m (projection_gate st) with
  | None => exists e, projection_run m st = (Some e, st)
  | Some g' => exists st', projection_run m st = (None, st') /\ projection_inv st' /\
      forall id, projection_gate st' id = g' id
  end.

Lemma register_follows id ep root st : message_ok (MRegister id ep root) -> projection_inv st -> follows_gate (MRegister id ep root) st.
Proof.
  intros Hm Hinv. unfold follows_gate. cbn [gate_step projection_run message_ok] in *.
  unfold projection_gate at 1. destruct (map_get (repositories st) id) as [state|] eqn:Hget; cbn.
  - run_projection. cbn. unfold map_has. rewrite Hget.
    repeat (match goal with |- context [if ?b then _ else _] => destruct b end; [by eexists|]). by eexists.
  - destruct Hm as (? & ? & ?). rewrite register_run by done. eexists. split; [done|]. split.
    + eapply projection_inv_set; [done|apply new_pstate_ok].
    + intros id'. apply projection_gate_set.
Qed.

Lemma unregister_follows id st : message_ok (MUnregister id) -> projection_inv st -> follows_gate (MUnregister id) st.
Proof.
  intros Hm Hinv. unfold follows_gate. cbn [gate_step projection_run message_ok] in *.
  eexists. split; [done|]. split.
  - intros id' state'. cbn. rewrite map_get_delete. case_bool_decide; [done|apply Hinv].
  - intros id'. unfold projection_gate, gate_set. cbn. rewrite map_get_delete. by case_bool_decide.
Qed.

Lemma snapshot_follows s st : message_ok (MSnapshot s) -> projection_inv st -> follows_gate (MSnapshot s) st.
Proof.
  intros Hm Hinv. unfold follows_gate. cbn [gate_step projection_run message_ok] in *.
  destruct (map_get (repositories st) (snapshot_repositoryId s)) as [state|] eqn:Hget.
  2: { unfold projection_gate. rewrite Hget. cbn. run_projection. rewrite Hget. by eexists. }
  rewrite (projection_gate_get _ _ _ Hget). destruct (Hinv _ _ Hget) as [remote Hok].
  destruct (Z.eqb_spec (ps_epoch state) (snapshot_epoch s)) as [He|He]; cbn [andb].
  2: { run_projection. rewrite Hget. replace (ps_epoch state =? snapshot_epoch s)%Z with false by lia. by eexists. }
  destruct (default false _) eqn:Hd; cbn [negb].
  - run_projection. rewrite Hget, He, Z.eqb_refl. destruct (ps_generation state) as [g|]; [|done].
    cbn in Hd. rewrite Hd. by eexists.
  - destruct (snapshot_run st state remote s Hget Hok Hm He Hd) as [proj ->]. eexists. split; [done|]. split.
    + eapply projection_inv_set; [done|by eapply snapshot_pstate_ok].
    + intros id'. rewrite projection_gate_set. cbn. by rewrite He.
Qed.

Lemma replace_follows s st : message_ok (MReplace s) -> projection_inv st -> follows_gate (MReplace s) st.
Proof.
  intros Hm Hinv. unfold follows_gate. cbn [gate_step projection_run message_ok] in *.
  destruct (map_get (repositories st) (snapshot_repositoryId s)) as [state|] eqn:Hget.
  2: { unfold projection_gate. rewrite Hget. cbn. run_projection. rewrite Hget. by eexists. }
  rewrite (projection_gate_get _ _ _ Hget). destruct (Hinv _ _ Hget) as [remote Hok].
  destruct (_ && _) eqn:Hd.
  - apply andb_prop in Hd as [He Hd]. run_projection. rewrite Hget, He.
    destruct (ps_generation state) as [g|]; [|done]. cbn in Hd. rewrite Hd. by eexists.
  - destruct (replace_run st state remote s Hget Hok Hm Hd) as [proj ->]. eexists. split; [done|]. split.
    + eapply projection_inv_set; [done|by eapply snapshot_pstate_ok].
    + intros id'. by rewrite projection_gate_set.
Qed.

Lemma delta_follows d st : message_ok (MDelta d) -> projection_inv st -> follows_gate (MDelta d) st.
Proof.
  intros Hm Hinv. unfold follows_gate. cbn [gate_step projection_run message_ok] in *.
  destruct (map_get (repositories st) (delta_repositoryId d)) as [state|] eqn:Hget.
  2: { unfold projection_gate. rewrite Hget. cbn. run_projection. rewrite Hget. by eexists. }
  rewrite (projection_gate_get _ _ _ Hget). destruct (Hinv _ _ Hget) as [remote Hok].
  destruct (ps_generation state) as [g|] eqn:Hg.
  2: { run_projection. rewrite Hget, Hg. destruct (_ =? _)%Z; by eexists. }
  destruct (Z.eqb_spec (ps_epoch state) (delta_epoch d)) as [He|He]; cbn [andb].
  2: { run_projection. rewrite Hget. replace (ps_epoch state =? delta_epoch d)%Z with false by lia. by eexists. }
  destruct (Z.ltb_spec g (delta_generation d)) as [Hlt|Hle].
  - destruct (delta_run st state remote d g Hget Hok He Hg Hlt) as (proj & f & Hf & -> & _).
    eexists. split; [done|]. split.
    + eapply projection_inv_set; [done|by eapply delta_pstate_ok].
    + intros id'. rewrite projection_gate_set. destruct (applyDeltaToState_fields state d) as (_ & H1 & H2 & _).
      unfold delta_pstate. cbn [with_freshness ps_epoch ps_generation]. by rewrite H1, H2.
  - run_projection. rewrite Hget, He, Z.eqb_refl, Hg.
    replace (delta_generation d <=? g)%Z with true by lia. by eexists.
Qed.

Lemma stale_follows mk st : message_ok (MStale mk) -> projection_inv st -> follows_gate (MStale mk) st.
Proof.
  intros Hm Hinv. unfold follows_gate. cbn [gate_step projection_run message_ok] in *.
  destruct (map_get (repositories st) (mark_repositoryId mk)) as [state|] eqn:Hget.
  2: { unfold projection_gate. rewrite Hget. cbn. run_projection. rewrite Hget. by eexists. }
  rewrite (projection_gate_get _ _ _ Hget). destruct (Hinv _ _ Hget) as [remote Hok].
  destruct (ps_generation state) as [g|] eqn:Hg.
  2: { run_projection. rewrite Hget, Hg. destruct (_ =? _)%Z; by eexists. }
  destruct (Z.eqb_spec (ps_epoch state) (mark_epoch mk)) as [He|He].
  - destruct (stale_run st state remote mk g Hget Hok He Hg) as [proj ->]. eexists. split; [done|]. split.
    + eapply projection_inv_set; [done|by eapply stale_pstate_ok].
    + intros id'. rewrite projection_gate_set. cbn. unfold gate_set. case_bool_decide as Hb; [|done].
      subst id'. by rewrite (projection_gate_get _ _ _ Hget).
  - run_projection. rewrite Hget. replace (ps_epoch state =? mark_epoch mk)%Z with false by lia. by eexists.
Qed.

Lemma projection_step m st : message_ok m -> projection_inv st -> follows_gate m st.
Proof.
  destruct m; [apply register_follows|apply unregister_follows|apply snapshot_follows|
               apply replace_follows|apply delta_follows|apply stale_follows].
Qed.

#[export] Instance projection_sink : StatusSink store.
Proof.
  refine {| sink_run := projection_run; sink_gate := projection_gate; sink_inv := projection_inv;
            sink_msg := message_ok |}.
  intros m s s' Hm Hinv Hrun. pose proof (projection_step m s Hm Hinv) as H. unfold follows_gate in H. rewrite Hrun in H.
  destruct (gate_step m (projection_gate s)) as [g'|]; [|by destruct H as [e ?]].
  destruct H as (st' & [= <-] & _ & Hg). by exists g'.
Defined.

#[export] Instance projection_complete : CompleteSink store.
Proof.
  split. intros m s Hm Hinv [g' Hg]. pose proof (projection_step m s Hm Hinv) as H. unfold follows_gate in H.
  change (sink_gate s) with (projection_gate s) in Hg. rewrite Hg in H. destruct H as (st' & Hrun & Hi & _).
  by exists st'.
Qed.
End ProjectionSink.

(** ** The data of the two stores *)
Section Agree.
Variable localeCompareEn localeCompare : string -> string -> comparison.
Import SourceControlResourceStore.
Notation projection_run := (projection_run localeCompareEn localeCompare).
Notation pstate_ok := (pstate_ok localeCompareEn).

(** The projection state of a repository against its canonical state. *)
Record related (id : string) (a : StatusSnapshotStore.RepositoryState) (b : RepositoryProjectionState) : Prop := {
  related_ok : pstate_ok id b (StatusSnapshotStore.st_remoteEntries a);
  related_epoch : ps_epoch b = StatusSnapshotStore.st_epoch a;
  related_generation : ps_generation b = StatusSnapshotStore.st_generation a;
  related_local p : entry_at (ps_entries b) p = map_get (StatusSnapshotStore.st_localEntries a) p;
}.

Definition agree (ss : StatusSnapshotStore.store) (st : store) : Prop :=
  forall id, match map_get ss id, map_get (repositories st) id with
             | Some a, Some b => related id a b
             | None, None => True
             | _, _ => False
             end.

Lemma agree_get ss st id a :
  agree ss st -> map_get ss id = Some a -> exists b, map_get (repositories st) id = Some b /\ related id a b.
Proof.
  intros H Ha. specialize (H id). rewrite Ha in H. destruct (map_get (repositories st) id) as [b|]; [|done]. eauto.
Qed.

Lemma agree_set ss st id a b : agree ss st -> related id a b -> agree (map_set ss id a) (store_set st id b).
Proof.
  intros H Hr id'. cbn. rewrite !map_get_set. destruct (bool_decide_reflect (id = id')) as [<-|]; [done|apply H].
Qed.

Lemma agree_delete ss st id :
  agree ss st ->
  agree (map_delete ss id) {| repositories := map_delete (repositories st) id; countPolicy := countPolicy st |}.
Proof. intros H id'. cbn. rewrite !map_get_delete. case_bool_decide; [done|apply H]. Qed.

Lemma related_snapshot id a b s :
  related id a b -> NoDup (map entry_path (snapshot_remoteEntries s)) ->
  related id (snapshot_state a s) (snapshot_pstate localeCompareEn b s).
Proof.
  intros [Hok _ _ _] Hnd. split; [by eapply snapshot_pstate_ok|done|done|].
  by apply (applySnapshotToState_ok localeCompareEn (with_epoch b (snapshot_epoch s)) s).
Qed.

(** One side of a delta only looks at the map it starts from by key. *)
Lemma applyEntries_ext (m1 m2 : list (string * StatusEntry)) remove upsert :
  (forall p, map_get m1 p = map_get m2 p) ->
  forall p, map_get (StatusSnapshotStore.applyEntries m1 remove upsert) p =
            map_get (StatusSnapshotStore.applyEntries m2 remove upsert) p.
Proof.
  intros Heq. unfold StatusSnapshotStore.applyEntries.
  assert (forall p, map_get (fold_left map_delete remove m1) p = map_get (fold_left map_delete remove m2) p) as Hd.
  { intros p. rewrite !map_get_fold_delete. by rewrite Heq. }
  revert Hd. generalize (fold_left map_delete remove m1) (fold_left map_delete remove m2).
  induction upsert as [|e l IH]; intros n1 n2 Hn; cbn [fold_left]; [done|]. apply IH.
  intros p. rewrite !map_get_set. by rewrite Hn.
Qed.

Lemma related_delta id a b f d summary :
  related id a b -> related id (delta_state a d summary) (delta_pstate localeCompareEn b f d).
Proof.
  intros [Hok He Hg Hl]. destruct (applyDeltaToState_fields localeCompareEn b d) as (_ & Hep & Hgen & _). split.
  - exact (delta_pstate_ok localeCompareEn id b _ f d Hok).
  - unfold delta_pstate. cbn. congruence.
  - unfold delta_pstate. cbn. congruence.
  - intros p. destruct (applyDeltaToState_ok localeCompareEn b _ d (pstate_view _ _ _ _ Hok)) as [_ Hent].
    unfold delta_pstate. cbn [with_freshness ps_entries]. rewrite Hent. cbn.
    by apply applyEntries_ext.
Qed.

(** A message the canonical store accepts is accepted by an agreeing
    projection store, and they agree afterwards. *)
Definition keeps_agreement (m : message) : Prop := forall ss ss' st,
  message_ok m -> agree ss st -> exec (op_of m) ss = (None, ss') ->
  exists st', projection_run m st = (None, st') /\ agree ss' st'.

Lemma register_agrees id ep root : keeps_agreement (MRegister id ep root).
Proof.
  intros ss ss' st Hm Hag. unfold exec. cbn [op_of StoresAgree.projection_run message_ok] in *.
  pose proof (registerRepository_cases id ep ss) as H.
  destruct (StatusSnapshotStore.registerRepository id ep ss) as [[[]|e] s1] eqn:Hreg; [|done]. intros [= <-].
  destruct H as (a & Hnone & _ & _ & -> & Ha & He & Hg). destruct Hm as (? & ? & ?).
  specialize (Hag id) as Hid. rewrite Hnone in Hid. destruct (map_get (repositories st) id) eqn:Hget; [done|].
  rewrite register_run by done. eexists. split; [done|]. apply agree_set; [done|].
  destruct Ha as [_ _ _ [(_ & Hl & Hr)|(i & Hi & _)]].
  - split; cbn; [rewrite Hr; apply new_pstate_ok|done|done|]. intros p. by rewrite Hl.
  - apply initialized_spec in Hi as [Hgi _]. congruence.
Qed.

Lemma unregister_agrees id : keeps_agreement (MUnregister id).
Proof.
  intros ss ss' st Hm Hag. unfold exec. cbn [op_of StoresAgree.projection_run message_ok] in *.
  cbn. intros [= <-]. eexists. split; [done|]. by apply agree_delete.
Qed.

Lemma snapshot_agrees s : keeps_agreement (MSnapshot s).
Proof.
  intros ss ss' st Hm Hag. unfold exec. cbn [op_of StoresAgree.projection_run message_ok] in *.
  pose proof (applySnapshot_cases s ss) as H.
  destruct (StatusSnapshotStore.applySnapshot s ss) as [[out|e] s1]; [|done]. intros [= <-].
  destruct H as (a & Ha & He & Hg & -> & _). destruct (agree_get _ _ _ _ Hag Ha) as (b & Hb & Hr).
  destruct (snapshot_run localeCompareEn localeCompare st b _ s Hb (related_ok _ _ _ Hr) Hm) as [proj ->].
  { by rewrite (related_epoch _ _ _ Hr). }
  { rewrite (related_generation _ _ _ Hr). destruct (StatusSnapshotStore.st_generation a) as [g0|]; [|done].
    cbn. specialize (Hg g0 eq_refl). lia. }
  eexists. split; [done|]. apply agree_set; [done|]. by apply related_snapshot.
Qed.

Lemma replace_agrees s : keeps_agreement (MReplace s).
Proof.
  intros ss ss' st Hm Hag. unfold exec. cbn [op_of StoresAgree.projection_run message_ok] in *.
  pose proof (replaceSnapshot_cases s ss) as H.
  destruct (StatusSnapshotStore.replaceSnapshot s ss) as [[out|e] s1]; [|done]. intros [= <-].
  destruct H as (a & Ha & Hg & -> & _). destruct (agree_get _ _ _ _ Hag Ha) as (b & Hb & Hr).
  destruct (replace_run localeCompareEn localeCompare st b _ s Hb (related_ok _ _ _ Hr) Hm) as [proj ->].
  { rewrite (related_epoch _ _ _ Hr), (related_generation _ _ _ Hr).
    destruct (Z.eqb_spec (StatusSnapshotStore.st_epoch a) (snapshot_epoch s)) as [He|]; [|done].
    destruct (StatusSnapshotStore.st_generation a) as [g0|]; [|done].
    cbn. specialize (Hg He g0 eq_refl). lia. }
  eexists. split; [done|]. apply agree_set; [done|]. by apply related_snapshot.
Qed.

Lemma delta_agrees d : keeps_agreement (MDelta d).
Proof.
  intros ss ss' st Hm Hag. unfold exec. cbn [op_of StoresAgree.projection_run message_ok] in *.
  pose proof (applyDelta_cases d ss) as H.
  destruct (StatusSnapshotStore.applyDelta d ss) as [[out|e] s1]; [|done]. intros [= <-].
  destruct H as (a & i & sum & Ha & He & Hi & Hg & _ & -> & _). destruct (agree_get _ _ _ _ Hag Ha) as (b & Hb & Hr).
  apply initialized_spec in Hi as [Hgen _].
  destruct (delta_run localeCompareEn localeCompare st b _ d (StatusSnapshotStore.init_generation i) Hb (related_ok _ _ _ Hr)) as (proj & f & _ & -> & _);
    [by rewrite (related_epoch _ _ _ Hr)|by rewrite (related_generation _ _ _ Hr)|done|].
  eexists. split; [done|]. apply agree_set; [done|]. by apply related_delta.
Qed.

Lemma stale_agrees mk : keeps_agreement (MStale mk).
Proof.
  intros ss ss' st Hm Hag. unfold exec. cbn [op_of StoresAgree.projection_run message_ok] in *.
  pose proof (markStale_cases mk ss) as H.
  destruct (StatusSnapshotStore.markStale mk ss) as [[out|e] s1]; [|done]. intros [= <-].
  destruct H as (a & i & Ha & He & Hi & -> & _). destruct (agree_get _ _ _ _ Hag Ha) as (b & Hb & Hr).
  apply initialized_spec in Hi as [Hgen _].
  destruct (stale_run localeCompareEn localeCompare st b _ mk (StatusSnapshotStore.init_generation i) Hb (related_ok _ _ _ Hr)) as [proj ->];
    [by rewrite (related_epoch _ _ _ Hr)|by rewrite (related_generation _ _ _ Hr)|].
  eexists. split; [done|]. apply agree_set; [done|]. destruct Hr as [Hok Hre Hrg Hrl].
  split; [by apply stale_pstate_ok|done|done|done].
Qed.

Lemma agree_step m : keeps_agreement m.
Proof.
  destruct m; [apply register_agrees|apply unregister_agrees|apply snapshot_agrees|
               apply replace_agrees|apply delta_agrees|apply stale_agrees].
Qed.

(** Send a message to the canonical store, then, if it returns, to the
    projection store: the order of the session service, the scheduler and
    the notification handler. *)
Definition send (m : message) (stores : StatusSnapshotStore.store * store)
    : option js_error * (StatusSnapshotStore.store * store) :=
  let (ss, st) := stores in
  match exec (op_of m) ss with
  | (Some e, ss') => (Some e, (ss', st))
  | (None, ss') => let (e, st') := projection_run m st in (e, (ss', st'))
  end.

Definition send_all (ms : list message) (stores : StatusSnapshotStore.store * store) :=
  fold_left (fun s m => snd (send m s)) ms stores.

Lemma agree_empty policy : agree [] {| repositories := []; countPolicy := policy |}.
Proof. by intros id. Qed.

Lemma send_agree m ss st :
  message_ok m -> agree ss st ->
  agree (fst (snd (send m (ss, st)))) (snd (snd (send m (ss, st)))) /\
  (fst (exec (op_of m) ss) = None -> fst (send m (ss, st)) = None).
Proof.
  intros Hm Hag. unfold send. destruct (exec (op_of m) ss) as [[e|] ss'] eqn:E.
  - split; [|done]. cbn. by rewrite (exec_throw_same _ _ _ _ E).
  - destruct (agree_step m ss ss' st Hm Hag E) as (st' & -> & Hag'). done.
Qed.

Lemma send_all_agree ms ss st :
  Forall message_ok ms -> agree ss st ->
  agree (fst (send_all ms (ss, st))) (snd (send_all ms (ss, st))).
Proof.
  intros Hms. revert ss st. induction Hms as [|m ms Hm Hms IH]; intros ss st Hag; [done|].
  cbn [send_all fold_left]. destruct (send_agree m ss st Hm Hag) as [Hag' _].
  destruct (send m (ss, st)) as [e [ss' st']]. cbn in *. by apply IH.
Qed.

(** The entry shown for an artifact is one of its owners', the first by path. *)
Lemma ownerEntry_spec le p :
  le_ok le -> Comparator localeCompareEn -> (forall o e, entry_at le o = Some e -> o <> "") ->
  match ownerEntry localeCompareEn le p with
  | None => forall o, p ∉ artifacts_at le o
  | Some owner => exists o, entry_at le o = Some owner /\ p ∈ entry_conflictArtifacts owner /\
      forall o', p ∈ artifacts_at le o' -> localeCompareEn o o' <> Gt
  end.
Proof.
  intros Hle Hcmp Hne. unfold ownerEntry.
  assert (forall o, o ∈ owners_of le p <-> p ∈ artifacts_at le o) as Hown by (intros; apply Hle).
  unfold owners_of, index_of in Hown.
  destruct (map_get (conflictArtifactOwnersByPath le) p) as [owners|] eqn:E; cbn in *.
  2: { intros o Ho. apply Hown in Ho. by apply elem_of_nil in Ho. }
  destruct (le_owners_set _ Hle _ _ E) as [Hnil _].
  pose proof (sort_sorted (comparePaths localeCompareEn) owners) as Hsorted.
  destruct (sort (comparePaths localeCompareEn) owners) as [|o rest] eqn:Es.
  { exfalso. apply Hnil. apply Permutation.Permutation_nil. rewrite <- Es. apply sort_perm. }
  cbn. assert (o ∈ owners) as Ho by (rewrite <- (elem_of_sort (comparePaths localeCompareEn)), Es; apply list_elem_of_here).
  pose proof (proj1 (Hown o) Ho) as Hart. unfold artifacts_at in Hart.
  destruct (entry_at le o) as [owner|] eqn:Eo; [|by apply elem_of_nil in Hart].
  pose proof (Hne o owner Eo) as Hon. destruct o as [|c o']; [done|]. unfold entry_at in Eo. rewrite Eo.
  exists (String c o'). split; [done|]. split; [done|]. intros o2 H2%Hown.
  rewrite <- (elem_of_sort (comparePaths localeCompareEn)), Es in H2.
  apply elem_of_cons in H2 as [->|H2].
  - pose proof (cmp_antisym (cmp:=localeCompareEn) (String c o') (String c o')). by destruct (localeCompareEn _ _).
  - apply Sorted.StronglySorted_inv in Hsorted as [_ Hf]. by eapply Forall_forall in Hf.
Qed.
End Agree.
