(* ===== verification/ScmTheorems.v ===== *)
(** What the source-control view shows, in terms of the canonical status:
    theorems about the two stores run by the same messages. *)

From Stdlib Require Import ZArith Lia Ascii String List.
From stdpp Require Import base option list strings sets.
From S2P Require Import Prelude JsString JsMap JsUri StatusTypes StatusWire StatusWireFacts.
From S2P Require Import StatusStore StatusStoreFacts ScmResources ScmFacts StoresAgree.

Import SourceControlResourceStore.
Local Open Scope string_scope.

(** Values of a map filed under a key computed from them are distinct. *)
Lemma values_NoDup {V} (m : list (string * V)) (key : V -> string) :
  map_wf m -> (forall k v, map_get m k = Some v -> key v = k) -> NoDup (map_values m).
Proof.
  intros Hwf Hkey. assert (map_keys m = map key (map_values m)) as Heq.
  { unfold map_keys, map_values. rewrite map_map. apply map_ext_in. intros [k v] Hin%list_elem_of_In.
    symmetry. by apply Hkey, map_get_elem. }
  unfold map_wf in Hwf. rewrite Heq in Hwf. apply NoDup_ListNoDup. apply NoDup_ListNoDup in Hwf.
  by apply NoDup_map_inv in Hwf.
Qed.

Lemma NoDup_map_filter {A B} (f : A -> B) (P : A -> bool) l : NoDup (map f l) -> NoDup (map f (List.filter P l)).
Proof.
  induction l as [|x l IH]; cbn; [done|]. intros [Hx Hl]%NoDup_cons. destruct (P x); [|by apply IH].
  cbn. apply NoDup_cons. split; [|by apply IH]. intros Hin. apply Hx.
  apply list_elem_of_In, in_map_iff in Hin as (y & <- & [Hy _]%filter_In). by apply list_elem_of_In, in_map.
Qed.

Section Groups.
Variable localeCompareEn localeCompare : string -> string -> comparison.

(** *** Groups of a projection *)
Lemma group_values pr g r :
  pr_ok pr ->
  r ∈ map_values (default [] (map_get (groups pr) g)) <->
  res_groupId r = g /\ slot pr (res_source r) (res_path r) = Some r.
Proof.
  intros Hpr. assert (map_wf (default [] (map_get (groups pr) g))) as Hwf.
  { destruct (map_get (groups pr) g) eqn:E; [by eapply pr_groups_wf|apply map_wf_nil]. }
  split.
  - intros Hin. apply map_value_get in Hin as [k Hk]; [|done].
    by apply (pr_groups _ Hpr g k r) in Hk as (? & _ & ?).
  - intros [Hg Hs]. apply (map_get_Some_value _ (res_key r)). by apply (pr_groups _ Hpr g (res_key r) r).
Qed.

Lemma group_values_NoDup pr g : pr_ok pr -> NoDup (map_values (default [] (map_get (groups pr) g))).
Proof.
  intros Hpr. apply (values_NoDup _ res_key).
  - destruct (map_get (groups pr) g) eqn:E; [by eapply pr_groups_wf|apply map_wf_nil].
  - intros k r Hk. by apply (pr_groups _ Hpr g k r) in Hk as (_ & ? & _).
Qed.

(** A projected group shows the resources of its id, each once. *)
Definition group_shows (pr : Projected) (g : ScmProjectedResourceGroup) : Prop :=
  NoDup (group_resources g) /\
  forall r, r ∈ group_resources g <-> res_groupId r = group_id g /\ slot pr (res_source r) (res_path r) = Some r.

Lemma sortedResources_shows pr g :
  pr_ok pr -> NoDup (sortedResources localeCompare (default [] (map_get (groups pr) g))) /\
  forall r, r ∈ sortedResources localeCompare (default [] (map_get (groups pr) g)) <->
    res_groupId r = g /\ slot pr (res_source r) (res_path r) = Some r.
Proof.
  intros Hpr. unfold sortedResources. split; [rewrite sort_perm; by apply group_values_NoDup|].
  intros r. rewrite elem_of_sort. by apply group_values.
Qed.

Lemma fixed_shows pr g : pr_ok pr -> group_shows pr (fixedProjectionGroup localeCompare pr g).
Proof. intros Hpr. by apply sortedResources_shows. Qed.

Lemma changelists_shows pr gs :
  pr_ok pr -> changelistProjectionGroups localeCompareEn localeCompare pr = Ok gs ->
  (forall g, g ∈ gs -> group_shows pr g) /\
  NoDup (map group_id gs) /\
  (forall g, g ∈ map group_id gs <-> isChangelistResourceGroupId g = true /\
     exists m, map_get (groups pr) g = Some m /\ m <> []).
Proof.
  intros Hpr. unfold changelistProjectionGroups. cbn zeta. set (listed := List.filter _ _). intros H.
  apply bind_ok in H as (named & Hn & [= <-]).
  assert (map snd named = listed) as Hsnd.
  { apply mapi_ok in Hn as [Hlen Hall]. apply list_eq. intros i.
    change (map snd named) with (snd <$> named). rewrite list_lookup_fmap.
    destruct (listed !! i) as [x|] eqn:Ex.
    - destruct (lookup_lt_is_Some_2 named i) as [y Hy]; [rewrite Hlen; by eapply lookup_lt_Some|].
      rewrite Hy. specialize (Hall i x y Ex Hy). cbn in Hall. apply bind_ok in Hall as (nm & _ & [= <-]). done.
    - apply lookup_ge_None in Ex. by rewrite (lookup_ge_None_2 named) by lia. }
  set (mk := fun ng : string * (string * list (string * ScmProjectedResource)) =>
    {| group_id := ng.2.1; group_labelKey := "scm.group.changelist"; group_changelist := Some ng.1;
       group_resources := sortedResources localeCompare ng.2.2 |}).
  assert (forall ng, ng ∈ named -> ng.2 ∈ listed) as Hin.
  { intros ng Hng. rewrite <- Hsnd. change (map snd named) with (snd <$> named). by apply list_elem_of_fmap_2. }
  assert (forall g m, (g, m) ∈ listed <-> map_get (groups pr) g = Some m /\ isChangelistResourceGroupId g = true /\ m <> []) as Hlisted.
  { intros g m. unfold listed. rewrite list_elem_of_In, filter_In, <- list_elem_of_In, <- map_get_elem by apply Hpr.
    cbn [fst snd]. rewrite andb_true_iff, negb_true_iff, Nat.eqb_neq.
    unfold map_size. destruct m; cbn; naive_solver. }
  assert (map group_id (map mk (sort (fun l r => localeCompareEn l.1 r.1) named)) ≡ₚ map fst listed) as Hperm.
  { rewrite map_map. rewrite <- Hsnd, map_map. apply Permutation.Permutation_map, sort_perm. }
  split; [|split].
  - intros g Hg. apply list_elem_of_In, in_map_iff in Hg as (ng & <- & Hng%list_elem_of_In).
    rewrite elem_of_sort in Hng. apply Hin in Hng. destruct ng as [nm [gid m]]. cbn in Hng.
    apply Hlisted in Hng as [Hget _]. pose proof (sortedResources_shows pr gid Hpr) as Hs.
    rewrite Hget in Hs. exact Hs.
  - rewrite Hperm. pose proof (pr_groups_map_wf _ Hpr) as Hwf. unfold map_wf, map_keys in Hwf.
    by apply (map_wf_filter _ (groups pr)).
  - intros g. rewrite Hperm, list_elem_of_In, in_map_iff. split.
    + intros ([gid m] & <- & Hm%list_elem_of_In). apply Hlisted in Hm. naive_solver.
    + intros (Hc & m & Hm & Hnil). exists (g, m). split; [done|]. apply list_elem_of_In, Hlisted. done.
Qed.

(** The groups of a projection partition the projected resources. *)
Record partitions (pr : Projected) (gs : list ScmProjectedResourceGroup) : Prop := {
  part_ids : NoDup (map group_id gs);
  part_shows g : g ∈ gs -> group_shows pr g;
  part_all r : slot pr (res_source r) (res_path r) = Some r -> exists g, g ∈ gs /\ r ∈ group_resources g;
}.

Lemma projectionGroups_partition pr gs :
  pr_ok pr -> projectionGroupsFromState localeCompareEn localeCompare pr = Ok gs -> partitions pr gs.
Proof.
  intros Hpr H. unfold projectionGroupsFromState in H. apply bind_ok in H as (cl & Hcl & [= <-]).
  destruct (changelists_shows pr cl Hpr Hcl) as (Hshow & Hnd & Hids).
  assert (forall g, g ∈ SCM_RESOURCE_GROUP_IDS -> g ∉ map group_id cl) as Hfix.
  { intros g Hg Hin. apply Hids in Hin as [Hc _]. by rewrite (fixed_not_changelist g Hg) in Hc. }
  set (fx := fixedProjectionGroup localeCompare pr).
  split.
  - cbn [app map]. rewrite map_app. cbn [map group_id fx fixedProjectionGroup].
    match goal with |- NoDup ?l => assert (l ≡ₚ SCM_RESOURCE_GROUP_IDS ++ map group_id cl) as -> end.
    { unfold SCM_RESOURCE_GROUP_IDS. cbn [app]. do 2 apply Permutation.perm_skip.
      by rewrite (Permutation.Permutation_app_comm (map group_id cl)). }
    apply NoDup_app. split; [apply (bool_decide_eq_true (NoDup _)); reflexivity|]. by split.
  - intros g Hg. cbn [app] in Hg. rewrite !elem_of_cons, elem_of_app, !elem_of_cons, elem_of_nil in Hg.
    repeat destruct Hg as [->|Hg]; try by apply fixed_shows. destruct Hg as [Hg|Hg]; [by apply Hshow|].
    repeat destruct Hg as [->|Hg]; try by apply fixed_shows. done.
  - intros r Hr. destruct (pr_slot _ Hpr _ _ _ Hr) as (_ & _ & (_ & Hgid & _)).
    destruct Hgid as [Hg|[name Hg]].
    + exists (fx (res_groupId r)). split; [|by apply (fixed_shows pr _ Hpr)].
      unfold SCM_RESOURCE_GROUP_IDS in Hg. rewrite !elem_of_cons, elem_of_nil in Hg. cbn [app].
      rewrite !elem_of_cons, elem_of_app, !elem_of_cons.
      repeat destruct Hg as [->|Hg]; tauto.
    + assert (res_groupId r ∈ map group_id cl) as Hin.
      { apply Hids. split; [rewrite Hg; apply startsWith_app|].
        pose proof (proj2 (group_values pr (res_groupId r) r Hpr) (conj eq_refl Hr)) as Hv.
        destruct (map_get (groups pr) (res_groupId r)) as [m|]; [|by apply elem_of_nil in Hv].
        exists m. split; [done|]. intros ->. by apply elem_of_nil in Hv. }
      apply list_elem_of_In, in_map_iff in Hin as (g & Hgid & Hgin%list_elem_of_In). exists g.
      split; [cbn [app]; rewrite !elem_of_cons, elem_of_app; tauto|]. by apply (Hshow g Hgin).
Qed.
End Groups.

(** *** Commit-all targets *)

(** The entries a commit of everything takes: changed files with no conflict,
    not external, ignored or unversioned, and not in an ignored changelist. *)
Definition committable (ignored : list string) (e : StatusEntry) : Prop :=
  hasConflict e = false /\ entry_external e = false /\ entry_localStatus e <> "ignored" /\
  entry_localStatus e <> "unversioned" /\ any_status isKnownLocalChangeStatus e = true /\
  entry_kind e = "file" /\ forall changelist, entry_changelist e = Some changelist -> changelist ∉ ignored.

Lemma changelist_in_false l e :
  changelist_in (set_of l) e = false <-> forall changelist, entry_changelist e = Some changelist -> changelist ∉ l.
Proof.
  unfold changelist_in. destruct (entry_changelist e) as [c|]; [|naive_solver].
  unfold set_has. rewrite bool_decide_eq_false, elem_of_set_of. naive_solver.
Qed.

Lemma candidate_iff id e c ignored :
  classifyLocalStatusEntry e = Some c ->
  isLocalChangeGroup (class_groupId c) && isCommitAllCandidate (projectedResource id Local_ e c) (set_of ignored) = true
  <-> committable ignored e.
Proof.
  intros Hc. unfold isCommitAllCandidate, committable. cbn [projectedResource res_source res_groupId res_contextValue res_entry].
  rewrite !andb_true_iff, !negb_true_iff, !bool_decide_eq_true, !bool_decide_eq_false, changelist_in_false.
  unfold classifyLocalStatusEntry in Hc. destruct (hasConflict e).
  { injection Hc as <-. cbn. naive_solver. }
  destruct (entry_external e); [injection Hc as <-; cbn; naive_solver|].
  case_bool_decide as Hi; [injection Hc as <-; cbn; naive_solver|].
  case_bool_decide as Hu; [injection Hc as <-; cbn; naive_solver|].
  destruct (any_status isKnownLocalChangeStatus e).
  2: { destruct (any_status isActionableStatus e); [injection Hc as <-; cbn; naive_solver|].
       destruct (hasWorkingCopyMetadataStatus e); [injection Hc as <-; cbn; naive_solver|done]. }
  assert (isLocalChangeGroup (class_groupId c) = true /\ class_contextValue c = "subversionr." ++ changedResourceKind e) as [Hg Hv].
  { destruct (entry_changelist e); injection Hc as <-; (split; [|done]); [|done].
    apply orb_true_iff. right. apply startsWith_app. }
  rewrite Hg, Hv. unfold changedResourceKind. case_bool_decide; cbn; naive_solver.
Qed.

Lemma committable_classified ignored e :
  committable ignored e -> exists c, classifyLocalStatusEntry e = Some c.
Proof.
  intros (H1 & H2 & H3 & H4 & H5 & _). unfold classifyLocalStatusEntry. rewrite H1, H2, H5.
  rewrite !bool_decide_false by done. destruct (entry_changelist e); eauto.
Qed.

Section CommitAll.
Variable localeCompareEn localeCompare : string -> string -> comparison.

Lemma local_keys_NoDup pr : pr_ok pr -> NoDup (map res_key (map_values (localResourcesByPath pr))).
Proof.
  intros Hpr. assert (map res_key (map_values (localResourcesByPath pr)) = key_of Local_ <$> map_keys (localResourcesByPath pr)) as ->.
  { unfold map_values, map_keys. change (key_of Local_ <$> ?l) with (map (key_of Local_) l). rewrite !map_map.
    apply map_ext_in. intros [k v] Hin%list_elem_of_In. cbn.
    apply map_get_elem in Hin; [|apply Hpr]. apply (pr_slot _ Hpr Local_ k v) in Hin as (Hs & Hp & (Hk & _)).
    by rewrite Hk, Hs, Hp. }
  apply NoDup_fmap_2; [|apply Hpr]. intros p q H. by apply key_of_inj in H as [].
Qed.

Lemma local_values pr r :
  pr_ok pr -> r ∈ map_values (localResourcesByPath pr) <-> exists p, slot pr Local_ p = Some r.
Proof.
  intros Hpr. split; [intros Hin; by apply map_value_get in Hin as [k Hk]; [exists k|apply Hpr]|].
  intros [p Hp]. by eapply map_get_Some_value.
Qed.

(** The resources [commitAllTargetsFromState] keeps. *)
Definition commit_resources (ignored : list string) (pr : Projected) : list ScmProjectedResource :=
  List.filter (fun resource => isCommitAllCandidate resource (set_of ignored))
    (sortedResources localeCompare (map_of (map (fun resource => (res_key resource, resource))
       (List.filter (fun resource => isLocalChangeGroup (res_groupId resource)) (map_values (localResourcesByPath pr)))))).

Lemma elem_of_commit_resources ignored pr r :
  pr_ok pr ->
  r ∈ commit_resources ignored pr <->
  (exists p, slot pr Local_ p = Some r) /\ isLocalChangeGroup (res_groupId r) && isCommitAllCandidate r (set_of ignored) = true.
Proof.
  intros Hpr. unfold commit_resources, sortedResources.
  rewrite list_elem_of_In, filter_In, <- list_elem_of_In, elem_of_sort, map_of_NoDup.
  2: { unfold map_keys. rewrite map_map. cbn [fst]. by apply NoDup_map_filter, local_keys_NoDup. }
  unfold map_values at 1. rewrite map_map. cbn [snd]. rewrite map_id.
  rewrite list_elem_of_In, filter_In, <- list_elem_of_In, local_values by done. rewrite andb_true_iff. tauto.
Qed.

(** The targets are those of the resources kept. *)
Lemma commit_paths id rs ts p :
  mapi (fun _ resource => commitAllTargetFromResource id resource) rs = Ok ts ->
  p ∈ map commit_path ts <-> exists r, r ∈ rs /\ res_path r = p.
Proof.
  intros [Hlen Hall]%mapi_ok.
  assert (map commit_path ts = map res_path rs) as ->.
  { apply list_eq. intros i. change (map commit_path ts) with (commit_path <$> ts).
    change (map res_path rs) with (res_path <$> rs). rewrite !list_lookup_fmap.
    destruct (rs !! i) as [r|] eqn:Er.
    - destruct (lookup_lt_is_Some_2 ts i) as [t Ht]; [rewrite Hlen; by eapply lookup_lt_Some|].
      specialize (Hall i r t Er Ht). unfold commitAllTargetFromResource in Hall. case_match; [done|].
      injection Hall as <-. by rewrite Ht.
    - apply lookup_ge_None in Er. by rewrite (lookup_ge_None_2 ts) by lia. }
  rewrite list_elem_of_In, in_map_iff. setoid_rewrite list_elem_of_In. naive_solver.
Qed.

(** The candidates of a well-formed state. *)
Lemma commit_candidates state remote ignored r :
  view_ok localeCompareEn state remote ->
  r ∈ commit_resources ignored (ps_projected state) <->
  (exists p e c, entry_at (ps_entries state) p = Some e /\ ownerEntry localeCompareEn (ps_entries state) p = None /\
     classifyLocalStatusEntry e = Some c /\ r = projectedResource (ps_repositoryId state) Local_ e c /\
     committable ignored e).
Proof.
  intros [Hle Hpr Hloc _]. rewrite elem_of_commit_resources by done. split.
  - intros [(p & Hp) Hc]. rewrite Hloc in Hp. unfold local_view in Hp.
    destruct (ownerEntry localeCompareEn (ps_entries state) p) as [owner|] eqn:Eo.
    { injection Hp as <-. done. }
    destruct (entry_at (ps_entries state) p) as [e|] eqn:Ee; [|done]. cbn in Hp.
    destruct (classifyLocalStatusEntry e) as [c|] eqn:Ec; [|done]. cbn in Hp. injection Hp as <-.
    exists p, e, c. split; [done|]. split; [done|]. split; [done|]. split; [done|].
    by apply (candidate_iff (ps_repositoryId state) e c ignored Ec).
  - intros (p & e & c & He & Ho & Hc & -> & Hcom). split.
    + exists p. rewrite Hloc. unfold local_view. by rewrite Ho, He; cbn; rewrite Hc.
    + by apply (candidate_iff (ps_repositoryId state) e c ignored Hc).
Qed.
End CommitAll.

(** ** Theorems *)

(** Both stores after the same messages, from empty ones. *)
Definition both (localeCompareEn localeCompare : string -> string -> comparison)
    (policy : SourceControlCountPolicy) (ms : list message) : StatusSnapshotStore.store * store :=
  send_all localeCompareEn localeCompare ms ([], {| repositories := []; countPolicy := policy |}).

Section Shown.
Variable localeCompareEn localeCompare : string -> string -> comparison.
Notation both := (both localeCompareEn localeCompare).

Lemma both_agree policy ms :
  Forall message_ok ms -> agree localeCompareEn (fst (both policy ms)) (snd (both policy ms)).
Proof. intros Hms. apply send_all_agree; [done|]. apply agree_empty. Qed.

(** The canonical and the projection state of an initialized repository. *)
Lemma initialized_pair ss st id snap :
  agree localeCompareEn ss st -> StatusSnapshotStore.getSnapshot ss id = Some snap ->
  exists a b g, map_get ss id = Some a /\ map_get (repositories st) id = Some b /\
    related localeCompareEn id a b /\ ps_generation b = Some g.
Proof.
  intros Hag Hs. unfold StatusSnapshotStore.getSnapshot in Hs.
  destruct (map_get ss id) as [a|] eqn:Ha; [|done]. cbn in Hs.
  destruct (StatusSnapshotStore.initialized a) as [i|] eqn:Hi; [|done].
  destruct (agree_get _ _ _ _ _ Hag Ha) as (b & Hb & Hr). apply initialized_spec in Hi as [Hg _].
  exists a, b. eexists. split; [done|]. split; [done|]. split; [done|].
  by rewrite (related_generation _ _ _ _ Hr), Hg.
Qed.

Lemma related_entries ss id a b :
  map_get ss id = Some a -> related localeCompareEn id a b ->
  forall p, entry_at (ps_entries b) p = StatusSnapshotStore.getLocalEntry ss id p.
Proof. intros Ha Hr p. unfold StatusSnapshotStore.getLocalEntry. rewrite Ha. cbn. apply Hr. Qed.

(** No entry owns [p] exactly when no canonical entry lists it. *)
Lemma no_owner ss id a b p :
  Comparator localeCompareEn -> map_get ss id = Some a -> related localeCompareEn id a b ->
  (forall o e, StatusSnapshotStore.getLocalEntry ss id o = Some e -> o <> "") ->
  ownerEntry localeCompareEn (ps_entries b) p = None <->
  (forall o e, StatusSnapshotStore.getLocalEntry ss id o = Some e -> p ∉ entry_conflictArtifacts e).
Proof.
  intros Hcmp Ha Hr Hne. pose proof (related_entries ss id a b Ha Hr) as Hent.
  assert (le_ok (ps_entries b)) as Hle by apply (related_ok _ _ _ _ Hr).
  pose proof (ownerEntry_spec localeCompareEn (ps_entries b) p Hle Hcmp) as Hs.
  specialize (Hs (fun o e H => Hne o e (eq_trans (eq_sym (Hent o)) H))).
  destruct (ownerEntry localeCompareEn (ps_entries b) p) as [owner|].
  - destruct Hs as (o & Ho & Hp & _). rewrite Hent in Ho. split; [done|]. intros Hall. by specialize (Hall o owner Ho).
  - split; [|done]. intros _ o e He Hin. apply (Hs o). unfold artifacts_at. by rewrite Hent, He.
Qed.
End Shown.

(** C33: The two stores stay in step.  For messages that register a repository
    under a text that is not blank, with a working copy root that is not blank and
    a safe epoch, and whose snapshots list no remote path twice ([message_ok]; the
    snapshot parser does not check the last, and [duplicate_remote_shown] shows
    what it is needed for): whatever such messages were sent, the next one the
    canonical store accepts is never refused by the projection store, and the two
    agree: same repositories, epochs, generations and local entries, and the
    projection is the view of the canonical entries.  Texts have the characters
    U+0000 to U+00FF; so no changelist is named by a lone surrogate, on which
    [encodeURIComponent] throws in the projection. *)
Theorem stores_in_step localeCompareEn localeCompare policy ms m :
  Forall message_ok ms -> message_ok m ->
  let stores := both localeCompareEn localeCompare policy ms in
  agree localeCompareEn (fst stores) (snd stores) /\
  (fst (exec (op_of m) (fst stores)) = None -> fst (send localeCompareEn localeCompare m stores) = None).
Proof.
  intros Hms Hm. cbn zeta. pose proof (both_agree localeCompareEn localeCompare policy ms Hms) as Hag.
  split; [done|]. destruct (both localeCompareEn localeCompare policy ms) as [ss st].
  by apply send_agree.
Qed.

(** C34: The view shows the canonical status to lookups that respect case.  After
    messages that register under an id and a root that are not blank and whose
    snapshots list no remote path twice ([message_ok]), for an initialized repository
    whose entries have paths that are not empty, and when [localeCompare] orders texts: the resource looked up,
    case-sensitively, at a valid lookup path is the classification of its canonical
    entry, unless some canonical entry lists the path as a conflict artifact; then
    it is that artifact, shown for the first of its owners.  A lookup that ignores
    case may miss a resource ([case_index_lost]). *)
Theorem shown_resource localeCompareEn localeCompare policy ms id snap p :
  Comparator localeCompareEn -> Forall message_ok ms ->
  let ss := fst (both localeCompareEn localeCompare policy ms) in
  let st := snd (both localeCompareEn localeCompare policy ms) in
  StatusSnapshotStore.getSnapshot ss id = Some snap -> isRepositoryRelativeLookupPath p = true ->
  (forall o e, StatusSnapshotStore.getLocalEntry ss id o = Some e -> o <> "") ->
  let shown := lookup_resource <$> getProjectedResource st id p CaseSensitive in
  ((forall o e, StatusSnapshotStore.getLocalEntry ss id o = Some e -> p ∉ entry_conflictArtifacts e) /\
   shown = (e ← StatusSnapshotStore.getLocalEntry ss id p; c ← classifyLocalStatusEntry e;
            Some (projectedResource id Local_ e c)))
  \/ (exists o owner, StatusSnapshotStore.getLocalEntry ss id o = Some owner /\ p ∈ entry_conflictArtifacts owner /\
        (forall o' e', StatusSnapshotStore.getLocalEntry ss id o' = Some e' -> p ∈ entry_conflictArtifacts e' ->
           localeCompareEn o o' <> Gt) /\
        shown = Some (projectedResource id Local_ (artifactEntry owner p) artifactClassification)).
Proof.
  intros Hcmp Hms. pose proof (both_agree localeCompareEn localeCompare policy ms Hms) as Hag.
  cbn zeta.
  destruct (both localeCompareEn localeCompare policy ms) as [ss st]. cbn [fst snd] in *.
  intros Hsnap Hp Hne. destruct (initialized_pair _ _ _ _ _ Hag Hsnap) as (a & b & g & Ha & Hb & Hr & Hg).
  pose proof (related_entries _ ss id a b Ha Hr) as Hent. cbn zeta.
  pose proof (related_ok _ _ _ _ Hr) as [Hid Hview _].
  assert (lookup_resource <$> getProjectedResource st id p CaseSensitive = local_view localeCompareEn id (ps_entries b) p) as ->.
  { unfold getProjectedResource. rewrite Hb. cbn. rewrite Hg, Hp. cbn.
    pose proof (view_local _ _ _ Hview p) as Hl. cbn [slot] in Hl. rewrite Hl, Hid.
    by destruct (local_view localeCompareEn id (ps_entries b) p). }
  pose proof (no_owner _ ss id a b p Hcmp Ha Hr Hne) as Hno. unfold local_view.
  pose proof (ownerEntry_spec localeCompareEn (ps_entries b) p (view_entries _ _ _ Hview) Hcmp) as Hs.
  specialize (Hs (fun o e H => Hne o e (eq_trans (eq_sym (Hent o)) H))).
  destruct (ownerEntry localeCompareEn (ps_entries b) p) as [owner|].
  - right. destruct Hs as (o & Ho & Hin & Hmin). rewrite Hent in Ho. exists o, owner. split; [done|]. split; [done|]. split; [|done].
    intros o' e' He' Hin'. apply Hmin. unfold artifacts_at. by rewrite Hent, He'.
  - left. split; [by apply Hno|]. by rewrite Hent.
Qed.

(** Every projected resource is shown once.  The projection of an
    initialized repository exists, its groups have distinct ids, and a resource
    is projected for its path exactly when it is in the one group its
    classification names, where it appears once. *)
Theorem groups_partition localeCompareEn localeCompare policy ms id snap :
  Forall message_ok ms ->
  let ss := fst (both localeCompareEn localeCompare policy ms) in
  let st := snd (both localeCompareEn localeCompare policy ms) in
  StatusSnapshotStore.getSnapshot ss id = Some snap ->
  exists state proj, map_get (repositories st) id = Some state /\
    getProjection localeCompareEn localeCompare st id = Some (Ok proj) /\
    partitions (ps_projected state) (proj_groups proj).
Proof.
  intros Hms. pose proof (both_agree localeCompareEn localeCompare policy ms Hms) as Hag.
  cbn zeta.
  destruct (both localeCompareEn localeCompare policy ms) as [ss st]. cbn [fst snd] in *.
  intros Hsnap. destruct (initialized_pair _ _ _ _ _ Hag Hsnap) as (a & b & g & Ha & Hb & Hr & Hg).
  pose proof (related_ok _ _ _ _ Hr) as [Hid Hview Hf]. destruct Hf as [f Hf]; [by rewrite Hg|].
  destruct (projectionFromState_total localeCompareEn localeCompare b (countPolicy st) g f) as [proj Hproj];
    [apply Hview|done|done|].
  exists b, proj. split; [done|]. split; [unfold getProjection; by rewrite Hb, Hg, Hproj|].
  unfold projectionFromState in Hproj. rewrite Hg in Hproj. apply bind_ok in Hproj as (f' & _ & Hproj).
  apply bind_ok in Hproj as (gs & Hgs & [= <-]). cbn.
  eapply projectionGroups_partition; [apply Hview|exact Hgs].
Qed.

(** Commit-all takes exactly the committable files.  When the committable
    paths are plain repository paths, [getCommitAllTargets] returns, and a path
    is among its targets exactly when its canonical entry is a changed file
    without conflict, not external, ignored or unversioned, outside the ignored
    changelists, and no conflict artifact of another entry. *)
Theorem commit_all_exact localeCompareEn localeCompare policy ms id snap :
  Comparator localeCompareEn -> Forall message_ok ms ->
  let ss := fst (both localeCompareEn localeCompare policy ms) in
  let st := snd (both localeCompareEn localeCompare policy ms) in
  let ignored := ignoreChangelistsInCount (countPolicy st) in
  StatusSnapshotStore.getSnapshot ss id = Some snap ->
  (forall o e, StatusSnapshotStore.getLocalEntry ss id o = Some e -> o <> "") ->
  (forall p e, StatusSnapshotStore.getLocalEntry ss id p = Some e -> committable ignored e ->
     isRepositoryRelativeCommitPath p = true) ->
  exists all, getCommitAllTargets localeCompare st id = Some (Ok all) /\
    forall p, p ∈ map commit_path (all_targets all) <->
      (exists e, StatusSnapshotStore.getLocalEntry ss id p = Some e /\ committable ignored e) /\
      (forall o e, StatusSnapshotStore.getLocalEntry ss id o = Some e -> p ∉ entry_conflictArtifacts e).
Proof.
  intros Hcmp Hms. pose proof (both_agree localeCompareEn localeCompare policy ms Hms) as Hag.
  cbn zeta.
  destruct (both localeCompareEn localeCompare policy ms) as [ss st]. cbn [fst snd] in *. cbn zeta.
  intros Hsnap Hne Hplain. destruct (initialized_pair _ _ _ _ _ Hag Hsnap) as (a & b & g & Ha & Hb & Hr & Hg).
  pose proof (related_entries _ ss id a b Ha Hr) as Hent.
  pose proof (related_ok _ _ _ _ Hr) as [Hid Hview _].
  pose proof (fun r => commit_candidates localeCompareEn localeCompare b _ (ignoreChangelistsInCount (countPolicy st)) r Hview) as Hcand.
  destruct (mapi_total (fun _ resource => commitAllTargetFromResource (ps_repositoryId b) resource)
    (commit_resources localeCompare (ignoreChangelistsInCount (countPolicy st)) (ps_projected b))) as [ts Hts].
  { intros _ r (p & e & c & He & _ & _ & -> & Hcom)%Hcand. unfold commitAllTargetFromResource. cbn [projectedResource res_path].
    apply (le_key _ (view_entries _ _ _ Hview)) in He as Hk. rewrite Hk.
    rewrite (Hplain p e); [by eexists|by rewrite <- Hent|done]. }
  eexists. split.
  { unfold getCommitAllTargets. rewrite Hb, Hg. unfold commitAllTargetsFromState. rewrite Hg. cbn zeta.
    fold (commit_resources localeCompare (ignoreChangelistsInCount (countPolicy st)) (ps_projected b)).
    rewrite Hts. done. }
  cbn [all_targets]. intros p.
  assert (p ∈ map commit_path ts <-> exists r, r ∈ commit_resources localeCompare (ignoreChangelistsInCount (countPolicy st)) (ps_projected b)
    /\ res_path r = p) as ->. { by apply commit_paths with (ps_repositoryId b). }
  setoid_rewrite Hcand. rewrite <- (no_owner _ ss id a b p Hcmp Ha Hr Hne). setoid_rewrite <- Hent. split.
  - intros (r & (q & e & c & He & Ho & Hc & -> & Hcom) & Hp). cbn in Hp.
    apply (le_key _ (view_entries _ _ _ Hview)) in He as Hk. assert (q = p) as -> by congruence. eauto.
  - intros [(e & He & Hcom) Ho]. destruct (committable_classified _ _ Hcom) as [c Hc].
    eexists. split; [exists p, e, c; by eauto|]. cbn. by apply (le_key _ (view_entries _ _ _ Hview)) in He.
Qed.
