(* ===== verification/RemoteTypes.v ===== *)
(** The data of the remote connection: reasons, failures and states, with the
    checks both the store and the notification parser make.  Sources:
    status/remoteConnectionStateStore.ts, status/remoteConnectionNotificationHandler.ts.

    [Date.parse] is a parameter of the components that use it: [None] is [NaN]. *)

From Stdlib Require Import ZArith Ascii String List.
From stdpp Require Import base option list strings.
From S2P Require Import Prelude JsString JsMap JsValue.

Local Open Scope string_scope.

(** ** Unions of string literals *)
Class Named (A : Type) := {
  all_of : list A;
  name_of : A -> string;
  of_name_of a : List.find (fun b => bool_decide (name_of b = name_of a)) all_of = Some a;
}.

(** The member a string denotes. *)
Definition of_name {A} `{Named A} (s : string) : option A :=
  List.find (fun a => bool_decide (name_of a = s)) all_of.

Lemma of_name_spec {A} `{Named A} s (a : A) : of_name s = Some a <-> s = name_of a.
Proof.
  split; [|intros ->; apply of_name_of].
  unfold of_name. intros [_ Hb]%find_some. by apply bool_decide_eq_true_1 in Hb.
Qed.

Inductive RemoteAttentionReason :=
  | AuthRequired | CertificateRequired | HostKeyRequired | ConfigurationInvalid | UnsupportedCapability.
Inductive RemoteUnreachableReason := Dns | Refused | Proxy | Timeout_ | Tunnel.
Inductive RemoteIndeterminateReason := CancelledAfterMutation | WorkerTerminated.
Inductive RemoteScheme := Http | Https | Svn | SvnSsh.
Inductive NativeRemoteFailureReason :=
  | NetworkDns | NetworkRefused | NetworkTimeout | ProxyAuthenticationRequired | ProxyUnreachable
  | TlsUntrusted | TlsChanged | TlsProtocol | AuthenticationRequired | AuthorizationDenied
  | SshHostKeyRequired | SshHostKeyChanged | SshTunnelFailed | OperationCancelled
  | OperationDeadlineExceeded | RedirectRejected | CrossAuthorityRejected | CredentialRejected
  | SshExecutableInvalid | SshProvenanceInvalid | SshTunnelCleanupFailed | WorkerContainmentFailed
  | RemoteRecoveryBlocked | RemoteConfigurationInvalid | RemoteCapabilityUnsupported
  | RemoteOperationIndeterminate | UnknownRemote.
Inductive FailureCategory := CatAttention | CatUnreachable | CatIndeterminate | CatCancelled.
(** [recovery] of a state the daemon reports. *)
Inductive DaemonRecovery := RecNotRequired | RecPending | RecBlocked.

#[export] Instance NativeRemoteFailureReason_eq_dec : EqDecision NativeRemoteFailureReason.
Proof. solve_decision. Defined.
#[export] Instance FailureCategory_eq_dec : EqDecision FailureCategory.
Proof. solve_decision. Defined.

#[export, refine] Instance attention_named : Named RemoteAttentionReason := {|
  all_of := [AuthRequired; CertificateRequired; HostKeyRequired; ConfigurationInvalid; UnsupportedCapability];
  name_of r := match r with
    | AuthRequired => "authRequired" | CertificateRequired => "certificateRequired"
    | HostKeyRequired => "hostKeyRequired" | ConfigurationInvalid => "configurationInvalid"
    | UnsupportedCapability => "unsupportedCapability" end |}.
Proof. by intros []. Defined.

#[export, refine] Instance unreachable_named : Named RemoteUnreachableReason := {|
  all_of := [Dns; Refused; Proxy; Timeout_; Tunnel];
  name_of r := match r with Dns => "dns" | Refused => "refused" | Proxy => "proxy" | Timeout_ => "timeout" | Tunnel => "tunnel" end |}.
Proof. by intros []. Defined.

#[export, refine] Instance indeterminate_named : Named RemoteIndeterminateReason := {|
  all_of := [CancelledAfterMutation; WorkerTerminated];
  name_of r := match r with CancelledAfterMutation => "cancelledAfterMutation" | WorkerTerminated => "workerTerminated" end |}.
Proof. by intros []. Defined.

#[export, refine] Instance scheme_named : Named RemoteScheme := {|
  all_of := [Http; Https; Svn; SvnSsh];
  name_of r := match r with Http => "http" | Https => "https" | Svn => "svn" | SvnSsh => "svn+ssh" end |}.
Proof. by intros []. Defined.

#[export, refine] Instance daemon_recovery_named : Named DaemonRecovery := {|
  all_of := [RecNotRequired; RecPending; RecBlocked];
  name_of r := match r with RecNotRequired => "notRequired" | RecPending => "pending" | RecBlocked => "blocked" end |}.
Proof. by intros []. Defined.

#[export, refine] Instance category_named : Named FailureCategory := {|
  all_of := [CatAttention; CatUnreachable; CatIndeterminate; CatCancelled];
  name_of r := match r with
    | CatAttention => "attention" | CatUnreachable => "unreachable"
    | CatIndeterminate => "indeterminate" | CatCancelled => "cancelled" end |}.
Proof. by intros []. Defined.

(** [REMOTE_FAILURE_REASONS] *)
Definition REMOTE_FAILURE_REASONS : list NativeRemoteFailureReason :=
  [NetworkDns; NetworkRefused; NetworkTimeout; ProxyAuthenticationRequired; ProxyUnreachable;
   TlsUntrusted; TlsChanged; TlsProtocol; AuthenticationRequired; AuthorizationDenied;
   SshHostKeyRequired; SshHostKeyChanged; SshTunnelFailed; OperationCancelled;
   OperationDeadlineExceeded; RedirectRejected; CrossAuthorityRejected; CredentialRejected;
   SshExecutableInvalid; SshProvenanceInvalid; SshTunnelCleanupFailed; WorkerContainmentFailed;
   RemoteRecoveryBlocked; RemoteConfigurationInvalid; RemoteCapabilityUnsupported; RemoteOperationIndeterminate;
   UnknownRemote].

#[export, refine] Instance failure_reason_named : Named NativeRemoteFailureReason := {|
  all_of := REMOTE_FAILURE_REASONS;
  name_of r := match r with
    | NetworkDns => "networkDns" | NetworkRefused => "networkRefused" | NetworkTimeout => "networkTimeout"
    | ProxyAuthenticationRequired => "proxyAuthenticationRequired" | ProxyUnreachable => "proxyUnreachable"
    | TlsUntrusted => "tlsUntrusted" | TlsChanged => "tlsChanged" | TlsProtocol => "tlsProtocol"
    | AuthenticationRequired => "authenticationRequired" | AuthorizationDenied => "authorizationDenied"
    | SshHostKeyRequired => "sshHostKeyRequired" | SshHostKeyChanged => "sshHostKeyChanged"
    | SshTunnelFailed => "sshTunnelFailed" | OperationCancelled => "operationCancelled"
    | OperationDeadlineExceeded => "operationDeadlineExceeded" | RedirectRejected => "redirectRejected"
    | CrossAuthorityRejected => "crossAuthorityRejected" | CredentialRejected => "credentialRejected"
    | SshExecutableInvalid => "sshExecutableInvalid" | SshProvenanceInvalid => "sshProvenanceInvalid"
    | SshTunnelCleanupFailed => "sshTunnelCleanupFailed" | WorkerContainmentFailed => "workerContainmentFailed"
    | RemoteRecoveryBlocked => "remoteRecoveryBlocked" | RemoteConfigurationInvalid => "remoteConfigurationInvalid"
    | RemoteCapabilityUnsupported => "remoteCapabilityUnsupported"
    | RemoteOperationIndeterminate => "remoteOperationIndeterminate" | UnknownRemote => "unknownRemote" end |}.
Proof. by intros []. Defined.

(** [WIRE_CATEGORY_BY_REASON] *)
Definition WIRE_CATEGORY_BY_REASON (r : NativeRemoteFailureReason) : string :=
  match r with
  | NetworkDns | NetworkRefused | NetworkTimeout => "network"
  | ProxyAuthenticationRequired | ProxyUnreachable => "proxy"
  | TlsUntrusted | TlsChanged | TlsProtocol => "tls"
  | AuthenticationRequired => "authentication" | AuthorizationDenied => "authorization"
  | SshHostKeyRequired | SshHostKeyChanged | SshTunnelFailed => "ssh"
  | SshExecutableInvalid | SshProvenanceInvalid | SshTunnelCleanupFailed => "ssh"
  | OperationCancelled => "cancellation" | OperationDeadlineExceeded => "deadline"
  | RedirectRejected | CrossAuthorityRejected => "policy" | CredentialRejected => "credential"
  | WorkerContainmentFailed => "process" | RemoteRecoveryBlocked => "recovery"
  | RemoteOperationIndeterminate => "recovery" | RemoteConfigurationInvalid => "configuration"
  | RemoteCapabilityUnsupported => "capability" | UnknownRemote => "unknown"
  end.

Definition one_of (l : list NativeRemoteFailureReason) (r : NativeRemoteFailureReason) : bool :=
  existsb (fun x => bool_decide (x = r)) l.

Definition categoryForReason (r : NativeRemoteFailureReason) : FailureCategory :=
  if bool_decide (r = OperationCancelled) then CatCancelled
  else if one_of [NetworkDns; NetworkRefused; NetworkTimeout; ProxyUnreachable; SshTunnelFailed; OperationDeadlineExceeded] r
  then CatUnreachable
  else if one_of [SshTunnelCleanupFailed; WorkerContainmentFailed; RemoteRecoveryBlocked; RemoteOperationIndeterminate] r
  then CatIndeterminate
  else CatAttention.

Definition attentionReason (r : NativeRemoteFailureReason) : RemoteAttentionReason :=
  if one_of [AuthenticationRequired; AuthorizationDenied; CredentialRejected; ProxyAuthenticationRequired] r then AuthRequired
  else if one_of [TlsUntrusted; TlsChanged; TlsProtocol] r then CertificateRequired
  else if one_of [SshHostKeyRequired; SshHostKeyChanged] r then HostKeyRequired
  else if bool_decide (r = RemoteCapabilityUnsupported) then UnsupportedCapability
  else ConfigurationInvalid.

Definition unreachableReason (r : NativeRemoteFailureReason) : RemoteUnreachableReason :=
  if bool_decide (r = NetworkDns) then Dns
  else if bool_decide (r = NetworkRefused) then Refused
  else if bool_decide (r = ProxyUnreachable) then Proxy
  else if bool_decide (r = SshTunnelFailed) then Tunnel
  else Timeout_.

Definition indeterminateReason (r : NativeRemoteFailureReason) : RemoteIndeterminateReason :=
  if bool_decide (r = RemoteOperationIndeterminate) then CancelledAfterMutation else WorkerTerminated.

Record NativeRemoteFailure := {
  failure_category : FailureCategory;
  failure_reason : NativeRemoteFailureReason;
  failure_cleanupAppropriate : bool;
}.

(** ** States *)
Inductive RemoteRecoveryState :=
  | NotRequired
  | Required (operationId requiredAt : string)
  | RecoveryChecking (operationId originOperationId startedAt deadlineAt : string)
  | Safe (operationId completedAt : string)
  | Blocked (operationId completedAt : string).

Inductive IncomingKind := IncomingUnchecked | IncomingFresh | IncomingStale.
Record IncomingRemoteFreshness := {
  incoming_kind : IncomingKind;
  incoming_lastSuccessfulCheckAt : option string;
}.

Record RemoteFailureRecord := {
  fail_reason : NativeRemoteFailureReason;
  fail_cleanupAppropriate : bool;
  fail_occurredAt : string;
}.

(** [kind] with the fields that go with it. *)
Inductive ConnectionKind :=
  | Unchecked
  | Checking (operationId startedAt : string)
  | Online (transport : RemoteScheme) (checkedAt : string)
  | Attention (reason : RemoteAttentionReason)
  | Unreachable (reason : RemoteUnreachableReason)
  | Indeterminate (reason : RemoteIndeterminateReason).

Definition kind_name (k : ConnectionKind) : string :=
  match k with
  | Unchecked => "unchecked" | Checking _ _ => "checking" | Online _ _ => "online"
  | Attention _ => "attention" | Unreachable _ => "unreachable" | Indeterminate _ => "indeterminate"
  end.

Record RemoteConnectionState := {
  rc_kind : ConnectionKind;
  rc_repositoryId : string;
  rc_epoch : Z;
  rc_incoming : IncomingRemoteFreshness;
  rc_recovery : RemoteRecoveryState;
  rc_lastFailure : option RemoteFailureRecord;
}.

(** What the daemon reports. *)
Inductive DaemonRemoteConnectionState :=
  | DUnchecked
  | DChecking (operationId startedAt : string)
  | DOnline (transport : RemoteScheme) (checkedAt : string)
  | DAttention (reason : RemoteAttentionReason)
  | DUnreachable (reason : RemoteUnreachableReason)
  | DIndeterminate (reason : RemoteIndeterminateReason) (originOperationId : string)
      (recovery : DaemonRecovery) (cleanupAppropriate : bool).

(** ** Checks *)

(** [/^[0-9a-f]{8}-[0-9a-f]{4}-[1-5][0-9a-f]{3}-[89ab][0-9a-f]{3}-[0-9a-f]{12}$/]: the
    classes of the 36 characters. *)
Definition char_in (set : string) (c : ascii) : bool := includes set c.
Definition hex : ascii -> bool := char_in "0123456789abcdef".
Definition uuid_classes : list (ascii -> bool) :=
  (repeat hex 8 ++ [char_in "-"] ++ repeat hex 4 ++ [char_in "-"] ++ [char_in "12345"] ++ repeat hex 3 ++
   [char_in "-"] ++ [char_in "89ab"] ++ repeat hex 3 ++ [char_in "-"] ++ repeat hex 12)%list.
Fixpoint matches (classes : list (ascii -> bool)) (s : string) : bool :=
  match classes, s with
  | [], EmptyString => true
  | p :: classes', String c s' => p c && matches classes' s'
  | _, _ => false
  end.
Definition isCanonicalUuid (s : string) : bool := matches uuid_classes s.

(** [value.length > 64 || Number.isNaN(Date.parse(value))], negated. *)
Definition isTimestamp (dateParse : string -> option Z) (s : string) : bool :=
  (String.length s <=? 64)%nat && match dateParse s with Some _ => true | None => false end.

(** [Object.keys(value).sort().join(",")] *)
Definition sorted_keys (v : js_value) : string := join (sort compareText (keys v)) ",".
