(* ===== verification/ProjectionService.v ===== *)
(** scm/sourceControlProjectionService.ts: the projection store with the
    presenter and the listeners it drives.

    The presenter talks to the editor's API and the listeners are callbacks of
    other components; both are parameters, methods on a state [E] of their own
    that may throw.  The set of listeners is the one in place while an
    operation runs. *)

From Stdlib Require Import ZArith String List.
From stdpp Require Import base option list strings.
From S2P Require Import Prelude JsString JsMap JsValue StatusTypes RemoteTypes ScmResources.

Local Open Scope string_scope.

Module SourceControlProjectionService.

Inductive SourceControlProjectionChange :=
  | Registered (repositoryId : string) (epoch : Z)
  | Updated (repositoryId : string) (epoch generation : Z)
      (freshness : SourceControlResourceStore.ScmProjectionFreshness)
  | Unregistered (repositoryId : string)
  | RemoteStateUpdated (repositoryId : string) (epoch : Z) (state : string).

(** The presenter's methods and the listeners. *)
Record Environment (E : Type) := {
  presenter_register : SourceControlResourceStore.SourceControlProjectionRepository -> method E unit;
  presenter_update : SourceControlResourceStore.ScmRepositoryProjection -> method E unit;
  presenter_updateRemote : RemoteConnectionState -> method E unit;
  presenter_unregister : string -> method E unit;
  listeners : list (SourceControlProjectionChange -> method E unit);
}.
Arguments presenter_register {E}.
Arguments presenter_update {E}.
Arguments presenter_updateRemote {E}.
Arguments presenter_unregister {E}.
Arguments listeners {E}.

Definition projectionUnavailable (repositoryId : string) : js_error :=
  StructuredError "SourceControlProjectionServiceError" "SUBVERSIONR_SCM_REMOTE_STATE_PROJECTION_UNAVAILABLE"
    "lifecycle" "error.scm.remoteStateProjectionUnavailable" [("repositoryId", ArgString repositoryId)].

Section Service.
Variable localeCompareEn localeCompare : string -> string -> comparison.
Context {E : Type} (env : Environment E).

Record service := {
  svc_store : SourceControlResourceStore.store;
  svc_env : E;
}.

Definition on_store {A} (m : method SourceControlResourceStore.store A) : method service A :=
  on_part svc_store (fun s t => {| svc_store := t; svc_env := svc_env s |}) m.
Definition on_env {A} (m : method E A) : method service A :=
  on_part svc_env (fun s t => {| svc_store := svc_store s; svc_env := t |}) m.

Definition fireProjectionChange (event : SourceControlProjectionChange) : method service unit :=
  for_each (fun listener => on_env (listener event)) (listeners env).

Definition registerRepository (repository : SourceControlResourceStore.SourceControlProjectionRepository)
    : method service unit :=
  _ ← on_store (SourceControlResourceStore.registerRepository repository);
  _ ← try_catch (on_env (presenter_register env repository)) (fun error =>
        _ ← on_store (SourceControlResourceStore.unregisterRepository
               (SourceControlResourceStore.repo_repositoryId repository));
        throw_error error);
  fireProjectionChange (Registered (SourceControlResourceStore.repo_repositoryId repository)
    (SourceControlResourceStore.repo_epoch repository)).

Definition unregisterRepository (repositoryId : string) : method service unit :=
  _ ← on_store (SourceControlResourceStore.unregisterRepository repositoryId);
  _ ← on_env (presenter_unregister env repositoryId);
  fireProjectionChange (Unregistered repositoryId).

(** The common end of the four updating methods. *)
Definition publish (update : method SourceControlResourceStore.store SourceControlResourceStore.ScmRepositoryProjection)
    : method service SourceControlResourceStore.ScmRepositoryProjection :=
  projection ← on_store update;
  _ ← on_env (presenter_update env projection);
  _ ← fireProjectionChange (Updated (SourceControlResourceStore.proj_repositoryId projection)
        (SourceControlResourceStore.proj_epoch projection) (SourceControlResourceStore.proj_generation projection)
        (SourceControlResourceStore.proj_freshness projection));
  mret projection.

Definition applySnapshot (snapshot : StatusSnapshot) :=
  publish (SourceControlResourceStore.applySnapshot localeCompareEn localeCompare snapshot).
Definition replaceSnapshot (snapshot : StatusSnapshot) :=
  publish (SourceControlResourceStore.replaceSnapshot localeCompareEn localeCompare snapshot).
Definition applyDelta (delta : StatusDelta) :=
  publish (SourceControlResourceStore.applyDelta localeCompareEn localeCompare delta).
Definition markStale (mark : StatusStaleMark) :=
  publish (SourceControlResourceStore.markStale localeCompareEn localeCompare mark).

(** [getProjection]: [undefined] when there is none; it may throw. *)
Definition getProjection (repositoryId : string) : method service (option SourceControlResourceStore.ScmRepositoryProjection) :=
  s ← get_state;
  match SourceControlResourceStore.getProjection localeCompareEn localeCompare (svc_store s) repositoryId with
  | None => mret None
  | Some r => projection ← lift_result r; mret (Some projection)
  end.

Definition updateRemoteConnectionState (state : RemoteConnectionState) : method service unit :=
  projection ← getProjection (rc_repositoryId state);
  match projection with
  | None => throw_error (projectionUnavailable (rc_repositoryId state))
  | Some projection =>
      if negb (SourceControlResourceStore.proj_epoch projection =? rc_epoch state)%Z
      then throw_error (projectionUnavailable (rc_repositoryId state))
      else
        _ ← on_env (presenter_updateRemote env state);
        fireProjectionChange (RemoteStateUpdated (rc_repositoryId state) (rc_epoch state) (kind_name (rc_kind state)))
  end.

Definition updateCountPolicy (countUnversioned_ ignoreChangelistsInCount_ : option js_value)
    : method service (list SourceControlResourceStore.ScmRepositoryProjection) :=
  projections ← on_store (SourceControlResourceStore.updateCountPolicy localeCompareEn localeCompare
    countUnversioned_ ignoreChangelistsInCount_);
  _ ← for_each (fun projection => on_env (presenter_update env projection)) projections;
  mret projections.

(** The readers pass on to the store; the targets may throw. *)
Definition getCommitAllTargets (repositoryId : string) : method service (option SourceControlResourceStore.ScmCommitAllTargets) :=
  s ← get_state;
  match SourceControlResourceStore.getCommitAllTargets localeCompare (svc_store s) repositoryId with
  | None => mret None
  | Some r => targets ← lift_result r; mret (Some targets)
  end.
Definition getProjectedResource (repositoryId path : string) (pathCase : PathCasePolicy)
    : method service (option SourceControlResourceStore.ScmProjectedResourceLookup) :=
  s ← get_state; mret (SourceControlResourceStore.getProjectedResource (svc_store s) repositoryId path pathCase).
End Service.
Arguments service : clear implicits.

End SourceControlProjectionService.
