(* ===== verification/Notifications.v ===== *)
(** status/statusStaleNotificationHandler.ts: notifications of the backend
    applied to both stores; status/watcherOverflowDiagnostics.ts.

    Parameters: the presenter and listeners of the projection service, the
    hash of a repository id (node's crypto), and whether [Date.parse] accepts a
    timestamp. *)

From Stdlib Require Import ZArith String List.
From stdpp Require Import base option list strings.
From S2P Require Import Prelude JsString JsMap JsValue StatusTypes StatusWire StatusStore ScmResources ProjectionService.

Import SourceControlProjectionService.
Local Open Scope string_scope.

(** ** status/watcherOverflowDiagnostics.ts *)
Module WatcherOverflowDiagnostics.
Record WatcherOverflowRecord := {
  over_repositoryId : string;
  over_epoch : Z;
  over_timestamp : string;
  over_source : string;
}.
Record WatcherOverflowDiagnosticsEntry := {
  diag_repositoryHash : string;
  diag_epoch : Z;
  diag_timestamp : string;
  diag_source : string;
}.
Record state := {
  overflowCount : Z;
  lastOverflow : option WatcherOverflowDiagnosticsEntry;
}.

Definition watcherOverflowDiagnosticsError (f : string) : js_error :=
  StructuredError "WatcherOverflowDiagnosticsError" "SUBVERSIONR_WATCHER_OVERFLOW_DIAGNOSTICS_FIELD_INVALID"
    "diagnostics" "error.status.watcherOverflowDiagnosticsInvalid" [("field", ArgString f)].

Section Record_.
Variable dateParses : string -> bool.
Variable repositoryHash : string -> string.

Definition recordOverflow (record : WatcherOverflowRecord) : method state unit :=
  _ ← lift_result (require (isNonEmptyString (over_repositoryId record)) (watcherOverflowDiagnosticsError "repositoryId"));
  _ ← lift_result (require (isNonNegativeSafeInteger (over_epoch record)) (watcherOverflowDiagnosticsError "epoch"));
  _ ← lift_result (require (isNonEmptyString (over_timestamp record)) (watcherOverflowDiagnosticsError "timestamp"));
  _ ← lift_result (require (dateParses (over_timestamp record)) (watcherOverflowDiagnosticsError "timestamp"));
  _ ← lift_result (require (bool_decide (over_source record = "native-watcher") || bool_decide (over_source record = "vscode-watcher"))
        (watcherOverflowDiagnosticsError "source"));
  modify_state (fun s => {| overflowCount := (overflowCount s + 1)%Z;
    lastOverflow := Some {| diag_repositoryHash := repositoryHash (over_repositoryId record);
      diag_epoch := over_epoch record; diag_timestamp := over_timestamp record; diag_source := over_source record |} |}).
End Record_.

(** The snapshot copies the entry, so that it has the fields of the state. *)
Record WatcherOverflowDiagnosticsSnapshot := { snap_overflowCount : Z; snap_lastOverflow : option WatcherOverflowDiagnosticsEntry }.
Definition diagnosticsSnapshot (s : state) : WatcherOverflowDiagnosticsSnapshot :=
  {| snap_overflowCount := overflowCount s; snap_lastOverflow := lastOverflow s |}.
End WatcherOverflowDiagnostics.

(** ** status/statusStaleNotificationHandler.ts *)

Definition notificationError (code category messageKey : string) (args : list (string * safe_arg)) : js_error :=
  StructuredError "StatusStaleNotificationError" code category messageKey args.
Definition invalidWatcherOverflowNotification (f : string) : js_error :=
  notificationError "SUBVERSIONR_WATCHER_OVERFLOW_NOTIFICATION_INVALID" "input"
    "error.status.watcherOverflowNotificationInvalid" [("field", ArgString f)].
Definition invalidStatusStaleNotification (f : string) : js_error :=
  notificationError "SUBVERSIONR_STATUS_STALE_NOTIFICATION_INVALID" "input"
    "error.status.staleNotificationInvalid" [("field", ArgString f)].
Definition staleStateUnavailable (repositoryId state : string) : js_error :=
  notificationError "SUBVERSIONR_STATUS_STALE_NOTIFICATION_STATE_UNAVAILABLE" "input"
    "error.status.staleNotificationStateUnavailable" [("repositoryId", ArgString repositoryId); ("state", ArgString state)].
Definition notificationStateUnavailable (repositoryId state : string) : js_error :=
  notificationError "SUBVERSIONR_STATUS_NOTIFICATION_STATE_UNAVAILABLE" "input"
    "error.status.notificationStateUnavailable" [("repositoryId", ArgString repositoryId); ("state", ArgString state)].
Definition notificationStateDiverged (repositoryId : string) (statusGeneration projectionGeneration : Z) : js_error :=
  notificationError "SUBVERSIONR_STATUS_NOTIFICATION_STATE_DIVERGED" "input"
    "error.status.notificationStateDiverged"
    [("repositoryId", ArgString repositoryId); ("statusGeneration", ArgNumber statusGeneration);
     ("projectionGeneration", ArgNumber projectionGeneration)].
Definition notificationUnsupported (method : string) : js_error :=
  notificationError "SUBVERSIONR_BACKEND_NOTIFICATION_UNSUPPORTED" "unsupported"
    "error.backend.notificationUnsupported" [("method", ArgString method)].

Definition STATUS_STALE_MARK_FIELDS : list string := ["repositoryId"; "epoch"; "reason"; "timestamp"; "source"].
Definition WATCHER_OVERFLOW_NOTIFICATION_FIELDS : list string := ["repositoryId"; "epoch"; "timestamp"].

(** [field in params], for the fields read here. *)
Definition has_field (v : js_value) (name : string) : bool :=
  match field v name with Some _ => true | None => false end.

(** The two loops of [requireExact...Fields]. *)
Definition requireExactFields (invalid : string -> js_error) (expected : list string) (params : js_value) : result unit :=
  _ ← eachi (fun _ f => require (set_has expected f) (invalid f)) (keys params);
  eachi (fun _ f => require (has_field params f) (invalid f)) expected.

Definition requireText (invalid : string -> js_error) (v : option js_value) (f : string) : result string :=
  match v with
  | Some (VStr s) => if bool_decide (trim s = "") then Throw (invalid f) else Ok s
  | _ => Throw (invalid f)
  end.

Definition requireEpochOf (invalid : string -> js_error) (v : option js_value) : result Z :=
  match v with
  | Some (VNum (NumInt z)) => if negb (isSafeInteger z) || (z <? 0)%Z then Throw (invalid "epoch") else Ok z
  | _ => Throw (invalid "epoch")
  end.

(** [isRecord(params)] *)
Definition requireParams (invalid : string -> js_error) (params : option js_value) : result js_value :=
  match params with
  | Some v => if isRecord (Some v) then Ok v else Throw (invalid "params")
  | None => Throw (invalid "params")
  end.

Definition parseStatusStaleMark (params : option js_value) : result StatusStaleMark :=
  v ← requireParams invalidStatusStaleNotification params;
  _ ← requireExactFields invalidStatusStaleNotification STATUS_STALE_MARK_FIELDS v;
  repositoryId ← requireText invalidStatusStaleNotification (field v "repositoryId") "repositoryId";
  epoch ← requireEpochOf invalidStatusStaleNotification (field v "epoch");
  reason ← requireText invalidStatusStaleNotification (field v "reason") "reason";
  timestamp ← requireText invalidStatusStaleNotification (field v "timestamp") "timestamp";
  source ← requireText invalidStatusStaleNotification (field v "source") "source";
  Ok {| mark_repositoryId := repositoryId; mark_epoch := epoch; mark_reason := reason;
        mark_timestamp := timestamp; mark_source := source |}.

Section Handler.
Variable localeCompareEn localeCompare : string -> string -> comparison.
Variable win32 : bool.
Variable dateParses : string -> bool.
Variable repositoryHash : string -> string.
Context {E : Type} (env : Environment E).

Definition requireWatcherOverflowTimestamp (v : option js_value) : result string :=
  timestamp ← requireText invalidWatcherOverflowNotification v "timestamp";
  if dateParses timestamp then Ok timestamp else Throw (invalidWatcherOverflowNotification "timestamp").

Definition parseWatcherOverflowNotification (params : option js_value) : result StatusStaleMark :=
  v ← requireParams invalidWatcherOverflowNotification params;
  _ ← requireExactFields invalidWatcherOverflowNotification WATCHER_OVERFLOW_NOTIFICATION_FIELDS v;
  repositoryId ← requireText invalidWatcherOverflowNotification (field v "repositoryId") "repositoryId";
  epoch ← requireEpochOf invalidWatcherOverflowNotification (field v "epoch");
  timestamp ← requireWatcherOverflowTimestamp (field v "timestamp");
  Ok {| mark_repositoryId := repositoryId; mark_epoch := epoch; mark_reason := "watcherOverflow";
        mark_timestamp := timestamp; mark_source := "native-watcher" |}.

(** The three objects of [StatusNotificationHandlerOptions]. *)
Record app := {
  statusSnapshotStore : StatusSnapshotStore.store;
  sourceControlProjection : service E;
  watcherOverflowDiagnostics : WatcherOverflowDiagnostics.state;
}.

Definition on_status {A} (m : method StatusSnapshotStore.store A) : method app A :=
  on_part statusSnapshotStore (fun s t => {| statusSnapshotStore := t;
    sourceControlProjection := sourceControlProjection s;
    watcherOverflowDiagnostics := watcherOverflowDiagnostics s |}) m.
Definition on_projection {A} (m : method (service E) A) : method app A :=
  on_part sourceControlProjection (fun s t => {| statusSnapshotStore := statusSnapshotStore s;
    sourceControlProjection := t; watcherOverflowDiagnostics := watcherOverflowDiagnostics s |}) m.
Definition on_overflow {A} (m : method WatcherOverflowDiagnostics.state A) : method app A :=
  on_part watcherOverflowDiagnostics (fun s t => {| statusSnapshotStore := statusSnapshotStore s;
    sourceControlProjection := sourceControlProjection s; watcherOverflowDiagnostics := t |}) m.

Definition requireInitializedStaleState (mark : StatusStaleMark) : method app unit :=
  s ← get_state;
  let unavailable := staleStateUnavailable (mark_repositoryId mark) in
  match StatusSnapshotStore.getSnapshot (statusSnapshotStore s) (mark_repositoryId mark) with
  | None => throw_error (unavailable "status")
  | Some snapshot =>
    if negb (snapshot_epoch snapshot =? mark_epoch mark)%Z then throw_error (unavailable "status")
    else
      projection ← on_projection (getProjection localeCompareEn localeCompare (mark_repositoryId mark));
      match projection with
      | None => throw_error (unavailable "projection")
      | Some projection =>
        if negb (SourceControlResourceStore.proj_epoch projection =? mark_epoch mark)%Z
        then throw_error (unavailable "projection") else mret tt
      end
  end.

Definition requireInitializedDeltaState (delta : StatusDelta) : method app unit :=
  s ← get_state;
  let id := delta_repositoryId delta in
  match StatusSnapshotStore.getSnapshot (statusSnapshotStore s) id with
  | None => throw_error (notificationStateUnavailable id "status")
  | Some snapshot =>
    if negb (snapshot_epoch snapshot =? delta_epoch delta)%Z || (delta_generation delta <=? snapshot_generation snapshot)%Z
    then throw_error (notificationStateUnavailable id "status")
    else
      projection ← on_projection (getProjection localeCompareEn localeCompare id);
      match projection with
      | None => throw_error (notificationStateUnavailable id "projection")
      | Some projection =>
        let generation := SourceControlResourceStore.proj_generation projection in
        if negb (SourceControlResourceStore.proj_epoch projection =? delta_epoch delta)%Z
           || (delta_generation delta <=? generation)%Z
        then throw_error (notificationStateUnavailable id "projection")
        else if negb (snapshot_generation snapshot =? generation)%Z
        then throw_error (notificationStateDiverged id (snapshot_generation snapshot) generation)
        else mret tt
      end
  end.

Definition replaceProjectionFromCanonicalSnapshot (repositoryId : string) (epoch : Z) (expectedGeneration : option Z)
    : method app unit :=
  s ← get_state;
  match StatusSnapshotStore.getSnapshot (statusSnapshotStore s) repositoryId with
  | None => throw_error (notificationStateUnavailable repositoryId "status")
  | Some snapshot =>
    if negb (snapshot_epoch snapshot =? epoch)%Z then throw_error (notificationStateUnavailable repositoryId "status")
    else if match expectedGeneration with Some g => negb (snapshot_generation snapshot =? g)%Z | None => false end
    then throw_error (notificationStateUnavailable repositoryId "status")
    else
      _ ← on_projection (replaceSnapshot localeCompareEn localeCompare env snapshot);
      mret tt
  end.

Definition publishProjectionDelta (delta : StatusDelta) : method app unit :=
  try_catch
    (_ ← on_projection (applyDelta localeCompareEn localeCompare env delta); mret tt)
    (fun error =>
       _ ← replaceProjectionFromCanonicalSnapshot (delta_repositoryId delta) (delta_epoch delta)
             (Some (delta_generation delta));
       throw_error error).

Definition publishProjectionStale (mark : StatusStaleMark) : method app unit :=
  try_catch
    (_ ← on_projection (markStale localeCompareEn localeCompare env mark); mret tt)
    (fun error =>
       _ ← replaceProjectionFromCanonicalSnapshot (mark_repositoryId mark) (mark_epoch mark) None;
       throw_error error).

(** The function [createStatusNotificationHandler] returns. *)
Definition handleNotification (notification : string) (params : option js_value) : method app unit :=
  if bool_decide (notification = "status/stale") then
    mark ← lift_result (parseStatusStaleMark params);
    _ ← requireInitializedStaleState mark;
    _ ← on_status (StatusSnapshotStore.markStale mark);
    publishProjectionStale mark
  else if bool_decide (notification = "status/delta") then
    delta ← lift_result (RefreshClient.parseStatusDelta win32 params);
    _ ← requireInitializedDeltaState delta;
    _ ← on_status (StatusSnapshotStore.applyDelta delta);
    publishProjectionDelta delta
  else if bool_decide (notification = "watcher/overflow") then
    mark ← lift_result (parseWatcherOverflowNotification params);
    _ ← requireInitializedStaleState mark;
    _ ← on_status (StatusSnapshotStore.markStale mark);
    _ ← publishProjectionStale mark;
    on_overflow (WatcherOverflowDiagnostics.recordOverflow dateParses repositoryHash
      {| WatcherOverflowDiagnostics.over_repositoryId := mark_repositoryId mark;
         WatcherOverflowDiagnostics.over_epoch := mark_epoch mark;
         WatcherOverflowDiagnostics.over_timestamp := mark_timestamp mark;
         WatcherOverflowDiagnostics.over_source := "native-watcher" |})
  else throw_error (notificationUnsupported notification).
End Handler.
Arguments app : clear implicits.
