(* ===== verification/NotificationsFacts.v ===== *)
(** The notification handler and the projection service: the canonical store
    and the projection store agree after every notification, whatever the
    presenter and the listeners do. *)

From Stdlib Require Import ZArith Lia String List.
From stdpp Require Import base option list strings.
From S2P Require Import Prelude JsString JsMap JsValue StatusTypes StatusWire StatusWireFacts.
From S2P Require Import StatusStore StatusStoreFacts ScmResources ScmFacts StoresAgree.
From S2P Require Import ProjectionService Notifications.

Import SourceControlProjectionService.
Local Open Scope string_scope.

(** ** The canonical snapshot rebuilds the canonical maps *)

Lemma by_path_values_from m acc :
  map_wf (acc ++ m)%list -> (forall p e, (p, e) ∈ m -> entry_path e = p) ->
  fold_left (fun m e => map_set m (entry_path e) e) (map snd m) acc = (acc ++ m)%list.
Proof.
  revert acc. induction m as [|[p e] m IH]; intros acc Hwf Hkey; cbn [map fold_left snd].
  - by rewrite List.app_nil_r.
  - rewrite (Hkey p e) by apply list_elem_of_here. rewrite map_set_fresh.
    + rewrite IH; [by rewrite <- List.app_assoc|by rewrite <- List.app_assoc|]. intros. by apply Hkey, list_elem_of_further.
    + unfold map_wf, map_keys in *. rewrite List.map_app in Hwf. cbn in Hwf. apply NoDup_app in Hwf as (_ & Hd & _).
      intros Hin. apply (Hd p Hin). apply list_elem_of_here.
Qed.

Lemma by_path_values m : entries_wf m -> by_path (map_values m) = m.
Proof.
  intros [Hwf Hkey]. unfold by_path, map_of, map_values. rewrite by_path_fold.
  rewrite (by_path_values_from m []); [done|done|]. intros p e Hin. apply Hkey. by apply map_get_elem.
Qed.

Lemma values_paths m : entries_wf m -> map entry_path (map_values m) = map_keys m.
Proof.
  intros [Hwf Hkey]. unfold map_values, map_keys. rewrite List.map_map. apply map_ext_in.
  intros [p e] Hin. cbn. apply Hkey. apply map_get_elem; [done|]. by apply list_elem_of_In.
Qed.

(** ** The parsers of the notifications *)
Lemma requireText_ok invalid v f s : requireText invalid v f = Ok s -> isNonEmptyString s = true.
Proof.
  unfold requireText, isNonEmptyString. intros H. destruct v as [v|]; [|done]. destruct v; try done.
  destruct (bool_decide_reflect (trim s0 = "")); simplify_eq. by rewrite bool_decide_false.
Qed.

Lemma requireEpochOf_ok invalid v z : requireEpochOf invalid v = Ok z -> isNonNegativeSafeInteger z = true.
Proof.
  unfold requireEpochOf, isNonNegativeSafeInteger. intros H. repeat case_match; simplify_eq.
  destruct (isSafeInteger z); cbn in *; [lia|done].
Qed.

Lemma parseWatcherOverflow_ok dateParses params mark :
  parseWatcherOverflowNotification dateParses params = Ok mark ->
  isNonEmptyString (mark_repositoryId mark) = true /\ isNonNegativeSafeInteger (mark_epoch mark) = true /\
  isNonEmptyString (mark_timestamp mark) = true /\ dateParses (mark_timestamp mark) = true.
Proof.
  unfold parseWatcherOverflowNotification, requireWatcherOverflowTimestamp. intros H.
  apply bind_ok in H as (v & _ & H). apply bind_ok in H as (u & _ & H). apply bind_ok in H as (id & Hid & H).
  apply bind_ok in H as (ep & Hep & H). apply bind_ok in H as (ts & Hts & [= <-]). apply bind_ok in Hts as (ts' & Ht & Hd).
  destruct (dateParses ts') eqn:E; [|done]. injection Hd as <-. cbn.
  by apply requireText_ok in Hid, Ht; apply requireEpochOf_ok in Hep.
Qed.

(** ** The projection service *)
Section Service.
Variable localeCompareEn localeCompare : string -> string -> comparison.
Context {E : Type} (env : Environment E).

Lemma env_keeps {A} (m : method E A) (R : SourceControlResourceStore.store -> Prop) :
  triple (fun s => R (svc_store s)) (on_env m) (fun _ s => R (svc_store s)) (fun _ s => R (svc_store s)).
Proof. by apply (triple_part (A:=A) svc_env _ m (fun s => R (svc_store s))). Qed.

(** The presenter and the listeners see the update; they cannot undo it. *)
Lemma publish_spec update (P R : SourceControlResourceStore.store -> Prop) :
  triple P update (fun _ => R) (fun _ => R) ->
  triple (fun s => P (svc_store s)) (publish env update) (fun _ s => R (svc_store s)) (fun _ s => R (svc_store s)).
Proof.
  intros Hu. unfold publish. eapply (triple_bind _ _ _ (fun _ s => R (svc_store s))).
  - intros s Hs. specialize (Hu (svc_store s) Hs). unfold on_store, on_part.
    destruct (update (svc_store s)) as [[a|e] t]; done.
  - intros projection. eapply (triple_bind _ _ _ (fun _ s => R (svc_store s))); [apply env_keeps|]. intros _.
    eapply (triple_bind _ _ _ (fun _ s => R (svc_store s))); [|by intros _ s].
    apply (triple_for_each _ _ (fun s => R (svc_store s))). intros listener. apply env_keeps.
Qed.
End Service.

(** ** The handler *)
Section Handler.
Variable localeCompareEn localeCompare : string -> string -> comparison.
Variable win32 : bool.
Variable dateParses : string -> bool.
Variable repositoryHash : string -> string.
Context {E : Type} (env : Environment E).

Notation agree := (agree localeCompareEn).
Notation related := (related localeCompareEn).
Notation projection_run := (projection_run localeCompareEn localeCompare).

(** The two stores of the application, in step. *)
Definition in_step (a : app E) : Prop :=
  store_ok (statusSnapshotStore a) /\ agree (statusSnapshotStore a) (svc_store (sourceControlProjection a)).

(** The canonical snapshot of a repository brings its projection back to the
    canonical entries. *)
Lemma related_canonical id a b i :
  state_ok id a -> related id a b -> StatusSnapshotStore.initialized a = Some i ->
  related id a (snapshot_pstate localeCompareEn b (StatusSnapshotStore.snapshot_of a i)).
Proof.
  intros [Hid Hl Hr _] Hrel Hi. set (s := StatusSnapshotStore.snapshot_of a i).
  assert (NoDup (map entry_path (snapshot_remoteEntries s))) as Hnd.
  { cbn. rewrite values_paths by done. apply Hr. }
  pose proof (related_snapshot localeCompareEn id a b s Hrel Hnd) as [Hok He Hg Hent].
  apply initialized_spec in Hi as (Hgen & _). split.
  - change (StatusSnapshotStore.st_remoteEntries _) with (by_path (map_values (StatusSnapshotStore.st_remoteEntries a))) in Hok.
    by rewrite by_path_values in Hok.
  - done.
  - by rewrite Hg.
  - intros p. rewrite Hent.
    change (map_get (by_path (map_values (StatusSnapshotStore.st_localEntries a))) p =
      map_get (StatusSnapshotStore.st_localEntries a) p). by rewrite by_path_values.
Qed.

Lemma replace_canonical ss st id snapshot :
  store_ok ss -> agree ss st -> StatusSnapshotStore.getSnapshot ss id = Some snapshot ->
  exists st', drop (SourceControlResourceStore.replaceSnapshot localeCompareEn localeCompare snapshot st) = (None, st')
    /\ agree ss st'.
Proof.
  intros Hss Hag Hs. unfold StatusSnapshotStore.getSnapshot in Hs.
  destruct (map_get ss id) as [a|] eqn:Ha; [|done]. cbn in Hs.
  destruct (StatusSnapshotStore.initialized a) as [i|] eqn:Hi; [|done]. injection Hs as <-.
  destruct (agree_get _ _ _ _ _ Hag Ha) as (b & Hb & Hrel). pose proof (proj2 Hss _ _ Ha) as Hok.
  pose proof (related_canonical id a b i Hok Hrel Hi) as Hrel'. pose proof (state_id _ _ Hok) as Hid.
  destruct (replace_run localeCompareEn localeCompare st b (StatusSnapshotStore.st_remoteEntries a)
    (StatusSnapshotStore.snapshot_of a i)) as [proj ->].
  - cbn. by rewrite Hid.
  - cbn. rewrite Hid. apply Hrel.
  - cbn. rewrite values_paths by apply Hok. apply Hok.
  - apply initialized_spec in Hi as (Hgen & _). cbn.
    rewrite (related_generation _ _ _ _ Hrel), Hgen. cbn. rewrite Z.ltb_irrefl. by rewrite andb_false_r.
  - eexists. split; [done|]. intros id'. cbn. rewrite Hid, map_get_set.
    destruct (bool_decide_reflect (id = id')) as [<-|]; [by rewrite Ha|apply Hag].
Qed.

(** Publishing an update that keeps agreement, whatever it throws. *)
Lemma publish_in_step update ss (P : SourceControlResourceStore.store -> Prop) :
  store_ok ss -> (forall st, P st -> exists st', drop (update st) = (None, st') /\ agree ss st') ->
  triple (fun a => statusSnapshotStore a = ss /\ P (svc_store (sourceControlProjection a)))
    (on_projection (publish env update)) (fun _ => in_step) (fun _ => in_step).
Proof.
  intros Hss Hu. unfold on_projection.
  eapply triple_conseq; [apply (triple_frame sourceControlProjection _ _ (fun a => statusSnapshotStore a = ss));
    [done|done|apply (publish_spec env update P (agree ss))]|done| |].
  - intros st Hst. destruct (Hu st Hst) as (st' & Hd & Hag). unfold drop in Hd.
    destruct (update st) as [[x|e] t]; by simplify_eq.
  - by intros _ a [<- Hag].
  - by intros _ a [<- Hag].
Qed.

Lemma canonical_in_step id epoch generation :
  triple in_step (replaceProjectionFromCanonicalSnapshot localeCompareEn localeCompare env id epoch generation)
    (fun _ => in_step) (fun _ => in_step).
Proof.
  unfold replaceProjectionFromCanonicalSnapshot. apply triple_get. intros a0.
  destruct (StatusSnapshotStore.getSnapshot (statusSnapshotStore a0) id) as [snapshot|] eqn:Hs;
    [|by apply triple_throw; intros a [_ ?]].
  destruct (negb _); [by apply triple_throw; intros a [_ ?]|].
  destruct (match generation with Some g => _ | None => _ end); [by apply triple_throw; intros a [_ ?]|].
  eapply (triple_bind _ _ _ (fun _ => in_step)); [|by intros _ a].
  intros a [-> [Hss Hag]]. apply (publish_in_step _ (statusSnapshotStore a0) (agree (statusSnapshotStore a0))); [done| |done].
  intros st Hst. by apply (replace_canonical _ _ id).
Qed.

(** After the canonical store accepted a message, [agree] holds for the new
    projection store only once the projection has taken it too. *)
Definition pending (m : message) (a : app E) : Prop :=
  store_ok (statusSnapshotStore a) /\
  exists ss, agree ss (svc_store (sourceControlProjection a)) /\ exec (op_of m) ss = (None, statusSnapshotStore a).

Lemma publish_pending m update :
  message_ok m -> (forall st, projection_run m st = drop (update st)) ->
  triple (pending m) (on_projection (publish env update)) (fun _ => in_step) (fun _ => in_step).
Proof.
  intros Hm Hrun a [Hss (ss & Hag & Hex)].
  apply (publish_in_step update (statusSnapshotStore a) (agree ss)); [done| |done].
  intros st Hst. rewrite <- Hrun. by apply (agree_step localeCompareEn localeCompare m ss).
Qed.

(** The canonical store's part of a notification. *)
Lemma status_pending {A} m (run : method StatusSnapshotStore.store A) :
  op_ok win32 (op_of m) ->
  (forall ss, exec (op_of m) ss = match run ss with (Ok _, s') => (None, s') | (Throw e, s') => (Some e, s') end) ->
  triple in_step (on_status run) (fun _ => pending m) (fun _ => in_step).
Proof.
  intros Hop Hrun a [Hss Hag]. pose proof (exec_preserves win32 _ _ Hop Hss) as Hok.
  pose proof (Hrun (statusSnapshotStore a)) as Hex. unfold on_status, on_part.
  destruct (run (statusSnapshotStore a)) as [[x|e] ss'] eqn:E1; rewrite Hex in Hok; cbn in *.
  - split; [done|]. exists (statusSnapshotStore a). done.
  - rewrite (exec_throw_same _ _ _ _ Hex). done.
Qed.

(** The guards read the stores and change nothing. *)
Definition reader {A} (m : method (app E) A) : Prop := forall a, snd (m a) = a.

Lemma reader_bind {A B} (m : method (app E) A) (f : A -> method (app E) B) :
  reader m -> (forall x, reader (f x)) -> reader (x ← m; f x).
Proof.
  intros Hm Hf a. unfold mbind, method_bind. specialize (Hm a). destruct (m a) as [[x|e] a']; cbn in *; subst; [apply Hf|done].
Qed.
Lemma reader_projection id : reader (on_projection (getProjection localeCompareEn localeCompare id)).
Proof.
  intros a. unfold on_projection, on_part, getProjection, get_state, lift_result, mbind, method_bind, mret, method_ret.
  destruct a as [ss st w]. cbn [sourceControlProjection].
  by destruct (SourceControlResourceStore.getProjection _ _ _ _) as [[p|e]|].
Qed.
Lemma reader_get : reader get_state.
Proof. done. Qed.
Lemma reader_throw {A} e : reader (throw_error (A:=A) e).
Proof. done. Qed.
Lemma reader_ret {A} (x : A) : reader (mret x).
Proof. done. Qed.
Lemma reader_if {A} (b : bool) (m1 m2 : method (app E) A) : reader m1 -> reader m2 -> reader (if b then m1 else m2).
Proof. by destruct b. Qed.
Lemma reader_option {A B} (o : option B) (m1 : B -> method (app E) A) m2 :
  (forall x, reader (m1 x)) -> reader m2 -> reader (match o with Some x => m1 x | None => m2 end).
Proof. by destruct o. Qed.

Lemma reader_triple {A} (m : method (app E) A) P : reader m -> triple P m (fun _ => P) (fun _ => P).
Proof. intros Hm a Ha. specialize (Hm a). destruct (m a) as [[x|e] a']; cbn in *; by subst. Qed.

Ltac reads := repeat first
  [ apply reader_bind; [apply reader_get || apply reader_projection|intros ?] | apply reader_if | apply reader_throw
  | apply reader_ret | apply reader_option; [intros ?|] ].

Lemma stale_guard_reads mark : reader (requireInitializedStaleState localeCompareEn localeCompare mark).
Proof. unfold requireInitializedStaleState. reads. Qed.

Lemma delta_guard_reads delta : reader (requireInitializedDeltaState localeCompareEn localeCompare delta).
Proof. unfold requireInitializedDeltaState. reads. Qed.

(** *** Every notification keeps the stores in step *)
Notation handleNotification := (handleNotification localeCompareEn localeCompare win32 dateParses repositoryHash env).

Lemma publish_stale_step mark :
  triple (pending (MStale mark)) (publishProjectionStale localeCompareEn localeCompare env mark)
    (fun _ => in_step) (fun _ => in_step).
Proof.
  apply (triple_catch _ _ _ _ (fun _ => in_step)).
  - eapply triple_bind; [by apply (publish_pending (MStale mark))|]. by intros ? a Ha.
  - intros e. eapply triple_bind; [apply canonical_in_step|]. intros ?. by apply triple_throw.
Qed.

Lemma publish_delta_step delta :
  triple (pending (MDelta delta)) (publishProjectionDelta localeCompareEn localeCompare env delta)
    (fun _ => in_step) (fun _ => in_step).
Proof.
  apply (triple_catch _ _ _ _ (fun _ => in_step)).
  - eapply triple_bind; [by apply (publish_pending (MDelta delta))|]. by intros ? a Ha.
  - intros e. eapply triple_bind; [apply canonical_in_step|]. intros ?. by apply triple_throw.
Qed.

Lemma handle_mark parsed (finish : StatusStaleMark -> method (app E) unit) :
  (forall mark, triple in_step (finish mark) (fun _ => in_step) (fun _ => in_step)) ->
  triple in_step
    (mark ← lift_result parsed;
     _ ← requireInitializedStaleState localeCompareEn localeCompare mark;
     _ ← on_status (StatusSnapshotStore.markStale mark);
     _ ← publishProjectionStale localeCompareEn localeCompare env mark;
     finish mark) (fun _ => in_step) (fun _ => in_step).
Proof.
  intros Hf. eapply (triple_bind _ _ _ (fun _ => in_step)); [by apply triple_lift|]. intros mark.
  eapply triple_bind; [apply reader_triple, stale_guard_reads|]. intros ?.
  eapply triple_bind; [apply (status_pending (MStale mark)); [done|intros ss; reflexivity]|]. intros ?.
  eapply triple_bind; [apply publish_stale_step|]. intros ?. apply Hf.
Qed.

Lemma handle_in_step notification params :
  triple in_step (handleNotification notification params) (fun _ => in_step) (fun _ => in_step).
Proof.
  unfold Notifications.handleNotification. case_bool_decide as H1; [|case_bool_decide as H2; [|case_bool_decide as H3]].
  - intros a Ha. pose proof (handle_mark (parseStatusStaleMark params) (fun _ => mret tt)) as H.
    specialize (H (fun _ a Ha => Ha) a Ha). revert H. unfold mbind, method_bind, mret, method_ret.
    repeat case_match; simplify_eq; done.
  - apply (triple_bind in_step _ _ (fun delta a => delta_ok win32 delta /\ in_step a)).
    + apply triple_lift; [|done]. intros a delta Hp Ha. split; [|done]. by eapply parseStatusDelta_ok.
    + intros delta. intros a [Hok Ha]. revert a Ha.
      change (triple in_step (_ ← requireInitializedDeltaState localeCompareEn localeCompare delta;
        _ ← on_status (StatusSnapshotStore.applyDelta delta);
        publishProjectionDelta localeCompareEn localeCompare env delta) (fun _ => in_step) (fun _ => in_step)).
      eapply triple_bind; [apply reader_triple, delta_guard_reads|]. intros ?.
      eapply triple_bind; [apply (status_pending (MDelta delta)); [done|intros ss; reflexivity]|]. intros ?.
      apply publish_delta_step.
  - apply handle_mark. intros mark. by apply triple_part.
  - by apply triple_throw.
Qed.

(** *** What a notification does when nobody throws *)

(** A presenter and listeners that return. *)
Record quiet : Prop := {
  quiet_update projection e : exists e', presenter_update env projection e = (Ok tt, e');
  quiet_listeners : Forall (fun listener => forall event e, exists e', listener event e = (Ok tt, e')) (listeners env);
}.

Lemma for_each_env (ls : list (SourceControlProjectionChange -> method E unit)) event st e :
  Forall (fun listener => forall event e, exists e', listener event e = (Ok tt, e')) ls ->
  exists e', for_each (fun listener => on_env (listener event)) ls {| svc_store := st; svc_env := e |} =
    (Ok tt, {| svc_store := st; svc_env := e' |}).
Proof.
  intros Hls. revert e. induction Hls as [|l ls Hl _ IH]; intros e; cbn [for_each]; [by eexists|].
  unfold mbind, method_bind, on_env, on_part. cbn. destruct (Hl event e) as [e1 ->]. apply IH.
Qed.

Lemma publish_quiet update st st' e :
  quiet -> drop (update st) = (None, st') ->
  exists p e', publish env update {| svc_store := st; svc_env := e |} = (Ok p, {| svc_store := st'; svc_env := e' |}).
Proof.
  intros [Hup Hl] Hd. unfold drop in Hd. destruct (update st) as [[p|?] t] eqn:Hu; simplify_eq.
  destruct (Hup p e) as [e1 He1].
  destruct (for_each_env (listeners env) (Updated (SourceControlResourceStore.proj_repositoryId p)
        (SourceControlResourceStore.proj_epoch p) (SourceControlResourceStore.proj_generation p)
        (SourceControlResourceStore.proj_freshness p)) st' e1 Hl) as [e2 He2].
  exists p, e2. unfold publish.
  rewrite (method_bind_ok _ _ _ p {| svc_store := st'; svc_env := e |}) by (unfold on_store, on_part; cbn; by rewrite Hu).
  rewrite (method_bind_ok _ _ _ tt {| svc_store := st'; svc_env := e1 |}) by (unfold on_env, on_part; cbn; by rewrite He1).
  unfold fireProjectionChange. by rewrite (method_bind_ok _ _ _ tt _ He2).
Qed.

(** The projection of an agreeing store is there, with the canonical epoch
    and generation. *)
Lemma read_projection a id st i :
  in_step a -> map_get (statusSnapshotStore a) id = Some st -> StatusSnapshotStore.initialized st = Some i ->
  exists p, on_projection (getProjection localeCompareEn localeCompare id) a = (Ok (Some p), a) /\
    SourceControlResourceStore.proj_epoch p = StatusSnapshotStore.st_epoch st /\
    SourceControlResourceStore.proj_generation p = StatusSnapshotStore.init_generation i.
Proof.
  intros [Hss Hag] Hst Hi. destruct (agree_get _ _ _ _ _ Hag Hst) as (b & Hb & [Hok He Hg _]).
  apply initialized_spec in Hi as (Hgen & _). rewrite Hgen in Hg.
  destruct (pstate_fresh _ _ _ _ Hok) as [f Hf]; [by rewrite Hg|].
  set (policy := SourceControlResourceStore.countPolicy (svc_store (sourceControlProjection a))).
  pose proof (pstate_view _ _ _ _ Hok) as Hview.
  destruct (projectionFromState_total localeCompareEn localeCompare b policy (StatusSnapshotStore.init_generation i) f) as [p Hp];
    [apply Hview|done|done|].
  exists p. split.
  - unfold on_projection, on_part, getProjection, get_state, lift_result, mbind, method_bind, mret, method_ret.
    unfold SourceControlResourceStore.getProjection. rewrite Hb, Hg. subst policy. rewrite Hp. by destruct a.
  - unfold SourceControlResourceStore.projectionFromState in Hp. rewrite Hg in Hp.
    apply bind_ok in Hp as (f' & _ & Hp). apply bind_ok in Hp as (gs & _ & [= <-]). done.
Qed.

Lemma getSnapshot_initialized ss id st i :
  map_get ss id = Some st -> StatusSnapshotStore.initialized st = Some i ->
  StatusSnapshotStore.getSnapshot ss id = Some (StatusSnapshotStore.snapshot_of st i).
Proof. intros Hst Hi. unfold StatusSnapshotStore.getSnapshot. rewrite Hst. cbn. by rewrite Hi. Qed.

Lemma stale_guard_passes mark a ss' :
  in_step a -> exec (OpStale mark) (statusSnapshotStore a) = (None, ss') ->
  requireInitializedStaleState localeCompareEn localeCompare mark a = (Ok tt, a).
Proof.
  intros Hin Hex. pose proof (markStale_cases mark (statusSnapshotStore a)) as H. unfold exec in Hex.
  destruct (StatusSnapshotStore.markStale mark (statusSnapshotStore a)) as [[out|e] s1]; [|done].
  destruct H as (st & i & Hst & He & Hi & _). destruct (read_projection a _ _ _ Hin Hst Hi) as (p & Hp & Hpe & _).
  unfold requireInitializedStaleState, mbind, method_bind, get_state.
  rewrite (getSnapshot_initialized _ _ _ _ Hst Hi). cbn [snapshot_epoch StatusSnapshotStore.snapshot_of].
  rewrite He, Z.eqb_refl. cbn [negb]. rewrite Hp, Hpe, He, Z.eqb_refl. done.
Qed.

Lemma delta_guard_passes delta a ss' :
  in_step a -> exec (OpDelta delta) (statusSnapshotStore a) = (None, ss') ->
  requireInitializedDeltaState localeCompareEn localeCompare delta a = (Ok tt, a).
Proof.
  intros Hin Hex. pose proof (applyDelta_cases delta (statusSnapshotStore a)) as H. unfold exec in Hex.
  destruct (StatusSnapshotStore.applyDelta delta (statusSnapshotStore a)) as [[out|e] s1]; [|done].
  destruct H as (st & i & summary & Hst & He & Hi & Hg & _).
  destruct (read_projection a _ _ _ Hin Hst Hi) as (p & Hp & Hpe & Hpg).
  unfold requireInitializedDeltaState, mbind, method_bind, get_state.
  rewrite (getSnapshot_initialized _ _ _ _ Hst Hi).
  cbn [snapshot_epoch snapshot_generation StatusSnapshotStore.snapshot_of].
  rewrite He, Z.eqb_refl. replace (delta_generation delta <=? StatusSnapshotStore.init_generation i)%Z with false by lia.
  cbn [negb orb]. rewrite Hp, Hpe, Hpg, He, !Z.eqb_refl.
  replace (delta_generation delta <=? StatusSnapshotStore.init_generation i)%Z with false by lia. done.
Qed.

(** The message a notification carries, and whether it counts an overflow. *)
Definition carried (notification : string) (params : option js_value) : result (message * Z) :=
  if bool_decide (notification = "status/stale") then mark ← parseStatusStaleMark params; Ok (MStale mark, 0%Z)
  else if bool_decide (notification = "status/delta") then
    delta ← RefreshClient.parseStatusDelta win32 params; Ok (MDelta delta, 0%Z)
  else if bool_decide (notification = "watcher/overflow") then
    mark ← parseWatcherOverflowNotification dateParses params; Ok (MStale mark, 1%Z)
  else Throw (notificationUnsupported notification).

(** The end of a notification whose message both stores take. *)
Lemma publish_outcome m update a ss' :
  quiet -> in_step a -> message_ok m -> (forall st, projection_run m st = drop (update st)) ->
  exec (op_of m) (statusSnapshotStore a) = (None, ss') ->
  exists p svc', on_projection (publish env update) {| statusSnapshotStore := ss';
      sourceControlProjection := sourceControlProjection a;
      watcherOverflowDiagnostics := watcherOverflowDiagnostics a |} =
    (Ok p, {| statusSnapshotStore := ss'; sourceControlProjection := svc';
              watcherOverflowDiagnostics := watcherOverflowDiagnostics a |}).
Proof.
  intros Hq [Hss Hag] Hm Hrun Hex.
  destruct (agree_step localeCompareEn localeCompare m _ _ _ Hm Hag Hex) as (st' & Hst & _). rewrite Hrun in Hst.
  destruct a as [ss [st e] w]. cbn in *. destruct (publish_quiet update st st' e Hq Hst) as (p & e' & Hp).
  exists p, {| svc_store := st'; svc_env := e' |}. unfold on_projection, on_part. cbn. by rewrite Hp.
Qed.

Lemma overflow_recorded params mark a :
  parseWatcherOverflowNotification dateParses params = Ok mark ->
  exists w, on_overflow (WatcherOverflowDiagnostics.recordOverflow dateParses repositoryHash
      {| WatcherOverflowDiagnostics.over_repositoryId := mark_repositoryId mark;
         WatcherOverflowDiagnostics.over_epoch := mark_epoch mark;
         WatcherOverflowDiagnostics.over_timestamp := mark_timestamp mark;
         WatcherOverflowDiagnostics.over_source := "native-watcher" |}) a =
    (Ok tt, {| statusSnapshotStore := statusSnapshotStore a; sourceControlProjection := sourceControlProjection (E:=E) a;
               watcherOverflowDiagnostics := w |}) /\
    WatcherOverflowDiagnostics.overflowCount w =
      (WatcherOverflowDiagnostics.overflowCount (watcherOverflowDiagnostics a) + 1)%Z.
Proof.
  intros (Hid & He & Ht & Hd)%parseWatcherOverflow_ok. destruct a as [ss svc w]. eexists. split.
  - unfold on_overflow, on_part, WatcherOverflowDiagnostics.recordOverflow, lift_result, require, modify_state, mbind, method_bind.
    cbn. rewrite Hid, He, Ht, Hd. reflexivity.
  - done.
Qed.

Lemma status_run {A} m (run : method StatusSnapshotStore.store A) a :
  (forall ss, exec (op_of m) ss = match run ss with (Ok _, s') => (None, s') | (Throw e, s') => (Some e, s') end) ->
  match exec (op_of m) (statusSnapshotStore a) with
  | (Some e, _) => on_status (E:=E) run a = (Throw e, a)
  | (None, ss') => exists x, on_status run a = (Ok x, {| statusSnapshotStore := ss';
      sourceControlProjection := sourceControlProjection a; watcherOverflowDiagnostics := watcherOverflowDiagnostics a |})
  end.
Proof.
  intros Hrun. destruct (exec (op_of m) (statusSnapshotStore a)) as [r ss'] eqn:Hex.
  pose proof (exec_throw_same (op_of m)) as Hsame. unfold on_status, on_part. rewrite Hrun in Hex.
  destruct (run (statusSnapshotStore a)) as [[x|e] s1] eqn:E1; simplify_eq; [by exists x|].
  rewrite (Hsame (statusSnapshotStore a) e ss'); [by destruct a|]. by rewrite Hrun, E1.
Qed.

(** The steps a notification goes through, on any message: it throws and
    changes nothing where the canonical store refuses the message, and
    returns where it accepts it. *)
Lemma message_outcome {A} m guard (run : method StatusSnapshotStore.store A) update handler a :
  quiet -> in_step a -> message_ok m ->
  (forall ss, exec (op_of m) ss = match run ss with (Ok _, s') => (None, s') | (Throw e, s') => (Some e, s') end) ->
  (forall st, projection_run m st = drop (update st)) -> reader guard ->
  (forall ss', exec (op_of m) (statusSnapshotStore a) = (None, ss') -> guard a = (Ok tt, a)) ->
  let r := (_ ← guard; _ ← on_status run;
            try_catch (_ ← on_projection (publish env update); mret tt) handler) a in
  match exec (op_of m) (statusSnapshotStore a) with
  | (Some _, _) => exists e, r = (Throw e, a)
  | (None, ss') => exists svc', r = (Ok tt, {| statusSnapshotStore := ss'; sourceControlProjection := svc';
            watcherOverflowDiagnostics := watcherOverflowDiagnostics a |})
  end.
Proof.
  intros Hq Hin Hm Hrun Hproj Hguard Hpass r. pose proof (status_run m run a Hrun) as Hst.
  destruct (exec (op_of m) (statusSnapshotStore a)) as [[e|] ss'] eqn:Hex.
  - specialize (Hguard a). destruct (guard a) as [[[]|e'] a'] eqn:Hg; cbn in Hguard; subst a' r.
    + rewrite (method_bind_ok _ _ _ _ _ Hg). exists e. by apply method_bind_throw.
    + exists e'. by apply method_bind_throw.
  - subst r. rewrite (method_bind_ok _ _ _ _ _ (Hpass ss' eq_refl)). destruct Hst as [x Hx].
    destruct (publish_outcome m update a ss' Hq Hin Hm Hproj Hex) as (p & svc' & Hp). exists svc'.
    rewrite (method_bind_ok _ _ _ _ _ Hx). unfold try_catch. by rewrite (method_bind_ok _ _ _ _ _ Hp).
Qed.

Lemma stale_outcome mark a :
  quiet -> in_step a ->
  let r := (_ ← requireInitializedStaleState localeCompareEn localeCompare mark;
            _ ← on_status (StatusSnapshotStore.markStale mark);
            publishProjectionStale localeCompareEn localeCompare env mark) a in
  match exec (OpStale mark) (statusSnapshotStore a) with
  | (Some _, _) => exists e, r = (Throw e, a)
  | (None, ss') => exists svc', r = (Ok tt, {| statusSnapshotStore := ss'; sourceControlProjection := svc';
            watcherOverflowDiagnostics := watcherOverflowDiagnostics a |})
  end.
Proof.
  intros Hq Hin. apply (message_outcome (MStale mark)); try done.
  - apply stale_guard_reads.
  - intros ss'. by apply stale_guard_passes.
Qed.

Lemma delta_outcome delta a :
  quiet -> in_step a ->
  let r := (_ ← requireInitializedDeltaState localeCompareEn localeCompare delta;
            _ ← on_status (StatusSnapshotStore.applyDelta delta);
            publishProjectionDelta localeCompareEn localeCompare env delta) a in
  match exec (OpDelta delta) (statusSnapshotStore a) with
  | (Some _, _) => exists e, r = (Throw e, a)
  | (None, ss') => exists svc', r = (Ok tt, {| statusSnapshotStore := ss'; sourceControlProjection := svc';
            watcherOverflowDiagnostics := watcherOverflowDiagnostics a |})
  end.
Proof.
  intros Hq Hin. apply (message_outcome (MDelta delta)); try done.
  - apply delta_guard_reads.
  - intros ss'. by apply delta_guard_passes.
Qed.

Lemma bind_assoc_run {A B C} (m1 : method (app E) A) (m2 : method (app E) B) (m3 : method (app E) C)
    (f : method (app E) unit) a :
  (_ ← m1; _ ← m2; _ ← m3; f) a = (_ ← (_ ← m1; _ ← m2; m3); f) a.
Proof. unfold mbind, method_bind. destruct (m1 a) as [[?|?] a1]; [|done]. by destruct (m2 a1) as [[?|?] a2]. Qed.

(** A notification that does not parse, or whose message the canonical store
    refuses, is thrown back and changes nothing; any other is applied. *)
Lemma handle_outcome notification params a :
  quiet -> in_step a ->
  match carried notification params with
  | Throw e => handleNotification notification params a = (Throw e, a)
  | Ok (m, overflows) =>
      match exec (op_of m) (statusSnapshotStore a) with
      | (Some _, _) => exists e, handleNotification notification params a = (Throw e, a)
      | (None, ss') => exists a', handleNotification notification params a = (Ok tt, a') /\
          statusSnapshotStore a' = ss' /\
          WatcherOverflowDiagnostics.overflowCount (watcherOverflowDiagnostics a') =
            (WatcherOverflowDiagnostics.overflowCount (watcherOverflowDiagnostics a) + overflows)%Z
      end
  end.
Proof.
  intros Hq Hin. unfold carried, Notifications.handleNotification.
  case_bool_decide as H1; [|case_bool_decide as H2; [|case_bool_decide as H3; [|done]]].
  - destruct (parseStatusStaleMark params) as [mark|e]; [|done]. cbn [mbind result_bind].
    pose proof (stale_outcome mark a Hq Hin) as H. cbn zeta in H.
    rewrite (method_bind_ok (lift_result (Ok mark)) _ a mark a eq_refl). cbn [op_of].
    destruct (exec _ _) as [[e|] ss']; [done|]. destruct H as [svc' H]. eexists. split; [exact H|]. cbn. split; [done|lia].
  - destruct (RefreshClient.parseStatusDelta win32 params) as [delta|e]; [|done]. cbn [mbind result_bind].
    pose proof (delta_outcome delta a Hq Hin) as H. cbn zeta in H.
    rewrite (method_bind_ok (lift_result (Ok delta)) _ a delta a eq_refl). cbn [op_of].
    destruct (exec _ _) as [[e|] ss']; [done|]. destruct H as [svc' H]. eexists. split; [exact H|]. cbn. split; [done|lia].
  - destruct (parseWatcherOverflowNotification dateParses params) as [mark|e] eqn:Hp; [|done]. cbn [mbind result_bind].
    pose proof (stale_outcome mark a Hq Hin) as H. cbn zeta in H.
    rewrite (method_bind_ok (lift_result (Ok mark)) _ a mark a eq_refl), bind_assoc_run. cbn [op_of].
    destruct (exec _ _) as [[e|] ss'].
    + destruct H as [e' H]. exists e'. by apply method_bind_throw.
    + destruct H as [svc' H]. rewrite (method_bind_ok _ _ _ _ _ H).
      destruct (overflow_recorded params mark {| statusSnapshotStore := ss'; sourceControlProjection := svc';
            watcherOverflowDiagnostics := watcherOverflowDiagnostics a |} Hp) as (w & -> & Hw). eauto.
Qed.
End Handler.

(** ** The claims *)

(** C35: The canonical store and the projection store, once in step, are in step
    after every notification of the backend, whatever it is called, whatever its
    parameters are, whether the handler returns or throws, and whatever the
    presenter and the listeners of the projection do; the canonical store keeps
    its invariant.  Texts have the characters U+0000 to U+00FF; so no changelist is
    named by a lone surrogate, on which [encodeURIComponent] throws in the
    projection when the canonical store has already changed. *)
Theorem notification_keeps_step localeCompareEn localeCompare win32 dateParses repositoryHash {E}
    (env : Environment E) notification params a :
  in_step localeCompareEn a ->
  in_step localeCompareEn
    (snd (handleNotification localeCompareEn localeCompare win32 dateParses repositoryHash env notification params a)).
Proof.
  intros Ha. pose proof (handle_in_step localeCompareEn localeCompare win32 dateParses repositoryHash env notification params a Ha).
  by destruct (handleNotification _ _ _ _ _ _ _ _ a) as [[?|?] a'].
Qed.

(** what a notification does when the presenter and the listeners return.
    One that does not parse throws the parser's error; one whose message the
    canonical store refuses throws; both change nothing.  Every other one is
    applied: the handler returns, the canonical store is the one its operation
    gives, and a watcher overflow is counted once.  The checks on the projection
    never refuse what the canonical store accepts. *)
Theorem notification_outcome localeCompareEn localeCompare win32 dateParses repositoryHash {E}
    (env : Environment E) notification params a :
  quiet env -> in_step localeCompareEn a ->
  let handle := handleNotification localeCompareEn localeCompare win32 dateParses repositoryHash env notification params in
  match carried win32 dateParses notification params with
  | Throw e => handle a = (Throw e, a)
  | Ok (m, overflows) =>
      match exec (op_of m) (statusSnapshotStore a) with
      | (Some _, _) => exists e, handle a = (Throw e, a)
      | (None, ss') => exists a', handle a = (Ok tt, a') /\ statusSnapshotStore a' = ss' /\
          WatcherOverflowDiagnostics.overflowCount (watcherOverflowDiagnostics a') =
            (WatcherOverflowDiagnostics.overflowCount (watcherOverflowDiagnostics a) + overflows)%Z
      end
  end.
Proof. intros Hq Hin. by apply handle_outcome. Qed.
