(* ===== verification/Witnesses.v ===== *)
(** Concrete inputs on which the hypotheses of the theorems hold. *)

From Stdlib Require Import ZArith Lia Ascii String List Sorted.
From stdpp Require Import base option list strings sets relations.
From S2P Require Import Prelude JsString JsMap JsValue JsUri StatusTypes StatusWire StatusWireFacts.
From S2P Require Import StatusStore StatusStoreFacts Paths DirtyPaths DirtyPathsFacts RefreshRequests.
From S2P Require Import ScmResources ScmFacts StoresAgree ScmTheorems.
From S2P Require Import ProjectionService Notifications NotificationsFacts.

Local Open Scope string_scope.

(** ** Sample data *)

Definition sample_entry (path localStatus : string) (generation : Z) (artifacts : list string) : StatusEntry :=
  {| entry_path := path; entry_kind := "file"; entry_nodeStatus := localStatus; entry_textStatus := localStatus;
     entry_propertyStatus := "none"; entry_localStatus := localStatus; entry_remoteStatus := "notChecked";
     entry_revision := 3; entry_changedRevision := 2; entry_changedAuthor := Some "ann"; entry_changedDate := None;
     entry_changelist := None; entry_lock := None; entry_needsLock := false; entry_copy := None; entry_move := None;
     entry_switched := false; entry_depth := "infinity"; entry_conflict := None;
     entry_conflictArtifacts := artifacts; entry_external := false; entry_generation := generation |}.

Definition sample_identity : RepositoryIdentity :=
  {| identity_repositoryUuid := "uuid"; identity_repositoryRootUrl := "file:///r"; identity_workingCopyRoot := "/wc";
     identity_workspaceScopeRoot := "/wc"; identity_format := 31 |}.

Definition sample_snapshot : StatusSnapshot :=
  {| snapshot_repositoryId := "r1"; snapshot_epoch := 1; snapshot_generation := 5; snapshot_completeness := Complete;
     snapshot_identity := sample_identity;
     snapshot_localEntries := [sample_entry "a.txt" "modified" 5 []; sample_entry "b.txt" "conflicted" 5 ["b.txt.mine"]];
     snapshot_remoteEntries := [];
     snapshot_summary := {| summary_localChanges := 2; summary_remoteChanges := 0; summary_conflicts := 1; summary_unversioned := 0 |};
     snapshot_timestamp := "t5"; snapshot_source := "libsvn" |}.

Definition sample_delta : StatusDelta :=
  {| delta_repositoryId := "r1"; delta_epoch := 1; delta_generation := 6;
     delta_coverage := [{| coverage_path := "."; coverage_depth := "infinity"; coverage_generation := 6; coverage_reason := "manual" |}];
     delta_upsert := [sample_entry "c.txt" "added" 6 []]; delta_remove := ["a.txt"];
     delta_remoteUpsert := []; delta_remoteRemove := [];
     delta_summaryDelta := {| sdelta_localChanges := 0; sdelta_remoteChanges := 0; sdelta_conflicts := 0; sdelta_unversioned := 0 |};
     delta_completeness := Complete; delta_timestamp := "t6"; delta_source := "libsvn" |}.

Lemma sample_snapshot_ok : snapshot_ok false sample_snapshot.
Proof. apply (parseStatusSnapshot_ok false (Some (encode_snapshot sample_snapshot))). by vm_compute. Qed.

Lemma sample_delta_ok : delta_ok false sample_delta.
Proof. apply (parseStatusDelta_ok false (Some (encode_delta sample_delta))). by vm_compute. Qed.

(** ** The status store *)
Definition sample_ops : list StatusStoreFacts.op := [OpRegister "r1" 1; OpSnapshot sample_snapshot].
Definition sample_store : StatusSnapshotStore.store := fold_left (fun s o => snd (exec o s)) sample_ops [].

Lemma exec_throw_keeps_store_witness :
  exists e, exec (OpRegister "r1" 1) sample_store = (Some e, sample_store) /\ sample_store = sample_store.
Proof.
  eexists. split; [vm_compute; reflexivity|].
  apply (exec_throw_keeps_store (OpRegister "r1" 1) sample_store
    (StatusSnapshotStore.alreadyRegistered "r1") sample_store). vm_compute. reflexivity.
Defined.

Lemma reachable_store_ok_witness : store_ok sample_store.
Proof.
  apply (reachable_store_ok false). apply rtc_l with (snd (exec (OpRegister "r1" 1) [])).
  { exists (OpRegister "r1" 1). split; [exact I|reflexivity]. }
  apply rtc_l with sample_store; [|apply rtc_refl].
  exists (OpSnapshot sample_snapshot). split; [exact sample_snapshot_ok|reflexivity].
Defined.

Definition state_at (s : StatusSnapshotStore.store) : StatusSnapshotStore.RepositoryState :=
  default {| StatusSnapshotStore.st_repositoryId := ""; StatusSnapshotStore.st_epoch := 0;
             StatusSnapshotStore.st_generation := None; StatusSnapshotStore.st_completeness := None;
             StatusSnapshotStore.st_identity := None; StatusSnapshotStore.st_localEntries := [];
             StatusSnapshotStore.st_remoteEntries := []; StatusSnapshotStore.st_summary := None;
             StatusSnapshotStore.st_timestamp := None; StatusSnapshotStore.st_source := None |} (map_get s "r1").

Lemma generation_monotone_witness :
  generation_le (StatusSnapshotStore.st_generation (state_at sample_store))
    (StatusSnapshotStore.st_generation (state_at (snd (exec (OpDelta sample_delta) sample_store)))).
Proof.
  apply (generation_monotone false sample_store (snd (exec (OpDelta sample_delta) sample_store)) "r1").
  - exists (OpDelta sample_delta). split; [exact sample_delta_ok|reflexivity].
  - reflexivity.
  - reflexivity.
  - reflexivity.
Defined.

Lemma applyDelta_spec_witness :
  exists snap s', StatusSnapshotStore.applyDelta sample_delta sample_store = (Ok snap, s') /\
    StatusSnapshotStore.getSnapshot s' "r1" = Some snap.
Proof.
  eexists _, _. split; [vm_compute; reflexivity|].
  eapply (applyDelta_spec false sample_delta sample_store); [exact sample_delta_ok|vm_compute; reflexivity].
Defined.

(** ** The wire *)
Definition sample_request : StatusRefreshRequest :=
  {| request_repositoryId := "r1"; request_epoch := 1;
     request_targets := [{| target_path := "."; target_depth := DInfinity; target_reason := "manual" |}] |}.

Lemma refreshStatus_sound_witness :
  exists r, RefreshClient.validateRefreshRequest (Some (encode_request sample_request)) = Ok r /\ request_ok r /\
    delta_repositoryId sample_delta = request_repositoryId r /\ delta_epoch sample_delta = request_epoch r /\
    delta_ok false sample_delta.
Proof.
  apply (refreshStatus_sound false (fun _ => Ok (Some (encode_delta sample_delta)))).
  vm_compute. reflexivity.
Defined.

(** ** Dirty paths *)
Definition sample_file_event (path : string) (kind : FileEventKind) : DirtyFileEvent :=
  {| event_path := path; event_kind := kind; event_timestamp := 7 |}.
Definition sample_dirty_ops : list DirtyPathsFacts.op :=
  [sample_event "/wc/a/1" KCreate; sample_event "/wc/a/2" KChange;
   Merge [{| target_path := "z"; target_depth := DFiles; target_reason := "retry" |}];
   sample_event "/wc/b/c/3" KDelete; sample_event "/wc/b/d/4" KChange].

Lemma sample_dirty_ops_ok : Forall op_ok sample_dirty_ops.
Proof. repeat constructor. Qed.

Lemma no_event_lost_witness :
  exists t, t ∈ DirtyPathSet.toRefreshTargets
      (run sample_config (snd (DirtyPathSet.record sample_config DirtyPathSet.new_state (sample_file_event "/wc/b/x" KCreate))) sample_dirty_ops) /\
    covers (comparisonKey sample_scope (target_path t)) (target_depth t) (comparisonKey sample_scope "b/x") KCreate.
Proof.
  apply (no_event_lost sample_config DirtyPathSet.new_state _ (sample_file_event "/wc/b/x" KCreate) "b/x" sample_dirty_ops);
    [apply inv_new|exact sample_dirty_ops_ok|reflexivity|reflexivity].
Defined.

Definition sample_dirty_state := run sample_config DirtyPathSet.new_state sample_dirty_ops.

Lemma queue_bounded_witness :
  (DirtyPathSet.overflowed sample_dirty_state = true /\ DirtyPathSet.watcherQueueSize sample_dirty_state = 0 /\
   DirtyPathSet.size sample_dirty_state = 1)
  \/ (DirtyPathSet.overflowed sample_dirty_state = false /\ (Z.of_nat (DirtyPathSet.watcherQueueSize sample_dirty_state) <= 2)%Z).
Proof. apply (queue_bounded sample_config sample_dirty_ops); [vm_compute; discriminate|exact sample_dirty_ops_ok]. Defined.

Lemma drain_exact_witness :
  NoDup (fst (DirtyPathSet.drainToRefreshTargets sample_dirty_state)) /\
  map target_path (fst (DirtyPathSet.drainToRefreshTargets sample_dirty_state)) = ["a"; "b"; "z"].
Proof.
  destruct (drain_exact sample_config sample_dirty_ops sample_dirty_ops_ok) as (_ & H & _).
  split; [exact H|vm_compute; reflexivity].
Defined.

Definition drained_request : StatusRefreshRequest :=
  {| request_repositoryId := "r1"; request_epoch := 1;
     request_targets := fst (DirtyPathSet.drainToRefreshTargets
       (run sample_config DirtyPathSet.new_state [sample_event "/wc/a/1" KCreate])) |}.

Lemma drained_request_valid_witness :
  RefreshClient.validateRefreshRequest (Some (encode_request drained_request)) = Ok drained_request.
Proof.
  apply (drained_request_valid sample_config [sample_event "/wc/a/1" KCreate] "r1" 1).
  - repeat constructor.
  - constructor; [|constructor]. intros p Hp. injection Hp as <-. right. repeat constructor.
  - reflexivity.
  - split; vm_compute; discriminate.
  - vm_compute. discriminate.
Defined.

Lemma accepted_event_inside_witness :
  safe_path "a/1" /\ isSvnInternal sample_scope "a/1" = false.
Proof.
  destruct (accepted_event_inside sample_scope "\wc\a\1" "a/1" ltac:(reflexivity)) as (H1 & H2 & _). exact (conj H1 H2).
Defined.

(** ** The two stores *)
Definition sample_messages : list message :=
  [MRegister "r1" 1 "/wc"; MSnapshot sample_snapshot; MDelta sample_delta].
Definition sample_policy : SourceControlResourceStore.SourceControlCountPolicy :=
  {| SourceControlResourceStore.countUnversioned := true; SourceControlResourceStore.ignoreChangelistsInCount := [] |}.

Lemma sample_messages_ok : Forall message_ok sample_messages.
Proof.
  repeat constructor; vm_compute; try discriminate; try reflexivity.
Qed.

Lemma stores_in_step_witness :
  fst (send compareText compareText (MUnregister "r1") (both compareText compareText sample_policy sample_messages)) = None.
Proof.
  eapply (stores_in_step compareText compareText sample_policy sample_messages (MUnregister "r1"));
    [exact sample_messages_ok|exact I|reflexivity].
Defined.

Definition sample_both := both compareText compareText sample_policy sample_messages.

#[export] Instance compareText_comparator : Comparator compareText := string_comparator.

Lemma sample_snapshot_stored : exists snap, StatusSnapshotStore.getSnapshot (fst sample_both) "r1" = Some snap.
Proof. eexists. vm_compute. reflexivity. Qed.

Lemma sample_entries_named o e : StatusSnapshotStore.getLocalEntry (fst sample_both) "r1" o = Some e -> o <> "".
Proof. intros H ->. vm_compute in H. discriminate. Qed.

(** The artifact of the conflicted entry is shown for its owner. *)
Lemma shown_resource_witness :
  exists o owner, StatusSnapshotStore.getLocalEntry (fst sample_both) "r1" o = Some owner /\
    "b.txt.mine" ∈ entry_conflictArtifacts owner.
Proof.
  destruct sample_snapshot_stored as [snap Hsnap].
  destruct (shown_resource compareText compareText sample_policy sample_messages "r1" snap "b.txt.mine"
    compareText_comparator sample_messages_ok Hsnap ltac:(reflexivity) sample_entries_named)
    as [[Hno _]|(o & owner & Ho & Hin & _)].
  - exfalso. apply (Hno "b.txt" (sample_entry "b.txt" "conflicted" 5 ["b.txt.mine"]));
      [vm_compute; reflexivity|apply list_elem_of_here].
  - exists o, owner. exact (conj Ho Hin).
Defined.

Lemma groups_partition_witness :
  exists state proj, map_get (SourceControlResourceStore.repositories (snd sample_both)) "r1" = Some state /\
    SourceControlResourceStore.getProjection compareText compareText (snd sample_both) "r1" = Some (Ok proj) /\
    partitions (SourceControlResourceStore.ps_projected state) (SourceControlResourceStore.proj_groups proj).
Proof.
  destruct sample_snapshot_stored as [snap Hsnap].
  exact (groups_partition compareText compareText sample_policy sample_messages "r1" snap sample_messages_ok Hsnap).
Defined.

Lemma sample_commit_paths p e :
  StatusSnapshotStore.getLocalEntry (fst sample_both) "r1" p = Some e -> p = "b.txt" \/ p = "c.txt".
Proof.
  intros H. change (map_get (StatusSnapshotStore.st_localEntries (state_at (fst sample_both))) p = Some e) in H.
  apply map_get_Some_key in H.
  assert (map_keys (StatusSnapshotStore.st_localEntries (state_at (fst sample_both))) = ["b.txt"; "c.txt"]) as Hk
    by (vm_compute; reflexivity).
  rewrite Hk, !elem_of_cons, elem_of_nil in H. naive_solver.
Qed.

Lemma commit_all_exact_witness :
  exists all, SourceControlResourceStore.getCommitAllTargets compareText (snd sample_both) "r1" = Some (Ok all) /\
    ("c.txt" ∈ map SourceControlResourceStore.commit_path (SourceControlResourceStore.all_targets all) <->
     (exists e, StatusSnapshotStore.getLocalEntry (fst sample_both) "r1" "c.txt" = Some e /\ committable [] e) /\
     (forall o e, StatusSnapshotStore.getLocalEntry (fst sample_both) "r1" o = Some e -> "c.txt" ∉ entry_conflictArtifacts e)).
Proof.
  destruct sample_snapshot_stored as [snap Hsnap].
  destruct (commit_all_exact compareText compareText sample_policy sample_messages "r1" snap
    compareText_comparator sample_messages_ok Hsnap sample_entries_named) as (all & Hall & Hiff).
  - intros p e [->| ->]%sample_commit_paths _; reflexivity.
  - exists all. exact (conj Hall (Hiff "c.txt")).
Defined.

(** ** Notifications *)

(** A presenter that counts its updates, and one that throws after counting. *)
Definition counting_presenter (fails : bool) : SourceControlProjectionService.Environment Z :=
  let count := fun n : Z => (if fails then Throw (ForeignError "presenter") else Ok tt, (n + 1)%Z) in
  {| SourceControlProjectionService.presenter_register := fun _ => count;
     SourceControlProjectionService.presenter_update := fun _ => count;
     SourceControlProjectionService.presenter_updateRemote := fun _ => count;
     SourceControlProjectionService.presenter_unregister := fun _ => count;
     SourceControlProjectionService.listeners := [fun _ => count] |}.

Definition sample_stores :=
  send_all compareText compareText [MRegister "r1" 1 "/wc"; MSnapshot sample_snapshot]
    ([], {| SourceControlResourceStore.repositories := []; SourceControlResourceStore.countPolicy := sample_policy |}).
Definition sample_app : app Z :=
  {| statusSnapshotStore := sample_store;
     sourceControlProjection := {| SourceControlProjectionService.svc_store := snd sample_stores;
                                   SourceControlProjectionService.svc_env := 0%Z |};
     watcherOverflowDiagnostics := {| WatcherOverflowDiagnostics.overflowCount := 0;
                                      WatcherOverflowDiagnostics.lastOverflow := None |} |}.

Lemma sample_store_ok : store_ok sample_store.
Proof.
  change sample_store with (exec (OpSnapshot sample_snapshot) (exec (OpRegister "r1" 1) []).2).2.
  apply (exec_preserves false); [exact sample_snapshot_ok|]. apply (exec_preserves false); [exact I|].
  split; [apply map_wf_nil|done].
Qed.

Lemma sample_app_in_step : in_step compareText sample_app.
Proof.
  split; [exact sample_store_ok|]. cbn [statusSnapshotStore sourceControlProjection sample_app SourceControlProjectionService.svc_store].
  assert (sample_store = fst sample_stores) as -> by (vm_compute; reflexivity).
  unfold sample_stores. apply send_all_agree; [|apply agree_empty].
  repeat constructor; vm_compute; try discriminate; try reflexivity.
Qed.

(** The presenter throws twice, on the delta and on the canonical snapshot. *)
Lemma notification_keeps_step_witness :
  exists e a', handleNotification compareText compareText false (fun _ => true) (fun s => s) (counting_presenter true)
      "status/delta" (Some (encode_delta sample_delta)) sample_app = (Throw e, a') /\
    SourceControlProjectionService.svc_env (sourceControlProjection a') = 2%Z /\ in_step compareText a'.
Proof.
  eexists _, _. split; [vm_compute; reflexivity|]. split; [vm_compute; reflexivity|].
  exact (notification_keeps_step compareText compareText false (fun _ => true) (fun s => s) (counting_presenter true)
    "status/delta" (Some (encode_delta sample_delta)) sample_app sample_app_in_step).
Defined.

Lemma counting_presenter_quiet : quiet (counting_presenter false).
Proof. split; [intros; by eexists|]. repeat constructor. intros; by eexists. Qed.

Lemma notification_outcome_witness :
  exists a', handleNotification compareText compareText false (fun _ => true) (fun s => s) (counting_presenter false)
      "status/delta" (Some (encode_delta sample_delta)) sample_app = (Ok tt, a') /\
    statusSnapshotStore a' = snd (exec (OpDelta sample_delta) sample_store).
Proof.
  destruct (notification_outcome compareText compareText false (fun _ => true) (fun s => s) (counting_presenter false)
    "status/delta" (Some (encode_delta sample_delta)) sample_app counting_presenter_quiet sample_app_in_step)
    as (a' & H1 & H2 & _).
  exists a'. split; [exact H1|exact H2].
Defined.

(** ** Paths that differ only in case

    After [A.txt] is added beside [a.txt] and [a.txt] goes away, [A.txt] is still
    projected, but a case-insensitive lookup does not find it: removing [a.txt]
    deletes the index slot that [A.txt] has taken over. *)
Definition case_delta (generation : Z) (upsert : list StatusEntry) (remove : list string) : StatusDelta :=
  {| delta_repositoryId := "r1"; delta_epoch := 1; delta_generation := generation; delta_coverage := delta_coverage sample_delta;
     delta_upsert := upsert; delta_remove := remove; delta_remoteUpsert := []; delta_remoteRemove := [];
     delta_summaryDelta := delta_summaryDelta sample_delta; delta_completeness := Complete;
     delta_timestamp := "t7"; delta_source := "libsvn" |}.

Example case_index_lost :
  let stores := send_all compareText compareText
    [MRegister "r1" 1 "/wc"; MSnapshot sample_snapshot;
     MDelta (case_delta 6 [sample_entry "A.txt" "added" 6 []] []); MDelta (case_delta 7 [] ["a.txt"])]
    ([], {| SourceControlResourceStore.repositories := []; SourceControlResourceStore.countPolicy := sample_policy |}) in
  is_Some (SourceControlResourceStore.getProjectedResource (snd stores) "r1" "A.txt" CaseSensitive) /\
  SourceControlResourceStore.getProjectedResource (snd stores) "r1" "A.txt" CaseInsensitive = None.
Proof. split; [eexists|]; vm_compute; reflexivity. Qed.

(** ** A remote path listed twice *)

(** A remote path listed twice, changed and then unchanged: the snapshot passes the
    parser, the canonical store keeps the last entry, and the projection shows an
    incoming change that the canonical store does not have. *)
Definition remote_entry (path status : string) : StatusEntry :=
  {| entry_path := path; entry_kind := "file"; entry_nodeStatus := "normal"; entry_textStatus := "normal";
     entry_propertyStatus := "none"; entry_localStatus := "normal"; entry_remoteStatus := status;
     entry_revision := 3; entry_changedRevision := 2; entry_changedAuthor := Some "ann"; entry_changedDate := None;
     entry_changelist := None; entry_lock := None; entry_needsLock := false; entry_copy := None; entry_move := None;
     entry_switched := false; entry_depth := "infinity"; entry_conflict := None;
     entry_conflictArtifacts := []; entry_external := false; entry_generation := 5 |}.
Definition duplicate_snapshot : StatusSnapshot :=
  {| snapshot_repositoryId := "r1"; snapshot_epoch := 1; snapshot_generation := 5; snapshot_completeness := Complete;
     snapshot_identity := sample_identity; snapshot_localEntries := [];
     snapshot_remoteEntries := [remote_entry "x" "modified"; remote_entry "x" "none"];
     snapshot_summary := {| summary_localChanges := 0; summary_remoteChanges := 1; summary_conflicts := 0; summary_unversioned := 0 |};
     snapshot_timestamp := "t5"; snapshot_source := "libsvn" |}.
Example duplicate_remote_shown :
  let stores := both compareText compareText sample_policy [MRegister "r1" 1 "/wc"; MSnapshot duplicate_snapshot] in
  SnapshotClient.parseStatusSnapshot false (Some (encode_snapshot duplicate_snapshot)) = Ok duplicate_snapshot /\
  entry_remoteStatus <$> StatusSnapshotStore.getRemoteEntry (fst stores) "r1" "x" = Some "none" /\
  exists state resource, map_get (SourceControlResourceStore.repositories (snd stores)) "r1" = Some state
    /\ map_get (SourceControlResourceStore.remoteResourcesByPath (SourceControlResourceStore.ps_projected state)) "x" = Some resource.
Proof. split; [by vm_compute|]. split; [by vm_compute|]. eexists _, _. split; vm_compute; reflexivity. Qed.
