(* ===== verification/RemoteState.v ===== *)
(** status/remoteConnectionStateStore.ts: what is known of the connection to
    each repository's server, as checks, recoveries and daemon reports change
    it.

    The listeners are callbacks on a state [E] of their own, and may throw; an
    update is stored before they run.  The clones the source makes are the same
    values here: no caller holds a stored object. *)

From Stdlib Require Import ZArith String List.
From stdpp Require Import base option list strings.
From S2P Require Import Prelude JsString JsMap JsValue RemoteTypes.

Local Open Scope string_scope.

Module RemoteConnectionStateStore.

Definition storeError (code category messageKey : string) (args : list (string * safe_arg)) : js_error :=
  StructuredError "RemoteConnectionStateStoreError" code category messageKey args.
Definition inputError (f : string) : js_error :=
  storeError "SUBVERSIONR_REMOTE_STATE_INPUT_INVALID" "input" "error.remote.stateInputInvalid" [("field", ArgString f)].
Definition lifecycleError (code repositoryId : string) : js_error :=
  storeError code "lifecycle" "error.remote.stateLifecycleInvalid" [("repositoryId", ArgString repositoryId)].
Definition protocolError (f : string) : js_error :=
  storeError "SUBVERSIONR_REMOTE_FAILURE_INVALID" "protocol" "error.remote.failureInvalid" [("field", ArgString f)].
Definition checkInProgress (repositoryId : string) : js_error :=
  storeError "SUBVERSIONR_REMOTE_STATE_CHECK_IN_PROGRESS" "lifecycle" "error.remote.checkInProgress"
    [("repositoryId", ArgString repositoryId)].
Definition recoveryKind (r : RemoteRecoveryState) : string :=
  match r with
  | NotRequired => "notRequired" | Required _ _ => "required" | RecoveryChecking _ _ _ _ => "checking"
  | Safe _ _ => "safe" | Blocked _ _ => "blocked"
  end.
Definition recoveryRequired (repositoryId : string) (r : RemoteRecoveryState) : js_error :=
  storeError "SUBVERSIONR_REMOTE_STATE_RECOVERY_REQUIRED" "lifecycle" "error.remote.recoveryRequired"
    [("repositoryId", ArgString repositoryId); ("recovery", ArgString (recoveryKind r))].
Definition recoveryOperationReused (repositoryId : string) : js_error :=
  storeError "SUBVERSIONR_REMOTE_STATE_RECOVERY_OPERATION_REUSED" "input" "error.remote.recoveryOperationReused"
    [("repositoryId", ArgString repositoryId)].

(** ** Failures *)
Definition requireFailureFields (v : option js_value) : result js_value :=
  match v with
  | Some (VObj fields) =>
      if bool_decide (sorted_keys (VObj fields) = "category,cleanupAppropriate,reason")
      then Ok (VObj fields) else Throw (protocolError "remoteFailure")
  | _ => Throw (protocolError "remoteFailure")
  end.

(** [REMOTE_FAILURE_REASONS.has(value.reason)] *)
Definition failureReason (v : js_value) : option NativeRemoteFailureReason :=
  match field v "reason" with Some (VStr s) => of_name s | _ => None end.
Definition booleanField (v : js_value) (f : string) : option bool :=
  match field v f with Some (VBool b) => Some b | _ => None end.

Definition parseWireRemoteFailure (value : option js_value) : result NativeRemoteFailure :=
  v ← requireFailureFields value;
  match booleanField v "cleanupAppropriate", field v "category", failureReason v with
  | Some cleanup, Some (VStr category), Some reason =>
      if bool_decide (WIRE_CATEGORY_BY_REASON reason = category)
      then Ok {| failure_category := categoryForReason reason; failure_reason := reason;
                 failure_cleanupAppropriate := cleanup |}
      else Throw (protocolError "remoteFailure.category")
  | _, _, _ => Throw (protocolError "remoteFailure")
  end.

Definition validateNativeRemoteFailure (value : option js_value) : result NativeRemoteFailure :=
  v ← requireFailureFields value;
  match booleanField v "cleanupAppropriate", failureReason v with
  | Some cleanup, Some reason =>
      match field v "category" with
      | Some (VStr category) =>
          if bool_decide (category = name_of (categoryForReason reason))
          then Ok {| failure_category := categoryForReason reason; failure_reason := reason;
                     failure_cleanupAppropriate := cleanup |}
          else Throw (protocolError "remoteFailure.category")
      | _ => Throw (protocolError "remoteFailure.category")
      end
  | _, _ => Throw (protocolError "remoteFailure")
  end.

(** [Boolean(value)] *)
Definition truthy (v : option js_value) : bool :=
  match v with
  | None | Some VNull => false
  | Some (VBool b) => b
  | Some (VNum (NumInt z)) => negb (z =? 0)%Z
  | Some (VStr s) => negb (bool_decide (s = ""))
  | _ => true
  end.

(** [incoming.lastSuccessfulCheckAt ? ... : {}]: an empty string is dropped. *)
Definition staleIncoming (incoming : IncomingRemoteFreshness) : IncomingRemoteFreshness :=
  {| incoming_kind := IncomingStale;
     incoming_lastSuccessfulCheckAt :=
       match incoming_lastSuccessfulCheckAt incoming with
       | Some at_ => if bool_decide (at_ = "") then None else Some at_
       | None => None
       end |}.

Definition validateRepository (repositoryId : string) (epoch : Z) : result unit :=
  _ ← require (isNonEmptyString repositoryId) (inputError "repositoryId");
  require (isNonNegativeSafeInteger epoch) (inputError "epoch").

Definition isCurrentCheck (state : RemoteConnectionState) (operationId : string) : bool :=
  match rc_kind state with Checking op _ => bool_decide (op = operationId) | _ => false end.

Record ApplyResult := {
  applied : bool;
  applied_state : option RemoteConnectionState;
}.
Definition refused (state : option RemoteConnectionState) : ApplyResult := {| applied := false; applied_state := state |}.

Section Store.
Variable dateParse : string -> option Z.
Context {E : Type} (listeners : list (RemoteConnectionState -> method E unit)).

Record store := {
  repositories : list (string * RemoteConnectionState);
  store_env : E;
}.

Definition on_listeners {A} (m : method E A) : method store A :=
  on_part store_env (fun s e => {| repositories := repositories s; store_env := e |}) m.

Definition validateTimestamp (value f : string) : result unit :=
  require (isTimestamp dateParse value) (inputError f).

Definition validateOperation (repositoryId : string) (epoch : Z) (operationId startedAt : string) : result unit :=
  _ ← validateRepository repositoryId epoch;
  _ ← require (isCanonicalUuid operationId) (inputError "operationId");
  validateTimestamp startedAt "timestamp".

Definition validateTransport (value : string) : result RemoteScheme :=
  match of_name value with Some t => Ok t | None => Throw (inputError "transport") end.

Definition fire (state : RemoteConnectionState) : method store unit :=
  for_each (fun listener => on_listeners (listener state)) listeners.

Definition set_repository (state : RemoteConnectionState) (s : store) : store :=
  {| repositories := map_set (repositories s) (rc_repositoryId state) state; store_env := store_env s |}.

Definition update (state : RemoteConnectionState) : method store RemoteConnectionState :=
  _ ← modify_state (set_repository state);
  _ ← fire state;
  mret state.

Definition currentRepository (repositoryId : string) (epoch : Z) : method store (option RemoteConnectionState) :=
  s ← get_state;
  mret (match map_get (repositories s) repositoryId with
        | Some state => if (rc_epoch state =? epoch)%Z then Some state else None
        | None => None
        end).

Definition requireRepository (repositoryId : string) (epoch : Z) : method store RemoteConnectionState :=
  state ← currentRepository repositoryId epoch;
  match state with
  | Some state => mret state
  | None => throw_error (lifecycleError "SUBVERSIONR_REMOTE_STATE_REPOSITORY_NOT_REGISTERED" repositoryId)
  end.

Definition getState (repositoryId : string) : method store (option RemoteConnectionState) :=
  s ← get_state;
  mret (map_get (repositories s) repositoryId).

Definition registerRepository (repositoryId : string) (epoch : Z) : method store RemoteConnectionState :=
  _ ← lift_result (validateRepository repositoryId epoch);
  s ← get_state;
  if map_has (repositories s) repositoryId
  then throw_error (lifecycleError "SUBVERSIONR_REMOTE_STATE_REPOSITORY_ALREADY_REGISTERED" repositoryId)
  else
    update {| rc_kind := Unchecked; rc_repositoryId := repositoryId; rc_epoch := epoch;
              rc_incoming := {| incoming_kind := IncomingUnchecked; incoming_lastSuccessfulCheckAt := None |};
              rc_recovery := NotRequired; rc_lastFailure := None |}.

Definition unregisterRepository (repositoryId : string) : method store unit :=
  modify_state (fun s => {| repositories := map_delete (repositories s) repositoryId; store_env := store_env s |}).

(** The recovery a rebound repository keeps; [None] when there is none. *)
Definition pendingRecovery (state : RemoteConnectionState) : option RemoteRecoveryState :=
  match rc_kind state, rc_recovery state with
  | Indeterminate _, RecoveryChecking _ origin startedAt _ => Some (Required origin startedAt)
  | Indeterminate _, NotRequired | Indeterminate _, Safe _ _ => None
  | Indeterminate _, recovery => Some recovery
  | _, _ => None
  end.

Definition rebindRepository (repositoryId : string) (epoch : Z) : method store RemoteConnectionState :=
  _ ← lift_result (validateRepository repositoryId epoch);
  s ← get_state;
  match map_get (repositories s) repositoryId with
  | None => throw_error (lifecycleError "SUBVERSIONR_REMOTE_STATE_REPOSITORY_NOT_REGISTERED" repositoryId)
  | Some current =>
    if (rc_epoch current =? epoch)%Z
    then throw_error (lifecycleError "SUBVERSIONR_REMOTE_STATE_REPOSITORY_EPOCH_UNCHANGED" repositoryId)
    else match pendingRecovery current with
    | Some recovery =>
        update {| rc_kind := rc_kind current; rc_repositoryId := rc_repositoryId current; rc_epoch := epoch;
                  rc_incoming := staleIncoming (rc_incoming current); rc_recovery := recovery;
                  rc_lastFailure := rc_lastFailure current |}
    | None =>
        update {| rc_kind := Unchecked; rc_repositoryId := repositoryId; rc_epoch := epoch;
                  rc_incoming := staleIncoming (rc_incoming current); rc_recovery := NotRequired;
                  rc_lastFailure := rc_lastFailure current |}
    end
  end.

Definition beginCheck (repositoryId : string) (epoch : Z) (operationId startedAt : string)
    : method store RemoteConnectionState :=
  _ ← lift_result (validateOperation repositoryId epoch operationId startedAt);
  current ← requireRepository repositoryId epoch;
  match rc_kind current with
  | Checking _ _ => throw_error (checkInProgress repositoryId)
  | _ =>
    match rc_recovery current with
    | Required _ _ | RecoveryChecking _ _ _ _ | Blocked _ _ =>
        throw_error (recoveryRequired repositoryId (rc_recovery current))
    | _ =>
        update {| rc_kind := Checking operationId startedAt; rc_repositoryId := repositoryId; rc_epoch := epoch;
                  rc_incoming := rc_incoming current; rc_recovery := rc_recovery current;
                  rc_lastFailure := rc_lastFailure current |}
    end
  end.

(** [{ applied: true, state: this.update(...) }] *)
Definition apply (state : RemoteConnectionState) : method store ApplyResult :=
  stored ← update state;
  mret {| applied := true; applied_state := Some stored |}.

(** The guards of [completeOnline] and [completeFailure]. *)
Definition whenCurrentCheck (repositoryId : string) (epoch : Z) (operationId : string)
    (continue_ : RemoteConnectionState -> method store ApplyResult) : method store ApplyResult :=
  current ← currentRepository repositoryId epoch;
  match current with
  | None => mret (refused None)
  | Some current =>
      if isCurrentCheck current operationId then continue_ current else mret (refused (Some current))
  end.

Definition completeOnline (repositoryId : string) (epoch : Z) (operationId transport_ checkedAt : string)
    (incomingApplied_ : option js_value) : method store ApplyResult :=
  _ ← lift_result (validateOperation repositoryId epoch operationId checkedAt);
  transport ← lift_result (validateTransport transport_);
  match incomingApplied_ with
  | Some (VBool incomingApplied) =>
      whenCurrentCheck repositoryId epoch operationId (fun current =>
        apply {| rc_kind := Online transport checkedAt; rc_repositoryId := repositoryId; rc_epoch := epoch;
                 rc_incoming := if incomingApplied
                   then {| incoming_kind := IncomingFresh; incoming_lastSuccessfulCheckAt := Some checkedAt |}
                   else staleIncoming (rc_incoming current);
                 rc_recovery := NotRequired; rc_lastFailure := None |})
  | _ => throw_error (inputError "incomingApplied")
  end.

(** The state a failed check leaves: its kind and recovery. *)
Definition failureOutcome (operationId failedAt : string) (workingCopyRecoveryRequired : bool)
    (failure : NativeRemoteFailure) : ConnectionKind * RemoteRecoveryState :=
  if workingCopyRecoveryRequired then
    (Indeterminate (if bool_decide (failure_reason failure = OperationCancelled) then CancelledAfterMutation else WorkerTerminated),
     Required operationId failedAt)
  else if bool_decide (failure_category failure = CatCancelled) || bool_decide (failure_reason failure = UnknownRemote)
  then (Unchecked, NotRequired)
  else if bool_decide (failure_category failure = CatAttention)
  then (Attention (attentionReason (failure_reason failure)), NotRequired)
  else if bool_decide (failure_category failure = CatUnreachable)
  then (Unreachable (unreachableReason (failure_reason failure)), NotRequired)
  else (Indeterminate (indeterminateReason (failure_reason failure)), NotRequired).

Definition failureRecord (failure : NativeRemoteFailure) (at_ : string) : RemoteFailureRecord :=
  {| fail_reason := failure_reason failure; fail_cleanupAppropriate := failure_cleanupAppropriate failure;
     fail_occurredAt := at_ |}.

Definition completeFailure (repositoryId : string) (epoch : Z) (operationId failedAt : string)
    (failure_ workingCopyRecoveryRequired_ : option js_value) : method store ApplyResult :=
  _ ← lift_result (validateOperation repositoryId epoch operationId failedAt);
  match workingCopyRecoveryRequired_ with
  | Some (VBool workingCopyRecoveryRequired) =>
      failure ← lift_result (validateNativeRemoteFailure failure_);
      whenCurrentCheck repositoryId epoch operationId (fun current =>
        let (kind, recovery) := failureOutcome operationId failedAt workingCopyRecoveryRequired failure in
        apply {| rc_kind := kind; rc_repositoryId := repositoryId; rc_epoch := epoch;
                 rc_incoming := staleIncoming (rc_incoming current); rc_recovery := recovery;
                 rc_lastFailure := Some (failureRecord failure failedAt) |})
  | _ => throw_error (inputError "workingCopyRecoveryRequired")
  end.

Definition with_recovery (state : RemoteConnectionState) (recovery : RemoteRecoveryState)
    (lastFailure : option RemoteFailureRecord) : RemoteConnectionState :=
  {| rc_kind := rc_kind state; rc_repositoryId := rc_repositoryId state; rc_epoch := rc_epoch state;
     rc_incoming := rc_incoming state; rc_recovery := recovery; rc_lastFailure := lastFailure |}.

Definition beginRecovery (repositoryId : string) (epoch : Z) (operationId startedAt deadlineAt : string)
    : method store RemoteConnectionState :=
  _ ← lift_result (validateOperation repositoryId epoch operationId startedAt);
  _ ← lift_result (validateTimestamp deadlineAt "deadlineAt");
  current ← requireRepository repositoryId epoch;
  match rc_kind current, rc_recovery current with
  | Indeterminate _, Required origin _ =>
      if bool_decide (origin = operationId) then throw_error (recoveryOperationReused repositoryId)
      else update (with_recovery current (RecoveryChecking operationId origin startedAt deadlineAt) (rc_lastFailure current))
  | _, _ => throw_error (lifecycleError "SUBVERSIONR_REMOTE_STATE_RECOVERY_NOT_REQUIRED" repositoryId)
  end.

Inductive RecoveryResult := ResultSafe | ResultIndeterminate | ResultBlocked.

(** The result and the failure that must go with it. *)
Definition recoveryInput (result_ : string) (failure_ : option js_value) : result (RecoveryResult * option NativeRemoteFailure) :=
  let failure := if truthy failure_ then fmap Some (validateNativeRemoteFailure failure_) else Ok None in
  if bool_decide (result_ = "safe") then Ok (ResultSafe, None)
  else
    r ← (if bool_decide (result_ = "indeterminate") then Ok ResultIndeterminate
         else if bool_decide (result_ = "blocked") then Ok ResultBlocked
         else Throw (protocolError "recovery.result"));
    f ← failure;
    match f with
    | Some f => Ok (r, Some f)
    | None => Throw (protocolError "recovery.failure")
    end.

Definition completeRecovery (repositoryId : string) (epoch : Z) (operationId completedAt result_ : string)
    (failure_ : option js_value) : method store ApplyResult :=
  _ ← lift_result (validateOperation repositoryId epoch operationId completedAt);
  input ← lift_result (recoveryInput result_ failure_);
  current ← currentRepository repositoryId epoch;
  match current with
  | None => mret (refused None)
  | Some current =>
    match rc_kind current, rc_recovery current with
    | Indeterminate _, RecoveryChecking op origin _ _ =>
        if negb (bool_decide (op = operationId)) then mret (refused (Some current))
        else match input with
        | (ResultBlocked, Some failure) =>
            apply (with_recovery current (Blocked origin completedAt) (Some (failureRecord failure completedAt)))
        | (ResultIndeterminate, Some failure) =>
            apply (with_recovery current (Required origin completedAt) (Some (failureRecord failure completedAt)))
        | _ =>
            apply {| rc_kind := Unchecked; rc_repositoryId := rc_repositoryId current; rc_epoch := rc_epoch current;
                     rc_incoming := staleIncoming (rc_incoming current); rc_recovery := Safe operationId completedAt;
                     rc_lastFailure := rc_lastFailure current |}
        end
    | _, _ => mret (refused (Some current))
    end
  end.

(** [Date.parse(a) <= Date.parse(b)]; false when one is [NaN]. *)
Definition notLater (a b : string) : bool :=
  match dateParse a, dateParse b with Some x, Some y => (x <=? y)%Z | _, _ => false end.

Definition applyDaemonState (repositoryId : string) (epoch : Z) (daemon : DaemonRemoteConnectionState)
    (receivedAt : string) : method store ApplyResult :=
  _ ← lift_result (validateTimestamp receivedAt "receivedAt");
  current ← currentRepository repositoryId epoch;
  match current with
  | None => mret (refused None)
  | Some current =>
    let next kind incoming recovery lastFailure :=
      apply {| rc_kind := kind; rc_repositoryId := repositoryId; rc_epoch := epoch; rc_incoming := incoming;
               rc_recovery := recovery; rc_lastFailure := lastFailure |} in
    match daemon with
    | DChecking operationId startedAt =>
        if match rc_kind current with
           | Checking op at_ => negb (bool_decide (op = operationId)) && notLater startedAt at_
           | _ => false
           end
        then mret (refused (Some current))
        else next (Checking operationId startedAt) (rc_incoming current) (rc_recovery current) (rc_lastFailure current)
    | DOnline transport checkedAt =>
        next (Online transport checkedAt) (rc_incoming current) NotRequired None
    | DAttention reason =>
        next (Attention reason) (staleIncoming (rc_incoming current)) NotRequired (rc_lastFailure current)
    | DUnreachable reason =>
        next (Unreachable reason) (staleIncoming (rc_incoming current)) NotRequired (rc_lastFailure current)
    | DIndeterminate reason origin recovery cleanup =>
        next (Indeterminate reason) (staleIncoming (rc_incoming current))
          (match recovery with
           | RecNotRequired => NotRequired
           | RecBlocked => Blocked origin receivedAt
           | RecPending =>
               match rc_recovery current with
               | RecoveryChecking a b c d => RecoveryChecking a b c d
               | _ => Required origin receivedAt
               end
           end)
          (Some {| fail_reason := match recovery with
                     | RecBlocked => RemoteRecoveryBlocked
                     | _ => match reason with
                            | WorkerTerminated => WorkerContainmentFailed
                            | CancelledAfterMutation => RemoteOperationIndeterminate
                            end
                     end;
                   fail_cleanupAppropriate := cleanup; fail_occurredAt := receivedAt |})
    | DUnchecked =>
        match rc_recovery current with
        | RecoveryChecking _ _ _ _ => mret (refused (Some current))
        | _ => next Unchecked (staleIncoming (rc_incoming current)) NotRequired (rc_lastFailure current)
        end
    end
  end.
End Store.
Arguments store : clear implicits.

End RemoteConnectionStateStore.
