(* ===== verification/RemoteStateFacts.v ===== *)
(** The remote connection store: its invariant, and that a recovery the working
    copy needs is not forgotten. *)

From Stdlib Require Import ZArith Lia String List.
From stdpp Require Import base option list strings relations.
From S2P Require Import Prelude JsString JsMap JsValue RemoteTypes RemoteState.

Import RemoteConnectionStateStore.
Local Open Scope string_scope.

(** ** Operations *)
Inductive op :=
  | Register (repositoryId : string) (epoch : Z)
  | Unregister (repositoryId : string)
  | Rebind (repositoryId : string) (epoch : Z)
  | BeginCheck (repositoryId : string) (epoch : Z) (operationId startedAt : string)
  | CompleteOnline (repositoryId : string) (epoch : Z) (operationId transport checkedAt : string) (incomingApplied : option js_value)
  | CompleteFailure (repositoryId : string) (epoch : Z) (operationId failedAt : string) (failure recovery : option js_value)
  | BeginRecovery (repositoryId : string) (epoch : Z) (operationId startedAt deadlineAt : string)
  | CompleteRecovery (repositoryId : string) (epoch : Z) (operationId completedAt result : string) (failure : option js_value)
  | Daemon (repositoryId : string) (epoch : Z) (state : DaemonRemoteConnectionState) (receivedAt : string).

(** ** The state machine of one repository

    [rstep o old new]: operation [o] replaces the state [old] of its repository
    by [new]. *)
Notation state_of kind id ep incoming recovery failure :=
  {| rc_kind := kind; rc_repositoryId := id; rc_epoch := ep; rc_incoming := incoming;
     rc_recovery := recovery; rc_lastFailure := failure |}.

(** A recovery that must end before the next check. *)
Definition unresolved (r : RemoteRecoveryState) : bool :=
  match r with Required _ _ | RecoveryChecking _ _ _ _ | Blocked _ _ => true | _ => false end.

(** The operation that left the working copy to recover. *)
Definition recovery_origin (r : RemoteRecoveryState) : option string :=
  match r with
  | Required o _ | RecoveryChecking _ o _ _ | Blocked o _ => Some o
  | _ => None
  end.

Definition isChecking (k : ConnectionKind) : bool := match k with Checking _ _ => true | _ => false end.

Inductive rstep (dateParse : string -> option Z) : op -> option RemoteConnectionState -> RemoteConnectionState -> Prop :=
  | SRegister id ep :
      isNonEmptyString id = true -> isNonNegativeSafeInteger ep = true ->
      rstep dateParse (Register id ep) None
        (state_of Unchecked id ep {| incoming_kind := IncomingUnchecked; incoming_lastSuccessfulCheckAt := None |} NotRequired None)
  | SRebindKeep id ep cur recovery :
      isNonNegativeSafeInteger ep = true -> rc_epoch cur <> ep -> pendingRecovery cur = Some recovery ->
      rstep dateParse (Rebind id ep) (Some cur)
        (state_of (rc_kind cur) (rc_repositoryId cur) ep (staleIncoming (rc_incoming cur)) recovery (rc_lastFailure cur))
  | SRebindReset id ep cur :
      isNonNegativeSafeInteger ep = true -> rc_epoch cur <> ep -> pendingRecovery cur = None ->
      rstep dateParse (Rebind id ep) (Some cur)
        (state_of Unchecked id ep (staleIncoming (rc_incoming cur)) NotRequired (rc_lastFailure cur))
  | SBeginCheck id cur o at_ :
      isChecking (rc_kind cur) = false -> unresolved (rc_recovery cur) = false ->
      isCanonicalUuid o = true -> isTimestamp dateParse at_ = true ->
      rstep dateParse (BeginCheck id (rc_epoch cur) o at_) (Some cur)
        (state_of (Checking o at_) id (rc_epoch cur) (rc_incoming cur) (rc_recovery cur) (rc_lastFailure cur))
  | SOnline id cur o started tname t at_ incoming :
      rc_kind cur = Checking o started -> isTimestamp dateParse at_ = true ->
      rstep dateParse (CompleteOnline id (rc_epoch cur) o tname at_ (Some (VBool incoming))) (Some cur)
        (state_of (Online t at_) id (rc_epoch cur)
           (if incoming then {| incoming_kind := IncomingFresh; incoming_lastSuccessfulCheckAt := Some at_ |}
            else staleIncoming (rc_incoming cur)) NotRequired None)
  | SFailure id cur o started at_ raw failure required kind recovery :
      rc_kind cur = Checking o started -> validateNativeRemoteFailure raw = Ok failure ->
      failureOutcome o at_ required failure = (kind, recovery) ->
      rstep dateParse (CompleteFailure id (rc_epoch cur) o at_ raw (Some (VBool required))) (Some cur)
        (state_of kind id (rc_epoch cur) (staleIncoming (rc_incoming cur)) recovery (Some (failureRecord failure at_)))
  | SBeginRecovery id cur reason origin required o at_ deadline :
      rc_kind cur = Indeterminate reason -> rc_recovery cur = Required origin required -> origin <> o ->
      rstep dateParse (BeginRecovery id (rc_epoch cur) o at_ deadline) (Some cur)
        (with_recovery cur (RecoveryChecking o origin at_ deadline) (rc_lastFailure cur))
  | SRecoverySafe id cur reason o origin started deadline at_ raw :
      rc_kind cur = Indeterminate reason -> rc_recovery cur = RecoveryChecking o origin started deadline ->
      rstep dateParse (CompleteRecovery id (rc_epoch cur) o at_ "safe" raw) (Some cur)
        (state_of Unchecked (rc_repositoryId cur) (rc_epoch cur) (staleIncoming (rc_incoming cur)) (Safe o at_) (rc_lastFailure cur))
  | SRecoveryFailed id cur reason o origin started deadline at_ result raw failure recovery :
      rc_kind cur = Indeterminate reason -> rc_recovery cur = RecoveryChecking o origin started deadline ->
      validateNativeRemoteFailure raw = Ok failure ->
      recovery = Blocked origin at_ \/ recovery = Required origin at_ ->
      rstep dateParse (CompleteRecovery id (rc_epoch cur) o at_ result raw) (Some cur)
        (with_recovery cur recovery (Some (failureRecord failure at_)))
  | SDaemonChecking id cur o started at_ :
      rstep dateParse (Daemon id (rc_epoch cur) (DChecking o started) at_) (Some cur)
        (state_of (Checking o started) id (rc_epoch cur) (rc_incoming cur) (rc_recovery cur) (rc_lastFailure cur))
  | SDaemonOnline id cur t checked at_ :
      rstep dateParse (Daemon id (rc_epoch cur) (DOnline t checked) at_) (Some cur)
        (state_of (Online t checked) id (rc_epoch cur) (rc_incoming cur) NotRequired None)
  | SDaemonProblem id cur d kind at_ :
      (exists r, d = DAttention r /\ kind = Attention r) \/ (exists r, d = DUnreachable r /\ kind = Unreachable r) \/
        (d = DUnchecked /\ kind = Unchecked /\ forall a b c e, rc_recovery cur <> RecoveryChecking a b c e) ->
      rstep dateParse (Daemon id (rc_epoch cur) d at_) (Some cur)
        (state_of kind id (rc_epoch cur) (staleIncoming (rc_incoming cur)) NotRequired (rc_lastFailure cur))
  | SDaemonIndeterminate id cur reason origin dr cleanup at_ recovery failure :
      (dr = RecNotRequired /\ recovery = NotRequired) \/ (dr = RecBlocked /\ recovery = Blocked origin at_) \/
        (dr = RecPending /\ ((exists a b c e, rc_recovery cur = RecoveryChecking a b c e /\ recovery = rc_recovery cur) \/
                             recovery = Required origin at_)) ->
      rstep dateParse (Daemon id (rc_epoch cur) (DIndeterminate reason origin dr cleanup) at_) (Some cur)
        (state_of (Indeterminate reason) id (rc_epoch cur) (staleIncoming (rc_incoming cur)) recovery (Some failure)).

Definition op_id (o : op) : string :=
  match o with
  | Register id _ | Unregister id | Rebind id _ | BeginCheck id _ _ _ | CompleteOnline id _ _ _ _ _
  | CompleteFailure id _ _ _ _ _ | BeginRecovery id _ _ _ _ | CompleteRecovery id _ _ _ _ _ | Daemon id _ _ _ => id
  end.

Section Facts.
Variable dateParse : string -> option Z.
Context {E : Type} (listeners : list (RemoteConnectionState -> method E unit)).

(** The store after an operation, whether it returns or throws. *)
Definition run (o : op) (s : store E) : store E :=
  match o with
  | Register id ep => snd (registerRepository listeners id ep s)
  | Unregister id => snd (unregisterRepository id s)
  | Rebind id ep => snd (rebindRepository listeners id ep s)
  | BeginCheck id ep o at_ => snd (beginCheck dateParse listeners id ep o at_ s)
  | CompleteOnline id ep o t at_ applied => snd (completeOnline dateParse listeners id ep o t at_ applied s)
  | CompleteFailure id ep o at_ f r => snd (completeFailure dateParse listeners id ep o at_ f r s)
  | BeginRecovery id ep o at_ deadline => snd (beginRecovery dateParse listeners id ep o at_ deadline s)
  | CompleteRecovery id ep o at_ r f => snd (completeRecovery dateParse listeners id ep o at_ r f s)
  | Daemon id ep st at_ => snd (applyDaemonState dateParse listeners id ep st at_ s)
  end.

(** *** A method keeps the map or writes one state into it

    [s] is the store the method starts from. *)
Definition writes {A} (s : store E) (m : method (store E) A) (P : RemoteConnectionState -> Prop) : Prop :=
  snd (m s) = s \/
  exists st, P st /\ repositories (snd (m s)) = map_set (repositories s) (rc_repositoryId st) st.

Lemma writes_throw {A} s e P : writes s (throw_error (A:=A) e) P.
Proof. by left. Qed.
Lemma writes_ret {A} s (a : A) P : writes s (mret a) P.
Proof. by left. Qed.

Lemma fire_repositories st s : repositories (snd (fire listeners st s)) = repositories s.
Proof.
  pose proof (triple_for_each (fun listener => on_listeners (listener st)) listeners
    (fun s' => repositories s' = repositories s)) as H.
  specialize (H ltac:(intros l; by apply triple_part) s eq_refl). unfold fire.
  by destruct (for_each _ _ s) as [[?|?] s'].
Qed.

Lemma update_repositories st s :
  repositories (snd (update listeners st s)) = map_set (repositories s) (rc_repositoryId st) st.
Proof.
  unfold update, modify_state, mbind, method_bind, mret, method_ret.
  pose proof (fire_repositories st (set_repository st s)) as H.
  by destruct (fire listeners st (set_repository st s)) as [[?|?] s'].
Qed.

Lemma writes_update s st (P : RemoteConnectionState -> Prop) : P st -> writes s (update listeners st) P.
Proof. intros H. right. exists st. split; [done|apply update_repositories]. Qed.

Lemma writes_apply s st (P : RemoteConnectionState -> Prop) : P st -> writes s (apply listeners st) P.
Proof.
  intros H. right. exists st. split; [done|]. rewrite <- update_repositories.
  unfold apply, mbind, method_bind. by destruct (update listeners st s) as [[?|?] s'].
Qed.

Lemma writes_lift {A B} s (r : result B) (f : B -> method (store E) A) P :
  (forall b, r = Ok b -> writes s (f b) P) -> writes s (b ← lift_result r; f b) P.
Proof. intros H. destruct r as [b|e]; [by apply H|by left]. Qed.

Lemma writes_get {A} s (f : store E -> method (store E) A) P : writes s (f s) P -> writes s (s' ← get_state; f s') P.
Proof. done. Qed.

Definition current_at (s : store E) (id : string) (epoch : Z) (st : RemoteConnectionState) : Prop :=
  map_get (repositories s) id = Some st /\ rc_epoch st = epoch.

Lemma writes_current {A} s id epoch (f : option RemoteConnectionState -> method (store E) A) P :
  (forall st, current_at s id epoch st -> writes s (f (Some st)) P) -> writes s (f None) P ->
  writes s (st ← currentRepository id epoch; f st) P.
Proof.
  intros H1 H2. unfold currentRepository, writes, mbind, method_bind, get_state, mret, method_ret. cbn.
  destruct (map_get (repositories s) id) as [st|] eqn:Hst; [|done].
  destruct (Z.eqb_spec (rc_epoch st) epoch); [by apply H1|done].
Qed.

Lemma writes_require {A} s id epoch (f : RemoteConnectionState -> method (store E) A) P :
  (forall st, current_at s id epoch st -> writes s (f st) P) ->
  writes s (st ← requireRepository id epoch; f st) P.
Proof.
  intros H. unfold requireRepository, currentRepository, writes, mbind, method_bind, get_state, mret, method_ret. cbn.
  destruct (map_get (repositories s) id) as [st|] eqn:Hst; [|by left].
  destruct (Z.eqb_spec (rc_epoch st) epoch); [by apply H|by left].
Qed.

(** Each method follows the state machine. *)
Notation steps o s := (fun st => rstep dateParse o (map_get (repositories s) (op_id o)) st).

Lemma register_steps id ep s : writes s (registerRepository listeners id ep) (steps (Register id ep) s).
Proof.
  unfold registerRepository. apply writes_lift. intros [] Hv. apply writes_get. unfold map_has. cbn.
  destruct (map_get (repositories s) id); [apply writes_throw|]. apply writes_update.
  unfold validateRepository in Hv. apply bind_ok in Hv as ([] & H1%require_ok & H2%require_ok). by constructor.
Qed.

Lemma rebind_steps id ep s : writes s (rebindRepository listeners id ep) (steps (Rebind id ep) s).
Proof.
  unfold rebindRepository. apply writes_lift. intros [] Hv. apply writes_get. cbn.
  unfold validateRepository in Hv. apply bind_ok in Hv as ([] & _ & H2%require_ok).
  destruct (map_get (repositories s) id) as [cur|]; [|apply writes_throw].
  destruct (Z.eqb_spec (rc_epoch cur) ep); [apply writes_throw|].
  destruct (pendingRecovery cur) eqn:Hp; apply writes_update; by constructor.
Qed.

Lemma validateOperation_ok id ep o at_ :
  validateOperation dateParse id ep o at_ = Ok tt -> isCanonicalUuid o = true /\ isTimestamp dateParse at_ = true.
Proof.
  unfold validateOperation, validateTimestamp. intros H. apply bind_ok in H as ([] & _ & H).
  by apply bind_ok in H as ([] & H1%require_ok & H2%require_ok).
Qed.

Lemma beginCheck_steps id ep o at_ s : writes s (beginCheck dateParse listeners id ep o at_) (steps (BeginCheck id ep o at_) s).
Proof.
  unfold beginCheck. apply writes_lift. intros [] [Hu Ht]%validateOperation_ok. apply writes_require. intros cur [Hc <-]. cbn.
  rewrite Hc. destruct (rc_kind cur) eqn:Hk; try apply writes_throw;
    destruct (rc_recovery cur) eqn:Hr; try apply writes_throw; apply writes_update; rewrite <- Hr;
    constructor; try done; by rewrite ?Hk, ?Hr.
Qed.

Lemma isCurrentCheck_spec cur o : isCurrentCheck cur o = true <-> exists started, rc_kind cur = Checking o started.
Proof.
  unfold isCurrentCheck. destruct (rc_kind cur); try (split; [done|naive_solver]).
  rewrite bool_decide_eq_true. naive_solver.
Qed.

Lemma writes_check id ep o f s P :
  (forall cur started, current_at s id ep cur -> rc_kind cur = Checking o started -> writes s (f cur) P) ->
  writes s (whenCurrentCheck (E:=E) id ep o f) P.
Proof.
  intros H. unfold whenCurrentCheck. apply writes_current; [|apply writes_ret].
  intros cur Hc. destruct (isCurrentCheck cur o) eqn:Hi; [|apply writes_ret].
  apply isCurrentCheck_spec in Hi as [started Hk]. by eapply H.
Qed.

Lemma completeOnline_steps id ep o t at_ a s :
  writes s (completeOnline dateParse listeners id ep o t at_ a) (steps (CompleteOnline id ep o t at_ a) s).
Proof.
  unfold completeOnline. apply writes_lift. intros [] [_ Ht]%validateOperation_ok. apply writes_lift. intros tr _.
  destruct a as [[|a| | | |]|]; try apply writes_throw. apply writes_check. intros cur started [Hc <-] Hk. cbn. rewrite Hc.
  apply writes_apply. by eapply SOnline.
Qed.

Lemma completeFailure_steps id ep o at_ f r s :
  writes s (completeFailure dateParse listeners id ep o at_ f r) (steps (CompleteFailure id ep o at_ f r) s).
Proof.
  unfold completeFailure. apply writes_lift. intros [] _.
  destruct r as [[|r| | | |]|]; try apply writes_throw. apply writes_lift. intros failure Hf.
  apply writes_check. intros cur started [Hc <-] Hk. cbn. rewrite Hc.
  destruct (failureOutcome o at_ r failure) as [kind recovery] eqn:Ho. apply writes_apply. by eapply SFailure.
Qed.

Lemma beginRecovery_steps id ep o at_ d s :
  writes s (beginRecovery dateParse listeners id ep o at_ d) (steps (BeginRecovery id ep o at_ d) s).
Proof.
  unfold beginRecovery. apply writes_lift. intros [] _. apply writes_lift. intros [] _. apply writes_require.
  intros cur [Hc <-]. cbn. rewrite Hc.
  destruct (rc_kind cur) eqn:Hk; try apply writes_throw. destruct (rc_recovery cur) eqn:Hr; try apply writes_throw.
  case_bool_decide; [apply writes_throw|]. apply writes_update. by eapply SBeginRecovery.
Qed.

Lemma recoveryInput_ok r f res :
  recoveryInput r f = Ok res ->
  match res with
  | (ResultSafe, None) => r = "safe"
  | (ResultIndeterminate, Some failure) | (ResultBlocked, Some failure) => validateNativeRemoteFailure f = Ok failure
  | _ => False
  end.
Proof.
  unfold recoveryInput. case_bool_decide; [by intros [= <-]|]. intros H0.
  apply bind_ok in H0 as (x & Hx & H0). apply bind_ok in H0 as (y & Hy & H0). destruct y as [fl|]; simplify_eq.
  assert (validateNativeRemoteFailure f = Ok fl) as Hv.
  { destruct (truthy f); [|done]. destruct (validateNativeRemoteFailure f); by simplify_eq/=. }
  repeat case_bool_decide; simplify_eq; done.
Qed.

Lemma completeRecovery_steps id ep o at_ r f s :
  writes s (completeRecovery dateParse listeners id ep o at_ r f) (steps (CompleteRecovery id ep o at_ r f) s).
Proof.
  unfold completeRecovery. apply writes_lift. intros [] _. apply writes_lift. intros input Hin%recoveryInput_ok.
  apply writes_current; [|apply writes_ret]. intros cur [Hc <-]. cbn. rewrite Hc.
  destruct (rc_kind cur) eqn:Hk; try apply writes_ret. destruct (rc_recovery cur) eqn:Hr; try apply writes_ret.
  case_bool_decide as Ho; cbn [negb]; [subst|apply writes_ret].
  destruct input as [[] [fl|]]; try done; subst; apply writes_apply.
  - by eapply SRecoverySafe.
  - eapply SRecoveryFailed; eauto.
  - eapply SRecoveryFailed; eauto.
Qed.

Lemma daemon_steps id ep d at_ s :
  writes s (applyDaemonState dateParse listeners id ep d at_) (steps (Daemon id ep d at_) s).
Proof.
  unfold applyDaemonState. apply writes_lift. intros [] _. apply writes_current; [|apply writes_ret].
  intros cur [Hc <-]. cbn. rewrite Hc. destruct d as [|o started|t checked|r|r|reason origin dr cleanup].
  - destruct (rc_recovery cur) eqn:Hr; try apply writes_ret;
      apply writes_apply; apply SDaemonProblem; right; right; split_and!; try done; intros; congruence.
  - destruct (match rc_kind cur with Checking _ _ => _ | _ => _ end); [apply writes_ret|]. apply writes_apply. constructor.
  - apply writes_apply. constructor.
  - apply writes_apply. apply SDaemonProblem. eauto.
  - apply writes_apply. apply SDaemonProblem. eauto.
  - apply writes_apply. apply SDaemonIndeterminate. destruct dr; [auto| |auto]. right; right. split; [done|].
    destruct (rc_recovery cur) eqn:Hr; auto. left. by eexists _, _, _, _.
Qed.

(** An operation keeps the store, deletes its repository, or takes a step of
    the state machine. *)
Lemma run_shape o s :
  run o s = s \/
  (exists id, o = Unregister id /\ repositories (run o s) = map_delete (repositories s) id) \/
  (exists st, rstep dateParse o (map_get (repositories s) (op_id o)) st /\
     repositories (run o s) = map_set (repositories s) (rc_repositoryId st) st).
Proof.
  destruct o; cbn [run].
  - destruct (register_steps repositoryId epoch s) as [H|H]; auto.
  - right; left. by eexists.
  - destruct (rebind_steps repositoryId epoch s) as [H|H]; auto.
  - destruct (beginCheck_steps repositoryId epoch operationId startedAt s) as [H|H]; auto.
  - destruct (completeOnline_steps repositoryId epoch operationId transport checkedAt incomingApplied s) as [H|H]; auto.
  - destruct (completeFailure_steps repositoryId epoch operationId failedAt failure recovery s) as [H|H]; auto.
  - destruct (beginRecovery_steps repositoryId epoch operationId startedAt deadlineAt s) as [H|H]; auto.
  - destruct (completeRecovery_steps repositoryId epoch operationId completedAt result failure s) as [H|H]; auto.
  - destruct (daemon_steps repositoryId epoch state receivedAt s) as [H|H]; auto.
Qed.

(** *** The invariant *)
Record rstate_ok (id : string) (st : RemoteConnectionState) : Prop := {
  rs_id : rc_repositoryId st = id;
  rs_recovery : unresolved (rc_recovery st) = true ->
    isChecking (rc_kind st) = true \/ exists r, rc_kind st = Indeterminate r;
  rs_online t at_ : rc_kind st = Online t at_ -> rc_recovery st = NotRequired /\ rc_lastFailure st = None;
  rs_fresh : incoming_kind (rc_incoming st) = IncomingFresh ->
    (isChecking (rc_kind st) = true \/ exists t at_, rc_kind st = Online t at_) /\
    exists at_, incoming_lastSuccessfulCheckAt (rc_incoming st) = Some at_ /\ isTimestamp dateParse at_ = true;
  rs_indeterminate r : rc_kind st = Indeterminate r ->
    is_Some (rc_lastFailure st) /\ incoming_kind (rc_incoming st) = IncomingStale;
  rs_attempt o origin a b : rc_recovery st = RecoveryChecking o origin a b -> o <> origin;
}.

Definition remote_ok (s : store E) : Prop :=
  map_wf (repositories s) /\ forall id st, map_get (repositories s) id = Some st -> rstate_ok id st.

Lemma failureOutcome_cases o at_ required failure kind recovery :
  failureOutcome o at_ required failure = (kind, recovery) ->
  (exists r, kind = Indeterminate r /\ recovery = Required o at_) \/
  (recovery = NotRequired /\ isChecking kind = false /\ forall t c, kind <> Online t c).
Proof. unfold failureOutcome. repeat case_match; intros [= <- <-]; eauto. Qed.

Lemma pendingRecovery_cases cur recovery :
  pendingRecovery cur = Some recovery ->
  (exists r, rc_kind cur = Indeterminate r) /\ recovery_origin recovery = recovery_origin (rc_recovery cur) /\
  (forall a b c d, recovery <> RecoveryChecking a b c d).
Proof. unfold pendingRecovery. repeat case_match; intros [= <-]; eauto. Qed.

Lemma rstep_ok o old new :
  (forall cur, old = Some cur -> rstate_ok (op_id o) cur) -> rstep dateParse o old new -> rstate_ok (op_id o) new.
Proof.
  intros Hold Hs. destruct Hs; try (pose proof (Hold _ eq_refl) as [Hid Hr Hon Hfr Hind Hat]); cbn [op_id] in *.
  - by split; cbn; naive_solver.
  - apply pendingRecovery_cases in H1 as ((r & Hk) & _ & Hn). specialize (Hind _ Hk) as [Hf _].
    split; cbn; rewrite ?Hk; try done; eauto. intros. by apply Hn in H1.
  - by split; cbn.
  - split; cbn; try done; [by rewrite H0|by intros [_ ?]%Hfr; split; [left|]].
  - split; cbn; try done. destruct incoming; [eauto 10|done].
  - apply failureOutcome_cases in H1 as [(r & -> & ->)|(-> & Hc & Hn)]; split; cbn; try done; eauto.
    intros t c ->. by destruct (Hn t c).
  - split; cbn; try done; eauto; [by rewrite H; naive_solver|naive_solver].
  - by split; cbn.
  - specialize (Hind _ H) as [_ Hst]. split; cbn; try done; eauto; [by rewrite H|].
    intros ? ? ? ? ->. by destruct H2.
  - split; cbn; try done; [by left|by intros [_ ?]%Hfr; split; [left|]].
  - split; cbn; try done. intros [_ ?]%Hfr. eauto 10.
  - destruct H as [(r & _ & ->)|[(r & _ & ->)|(_ & -> & _)]]; by split; cbn.
  - split; cbn; try done; eauto. intros o' or a b Heq.
    destruct H as [[_ ->]|[[_ ->]|[_ [(? & ? & ? & ? & Hc & ->)| ->]]]]; try done. by eapply Hat.
Qed.

Lemma run_remote_ok o s : remote_ok s -> remote_ok (run o s).
Proof.
  intros [Hwf Hall]. destruct (run_shape o s) as [->|[(id & -> & Heq)|(st & Hs & Heq)]]; [done| |];
    unfold remote_ok; rewrite Heq.
  - split; [by apply map_wf_delete|]. intros id' st. rewrite map_get_delete. case_bool_decide; [done|apply Hall].
  - assert (rstate_ok (op_id o) st) as Hok by (eapply rstep_ok; [|exact Hs]; intros cur Hc; by apply Hall).
    split; [by apply map_wf_set|]. intros id' st'. rewrite map_get_set, (rs_id _ _ Hok).
    destruct (bool_decide_reflect (op_id o = id')) as [<-|]; [by intros [= <-]|apply Hall].
Qed.

Definition run_all (ops : list op) (s : store E) : store E := fold_left (fun s o => run o s) ops s.

Lemma run_all_ok ops s : remote_ok s -> remote_ok (run_all ops s).
Proof. revert s. induction ops as [|o ops IH]; intros s Hs; [done|]. by apply IH, run_remote_ok. Qed.

(** What an operation does to the state of a registered repository. *)
Lemma run_get o s id cur :
  remote_ok s -> map_get (repositories s) id = Some cur -> o <> Unregister id ->
  exists st, map_get (repositories (run o s)) id = Some st /\ (st = cur \/ op_id o = id /\ rstep dateParse o (Some cur) st).
Proof.
  intros Hok Hcur Hne. destruct (run_shape o s) as [->|[(id' & -> & Heq)|(st & Hs & Heq)]]; [by eauto| |]; rewrite Heq.
  - exists cur. rewrite map_get_delete. rewrite bool_decide_false by congruence. auto.
  - assert (rc_repositoryId st = op_id o) as ->.
    { eapply rs_id, rstep_ok; [|exact Hs]. intros cur' Hc. by apply Hok. }
    rewrite map_get_set. destruct (bool_decide_reflect (op_id o = id)) as [<-|]; [|by eauto].
    exists st. rewrite Hcur in Hs. auto.
Qed.

(** *** Recovery *)

(** The working copy waits for the recovery of operation [origin]. *)
Definition pending (origin : string) (st : RemoteConnectionState) : Prop :=
  (exists r, rc_kind st = Indeterminate r) /\ recovery_origin (rc_recovery st) = Some origin.

Definition isDaemon (o : op) : bool := match o with Daemon _ _ _ _ => true | _ => false end.

(** [o] reports that the recovery under way in [st] left the working copy safe. *)
Definition recovers (o : op) (st : RemoteConnectionState) (origin : string) : Prop :=
  exists id attempt at_ raw started deadline, o = CompleteRecovery id (rc_epoch st) attempt at_ "safe" raw /\
    rc_recovery st = RecoveryChecking attempt origin started deadline.

Lemma rstep_pending o cur st origin :
  rstep dateParse o (Some cur) st -> isDaemon o = false -> pending origin cur -> pending origin st \/ recovers o cur origin.
Proof.
  intros Hs Hd [[r Hk] Ho]. unfold pending, recovers. inversion Hs; subst; cbn in *; try done; try congruence;
    repeat match goal with
    | H : pendingRecovery _ = Some _ |- _ => apply pendingRecovery_cases in H as (_ & -> & _); by eauto
    | H : rc_recovery cur = _ |- _ => rewrite H in *
    | H : Some _ = Some origin |- _ => injection H as ->
    end.
  - exfalso. match goal with H : pendingRecovery _ = None |- _ => revert H end.
    unfold pendingRecovery. rewrite Hk. by destruct (rc_recovery cur).
  - by destruct (rc_recovery cur).
  - left. split; [by eauto|done].
  - right. injection Ho as ->. by eauto 10.
  - left. injection Ho as ->. split; [eauto|]. match goal with H : _ \/ _ |- _ => by destruct H as [-> | ->] end.
Qed.

Lemma pending_refuses_check origin id cur ep o at_ s :
  map_get (repositories s) id = Some cur -> pending origin cur ->
  exists e, beginCheck dateParse listeners id ep o at_ s = (Throw e, s).
Proof.
  intros Hc [[r Hk] Ho]. unfold beginCheck. destruct (validateOperation dateParse id ep o at_) as [[]|e]; [|by eexists].
  rewrite (method_bind_ok _ _ s tt s eq_refl). unfold requireRepository, currentRepository, mbind, method_bind, get_state.
  cbn. rewrite Hc. destruct (rc_epoch cur =? ep)%Z; [|by eexists]. cbn. rewrite Hk.
  destruct (rc_recovery cur); try done; by eexists.
Qed.

Lemma pending_run ops s id cur origin :
  remote_ok s -> map_get (repositories s) id = Some cur -> pending origin cur ->
  Forall (fun o => isDaemon o = false /\ o <> Unregister id) ops ->
  (exists st, map_get (repositories (run_all ops s)) id = Some st /\ pending origin st) \/
  (exists before o after st, ops = (before ++ o :: after)%list /\ op_id o = id /\
     map_get (repositories (run_all before s)) id = Some st /\ recovers o st origin).
Proof.
  intros Hok Hcur Hp Hops. revert s cur Hok Hcur Hp. induction Hops as [|o ops [Hd Hu] Hops IH]; intros s cur Hok Hcur Hp.
  { left. exists cur. done. }
  destruct (run_get o s id cur Hok Hcur Hu) as (st & Hst & [->|[Hid Hs]]).
  - destruct (IH (run o s) cur) as [?|(before & o' & after & st' & -> & ? & ? & ?)]; [by apply run_remote_ok|done|done|by left|].
    right. by exists (o :: before), o', after, st'.
  - destruct (rstep_pending o cur st origin Hs Hd Hp) as [Hp'|Hr].
    + destruct (IH (run o s) st) as [?|(before & o' & after & st' & -> & ? & ? & ?)]; [by apply run_remote_ok|done|done|by left|].
      right. by exists (o :: before), o', after, st'.
    + right. by exists [], o, ops, cur.
Qed.

(** *** Completions *)
Definition isCompletion (o : op) : bool :=
  match o with CompleteOnline _ _ _ _ _ _ | CompleteFailure _ _ _ _ _ _ | CompleteRecovery _ _ _ _ _ _ => true | _ => false end.

(** The repository waits for the operation that [o] completes. *)
Definition awaits (o : op) (cur : RemoteConnectionState) : Prop :=
  match o with
  | CompleteOnline _ ep attempt _ _ _ | CompleteFailure _ ep attempt _ _ _ =>
      rc_epoch cur = ep /\ exists started, rc_kind cur = Checking attempt started
  | CompleteRecovery _ ep attempt _ _ _ =>
      rc_epoch cur = ep /\ (exists r, rc_kind cur = Indeterminate r) /\
      exists origin started deadline, rc_recovery cur = RecoveryChecking attempt origin started deadline
  | _ => False
  end.

Lemma completion_awaits o old st :
  isCompletion o = true -> rstep dateParse o old st -> exists cur, old = Some cur /\ awaits o cur /\
    forall o', isCompletion o' = true -> ~ awaits o' st.
Proof.
  intros Hc Hs. inversion Hs; subst; try done; exists cur; split; try done; cbn.
  - split; [eauto|]. intros []; try done; cbn; naive_solver.
  - split; [eauto|]. apply failureOutcome_cases in H1 as [(r & -> & ->)|(-> & Hk & Hn)]; intros []; try done; cbn;
      naive_solver.
  - split; [eauto 10|]. intros []; try done; cbn; naive_solver.
  - split; [eauto 10|]. intros []; try done; cbn; rewrite H; naive_solver.
Qed.

Lemma completion_idle o s :
  isCompletion o = true -> (forall cur, map_get (repositories s) (op_id o) = Some cur -> ~ awaits o cur) -> run o s = s.
Proof.
  intros Hc Hn. destruct (run_shape o s) as [->|[(id & -> & _)|(st & Hs & _)]]; [done|done|].
  destruct (completion_awaits _ _ _ Hc Hs) as (cur & Hcur & Ha & _). by destruct (Hn cur).
Qed.

Lemma completion_cases o s :
  remote_ok s -> isCompletion o = true ->
  run o s = s \/
  (exists cur, map_get (repositories s) (op_id o) = Some cur /\ awaits o cur) /\
  (forall o', isCompletion o' = true -> op_id o' = op_id o -> run o' (run o s) = run o s).
Proof.
  intros Hok Hc. destruct (run_shape o s) as [->|[(id & -> & _)|(st & Hs & Heq)]]; [by left|done|]. right.
  destruct (completion_awaits _ _ _ Hc Hs) as (cur & Hcur & Ha & Hn). split; [by eauto|].
  intros o' Hc' Hid. apply completion_idle; [done|]. intros cur' Hcur'. rewrite Heq, Hid in Hcur'.
  assert (rc_repositoryId st = op_id o) as Hst.
  { eapply rs_id, rstep_ok; [|exact Hs]. intros c Hc0. by apply Hok. }
  rewrite Hst, map_get_set, bool_decide_true in Hcur' by done. injection Hcur' as <-. by apply Hn.
Qed.
End Facts.

(** ** The claims *)
Definition empty_store {E} (e : E) : store E := {| repositories := []; store_env := e |}.

Lemma remote_ok_empty dateParse {E} (e : E) : remote_ok dateParse (empty_store e).
Proof. split; [apply map_wf_nil|done]. Qed.

(** after any operations, returning or throwing, with any listeners: every
    stored state is filed under its own repository; a recovery is only
    unresolved while the connection is indeterminate or being checked; an
    online connection has no recovery and no failure; incoming data is only
    fresh on an online or checked connection, with the time of the last
    successful check; an indeterminate connection has a failure and stale
    incoming data; and a recovery attempt never reuses the operation it
    recovers. *)
Theorem remote_invariant dateParse {E} (listeners : list (RemoteConnectionState -> method E unit)) (e : E) ops :
  remote_ok dateParse (run_all dateParse listeners ops (empty_store e)).
Proof. apply run_all_ok, remote_ok_empty. Qed.

(** C36: Once a working copy waits for a recovery, it waits for the recovery of the
    same operation until a recovery attempt that was begun for it is reported safe,
    whatever operations of the store come in between other than a state reported
    by the daemon ([applyDaemonState], which may reset it) and the unregistration
    of the repository: a new epoch, other completions, failed attempts and throwing
    listeners keep it.  And while it waits no check can begin. *)
Theorem recovery_not_forgotten dateParse {E} (listeners : list (RemoteConnectionState -> method E unit)) (e : E)
    history ops id cur origin :
  let s := run_all dateParse listeners history (empty_store e) in
  map_get (repositories s) id = Some cur -> pending origin cur ->
  Forall (fun o => isDaemon o = false /\ o <> Unregister id) ops ->
  let s' := run_all dateParse listeners ops s in
  (exists st, map_get (repositories s') id = Some st /\ pending origin st /\
     forall ep o at_, exists err, beginCheck dateParse listeners id ep o at_ s' = (Throw err, s')) \/
  (exists before o after st, ops = (before ++ o :: after)%list /\ op_id o = id /\
     map_get (repositories (run_all dateParse listeners before s)) id = Some st /\ recovers o st origin).
Proof.
  intros s Hcur Hp Hops s'.
  destruct (pending_run dateParse listeners ops s id cur origin) as [(st & Hst & Hpst)|H]; try done.
  - apply run_all_ok, remote_ok_empty.
  - left. exists st. split_and!; [done|done|]. intros ep o at_. by eapply pending_refuses_check.
  - by right.
Qed.

(** a completion (of a check or of a recovery) either changes nothing, store
    and listeners included, or the repository was waiting for exactly that
    operation in that epoch; and then no later completion for the repository
    has an effect, until a new operation begins. *)
Theorem completion_once dateParse {E} (listeners : list (RemoteConnectionState -> method E unit)) (e : E) history o :
  let s := run_all dateParse listeners history (empty_store e) in
  isCompletion o = true ->
  run dateParse listeners o s = s \/
  (exists cur, map_get (repositories s) (op_id o) = Some cur /\ awaits o cur) /\
  (forall o', isCompletion o' = true -> op_id o' = op_id o ->
     run dateParse listeners o' (run dateParse listeners o s) = run dateParse listeners o s).
Proof. intros s Hc. apply completion_cases; [apply run_all_ok, remote_ok_empty|done]. Qed.

(** A failure as the wire and as the store's callers write it. *)
Definition encode_failure (category : string) (f : NativeRemoteFailure) : js_value :=
  VObj [("category", VStr category); ("reason", VStr (name_of (failure_reason f)));
        ("cleanupAppropriate", VBool (failure_cleanupAppropriate f))].

(** the two readers of failures agree: what [parseWireRemoteFailure] accepts
    is a failure with the category its reason demands, the wire form of that
    failure is accepted and gives it back, and so does the form the store
    validates in [completeFailure]. *)
Theorem wire_failure_exact raw f :
  parseWireRemoteFailure raw = Ok f ->
  failure_category f = categoryForReason (failure_reason f) /\
  parseWireRemoteFailure (Some (encode_failure (WIRE_CATEGORY_BY_REASON (failure_reason f)) f)) = Ok f /\
  validateNativeRemoteFailure (Some (encode_failure (name_of (failure_category f)) f)) = Ok f.
Proof.
  unfold parseWireRemoteFailure at 1. intros H. apply bind_ok in H as (v & _ & H).
  repeat case_match; simplify_eq. split; [done|]. cbn [failure_reason failure_cleanupAppropriate failure_category].
  destruct n; split; vm_compute; done.
Qed.
