(* ===== verification/RemoteNotifications.v ===== *)
(** status/remoteConnectionNotificationHandler.ts: the daemon's reports on a
    connection, parsed and applied; the parser accepts exactly the encodings of
    valid reports, and what a report does.

    Parameters: the listeners of the store, the presenter and listeners of the
    projection, the clock and the recovery scheduler ([scheduleRecovery] starts
    an asynchronous run; only its start is an effect of the handler). *)

From Stdlib Require Import ZArith Ascii String List Lia.
From stdpp Require Import base option list strings.
From S2P Require Import Prelude JsString JsMap JsValue RemoteTypes ProjectionService RemoteState RemoteStateFacts.

Import RemoteConnectionStateStore.
Local Open Scope string_scope.

Record RemoteConnectionNotification := {
  note_repositoryId : string;
  note_epoch : Z;
  note_state : DaemonRemoteConnectionState;
}.

Definition invalid (f : string) : js_error :=
  StructuredError "RemoteConnectionNotificationError" "SUBVERSIONR_REMOTE_CONNECTION_NOTIFICATION_INVALID" "protocol"
    "error.remote.connectionNotificationInvalid" [("field", ArgString f)].

Definition record_ (value : option js_value) (f : string) : result js_value :=
  match value with Some (VObj fields) => Ok (VObj fields) | _ => Throw (invalid f) end.

Definition exact (value : js_value) (expected : list string) (f : string) : result unit :=
  require (bool_decide (sorted_keys value = join (sort compareText expected) ",")) (invalid f).

(** The allowed strings are the names of the union [A]. *)
Definition enumValue {A} `{Named A} (value : option js_value) (f : string) : result A :=
  match value with
  | Some (VStr s) => match of_name s with Some a => Ok a | None => Throw (invalid f) end
  | _ => Throw (invalid f)
  end.

Definition uuid (value : option js_value) (f : string) : result string :=
  match value with
  | Some (VStr s) => if isCanonicalUuid s then Ok s else Throw (invalid f)
  | _ => Throw (invalid f)
  end.

Section Parser.
Variable dateParse : string -> option Z.

Definition timestamp (value : option js_value) (f : string) : result string :=
  match value with
  | Some (VStr s) => if isTimestamp dateParse s then Ok s else Throw (invalid f)
  | _ => Throw (invalid f)
  end.

Definition boolean (value : option js_value) (f : string) : result bool :=
  match value with Some (VBool b) => Ok b | _ => Throw (invalid f) end.

Definition parseState (raw : option js_value) : result DaemonRemoteConnectionState :=
  state ← record_ raw "state";
  match field state "kind" with
  | Some (VStr kind) =>
    if bool_decide (kind = "unchecked") then
      _ ← exact state ["kind"] "state"; Ok DUnchecked
    else if bool_decide (kind = "checking") then
      _ ← exact state ["kind"; "operationId"; "startedAt"] "state";
      operationId ← uuid (field state "operationId") "operationId";
      startedAt ← timestamp (field state "startedAt") "startedAt";
      Ok (DChecking operationId startedAt)
    else if bool_decide (kind = "online") then
      _ ← exact state ["kind"; "transport"; "checkedAt"] "state";
      transport ← enumValue (field state "transport") "transport";
      checkedAt ← timestamp (field state "checkedAt") "checkedAt";
      Ok (DOnline transport checkedAt)
    else if bool_decide (kind = "attention") then
      _ ← exact state ["kind"; "reason"] "state";
      reason ← enumValue (field state "reason") "reason";
      Ok (DAttention reason)
    else if bool_decide (kind = "unreachable") then
      _ ← exact state ["kind"; "reason"] "state";
      reason ← enumValue (field state "reason") "reason";
      Ok (DUnreachable reason)
    else if bool_decide (kind = "indeterminate") then
      _ ← exact state ["kind"; "reason"; "originOperationId"; "recovery"; "cleanupAppropriate"] "state";
      cleanup ← boolean (field state "cleanupAppropriate") "cleanupAppropriate";
      reason ← enumValue (field state "reason") "reason";
      origin ← uuid (field state "originOperationId") "originOperationId";
      recovery ← enumValue (field state "recovery") "recovery";
      Ok (DIndeterminate reason origin recovery cleanup)
    else Throw (invalid "kind")
  | _ => Throw (invalid "kind")
  end.

Definition parseRemoteConnectionStateNotification (params : option js_value) : result RemoteConnectionNotification :=
  value ← record_ params "params";
  _ ← exact value ["repositoryId"; "epoch"; "state"] "params";
  repositoryId ← match field value "repositoryId" with
                 | Some (VStr s) => if isNonEmptyString s then Ok s else Throw (invalid "repositoryId")
                 | _ => Throw (invalid "repositoryId")
                 end;
  epoch ← match field value "epoch" with
          | Some (VNum (NumInt z)) => if isNonNegativeSafeInteger z then Ok z else Throw (invalid "epoch")
          | _ => Throw (invalid "epoch")
          end;
  state ← parseState (field value "state");
  Ok {| note_repositoryId := repositoryId; note_epoch := epoch; note_state := state |}.
End Parser.

Section Handler.
Variable dateParse : string -> option Z.
Variable localeCompareEn localeCompare : string -> string -> comparison.
Context {L E C : Type}.
Variable listeners : list (RemoteConnectionState -> method L unit).
Variable env : SourceControlProjectionService.Environment E.
Variable now : method C string.
Variable scheduleRecovery : string -> Z -> method C unit.

(** The objects of the handler's options; [clock] is the state of [now] and
    [scheduleRecovery]. *)
Record remote_app := {
  remoteStore : store L;
  projection : SourceControlProjectionService.service E;
  clock : C;
}.

Definition on_remote {A} (m : method (store L) A) : method remote_app A :=
  on_part remoteStore (fun s t => {| remoteStore := t; projection := projection s; clock := clock s |}) m.
Definition on_service {A} (m : method (SourceControlProjectionService.service E) A) : method remote_app A :=
  on_part projection (fun s t => {| remoteStore := remoteStore s; projection := t; clock := clock s |}) m.
Definition on_clock {A} (m : method C A) : method remote_app A :=
  on_part clock (fun s t => {| remoteStore := remoteStore s; projection := projection s; clock := t |}) m.

Definition recoveryUnderWay (previous : option RemoteConnectionState) : bool :=
  match previous with
  | Some st => match rc_recovery st with RecoveryChecking _ _ _ _ => true | _ => false end
  | None => false
  end.

Definition asksForRecovery (state : DaemonRemoteConnectionState) : bool :=
  match state with DIndeterminate _ _ RecPending _ => true | _ => false end.

(** The function [createRemoteConnectionNotificationHandler] returns. *)
Definition handleRemoteNotification (notification : string) (params : option js_value) : method remote_app bool :=
  if negb (bool_decide (notification = "remoteConnection/state")) then mret false
  else
    note ← lift_result (parseRemoteConnectionStateNotification dateParse params);
    previous ← on_remote (getState (note_repositoryId note));
    receivedAt ← on_clock now;
    outcome ← on_remote (applyDaemonState dateParse listeners (note_repositoryId note) (note_epoch note)
      (note_state note) receivedAt);
    match applied outcome, applied_state outcome with
    | true, Some state =>
        _ ← on_service (SourceControlProjectionService.updateRemoteConnectionState localeCompareEn localeCompare env state);
        _ ← (if asksForRecovery (note_state note) && negb (recoveryUnderWay previous)
             then on_clock (scheduleRecovery (note_repositoryId note) (note_epoch note))
             else mret tt);
        mret true
    | _, _ => mret true
    end.
End Handler.
Arguments remote_app : clear implicits.

Import RemoteConnectionStateStore.
Local Open Scope string_scope.

(** ** Valid reports and their encoding *)
Definition daemon_ok (dateParse : string -> option Z) (d : DaemonRemoteConnectionState) : Prop :=
  match d with
  | DChecking o at_ => isCanonicalUuid o = true /\ isTimestamp dateParse at_ = true
  | DOnline _ at_ => isTimestamp dateParse at_ = true
  | DIndeterminate _ o _ _ => isCanonicalUuid o = true
  | _ => True
  end.

Definition note_ok (dateParse : string -> option Z) (n : RemoteConnectionNotification) : Prop :=
  isNonEmptyString (note_repositoryId n) = true /\ isNonNegativeSafeInteger (note_epoch n) = true /\
  daemon_ok dateParse (note_state n).

Definition encode_daemon (d : DaemonRemoteConnectionState) : js_value :=
  match d with
  | DUnchecked => VObj [("kind", VStr "unchecked")]
  | DChecking o at_ => VObj [("kind", VStr "checking"); ("operationId", VStr o); ("startedAt", VStr at_)]
  | DOnline t at_ => VObj [("kind", VStr "online"); ("transport", VStr (name_of t)); ("checkedAt", VStr at_)]
  | DAttention r => VObj [("kind", VStr "attention"); ("reason", VStr (name_of r))]
  | DUnreachable r => VObj [("kind", VStr "unreachable"); ("reason", VStr (name_of r))]
  | DIndeterminate r o recovery cleanup =>
      VObj [("kind", VStr "indeterminate"); ("reason", VStr (name_of r)); ("originOperationId", VStr o);
            ("recovery", VStr (name_of recovery)); ("cleanupAppropriate", VBool cleanup)]
  end.

Definition encode_note (n : RemoteConnectionNotification) : js_value :=
  VObj [("repositoryId", VStr (note_repositoryId n)); ("epoch", VNum (NumInt (note_epoch n)));
        ("state", encode_daemon (note_state n))].

Section Parser.
Variable dateParse : string -> option Z.

Lemma uuid_ok v f s : uuid v f = Ok s <-> v = Some (VStr s) /\ isCanonicalUuid s = true.
Proof.
  unfold uuid. destruct v as [[]|]; try (split; [done|by intros [? _]]).
  destruct (isCanonicalUuid s0) eqn:E; split; intros; naive_solver congruence.
Qed.

Lemma timestamp_ok v f s : timestamp dateParse v f = Ok s <-> v = Some (VStr s) /\ isTimestamp dateParse s = true.
Proof.
  unfold timestamp. destruct v as [[]|]; try (split; [done|by intros [? _]]).
  destruct (isTimestamp dateParse s0) eqn:E; split; intros; naive_solver congruence.
Qed.

Lemma enumValue_name {A} `{Named A} (a : A) f : enumValue (Some (VStr (name_of a))) f = Ok a.
Proof. unfold enumValue. by rewrite (proj2 (of_name_spec _ a) eq_refl). Qed.

Lemma parseState_ok raw d : parseState dateParse raw = Ok d -> daemon_ok dateParse d.
Proof.
  unfold parseState. intros H. apply bind_ok in H as (v & _ & H).
  destruct (field v "kind") as [[| | |kind| |]|]; try done.
  repeat (case_bool_decide; [|]); try done;
    repeat match goal with
    | H : (_ ← _; _) = Ok _ |- _ => apply bind_ok in H as (? & ? & H)
    | H : uuid _ _ = Ok _ |- _ => apply uuid_ok in H as [? ?]
    | H : timestamp _ _ _ = Ok _ |- _ => apply timestamp_ok in H as [? ?]
    end; simplify_eq; done.
Qed.

Ltac note_step :=
  apply bind_ok; eexists; split;
    [match goal with
     | |- record_ _ _ = _ => reflexivity
     | |- exact _ _ _ = _ => vm_compute; reflexivity
     | |- uuid _ _ = _ => apply uuid_ok; split; [reflexivity|eassumption]
     | |- timestamp _ _ _ = _ => apply timestamp_ok; split; [reflexivity|eassumption]
     | |- boolean _ _ = _ => reflexivity
     | _ => apply enumValue_name
     end|].

Lemma parseState_encode d : daemon_ok dateParse d -> parseState dateParse (Some (encode_daemon d)) = Ok d.
Proof.
  intros Hok. unfold parseState. apply bind_ok. exists (encode_daemon d). split; [by destruct d|].
  destruct d; cbn beta; cbn [daemon_ok encode_daemon] in *; try match type of Hok with _ /\ _ => destruct Hok as [Ho Ht] end;
    match goal with |- context [field ?v "kind"] => let r := eval cbv in (field v "kind") in change (field v "kind") with r end;
    cbn iota; repeat (rewrite bool_decide_false by done); rewrite bool_decide_true by done; repeat note_step; reflexivity.
Qed.

Lemma parse_note_ok raw n : parseRemoteConnectionStateNotification dateParse raw = Ok n -> note_ok dateParse n.
Proof.
  unfold parseRemoteConnectionStateNotification. intros H.
  apply bind_ok in H as (v & _ & H). apply bind_ok in H as ([] & _ & H). apply bind_ok in H as (id & Hid & H).
  apply bind_ok in H as (ep & Hep & H). apply bind_ok in H as (st & Hst%parseState_ok & [= <-]).
  split_and!; cbn; [| |done].
  - destruct (field v "repositoryId") as [[| | |s| |]|]; try done. destruct (isNonEmptyString s) eqn:E; by simplify_eq.
  - destruct (field v "epoch") as [[| |[z|? ?]| | |]|]; try done. destruct (isNonNegativeSafeInteger z) eqn:E; by simplify_eq.
Qed.

Lemma parse_note_encode n :
  note_ok dateParse n -> parseRemoteConnectionStateNotification dateParse (Some (encode_note n)) = Ok n.
Proof.
  intros (Hid & Hep & Hst). unfold parseRemoteConnectionStateNotification. do 2 note_step.
  apply bind_ok. exists (note_repositoryId n). split.
  { change (field _ _) with (Some (VStr (note_repositoryId n))). cbn iota. by rewrite Hid. }
  apply bind_ok. exists (note_epoch n). split.
  { change (field _ _) with (Some (VNum (NumInt (note_epoch n)))). cbn iota. by rewrite Hep. }
  apply bind_ok. exists (note_state n). split; [by apply parseState_encode|]. by destruct n.
Qed.
End Parser.

(** ** The handler

    The scheduler keeps the list of the recoveries it was asked for; the clock
    reads [at_]. *)
Section Handler.
Variable dateParse : string -> option Z.
Variable localeCompareEn localeCompare : string -> string -> comparison.
Context {L E : Type}.
Variable listeners : list (RemoteConnectionState -> method L unit).
Variable env : SourceControlProjectionService.Environment E.
Variable at_ : string.

Definition asked := list (string * Z).
Definition read_clock : method asked string := mret at_.
Definition schedule (id : string) (epoch : Z) : method asked unit := modify_state (fun l => (id, epoch) :: l).
Notation handle := (handleRemoteNotification dateParse localeCompareEn localeCompare listeners env read_clock schedule).
Notation app := (remote_app L E asked).

(** The store the report leaves, and what the handler learns of it. *)
Definition reported (n : RemoteConnectionNotification) (a : app) :=
  applyDaemonState dateParse listeners (note_repositoryId n) (note_epoch n) (note_state n) at_ (remoteStore a).
Definition due (n : RemoteConnectionNotification) (a : app) : bool :=
  asksForRecovery (note_state n) &&
  negb (recoveryUnderWay (map_get (repositories (remoteStore a)) (note_repositoryId n))).

Lemma service_keeps state (s : SourceControlProjectionService.service E) :
  SourceControlProjectionService.svc_store
    (snd (SourceControlProjectionService.updateRemoteConnectionState localeCompareEn localeCompare env state s)) =
  SourceControlProjectionService.svc_store s.
Proof.
  set (P := fun s' : SourceControlProjectionService.service E =>
    SourceControlProjectionService.svc_store s' = SourceControlProjectionService.svc_store s).
  assert (forall A (m : method E A), triple P (SourceControlProjectionService.on_env m) (fun _ => P) (fun _ => P)) as Henv.
  { intros A m. by apply triple_part. }
  assert (triple P (SourceControlProjectionService.updateRemoteConnectionState localeCompareEn localeCompare env state)
    (fun _ => P) (fun _ => P)) as H.
  { eapply (triple_bind _ _ _ (fun _ => P)).
    - intros s' Hs'. unfold SourceControlProjectionService.getProjection, get_state, mbind, method_bind, lift_result, mret, method_ret.
      by destruct (ScmResources.SourceControlResourceStore.getProjection _ _ _ _) as [[?|?]|].
    - intros [p|]; [|by apply triple_throw]. destruct (negb _); [by apply triple_throw|].
      eapply (triple_bind _ _ _ (fun _ => P)); [apply Henv|]. intros _.
      apply triple_for_each. intros l. apply Henv. }
  specialize (H s eq_refl). by destruct (SourceControlProjectionService.updateRemoteConnectionState _ _ _ _ s) as [[?|?] s'].
Qed.

Ltac settle := split_and!; try done; try (by left); try (right; by eauto); intros; simplify_eq/=; try done.

(** Everything the handler does to a report it can read. *)
Lemma handle_report params n a out a' :
  parseRemoteConnectionStateNotification dateParse params = Ok n ->
  handle "remoteConnection/state" params a = (out, a') ->
  remoteStore a' = snd (reported n a) /\
  SourceControlProjectionService.svc_store (projection a') = SourceControlProjectionService.svc_store (projection a) /\
  (clock a' = clock a \/ clock a' = (note_repositoryId n, note_epoch n) :: clock a /\ due n a = true /\
     exists st, fst (reported n a) = Ok {| applied := true; applied_state := Some st |}) /\
  (forall st, fst (reported n a) = Ok {| applied := true; applied_state := Some st |} -> due n a = true ->
     out = Ok true -> clock a' = (note_repositoryId n, note_epoch n) :: clock a) /\
  (forall err, fst (reported n a) = Throw err -> out = Throw err).
Proof.
  intros Hp. unfold handleRemoteNotification. rewrite bool_decide_true by done. cbn [negb].
  rewrite Hp. rewrite (method_bind_ok (lift_result (Ok n)) _ a n a eq_refl).
  destruct a as [st0 svc clk].
  rewrite (method_bind_ok (on_remote (getState (note_repositoryId n))) _ _
    (map_get (repositories st0) (note_repositoryId n)) {| remoteStore := st0; projection := svc; clock := clk |}) by reflexivity.
  rewrite (method_bind_ok (on_clock read_clock) _ _ at_ {| remoteStore := st0; projection := svc; clock := clk |}) by reflexivity.
  unfold reported, due. cbn [remoteStore projection clock]. set (d := asksForRecovery _ && _). clearbody d.
  set (r := applyDaemonState dateParse listeners (note_repositoryId n) (note_epoch n) (note_state n) at_ st0).
  unfold mbind at 1, method_bind at 1, on_remote, on_part. cbn [remoteStore projection clock]. fold r. clearbody r.
  destruct r as [[[[] [st|]]|e] st1]; cbn [snd fst applied applied_state];
    try (solve [intros [= <- <-]; cbn; settle]).
  pose proof (service_keeps st svc) as Hkeep.
  unfold on_service, on_part, mbind at 1, method_bind at 1. cbn [remoteStore projection clock].
  destruct (SourceControlProjectionService.updateRemoteConnectionState _ _ _ st svc) as [[[]|e] svc'];
    [|intros [= <- <-]; cbn in *; settle].
  destruct d; intros [= <- <-]; cbn in *; settle.
Qed.

Definition due_state (n : RemoteConnectionNotification) (origin : string) (st : RemoteConnectionState) : Prop :=
  rc_repositoryId st = note_repositoryId n /\ (exists r, rc_kind st = Indeterminate r) /\ rc_recovery st = Required origin at_.

Lemma reported_due n a :
  due n a = true -> exists reason origin cleanup, note_state n = DIndeterminate reason origin RecPending cleanup /\
    forall out s', reported n a = (out, s') ->
    match map_get (repositories (remoteStore a)) (note_repositoryId n) with
    | Some cur => if (rc_epoch cur =? note_epoch n)%Z
        then (exists err, out = Throw err) \/
             exists st, out = Ok {| applied := true; applied_state := Some st |} /\ due_state n origin st /\
               map_get (repositories s') (note_repositoryId n) = Some st
        else forall st, out <> Ok {| applied := true; applied_state := Some st |}
    | None => forall st, out <> Ok {| applied := true; applied_state := Some st |}
    end.
Proof using Type.
  clear localeCompareEn localeCompare. unfold due. intros [Ha Hu]%andb_prop. destruct (note_state n) as [| | | | |reason origin [] cleanup] eqn:Hn; try done.
  exists reason, origin, cleanup. split; [done|]. intros out s'. unfold reported. rewrite Hn. unfold applyDaemonState.
  destruct (validateTimestamp dateParse at_ "receivedAt") as [[]|e]; cbn [lift_result].
  2: { intros [= <- <-]. repeat case_match; naive_solver. }
  rewrite (method_bind_ok (lift_result (Ok tt)) _ _ tt _ eq_refl).
  unfold currentRepository, mbind at 1 2, method_bind at 1 2, get_state, mret at 1, method_ret at 1. cbn beta iota.
  destruct (map_get (repositories (remoteStore a)) (note_repositoryId n)) as [cur|] eqn:Hc; [|by intros [= <- <-]].
  destruct (rc_epoch cur =? note_epoch n)%Z; [|by intros [= <- <-]]. cbn [recoveryUnderWay] in Hu.
  set (st := {| rc_kind := Indeterminate reason |}). intros H.
  assert (rc_recovery st = Required origin at_) as Hrec by (cbn; by destruct (rc_recovery cur)).
  pose proof (update_repositories listeners st (remoteStore a)) as Hup.
  unfold apply, mbind, method_bind in H. destruct (update listeners st (remoteStore a)) as [[st'|e] s1] eqn:Hu'; [|by left; naive_solver].
  assert (st' = st) as ->.
  { unfold update, modify_state, mbind, method_bind, mret, method_ret in Hu'. by repeat case_match; simplify_eq. }
  injection H as <- <-. right. exists st. cbn in Hup. split_and!; [done| |by rewrite Hup, map_get_set_eq].
  split_and!; [done|by eexists|done].
Qed.
End Handler.

(** ** The claims *)

(** the parser of connection reports accepts exactly the valid ones: what it
    returns is valid, and a report is given back from its encoding exactly when
    it is valid (a named repository, a safe epoch, canonical operation ids and
    timestamps, members of the protocol's unions). *)
Theorem remote_notification_exact dateParse :
  (forall raw n, parseRemoteConnectionStateNotification dateParse raw = Ok n -> note_ok dateParse n) /\
  (forall n, parseRemoteConnectionStateNotification dateParse (Some (encode_note n)) = Ok n <-> note_ok dateParse n).
Proof.
  split; [apply parse_note_ok|]. intros n. split; [apply parse_note_ok|apply parse_note_encode].
Qed.

(** A report of the daemon keeps the invariant of the connection store and
    does not touch the projection's data, whatever listeners and presenter do.
    A recovery is only scheduled when the daemon reports one pending and none
    is under way; the store then waits for the recovery of the reported
    operation, so [beginRecovery] can start it.  And when the handler returns,
    every such report of a repository registered at its epoch has scheduled one. *)
Theorem recovery_scheduled dateParse localeCompareEn localeCompare {L E}
    (listeners : list (RemoteConnectionState -> method L unit)) (env : SourceControlProjectionService.Environment E)
    at_ params n (a : remote_app L E asked) out a' :
  remote_ok dateParse (remoteStore a) ->
  parseRemoteConnectionStateNotification dateParse params = Ok n ->
  handleRemoteNotification dateParse localeCompareEn localeCompare listeners env (read_clock at_) schedule
    "remoteConnection/state" params a = (out, a') ->
  let id := note_repositoryId n in
  remote_ok dateParse (remoteStore a') /\
  SourceControlProjectionService.svc_store (projection a') = SourceControlProjectionService.svc_store (projection a) /\
  (clock a' = clock a \/
   clock a' = (id, note_epoch n) :: clock a /\ due n a = true /\
   exists reason origin cleanup st, note_state n = DIndeterminate reason origin RecPending cleanup /\
     map_get (repositories (remoteStore a')) id = Some st /\ pending origin st /\ rc_recovery st = Required origin at_) /\
  (forall cur, out = Ok true -> map_get (repositories (remoteStore a)) id = Some cur -> rc_epoch cur = note_epoch n ->
     due n a = true -> clock a' = (id, note_epoch n) :: clock a).
Proof.
  intros Hok Hp Hh id. destruct (handle_report _ _ _ _ _ _ _ _ _ _ _ Hp Hh) as (Hs & Hsvc & Hclock & Hdue & Hthrow).
  destruct (reported dateParse listeners at_ n a) as [r s'] eqn:Hr. cbn in *.
  split_and!; [|done| |].
  - rewrite Hs. pose proof (run_remote_ok dateParse listeners (Daemon id (note_epoch n) (note_state n) at_) _ Hok) as H.
    cbn in H. unfold reported in Hr. subst id. by rewrite Hr in H.
  - destruct Hclock as [->|(Hc & Hd & st & ->)]; [by left|]. right. split; [done|]. split; [done|].
    destruct (reported_due dateParse listeners at_ n a Hd) as (reason & origin & cleanup & Hn & H).
    specialize (H _ _ Hr). destruct (map_get (repositories (remoteStore a)) (note_repositoryId n)) as [cur|]; [|by destruct (H st)].
    destruct (rc_epoch cur =? note_epoch n)%Z; [|by destruct (H st)].
    destruct H as [[? ?]|(st' & _ & (_ & Hk & Hrec) & Hget)]; [done|].
    exists reason, origin, cleanup, st'. rewrite Hs. unfold pending. by rewrite Hrec.
  - intros cur -> Hcur He Hd. destruct (reported_due dateParse listeners at_ n a Hd) as (reason & origin & cleanup & Hn & H).
    specialize (H _ _ Hr). subst id. rewrite Hcur, He, Z.eqb_refl in H. destruct H as [[err Herr]|(st & Hst & _)].
    + by specialize (Hthrow _ Herr).
    + by eapply Hdue.
Qed.
