(* ===== verification/CoverageStore.v ===== *)
(** status/statusRefreshCoverageStore.ts: the refreshes completed for each
    repository, the last 32 of them. *)

From Stdlib Require Import ZArith Lia String List.
From stdpp Require Import base option list strings.
From S2P Require Import Prelude JsString JsMap StatusTypes.

Local Open Scope string_scope.

Module StatusRefreshCoverageStore.

(** [CompletedStatusRefreshCoverage] of statusRefreshScheduler.ts. *)
Record CompletedStatusRefreshCoverage := {
  done_repositoryId : string;
  done_epoch : Z;
  done_generation : Z;
  done_targets : list StatusRefreshTarget;
  done_coverage : list StatusCoverageScope;
  done_completeness : StatusSnapshotCompleteness;
  done_timestamp : string;
  done_source : string;
}.

Definition MAX_COMPLETED_REFRESH_RECORDS_PER_REPOSITORY : nat := 32.

(** [records]; each array oldest first. *)
Definition store := list (string * list CompletedStatusRefreshCoverage).

(** [records.splice(0, n)] *)
Definition recordCompletedStatusRefreshCoverage (record : CompletedStatusRefreshCoverage) (s : store) : store :=
  let records := (default [] (map_get s (done_repositoryId record)) ++ [record])%list in
  let records :=
    if (MAX_COMPLETED_REFRESH_RECORDS_PER_REPOSITORY <? length records)%nat
    then List.skipn (length records - MAX_COMPLETED_REFRESH_RECORDS_PER_REPOSITORY) records
    else records in
  map_set s (done_repositoryId record) records.

(** The loop of [findLastRecord], from index [length - 1] down to 0. *)
Fixpoint findLast_from (records : list CompletedStatusRefreshCoverage) (predicate : CompletedStatusRefreshCoverage -> bool)
    (index : nat) : option CompletedStatusRefreshCoverage :=
  match index with
  | 0 => None
  | S i =>
      match records !! i with
      | Some record => if predicate record then Some record else findLast_from records predicate i
      | None => findLast_from records predicate i
      end
  end.

Definition findLastRecord (records : option (list CompletedStatusRefreshCoverage))
    (predicate : CompletedStatusRefreshCoverage -> bool) : option CompletedStatusRefreshCoverage :=
  match records with
  | None => None
  | Some records => findLast_from records predicate (length records)
  end.

Definition getLastCompletedRefresh (s : store) (repositoryId : string) (epoch : Z) : option CompletedStatusRefreshCoverage :=
  findLastRecord (map_get s repositoryId) (fun candidate => (done_epoch candidate =? epoch)%Z).

Definition matchesTarget (epoch : Z) (target : StatusRefreshTarget) (candidate : CompletedStatusRefreshCoverage) : bool :=
  (done_epoch candidate =? epoch)%Z &&
  existsb (fun t => bool_decide (target_path t = target_path target) && bool_decide (target_depth t = target_depth target)
                    && bool_decide (target_reason t = target_reason target)) (done_targets candidate).

Definition getLastCompletedRefreshMatchingTarget (s : store) (repositoryId : string) (epoch : Z)
    (target : StatusRefreshTarget) : option CompletedStatusRefreshCoverage :=
  findLastRecord (map_get s repositoryId) (matchesTarget epoch target).

End StatusRefreshCoverageStore.

(** ** The store against the history of completed refreshes *)
Import StatusRefreshCoverageStore.

(** The last [n] elements. *)
Definition lastn {A} (n : nat) (l : list A) : list A := List.skipn (length l - n) l.

Lemma lastn_snoc {A} n (l : list A) x : (0 < n)%nat ->
  lastn n (lastn n l ++ [x])%list = lastn n (l ++ [x])%list.
Proof.
  intros Hn. unfold lastn. rewrite !List.length_app, length_skipn. cbn [length].
  destruct (decide (length l <= n)%nat) as [Hle|Hgt].
  - replace (length l - n)%nat with 0%nat by lia. cbn [List.skipn].
    by replace (length l - 0 + 1 - n)%nat with (length l + 1 - n)%nat by lia.
  - replace (length l - (length l - n) + 1 - n)%nat with 1%nat by lia.
    replace (length l + 1 - n)%nat with (1 + (length l - n))%nat by lia.
    rewrite <- List.skipn_skipn. f_equal. rewrite List.skipn_app.
    by replace (length l - n - length l)%nat with 0%nat by lia.
Qed.

(** What was recorded for a repository, oldest first. *)
Definition recorded (history : list CompletedStatusRefreshCoverage) (id : string) : list CompletedStatusRefreshCoverage :=
  List.filter (fun r => bool_decide (done_repositoryId r = id)) history.

Definition store_of (history : list CompletedStatusRefreshCoverage) : store :=
  fold_left (fun s r => recordCompletedStatusRefreshCoverage r s) history [].

Lemma store_of_get history id :
  default [] (map_get (store_of history) id) = lastn 32 (recorded history id).
Proof.
  unfold store_of. induction history as [|r history IH] using rev_ind; [done|].
  rewrite fold_left_app. cbn [fold_left]. unfold recorded in *. rewrite List.filter_app. cbn [List.filter].
  unfold recordCompletedStatusRefreshCoverage at 1. rewrite map_get_set.
  destruct (bool_decide_reflect (done_repositoryId r = id)) as [<-|]; [|by rewrite List.app_nil_r].
  rewrite IH, <- lastn_snoc by lia. cbn [default]. unfold MAX_COMPLETED_REFRESH_RECORDS_PER_REPOSITORY.
  set (l := (lastn 32 _ ++ [r])%list). change (lastn 32 l) with (List.skipn (length l - 32) l). destruct (Nat.ltb_spec 32 (length l)); [done|].
  by replace (length l - 32)%nat with 0%nat by lia.
Qed.

(** The last element of a list that satisfies a predicate. *)
Definition last_match {A} (p : A -> bool) (l : list A) : option A := head (List.filter p (rev l)).

Lemma findLast_from_spec l p n : (n <= length l)%nat ->
  findLast_from l p n = last_match p (firstn n l).
Proof.
  unfold last_match. induction n as [|n IH]; intros Hn; [done|]. cbn [findLast_from].
  destruct (lookup_lt_is_Some_2 l n) as [r Hr]; [lia|]. rewrite Hr.
  rewrite (take_S_r l n r Hr). rewrite rev_app_distr. cbn. destruct (p r); [done|]. apply IH. lia.
Qed.

(** the store answers from the last 32 refreshes completed for the
    repository: it keeps exactly those, and each lookup gives the most recent
    one of them that fits (the epoch, and the target where one is asked for). *)
Theorem coverage_answers history id epoch target :
  let kept := lastn 32 (recorded history id) in
  default [] (map_get (store_of history) id) = kept /\ (length kept <= 32)%nat /\
  getLastCompletedRefresh (store_of history) id epoch = last_match (fun r => (done_epoch r =? epoch)%Z) kept /\
  getLastCompletedRefreshMatchingTarget (store_of history) id epoch target = last_match (matchesTarget epoch target) kept.
Proof.
  intros kept. pose proof (store_of_get history id) as Hget.
  assert (forall p, findLastRecord (map_get (store_of history) id) p = last_match p kept) as Hfind.
  { intros p. subst kept. rewrite <- Hget. unfold findLastRecord.
    destruct (map_get (store_of history) id) as [l|]; [|done]. cbn [default].
    rewrite findLast_from_spec by done. by rewrite firstn_all. }
  split_and!; [done| |apply Hfind|apply Hfind].
  subst kept. unfold lastn. rewrite length_skipn. lia.
Qed.
