(* ===== verification/WriteQueue.v ===== *)
(** transport/orderedWriteQueue.ts: frames written to a stream one after the
    other, each with a promise.

    The stream is node's: a state [W] and a method [write] that says what a call
    returns or throws and which errors it emits before it returns (a close is
    the error the handler makes of it; a drain emitted then finds
    [waitingForDrain] false and is ignored).  Promises are numbered by the
    order of the calls of [write]; the queue's log keeps how each was settled,
    what was handed to the stream and what was reported to [onTerminalError].
    Frames are of any type: the queue does not look at them. *)

From Stdlib Require Import ZArith Lia String List.
From stdpp Require Import base option list strings.
From S2P Require Import Prelude.

Local Open Scope string_scope.

Module OrderedWriteQueue.

Record answer := {
  emitted : list js_error;
  returned : result bool;
}.

Section Queue.
Context {F W : Type} (stream_write : F -> W -> answer * W).

Record QueuedWrite := {
  item_promise : nat;
  item_frame : F;
}.

Record queue := {
  queued : list QueuedWrite;
  active : bool;
  waitingForDrain : bool;
  terminalError : option js_error;
  writable : W;
  (* the log *)
  issued : list F;
  handed : list F;
  settled : list (nat * option js_error);
  reported : list js_error;
}.

Definition closedError : js_error := PlainError "JSON-RPC stream closed".
Definition noTerminalError : js_error := PlainError "Ordered write queue stopped without a terminal error".

Definition stop (error : js_error) (s : queue) : queue :=
  {| queued := []; active := false; waitingForDrain := false; terminalError := Some error; writable := writable s;
     issued := issued s; handed := handed s;
     settled := (settled s ++ map (fun item => (item_promise item, Some error)) (queued s))%list;
     reported := reported s |}.

Definition fail (error : js_error) (s : queue) : queue :=
  if negb (active s) then s
  else
    let s := stop error s in
    {| queued := queued s; active := active s; waitingForDrain := waitingForDrain s; terminalError := terminalError s;
       writable := writable s; issued := issued s; handed := handed s; settled := settled s;
       reported := (reported s ++ [error])%list |}.

(** [this.writable.write(item.frame, "utf8")], with the handlers it runs. *)
Definition call_stream (frame : F) (s : queue) : result bool * queue :=
  let (a, w) := stream_write frame (writable s) in
  (returned a,
   fold_left (fun s e => fail e s) (emitted a)
     {| queued := queued s; active := active s; waitingForDrain := waitingForDrain s; terminalError := terminalError s;
        writable := w; issued := issued s; handed := (handed s ++ [frame])%list; settled := settled s; reported := reported s |}).

Definition set_waiting (b : bool) (s : queue) : queue :=
  {| queued := queued s; active := active s; waitingForDrain := b; terminalError := terminalError s;
     writable := writable s; issued := issued s; handed := handed s; settled := settled s; reported := reported s |}.

(** [this.queued.shift()] and the [resolve] of what it gives. *)
Definition resolve_head (s : queue) : queue :=
  match queued s with
  | [] => s
  | item :: rest =>
      {| queued := rest; active := active s; waitingForDrain := waitingForDrain s; terminalError := terminalError s;
         writable := writable s; issued := issued s; handed := handed s;
         settled := (settled s ++ [(item_promise item, None)])%list; reported := reported s |}
  end.

(** The loop; every round that goes on shortens the queue, so its length is
    fuel enough (flush_settles). *)
Fixpoint flush_loop (fuel : nat) (s : queue) : queue :=
  match fuel with
  | 0 => s
  | S fuel =>
      if negb (active s) || waitingForDrain s then s
      else match queued s with
      | [] => s
      | item :: _ =>
          match call_stream (item_frame item) s with
          | (Throw error, s) => fail error s
          | (Ok accepted, s) =>
              if negb (active s) then s
              else if negb accepted then set_waiting true s
              else flush_loop fuel (resolve_head s)
          end
      end
  end.
Definition flush (s : queue) : queue := flush_loop (length (queued s)) s.

Definition write (frame : F) (s : queue) : result unit * queue :=
  let promise := length (issued s) in
  if negb (active s) then
    match terminalError s with
    | None => (Throw noTerminalError, s)
    | Some error =>
        (Ok tt, {| queued := queued s; active := active s; waitingForDrain := waitingForDrain s;
                   terminalError := terminalError s; writable := writable s; issued := (issued s ++ [frame])%list;
                   handed := handed s; settled := (settled s ++ [(promise, Some error)])%list; reported := reported s |})
    end
  else
    (Ok tt, flush {| queued := (queued s ++ [{| item_promise := promise; item_frame := frame |}])%list; active := active s;
                     waitingForDrain := waitingForDrain s; terminalError := terminalError s; writable := writable s;
                     issued := (issued s ++ [frame])%list; handed := handed s; settled := settled s; reported := reported s |}).

Definition dispose (error : js_error) (s : queue) : queue :=
  if negb (active s) then s else stop error s.

Definition handleDrain (s : queue) : queue :=
  if negb (active s) || negb (waitingForDrain s) then s
  else flush (resolve_head (set_waiting false s)).

Definition handleError (error : js_error) (s : queue) : queue := fail error s.
Definition handleClose (s : queue) : queue := fail closedError s.

Definition new_queue (w : W) : queue :=
  {| queued := []; active := true; waitingForDrain := false; terminalError := None; writable := w;
     issued := []; handed := []; settled := []; reported := [] |}.
End Queue.
Arguments queue : clear implicits.
Arguments QueuedWrite : clear implicits.

End OrderedWriteQueue.

Import OrderedWriteQueue.

Inductive event {F : Type} := Write (frame : F) | Drain | ErrorEvent (e : js_error) | Close | Dispose (e : js_error).
Arguments event : clear implicits.

Section Facts.
Context {F W : Type} (stream_write : F -> W -> answer * W).
Implicit Types s : queue F W.

Definition handle (ev : event F) s : queue F W :=
  match ev with
  | Write frame => snd (write stream_write frame s)
  | Drain => handleDrain stream_write s
  | ErrorEvent e => handleError e s
  | Close => handleClose s
  | Dispose e => dispose e s
  end.

Definition outcome (e : option js_error) (ids : list nat) : list (nat * option js_error) := map (fun i => (i, e)) ids.

(** [k] promises are resolved, the first ones; the others are queued in order
    with their frames.  [h] frames were handed over. *)
Record open_queue (s : queue F W) (k h : nat) : Prop := {
  open_active : active s = true;
  open_error : terminalError s = None;
  open_settled : settled s = outcome None (seq 0 k);
  open_promises : map item_promise (queued s) = seq k (length (queued s));
  open_frames : issued s = (firstn k (issued s) ++ map item_frame (queued s))%list;
  open_count : (k + length (queued s) = length (issued s))%nat;
  open_handed : handed s = firstn h (issued s);
  open_reported : reported s = [];
}.

(** The queue is stopped: the first [k] promises are resolved, the others
    rejected with the terminal error. *)
Record closed_queue (s : queue F W) (k h : nat) (e : js_error) : Prop := {
  closed_active : active s = false;
  closed_error : terminalError s = Some e;
  closed_queued : queued s = [];
  closed_settled : settled s = (outcome None (seq 0 k) ++ outcome (Some e) (seq k (length (issued s) - k)))%list;
  closed_count : (k <= length (issued s))%nat;
  closed_handed : handed s = firstn h (issued s);
  closed_bound : (k <= h <= S k)%nat;
  closed_reported : reported s = [] \/ reported s = [e];
}.

Definition queue_ok s : Prop :=
  (exists k, open_queue s k (length (handed s)) /\
     (if waitingForDrain s then queued s <> [] /\ length (handed s) = S k
      else queued s = [] /\ length (handed s) = k)) \/
  (exists k h e, closed_queue s k h e).

Lemma stop_closed e s k h : open_queue s k h -> (k <= h <= S k)%nat -> closed_queue (stop e s) k h e.
Proof.
  intros [Ha He Hs Hp Hf Hc Hh Hr] Hb. split; cbn; try done; [|lia|by left].
  rewrite Hs. f_equal. unfold outcome. rewrite <- Hc. replace (k + length (queued s) - k)%nat with (length (queued s)) by lia.
  rewrite <- Hp, List.map_map. done.
Qed.

Lemma fail_open e s k h : open_queue s k h -> (k <= h <= S k)%nat -> closed_queue (fail e s) k h e.
Proof.
  intros Ho Hb. pose proof (stop_closed e s k h Ho Hb) as [? ? ? ? ? ? ? ?]. unfold fail.
  rewrite (open_active _ _ _ Ho). cbn [negb]. split; try done. cbn. rewrite (open_reported _ _ _ Ho). by right.
Qed.

Lemma fail_closed e s : active s = false -> fail e s = s.
Proof. unfold fail. by intros ->. Qed.

Lemma fold_fail_closed es s : active s = false -> fold_left (fun s e => fail e s) es s = s.
Proof. intros Ha. induction es as [|e es IH]; [done|]. cbn [fold_left]. by rewrite fail_closed. Qed.

Lemma fold_fail es s k h :
  open_queue s k h -> (k <= h <= S k)%nat ->
  fold_left (fun s e => fail e s) es s = s \/ exists e, closed_queue (fold_left (fun s e => fail e s) es s) k h e.
Proof.
  intros Ho Hb. destruct es as [|e es]; [by left|]. right. exists e. cbn [fold_left].
  pose proof (fail_open e s k h Ho Hb) as Hc. rewrite fold_fail_closed; [done|]. by apply Hc.
Qed.

Lemma firstn_snoc {A} (l : list A) (pre : list A) x post n :
  l = (pre ++ x :: post)%list -> length pre = n -> firstn (S n) l = (firstn n l ++ [x])%list.
Proof.
  intros -> <-. rewrite !firstn_app, firstn_all2 by lia. replace (S (length pre) - length pre)%nat with 1%nat by lia.
  rewrite Nat.sub_diag, (firstn_all2 pre) by lia. cbn. by rewrite List.app_nil_r.
Qed.

Lemma open_head s k h item rest :
  open_queue s k h -> queued s = item :: rest -> firstn (S k) (issued s) = (firstn k (issued s) ++ [item_frame item])%list.
Proof.
  intros [_ _ _ _ Hf Hc _ _] Hq. rewrite Hq in *. cbn in *. eapply firstn_snoc; [exact Hf|].
  rewrite length_firstn. lia.
Qed.

Lemma resolve_open s k h item rest :
  open_queue s k h -> queued s = item :: rest -> open_queue (resolve_head s) (S k) h.
Proof.
  intros Ho Hq. pose proof (open_head _ _ _ _ _ Ho Hq) as Hhead. destruct Ho as [Ha He Hs Hp Hf Hc Hh Hr].
  unfold resolve_head. rewrite Hq in *. cbn in Hp, Hf, Hc. injection Hp as Hi Hp.
  split; cbn [active terminalError settled queued issued handed reported]; try done; [| |lia].
  - rewrite Hs, Hi. unfold outcome. by rewrite seq_S, List.map_app.
  - rewrite Hhead, <- List.app_assoc. exact Hf.
Qed.

Lemma call_open s k item rest r s' :
  open_queue s k k -> queued s = item :: rest -> call_stream stream_write (item_frame item) s = (r, s') ->
  (open_queue s' k (S k) /\ queued s' = queued s /\ waitingForDrain s' = waitingForDrain s) \/ exists e, closed_queue s' k (S k) e.
Proof.
  intros Ho Hq. unfold call_stream. destruct (stream_write (item_frame item) (writable s)) as [a w]. intros [= <- <-].
  set (s1 := {| queued := queued s |}). assert (open_queue s1 k (S k)) as H1.
  { pose proof (open_head _ _ _ _ _ Ho Hq) as Hhead. destruct Ho as [Ha He Hs Hp Hf Hc Hh Hr]. split; cbn; try done.
    by rewrite Hhead, <- Hh. }
  destruct (fold_fail (emitted a) s1 k (S k) H1) as [->|[e He]]; [lia|by left|]. right. by exists e.
Qed.

Lemma closed_ok s k h e : closed_queue s k h e -> queue_ok s.
Proof. right. by exists k, h, e. Qed.

Lemma waiting_ok s k : open_queue s k (S k) -> queued s <> [] -> queue_ok (set_waiting true s).
Proof.
  intros [Ha He Hs Hp Hf Hc Hh Hr] Hq. left. exists k. cbn.
  assert (length (handed s) = S k) as Hl.
  { rewrite Hh, length_firstn. destruct (queued s); [done|]. cbn in Hc. lia. }
  split; [|done]. split; cbn; try done. by rewrite Hl.
Qed.

(** The loop ends with the queue empty, waiting or stopped. *)
Lemma flush_ok fuel s k :
  open_queue s k k -> waitingForDrain s = false -> (length (queued s) <= fuel)%nat -> queue_ok (flush_loop stream_write fuel s).
Proof.
  revert s k. induction fuel as [|fuel IH]; intros s k Ho Hw Hlen; cbn [flush_loop].
  - left. exists k. rewrite Hw. destruct (queued s) as [|] eqn:Hq; [|cbn in Hlen; lia].
    assert (length (handed s) = k) as Hl by (destruct Ho; rewrite open_handed0, length_firstn, Hq in *; cbn in *; lia).
    by rewrite Hl.
  - rewrite (open_active _ _ _ Ho), Hw. cbn [negb orb]. destruct (queued s) as [|item rest] eqn:Hq.
    { left. exists k. rewrite Hw, Hq.
      assert (length (handed s) = k) as Hl by (destruct Ho; rewrite open_handed0, length_firstn, Hq in *; cbn in *; lia).
      by rewrite Hl. }
    destruct (call_stream stream_write (item_frame item) s) as [[accepted|e] s'] eqn:Hcall;
      destruct (call_open s k item rest _ s' Ho Hq Hcall) as [(Ho' & Hq' & Hw')|[e' Hc]].
    + rewrite (open_active _ _ _ Ho'). cbn [negb]. destruct accepted; cbn [negb].
      * rewrite Hq in Hq'. pose proof (resolve_open _ _ _ _ _ Ho' Hq') as Hr. apply (IH _ (S k)); [done| |].
        -- unfold resolve_head. rewrite Hq'. cbn. congruence.
        -- unfold resolve_head. rewrite Hq'. cbn. cbn in Hlen. lia.
      * apply (waiting_ok s' k); [done|]. by rewrite Hq', Hq.
    + rewrite (closed_active _ _ _ _ Hc). by eapply closed_ok.
    + eapply closed_ok. apply (fail_open e s' k (S k)); [done|lia].
    + rewrite fail_closed by apply Hc. by eapply closed_ok.
Qed.

(** A new frame at the end of an open queue. *)
Definition enqueue (frame : F) (s : queue F W) : queue F W :=
  {| queued := (queued s ++ [{| item_promise := length (issued s); item_frame := frame |}])%list; active := active s;
     waitingForDrain := waitingForDrain s; terminalError := terminalError s; writable := writable s;
     issued := (issued s ++ [frame])%list; handed := handed s; settled := settled s; reported := reported s |}.

Lemma enqueue_open frame s k h : open_queue s k h -> (h <= length (issued s))%nat -> open_queue (enqueue frame s) k h.
Proof.
  intros [Ha He Hs Hp Hf Hc Hh Hr] Hle. split; cbn; try done; rewrite ?List.map_app, ?List.length_app; cbn.
  - rewrite Hp. replace (length (queued s) + 1)%nat with (S (length (queued s))) by lia. by rewrite seq_S, Hc.
  - rewrite firstn_app. replace (k - length (issued s))%nat with 0%nat by lia. cbn. rewrite List.app_nil_r, List.app_assoc. by rewrite <- Hf.
  - lia.
  - rewrite firstn_app. replace (h - length (issued s))%nat with 0%nat by lia. cbn. by rewrite List.app_nil_r.
Qed.

Lemma handed_bound s k h : open_queue s k h -> (length (handed s) <= length (issued s))%nat.
Proof. intros Ho. rewrite (open_handed _ _ _ Ho), length_firstn. lia. Qed.

Lemma write_ok frame s : queue_ok s -> active s = true -> queue_ok (snd (write stream_write frame s)).
Proof.
  intros [(k & Ho & Hw)|(k & h & e & Hc)] Ha; [|by rewrite (closed_active _ _ _ _ Hc) in Ha].
  unfold write. replace (negb (active s)) with false by (by rewrite Ha). cbn [snd].
  match goal with |- queue_ok (flush _ ?q) => change q with (enqueue frame s) end.
  pose proof (enqueue_open frame s k _ Ho (handed_bound _ _ _ Ho)) as Ho'.
  destruct (waitingForDrain s) eqn:Hwait.
  - destruct Hw as [Hq Hh]. unfold flush. destruct (length (queued (enqueue frame s))) eqn:Hl; cbn [flush_loop];
      [|cbn [enqueue active waitingForDrain]; rewrite Ha, Hwait; cbn [negb orb]];
      left; exists k; cbn [enqueue waitingForDrain handed queued]; rewrite Hwait; (split; [exact Ho'|]);
      (split; [by destruct (queued s)|done]).
  - destruct Hw as [Hq Hh]. rewrite Hh in Ho'. by apply (flush_ok _ _ k).
Qed.

Lemma drain_ok s : queue_ok s -> queue_ok (handleDrain stream_write s).
Proof.
  intros Hok. pose proof Hok as [(k & Ho & Hw)|(k & h & e & Hc)]; unfold handleDrain.
  2: { by rewrite (closed_active _ _ _ _ Hc). }
  rewrite (open_active _ _ _ Ho). destruct (waitingForDrain s); [|done]. cbn [negb orb]. destruct Hw as [Hq Hh].
  destruct (queued s) as [|item rest] eqn:Eq; [done|]. rewrite Hh in Ho.
  assert (open_queue (set_waiting false s) k (S k)) as Ho1 by (destruct Ho; by split).
  pose proof (resolve_open _ _ _ item rest Ho1 Eq) as Ho2.
  apply (flush_ok _ _ (S k)); [done|unfold resolve_head; cbn; by rewrite Eq|done].
Qed.

Lemma handle_ok ev s : queue_ok s -> queue_ok (handle ev s).
Proof.
  intros Hok. destruct (active s) eqn:Ha.
  - destruct ev as [frame| |e| |e]; cbn [handle]; [by apply write_ok|by apply drain_ok| | |];
      (destruct Hok as [(k & Ho & Hw)|(k & h & e0 & Hc)]; [|by rewrite (closed_active _ _ _ _ Hc) in Ha]);
      assert (k <= length (handed s) <= S k)%nat as Hb by (destruct (waitingForDrain s), Hw; lia).
    + eapply closed_ok, fail_open; [exact Ho|done].
    + eapply closed_ok, fail_open; [exact Ho|done].
    + unfold dispose. rewrite Ha. eapply closed_ok, stop_closed; [exact Ho|done].
  - destruct ev as [frame| |e| |e]; cbn [handle];
      [|unfold handleDrain, handleError, handleClose, dispose, fail; by rewrite Ha..].
    destruct Hok as [(k & Ho & _)|(k & h & e & Hc)]; [by rewrite (open_active _ _ _ Ho) in Ha|].
    unfold write. rewrite Ha, (closed_error _ _ _ _ Hc). cbn [negb snd]. destruct Hc as [_ Ht Hq Hs Hc Hh Hb Hr].
    right. exists k, (length (handed s)), e.
    assert (length (handed s) <= length (issued s))%nat as Hle by (rewrite Hh, length_firstn; lia).
    split; cbn; try done; rewrite ?List.length_app; cbn.
    + rewrite Hs, <- List.app_assoc. f_equal. unfold outcome.
      replace (length (issued s) + 1 - k)%nat with (S (length (issued s) - k)) by lia.
      rewrite seq_S, List.map_app. cbn. by replace (k + (length (issued s) - k))%nat with (length (issued s)) by lia.
    + lia.
    + rewrite firstn_app. replace (length (handed s) - length (issued s))%nat with 0%nat by lia. cbn.
      rewrite List.app_nil_r, Hh, length_firstn.
      destruct (Nat.min_spec h (length (issued s))) as [[_ ->]|[? ->]]; [done|]. by rewrite !firstn_all2 by lia.
    + rewrite Hh, length_firstn. lia.
Qed.

Definition run_events (evs : list (event F)) s : queue F W := fold_left (fun s ev => handle ev s) evs s.

Lemma run_events_ok evs s : queue_ok s -> queue_ok (run_events evs s).
Proof. revert s. induction evs as [|ev evs IH]; intros s Hs; [done|]. by apply IH, handle_ok. Qed.

Lemma new_queue_ok w : queue_ok (new_queue w).
Proof. left. by exists 0%nat. Qed.
End Facts.

(** C37: whatever the stream answers, throws and emits, and in whatever order
    writes, drains, errors, closes and disposals come: the frames handed to the
    stream are the first ones issued, in their order; the promises are settled
    in the order of the writes, none twice; the [k] resolved ones are the first,
    and every one of them was handed over.  While the queue is open at most one
    frame more is with the stream, no promise is rejected, and something is
    queued only while the queue waits for a drain.  Once it is stopped every
    promise is settled, the others with the terminal error, which is reported
    at most once. *)
Theorem writes_in_order {F W} (stream_write : F -> W -> answer * W) w evs :
  let s := run_events stream_write evs (new_queue w) in
  exists k, (k <= length (handed s) <= S k)%nat /\ handed s = firstn (length (handed s)) (issued s) /\
    if active s
    then settled s = outcome None (seq 0 k) /\ reported s = [] /\ terminalError s = None /\
         (k + length (queued s) = length (issued s))%nat /\ (queued s <> [] <-> waitingForDrain s = true)
    else exists e, terminalError s = Some e /\ (reported s = [] \/ reported s = [e]) /\ queued s = [] /\
         settled s = (outcome None (seq 0 k) ++ outcome (Some e) (seq k (length (issued s) - k)))%list.
Proof.
  intros s. destruct (run_events_ok stream_write evs _ (new_queue_ok w)) as [(k & Ho & Hw)|(k & h & e & Hc)].
  - fold s in Ho, Hw. exists k. destruct Ho as [Ha He Hs _ _ Hc Hh Hr]. rewrite Ha.
    split; [destruct (waitingForDrain s), Hw; lia|]. split; [done|]. split_and!; try done.
    destruct (waitingForDrain s), Hw; by split.
  - fold s in Hc. exists k. destruct Hc as [Ha He Hq Hs Hc Hh Hb Hr]. rewrite Ha.
    assert (length (handed s) = h \/ (length (handed s) = length (issued s) /\ length (issued s) <= h))%nat as Hl.
    { rewrite Hh, length_firstn. lia. }
    split; [destruct Hl as [->|[-> ?]]; lia|]. split; [|by exists e].
    destruct Hl as [->|[-> ?]]; [done|]. rewrite firstn_all2 by done. rewrite Hh. by apply firstn_all2.
Qed.
