(* ===== verification/JsDate.v ===== *)
(** [new Date(timestamp).toISOString()] for a timestamp in whole milliseconds
    (every timestamp the extension passes is a [Date.now()] value). *)

From Stdlib Require Import ZArith Lia Ascii String List.
From stdpp Require Import base option list strings.
From S2P Require Import Prelude JsString.

Local Open Scope string_scope.
Local Open Scope Z_scope.

Definition MS_PER_DAY : Z := 86400000.
Definition MAX_TIME : Z := 8640000000000000.

Definition InvalidTime : js_error := PlainError "Invalid time value".

(** The last [n] decimal digits of a non-negative number. *)
Fixpoint digits (n : nat) (z : Z) : string :=
  match n with
  | O => ""
  | S n' => (digits n' (z / 10) ++ String (digit (Z.to_nat (z mod 10))) "")%string
  end.

(** The civil date of a day number (days since 1970-01-01, proleptic Gregorian
    calendar): an era is 400 years, and years are counted from 1 March. *)
Record civil := { civil_year : Z; civil_month : Z; civil_day : Z }.

Definition civil_from_days (days : Z) : civil :=
  let z := days + 719468 in
  let era := z / 146097 in
  let doe := z mod 146097 in
  let yoe := (doe - doe / 1460 + doe / 36524 - doe / 146096) / 365 in
  let doy := doe - (365 * yoe + yoe / 4 - yoe / 100) in
  let mp := (5 * doy + 2) / 153 in
  let month := if mp <? 10 then mp + 3 else mp - 9 in
  {| civil_year := yoe + era * 400 + (if month <=? 2 then 1 else 0);
     civil_month := month;
     civil_day := doy - (153 * mp + 2) / 5 + 1 |}.

(** Four digits, or a sign and six outside 0 to 9999. *)
Definition iso_year (y : Z) : string :=
  if (0 <=? y) && (y <=? 9999) then digits 4 y
  else if y <? 0 then ("-" ++ digits 6 (- y))%string
  else ("+" ++ digits 6 y)%string.

Definition toISOString (timestamp : Z) : result string :=
  if (timestamp <? - MAX_TIME) || (MAX_TIME <? timestamp) then Throw InvalidTime
  else
    let date := civil_from_days (timestamp / MS_PER_DAY) in
    let ms := timestamp mod MS_PER_DAY in
    Ok (iso_year (civil_year date) ++ "-" ++ digits 2 (civil_month date) ++ "-" ++ digits 2 (civil_day date) ++ "T"
        ++ digits 2 (ms / 3600000) ++ ":" ++ digits 2 (ms / 60000 mod 60) ++ ":" ++ digits 2 (ms / 1000 mod 60)
        ++ "." ++ digits 3 (ms mod 1000) ++ "Z")%string.

Example toISOString_epoch : toISOString 0 = Ok "1970-01-01T00:00:00.000Z".
Proof. by vm_compute. Qed.
Example toISOString_leap : toISOString 1709164799999 = Ok "2024-02-28T23:59:59.999Z"
  /\ toISOString 1709251199000 = Ok "2024-02-29T23:59:59.000Z".
Proof. by vm_compute. Qed.
Example toISOString_before : toISOString (-1) = Ok "1969-12-31T23:59:59.999Z".
Proof. by vm_compute. Qed.
Example toISOString_limits :
  toISOString MAX_TIME = Ok "+275760-09-13T00:00:00.000Z"
  /\ toISOString (- MAX_TIME) = Ok "-271821-04-20T00:00:00.000Z"
  /\ toISOString (MAX_TIME + 1) = Throw InvalidTime.
Proof. by vm_compute. Qed.

(** What the stores need of a timestamp: it is not blank. *)
Lemma trim_blank s : trim s = "" -> all_space s = true.
Proof.
  unfold trim. induction s as [|c s IH]; [done|]. cbn [trim_start all_space].
  destruct (is_space c) eqn:Hc; [done|]. cbn [trim_end all_space]. by rewrite Hc.
Qed.

Lemma toISOString_nonempty timestamp text : toISOString timestamp = Ok text -> isNonEmptyString text = true.
Proof.
  unfold toISOString. destruct (_ || _); [done|]. intros [= <-]. unfold isNonEmptyString.
  apply negb_true_iff, bool_decide_eq_false. intros H%trim_blank. revert H.
  rewrite all_space_app. cbn [append all_space is_space]. by rewrite andb_false_r.
Qed.
