(* ===== verification/RefreshScheduler.v ===== *)
(** status/statusRefreshScheduler.ts: when the status of a repository is
    refreshed.  File events are debounced, one refresh runs at a time per
    repository, a new event cancels the refresh in flight, and what a refresh
    failed to show goes back into the dirty-path set.

    Objects that the code shares live in a heap: a [RepositoryState] is named by
    its index in [states], a [CurrentRefresh] with the promise chain built on it
    by its index in [runs].  A promise chain is its phase: which reaction runs
    next and on what.  Between two reactions anything may happen, so [exec] runs
    one reaction at a time.  A timer is whether it is set; the delays only
    order timers in time, and here they may fire in any order.

    The client is asynchronous code outside this file: it answers or rejects
    at any later time ([Answer]).  Other components change the stores between
    the scheduler's steps ([OtherComponents]).  The stores' presenter and
    listeners do not call back into the scheduler. *)

From Stdlib Require Import ZArith String List.
From stdpp Require Import base option list strings.
From S2P Require Import Prelude JsString JsMap JsValue JsDate StatusTypes StatusWire StatusStore Paths DirtyPaths.
From S2P Require Import ScmResources ProjectionService Notifications CoverageStore.

Local Open Scope string_scope.

Module StatusRefreshScheduler.

(** ** Errors *)
Definition schedulerError (code category messageKey : string) (args : list (string * safe_arg)) : js_error :=
  StructuredError "StatusRefreshSchedulerError" code category messageKey args.
Definition notRegistered (repositoryId : string) : js_error :=
  PlainError ("Repository is not registered: " ++ repositoryId).
Definition epochMismatch (code messageKey repositoryId : string) (expected actual : Z) : js_error :=
  schedulerError code "lifecycle" messageKey
    [("repositoryId", ArgString repositoryId); ("expected", ArgNumber expected); ("actual", ArgNumber actual)].
Definition resourcePathInvalid (path : string) : js_error :=
  schedulerError "SUBVERSIONR_STATUS_RESOURCE_REFRESH_PATH_INVALID" "input"
    "error.status.resourceRefreshPathInvalid" [("path", ArgString path)].
Definition optionInvalid (f : string) : js_error :=
  schedulerError "SUBVERSIONR_STATUS_SCHEDULER_OPTION_INVALID" "input"
    "error.status.schedulerOptionInvalid" [("field", ArgString f)].
Definition fullReconcileResponseError (f : string) : js_error :=
  schedulerError "SUBVERSIONR_STATUS_FULL_RECONCILE_RESPONSE_INVALID" "protocol"
    "error.status.fullReconcileResponseInvalid" [("field", ArgString f)].
Definition staleStateUnavailable (repositoryId state : string) : js_error :=
  schedulerError "SUBVERSIONR_STATUS_NOTIFICATION_STATE_UNAVAILABLE" "lifecycle"
    "error.status.notificationStateUnavailable" [("repositoryId", ArgString repositoryId); ("state", ArgString state)].
Definition invalidTargetRefreshTarget (f : string) : js_error :=
  schedulerError "SUBVERSIONR_STATUS_TARGET_REFRESH_TARGET_INVALID" "input"
    "error.status.targetRefreshTargetInvalid" [("field", ArgString f)].

Inductive CancelReason := DirtyGenerationSuperseded | UserCancelled.
Definition reason_name (r : CancelReason) : string :=
  match r with DirtyGenerationSuperseded => "dirtyGenerationSuperseded" | UserCancelled => "userCancelled" end.
Definition refreshCancelled (scope : RepositoryWatchScope) (reason : CancelReason) : js_error :=
  schedulerError "SUBVERSIONR_STATUS_REFRESH_CANCELLED" "lifecycle" "error.status.refreshCancelled"
    [("repositoryId", ArgString (scope_repositoryId scope)); ("reason", ArgString (reason_name reason))].

(** ** Module functions *)
Inductive ReconcileReason := ManualFullReconcile | ScheduledFullReconcile.
Definition reconcile_name (r : ReconcileReason) : string :=
  match r with ManualFullReconcile => "manualFullReconcile" | ScheduledFullReconcile => "scheduledFullReconcile" end.
Definition RESOURCE_REFRESH_REASON : string := "resourceRefresh".
Definition REFRESH_CANCELLED_REASON : string := "refreshCancelled".
Definition REFRESH_CANCELLED_SOURCE : string := "vscode-status-scheduler".

Definition fullReconcileTarget (reason : ReconcileReason) : StatusRefreshTarget :=
  {| target_path := "."; target_depth := DInfinity; target_reason := reconcile_name reason |}.

Definition requireFullReconcileDelta (delta : StatusDelta) (reason : ReconcileReason) : result unit :=
  _ ← require (bool_decide (delta_completeness delta = Complete)) (fullReconcileResponseError "completeness");
  match delta_coverage delta with
  | [coverage] =>
      let target := fullReconcileTarget reason in
      require (negb (negb (bool_decide (coverage_path coverage = target_path target))
                     || negb (bool_decide (coverage_depth coverage = depth_name (target_depth target)))
                     || negb (bool_decide (coverage_reason coverage = target_reason target))
                     || negb (coverage_generation coverage =? delta_generation delta)%Z))
        (fullReconcileResponseError "coverage.0")
  | _ => Throw (fullReconcileResponseError "coverage")
  end.

Definition validateOptionalPositiveInteger (value : option js_value) (f : string) : result (option Z) :=
  match value with
  | None => Ok None
  | Some (VNum (NumInt z)) =>
      if negb (isSafeInteger z) || (z <=? 0)%Z then Throw (optionInvalid f) else Ok (Some z)
  | Some _ => Throw (optionInvalid f)
  end.

Definition isRepositoryRelativeRefreshPath (path : string) : bool :=
  if bool_decide (trim path = "") then false
  else if includes path backslash || startsWith path "/" || endsWith path slash then false
  else forallb (fun segment => negb (bool_decide (segment = "")) && negb (bool_decide (segment = "."))
                               && negb (bool_decide (segment = ".."))) (split path slash)
       || bool_decide (path = ".").

Definition isStatusRefreshDepth (depth : string) : option StatusRefreshDepth :=
  if bool_decide (depth = "empty") then Some DEmpty
  else if bool_decide (depth = "files") then Some DFiles
  else if bool_decide (depth = "immediates") then Some DImmediates
  else if bool_decide (depth = "infinity") then Some DInfinity
  else None.

Definition validateRefreshTarget (target : js_value) (f : string) : result StatusRefreshTarget :=
  _ ← require (isRecord (Some target)) (invalidTargetRefreshTarget f);
  path ← match field target "path" with
         | Some (VStr path) => if isRepositoryRelativeRefreshPath path then Ok path
                               else Throw (invalidTargetRefreshTarget (dot f "path"))
         | _ => Throw (invalidTargetRefreshTarget (dot f "path"))
         end;
  depth ← match field target "depth" with
          | Some (VStr depth) => match isStatusRefreshDepth depth with
                                 | Some depth => Ok depth
                                 | None => Throw (invalidTargetRefreshTarget (dot f "depth"))
                                 end
          | _ => Throw (invalidTargetRefreshTarget (dot f "depth"))
          end;
  reason ← match field target "reason" with
           | Some (VStr reason) => if bool_decide (trim reason = "")
                                   then Throw (invalidTargetRefreshTarget (dot f "reason")) else Ok reason
           | _ => Throw (invalidTargetRefreshTarget (dot f "reason"))
           end;
  Ok {| target_path := path; target_depth := depth; target_reason := reason |}.

Definition validateRefreshTargets (targets : option js_value) : result (list StatusRefreshTarget) :=
  match targets with
  | Some (VArr items) =>
      _ ← require (negb (length items =? 0)%nat) (invalidTargetRefreshTarget "targets");
      mapi (fun index target => validateRefreshTarget target (at_index "targets" index)) items
  | _ => Throw (invalidTargetRefreshTarget "targets")
  end.

Definition cloneRefreshTarget (target : StatusRefreshTarget) : StatusRefreshTarget :=
  {| target_path := target_path target; target_depth := target_depth target; target_reason := target_reason target |}.
Definition cloneCoverageScope (scope : StatusCoverageScope) : StatusCoverageScope :=
  {| coverage_path := coverage_path scope; coverage_depth := coverage_depth scope;
     coverage_generation := coverage_generation scope; coverage_reason := coverage_reason scope |}.

(** ** State *)

(** A promise others wait for: a refresh, or the barrier of [runExclusive]. *)
Inductive promise := Refresh (run : nat) | Barrier (barrier : nat).

#[export] Instance promise_eq_dec : EqDecision promise.
Proof. solve_decision. Defined.

Record RepositoryState := {
  scope : RepositoryWatchScope;
  dirtyPaths : DirtyPathSet.state;
  timer : bool;
  fullReconcileTimer : bool;
  flushing : option promise;
  currentRefresh : option nat;
  overflowStaleMarked : bool;
  overflowStaleTimestamp : option Z;
}.

(** [callerSignal]: the signal the caller's listener is registered with, until
    [disposeCallerCancellation]. *)
Record CurrentRefresh := {
  aborted : bool;
  targets : list StatusRefreshTarget;
  cancelReason : option CancelReason;
  callerSignal : option nat;
}.

(** What the reactions of a chain close over. *)
Inductive RunKind :=
  | TargetsRun
  | FullRun (reason : ReconcileReason) (pendingTargets : list StatusRefreshTarget).

(** The next reaction of a chain: none before the client answers; the first
    [then] with a delta; the [catch] with an error; the second [then]; the
    [finally] with the outcome; none once settled. *)
Inductive phase :=
  | Pending
  | Answered (delta : StatusDelta)
  | Rejected (error : js_error)
  | Applied (delta : StatusDelta)
  | Closing (outcome : result unit)
  | Settled (outcome : result unit).

(** [appliedDelta] is history: the delta the run gave to the canonical store. *)
Record run := {
  run_state : nat;
  run_refresh : CurrentRefresh;
  run_kind : RunKind;
  run_request : StatusRefreshRequest;
  run_phase : phase;
  appliedDelta : option StatusDelta;
}.

(** Calls that wait, by what they call again. *)
Inductive call :=
  | FlushRepository (repositoryId : string) (signal : option nat)
  | FullReconcileRepository (repositoryId : string) (epoch : Z) (signal : option nat)
  | RefreshResource (repositoryId : string) (epoch : Z) (path : string)
  | RefreshTargets (repositoryId : string) (epoch : Z) (targets : option js_value) (signal : option nat)
  | RunExclusive (repositoryId : string)
  | RunScheduledFullReconcile (repositoryId : string) (state : nat)
  | ExclusiveLoop (state : nat).

(** How a call goes on: it has returned, it waits for a promise and then calls
    again, or its promise is the one given. *)
Inductive outcome := Returned | Awaiting (p : promise) (retry : call) | Running (p : promise).

Record config := {
  maxDirtyPaths_option : option Z;
  fullReconcileIntervalMs : option Z;
}.

(** The options, of which [fullReconcileIntervalMs] is checked. *)
Definition constructor (maxDirtyPaths : option Z) (interval : option js_value) : result config :=
  interval ← validateOptionalPositiveInteger interval "fullReconcileIntervalMs";
  Ok {| maxDirtyPaths_option := maxDirtyPaths; fullReconcileIntervalMs := interval |}.

Definition blank_scope : RepositoryWatchScope :=
  {| scope_repositoryId := ""; scope_epoch := 0; scope_workingCopyRoot := ""; scope_pathCase := CaseSensitive;
     scope_boundaryRoots := [] |}.

(** The object literal of [registerRepository]. *)
Definition new_repository (s : RepositoryWatchScope) : RepositoryState :=
  {| scope := s; dirtyPaths := DirtyPathSet.new_state; timer := false; fullReconcileTimer := false;
     flushing := None; currentRefresh := None; overflowStaleMarked := false; overflowStaleTimestamp := None |}.

#[export] Instance RepositoryState_inhabited : Inhabited RepositoryState := populate (new_repository blank_scope).
#[export] Instance run_inhabited : Inhabited run := populate
  {| run_state := 0; run_refresh := Build_CurrentRefresh false [] None None; run_kind := TargetsRun;
     run_request := Build_StatusRefreshRequest "" 0 []; run_phase := Pending; appliedDelta := None |}.

Definition with_dirtyPaths (st : RepositoryState) d := Build_RepositoryState (scope st) d (timer st)
  (fullReconcileTimer st) (flushing st) (currentRefresh st) (overflowStaleMarked st) (overflowStaleTimestamp st).
Definition with_timer (st : RepositoryState) t := Build_RepositoryState (scope st) (dirtyPaths st) t
  (fullReconcileTimer st) (flushing st) (currentRefresh st) (overflowStaleMarked st) (overflowStaleTimestamp st).
Definition with_fullReconcileTimer (st : RepositoryState) t := Build_RepositoryState (scope st) (dirtyPaths st)
  (timer st) t (flushing st) (currentRefresh st) (overflowStaleMarked st) (overflowStaleTimestamp st).
Definition with_flushing (st : RepositoryState) f := Build_RepositoryState (scope st) (dirtyPaths st) (timer st)
  (fullReconcileTimer st) f (currentRefresh st) (overflowStaleMarked st) (overflowStaleTimestamp st).
Definition with_currentRefresh (st : RepositoryState) r := Build_RepositoryState (scope st) (dirtyPaths st) (timer st)
  (fullReconcileTimer st) (flushing st) r (overflowStaleMarked st) (overflowStaleTimestamp st).
Definition with_overflow (st : RepositoryState) marked timestamp := Build_RepositoryState (scope st) (dirtyPaths st)
  (timer st) (fullReconcileTimer st) (flushing st) (currentRefresh st) marked timestamp.

Definition with_refresh (r : run) c := Build_run (run_state r) c (run_kind r) (run_request r) (run_phase r) (appliedDelta r).
Definition with_phase (r : run) p := Build_run (run_state r) (run_refresh r) (run_kind r) (run_request r) p (appliedDelta r).
Definition with_applied (r : run) d := Build_run (run_state r) (run_refresh r) (run_kind r) (run_request r)
  (Applied d) (Some d).

(** [refresh.cancelReason = reason; refresh.controller.abort()] *)
Definition cancel (reason : CancelReason) (c : CurrentRefresh) : CurrentRefresh :=
  {| aborted := true; targets := targets c; cancelReason := Some reason; callerSignal := callerSignal c |}.
Definition dispose (c : CurrentRefresh) : CurrentRefresh :=
  {| aborted := aborted c; targets := targets c; cancelReason := cancelReason c; callerSignal := None |}.

Section Scheduler.
Variable localeCompareEn localeCompare : string -> string -> comparison.
Context {E : Type} (env : SourceControlProjectionService.Environment E).
Variable options : config.

(** [barriers] holds the state of each barrier with whether it is released;
    [abortedSignals] the caller signals that have been aborted. *)
Record world := {
  repositories : list (string * nat);
  states : list RepositoryState;
  runs : list run;
  barriers : list (nat * bool);
  waiters : list (promise * call);
  abortedSignals : list nat;
  stores : app E;
  coverageRecorder : option StatusRefreshCoverageStore.store;
}.

Definition with_repositories (w : world) x := Build_world x (states w) (runs w) (barriers w) (waiters w)
  (abortedSignals w) (stores w) (coverageRecorder w).
Definition with_states (w : world) x := Build_world (repositories w) x (runs w) (barriers w) (waiters w)
  (abortedSignals w) (stores w) (coverageRecorder w).
Definition with_runs (w : world) x := Build_world (repositories w) (states w) x (barriers w) (waiters w)
  (abortedSignals w) (stores w) (coverageRecorder w).
Definition with_barriers (w : world) x := Build_world (repositories w) (states w) (runs w) x (waiters w)
  (abortedSignals w) (stores w) (coverageRecorder w).
Definition with_waiters (w : world) x := Build_world (repositories w) (states w) (runs w) (barriers w) x
  (abortedSignals w) (stores w) (coverageRecorder w).
Definition with_abortedSignals (w : world) x := Build_world (repositories w) (states w) (runs w) (barriers w) (waiters w)
  x (stores w) (coverageRecorder w).
Definition with_stores (w : world) x := Build_world (repositories w) (states w) (runs w) (barriers w) (waiters w)
  (abortedSignals w) x (coverageRecorder w).
Definition with_coverageRecorder (w : world) x := Build_world (repositories w) (states w) (runs w) (barriers w)
  (waiters w) (abortedSignals w) (stores w) x.

(** Reading and writing the objects. *)
Definition get_repository (s : nat) : method world RepositoryState := w ← get_state; mret (states w !!! s).
Definition get_run (r : nat) : method world run := w ← get_state; mret (runs w !!! r).
Definition set_repository (s : nat) (f : RepositoryState -> RepositoryState) : method world unit :=
  modify_state (fun w => with_states w (alter f s (states w))).
Definition set_run (r : nat) (f : run -> run) : method world unit :=
  modify_state (fun w => with_runs w (alter f r (runs w))).
Definition on_stores {A} (m : method (app E) A) : method world A := on_part stores with_stores m.

(** [this.repositories.get(repositoryId)], which every call requires. *)
Definition require_repository (repositoryId : string) : method world nat :=
  w ← get_state;
  match map_get (repositories w) repositoryId with
  | Some s => mret s
  | None => throw_error (notRegistered repositoryId)
  end.

Definition dirty_config (st : RepositoryState) : DirtyPathSet.config :=
  DirtyPathSet.new_config (scope st) (maxDirtyPaths_option options).

(** ** Stores *)
Definition replaceProjectionFromCanonicalSnapshot (repositoryId : string) (epoch : Z) (expectedGeneration : option Z)
    : method (app E) unit :=
  s ← get_state;
  match StatusSnapshotStore.getSnapshot (statusSnapshotStore s) repositoryId with
  | None => throw_error (staleStateUnavailable repositoryId "status")
  | Some snapshot =>
    if negb (snapshot_epoch snapshot =? epoch)%Z then throw_error (staleStateUnavailable repositoryId "status")
    else if match expectedGeneration with Some g => negb (snapshot_generation snapshot =? g)%Z | None => false end
    then throw_error (staleStateUnavailable repositoryId "status")
    else
      _ ← on_projection (SourceControlProjectionService.replaceSnapshot localeCompareEn localeCompare env snapshot);
      mret tt
  end.

Definition publishProjectionDelta (delta : StatusDelta) : method (app E) unit :=
  try_catch
    (_ ← on_projection (SourceControlProjectionService.applyDelta localeCompareEn localeCompare env delta); mret tt)
    (fun error =>
       _ ← replaceProjectionFromCanonicalSnapshot (delta_repositoryId delta) (delta_epoch delta)
             (Some (delta_generation delta));
       throw_error error).

Definition publishProjectionStale (mark : StatusStaleMark) : method (app E) unit :=
  try_catch
    (_ ← on_projection (SourceControlProjectionService.markStale localeCompareEn localeCompare env mark); mret tt)
    (fun error =>
       _ ← replaceProjectionFromCanonicalSnapshot (mark_repositoryId mark) (mark_epoch mark) None;
       throw_error error).

Definition markStaleIfInitialized (scope_epoch : Z) (mark : StatusStaleMark) : method (app E) bool :=
  s ← get_state;
  let snapshot := StatusSnapshotStore.getSnapshot (statusSnapshotStore s) (mark_repositoryId mark) in
  projection ← on_projection (SourceControlProjectionService.getProjection localeCompareEn localeCompare (mark_repositoryId mark));
  match snapshot, projection with
  | None, None => mret false
  | _, _ =>
    if match snapshot with Some snapshot => negb (snapshot_epoch snapshot =? scope_epoch)%Z | None => true end
    then throw_error (staleStateUnavailable (mark_repositoryId mark) "status")
    else if match projection with
            | Some projection => negb (SourceControlResourceStore.proj_epoch projection =? scope_epoch)%Z
            | None => true end
    then throw_error (staleStateUnavailable (mark_repositoryId mark) "projection")
    else
      _ ← on_status (StatusSnapshotStore.markStale mark);
      _ ← publishProjectionStale mark;
      mret true
  end.

(** A stale mark of a repository state. *)
Definition mark_of (st : RepositoryState) (reason timestamp source : string) : StatusStaleMark :=
  {| mark_repositoryId := scope_repositoryId (scope st); mark_epoch := scope_epoch (scope st);
     mark_reason := reason; mark_timestamp := timestamp; mark_source := source |}.

(** [a ?? b] *)
Definition nullish {A} (a b : option A) : option A := match a with Some _ => a | None => b end.

Definition markOverflowStaleIfInitialized (s : nat) : method world unit :=
  st ← get_repository s;
  if negb (DirtyPathSet.overflowed (dirtyPaths st)) || overflowStaleMarked st then mret tt
  else
    match nullish (overflowStaleTimestamp st) (DirtyPathSet.overflowedAt (dirtyPaths st)) with
    | None => mret tt
    | Some timestamp =>
        text ← lift_result (toISOString timestamp);
        marked ← on_stores (markStaleIfInitialized (scope_epoch (scope st))
                   (mark_of st "watcherOverflow" text "vscode-watcher"));
        if (marked : bool) then set_repository s (fun st => with_overflow st true (Some timestamp)) else mret tt
    end.

Definition cancelInFlightRefreshForDirtyGeneration (s : nat) (timestamp : Z) : method world unit :=
  st ← get_repository s;
  match currentRefresh st with
  | None => mret tt
  | Some r =>
    refresh ← get_run r;
    if aborted (run_refresh refresh) then mret tt
    else
      text ← lift_result (toISOString timestamp);
      _ ← on_stores (markStaleIfInitialized (scope_epoch (scope st))
            (mark_of st REFRESH_CANCELLED_REASON text REFRESH_CANCELLED_SOURCE));
      set_run r (fun run => with_refresh run (cancel DirtyGenerationSuperseded (run_refresh run)))
  end.

(** ** Timers *)
Definition clearRepositoryTimers (s : nat) : method world unit :=
  set_repository s (fun st => with_fullReconcileTimer (with_timer st false) false).
Definition scheduleFlush (s : nat) : method world unit :=
  set_repository s (fun st => with_timer st true).
Definition scheduleFullReconcile (s : nat) : method world unit :=
  match fullReconcileIntervalMs options with
  | None => mret tt
  | Some _ => set_repository s (fun st => with_fullReconcileTimer st true)
  end.

(** ** Registration *)
Definition registerRepository (sc : RepositoryWatchScope) : method world unit :=
  w ← get_state;
  _ ← match map_get (repositories w) (scope_repositoryId sc) with
      | Some existing => clearRepositoryTimers existing
      | None => mret tt
      end;
  let s := length (states w) in
  _ ← modify_state (fun w => with_states w (states w ++ [new_repository sc])%list);
  _ ← modify_state (fun w => with_repositories w (map_set (repositories w) (scope_repositoryId sc) s));
  scheduleFullReconcile s.

Definition unregisterRepository (repositoryId : string) : method world unit :=
  w ← get_state;
  _ ← match map_get (repositories w) repositoryId with
      | Some s => clearRepositoryTimers s
      | None => mret tt
      end;
  modify_state (fun w => with_repositories w (map_delete (repositories w) repositoryId)).

(** ** File events *)
Definition recordFileEvent (repositoryId : string) (event : DirtyFileEvent) : method world bool :=
  s ← require_repository repositoryId;
  st ← get_repository s;
  let wasOverflowed := DirtyPathSet.overflowed (dirtyPaths st) in
  let (accepted, d) := DirtyPathSet.record (dirty_config st) (dirtyPaths st) event in
  _ ← set_repository s (fun st => with_dirtyPaths st d);
  if negb accepted then mret false
  else
    _ ← (if negb wasOverflowed && DirtyPathSet.overflowed d
         then set_repository s (fun st => with_overflow st (overflowStaleMarked st)
                (Some (default (event_timestamp event) (DirtyPathSet.overflowedAt d))))
         else mret tt);
    _ ← markOverflowStaleIfInitialized s;
    _ ← cancelInFlightRefreshForDirtyGeneration s (event_timestamp event);
    _ ← scheduleFlush s;
    mret true.

(** ** Refreshes *)

(** [beginRefresh], and the chain the caller builds on its result. *)
Definition beginRefresh (s : nat) (ts : list StatusRefreshTarget) (kind : RunKind) (signal : option nat)
    : method world nat :=
  w ← get_state;
  let r := length (runs w) in
  let sc := scope (states w !!! s) in
  let refresh := {| aborted := false; targets := ts; cancelReason := None; callerSignal := None |} in
  let refresh :=
    match signal with
    | None => refresh
    | Some sig =>
        if set_has (abortedSignals w) sig then cancel UserCancelled refresh
        else {| aborted := false; targets := ts; cancelReason := None; callerSignal := Some sig |}
    end in
  _ ← modify_state (fun w => with_runs w (runs w ++
        [{| run_state := s; run_refresh := refresh; run_kind := kind;
            run_request := {| request_repositoryId := scope_repositoryId sc; request_epoch := scope_epoch sc;
                              request_targets := ts |};
            run_phase := Pending; appliedDelta := None |}])%list);
  _ ← set_repository s (fun st => with_currentRefresh st (Some r));
  mret r.

(** [state.flushing = chain] *)
Definition set_flushing (s r : nat) : method world outcome :=
  _ ← set_repository s (fun st => with_flushing st (Some (Refresh r)));
  mret (Running (Refresh r)).

Definition flushRepository (repositoryId : string) (signal : option nat) : method world outcome :=
  s ← require_repository repositoryId;
  st ← get_repository s;
  match flushing st with
  | Some p => mret (Awaiting p (FlushRepository repositoryId signal))
  | None =>
    _ ← set_repository s (fun st => with_timer st false);
    _ ← markOverflowStaleIfInitialized s;
    st ← get_repository s;
    let (ts, d) := DirtyPathSet.drainToRefreshTargets (dirtyPaths st) in
    _ ← set_repository s (fun st => with_dirtyPaths st d);
    if (length ts =? 0)%nat then mret Returned
    else
      r ← beginRefresh s ts TargetsRun signal;
      set_flushing s r
  end.

Definition runRefreshTargets (s : nat) (ts : list StatusRefreshTarget) (retry : call) (signal : option nat)
    : method world outcome :=
  st ← get_repository s;
  match flushing st with
  | Some p => mret (Awaiting p retry)
  | None =>
    r ← beginRefresh s ts TargetsRun signal;
    set_flushing s r
  end.

Definition runFullReconcile (s : nat) (reason : ReconcileReason) (retry : call) (signal : option nat)
    : method world outcome :=
  st ← get_repository s;
  match flushing st with
  | Some p => mret (Awaiting p retry)
  | None =>
    _ ← clearRepositoryTimers s;
    let (pendingTargets, d) := DirtyPathSet.drainToRefreshTargets (dirtyPaths st) in
    _ ← set_repository s (fun st => with_dirtyPaths st d);
    r ← beginRefresh s [fullReconcileTarget reason] (FullRun reason pendingTargets) signal;
    set_flushing s r
  end.

Definition require_epoch (s : nat) (code messageKey repositoryId : string) (epoch : Z) : method world unit :=
  st ← get_repository s;
  if negb (scope_epoch (scope st) =? epoch)%Z
  then throw_error (epochMismatch code messageKey repositoryId (scope_epoch (scope st)) epoch) else mret tt.

Definition fullReconcileRepository (repositoryId : string) (epoch : Z) (signal : option nat) : method world outcome :=
  s ← require_repository repositoryId;
  _ ← require_epoch s "SUBVERSIONR_STATUS_FULL_RECONCILE_EPOCH_MISMATCH" "error.status.fullReconcileEpochMismatch"
        repositoryId epoch;
  runFullReconcile s ManualFullReconcile (FullReconcileRepository repositoryId epoch signal) signal.

Definition refreshResource (repositoryId : string) (epoch : Z) (path : string) : method world outcome :=
  s ← require_repository repositoryId;
  _ ← require_epoch s "SUBVERSIONR_STATUS_RESOURCE_REFRESH_EPOCH_MISMATCH" "error.status.resourceRefreshEpochMismatch"
        repositoryId epoch;
  if negb (isRepositoryRelativeRefreshPath path) then throw_error (resourcePathInvalid path)
  else runRefreshTargets s
         [{| target_path := path; target_depth := DEmpty; target_reason := RESOURCE_REFRESH_REASON |}]
         (RefreshResource repositoryId epoch path) None.

Definition refreshTargets (repositoryId : string) (epoch : Z) (requested : option js_value) (signal : option nat)
    : method world outcome :=
  s ← require_repository repositoryId;
  _ ← require_epoch s "SUBVERSIONR_STATUS_TARGET_REFRESH_EPOCH_MISMATCH" "error.status.targetRefreshEpochMismatch"
        repositoryId epoch;
  ts ← lift_result (validateRefreshTargets requested);
  runRefreshTargets s ts (RefreshTargets repositoryId epoch requested signal) signal.

Definition runScheduledFullReconcile (repositoryId : string) (s : nat) : method world outcome :=
  w ← get_state;
  if negb (bool_decide (map_get (repositories w) repositoryId = Some s)) then mret Returned
  else runFullReconcile s ScheduledFullReconcile (RunScheduledFullReconcile repositoryId s) None.

(** The loop of [runExclusive] and, once it ends, the barrier. *)
Definition exclusive_loop (s : nat) : method world outcome :=
  st ← get_repository s;
  match flushing st with
  | Some p => mret (Awaiting p (ExclusiveLoop s))
  | None =>
    w ← get_state;
    let b := length (barriers w) in
    _ ← modify_state (fun w => with_barriers w (barriers w ++ [(s, false)])%list);
    _ ← set_repository s (fun st => with_flushing st (Some (Barrier b)));
    mret (Running (Barrier b))
  end.

Definition runExclusive (repositoryId : string) : method world outcome :=
  s ← require_repository repositoryId;
  exclusive_loop s.

(** The [finally] of [runExclusive]. *)
Definition release (b : nat) : method world unit :=
  w ← get_state;
  match barriers w !! b with
  | None => mret tt
  | Some (s, _) =>
    _ ← set_repository s (fun st =>
          if bool_decide (flushing st = Some (Barrier b)) then with_flushing st None else st);
    modify_state (fun w => with_barriers w (<[b := (s, true)]> (barriers w)))
  end.

(** ** The reactions of a chain *)
Definition requireRefreshCurrent (r : nat) : method world unit :=
  run ← get_run r;
  st ← get_repository (run_state run);
  if negb (bool_decide (currentRefresh st = Some r)) || match cancelReason (run_refresh run) with Some _ => true | None => false end
  then throw_error (refreshCancelled (scope st) (default DirtyGenerationSuperseded (cancelReason (run_refresh run))))
  else mret tt.

(** The first [then]. *)
Definition apply_delta (r : nat) (delta : StatusDelta) : method world unit :=
  _ ← requireRefreshCurrent r;
  run ← get_run r;
  _ ← match run_kind run with
      | FullRun reason _ => lift_result (requireFullReconcileDelta delta reason)
      | TargetsRun => mret tt
      end;
  _ ← on_stores (on_status (StatusSnapshotStore.applyDelta delta));
  mret tt.

(** What the [catch] merges back. *)
Definition retry_targets (run : run) : list StatusRefreshTarget :=
  match run_kind run with
  | TargetsRun => targets (run_refresh run)
  | FullRun reason pendingTargets =>
      match cancelReason (run_refresh run) with
      | Some _ => fullReconcileTarget reason :: pendingTargets
      | None => pendingTargets
      end
  end.

(** The [catch]; it always throws. *)
Definition merge_back (r : nat) (error : js_error) : method world unit :=
  run ← get_run r;
  st ← get_repository (run_state run);
  _ ← set_repository (run_state run) (fun st =>
        with_dirtyPaths st (DirtyPathSet.mergeTargets (dirtyPaths st) (retry_targets run)));
  match cancelReason (run_refresh run) with
  | Some reason => throw_error (refreshCancelled (scope st) reason)
  | None => throw_error error
  end.

Definition recordCompletedRefreshCoverage (r : nat) (delta : StatusDelta) : method world unit :=
  run ← get_run r;
  modify_state (fun w => with_coverageRecorder w
    (StatusRefreshCoverageStore.recordCompletedStatusRefreshCoverage
      {| StatusRefreshCoverageStore.done_repositoryId := delta_repositoryId delta;
         StatusRefreshCoverageStore.done_epoch := delta_epoch delta;
         StatusRefreshCoverageStore.done_generation := delta_generation delta;
         StatusRefreshCoverageStore.done_targets := map cloneRefreshTarget (targets (run_refresh run));
         StatusRefreshCoverageStore.done_coverage := map cloneCoverageScope (delta_coverage delta);
         StatusRefreshCoverageStore.done_completeness := delta_completeness delta;
         StatusRefreshCoverageStore.done_timestamp := delta_timestamp delta;
         StatusRefreshCoverageStore.done_source := delta_source delta |} <$> coverageRecorder w)).

(** The second [then]. *)
Definition publish_delta (r : nat) (delta : StatusDelta) : method world unit :=
  _ ← requireRefreshCurrent r;
  _ ← on_stores (publishProjectionDelta delta);
  recordCompletedRefreshCoverage r delta.

Definition finishRefresh (r : nat) : method world unit :=
  run ← get_run r;
  _ ← set_run r (fun run => with_refresh run (dispose (run_refresh run)));
  set_repository (run_state run) (fun st =>
    if bool_decide (currentRefresh st = Some r) then with_currentRefresh st None else st).

(** The [finally]. *)
Definition finish (r : nat) : method world unit :=
  _ ← finishRefresh r;
  run ← get_run r;
  let s := run_state run in
  _ ← set_repository s (fun st => with_flushing st None);
  _ ← set_repository s (fun st =>
        if DirtyPathSet.overflowed (dirtyPaths st) then st else with_overflow st false None);
  match run_kind run with
  | TargetsRun => mret tt
  | FullRun _ _ =>
    w ← get_state;
    if bool_decide (map_get (repositories w) (scope_repositoryId (scope (states w !!! s))) = Some s)
    then scheduleFullReconcile s else mret tt
  end.

(** One reaction of chain [r], and the phase it leaves the chain in. *)
Definition react (r : nat) (w : world) : option world :=
  let to (p : phase) (w : world) := with_runs w (alter (fun run => with_phase run p) r (runs w)) in
  run ← runs w !! r;
  match run_phase run with
  | Pending | Settled _ => None
  | Answered delta =>
      Some match apply_delta r delta w with
      | (Ok _, w') => with_runs w' (alter (fun run => with_applied run delta) r (runs w'))
      | (Throw e, w') => to (Rejected e) w'
      end
  | Rejected error => let (outcome, w') := merge_back r error w in Some (to (Closing outcome) w')
  | Applied delta => let (outcome, w') := publish_delta r delta w in Some (to (Closing outcome) w')
  | Closing outcome => let (_, w') := finish r w in Some (to (Settled outcome) w')
  end.

(** ** Events *)
Inductive event :=
  | Register (sc : RepositoryWatchScope)
  | Unregister (repositoryId : string)
  | FileEvent (repositoryId : string) (e : DirtyFileEvent)
  | Call (c : call)
  | TimerFires (s : nat)
  | FullReconcileTimerFires (s : nat)
  | Resume (waiter : nat)
  | Answer (r : nat) (answer : result StatusDelta)
  | React (r : nat)
  | OperationEnds (b : nat)
  | Abort (signal : nat)
  | OtherComponents (a : app E).

Definition settled (w : world) (p : promise) : bool :=
  match p with
  | Refresh r => match run_phase (runs w !!! r) with Settled _ => true | _ => false end
  | Barrier b => match barriers w !! b with Some (_, released) => released | None => false end
  end.

Definition invoke (c : call) : method world outcome :=
  match c with
  | FlushRepository id signal => flushRepository id signal
  | FullReconcileRepository id epoch signal => fullReconcileRepository id epoch signal
  | RefreshResource id epoch path => refreshResource id epoch path
  | RefreshTargets id epoch requested signal => refreshTargets id epoch requested signal
  | RunExclusive id => runExclusive id
  | RunScheduledFullReconcile id s => runScheduledFullReconcile id s
  | ExclusiveLoop s => exclusive_loop s
  end.

(** An [async] function runs up to its first [await]. *)
Definition start (c : call) (w : world) : world :=
  match invoke c w with
  | (Ok (Awaiting p retry), w') => with_waiters w' (waiters w' ++ [(p, retry)])%list
  | (_, w') => w'
  end.

(** The calls other components make. *)
Definition public (c : call) : bool :=
  match c with RunScheduledFullReconcile _ _ | ExclusiveLoop _ => false | _ => true end.

(** The ["abort"] listeners on a signal. *)
Definition cancelFromCaller (signal : nat) (r : run) : run :=
  if bool_decide (callerSignal (run_refresh r) = Some signal) && negb (aborted (run_refresh r))
  then with_refresh r (cancel UserCancelled (run_refresh r)) else r.

(** [None] where the event cannot happen. *)
Definition exec (ev : event) (w : world) : option world :=
  match ev with
  | Register sc => Some (snd (registerRepository sc w))
  | Unregister id => Some (snd (unregisterRepository id w))
  | FileEvent id e => Some (snd (recordFileEvent id e w))
  | Call c => if public c then Some (start c w) else None
  | TimerFires s =>
      st ← states w !! s;
      if timer st then
        let w := with_states w (alter (fun st => with_timer st false) s (states w)) in
        Some (start (FlushRepository (scope_repositoryId (scope st)) None) w)
      else None
  | FullReconcileTimerFires s =>
      st ← states w !! s;
      if fullReconcileTimer st then
        let w := with_states w (alter (fun st => with_fullReconcileTimer st false) s (states w)) in
        Some (start (RunScheduledFullReconcile (scope_repositoryId (scope st)) s) w)
      else None
  | Resume i =>
      match waiters w !! i with
      | Some (p, c) => if settled w p then Some (start c (with_waiters w (delete i (waiters w)))) else None
      | None => None
      end
  | Answer r answer =>
      run ← runs w !! r;
      match run_phase run with
      | Pending =>
          let p := match answer with Ok delta => Answered delta | Throw e => Rejected e end in
          Some (with_runs w (alter (fun run => with_phase run p) r (runs w)))
      | _ => None
      end
  | React r => react r w
  | OperationEnds b =>
      match barriers w !! b with
      | Some (_, false) => Some (snd (release b w))
      | _ => None
      end
  | Abort signal =>
      Some (with_runs (with_abortedSignals w (set_add (abortedSignals w) signal))
              (map (cancelFromCaller signal) (runs w)))
  | OtherComponents a => Some (with_stores w a)
  end.
End Scheduler.
Arguments world : clear implicits.
Arguments event : clear implicits.

End StatusRefreshScheduler.
