(* ===== verification/SchedulerFacts.v ===== *)
(** The refresh scheduler: what each of its steps moves, and the invariants of its
    reachable worlds. *)

From Stdlib Require Import ZArith Lia String List.
From stdpp Require Import base option list relations strings.
From S2P Require Import Prelude JsString JsMap JsValue StatusTypes StatusStore Paths DirtyPaths DirtyPathsFacts ScmResources ProjectionService Notifications CoverageStore JsDate RefreshScheduler.

Import StatusRefreshScheduler.
Local Open Scope string_scope.

(** ** Lists updated at an index *)
Section Lookups.
Context {A : Type}.
Implicit Types (l : list A) (f : A -> A).

Lemma lookup_alter_inv f i l j y :
  alter f i l !! j = Some y -> exists x, l !! j = Some x /\ (j = i /\ y = f x \/ j <> i /\ y = x).
Proof.
  destruct (decide (j = i)) as [->|Hne].
  - rewrite list_lookup_alter, decide_True by done. intros (x & -> & ->)%fmap_Some. eauto.
  - rewrite list_lookup_alter_ne by done. eauto.
Qed.

Lemma lookup_alter_fwd f i l j x :
  l !! j = Some x -> alter f i l !! j = Some (if decide (j = i) then f x else x).
Proof.
  intros H. destruct (decide (j = i)) as [->|Hne]; [by rewrite list_lookup_alter, decide_True, H|].
  by rewrite list_lookup_alter_ne.
Qed.

Lemma lookup_insert_inv i x l j y :
  <[i := x]> l !! j = Some y -> j = i /\ y = x \/ j <> i /\ l !! j = Some y.
Proof. intros [(-> & -> & _)|[? ?]]%list_lookup_insert_Some; auto. Qed.

Lemma lookup_insert_fwd i x l j y :
  l !! j = Some y -> <[i := x]> l !! j = Some (if decide (j = i) then x else y).
Proof.
  intros H. destruct (decide (j = i)) as [->|Hne]; [|by rewrite list_lookup_insert_ne].
  apply list_lookup_insert_eq. by eapply lookup_lt_Some.
Qed.

Lemma lookup_snoc_inv l x j y : (l ++ [x])%list !! j = Some y -> l !! j = Some y \/ j = length l /\ y = x.
Proof. intros [?|[-> <-]]%lookup_snoc_Some; intuition. Qed.

Lemma lookup_snoc_fwd l x j y : l !! j = Some y -> (l ++ [x])%list !! j = Some y.
Proof. apply lookup_app_l_Some. Qed.

Lemma lookup_snoc_last l x : (l ++ [x])%list !! length l = Some x.
Proof. by apply list_lookup_middle. Qed.

Lemma lookup_total_Some `{Inhabited A} l i x : l !! i = Some x -> l !!! i = x.
Proof. intros Hl. by rewrite list_lookup_total_alt, Hl. Qed.
End Lookups.

(** ** What a dirty-path set holds for an event *)
Section Held.
Variable c : DirtyPathSet.config.
Notation key := (comparisonKey (DirtyPathSet.scope c)).

Definition shows (k : string) (kind : FileEventKind) (t : StatusRefreshTarget) : Prop :=
  covers (key (target_path t)) (target_depth t) k kind.

Definition held (d : DirtyPathSet.state) (k : string) (kind : FileEventKind) : Prop :=
  served c d k kind \/ exists t, t ∈ map_values (DirtyPathSet.explicitTargets d) /\ shows k kind t.

Definition dirty_ok (d : DirtyPathSet.state) : Prop := inv c d /\ tmap_ok (DirtyPathSet.explicitTargets d).

Definition reasons_ok (ts : list StatusRefreshTarget) : Prop := Forall (fun t => nul_free (target_reason t)) ts.

Lemma dirty_ok_new : dirty_ok DirtyPathSet.new_state.
Proof using Type. split; [apply inv_new|apply tmap_ok_nil]. Qed.

Lemma root_shows k kind t : DirtyPathSet.is_root_target t = true -> shows k kind t.
Proof using Type.
  intros [Hp Hd]%andb_prop. apply bool_decide_eq_true_1 in Hp, Hd. left. split; [done|]. left.
  rewrite Hp. by apply caseKey_dot.
Qed.

Lemma record_held d e b d' :
  dirty_ok d -> DirtyPathSet.record c d e = (b, d') ->
  dirty_ok d' /\ (forall k kind, held d k kind -> held d' k kind)
  /\ (b = true -> forall p, repositoryRelativePath (DirtyPathSet.scope c) (event_path e) = Some p ->
        held d' (key p) (event_kind e)).
Proof using Type.
  intros [Hinv Ht] Hr. apply record_ok in Hr as (Hi & _ & Hx & Hs & Ha); [|done].
  split; [split; [done|by rewrite Hx]|]. split.
  - intros k kind [?|?]; [left; auto|right]. by rewrite Hx.
  - intros Hb p Hp. left. auto.
Qed.

Lemma merge_held d ts :
  dirty_ok d -> reasons_ok ts ->
  dirty_ok (DirtyPathSet.mergeTargets d ts) /\ (forall k kind, held d k kind -> held (DirtyPathSet.mergeTargets d ts) k kind)
  /\ (forall k kind t, t ∈ ts -> shows k kind t -> held (DirtyPathSet.mergeTargets d ts) k kind).
Proof using Type.
  intros [Hinv Ht] Hts. destruct (mergeTargets_ok c d ts Hinv Hts) as (Hi & _ & Hs).
  revert Hi Hs. unfold DirtyPathSet.mergeTargets. destruct ts as [|t0 ts'].
  { cbn. intros. split_and!; [done|done|]. by intros ? ? ? ?%elem_of_nil. }
  change (length (t0 :: ts') =? 0)%nat with false. cbn match.
  destruct (existsb DirtyPathSet.is_root_target (t0 :: ts')) eqn:E; intros Hi Hs.
  { split; [split; [done|apply tmap_ok_nil]|]. split; intros; by left; left. }
  destruct (set_targets_ok (t0 :: ts') (DirtyPathSet.explicitTargets d) Ht Hts) as [Hok Hel].
  split; [done|]. split.
  - intros k kind [?|(t & Hin & ?)]; [left; auto|right]. exists t. cbn [DirtyPathSet.explicitTargets DirtyPathSet.with_explicitTargets].
    rewrite Hel. auto.
  - intros k kind t Hin ?. right. exists t. cbn [DirtyPathSet.explicitTargets DirtyPathSet.with_explicitTargets].
    rewrite Hel. auto.
Qed.

Lemma drained_held d :
  dirty_ok d -> reasons_ok (DirtyPathSet.toRefreshTargets d)
  /\ (forall k kind, held d k kind -> exists t, t ∈ DirtyPathSet.toRefreshTargets d /\ shows k kind t).
Proof using Type.
  intros [Hinv _]. destruct (DirtyPathSet.overflowed d) eqn:Hov.
  { unfold DirtyPathSet.toRefreshTargets. rewrite Hov. split; [by repeat constructor|]. intros k kind _.
    eexists. split; [apply list_elem_of_here|by apply root_shows]. }
  split.
  - apply Forall_forall. intros t Ht. rewrite (elem_of_toRefreshTargets c) in Ht by done.
    by eapply Forall_forall in Ht; [|apply (held_targets_nul_free c)].
  - intros k kind [Hs|(t & Hin & Hc)]; [by apply served_toRefreshTargets|].
    exists t. split; [|done]. rewrite (elem_of_toRefreshTargets c) by done.
    unfold held_targets. rewrite !elem_of_app. by left.
Qed.
End Held.

(** ** Calls and phases *)

(** A call the scheduler can serve: reasons without NUL (they are part of the
    keys of targets), and for the loop of [runExclusive] an existing state. *)
Definition call_ok (n : nat) (c : call) : Prop :=
  match c with
  | RefreshTargets _ _ requested _ => forall ts, validateRefreshTargets requested = Ok ts -> reasons_ok ts
  | ExclusiveLoop s => s < n
  | _ => True
  end.

Definition unsettled (p : phase) : Prop := match p with Settled _ => False | _ => True end.

(** The phases in which a run has not yet given its delta to the store, and
    will put its targets back if it fails. *)
Definition in_progress (p : phase) : Prop :=
  match p with Pending | Answered _ | Rejected _ => True | _ => False end.

(** Phase changes that touch nothing else. *)
Inductive phase_edge : phase -> phase -> Prop :=
  | edge_answer d : phase_edge Pending (Answered d)
  | edge_reject e : phase_edge Pending (Rejected e)
  | edge_refuse d e : phase_edge (Answered d) (Rejected e)
  | edge_publish d o : phase_edge (Applied d) (Closing o).

(** Targets of a run: those of the request, and those merged back. *)
Definition run_targets_ok (r : run) : Prop :=
  reasons_ok (targets (run_refresh r)) /\ request_targets (run_request r) = targets (run_refresh r) /\
  match run_kind r with
  | TargetsRun => True
  | FullRun reason pending => targets (run_refresh r) = [fullReconcileTarget reason] /\ reasons_ok pending
  end.

Section Moves.
Context {E : Type}.
Variable options : config.
Notation world := (world E).
Implicit Types w : world.

Definition registered w (s : nat) : Prop :=
  exists st, states w !! s = Some st /\ map_get (repositories w) (scope_repositoryId (scope st)) = Some s.

(** An update of a state object that leaves its refreshes and dirty paths. *)
Record same_core (st st' : RepositoryState) : Prop := {
  core_scope : scope st' = scope st;
  core_dirty : dirtyPaths st' = dirtyPaths st;
  core_flushing : flushing st' = flushing st;
  core_current : currentRefresh st' = currentRefresh st;
}.

Definition timers_set (st : RepositoryState) : Prop := timer st = true \/ fullReconcileTimer st = true.

Inductive move w : world -> Prop :=
  | move_others w' :
      repositories w' = repositories w -> states w' = states w -> runs w' = runs w -> barriers w' = barriers w ->
      (forall p c, (p, c) ∈ waiters w' -> (p, c) ∈ waiters w \/ call_ok (length (states w)) c) ->
      move w w'
  | move_state s f :
      (forall st, same_core st (f st)) ->
      (forall st, states w !! s = Some st -> timers_set (f st) -> timers_set st \/ registered w s) ->
      move w (with_states w (alter f s (states w)))
  | move_record s st e :
      states w !! s = Some st ->
      move w (with_states w (alter (fun st' => with_dirtyPaths st'
        (snd (DirtyPathSet.record (dirty_config options st) (dirtyPaths st) e))) s (states w)))
  | move_drain s st :
      states w !! s = Some st -> DirtyPathSet.toRefreshTargets (dirtyPaths st) = [] ->
      move w (with_states w (alter (fun st' => with_dirtyPaths st' (DirtyPathSet.clear (dirtyPaths st))) s (states w)))
  | move_begin s st d run :
      states w !! s = Some st -> flushing st = None ->
      run_state run = s -> run_phase run = Pending -> appliedDelta run = None -> run_targets_ok run ->
      (d = dirtyPaths st \/
       d = DirtyPathSet.clear (dirtyPaths st) /\
       (run_kind run = TargetsRun /\ targets (run_refresh run) = DirtyPathSet.toRefreshTargets (dirtyPaths st)
        \/ exists reason, run_kind run = FullRun reason (DirtyPathSet.toRefreshTargets (dirtyPaths st)))) ->
      move w (with_states (with_runs w (runs w ++ [run])%list)
        (alter (fun st' => with_flushing (with_currentRefresh (with_dirtyPaths st' d) (Some (length (runs w))))
           (Some (Refresh (length (runs w))))) s (states w)))
  | move_run r run run' :
      runs w !! r = Some run -> run_state run' = run_state run -> run_kind run' = run_kind run ->
      run_request run' = run_request run -> targets (run_refresh run') = targets (run_refresh run) ->
      (cancelReason (run_refresh run) = None \/ cancelReason (run_refresh run') <> None) ->
      appliedDelta run' = appliedDelta run ->
      (run_phase run' = run_phase run \/ phase_edge (run_phase run) (run_phase run')) ->
      move w (with_runs w (<[r := run']> (runs w)))
  | move_apply r run delta :
      runs w !! r = Some run -> run_phase run = Answered delta -> cancelReason (run_refresh run) = None ->
      move w (with_runs w (<[r := with_applied run delta]> (runs w)))
  | move_merge r run e o :
      runs w !! r = Some run -> run_phase run = Rejected e ->
      move w (with_runs (with_states w (alter (fun st => with_dirtyPaths st
                (DirtyPathSet.mergeTargets (dirtyPaths st) (retry_targets run))) (run_state run) (states w)))
              (<[r := with_phase run (Closing o)]> (runs w)))
  | move_finish r run o f :
      runs w !! r = Some run -> run_phase run = Closing o ->
      (forall st, scope (f st) = scope st /\ dirtyPaths (f st) = dirtyPaths st /\ flushing (f st) = None
         /\ (currentRefresh st = Some r -> currentRefresh (f st) = None)
         /\ (forall st0, states w !! run_state run = Some st0 -> timers_set (f st0) -> timers_set st0 \/ registered w (run_state run))) ->
      move w (with_runs (with_states w (alter f (run_state run) (states w)))
              (<[r := with_phase (with_refresh run (dispose (run_refresh run))) (Settled o)]> (runs w)))
  | move_barrier s st :
      states w !! s = Some st -> flushing st = None ->
      move w (with_states (with_barriers w (barriers w ++ [(s, false)])%list)
        (alter (fun st => with_flushing st (Some (Barrier (length (barriers w))))) s (states w)))
  | move_release b s :
      barriers w !! b = Some (s, false) ->
      move w (with_barriers (with_states w (alter (fun st =>
          if bool_decide (flushing st = Some (Barrier b)) then with_flushing st None else st) s (states w)))
        (<[b := (s, true)]> (barriers w)))
  | move_register sc :
      (forall s st, map_get (repositories w) (scope_repositoryId sc) = Some s -> states w !! s = Some st -> ~ timers_set st) ->
      move w (with_repositories (with_states w (states w ++ [new_repository sc])%list)
        (map_set (repositories w) (scope_repositoryId sc) (length (states w))))
  | move_unregister id :
      (forall s st, map_get (repositories w) id = Some s -> states w !! s = Some st -> ~ timers_set st) ->
      move w (with_repositories w (map_delete (repositories w) id)).

(** ** The invariant *)
Record state_wf w (s : nat) (st : RepositoryState) : Prop := {
  wf_dirty : dirty_ok (dirty_config options st) (dirtyPaths st);
  wf_flushing r : flushing st = Some (Refresh r) ->
    exists run, runs w !! r = Some run /\ run_state run = s /\ unsettled (run_phase run);
  wf_barrier b : flushing st = Some (Barrier b) -> barriers w !! b = Some (s, false);
  wf_current r : currentRefresh st = Some r -> flushing st = Some (Refresh r);
  wf_timer : timers_set st -> map_get (repositories w) (scope_repositoryId (scope st)) = Some s;
}.

Record run_wf w (r : nat) (run : run) : Prop := {
  wf_targets : run_targets_ok run;
  wf_state : exists st, states w !! run_state run = Some st /\
    (unsettled (run_phase run) -> flushing st = Some (Refresh r) /\ currentRefresh st = Some r);
  wf_applied : match run_phase run with
    | Pending | Answered _ | Rejected _ => appliedDelta run = None
    | Applied d => appliedDelta run = Some d
    | _ => True end;
}.

Record wf w : Prop := {
  wf_states s st : states w !! s = Some st -> state_wf w s st;
  wf_runs r run : runs w !! r = Some run -> run_wf w r run;
  wf_barriers b s : barriers w !! b = Some (s, false) -> exists st, states w !! s = Some st /\ flushing st = Some (Barrier b);
  wf_repositories id s : map_get (repositories w) id = Some s ->
    exists st, states w !! s = Some st /\ scope_repositoryId (scope st) = id;
  wf_waiters p c : (p, c) ∈ waiters w -> call_ok (length (states w)) c;
}.

Lemma state_wf_ext w w' s st :
  (forall r run, runs w !! r = Some run -> run_state run = s -> unsettled (run_phase run) ->
     exists run', runs w' !! r = Some run' /\ run_state run' = s /\ unsettled (run_phase run')) ->
  (forall b, barriers w !! b = Some (s, false) -> barriers w' !! b = Some (s, false)) ->
  (forall id, map_get (repositories w) id = Some s -> map_get (repositories w') id = Some s) ->
  state_wf w s st -> state_wf w' s st.
Proof using Type.
  intros Hr Hb Hm [H1 H2 H3 H4 H5]. split; auto.
  intros r (run & Hrun & Es & Hu)%H2. eauto.
Qed.

Lemma wf_others w w' :
  repositories w' = repositories w -> states w' = states w -> runs w' = runs w -> barriers w' = barriers w ->
  (forall p c, (p, c) ∈ waiters w' -> (p, c) ∈ waiters w \/ call_ok (length (states w)) c) ->
  wf w -> wf w'.
Proof using Type.
  intros E1 E2 E3 E4 Hw [H1 H2 H3 H4 H5]. split.
  - rewrite E2. intros s st Hs. destruct (H1 s st Hs). split; rewrite ?E1, ?E3, ?E4; auto.
  - rewrite E3. intros r run Hr. destruct (H2 r run Hr). split; rewrite ?E2; auto.
  - by rewrite E4, E2.
  - by rewrite E1, E2.
  - rewrite E2. intros p c [?|?]%Hw; eauto.
Qed.

(** A state object changes, but not its refreshes. *)
Lemma wf_update_state w s f :
  wf w ->
  (forall st, states w !! s = Some st -> state_wf w s st ->
     scope (f st) = scope st /\ flushing (f st) = flushing st /\ currentRefresh (f st) = currentRefresh st /\
     dirty_ok (dirty_config options st) (dirtyPaths (f st)) /\
     (timers_set (f st) -> map_get (repositories w) (scope_repositoryId (scope st)) = Some s)) ->
  wf (with_states w (alter f s (states w))).
Proof using Type.
  intros [H1 H2 H3 H4 H5] Hf.
  assert (forall s' st, states w !! s' = Some st -> exists st', alter f s (states w) !! s' = Some st' /\
    scope st' = scope st /\ flushing st' = flushing st /\ currentRefresh st' = currentRefresh st) as Hfwd.
  { intros s' st Hs. rewrite (lookup_alter_fwd _ _ _ _ _ Hs). destruct (decide (s' = s)) as [->|]; [|by eauto].
    destruct (Hf st Hs (H1 _ _ Hs)) as (? & ? & ? & _). eauto. }
  split; cbn [states runs barriers repositories waiters with_states].
  - intros s' st' (st & Hs & [(-> & ->)|(Hne & ->)])%lookup_alter_inv.
    + destruct (H1 _ _ Hs) as [? A B C ?]. destruct (Hf st Hs (H1 _ _ Hs)) as (E1 & E2 & E3 & Hd & Ht).
      split; cbn [runs barriers repositories with_states]; rewrite ?E1, ?E2, ?E3; try done.
      unfold dirty_config. by rewrite E1.
    + destruct (H1 _ _ Hs). by split.
  - intros r run Hr. destruct (H2 _ _ Hr) as [? (st & Hs & Hu) ?]. split; [done| |done].
    destruct (Hfwd _ _ Hs) as (st' & ? & _ & E2 & E3). exists st'. by rewrite E2, E3.
  - intros b s' (st & Hs & Hfl)%H3. destruct (Hfwd _ _ Hs) as (st' & ? & _ & E2 & _). exists st'. by rewrite E2.
  - intros id s' (st & Hs & Hid)%H4. destruct (Hfwd _ _ Hs) as (st' & ? & E1 & _). exists st'. by rewrite E1.
  - intros p c Hin. rewrite length_alter. eauto.
Qed.

(** A run changes, but not its place. *)
Lemma wf_update_run w r run run' :
  wf w -> runs w !! r = Some run -> run_state run' = run_state run ->
  (unsettled (run_phase run) <-> unsettled (run_phase run')) -> run_targets_ok run' ->
  match run_phase run' with
  | Pending | Answered _ | Rejected _ => appliedDelta run' = None
  | Applied d => appliedDelta run' = Some d
  | _ => True end ->
  wf (with_runs w (<[r := run']> (runs w))).
Proof using Type.
  intros [H1 H2 H3 H4 H5] Hr Es Hu Ht Ha. split; cbn [states runs barriers repositories waiters with_runs]; try done.
  - intros s st Hs. apply (state_wf_ext w); auto. intros r' run0 Hr0 E0 U0. cbn [runs with_runs].
    rewrite (lookup_insert_fwd _ _ _ _ _ Hr0). destruct (decide (r' = r)) as [->|]; [|by eauto].
    assert (run0 = run) as -> by congruence. exists run'. rewrite Es. intuition.
  - intros r' run0 [(-> & ->)|(Hne & Hr0)]%lookup_insert_inv.
    + destruct (H2 _ _ Hr) as [_ (st & Hs & Hfl) _]. split; [done| |done].
      exists st. rewrite Es. split; [done|]. intuition.
    + destruct (H2 _ _ Hr0). by split.
Qed.

Lemma wf_begin w s st d run :
  wf w -> states w !! s = Some st -> flushing st = None -> run_state run = s -> run_phase run = Pending ->
  run_targets_ok run -> appliedDelta run = None -> dirty_ok (dirty_config options st) d ->
  wf (with_states (with_runs w (runs w ++ [run])%list)
        (alter (fun st' => with_flushing (with_currentRefresh (with_dirtyPaths st' d) (Some (length (runs w))))
           (Some (Refresh (length (runs w))))) s (states w))).
Proof using Type.
  intros [H1 H2 H3 H4 H5] Hs Hfl Es Ep Ht Ha Hd.
  split; cbn [states runs barriers repositories waiters with_states with_runs].
  - intros s' st' (st0 & Hs0 & [(-> & ->)|(Hne & ->)])%lookup_alter_inv.
    + assert (st0 = st) as -> by congruence. destruct (H1 _ _ Hs) as [_ _ _ _ Htm].
      split; [done| |done|by intros r [= <-]|exact Htm].
      intros r [= <-]. cbn. exists run. by rewrite lookup_snoc_last, Ep.
    + apply (state_wf_ext w); auto. intros r run0 Hr. cbn. rewrite (lookup_snoc_fwd _ _ _ _ Hr). eauto.
  - intros r run0 [Hr|(-> & ->)]%lookup_snoc_inv.
    + destruct (H2 _ _ Hr) as [? (st0 & Hs0 & Hu) ?]. split; [done| |done].
      cbn [states with_states]. rewrite (lookup_alter_fwd _ _ _ _ _ Hs0). eexists. split; [done|].
      destruct (decide (run_state run0 = s)) as [E0|]; [|done]. intros Hun. exfalso.
      rewrite E0 in Hs0. apply Hu in Hun as [? _]. congruence.
    + split; [done| |by rewrite Ep]. rewrite Es. cbn [states with_states].
      rewrite (lookup_alter_fwd _ _ _ _ _ Hs), decide_True by done. by eexists.
  - intros b s' (st0 & Hs0 & Hb)%H3. rewrite (lookup_alter_fwd _ _ _ _ _ Hs0). eexists. split; [done|].
    destruct (decide (s' = s)) as [->|]; [congruence|done].
  - intros id s' (st0 & Hs0 & Hid)%H4. rewrite (lookup_alter_fwd _ _ _ _ _ Hs0). eexists. split; [done|].
    by destruct (decide (s' = s)).
  - intros p c Hin. rewrite length_alter. eauto.
Qed.

Lemma wf_finish w r run o f :
  wf w -> runs w !! r = Some run -> run_phase run = Closing o ->
  (forall st, scope (f st) = scope st /\ dirtyPaths (f st) = dirtyPaths st /\ flushing (f st) = None
     /\ (currentRefresh st = Some r -> currentRefresh (f st) = None)
     /\ (forall st0, states w !! run_state run = Some st0 -> timers_set (f st0) -> timers_set st0 \/ registered w (run_state run))) ->
  wf (with_runs (with_states w (alter f (run_state run) (states w)))
        (<[r := with_phase (with_refresh run (dispose (run_refresh run))) (Settled o)]> (runs w))).
Proof using Type.
  intros [H1 H2 H3 H4 H5] Hr Ep Hf. destruct (H2 _ _ Hr) as [Ht (st1 & Hs1 & Hu) _].
  rewrite Ep in Hu. destruct (Hu I) as [Hfl Hcur].
  split; cbn [states runs barriers repositories waiters with_states with_runs].
  - intros s' st' (st0 & Hs0 & [(-> & ->)|(Hne & ->)])%lookup_alter_inv.
    + assert (st0 = st1) as -> by congruence. destruct (H1 _ _ Hs1) as [Hd _ _ _ Htm].
      destruct (Hf st1) as (E1 & E2 & E3 & E4 & E5). specialize (E4 Hcur). specialize (E5 _ Hs1).
      split; cbn [runs barriers repositories with_states with_runs].
      * unfold dirty_config. by rewrite E1, E2.
      * by rewrite E3.
      * by rewrite E3.
      * by rewrite E4.
      * rewrite E1. intros [?|(st2 & ? & ?)]%E5; [auto|]. by assert (st2 = st1) as -> by congruence.
    + apply (state_wf_ext w) with (st := st0) (s := s'); try done; [|auto]. intros r' run0 Hr' E0 U0. cbn.
      rewrite (lookup_insert_fwd _ _ _ _ _ Hr'). destruct (decide (r' = r)) as [->|]; [|by eauto].
      congruence.
  - intros r' run0 [(-> & ->)|(Hne & Hr0)]%lookup_insert_inv.
    + split; [by destruct Ht| |done]. cbn [run_state with_phase with_refresh].
      cbn [states with_states with_runs]. rewrite (lookup_alter_fwd _ _ _ _ _ Hs1). eexists. by split.
    + destruct (H2 _ _ Hr0) as [? (st0 & Hs0 & Hu0) ?]. split; [done| |done].
      cbn [states with_states with_runs]. rewrite (lookup_alter_fwd _ _ _ _ _ Hs0). eexists. split; [done|].
      destruct (decide (run_state run0 = run_state run)) as [E0|]; [|done]. intros Hun. exfalso.
      rewrite E0 in Hs0. apply Hu0 in Hun as [? _]. congruence.
  - intros b s' (st0 & Hs0 & Hb)%H3. rewrite (lookup_alter_fwd _ _ _ _ _ Hs0). eexists. split; [done|].
    destruct (decide (s' = run_state run)) as [->|]; [congruence|done].
  - intros id s' (st0 & Hs0 & Hid)%H4. rewrite (lookup_alter_fwd _ _ _ _ _ Hs0). eexists. split; [done|].
    destruct (decide _); [|done]. by destruct (Hf st0) as (-> & _).
  - intros p c Hin. rewrite length_alter. eauto.
Qed.

Lemma wf_new_barrier w s st :
  wf w -> states w !! s = Some st -> flushing st = None ->
  wf (with_states (with_barriers w (barriers w ++ [(s, false)])%list)
        (alter (fun st => with_flushing st (Some (Barrier (length (barriers w))))) s (states w))).
Proof using Type.
  intros [H1 H2 H3 H4 H5] Hs Hfl. split; cbn [states runs barriers repositories waiters with_states with_barriers].
  - intros s' st' (st0 & Hs0 & [(-> & ->)|(Hne & ->)])%lookup_alter_inv.
    + assert (st0 = st) as -> by congruence. destruct (H1 _ _ Hs) as [Hd _ _ Hc Htm].
      split; [done|done| | |exact Htm].
      * intros b [= <-]. apply lookup_snoc_last.
      * intros r Hr. apply Hc in Hr. congruence.
    + apply (state_wf_ext w); auto; [by eauto|]. intros b Hb. by apply lookup_snoc_fwd.
  - intros r run Hr. destruct (H2 _ _ Hr) as [? (st0 & Hs0 & Hu) ?]. split; [done| |done].
    cbn [states with_states]. rewrite (lookup_alter_fwd _ _ _ _ _ Hs0). eexists. split; [done|].
    destruct (decide (run_state run = s)) as [E0|]; [|done]. intros Hun. exfalso.
    rewrite E0 in Hs0. apply Hu in Hun as [? _]. congruence.
  - intros b s' [Hb|(-> & [= ->])]%lookup_snoc_inv.
    + apply H3 in Hb as (st0 & Hs0 & Hb). rewrite (lookup_alter_fwd _ _ _ _ _ Hs0). eexists. split; [done|].
      destruct (decide (s' = s)) as [->|]; [congruence|done].
    + rewrite (lookup_alter_fwd _ _ _ _ _ Hs), decide_True by done. by eexists.
  - intros id s' (st0 & Hs0 & Hid)%H4. rewrite (lookup_alter_fwd _ _ _ _ _ Hs0). eexists. split; [done|].
    by destruct (decide (s' = s)).
  - intros p c Hin. rewrite length_alter. eauto.
Qed.

Lemma wf_release w b s :
  wf w -> barriers w !! b = Some (s, false) ->
  wf (with_barriers (with_states w (alter (fun st =>
          if bool_decide (flushing st = Some (Barrier b)) then with_flushing st None else st) s (states w)))
        (<[b := (s, true)]> (barriers w))).
Proof using Type.
  intros [H1 H2 H3 H4 H5] Hb. destruct (H3 _ _ Hb) as (st & Hs & Hfl).
  split; cbn [states runs barriers repositories waiters with_states with_barriers].
  - intros s' st' (st0 & Hs0 & [(-> & ->)|(Hne & ->)])%lookup_alter_inv.
    + assert (st0 = st) as -> by congruence. rewrite bool_decide_true by done.
      destruct (H1 _ _ Hs) as [Hd _ _ Hc Htm]. split; [done|done|done| |exact Htm].
      intros r Hr. apply Hc in Hr. congruence.
    + apply (state_wf_ext w); auto; [by eauto|]. intros b' Hb'. cbn.
      rewrite (lookup_insert_fwd _ _ _ _ _ Hb'). destruct (decide (b' = b)) as [->|]; [congruence|done].
  - intros r run Hr. destruct (H2 _ _ Hr) as [? (st0 & Hs0 & Hu) ?]. split; [done| |done].
    cbn [states with_states with_barriers]. rewrite (lookup_alter_fwd _ _ _ _ _ Hs0). eexists. split; [done|].
    destruct (decide (run_state run = s)) as [E0|]; [|done]. intros Hun. exfalso.
    rewrite E0 in Hs0. apply Hu in Hun as [? _]. congruence.
  - intros b' s' [(-> & [=])|(Hne & Hb')]%lookup_insert_inv. apply H3 in Hb' as (st0 & Hs0 & Hb').
    rewrite (lookup_alter_fwd _ _ _ _ _ Hs0). eexists. split; [done|].
    destruct (decide (s' = s)); [|done]. rewrite bool_decide_false; [done|congruence].
  - intros id s' (st0 & Hs0 & Hid)%H4. rewrite (lookup_alter_fwd _ _ _ _ _ Hs0). eexists. split; [done|].
    destruct (decide (s' = s)); [|done]. by case_bool_decide.
  - intros p c Hin. rewrite length_alter. eauto.
Qed.

Lemma call_ok_mono n n' c : n <= n' -> call_ok n c -> call_ok n' c.
Proof using Type. destruct c; cbn; try done. lia. Qed.

Lemma wf_register w sc :
  wf w ->
  (forall s st, map_get (repositories w) (scope_repositoryId sc) = Some s -> states w !! s = Some st -> ~ timers_set st) ->
  wf (with_repositories (with_states w (states w ++ [new_repository sc])%list)
        (map_set (repositories w) (scope_repositoryId sc) (length (states w)))).
Proof using Type.
  intros [H1 H2 H3 H4 H5] Ht. split; cbn [states runs barriers repositories waiters with_states with_repositories].
  - intros s st [Hs|(-> & ->)]%lookup_snoc_inv.
    + destruct (H1 _ _ Hs) as [? ? ? ? Htm]. split; try done. intros Hset. specialize (Htm Hset).
      cbn [repositories with_states with_repositories]. rewrite map_get_set.
      case_bool_decide as E0; [|done]. exfalso. eapply Ht; [|done..]. by rewrite E0.
    + split; try done; [apply dirty_ok_new|]. intros [?|?]; done.
  - intros r run Hr. destruct (H2 _ _ Hr) as [? (st0 & Hs0 & Hu) ?]. split; [done| |done].
    cbn [states with_states with_repositories]. rewrite (lookup_snoc_fwd _ _ _ _ Hs0). eauto.
  - intros b s (st0 & Hs0 & Hb)%H3. rewrite (lookup_snoc_fwd _ _ _ _ Hs0). eauto.
  - intros id s. rewrite map_get_set. case_bool_decide as E0.
    + intros [= <-]. rewrite lookup_snoc_last. by eexists.
    + intros (st0 & Hs0 & Hid)%H4. rewrite (lookup_snoc_fwd _ _ _ _ Hs0). eauto.
  - intros p c Hin. eapply call_ok_mono; [|by eapply H5]. rewrite List.length_app. lia.
Qed.

Lemma wf_unregister w id :
  wf w ->
  (forall s st, map_get (repositories w) id = Some s -> states w !! s = Some st -> ~ timers_set st) ->
  wf (with_repositories w (map_delete (repositories w) id)).
Proof using Type.
  intros [H1 H2 H3 H4 H5] Ht. split; cbn [states runs barriers repositories waiters with_repositories]; try done.
  - intros s st Hs. destruct (H1 _ _ Hs) as [? ? ? ? Htm]. split; try done. intros Hset. specialize (Htm Hset).
    cbn [repositories with_repositories]. rewrite map_get_delete. case_bool_decide as E0; [|done].
    exfalso. eapply Ht; [|done..]. by rewrite E0.
  - intros r run Hr. destruct (H2 _ _ Hr). by split.
  - intros id' s. rewrite map_get_delete. case_bool_decide; [done|]. by intros ?%H4.
Qed.

Lemma dirty_ok_clear (c : DirtyPathSet.config) d : dirty_ok c (DirtyPathSet.clear d).
Proof using Type. apply dirty_ok_new. Qed.

Lemma run_targets_ok_same r r' :
  run_kind r' = run_kind r -> run_request r' = run_request r ->
  targets (run_refresh r') = targets (run_refresh r) -> run_targets_ok r -> run_targets_ok r'.
Proof using Type. unfold run_targets_ok. by intros -> -> ->. Qed.

Lemma retry_reasons_ok r : run_targets_ok r -> reasons_ok (retry_targets r).
Proof using Type.
  unfold retry_targets. intros (Ht & _ & Hk). destruct (run_kind r) as [|reason pending]; [done|].
  destruct Hk as [_ Hp]. destruct (cancelReason _); [|done]. constructor; [by destruct reason|done].
Qed.

Lemma move_wf w w' : move w w' -> wf w -> wf w'.
Proof using Type.
  intros Hm Hw. destruct Hm as [|s f Hf Ht|s st e Hs|s st Hs|s st d run Hs Hfl Es Ep Ea Ht Hd
    |r run run' Hr Es Ek Eq Et Hc Ea Hph|r run delta Hr Hph Hnc|r run e o Hr Hph| | | | |].
  - by eapply wf_others.
  - apply wf_update_state; [done|]. intros st Hs Hst. destruct (Hf st) as [E1 E2 E3 E4].
    split_and!; [done..| |]; [rewrite E2; apply Hst|].
    intros [?|(st0 & ? & ?)]%(Ht _ Hs); [by apply Hst|]. by assert (st0 = st) as -> by congruence.
  - apply wf_update_state; [done|]. intros st0 Hs0 Hst. assert (st0 = st) as -> by congruence.
    split_and!; [done..| |apply Hst]. cbn.
    destruct (DirtyPathSet.record _ _ e) as [b d] eqn:Hr. by eapply record_held in Hr as (? & _); [|apply Hst].
  - apply wf_update_state; [done|]. intros st0 Hs0 Hst. split_and!; [done..| |apply Hst]. apply dirty_ok_clear.
  - eapply wf_begin; [done..|]. destruct Hd as [->|(-> & _)]; [|apply dirty_ok_clear].
    by apply (wf_dirty _ _ _ (wf_states _ Hw _ _ Hs)).
  - destruct (wf_runs _ Hw _ _ Hr) as [Hok _ Hap]. eapply wf_update_run; [done..| | |].
    + destruct Hph as [->|[]]; done.
    + by eapply run_targets_ok_same.
    + destruct Hph as [->|Hph]; [by rewrite Ea|]. rewrite Ea. by destruct Hph.
  - destruct (wf_runs _ Hw _ _ Hr) as [Hok _ _]. eapply wf_update_run; [done..|by rewrite Hph|done|done].
  - destruct (wf_runs _ Hw _ _ Hr) as [Hok _ Hap]. pose proof (retry_reasons_ok _ Hok) as Hre.
    eapply (wf_update_run (with_states w _)); [|done|done|by rewrite Hph|done|done].
    apply wf_update_state; [done|]. intros st Hs Hst. split_and!; [done..| |apply Hst].
    by apply merge_held; [apply Hst|].
  - by eapply wf_finish.
  - by eapply wf_new_barrier.
  - by eapply wf_release.
  - by apply wf_register.
  - by apply wf_unregister.
Qed.

(** ** A cancelled refresh gives nothing to the store *)
Definition inert (run : run) : Prop := cancelReason (run_refresh run) <> None /\ appliedDelta run = None.

Lemma move_inert w w' r run :
  move w w' -> runs w !! r = Some run -> inert run ->
  exists run', runs w' !! r = Some run' /\ run_state run' = run_state run /\ inert run'.
Proof using Type.
  intros Hm Hr Hi. destruct Hm as [w' _ _ E3 _ _| | | |s st d run1 _ _ _ _ _ _ _
    |r1 run1 run' Hr1 Es _ _ _ Hc Ea _|r1 run1 delta Hr1 _ Hnc|r1 run1 e o Hr1 _|r1 run1 o f Hr1 _ _| | | |];
    cbn [runs with_states with_runs with_barriers with_repositories]; try (by exists run).
  - exists run. by rewrite E3.
  - exists run. by rewrite (lookup_snoc_fwd _ _ _ _ Hr).
  - rewrite (lookup_insert_fwd _ _ _ _ _ Hr). destruct (decide (r = r1)) as [->|]; [|by eauto].
    assert (run1 = run) as -> by congruence. exists run'. split; [done|]. split; [done|].
    destruct Hi as [Hi1 Hi2], Hc as [?|?]; [done|]. split; [done|congruence].
  - rewrite (lookup_insert_fwd _ _ _ _ _ Hr). destruct (decide (r = r1)) as [->|]; [|by eauto].
    assert (run1 = run) as -> by congruence. by destruct Hi.
  - rewrite (lookup_insert_fwd _ _ _ _ _ Hr). destruct (decide (r = r1)) as [->|]; [|by eauto].
    assert (run1 = run) as -> by congruence. by eexists.
  - rewrite (lookup_insert_fwd _ _ _ _ _ Hr). destruct (decide (r = r1)) as [->|]; [|by eauto].
    assert (run1 = run) as -> by congruence. by eexists.
Qed.

(** ** What answers for an accepted event

    The dirty-path set of the repository, or a run that the event was drained
    into: one whose targets go back to the set if it fails, or one that has
    given the canonical store the answer to a request that shows the event. *)
Definition answers (c : DirtyPathSet.config) (k : string) (kind : FileEventKind) (run : run) : Prop :=
  in_progress (run_phase run) /\ (exists t, t ∈ retry_targets run /\ shows c k kind t)
  \/ appliedDelta run <> None /\ exists t, t ∈ request_targets (run_request run) /\ shows c k kind t.

Definition set_holds w (c : DirtyPathSet.config) (s : nat) (k : string) (kind : FileEventKind) : Prop :=
  exists st, states w !! s = Some st /\ dirty_config options st = c /\ held c (dirtyPaths st) k kind.

(** Only runs from the [n]th on count: those begun after the event. *)
Definition run_answers w (c : DirtyPathSet.config) (n s : nat) (k : string) (kind : FileEventKind) : Prop :=
  exists r run, n <= r /\ runs w !! r = Some run /\ run_state run = s /\ answers c k kind run.

Definition accounted w (c : DirtyPathSet.config) (n s : nat) (k : string) (kind : FileEventKind) : Prop :=
  n <= length (runs w) /\ (exists st, states w !! s = Some st /\ dirty_config options st = c) /\
  (set_holds w c s k kind \/ run_answers w c n s k kind).

Section Accounting.
Variables (c : DirtyPathSet.config) (n s : nat) (k : string) (kind : FileEventKind).
Notation accounted w := (accounted w c n s k kind).
Notation set_holds w := (set_holds w c s k kind).
Notation run_answers w := (run_answers w c n s k kind).
Notation answers := (answers c k kind).

Lemma accounted_step w w' :
  length (runs w) <= length (runs w') ->
  (forall st, states w !! s = Some st -> exists st', states w' !! s = Some st' /\ scope st' = scope st /\
     (n <= length (runs w) -> dirty_config options st = c -> held c (dirtyPaths st) k kind ->
        held c (dirtyPaths st') k kind \/ run_answers w')) ->
  (forall r run, runs w !! r = Some run -> run_state run = s -> answers run ->
     (exists run', runs w' !! r = Some run' /\ run_state run' = s /\ answers run') \/
     (forall st, states w !! s = Some st -> dirty_config options st = c -> set_holds w')) ->
  accounted w -> accounted w'.
Proof using Type.
  intros Hlen Hst Hrun (Hn & (st & Hs & Hc) & Hor). split; [lia|].
  destruct (Hst st Hs) as (st' & Hs' & Hsc & Hheld).
  assert (dirty_config options st' = c) as Hc' by (by unfold dirty_config in *; rewrite Hsc).
  split; [by eauto|]. destruct Hor as [(st0 & ? & ? & Hh)|(r & run & Hle & Hr & Es & Ha)].
  - assert (st0 = st) as -> by congruence. destruct (Hheld Hn Hc Hh) as [?|?]; [left; by exists st'|by right].
  - destruct (Hrun r run Hr Es Ha) as [(run' & ? & ? & ?)|Hset]; [right; by exists r, run'|left; eauto].
Qed.

Lemma retry_answers_request run t :
  run_targets_ok run -> t ∈ retry_targets run -> shows c k kind t ->
  exists t', t' ∈ request_targets (run_request run) /\ shows c k kind t'.
Proof using Type.
  intros (_ & -> & Hk). unfold retry_targets. destruct (run_kind run) as [|reason pending]; [by eauto|].
  destruct Hk as [-> _]. intros _ _. eexists. split; [apply list_elem_of_here|by apply root_shows].
Qed.

Lemma answers_moved run run' :
  run_kind run' = run_kind run -> run_request run' = run_request run ->
  targets (run_refresh run') = targets (run_refresh run) ->
  (cancelReason (run_refresh run) = None \/ cancelReason (run_refresh run') <> None) ->
  appliedDelta run' = appliedDelta run ->
  (run_phase run' = run_phase run \/ phase_edge (run_phase run) (run_phase run')) ->
  answers run -> answers run'.
Proof using Type.
  intros Ek Eq Et Hc Ea Hph [(Hp & t & Ht & Hs)|(Ha & t & Ht & Hs)].
  - left. split; [revert Hp; destruct Hph as [->|[]]; done|]. exists t. split; [|done].
    unfold retry_targets in *. rewrite Ek, Et. destruct (run_kind run) as [|reason pending]; [done|].
    destruct (cancelReason (run_refresh run)), (cancelReason (run_refresh run')); try done; [by destruct Hc|].
    by apply list_elem_of_further.
  - right. rewrite Ea, Eq. eauto.
Qed.

Lemma begin_answers w st d run :
  wf w -> states w !! s = Some st -> dirty_config options st = c -> held c (dirtyPaths st) k kind ->
  run_phase run = Pending ->
  (d = dirtyPaths st \/
   d = DirtyPathSet.clear (dirtyPaths st) /\
   (run_kind run = TargetsRun /\ targets (run_refresh run) = DirtyPathSet.toRefreshTargets (dirtyPaths st)
    \/ exists reason, run_kind run = FullRun reason (DirtyPathSet.toRefreshTargets (dirtyPaths st)))) ->
  held c d k kind \/ answers run.
Proof using Type.
  intros Hw Hs Hc Hh Ep [->|(-> & Hk)]; [by left|right]. left. rewrite Ep. split; [done|].
  pose proof (wf_dirty _ _ _ (wf_states _ Hw _ _ Hs)) as Hd. rewrite Hc in Hd.
  destruct (proj2 (drained_held c _ Hd) k kind Hh) as (t & Ht & Hsh). exists t. split; [|done].
  unfold retry_targets. destruct Hk as [[-> ->]|[reason ->]]; [done|].
  destruct (cancelReason _); [by apply list_elem_of_further|done].
Qed.

Lemma accounted_update w s' f :
  (forall st, scope (f st) = scope st) ->
  (forall st, states w !! s' = Some st -> s' = s -> dirty_config options st = c ->
     held c (dirtyPaths st) k kind -> held c (dirtyPaths (f st)) k kind) ->
  accounted w -> accounted (with_states w (alter f s' (states w))).
Proof using Type.
  intros Hsc Hf. apply accounted_step; [done| |by eauto]. intros st Hs. cbn [states with_states].
  rewrite (lookup_alter_fwd _ _ _ _ _ Hs). eexists. split; [done|].
  destruct (decide (s = s')) as [<-|]; [|by auto]. split; [done|]. intros _ Hc Hh. left. eauto.
Qed.

Lemma accounted_run w r run run' :
  runs w !! r = Some run -> run_state run' = run_state run -> (answers run -> answers run') ->
  accounted w -> accounted (with_runs w (<[r := run']> (runs w))).
Proof using Type.
  intros Hr Es Ha. apply accounted_step; cbn [runs states with_runs]; [by rewrite length_insert|by eauto|].
  intros r' run0 Hr' E0 Ha0. left. rewrite (lookup_insert_fwd _ _ _ _ _ Hr').
  destruct (decide (r' = r)) as [->|]; [|by eauto]. assert (run0 = run) as -> by congruence.
  exists run'. split; [done|]. rewrite Es. auto.
Qed.

Lemma move_accounted w w' : move w w' -> wf w -> accounted w -> accounted w'.
Proof using Type.
  intros Hm Hw. destruct Hm as [w' E1 E2 E3 E4|s0 f Hf Ht|s0 st e Hs|s0 st Hs He|s0 st d run Hs Hfl Es Ep Ea Ht Hd
    |r run run' Hr Es Ek Eq Et Hc Ea Hph|r run delta Hr Hph Hnc|r run e o Hr Hph|r run o f Hr Hph Hf| | | |].
  - apply accounted_step; rewrite ?E3, ?E2; by eauto 10.
  - apply accounted_update; [apply Hf|]. intros st Hs _ _ Hh. by rewrite (core_dirty _ _ (Hf st)).
  - apply accounted_update; [done|]. intros st0 Hs0 -> Hc Hh. assert (st0 = st) as -> by congruence. cbn.
    destruct (DirtyPathSet.record _ _ e) as [b d] eqn:Hr. rewrite Hc in Hr.
    pose proof (wf_dirty _ _ _ (wf_states _ Hw _ _ Hs)) as Hd. rewrite Hc in Hd.
    apply record_held in Hr as (_ & Hk & _); auto.
  - apply accounted_update; [done|]. intros st0 Hs0 -> Hc Hh. assert (st0 = st) as -> by congruence.
    exfalso. pose proof (wf_dirty _ _ _ (wf_states _ Hw _ _ Hs)) as Hd. rewrite Hc in Hd.
    destruct (proj2 (drained_held c _ Hd) k kind Hh) as (t & Hin & _). rewrite He in Hin. by apply elem_of_nil in Hin.
  - apply accounted_step; cbn [runs states with_runs with_states]; [rewrite List.length_app; lia| |].
    + intros st0 Hs0. rewrite (lookup_alter_fwd _ _ _ _ _ Hs0). eexists. split; [done|].
      destruct (decide (s = s0)) as [<-|]; [|by auto]. assert (st0 = st) as -> by congruence. split; [done|].
      intros Hn Hc Hh. destruct (begin_answers w st d run Hw Hs Hc Hh Ep Hd) as [?|?]; [by left|right].
      exists (length (runs w)), run. cbn. by rewrite lookup_snoc_last.
    + intros r run0 Hr E0 Ha. left. exists run0. by rewrite (lookup_snoc_fwd _ _ _ _ Hr).
  - eapply accounted_run; [done..|]. by apply answers_moved.
  - eapply accounted_run; [done..|]. destruct (wf_runs _ Hw _ _ Hr) as [Hok _ _].
    intros [(_ & t & Hin & Hs)|(Ha & Hex)]; right; (split; [done|]); [|done]. by eapply retry_answers_request.
  - destruct (wf_runs _ Hw _ _ Hr) as [Hok (st1 & Hs1 & _) Hap]. pose proof (retry_reasons_ok _ Hok) as Hre.
    rewrite Hph in Hap. apply accounted_step; cbn [runs states with_runs with_states]; [by rewrite length_insert| |].
    + intros st Hs. rewrite (lookup_alter_fwd _ _ _ _ _ Hs). eexists. split; [done|].
      destruct (decide (s = run_state run)) as [->|]; [|by auto]. split; [done|]. intros _ Hc Hh. left.
      pose proof (wf_dirty _ _ _ (wf_states _ Hw _ _ Hs)) as Hd. rewrite Hc in Hd. cbn. by apply merge_held.
    + intros r' run0 Hr' E0 Ha. rewrite (lookup_insert_fwd _ _ _ _ _ Hr').
      destruct (decide (r' = r)) as [->|]; [right|left; by eauto]. assert (run0 = run) as -> by congruence.
      intros st Hs Hc. destruct Ha as [(_ & t & Hin & Hsh)|(? & _)]; [|done].
      pose proof (wf_dirty _ _ _ (wf_states _ Hw _ _ Hs)) as Hd. rewrite Hc in Hd.
      eexists. cbn [states with_runs with_states]. rewrite (lookup_alter_fwd _ _ _ _ _ Hs), decide_True by done.
      split; [done|]. split; [done|]. cbn. eapply merge_held; eauto.
  - intros Hacc. eapply (accounted_run (with_states w _) r run); [done|done| |].
    + intros [(Hp & _)|?]; [by rewrite Hph in Hp|by right].
    + revert Hacc. apply accounted_update; [apply Hf|]. intros st Hs _ _ Hh. by destruct (Hf st) as (_ & -> & _).
  - intros Hacc. apply (accounted_update (with_barriers w _)); [done|done|]. revert Hacc. by apply accounted_step; eauto.
  - assert (forall w, accounted w -> accounted (with_barriers w (<[b := (s0, true)]> (barriers w)))) as Hb
      by (intros w0; apply accounted_step; eauto).
    intros Ha. apply (Hb (with_states w _)). revert Ha. apply accounted_update.
    + intros st. by case_bool_decide.
    + intros st _ _ _. by case_bool_decide.
  - apply accounted_step; cbn [runs states with_repositories with_states]; [done| |by eauto].
    intros st Hs. rewrite (lookup_snoc_fwd _ _ _ _ Hs). eauto 10.
  - by apply accounted_step; eauto.
Qed.
End Accounting.
End Moves.

Import StatusRefreshScheduler.
Local Open Scope string_scope.

Section Facts.
Variable localeCompareEn localeCompare : string -> string -> comparison.
Context {E : Type} (env : SourceControlProjectionService.Environment E).
Variable options : config.
Notation world := (world E).
Notation move := (move options).
Notation moves := (rtc move).
Notation wf := (wf options).
Implicit Types w : world.

Notation markOverflowStaleIfInitialized := (markOverflowStaleIfInitialized localeCompareEn localeCompare env).
Notation cancelInFlight := (cancelInFlightRefreshForDirtyGeneration localeCompareEn localeCompare env).
Notation recordFileEvent := (recordFileEvent localeCompareEn localeCompare env options).
Notation flushRepository := (flushRepository localeCompareEn localeCompare env).

(** ** Lists *)
Lemma alter_Some {A} (f : A -> A) i (l : list A) x : l !! i = Some x -> alter f i l = <[i := f x]> l.
Proof using Type.
  intros H. apply list_eq. intros j. destruct (decide (j = i)) as [->|Hne].
  - rewrite list_lookup_alter, decide_True, H by done. symmetry. apply list_lookup_insert_eq. by eapply lookup_lt_Some.
  - by rewrite list_lookup_alter_ne, list_lookup_insert_ne.
Qed.
Lemma alter_None {A} (f : A -> A) i (l : list A) : l !! i = None -> alter f i l = l.
Proof using Type.
  intros H. apply list_eq. intros j. destruct (decide (j = i)) as [->|Hne]; [|by rewrite list_lookup_alter_ne].
  by rewrite list_lookup_alter, decide_True, H.
Qed.
Lemma alter_id {A} i (l : list A) : alter (fun x => x) i l = l.
Proof using Type.
  apply list_eq. intros j. rewrite list_lookup_alter. case_decide; subst; [|done]. by destruct (l !! j).
Qed.
Lemma alter_insert_eq {A} (f : A -> A) i (l : list A) x : i < length l -> alter f i (<[i := x]> l) = <[i := f x]> l.
Proof using Type.
  intros H. rewrite (alter_Some _ _ _ x) by by apply list_lookup_insert_eq. apply list_eq. intros j.
  destruct (decide (j = i)) as [->|]; [|by rewrite !list_lookup_insert_ne].
  by rewrite !list_lookup_insert_eq by (rewrite ?length_insert; done).
Qed.
Lemma alter_ext {A} (f g : A -> A) i (l : list A) : (forall x, l !! i = Some x -> f x = g x) -> alter f i l = alter g i l.
Proof using Type.
  intros H. destruct (l !! i) as [x|] eqn:Hx; [|by rewrite !alter_None].
  rewrite !(alter_Some _ _ _ _ Hx). f_equal. auto.
Qed.

(** ** Methods step by step *)
Lemma bind_get {B} (f : world -> method world B) w : (x ← get_state; f x) w = f w w.
Proof using Type. done. Qed.
Lemma bind_repository {B} s (f : RepositoryState -> method world B) w :
  (x ← get_repository s; f x) w = f (states w !!! s) w.
Proof using Type. done. Qed.
Lemma bind_set_repository {B} s g (f : unit -> method world B) w :
  (x ← set_repository s g; f x) w = f tt (with_states w (alter g s (states w))).
Proof using Type. done. Qed.
Lemma bind_run {B} r (f : run -> method world B) w : (x ← get_run r; f x) w = f (runs w !!! r) w.
Proof using Type. done. Qed.

(** A method of the stores gives some new stores. *)
Lemma on_stores_shape {A} (m : method (app E) A) w : exists a, snd (on_stores m w) = with_stores w a.
Proof using Type. unfold on_stores, on_part. destruct (m (stores w)) as [r a]. by exists a. Qed.

Lemma stores_move w a : move w (with_stores w a).
Proof using Type. by apply move_others; auto. Qed.

(** [markOverflowStaleIfInitialized] writes the stores and its own flags. *)
Lemma markOverflow_shape s w :
  exists a f, snd (markOverflowStaleIfInitialized s w) = with_states (with_stores w a) (alter f s (states w))
    /\ forall st, same_core st (f st) /\ timer (f st) = timer st /\ fullReconcileTimer (f st) = fullReconcileTimer st.
Proof using Type.
  assert (exists a f, w = with_states (with_stores w a) (alter f s (states w))
    /\ forall st, same_core st (f st) /\ timer (f st) = timer st /\ fullReconcileTimer (f st) = fullReconcileTimer st) as Hid.
  { exists (stores w), (fun st => st). rewrite alter_id. by destruct w. }
  unfold StatusRefreshScheduler.markOverflowStaleIfInitialized. rewrite bind_repository.
  destruct (_ || _); [done|]. destruct (nullish _ _) as [t|]; [|done].
  destruct (toISOString t) as [text|err]; [|done]. unfold mbind, method_bind, lift_result.
  match goal with |- context [on_stores ?m w] => destruct (on_stores_shape m w) as [a Ha];
    destruct (on_stores m w) as [[marked|err] w1] end; cbn in Ha; subst w1; [destruct marked|].
  - exists a, (fun st => with_overflow st true (Some t)). by split.
  - exists a, (fun st => st). rewrite alter_id. by destruct w.
  - exists a, (fun st => st). rewrite alter_id. by destruct w.
Qed.

Lemma core_move s f w :
  (forall st, same_core st (f st) /\ timer (f st) = timer st /\ fullReconcileTimer (f st) = fullReconcileTimer st) ->
  move w (with_states w (alter f s (states w))).
Proof using Type.
  intros Hf. apply move_state; [apply Hf|]. intros st _. destruct (Hf st) as (_ & E1 & E2).
  unfold timers_set. rewrite E1, E2. by left.
Qed.

(** [cancelInFlight] writes the stores and marks one run. *)
Lemma cancel_shape s t w :
  exists a r, snd (cancelInFlight s t w) = with_stores w a
    \/ snd (cancelInFlight s t w) = with_runs (with_stores w a)
         (alter (fun run => with_refresh run (cancel DirtyGenerationSuperseded (run_refresh run))) r (runs w)).
Proof using Type.
  unfold cancelInFlightRefreshForDirtyGeneration. rewrite bind_repository.
  destruct (currentRefresh (states w !!! s)) as [r|]; [|exists (stores w), 0; left; by destruct w].
  rewrite bind_run. destruct (aborted _); [exists (stores w), 0; left; by destruct w|].
  destruct (toISOString t) as [text|err]; [|exists (stores w), 0; left; by destruct w].
  unfold mbind, method_bind, lift_result.
  match goal with |- context [on_stores ?m w] => destruct (on_stores_shape m w) as [a Ha]; destruct (on_stores m w) as [[marked|err] w1] end;
    cbn in Ha; subst w1; exists a, r; [by right|by left].
Qed.

Lemma set_run_move r f w :
  (forall run, run_state (f run) = run_state run /\ run_kind (f run) = run_kind run /\
     run_request (f run) = run_request run /\ targets (run_refresh (f run)) = targets (run_refresh run) /\
     (cancelReason (run_refresh run) = None \/ cancelReason (run_refresh (f run)) <> None) /\
     appliedDelta (f run) = appliedDelta run) ->
  (forall run, runs w !! r = Some run -> run_phase (f run) = run_phase run \/ phase_edge (run_phase run) (run_phase (f run))) ->
  moves w (with_runs w (alter f r (runs w))).
Proof using Type.
  intros Hf Hp. destruct (runs w !! r) as [run|] eqn:Hr.
  - rewrite (alter_Some _ _ _ _ Hr). apply rtc_once. destruct (Hf run) as (?&?&?&?&?&?). eapply move_run; eauto.
  - rewrite alter_None by done. destruct w. apply rtc_refl.
Qed.

(** What a method must leave alone for a repository to stay registered. *)
Definition same_places w w' : Prop :=
  repositories w' = repositories w /\ length (runs w') = length (runs w) /\
  forall s st, states w !! s = Some st -> exists st', states w' !! s = Some st' /\ scope st' = scope st.

Lemma same_places_alter w f s :
  (forall st, scope (f st) = scope st) -> same_places w (with_states w (alter f s (states w))).
Proof using Type.
  intros Hf. split; [done|]. split; [done|]. intros s' st Hs. cbn [states with_states].
  rewrite (lookup_alter_fwd _ _ _ _ _ Hs). eexists. split; [done|]. by destruct (decide (s' = s)).
Qed.

Lemma same_places_trans w1 w2 w3 : same_places w1 w2 -> same_places w2 w3 -> same_places w1 w3.
Proof using Type.
  intros (E1 & L1 & H1) (E2 & L2 & H2). split; [congruence|]. split; [congruence|]. intros s st (st' & Hs & E0)%H1. apply H2 in Hs as (st'' & ? & ?).
  exists st''. split; [done|congruence].
Qed.

Lemma registered_same w w' s : same_places w w' -> registered w s -> registered w' s.
Proof using Type. intros (Er & _ & H) (st & Hs & Hm). apply H in Hs as (st' & ? & Es). exists st'. by rewrite Er, Es. Qed.

Lemma markOverflow_moves s w :
  moves w (snd (markOverflowStaleIfInitialized s w)) /\ same_places w (snd (markOverflowStaleIfInitialized s w)).
Proof using Type.
  destruct (markOverflow_shape s w) as (a & f & -> & Hf). split.
  - eapply rtc_l; [apply (stores_move w a)|]. apply rtc_once. by apply (core_move s f (with_stores w a)).
  - apply (same_places_alter (with_stores w a)). intros st. by apply Hf.
Qed.

Lemma cancel_moves s t w : moves w (snd (cancelInFlight s t w)) /\ same_places w (snd (cancelInFlight s t w)).
Proof using Type.
  destruct (cancel_shape s t w) as (a & r & [->| ->]); (split; [|split; [done|]; split; [cbn; by rewrite ?length_alter|by eauto]]).
  - apply rtc_once, stores_move.
  - eapply rtc_l; [apply (stores_move w a)|]. apply (set_run_move r _ (with_stores w a)); [|by left].
    intros run. by split_and!; try right.
Qed.

(** The world once the dirty-path set has taken the event. *)
Definition recorded w s (d : DirtyPathSet.state) : world :=
  with_states w (alter (fun st => with_dirtyPaths st d) s (states w)).

Lemma scheduleFlush_moves s w : registered w s -> moves w (snd (scheduleFlush s w)).
Proof using Type. intros Hreg. apply rtc_once, move_state; [done|]. by right. Qed.

Lemma recordFileEvent_moves id e w s st b d :
  map_get (repositories w) id = Some s -> states w !! s = Some st -> registered w s ->
  DirtyPathSet.record (dirty_config options st) (dirtyPaths st) e = (b, d) ->
  moves (recorded w s d) (snd (recordFileEvent id e w)) /\ same_places w (snd (recordFileEvent id e w)) /\
  (forall r, fst (recordFileEvent id e w) = Ok r -> r = b /\
     (b = true -> exists st', states (snd (recordFileEvent id e w)) !! s = Some st' /\ timer st' = true)).
Proof using Type.
  intros Hid Hs Hreg Hr. unfold StatusRefreshScheduler.recordFileEvent.
  rewrite (method_bind_ok (require_repository id) _ w s w)
    by (unfold require_repository; rewrite bind_get, Hid; done).
  rewrite bind_repository, (lookup_total_Some _ _ _ Hs). cbn zeta. rewrite Hr, bind_set_repository.
  fold (recorded w s d). set (w1 := recorded w s d).
  assert (same_places w w1) as Hp1 by by apply same_places_alter.
  destruct b; [|split; [apply rtc_refl|split; [exact Hp1|by intros r [= <-]]]]. cbn [negb].
  set (m1 := if _ && _ then _ else _).
  assert (exists w2, m1 w1 = (Ok tt, w2) /\ moves w1 w2 /\ same_places w1 w2) as (w2 & E2 & Hm2 & Hp2).
  { subst m1. destruct (_ && _); [|exists w1; split; [done|]; split; [apply rtc_refl|split; [done|]; by split; eauto]].
    eexists. split; [done|]. split; [|by apply same_places_alter]. apply rtc_once. by apply core_move. }
  rewrite (method_bind_ok m1 _ w1 tt w2 E2). clear m1 E2.
  destruct (markOverflow_moves s w2) as [Hm3 Hp3].
  destruct (markOverflowStaleIfInitialized s w2) as [[[]|err] w3] eqn:E3; cbn [snd] in *.
  2: { rewrite (method_bind_throw _ _ _ _ _ E3). split; [by etrans|split; [|done]].
       exact (same_places_trans _ _ _ Hp1 (same_places_trans _ _ _ Hp2 Hp3)). }
  rewrite (method_bind_ok _ _ _ _ _ E3). destruct (cancel_moves s (event_timestamp e) w3) as [Hm4 Hp4].
  destruct (cancelInFlight s (event_timestamp e) w3) as [[[]|err] w4] eqn:E4; cbn [snd] in *.
  2: { rewrite (method_bind_throw _ _ _ _ _ E4). split; [by etrans; [|etrans]|split; [|done]].
       exact (same_places_trans _ _ _ Hp1 (same_places_trans _ _ _ Hp2 (same_places_trans _ _ _ Hp3 Hp4))). }
  rewrite (method_bind_ok _ _ _ _ _ E4).
  assert (same_places w w4) as Hp
    by exact (same_places_trans _ _ _ Hp1 (same_places_trans _ _ _ Hp2 (same_places_trans _ _ _ Hp3 Hp4))).
  assert (registered w4 s) as Hr4 by by eapply registered_same.
  change (moves w1 (snd (scheduleFlush s w4)) /\ same_places w (snd (scheduleFlush s w4)) /\ forall r, Ok true = Ok r -> r = true /\
    (true = true -> exists st', states (snd (scheduleFlush s w4)) !! s = Some st' /\ timer st' = true)).
  split; [|split; [by eapply same_places_trans; [exact Hp|]; apply same_places_alter|]].
  - etrans; [exact Hm2|]. etrans; [exact Hm3|]. etrans; [exact Hm4|]. by apply scheduleFlush_moves.
  - intros r [= <-]. split; [done|]. intros _. destruct Hr4 as (st4 & Hs4 & _). exists (with_timer st4 true).
    cbn. by rewrite (lookup_alter_fwd _ _ _ _ _ Hs4), decide_True.
Qed.

(** ** Calls *)
Definition new_run w s (ts : list StatusRefreshTarget) (kind : RunKind) (signal : option nat) : run :=
  let sc := scope (states w !!! s) in
  {| run_state := s;
     run_refresh :=
       match signal with
       | None => {| aborted := false; targets := ts; cancelReason := None; callerSignal := None |}
       | Some sig =>
           if set_has (abortedSignals w) sig
           then cancel UserCancelled {| aborted := false; targets := ts; cancelReason := None; callerSignal := None |}
           else {| aborted := false; targets := ts; cancelReason := None; callerSignal := Some sig |}
       end;
     run_kind := kind;
     run_request := {| request_repositoryId := scope_repositoryId sc; request_epoch := scope_epoch sc; request_targets := ts |};
     run_phase := Pending; appliedDelta := None |}.

Lemma new_run_targets w s ts kind signal : targets (run_refresh (new_run w s ts kind signal)) = ts.
Proof using Type. unfold new_run. cbn. destruct signal; [|done]. by destruct (set_has _ _). Qed.

(** A run begins: the set is drained into it ([d]), or left. *)
Definition begun w s (d : DirtyPathSet.state) (run : run) : world :=
  with_states (with_runs w (runs w ++ [run])%list)
    (alter (fun st' => with_flushing (with_currentRefresh (with_dirtyPaths st' d) (Some (length (runs w))))
       (Some (Refresh (length (runs w))))) s (states w)).

Lemma begin_drained w s st d ts kind signal :
  states w !! s = Some st ->
  (_ ← set_repository s (fun st => with_dirtyPaths st d); r ← beginRefresh s ts kind signal; set_flushing s r) w
  = (Ok (Running (Refresh (length (runs w)))), begun w s d (new_run w s ts kind signal)).
Proof using Type.
  intros Hs. rewrite bind_set_repository. unfold beginRefresh, set_flushing, set_repository, begun, new_run, modify_state.
  unfold mbind, method_bind, mret, method_ret, get_state. cbn [runs states with_states with_runs abortedSignals repositories].
  rewrite (lookup_total_Some _ _ _ Hs), (lookup_total_Some _ _ _ (lookup_alter_fwd _ _ _ _ _ Hs)), decide_True by done.
  rewrite !alter_alter. unfold with_states, with_runs. cbn. by destruct signal.
Qed.

Lemma begin_kept w s st ts kind signal :
  states w !! s = Some st ->
  (r ← beginRefresh s ts kind signal; set_flushing s r) w
  = (Ok (Running (Refresh (length (runs w)))), begun w s (dirtyPaths st) (new_run w s ts kind signal)).
Proof using Type.
  intros Hs. rewrite <- (begin_drained w s st) by done. rewrite bind_set_repository.
  rewrite (alter_ext _ (fun st => st)), alter_id; [by destruct w|]. intros st0 Hs0. assert (st0 = st) as -> by congruence.
  by destruct st.
Qed.

(** A call starts with the repository it names. *)
Lemma bind_require {B} id (f : nat -> method world B) w :
  (x ← require_repository id; f x) w
  = match map_get (repositories w) id with Some s => f s w | None => (Throw (notRegistered id), w) end.
Proof using Type. unfold require_repository. by destruct (map_get (repositories w) id) eqn:Hm; unfold mbind, method_bind; cbn; rewrite Hm. Qed.

Lemma begun_move w s st d ts kind signal :
  states w !! s = Some st -> flushing st = None -> run_targets_ok (new_run w s ts kind signal) ->
  (d = dirtyPaths st \/ d = DirtyPathSet.clear (dirtyPaths st) /\
     (kind = TargetsRun /\ ts = DirtyPathSet.toRefreshTargets (dirtyPaths st)
      \/ exists reason, kind = FullRun reason (DirtyPathSet.toRefreshTargets (dirtyPaths st)))) ->
  move w (begun w s d (new_run w s ts kind signal)).
Proof using Type.
  intros Hs Hf Ht Hd. eapply move_begin; [done..|]. rewrite new_run_targets. destruct Hd as [->|(-> & Hd)]; [by left|right].
  split; [done|]. destruct Hd as [[-> ->]|[reason ->]]; [by left|right; by eexists].
Qed.

Lemma new_run_ok w s ts signal : reasons_ok ts -> run_targets_ok (new_run w s ts TargetsRun signal).
Proof using Type. intros H. split; [by rewrite new_run_targets|]. split; [by rewrite new_run_targets|done]. Qed.

Lemma new_full_run_ok w s reason pending signal :
  reasons_ok pending -> run_targets_ok (new_run w s [fullReconcileTarget reason] (FullRun reason pending) signal).
Proof using Type.
  intros H. split; [rewrite new_run_targets; by repeat constructor; destruct reason|].
  split; [by rewrite new_run_targets|]. split; [by rewrite new_run_targets|done].
Qed.

(** The outcome of a call made in [w]: moves, and a retry that can be served. *)
Definition served_by w (r : result outcome * world) : Prop :=
  moves w (snd r) /\ forall p c, fst r = Ok (Awaiting p c) -> snd r = w /\ call_ok (length (states w)) c.

(** [flushRepository] of a registered repository with nothing in flight: the
    set it drains, and the run it begins. *)
Lemma flush_begins id signal w s st :
  map_get (repositories w) id = Some s -> states w !! s = Some st -> flushing st = None ->
  exists w2 st2, moves w w2 /\ states w2 !! s = Some st2 /\ same_core st st2 /\ timer st2 = false /\
    runs w2 = runs w /\
    let ts := DirtyPathSet.toRefreshTargets (dirtyPaths st) in
    flushRepository id signal w =
      match fst (markOverflowStaleIfInitialized s (with_states w (alter (fun st => with_timer st false) s (states w)))) with
      | Throw e => (Throw e, w2)
      | Ok _ =>
        if (length ts =? 0)%nat
        then (Ok Returned, with_states w2 (alter (fun st' => with_dirtyPaths st' (DirtyPathSet.clear (dirtyPaths st2))) s (states w2)))
        else (Ok (Running (Refresh (length (runs w2)))),
              begun w2 s (DirtyPathSet.clear (dirtyPaths st2)) (new_run w2 s ts TargetsRun signal))
      end.
Proof using Type.
  intros Hid Hs Hfl. set (w1 := with_states w (alter (fun st => with_timer st false) s (states w))).
  assert (states w1 !! s = Some (with_timer st false)) as Hs1.
  { cbn. by rewrite (lookup_alter_fwd _ _ _ _ _ Hs), decide_True. }
  destruct (markOverflow_moves s w1) as [Hm _]. destruct (markOverflow_shape s w1) as (a & f & Hsh & Hf).
  exists (snd (markOverflowStaleIfInitialized s w1)), (f (with_timer st false)).
  destruct (Hf (with_timer st false)) as ([C1 C2 C3 C4] & Et & _).
  assert (states (snd (markOverflowStaleIfInitialized s w1)) !! s = Some (f (with_timer st false))) as Hs2.
  { rewrite Hsh. cbn [states with_states]. by rewrite (lookup_alter_fwd _ _ _ _ _ Hs1), decide_True. }
  split; [|split; [exact Hs2|split; [done|split; [done|split; [by rewrite Hsh|]]]]].
  - eapply rtc_l; [|exact Hm]. apply move_state; [done|]. intros st0 _ [?|?]; [done|]. left. by right.
  - cbn zeta. unfold StatusRefreshScheduler.flushRepository. rewrite bind_require, Hid, bind_repository, (lookup_total_Some _ _ _ Hs), Hfl.
    rewrite bind_set_repository. fold w1. cbn [dirtyPaths with_timer] in C2.
    destruct (markOverflowStaleIfInitialized s w1) as [[[]|err] w2] eqn:E2; cbn [fst snd] in *.
    2: { by rewrite (method_bind_throw _ _ _ _ _ E2). }
    rewrite (method_bind_ok _ _ _ _ _ E2), bind_repository, (lookup_total_Some _ _ _ Hs2).
    unfold DirtyPathSet.drainToRefreshTargets. rewrite C2. cbn zeta beta iota.
    destruct (length _ =? 0)%nat; [done|]. by rewrite (begin_drained w2 s _ _ _ _ _ Hs2).
Qed.

Lemma flush_served id signal w : wf w -> served_by w (flushRepository id signal w).
Proof using Type.
  intros Hw. destruct (map_get (repositories w) id) as [s|] eqn:Hid.
  2: { unfold StatusRefreshScheduler.flushRepository. rewrite bind_require, Hid. by split; [apply rtc_refl|]. }
  destruct (wf_repositories _ _ Hw _ _ Hid) as (st & Hs & _). destruct (flushing st) as [p|] eqn:Hfl.
  { unfold StatusRefreshScheduler.flushRepository. rewrite bind_require, Hid, bind_repository, (lookup_total_Some _ _ _ Hs), Hfl.
    split; [apply rtc_refl|]. by intros p' c [= <- <-]. }
  destruct (flush_begins id signal w s st Hid Hs Hfl) as (w2 & st2 & Hm & Hs2 & [C1 C2 C3 C4] & _ & _ & ->).
  pose proof (wf_dirty _ _ _ _ (wf_states _ _ Hw _ _ Hs)) as Hd. apply drained_held in Hd as [Hre _].
  destruct (fst (markOverflowStaleIfInitialized _ _)); [|by split]. destruct (length _ =? 0)%nat eqn:Hlen.
  - split; [|done]. etrans; [exact Hm|]. apply rtc_once. eapply move_drain; [done|]. rewrite C2.
    apply Nat.eqb_eq in Hlen. by apply nil_length_inv.
  - split; [|done]. etrans; [exact Hm|]. apply rtc_once. eapply begun_move; [done|congruence|by apply new_run_ok|].
    right. rewrite C2. split; [done|]. by left.
Qed.

Lemma targets_served s ts retry signal w :
  wf w -> (exists st, states w !! s = Some st) -> reasons_ok ts -> call_ok (length (states w)) retry ->
  served_by w (runRefreshTargets s ts retry signal w).
Proof using Type.
  intros Hw [st Hs] Hts Hc. unfold runRefreshTargets. rewrite bind_repository, (lookup_total_Some _ _ _ Hs).
  destruct (flushing st) as [p|] eqn:Hfl.
  { split; [apply rtc_refl|]. by intros p' c [= <- <-]. }
  rewrite (begin_kept w s st _ _ _ Hs). split; [|done]. apply rtc_once.
  eapply begun_move; [done..|by apply new_run_ok|]. by left.
Qed.

Lemma full_served s reason retry signal w :
  wf w -> (exists st, states w !! s = Some st) -> call_ok (length (states w)) retry ->
  served_by w (runFullReconcile s reason retry signal w).
Proof using Type.
  intros Hw [st Hs] Hc. unfold runFullReconcile. rewrite bind_repository, (lookup_total_Some _ _ _ Hs).
  destruct (flushing st) as [p|] eqn:Hfl.
  { split; [apply rtc_refl|]. by intros p' c [= <- <-]. }
  pose proof (wf_dirty _ _ _ _ (wf_states _ _ Hw _ _ Hs)) as Hd. apply drained_held in Hd as [Hre _].
  unfold clearRepositoryTimers. rewrite bind_set_repository. unfold DirtyPathSet.drainToRefreshTargets.
  set (f := fun st => with_fullReconcileTimer (with_timer st false) false).
  assert (states (with_states w (alter f s (states w))) !! s = Some (f st)) as Hs1.
  { cbn [states with_states]. by rewrite (lookup_alter_fwd _ _ _ _ _ Hs), decide_True. }
  rewrite (begin_drained _ s _ _ _ _ _ Hs1). split; [|done]. eapply rtc_l.
  - apply (move_state _ _ s f); [done|]. by intros st0 _ [?|?].
  - apply rtc_once. eapply begun_move; [done|done|by apply new_full_run_ok|]. right. split; [done|]. right. by exists reason.
Qed.

Lemma exclusive_served s w : wf w -> s < length (states w) -> served_by w (exclusive_loop s w).
Proof using Type.
  intros Hw Hlt. destruct (lookup_lt_is_Some_2 (states w) s Hlt) as [st Hs].
  unfold exclusive_loop. rewrite bind_repository, (lookup_total_Some _ _ _ Hs).
  destruct (flushing st) as [p|] eqn:Hfl.
  { split; [apply rtc_refl|]. by intros p' c [= <- <-]. }
  split; [|done]. apply rtc_once. exact (move_barrier options w s st Hs Hfl).
Qed.

Lemma bind_epoch {B} s code key id epoch (f : unit -> method world B) w :
  (x ← require_epoch s code key id epoch; f x) w
  = if (scope_epoch (scope (states w !!! s)) =? epoch)%Z then f tt w
    else (Throw (epochMismatch code key id (scope_epoch (scope (states w !!! s))) epoch), w).
Proof using Type.
  unfold require_epoch, get_repository, get_state, mbind, method_bind, mret, method_ret. cbn beta iota.
  by destruct (_ =? _)%Z.
Qed.

Notation invoke := (invoke localeCompareEn localeCompare env).
Notation start := (start localeCompareEn localeCompare env).
Notation react := (react localeCompareEn localeCompare env options).
Notation exec := (exec localeCompareEn localeCompare env options).

Lemma refused_served w e : served_by w (Throw e, w).
Proof using Type. by split; [apply rtc_refl|]. Qed.

Lemma invoke_served c w : wf w -> call_ok (length (states w)) c -> served_by w (invoke c w).
Proof using Type.
  intros Hw Hc. assert (forall id s, map_get (repositories w) id = Some s -> exists st, states w !! s = Some st) as Hst.
  { intros id s Hid. destruct (wf_repositories _ _ Hw _ _ Hid) as (st & ? & _). eauto. }
  destruct c as [id signal|id epoch signal|id epoch path|id epoch requested signal|id|id s|s]; cbn [StatusRefreshScheduler.invoke].
  - by apply flush_served.
  - unfold fullReconcileRepository. rewrite bind_require. destruct (map_get (repositories w) id) as [s|] eqn:Hid; [|apply refused_served].
    rewrite bind_epoch. destruct (_ =? _)%Z; [|apply refused_served]. apply full_served; eauto.
  - unfold refreshResource. rewrite bind_require. destruct (map_get (repositories w) id) as [s|] eqn:Hid; [|apply refused_served].
    rewrite bind_epoch. destruct (_ =? _)%Z; [|apply refused_served].
    destruct (negb _); [apply refused_served|]. apply targets_served; eauto. by repeat constructor.
  - unfold refreshTargets. rewrite bind_require. destruct (map_get (repositories w) id) as [s|] eqn:Hid; [|apply refused_served].
    rewrite bind_epoch. destruct (_ =? _)%Z; [|apply refused_served]. cbn in Hc.
    destruct (validateRefreshTargets requested) as [ts|e] eqn:Hv; [|apply refused_served].
    rewrite (method_bind_ok (lift_result (Ok ts)) _ w ts w) by done. apply targets_served; eauto.
    cbn. rewrite Hv. auto.
  - unfold runExclusive. rewrite bind_require. destruct (map_get (repositories w) id) as [s|] eqn:Hid; [|apply refused_served].
    destruct (Hst _ _ Hid) as [st Hs]. apply exclusive_served; [done|by eapply lookup_lt_Some].
  - unfold runScheduledFullReconcile. rewrite bind_get. destruct (negb _) eqn:Hn; [by split; [apply rtc_refl|]|].
    apply negb_false_iff, bool_decide_eq_true_1 in Hn. apply full_served; eauto.
  - by apply exclusive_served.
Qed.

Lemma start_moves c w : wf w -> call_ok (length (states w)) c -> moves w (start c w).
Proof using Type.
  intros Hw Hc. destruct (invoke_served c w Hw Hc) as [Hm Ha]. unfold StatusRefreshScheduler.start.
  destruct (invoke c w) as [[[|p retry|p]|e] w'] eqn:Hi; cbn [fst snd] in *; try done.
  destruct (Ha p retry eq_refl) as [-> Hr]. apply rtc_once, move_others; try done.
  cbn. intros p0 c0 [?|[= -> ->]%list_elem_of_singleton]%elem_of_app; auto.
Qed.

(** ** Reactions *)
Lemma apply_delta_shape r delta w : exists a, snd (apply_delta r delta w) = with_stores w a.
Proof using Type.
  assert (exists a, w = with_stores w a) as Hid by (exists (stores w); by destruct w).
  unfold apply_delta, requireRefreshCurrent, get_run, get_repository, lift_result, mbind, method_bind, mret, method_ret, get_state.
  cbn beta iota. destruct (_ || _); [done|]. destruct (run_kind (runs w !!! r)) as [|reason pending]; cbn beta iota.
  - destruct (on_stores_shape (on_status (StatusSnapshotStore.applyDelta delta)) w) as [a Ha].
    exists a. rewrite <- Ha. by destruct (on_stores _ w) as [[]].
  - destruct (requireFullReconcileDelta delta reason) as [[]|]; [|done].
    destruct (on_stores_shape (on_status (StatusSnapshotStore.applyDelta delta)) w) as [a Ha].
    exists a. rewrite <- Ha. by destruct (on_stores _ w) as [[]].
Qed.

(** It passes only a run that nothing has cancelled. *)
Lemma apply_delta_current r delta w w' u :
  apply_delta r delta w = (Ok u, w') -> cancelReason (run_refresh (runs w !!! r)) = None.
Proof using Type.
  unfold apply_delta, requireRefreshCurrent, get_run, get_repository, mbind, method_bind, mret, method_ret, get_state.
  cbn beta iota. destruct (cancelReason (run_refresh (runs w !!! r))); [|done]. by rewrite orb_true_r.
Qed.

Lemma publish_delta_shape r delta w :
  exists a c, snd (publish_delta localeCompareEn localeCompare env r delta w) = with_coverageRecorder (with_stores w a) c.
Proof using Type.
  assert (exists a c, w = with_coverageRecorder (with_stores w a) c) as Hid.
  { exists (stores w), (coverageRecorder w). by destruct w. }
  unfold publish_delta, requireRefreshCurrent, recordCompletedRefreshCoverage, get_run, get_repository, mbind, method_bind, mret,
    method_ret, get_state, modify_state. cbn beta iota. destruct (_ || _); [done|]. cbn beta iota.
  match goal with |- context [on_stores ?m w] => destruct (on_stores_shape m w) as [a Ha];
    destruct (on_stores m w) as [[[]|err] w1] end; cbn in Ha; subst w1; cbn [snd].
  - by eexists _, _.
  - exists a, (coverageRecorder w). by destruct w.
Qed.

(** The world the [finally] leaves. *)
Definition close_state w r (kind : RunKind) (s : nat) (st : RepositoryState) : RepositoryState :=
  let st := if bool_decide (currentRefresh st = Some r) then with_currentRefresh st None else st in
  let st := with_flushing st None in
  let st := if DirtyPathSet.overflowed (dirtyPaths st) then st else with_overflow st false None in
  match kind, fullReconcileIntervalMs options with
  | FullRun _ _, Some _ =>
      if bool_decide (map_get (repositories w) (scope_repositoryId (scope st)) = Some s)
      then with_fullReconcileTimer st true else st
  | _, _ => st
  end.

Ltac close_run :=
  match goal with H : forall w1 l, runs w1 = _ -> _ |- with_runs ?w1 _ = _ => exact (H w1 [] eq_refl eq_refl) end.

Lemma finish_run r w run o st :
  runs w !! r = Some run -> states w !! run_state run = Some st ->
  with_runs (snd (finish options r w)) (alter (fun run => with_phase run (Settled o)) r (runs (snd (finish options r w))))
  = with_runs (with_states w (alter (close_state w r (run_kind run) (run_state run)) (run_state run) (states w)))
      (<[r := with_phase (with_refresh run (dispose (run_refresh run))) (Settled o)]> (runs w)).
Proof using Type.
  intros Hr Hs. unfold finish, finishRefresh, get_run, set_run, set_repository, get_state, modify_state.
  unfold mbind, method_bind, mret, method_ret. cbn beta iota. cbn [runs states with_runs with_states repositories].
  rewrite (lookup_total_Some _ _ _ Hr). rewrite (lookup_total_Some _ _ _ (lookup_alter_fwd _ _ _ _ _ Hr)), decide_True by done.
  cbn [run_kind run_state with_refresh]. rewrite !alter_alter, (alter_Some _ _ _ _ Hr).
  set (f := fun st => if DirtyPathSet.overflowed _ then _ else _).
  assert (alter f (run_state run) (states w) !! run_state run = Some (f st)) as Hf
    by by rewrite (lookup_alter_fwd _ _ _ _ _ Hs), decide_True.
  assert (forall g, (forall st, states w !! run_state run = Some st -> g (f st) = close_state w r (run_kind run) (run_state run) st) ->
    alter g (run_state run) (alter f (run_state run) (states w))
    = alter (close_state w r (run_kind run) (run_state run)) (run_state run) (states w)) as Hg.
  { intros g Hg. rewrite alter_alter. apply alter_ext. exact Hg. }
  assert (forall w1 l, runs w1 = <[r := with_refresh run (dispose (run_refresh run))]> (runs w) ->
    with_runs w1 l = with_runs (with_states w (states w1)) l ->
    with_runs w1 (alter (fun run => with_phase run (Settled o)) r (runs w1))
    = with_runs (with_states w (states w1)) (<[r := with_phase (with_refresh run (dispose (run_refresh run))) (Settled o)]> (runs w)))
    as Hclose.
  { intros w1 l -> Hw1. rewrite alter_insert_eq by by eapply lookup_lt_Some. injection Hw1 as ? ? ? ? ? ?.
    unfold with_runs, with_states. cbn. congruence. }
  destruct (run_kind run) as [|reason pending]; cbn [snd runs with_states].
  - rewrite <- (Hg (fun st => st)) by done. rewrite alter_id. close_run.
  - rewrite (lookup_total_Some _ _ _ Hf). unfold scheduleFullReconcile, set_repository, modify_state, mret, method_ret.
    case_bool_decide as Hm; cbn [snd runs states with_runs with_states].
    + destruct (fullReconcileIntervalMs options) eqn:Ei; cbn [snd runs states with_runs with_states].
      * rewrite (Hg (fun st => with_fullReconcileTimer st true)); [close_run|].
        intros st0 Hs0. assert (st0 = st) as -> by congruence. unfold close_state. rewrite Ei. fold (f st).
        by rewrite bool_decide_true.
      * rewrite <- (Hg (fun st => st)); [rewrite alter_id; close_run|].
        intros st0 Hs0. unfold close_state. by rewrite Ei.
    + rewrite <- (Hg (fun st => st)); [rewrite alter_id; close_run|].
      intros st0 Hs0. assert (st0 = st) as -> by congruence. unfold close_state. fold (f st).
      rewrite bool_decide_false by done. by destruct (fullReconcileIntervalMs options).
Qed.

Lemma close_state_fields w r kind s st :
  scope (close_state w r kind s st) = scope st /\ dirtyPaths (close_state w r kind s st) = dirtyPaths st /\
  flushing (close_state w r kind s st) = None /\
  (currentRefresh st = Some r -> currentRefresh (close_state w r kind s st) = None) /\
  timer (close_state w r kind s st) = timer st.
Proof using Type.
  unfold close_state. destruct kind, (fullReconcileIntervalMs options);
    repeat (case_bool_decide || destruct (DirtyPathSet.overflowed _)); cbn in *; split_and!; intros; done || congruence.
Qed.

Lemma react_moves r w w' : wf w -> react r w = Some w' -> moves w w'.
Proof using Type.
  intros Hw. unfold StatusRefreshScheduler.react. destruct (runs w !! r) as [run|] eqn:Hr; [|done].
  cbn [mbind option_bind]. destruct (wf_runs _ _ Hw _ _ Hr) as [_ (st & Hs & _) _].
  destruct (run_phase run) as [|delta|error|delta|o|o] eqn:Hph; try done.
  - intros [= <-]. destruct (apply_delta_shape r delta w) as [a Ha].
    destruct (apply_delta r delta w) as [[[]|e] w1] eqn:Had; cbn [snd] in Ha; subst w1;
      (eapply rtc_l; [apply (stores_move w a)|]).
    + apply rtc_once. cbn [runs with_stores]. rewrite (alter_Some _ _ _ _ Hr).
      apply apply_delta_current in Had. rewrite (lookup_total_Some _ _ _ Hr) in Had.
      by apply (move_apply options (with_stores w a) r run delta).
    + apply (set_run_move r _ (with_stores w a)); [intros; split_and!; try done; by destruct (cancelReason _); [right|left]|].
      cbn. intros run0 Hr0. assert (run0 = run) as -> by congruence. rewrite Hph. right. constructor.
  - destruct (merge_back r error w) as [o w1] eqn:Hmb. intros [= <-]. apply rtc_once.
    unfold merge_back, get_run, get_repository, set_repository, get_state, modify_state, mbind, method_bind, mret, method_ret in Hmb.
    cbn beta iota in Hmb. rewrite (lookup_total_Some _ _ _ Hr), (lookup_total_Some _ _ _ Hs) in Hmb.
    assert (w1 = with_states w (alter (fun st => with_dirtyPaths st (DirtyPathSet.mergeTargets (dirtyPaths st) (retry_targets run)))
      (run_state run) (states w))) as -> by (destruct (cancelReason _); by injection Hmb).
    cbn [runs with_states]. rewrite (alter_Some _ _ _ _ Hr). by eapply (move_merge options w r run error o).
  - destruct (publish_delta_shape r delta w) as (a & c & Ha).
    destruct (publish_delta _ _ _ r delta w) as [o w1]; cbn [snd] in Ha; subst w1. intros [= <-].
    eapply (rtc_l _ _ (with_coverageRecorder (with_stores w a) c)); [by apply move_others; auto|].
    apply (set_run_move r _ (with_coverageRecorder (with_stores w a) c));
      [intros; split_and!; try done; by destruct (cancelReason _); [right|left]|].
    cbn. intros run0 Hr0. assert (run0 = run) as -> by congruence. rewrite Hph. right. constructor.
  - intros H. assert (w' = with_runs (snd (finish options r w)) (alter (fun run => with_phase run (Settled o)) r
      (runs (snd (finish options r w))))) as -> by (destruct (finish options r w); by injection H).
    rewrite (finish_run r w run o st Hr Hs). apply rtc_once. eapply move_finish; [done..|].
    intros st1. destruct (close_state_fields w r (run_kind run) (run_state run) st1) as (E1 & E2 & E3 & E4 & E5).
    split_and!; [done..|]. intros st0 Hs0 Ht. assert (st0 = st) as -> by congruence.
    destruct Ht as [Ht|Ht].
    + left; left. by destruct (close_state_fields w r (run_kind run) (run_state run) st) as (_ & _ & _ & _ & <-).
    + unfold close_state in Ht. destruct (run_kind run), (fullReconcileIntervalMs options);
        repeat (case_bool_decide || destruct (DirtyPathSet.overflowed _)); cbn in Ht; try (by left; right);
        right; exists st; by split.
Qed.

(** ** Events *)
Definition event_ok (ev : event E) : Prop :=
  match ev with Call c => call_ok 0 c | _ => True end.

Lemma moves_wf w w' : moves w w' -> wf w -> wf w'.
Proof using Type. induction 1; [done|]. intros Hw. by eauto using move_wf. Qed.

Lemma clear_timers_moves s w :
  let w1 := snd (clearRepositoryTimers s w) in
  move w w1 /\ repositories w1 = repositories w /\ length (states w1) = length (states w) /\
  forall st, states w1 !! s = Some st -> ~ timers_set st.
Proof using Type.
  split_and!; [|done|apply length_alter|].
  - apply move_state; [done|]. by intros st _ [?|?].
  - cbn. intros st (st0 & _ & [(_ & ->)|(? & _)])%lookup_alter_inv; [|done]. by intros [?|?].
Qed.

Lemma register_moves sc w : moves w (snd (registerRepository options sc w)).
Proof using Type.
  unfold registerRepository. rewrite bind_get.
  set (m := match map_get _ _ with Some existing => _ | None => _ end).
  assert (exists w1, m w = (Ok tt, w1) /\ moves w w1 /\ repositories w1 = repositories w /\
    length (states w1) = length (states w) /\
    (forall s st, map_get (repositories w) (scope_repositoryId sc) = Some s -> states w1 !! s = Some st -> ~ timers_set st))
    as (w1 & E1 & Hm & Er & El & Ht).
  { subst m. destruct (map_get (repositories w) (scope_repositoryId sc)) as [s|].
    - destruct (clear_timers_moves s w) as (H1 & H2 & H3 & H4). eexists. split; [done|]. split; [by apply rtc_once|].
      split; [done|]. split; [exact H3|]. intros s0 st [= <-]. exact (H4 st).
    - exists w. split_and!; try done. }
  rewrite (method_bind_ok m _ w tt w1 E1). clear m E1.
  set (w2 := with_repositories (with_states w1 (states w1 ++ [new_repository sc])%list)
    (map_set (repositories w1) (scope_repositoryId sc) (length (states w1)))).
  change (moves w (snd (scheduleFullReconcile options (length (states w))
    (with_repositories (with_states w1 (states w1 ++ [new_repository sc])%list)
      (map_set (repositories w1) (scope_repositoryId sc) (length (states w))))))).
  rewrite <- El. fold w2. etrans; [exact Hm|]. eapply rtc_l.
  - apply (move_register options w1 sc). by rewrite Er.
  - fold w2. unfold scheduleFullReconcile. destruct (fullReconcileIntervalMs options); [|apply rtc_refl].
    apply rtc_once, move_state; [done|]. intros st Hs _. right. exists (new_repository sc). cbn.
    rewrite lookup_snoc_last. split; [done|]. apply map_get_set_eq.
Qed.

Lemma unregister_moves id w : moves w (snd (unregisterRepository id w)).
Proof using Type.
  unfold unregisterRepository. rewrite bind_get. destruct (map_get (repositories w) id) as [s|] eqn:Hid.
  - destruct (clear_timers_moves s w) as (H1 & H2 & _ & H4). eapply rtc_l; [exact H1|]. apply rtc_once.
    apply (move_unregister options (snd (clearRepositoryTimers s w)) id). rewrite H2, Hid. intros s0 st [= <-]. exact (H4 st).
  - apply rtc_once. apply (move_unregister options w id). by rewrite Hid.
Qed.

Lemma cancel_each_moves (f : run -> run) w :
  (forall run, run_state (f run) = run_state run /\ run_kind (f run) = run_kind run /\
     run_request (f run) = run_request run /\ targets (run_refresh (f run)) = targets (run_refresh run) /\
     (cancelReason (run_refresh run) = None \/ cancelReason (run_refresh (f run)) <> None) /\
     appliedDelta (f run) = appliedDelta run) ->
  (forall run, run_phase (f run) = run_phase run) ->
  moves w (with_runs w (map f (runs w))).
Proof using Type.
  intros Hf Hp. assert (forall l1 l2, runs w = (l1 ++ l2)%list -> moves (with_runs w (map f l1 ++ l2)%list) (with_runs w (map f (runs w)))) as H.
  { intros l1 l2. revert l1. induction l2 as [|run l2 IH]; intros l1 El.
    - rewrite List.app_nil_r in *. rewrite El. apply rtc_refl.
    - etrans; [|apply (IH (l1 ++ [run])%list); rewrite El; apply (List.app_assoc l1 [run] l2)].
      pose proof (set_run_move (length l1) f (with_runs w (map f l1 ++ run :: l2)%list) Hf) as Hm.
      rewrite (alter_Some _ _ _ run) in Hm.
      + cbn [runs with_runs] in Hm. rewrite insert_app_r_alt in Hm by (rewrite length_map; lia).
        rewrite length_map, Nat.sub_diag in Hm. cbn in Hm. rewrite map_app, <- List.app_assoc. cbn.
        apply Hm. intros run0 _. left. apply Hp.
      + cbn. rewrite lookup_app_r by (rewrite length_map; lia). by rewrite length_map, Nat.sub_diag. }
  specialize (H [] (runs w) eq_refl). cbn in H. by destruct w.
Qed.

Lemma exec_moves ev w w' : wf w -> event_ok ev -> exec ev w = Some w' -> moves w w'.
Proof using Type.
  intros Hw Hok. destruct ev as [sc|id|id e|c|s|s|i|r answer|r|b|signal|a]; cbn [StatusRefreshScheduler.exec].
  - intros [= <-]. apply register_moves.
  - intros [= <-]. apply unregister_moves.
  - intros [= <-]. destruct (map_get (repositories w) id) as [s|] eqn:Hid.
    + destruct (wf_repositories _ _ Hw _ _ Hid) as (st & Hs & Hsc).
      destruct (DirtyPathSet.record (dirty_config options st) (dirtyPaths st) e) as [b d] eqn:Hr.
      destruct (recordFileEvent_moves id e w s st b d Hid Hs) as [Hm _]; [by exists st; rewrite Hsc|done|].
      eapply rtc_l; [|exact Hm]. replace d with (snd (DirtyPathSet.record (dirty_config options st) (dirtyPaths st) e)) by by rewrite Hr.
      by apply (move_record options w s st e).
    + unfold StatusRefreshScheduler.recordFileEvent. rewrite bind_require, Hid. apply rtc_refl.
  - destruct (public c); [|done]. intros [= <-]. apply start_moves; [done|]. eapply call_ok_mono; [|exact Hok]. lia.
  - destruct (states w !! s) as [st|] eqn:Hs; [|done]. cbn. destruct (timer st) eqn:Ht; [|done]. intros [= <-].
    assert (move w (with_states w (alter (fun st => with_timer st false) s (states w)))) as Hm.
    { apply move_state; [done|]. intros st0 _ [?|?]; [done|left; by right]. }
    eapply rtc_l; [exact Hm|]. apply start_moves; [by eapply move_wf|done].
  - destruct (states w !! s) as [st|] eqn:Hs; [|done]. cbn. destruct (fullReconcileTimer st) eqn:Ht; [|done]. intros [= <-].
    assert (move w (with_states w (alter (fun st => with_fullReconcileTimer st false) s (states w)))) as Hm.
    { apply move_state; [done|]. intros st0 _ [?|?]; [left; by left|done]. }
    eapply rtc_l; [exact Hm|]. apply start_moves; [by eapply move_wf|done].
  - destruct (waiters w !! i) as [[p c]|] eqn:Hi; [|done]. destruct (settled w p); [|done]. intros [= <-].
    assert (move w (with_waiters w (delete i (waiters w)))) as Hm.
    { apply move_others; try done. intros p0 c0 Hin. left. cbn in Hin. eapply elem_of_submseteq; [exact Hin|]. apply sublist_submseteq, sublist_delete. }
    eapply rtc_l; [exact Hm|]. apply start_moves; [by eapply move_wf|]. cbn.
    apply (wf_waiters _ _ Hw p). by eapply list_elem_of_lookup_2.
  - destruct (runs w !! r) as [run|] eqn:Hr; [|done]. cbn. destruct (run_phase run) eqn:Hph; try done. intros [= <-].
    apply set_run_move; [intros; split_and!; try done; by destruct (cancelReason _); [right|left]|].
    intros run0 Hr0. assert (run0 = run) as -> by congruence. rewrite Hph. right. destruct answer; constructor.
  - by apply react_moves.
  - destruct (barriers w !! b) as [[s [|]]|] eqn:Hb; try done. intros [= <-]. apply rtc_once.
    unfold release. rewrite bind_get, Hb. by apply (move_release options w b s).
  - intros [= <-]. eapply (rtc_l _ _ (with_abortedSignals w (set_add (abortedSignals w) signal))).
    { by apply move_others; auto. }
    apply (cancel_each_moves _ (with_abortedSignals w (set_add (abortedSignals w) signal))).
    + intros run. unfold cancelFromCaller. destruct (_ && _); split_and!; try done; [by right|by destruct (cancelReason _); [right|left]].
    + intros run. unfold cancelFromCaller. by destruct (_ && _).
  - intros [= <-]. apply rtc_once, stores_move.
Qed.
End Facts.
