(* ===== verification/SchedulerStores.v ===== *)
(** The refresh scheduler and the two stores: what keeps them in step. *)

From Stdlib Require Import ZArith Lia String List.
From stdpp Require Import base option list relations strings.
From S2P Require Import Prelude JsString JsMap JsValue JsDate StatusTypes StatusWire StatusWireFacts StatusStore StatusStoreFacts.
From S2P Require Import Paths DirtyPaths DirtyPathsFacts ScmResources StoresAgree ProjectionService Notifications NotificationsFacts CoverageStore.
From S2P Require Import RefreshScheduler SchedulerFacts.

Import StatusRefreshScheduler.
Local Open Scope string_scope.

Section Stores.
Variable localeCompareEn localeCompare : string -> string -> comparison.
Variable win32 : bool.
Context {E : Type} (env : SourceControlProjectionService.Environment E).
Variable options : config.
Notation world := (world E).
Notation in_step := (in_step localeCompareEn (E:=E)).
Notation pending := (pending localeCompareEn (E:=E)).

(** ** The scheduler's publications *)
Lemma canonical_replaced id epoch generation :
  triple in_step (replaceProjectionFromCanonicalSnapshot localeCompareEn localeCompare env id epoch generation)
    (fun _ => in_step) (fun _ => in_step).
Proof using Type.
  unfold replaceProjectionFromCanonicalSnapshot. apply triple_get. intros a0.
  destruct (StatusSnapshotStore.getSnapshot (statusSnapshotStore a0) id) as [snapshot|] eqn:Hs;
    [|by apply triple_throw; intros a [_ ?]].
  destruct (negb _); [by apply triple_throw; intros a [_ ?]|].
  destruct (match generation with Some g => _ | None => _ end); [by apply triple_throw; intros a [_ ?]|].
  eapply (triple_bind _ _ _ (fun _ => in_step)); [|by intros _ a].
  intros a [-> [Hss Hag]].
  apply (publish_in_step localeCompareEn env _ (statusSnapshotStore a0) (agree localeCompareEn (statusSnapshotStore a0))); [done| |done].
  intros st Hst. by apply (replace_canonical _ _ _ _ id).
Qed.

Lemma publish_keeps {A} m (update : method (app E) A) id epoch generation :
  triple (pending m) update (fun _ => in_step) (fun _ => in_step) ->
  triple (pending m)
    (try_catch (_ ← update; mret tt) (fun error =>
       _ ← replaceProjectionFromCanonicalSnapshot localeCompareEn localeCompare env id epoch generation;
       throw_error error)) (fun _ => in_step) (fun _ => in_step).
Proof using Type.
  intros Hu. apply (triple_catch _ _ _ _ (fun _ => in_step)).
  - eapply triple_bind; [exact Hu|]. by intros ? a Ha.
  - intros e. eapply triple_bind; [apply canonical_replaced|]. intros ?. by apply triple_throw.
Qed.

Lemma stale_published mark :
  triple (pending (MStale mark)) (publishProjectionStale localeCompareEn localeCompare env mark)
    (fun _ => in_step) (fun _ => in_step).
Proof using Type. apply publish_keeps. by apply (publish_pending localeCompareEn localeCompare env (MStale mark)). Qed.

Lemma delta_published delta :
  triple (pending (MDelta delta)) (publishProjectionDelta localeCompareEn localeCompare env delta)
    (fun _ => in_step) (fun _ => in_step).
Proof using Type. apply publish_keeps. by apply (publish_pending localeCompareEn localeCompare env (MDelta delta)). Qed.

Lemma stale_marked epoch mark :
  triple in_step (markStaleIfInitialized localeCompareEn localeCompare env epoch mark) (fun _ => in_step) (fun _ => in_step).
Proof using Type.
  unfold markStaleIfInitialized. apply triple_get. intros a0.
  intros a [_ Ha]. revert a Ha. apply (triple_bind in_step _ _ (fun _ => in_step)); [apply reader_triple, reader_projection|]. intros projection.
  assert (triple in_step (_ ← on_status (StatusSnapshotStore.markStale mark);
    _ ← publishProjectionStale localeCompareEn localeCompare env mark; mret true) (fun _ => in_step) (fun _ => in_step)) as Hm.
  { eapply triple_bind; [apply (status_pending localeCompareEn true (MStale mark)); [done|intros ss; reflexivity]|]. intros ?.
    eapply triple_bind; [apply stale_published|]. by intros ? a Ha. }
  destruct (StatusSnapshotStore.getSnapshot _ _), projection; repeat (destruct (negb _)); cbn iota;
    first [exact Hm | by apply triple_throw | by intros a Ha].
Qed.

(** ** The scheduler's methods *)
Definition keeps {A} (m : method world A) : Prop :=
  triple (fun w => in_step (stores w)) m (fun _ w => in_step (stores w)) (fun _ w => in_step (stores w)).

Lemma keeps_bind {A B} (m : method world A) (f : A -> method world B) :
  keeps m -> (forall x, keeps (f x)) -> keeps (x ← m; f x).
Proof using Type. intros Hm Hf. eapply triple_bind; [exact Hm|]. exact Hf. Qed.
Lemma keeps_same {A} (m : method world A) : (forall w, stores (snd (m w)) = stores w) -> keeps m.
Proof using Type. intros Hm w Hw. specialize (Hm w). destruct (m w) as [[x|e] w']; cbn in *; by rewrite Hm. Qed.
Lemma keeps_stores {A} (m : method (app E) A) : triple in_step m (fun _ => in_step) (fun _ => in_step) -> keeps (on_stores m).
Proof using Type. intros Hm w Hw. specialize (Hm _ Hw). unfold on_stores, on_part. by destruct (m (stores w)) as [[x|e] a]. Qed.

Lemma keeps_mark epoch mark : keeps (on_stores (markStaleIfInitialized localeCompareEn localeCompare env epoch mark)).
Proof using Type. apply keeps_stores, stale_marked. Qed.

Ltac keeps_step := first
  [ progress intros | apply keeps_bind | apply keeps_mark | (by apply keeps_same) | case_match ].

Lemma keeps_overflow s : keeps (markOverflowStaleIfInitialized localeCompareEn localeCompare env s).
Proof using Type. unfold markOverflowStaleIfInitialized. repeat keeps_step. Qed.

Lemma keeps_cancel s t : keeps (cancelInFlightRefreshForDirtyGeneration localeCompareEn localeCompare env s t).
Proof using Type. unfold cancelInFlightRefreshForDirtyGeneration. repeat keeps_step. Qed.

Lemma keeps_require id : keeps (require_repository id).
Proof using Type. apply keeps_same. intros w. unfold require_repository. rewrite bind_get. by case_match. Qed.

Lemma keeps_record id e : keeps (recordFileEvent localeCompareEn localeCompare env options id e).
Proof using Type.
  unfold recordFileEvent. apply keeps_bind; [apply keeps_require|]. intros s. apply keeps_bind; [by apply keeps_same|].
  intros st. destruct (DirtyPathSet.record _ _ e) as [b d]. apply keeps_bind; [by apply keeps_same|]. intros _.
  destruct b; [|by apply keeps_same]. apply keeps_bind; [case_match; by apply keeps_same|]. intros _.
  apply keeps_bind; [apply keeps_overflow|]. intros _. apply keeps_bind; [apply keeps_cancel|]. intros _. by apply keeps_same.
Qed.

Lemma keeps_begin s ts kind signal :
  keeps (r ← beginRefresh s ts kind signal; set_flushing s r).
Proof using Type. by apply keeps_same. Qed.

Lemma keeps_flush id signal : keeps (flushRepository localeCompareEn localeCompare env id signal).
Proof using Type.
  unfold flushRepository. apply keeps_bind; [apply keeps_require|]. intros s. apply keeps_bind; [by apply keeps_same|].
  intros st. case_match; [by apply keeps_same|]. apply keeps_bind; [by apply keeps_same|]. intros _.
  apply keeps_bind; [apply keeps_overflow|]. intros _. apply keeps_bind; [by apply keeps_same|]. intros st'.
  destruct (DirtyPathSet.drainToRefreshTargets _) as [ts d]. apply keeps_bind; [by apply keeps_same|]. intros _.
  case_match; [by apply keeps_same|]. apply keeps_begin.
Qed.

Lemma keeps_targets s ts retry signal : keeps (runRefreshTargets s ts retry signal).
Proof using Type.
  unfold runRefreshTargets. apply keeps_bind; [by apply keeps_same|]. intros st. case_match; [by apply keeps_same|].
  apply keeps_begin.
Qed.

Lemma keeps_full s reason retry signal : keeps (runFullReconcile s reason retry signal).
Proof using Type.
  unfold runFullReconcile. apply keeps_bind; [by apply keeps_same|]. intros st. case_match; [by apply keeps_same|].
  apply keeps_bind; [by apply keeps_same|]. intros _. destruct (DirtyPathSet.drainToRefreshTargets _) as [ts d].
  apply keeps_bind; [by apply keeps_same|]. intros _. apply keeps_begin.
Qed.

Lemma keeps_epoch s code key id epoch : keeps (require_epoch s code key id epoch).
Proof using Type. apply keeps_same. intros w. unfold require_epoch. rewrite bind_repository. by case_match. Qed.

Lemma keeps_exclusive s : keeps (exclusive_loop s).
Proof using Type.
  unfold exclusive_loop. apply keeps_bind; [by apply keeps_same|]. intros st. case_match; by apply keeps_same.
Qed.

Lemma keeps_invoke c : keeps (invoke localeCompareEn localeCompare env c).
Proof using Type.
  destruct c; cbn [invoke].
  - apply keeps_flush.
  - repeat (apply keeps_bind; [first [apply keeps_require|apply keeps_epoch]|intros ?]). apply keeps_full.
  - repeat (apply keeps_bind; [first [apply keeps_require|apply keeps_epoch]|intros ?]).
    case_match; [by apply keeps_same|apply keeps_targets].
  - do 3 (apply keeps_bind; [first [apply keeps_require|apply keeps_epoch|by apply keeps_same]|intros ?]). apply keeps_targets.
  - apply keeps_bind; [apply keeps_require|]. apply keeps_exclusive.
  - unfold runScheduledFullReconcile. apply keeps_bind; [by apply keeps_same|]. intros w.
    case_match; [by apply keeps_same|apply keeps_full].
  - apply keeps_exclusive.
Qed.

Lemma keeps_start c w : in_step (stores w) -> in_step (stores (start localeCompareEn localeCompare env c w)).
Proof using Type.
  intros Hw. pose proof (keeps_invoke c w Hw) as H. unfold start.
  by destruct (invoke _ _ _ c w) as [[[]|] w'].
Qed.

(** The two reactions between which the projection store is behind. *)
Definition publishes (w : world) (ev : event E) : Prop :=
  match ev with
  | React r => match run_phase (runs w !!! r) with Answered _ | Applied _ => True | _ => False end
  | OtherComponents _ => True
  | _ => False
  end.

Lemma run_result {A} (m : method world A) (w : world) :
  keeps m -> in_step (stores w) -> in_step (stores (snd (m w))).
Proof using Type. intros Hm Hw. specialize (Hm w Hw). by destruct (m w) as [[x|e] w']. Qed.

Lemma keeps_clear w s : stores (snd (clearRepositoryTimers (E:=E) s w)) = stores w.
Proof using Type. done. Qed.

Lemma exec_keeps ev w w' :
  ~ publishes w ev -> exec localeCompareEn localeCompare env options ev w = Some w' ->
  in_step (stores w) -> in_step (stores w').
Proof using Type.
  intros Hp Hx Hw. destruct ev as [sc|id|id e|c|s|s|i|r answer|r|b|signal|a]; cbn [exec] in Hx.
  - injection Hx as <-. apply run_result; [|done]. unfold registerRepository. apply keeps_bind; [by apply keeps_same|].
    intros w0. apply keeps_bind; [case_match; by apply keeps_same|]. intros _.
    unfold scheduleFullReconcile. case_match; by apply keeps_same.
  - injection Hx as <-. apply run_result; [|done]. unfold unregisterRepository. apply keeps_bind; [by apply keeps_same|].
    intros w0. apply keeps_bind; [case_match; by apply keeps_same|]. intros _. by apply keeps_same.
  - injection Hx as <-. apply run_result; [|done]. apply keeps_record.
  - destruct (public c); [|done]. injection Hx as <-. by apply keeps_start.
  - destruct (states w !! s); [|done]. cbn in Hx. destruct (timer _); [|done]. injection Hx as <-. by apply keeps_start.
  - destruct (states w !! s); [|done]. cbn in Hx. destruct (fullReconcileTimer _); [|done]. injection Hx as <-. by apply keeps_start.
  - destruct (waiters w !! i) as [[p c]|]; [|done]. destruct (settled w p); [|done]. injection Hx as <-. by apply keeps_start.
  - destruct (runs w !! r) as [run|]; [|done]. cbn in Hx. destruct (run_phase run); try done. by injection Hx as <-.
  - unfold react in Hx. destruct (runs w !! r) as [run|] eqn:Hr; [|done]. cbn [mbind option_bind] in Hx.
    cbn in Hp. rewrite (lookup_total_Some _ _ _ Hr) in Hp.
    destruct (run_phase run) as [|delta|err|delta|o|o]; try done; try (by destruct Hp).
    + destruct (merge_back r err w) as [o w1] eqn:Hm. injection Hx as <-. cbn.
      change w1 with (snd (o, w1)). rewrite <- Hm. apply run_result; [|done]. unfold merge_back.
      repeat (apply keeps_bind; [by apply keeps_same|intros ?]). case_match; by apply keeps_same.
    + destruct (finish options r w) as [o' w1] eqn:Hm. injection Hx as <-. cbn.
      change w1 with (snd (o', w1)). rewrite <- Hm. apply run_result; [|done]. unfold finish, finishRefresh.
      apply keeps_bind; [by apply keeps_same|]. intros _.
      repeat (apply keeps_bind; [by apply keeps_same|intros ?]). unfold scheduleFullReconcile.
      case_match; [by apply keeps_same|]. apply keeps_bind; [by apply keeps_same|]. intros w2.
      repeat case_match; by apply keeps_same.
  - destruct (barriers w !! b) as [[s [|]]|] eqn:Hb; try done. injection Hx as <-. unfold release. by rewrite bind_get, Hb.
  - by injection Hx as <-.
  - by destruct Hp.
Qed.

(** The first reaction: it throws, with the stores as they were, or the
    canonical store has applied a delta that the projection still waits for. *)
Lemma apply_delta_cases r w run delta o w1 :
  runs w !! r = Some run -> delta_ok win32 delta -> in_step (stores w) -> apply_delta r delta w = (o, w1) ->
  (exists e, o = Throw e /\ in_step (stores w1)) \/
  (exists a, o = Ok tt /\ w1 = with_stores w a /\ pending (MDelta delta) a /\
     cancelReason (run_refresh run) = None /\ currentRefresh (states w !!! run_state run) = Some r).
Proof using Type.
  intros Hr Hd Hw. unfold apply_delta, requireRefreshCurrent, get_run, get_repository, lift_result.
  unfold mbind, method_bind, mret, method_ret, get_state. cbn beta iota. rewrite (lookup_total_Some _ _ _ Hr).
  case_bool_decide as Hcur; cbn [negb orb]; [|intros [= <- <-]; left; by eexists].
  destruct (cancelReason (run_refresh run)); [intros [= <- <-]; left; by eexists|].
  pose proof (status_pending localeCompareEn win32 (E:=E) (MDelta delta) (StatusSnapshotStore.applyDelta delta) Hd
    (fun ss => eq_refl) (stores w) Hw) as Hsp. unfold on_stores, on_part.
  rewrite ?(lookup_total_Some _ _ _ Hr). destruct (run_kind run) as [|reason pt]; cbn beta iota;
    [|destruct (requireFullReconcileDelta delta reason) as [[]|e']; cbn beta iota; [|intros [= <- <-]; left; by eexists]];
    (destruct (on_status (StatusSnapshotStore.applyDelta delta) (stores w)) as [[x|e] a]; intros [= <- <-];
     [right; by exists a|left; by eexists]).
Qed.

Lemma react_answered r w w' run delta :
  runs w !! r = Some run -> run_phase run = Answered delta -> delta_ok win32 delta ->
  react localeCompareEn localeCompare env options r w = Some w' -> in_step (stores w) ->
  in_step (stores w') \/
  (runs w' !! r = Some (with_applied run delta) /\ states w' = states w /\ cancelReason (run_refresh run) = None /\
   currentRefresh (states w !!! run_state run) = Some r /\ pending (MDelta delta) (stores w')).
Proof using Type.
  intros Hr Hph Hd Hx Hw. unfold react in Hx. rewrite Hr in Hx. cbn [mbind option_bind] in Hx. rewrite Hph in Hx.
  destruct (apply_delta r delta w) as [o w1] eqn:Ho. injection Hx as <-.
  apply (apply_delta_cases r w run) in Ho; [|done..]. destruct Ho as [(e & -> & Hs)|(a & -> & -> & Hp & Hc & Hcur)]; [by left|right].
  cbn [runs with_runs with_stores states stores]. by rewrite (lookup_alter_fwd _ _ _ _ _ Hr), decide_True.
Qed.

(** ... and the next reaction of that run brings the projection up to it. *)
Lemma react_applied r w w' run delta :
  runs w !! r = Some run -> run_phase run = Applied delta -> cancelReason (run_refresh run) = None ->
  currentRefresh (states w !!! run_state run) = Some r -> pending (MDelta delta) (stores w) ->
  react localeCompareEn localeCompare env options r w = Some w' -> in_step (stores w').
Proof using Type.
  intros Hr Hph Hc Hcur Hp Hx. unfold react in Hx. rewrite Hr in Hx. cbn [mbind option_bind] in Hx. rewrite Hph in Hx.
  unfold publish_delta in Hx. rewrite (method_bind_ok (requireRefreshCurrent r) _ w tt w) in Hx.
  2: { unfold requireRefreshCurrent. rewrite bind_run, bind_repository, (lookup_total_Some _ _ _ Hr), Hc.
       by rewrite bool_decide_true. }
  pose proof (delta_published delta (stores w) Hp) as Hd. unfold mbind, method_bind, on_stores, on_part in Hx.
  destruct (publishProjectionDelta _ _ _ delta (stores w)) as [[[]|e] a]; by injection Hx as <-.
Qed.
End Stores.

(** C6: The scheduler keeps the stores in step.  Every event of the scheduler
    keeps the canonical store well-formed and the projection store in step with
    it, except between the two reactions that apply an answered delta; and these
    two, when nothing comes between them and the delta is one the refresh client
    returns ([delta_ok]: it has passed the parser), keep them in step as well:
    whatever they throw, and whatever the presenter and the listeners do.  Texts
    have the characters U+0000 to U+00FF; so no changelist is named by a lone
    surrogate, on which [encodeURIComponent] throws in the projection when the
    canonical store has already changed. *)
Theorem scheduler_stores_in_step localeCompareEn localeCompare win32 {E} (env : SourceControlProjectionService.Environment E) options
    (w w' : world E) ev :
  in_step localeCompareEn (stores w) -> exec localeCompareEn localeCompare env options ev w = Some w' ->
  (~ publishes w ev -> in_step localeCompareEn (stores w')) /\
  (forall r run delta, ev = React r -> runs w !! r = Some run -> run_phase run = Answered delta -> delta_ok win32 delta ->
     in_step localeCompareEn (stores w') \/
     forall w'', react localeCompareEn localeCompare env options r w' = Some w'' -> in_step localeCompareEn (stores w'')).
Proof.
  intros Hw Hx. split; [intros Hp; by eapply exec_keeps|]. intros r run delta -> Hr Hph Hd. cbn [exec] in Hx.
  destruct (react_answered localeCompareEn localeCompare win32 env options r w w' run delta Hr Hph Hd Hx Hw)
    as [?|(Hr' & Es & Hc & Hcur & Hpd)]; [by left|right].
  intros w'' Hx'. eapply (react_applied localeCompareEn localeCompare env options r w' w'' (with_applied run delta) delta); try done.
  by rewrite Es.
Qed.
