(* ===== verification/SchedulerTheorems.v ===== *)
(** What the refresh scheduler guarantees: one refresh at a time per repository,
    no accepted file event lost, cancelled refreshes without effect, every
    answered refresh settles, every accepted event is asked for, and the stores
    stay in step. *)

From Stdlib Require Import ZArith Lia String List.
From stdpp Require Import base option list relations strings.
From S2P Require Import Prelude JsString JsMap JsValue JsDate StatusTypes StatusWire StatusWireFacts StatusStore StatusStoreFacts.
From S2P Require Import Paths DirtyPaths DirtyPathsFacts ScmResources StoresAgree ProjectionService Notifications NotificationsFacts CoverageStore.
From S2P Require Import RefreshScheduler SchedulerFacts SchedulerStores.

Import StatusRefreshScheduler.
Local Open Scope string_scope.

(** A scheduler with no repository. *)
Definition initial {E} (a : app E) (recorder : option StatusRefreshCoverageStore.store) : world E :=
  {| repositories := []; states := []; runs := []; barriers := []; waiters := []; abortedSignals := [];
     stores := a; coverageRecorder := recorder |}.

Section Reach.
Variable localeCompareEn localeCompare : string -> string -> comparison.
Context {E : Type} (env : SourceControlProjectionService.Environment E).
Variable options : config.
Notation exec := (exec localeCompareEn localeCompare env options).
Notation react := (react localeCompareEn localeCompare env options).
Notation wf := (wf options).
Notation moves := (rtc (move options)).
Implicit Types w : world E.

(** One event, in any order with the others. *)
Definition scheduler_step w w' : Prop := exists ev, event_ok ev /\ exec ev w = Some w'.

Definition reachable w : Prop := exists a recorder, rtc scheduler_step (initial a recorder) w.

Lemma wf_initial (a : app E) recorder : wf (initial a recorder).
Proof using Type.
  split; cbn; intros *; try (by rewrite lookup_nil); try done. by intros ?%elem_of_nil.
Qed.

Lemma steps_moves w w' : wf w -> rtc scheduler_step w w' -> moves w w'.
Proof using Type.
  intros Hw Hs. induction Hs as [|w1 w2 w3 (ev & Hok & Hx) _ IH]; [done|].
  pose proof (exec_moves _ _ env options ev w1 w2 Hw Hok Hx) as Hm. etrans; [exact Hm|]. by apply IH, (moves_wf options w1).
Qed.

Lemma reachable_wf w : reachable w -> wf w.
Proof using Type.
  intros (a & recorder & Hs). eapply moves_wf; [by eapply steps_moves, Hs; apply wf_initial|apply wf_initial].
Qed.

Lemma moves_inert w w' r run :
  moves w w' -> runs w !! r = Some run -> inert run -> exists run', runs w' !! r = Some run' /\ inert run'.
Proof using Type.
  intros Hm. revert run. induction Hm as [|w1 w2 w3 Hm _ IH]; intros run Hr Hi; [by eauto|].
  destruct (move_inert _ _ _ _ _ Hm Hr Hi) as (run' & ? & _ & ?). eauto.
Qed.

Lemma moves_accounted c n s k kind w w' :
  moves w w' -> wf w -> accounted options w c n s k kind -> accounted options w' c n s k kind.
Proof using Type.
  induction 1 as [|w1 w2 w3 Hm _ IH]; [done|]. intros Hw Ha. apply IH; [by eapply move_wf|by eapply move_accounted].
Qed.

(** An accepted event is in the set as soon as it is recorded. *)
Lemma event_accounted id e w s st d p :
  wf w -> map_get (repositories w) id = Some s -> states w !! s = Some st ->
  DirtyPathSet.record (dirty_config options st) (dirtyPaths st) e = (true, d) ->
  repositoryRelativePath (scope st) (event_path e) = Some p ->
  let w' := snd (recordFileEvent localeCompareEn localeCompare env options id e w) in
  moves w w' /\ accounted options w' (dirty_config options st) (length (runs w)) s
    (comparisonKey (scope st) p) (event_kind e).
Proof using Type.
  intros Hw Hid Hs Hr Hp. destruct (wf_repositories _ _ Hw _ _ Hid) as (st0 & Hs0 & Hsc).
  assert (st0 = st) as -> by congruence.
  destruct (recordFileEvent_moves localeCompareEn localeCompare env options id e w s st true d Hid Hs) as [Hm _];
    [by exists st; rewrite Hsc|done|]. cbn zeta.
  assert (move options w (recorded w s d)) as Hm0.
  { replace d with (snd (DirtyPathSet.record (dirty_config options st) (dirtyPaths st) e)) by by rewrite Hr.
    by apply (move_record options w s st e). }
  split; [by eapply rtc_l|]. eapply moves_accounted; [exact Hm|by eapply move_wf|].
  pose proof (wf_dirty _ _ _ _ (wf_states _ _ Hw _ _ Hs)) as Hd.
  apply record_held in Hr as (_ & _ & Ha); [|done]. specialize (Ha eq_refl p Hp).
  split; [done|]. assert (states (recorded w s d) !! s = Some (with_dirtyPaths st d)) as Hs1.
  { cbn [states recorded with_states]. by rewrite (lookup_alter_fwd _ _ _ _ _ Hs), decide_True. }
  split; [by eexists|]. left. by exists (with_dirtyPaths st d).
Qed.

(** ** Progress of a run *)
Definition rank (p : phase) : nat :=
  match p with Pending => 4 | Answered _ => 3 | Rejected _ | Applied _ => 2 | Closing _ => 1 | Settled _ => 0 end.

(** What the reactions of a run leave as it is. *)
Definition same_timers w w' : Prop :=
  repositories w' = repositories w /\ length (runs w') = length (runs w) /\
  forall s st, states w !! s = Some st -> exists st', states w' !! s = Some st' /\ scope st' = scope st /\ timer st' = timer st.

Lemma same_timers_eq w w' :
  repositories w' = repositories w -> runs w' = runs w -> states w' = states w -> same_timers w w'.
Proof using Type. intros E1 E2 E3. split; [done|]. split; [by rewrite E2|]. rewrite E3. eauto. Qed.
Lemma same_timers_refl w : same_timers w w.
Proof using Type. by apply same_timers_eq. Qed.

Lemma same_timers_trans w1 w2 w3 : same_timers w1 w2 -> same_timers w2 w3 -> same_timers w1 w3.
Proof using Type.
  intros (E1 & E2 & H1) (E3 & E4 & H2). split; [congruence|]. split; [congruence|].
  intros s st (st' & Hs & E5 & E6)%H1. apply H2 in Hs as (st'' & ? & ? & ?). exists st''. split_and!; congruence.
Qed.

Lemma react_progress r w run :
  wf w -> runs w !! r = Some run -> 0 < rank (run_phase run) < 4 ->
  exists w' run', react r w = Some w' /\ runs w' !! r = Some run' /\ run_state run' = run_state run /\
    rank (run_phase run') < rank (run_phase run) /\ same_timers w w' /\
    (rank (run_phase run') = 0 -> exists st', states w' !! run_state run = Some st' /\ flushing st' = None /\ currentRefresh st' = None).
Proof using Type.
  intros Hw Hr Hrk. destruct (wf_runs _ _ Hw _ _ Hr) as [_ (st & Hs & Hu) _].
  assert (forall w1 f, runs w1 = runs w -> same_timers w w1 ->
    same_timers w (with_runs w1 (alter f r (runs w1)))) as Hst.
  { intros w1 f E1 (E2 & E3 & H). split; [done|]. split; [cbn; by rewrite length_alter, E1|done]. }
  unfold StatusRefreshScheduler.react. rewrite Hr. cbn [mbind option_bind].
  destruct (run_phase run) as [|delta|error|delta|o|o] eqn:Hph; cbn in Hrk; try lia.
  - destruct (apply_delta_shape r delta w) as [a Ha].
    destruct (apply_delta r delta w) as [[[]|e] w1]; cbn [snd] in Ha; subst w1.
    + eexists _, (with_applied run delta). split; [done|]. cbn [runs with_runs with_stores].
      rewrite (lookup_alter_fwd _ _ _ _ _ Hr), decide_True by done.
      split_and!; [done|done|cbn; lia|by apply (Hst (with_stores w a)), same_timers_eq|done].
    + eexists _, (with_phase run (Rejected e)). split; [done|]. cbn [runs with_runs with_stores].
      rewrite (lookup_alter_fwd _ _ _ _ _ Hr), decide_True by done.
      split_and!; [done|done|cbn; lia|by apply (Hst (with_stores w a)), same_timers_eq|done].
  - destruct (merge_back r error w) as [o w1] eqn:Hmb.
    assert (w1 = with_states w (alter (fun st => with_dirtyPaths st (DirtyPathSet.mergeTargets (dirtyPaths st) (retry_targets run)))
      (run_state run) (states w))) as ->.
    { unfold merge_back, get_run, get_repository, set_repository, get_state, modify_state, mbind, method_bind, mret, method_ret in Hmb.
      cbn beta iota in Hmb. rewrite (lookup_total_Some _ _ _ Hr), (lookup_total_Some _ _ _ Hs) in Hmb.
      destruct (cancelReason _); by injection Hmb. }
    eexists _, (with_phase run (Closing o)). split; [done|]. cbn [runs with_runs with_states].
    rewrite (lookup_alter_fwd _ _ _ _ _ Hr), decide_True by done.
    split_and!; [done|done|cbn; lia| |done].
    apply (Hst (with_states w _)); [done|]. split; [done|]. split; [done|]. intros s0 st0 Hs0. cbn [states with_states].
    rewrite (lookup_alter_fwd _ _ _ _ _ Hs0). eexists. split; [done|]. by destruct (decide _).
  - destruct (publish_delta_shape localeCompareEn localeCompare env r delta w) as (a & c & Ha).
    destruct (publish_delta _ _ _ r delta w) as [o w1]; cbn [snd] in Ha; subst w1.
    eexists _, (with_phase run (Closing o)). split; [done|]. cbn [runs with_runs with_stores with_coverageRecorder].
    rewrite (lookup_alter_fwd _ _ _ _ _ Hr), decide_True by done.
    split_and!; [done|done|cbn; lia| |done].
    by apply (Hst (with_coverageRecorder (with_stores w a) c)), same_timers_eq.
  - pose proof (finish_run options r w run o st Hr Hs) as Hf. destruct (finish options r w) as [o' w1]. cbn [snd] in Hf.
    eexists _, _. split; [done|]. rewrite Hf. cbn [runs with_runs].
    rewrite (lookup_insert_fwd _ _ _ _ _ Hr), decide_True by done.
    split_and!; [done|done|cbn; lia| |].
    + split; [done|]. split; [cbn; by rewrite length_insert|]. intros s0 st0 Hs0. cbn [states with_states with_runs].
      rewrite (lookup_alter_fwd _ _ _ _ _ Hs0). eexists. split; [done|]. destruct (decide _); [|done].
      by destruct (close_state_fields options w r (run_kind run) (run_state run) st0) as (? & _ & _ & _ & ?).
    + intros _. cbn [states with_states with_runs]. rewrite (lookup_alter_fwd _ _ _ _ _ Hs), decide_True by done.
      eexists. split; [done|]. destruct (Hu I) as [_ Hc].
      destruct (close_state_fields options w r (run_kind run) (run_state run) st) as (_ & _ & ? & H4 & _). auto.
Qed.

Lemma react_wf r w w' : wf w -> react r w = Some w' -> wf w'.
Proof using Type. intros Hw Hx. eapply moves_wf; [by eapply react_moves|done]. Qed.

Definition freed w s : Prop := exists st, states w !! s = Some st /\ flushing st = None /\ currentRefresh st = None.

(** Reactions bring an answered run to its end, one rank at a time. *)
Lemma reacts_settle r w run :
  wf w -> runs w !! r = Some run -> 0 < rank (run_phase run) < 4 ->
  exists n w' run', n <= rank (run_phase run) /\ nsteps (fun w w' => react r w = Some w') n w w' /\
    runs w' !! r = Some run' /\ rank (run_phase run') = 0 /\ same_timers w w' /\ freed w' (run_state run).
Proof using Type.
  remember (rank (run_phase run)) as k eqn:Hk. revert w run Hk. induction (lt_wf k) as [k _ IH]. intros w run -> Hw Hr Hrk.
  destruct (react_progress r w run Hw Hr Hrk) as (w1 & run1 & Hx & Hr1 & Es & Hlt & Hst & Hfin).
  destruct (rank (run_phase run1)) as [|k1] eqn:Hk1.
  - exists 1, w1, run1. split; [lia|]. split; [by apply nsteps_once|]. split_and!; [done..|]. by apply Hfin.
  - destruct (IH (S k1)) with (w := w1) (run := run1) as (n & w' & run' & Hn & Hs & Hr' & H0 & Hst' & Hfr);
      [lia|done|by eapply react_wf|done|lia|].
    exists (S n), w', run'. split; [lia|]. split; [by econstructor|]. split_and!; [done|done|by eapply same_timers_trans|].
    by rewrite <- Es.
Qed.

(** What occupies a repository goes on: the client answers its refresh with
    [answer], its refresh reacts, or the operation behind its barrier ends. *)
Definition occupant_step (answer : result StatusDelta) s w w' : Prop :=
  exists st p, states w !! s = Some st /\ flushing st = Some p /\
    match p with
    | Refresh r => exec (Answer r answer) w = Some w' \/ exec (React r) w = Some w'
    | Barrier b => exec (OperationEnds b) w = Some w'
    end.

Lemma occupant_is_step answer s w w' : occupant_step answer s w w' -> scheduler_step w w'.
Proof using Type. intros (st & [r|b] & _ & _ & Hx); [destruct Hx as [Hx|Hx]|]; (eexists; split; [|exact Hx]; done). Qed.

Lemma reacts_occupy r n w w' run answer :
  wf w -> runs w !! r = Some run -> 0 < rank (run_phase run) ->
  nsteps (fun w w' => react r w = Some w') n w w' -> rtc (occupant_step answer (run_state run)) w w'.
Proof using Type.
  intros Hw Hr Hrk Hn. revert run Hr Hrk. induction Hn as [|n w1 w2 w3 Hx Hn IH]; intros run Hr Hrk; [apply rtc_refl|].
  destruct (wf_runs _ _ Hw _ _ Hr) as [_ (st & Hs & Hu) _].
  assert (flushing st = Some (Refresh r)) as Hfl by (apply Hu; by destruct (run_phase run); cbn in Hrk; try lia).
  assert (rank (run_phase run) < 4) as Hlt.
  { unfold StatusRefreshScheduler.react in Hx. rewrite Hr in Hx. cbn in Hx. destruct (run_phase run); cbn; try lia. done. }
  destruct (react_progress r w1 run Hw Hr) as (w' & run' & Hx' & Hr' & Es & _); [lia|].
  assert (w' = w2) as -> by congruence.
  eapply rtc_l; [exists st, (Refresh r); split_and!; [done..|by right]|].
  destruct (decide (rank (run_phase run') = 0)) as [H0|H0].
  - destruct n as [|n]; [inversion Hn; subst; apply rtc_refl|]. exfalso. inversion Hn as [|? ? y ? Hy]; subst.
    unfold StatusRefreshScheduler.react in Hy. rewrite Hr' in Hy. cbn in Hy. by destruct (run_phase run').
  - rewrite <- Es. apply (IH (react_wf _ _ _ Hw Hx) run' Hr'). lia.
Qed.

Lemma answer_pending r w run answer :
  runs w !! r = Some run -> run_phase run = Pending ->
  let p := match answer with Ok delta => Answered delta | Throw e => Rejected e end in
  let w' := with_runs w (alter (fun run => with_phase run p) r (runs w)) in
  exec (Answer r answer) w = Some w' /\ runs w' !! r = Some (with_phase run p) /\ same_timers w w'.
Proof using Type.
  intros Hr Hph. cbn [StatusRefreshScheduler.exec]. rewrite Hr. cbn [mbind option_bind]. rewrite Hph. split; [done|].
  cbn [runs with_runs]. rewrite (lookup_alter_fwd _ _ _ _ _ Hr), decide_True by done. split; [done|].
  split; [done|]. split; [cbn; by rewrite length_alter|]. eauto.
Qed.

Lemma run_freed answer r w run :
  wf w -> runs w !! r = Some run -> 0 < rank (run_phase run) ->
  exists w', rtc (occupant_step answer (run_state run)) w w' /\ same_timers w w' /\ freed w' (run_state run).
Proof using Type.
  intros Hw Hr Hrk. destruct (decide (rank (run_phase run) < 4)) as [Hlt|Hge].
  - destruct (reacts_settle r w run Hw Hr) as (n & w' & run' & _ & Hn & _ & _ & Hst & Hfr); [lia|].
    exists w'. split; [by eapply reacts_occupy|done].
  - assert (run_phase run = Pending) as Hph by (destruct (run_phase run); cbn in Hge; try lia; done).
    destruct (wf_runs _ _ Hw _ _ Hr) as [_ (st & Hs & Hu) _]. rewrite Hph in Hu. destruct (Hu I) as [Hfl _].
    destruct (answer_pending r w run answer Hr Hph) as (Hx & Hr1 & Hst1). set (w1 := with_runs w _) in *.
    assert (wf w1) as Hw1 by (eapply moves_wf; [eapply exec_moves; [done| |exact Hx]; done|done]).
    destruct (reacts_settle r w1 _ Hw1 Hr1) as (n & w' & run' & _ & Hn & _ & _ & Hst & Hfr); [destruct answer; cbn; lia|].
    exists w'. split; [|split; [by eapply same_timers_trans|done]]. eapply rtc_l.
    + exists st, (Refresh r). split_and!; [done..|by left].
    + eapply (reacts_occupy r n w1 w' _ answer Hw1 Hr1); [destruct answer; cbn; lia|done].
Qed.

Lemma repository_freed answer s st w :
  wf w -> states w !! s = Some st ->
  exists w', rtc (occupant_step answer s) w w' /\ same_timers w w' /\
    exists st', states w' !! s = Some st' /\ flushing st' = None.
Proof using Type.
  intros Hw Hs. destruct (flushing st) as [[r|b]|] eqn:Hfl.
  - destruct (wf_flushing _ _ _ _ (wf_states _ _ Hw _ _ Hs) _ Hfl) as (run & Hr & <- & Hu).
    destruct (run_freed answer r w run Hw Hr) as (w' & ? & ? & (st' & ? & ? & _));
      [by destruct (run_phase run); cbn in *; try lia|]. exists w'. split; [done|]. split; [done|]. by exists st'.
  - pose proof (wf_barrier _ _ _ _ (wf_states _ _ Hw _ _ Hs) _ Hfl) as Hb.
    eexists. split; [|split; [|]].
    + apply rtc_once. exists st, (Barrier b). split_and!; [done..|]. cbn [StatusRefreshScheduler.exec]. by rewrite Hb.
    + unfold release. rewrite bind_get, Hb. split; [done|]. split; [done|]. intros s0 st0 Hs0.
      cbn [states snd]. rewrite bind_set_repository. cbn [snd modify_state states with_states with_barriers].
      rewrite (lookup_alter_fwd _ _ _ _ _ Hs0). eexists. split; [done|]. destruct (decide _); [|done]. by case_bool_decide.
    + unfold release. rewrite bind_get, Hb, bind_set_repository. cbn [snd modify_state states with_states with_barriers].
      rewrite (lookup_alter_fwd _ _ _ _ _ Hs), decide_True by done. eexists. split; [done|]. by rewrite bool_decide_true.
  - exists w. split; [apply rtc_refl|]. split; [apply same_timers_refl|]. eauto.
Qed.

(** An accepted event cancels the refresh in flight. *)
Lemma cancel_marks s t w w' u r run :
  cancelInFlightRefreshForDirtyGeneration localeCompareEn localeCompare env s t w = (Ok u, w') ->
  currentRefresh (states w !!! s) = Some r -> runs w !! r = Some run -> aborted (run_refresh run) = false ->
  runs w' !! r = Some (with_refresh run (cancel DirtyGenerationSuperseded (run_refresh run))).
Proof using Type.
  unfold cancelInFlightRefreshForDirtyGeneration. rewrite bind_repository. intros Hx Hc Hr Hab. rewrite Hc in Hx.
  rewrite bind_run, (lookup_total_Some _ _ _ Hr), Hab in Hx. destruct (toISOString t) as [text|err]; [|done].
  unfold mbind, method_bind, lift_result in Hx.
  match type of Hx with context [on_stores ?m w] => destruct (on_stores_shape m w) as [a Ha];
    destruct (on_stores m w) as [[marked|err] w1] end; cbn [snd] in Ha; subst w1; [|done].
  injection Hx as _ <-. cbn [runs with_runs with_stores]. by rewrite (lookup_alter_fwd _ _ _ _ _ Hr), decide_True.
Qed.

Lemma event_cancels id e w s st r run :
  map_get (repositories w) id = Some s -> states w !! s = Some st -> currentRefresh st = Some r ->
  runs w !! r = Some run -> aborted (run_refresh run) = false -> appliedDelta run = None ->
  fst (recordFileEvent localeCompareEn localeCompare env options id e w) = Ok true ->
  exists run1, runs (snd (recordFileEvent localeCompareEn localeCompare env options id e w)) !! r = Some run1 /\ inert run1.
Proof using Type.
  intros Hid Hs Hc Hr Hab Ha. unfold recordFileEvent. rewrite bind_require, Hid, bind_repository, (lookup_total_Some _ _ _ Hs).
  cbn zeta. destruct (DirtyPathSet.record _ _ e) as [b d]. rewrite bind_set_repository. destruct b; [|done]. cbn [negb].
  set (w1 := with_states w _). assert (states w1 !! s = Some (with_dirtyPaths st d)) as Hs1.
  { cbn [states w1 with_states]. by rewrite (lookup_alter_fwd _ _ _ _ _ Hs), decide_True. }
  set (m1 := if _ && _ then _ else _).
  assert (exists w2 st2, m1 w1 = (Ok tt, w2) /\ runs w2 = runs w /\ states w2 !! s = Some st2 /\ currentRefresh st2 = Some r)
    as (w2 & st2 & E2 & Er2 & Hs2 & Hc2).
  { subst m1. destruct (_ && _); eexists _, _; split; try done. split; [done|]. cbn [states with_states].
    rewrite (lookup_alter_fwd _ _ _ _ _ Hs1), decide_True by done. by split. }
  rewrite (method_bind_ok m1 _ w1 tt w2 E2). destruct (markOverflow_shape localeCompareEn localeCompare env s w2) as (a & f & Hsh & Hf).
  destruct (markOverflowStaleIfInitialized localeCompareEn localeCompare env s w2) as [[[]|err] w3] eqn:E3;
    [|by rewrite (method_bind_throw _ _ _ _ _ E3)]. cbn [snd] in Hsh. rewrite (method_bind_ok _ _ _ _ _ E3).
  destruct (cancelInFlightRefreshForDirtyGeneration localeCompareEn localeCompare env s (event_timestamp e) w3) as [[[]|err] w4] eqn:E4;
    [|by rewrite (method_bind_throw _ _ _ _ _ E4)].
  rewrite (method_bind_ok _ _ _ _ _ E4). intros _. apply (cancel_marks _ _ _ _ _ r run) in E4; [| |by rewrite Hsh; cbn; rewrite Er2|done].
  - eexists. split; [exact E4|]. by split.
  - rewrite Hsh. cbn [states with_states with_stores]. rewrite (lookup_total_Some _ _ _ (lookup_alter_fwd _ _ _ _ _ Hs2)), decide_True by done.
    destruct (Hf st2) as ([_ _ _ Ec] & _). congruence.
Qed.

(** A freed repository with its timer set: the timer fires. *)
Lemma timer_requests w s st k kind :
  wf w -> states w !! s = Some st -> flushing st = None -> timer st = true ->
  held (dirty_config options st) (dirtyPaths st) k kind ->
  exists w', exec (TimerFires s) w = Some w' /\
    (fst (markOverflowStaleIfInitialized localeCompareEn localeCompare env s
            (with_states w (alter (fun st => with_timer st false) s (states w)))) = Ok tt ->
     exists run, runs w' !! length (runs w) = Some run /\ run_state run = s /\ run_phase run = Pending /\
       exists t, t ∈ request_targets (run_request run) /\ shows (dirty_config options st) k kind t).
Proof using Type.
  intros Hw Hs Hfl Ht Hh. pose proof (wf_states _ _ Hw _ _ Hs) as Hst.
  pose proof (wf_timer _ _ _ _ Hst (or_introl Ht)) as Hid. cbn [StatusRefreshScheduler.exec]. rewrite Hs. cbn [mbind option_bind].
  rewrite Ht. eexists. split; [done|]. set (w1 := with_states w _). intros Hmark.
  assert (states w1 !! s = Some (with_timer st false)) as Hs1.
  { cbn [states w1 with_states]. by rewrite (lookup_alter_fwd _ _ _ _ _ Hs), decide_True. }
  destruct (flush_begins localeCompareEn localeCompare env options (scope_repositoryId (scope st)) None w1 s _ Hid Hs1 Hfl)
    as (w2 & st2 & _ & Hs2 & Hc & _ & Er & Hf).
  assert (with_states w1 (alter (fun st => with_timer st false) s (states w1)) = w1) as E1.
  { cbn. rewrite alter_alter. reflexivity. }
  rewrite E1, Hmark in Hf. cbn zeta in Hf. cbn [dirtyPaths with_timer] in Hf.
  destruct (proj2 (drained_held _ _ (wf_dirty _ _ _ _ Hst)) k kind Hh) as (t & Hin & Hsh).
  destruct (length (DirtyPathSet.toRefreshTargets (dirtyPaths st)) =? 0)%nat eqn:Hlen.
  { apply Nat.eqb_eq, nil_length_inv in Hlen. rewrite Hlen in Hin. by apply elem_of_nil in Hin. }
  unfold StatusRefreshScheduler.start. cbn [StatusRefreshScheduler.invoke]. rewrite Hf.
  eexists. unfold begun. cbn [runs with_states with_runs]. rewrite Er. change (runs w1) with (runs w).
  rewrite lookup_snoc_last. split; [done|]. split; [done|]. split; [done|]. eauto.
Qed.
End Reach.

(** ** Theorems *)

(** C3: One refresh at a time: in every reachable world of the scheduler,
    whatever the order of events, timers, answers and cancellations, a
    repository state has at most one refresh that has not settled, or one
    exclusive operation, never both. *)
Theorem one_refresh_at_a_time localeCompareEn localeCompare {E} (env : SourceControlProjectionService.Environment E) options (w : world E) :
  reachable localeCompareEn localeCompare env options w ->
  (forall r1 r2 run1 run2, runs w !! r1 = Some run1 -> runs w !! r2 = Some run2 -> run_state run1 = run_state run2 ->
     unsettled (run_phase run1) -> unsettled (run_phase run2) -> r1 = r2) /\
  (forall r run b, runs w !! r = Some run -> unsettled (run_phase run) -> barriers w !! b <> Some (run_state run, false)) /\
  (forall b1 b2 s, barriers w !! b1 = Some (s, false) -> barriers w !! b2 = Some (s, false) -> b1 = b2).
Proof.
  intros Hw%reachable_wf.
  assert (forall r run, runs w !! r = Some run -> unsettled (run_phase run) ->
    exists st, states w !! run_state run = Some st /\ flushing st = Some (Refresh r)) as Hrun.
  { intros r run Hr Hu. destruct (wf_runs _ _ Hw _ _ Hr) as [_ (st & Hs & Hf) _]. exists st. split; [done|]. by apply Hf. }
  split_and!.
  - intros r1 r2 run1 run2 H1 H2 Es U1 U2. apply Hrun in H1 as (st1 & Hs1 & F1), H2 as (st2 & Hs2 & F2); [|done..].
    congruence.
  - intros r run b Hr Hu (st & Hs & Hf)%(wf_barriers _ _ Hw). apply Hrun in Hr as (st' & Hs' & Hf'); [|done]. congruence.
  - intros b1 b2 s (st1 & Hs1 & F1)%(wf_barriers _ _ Hw) (st2 & Hs2 & F2)%(wf_barriers _ _ Hw). congruence.
Qed.

(** C2: No accepted event is lost by the scheduler.  Once the dirty-path set of
    a registered repository accepts a file event, in every later world, whatever
    happened since: the set holds a target that shows the event; or a refresh
    begun since holds one that it puts back if it fails; or a refresh begun
    since, whose request shows the event, gave its answer to the canonical store. *)
Theorem accepted_event_kept localeCompareEn localeCompare {E} (env : SourceControlProjectionService.Environment E) options
    (w0 w1 w2 : world E) id e s st d p :
  reachable localeCompareEn localeCompare env options w0 ->
  map_get (repositories w0) id = Some s -> states w0 !! s = Some st ->
  DirtyPathSet.record (dirty_config options st) (dirtyPaths st) e = (true, d) ->
  repositoryRelativePath (scope st) (event_path e) = Some p ->
  exec localeCompareEn localeCompare env options (FileEvent id e) w0 = Some w1 ->
  rtc (scheduler_step localeCompareEn localeCompare env options) w1 w2 ->
  let shown := shows (dirty_config options st) (comparisonKey (scope st) p) (event_kind e) in
  (exists st2 t, states w2 !! s = Some st2 /\ t ∈ DirtyPathSet.toRefreshTargets (dirtyPaths st2) /\ shown t) \/
  exists r run, length (runs w0) <= r /\ runs w2 !! r = Some run /\ run_state run = s /\
    (in_progress (run_phase run) /\ (exists t, t ∈ retry_targets run /\ shown t) \/
     appliedDelta run <> None /\ exists t, t ∈ request_targets (run_request run) /\ shown t).
Proof.
  intros Hreach Hid Hs Hr Hp [= <-] Hsteps shown. pose proof (reachable_wf _ _ _ _ _ Hreach) as Hw.
  destruct (event_accounted localeCompareEn localeCompare env options id e w0 s st d p Hw Hid Hs Hr Hp) as [Hm Ha].
  assert (wf options (snd (recordFileEvent localeCompareEn localeCompare env options id e w0))) as Hw1 by by eapply moves_wf.
  apply steps_moves in Hsteps; [|done]. assert (wf options w2) as Hw2 by by eapply moves_wf.
  apply (moves_accounted _ _ _ _ _ _ _ _ Hsteps Hw1) in Ha as (_ & _ & [(st2 & Hs2 & Hc & Hh)|Hrun]); [left|by right].
  pose proof (wf_dirty _ _ _ _ (wf_states _ _ Hw2 _ _ Hs2)) as Hd. rewrite Hc in Hd.
  destruct (proj2 (drained_held _ _ Hd) _ _ Hh) as (t & ? & ?). eauto.
Qed.

(** A cancelled refresh has no effect on the status.  When a refresh that has
    not yet given its delta to the canonical store is overtaken by an accepted
    file event, or cancelled by its caller, its answer is never applied, whatever
    happens next. *)
Theorem cancelled_refresh_inert localeCompareEn localeCompare {E} (env : SourceControlProjectionService.Environment E) options
    (w0 w1 w2 : world E) ev r run :
  reachable localeCompareEn localeCompare env options w0 -> runs w0 !! r = Some run ->
  appliedDelta run = None -> aborted (run_refresh run) = false ->
  match ev with
  | FileEvent id e => exists s st, map_get (repositories w0) id = Some s /\ states w0 !! s = Some st /\ currentRefresh st = Some r /\
      fst (recordFileEvent localeCompareEn localeCompare env options id e w0) = Ok true
  | Abort signal => callerSignal (run_refresh run) = Some signal
  | _ => False
  end ->
  exec localeCompareEn localeCompare env options ev w0 = Some w1 ->
  rtc (scheduler_step localeCompareEn localeCompare env options) w1 w2 ->
  exists run2, runs w2 !! r = Some run2 /\ appliedDelta run2 = None.
Proof.
  intros Hreach Hr Ha Hab Hev Hx Hsteps. pose proof (reachable_wf _ _ _ _ _ Hreach) as Hw.
  assert (event_ok ev) as Hok by by destruct ev.
  assert (exists run1, runs w1 !! r = Some run1 /\ inert run1) as (run1 & Hr1 & Hi1).
  { destruct ev as [| |id e| | | | | | | |signal|]; try done.
    - destruct Hev as (s & st & Hid & Hs & Hcur & Hret). injection Hx as <-. by eapply event_cancels.
    - injection Hx as <-. cbn [runs with_runs]. rewrite list_lookup_fmap, Hr. eexists. split; [done|].
      unfold cancelFromCaller. by rewrite bool_decide_true, Hab. }
  assert (wf options w1) as Hw1 by (eapply moves_wf; [by eapply exec_moves|done]).
  apply steps_moves in Hsteps; [|done]. destruct (moves_inert _ _ _ _ _ Hsteps Hr1 Hi1) as (run2 & ? & _ & ?). eauto.
Qed.

(** C5: A refresh ends.  A refresh that has been answered settles after at most
    three reactions of its own, whatever the answer, the stores and the
    callbacks do, and then its repository is free for the next one. *)
Theorem answered_refresh_settles localeCompareEn localeCompare {E} (env : SourceControlProjectionService.Environment E) options
    (w : world E) r run :
  reachable localeCompareEn localeCompare env options w -> runs w !! r = Some run ->
  run_phase run <> Pending -> unsettled (run_phase run) ->
  exists n w' run', n <= 3 /\ nsteps (fun w w' => react localeCompareEn localeCompare env options r w = Some w') n w w' /\
    runs w' !! r = Some run' /\ ~ unsettled (run_phase run') /\ freed w' (run_state run).
Proof.
  intros Hw%reachable_wf Hr Hp Hu. destruct (reacts_settle localeCompareEn localeCompare env _ r w run Hw Hr) as (n & w' & run' & Hn & Hs & Hr' & H0 & _ & Hf).
  { destruct (run_phase run); cbn in *; try done; lia. }
  exists n, w', run'. split; [destruct (run_phase run); cbn in *; try done; lia|]. split_and!; [done..| |done].
  destruct (run_phase run'); cbn in H0; try lia. by intros [].
Qed.

(** C4: An accepted event is asked for.  After [recordFileEvent] returned true,
    the flush timer is set; and once what occupies the repository has ended,
    however the client answers, the timer can fire, and its flush sends a request
    that shows the event (unless marking an overflowed status as stale throws). *)
Theorem accepted_event_requested localeCompareEn localeCompare {E} (env : SourceControlProjectionService.Environment E) options
    (w0 w1 : world E) id e s st p answer :
  reachable localeCompareEn localeCompare env options w0 ->
  map_get (repositories w0) id = Some s -> states w0 !! s = Some st ->
  recordFileEvent localeCompareEn localeCompare env options id e w0 = (Ok true, w1) ->
  repositoryRelativePath (scope st) (event_path e) = Some p ->
  exists w2 w3, rtc (occupant_step localeCompareEn localeCompare env options answer s) w1 w2 /\
    exec localeCompareEn localeCompare env options (TimerFires s) w2 = Some w3 /\
    (fst (markOverflowStaleIfInitialized localeCompareEn localeCompare env s
            (with_states w2 (alter (fun st => with_timer st false) s (states w2)))) = Ok tt ->
     exists run, runs w3 !! length (runs w0) = Some run /\ run_state run = s /\ run_phase run = Pending /\
       exists t, t ∈ request_targets (run_request run) /\
         shows (dirty_config options st) (comparisonKey (scope st) p) (event_kind e) t).
Proof.
  intros Hreach Hid Hs Hrec Hp. pose proof (reachable_wf _ _ _ _ _ Hreach) as Hw.
  destruct (DirtyPathSet.record (dirty_config options st) (dirtyPaths st) e) as [b d] eqn:Hr.
  destruct (wf_repositories _ _ Hw _ _ Hid) as (st0 & Hs0 & Hsc). assert (st0 = st) as -> by congruence.
  destruct (recordFileEvent_moves localeCompareEn localeCompare env options id e w0 s st b d Hid Hs) as (_ & (_ & Hlen & _) & Hret);
    [by exists st; rewrite Hsc|done|]. rewrite Hrec in Hret, Hlen. cbn [fst snd] in Hret, Hlen.
  destruct (Hret true eq_refl) as [<- Htm]. destruct (Htm eq_refl) as (st1 & Hs1 & Ht1).
  destruct (event_accounted localeCompareEn localeCompare env options id e w0 s st d p Hw Hid Hs Hr Hp) as [Hm Ha].
  rewrite Hrec in Hm, Ha. cbn [snd] in Hm, Ha. assert (wf options w1) as Hw1 by by eapply moves_wf.
  destruct (repository_freed localeCompareEn localeCompare env options answer s st1 w1 Hw1 Hs1) as (w2 & Hocc & (_ & Hlen2 & Hst) & st2 & Hs2 & Hfl).
  assert (rtc (move options) w1 w2) as Hm2.
  { eapply steps_moves; [done|]. eapply rtc_subrel; [|exact Hocc]. intros ? ?. apply occupant_is_step. }
  assert (wf options w2) as Hw2 by by eapply moves_wf.
  apply (moves_accounted _ _ _ _ _ _ _ _ Hm2 Hw1) in Ha as (_ & _ & [(st2' & Hs2' & Hc & Hh)|(r & run & Hle & Hr2 & _)]).
  2: { apply lookup_lt_Some in Hr2. lia. }
  assert (st2' = st2) as -> by congruence. destruct (Hst s st1 Hs1) as (st2' & Hs2'' & _ & Ht2).
  assert (st2' = st2) as -> by congruence. rewrite <- Hc in Hh.
  destruct (timer_requests localeCompareEn localeCompare env options w2 s st2 (comparisonKey (scope st) p) (event_kind e) Hw2 Hs2 Hfl) as (w3 & Hx & Hreq); [congruence|exact Hh|].
  exists w2, w3. split; [done|]. split; [done|]. rewrite Hlen2, Hlen, Hc in Hreq. done.
Qed.
