(* ===== verification/Watchers.v ===== *)
(** status/dirtyPathPipeline.ts, repositoryRefreshService.ts and
    repositoryWatcherService.ts: from the editor's file watchers to the refresh
    scheduler; and that what is watched is what is scheduled.

    The watcher factory and the watchers it makes are the editor's: methods on a
    state [F] of their own, which may throw.  A watcher and a subscription are
    named by the value the editor gave for them. *)

From Stdlib Require Import ZArith Ascii String List Lia.
From stdpp Require Import base option list relations strings.
From S2P Require Import Prelude JsString JsMap JsValue StatusTypes Paths DirtyPaths DirtyPathsFacts RefreshRequests ScmResources ProjectionService Notifications RefreshScheduler SchedulerFacts SchedulerTheorems.

Local Open Scope string_scope.

(** ** status/dirtyPathPipeline.ts *)
Module DirtyPathPipeline.
Section Pipeline.
Variable localeCompareEn localeCompare : string -> string -> comparison.
Context {E : Type} (env : SourceControlProjectionService.Environment E).
Variable options : StatusRefreshScheduler.config.

Record pipeline := {
  scopes : list (string * RepositoryWatchScope);
  scheduler : StatusRefreshScheduler.world E;
}.

Definition on_scheduler {A} (m : method (StatusRefreshScheduler.world E) A) : method pipeline A :=
  on_part scheduler (fun p w => {| scopes := scopes p; scheduler := w |}) m.

Definition registerRepository (scope : RepositoryWatchScope) : method pipeline unit :=
  _ ← modify_state (fun p => {| scopes := map_set (scopes p) (scope_repositoryId scope) scope; scheduler := scheduler p |});
  on_scheduler (StatusRefreshScheduler.registerRepository options scope).

Definition unregisterRepository (repositoryId : string) : method pipeline unit :=
  _ ← modify_state (fun p => {| scopes := map_delete (scopes p) repositoryId; scheduler := scheduler p |});
  on_scheduler (StatusRefreshScheduler.unregisterRepository repositoryId).

Definition accept (repositoryId : string) (event : RawWatcherEvent) : method pipeline bool :=
  p ← get_state;
  match map_get (scopes p) repositoryId with
  | None => throw_error (StatusRefreshScheduler.notRegistered repositoryId)
  | Some scope =>
    match WatcherEvents.normalizeWatcherEvent scope event with
    | None => mret false
    | Some normalized =>
        on_scheduler (StatusRefreshScheduler.recordFileEvent localeCompareEn localeCompare env options repositoryId normalized)
    end
  end.

(** The calls that only pass on. *)
Definition call (c : StatusRefreshScheduler.call) : method pipeline StatusRefreshScheduler.outcome :=
  on_scheduler (StatusRefreshScheduler.invoke localeCompareEn localeCompare env c).
Definition flushRepository id signal := call (StatusRefreshScheduler.FlushRepository id signal).
Definition runExclusive id := call (StatusRefreshScheduler.RunExclusive id).
Definition fullReconcileRepository id epoch signal := call (StatusRefreshScheduler.FullReconcileRepository id epoch signal).
Definition refreshResource id epoch path := call (StatusRefreshScheduler.RefreshResource id epoch path).
Definition refreshTargets id epoch targets signal := call (StatusRefreshScheduler.RefreshTargets id epoch targets signal).

(** status/repositoryRefreshService.ts: an absent [options] is an absent
    signal. *)
Definition refreshRepository (id : string) (run_options : option (option nat)) : method pipeline StatusRefreshScheduler.outcome :=
  match run_options with None => flushRepository id None | Some signal => flushRepository id signal end.
Definition service_fullReconcileRepository (id : string) (epoch : Z) (run_options : option (option nat)) :=
  match run_options with None => fullReconcileRepository id epoch None | Some signal => fullReconcileRepository id epoch signal end.
Definition service_refreshTargets (id : string) (epoch : Z) (targets : option js_value) (run_options : option (option nat)) :=
  match run_options with None => refreshTargets id epoch targets None | Some signal => refreshTargets id epoch targets signal end.
End Pipeline.
Arguments pipeline : clear implicits.
End DirtyPathPipeline.

(** ** status/repositoryWatcherService.ts *)
Module RepositoryWatcherService.
Definition REPOSITORY_WATCH_PATTERN : string := "**/*".

Record RepositoryWatcherRequest := {
  watch_repositoryId : string;
  watch_basePath : string;
  watch_pattern : string;
  watch_ignoreCreateEvents : bool;
  watch_ignoreChangeEvents : bool;
  watch_ignoreDeleteEvents : bool;
}.

Definition is_letter (c : ascii) : bool :=
  let n := N_of_ascii c in ((65 <=? n) && (n <=? 90) || (97 <=? n) && (n <=? 122))%N.

(** [/^[A-Za-z]:\/$/u.test(path)] *)
Definition is_drive_root (path : string) : bool :=
  match path with
  | String c (String colon (String s "")) => is_letter c && bool_decide (colon = ":"%char) && bool_decide (s = slash)
  | _ => false
  end.

(** [/^\/\/[^/]+\/[^/]+\/?$/u.test(path)] *)
Definition is_unc_root (path : string) : bool :=
  match split path slash with
  | ["" ; "" ; server; share] | ["" ; "" ; server; share; ""] =>
      negb (bool_decide (server = "")) && negb (bool_decide (share = ""))
  | _ => false
  end.

(** [path.replace(/\/$/u, "")] *)
Definition strip_one (path : string) : string :=
  if endsWith path slash then slice_to (String.length path - 1) path else path.

Definition normalizeWatchRoot (path : string) : string :=
  let normalized := replaceAll path backslash slash in
  if bool_decide (normalized = "/") || is_drive_root normalized then normalized
  else if is_unc_root normalized then strip_one normalized
  else strip_trailing normalized slash.

(** What the service uses of the editor. *)
Record Factory (F : Type) := {
  createWatcher : RepositoryWatcherRequest -> method F nat;
  subscribe : nat -> RawWatcherEventKind -> method F nat;
  dispose_subscription : nat -> method F unit;
  dispose_watcher : nat -> method F unit;
}.
Arguments createWatcher {F}.
Arguments subscribe {F}.
Arguments dispose_subscription {F}.
Arguments dispose_watcher {F}.

Record registration := {
  reg_watcher : nat;
  reg_subscriptions : list nat;
  reg_scope : RepositoryWatchScope;
  reg_basePath : string;
}.

Definition alreadyRegistered (id : string) : js_error := PlainError ("Repository watcher already registered: " ++ id).
Definition notRegistered (id : string) : js_error := PlainError ("Repository watcher is not registered: " ++ id).
Definition rootReplaced (id : string) : js_error :=
  PlainError ("Repository watcher root replacement is not supported: " ++ id).

Section Service.
Variable localeCompareEn localeCompare : string -> string -> comparison.
Context {E : Type} (env : SourceControlProjectionService.Environment E).
Variable options : StatusRefreshScheduler.config.
Context {F : Type} (factory : Factory F).
Variable now : F -> Z.

Record service := {
  registrations : list (string * registration);
  pipeline : DirtyPathPipeline.pipeline E;
  editor : F;
}.

Definition on_pipeline {A} (m : method (DirtyPathPipeline.pipeline E) A) : method service A :=
  on_part pipeline (fun s p => {| registrations := registrations s; pipeline := p; editor := editor s |}) m.
Definition on_editor {A} (m : method F A) : method service A :=
  on_part editor (fun s f => {| registrations := registrations s; pipeline := pipeline s; editor := f |}) m.
Definition set_registrations (f : list (string * registration) -> list (string * registration)) : method service unit :=
  modify_state (fun s => {| registrations := f (registrations s); pipeline := pipeline s; editor := editor s |}).

(** [try { m } catch (error) { errors.push(error) }] *)
Definition collect (m : method service unit) (errors : list js_error) : method service (list js_error) :=
  try_catch (_ ← m; mret errors) (fun error => mret (errors ++ [error])%list).

Fixpoint dispose_subscriptions (subscriptions : list nat) (errors : list js_error) : method service (list js_error) :=
  match subscriptions with
  | [] => mret errors
  | sub :: rest =>
      errors ← collect (on_editor (dispose_subscription factory sub)) errors;
      dispose_subscriptions rest errors
  end.

Definition disposeRegistration (watcher : nat) (subscriptions : list nat) : method service unit :=
  errors ← dispose_subscriptions subscriptions [];
  errors ← collect (on_editor (dispose_watcher factory watcher)) errors;
  match errors with
  | [] => mret tt
  | error :: _ => throw_error error
  end.

(** The three [subscriptions.push(watcher.on...(...))]: what was pushed, and
    the error of the first that throws. *)
Fixpoint subscribe_all (watcher : nat) (kinds : list RawWatcherEventKind) (pushed : list nat)
    : method service (list nat * option js_error) :=
  match kinds with
  | [] => mret (pushed, None)
  | kind :: rest => fun s =>
      match on_editor (subscribe factory watcher kind) s with
      | (Ok sub, s') => subscribe_all watcher rest (pushed ++ [sub])%list s'
      | (Throw e, s') => (Ok (pushed, Some e), s')
      end
  end.

Definition registerRepository (scope : RepositoryWatchScope) : method service unit :=
  s ← get_state;
  let id := scope_repositoryId scope in
  if map_has (registrations s) id then throw_error (alreadyRegistered id)
  else
    let basePath := normalizeWatchRoot (scope_workingCopyRoot scope) in
    _ ← on_pipeline (DirtyPathPipeline.registerRepository options scope);
    watcher ← try_catch
      (on_editor (createWatcher factory {| watch_repositoryId := id; watch_basePath := basePath;
         watch_pattern := REPOSITORY_WATCH_PATTERN; watch_ignoreCreateEvents := false;
         watch_ignoreChangeEvents := false; watch_ignoreDeleteEvents := false |}))
      (fun error =>
         _ ← on_pipeline (DirtyPathPipeline.unregisterRepository id);
         throw_error error);
    pushed ← subscribe_all watcher [Changed; Created; Deleted] [];
    match pushed with
    | (subscriptions, Some error) =>
        _ ← disposeRegistration watcher subscriptions;
        _ ← on_pipeline (DirtyPathPipeline.unregisterRepository id);
        throw_error error
    | (subscriptions, None) =>
        set_registrations (fun m => map_set m id {| reg_watcher := watcher; reg_subscriptions := subscriptions;
          reg_scope := scope; reg_basePath := basePath |})
    end.

Definition replaceRepository (scope : RepositoryWatchScope) : method service unit :=
  s ← get_state;
  let id := scope_repositoryId scope in
  match map_get (registrations s) id with
  | None => throw_error (notRegistered id)
  | Some reg =>
    let basePath := normalizeWatchRoot (scope_workingCopyRoot scope) in
    if negb (bool_decide (reg_basePath reg = basePath)) then throw_error (rootReplaced id)
    else
      _ ← set_registrations (fun m => map_set m id {| reg_watcher := reg_watcher reg;
            reg_subscriptions := reg_subscriptions reg; reg_scope := scope; reg_basePath := reg_basePath reg |});
      on_pipeline (DirtyPathPipeline.registerRepository options scope)
  end.

Definition unregisterRepository (repositoryId : string) : method service unit :=
  s ← get_state;
  match map_get (registrations s) repositoryId with
  | None => mret tt
  | Some reg =>
    cleanupError ← try_catch
      (_ ← disposeRegistration (reg_watcher reg) (reg_subscriptions reg); mret None)
      (fun error => mret (Some error));
    _ ← set_registrations (fun m => map_delete m repositoryId);
    _ ← on_pipeline (DirtyPathPipeline.unregisterRepository repositoryId);
    match cleanupError with
    | Some error => throw_error error
    | None => mret tt
    end
  end.

Definition dispose : method service unit :=
  s ← get_state;
  for_each unregisterRepository (map_keys (registrations s)).

(** The listener of a subscription. *)
Definition accept (repositoryId : string) (kind : RawWatcherEventKind) (fsPath : string) : method service unit :=
  s ← get_state;
  _ ← on_pipeline (DirtyPathPipeline.accept localeCompareEn localeCompare env options repositoryId
        {| raw_fsPath := fsPath; raw_kind := kind; raw_timestamp := now (editor s) |});
  mret tt.
End Service.
Arguments service : clear implicits.
End RepositoryWatcherService.

Local Open Scope string_scope.

(** ** Events that leave the scheduler's repositories *)
Section Stays.
Import StatusRefreshScheduler.
Variable localeCompareEn localeCompare : string -> string -> comparison.
Context {E : Type} (env : SourceControlProjectionService.Environment E).
Variable options : config.
Notation world := (world E).
Implicit Types w : world.

Definition stays w w' : Prop :=
  repositories w' = repositories w /\
  forall s st, states w !! s = Some st -> exists st', states w' !! s = Some st' /\ scope st' = scope st.

Lemma stays_refl w : stays w w.
Proof using Type. split; eauto. Qed.
Lemma stays_trans w1 w2 w3 : stays w1 w2 -> stays w2 w3 -> stays w1 w3.
Proof using Type.
  intros [E1 H1] [E2 H2]. split; [congruence|]. intros s st (st' & Hs & E3)%H1. apply H2 in Hs as (st'' & ? & ?).
  exists st''. split; congruence.
Qed.
Lemma stays_eq w w' : repositories w' = repositories w -> states w' = states w -> stays w w'.
Proof using Type. intros E1 E2. split; [done|]. rewrite E2. eauto. Qed.
Lemma stays_alter w f s : (forall st, scope (f st) = scope st) -> stays w (with_states w (alter f s (states w))).
Proof using Type.
  intros Hf. split; [done|]. intros s' st Hs. cbn [states with_states]. rewrite (lookup_alter_fwd _ _ _ _ _ Hs).
  eexists. split; [done|]. by destruct (decide (s' = s)).
Qed.

Definition method_stays {A} (m : method world A) : Prop := forall w, stays w (snd (m w)).

Lemma ms_bind {A B} (m : method world A) (f : A -> method world B) :
  method_stays m -> (forall x, method_stays (f x)) -> method_stays (x ← m; f x).
Proof using Type.
  intros Hm Hf w. unfold mbind, method_bind. specialize (Hm w). destruct (m w) as [[x|e] w']; [|done].
  eapply stays_trans; [exact Hm|]. apply Hf.
Qed.
Lemma ms_read {A} (m : method world A) : (forall w, snd (m w) = w) -> method_stays m.
Proof using Type. intros Hm w. rewrite Hm. apply stays_refl. Qed.
Lemma ms_set s f : (forall st, scope (f st) = scope st) -> method_stays (set_repository (E:=E) s f).
Proof using Type. intros Hf w. by apply stays_alter. Qed.
Lemma ms_other {A} (m : method world A) :
  (forall w, repositories (snd (m w)) = repositories w /\ states (snd (m w)) = states w) -> method_stays m.
Proof using Type. intros Hm w. destruct (Hm w). by apply stays_eq. Qed.
Lemma ms_stores {A} (m : method (app E) A) : method_stays (on_stores m).
Proof using Type. intros w. destruct (on_stores_shape m w) as [a ->]. by apply stays_eq. Qed.

Ltac stay := repeat first
  [ progress intros | apply ms_bind | apply ms_stores | (apply ms_set; by intros) | (by apply ms_read) | (by apply ms_other)
  | case_match ].

Lemma ms_overflow s : method_stays (markOverflowStaleIfInitialized localeCompareEn localeCompare env s).
Proof using Type. unfold markOverflowStaleIfInitialized. stay. Qed.
Lemma ms_cancel s t : method_stays (cancelInFlightRefreshForDirtyGeneration localeCompareEn localeCompare env s t).
Proof using Type. unfold cancelInFlightRefreshForDirtyGeneration. stay. Qed.
Lemma ms_require id : method_stays (require_repository (E:=E) id).
Proof using Type. apply ms_read. intros w. unfold require_repository. rewrite bind_get. by case_match. Qed.
Lemma ms_begin s ts kind signal : method_stays (r ← beginRefresh (E:=E) s ts kind signal; set_flushing s r).
Proof using Type. unfold beginRefresh, set_flushing. stay. Qed.

Lemma ms_record id e : method_stays (recordFileEvent localeCompareEn localeCompare env options id e).
Proof using Type.
  unfold recordFileEvent. apply ms_bind; [apply ms_require|]. intros s. apply ms_bind; [by apply ms_read|]. intros st.
  destruct (DirtyPathSet.record _ _ e) as [b d]. apply ms_bind; [by apply ms_set|]. intros _. destruct b; [|by apply ms_read].
  apply ms_bind; [case_match; [by apply ms_set|by apply ms_read]|]. intros _. apply ms_bind; [apply ms_overflow|]. intros _.
  apply ms_bind; [apply ms_cancel|]. intros _. apply ms_bind; [by apply ms_set|]. intros _. by apply ms_read.
Qed.

Lemma ms_flush id signal : method_stays (flushRepository localeCompareEn localeCompare env id signal).
Proof using Type.
  unfold flushRepository. apply ms_bind; [apply ms_require|]. intros s. apply ms_bind; [by apply ms_read|]. intros st.
  case_match; [by apply ms_read|]. apply ms_bind; [by apply ms_set|]. intros _. apply ms_bind; [apply ms_overflow|]. intros _.
  apply ms_bind; [by apply ms_read|]. intros st'. destruct (DirtyPathSet.drainToRefreshTargets _) as [ts d].
  apply ms_bind; [by apply ms_set|]. intros _. case_match; [by apply ms_read|apply ms_begin].
Qed.

Lemma ms_targets s ts retry signal : method_stays (runRefreshTargets (E:=E) s ts retry signal).
Proof using Type.
  unfold runRefreshTargets. apply ms_bind; [by apply ms_read|]. intros st. case_match; [by apply ms_read|apply ms_begin].
Qed.
Lemma ms_full s reason retry signal : method_stays (runFullReconcile (E:=E) s reason retry signal).
Proof using Type.
  unfold runFullReconcile. apply ms_bind; [by apply ms_read|]. intros st. case_match; [by apply ms_read|].
  apply ms_bind; [by apply ms_set|]. intros _. destruct (DirtyPathSet.drainToRefreshTargets _) as [ts d].
  apply ms_bind; [by apply ms_set|]. intros _. apply ms_begin.
Qed.
Lemma ms_epoch s code key id epoch : method_stays (require_epoch (E:=E) s code key id epoch).
Proof using Type. apply ms_read. intros w. unfold require_epoch. rewrite bind_repository. by case_match. Qed.
Lemma ms_exclusive s : method_stays (exclusive_loop (E:=E) s).
Proof using Type. unfold exclusive_loop. stay. Qed.

Lemma ms_invoke c : method_stays (invoke localeCompareEn localeCompare env c).
Proof using Type.
  destruct c; cbn [invoke].
  - apply ms_flush.
  - do 2 (apply ms_bind; [first [apply ms_require|apply ms_epoch]|intros ?]). apply ms_full.
  - do 2 (apply ms_bind; [first [apply ms_require|apply ms_epoch]|intros ?]). case_match; [by apply ms_read|apply ms_targets].
  - do 3 (apply ms_bind; [first [apply ms_require|apply ms_epoch|by apply ms_read]|intros ?]). apply ms_targets.
  - apply ms_bind; [apply ms_require|]. apply ms_exclusive.
  - unfold runScheduledFullReconcile. apply ms_bind; [by apply ms_read|]. intros w. case_match; [by apply ms_read|apply ms_full].
  - apply ms_exclusive.
Qed.

Lemma start_stays c w : stays w (start localeCompareEn localeCompare env c w).
Proof using Type.
  pose proof (ms_invoke c w) as H. unfold start. destruct (invoke _ _ _ c w) as [[[|p retry|p]|] w']; exact H.
Qed.

Lemma ms_merge r e : method_stays (merge_back (E:=E) r e).
Proof using Type. unfold merge_back. stay. Qed.
Lemma ms_finish r : method_stays (finish (E:=E) options r).
Proof using Type.
  unfold finish, finishRefresh, scheduleFullReconcile. stay; apply ms_set; intros st; by repeat case_match.
Qed.

Lemma react_stays r w w' : react localeCompareEn localeCompare env options r w = Some w' -> stays w w'.
Proof using Type.
  unfold react. destruct (runs w !! r) as [run|]; [|done]. cbn [mbind option_bind].
  destruct (run_phase run) as [|delta|error|delta|o|o]; try done.
  - intros [= <-]. destruct (apply_delta_shape r delta w) as [a Ha].
    destruct (apply_delta r delta w) as [[[]|e] w1]; cbn [snd] in Ha; subst w1; by apply stays_eq.
  - pose proof (ms_merge r error w) as H. destruct (merge_back r error w) as [o w1]. intros [= <-].
    eapply stays_trans; [exact H|]. by apply stays_eq.
  - destruct (publish_delta_shape localeCompareEn localeCompare env r delta w) as (a & c & Ha).
    destruct (publish_delta _ _ _ r delta w) as [o w1]; cbn [snd] in Ha; subst w1. intros [= <-]. by apply stays_eq.
  - pose proof (ms_finish r w) as H. destruct (finish options r w) as [o' w1]. intros [= <-].
    eapply stays_trans; [exact H|]. by apply stays_eq.
Qed.

Definition registers (ev : event E) : Prop := match ev with Register _ | Unregister _ => True | _ => False end.

Lemma exec_stays ev w w' :
  ~ registers ev -> exec localeCompareEn localeCompare env options ev w = Some w' -> stays w w'.
Proof using Type.
  intros Hr Hx. destruct ev as [sc|id|id e|c|s|s|i|r answer|r|b|signal|a]; cbn [exec] in Hx; try (by destruct Hr).
  - injection Hx as <-. apply ms_record.
  - destruct (public c); [|done]. injection Hx as <-. apply start_stays.
  - destruct (states w !! s); [|done]. cbn in Hx. destruct (timer _); [|done]. injection Hx as <-.
    eapply stays_trans; [by apply (stays_alter w (fun st => with_timer st false) s)|apply start_stays].
  - destruct (states w !! s); [|done]. cbn in Hx. destruct (fullReconcileTimer _); [|done]. injection Hx as <-.
    eapply stays_trans; [by apply (stays_alter w (fun st => with_fullReconcileTimer st false) s)|apply start_stays].
  - destruct (waiters w !! i) as [[p c]|]; [|done]. destruct (settled w p); [|done]. injection Hx as <-.
    eapply stays_trans; [|apply start_stays]. by apply stays_eq.
  - destruct (runs w !! r) as [run|]; [|done]. cbn in Hx. destruct (run_phase run); try done. injection Hx as <-. by apply stays_eq.
  - by eapply react_stays.
  - destruct (barriers w !! b) as [[s [|]]|] eqn:Hb; try done. injection Hx as <-. unfold release. rewrite bind_get, Hb.
    eapply stays_trans; [apply (stays_alter w (fun st => if bool_decide (flushing st = Some (Barrier b)) then with_flushing st None else st) s)|by apply stays_eq].
    intros st. by case_bool_decide.
  - injection Hx as <-. by apply stays_eq.
  - injection Hx as <-. by apply stays_eq.
Qed.

(** ** Registration *)
Lemma register_result sc w :
  let w' := snd (registerRepository options sc w) in
  repositories w' = map_set (repositories w) (scope_repositoryId sc) (length (states w)) /\
  (exists st, states w' !! length (states w) = Some st /\ scope st = sc) /\
  forall s st, states w !! s = Some st -> exists st', states w' !! s = Some st' /\ scope st' = scope st.
Proof using Type.
  cbn zeta. unfold registerRepository. rewrite bind_get.
  set (m := match map_get _ _ with Some existing => _ | None => _ end).
  assert (exists w1, m w = (Ok tt, w1) /\ stays w w1 /\ length (states w1) = length (states w)) as (w1 & E1 & [Er Hs] & El).
  { subst m. destruct (map_get _ _) as [s|]; [|exists w; split_and!; [done|apply stays_refl|done]].
    eexists. split; [done|]. split; [by apply stays_alter|]. apply length_alter. }
  rewrite (method_bind_ok m _ w tt w1 E1). clear m E1.
  set (w2 := with_repositories (with_states w1 (states w1 ++ [new_repository sc])%list)
    (map_set (repositories w1) (scope_repositoryId sc) (length (states w)))).
  change (repositories (snd (scheduleFullReconcile options (length (states w)) w2))
    = map_set (repositories w) (scope_repositoryId sc) (length (states w)) /\
    (exists st, states (snd (scheduleFullReconcile options (length (states w)) w2)) !! length (states w) = Some st /\ scope st = sc) /\
    forall s st, states w !! s = Some st -> exists st', states (snd (scheduleFullReconcile options (length (states w)) w2)) !! s = Some st' /\ scope st' = scope st).
  assert (stays w2 (snd (scheduleFullReconcile options (length (states w)) w2))) as [Er2 Hs2].
  { unfold scheduleFullReconcile. destruct (fullReconcileIntervalMs options); [by apply stays_alter|apply stays_refl]. }
  split; [rewrite Er2; cbn; by rewrite Er|]. split.
  - apply (Hs2 _ (new_repository sc)). cbn. rewrite <- El. apply lookup_snoc_last.
  - intros s st (st1 & Hs1 & E1)%Hs. destruct (Hs2 s st1) as (st2 & ? & ?); [by apply lookup_snoc_fwd|]. exists st2. split; congruence.
Qed.

Lemma unregister_result id w :
  let w' := snd (unregisterRepository id w) in
  repositories w' = map_delete (repositories w) id /\
  forall s st, states w !! s = Some st -> exists st', states w' !! s = Some st' /\ scope st' = scope st.
Proof using Type.
  cbn zeta. unfold unregisterRepository. rewrite bind_get. destruct (map_get (repositories w) id) as [s|].
  - destruct (stays_alter w (fun st => with_fullReconcileTimer (with_timer st false) false) s) as [E1 H1]; [done|].
    split; [done|exact H1].
  - split; [done|]. eauto.
Qed.

Lemma register_returns sc w : exists w', registerRepository options sc w = (Ok tt, w').
Proof using Type.
  unfold registerRepository, scheduleFullReconcile. rewrite bind_get. unfold mbind, method_bind.
  destruct (map_get (repositories w) (scope_repositoryId sc)), (fullReconcileIntervalMs options); by eexists.
Qed.
Lemma unregister_returns id w : exists w', unregisterRepository id w = (Ok tt, w').
Proof using Type.
  unfold unregisterRepository. rewrite bind_get. unfold mbind, method_bind. destruct (map_get (repositories w) id); by eexists.
Qed.
End Stays.

(** ** The pipeline and the watcher service *)
Section Linked.
Variable localeCompareEn localeCompare : string -> string -> comparison.
Context {E : Type} (env : SourceControlProjectionService.Environment E).
Variable options : StatusRefreshScheduler.config.
Context {F : Type} (factory : RepositoryWatcherService.Factory F).
Variable now : F -> Z.
Import DirtyPathPipeline RepositoryWatcherService.
Notation service := (RepositoryWatcherService.service E F).
Notation pipeline_register := (DirtyPathPipeline.registerRepository options).

(** The scopes of the pipeline are those of the scheduler's states. *)
Definition linked (p : DirtyPathPipeline.pipeline E) : Prop :=
  forall id, match map_get (scopes p) id, map_get (StatusRefreshScheduler.repositories (scheduler p)) id with
    | None, None => True
    | Some sc, Some s => scope_repositoryId sc = id /\
        exists st, StatusRefreshScheduler.states (scheduler p) !! s = Some st /\ StatusRefreshScheduler.scope st = sc
    | _, _ => False
    end.

(** A watched repository is registered with the scope last given for it. *)
Definition watched (s : service) : Prop :=
  forall id reg, map_get (registrations s) id = Some reg -> map_get (scopes (pipeline s)) id = Some (reg_scope reg).

(** ... and, where disposals do not throw, every registered one is watched. *)
Definition quiet_disposals : Prop :=
  (forall n f, exists f', dispose_subscription factory n f = (Ok tt, f')) /\
  (forall n f, exists f', dispose_watcher factory n f = (Ok tt, f')).
Definition all_watched (s : service) : Prop :=
  forall id, map_get (registrations s) id = None -> map_get (scopes (pipeline s)) id = None.

Definition service_ok (s : service) : Prop := linked (pipeline s) /\ watched s /\ (quiet_disposals -> all_watched s).

Lemma linked_register sc p :
  linked p -> exists p', pipeline_register sc p = (Ok tt, p') /\ linked p' /\
    scopes p' = map_set (scopes p) (scope_repositoryId sc) sc.
Proof using Type.
  intros Hl. unfold DirtyPathPipeline.registerRepository, on_scheduler, on_part, mbind, method_bind, modify_state. cbn beta iota.
  cbn [scheduler scopes]. pose proof (register_result options sc (scheduler p)) as (Er & (st & Hs & Hsc) & Hst).
  destruct (register_returns options sc (scheduler p)) as [w' Hw'].
  rewrite Hw' in *. cbn [snd] in *. eexists. split; [done|]. split; [|done]. intros id. cbn [scopes scheduler].
  rewrite Er, !map_get_set. case_bool_decide as Hid; [by split; [|exists st]|]. specialize (Hl id).
  destruct (map_get (scopes p) id) as [sc0|], (map_get (StatusRefreshScheduler.repositories (scheduler p)) id) as [s0|]; try done.
  destruct Hl as (Ei & st0 & Hs0 & E0). split; [done|]. apply Hst in Hs0 as (st' & ? & ?). exists st'. split; congruence.
Qed.

Lemma linked_unregister id p :
  linked p -> exists p', DirtyPathPipeline.unregisterRepository id p = (Ok tt, p') /\ linked p' /\
    scopes p' = map_delete (scopes p) id.
Proof using Type.
  intros Hl. unfold DirtyPathPipeline.unregisterRepository, on_scheduler, on_part, mbind, method_bind, modify_state. cbn beta iota.
  cbn [scheduler scopes]. pose proof (unregister_result id (scheduler p)) as (Er & Hst).
  destruct (unregister_returns id (scheduler p)) as [w' Hw'].
  rewrite Hw' in *. cbn [snd] in *. eexists. split; [done|]. split; [|done]. intros id'. cbn [scopes scheduler].
  rewrite Er, !map_get_delete. case_bool_decide; [done|]. specialize (Hl id').
  destruct (map_get (scopes p) id') as [sc0|], (map_get (StatusRefreshScheduler.repositories (scheduler p)) id') as [s0|]; try done.
  destruct Hl as (Ei & st0 & Hs0 & E0). split; [done|]. apply Hst in Hs0 as (st' & ? & ?). exists st'. split; congruence.
Qed.

Lemma linked_stays p w' :
  linked p -> stays (scheduler p) w' -> linked {| scopes := scopes p; scheduler := w' |}.
Proof using Type.
  intros Hl [Er Hst] id. cbn. rewrite Er. specialize (Hl id). destruct (map_get (scopes p) id), (map_get (StatusRefreshScheduler.repositories (scheduler p)) id); try done.
  destruct Hl as (Ei & st0 & Hs0 & E0). split; [done|]. apply Hst in Hs0 as (st' & ? & ?). exists st'. split; congruence.
Qed.

(** While the service registers [id]: everything but the new entry. *)
Definition registering (id : string) (scopes_id : option RepositoryWatchScope) (s : service) : Prop :=
  linked (pipeline s) /\ watched s /\ map_get (registrations s) id = None /\ map_get (scopes (pipeline s)) id = scopes_id /\
  (quiet_disposals -> forall id', id' <> id -> map_get (registrations s) id' = None -> map_get (scopes (pipeline s)) id' = None).

Lemma registering_ok id s : registering id None s -> service_ok s.
Proof using Type.
  intros (Hl & Hw & Hr & Hs & Hq). split; [done|]. split; [done|]. intros Hquiet id' Hid'.
  destruct (decide (id' = id)) as [->|]; [done|]. by apply Hq.
Qed.

Lemma editor_keeps {A} (m : method F A) (R : service -> Prop) :
  (forall s f, R s -> R {| registrations := registrations s; pipeline := pipeline s; editor := f |}) ->
  triple R (on_editor m) (fun _ => R) (fun _ => R).
Proof using Type. intros H. by apply triple_part. Qed.

Lemma registering_editor id o s f :
  registering id o s -> registering id o {| registrations := registrations s; pipeline := pipeline s; editor := f |}.
Proof using Type. done. Qed.

Lemma registering_set id sc :
  id = scope_repositoryId sc ->
  triple (fun s => service_ok s /\ map_get (registrations s) id = None) (on_pipeline (pipeline_register sc))
    (fun _ => registering id (Some sc)) (fun _ _ => False).
Proof using Type.
  intros -> s [(Hl & Hw & Hq) Hr]. unfold on_pipeline, on_part.
  destruct (linked_register sc (pipeline s) Hl) as (p' & -> & Hl' & Hsc). cbn.
  split; [done|]. split; [|split; [done|]; split].
  - intros id reg Hreg. cbn in *. rewrite Hsc, map_get_set. rewrite bool_decide_false; [by apply Hw|congruence].
  - cbn. rewrite Hsc. apply map_get_set_eq.
  - intros Hquiet id' Hne Hr'. cbn in *. rewrite Hsc, map_get_set, bool_decide_false by done. by apply Hq.
Qed.

Lemma registering_delete id o :
  triple (registering id o) (on_pipeline (DirtyPathPipeline.unregisterRepository id))
    (fun _ => registering id None) (fun _ _ => False).
Proof using Type.
  intros s (Hl & Hw & Hr & Hs & Hq). unfold on_pipeline, on_part.
  destruct (linked_unregister id (pipeline s) Hl) as (p' & -> & Hl' & Hsc). cbn.
  split; [done|]. split; [|split; [done|]; split].
  - intros id' reg Hreg. cbn in *. rewrite Hsc, map_get_delete. rewrite bool_decide_false; [by apply Hw|congruence].
  - cbn. rewrite Hsc. apply map_get_delete_eq.
  - intros Hquiet id' Hne Hr'. cbn in *. rewrite Hsc, map_get_delete, bool_decide_false by done. by apply Hq.
Qed.

(** Disposals touch the editor only, and throw only where one of them does. *)
Lemma collect_editor (m : method F unit) errors (R : service -> Prop) :
  (forall s f, R s -> R {| registrations := registrations s; pipeline := pipeline s; editor := f |}) ->
  triple (fun s => R s /\ (quiet_disposals -> errors = []))
    (collect (on_editor m) errors)
    (fun errors' s => R s /\ (quiet_disposals -> (forall f, exists f', m f = (Ok tt, f')) -> errors' = [])) (fun _ _ => False).
Proof using Type.
  intros HR s [Hs He]. unfold collect, try_catch, on_editor, on_part, mbind, method_bind, mret, method_ret.
  destruct (m (editor s)) as [[[]|e] f] eqn:Hm; cbn; (split; [by apply HR|]); [by auto|].
  intros _ Hq. destruct (Hq (editor s)) as [f' Hf]. congruence.
Qed.

Lemma dispose_keeps watcher subs (R : service -> Prop) :
  (forall s f, R s -> R {| registrations := registrations s; pipeline := pipeline s; editor := f |}) ->
  triple R (disposeRegistration factory watcher subs) (fun _ => R) (fun _ s => R s /\ ~ quiet_disposals).
Proof using Type.
  intros HR. unfold disposeRegistration.
  assert (forall errors, triple (fun s => R s /\ (quiet_disposals -> errors = [])) (dispose_subscriptions factory subs errors)
    (fun errors' s => R s /\ (quiet_disposals -> errors' = [])) (fun _ _ => False)) as Hsubs.
  { induction subs as [|sub subs IH]; intros errors; cbn [dispose_subscriptions]; [by intros s|].
    eapply triple_bind; [by apply collect_editor|]. intros errors'. cbn beta. intros s [Hs He]. apply IH. split; [done|].
    intros Hq. apply He; [done|]. intros f. apply Hq. }
  intros s Hs. pose proof (Hsubs [] s (conj Hs (fun _ => eq_refl))) as H. unfold mbind at 1, method_bind at 1.
  destruct (dispose_subscriptions factory subs [] s) as [[errors|e] s1]; [|done].
  pose proof (collect_editor (dispose_watcher factory watcher) errors R HR s1 H) as H2. unfold mbind, method_bind.
  destruct (collect _ _ s1) as [[errors'|e] s2]; [|done]. destruct H2 as [Hs2 He2].
  destruct errors' as [|e errors']; [done|]. split; [done|]. intros Hq. by discriminate (He2 Hq (proj2 Hq watcher)).
Qed.

Lemma subscribe_keeps watcher kinds pushed (R : service -> Prop) :
  (forall s f, R s -> R {| registrations := registrations s; pipeline := pipeline s; editor := f |}) ->
  triple R (subscribe_all factory watcher kinds pushed) (fun _ => R) (fun _ _ => False).
Proof using Type.
  intros HR. revert pushed. induction kinds as [|kind kinds IH]; intros pushed; cbn [subscribe_all]; [by intros s|].
  intros s Hs. pose proof (editor_keeps (subscribe factory watcher kind) R HR s Hs) as H.
  destruct (on_editor _ s) as [[sub|e] s1]; [|done]. by apply IH.
Qed.

Lemma deleted_throw {A} id o e (Q : A -> service -> Prop) :
  triple (registering id o) (_ ← on_pipeline (DirtyPathPipeline.unregisterRepository id); throw_error e)
    Q (fun _ => service_ok).
Proof using Type.
  apply (triple_bind _ _ _ (fun _ => registering id None)); [|intros _; apply triple_throw; apply registering_ok].
  intros s Hs. pose proof (registering_delete id o s Hs) as H. by destruct (on_pipeline _ s) as [[[]|?] s'].
Qed.

Lemma register_keeps sc :
  triple service_ok (RepositoryWatcherService.registerRepository options factory sc) (fun _ => service_ok) (fun _ => service_ok).
Proof using Type.
  unfold RepositoryWatcherService.registerRepository. apply triple_get. intros s0. cbn zeta. set (id := scope_repositoryId sc).
  destruct (map_has (registrations s0) id) eqn:Hh; [by apply triple_throw; intros s [_ ?]|].
  assert (map_get (registrations s0) id = None) as Hnone.
  { unfold map_has in Hh. by destruct (map_get (registrations s0) id). }
  intros s [-> Hs]. revert Hs. clear Hh. intros Hs.
  pose proof (registering_set id sc eq_refl s0 (conj Hs Hnone)) as H1. unfold mbind at 1, method_bind at 1.
  destruct (on_pipeline (pipeline_register sc) s0) as [[[]|e] s1]; [|done].
  revert s1 H1. eapply (triple_bind _ _ _ (fun _ => registering id (Some sc))).
  - apply (triple_catch _ _ _ _ (fun _ => registering id (Some sc))); [apply editor_keeps, registering_editor|].
    intros e. apply deleted_throw.
  - intros watcher. apply (triple_bind _ _ _ (fun _ => registering id (Some sc))).
    { intros s1 H1. pose proof (subscribe_keeps watcher [Changed; Created; Deleted] [] _ (registering_editor id (Some sc)) s1 H1) as H.
      by destruct (subscribe_all _ _ _ _ s1) as [[?|?] ?]. }
    intros [subs [e|]].
    + apply (triple_bind _ _ _ (fun _ => registering id (Some sc))).
      * intros s1 H1. pose proof (dispose_keeps watcher subs _ (registering_editor id (Some sc)) s1 H1) as H.
        destruct (disposeRegistration _ _ _ s1) as [[?|?] s2]; [done|]. destruct H as ((Hl & Hw & _) & Hq). by split.
      * intros _. apply deleted_throw.
    + intros s (Hl & Hw & Hr & Hsc & Hq). split; [done|]. split.
      * intros id' reg. cbn. rewrite map_get_set. case_bool_decide as Hid; [intros [= <-]; by subst id'|]. apply Hw.
      * intros Hquiet id'. cbn. rewrite map_get_set. case_bool_decide; [done|]. intros Hr'. apply Hq; [done| |done]. congruence.
Qed.

Lemma replace_keeps sc :
  triple service_ok (RepositoryWatcherService.replaceRepository options sc) (fun _ => service_ok) (fun _ => service_ok).
Proof using Type.
  unfold RepositoryWatcherService.replaceRepository. apply triple_get. intros s0. cbn zeta.
  destruct (map_get (registrations s0) (scope_repositoryId sc)) as [reg|] eqn:Hreg; [|by apply triple_throw; intros s [_ ?]].
  destruct (negb _); [by apply triple_throw; intros s [_ ?]|]. intros s [-> (Hl & Hw & Hq)].
  unfold set_registrations, on_pipeline, on_part, modify_state, mbind, method_bind. cbn [pipeline registrations editor].
  destruct (linked_register sc (pipeline s0) Hl) as (p' & -> & Hl' & Hsc). split; [done|]. split.
  - intros id reg'. cbn. rewrite Hsc, !map_get_set. case_bool_decide; [by intros [= <-]|]. apply Hw.
  - intros Hquiet id. cbn. rewrite Hsc, !map_get_set. case_bool_decide; [done|]. by apply Hq.
Qed.

Lemma unregister_keeps id :
  triple service_ok (RepositoryWatcherService.unregisterRepository factory id) (fun _ => service_ok) (fun _ => service_ok).
Proof using Type.
  unfold RepositoryWatcherService.unregisterRepository. apply triple_get. intros s0.
  destruct (map_get (registrations s0) id) as [reg|]; [|by intros s [_ ?]]. intros s [_ Hs]. revert s Hs.
  eapply (triple_bind _ _ _ (fun _ => service_ok)).
  - apply (triple_catch _ _ _ _ (fun _ => service_ok)); [|by intros e s].
    apply (triple_bind _ _ _ (fun _ => service_ok)); [|by intros [] s Hs].
    intros s1 H1. pose proof (dispose_keeps (reg_watcher reg) (reg_subscriptions reg) service_ok (fun _ _ H => H) s1 H1) as H.
    destruct (disposeRegistration _ _ _ s1) as [[?|?] s2]; [done|by destruct H].
  - intros cleanup s (Hl & Hw & Hq). unfold set_registrations, on_pipeline, on_part, modify_state, mbind, method_bind.
    cbn [pipeline registrations editor]. destruct (linked_unregister id (pipeline s) Hl) as (p' & -> & Hl' & Hsc).
    assert (service_ok {| registrations := map_delete (registrations s) id; pipeline := p'; editor := editor s |}) as Hok.
    { split; [done|]. split.
      - intros id' reg'. cbn. rewrite Hsc, !map_get_delete. case_bool_decide; [done|]. apply Hw.
      - intros Hquiet id'. cbn. rewrite Hsc, !map_get_delete. case_bool_decide; [done|]. by apply Hq. }
    by destruct cleanup.
Qed.

Lemma accept_keeps id kind path :
  triple service_ok (RepositoryWatcherService.accept localeCompareEn localeCompare env options now id kind path)
    (fun _ => service_ok) (fun _ => service_ok).
Proof using Type.
  unfold RepositoryWatcherService.accept. apply triple_get. intros s0. eapply (triple_bind _ _ _ (fun _ => service_ok)); [|by intros _ s].
  intros s [_ (Hl & Hw & Hq)]. unfold on_pipeline, on_part, DirtyPathPipeline.accept. unfold mbind at 1, method_bind at 1. cbn [get_state].
  destruct (map_get (scopes (pipeline s)) id) as [sc|]; [|done].
  destruct (WatcherEvents.normalizeWatcherEvent sc _) as [e|]; [|done]. unfold on_scheduler, on_part.
  pose proof (ms_record localeCompareEn localeCompare env options id e (scheduler (pipeline s))) as H.
  pose proof (linked_stays _ _ Hl H) as Hl'.
  destruct (StatusRefreshScheduler.recordFileEvent _ _ _ _ id e _) as [[b|err] w']; by split.
Qed.

(** What happens to the service: its methods, the editor's events, and
    everything the scheduler does on its own. *)
Inductive watch_event :=
  | WatchRegister (sc : RepositoryWatchScope)
  | WatchReplace (sc : RepositoryWatchScope)
  | WatchUnregister (id : string)
  | WatchDispose
  | WatchFile (id : string) (kind : RawWatcherEventKind) (fsPath : string)
  | WatchScheduler (ev : StatusRefreshScheduler.event E).

Definition watch_exec (ev : watch_event) (s : service) : service :=
  match ev with
  | WatchRegister sc => snd (RepositoryWatcherService.registerRepository options factory sc s)
  | WatchReplace sc => snd (RepositoryWatcherService.replaceRepository options sc s)
  | WatchUnregister id => snd (RepositoryWatcherService.unregisterRepository factory id s)
  | WatchDispose => snd (RepositoryWatcherService.dispose factory s)
  | WatchFile id kind path => snd (RepositoryWatcherService.accept localeCompareEn localeCompare env options now id kind path s)
  | WatchScheduler ev =>
      match ev with
      | StatusRefreshScheduler.Register _ | StatusRefreshScheduler.Unregister _ => s
      | _ =>
        {| registrations := registrations s;
           pipeline := {| scopes := scopes (pipeline s);
             scheduler := default (scheduler (pipeline s))
               (StatusRefreshScheduler.exec localeCompareEn localeCompare env options ev (scheduler (pipeline s))) |};
           editor := editor s |}
      end
  end.

Lemma result_keeps {A} (m : method service A) s :
  triple service_ok m (fun _ => service_ok) (fun _ => service_ok) -> service_ok s -> service_ok (snd (m s)).
Proof using Type. intros Hm Hs. specialize (Hm s Hs). by destruct (m s) as [[x|e] s']. Qed.

Lemma watch_exec_keeps ev s : service_ok s -> service_ok (watch_exec ev s).
Proof using Type.
  intros Hs. destruct ev as [sc|sc|id| |id kind path|ev]; cbn [watch_exec].
  - by apply result_keeps; [apply register_keeps|].
  - by apply result_keeps; [apply replace_keeps|].
  - by apply result_keeps; [apply unregister_keeps|].
  - apply result_keeps; [|done]. unfold RepositoryWatcherService.dispose. apply triple_get. intros s0.
    intros s1 [_ H1]. revert s1 H1. apply triple_for_each. apply unregister_keeps.
  - by apply result_keeps; [apply accept_keeps|].
  - assert (forall w', stays (scheduler (pipeline s)) w' -> service_ok {| registrations := registrations s;
      pipeline := {| scopes := scopes (pipeline s); scheduler := w' |}; editor := editor s |}) as Hst.
    { intros w' Hw'. destruct Hs as (Hl & Hw & Hq). split; [by apply linked_stays|]. by split. }
    assert (~ registers ev -> stays (scheduler (pipeline s)) (default (scheduler (pipeline s))
      (StatusRefreshScheduler.exec localeCompareEn localeCompare env options ev (scheduler (pipeline s))))) as Hev.
    { intros Hr. destruct (StatusRefreshScheduler.exec _ _ _ _ ev _) as [w'|] eqn:Hx; [by eapply exec_stays|apply stays_refl]. }
    destruct ev; try exact Hs; apply Hst, Hev; exact (fun H => H).
Qed.
End Linked.

(** C7: What is watched is what is scheduled.  After any sequence of calls of the
    watcher service, file events and activity of the scheduler, whatever the
    editor's watchers throw: the pipeline and the scheduler know the same
    repositories with the same scopes; every watched repository is registered
    with the scope last given for it; and, where disposals do not throw, every
    registered one is watched. *)
Theorem watched_is_scheduled localeCompareEn localeCompare {E} (env : SourceControlProjectionService.Environment E) options
    {F} (factory : RepositoryWatcherService.Factory F) now (a : app E) recorder (f : F) (evs : list (watch_event (E:=E))) :
  let start := {| RepositoryWatcherService.registrations := [];
                  RepositoryWatcherService.pipeline := {| DirtyPathPipeline.scopes := [];
                    DirtyPathPipeline.scheduler := initial a recorder |};
                  RepositoryWatcherService.editor := f |} in
  let s := fold_left (fun s ev => watch_exec localeCompareEn localeCompare env options factory now ev s) evs start in
  linked (RepositoryWatcherService.pipeline s) /\ watched s /\ (quiet_disposals factory -> all_watched s).
Proof.
  cbn zeta. match goal with |- context [fold_left _ evs ?s0] => set (start := s0) end.
  assert (service_ok factory start) as Hs by (split; [by intros id|]; by split).
  clearbody start. revert start Hs. induction evs as [|ev evs IH]; intros start Hs; [done|].
  cbn [fold_left]. apply IH. by apply watch_exec_keeps.
Qed.

(** ** One file event, from the watcher to the dirty-path set *)

(** An event with a path of the repository is accepted. *)
Lemma record_accepts c d e p :
  repositoryRelativePath (DirtyPathSet.scope c) (event_path e) = Some p -> p <> "" ->
  exists d', DirtyPathSet.record c d e = (true, d').
Proof.
  intros Hp Hne. unfold DirtyPathSet.record. destruct (DirtyPathSet.overflowed d); [by eexists|]. rewrite Hp.
  destruct p as [|ch p]; [done|]. destruct (DirtyPathSet.mergeIntoFoldedTargetIfCovered _ _ _ _); [by eexists|].
  destruct (map_get (DirtyPathSet.entries d) _); by eexists.
Qed.

(** A normalized event has a path of the repository. *)
Lemma normalized_event sc raw e :
  WatcherEvents.normalizeWatcherEvent sc raw = Some e ->
  event_kind e = WatcherEvents.mapEventKind (raw_kind raw) /\ exists p, repositoryRelativePath sc (event_path e) = Some p /\ p <> "".
Proof.
  rewrite watcher_event_spec. intros (p & Hp & [= <-])%bind_Some. split; [done|]. cbn [event_path]. exists p.
  rewrite relative_normalized. split; [done|]. intros ->. apply repositoryRelativePath_safe in Hp as [|[_ Hf]]; [done|].
  cbn in Hf. by inversion Hf.
Qed.

(** A file event arrives.  [accept] of a registered repository returns false,
    and changes nothing, exactly when the event's path is not one of the
    repository's (outside it, in a nested boundary or in .svn); any other event
    is in the repository's dirty-path set afterwards, so that a refresh target
    shows it, also when [accept] throws while marking the status as stale. *)
Theorem raw_event_recorded localeCompareEn localeCompare {E} (env : SourceControlProjectionService.Environment E) options
    (p : DirtyPathPipeline.pipeline E) id sc raw :
  linked p -> wf options (DirtyPathPipeline.scheduler p) -> map_get (DirtyPathPipeline.scopes p) id = Some sc ->
  let r := DirtyPathPipeline.accept localeCompareEn localeCompare env options id raw p in
  match watched_path sc raw with
  | None => r = (Ok false, p)
  | Some path =>
      (fst r = Ok true \/ exists e, fst r = Throw e) /\
      exists s st t, map_get (StatusRefreshScheduler.repositories (DirtyPathPipeline.scheduler (snd r))) id = Some s /\
        StatusRefreshScheduler.states (DirtyPathPipeline.scheduler (snd r)) !! s = Some st /\
        t ∈ DirtyPathSet.toRefreshTargets (StatusRefreshScheduler.dirtyPaths st) /\
        shows (StatusRefreshScheduler.dirty_config options st) (comparisonKey sc path) (WatcherEvents.mapEventKind (raw_kind raw)) t
  end.
Proof.
  intros Hl Hw Hsc. cbn zeta. pose proof (Hl id) as Hlid. rewrite Hsc in Hlid.
  destruct (map_get (StatusRefreshScheduler.repositories (DirtyPathPipeline.scheduler p)) id) as [s|] eqn:Hid; [|done].
  destruct Hlid as (Ei & st & Hs & Est).
  unfold watched_path. destruct (WatcherEvents.normalizeWatcherEvent sc raw) as [e|] eqn:He.
  2: { cbn. unfold DirtyPathPipeline.accept. unfold mbind, method_bind. cbn [get_state]. by rewrite Hsc, He. }
  destruct (normalized_event sc raw e He) as (Hk & path & Hp & Hne). cbn [mbind option_bind]. rewrite Hp.
  assert (DirtyPathPipeline.accept localeCompareEn localeCompare env options id raw p
    = DirtyPathPipeline.on_scheduler (StatusRefreshScheduler.recordFileEvent localeCompareEn localeCompare env options id e) p) as ->.
  { unfold DirtyPathPipeline.accept. unfold mbind, method_bind. cbn [get_state]. by rewrite Hsc, He. }
  unfold DirtyPathPipeline.on_scheduler, on_part. set (w := DirtyPathPipeline.scheduler p) in *. rewrite <- Est in Hp.
  destruct (record_accepts (StatusRefreshScheduler.dirty_config options st) (StatusRefreshScheduler.dirtyPaths st) e path Hp Hne) as [d Hr].
  destruct (recordFileEvent_moves localeCompareEn localeCompare env options id e w s st true d Hid Hs) as (_ & (Er & Hlen & Hst) & Hret);
    [exists st; by rewrite Est, Ei|done|].
  destruct (event_accounted localeCompareEn localeCompare env options id e w s st d path Hw Hid Hs Hr Hp) as [Hm (_ & _ & Ha)].
  destruct (StatusRefreshScheduler.recordFileEvent localeCompareEn localeCompare env options id e w) as [o w'].
  cbn [fst snd DirtyPathPipeline.scheduler] in *. split; [destruct o as [b|err]; [left; by destruct (Hret b eq_refl) as [-> _]|right; by eexists]|].
  assert (wf options w') as Hw' by by eapply moves_wf.
  destruct Ha as [(st' & Hs' & Hc & Hh)|(r & run & Hle & Hrun & _)]; [|apply lookup_lt_Some in Hrun; lia].
  pose proof (wf_dirty _ _ _ _ (wf_states _ _ Hw' _ _ Hs')) as Hd. rewrite Hc in Hd.
  destruct (proj2 (drained_held _ _ Hd) _ _ Hh) as (t & Hin & Hsh).
  exists s, st', t. rewrite Er, Hc, <- Hk, <- Est. done.
Qed.
