(* ===== verification/SchedulerWitnesses.v ===== *)
(** The theorems about the scheduler and the watchers at concrete inputs. *)

From Stdlib Require Import ZArith Lia String List.
From stdpp Require Import base option list relations strings.
From S2P Require Import Prelude JsString JsMap JsValue StatusTypes StatusWireFacts StatusStore StatusStoreFacts Paths DirtyPaths DirtyPathsFacts RefreshRequests ScmResources StoresAgree ProjectionService Notifications NotificationsFacts Witnesses CoverageStore RefreshScheduler SchedulerFacts SchedulerStores SchedulerTheorems Watchers.

Import StatusRefreshScheduler.
Local Open Scope string_scope.

Definition sample_options : config := {| maxDirtyPaths_option := None; fullReconcileIntervalMs := Some 60000%Z |}.
Notation sample_exec := (exec compareText compareText (counting_presenter false) sample_options).
Notation sample_step := (scheduler_step compareText compareText (counting_presenter false) sample_options).

(** Events one after the other. *)
Fixpoint run_events (evs : list (event Z)) (w : world Z) : option (world Z) :=
  match evs with
  | [] => Some w
  | ev :: evs' => w' ← sample_exec ev w; run_events evs' w'
  end.

Lemma run_events_steps evs w w' : Forall event_ok evs -> run_events evs w = Some w' -> rtc sample_step w w'.
Proof.
  intros Hok. revert w. induction Hok as [|ev evs Hev _ IH]; intros w; cbn [run_events]; [intros [= <-]; apply rtc_refl|].
  destruct (sample_exec ev w) as [w1|] eqn:Hx; [|done]. cbn. intros Hr. eapply rtc_l; [by exists ev|]. by apply IH.
Qed.

Definition sample_start : world Z := initial sample_app (Some []).
Definition after (evs : list (event Z)) : world Z := default sample_start (run_events evs sample_start).

Lemma after_reachable evs :
  Forall event_ok evs -> is_Some (run_events evs sample_start) ->
  reachable compareText compareText (counting_presenter false) sample_options (after evs).
Proof.
  intros Hok [w Hw]. exists sample_app, (Some []). apply (run_events_steps evs); [done|]. unfold after. by rewrite Hw.
Qed.

Definition change (path : string) : DirtyFileEvent := {| event_path := path; event_kind := KChange; event_timestamp := 7 |}.
Definition setup : list (event Z) := [Register sample_scope].
Definition requested : list (event Z) := [Register sample_scope; FileEvent "r1" (change "/wc/a.txt"); TimerFires 0].

(** A refresh is in flight, so no operation holds the repository. *)
Lemma one_refresh_witness :
  (exists run, runs (after requested) !! 0 = Some run /\ run_phase run = Pending) /\
  barriers (after requested) !! 0 <> Some (0, false).
Proof.
  destruct (one_refresh_at_a_time compareText compareText (counting_presenter false) sample_options (after requested))
    as (_ & H & _).
  - apply after_reachable; [repeat constructor|]. eexists. vm_compute. reflexivity.
  - assert (exists run, runs (after requested) !! 0 = Some run /\ run_phase run = Pending /\ run_state run = 0) as (run & Hr & Hp & Hs).
    { eexists. split; [vm_compute; reflexivity|]. split; reflexivity. }
    split; [by exists run|]. rewrite <- Hs. apply (H 0 run 0 Hr). by rewrite Hp.
Defined.

(** The client fails, and the target goes back to the set. *)
Definition recorded_events : list (event Z) := setup ++ [FileEvent "r1" (change "/wc/a.txt")].
Definition failed : list (event Z) := [TimerFires 0; Answer 0 (Throw (ForeignError "lost")); React 0; React 0].
Definition sample_state : RepositoryState := states (after setup) !!! 0.
Notation event_shown := (shows (dirty_config sample_options sample_state)
  (comparisonKey (scope sample_state) "a.txt") (event_kind (change "/wc/a.txt"))).

Definition failed_world : world Z := after (recorded_events ++ failed).

Lemma accepted_event_kept_witness :
  (exists st2 t, states failed_world !! 0 = Some st2 /\ t ∈ DirtyPathSet.toRefreshTargets (dirtyPaths st2) /\ event_shown t) \/
  exists r run, length (runs (after setup)) <= r /\ runs failed_world !! r = Some run /\ run_state run = 0 /\
    (in_progress (run_phase run) /\ (exists t, t ∈ retry_targets run /\ event_shown t) \/
     appliedDelta run <> None /\ exists t, t ∈ request_targets (run_request run) /\ event_shown t).
Proof.
  apply (accepted_event_kept compareText compareText (counting_presenter false) sample_options
    (after setup) (after recorded_events) (after (recorded_events ++ failed)) "r1" (change "/wc/a.txt") 0 sample_state
    (snd (DirtyPathSet.record (dirty_config sample_options sample_state) (dirtyPaths sample_state) (change "/wc/a.txt"))) "a.txt").
  - apply after_reachable; [repeat constructor|]. eexists. vm_compute. reflexivity.
  - vm_compute. reflexivity.
  - vm_compute. reflexivity.
  - vm_compute. reflexivity.
  - vm_compute. reflexivity.
  - vm_compute. reflexivity.
  - apply (run_events_steps failed); [repeat constructor|]. vm_compute. reflexivity.
Defined.

(** A refresh overtaken by a second event is answered; the answer is dropped. *)
Definition overtaken : list (event Z) :=
  [Answer 0 (Ok sample_delta); React 0; React 0; React 0].

Lemma cancelled_refresh_inert_witness :
  exists run2, runs (after (requested ++ [FileEvent "r1" (change "/wc/b.txt")] ++ overtaken)) !! 0 = Some run2 /\
    appliedDelta run2 = None.
Proof.
  assert (exists run, runs (after requested) !! 0 = Some run /\ appliedDelta run = None /\ aborted (run_refresh run) = false)
    as (run & Hr & Ha & Hab) by (eexists; vm_compute; auto).
  apply (cancelled_refresh_inert compareText compareText (counting_presenter false) sample_options
    (after requested) (after (requested ++ [FileEvent "r1" (change "/wc/b.txt")])) _
    (FileEvent "r1" (change "/wc/b.txt")) 0 run); [| | | | | |].
  - apply after_reachable; [repeat constructor|]. eexists. vm_compute. reflexivity.
  - exact Hr.
  - exact Ha.
  - exact Hab.
  - exists 0. eexists. vm_compute. auto.
  - vm_compute. reflexivity.
  - apply (run_events_steps overtaken); [repeat constructor|]. vm_compute. reflexivity.
Defined.

Lemma answered_refresh_settles_witness :
  exists n w' run', n <= 3 /\
    nsteps (fun w w' => react compareText compareText (counting_presenter false) sample_options 0 w = Some w') n
      (after (requested ++ [Answer 0 (Ok sample_delta)])) w' /\
    runs w' !! 0 = Some run' /\ ~ unsettled (run_phase run') /\ freed w' 0.
Proof.
  assert (exists run, runs (after (requested ++ [Answer 0 (Ok sample_delta)])) !! 0 = Some run /\
    run_phase run = Answered sample_delta /\ run_state run = 0) as (run & Hr & Hp & Hs).
  { eexists. split; [vm_compute; reflexivity|]. split; vm_compute; reflexivity. }
  destruct (answered_refresh_settles compareText compareText (counting_presenter false) sample_options
    (after (requested ++ [Answer 0 (Ok sample_delta)])) 0 run) as (n & w' & run' & H).
  - apply after_reachable; [repeat constructor|]. eexists. vm_compute. reflexivity.
  - exact Hr.
  - rewrite Hp. discriminate.
  - rewrite Hp. exact I.
  - exists n, w', run'. rewrite Hs in H. exact H.
Defined.

(** The event arrives while a refresh is in flight. *)
Lemma accepted_event_requested_witness :
  exists w2 w3, rtc (occupant_step compareText compareText (counting_presenter false) sample_options (Throw (ForeignError "lost")) 0)
      (snd (recordFileEvent compareText compareText (counting_presenter false) sample_options "r1" (change "/wc/b.txt") (after requested))) w2 /\
    sample_exec (TimerFires 0) w2 = Some w3.
Proof.
  destruct (accepted_event_requested compareText compareText (counting_presenter false) sample_options (after requested)
    (snd (recordFileEvent compareText compareText (counting_presenter false) sample_options "r1" (change "/wc/b.txt") (after requested)))
    "r1" (change "/wc/b.txt") 0 (states (after requested) !!! 0) "b.txt" (Throw (ForeignError "lost"))) as (w2 & w3 & H1 & H2 & _).
  - apply after_reachable; [repeat constructor|]. eexists. vm_compute. reflexivity.
  - vm_compute. reflexivity.
  - vm_compute. reflexivity.
  - vm_compute. reflexivity.
  - vm_compute. reflexivity.
  - exists w2, w3. split; [exact H1|exact H2].
Defined.

Lemma scheduler_stores_in_step_witness :
  in_step compareText (stores (after recorded_events)).
Proof.
  apply (scheduler_stores_in_step compareText compareText false (counting_presenter false) sample_options
    (after setup) (after recorded_events) (FileEvent "r1" (change "/wc/a.txt"))).
  - exact sample_app_in_step.
  - vm_compute. reflexivity.
  - intros [].
Defined.

(** The reactions one by one.  An accepted event between the canonical store's
    reaction and the projection's leaves the projection at the old generation;
    without an event between them the two stores are together again. *)
Example event_between_reactions :
  let applied := (requested ++ [Answer 0 (Ok sample_delta); React 0])%list in
  let generations (w : world Z) :=
    (option_map snapshot_generation (StatusSnapshotStore.getSnapshot (statusSnapshotStore (stores w)) "r1"),
     option_map (fun p => match p with Ok p => SourceControlResourceStore.proj_generation p | Throw _ => 0%Z end)
       (SourceControlResourceStore.getProjection compareText compareText
          (SourceControlProjectionService.svc_store (sourceControlProjection (stores w))) "r1")) in
  generations (after (applied ++ [React 0; React 0])) = (Some 6%Z, Some 6%Z) /\
  generations (after (applied ++ [FileEvent "r1" (change "/wc/b.txt"); React 0; React 0])) = (Some 6%Z, Some 5%Z).
Proof. split; vm_compute; reflexivity. Qed.

Import RepositoryWatcherService.
Local Open Scope string_scope.

(** An editor that numbers what it makes; it may fail to subscribe and to
    dispose. *)
Definition numbering_editor (subscribe_fails dispose_fails : bool) : Factory nat :=
  {| createWatcher := fun _ n => (Ok n, S n);
     subscribe := fun _ _ n => (if subscribe_fails then Throw (ForeignError "subscribe") else Ok n, S n);
     dispose_subscription := fun _ n => (Ok tt, n);
     dispose_watcher := fun _ n => (if dispose_fails then Throw (ForeignError "dispose") else Ok tt, n) |}.

Definition idle : service Z nat :=
  {| registrations := [];
     pipeline := {| DirtyPathPipeline.scopes := []; DirtyPathPipeline.scheduler := initial sample_app (Some []) |};
     editor := 0 |}.

Definition sample_service : service Z nat :=
  watch_exec compareText compareText (counting_presenter false) sample_options (numbering_editor false false) (fun _ => 7%Z)
    (WatchRegister sample_scope) idle.

Definition sample_raw : RawWatcherEvent := {| raw_fsPath := "/wc/a.txt"; raw_kind := Changed; raw_timestamp := 7 |}.

Lemma sample_service_ok : service_ok (numbering_editor false false) sample_service.
Proof. apply watch_exec_keeps. split; [by intros id|]. by split. Qed.

Lemma sample_scheduler_wf : wf sample_options (DirtyPathPipeline.scheduler (pipeline sample_service)).
Proof.
  apply (reachable_wf compareText compareText (counting_presenter false)). exists sample_app, (Some []).
  apply (run_events_steps setup); [repeat constructor|]. vm_compute. reflexivity.
Qed.

Lemma raw_event_recorded_witness :
  exists s st t,
    map_get (StatusRefreshScheduler.repositories (DirtyPathPipeline.scheduler (snd
      (DirtyPathPipeline.accept compareText compareText (counting_presenter false) sample_options "r1" sample_raw (pipeline sample_service))))) "r1" = Some s /\
    StatusRefreshScheduler.states (DirtyPathPipeline.scheduler (snd
      (DirtyPathPipeline.accept compareText compareText (counting_presenter false) sample_options "r1" sample_raw (pipeline sample_service)))) !! s = Some st /\
    t ∈ DirtyPathSet.toRefreshTargets (StatusRefreshScheduler.dirtyPaths st) /\
    shows (StatusRefreshScheduler.dirty_config sample_options st) (comparisonKey sample_scope "a.txt") KChange t.
Proof.
  exact (proj2 (raw_event_recorded compareText compareText (counting_presenter false) sample_options
    (pipeline sample_service) "r1" sample_scope sample_raw (proj1 sample_service_ok) sample_scheduler_wf eq_refl)).
Defined.

(** When subscribing throws and then disposing the new watcher throws too, the
    repository stays with the pipeline and the scheduler, unwatched. *)
Example half_registered :
  let s := watch_exec compareText compareText (counting_presenter false) sample_options (numbering_editor true true) (fun _ => 7%Z)
    (WatchRegister sample_scope) idle in
  registrations s = [] /\ map_has (DirtyPathPipeline.scopes (pipeline s)) "r1" = true.
Proof. split; vm_compute; reflexivity. Qed.
