(* ===== verification/OperationScheduler.v ===== *)
(** operations/repositoryOperationScheduler.ts: operations of one repository run
    one after the other, in the order they were asked for.

    Each call of [run] makes an operation: the promise [scheduled], which waits
    for the tail of the previous operation and runs the task, the promise
    [tail], and the promise of the caller.  [phase] says how far these are;
    reactions run one at a time, in any order with the ends of tasks and the
    abort events. *)

From Stdlib Require Import ZArith Lia String List.
From stdpp Require Import base option list relations strings.
From S2P Require Import Prelude JsString JsMap SchedulerFacts.

Local Open Scope string_scope.

Module RepositoryOperationScheduler.

Definition schedulerError (code category messageKey : string) (args : list (string * safe_arg)) : js_error :=
  StructuredError "RepositoryOperationSchedulerError" code category messageKey args.
Definition cancelledOperationSchedule : js_error :=
  schedulerError "SUBVERSIONR_OPERATION_SCHEDULER_CANCELLED" "cancelled" "error.operationScheduler.cancelled" [].
Definition repositoryIdInvalid : js_error :=
  schedulerError "SUBVERSIONR_OPERATION_SCHEDULER_REPOSITORY_ID_INVALID" "input"
    "error.operationScheduler.repositoryIdInvalid" [("field", ArgString "repositoryId")].

Definition validatedRepositoryId (repositoryId : string) : result string :=
  if bool_decide (repositoryId = "") || negb (bool_decide (repositoryId = trim repositoryId))
  then Throw repositoryIdInvalid else Ok repositoryId.

Section Scheduler.
Context {T : Type}.

(** [Waiting] for the previous tail; the task is [Running]; [scheduled] has
    settled; so has [tail]; and the [finally] of [tail] has run. *)
Inductive phase :=
  | Waiting
  | Running
  | Finished (r : result T)
  | TailSettled (r : result T)
  | Swept (r : result T).

Record operation := {
  op_repository : string;
  op_signal : option nat;
  op_previous : option nat;
  op_phase : phase;
  op_caller : option (result T);
}.

(** [tails] names the operation whose tail it is. *)
Record world := {
  tails : list (string * nat);
  operations : list operation;
  abortedSignals : list nat;
}.

Definition with_phase (o : operation) (p : phase) : operation :=
  {| op_repository := op_repository o; op_signal := op_signal o; op_previous := op_previous o;
     op_phase := p; op_caller := op_caller o |}.
(** A promise settles once. *)
Definition settle_caller (o : operation) (r : result T) : operation :=
  {| op_repository := op_repository o; op_signal := op_signal o; op_previous := op_previous o;
     op_phase := op_phase o; op_caller := match op_caller o with None => Some r | c => c end |}.

Definition with_operations (w : world) (l : list operation) : world :=
  {| tails := tails w; operations := l; abortedSignals := abortedSignals w |}.
Definition update (i : nat) (f : operation -> operation) (w : world) : world :=
  with_operations w (alter f i (operations w)).

Definition signal_aborted (w : world) (signal : option nat) : bool :=
  match signal with Some s => set_has (abortedSignals w) s | None => false end.

(** [run], up to its first [await]: the caller of an aborted signal is
    rejected at once. *)
Definition run (repositoryId : string) (signal : option nat) : method world nat :=
  id ← lift_result (validatedRepositoryId repositoryId);
  w ← get_state;
  let i := length (operations w) in
  _ ← put_state
    {| tails := map_set (tails w) id i;
       operations := operations w ++ [{| op_repository := id; op_signal := signal;
         op_previous := map_get (tails w) id; op_phase := Waiting;
         op_caller := if signal_aborted w signal then Some (Throw cancelledOperationSchedule) else None |}];
       abortedSignals := abortedSignals w |};
  mret i.

Definition tail_settled (p : phase) : bool :=
  match p with TailSettled _ | Swept _ => true | _ => false end.

(** [scheduled] settles, and with it the race of the caller. *)
Definition finish (i : nat) (r : result T) (w : world) : world :=
  update i (fun o => settle_caller (with_phase o (Finished r)) r) w.

(** [if (this.tails.get(id) === tail) { this.tails.delete(id) }] *)
Definition sweep (i : nat) (id : string) (w : world) : world :=
  {| tails := if bool_decide (map_get (tails w) id = Some i) then map_delete (tails w) id else tails w;
     operations := operations w; abortedSignals := abortedSignals w |}.

(** The next reaction of operation [i]. *)
Definition react (i : nat) (w : world) : option world :=
  o ← operations w !! i;
  match op_phase o with
  | Waiting =>
      let ready := match op_previous o with
                   | None => true
                   | Some p => match operations w !! p with Some o' => tail_settled (op_phase o') | None => false end
                   end in
      if ready : bool then
        Some (if signal_aborted w (op_signal o) then finish i (Throw cancelledOperationSchedule) w
              else update i (fun o => with_phase o Running) w)
      else None
  | Running => None
  | Finished r => Some (update i (fun o => with_phase o (TailSettled r)) w)
  | TailSettled r => Some (update i (fun o => with_phase o (Swept r)) (sweep i (op_repository o) w))
  | Swept _ => None
  end.

(** The ["abort"] listeners of the races. *)
Definition abort (signal : nat) (w : world) : world :=
  {| tails := tails w;
     operations := map (fun o => if bool_decide (op_signal o = Some signal)
                                 then settle_caller o (Throw cancelledOperationSchedule) else o) (operations w);
     abortedSignals := set_add (abortedSignals w) signal |}.

Inductive event :=
  | Run (repositoryId : string) (signal : option nat)
  | React (i : nat)
  | TaskEnds (i : nat) (r : result T)
  | Abort (signal : nat).

Definition exec (ev : event) (w : world) : option world :=
  match ev with
  | Run id signal => Some (snd (run id signal w))
  | React i => react i w
  | TaskEnds i r =>
      o ← operations w !! i;
      match op_phase o with Running => Some (finish i r w) | _ => None end
  | Abort signal => Some (abort signal w)
  end.
End Scheduler.
Arguments world : clear implicits.
Arguments event : clear implicits.
Arguments operation : clear implicits.
Arguments phase : clear implicits.
End RepositoryOperationScheduler.

(** ** Serialization *)
Import RepositoryOperationScheduler.
Section Facts.
Context {T : Type}.
Implicit Types (w : world T) (o : operation T).

Definition swept (p : phase T) : bool := match p with Swept _ => true | _ => false end.
Definition waits (p : phase T) : bool := match p with Waiting => true | _ => false end.

Record scheduler_ok w : Prop := {
  (** The tail of a repository is that of its last operation, until it is swept. *)
  ok_tail id i : map_get (tails w) id = Some i ->
    exists o, operations w !! i = Some o /\ op_repository o = id /\ swept (op_phase o) = false /\
      forall j o', operations w !! j = Some o' -> op_repository o' = id -> j <= i;
  ok_no_tail id j o : map_get (tails w) id = None -> operations w !! j = Some o -> op_repository o = id ->
    tail_settled (op_phase o) = true;
  (** An operation waits for the one before it. *)
  ok_previous j o p : operations w !! j = Some o -> op_previous o = Some p ->
    p < j /\ (exists o', operations w !! p = Some o' /\ op_repository o' = op_repository o) /\
    forall i oi, operations w !! i = Some oi -> op_repository oi = op_repository o -> i < j -> i <= p;
  ok_first j o i oi : operations w !! j = Some o -> op_previous o = None -> operations w !! i = Some oi ->
    op_repository oi = op_repository o -> i < j -> tail_settled (op_phase oi) = true;
  ok_order i j oi oj : operations w !! i = Some oi -> operations w !! j = Some oj ->
    op_repository oi = op_repository oj -> i < j -> waits (op_phase oj) = false -> tail_settled (op_phase oi) = true;
}.

(** Operations move on, none is swept. *)
Record same_place o o' : Prop := {
  place_repository : op_repository o' = op_repository o;
  place_previous : op_previous o' = op_previous o;
  place_swept : swept (op_phase o') = swept (op_phase o);
  place_settled : tail_settled (op_phase o) = true -> tail_settled (op_phase o') = true;
}.

Lemma ok_evolves w w' :
  scheduler_ok w -> tails w' = tails w ->
  (forall i o', operations w' !! i = Some o' -> exists o, operations w !! i = Some o /\ same_place o o' /\
     (waits (op_phase o) = true -> waits (op_phase o') = false ->
      forall j oj, operations w !! j = Some oj -> op_repository oj = op_repository o -> j < i -> tail_settled (op_phase oj) = true) /\
     (waits (op_phase o) = false -> waits (op_phase o') = false)) ->
  (forall i o, operations w !! i = Some o -> exists o', operations w' !! i = Some o' /\ same_place o o') ->
  scheduler_ok w'.
Proof using Type.
  intros [H1 H2 H3 H4 H5] Et Hback Hfwd. split.
  - rewrite Et. intros id i (o & Ho & Er & Es & Hmax)%H1. destruct (Hfwd _ _ Ho) as (o' & Ho' & [P1 _ P3 _]).
    exists o'. split_and!; [done|congruence|congruence|]. intros j oj (oj0 & Hj0 & [Q1 _ _ _] & _)%Hback ?.
    eapply Hmax; [exact Hj0|congruence].
  - rewrite Et. intros id j o' Hid (o & Ho & [P1 _ _ P4] & _)%Hback Er. apply P4. eapply H2; [done..|congruence].
  - intros j o' p (o & Ho & [P1 P2 _ _] & _)%Hback Hp. rewrite P2 in Hp. destruct (H3 _ _ _ Ho Hp) as (Hlt & (op & Hop & Er) & Hmax).
    split; [done|]. split.
    + destruct (Hfwd _ _ Hop) as (op' & ? & [Q1 _ _ _]). exists op'. split; [done|congruence].
    + intros i oi (oi0 & Hi0 & [Q1 _ _ _] & _)%Hback ? ?. eapply Hmax; [exact Hi0|congruence|done].
  - intros j o' i oi' (o & Ho & [P1 P2 _ _] & _)%Hback Hp (oi & Hoi & [Q1 _ _ Q4] & _)%Hback Er Hlt.
    apply Q4. eapply H4; [exact Ho|congruence|exact Hoi|congruence|done].
  - intros i j oi' oj' (oi & Hoi & [Q1 _ _ Q4] & _)%Hback (oj & Hoj & [P1 _ _ _] & Hw & _)%Hback Er Hlt Hnw. apply Q4.
    destruct (waits (op_phase oj)) eqn:Hwt.
    + eapply Hw; [done|done|exact Hoi|congruence|done].
    + eapply H5; [exact Hoi|exact Hoj|congruence|done|done].
Qed.

Lemma ok_run id signal w : scheduler_ok w -> scheduler_ok (snd (run id signal w)).
Proof using Type.
  intros Hok. unfold run. destruct (validatedRepositoryId id) as [id'|e]; [|done].
  unfold mbind, method_bind, lift_result, get_state, put_state, mret, method_ret. cbn [snd].
  destruct Hok as [H1 H2 H3 H4 H5]. split; cbn [tails operations].
  - intros id0 i. rewrite map_get_set. case_bool_decide as Hid.
    + intros [= <-]. subst id0. eexists. split; [apply lookup_snoc_last|]. split; [done|]. split; [done|].
      intros j o' Hj%lookup_lt_Some _. rewrite List.length_app in Hj. cbn in Hj. lia.
    + intros (o & Ho & Er & Es & Hmax)%H1. exists o. split_and!; [by apply lookup_snoc_fwd|done|done|].
      intros j o' [Hj|(-> & ->)]%lookup_snoc_inv; [by apply Hmax|]. cbn. congruence.
  - intros id0 j o. rewrite map_get_set. case_bool_decide as Hid; [done|].
    intros Hn [Hj|(-> & ->)]%lookup_snoc_inv; [eapply (H2 id0 j o); eauto|]. cbn. congruence.
  - intros j o p [Hj|(-> & ->)]%lookup_snoc_inv Hp.
    + destruct (H3 _ _ _ Hj Hp) as (Hlt & (o' & Ho' & Er) & Hmax). split; [done|].
      split; [exists o'; split; [by apply lookup_snoc_fwd|done]|].
      intros i oi [Hi|(-> & ->)]%lookup_snoc_inv Er' Hlt'; [by eapply Hmax|]. apply lookup_lt_Some in Hj. lia.
    + cbn in *. destruct (H1 _ _ Hp) as (o' & Ho' & Er & _ & Hmax). split; [by eapply lookup_lt_Some|].
      split; [exists o'; split; [by apply lookup_snoc_fwd|done]|].
      intros i oi [Hi|(-> & ->)]%lookup_snoc_inv Er' Hlt'; [by eapply Hmax|lia].
  - intros j o i oi [Hj|(-> & ->)]%lookup_snoc_inv Hp [Hi|(-> & ->)]%lookup_snoc_inv Er Hlt.
    + eapply (H4 j o i oi); eauto.
    + apply lookup_lt_Some in Hj. lia.
    + cbn in *. eapply (H2 id' i oi); eauto.
    + lia.
  - intros i j oi oj [Hi|(-> & ->)]%lookup_snoc_inv [Hj|(-> & ->)]%lookup_snoc_inv Er Hlt Hw; try done.
    + eapply (H5 i j oi oj); eauto.
    + apply lookup_lt_Some in Hj. lia.
Qed.

Lemma ok_update w i o f :
  scheduler_ok w -> operations w !! i = Some o -> same_place o (f o) ->
  (waits (op_phase o) = false -> waits (op_phase (f o)) = false) ->
  (waits (op_phase o) = true -> forall j oj, operations w !! j = Some oj -> op_repository oj = op_repository o -> j < i ->
     tail_settled (op_phase oj) = true) ->
  scheduler_ok (update i f w).
Proof using Type.
  intros Hok Ho Hf Hw Hready. apply (ok_evolves w); [done|done| |].
  - intros j o' (oj & Hj & [(-> & ->)|(Hne & ->)])%lookup_alter_inv.
    + assert (oj = o) as -> by congruence. exists o. split_and!; eauto.
    + exists oj. split_and!; [done|by split|congruence|done].
  - intros j oj Hj. cbn. rewrite (lookup_alter_fwd _ _ _ _ _ Hj). eexists. split; [done|].
    destruct (decide (j = i)) as [->|]; [|by split]. by assert (oj = o) as -> by congruence.
Qed.

(** What comes before an operation that can start has settled. *)
Lemma ready_settled w i o :
  scheduler_ok w -> operations w !! i = Some o ->
  match op_previous o with
  | None => true
  | Some p => match operations w !! p with Some o' => tail_settled (op_phase o') | None => false end
  end = true ->
  forall j oj, operations w !! j = Some oj -> op_repository oj = op_repository o -> j < i -> tail_settled (op_phase oj) = true.
Proof using Type.
  intros [H1 H2 H3 H4 H5] Ho Hready j oj Hj Er Hlt. destruct (op_previous o) as [p|] eqn:Hp; [|eapply (H4 i o j oj); eauto].
  destruct (H3 _ _ _ Ho Hp) as (Hpi & (o' & Ho' & Er') & Hmax). rewrite Ho' in Hready.
  assert (j <= p) as Hle by by eapply Hmax. destruct (decide (j = p)) as [->|Hne]; [congruence|].
  eapply (H5 j p); [exact Hj|exact Ho'|congruence|lia|]. by destruct (op_phase o').
Qed.

Lemma ok_sweep w i o r :
  scheduler_ok w -> operations w !! i = Some o -> op_phase o = TailSettled r ->
  scheduler_ok (update i (fun o => with_phase o (Swept r)) (sweep i (op_repository o) w)).
Proof using Type.
  intros [H1 H2 H3 H4 H5] Ho Hph. set (f := fun o : operation T => with_phase o (Swept r)).
  assert (forall j oj, alter f i (operations w) !! j = Some oj -> exists oj0, operations w !! j = Some oj0 /\
    op_repository oj = op_repository oj0 /\ op_previous oj = op_previous oj0 /\
    (tail_settled (op_phase oj0) = true -> tail_settled (op_phase oj) = true) /\
    (waits (op_phase oj) = false -> waits (op_phase oj0) = false) /\ (j <> i -> oj = oj0) /\ (j = i -> tail_settled (op_phase oj) = true)) as Hback.
  { intros j oj (oj0 & Hj & [(-> & ->)|(Hne & ->)])%lookup_alter_inv; exists oj0; [|done].
    assert (oj0 = o) as -> by congruence. rewrite Hph. by split_and!. }
  assert (forall j oj, operations w !! j = Some oj -> exists oj', alter f i (operations w) !! j = Some oj' /\
    op_repository oj' = op_repository oj /\ (j <> i -> oj' = oj)) as Hfwd.
  { intros j oj Hj. rewrite (lookup_alter_fwd _ _ _ _ _ Hj). eexists. split; [done|]. by destruct (decide (j = i)). }
  split; cbn [update sweep with_operations tails operations].
  - intros id j Hj. assert (map_get (tails w) id = Some j /\ (id = op_repository o -> j <> i)) as [Hj' Hne].
    { case_bool_decide as Hb; [rewrite map_get_delete in Hj; case_bool_decide; [done|]; split; [done|congruence]|].
      split; [done|]. intros -> ->. congruence. }
    destruct (H1 _ _ Hj') as (oj & Hoj & Er & Es & Hmax). destruct (Hfwd _ _ Hoj) as (oj' & Hoj' & Er' & Heq).
    assert (j <> i) as Hji by (intros ->; apply Hne; congruence). rewrite (Heq Hji) in *.
    exists oj. split_and!; [done..|]. intros k ok (ok0 & Hk & Ek & _)%Hback Erk. eapply Hmax; [exact Hk|congruence].
  - intros id j oj Hn Hj Er. apply Hback in Hj as (oj0 & Hj0 & Er0 & _ & _ & _ & Heq & Hi).
    destruct (decide (j = i)) as [->|Hne]; [auto|]. rewrite (Heq Hne) in *.
    case_bool_decide as Hb; [|eapply (H2 id j oj0); eauto]. rewrite map_get_delete in Hn. case_bool_decide as Hid; [|eapply (H2 id j oj0); eauto].
    destruct (H1 _ _ Hb) as (o0 & Ho0 & Er1 & _ & Hmax). assert (o0 = o) as -> by congruence.
    eapply (H5 j i); [exact Hj0|exact Ho|congruence| |by rewrite Hph].
    assert (j <= i) by (eapply Hmax; [exact Hj0|congruence]). lia.
  - intros j oj p (oj0 & Hj0 & Er & Ep & _)%Hback Hp. rewrite Ep in Hp. destruct (H3 _ _ _ Hj0 Hp) as (Hlt & (op & Hop & Erp) & Hmax).
    split; [done|]. split; [destruct (Hfwd _ _ Hop) as (op' & ? & ? & _); exists op'; split; [done|congruence]|].
    intros k ok (ok0 & Hk & Ek & _)%Hback Erk. eapply Hmax; [exact Hk|congruence].
  - intros j oj k ok (oj0 & Hj0 & Er & Ep & _)%Hback Hp (ok0 & Hk0 & Ek & _ & Hs & _)%Hback Erk Hlt. apply Hs.
    eapply H4; [exact Hj0|congruence|exact Hk0|congruence|done].
  - intros k j ok oj (ok0 & Hk0 & Ek & _ & Hs & _)%Hback (oj0 & Hj0 & Er & _ & _ & Hw & _)%Hback Erk Hlt Hnw. apply Hs.
    eapply H5; [exact Hk0|exact Hj0|congruence|done|auto].
Qed.

Lemma ok_react i w w' : scheduler_ok w -> react i w = Some w' -> scheduler_ok w'.
Proof using Type.
  intros Hok. unfold react. destruct (operations w !! i) as [o|] eqn:Ho; [|done]. cbn [mbind option_bind].
  destruct (op_phase o) as [| |r|r|r] eqn:Hph; try done.
  - cbn zeta. destruct (match op_previous o with None => _ | Some p => _ end) eqn:Hready; [|done]. intros [= <-].
    pose proof (ready_settled w i o Hok Ho Hready) as Hset.
    destruct (signal_aborted w (op_signal o)); (apply (ok_update w i o); [done|done|split; rewrite ?Hph; done|done|done]).
  - intros [= <-]. apply (ok_update w i o); [done|done|split; rewrite ?Hph; done|done|by rewrite Hph].
  - intros [= <-]. by eapply ok_sweep.
Qed.

Lemma ok_exec ev w w' : scheduler_ok w -> exec ev w = Some w' -> scheduler_ok w'.
Proof using Type.
  intros Hok. destruct ev as [id signal|i|i r|signal]; cbn [exec].
  - intros [= <-]. by apply ok_run.
  - by apply ok_react.
  - destruct (operations w !! i) as [o|] eqn:Ho; [|done]. cbn [mbind option_bind].
    destruct (op_phase o) eqn:Hph; try done. intros [= <-].
    apply (ok_update w i o); [done|done|split; rewrite ?Hph; done|done|by rewrite Hph].
  - intros [= <-]. set (f := fun o : operation T => if bool_decide (op_signal o = Some signal) then settle_caller o (Throw cancelledOperationSchedule) else o).
    assert (forall o, same_place o (f o) /\ op_phase (f o) = op_phase o) as Hf.
    { intros o. unfold f. case_bool_decide; by repeat split. }
    apply (ok_evolves w); [done|done| |].
    + intros i o' Hi. cbn [abort operations] in Hi. rewrite list_lookup_fmap in Hi. apply fmap_Some in Hi as (o & Ho & ->).
      exists o. destruct (Hf o) as [? Eph]. fold (f o). rewrite Eph. split_and!; [done|done|congruence|done].
    + intros i o Ho. cbn [abort operations]. rewrite list_lookup_fmap, Ho. eexists. split; [done|]. apply Hf.
Qed.

Definition operation_step w w' : Prop := exists ev, exec ev w = Some w'.
Definition idle : world T := {| tails := []; operations := []; abortedSignals := [] |}.

Lemma reachable_ok w : rtc operation_step idle w -> scheduler_ok w.
Proof using Type.
  intros Hr. assert (scheduler_ok idle) as H0 by (split; cbn; intros; by rewrite ?lookup_nil in *).
  revert H0. induction Hr as [|w1 w2 w3 [ev Hx] _ IH]; [done|]. eauto using ok_exec.
Qed.

Definition runs o : bool := match op_phase o with Running => true | _ => false end.
Definition reacts i w : bool := match react i w with Some _ => true | None => false end.

(** Once past [Waiting] without running, an operation does not run. *)
Definition over (p : phase T) : bool := match p with Waiting | Running => false | _ => true end.
Definition barred w o : Prop := over (op_phase o) = true \/ signal_aborted w (op_signal o) = true /\ op_phase o = Waiting.

Lemma barred_step w w' i o :
  operation_step w w' -> operations w !! i = Some o -> barred w o ->
  exists o', operations w' !! i = Some o' /\ barred w' o'.
Proof using Type.
  intros [ev Hx] Ho Hb.
  assert (forall f j w1, abortedSignals w1 = abortedSignals w -> operations w1 = operations w ->
    (j = i -> barred w (f o)) -> exists o', operations (update j f w1) !! i = Some o' /\ barred (update j f w1) o') as Hupd.
  { intros f j w1 Ea Eo Hf. unfold update, with_operations. cbn [operations]. rewrite Eo.
    rewrite (lookup_alter_fwd _ _ _ _ _ Ho). eexists. split; [done|]. unfold barred, signal_aborted in *. cbn [abortedSignals].
    rewrite Ea. destruct (decide (i = j)) as [<-|]; [auto|done]. }
  destruct ev as [id signal|j|j r|signal]; cbn [exec] in Hx.
  - injection Hx as <-. unfold run. destruct (validatedRepositoryId id); [|by eauto].
    exists o. split; [by apply lookup_snoc_fwd|done].
  - unfold react in Hx. destruct (operations w !! j) as [oj|] eqn:Hj; [|done]. cbn [mbind option_bind] in Hx.
    assert (j = i -> oj = o) as Hsame by (intros ->; congruence).
    destruct (op_phase oj) as [| |r|r|r] eqn:Hph; try done.
    + destruct (match op_previous oj with None => _ | Some p => _ end); [|done]. injection Hx as <-.
      destruct (signal_aborted w (op_signal oj)) eqn:Ha; apply Hupd; try done; intros Hji; [by left|].
      rewrite <- (Hsame Hji) in Hb. destruct Hb as [Hb|[Hb _]]; [by rewrite Hph in Hb|congruence].
    + injection Hx as <-. apply Hupd; [done..|]. intros _. by left.
    + injection Hx as <-. apply Hupd; [done..|]. intros _. by left.
  - destruct (operations w !! j) as [oj|] eqn:Hj; [|done]. cbn [mbind option_bind] in Hx.
    destruct (op_phase oj) eqn:Hph; try done. injection Hx as <-. apply Hupd; [done..|]. intros _. by left.
  - injection Hx as <-. cbn [abort operations]. rewrite list_lookup_fmap, Ho. eexists. split; [done|].
    destruct Hb as [Hb|[Ha Hp]]; [left; by case_bool_decide|right]. unfold signal_aborted in *. cbn [abortedSignals abort].
    split; [|by case_bool_decide]. assert (forall s, set_has (abortedSignals w) s = true -> set_has (set_add (abortedSignals w) signal) s = true) as Hadd.
    { intros s. unfold set_has. rewrite !bool_decide_eq_true. intros Hs. apply elem_of_set_add. by left. }
    case_bool_decide; cbn; (destruct (op_signal o) as [s|]; [|done]); by apply Hadd.
Qed.

Lemma barred_never_runs w w' i o :
  rtc operation_step w w' -> operations w !! i = Some o -> barred w o ->
  exists o', operations w' !! i = Some o' /\ runs o' = false.
Proof using Type.
  intros Hr. revert o. induction Hr as [w|w1 w2 w3 Hx _ IH]; intros o Ho Hb.
  - exists o. split; [done|]. unfold runs. destruct Hb as [Hb|[_ ->]]; [by destruct (op_phase o)|done].
  - destruct (barred_step _ _ _ _ Hx Ho Hb) as (o2 & Ho2 & Hb2). eauto.
Qed.

(** An operation that waits is preceded by one that runs or can move. *)
Lemma waiting_served w i o :
  scheduler_ok w -> operations w !! i = Some o -> op_phase o = Waiting ->
  exists j oj, j <= i /\ operations w !! j = Some oj /\ op_repository oj = op_repository o /\
    (runs oj = true \/ reacts j w = true).
Proof using Type.
  intros Hok. revert o. induction (lt_wf i) as [i _ IH]. intros o Ho Hph.
  assert (match op_previous o with None => true | Some p => match operations w !! p with Some o' => tail_settled (op_phase o') | None => false end end = true ->
    reacts i w = true) as Hready.
  { intros Hr. unfold reacts, react. rewrite Ho. cbn [mbind option_bind]. rewrite Hph. cbn zeta. by rewrite Hr. }
  destruct (op_previous o) as [p|] eqn:Hp; [|exists i, o; split_and!; auto].
  destruct (ok_previous _ Hok _ _ _ Ho Hp) as (Hlt & (o' & Ho' & Er) & _). rewrite Ho' in Hready.
  destruct (op_phase o') as [| |r|r|r] eqn:Hph'; cbn in Hready.
  - destruct (IH _ Hlt _ Ho' Hph') as (j & oj & Hle & Hj & Ej & Hs). exists j, oj. split_and!; [lia|done|congruence|done].
  - exists p, o'. split_and!; [lia|done|done|]. left. unfold runs. by rewrite Hph'.
  - exists p, o'. split_and!; [lia|done|done|]. right. unfold reacts, react. rewrite Ho'. cbn. by rewrite Hph'.
  - exists i, o. split_and!; auto.
  - exists i, o. split_and!; auto.
Qed.
End Facts.

(** C24: In every state the operation scheduler reaches, whatever the order of calls, ends of tasks, aborts and promise
    reactions: when an operation has started, the tail of every earlier operation of its repository has settled, so that
    operations of one repository start in the order of the calls and at most one runs; a repository keeps a tail only
    until its last operation is over; whenever an operation waits, an operation of its repository that is not later runs
    or can take its next step; and an operation that waits when its signal is aborted never runs. *)
Theorem operations_serialized {T} (w : world T) :
  rtc operation_step idle w ->
  (forall i j oi oj, operations w !! i = Some oi -> operations w !! j = Some oj ->
     op_repository oi = op_repository oj -> i < j -> waits (op_phase oj) = false -> tail_settled (op_phase oi) = true) /\
  (forall id i, map_get (tails w) id = Some i ->
     exists o, operations w !! i = Some o /\ op_repository o = id /\ swept (op_phase o) = false) /\
  (forall i o, operations w !! i = Some o -> op_phase o = Waiting ->
     exists j oj, j <= i /\ operations w !! j = Some oj /\ op_repository oj = op_repository o /\ (runs oj = true \/ reacts j w = true)) /\
  (forall i o w', operations w !! i = Some o -> op_phase o = Waiting -> signal_aborted w (op_signal o) = true ->
     rtc operation_step w w' -> exists o', operations w' !! i = Some o' /\ runs o' = false).
Proof.
  intros Hok%reachable_ok. split_and!.
  - intros i j oi oj. apply (ok_order _ Hok).
  - intros id i (o & ? & ? & ? & _)%(ok_tail _ Hok). eauto.
  - intros i o. by apply waiting_served.
  - intros i o w' Ho Hph Ha Hr. eapply barred_never_runs; [done|done|]. by right.
Qed.

(** ** A run: two operations of a repository, the second aborted while it waits *)
Definition run_example : list (event nat) :=
  [Run "r" None; Run "r" (Some 7); React 0; Abort 7; TaskEnds 0 (Ok 5); React 0; React 1; React 0].
Definition play (l : list (event nat)) : option (world nat) :=
  fold_left (fun w ev => w ← w; exec ev w) l (Some idle).

Lemma play_reachable l w : play l = Some w -> rtc operation_step idle w.
Proof.
  unfold play. revert w. induction l as [|ev l IH] using rev_ind; intros w; [by intros [= <-]|].
  rewrite fold_left_app. cbn. destruct (fold_left _ l _) as [w1|]; [|done]. cbn. intros Hx.
  eapply rtc_r; [by apply IH|]. by exists ev.
Qed.

Example run_example_result :
  (fun w => (map op_caller (operations w), tails w)) <$> play run_example =
  Some ([Some (Ok 5); Some (Throw cancelledOperationSchedule)], [("r", 1)]).
Proof. vm_compute. reflexivity. Qed.

Lemma operations_serialized_witness :
  exists w : world nat, play (take 4 run_example) = Some w /\
    (exists o, operations w !! 1 = Some o /\ op_phase o = Waiting) /\
    (forall w', rtc operation_step w w' -> exists o', operations w' !! 1 = Some o' /\ runs o' = false).
Proof.
  destruct (play (take 4 run_example)) as [w|] eqn:Hw; [|by vm_compute in Hw].
  exists w. split; [done|]. pose proof (play_reachable _ _ Hw) as Hr.
  destruct (operations w !! 1) as [o|] eqn:Ho; [|vm_compute in Hw; injection Hw as <-; by vm_compute in Ho].
  assert (op_phase o = Waiting /\ signal_aborted w (op_signal o) = true) as [Hp Ha].
  { vm_compute in Hw. injection Hw as <-. vm_compute in Ho. injection Ho as <-. by vm_compute. }
  split; [eauto|]. intros w' Hr'. exact (proj2 (proj2 (proj2 (operations_serialized w Hr))) 1 o w' Ho Hp Ha Hr').
Defined.
