(* ===== verification/OperationJournal.v ===== *)
(** operations/repositoryOperationJournal.ts: the last operations, without what
    identifies the repository, for the diagnostics report.

    [Date.parse] and the SHA-256 of a repository id are parameters: the first
    gives [None] for NaN, the second the hexadecimal digest. *)

From Stdlib Require Import ZArith Lia String List.
From stdpp Require Import base option list strings.
From S2P Require Import Prelude JsString JsValue.

Local Open Scope string_scope.

Module RepositoryOperationJournal.

Inductive OperationJournalKind :=
  | OpAdd | OpBranchCreate | OpChangelistClear | OpChangelistSet | OpCleanup | OpCommit | OpLock | OpMerge
  | OpMergePreview | OpMove | OpPropertyDelete | OpPropertySet | OpRelocate | OpRemove | OpResolve | OpRevert
  | OpSwitch | OpUnlock | OpUpgrade | OpUpdate.
Inductive OperationJournalResultCategory :=
  | Succeeded | Cancelled | InputRejected | LifecycleRejected | ProtocolFailed | Failed.
Inductive OperationJournalScanPlan := ScanNone | ScanTargeted | ScanFull | ScanUnknown.

Record OperationJournalEntry := {
  entry_kind : OperationJournalKind;
  entry_repositoryHash : string;
  entry_startedAt : string;
  entry_endedAt : string;
  entry_durationMs : js_number;
  entry_resultCategory : OperationJournalResultCategory;
  entry_scanPlan : OperationJournalScanPlan;
  entry_touchedCount : js_number;
  entry_retryCount : js_number;
  entry_cancelled : bool;
}.

Record OperationJournalRecord := {
  kind : OperationJournalKind;
  repositoryId : string;
  startedAt : string;
  endedAt : string;
  durationMs : js_number;
  resultCategory : OperationJournalResultCategory;
  scanPlan : OperationJournalScanPlan;
  touchedCount : js_number;
  retryCount : js_number;
  cancelled : bool;
}.

Record journal := {
  maxEntries : Z;
  entries : list OperationJournalEntry;
  recordingFailureCount : nat;
  lastRecordingFailureCode : option string;
}.

Record OperationJournalDiagnosticsSnapshot := {
  diagnostics_entries : list OperationJournalEntry;
  failures_count : nat;
  failures_lastCode : option string;
}.

Definition OperationJournalError (code messageKey : string) : js_error :=
  StructuredError "OperationJournalError" code "diagnostics" messageKey [].

Definition create (maxEntries : js_number) : result journal :=
  match maxEntries with
  | NumInt n =>
      if Z.ltb n 1 then
        Throw (OperationJournalError "SUBVERSIONR_OPERATION_JOURNAL_MAX_ENTRIES_INVALID" "error.operationJournal.maxEntriesInvalid")
      else Ok {| maxEntries := n; entries := []; recordingFailureCount := 0; lastRecordingFailureCode := None |}
  | NumFraction _ _ =>
      Throw (OperationJournalError "SUBVERSIONR_OPERATION_JOURNAL_MAX_ENTRIES_INVALID" "error.operationJournal.maxEntriesInvalid")
  end.

(** [!Number.isInteger(n) || n < 0] *)
Definition notCount (n : js_number) : bool :=
  match n with NumInt z => Z.ltb z 0 | NumFraction _ _ => true end.

Section Journal.
Context (Date_parse : string -> option Z) (sha256_hex : string -> string).

Definition validateTimestamp (value : string) : result unit :=
  match Date_parse value with
  | Some _ => Ok tt
  | None => Throw (OperationJournalError "SUBVERSIONR_OPERATION_JOURNAL_TIMESTAMP_INVALID" "error.operationJournal.timestampInvalid")
  end.

(** [digest("hex").slice(0, 16)] *)
Definition repositoryHash (repositoryId : string) : string := String.substring 0 16 (sha256_hex repositoryId).

Definition validate (r : OperationJournalRecord) : result unit :=
  _ ← validateTimestamp (startedAt r);
  _ ← validateTimestamp (endedAt r);
  _ ← require (negb (bool_decide (trim (repositoryId r) = "")))
        (OperationJournalError "SUBVERSIONR_OPERATION_JOURNAL_REPOSITORY_ID_INVALID" "error.operationJournal.repositoryIdInvalid");
  _ ← require (negb (notCount (durationMs r)))
        (OperationJournalError "SUBVERSIONR_OPERATION_JOURNAL_DURATION_INVALID" "error.operationJournal.durationInvalid");
  _ ← require (negb (notCount (touchedCount r)))
        (OperationJournalError "SUBVERSIONR_OPERATION_JOURNAL_TOUCHED_COUNT_INVALID" "error.operationJournal.touchedCountInvalid");
  require (negb (notCount (retryCount r)))
    (OperationJournalError "SUBVERSIONR_OPERATION_JOURNAL_RETRY_COUNT_INVALID" "error.operationJournal.retryCountInvalid").

Definition entry_of (r : OperationJournalRecord) : OperationJournalEntry :=
  {| entry_kind := kind r; entry_repositoryHash := repositoryHash (repositoryId r);
     entry_startedAt := startedAt r; entry_endedAt := endedAt r; entry_durationMs := durationMs r;
     entry_resultCategory := resultCategory r; entry_scanPlan := scanPlan r; entry_touchedCount := touchedCount r;
     entry_retryCount := retryCount r; entry_cancelled := cancelled r |}.

(** [while (this.entries.length > maxEntries) { this.entries.shift() }] *)
Fixpoint shift_while (max : Z) (l : list OperationJournalEntry) : list OperationJournalEntry :=
  if Z.ltb max (Z.of_nat (length l)) then match l with [] => [] | _ :: l' => shift_while max l' end else l.

Definition with_entries (j : journal) (l : list OperationJournalEntry) : journal :=
  {| maxEntries := maxEntries j; entries := l; recordingFailureCount := recordingFailureCount j;
     lastRecordingFailureCode := lastRecordingFailureCode j |}.

Definition record (r : OperationJournalRecord) : method journal unit :=
  _ ← lift_result (validate r);
  _ ← modify_state (fun j => with_entries j (entries j ++ [entry_of r])%list);
  modify_state (fun j => with_entries j (shift_while (maxEntries j) (entries j))).

Definition operationJournalErrorCode (error : js_error) : string :=
  match error with
  | StructuredError name code _ _ _ =>
      if bool_decide (name = "OperationJournalError") then code
      else if negb (bool_decide (trim code = "")) then code else "SUBVERSIONR_OPERATION_JOURNAL_RECORD_FAILED"
  | _ => "SUBVERSIONR_OPERATION_JOURNAL_RECORD_FAILED"
  end.

Definition tryRecord (r : OperationJournalRecord) : method journal unit :=
  try_catch (record r) (fun error =>
    modify_state (fun j => {| maxEntries := maxEntries j; entries := entries j;
      recordingFailureCount := S (recordingFailureCount j);
      lastRecordingFailureCode := Some (operationJournalErrorCode error) |})).

Definition snapshot (j : journal) : list OperationJournalEntry := entries j.
Definition diagnosticsSnapshot (j : journal) : OperationJournalDiagnosticsSnapshot :=
  {| diagnostics_entries := snapshot j; failures_count := recordingFailureCount j;
     failures_lastCode := lastRecordingFailureCode j |}.
End Journal.
End RepositoryOperationJournal.

(** ** What the journal reports *)
Import RepositoryOperationJournal.
Section Facts.
Context (Date_parse : string -> option Z) (sha256_hex : string -> string).

(** The records the journal takes. *)
Definition recordable (r : OperationJournalRecord) : bool := is_ok (validate Date_parse r).

Definition refusal (r : OperationJournalRecord) : option string :=
  match validate Date_parse r with Ok _ => None | Throw e => Some (operationJournalErrorCode e) end.

Definition last_n {A} (n : nat) (l : list A) : list A := drop (length l - n) l.

Lemma shift_while_last max l : (0 <= max)%Z -> shift_while max l = last_n (Z.to_nat max) l.
Proof using Type.
  intros Hm. unfold last_n. induction l as [|x l IH]; cbn [shift_while length]; [by destruct (Z.ltb _ _)|].
  destruct (Z.ltb_spec max (Z.of_nat (S (length l)))).
  - rewrite IH. replace (S (length l) - Z.to_nat max) with (S (length l - Z.to_nat max)) by lia. done.
  - by replace (S (length l) - Z.to_nat max) with 0 by lia.
Qed.

Lemma last_n_snoc {A} n (l : list A) x : last_n n (last_n n l ++ [x])%list = last_n n (l ++ [x])%list.
Proof using Type.
  unfold last_n. rewrite !List.length_app, length_drop. cbn [length].
  destruct (decide (n <= length l)) as [Hn|Hn].
  - replace (length l - (length l - n) + 1 - n) with 1 by lia.
    rewrite <- (drop_app_le l [x] (length l - n)) by lia. rewrite drop_drop. f_equal. lia.
  - replace (length l - n) with 0 by lia. rewrite drop_0, Nat.sub_0_r. done.
Qed.

Lemma tryRecord_eq r j :
  tryRecord Date_parse sha256_hex r j =
  (Ok tt, match refusal r with
          | None => with_entries j (shift_while (maxEntries j) (entries j ++ [entry_of sha256_hex r])%list)
          | Some code => {| maxEntries := maxEntries j; entries := entries j;
              recordingFailureCount := S (recordingFailureCount j); lastRecordingFailureCode := Some code |}
          end).
Proof using Type.
  unfold tryRecord, try_catch, record, refusal, mbind, method_bind, lift_result, modify_state.
  by destruct (validate Date_parse r).
Qed.

Definition record_all (l : list OperationJournalRecord) (j : journal) : journal :=
  fold_left (fun j r => snd (tryRecord Date_parse sha256_hex r j)) l j.

(** The abstract journal: all records, in order. *)
Record reports (z : Z) (l : list OperationJournalRecord) (j : journal) : Prop := {
  reports_max : maxEntries j = z;
  reports_entries : entries j = last_n (Z.to_nat z) (map (entry_of sha256_hex) (List.filter recordable l));
  reports_count : recordingFailureCount j = length (omap refusal l);
  reports_code : lastRecordingFailureCode j = last (omap refusal l);
}.

Lemma reports_record_all z l j : (1 <= z)%Z -> create (NumInt z) = Ok j -> reports z l (record_all l j).
Proof using Type.
  intros Hz. cbn [create]. destruct (Z.ltb_spec z 1); [lia|]. intros [= <-].
  unfold record_all. induction l as [|r l [H1 H2 H3 H4]] using rev_ind; [by split|].
  rewrite fold_left_app. cbn [fold_left]. rewrite tryRecord_eq. cbn [snd].
  assert (recordable r = match refusal r with None => true | Some _ => false end) as Hr.
  { unfold recordable, refusal. by destruct (validate Date_parse r). }
  assert (omap refusal (l ++ [r])%list = (omap refusal l ++ option_list (refusal r))%list) as Ho.
  { rewrite omap_app. cbn. by destruct (refusal r). }
  destruct (refusal r) as [code|]; split; cbn [maxEntries entries recordingFailureCount lastRecordingFailureCode with_entries];
    rewrite ?List.filter_app, ?Ho; cbn [List.filter option_list]; rewrite ?Hr, ?List.app_nil_r; try done.
  - by rewrite H3, List.length_app, Nat.add_1_r.
  - cbn. by rewrite last_snoc.
  - rewrite H1, H2, shift_while_last by lia. by rewrite last_n_snoc, List.map_app.
Qed.
End Facts.

(** The journal of a positive size [n], given any sequence of records by tryRecord (which never throws), reports
    exactly the last [n] records whose timestamps, repository id and counts are valid, in order, each with the
    repository id replaced by its hash; the number of records it refused; and the error code of the last of these. *)
Theorem journal_reports (Date_parse : string -> option Z) (sha256_hex : string -> string)
    (n : js_number) (j0 : journal) (l : list OperationJournalRecord) :
  create n = Ok j0 ->
  exists z, n = NumInt z /\ (1 <= z)%Z /\
  (forall r j, fst (tryRecord Date_parse sha256_hex r j) = Ok tt) /\
  diagnosticsSnapshot (record_all Date_parse sha256_hex l j0) =
  {| diagnostics_entries := last_n (Z.to_nat z) (map (entry_of sha256_hex) (List.filter (recordable Date_parse) l));
     failures_count := length (omap (refusal Date_parse) l);
     failures_lastCode := last (omap (refusal Date_parse) l) |}.
Proof.
  intros Hc. destruct n as [z|]; [|done]. exists z. assert (1 <= z)%Z as Hz.
  { cbn in Hc. destruct (Z.ltb_spec z 1); [done|lia]. }
  split_and!; [done|done|intros r j; by rewrite tryRecord_eq|].
  destruct (reports_record_all Date_parse sha256_hex z l j0 Hz Hc) as [_ He Hn Hl].
  unfold diagnosticsSnapshot, snapshot. by rewrite He, Hn, Hl.
Qed.

(** ** A journal of size one, given three records *)
Definition any_date (s : string) : option Z := if bool_decide (s = "") then None else Some 0%Z.
Definition sample_record (id : string) (duration : js_number) : OperationJournalRecord :=
  {| kind := OpUpdate; repositoryId := id; startedAt := "2024-01-01T00:00:00Z"; endedAt := "2024-01-01T00:00:01Z";
     durationMs := duration; resultCategory := Succeeded; scanPlan := ScanTargeted; touchedCount := NumInt 3;
     retryCount := NumInt 0; cancelled := false |}.
Definition hex_example (s : string) : string := "0123456789abcdef0123456789abcdef".

Lemma journal_reports_witness :
  create (NumInt 1) = Ok {| maxEntries := 1; entries := []; recordingFailureCount := 0; lastRecordingFailureCode := None |} /\
  diagnosticsSnapshot (record_all any_date hex_example
    [sample_record "a" (NumInt 1); sample_record "b" (NumInt 2); sample_record "c" (NumInt (-1))]
    {| maxEntries := 1; entries := []; recordingFailureCount := 0; lastRecordingFailureCode := None |}) =
  {| diagnostics_entries := [entry_of hex_example (sample_record "b" (NumInt 2))]; failures_count := 1;
     failures_lastCode := Some "SUBVERSIONR_OPERATION_JOURNAL_DURATION_INVALID" |}.
Proof.
  split; [reflexivity|].
  destruct (journal_reports any_date hex_example (NumInt 1) _
    [sample_record "a" (NumInt 1); sample_record "b" (NumInt 2); sample_record "c" (NumInt (-1))] eq_refl)
    as (z & Hz & _ & _ & H). injection Hz as <-. rewrite H. vm_compute. reflexivity.
Defined.
