(* ===== verification/Utf8.v ===== *)
(** UTF-16 texts, as JavaScript strings are, and what node's [Buffer] makes of
    them: [Buffer.from(text, "utf8")] and [buffer.toString("utf8")].  Code units
    and bytes are numbers. *)

From Stdlib Require Import ZArith Lia List String Ascii.
From stdpp Require Import base option list.
From S2P Require Import Prelude JsString JsUri.

Local Open Scope Z_scope.

Definition text := list Z.
Definition bytes := list Z.

(** The text of an ASCII literal. *)
Definition literal (s : string) : text := map (fun c => Z.of_N (N_of_ascii c)) (list_ascii_of_string s).

(** ** Encoding *)
Definition REPLACEMENT : Z := 65533.
Definition is_high (u : Z) : bool := (55296 <=? u) && (u <=? 56319).
Definition is_low (u : Z) : bool := (56320 <=? u) && (u <=? 57343).

(** The code points of a text; a surrogate without its partner is replaced. *)
Fixpoint scalars (t : text) : list Z :=
  match t with
  | [] => []
  | u :: t' =>
      if is_high u then
        match t' with
        | v :: t'' => if is_low v then 65536 + (u - 55296) * 1024 + (v - 56320) :: scalars t'' else REPLACEMENT :: scalars t'
        | [] => [REPLACEMENT]
        end
      else if is_low u then REPLACEMENT :: scalars t'
      else u :: scalars t'
  end.

Definition encode_scalar (c : Z) : bytes :=
  if c <? 128 then [c]
  else if c <? 2048 then [192 + c / 64; 128 + c mod 64]
  else if c <? 65536 then [224 + c / 4096; 128 + c / 64 mod 64; 128 + c mod 64]
  else [240 + c / 262144; 128 + c / 4096 mod 64; 128 + c / 64 mod 64; 128 + c mod 64].

Definition utf8 (t : text) : bytes := List.concat (map encode_scalar (scalars t)).

(** [Buffer.byteLength(text, "utf8")] *)
Definition byteLength (t : text) : nat := length (utf8 t).

(** ** Decoding

    The decoder of the Encoding standard: a state between bytes, the code points
    a byte completes, and a replacement for each maximal part that is not a
    code point. *)
Record decoder := { needed : nat; point : Z; lower : Z; upper : Z }.
Definition at_boundary : decoder := {| needed := 0; point := 0; lower := 128; upper := 191 |}.

Definition first_byte (b : Z) : list Z * decoder :=
  if b <? 128 then ([b], at_boundary)
  else if (194 <=? b) && (b <=? 223) then ([], {| needed := 1; point := b - 192; lower := 128; upper := 191 |})
  else if (224 <=? b) && (b <=? 239) then
    ([], {| needed := 2; point := b - 224; lower := if b =? 224 then 160 else 128; upper := if b =? 237 then 159 else 191 |})
  else if (240 <=? b) && (b <=? 244) then
    ([], {| needed := 3; point := b - 240; lower := if b =? 240 then 144 else 128; upper := if b =? 244 then 143 else 191 |})
  else ([REPLACEMENT], at_boundary).

Definition decode_byte (d : decoder) (b : Z) : list Z * decoder :=
  match needed d with
  | O => first_byte b
  | S n =>
      if (lower d <=? b) && (b <=? upper d) then
        let p := point d * 64 + (b - 128) in
        match n with
        | O => ([p], at_boundary)
        | S _ => ([], {| needed := n; point := p; lower := 128; upper := 191 |})
        end
      else let (out, d') := first_byte b in (REPLACEMENT :: out, d')
  end.

Fixpoint decode_from (d : decoder) (l : bytes) : list Z :=
  match l with
  | [] => match needed d with O => [] | S _ => [REPLACEMENT] end
  | b :: l' => let (out, d') := decode_byte d b in (out ++ decode_from d' l')%list
  end.

Definition units (c : Z) : text :=
  if c <? 65536 then [c] else [55296 + (c - 65536) / 1024; 56320 + (c - 65536) mod 1024].

Definition toString (l : bytes) : text := List.concat (map units (decode_from at_boundary l)).

(** ** The round trip *)

(** Every surrogate has its partner. *)
Fixpoint well_formed (t : text) : bool :=
  match t with
  | [] => true
  | u :: t' =>
      if is_high u then match t' with v :: t'' => is_low v && well_formed t'' | [] => false end
      else negb (is_low u) && (0 <=? u) && (u <? 65536) && well_formed t'
  end.

Definition is_scalar (c : Z) : bool := (0 <=? c) && (c <? 1114112) && negb ((55296 <=? c) && (c <=? 57343)).

Ltac unit_cases := repeat match goal with
  | |- context [?a <? ?b] => destruct (Z.ltb_spec a b)
  | |- context [?a <=? ?b] => destruct (Z.leb_spec a b)
  | |- context [?a =? ?b] => destruct (Z.eqb_spec a b)
  end.

Lemma is_scalar_spec c : is_scalar c = true <-> 0 <= c < 1114112 /\ ~ 55296 <= c <= 57343.
Proof. unfold is_scalar. unit_cases; cbn; split; try done; lia. Qed.

Lemma decode_next d b l :
  needed d <> O -> lower d <= b <= upper d ->
  decode_from d (b :: l) =
    match needed d with
    | S (S n) => decode_from {| needed := S n; point := point d * 64 + (b - 128); lower := 128; upper := 191 |} l
    | _ => (point d * 64 + (b - 128)) :: decode_from at_boundary l
    end.
Proof.
  intros Hn Hb. cbn [decode_from]. unfold decode_byte. destruct (needed d) as [|[|n]]; [done| |];
    (replace ((lower d <=? b) && (b <=? upper d)) with true by (symmetry; apply andb_true_iff; lia)); done.
Qed.

Ltac divide := Z.to_euclidean_division_equations; lia.

Lemma decode_two b l : 194 <= b <= 223 ->
  decode_from at_boundary (b :: l) = decode_from {| needed := 1; point := b - 192; lower := 128; upper := 191 |} l.
Proof. intros H. cbn [decode_from]. unfold decode_byte, first_byte. cbn [needed at_boundary]. unit_cases; try lia. done. Qed.

Lemma decode_three b l : 224 <= b <= 239 ->
  decode_from at_boundary (b :: l) =
  decode_from {| needed := 2; point := b - 224; lower := if b =? 224 then 160 else 128; upper := if b =? 237 then 159 else 191 |} l.
Proof. intros H. cbn [decode_from]. unfold decode_byte, first_byte. cbn [needed at_boundary]. unit_cases; try lia; done. Qed.

Lemma decode_four b l : 240 <= b <= 244 ->
  decode_from at_boundary (b :: l) =
  decode_from {| needed := 3; point := b - 240; lower := if b =? 240 then 144 else 128; upper := if b =? 244 then 143 else 191 |} l.
Proof. intros H. cbn [decode_from]. unfold decode_byte, first_byte. cbn [needed at_boundary]. unit_cases; try lia; done. Qed.

Lemma decode_encode_scalar c l :
  is_scalar c = true -> decode_from at_boundary (encode_scalar c ++ l)%list = c :: decode_from at_boundary l.
Proof.
  intros [Hc Hs]%is_scalar_spec. unfold encode_scalar.
  destruct (Z.ltb_spec c 128).
  { cbn [app decode_from]. unfold decode_byte, first_byte. cbn [needed at_boundary]. by destruct (Z.ltb_spec c 128); [|lia]. }
  destruct (Z.ltb_spec c 2048); [|destruct (Z.ltb_spec c 65536)]; cbn [app].
  - rewrite decode_two by divide. rewrite decode_next; [|done|cbn [lower upper]; divide].
    cbn [needed point]. f_equal. divide.
  - rewrite decode_three by divide.
    rewrite decode_next; [|done|cbn [lower upper]; unit_cases; divide]. cbn [needed point].
    rewrite decode_next; [|done|cbn [lower upper]; divide]. cbn [needed point]. f_equal. divide.
  - rewrite decode_four by divide.
    rewrite decode_next; [|done|cbn [lower upper]; unit_cases; divide]. cbn [needed point].
    rewrite decode_next; [|done|cbn [lower upper]; divide]. cbn [needed point].
    rewrite decode_next; [|done|cbn [lower upper]; divide]. cbn [needed point]. f_equal. divide.
Qed.

Lemma decode_concat l : Forall (fun c => is_scalar c = true) l -> decode_from at_boundary (List.concat (map encode_scalar l)) = l.
Proof.
  induction 1 as [|c l Hc _ IH]; [done|]. cbn [map List.concat]. by rewrite decode_encode_scalar, IH.
Qed.

(** A text in pieces of one or two units. *)
Lemma text_ind (P : list Z -> Prop) :
  P [] -> (forall u t, P t -> (forall v t', t = v :: t' -> P t') -> P (u :: t)) -> forall t : list Z, P t.
Proof.
  intros H0 Hs t. cut (P t /\ forall v t', t = v :: t' -> P t'); [by intros []|].
  induction t as [|u t [IH1 IH2]]; [done|]. split; [by apply Hs|]. by intros v t' [= <- <-].
Qed.

Lemma scalars_are_scalar t : Forall (fun u => 0 <= u < 65536) t -> Forall (fun c => is_scalar c = true) (scalars t).
Proof.
  induction t as [|u t IH IH2] using (text_ind); intros Ht; [done|]. inversion Ht as [|? ? Hu Ht']; subst.
  cbn [scalars]. unfold is_high, is_low.
  assert (is_scalar REPLACEMENT = true) as Hr by done.
  destruct ((55296 <=? u) && (u <=? 56319)) eqn:Hh.
  - destruct t as [|v t']; [by repeat constructor|]. destruct ((56320 <=? v) && (v <=? 57343)) eqn:Hl; [|constructor; auto].
    inversion Ht'; subst. constructor; [|by eapply IH2]. apply is_scalar_spec.
    apply andb_true_iff in Hh, Hl. lia.
  - destruct ((56320 <=? u) && (u <=? 57343)) eqn:Hl; constructor; auto. apply is_scalar_spec.
    apply andb_false_iff in Hh, Hl. lia.
Qed.

Lemma well_formed_units t : well_formed t = true -> Forall (fun u => 0 <= u < 65536) t.
Proof.
  induction t as [|u t IH IH2] using (text_ind); [done|]. cbn [well_formed]. unfold is_high, is_low.
  destruct ((55296 <=? u) && (u <=? 56319)) eqn:Hh.
  - destruct t as [|v t']; [done|]. intros [Hl Hw]%andb_true_iff. apply andb_true_iff in Hh, Hl.
    constructor; [lia|]. constructor; [lia|by eapply IH2].
  - intros [[[_ H0]%andb_true_iff H1]%andb_true_iff Hw]%andb_true_iff. constructor; [lia|auto].
Qed.

Lemma units_scalars t : well_formed t = true -> List.concat (map units (scalars t)) = t.
Proof.
  induction t as [|u t IH IH2] using (text_ind); [done|]. cbn [well_formed scalars].
  destruct (is_high u) eqn:Hh.
  - destruct t as [|v t']; [done|]. intros [Hl Hw]%andb_true_iff. rewrite Hl. cbn [map List.concat].
    rewrite (IH2 v t' eq_refl Hw). unfold units, is_high, is_low in *. apply andb_true_iff in Hh, Hl.
    destruct (Z.ltb_spec (65536 + (u - 55296) * 1024 + (v - 56320)) 65536); [lia|]. cbn. repeat f_equal; divide.
  - intros [[[Hl H0]%andb_true_iff H1]%andb_true_iff Hw]%andb_true_iff. apply negb_true_iff in Hl. rewrite Hl.
    cbn [map List.concat]. rewrite IH by done. unfold units. by rewrite H1.
Qed.

(** What node writes it reads back. *)
Lemma toString_utf8 t : well_formed t = true -> toString (utf8 t) = t.
Proof.
  intros Hw. unfold toString, utf8. rewrite decode_concat; [by apply units_scalars|].
  by apply scalars_are_scalar, well_formed_units.
Qed.

(** ASCII text is its own encoding, and nothing else decodes to it. *)
Definition is_ascii (u : Z) : bool := (0 <=? u) && (u <? 128).

Lemma scalars_ascii t1 t2 : forallb is_ascii t1 = true -> scalars (t1 ++ t2)%list = (t1 ++ scalars t2)%list.
Proof.
  induction t1 as [|u t1 IH]; [done|]. cbn [forallb]. intros [Hu Ht]%andb_true_iff. cbn [app scalars].
  unfold is_ascii in Hu. apply andb_true_iff in Hu. unfold is_high, is_low.
  replace (55296 <=? u) with false by lia. replace (56320 <=? u) with false by lia. cbn [andb]. by rewrite IH.
Qed.

Lemma utf8_ascii t1 t2 : forallb is_ascii t1 = true -> utf8 (t1 ++ t2)%list = (t1 ++ utf8 t2)%list.
Proof.
  intros Ht. unfold utf8. rewrite scalars_ascii by done. rewrite List.map_app, List.concat_app. f_equal.
  clear t2. induction t1 as [|u t1 IH]; [done|]. cbn [forallb] in Ht. apply andb_true_iff in Ht as [Hu Ht].
  cbn [map List.concat]. rewrite IH by done. unfold encode_scalar. unfold is_ascii in Hu. apply andb_true_iff in Hu as [_ Hu].
  by rewrite Hu.
Qed.

Lemma toString_ascii l : forallb is_ascii l = true -> toString l = l.
Proof.
  intros Hl. assert (utf8 l = l) as Hu.
  { rewrite <- (List.app_nil_r l) at 1. rewrite utf8_ascii by done. by rewrite List.app_nil_r. }
  rewrite <- Hu at 1. apply toString_utf8. clear Hu. induction l as [|u l IH]; [done|].
  cbn [forallb] in Hl. apply andb_true_iff in Hl as [Hu Hl]. cbn [well_formed]. rewrite IH by done.
  unfold is_ascii, is_high, is_low in *. apply andb_true_iff in Hu. unit_cases; cbn; try done; lia.
Qed.

Example utf8_mixed : utf8 [65; 233; 8364; 55357; 56832] = [65; 195; 169; 226; 130; 172; 240; 159; 152; 128].
Proof. by vm_compute. Qed.
Example utf8_lone_surrogate : utf8 [55357; 65] = [239; 191; 189; 65] /\ toString [255; 65; 226; 130] = [65533; 65; 65533].
Proof. by vm_compute. Qed.

(** ** [encodeURIComponent] of any text

    It throws on a surrogate without its partner.  Elsewhere the development uses
    the function of JsUri.v, on texts that hold none. *)
Definition encode_byte (b : Z) : text :=
  literal (if b <? 128 then encode_char (ascii_of_N (Z.to_N b)) else escape_byte (Z.to_N b)).
Definition encodeURIComponent_text (t : text) : result text :=
  if well_formed t then Ok (List.concat (map encode_byte (utf8 t))) else Throw URIError.

Lemma literal_append s t : literal (s ++ t)%string = (literal s ++ literal t)%list.
Proof. induction s as [|c s IH]; [done|]. unfold literal in *. cbn. by rewrite IH. Qed.
Lemma literal_unit c t : let u := Z.of_N (N_of_ascii c) in
  well_formed (u :: t) = well_formed t /\ scalars (u :: t) = u :: scalars t
  /\ List.concat (map encode_byte (encode_scalar u)) = literal (encode_char c).
Proof.
  cbn zeta. assert (Hu : 0 <= Z.of_N (N_of_ascii c) < 256) by (pose proof (N_ascii_bounded c); lia).
  assert (Hs : is_high (Z.of_N (N_of_ascii c)) = false /\ is_low (Z.of_N (N_of_ascii c)) = false) by (unfold is_high, is_low; lia).
  destruct Hs as [H1 H2]. cbn [well_formed scalars]. rewrite H1, H2. split; [|split; [done|]].
  - cbn [negb andb]. unit_cases; try lia. done.
  - clear. destruct c as [[] [] [] [] [] [] [] []]; by vm_compute.
Qed.
Lemma encodeURIComponent_exact s : encodeURIComponent_text (literal s) = Ok (literal (encodeURIComponent s)).
Proof.
  unfold encodeURIComponent_text. assert (H : well_formed (literal s) = true /\
    List.concat (map encode_byte (utf8 (literal s))) = literal (encodeURIComponent s)); [|by destruct H as [-> ->]].
  induction s as [|c s [IH1 IH2]]; [done|].
  change (literal (String c s)) with (Z.of_N (N_of_ascii c) :: literal s). destruct (literal_unit c (literal s)) as (E1 & E2 & E3).
  cbn zeta in *. rewrite E1. split; [done|]. unfold utf8 in *. rewrite E2. cbn [map List.concat encodeURIComponent].
  by rewrite map_app, List.concat_app, E3, IH2, literal_append.
Qed.
(** A changelist named by a lone surrogate has no group id. *)
Example lone_surrogate_throws : encodeURIComponent_text [55296] = Throw URIError.
Proof. done. Qed.
