(* ===== verification/Framing.v ===== *)
(** transport/framing.ts: messages as frames with a Content-Length header.

    [Number.parseInt] is exact: a length above 2^53, which a double would round,
    is more than any buffer holds either way. *)

From Stdlib Require Import ZArith Lia List String Ascii.
From stdpp Require Import base option list.
From S2P Require Import Prelude JsString Utf8.

Definition HEADER_SEPARATOR : text := [13; 10; 13; 10]%Z.

(** Encoded frames start with this. *)
Definition HEADER_NAME : text := literal "Content-Length: ".

Definition encodeContentLengthFrame (payload : text) : text :=
  let length := byteLength payload in
  (HEADER_NAME ++ literal (decimal length) ++ HEADER_SEPARATOR ++ payload)%list.

(** [l.indexOf(sep)]; [None] is -1. *)
Fixpoint starts_with (sep l : list Z) : bool :=
  match sep, l with
  | [], _ => true
  | x :: sep', y :: l' => Z.eqb x y && starts_with sep' l'
  | _, [] => false
  end.
Fixpoint indexOf (sep l : list Z) : option nat :=
  if starts_with sep l then Some 0
  else match l with [] => None | _ :: l' => S <$> indexOf sep l' end.

(** [/^Content-Length: (?<length>\d+)$/u.exec(header)?.groups?.length] *)
Definition is_digit (u : Z) : bool := Z.leb 48 u && Z.leb u 57.
Definition matchLength (header : text) : option text :=
  if starts_with HEADER_NAME header then
    let digits := drop (length HEADER_NAME) header in
    if forallb is_digit digits && negb (bool_decide (digits = [])) then Some digits else None
  else None.

(** [Number.parseInt(digits, 10)] *)
Definition parseInt (digits : text) : Z := fold_left (fun n u => n * 10 + (u - 48))%Z digits 0%Z.

Definition missingHeader : js_error := PlainError "Missing Content-Length header".
Definition invalidHeader : js_error := PlainError "Invalid Content-Length header".
Definition lengthMismatch (expected actual : Z) : js_error :=
  PlainError ("Content-Length mismatch: expected " ++ decimal (Z.to_nat expected) ++ ", got " ++ decimal (Z.to_nat actual))%string.

Definition decodeContentLengthFrame (frame : text) : result text :=
  match indexOf HEADER_SEPARATOR frame with
  | None => Throw missingHeader
  | Some separatorIndex =>
      match matchLength (take separatorIndex frame) with
      | None => Throw invalidHeader
      | Some digits =>
          let payload := drop (separatorIndex + length HEADER_SEPARATOR) frame in
          let expectedLength := parseInt digits in
          let actualLength := Z.of_nat (byteLength payload) in
          if Z.eqb actualLength expectedLength then Ok payload else Throw (lengthMismatch expectedLength actualLength)
      end
  end.

Module ContentLengthFrameDecoder.

Record decoder := { buffer : bytes }.
Definition new_decoder : decoder := {| buffer := [] |}.

(** One round of the loop: it breaks, throws, or takes a frame. *)
Inductive round :=
  | Break
  | Invalid
  | Frame (payload : text) (rest : bytes).

Definition scan (b : bytes) : round :=
  match indexOf HEADER_SEPARATOR b with
  | None => Break
  | Some headerEnd =>
      match matchLength (Utf8.toString (take headerEnd b)) with
      | None => Invalid
      | Some digits =>
          let payloadStart := headerEnd + length HEADER_SEPARATOR in
          if Z.ltb (Z.of_nat (length b)) (Z.of_nat payloadStart + parseInt digits) then Break
          else
            let payloadEnd := payloadStart + Z.to_nat (parseInt digits) in
            Frame (Utf8.toString (take (payloadEnd - payloadStart) (drop payloadStart b))) (drop payloadEnd b)
      end
  end.

(** A frame shortens the buffer, so one round more than its length is enough
    ([loop_parses]). *)
Fixpoint loop (fuel : nat) (payloads : list text) : method decoder (list text) := fun d =>
  match fuel with
  | O => (Ok payloads, d)
  | S fuel =>
      match scan (buffer d) with
      | Break => (Ok payloads, d)
      | Invalid => (Throw invalidHeader, d)
      | Frame payload rest => loop fuel (payloads ++ [payload])%list {| buffer := rest |}
      end
  end.

Definition push (chunk : bytes) : method decoder (list text) :=
  _ ← modify_state (fun d => {| buffer := (buffer d ++ chunk)%list |});
  d ← get_state;
  loop (S (length (buffer d))) [].
End ContentLengthFrameDecoder.

Import ContentLengthFrameDecoder.

(** Chunks as they arrive, when no [push] throws; what was returned before one
    that throws is not kept here. *)
Fixpoint push_all (chunks : list bytes) : method decoder (list text) :=
  match chunks with
  | [] => mret []
  | c :: chunks' => ps ← push c; ps' ← push_all chunks'; mret (ps ++ ps')%list
  end.
(** The calls of [push] one by one: each returns, with the payloads of the list. *)
Inductive pushed : list bytes -> decoder -> list (list text) -> decoder -> Prop :=
  | pushed_nil d : pushed [] d [] d
  | pushed_cons c chunks d ps d1 pss d2 : push c d = (Ok ps, d1) -> pushed chunks d1 pss d2 -> pushed (c :: chunks) d (ps :: pss) d2.

(** ** Searching *)
Lemma starts_with_app sep l1 l2 : starts_with sep l1 = true -> starts_with sep (l1 ++ l2)%list = true.
Proof.
  revert l1. induction sep as [|x sep IH]; intros l1; [done|]. destruct l1 as [|y l1]; [done|]. cbn.
  intros [-> H]%andb_true_iff. cbn. by apply IH.
Qed.

Lemma starts_with_length sep l : starts_with sep l = true -> length sep <= length l.
Proof.
  revert l. induction sep as [|x sep IH]; intros [|y l]; cbn; intros Hs; try lia; try done.
  apply andb_true_iff in Hs as [_ Hs%IH]. lia.
Qed.

Lemma starts_with_refl sep l : starts_with sep (sep ++ l)%list = true.
Proof. induction sep as [|x sep IH]; [done|]. cbn. by rewrite Z.eqb_refl. Qed.

(** Where the separator is found it is found again with more behind it. *)
Lemma starts_with_app_inv sep l1 l2 : length sep <= length l1 -> starts_with sep (l1 ++ l2)%list = starts_with sep l1.
Proof.
  revert l1. induction sep as [|x sep IH]; intros [|y l1] Hl; cbn in *; try done; try lia. rewrite IH by lia. done.
Qed.

Lemma indexOf_length sep l n : indexOf sep l = Some n -> n + length sep <= length l.
Proof.
  revert n. induction l as [|x l IH]; intros n; cbn [indexOf].
  - destruct (starts_with sep []) eqn:Hs; [|done]. intros [= <-]. apply starts_with_length in Hs. cbn in *. lia.
  - destruct (starts_with sep (x :: l)) eqn:Hs; [intros [= <-]; apply starts_with_length in Hs; cbn in *; lia|].
    destruct (indexOf sep l) as [m|]; [|done]. cbn. intros [= <-]. specialize (IH m eq_refl). lia.
Qed.

Lemma indexOf_app sep l1 l2 n : indexOf sep l1 = Some n -> indexOf sep (l1 ++ l2)%list = Some n.
Proof.
  revert n. induction l1 as [|x l1 IH]; intros n; cbn [indexOf app].
  - destruct (starts_with sep []) eqn:Hs; [|done]. intros [= <-]. destruct sep; [|done]. by destruct l2.
  - destruct (starts_with sep (x :: l1)) eqn:Hs; [intros [= <-]; pose proof (starts_with_app sep (x :: l1) l2 Hs) as Ha; cbn [app] in Ha; by rewrite Ha|].
    destruct (indexOf sep l1) as [m|] eqn:Hm; [|done]. cbn. intros [= <-].
    replace (starts_with sep (x :: l1 ++ l2)) with false; [by rewrite (IH m eq_refl)|].
    symmetry. change (x :: l1 ++ l2)%list with ((x :: l1) ++ l2)%list. rewrite starts_with_app_inv; [done|].
    apply indexOf_length in Hm. cbn. lia.
Qed.

(** The header holds no carriage return. *)
Lemma indexOf_header l1 l2 :
  Forall (fun u => u <> 13%Z) l1 -> indexOf HEADER_SEPARATOR (l1 ++ HEADER_SEPARATOR ++ l2)%list = Some (length l1).
Proof.
  induction 1 as [|u l1 Hu _ IH]; cbn [app length indexOf].
  - done.
  - replace (starts_with _ _) with false; [by rewrite IH|]. unfold HEADER_SEPARATOR. cbn [starts_with].
    symmetry. apply andb_false_iff. left. by apply Z.eqb_neq.
Qed.

(** ** Chunks do not matter *)
Lemma scan_frame_app b c p r : scan b = Frame p r -> scan (b ++ c)%list = Frame p (r ++ c)%list.
Proof.
  unfold scan. destruct (indexOf HEADER_SEPARATOR b) as [n|] eqn:Hn; [|done]. rewrite (indexOf_app _ _ c _ Hn).
  pose proof (indexOf_length _ _ _ Hn) as Hl. rewrite take_app_le by (cbn in Hl; lia).
  destruct (matchLength _) as [digits|]; [|done]. cbn zeta.
  destruct (Z.ltb_spec (Z.of_nat (length b)) (Z.of_nat (n + length HEADER_SEPARATOR) + parseInt digits)); [done|].
  intros [= <- <-]. rewrite List.length_app.
  destruct (Z.ltb_spec (Z.of_nat (length b + length c)) (Z.of_nat (n + length HEADER_SEPARATOR) + parseInt digits)); [lia|].
  rewrite drop_app_le by lia. rewrite drop_app_le by lia. rewrite take_app_le by (rewrite length_drop; lia). done.
Qed.

Lemma scan_invalid_app b c : scan b = Invalid -> scan (b ++ c)%list = Invalid.
Proof.
  unfold scan. destruct (indexOf HEADER_SEPARATOR b) as [n|] eqn:Hn; [|done]. rewrite (indexOf_app _ _ c _ Hn).
  pose proof (indexOf_length _ _ _ Hn) as Hl. rewrite take_app_le by (cbn in Hl; lia).
  destruct (matchLength _) as [digits|]; [|done]. by destruct (Z.ltb _ _).
Qed.

Lemma scan_shorter b p r : scan b = Frame p r -> length r < length b.
Proof.
  unfold scan. destruct (indexOf HEADER_SEPARATOR b) as [n|] eqn:Hn; [|done].
  destruct (matchLength _) as [digits|]; [|done]. cbn zeta. destruct (Z.ltb _ _); [done|]. intros [= _ <-].
  apply indexOf_length in Hn. rewrite length_drop. cbn in *. lia.
Qed.

(** The frames a buffer holds, what is left, and whether that is a fault. *)
Inductive parses : bytes -> list text -> bytes -> bool -> Prop :=
  | parses_break b : scan b = Break -> parses b [] b true
  | parses_invalid b : scan b = Invalid -> parses b [] b false
  | parses_frame b p r ps rest ok : scan b = Frame p r -> parses r ps rest ok -> parses b (p :: ps) rest ok.

Definition outcome (ps : list text) (ok : bool) : result (list text) := if ok then Ok ps else Throw invalidHeader.

Lemma loop_parses fuel b acc :
  length b < fuel ->
  exists ps rest ok, parses b ps rest ok /\ loop fuel acc {| buffer := b |} = (outcome (acc ++ ps)%list ok, {| buffer := rest |}).
Proof.
  revert b acc. induction fuel as [|fuel IH]; intros b acc Hf; [lia|]. cbn [loop buffer].
  destruct (scan b) as [| |p r] eqn:Hs.
  - exists [], b, true. split; [by constructor|]. by rewrite List.app_nil_r.
  - exists [], b, false. split; [by constructor|done].
  - pose proof (scan_shorter _ _ _ Hs). destruct (IH r (acc ++ [p])%list) as (ps & rest & ok & Hp & Hl); [lia|].
    exists (p :: ps), rest, ok. split; [by econstructor|]. rewrite Hl. by rewrite <- List.app_assoc.
Qed.

Lemma parses_det b ps rest ok ps' rest' ok' :
  parses b ps rest ok -> parses b ps' rest' ok' -> ps = ps' /\ rest = rest' /\ ok = ok'.
Proof.
  intros H. revert ps' rest' ok'. induction H as [b Hs|b Hs|b p r ps rest ok Hs _ IH]; intros ps' rest' ok' H';
    inversion H'; subst; try congruence; try done.
  match goal with H1 : scan b = Frame ?p' ?r', Hp : parses ?r' _ _ _ |- _ =>
    rewrite Hs in H1; injection H1 as <- <-; by destruct (IH _ _ _ Hp) as (-> & -> & ->) end.
Qed.

Lemma push_parses c b ps rest ok :
  parses (b ++ c)%list ps rest ok -> push c {| buffer := b |} = (outcome ps ok, {| buffer := rest |}).
Proof.
  intros Hp. unfold push, mbind, method_bind, modify_state, get_state. cbn [buffer].
  destruct (loop_parses (S (length (b ++ c)%list)) (b ++ c)%list []) as (ps' & rest' & ok' & Hp' & Hl); [lia|].
  rewrite Hl. by destruct (parses_det _ _ _ _ _ _ _ Hp Hp') as (-> & -> & ->).
Qed.

Lemma parses_total b : exists ps rest ok, parses b ps rest ok.
Proof. destruct (loop_parses (S (length b)) b []) as (ps & rest & ok & Hp & _); [lia|eauto]. Qed.

Lemma parses_rest b ps rest : parses b ps rest true -> scan rest = Break.
Proof. intros H. remember true as ok. induction H; subst; auto. done. Qed.

Lemma parses_app b ps rest c ps2 rest2 ok2 :
  parses b ps rest true -> parses (rest ++ c)%list ps2 rest2 ok2 -> parses (b ++ c)%list (ps ++ ps2)%list rest2 ok2.
Proof.
  intros H. remember true as ok. revert Heqok. induction H as [b Hs|b Hs|b p r ps rest ok Hs _ IH]; intros Hok H2; [done|done|].
  cbn. econstructor; [by apply scan_frame_app|auto].
Qed.

Lemma parses_app_false b ps rest c : parses b ps rest false -> parses (b ++ c)%list ps (rest ++ c)%list false.
Proof.
  intros H. remember false as ok. induction H as [b Hs|b Hs|b p r ps rest ok Hs _ IH]; [done| |].
  - constructor. by apply scan_invalid_app.
  - econstructor; [by apply scan_frame_app|auto].
Qed.

Lemma push_all_parses chunks b :
  scan b = Break ->
  exists ps rest ok, parses (b ++ List.concat chunks)%list ps rest ok /\
    fst (push_all chunks {| buffer := b |}) = outcome ps ok /\
    (ok = true -> snd (push_all chunks {| buffer := b |}) = {| buffer := rest |}).
Proof.
  revert b. induction chunks as [|c chunks IH]; intros b Hb; cbn [push_all List.concat].
  - exists [], b, true. rewrite List.app_nil_r. split; [by constructor|done].
  - rewrite List.app_assoc. destruct (parses_total (b ++ c)%list) as (ps & rest & ok & Hp).
    pose proof (push_parses _ _ _ _ _ Hp) as Hpush. unfold mbind, method_bind. rewrite Hpush. destruct ok; cbn [outcome].
    + destruct (IH rest (parses_rest _ _ _ Hp)) as (ps2 & rest2 & ok2 & Hp2 & Hf & Hs).
      exists (ps ++ ps2)%list, rest2, ok2. split; [by eapply parses_app|].
      destruct (push_all chunks {| buffer := rest |}) as [[x|e] d]; cbn in *; destruct ok2; cbn in *; simplify_eq; auto.
    + exists ps, (rest ++ List.concat chunks)%list, false. split; [by apply parses_app_false|done].
Qed.

(** ** The header *)
Lemma literal_digit k s : k < 10 -> literal (String (digit k) s) = (48 + Z.of_nat k)%Z :: literal s.
Proof. intros Hk. do 10 (destruct k as [|k]; [done|]). lia. Qed.

Lemma parseInt_snoc ds d : parseInt (ds ++ [d])%list = (parseInt ds * 10 + (d - 48))%Z.
Proof. unfold parseInt. by rewrite fold_left_app. Qed.

Lemma is_digit_of k : k < 10 -> is_digit (48 + Z.of_nat k) = true.
Proof. intros Hk. unfold is_digit. apply andb_true_iff. lia. Qed.

Lemma decimal_go_digits fuel n acc :
  n < fuel -> exists ds, literal (decimal_go fuel n acc) = (ds ++ literal acc)%list /\
    forallb is_digit ds = true /\ ds <> [] /\ parseInt ds = Z.of_nat n.
Proof.
  revert n acc. induction fuel as [|fuel IH]; intros n acc Hn; [lia|]. cbn [decimal_go].
  pose proof (Nat.mod_upper_bound n 10 ltac:(lia)) as Hm. pose proof (Nat.div_mod_eq n 10) as Hd.
  destruct (n / 10) as [|q] eqn:Hq.
  - exists [(48 + Z.of_nat (n mod 10))%Z]. rewrite literal_digit by lia. split; [done|]. cbn [forallb].
    rewrite is_digit_of by lia. split; [done|]. split; [done|]. unfold parseInt. cbn [fold_left]. lia.
  - destruct (IH (S q) (String (digit (n mod 10)) acc)) as (ds & Hl & Hds & _ & Hp); [lia|].
    exists (ds ++ [(48 + Z.of_nat (n mod 10))%Z])%list. rewrite Hl, literal_digit, <- List.app_assoc by lia.
    split; [done|]. rewrite forallb_app, Hds. cbn [forallb]. rewrite is_digit_of by lia. split; [done|].
    split; [by destruct ds|]. rewrite parseInt_snoc, Hp. lia.
Qed.

Lemma decimal_digits n :
  let ds := literal (decimal n) in forallb is_digit ds = true /\ ds <> [] /\ parseInt ds = Z.of_nat n.
Proof.
  destruct (decimal_go_digits (S n) n "") as (ds & Hl & H); [lia|]. cbn zeta. unfold decimal. rewrite Hl.
  change (literal "") with (@nil Z). by rewrite List.app_nil_r.
Qed.

Definition header_of (n : nat) : text := (HEADER_NAME ++ literal (decimal n))%list.

Lemma matchLength_header n : matchLength (header_of n) = Some (literal (decimal n)).
Proof.
  destruct (decimal_digits n) as (Hd & Hne & _). unfold matchLength, header_of. rewrite starts_with_refl, drop_app_length.
  rewrite Hd. cbn [andb]. by rewrite bool_decide_false.
Qed.

Lemma header_ascii n : forallb is_ascii (header_of n) = true /\ Forall (fun u => u <> 13%Z) (header_of n).
Proof.
  destruct (decimal_digits n) as (Hd & _ & _). unfold header_of. rewrite forallb_app, Forall_app.
  change (forallb is_ascii HEADER_NAME) with true. cbn [andb]. split.
  - eapply forallb_forall. intros u Hu. rewrite forallb_forall in Hd. specialize (Hd u Hu).
    unfold is_digit, is_ascii in *. apply andb_true_iff in Hd. apply andb_true_iff. lia.
  - split; [by repeat constructor|]. apply Forall_forall. intros u Hu%list_elem_of_In.
    rewrite forallb_forall in Hd. specialize (Hd u Hu). unfold is_digit in Hd. apply andb_true_iff in Hd. lia.
Qed.

Lemma frame_shape payload : encodeContentLengthFrame payload = (header_of (byteLength payload) ++ HEADER_SEPARATOR ++ payload)%list.
Proof. unfold encodeContentLengthFrame, header_of. by rewrite <- List.app_assoc. Qed.

Lemma frame_bytes payload :
  utf8 (encodeContentLengthFrame payload) = (header_of (byteLength payload) ++ HEADER_SEPARATOR ++ utf8 payload)%list.
Proof.
  rewrite frame_shape, utf8_ascii by apply header_ascii. done.
Qed.

Lemma scan_encoded payload rest :
  well_formed payload = true -> scan (utf8 (encodeContentLengthFrame payload) ++ rest)%list = Frame payload rest.
Proof.
  intros Hw. rewrite frame_bytes, <- !List.app_assoc. destruct (header_ascii (byteLength payload)) as [Ha Hcr].
  unfold scan. rewrite indexOf_header by done. rewrite take_app_length, toString_ascii by done.
  rewrite matchLength_header. destruct (decimal_digits (byteLength payload)) as (_ & _ & Hp). rewrite Hp. cbn zeta.
  set (h := header_of (byteLength payload)). replace (length h + length HEADER_SEPARATOR) with (length (h ++ HEADER_SEPARATOR)%list) by apply List.length_app.
  rewrite (List.app_assoc h). set (pre := (h ++ HEADER_SEPARATOR)%list).
  replace (Z.ltb _ _) with false by (symmetry; apply Z.ltb_ge; rewrite !List.length_app; unfold byteLength; lia).
  rewrite Nat2Z.id, drop_app_length. replace (length pre + byteLength payload - length pre) with (length (utf8 payload)) by (unfold byteLength; lia).
  rewrite take_app_length, toString_utf8 by done. f_equal. rewrite List.app_assoc. unfold byteLength.
  rewrite <- List.length_app. by rewrite drop_app_length.
Qed.

Lemma parses_encoded payloads :
  Forall (fun p => well_formed p = true) payloads ->
  parses (List.concat (map (fun p => utf8 (encodeContentLengthFrame p)) payloads)) payloads [] true.
Proof.
  induction 1 as [|p ps Hp _ IH]; cbn [map List.concat]; [by constructor|].
  econstructor; [by apply scan_encoded|done].
Qed.

Lemma decoded_frames payloads chunks :
  Forall (fun p => well_formed p = true) payloads ->
  List.concat chunks = List.concat (map (fun p => utf8 (encodeContentLengthFrame p)) payloads) ->
  push_all chunks new_decoder = (Ok payloads, new_decoder).
Proof.
  intros Hw Hc. destruct (push_all_parses chunks [] eq_refl) as (ps & rest & ok & Hp & Hf & Hs).
  cbn [app] in Hp. rewrite Hc in Hp. destruct (parses_det _ _ _ _ _ _ _ Hp (parses_encoded _ Hw)) as (-> & -> & ->).
  apply injective_projections; [exact Hf|exact (Hs eq_refl)].
Qed.

Definition frames (payloads : list text) : bytes := List.concat (map (fun p => utf8 (encodeContentLengthFrame p)) payloads).
Lemma pushed_parses chunks b ps rest : scan b = Break -> parses (b ++ List.concat chunks)%list ps rest true ->
  exists pss, pushed chunks {| buffer := b |} pss {| buffer := rest |} /\ List.concat pss = ps.
Proof.
  revert b ps. induction chunks as [|c chunks IH]; intros b ps Hb Hp; cbn [List.concat] in Hp.
  - rewrite List.app_nil_r in Hp. destruct (parses_det _ _ _ _ _ _ _ Hp (parses_break b Hb)) as (-> & -> & _). exists []. split; [constructor|done].
  - rewrite List.app_assoc in Hp. destruct (parses_total (b ++ c)%list) as (ps1 & rest1 & ok & Hp1). destruct ok.
    2:{ destruct (parses_det _ _ _ _ _ _ _ Hp (parses_app_false _ _ _ (List.concat chunks) Hp1)) as (_ & _ & ?). done. }
    destruct (parses_total (rest1 ++ List.concat chunks)%list) as (ps2 & rest2 & ok & Hp2).
    destruct (parses_det _ _ _ _ _ _ _ Hp (parses_app _ _ _ _ _ _ _ Hp1 Hp2)) as (-> & <- & <-).
    destruct (IH rest1 ps2 (parses_rest _ _ _ Hp1) Hp2) as (pss & Hpss & <-). exists (ps1 :: pss). split; [|done].
    econstructor; [exact (push_parses _ _ _ _ _ Hp1)|done].
Qed.

(** Where the bytes of some frames are cut: after whole frames, or inside the next. *)
Definition cut_in {A B} (f : A -> list B) (l : list A) (n : nat) (part : list B) : Prop :=
  n = length l /\ part = [] \/ exists p missing, l !! n = Some p /\ missing <> [] /\ (part ++ missing)%list = f p.
Lemma concat_cut {A B} (f : A -> list B) l pre rest : (pre ++ rest)%list = List.concat (map f l) ->
  exists n part, pre = (List.concat (map f (take n l)) ++ part)%list /\ cut_in f l n part.
Proof.
  revert pre. induction l as [|p ps IH]; intros pre H.
  { apply app_eq_nil in H as [-> ->]. exists 0, []. split; [done|by left]. }
  assert (Hnext : forall l, pre = (f p ++ l)%list -> (l ++ rest)%list = List.concat (map f ps) ->
    exists n part, pre = (List.concat (map f (take n (p :: ps))) ++ part)%list /\ cut_in f (p :: ps) n part).
  { intros l -> Hl. destruct (IH l Hl) as (n & part & -> & Hc). exists (S n), part. cbn [take map List.concat].
    split; [by rewrite List.app_assoc|]. destruct Hc as [[-> ->]|Hc]; [by left|by right]. }
  apply app_eq_app in H as (l & [[-> Hl]|[Hp Hl]]); [by apply (Hnext l)|].
  destruct l as [|x l]; [apply (Hnext []); [rewrite List.app_nil_r in *; by subst|by rewrite Hl]|].
  exists 0, pre. split; [done|]. right. by exists p, (x :: l).
Qed.
Abbreviation cut_at := (cut_in (fun p => utf8 (encodeContentLengthFrame p))).
Lemma part_breaks payloads n part : Forall (fun p => well_formed p = true) payloads -> cut_at payloads n part -> scan part = Break.
Proof.
  intros Hw [[_ ->]|(p & missing & Hp & Hm & E)]; [done|]. pose proof (proj1 (Forall_lookup _ _) Hw _ _ Hp) as Hwp. cbn in Hwp.
  pose proof (scan_encoded p [] Hwp) as Hs. rewrite List.app_nil_r, <- E in Hs. destruct (scan part) as [| |q r] eqn:Es; [done| |].
  - by rewrite (scan_invalid_app _ missing Es) in Hs.
  - rewrite (scan_frame_app _ missing _ _ Es) in Hs. injection Hs as _ Hs. by apply app_eq_nil in Hs as [_ ?].
Qed.
Lemma pushed_frames payloads chunks rest : Forall (fun p => well_formed p = true) payloads ->
  (List.concat chunks ++ rest)%list = frames payloads ->
  exists pss n part, pushed chunks new_decoder pss {| buffer := part |} /\ List.concat pss = take n payloads
    /\ List.concat chunks = (frames (take n payloads) ++ part)%list /\ cut_at payloads n part.
Proof.
  intros Hw H. destruct (concat_cut _ _ _ _ H) as (n & part & E & Hc). pose proof (part_breaks _ _ _ Hw Hc) as Hb.
  assert (Hp : parses ([] ++ List.concat chunks)%list (take n payloads) part true).
  { cbn [app]. rewrite E, <- (List.app_nil_r (take n payloads)). eapply parses_app; [rewrite List.app_nil_r; by apply parses_encoded, Forall_take|].
    by constructor. }
  destruct (pushed_parses chunks [] _ _ eq_refl Hp) as (pss & Hpss & Hcat). by exists pss, n, part.
Qed.

(** C26: The decoder gives back what was framed, however the bytes are cut.  Take the bytes of the frames of any texts
    whose surrogates are paired (a lone surrogate has no UTF-8), and cut any beginning of them into chunks anywhere, also
    inside a header or a character: every push returns, the payloads returned so far are, in order, exactly those whose
    frames have arrived completely, and the buffer holds the beginning of the next frame and nothing else.  So once all
    bytes have arrived all payloads were returned and the buffer is empty.  A single frame, held as a text, decodes to its
    payload, whatever text. *)
Theorem frames_decoded :
  (forall payloads chunks rest, Forall (fun p => well_formed p = true) payloads ->
     (List.concat chunks ++ rest)%list = List.concat (map (fun p => utf8 (encodeContentLengthFrame p)) payloads) ->
     exists pss n part, pushed chunks new_decoder pss {| buffer := part |} /\ List.concat pss = take n payloads
       /\ List.concat chunks = (List.concat (map (fun p => utf8 (encodeContentLengthFrame p)) (take n payloads)) ++ part)%list
       /\ (n = length payloads /\ part = []
           \/ exists p missing, payloads !! n = Some p /\ missing <> [] /\ (part ++ missing)%list = utf8 (encodeContentLengthFrame p))) /\
  (forall payloads chunks, Forall (fun p => well_formed p = true) payloads ->
     List.concat chunks = List.concat (map (fun p => utf8 (encodeContentLengthFrame p)) payloads) ->
     exists pss, pushed chunks new_decoder pss new_decoder /\ List.concat pss = payloads) /\
  (forall payload, decodeContentLengthFrame (encodeContentLengthFrame payload) = Ok payload).
Proof.
  split; [|split].
  - intros payloads chunks rest Hw H. exact (pushed_frames payloads chunks rest Hw H).
  - intros payloads chunks Hw H. apply (pushed_parses chunks [] payloads [] eq_refl). cbn [app]. rewrite H. by apply parses_encoded.
  - intros payload. rewrite frame_shape. unfold decodeContentLengthFrame.
    destruct (header_ascii (byteLength payload)) as [_ Hcr]. rewrite indexOf_header by done.
    rewrite take_app_length, matchLength_header. destruct (decimal_digits (byteLength payload)) as (_ & _ & Hp). rewrite Hp.
    rewrite List.app_assoc, <- List.length_app, drop_app_length, Z.eqb_refl. done.
Qed.

Definition two_frames : bytes := (utf8 (encodeContentLengthFrame [123; 233; 125]%Z) ++ utf8 (encodeContentLengthFrame []))%list.
Lemma frames_decoded_witness :
  exists pss, pushed [take 5 two_frames; take 18 (drop 5 two_frames); drop 23 two_frames] new_decoder pss new_decoder
    /\ List.concat pss = [[123; 233; 125]%Z; []].
Proof.
  apply (proj1 (proj2 frames_decoded)).
  - by repeat constructor.
  - vm_compute. reflexivity.
Defined.
(** An invalid header throws away what the same push had decoded before it: in one
    chunk nothing is returned, in two the first payload is. *)
Example invalid_header_loses_payloads :
  let good := utf8 (encodeContentLengthFrame [120]%Z) in let bad := utf8 (literal "x" ++ HEADER_SEPARATOR)%list in
  fst (push (good ++ bad)%list new_decoder) = Throw invalidHeader /\ fst (push good new_decoder) = Ok [[120]%Z].
Proof. by vm_compute. Qed.
