(* ===== verification/JsonRpc.v ===== *)
(** transport/jsonRpcStreamClient.ts: requests and notifications over a stream.

    [JSON.parse], [JSON.stringify] and [String] are parameters.  Handlers are
    asynchronous: the client records a call of one and goes on when its promise
    settles.  The payloads of a chunk are handled one after the other and a
    handler may call the client meanwhile, so that [handleData] leaves the rest
    of the chunk in [inbox] and each payload is a step of its own. *)

From Stdlib Require Import ZArith Lia String List.
From stdpp Require Import base option list relations strings.
From S2P Require Import Prelude JsString JsMap JsValue Utf8 Framing WriteQueue.

Local Open Scope string_scope.

Module JsonRpcStreamClient.
Import ContentLengthFrameDecoder OrderedWriteQueue.

(** ** Structured errors *)
Inductive RpcErrorCause := OutOfDate | ConflictPresent | AuthenticationFailed | NotWorkingCopy | UnknownNative.

Record SvnDiagnosticEntry := { svn_code : Z; svn_name : string }.
Record RpcErrorDiagnostics := {
  cause : RpcErrorCause;
  svn_entries : list SvnDiagnosticEntry;
  svn_truncated : bool;
}.
Record StructuredRpcError := {
  code : string;
  category : string;
  messageKey : string;
  args : list (string * js_value);
  retryable : bool;
  diagnostics : option RpcErrorDiagnostics;
}.

Definition cause_of (s : string) : option RpcErrorCause :=
  if bool_decide (s = "outOfDate") then Some OutOfDate
  else if bool_decide (s = "conflictPresent") then Some ConflictPresent
  else if bool_decide (s = "authenticationFailed") then Some AuthenticationFailed
  else if bool_decide (s = "notWorkingCopy") then Some NotWorkingCopy
  else if bool_decide (s = "unknownNative") then Some UnknownNative
  else None.

(** [/^SVN_ERR_[A-Z0-9_]+$/u.test(name)] *)
Definition is_name_char (c : Ascii.ascii) : bool :=
  let n := Ascii.nat_of_ascii c in
  (Nat.leb 65 n && Nat.leb n 90) || (Nat.leb 48 n && Nat.leb n 57) || Nat.eqb n 95.
Definition is_svn_name (name : string) : bool :=
  startsWith name "SVN_ERR_" &&
  (let rest := slice_from 8 name in negb (bool_decide (rest = "")) && forallb is_name_char (list_ascii_of_string rest)).

Definition requireEntry (entry : js_value) : result SvnDiagnosticEntry :=
  if negb (isRecord (Some entry)) then Throw (PlainError "JSON-RPC SVN diagnostic entry must be an object")
  else
    match field entry "code", field entry "name" with
    | Some (VNum (NumInt z)), Some (VStr name) =>
        if Z.ltb z (-2147483648) || Z.ltb 2147483647 z || Nat.ltb 128 (String.length name) || negb (is_svn_name name)
        then Throw (PlainError "JSON-RPC SVN diagnostic entry is invalid")
        else Ok {| svn_code := z; svn_name := name |}
    | _, _ => Throw (PlainError "JSON-RPC SVN diagnostic entry is invalid")
    end.

Definition requireRpcErrorDiagnostics (value : js_value) : result (option RpcErrorDiagnostics) :=
  match value with
  | VNull => Ok None
  | _ =>
    if negb (isRecord (Some value)) then Throw (PlainError "JSON-RPC error diagnostics must be an object or null")
    else
      match (match field value "cause" with Some (VStr s) => cause_of s | _ => None end) with
      | None => Throw (PlainError "JSON-RPC error diagnostics cause is invalid")
      | Some c =>
          if negb (isPlainRecord (field value "svn")) then Throw (PlainError "JSON-RPC SVN diagnostics must be an object")
          else
            let svn := match field value "svn" with Some v => v | None => VNull end in
            match field svn "entries", field svn "truncated" with
            | Some (VArr items), Some (VBool truncated) =>
                if Nat.eqb (length items) 0 || Nat.ltb 8 (length items)
                then Throw (PlainError "JSON-RPC SVN diagnostics entries are invalid")
                else entries ← mapi (fun _ => requireEntry) items;
                     Ok (Some {| cause := c; svn_entries := entries; svn_truncated := truncated |})
            | _, _ => Throw (PlainError "JSON-RPC SVN diagnostics entries are invalid")
            end
      end
  end.

Definition requireStructuredRpcError (error : js_value) : result StructuredRpcError :=
  if negb (isRecord (Some error)) then Throw (PlainError "JSON-RPC error response must be an object")
  else
    match field error "code", field error "category", field error "messageKey", field error "args",
          field error "retryable", field error "diagnostics" with
    | Some (VStr c), Some (VStr cat), Some (VStr key), Some (VObj fields), Some (VBool b), Some d =>
        if isNonEmptyString c && isNonEmptyString cat && isNonEmptyString key then
          diag ← requireRpcErrorDiagnostics d;
          Ok {| code := c; category := cat; messageKey := key; args := fields; retryable := b; diagnostics := diag |}
        else Throw (PlainError "JSON-RPC error response does not match the structured error contract")
    | _, _, _, _, _, _ => Throw (PlainError "JSON-RPC error response does not match the structured error contract")
    end.

(** ** The client *)
Inductive rejection :=
  | JsonRpcStreamError (e : StructuredRpcError)
  | JsonRpcRequestCancelledError (requestId : Z)
  | Reason (e : js_error).

Inductive settlement :=
  | Resolved (value : option js_value)
  | Rejected (r : rejection).

Record PendingRequest := { pending_method : string; pending_signal : option nat }.

(** A call of a handler, [call_open] until its promise settles. *)
Record handler_call := { call_id : option js_value; call_method : string; call_params : option js_value; call_open : bool }.

(** What a handler throws: an object with properties, or something else. *)
Inductive thrown :=
  | ThrownObject (properties : list (string * js_value))
  | ThrownOther.

Record client {W : Type} := {
  decoder_state : decoder;
  pending : list (Z * PendingRequest);
  writer : queue text W;
  nextId : Z;
  disposed : bool;
  inbox : list text;
  abortedSignals : list nat;
  (* the log *)
  calls : list handler_call;
  sent : list js_value;
  settlements : list (Z * settlement);
  faults : list js_error;
  observed : list (string * StructuredRpcError);
}.
Arguments client : clear implicits.

Inductive Chunk := ChunkBytes (b : bytes) | ChunkText (t : text).

Definition rpcError (code category messageKey : string) (args : list (string * js_value)) : js_value :=
  VObj [("code", VStr code); ("category", VStr category); ("messageKey", VStr messageKey); ("args", VObj args);
        ("retryable", VBool false); ("diagnostics", VNull)].

(** A property that is [undefined] is left out by [JSON.stringify]. *)
Definition optional (name : string) (v : option js_value) : list (string * js_value) :=
  match v with Some v => [(name, v)] | None => [] end.

Section Client.
Context {W : Type} (stream_write : text -> W -> answer * W).
Context (JSON_parse : text -> option js_value) (JSON_stringify : js_value -> text) (js_String : js_value -> string).
(** Which handlers the options have. *)
Context (has_requestHandler has_notificationHandler : bool).
Implicit Types c : client W.

Definition requestHandlerError (method : string) (error : thrown) : js_value :=
  match error with
  | ThrownObject properties =>
      match map_get properties "code", map_get properties "messageKey" with
      | Some c, Some key =>
          VObj [("code", VStr (js_String c));
                ("category", match map_get properties "category" with Some (VStr s) => VStr s | _ => VStr "internal" end);
                ("messageKey", VStr (js_String key));
                ("args", match map_get properties "safeArgs" with Some (VObj a) => VObj a | Some (VArr a) => VArr a | _ => VObj [] end);
                ("retryable", match map_get properties "retryable" with Some (VBool true) => VBool true | _ => VBool false end);
                ("diagnostics", VNull)]
      | _, _ => rpcError "RPC_REQUEST_HANDLER_FAILED" "internal" "error.rpc.requestHandlerFailed" [("method", VStr method)]
      end
  | ThrownOther => rpcError "RPC_REQUEST_HANDLER_FAILED" "internal" "error.rpc.requestHandlerFailed" [("method", VStr method)]
  end.

Definition with_writer (q : queue text W) c : client W :=
  {| decoder_state := decoder_state c; pending := pending c; writer := q; nextId := nextId c; disposed := disposed c;
     inbox := inbox c; abortedSignals := abortedSignals c; calls := calls c; sent := sent c; settlements := settlements c;
     faults := faults c; observed := observed c |}.
Definition with_inbox (d : decoder) (l : list text) c : client W :=
  {| decoder_state := d; pending := pending c; writer := writer c; nextId := nextId c; disposed := disposed c;
     inbox := l; abortedSignals := abortedSignals c; calls := calls c; sent := sent c; settlements := settlements c;
     faults := faults c; observed := observed c |}.
Definition with_calls (l : list handler_call) c : client W :=
  {| decoder_state := decoder_state c; pending := pending c; writer := writer c; nextId := nextId c; disposed := disposed c;
     inbox := inbox c; abortedSignals := abortedSignals c; calls := l; sent := sent c; settlements := settlements c;
     faults := faults c; observed := observed c |}.
(** [this.pending] and how the promises of requests were settled. *)
Definition with_pending (p : list (Z * PendingRequest)) (l : list (Z * settlement)) c : client W :=
  {| decoder_state := decoder_state c; pending := p; writer := writer c; nextId := nextId c; disposed := disposed c;
     inbox := inbox c; abortedSignals := abortedSignals c; calls := calls c; sent := sent c; settlements := l;
     faults := faults c; observed := observed c |}.
Definition note_sent (m : js_value) c : client W :=
  {| decoder_state := decoder_state c; pending := pending c; writer := writer c; nextId := nextId c; disposed := disposed c;
     inbox := inbox c; abortedSignals := abortedSignals c; calls := calls c; sent := (sent c ++ [m])%list;
     settlements := settlements c; faults := faults c; observed := observed c |}.

Definition rejectPending (error : js_error) c : client W :=
  with_pending [] (settlements c ++ map (fun p => (fst p, Rejected (Reason error))) (pending c))%list c.

Definition dispose (reason : js_error) c : client W :=
  if disposed c then c
  else
    rejectPending reason
      {| decoder_state := decoder_state c; pending := pending c; writer := OrderedWriteQueue.dispose reason (writer c);
         nextId := nextId c; disposed := true; inbox := inbox c; abortedSignals := abortedSignals c; calls := calls c;
         sent := sent c; settlements := settlements c; faults := faults c; observed := observed c |}.

(** A method of the writer; what it reports goes to [handleStreamError]. *)
Definition on_writer (f : queue text W -> queue text W) c : client W :=
  let q := f (writer c) in
  fold_left (fun c e => dispose e c) (drop (length (reported (writer c))) (reported q)) (with_writer q c).

(** The rejections of the write promise come as [WriteRejected]. *)
Definition enqueuePayload (message : js_value) c : client W :=
  on_writer (fun q => snd (write stream_write (encodeContentLengthFrame (JSON_stringify message)) q)) (note_sent message c).

Definition writeJsonRpcMessage (message : js_value) c : client W :=
  if disposed c then c else enqueuePayload message c.

Definition writeCancelNotification (id : Z) c : client W :=
  writeJsonRpcMessage (VObj [("jsonrpc", VStr "2.0"); ("method", VStr "$/cancelRequest");
                             ("params", VObj [("id", VNum (NumInt id))])]) c.

Definition signal_aborted c (signal : option nat) : bool :=
  match signal with Some s => set_has (abortedSignals c) s | None => false end.

(** The promise [sendRequest] returns: rejected already, or that of an id. *)
Inductive sent_promise := RejectedAtOnce (r : rejection) | PromiseOf (id : Z).

Definition sendRequest (method : string) (params : option js_value) (signal : option nat) c : sent_promise * client W :=
  if disposed c then (RejectedAtOnce (Reason (PlainError "JSON-RPC stream client is disposed")), c)
  else if signal_aborted c signal then (RejectedAtOnce (JsonRpcRequestCancelledError (nextId c)), c)
  else
    let id := nextId c in
    let message := VObj ([("jsonrpc", VStr "2.0"); ("id", VNum (NumInt id)); ("method", VStr method)]
                         ++ optional "params" params)%list in
    (PromiseOf id,
     enqueuePayload message
       {| decoder_state := decoder_state c;
          pending := map_set (pending c) id {| pending_method := method; pending_signal := signal |};
          writer := writer c; nextId := id + 1; disposed := disposed c; inbox := inbox c;
          abortedSignals := abortedSignals c; calls := calls c; sent := sent c; settlements := settlements c;
          faults := faults c; observed := observed c |}).

Definition disposeForProtocolFault (error : js_error) c : client W :=
  let c := dispose error c in
  {| decoder_state := decoder_state c; pending := pending c; writer := writer c; nextId := nextId c; disposed := disposed c;
     inbox := inbox c; abortedSignals := abortedSignals c; calls := calls c; sent := sent c; settlements := settlements c;
     faults := (faults c ++ [error])%list; observed := observed c |}.

(** [this.pending.delete(id)] and the promise of the request. *)
Definition settle (id : Z) (s : settlement) c : client W :=
  with_pending (map_delete (pending c) id) (settlements c ++ [(id, s)])%list c.

Definition abortListener (id : Z) c : client W :=
  match map_get (pending c) id with
  | None => c
  | Some _ =>
      let c := with_pending (map_delete (pending c) id) (settlements c) c in
      let c := writeCancelNotification id c in
      with_pending (pending c) (settlements c ++ [(id, Rejected (JsonRpcRequestCancelledError id))])%list c
  end.

(** The listeners of a signal are those of the pending requests, in order. *)
Definition abort (signal : nat) c : client W :=
  let ids := map fst (List.filter (fun p => bool_decide (pending_signal (snd p) = Some signal)) (pending c)) in
  fold_left (fun c id => abortListener id c) ids
    {| decoder_state := decoder_state c; pending := pending c; writer := writer c; nextId := nextId c; disposed := disposed c;
       inbox := inbox c; abortedSignals := set_add (abortedSignals c) signal; calls := calls c; sent := sent c;
       settlements := settlements c; faults := faults c; observed := observed c |}.

Definition observe (method : string) (e : StructuredRpcError) c : client W :=
  {| decoder_state := decoder_state c; pending := pending c; writer := writer c; nextId := nextId c; disposed := disposed c;
     inbox := inbox c; abortedSignals := abortedSignals c; calls := calls c; sent := sent c; settlements := settlements c;
     faults := faults c; observed := (observed c ++ [(method, e)])%list |}.

Definition handleInboundRequest (id : js_value) (method : string) (params : option js_value) c : client W :=
  if negb has_requestHandler then
    writeJsonRpcMessage (VObj [("jsonrpc", VStr "2.0"); ("id", id);
      ("error", rpcError "RPC_METHOD_NOT_FOUND" "unsupported" "error.rpc.methodNotFound" [("method", VStr method)])]) c
  else with_calls (calls c ++ [{| call_id := Some id; call_method := method; call_params := params; call_open := true |}])%list c.

Definition handleInboundNotification (method : string) (params : option js_value) c : client W :=
  if negb has_notificationHandler then
    disposeForProtocolFault (PlainError ("JSON-RPC notification handler is not configured for " ++ method)) c
  else with_calls (calls c ++ [{| call_id := None; call_method := method; call_params := params; call_open := true |}])%list c.

Definition handleResponse (message : js_value) c : client W :=
  match field message "id" with
  | Some (VNum (NumInt id)) =>
      match map_get (pending c) id with
      | None => c
      | Some request =>
          match field message "error" with
          | Some error =>
              match requireStructuredRpcError error with
              | Throw e => disposeForProtocolFault e c
              | Ok e => observe (pending_method request) e (settle id (Rejected (JsonRpcStreamError e)) c)
              end
          | None => settle id (Resolved (field message "result")) c
          end
      end
  | _ => c
  end.

Definition handlePayload (payload : text) c : result unit * client W :=
  match JSON_parse payload with
  | None => (Throw (ForeignError "SyntaxError"), c)
  | Some VNull => (Throw (ForeignError "TypeError"), c)
  | Some message =>
      (Ok tt,
       match field message "method" with
       | Some (VStr m) =>
           match field message "id" with
           | None => handleInboundNotification m (field message "params") c
           | Some id => handleInboundRequest id m (field message "params") c
           end
       | _ => handleResponse message c
       end)
  end.

(** [handleData], up to its first payload. *)
Definition handleData (chunk : Chunk) c : client W :=
  let b := match chunk with ChunkBytes b => b | ChunkText t => utf8 t end in
  match push b (decoder_state c) with
  | (Ok payloads, d) => with_inbox d payloads c
  | (Throw e, d) => disposeForProtocolFault e (with_inbox d [] c)
  end.

(** The next payload of the chunk; a throw ends the loop. *)
Definition nextPayload (payload : text) (rest : list text) c : client W :=
  match handlePayload payload (with_inbox (decoder_state c) rest c) with
  | (Ok _, c) => c
  | (Throw e, c) => disposeForProtocolFault e (with_inbox (decoder_state c) [] c)
  end.

Definition close_call (k : nat) c : client W :=
  with_calls (alter (fun h => {| call_id := call_id h; call_method := call_method h; call_params := call_params h; call_open := false |}) k (calls c)) c.

(** The promise of a request handler settles. *)
Definition requestHandled (id : js_value) (method : string) (r : option js_value + thrown) c : client W :=
  writeJsonRpcMessage
    (VObj ([("jsonrpc", VStr "2.0"); ("id", id)] ++
           match r with
           | inl result => optional "result" result
           | inr error => [("error", requestHandlerError method error)]
           end)%list) c.

Inductive event :=
  | SendRequest (method : string) (params : option js_value) (signal : option nat)
  | Abort (signal : nat)
  | Data (chunk : Chunk)
  | NextPayload
  | RequestHandled (call : nat) (r : option js_value + thrown)
  | NotificationHandled (call : nat) (r : result unit)
  | WriteRejected (promise : nat)
  | WriterDrain
  | WriterError (e : js_error)
  | WriterClose
  | ReadableError (e : js_error)
  | ReadableClose
  | DisposeCall (reason : js_error).

Definition closedReason : js_error := PlainError "JSON-RPC stream closed".

Definition exec (ev : event) c : option (client W) :=
  match ev with
  | SendRequest method params signal => Some (snd (sendRequest method params signal c))
  | Abort signal => Some (abort signal c)
  | Data chunk => if disposed c || negb (bool_decide (inbox c = [])) then None else Some (handleData chunk c)
  | NextPayload => match inbox c with [] => None | payload :: rest => Some (nextPayload payload rest c) end
  | RequestHandled k r =>
      h ← calls c !! k;
      match call_id h with
      | Some id => if call_open h then Some (requestHandled id (call_method h) r (close_call k c)) else None
      | None => None
      end
  | NotificationHandled k r =>
      h ← calls c !! k;
      match call_id h with
      | None => if call_open h then
          Some (match r with Ok _ => close_call k c | Throw e => disposeForProtocolFault e (close_call k c) end) else None
      | Some _ => None
      end
  | WriteRejected promise =>
      match List.find (fun s => bool_decide (fst s = promise)) (OrderedWriteQueue.settled (writer c)) with
      | Some (_, Some e) => Some (dispose e c)
      | _ => None
      end
  | WriterDrain => Some (on_writer (handleDrain stream_write) c)
  | WriterError e => Some (on_writer (handleError e) c)
  | WriterClose => Some (on_writer OrderedWriteQueue.handleClose c)
  | ReadableError e => if disposed c then None else Some (dispose e c)
  | ReadableClose => if disposed c then None else Some (dispose closedReason c)
  | DisposeCall reason => Some (dispose reason c)
  end.

Definition new_client (w : W) : client W :=
  {| decoder_state := new_decoder; pending := []; writer := new_queue w; nextId := 1; disposed := false; inbox := [];
     abortedSignals := []; calls := []; sent := []; settlements := []; faults := []; observed := [] |}.
End Client.
Arguments event : clear implicits.
End JsonRpcStreamClient.
