(* ===== verification/JsonRpcFacts.v ===== *)
(** The JSON-RPC client: every request settles once, what a response does, and
    what the other end of the stream reads. *)

From Stdlib Require Import ZArith Lia String List.
From stdpp Require Import base option list relations strings.
From S2P Require Import Prelude JsString JsMap JsValue Utf8 Framing WriteQueue JsonRpc.

Local Open Scope string_scope.

Import ContentLengthFrameDecoder OrderedWriteQueue JsonRpcStreamClient.

#[local] Arguments encodeContentLengthFrame : simpl never.
#[local] Arguments OrderedWriteQueue.dispose : simpl never.

(** ** What the writer reports *)
Section Writer.
Context {F W : Type} (stream_write : F -> W -> answer * W).
Implicit Types q : queue F W.

Definition loud q : Prop := if active q then reported q = [] else exists e, reported q = [e].

Lemma fail_loud e q : loud q -> loud (fail e q).
Proof using Type.
  unfold fail, loud. destruct (active q) eqn:Ha; cbn; [|by rewrite Ha]. intros ->. by exists e.
Qed.

Lemma fold_fail_loud es q : loud q -> loud (fold_left (fun q e => fail e q) es q).
Proof using Type. revert q. induction es as [|e es IH]; intros q Hq; [done|]. by apply IH, fail_loud. Qed.

Lemma flush_loop_loud fuel q : loud q -> loud (flush_loop stream_write fuel q).
Proof using Type.
  revert q. induction fuel as [|fuel IH]; intros q Hq; cbn [flush_loop]; [done|].
  destruct (negb (active q) || waitingForDrain q); [done|]. destruct (queued q) as [|item rest]; [done|].
  unfold call_stream. destruct (stream_write (item_frame item) (writable q)) as [a w].
  match goal with |- context [fold_left _ (emitted a) ?q1] => assert (loud (fold_left (fun q e => fail e q) (emitted a) q1)) as H1 by (apply fold_fail_loud; exact Hq); set (q2 := fold_left _ (emitted a) q1) in * end.
  destruct (returned a) as [accepted|e]; [|by apply fail_loud].
  destruct (active q2) eqn:Ha; cbn [negb]; [|done]. destruct accepted; cbn [negb]; [|exact H1].
  apply IH. unfold resolve_head. destruct (queued q2); exact H1.
Qed.

Lemma write_loud frame q : active q = true -> loud q -> loud (snd (write stream_write frame q)).
Proof using Type. 
  intros Ha Hq. unfold write. replace (negb (active q)) with false by (by rewrite Ha).
  apply flush_loop_loud. exact Hq.
Qed.

Lemma drain_loud q : loud q -> loud (handleDrain stream_write q).
Proof using Type.
  intros Hq. unfold handleDrain. destruct (negb (active q) || negb (waitingForDrain q)); [done|].
  apply flush_loop_loud. unfold resolve_head. destruct (queued _); exact Hq.
Qed.

(** What was issued. *)
Lemma fail_issued e q : issued (fail e q) = issued q.
Proof using Type. unfold fail. by destruct (active q). Qed.

Lemma fold_fail_issued es q : issued (fold_left (fun q e => fail e q) es q) = issued q.
Proof using Type. revert q. induction es as [|e es IH]; intros q; cbn [fold_left]; [done|]. by rewrite IH, fail_issued. Qed.

Lemma flush_loop_issued fuel q : issued (flush_loop stream_write fuel q) = issued q.
Proof using Type.
  revert q. induction fuel as [|fuel IH]; intros q; cbn [flush_loop]; [done|].
  destruct (negb (active q) || waitingForDrain q); [done|]. destruct (queued q) as [|item rest]; [done|].
  unfold call_stream. destruct (stream_write (item_frame item) (writable q)) as [a w].
  match goal with |- context [fold_left _ (emitted a) ?q1] => assert (issued (fold_left (fun q e => fail e q) (emitted a) q1) = issued q) as H1 by (by rewrite fold_fail_issued); set (q2 := fold_left _ (emitted a) q1) in * end.
  destruct (returned a) as [accepted|e]; [|by rewrite fail_issued].
  destruct (active q2); cbn [negb]; [|done]. destruct accepted; cbn [negb]; [|done].
  rewrite IH, <- H1. unfold resolve_head. by destruct (queued q2).
Qed.

(** A method of the writer that issues [l]. *)
Record writer_step (f : queue F W -> queue F W) (l : list F) : Prop := {
  step_ok q : queue_ok q -> queue_ok (f q);
  step_issued q : queue_ok q -> issued (f q) = (issued q ++ l)%list;
  step_loud q : active q = true -> loud q -> loud (f q);
  step_stopped q : queue_ok q -> active q = false -> active (f q) = false /\ reported (f q) = reported q;
}.

Lemma stopped_error q : queue_ok q -> active q = false -> exists e, terminalError q = Some e.
Proof using Type.
  intros [(k & Ho & _)|(k & h & e & Hc)] Ha; [by rewrite (open_active _ _ _ Ho) in Ha|]. exists e. apply Hc.
Qed.

(** The queue never throws. *)
Lemma write_returns frame q : queue_ok q -> fst (write stream_write frame q) = Ok tt.
Proof using Type.
  intros Hq. unfold write. destruct (active q) eqn:Ha; [done|]. destruct (stopped_error q Hq Ha) as [e He]. by rewrite He.
Qed.

Lemma write_step frame : writer_step (fun q => snd (write stream_write frame q)) [frame].
Proof using Type.
  split.
  - intros q Hq. by apply (handle_ok stream_write (Write frame)).
  - intros q Hq. unfold write. destruct (active q) eqn:Ha; cbn [negb snd].
    + unfold flush. by rewrite flush_loop_issued.
    + destruct (stopped_error q Hq Ha) as [e He]. by rewrite He.
  - intros q Ha Hq. by apply write_loud.
  - intros q Hq Ha. unfold write. destruct (stopped_error q Hq Ha) as [e He]. rewrite Ha, He. by cbn.
Qed.

Lemma drain_step : writer_step (handleDrain stream_write) [].
Proof using Type.
  split.
  - intros q Hq. by apply (handle_ok stream_write Drain).
  - intros q _. rewrite List.app_nil_r. unfold handleDrain. destruct (negb (active q) || negb (waitingForDrain q)); [done|].
    unfold flush. rewrite flush_loop_issued. unfold resolve_head. by destruct (queued _).
  - intros q _. apply drain_loud.
  - intros q _ Ha. unfold handleDrain. by rewrite Ha.
Qed.

Lemma fail_step e : writer_step (fail e) [].
Proof using Type.
  split.
  - intros q Hq. by apply (handle_ok (fun _ w => ({| emitted := []; returned := Ok true |}, w)) (ErrorEvent e)).
  - intros q _. by rewrite List.app_nil_r, fail_issued.
  - intros q _. apply fail_loud.
  - intros q _ Ha. unfold fail. by rewrite Ha.
Qed.

Lemma active_loud q : queue_ok q -> active q = true -> loud q.
Proof using Type.
  intros [(k & Ho & _)|(k & h & e & Hc)] Ha; [|by rewrite (closed_active _ _ _ _ Hc) in Ha].
  unfold loud. rewrite Ha. apply Ho.
Qed.
End Writer.

Lemma queue_handed {F W} (q : queue F W) : queue_ok q -> handed q = take (length (handed q)) (issued q).
Proof.
  intros [(k & Ho & _)|(k & h & e & Hc)]; [apply Ho|]. rewrite (closed_handed _ _ _ _ Hc) at 2. rewrite length_firstn.
  rewrite (closed_handed _ _ _ _ Hc). destruct (Nat.min_spec h (length (issued q))) as [[_ ->]|[? ->]]; [done|].
  by rewrite !firstn_all2 by lia.
Qed.

Lemma queue_all_handed {F W} (q : queue F W) :
  queue_ok q -> active q = true -> waitingForDrain q = false -> length (handed q) = length (issued q).
Proof.
  intros [(k & Ho & Hw)|(k & h & e & Hc)] Ha Hwait; [|by rewrite (closed_active _ _ _ _ Hc) in Ha].
  rewrite Hwait in Hw. destruct Hw as [Hq Hh]. pose proof (open_count _ _ _ Ho) as Hn. rewrite Hq in Hn. cbn in Hn. lia.
Qed.

Lemma keys_delete_perm {K V} `{EqDecision K} (m : list (K * V)) k :
  NoDup (map_keys m) -> k ∈ map_keys m -> map_keys m ≡ₚ k :: map_keys (map_delete m k).
Proof.
  unfold map_keys, map_delete. induction m as [|[k0 v0] m IH]; cbn [map fst]; [by intros _ ?%elem_of_nil|].
  intros [Hn Hd]%NoDup_cons Hk. cbn [List.filter fst]. destruct (decide (k0 = k)) as [->|Hne].
  - rewrite bool_decide_true by done. cbn [negb]. f_equiv.
    replace (List.filter _ m) with m; [done|]. symmetry. clear -Hn. induction m as [|[k1 v1] m IH]; [done|].
    cbn in *. apply not_elem_of_cons in Hn as [Hne Hn]. rewrite bool_decide_false by done. cbn. by rewrite IH.
  - rewrite bool_decide_false by done. cbn [negb map fst]. rewrite IH; [apply perm_swap|done|].
    by apply elem_of_cons in Hk as [->|].
Qed.

(** ** Every request settles once *)
Section Client.
Context {W : Type} (stream_write : text -> W -> answer * W).
Context (JSON_parse : text -> option js_value) (JSON_stringify : js_value -> text) (js_String : js_value -> string).
Context (has_requestHandler has_notificationHandler : bool).
Implicit Types c : client W.

Notation exec := (exec stream_write JSON_parse JSON_stringify js_String has_requestHandler has_notificationHandler).
Notation on_message := (fun m => encodeContentLengthFrame (JSON_stringify m)).

(** [held]: requests taken from the pending ones and not yet settled;
    [coming]: frames noted and not yet issued. *)
Record client_inv (held : list Z) (coming : list text) (c : client W) : Prop := {
  inv_next : (1 <= nextId c)%Z;
  inv_ids : (held ++ map_keys (pending c) ++ map fst (settlements c))%list ≡ₚ seqZ 1 (nextId c - 1);
  inv_disposed : disposed c = true -> pending c = [];
  inv_queue : queue_ok (writer c);
  inv_sent : map on_message (sent c) = (issued (writer c) ++ coming)%list;
}.
Definition client_ok c : Prop := client_inv [] [] c /\ active (writer c) = negb (disposed c).
Definition client_mid (held : list Z) c : Prop := client_inv held [] c /\ active (writer c) = negb (disposed c).

Lemma inv_NoDup held coming c : client_inv held coming c -> NoDup (held ++ map_keys (pending c) ++ map fst (settlements c))%list.
Proof using Type. intros H. rewrite (inv_ids _ _ _ H). apply NoDup_seqZ. Qed.

Lemma inv_pending held coming c : client_inv held coming c -> NoDup (map_keys (pending c)).
Proof using Type. intros (_ & _ & (H & _)%NoDup_app)%inv_NoDup%NoDup_app. exact H. Qed.

Lemma inv_bound held coming c id : client_inv held coming c -> id ∈ map_keys (pending c) -> (id < nextId c)%Z.
Proof using Type.
  intros Hi Hk. assert (id ∈ seqZ 1 (nextId c - 1)) as H; [|apply elem_of_seqZ in H; lia].
  rewrite <- (inv_ids _ _ _ Hi). apply elem_of_app. right. apply elem_of_app. by left.
Qed.

Lemma dispose_mid e held c : client_inv held [] c -> (disposed c = true -> active (writer c) = false) -> client_mid held (dispose e c).
Proof using Type.
  intros Hi Ha. unfold dispose. destruct (disposed c) eqn:Hd; [split; [done|by rewrite Ha, Hd]|].
  destruct Hi as [H1 H2 H3 H4 H5]. pose proof (handle_ok (fun _ w => ({| emitted := []; returned := Ok true |}, w)) (Dispose e) (writer c) H4) as Hq.
  split; [|unfold rejectPending, with_pending; cbn; unfold OrderedWriteQueue.dispose, OrderedWriteQueue.stop;
           destruct (active (writer c)) eqn:Hw; cbn; [done|by rewrite Hw]].
  split; cbn; try done.
  - rewrite List.map_app, List.map_map. change (map (fun x => fst (fst x, Rejected (Reason e))) (pending c)) with (map_keys (pending c)).
    rewrite <- H2. apply Permutation_app_head. apply Permutation_app_comm.
  - rewrite H5. unfold OrderedWriteQueue.dispose. by destruct (active (writer c)).
Qed.

Lemma fold_dispose_mid es held c :
  client_mid held c -> client_mid held (fold_left (fun c e => dispose e c) es c).
Proof using Type.
  revert c. induction es as [|e es IH]; intros c [Hi Ha]; [done|]. apply IH, dispose_mid; [done|]. rewrite Ha. by intros ->.
Qed.

Lemma on_writer_mid f l held c :
  writer_step f l -> client_inv held l c -> active (writer c) = negb (disposed c) -> client_mid held (on_writer f c).
Proof using Type.
  intros Hf [H1 H2 H3 H4 H5] Ha. unfold on_writer. pose proof (step_ok _ _ Hf _ H4) as Hq.
  assert (client_inv held [] (with_writer (f (writer c)) c)) as Hi.
  { split; cbn; try done. by rewrite H5, (step_issued _ _ Hf) by done; rewrite List.app_nil_r. }
  destruct (disposed c) eqn:Hd; cbn in Ha.
  - destruct (step_stopped _ _ Hf _ H4 Ha) as [Ha' Hr]. rewrite Hr, drop_all. cbn. split; [done|]. cbn. by rewrite Ha', Hd.
  - pose proof (active_loud _ H4 Ha) as Hl. pose proof (step_loud _ _ Hf _ Ha Hl) as Hl'. unfold loud in Hl, Hl'.
    rewrite Ha in Hl. rewrite Hl. cbn [length drop]. destruct (active (f (writer c))) eqn:Ha'.
    + rewrite Hl'. cbn. split; [done|]. cbn. by rewrite Ha', Hd.
    + destruct Hl' as [e He]. rewrite He. cbn. apply dispose_mid; [done|]. cbn. congruence.
Qed.

Lemma enqueue_mid message held c : client_mid held c -> client_mid held (enqueuePayload stream_write JSON_stringify message c).
Proof using Type.
  intros [[H1 H2 H3 H4 H5] Ha]. unfold enqueuePayload. eapply on_writer_mid; [apply write_step| |done].
  split; cbn; try done. rewrite List.map_app, H5, List.app_nil_r. done.
Qed.

Lemma writeJson_mid message held c : client_mid held c -> client_mid held (writeJsonRpcMessage stream_write JSON_stringify message c).
Proof using Type. intros Hc. unfold writeJsonRpcMessage. destruct (disposed c); [done|]. by apply enqueue_mid. Qed.

Lemma fault_ok e c : client_ok c -> client_ok (disposeForProtocolFault e c).
Proof using Type.
  intros [Hi Ha]. assert (client_mid [] (dispose e c)) as [[H1 H2 H3 H4 H5] Ha'].
  { apply dispose_mid; [done|]. rewrite Ha. by intros ->. }
  unfold disposeForProtocolFault. split; [by split|done].
Qed.

Lemma settle_ok id s c : client_ok c -> is_Some (map_get (pending c) id) -> client_ok (settle id s c).
Proof using Type.
  intros [Hi Ha] [r Hr%map_get_Some_key]. pose proof (inv_pending _ _ _ Hi) as Hn. destruct Hi as [H1 H2 H3 H4 H5].
  split; [|done]. split; cbn; try done.
  - rewrite <- H2. cbn. rewrite (keys_delete_perm (pending c) id Hn Hr). rewrite List.map_app. cbn.
    rewrite List.app_assoc, <- Permutation_cons_append. done.
  - intros Hd. by rewrite (H3 Hd).
Qed.

Lemma abortListener_ok id c : client_ok c -> client_ok (abortListener stream_write JSON_stringify id c).
Proof using Type.
  intros [Hi Ha]. unfold abortListener. destruct (map_get (pending c) id) as [r|] eqn:Hr; [|done]. apply map_get_Some_key in Hr.
  pose proof (inv_pending _ _ _ Hi) as Hn. destruct Hi as [H1 H2 H3 H4 H5].
  assert (client_mid [id] (with_pending (map_delete (pending c) id) (settlements c) c)) as Hm.
  { split; [|done]. split; cbn; try done.
    - rewrite <- H2. cbn. by rewrite (keys_delete_perm (pending c) id Hn Hr).
    - intros Hd. by rewrite (H3 Hd). }
  apply (writeJson_mid (VObj [("jsonrpc", VStr "2.0"); ("method", VStr "$/cancelRequest"); ("params", VObj [("id", VNum (NumInt id))])])) in Hm.
  fold (writeCancelNotification stream_write JSON_stringify id (with_pending (map_delete (pending c) id) (settlements c) c)) in Hm.
  destruct Hm as [[K1 K2 K3 K4 K5] Ka]. split; [|done]. split; cbn; try done.
  rewrite <- K2. rewrite List.map_app. cbn. rewrite List.app_assoc, <- Permutation_cons_append. done.
Qed.

Lemma fold_abort_ok ids c : client_ok c -> client_ok (fold_left (fun c id => abortListener stream_write JSON_stringify id c) ids c).
Proof using Type. revert c. induction ids as [|id ids IH]; intros c Hc; [done|]. by apply IH, abortListener_ok. Qed.

Lemma sendRequest_ok method params signal c :
  client_ok c -> client_ok (snd (sendRequest stream_write JSON_stringify method params signal c)).
Proof using Type.
  intros Hc. unfold sendRequest. destruct (disposed c) eqn:Hd; [exact Hc|].
  destruct (signal_aborted c signal); [exact Hc|]. destruct Hc as [Hi Ha]. cbn [snd].
  apply enqueue_mid. split; [|cbn; by rewrite Ha, Hd].
  assert (nextId c ∉ map_keys (pending c)) as Hnew by (intros Hk%(inv_bound _ _ _ _ Hi); lia).
  destruct Hi as [H1 H2 H3 H4 H5]. split; cbn [nextId pending settlements disposed writer sent]; [lia| |congruence|done|done].
  rewrite map_keys_set_new by done. replace (nextId c + 1 - 1)%Z with ((nextId c - 1) + 1)%Z by lia.
  rewrite seqZ_app by lia. replace (1 + (nextId c - 1))%Z with (nextId c) by lia. change (seqZ (nextId c) 1) with [nextId c].
  rewrite <- H2. cbn [app]. rewrite <- !List.app_assoc. apply Permutation_app_head. apply Permutation_app_comm.
Qed.

(** Parts of the client that the invariant does not speak of. *)
Lemma client_ok_ext c c' :
  client_ok c -> nextId c' = nextId c -> pending c' = pending c -> settlements c' = settlements c -> disposed c' = disposed c ->
  writer c' = writer c -> sent c' = sent c -> client_ok c'.
Proof using Type.
  intros [[H1 H2 H3 H4 H5] Ha] E1 E2 E3 E4 E5 E6. split; [|congruence].
  split; rewrite ?E1, ?E2, ?E3, ?E4, ?E5, ?E6; done.
Qed.

Lemma handleResponse_ok message c : client_ok c -> client_ok (handleResponse message c).
Proof using Type.
  intros Hc. unfold handleResponse. destruct (field message "id") as [[| |[id|]| | |]|]; try done.
  destruct (map_get (pending c) id) as [r|] eqn:Hr; [|done].
  destruct (field message "error") as [error|]; [|apply settle_ok; [done|by exists r]].
  destruct (requireStructuredRpcError error) as [e|e]; [|by apply fault_ok].
  eapply client_ok_ext; [eapply (settle_ok id (Rejected (JsonRpcStreamError e)) c); [done|by exists r]|done..].
Qed.

Lemma handlePayload_ok payload c :
  client_ok c -> client_ok (snd (handlePayload stream_write JSON_parse JSON_stringify has_requestHandler has_notificationHandler payload c)).
Proof using Type.
  intros Hc. unfold handlePayload. destruct (JSON_parse payload) as [message|]; [|done].
  assert (forall m p, client_ok (handleInboundNotification has_notificationHandler m p c)) as Hn.
  { intros m p. unfold handleInboundNotification. destruct has_notificationHandler; [|by apply fault_ok]. by eapply client_ok_ext. }
  assert (forall id m p, client_ok (handleInboundRequest stream_write JSON_stringify has_requestHandler id m p c)) as Hr.
  { intros id m p. unfold handleInboundRequest. destruct has_requestHandler; [by eapply client_ok_ext|]. by apply writeJson_mid. }
  assert (client_ok (handleResponse message c)) as Hs by by apply handleResponse_ok.
  destruct message; try done; cbn [snd]; (destruct (field _ "method") as [[| | |m| |]|]; try done; destruct (field _ "id"); auto).
Qed.

Lemma exec_ok ev c c' : client_ok c -> exec ev c = Some c' -> client_ok c'.
Proof using Type.
  intros Hc. assert (disposed c = true -> active (writer c) = false) as Hda by (destruct Hc as [_ ->]; by intros ->).
  assert (forall e, client_ok (dispose e c)) as Hdis by (intros e; apply dispose_mid; [apply Hc|done]).
  assert (forall f, writer_step f [] -> client_ok (on_writer f c)) as Hw.
  { intros f Hf. eapply on_writer_mid; [exact Hf|apply Hc|apply Hc]. }
  destruct ev as [method params signal|signal|chunk| |k r|k r|promise| |e| |e| |e]; cbn [JsonRpcStreamClient.exec].
  - intros [= <-]. by apply sendRequest_ok.
  - intros [= <-]. apply fold_abort_ok. by eapply client_ok_ext.
  - destruct (disposed c || negb (bool_decide (inbox c = []))); [done|]. intros [= <-]. unfold handleData.
    destruct (push _ (decoder_state c)) as [[ps|e] d]; [by eapply client_ok_ext|]. apply fault_ok. by eapply client_ok_ext.
  - destruct (inbox c) as [|payload rest]; [done|]. intros [= <-]. unfold nextPayload.
    pose proof (handlePayload_ok payload (with_inbox (decoder_state c) rest c) ltac:(by eapply client_ok_ext)) as Hp.
    destruct (handlePayload _ _ _ _ _ payload _) as [[u|e] c1]; [done|]. apply fault_ok. by eapply client_ok_ext.
  - destruct (calls c !! k) as [h|]; [|done]. cbn [mbind option_bind]. destruct (call_id h) as [id|]; [|done].
    destruct (call_open h); [|done]. intros [= <-]. apply writeJson_mid. by eapply (client_ok_ext c).
  - destruct (calls c !! k) as [h|]; [|done]. cbn [mbind option_bind]. destruct (call_id h) as [id|]; [done|].
    destruct (call_open h); [|done]. intros [= <-]. destruct r; [by eapply client_ok_ext|]. apply fault_ok. by eapply client_ok_ext.
  - destruct (List.find _ _) as [[p [e|]]|]; try done. intros [= <-]. apply Hdis.
  - intros [= <-]. apply Hw, drain_step.
  - intros [= <-]. apply Hw, fail_step.
  - intros [= <-]. apply Hw, fail_step.
  - destruct (disposed c); [done|]. intros [= <-]. apply Hdis.
  - destruct (disposed c); [done|]. intros [= <-]. apply Hdis.
  - intros [= <-]. apply Hdis.
Qed.

Definition client_step c c' : Prop := exists ev, exec ev c = Some c'.

Lemma new_client_ok w : client_ok (new_client w).
Proof using Type. split; [|done]. split; try done. apply new_queue_ok. Qed.

Lemma reachable_client_ok w c : rtc client_step (new_client w) c -> client_ok c.
Proof using Type.
  intros Hr. pose proof (new_client_ok w) as H0. revert H0. induction Hr as [|c1 c2 c3 [ev Hx] _ IH]; [done|].
  eauto using exec_ok.
Qed.

(** ** A response arrives *)

(** The whole of [handleData] when the handlers leave the client alone. *)
Definition drain_inbox (payloads : list text) c : client W :=
  fold_left (fun c payload => match inbox c with
                              | [] => c
                              | p :: rest => nextPayload stream_write JSON_parse JSON_stringify has_requestHandler has_notificationHandler p rest c
                              end) payloads c.
Definition receive (chunk : bytes) c : client W :=
  if disposed c then c else let c := handleData (ChunkBytes chunk) c in drain_inbox (inbox c) c.
Definition receive_all (chunks : list bytes) c : client W := fold_left (fun c chunk => receive chunk c) chunks c.

(** What a response says of its request; [None] is a response that breaks the
    contract. *)
Definition answer_of (message : js_value) : option settlement :=
  match field message "error" with
  | None => Some (Resolved (field message "result"))
  | Some error => match requireStructuredRpcError error with
                  | Ok e => Some (Rejected (JsonRpcStreamError e))
                  | Throw _ => None
                  end
  end.

Definition is_response (message : js_value) (id : Z) : bool :=
  isPlainRecord (Some message) && negb (match field message "method" with Some (VStr _) => true | _ => false end) &&
  match field message "id" with Some (VNum (NumInt z)) => Z.eqb z id | _ => false end.

Lemma nextPayload_answer payload message id s request d c :
  JSON_parse payload = Some message -> is_response message id = true -> answer_of message = Some s ->
  map_get (pending c) id = Some request ->
  let c' := nextPayload stream_write JSON_parse JSON_stringify has_requestHandler has_notificationHandler payload [] (with_inbox d [payload] c) in
  pending c' = map_delete (pending c) id /\ settlements c' = (settlements c ++ [(id, s)])%list /\
  disposed c' = disposed c /\ inbox c' = [] /\ decoder_state c' = d.
Proof using Type.
  intros Hp Hr Hs Hreq c'. subst c'. unfold nextPayload, handlePayload. rewrite Hp.
  unfold is_response in Hr. apply andb_true_iff in Hr as [[Hobj Hm]%andb_true_iff Hid].
  destruct message as [| | | | |fields]; try done.
  destruct (field (VObj fields) "id") as [[| |[z|]| | |]|] eqn:Hi; try done. apply Z.eqb_eq in Hid. subst z.
  destruct (field (VObj fields) "method") as [[| | | | |]|] eqn:Hmeth; try done; clear Hm;
    unfold handleResponse; rewrite Hi; cbn [pending with_inbox]; rewrite Hreq; unfold answer_of in Hs;
    (destruct (field (VObj fields) "error") as [error|]; [|by injection Hs as <-]);
    (destruct (requireStructuredRpcError error) as [e|e]; [|done]); by injection Hs as <-.
Qed.

Lemma receive_none chunk d c :
  disposed c = false -> push chunk (decoder_state c) = (Ok [], d) -> receive chunk c = with_inbox d [] c.
Proof using Type. intros Hd Hp. unfold receive. rewrite Hd. cbn zeta. unfold handleData. by rewrite Hp. Qed.

Lemma receive_one chunk payload d c :
  disposed c = false -> push chunk (decoder_state c) = (Ok [payload], d) ->
  receive chunk c = nextPayload stream_write JSON_parse JSON_stringify has_requestHandler has_notificationHandler payload [] (with_inbox d [payload] c).
Proof using Type. intros Hd Hp. unfold receive. rewrite Hd. cbn zeta. unfold handleData. by rewrite Hp. Qed.

Lemma push_all_cons chunk chunks d ps d' :
  push_all (chunk :: chunks) d = (Ok ps, d') ->
  exists ps1 d1 ps2, push chunk d = (Ok ps1, d1) /\ push_all chunks d1 = (Ok ps2, d') /\ ps = (ps1 ++ ps2)%list.
Proof using Type.
  cbn [push_all]. unfold mbind, method_bind. destruct (push chunk d) as [[ps1|e] d1]; [|done].
  destruct (push_all chunks d1) as [[ps2|e] d2] eqn:Hpa; [|done]. cbn. intros [= <- <-]. by exists ps1, d1, ps2.
Qed.

Lemma receive_all_none chunks d c :
  disposed c = false -> push_all chunks (decoder_state c) = (Ok [], d) ->
  exists c', receive_all chunks c = c' /\ pending c' = pending c /\ settlements c' = settlements c /\ disposed c' = false.
Proof using Type.
  revert c. induction chunks as [|chunk chunks IH]; intros c Hd; [by exists c|].
  intros (ps1 & d1 & ps2 & Hp & Hpa & Hps)%push_all_cons. symmetry in Hps. apply app_eq_nil in Hps as [-> ->].
  unfold receive_all. cbn [fold_left]. rewrite (receive_none _ _ _ Hd Hp).
  destruct (IH (with_inbox d1 [] c) Hd Hpa) as (c' & Hr & ? & ? & ?). by exists c'.
Qed.

Lemma receive_all_answer chunks payload message id s request d c :
  JSON_parse payload = Some message -> is_response message id = true -> answer_of message = Some s ->
  map_get (pending c) id = Some request -> disposed c = false ->
  push_all chunks (decoder_state c) = (Ok [payload], d) ->
  let c' := receive_all chunks c in
  pending c' = map_delete (pending c) id /\ settlements c' = (settlements c ++ [(id, s)])%list /\ disposed c' = false.
Proof using Type.
  intros Hparse Hresp Hans. revert c. induction chunks as [|chunk chunks IH]; intros c Hreq Hd; [done|].
  intros (ps1 & d1 & ps2 & Hp & Hpa & Hps)%push_all_cons. unfold receive_all. cbn [fold_left].
  destruct ps1 as [|p1 [|p2 ps1]]; cbn in Hps; [| |done].
  - subst ps2. rewrite (receive_none _ _ _ Hd Hp). apply (IH (with_inbox d1 [] c)); done.
  - injection Hps as <- <-. rewrite (receive_one _ _ _ _ Hd Hp).
    destruct (nextPayload_answer payload message id s request d1 c Hparse Hresp Hans Hreq) as (H1 & H2 & H3 & _ & H4).
    set (c1 := nextPayload _ _ _ _ _ payload [] _) in *.
    destruct (receive_all_none chunks d c1) as (c' & Hr & E1 & E2 & E3); [congruence|by rewrite H4|].
    unfold receive_all in Hr. rewrite Hr. split_and!; congruence.
Qed.
End Client.

(** C25: In every state the JSON-RPC client reaches, whatever the streams deliver, the peer answers, handlers do and
    callers abort, in any order: each request that got an id is either pending or was settled, and settled exactly
    once; once the client is disposed nothing is pending, so that every request has settled; and the writer is stopped
    exactly when the client is disposed. *)
Theorem requests_settle_once {W} (stream_write : text -> W -> answer * W) (JSON_parse : text -> option js_value)
    (JSON_stringify : js_value -> text) (js_String : js_value -> string) (has_rh has_nh : bool) (w : W) (c : client W) :
  rtc (client_step stream_write JSON_parse JSON_stringify js_String has_rh has_nh) (new_client w) c ->
  (map_keys (pending c) ++ map fst (settlements c))%list ≡ₚ seqZ 1 (nextId c - 1) /\
  NoDup (map_keys (pending c) ++ map fst (settlements c))%list /\
  (disposed c = true -> pending c = [] /\ map fst (settlements c) ≡ₚ seqZ 1 (nextId c - 1)) /\
  active (writer c) = negb (disposed c).
Proof.
  intros Hr%reachable_client_ok. destruct Hr as [Hi Ha]. pose proof (inv_NoDup _ _ _ _ Hi) as Hn.
  destruct Hi as [_ H2 H3 _ _]. split_and!; [done|done| |done]. intros Hd. pose proof (H3 Hd) as Hp.
  split; [done|]. by rewrite Hp in H2.
Qed.

(** The frame of a response to a pending request, cut into chunks anywhere, settles that request exactly as the
    response says, with its result or, where it carries a structured error that meets the contract, with that error;
    the other requests are untouched and the client stays open. *)
Theorem answer_delivered {W} (stream_write : text -> W -> answer * W) (JSON_parse : text -> option js_value)
    (JSON_stringify : js_value -> text) (has_rh has_nh : bool)
    (c : client W) (chunks : list bytes) (payload : text) (message : js_value) (id : Z) (s : settlement) (request : PendingRequest) :
  disposed c = false -> decoder_state c = new_decoder -> map_get (pending c) id = Some request ->
  well_formed payload = true -> JSON_parse payload = Some message -> is_response message id = true -> answer_of message = Some s ->
  List.concat chunks = utf8 (encodeContentLengthFrame payload) ->
  let c' := receive_all stream_write JSON_parse JSON_stringify has_rh has_nh chunks c in
  pending c' = map_delete (pending c) id /\ settlements c' = (settlements c ++ [(id, s)])%list /\ disposed c' = false.
Proof.
  intros Hd Hdec Hreq Hw Hp Hr Ha Hc. eapply receive_all_answer; [done..|]. rewrite Hdec.
  apply (decoded_frames [payload]); [by repeat constructor|]. cbn. by rewrite List.app_nil_r.
Qed.

(** C27: What the peer reads: in every reachable state, the bytes of the frames handed to the writable stream, cut into
    chunks anywhere, decode to exactly the JSON texts of the first messages sent, in the order they were sent, and
    nothing is left over; while the writer is open and does not wait for a drain, all messages sent are handed over. *)
Theorem messages_delivered {W} (stream_write : text -> W -> answer * W) (JSON_parse : text -> option js_value)
    (JSON_stringify : js_value -> text) (js_String : js_value -> string) (has_rh has_nh : bool) (w : W) (c : client W)
    (chunks : list bytes) :
  rtc (client_step stream_write JSON_parse JSON_stringify js_String has_rh has_nh) (new_client w) c ->
  (forall m, well_formed (JSON_stringify m) = true) ->
  List.concat chunks = List.concat (map utf8 (handed (writer c))) ->
  push_all chunks new_decoder = (Ok (take (length (handed (writer c))) (map JSON_stringify (sent c))), new_decoder) /\
  (active (writer c) = true -> waitingForDrain (writer c) = false -> length (handed (writer c)) = length (sent c)).
Proof.
  intros Hr Hw Hc. apply reachable_client_ok in Hr as [[_ _ _ Hq Hs] _]. rewrite List.app_nil_r in Hs.
  assert (handed (writer c) = take (length (handed (writer c))) (issued (writer c))) as Hh by by apply queue_handed.
  split.
  - apply decoded_frames; [apply Forall_take, Forall_forall; intros t (m & -> & _)%list_elem_of_fmap; apply Hw|].
    rewrite Hc, Hh, length_take. rewrite <- Hs at 1. rewrite <- !List.firstn_map, !List.map_map.
    f_equal. f_equal. rewrite Nat.min_l; [done|]. rewrite Hh at 1. rewrite length_take. lia.
  - intros Ha Hwait. apply (f_equal length) in Hs. rewrite length_map in Hs. rewrite Hs. by apply queue_all_handed.
Qed.

(** ** A run: a request, its cancellation by a second signal, and a response in two chunks *)
Definition sample_message : js_value := VObj [("jsonrpc", VStr "2.0"); ("id", VNum (NumInt 1)); ("result", VStr "ready")].
Definition sample_parse (t : text) : option js_value := if bool_decide (t = [49]%Z) then Some sample_message else None.
Definition sample_stringify (m : js_value) : text := [123; 125]%Z.
Definition sample_write (frame : text) (n : nat) : answer * nat := ({| emitted := []; returned := Ok true |}, S n).
Definition sample_exec := exec sample_write sample_parse sample_stringify (fun _ => "") true true.
Definition sample_run (evs : list event) : option (client nat) := fold_left (fun c ev => c ← c; sample_exec ev c) evs (Some (new_client 0)).
Definition sample_step := client_step sample_write sample_parse sample_stringify (fun _ => "") true true.

Lemma sample_run_reachable evs c : sample_run evs = Some c -> rtc sample_step (new_client 0) c.
Proof.
  unfold sample_run. revert c. induction evs as [|ev evs IH] using rev_ind; intros c; [by intros [= <-]|].
  rewrite fold_left_app. cbn. destruct (fold_left _ evs _) as [c1|]; [|done]. cbn. intros Hx.
  eapply rtc_r; [by apply IH|]. by exists ev.
Qed.

Definition two_requests : list event := [SendRequest "status/get" None (Some 3); SendRequest "initialize" None (Some 4); Abort 4].
Definition requested : client nat := Eval vm_compute in
  match sample_run two_requests with Some c => c | None => new_client 0 end.

Lemma requested_reachable : rtc sample_step (new_client 0) requested.
Proof. apply (sample_run_reachable two_requests). vm_compute. reflexivity. Qed.

Lemma requests_settle_once_witness :
  (map_keys (pending requested) ++ map fst (settlements requested))%list ≡ₚ [1; 2]%Z /\ settlements requested = [(2%Z, Rejected (JsonRpcRequestCancelledError 2))].
Proof.
  split; [|reflexivity].
  exact (proj1 (requests_settle_once sample_write sample_parse sample_stringify (fun _ => "") true true 0 requested requested_reachable)).
Defined.

Definition answer_frame : bytes := utf8 (encodeContentLengthFrame [49]%Z).
Lemma answer_delivered_witness :
  settlements (receive_all sample_write sample_parse sample_stringify true true [take 7 answer_frame; drop 7 answer_frame] requested) =
  [(2%Z, Rejected (JsonRpcRequestCancelledError 2)); (1%Z, Resolved (Some (VStr "ready")))].
Proof.
  apply (answer_delivered sample_write sample_parse sample_stringify true true requested [take 7 answer_frame; drop 7 answer_frame]
    [49]%Z sample_message 1 (Resolved (Some (VStr "ready"))) {| pending_method := "status/get"; pending_signal := Some 3 |});
    vm_compute; reflexivity.
Defined.

Lemma messages_delivered_witness :
  push_all [List.concat (map utf8 (handed (writer requested)))] new_decoder = (Ok [[123; 125]; [123; 125]; [123; 125]]%Z, new_decoder).
Proof.
  apply (messages_delivered sample_write sample_parse sample_stringify (fun _ => "") true true 0 requested
    [List.concat (map utf8 (handed (writer requested)))]).
  - exact requested_reachable.
  - intros m. reflexivity.
  - vm_compute. reflexivity.
Defined.
