(* ===== verification/OperationTypes.v ===== *)
(** operations/operationRunRpcClient.ts: the requests of the mutating
    operations and what the backend answers. *)

From Stdlib Require Import ZArith String List.
From stdpp Require Import base option list strings.
From S2P Require Import Prelude JsString JsValue StatusTypes.

Record OperationRequestIdentity := { repositoryId : string; epoch : Z }.

Record RevertOperationRequest := {
  revert_identity : OperationRequestIdentity;
  revert_paths : list string;
  revert_depth : StatusRefreshDepth;
  revert_changelists : list string;
  revert_clearChangelists : bool;
  revert_metadataOnly : bool;
  revert_addedKeepLocal : bool;
}.
Record AddOperationRequest := {
  add_identity : OperationRequestIdentity;
  add_paths : list string;
  add_depth : StatusRefreshDepth;
  add_force : bool;
  add_noIgnore : bool;
  add_noAutoprops : bool;
  add_addParents : bool;
}.
Record RemoveOperationRequest := {
  remove_identity : OperationRequestIdentity;
  remove_paths : list string;
  remove_force : bool;
  remove_keepLocal : bool;
}.
Record MoveOperationRequest := {
  move_identity : OperationRequestIdentity;
  move_sourcePath : string;
  move_destinationPath : string;
  move_makeParents : bool;
}.

Inductive ResolveOperationChoice := Working | Base | MineFull | TheirsFull | MineConflict | TheirsConflict.
Definition choice_name (c : ResolveOperationChoice) : string :=
  match c with
  | Working => "working" | Base => "base" | MineFull => "mineFull" | TheirsFull => "theirsFull"
  | MineConflict => "mineConflict" | TheirsConflict => "theirsConflict"
  end.

(** [depth] is always ["empty"], [path] always ["."]. *)
Record ResolveOperationRequest := {
  resolve_identity : OperationRequestIdentity;
  resolve_paths : list string;
  resolve_choice : ResolveOperationChoice;
}.
Record CleanupOperationRequest := {
  cleanup_identity : OperationRequestIdentity;
  cleanup_breakLocks : bool;
  cleanup_fixRecordedTimestamps : bool;
  cleanup_clearDavCache : bool;
  cleanup_vacuumPristines : bool;
  cleanup_includeExternals : bool;
}.
Record UpgradeOperationRequest := { upgrade_identity : OperationRequestIdentity }.

Definition MAX_SVN_REVNUM : Z := 2147483647.

Inductive UpdateOperationRevision := Head | Revision (z : Z).
Inductive UpdateOperationDepth := WorkingCopyDepth | AtDepth (d : StatusRefreshDepth).
Definition update_depth_name (d : UpdateOperationDepth) : string :=
  match d with WorkingCopyDepth => "workingCopy" | AtDepth d => depth_name d end.

Record UpdateOperationRequest := {
  update_identity : OperationRequestIdentity;
  update_path : string;
  update_revision : UpdateOperationRevision;
  update_depth : UpdateOperationDepth;
  update_depthIsSticky : bool;
  update_ignoreExternals : bool;
}.
Record BranchCreateOperationRequest := {
  branch_identity : OperationRequestIdentity;
  branch_sourceUrl : string;
  branch_destinationUrl : string;
  branch_revision : UpdateOperationRevision;
  branch_message : string;
  branch_makeParents : bool;
  branch_ignoreExternals : bool;
}.
Record SwitchOperationRequest := {
  switch_identity : OperationRequestIdentity;
  switch_path : string;
  switch_url : string;
  switch_revision : UpdateOperationRevision;
  switch_depth : UpdateOperationDepth;
  switch_depthIsSticky : bool;
  switch_ignoreExternals : bool;
  switch_ignoreAncestry : bool;
}.
Record RelocateOperationRequest := {
  relocate_identity : OperationRequestIdentity;
  relocate_fromUrl : string;
  relocate_toUrl : string;
  relocate_ignoreExternals : bool;
}.
Record MergeRangeOperationRequest := {
  merge_identity : OperationRequestIdentity;
  merge_sourceUrl : string;
  merge_targetPath : string;
  merge_startRevision : Z;
  merge_endRevision : Z;
  merge_depth : StatusRefreshDepth;
  merge_ignoreMergeinfo : bool;
  merge_diffIgnoreAncestry : bool;
  merge_forceDelete : bool;
  merge_recordOnly : bool;
  merge_dryRun : bool;
  merge_allowMixedRevisions : bool;
}.
Record PropertySetOperationRequest := {
  propset_identity : OperationRequestIdentity;
  propset_path : string;
  propset_name : string;
  propset_value : string;
}.
Record PropertyDeleteOperationRequest := {
  propdel_identity : OperationRequestIdentity;
  propdel_path : string;
  propdel_name : string;
}.
Record ChangelistSetOperationRequest := {
  clset_identity : OperationRequestIdentity;
  clset_paths : list string;
  clset_depth : StatusRefreshDepth;
  clset_changelist : string;
  clset_changelists : list string;
}.
Record ChangelistClearOperationRequest := {
  clclear_identity : OperationRequestIdentity;
  clclear_paths : list string;
  clclear_depth : StatusRefreshDepth;
  clclear_changelists : list string;
}.
Record LockOperationRequest := {
  lock_identity : OperationRequestIdentity;
  lock_paths : list string;
  lock_comment : option string;
  lock_stealLock : bool;
}.
Record UnlockOperationRequest := {
  unlock_identity : OperationRequestIdentity;
  unlock_paths : list string;
  unlock_breakLock : bool;
}.
(** [depth] is ["empty"] and the five flags are [false]. *)
Record CommitOperationRequest := {
  commit_identity : OperationRequestIdentity;
  commit_paths : list string;
  commit_message : string;
  commit_changelists : list string;
}.

Record OperationWarning := {
  warning_code : string;
  warning_messageKey : string;
  warning_args : list (string * js_value);
}.
Record OperationSummary := { affectedPaths : Z; skippedPaths : Z }.
Record OperationReconcileHint := {
  targets : list StatusRefreshTarget;
  requiresFullReconcile : bool;
}.
Record OperationRunResponse := {
  response_identity : OperationRequestIdentity;
  operationId : string;
  kind : string;
  touchedPaths : list string;
  revision : option Z;
  summary : OperationSummary;
  warnings : list OperationWarning;
  reconcile : OperationReconcileHint;
}.
