(* ===== verification/OperationClient.v ===== *)
(** operations/operationRunRpcClient.ts: requests of the mutating operations
    are validated and sent, and the answers validated against them.

    [send] stands for the JSON-RPC sender: the raw answer to "operation/run"
    with the given parameters, or what the sender rejected with. *)

From Stdlib Require Import ZArith String List Ascii.
From stdpp Require Import base option list strings.
From S2P Require Import Prelude JsString JsMap JsValue StatusTypes StatusWire OperationTypes.

Local Open Scope string_scope.

Module OperationRunRpcClient.

Definition invalidOperationRequest (f : string) : js_error :=
  StructuredError "OperationRunResponseError" "SUBVERSIONR_OPERATION_RUN_REQUEST_INVALID" "input"
    "error.operation.runRequestInvalid" [("field", ArgString f)].
Definition invalidOperationResponse (f : string) : js_error :=
  StructuredError "OperationRunResponseError" "SUBVERSIONR_OPERATION_RUN_RESPONSE_INVALID" "protocol"
    "error.operation.runResponseInvalid" [("field", ArgString f)].

(** The characters the validators look for. *)
Definition NUL : ascii := "000".
Definition CR : ascii := "013".
Definition LF : ascii := "010".

(** Here a backslash is refused, where the status clients read it as a slash. *)
Definition isRepositoryRelativePath (path : string) : bool :=
  if bool_decide (path = ".") then true
  else
    let normalized := replaceAll path backslash slash in
    if includes path backslash || startsWith normalized "/" || includes normalized ":" || includes normalized NUL
    then false
    else forallb safe_segment (split normalized slash).

(** ** Fields *)
Section Fields.
(** [invalidOperationRequest] or [invalidOperationResponse]: the [source]. *)
Variable invalid : string -> js_error.

Definition requirePathOf (v : option js_value) (f : string) : result string :=
  path ← requireString invalid v f;
  _ ← require (isRepositoryRelativePath path) (invalid f);
  Ok path.

Definition requireDepth (v : option js_value) (f : string) : result StatusRefreshDepth :=
  depth ← requireString invalid v f;
  if bool_decide (depth = "empty") then Ok DEmpty
  else if bool_decide (depth = "files") then Ok DFiles
  else if bool_decide (depth = "immediates") then Ok DImmediates
  else if bool_decide (depth = "infinity") then Ok DInfinity
  else Throw (invalid f).
End Fields.

Definition requireRequestString := requireString invalidOperationRequest.
Definition requireResponseString := requireString invalidOperationResponse.
Definition requireRequestPath := requirePathOf invalidOperationRequest.
Definition requireResponsePath := requirePathOf invalidOperationResponse.
Definition requireResponseRecord := requireRecord invalidOperationResponse.
Definition requireExactResponseKeys := requireExactKeys invalidOperationResponse.
Definition requireRequestBoolean := requireBoolean invalidOperationRequest.

Definition requireExactRequestKeys (v : js_value) (expected : list string) : result unit :=
  eachi (fun _ key => require (bool_decide (key ∈ expected)) (invalidOperationRequest key)) (keys v).

Definition requirePathArray (v : option js_value) (f : string) (allowEmpty : bool) : result (list string) :=
  match v with
  | Some (VArr items) =>
      _ ← require (allowEmpty || negb (Nat.eqb (length items) 0)) (invalidOperationRequest f);
      mapi (fun index path => requireRequestPath (Some path) (at_index f index)) items
  | _ => Throw (invalidOperationRequest f)
  end.

Definition requireSinglePathArray (v : option js_value) (f : string) : result (list string) :=
  paths ← requirePathArray v f false;
  _ ← require (Nat.eqb (length paths) 1) (invalidOperationRequest f);
  Ok paths.

(** The loop over [paths.entries()] with its [seen]; [root_allowed] is whether
    ["."] passes. *)
Fixpoint distinct_loop (root_allowed : bool) (f : string) (seen : list string) (index : nat) (paths : list string) : result unit :=
  match paths with
  | [] => Ok tt
  | path :: paths' =>
      _ ← require (negb ((negb root_allowed && bool_decide (path = ".")) || set_has seen path)) (invalidOperationRequest (at_index f index));
      distinct_loop root_allowed f (set_add seen path) (S index) paths'
  end.

Definition requireDistinctPathArray (v : option js_value) (f : string) : result (list string) :=
  paths ← requirePathArray v f false;
  _ ← distinct_loop true f [] 0 paths;
  Ok paths.
Definition requireCommitPathArray (v : option js_value) (f : string) : result (list string) :=
  paths ← requirePathArray v f false;
  _ ← distinct_loop false f [] 0 paths;
  Ok paths.
Definition requireLockPathArray (v : option js_value) (f : string) : result (list string) :=
  paths ← requirePathArray v f false;
  _ ← distinct_loop false f [] 0 paths;
  Ok paths.

Definition requireResponsePathArray (v : option js_value) (f : string) (allowEmpty : bool) : result (list string) :=
  match v with
  | Some (VArr items) =>
      _ ← require (allowEmpty || negb (Nat.eqb (length items) 0)) (invalidOperationResponse f);
      mapi (fun index path => requireResponsePath (Some path) (at_index f index)) items
  | _ => Throw (invalidOperationResponse f)
  end.

Definition requireChangelistName (v : option js_value) (f : string) : result string :=
  changelist ← requireRequestString v f;
  _ ← require (negb (includes changelist NUL || includes changelist CR || includes changelist LF)) (invalidOperationRequest f);
  Ok changelist.

Fixpoint changelist_loop (f : string) (seen : list string) (index : nat) (items : list js_value) : result (list string) :=
  match items with
  | [] => Ok []
  | item :: items' =>
      changelist ← requireChangelistName (Some item) (at_index f index);
      _ ← require (negb (set_has seen changelist)) (invalidOperationRequest (at_index f index));
      rest ← changelist_loop f (set_add seen changelist) (S index) items';
      Ok (changelist :: rest)
  end.
Definition requireChangelistArray (v : option js_value) (f : string) (allowEmpty : bool) : result (list string) :=
  match v with
  | Some (VArr items) =>
      _ ← require (allowEmpty || negb (Nat.eqb (length items) 0)) (invalidOperationRequest f);
      changelist_loop f [] 0 items
  | _ => Throw (invalidOperationRequest f)
  end.

Definition requireRevision (v : option js_value) (f : string) : result (option Z) :=
  match v with
  | Some VNull => Ok None
  | _ => z ← requireInteger invalidOperationResponse v f; Ok (Some z)
  end.

Definition requireRootPath (v : option js_value) (f : string) : result unit :=
  path ← requireRequestString v f;
  require (bool_decide (path = ".")) (invalidOperationRequest f).

Definition requireMovePath (v : option js_value) (f : string) : result string :=
  path ← requireRequestPath v f;
  _ ← require (negb (bool_decide (path = "."))) (invalidOperationRequest f);
  Ok path.

Definition requireResolveChoice (v : option js_value) (f : string) : result ResolveOperationChoice :=
  choice ← requireRequestString v f;
  if bool_decide (choice = "working") then Ok Working
  else if bool_decide (choice = "base") then Ok Base
  else if bool_decide (choice = "mineFull") then Ok MineFull
  else if bool_decide (choice = "theirsFull") then Ok TheirsFull
  else if bool_decide (choice = "mineConflict") then Ok MineConflict
  else if bool_decide (choice = "theirsConflict") then Ok TheirsConflict
  else Throw (invalidOperationRequest f).

Definition requireResolveDepth (v : option js_value) (f : string) : result unit :=
  depth ← requireRequestString v f;
  require (bool_decide (depth = "empty")) (invalidOperationRequest f).
Definition requireCommitDepth (v : option js_value) (f : string) : result unit := requireResolveDepth v f.

Definition requireCommitMessage (v : option js_value) (f : string) : result string :=
  message ← requireRequestString v f;
  _ ← require (negb (includes message NUL || includes message CR)) (invalidOperationRequest f);
  Ok message.

Definition requireRepositoryUrl (v : option js_value) (f : string) : result string :=
  url ← requireRequestString v f;
  _ ← require (negb (includes url NUL || includes url CR || includes url LF)) (invalidOperationRequest f);
  Ok url.

Definition requireLockComment (v : option js_value) (f : string) : result (option string) :=
  match v with
  | Some VNull => Ok None
  | _ =>
      comment ← requireRequestString v f;
      _ ← require (negb (includes comment NUL || includes comment CR)) (invalidOperationRequest f);
      Ok (Some comment)
  end.

(** [part.length > 0 && /^[A-Za-z0-9._-]+$/u.test(part)] *)
Definition is_property_char (c : ascii) : bool :=
  let n := nat_of_ascii c in
  (Nat.leb 65 n && Nat.leb n 90) || (Nat.leb 97 n && Nat.leb n 122) || (Nat.leb 48 n && Nat.leb n 57) ||
  Nat.eqb n 46 || Nat.eqb n 95 || Nat.eqb n 45.
Definition isPropertyNamePart (part : string) : bool :=
  negb (bool_decide (part = "")) && forallb is_property_char (list_ascii_of_string part).

Definition requirePropertyName (v : option js_value) (f : string) : result string :=
  name ← requireRequestString v f;
  _ ← require (negb (includes name NUL || includes name CR || includes name LF) && forallb isPropertyNamePart (split name ":"%char))
        (invalidOperationRequest f);
  Ok name.

Definition requirePropertyValue (v : option js_value) (f : string) : result string :=
  match v with
  | Some (VStr s) => _ ← require (negb (includes s NUL || includes s CR)) (invalidOperationRequest f); Ok s
  | _ => Throw (invalidOperationRequest f)
  end.

Definition requireMergeRevision (v : option js_value) (f : string) : result Z :=
  z ← requireNonNegativeInteger invalidOperationRequest v f;
  _ ← require (Z.leb z MAX_SVN_REVNUM) (invalidOperationRequest f);
  Ok z.
Definition requireUpdateRevision (v : option js_value) (f : string) : result UpdateOperationRevision :=
  match v with
  | Some (VStr s) => if bool_decide (s = "head") then Ok Head else Throw (invalidOperationRequest f)
  | _ => z ← requireMergeRevision v f; Ok (Revision z)
  end.

Definition requireUpdateDepth (v : option js_value) (f : string) : result UpdateOperationDepth :=
  depth ← requireRequestString v f;
  if bool_decide (depth = "workingCopy") then Ok WorkingCopyDepth
  else if bool_decide (depth = "empty") then Ok (AtDepth DEmpty)
  else if bool_decide (depth = "files") then Ok (AtDepth DFiles)
  else if bool_decide (depth = "immediates") then Ok (AtDepth DImmediates)
  else if bool_decide (depth = "infinity") then Ok (AtDepth DInfinity)
  else Throw (invalidOperationRequest f).

Definition requireFalse (v : option js_value) (f : string) : result unit :=
  b ← requireRequestBoolean v f;
  require (negb b) (invalidOperationRequest f).

(** ** Requests *)

(** What every [validate...Request] begins with, and its first two fields. *)
Definition requestRecord (request : option js_value) (expected : list string) : result js_value :=
  record ← requireRecord (fun _ => invalidOperationRequest "repositoryId") request "";
  _ ← requireExactRequestKeys record expected;
  Ok record.
Definition requireIdentity (record : js_value) : result OperationRequestIdentity :=
  repositoryId ← requireRequestString (field record "repositoryId") "repositoryId";
  epoch ← requireNonNegativeInteger invalidOperationRequest (field record "epoch") "epoch";
  Ok {| repositoryId := repositoryId; epoch := epoch |}.

Definition validatePropertySetRequest (request : option js_value) : result PropertySetOperationRequest :=
  r ← requestRecord request ["repositoryId"; "epoch"; "path"; "name"; "value"];
  identity ← requireIdentity r;
  path ← requireRequestPath (field r "path") "path";
  name ← requirePropertyName (field r "name") "name";
  value ← requirePropertyValue (field r "value") "value";
  Ok {| propset_identity := identity; propset_path := path; propset_name := name; propset_value := value |}.

Definition validatePropertyDeleteRequest (request : option js_value) : result PropertyDeleteOperationRequest :=
  r ← requestRecord request ["repositoryId"; "epoch"; "path"; "name"];
  identity ← requireIdentity r;
  path ← requireRequestPath (field r "path") "path";
  name ← requirePropertyName (field r "name") "name";
  Ok {| propdel_identity := identity; propdel_path := path; propdel_name := name |}.

Definition validateChangelistSetRequest (request : option js_value) : result ChangelistSetOperationRequest :=
  r ← requestRecord request ["repositoryId"; "epoch"; "paths"; "depth"; "changelist"; "changelists"];
  identity ← requireIdentity r;
  paths ← requireDistinctPathArray (field r "paths") "paths";
  depth ← requireDepth invalidOperationRequest (field r "depth") "depth";
  changelist ← requireChangelistName (field r "changelist") "changelist";
  changelists ← requireChangelistArray (field r "changelists") "changelists" true;
  Ok {| clset_identity := identity; clset_paths := paths; clset_depth := depth; clset_changelist := changelist;
        clset_changelists := changelists |}.

Definition validateChangelistClearRequest (request : option js_value) : result ChangelistClearOperationRequest :=
  r ← requestRecord request ["repositoryId"; "epoch"; "paths"; "depth"; "changelists"];
  identity ← requireIdentity r;
  paths ← requireDistinctPathArray (field r "paths") "paths";
  depth ← requireDepth invalidOperationRequest (field r "depth") "depth";
  changelists ← requireChangelistArray (field r "changelists") "changelists" true;
  Ok {| clclear_identity := identity; clclear_paths := paths; clclear_depth := depth; clclear_changelists := changelists |}.

Definition validateLockRequest (request : option js_value) : result LockOperationRequest :=
  r ← requestRecord request ["repositoryId"; "epoch"; "paths"; "comment"; "stealLock"];
  identity ← requireIdentity r;
  paths ← requireLockPathArray (field r "paths") "paths";
  comment ← requireLockComment (field r "comment") "comment";
  stealLock ← requireRequestBoolean (field r "stealLock") "stealLock";
  Ok {| lock_identity := identity; lock_paths := paths; lock_comment := comment; lock_stealLock := stealLock |}.

Definition validateUnlockRequest (request : option js_value) : result UnlockOperationRequest :=
  r ← requestRecord request ["repositoryId"; "epoch"; "paths"; "breakLock"];
  identity ← requireIdentity r;
  paths ← requireLockPathArray (field r "paths") "paths";
  breakLock ← requireRequestBoolean (field r "breakLock") "breakLock";
  Ok {| unlock_identity := identity; unlock_paths := paths; unlock_breakLock := breakLock |}.

Definition validateCommitRequest (request : option js_value) : result CommitOperationRequest :=
  r ← requestRecord request ["repositoryId"; "epoch"; "paths"; "message"; "depth"; "changelists"; "keepLocks";
        "keepChangelists"; "commitAsOperations"; "includeFileExternals"; "includeDirExternals"];
  changelists ← requireChangelistArray (field r "changelists") "changelists" true;
  identity ← requireIdentity r;
  paths ← requireCommitPathArray (field r "paths") "paths";
  message ← requireCommitMessage (field r "message") "message";
  _ ← requireCommitDepth (field r "depth") "depth";
  _ ← requireFalse (field r "keepLocks") "keepLocks";
  _ ← requireFalse (field r "keepChangelists") "keepChangelists";
  _ ← requireFalse (field r "commitAsOperations") "commitAsOperations";
  _ ← requireFalse (field r "includeFileExternals") "includeFileExternals";
  _ ← requireFalse (field r "includeDirExternals") "includeDirExternals";
  Ok {| commit_identity := identity; commit_paths := paths; commit_message := message; commit_changelists := changelists |}.

Definition validateUpdateRequest (request : option js_value) : result UpdateOperationRequest :=
  r ← requestRecord request ["repositoryId"; "epoch"; "path"; "revision"; "depth"; "depthIsSticky"; "ignoreExternals"];
  depth ← requireUpdateDepth (field r "depth") "depth";
  depthIsSticky ← requireRequestBoolean (field r "depthIsSticky") "depthIsSticky";
  _ ← require (negb (match depth with WorkingCopyDepth => depthIsSticky | _ => false end)) (invalidOperationRequest "depthIsSticky");
  identity ← requireIdentity r;
  path ← requireRequestPath (field r "path") "path";
  revision ← requireUpdateRevision (field r "revision") "revision";
  ignoreExternals ← requireRequestBoolean (field r "ignoreExternals") "ignoreExternals";
  Ok {| update_identity := identity; update_path := path; update_revision := revision; update_depth := depth;
        update_depthIsSticky := depthIsSticky; update_ignoreExternals := ignoreExternals |}.

Definition validateBranchCreateRequest (request : option js_value) : result BranchCreateOperationRequest :=
  r ← requestRecord request ["repositoryId"; "epoch"; "sourceUrl"; "destinationUrl"; "revision"; "message"; "makeParents"; "ignoreExternals"];
  sourceUrl ← requireRepositoryUrl (field r "sourceUrl") "sourceUrl";
  destinationUrl ← requireRepositoryUrl (field r "destinationUrl") "destinationUrl";
  _ ← require (negb (bool_decide (destinationUrl = sourceUrl))) (invalidOperationRequest "destinationUrl");
  identity ← requireIdentity r;
  revision ← requireUpdateRevision (field r "revision") "revision";
  message ← requireCommitMessage (field r "message") "message";
  makeParents ← requireRequestBoolean (field r "makeParents") "makeParents";
  ignoreExternals ← requireRequestBoolean (field r "ignoreExternals") "ignoreExternals";
  Ok {| branch_identity := identity; branch_sourceUrl := sourceUrl; branch_destinationUrl := destinationUrl;
        branch_revision := revision; branch_message := message; branch_makeParents := makeParents;
        branch_ignoreExternals := ignoreExternals |}.

Definition validateSwitchRequest (request : option js_value) : result SwitchOperationRequest :=
  r ← requestRecord request ["repositoryId"; "epoch"; "path"; "url"; "revision"; "depth"; "depthIsSticky"; "ignoreExternals"; "ignoreAncestry"];
  depth ← requireUpdateDepth (field r "depth") "depth";
  depthIsSticky ← requireRequestBoolean (field r "depthIsSticky") "depthIsSticky";
  _ ← require (negb (match depth with WorkingCopyDepth => depthIsSticky | _ => false end)) (invalidOperationRequest "depthIsSticky");
  identity ← requireIdentity r;
  path ← requireRequestPath (field r "path") "path";
  url ← requireRepositoryUrl (field r "url") "url";
  revision ← requireUpdateRevision (field r "revision") "revision";
  ignoreExternals ← requireRequestBoolean (field r "ignoreExternals") "ignoreExternals";
  ignoreAncestry ← requireRequestBoolean (field r "ignoreAncestry") "ignoreAncestry";
  Ok {| switch_identity := identity; switch_path := path; switch_url := url; switch_revision := revision; switch_depth := depth;
        switch_depthIsSticky := depthIsSticky; switch_ignoreExternals := ignoreExternals; switch_ignoreAncestry := ignoreAncestry |}.

Definition validateRelocateRequest (request : option js_value) : result RelocateOperationRequest :=
  r ← requestRecord request ["repositoryId"; "epoch"; "fromUrl"; "toUrl"; "ignoreExternals"];
  fromUrl ← requireRepositoryUrl (field r "fromUrl") "fromUrl";
  toUrl ← requireRepositoryUrl (field r "toUrl") "toUrl";
  _ ← require (negb (bool_decide (fromUrl = toUrl))) (invalidOperationRequest "toUrl");
  identity ← requireIdentity r;
  ignoreExternals ← requireRequestBoolean (field r "ignoreExternals") "ignoreExternals";
  Ok {| relocate_identity := identity; relocate_fromUrl := fromUrl; relocate_toUrl := toUrl; relocate_ignoreExternals := ignoreExternals |}.

Definition validateMergeRangeRequest (request : option js_value) : result MergeRangeOperationRequest :=
  r ← requestRecord request ["repositoryId"; "epoch"; "sourceUrl"; "targetPath"; "startRevision"; "endRevision"; "depth";
        "ignoreMergeinfo"; "diffIgnoreAncestry"; "forceDelete"; "recordOnly"; "dryRun"; "allowMixedRevisions"];
  startRevision ← requireMergeRevision (field r "startRevision") "startRevision";
  endRevision ← requireMergeRevision (field r "endRevision") "endRevision";
  _ ← require (negb (Z.eqb startRevision endRevision)) (invalidOperationRequest "endRevision");
  identity ← requireIdentity r;
  sourceUrl ← requireRepositoryUrl (field r "sourceUrl") "sourceUrl";
  targetPath ← requireRequestPath (field r "targetPath") "targetPath";
  depth ← requireDepth invalidOperationRequest (field r "depth") "depth";
  ignoreMergeinfo ← requireRequestBoolean (field r "ignoreMergeinfo") "ignoreMergeinfo";
  diffIgnoreAncestry ← requireRequestBoolean (field r "diffIgnoreAncestry") "diffIgnoreAncestry";
  forceDelete ← requireRequestBoolean (field r "forceDelete") "forceDelete";
  recordOnly ← requireRequestBoolean (field r "recordOnly") "recordOnly";
  dryRun ← requireRequestBoolean (field r "dryRun") "dryRun";
  allowMixedRevisions ← requireRequestBoolean (field r "allowMixedRevisions") "allowMixedRevisions";
  Ok {| merge_identity := identity; merge_sourceUrl := sourceUrl; merge_targetPath := targetPath;
        merge_startRevision := startRevision; merge_endRevision := endRevision; merge_depth := depth;
        merge_ignoreMergeinfo := ignoreMergeinfo; merge_diffIgnoreAncestry := diffIgnoreAncestry;
        merge_forceDelete := forceDelete; merge_recordOnly := recordOnly; merge_dryRun := dryRun;
        merge_allowMixedRevisions := allowMixedRevisions |}.

Definition validateResolveRequest (request : option js_value) : result ResolveOperationRequest :=
  r ← requestRecord request ["repositoryId"; "epoch"; "paths"; "depth"; "choice"];
  identity ← requireIdentity r;
  paths ← requireSinglePathArray (field r "paths") "paths";
  _ ← requireResolveDepth (field r "depth") "depth";
  choice ← requireResolveChoice (field r "choice") "choice";
  Ok {| resolve_identity := identity; resolve_paths := paths; resolve_choice := choice |}.

Definition validateCleanupRequest (request : option js_value) : result CleanupOperationRequest :=
  r ← requestRecord request ["repositoryId"; "epoch"; "path"; "breakLocks"; "fixRecordedTimestamps"; "clearDavCache";
        "vacuumPristines"; "includeExternals"];
  identity ← requireIdentity r;
  _ ← requireRootPath (field r "path") "path";
  breakLocks ← requireRequestBoolean (field r "breakLocks") "breakLocks";
  fixRecordedTimestamps ← requireRequestBoolean (field r "fixRecordedTimestamps") "fixRecordedTimestamps";
  clearDavCache ← requireRequestBoolean (field r "clearDavCache") "clearDavCache";
  vacuumPristines ← requireRequestBoolean (field r "vacuumPristines") "vacuumPristines";
  includeExternals ← requireRequestBoolean (field r "includeExternals") "includeExternals";
  Ok {| cleanup_identity := identity; cleanup_breakLocks := breakLocks; cleanup_fixRecordedTimestamps := fixRecordedTimestamps;
        cleanup_clearDavCache := clearDavCache; cleanup_vacuumPristines := vacuumPristines; cleanup_includeExternals := includeExternals |}.

Definition validateUpgradeRequest (request : option js_value) : result UpgradeOperationRequest :=
  r ← requestRecord request ["repositoryId"; "epoch"; "path"];
  identity ← requireIdentity r;
  _ ← requireRootPath (field r "path") "path";
  Ok {| upgrade_identity := identity |}.

Definition validateAddRequest (request : option js_value) : result AddOperationRequest :=
  r ← requestRecord request ["repositoryId"; "epoch"; "paths"; "depth"; "force"; "noIgnore"; "noAutoprops"; "addParents"];
  identity ← requireIdentity r;
  paths ← requireSinglePathArray (field r "paths") "paths";
  depth ← requireDepth invalidOperationRequest (field r "depth") "depth";
  force ← requireRequestBoolean (field r "force") "force";
  noIgnore ← requireRequestBoolean (field r "noIgnore") "noIgnore";
  noAutoprops ← requireRequestBoolean (field r "noAutoprops") "noAutoprops";
  addParents ← requireRequestBoolean (field r "addParents") "addParents";
  Ok {| add_identity := identity; add_paths := paths; add_depth := depth; add_force := force; add_noIgnore := noIgnore;
        add_noAutoprops := noAutoprops; add_addParents := addParents |}.

Definition validateRemoveRequest (request : option js_value) : result RemoveOperationRequest :=
  r ← requestRecord request ["repositoryId"; "epoch"; "paths"; "force"; "keepLocal"];
  identity ← requireIdentity r;
  paths ← requireDistinctPathArray (field r "paths") "paths";
  force ← requireRequestBoolean (field r "force") "force";
  keepLocal ← requireRequestBoolean (field r "keepLocal") "keepLocal";
  Ok {| remove_identity := identity; remove_paths := paths; remove_force := force; remove_keepLocal := keepLocal |}.

Definition validateMoveRequest (request : option js_value) : result MoveOperationRequest :=
  r ← requestRecord request ["repositoryId"; "epoch"; "sourcePath"; "destinationPath"; "makeParents"];
  sourcePath ← requireMovePath (field r "sourcePath") "sourcePath";
  destinationPath ← requireMovePath (field r "destinationPath") "destinationPath";
  _ ← require (negb (bool_decide (destinationPath = sourcePath))) (invalidOperationRequest "destinationPath");
  identity ← requireIdentity r;
  makeParents ← requireRequestBoolean (field r "makeParents") "makeParents";
  Ok {| move_identity := identity; move_sourcePath := sourcePath; move_destinationPath := destinationPath; move_makeParents := makeParents |}.

Definition validateRevertRequest (request : option js_value) : result RevertOperationRequest :=
  r ← requestRecord request ["repositoryId"; "epoch"; "paths"; "depth"; "changelists"; "clearChangelists"; "metadataOnly"; "addedKeepLocal"];
  identity ← requireIdentity r;
  paths ← requirePathArray (field r "paths") "paths" false;
  depth ← requireDepth invalidOperationRequest (field r "depth") "depth";
  changelists ← requireChangelistArray (field r "changelists") "changelists" true;
  clearChangelists ← requireRequestBoolean (field r "clearChangelists") "clearChangelists";
  metadataOnly ← requireRequestBoolean (field r "metadataOnly") "metadataOnly";
  addedKeepLocal ← requireRequestBoolean (field r "addedKeepLocal") "addedKeepLocal";
  Ok {| revert_identity := identity; revert_paths := paths; revert_depth := depth; revert_changelists := changelists;
        revert_clearChangelists := clearChangelists; revert_metadataOnly := metadataOnly; revert_addedKeepLocal := addedKeepLocal |}.

(** ** Answers *)
Definition parseOperationSummary (raw : option js_value) (f : string) : result OperationSummary :=
  summary ← requireResponseRecord raw f;
  _ ← requireExactResponseKeys summary f ["affectedPaths"; "skippedPaths"];
  affectedPaths ← requireNonNegativeInteger invalidOperationResponse (field summary "affectedPaths") (dot f "affectedPaths");
  skippedPaths ← requireNonNegativeInteger invalidOperationResponse (field summary "skippedPaths") (dot f "skippedPaths");
  Ok {| affectedPaths := affectedPaths; skippedPaths := skippedPaths |}.

Definition parseWarning (raw : js_value) (f : string) : result OperationWarning :=
  warning ← requireResponseRecord (Some raw) f;
  _ ← requireExactResponseKeys warning f ["code"; "messageKey"; "args"];
  match field warning "args" with
  | Some (VObj args) =>
      code ← requireResponseString (field warning "code") (dot f "code");
      messageKey ← requireResponseString (field warning "messageKey") (dot f "messageKey");
      Ok {| warning_code := code; warning_messageKey := messageKey; warning_args := args |}
  | _ => Throw (invalidOperationResponse (dot f "args"))
  end.

Definition parseWarnings (raw : option js_value) (f : string) : result (list OperationWarning) :=
  items ← requireArray invalidOperationResponse raw f;
  mapi (fun index warning => parseWarning warning (at_index f index)) items.

Definition parseTarget (raw : js_value) (f : string) : result StatusRefreshTarget :=
  target ← requireResponseRecord (Some raw) f;
  _ ← requireExactResponseKeys target f ["path"; "depth"; "reason"];
  path ← requireResponsePath (field target "path") (dot f "path");
  depth ← requireDepth invalidOperationResponse (field target "depth") (dot f "depth");
  reason ← requireResponseString (field target "reason") (dot f "reason");
  Ok {| target_path := path; target_depth := depth; target_reason := reason |}.

Definition parseTargets (raw : option js_value) (f : string) : result (list StatusRefreshTarget) :=
  items ← requireArray invalidOperationResponse raw f;
  mapi (fun index target => parseTarget target (at_index f index)) items.

Definition parseReconcile (raw : option js_value) (f : string) (allowEmptyTargetedReconcile : bool) : result OperationReconcileHint :=
  reconcile ← requireResponseRecord raw f;
  _ ← requireExactResponseKeys reconcile f ["targets"; "requiresFullReconcile"];
  targets ← parseTargets (field reconcile "targets") (dot f "targets");
  full ← requireBoolean invalidOperationResponse (field reconcile "requiresFullReconcile") (dot f "requiresFullReconcile");
  _ ← require (full || negb (Nat.eqb (length targets) 0) || allowEmptyTargetedReconcile) (invalidOperationResponse (dot f "targets"));
  Ok {| targets := targets; requiresFullReconcile := full |}.

Definition RESPONSE_KEYS : list string :=
  ["repositoryId"; "epoch"; "operationId"; "kind"; "touchedPaths"; "revision"; "summary"; "warnings"; "reconcile"].

Definition parseOperationRunResponse (raw : option js_value) (allowEmptyTargetedReconcile : bool) : result OperationRunResponse :=
  response ← requireResponseRecord raw "result";
  _ ← requireExactResponseKeys response "result" RESPONSE_KEYS;
  repositoryId ← requireResponseString (field response "repositoryId") "repositoryId";
  epoch ← requireNonNegativeInteger invalidOperationResponse (field response "epoch") "epoch";
  operationId ← requireResponseString (field response "operationId") "operationId";
  kind ← requireResponseString (field response "kind") "kind";
  touchedPaths ← requireResponsePathArray (field response "touchedPaths") "touchedPaths" true;
  revision ← requireRevision (field response "revision") "revision";
  summary ← parseOperationSummary (field response "summary") "summary";
  warnings ← parseWarnings (field response "warnings") "warnings";
  reconcile ← parseReconcile (field response "reconcile") "reconcile" allowEmptyTargetedReconcile;
  Ok {| response_identity := {| repositoryId := repositoryId; epoch := epoch |}; operationId := operationId; kind := kind;
        touchedPaths := touchedPaths; revision := revision; summary := summary; warnings := warnings; reconcile := reconcile |}.

Definition requireOperationMatchesRequest (response : OperationRunResponse) (request : OperationRequestIdentity) (k : string) : result unit :=
  _ ← require (bool_decide (repositoryId (response_identity response) = repositoryId request)) (invalidOperationResponse "repositoryId");
  _ ← require (Z.eqb (epoch (response_identity response)) (epoch request)) (invalidOperationResponse "epoch");
  require (bool_decide (kind response = k)) (invalidOperationResponse "kind").

Definition requireFullReconcile (response : OperationRunResponse) (b : bool) : result unit :=
  require (Bool.eqb (requiresFullReconcile (reconcile response)) b) (invalidOperationResponse "reconcile.requiresFullReconcile").
Definition requireSomeRevision (response : OperationRunResponse) : result unit :=
  require (match revision response with Some _ => true | None => false end) (invalidOperationResponse "revision").

(** ** Operations

    The options an operation sends are the fields of its request. *)
Definition strings (l : list string) : js_value := VArr (map VStr l).
Definition revision_value (r : UpdateOperationRevision) : js_value :=
  match r with Head => VStr "head" | Revision z => VNum (NumInt z) end.

Definition add_options (r : AddOperationRequest) : list (string * js_value) :=
  [("paths", strings (add_paths r)); ("depth", VStr (depth_name (add_depth r))); ("force", VBool (add_force r));
   ("noIgnore", VBool (add_noIgnore r)); ("noAutoprops", VBool (add_noAutoprops r)); ("addParents", VBool (add_addParents r))].
Definition remove_options (r : RemoveOperationRequest) : list (string * js_value) :=
  [("paths", strings (remove_paths r)); ("force", VBool (remove_force r)); ("keepLocal", VBool (remove_keepLocal r))].
Definition move_options (r : MoveOperationRequest) : list (string * js_value) :=
  [("sourcePath", VStr (move_sourcePath r)); ("destinationPath", VStr (move_destinationPath r));
   ("makeParents", VBool (move_makeParents r))].
Definition cleanup_options (r : CleanupOperationRequest) : list (string * js_value) :=
  [("path", VStr "."); ("breakLocks", VBool (cleanup_breakLocks r));
   ("fixRecordedTimestamps", VBool (cleanup_fixRecordedTimestamps r)); ("clearDavCache", VBool (cleanup_clearDavCache r));
   ("vacuumPristines", VBool (cleanup_vacuumPristines r)); ("includeExternals", VBool (cleanup_includeExternals r))].
Definition upgrade_options (r : UpgradeOperationRequest) : list (string * js_value) :=
  [("path", VStr ".")].
Definition update_options (r : UpdateOperationRequest) : list (string * js_value) :=
  [("path", VStr (update_path r)); ("revision", revision_value (update_revision r));
   ("depth", VStr (update_depth_name (update_depth r))); ("depthIsSticky", VBool (update_depthIsSticky r));
   ("ignoreExternals", VBool (update_ignoreExternals r))].
Definition branchCreate_options (r : BranchCreateOperationRequest) : list (string * js_value) :=
  [("sourceUrl", VStr (branch_sourceUrl r)); ("destinationUrl", VStr (branch_destinationUrl r));
   ("revision", revision_value (branch_revision r)); ("message", VStr (branch_message r));
   ("makeParents", VBool (branch_makeParents r)); ("ignoreExternals", VBool (branch_ignoreExternals r))].
Definition switch_options (r : SwitchOperationRequest) : list (string * js_value) :=
  [("path", VStr (switch_path r)); ("url", VStr (switch_url r)); ("revision", revision_value (switch_revision r));
   ("depth", VStr (update_depth_name (switch_depth r))); ("depthIsSticky", VBool (switch_depthIsSticky r));
   ("ignoreExternals", VBool (switch_ignoreExternals r)); ("ignoreAncestry", VBool (switch_ignoreAncestry r))].
Definition relocate_options (r : RelocateOperationRequest) : list (string * js_value) :=
  [("fromUrl", VStr (relocate_fromUrl r)); ("toUrl", VStr (relocate_toUrl r));
   ("ignoreExternals", VBool (relocate_ignoreExternals r))].
Definition merge_options (r : MergeRangeOperationRequest) : list (string * js_value) :=
  [("sourceUrl", VStr (merge_sourceUrl r)); ("targetPath", VStr (merge_targetPath r));
   ("startRevision", VNum (NumInt (merge_startRevision r))); ("endRevision", VNum (NumInt (merge_endRevision r)));
   ("depth", VStr (depth_name (merge_depth r))); ("ignoreMergeinfo", VBool (merge_ignoreMergeinfo r));
   ("diffIgnoreAncestry", VBool (merge_diffIgnoreAncestry r)); ("forceDelete", VBool (merge_forceDelete r));
   ("recordOnly", VBool (merge_recordOnly r)); ("dryRun", VBool (merge_dryRun r));
   ("allowMixedRevisions", VBool (merge_allowMixedRevisions r))].
Definition propertySet_options (r : PropertySetOperationRequest) : list (string * js_value) :=
  [("path", VStr (propset_path r)); ("name", VStr (propset_name r)); ("value", VStr (propset_value r))].
Definition propertyDelete_options (r : PropertyDeleteOperationRequest) : list (string * js_value) :=
  [("path", VStr (propdel_path r)); ("name", VStr (propdel_name r))].
Definition changelistSet_options (r : ChangelistSetOperationRequest) : list (string * js_value) :=
  [("paths", strings (clset_paths r)); ("depth", VStr (depth_name (clset_depth r)));
   ("changelist", VStr (clset_changelist r)); ("changelists", strings (clset_changelists r))].
Definition changelistClear_options (r : ChangelistClearOperationRequest) : list (string * js_value) :=
  [("paths", strings (clclear_paths r)); ("depth", VStr (depth_name (clclear_depth r)));
   ("changelists", strings (clclear_changelists r))].
Definition lock_options (r : LockOperationRequest) : list (string * js_value) :=
  [("paths", strings (lock_paths r)); ("comment", nullable VStr (lock_comment r)); ("stealLock", VBool (lock_stealLock r))].
Definition unlock_options (r : UnlockOperationRequest) : list (string * js_value) :=
  [("paths", strings (unlock_paths r)); ("breakLock", VBool (unlock_breakLock r))].
Definition commit_options (r : CommitOperationRequest) : list (string * js_value) :=
  [("paths", strings (commit_paths r)); ("message", VStr (commit_message r)); ("depth", VStr "empty");
   ("changelists", strings (commit_changelists r)); ("keepLocks", VBool false); ("keepChangelists", VBool false);
   ("commitAsOperations", VBool false); ("includeFileExternals", VBool false); ("includeDirExternals", VBool false)].
Definition resolve_options (r : ResolveOperationRequest) : list (string * js_value) :=
  [("paths", strings (resolve_paths r)); ("depth", VStr "empty"); ("choice", VStr (choice_name (resolve_choice r)))].
Definition revert_options (r : RevertOperationRequest) : list (string * js_value) :=
  [("paths", strings (revert_paths r)); ("depth", VStr (depth_name (revert_depth r)));
   ("changelists", strings (revert_changelists r)); ("clearChangelists", VBool (revert_clearChangelists r));
   ("metadataOnly", VBool (revert_metadataOnly r)); ("addedKeepLocal", VBool (revert_addedKeepLocal r))].

Section Client.
Variable send : js_value -> result (option js_value).

Definition params (identity : OperationRequestIdentity) (k : string) (options : list (string * js_value)) : js_value :=
  VObj [("repositoryId", VStr (repositoryId identity)); ("epoch", VNum (NumInt (epoch identity))); ("kind", VStr k);
        ("options", VObj (("version", VNum (NumInt 1)) :: options))].

(** What every operation does with a validated request. *)
Definition sendOperationRunRequest (identity : OperationRequestIdentity) (k : string) (options : list (string * js_value))
    (allowEmptyTargetedReconcile : bool) : result OperationRunResponse :=
  rawResponse ← send (params identity k options);
  response ← parseOperationRunResponse rawResponse allowEmptyTargetedReconcile;
  _ ← requireOperationMatchesRequest response identity k;
  Ok response.

Definition add (request : option js_value) : result OperationRunResponse :=
  r ← validateAddRequest request;
  sendOperationRunRequest (add_identity r) "add" (add_options r) false.

Definition remove (request : option js_value) : result OperationRunResponse :=
  r ← validateRemoveRequest request;
  sendOperationRunRequest (remove_identity r) "remove" (remove_options r) false.

Definition move (request : option js_value) : result OperationRunResponse :=
  r ← validateMoveRequest request;
  sendOperationRunRequest (move_identity r) "move" (move_options r) false.

Definition cleanup (request : option js_value) : result OperationRunResponse :=
  r ← validateCleanupRequest request;
  response ← sendOperationRunRequest (cleanup_identity r) "cleanup" (cleanup_options r) false;
  _ ← requireFullReconcile response true;
  Ok response.

Definition upgrade (request : option js_value) : result OperationRunResponse :=
  r ← validateUpgradeRequest request;
  response ← sendOperationRunRequest (upgrade_identity r) "upgrade" (upgrade_options r) false;
  _ ← requireFullReconcile response true;
  Ok response.

Definition update (request : option js_value) : result OperationRunResponse :=
  r ← validateUpdateRequest request;
  response ← sendOperationRunRequest (update_identity r) "update" (update_options r) false;
  _ ← requireFullReconcile response true;
  _ ← requireSomeRevision response;
  Ok response.

Definition branchCreate (request : option js_value) : result OperationRunResponse :=
  r ← validateBranchCreateRequest request;
  response ← sendOperationRunRequest (branch_identity r) "branchCreate" (branchCreate_options r) true;
  _ ← requireFullReconcile response false;
  _ ← require (Nat.eqb (length (targets (reconcile response))) 0) (invalidOperationResponse "reconcile.targets");
  _ ← requireSomeRevision response;
  Ok response.

Definition switch (request : option js_value) : result OperationRunResponse :=
  r ← validateSwitchRequest request;
  response ← sendOperationRunRequest (switch_identity r) "switch" (switch_options r) false;
  _ ← requireFullReconcile response true;
  _ ← requireSomeRevision response;
  Ok response.

Definition relocate (request : option js_value) : result OperationRunResponse :=
  r ← validateRelocateRequest request;
  response ← sendOperationRunRequest (relocate_identity r) "relocate" (relocate_options r) false;
  _ ← requireFullReconcile response true;
  Ok response.

Definition merge (request : option js_value) : result OperationRunResponse :=
  r ← validateMergeRangeRequest request;
  response ← sendOperationRunRequest (merge_identity r) "merge" (merge_options r) false;
  _ ← requireFullReconcile response (negb (merge_dryRun r));
  Ok response.

Definition propertySet (request : option js_value) : result OperationRunResponse :=
  r ← validatePropertySetRequest request;
  sendOperationRunRequest (propset_identity r) "propertySet" (propertySet_options r) false.

Definition propertyDelete (request : option js_value) : result OperationRunResponse :=
  r ← validatePropertyDeleteRequest request;
  sendOperationRunRequest (propdel_identity r) "propertyDelete" (propertyDelete_options r) false.

Definition changelistSet (request : option js_value) : result OperationRunResponse :=
  r ← validateChangelistSetRequest request;
  sendOperationRunRequest (clset_identity r) "changelistSet" (changelistSet_options r) false.

Definition changelistClear (request : option js_value) : result OperationRunResponse :=
  r ← validateChangelistClearRequest request;
  sendOperationRunRequest (clclear_identity r) "changelistClear" (changelistClear_options r) false.

Definition lock (request : option js_value) : result OperationRunResponse :=
  r ← validateLockRequest request;
  sendOperationRunRequest (lock_identity r) "lock" (lock_options r) false.

Definition unlock (request : option js_value) : result OperationRunResponse :=
  r ← validateUnlockRequest request;
  sendOperationRunRequest (unlock_identity r) "unlock" (unlock_options r) false.

Definition commit (request : option js_value) : result OperationRunResponse :=
  r ← validateCommitRequest request;
  response ← sendOperationRunRequest (commit_identity r) "commit" (commit_options r) false;
  _ ← requireSomeRevision response;
  Ok response.

Definition resolve (request : option js_value) : result OperationRunResponse :=
  r ← validateResolveRequest request;
  sendOperationRunRequest (resolve_identity r) "resolve" (resolve_options r) false.

Definition revert (request : option js_value) : result OperationRunResponse :=
  r ← validateRevertRequest request;
  sendOperationRunRequest (revert_identity r) "revert" (revert_options r) false.
End Client.
End OperationRunRpcClient.
