(* ===== verification/OperationClientFacts.v ===== *)
(** The operation client: what it sends and what it returns. *)

From Stdlib Require Import ZArith Lia String List.
From stdpp Require Import base option list strings.
From S2P Require Import Prelude JsString JsMap JsValue StatusTypes StatusWire StatusWireFacts.
From S2P Require Import Paths RefreshRequests OperationTypes OperationClient.

Local Open Scope string_scope.

Module C := OperationRunRpcClient.

(** ** The operations *)
Inductive OperationKind :=
  | KAdd | KRemove | KMove | KCleanup | KUpgrade | KUpdate | KBranchCreate | KSwitch | KRelocate | KMerge
  | KPropertySet | KPropertyDelete | KChangelistSet | KChangelistClear | KLock | KUnlock | KCommit | KResolve | KRevert.

Definition kind_name (k : OperationKind) : string :=
  match k with
  | KAdd => "add" | KRemove => "remove" | KMove => "move" | KCleanup => "cleanup" | KUpgrade => "upgrade"
  | KUpdate => "update" | KBranchCreate => "branchCreate" | KSwitch => "switch" | KRelocate => "relocate"
  | KMerge => "merge" | KPropertySet => "propertySet" | KPropertyDelete => "propertyDelete"
  | KChangelistSet => "changelistSet" | KChangelistClear => "changelistClear" | KLock => "lock" | KUnlock => "unlock"
  | KCommit => "commit" | KResolve => "resolve" | KRevert => "revert"
  end.

(** The methods of [OperationClient]. *)
Definition run_operation (k : OperationKind) (send : js_value -> result (option js_value)) (request : option js_value) : result OperationRunResponse :=
  match k with
  | KAdd => C.add send request | KRemove => C.remove send request | KMove => C.move send request
  | KCleanup => C.cleanup send request | KUpgrade => C.upgrade send request | KUpdate => C.update send request
  | KBranchCreate => C.branchCreate send request | KSwitch => C.switch send request
  | KRelocate => C.relocate send request | KMerge => C.merge send request
  | KPropertySet => C.propertySet send request | KPropertyDelete => C.propertyDelete send request
  | KChangelistSet => C.changelistSet send request | KChangelistClear => C.changelistClear send request
  | KLock => C.lock send request | KUnlock => C.unlock send request | KCommit => C.commit send request
  | KResolve => C.resolve send request | KRevert => C.revert send request
  end.

(** operations/backendOperationClient.ts: each method initializes the backend
    and calls the operation client on the connection. *)
Definition backend_operation (k : OperationKind) (initialize : result (js_value -> result (option js_value))) (request : option js_value) : result OperationRunResponse :=
  connection ← initialize;
  run_operation k connection request.

(** The paths among the options of a request. *)
Definition PATH_OPTIONS : list string := ["paths"; "path"; "sourcePath"; "destinationPath"; "targetPath"].
Definition strings_in (v : js_value) : list string :=
  match v with
  | VStr s => [s]
  | VArr items => flat_map (fun v => match v with VStr s => [s] | _ => [] end) items
  | _ => []
  end.
Definition option_paths (options : list (string * js_value)) : list string :=
  flat_map (fun o => if existsb (String.eqb (fst o)) PATH_OPTIONS then strings_in (snd o) else []) options.

Lemma strings_in_strings l : strings_in (C.strings l) = l.
Proof. unfold C.strings, strings_in. induction l as [|s l IH]; [done|]. cbn. by rewrite IH. Qed.

(** ** Paths *)
Lemma relative_safe p : C.isRepositoryRelativePath p = true -> safe_path p.
Proof.
  unfold C.isRepositoryRelativePath, safe_path. case_bool_decide; [by left|]. cbn zeta.
  destruct (includes p backslash) eqn:Hb; [done|]. rewrite replaceAll_id by done. cbn [orb].
  destruct (_ || _); [done|]. intros Hf. right. split; [done|]. apply Forall_forall. intros seg Hs%list_elem_of_In.
  by eapply forallb_forall in Hf.
Qed.

(** What the operation client takes for a path the refresh client takes too. *)
Lemma relative_wire p : C.isRepositoryRelativePath p = true -> isRepositoryRelativePath p = true.
Proof.
  unfold C.isRepositoryRelativePath, isRepositoryRelativePath. case_bool_decide; [done|]. cbn zeta.
  destruct (includes p backslash); [done|]. cbn [orb]. unfold C.NUL. by destruct (startsWith _ _ || _ || _).
Qed.

Notation safe_paths := (Forall safe_path).

Section invalid.
Context (invalid : string -> js_error).
Lemma requirePathOf_ok v f p : C.requirePathOf invalid v f = Ok p -> text_ok p /\ C.isRepositoryRelativePath p = true.
Proof using Type. unfold C.requirePathOf. intros H. wire_inv. done. Qed.
End invalid.

Lemma requireRequestPath_safe v f p : C.requireRequestPath v f = Ok p -> safe_path p.
Proof. intros [_ H]%requirePathOf_ok. by apply relative_safe. Qed.

Lemma requirePathArray_safe v f b l : C.requirePathArray v f b = Ok l -> safe_paths l.
Proof.
  unfold C.requirePathArray. destruct v as [[]|]; try done. intros H. wire_inv.
  eapply mapi_forall; [eassumption|]. intros ? ? ?. apply requireRequestPath_safe.
Qed.

Lemma requireResponsePathArray_safe v f b l : C.requireResponsePathArray v f b = Ok l -> safe_paths l.
Proof.
  unfold C.requireResponsePathArray. destruct v as [[]|]; try done. intros H. wire_inv.
  eapply mapi_forall; [eassumption|]. intros ? ? ? [_ Hy]%requirePathOf_ok. by apply relative_safe.
Qed.

Ltac path_array := intros H; wire_inv; by eapply requirePathArray_safe.
Lemma requireSinglePathArray_safe v f l : C.requireSinglePathArray v f = Ok l -> safe_paths l.
Proof. unfold C.requireSinglePathArray. path_array. Qed.
Lemma requireDistinctPathArray_safe v f l : C.requireDistinctPathArray v f = Ok l -> safe_paths l.
Proof. unfold C.requireDistinctPathArray. path_array. Qed.
Lemma requireCommitPathArray_safe v f l : C.requireCommitPathArray v f = Ok l -> safe_paths l.
Proof. unfold C.requireCommitPathArray. path_array. Qed.
Lemma requireLockPathArray_safe v f l : C.requireLockPathArray v f = Ok l -> safe_paths l.
Proof. unfold C.requireLockPathArray. path_array. Qed.
Lemma requireMovePath_safe v f p : C.requireMovePath v f = Ok p -> safe_path p.
Proof. unfold C.requireMovePath. intros H. wire_inv. by eapply requireRequestPath_safe. Qed.

Lemma safe_root : safe_path ".".
Proof. by left. Qed.

Lemma safe_one p : safe_path p -> safe_paths [p].
Proof. intros Hp. by apply Forall_singleton. Qed.

Create HintDb paths.
#[export] Hint Resolve requireRequestPath_safe requirePathArray_safe requireSinglePathArray_safe requireDistinctPathArray_safe
  requireCommitPathArray_safe requireLockPathArray_safe requireMovePath_safe safe_root safe_one : paths.

(** ** Each field parser returns what the field holds *)
Lemma text_field v f s : C.requireRequestString v f = Ok s -> v = Some (VStr s).
Proof. by intros [? _]%requireString_ok. Qed.
Lemma path_field v f p : C.requireRequestPath v f = Ok p -> v = Some (VStr p).
Proof. unfold C.requireRequestPath, C.requirePathOf. intros H. wire_inv. done. Qed.
Lemma paths_field v f b l : C.requirePathArray v f b = Ok l -> v = Some (C.strings l).
Proof.
  unfold C.requirePathArray, C.strings. destruct v as [[]|]; try done. intros H. wire_inv. do 2 f_equal.
  match goal with H : mapi _ _ = Ok _ |- _ => apply mapi_ok in H as [Hl Hm] end. apply list_eq. intros i.
  change (map VStr l) with (VStr <$> l). rewrite list_lookup_fmap.
  destruct (l !! i) as [p|] eqn:Hp, (items !! i) as [item|] eqn:Hx; cbn; [| | |done].
  - specialize (Hm i item p Hx Hp). apply path_field in Hm. by injection Hm as ->.
  - apply lookup_lt_Some in Hp. apply lookup_ge_None in Hx. lia.
  - apply lookup_lt_Some in Hx. apply lookup_ge_None in Hp. lia.
Qed.
Ltac held := intros H; wire_inv; eauto using text_field, path_field, paths_field.
Lemma single_field v f l : C.requireSinglePathArray v f = Ok l -> v = Some (C.strings l).
Proof. unfold C.requireSinglePathArray. held. Qed.
Lemma distinct_field v f l : C.requireDistinctPathArray v f = Ok l -> v = Some (C.strings l).
Proof. unfold C.requireDistinctPathArray. held. Qed.
Lemma commit_paths_field v f l : C.requireCommitPathArray v f = Ok l -> v = Some (C.strings l).
Proof. unfold C.requireCommitPathArray. held. Qed.
Lemma lock_paths_field v f l : C.requireLockPathArray v f = Ok l -> v = Some (C.strings l).
Proof. unfold C.requireLockPathArray. held. Qed.
Lemma move_path_field v f p : C.requireMovePath v f = Ok p -> v = Some (VStr p).
Proof. unfold C.requireMovePath. held. Qed.
Lemma changelist_field v f s : C.requireChangelistName v f = Ok s -> v = Some (VStr s).
Proof. unfold C.requireChangelistName. held. Qed.
Lemma changelists_field v f b l : C.requireChangelistArray v f b = Ok l -> v = Some (C.strings l).
Proof.
  unfold C.requireChangelistArray, C.strings. destruct v as [[]|]; try done. intros H. wire_inv. do 2 f_equal.
  match goal with H : C.changelist_loop f ?seen ?i _ = Ok _ |- _ => revert H; generalize seen, i end. clear. revert l.
  induction items as [|x items IH]; intros l seen i H; cbn [C.changelist_loop] in H; wire_inv; [done|].
  cbn [map]. match goal with H : C.requireChangelistName _ _ = Ok _ |- _ => apply changelist_field in H; injection H as -> end.
  f_equal. by eapply IH.
Qed.
Lemma url_field v f s : C.requireRepositoryUrl v f = Ok s -> v = Some (VStr s).
Proof. unfold C.requireRepositoryUrl. held. Qed.
Lemma message_field v f s : C.requireCommitMessage v f = Ok s -> v = Some (VStr s).
Proof. unfold C.requireCommitMessage. held. Qed.
Lemma comment_field v f o : C.requireLockComment v f = Ok o -> v = Some (nullable VStr o).
Proof. unfold C.requireLockComment. destruct v as [[]|]; intros H; wire_inv; try done; cbn; eauto using text_field. Qed.
Lemma property_name_field v f s : C.requirePropertyName v f = Ok s -> v = Some (VStr s).
Proof. unfold C.requirePropertyName. held. Qed.
Lemma property_value_field v f s : C.requirePropertyValue v f = Ok s -> v = Some (VStr s).
Proof. unfold C.requirePropertyValue. destruct v as [[]|]; try done. by held. Qed.
Lemma boolean_field v f b : C.requireRequestBoolean v f = Ok b -> v = Some (VBool b).
Proof. apply requireBoolean_ok. Qed.
Lemma false_field v f u : C.requireFalse v f = Ok u -> v = Some (VBool false).
Proof. unfold C.requireFalse. intros H. wire_inv. destruct x; [done|]. by eapply boolean_field. Qed.
Lemma root_field v f u : C.requireRootPath v f = Ok u -> v = Some (VStr ".").
Proof. unfold C.requireRootPath. intros H. wire_inv. match goal with H : bool_decide _ = true |- _ => apply bool_decide_eq_true in H as -> end. by eapply text_field. Qed.
Lemma empty_depth_field v f u : C.requireResolveDepth v f = Ok u -> v = Some (VStr "empty").
Proof. unfold C.requireResolveDepth. intros H. wire_inv. match goal with H : bool_decide _ = true |- _ => apply bool_decide_eq_true in H as -> end. by eapply text_field. Qed.
Lemma commit_depth_field v f u : C.requireCommitDepth v f = Ok u -> v = Some (VStr "empty").
Proof. apply empty_depth_field. Qed.
(** A value out of a list of names. *)
Ltac named_field := intros H; wire_inv; repeat case_bool_decide; simplify_eq; cbn; eauto using text_field.
Lemma depth_field v f d : C.requireDepth C.invalidOperationRequest v f = Ok d -> v = Some (VStr (depth_name d)).
Proof. unfold C.requireDepth. named_field. Qed.
Lemma update_depth_field v f d : C.requireUpdateDepth v f = Ok d -> v = Some (VStr (update_depth_name d)).
Proof. unfold C.requireUpdateDepth. named_field. Qed.
Lemma choice_field v f c : C.requireResolveChoice v f = Ok c -> v = Some (VStr (choice_name c)).
Proof. unfold C.requireResolveChoice. named_field. Qed.
Lemma merge_revision_field v f z : C.requireMergeRevision v f = Ok z -> v = Some (VNum (NumInt z)).
Proof. unfold C.requireMergeRevision. intros H. by wire_inv. Qed.
Lemma revision_field v f r : C.requireUpdateRevision v f = Ok r -> v = Some (C.revision_value r).
Proof.
  unfold C.requireUpdateRevision. destruct v as [[]|]; intros H; wire_inv; try (cbn; by eapply merge_revision_field).
  case_bool_decide; by simplify_eq.
Qed.
Lemma identity_field r i : C.requireIdentity r = Ok i ->
  field r "repositoryId" = Some (VStr (repositoryId i)) /\ field r "epoch" = Some (VNum (NumInt (epoch i))).
Proof. unfold C.requireIdentity. intros H. wire_inv. split; [by eapply text_field|done]. Qed.
Lemma request_held request expected r : C.requestRecord request expected = Ok r -> request = Some r.
Proof. unfold C.requestRecord. intros H. by wire_inv. Qed.

Create HintDb fields.
#[export] Hint Resolve text_field path_field paths_field single_field distinct_field commit_paths_field lock_paths_field move_path_field
  changelist_field changelists_field url_field message_field comment_field property_name_field property_value_field boolean_field
  false_field root_field empty_depth_field commit_depth_field depth_field update_depth_field choice_field merge_revision_field
  revision_field identity_field request_held : fields.

(** ** Answers *)
Record answer_ok (allowEmpty : bool) (r : OperationRunResponse) : Prop := {
  answer_repository : text_ok (repositoryId (response_identity r));
  answer_epoch : count_ok (epoch (response_identity r));
  answer_touched : safe_paths (touchedPaths r);
  answer_targets : Forall (fun t => target_ok t /\ safe_path (target_path t)) (targets (reconcile r));
  answer_reconcile : requiresFullReconcile (reconcile r) = true \/ targets (reconcile r) <> [] \/ allowEmpty = true;
}.

Lemma parseTarget_ok v f t : C.parseTarget v f = Ok t -> target_ok t /\ safe_path (target_path t).
Proof.
  unfold C.parseTarget. intros H. wire_inv.
  match goal with H : C.requireResponsePath _ _ = Ok _ |- _ => apply requirePathOf_ok in H as [Ht Hp] end.
  match goal with H : C.requireResponseString _ _ = Ok _ |- _ => apply requireString_ok in H as [_ Hr] end.
  split; [split; [split; [done|by apply relative_wire]|done]|by apply relative_safe].
Qed.

Lemma parseReconcile_ok v f b h :
  C.parseReconcile v f b = Ok h ->
  Forall (fun t => target_ok t /\ safe_path (target_path t)) (targets h) /\
  (requiresFullReconcile h = true \/ targets h <> [] \/ b = true).
Proof.
  unfold C.parseReconcile, C.parseTargets. intros H. wire_inv. cbn. split.
  - eapply mapi_forall; [eassumption|]. intros ? ? ?. apply parseTarget_ok.
  - match goal with H : _ || _ || _ = true |- _ => revert H; rewrite !orb_true_iff; intros [[Ha|Ha]|Ha]; auto end.
    right. left. intros Hnil. by rewrite Hnil in Ha.
Qed.

Lemma parseOperationRunResponse_ok v b r : C.parseOperationRunResponse v b = Ok r -> answer_ok b r.
Proof.
  unfold C.parseOperationRunResponse. intros H. wire_inv.
  repeat match goal with H : C.requireResponseString _ _ = Ok _ |- _ => apply requireString_ok in H as [_ ?] end.
  match goal with H : C.parseReconcile _ _ _ = Ok _ |- _ => apply parseReconcile_ok in H as [Ht Hr] end.
  split; cbn; try done. by eapply requireResponsePathArray_safe.
Qed.

Lemma send_sound send identity k options b r :
  C.sendOperationRunRequest send identity k options b = Ok r ->
  exists raw, send (C.params identity k options) = Ok raw /\ C.parseOperationRunResponse raw b = Ok r /\
    response_identity r = identity /\ kind r = k.
Proof.
  unfold C.sendOperationRunRequest, C.requireOperationMatchesRequest. intros H. wire_inv.
  repeat match goal with H : bool_decide _ = true |- _ => apply bool_decide_eq_true in H | H : Z.eqb _ _ = true |- _ => apply Z.eqb_eq in H end.
  eexists. split_and!; [done|done| |done]. destruct (response_identity r), identity; cbn in *; by subst.
Qed.

(** The operations that must be followed by a full reconcile, and those that
    make or name a revision. *)
Definition demands_full (k : OperationKind) : bool :=
  match k with KCleanup | KUpgrade | KUpdate | KSwitch | KRelocate => true | _ => false end.
Definition demands_revision (k : OperationKind) : bool :=
  match k with KUpdate | KSwitch | KBranchCreate | KCommit => true | _ => false end.

(** The options of each operation, in the order they are sent. *)
Definition option_names (k : OperationKind) : list string :=
  match k with
  | KAdd => ["paths"; "depth"; "force"; "noIgnore"; "noAutoprops"; "addParents"]
  | KRemove => ["paths"; "force"; "keepLocal"]
  | KMove => ["sourcePath"; "destinationPath"; "makeParents"]
  | KCleanup => ["path"; "breakLocks"; "fixRecordedTimestamps"; "clearDavCache"; "vacuumPristines"; "includeExternals"]
  | KUpgrade => ["path"]
  | KUpdate => ["path"; "revision"; "depth"; "depthIsSticky"; "ignoreExternals"]
  | KBranchCreate => ["sourceUrl"; "destinationUrl"; "revision"; "message"; "makeParents"; "ignoreExternals"]
  | KSwitch => ["path"; "url"; "revision"; "depth"; "depthIsSticky"; "ignoreExternals"; "ignoreAncestry"]
  | KRelocate => ["fromUrl"; "toUrl"; "ignoreExternals"]
  | KMerge => ["sourceUrl"; "targetPath"; "startRevision"; "endRevision"; "depth"; "ignoreMergeinfo"; "diffIgnoreAncestry";
               "forceDelete"; "recordOnly"; "dryRun"; "allowMixedRevisions"]
  | KPropertySet => ["path"; "name"; "value"]
  | KPropertyDelete => ["path"; "name"]
  | KChangelistSet => ["paths"; "depth"; "changelist"; "changelists"]
  | KChangelistClear => ["paths"; "depth"; "changelists"]
  | KLock => ["paths"; "comment"; "stealLock"]
  | KUnlock => ["paths"; "breakLock"]
  | KCommit => ["paths"; "message"; "depth"; "changelists"; "keepLocks"; "keepChangelists"; "commitAsOperations";
                "includeFileExternals"; "includeDirExternals"]
  | KResolve => ["paths"; "depth"; "choice"]
  | KRevert => ["paths"; "depth"; "changelists"; "clearChangelists"; "metadataOnly"; "addedKeepLocal"]
  end.
(** The object that is sent, with the options [options]. *)
Definition wire (id : string) (at_ : Z) (k : OperationKind) (options : list (string * js_value)) : js_value :=
  VObj [("repositoryId", VStr id); ("epoch", VNum (NumInt at_)); ("kind", VStr (kind_name k));
        ("options", VObj (("version", VNum (NumInt 1)) :: options))].
(** The options sent are the fields of the caller's request, all of them. *)
Definition options_of (k : OperationKind) (record : js_value) (options : list (string * js_value)) : Prop :=
  map fst options = option_names k /\ Forall (fun o => field record (fst o) = Some (snd o)) options.

(** What an operation that returns has done: one request went out, with what the
    caller passed and safe paths, and the answer is to it. *)
Record operation_done (k : OperationKind) (send : js_value -> result (option js_value)) (request : option js_value)
    (r : OperationRunResponse) : Prop := {
  done_sent : exists record options raw, request = Some record
    /\ field record "repositoryId" = Some (VStr (repositoryId (response_identity r)))
    /\ field record "epoch" = Some (VNum (NumInt (epoch (response_identity r))))
    /\ send (wire (repositoryId (response_identity r)) (epoch (response_identity r)) k options) = Ok raw
    /\ options_of k record options /\ safe_paths (option_paths options)
    /\ C.parseOperationRunResponse raw (match k with KBranchCreate => true | _ => false end) = Ok r;
  done_kind : kind r = kind_name k;
  done_full : demands_full k = true -> requiresFullReconcile (reconcile r) = true;
  done_revision : demands_revision k = true -> revision r <> None;
}.

Lemma sent_done k send request record identity options r :
  C.sendOperationRunRequest send identity (kind_name k) options (match k with KBranchCreate => true | _ => false end) = Ok r ->
  request = Some record -> C.requireIdentity record = Ok identity -> options_of k record options -> safe_paths (option_paths options) ->
  (demands_full k = true -> requiresFullReconcile (reconcile r) = true) ->
  (demands_revision k = true -> revision r <> None) -> operation_done k send request r.
Proof.
  intros (raw & Hs & Hp & <- & Hk)%send_sound Hr [Hi He]%identity_field Hopt Hpaths Hfull Hrev.
  split; [by exists record, options, raw|done..].
Qed.

Lemma requireFullReconcile_ok r b u : C.requireFullReconcile r b = Ok u -> requiresFullReconcile (reconcile r) = b.
Proof. intros H%require_ok. by apply Bool.eqb_prop. Qed.
Lemma requireSomeRevision_ok r u : C.requireSomeRevision r = Ok u -> revision r <> None.
Proof. intros H%require_ok. by destruct (revision r). Qed.

(** Of the other operations nothing is asked. *)
Ltac demanded := first [discriminate | intros _; eauto using requireFullReconcile_ok, requireSomeRevision_ok].
Ltac sent_paths := cbn -[C.strings strings_in]; rewrite ?strings_in_strings, ?List.app_nil_r; cbn [strings_in app];
  repeat apply Forall_cons_2; try apply Forall_nil_2; eauto with paths.
Ltac sent_options := split; [reflexivity|]; repeat apply Forall_cons_2; try apply Forall_nil_2; cbn [fst snd]; eauto with fields.
Ltac operation_case k := wire_inv; (eapply (sent_done k); [eassumption|eauto with fields|eassumption|sent_options|sent_paths|demanded|demanded]).

Lemma run_operation_done k send request r : run_operation k send request = Ok r -> operation_done k send request r.
Proof.
  destruct k; cbn [run_operation]; intros H.
  - unfold C.add, C.validateAddRequest in H. operation_case KAdd.
  - unfold C.remove, C.validateRemoveRequest in H. operation_case KRemove.
  - unfold C.move, C.validateMoveRequest in H. operation_case KMove.
  - unfold C.cleanup, C.validateCleanupRequest in H. operation_case KCleanup.
  - unfold C.upgrade, C.validateUpgradeRequest in H. operation_case KUpgrade.
  - unfold C.update, C.validateUpdateRequest in H. operation_case KUpdate.
  - unfold C.branchCreate, C.validateBranchCreateRequest in H. operation_case KBranchCreate.
  - unfold C.switch, C.validateSwitchRequest in H. operation_case KSwitch.
  - unfold C.relocate, C.validateRelocateRequest in H. operation_case KRelocate.
  - unfold C.merge, C.validateMergeRangeRequest in H. operation_case KMerge.
  - unfold C.propertySet, C.validatePropertySetRequest in H. operation_case KPropertySet.
  - unfold C.propertyDelete, C.validatePropertyDeleteRequest in H. operation_case KPropertyDelete.
  - unfold C.changelistSet, C.validateChangelistSetRequest in H. operation_case KChangelistSet.
  - unfold C.changelistClear, C.validateChangelistClearRequest in H. operation_case KChangelistClear.
  - unfold C.lock, C.validateLockRequest in H. operation_case KLock.
  - unfold C.unlock, C.validateUnlockRequest in H. operation_case KUnlock.
  - unfold C.commit, C.validateCommitRequest in H. operation_case KCommit.
  - unfold C.resolve, C.validateResolveRequest in H. operation_case KResolve.
  - unfold C.revert, C.validateRevertRequest in H. operation_case KRevert.
Qed.

Lemma branch_reconciles send request r : C.branchCreate send request = Ok r ->
  requiresFullReconcile (reconcile r) = false /\ targets (reconcile r) = [].
Proof.
  unfold C.branchCreate. intros H. wire_inv. split; [by eapply requireFullReconcile_ok|].
  match goal with H : Nat.eqb _ 0 = true |- _ => apply Nat.eqb_eq in H; by apply nil_length_inv in H end.
Qed.

(** C29: Whatever request the caller passes and whatever the backend answers, an operation that returns has sent an object
    with the caller's repository and epoch, its own kind and, as options, the caller's own values of all the options of that
    kind; the paths among them are ["."] or have segments that are not empty, ["."] or [".."] and no backslash.  It returns
    an answer for the same repository, epoch and kind, whose paths are safe too; cleanup, upgrade, update, switch and
    relocate return one that demands a full reconcile; every operation but branchCreate returns one that demands a full
    reconcile or names targets, branchCreate one that does neither; and targets an answer names make a request the
    refresh client accepts. *)
Theorem operation_safe (k : OperationKind) (send : js_value -> result (option js_value)) (request : option js_value) (r : OperationRunResponse) :
  run_operation k send request = Ok r ->
  (exists record options raw, request = Some record
     /\ field record "repositoryId" = Some (VStr (repositoryId (response_identity r)))
     /\ field record "epoch" = Some (VNum (NumInt (epoch (response_identity r))))
     /\ send (VObj [("repositoryId", VStr (repositoryId (response_identity r))); ("epoch", VNum (NumInt (epoch (response_identity r))));
                    ("kind", VStr (kind_name k)); ("options", VObj (("version", VNum (NumInt 1)) :: options))]) = Ok raw
     /\ map fst options = option_names k /\ Forall (fun o => field record (fst o) = Some (snd o)) options
     /\ safe_paths (option_paths options)) /\
  kind r = kind_name k /\ safe_paths (touchedPaths r) /\
  (demands_full k = true -> requiresFullReconcile (reconcile r) = true) /\ (demands_revision k = true -> revision r <> None) /\
  (k <> KBranchCreate -> requiresFullReconcile (reconcile r) = true \/ targets (reconcile r) <> []) /\
  (k = KBranchCreate -> requiresFullReconcile (reconcile r) = false /\ targets (reconcile r) = []) /\
  let refresh := {| request_repositoryId := repositoryId (response_identity r); request_epoch := epoch (response_identity r);
                    request_targets := targets (reconcile r) |} in
  (targets (reconcile r) <> [] -> RefreshClient.validateRefreshRequest (Some (encode_request refresh)) = Ok refresh).
Proof.
  intros H. destruct (run_operation_done _ _ _ _ H) as [(record & options & raw & Hr & Hi & He & Hs & [Hn Ho] & Hpaths & Hp) Hk Hf Hv].
  pose proof (parseOperationRunResponse_ok _ _ _ Hp) as [A1 A2 A3 A4 A5].
  split_and!; [by exists record, options, raw|done..| | |].
  - intros Hne. destruct A5 as [?|[?|?]]; [by left|by right|]. by destruct k.
  - intros ->. by eapply branch_reconciles.
  - intros refresh Hne. apply validateRefreshRequest_encode. split_and!; [done..|]. eapply Forall_impl; [exact A4|]. by intros t [].
Qed.
