(* ===== verification/OperationRequests.v ===== *)
(** The operation client takes every valid request, sends it unchanged, and
    returns every valid answer to it unchanged. *)

From Stdlib Require Import ZArith Lia Ascii String List.
From stdpp Require Import base option list strings.
From S2P Require Import Prelude JsString JsMap JsValue StatusTypes StatusWire StatusWireFacts.
From S2P Require Import Paths RefreshRequests OperationTypes OperationClient OperationClientFacts.

Local Open Scope string_scope.

(** ** Valid fields *)
Definition identity_ok (i : OperationRequestIdentity) : Prop := text_ok (repositoryId i) /\ count_ok (epoch i).
Definition op_path (p : string) : Prop := text_ok p /\ C.isRepositoryRelativePath p = true.
Definition op_paths (l : list string) : Prop := l <> [] /\ Forall op_path l.
Definition one_line (s : string) : Prop := text_ok s /\ includes s C.NUL = false /\ includes s C.CR = false /\ includes s C.LF = false.
Definition plain_text (s : string) : Prop := text_ok s /\ includes s C.NUL = false /\ includes s C.CR = false.
Definition property_name (s : string) : Prop := one_line s /\ forallb C.isPropertyNamePart (split s ":"%char) = true.
Definition changelists_ok (l : list string) : Prop := NoDup l /\ Forall one_line l.
Definition revnum (z : Z) : Prop := (0 <= z <= MAX_SVN_REVNUM)%Z.
Definition revision_ok (r : UpdateOperationRevision) : Prop := match r with Head => True | Revision z => revnum z end.
Definition sticky_ok (d : UpdateOperationDepth) (sticky : bool) : Prop := d = WorkingCopyDepth -> sticky = false.

Inductive OperationRequest :=
  | AddRequest (r : AddOperationRequest) | RemoveRequest (r : RemoveOperationRequest) | MoveRequest (r : MoveOperationRequest)
  | CleanupRequest (r : CleanupOperationRequest) | UpgradeRequest (r : UpgradeOperationRequest)
  | UpdateRequest (r : UpdateOperationRequest) | BranchCreateRequest (r : BranchCreateOperationRequest)
  | SwitchRequest (r : SwitchOperationRequest) | RelocateRequest (r : RelocateOperationRequest)
  | MergeRequest (r : MergeRangeOperationRequest) | PropertySetRequest (r : PropertySetOperationRequest)
  | PropertyDeleteRequest (r : PropertyDeleteOperationRequest) | ChangelistSetRequest (r : ChangelistSetOperationRequest)
  | ChangelistClearRequest (r : ChangelistClearOperationRequest) | LockRequest (r : LockOperationRequest)
  | UnlockRequest (r : UnlockOperationRequest) | CommitRequest (r : CommitOperationRequest)
  | ResolveRequest (r : ResolveOperationRequest) | RevertRequest (r : RevertOperationRequest).

Definition request_kind (q : OperationRequest) : OperationKind :=
  match q with
  | AddRequest _ => KAdd | RemoveRequest _ => KRemove | MoveRequest _ => KMove | CleanupRequest _ => KCleanup
  | UpgradeRequest _ => KUpgrade | UpdateRequest _ => KUpdate | BranchCreateRequest _ => KBranchCreate
  | SwitchRequest _ => KSwitch | RelocateRequest _ => KRelocate | MergeRequest _ => KMerge
  | PropertySetRequest _ => KPropertySet | PropertyDeleteRequest _ => KPropertyDelete
  | ChangelistSetRequest _ => KChangelistSet | ChangelistClearRequest _ => KChangelistClear | LockRequest _ => KLock
  | UnlockRequest _ => KUnlock | CommitRequest _ => KCommit | ResolveRequest _ => KResolve | RevertRequest _ => KRevert
  end.
Definition request_identity (q : OperationRequest) : OperationRequestIdentity :=
  match q with
  | AddRequest r => add_identity r | RemoveRequest r => remove_identity r | MoveRequest r => move_identity r
  | CleanupRequest r => cleanup_identity r | UpgradeRequest r => upgrade_identity r | UpdateRequest r => update_identity r
  | BranchCreateRequest r => branch_identity r | SwitchRequest r => switch_identity r | RelocateRequest r => relocate_identity r
  | MergeRequest r => merge_identity r | PropertySetRequest r => propset_identity r | PropertyDeleteRequest r => propdel_identity r
  | ChangelistSetRequest r => clset_identity r | ChangelistClearRequest r => clclear_identity r | LockRequest r => lock_identity r
  | UnlockRequest r => unlock_identity r | CommitRequest r => commit_identity r | ResolveRequest r => resolve_identity r
  | RevertRequest r => revert_identity r
  end.
Definition request_options (q : OperationRequest) : list (string * js_value) :=
  match q with
  | AddRequest r => C.add_options r | RemoveRequest r => C.remove_options r | MoveRequest r => C.move_options r
  | CleanupRequest r => C.cleanup_options r | UpgradeRequest r => C.upgrade_options r | UpdateRequest r => C.update_options r
  | BranchCreateRequest r => C.branchCreate_options r | SwitchRequest r => C.switch_options r | RelocateRequest r => C.relocate_options r
  | MergeRequest r => C.merge_options r | PropertySetRequest r => C.propertySet_options r
  | PropertyDeleteRequest r => C.propertyDelete_options r | ChangelistSetRequest r => C.changelistSet_options r
  | ChangelistClearRequest r => C.changelistClear_options r | LockRequest r => C.lock_options r | UnlockRequest r => C.unlock_options r
  | CommitRequest r => C.commit_options r | ResolveRequest r => C.resolve_options r | RevertRequest r => C.revert_options r
  end.

(** The fields of a request besides its identity, by name. *)
Definition texts (l : list string) : js_value := VArr (map VStr l).
Definition revision_of (r : UpdateOperationRevision) : js_value := match r with Head => VStr "head" | Revision z => VNum (NumInt z) end.
Definition request_fields (q : OperationRequest) : list (string * js_value) :=
  match q with
  | AddRequest r => [("paths", texts (add_paths r)); ("depth", VStr (depth_name (add_depth r))); ("force", VBool (add_force r));
      ("noIgnore", VBool (add_noIgnore r)); ("noAutoprops", VBool (add_noAutoprops r)); ("addParents", VBool (add_addParents r))]
  | RemoveRequest r => [("paths", texts (remove_paths r)); ("force", VBool (remove_force r)); ("keepLocal", VBool (remove_keepLocal r))]
  | MoveRequest r => [("sourcePath", VStr (move_sourcePath r)); ("destinationPath", VStr (move_destinationPath r)); ("makeParents", VBool (move_makeParents r))]
  | CleanupRequest r => [("path", VStr "."); ("breakLocks", VBool (cleanup_breakLocks r)); ("fixRecordedTimestamps", VBool (cleanup_fixRecordedTimestamps r));
      ("clearDavCache", VBool (cleanup_clearDavCache r)); ("vacuumPristines", VBool (cleanup_vacuumPristines r)); ("includeExternals", VBool (cleanup_includeExternals r))]
  | UpgradeRequest r => [("path", VStr ".")]
  | UpdateRequest r => [("path", VStr (update_path r)); ("revision", revision_of (update_revision r)); ("depth", VStr (update_depth_name (update_depth r)));
      ("depthIsSticky", VBool (update_depthIsSticky r)); ("ignoreExternals", VBool (update_ignoreExternals r))]
  | BranchCreateRequest r => [("sourceUrl", VStr (branch_sourceUrl r)); ("destinationUrl", VStr (branch_destinationUrl r)); ("revision", revision_of (branch_revision r));
      ("message", VStr (branch_message r)); ("makeParents", VBool (branch_makeParents r)); ("ignoreExternals", VBool (branch_ignoreExternals r))]
  | SwitchRequest r => [("path", VStr (switch_path r)); ("url", VStr (switch_url r)); ("revision", revision_of (switch_revision r));
      ("depth", VStr (update_depth_name (switch_depth r))); ("depthIsSticky", VBool (switch_depthIsSticky r));
      ("ignoreExternals", VBool (switch_ignoreExternals r)); ("ignoreAncestry", VBool (switch_ignoreAncestry r))]
  | RelocateRequest r => [("fromUrl", VStr (relocate_fromUrl r)); ("toUrl", VStr (relocate_toUrl r)); ("ignoreExternals", VBool (relocate_ignoreExternals r))]
  | MergeRequest r => [("sourceUrl", VStr (merge_sourceUrl r)); ("targetPath", VStr (merge_targetPath r)); ("startRevision", VNum (NumInt (merge_startRevision r)));
      ("endRevision", VNum (NumInt (merge_endRevision r))); ("depth", VStr (depth_name (merge_depth r))); ("ignoreMergeinfo", VBool (merge_ignoreMergeinfo r));
      ("diffIgnoreAncestry", VBool (merge_diffIgnoreAncestry r)); ("forceDelete", VBool (merge_forceDelete r)); ("recordOnly", VBool (merge_recordOnly r));
      ("dryRun", VBool (merge_dryRun r)); ("allowMixedRevisions", VBool (merge_allowMixedRevisions r))]
  | PropertySetRequest r => [("path", VStr (propset_path r)); ("name", VStr (propset_name r)); ("value", VStr (propset_value r))]
  | PropertyDeleteRequest r => [("path", VStr (propdel_path r)); ("name", VStr (propdel_name r))]
  | ChangelistSetRequest r => [("paths", texts (clset_paths r)); ("depth", VStr (depth_name (clset_depth r))); ("changelist", VStr (clset_changelist r));
      ("changelists", texts (clset_changelists r))]
  | ChangelistClearRequest r => [("paths", texts (clclear_paths r)); ("depth", VStr (depth_name (clclear_depth r))); ("changelists", texts (clclear_changelists r))]
  | LockRequest r => [("paths", texts (lock_paths r)); ("comment", nullable VStr (OperationTypes.lock_comment r)); ("stealLock", VBool (lock_stealLock r))]
  | UnlockRequest r => [("paths", texts (unlock_paths r)); ("breakLock", VBool (unlock_breakLock r))]
  | CommitRequest r => [("paths", texts (commit_paths r)); ("message", VStr (commit_message r)); ("depth", VStr "empty"); ("changelists", texts (commit_changelists r));
      ("keepLocks", VBool false); ("keepChangelists", VBool false); ("commitAsOperations", VBool false); ("includeFileExternals", VBool false);
      ("includeDirExternals", VBool false)]
  | ResolveRequest r => [("paths", texts (resolve_paths r)); ("depth", VStr "empty"); ("choice", VStr (choice_name (resolve_choice r)))]
  | RevertRequest r => [("paths", texts (revert_paths r)); ("depth", VStr (depth_name (revert_depth r))); ("changelists", texts (revert_changelists r));
      ("clearChangelists", VBool (revert_clearChangelists r)); ("metadataOnly", VBool (revert_metadataOnly r)); ("addedKeepLocal", VBool (revert_addedKeepLocal r))]
  end.

(** The request as the caller passes it, and as it goes to the backend. *)
Definition encode_operation (q : OperationRequest) : js_value :=
  VObj (("repositoryId", VStr (repositoryId (request_identity q))) :: ("epoch", VNum (NumInt (epoch (request_identity q)))) :: request_fields q).
Definition wire_request (q : OperationRequest) : js_value :=
  VObj [("repositoryId", VStr (repositoryId (request_identity q))); ("epoch", VNum (NumInt (epoch (request_identity q))));
        ("kind", VStr (kind_name (request_kind q))); ("options", VObj (("version", VNum (NumInt 1)) :: request_fields q))].
Lemma options_are_fields q : request_options q = request_fields q.
Proof. by destruct q. Qed.

Definition options_ok (q : OperationRequest) : Prop :=
  match q with
  | AddRequest r => op_paths (add_paths r) /\ length (add_paths r) = 1
  | RemoveRequest r => op_paths (remove_paths r) /\ NoDup (remove_paths r)
  | MoveRequest r => op_path (move_sourcePath r) /\ op_path (move_destinationPath r) /\ move_sourcePath r <> "." /\
      move_destinationPath r <> "." /\ move_destinationPath r <> move_sourcePath r
  | CleanupRequest _ | UpgradeRequest _ => True
  | UpdateRequest r => op_path (update_path r) /\ revision_ok (update_revision r) /\ sticky_ok (update_depth r) (update_depthIsSticky r)
  | BranchCreateRequest r => one_line (branch_sourceUrl r) /\ one_line (branch_destinationUrl r) /\
      branch_destinationUrl r <> branch_sourceUrl r /\ revision_ok (branch_revision r) /\ plain_text (branch_message r)
  | SwitchRequest r => op_path (switch_path r) /\ one_line (switch_url r) /\ revision_ok (switch_revision r) /\
      sticky_ok (switch_depth r) (switch_depthIsSticky r)
  | RelocateRequest r => one_line (relocate_fromUrl r) /\ one_line (relocate_toUrl r) /\ relocate_fromUrl r <> relocate_toUrl r
  | MergeRequest r => one_line (merge_sourceUrl r) /\ op_path (merge_targetPath r) /\ revnum (merge_startRevision r) /\
      revnum (merge_endRevision r) /\ merge_startRevision r <> merge_endRevision r
  | PropertySetRequest r => op_path (propset_path r) /\ property_name (propset_name r) /\
      includes (propset_value r) C.NUL = false /\ includes (propset_value r) C.CR = false
  | PropertyDeleteRequest r => op_path (propdel_path r) /\ property_name (propdel_name r)
  | ChangelistSetRequest r => op_paths (clset_paths r) /\ NoDup (clset_paths r) /\ one_line (clset_changelist r) /\
      changelists_ok (clset_changelists r)
  | ChangelistClearRequest r => op_paths (clclear_paths r) /\ NoDup (clclear_paths r) /\ changelists_ok (clclear_changelists r)
  | LockRequest r => op_paths (lock_paths r) /\ NoDup (lock_paths r) /\ "." ∉ lock_paths r /\
      (forall s, OperationTypes.lock_comment r = Some s -> plain_text s)
  | UnlockRequest r => op_paths (unlock_paths r) /\ NoDup (unlock_paths r) /\ "." ∉ unlock_paths r
  | CommitRequest r => op_paths (commit_paths r) /\ NoDup (commit_paths r) /\ "." ∉ commit_paths r /\
      plain_text (commit_message r) /\ changelists_ok (commit_changelists r)
  | ResolveRequest r => op_paths (resolve_paths r) /\ length (resolve_paths r) = 1
  | RevertRequest r => op_paths (revert_paths r) /\ changelists_ok (revert_changelists r)
  end.
Definition operation_ok (q : OperationRequest) : Prop := identity_ok (request_identity q) /\ options_ok q.

(** ** Each field parser takes what is valid *)
Lemma string_takes invalid v s f : v = Some (VStr s) -> text_ok s -> requireString invalid v f = Ok s.
Proof. intros -> Hs. by apply requireString_ok. Qed.

Lemma path_takes invalid v p f : v = Some (VStr p) -> op_path p -> C.requirePathOf invalid v f = Ok p.
Proof. intros -> [Ht Hr]. unfold C.requirePathOf. by rewrite (string_takes invalid _ p f eq_refl Ht); cbn; rewrite Hr. Qed.

Lemma mapi_takes {A B} (f : nat -> A -> result B) (g : B -> A) l :
  Forall (fun b => forall i, f i (g b) = Ok b) l -> mapi f (map g l) = Ok l.
Proof.
  intros H. apply mapi_ok. rewrite length_map. split; [done|]. intros k x y Hx Hy.
  change (map g l) with (g <$> l) in Hx. rewrite list_lookup_fmap, Hy in Hx. injection Hx as <-.
  rewrite Forall_lookup in H. by eapply H.
Qed.

Lemma paths_take v l f b : v = Some (C.strings l) -> op_paths l -> C.requirePathArray v f b = Ok l.
Proof.
  intros -> [Hne Hl]. unfold C.requirePathArray, C.strings. rewrite length_map.
  replace (b || negb (Nat.eqb (length l) 0)) with true by (destruct l; [done|]; by rewrite orb_true_r). cbn [require mbind result_bind].
  apply mapi_takes. eapply Forall_impl; [exact Hl|]. intros p Hp i. by apply path_takes.
Qed.

Lemma distinct_takes b f l seen i :
  NoDup l -> (forall p, p ∈ l -> p ∉ seen) -> (b = false -> "." ∉ l) -> C.distinct_loop b f seen i l = Ok tt.
Proof.
  revert seen i. induction l as [|p l IH]; intros seen i Hn Hs Hr; cbn [C.distinct_loop]; [done|].
  apply NoDup_cons in Hn as [Hp Hn]. unfold require.
  replace (set_has seen p) with false by (symmetry; apply bool_decide_eq_false, Hs; by left).
  replace (negb b && bool_decide (p = ".")) with false.
  2: { destruct b; [done|]. symmetry. apply bool_decide_eq_false. intros ->. apply Hr; [done|by left]. }
  cbn. apply IH; [done| |].
  - intros q Hq [Hin| ->]%elem_of_set_add; [by eapply Hs; [right|]|done].
  - intros Hb Hin. apply Hr; [done|by right].
Qed.

Lemma single_takes v l f : v = Some (C.strings l) -> op_paths l -> length l = 1 -> C.requireSinglePathArray v f = Ok l.
Proof. intros Hv Hl H1. unfold C.requireSinglePathArray. rewrite (paths_take v l f false Hv Hl). cbn. by rewrite H1. Qed.

Lemma distinct_paths_take v l f : v = Some (C.strings l) -> op_paths l -> NoDup l -> C.requireDistinctPathArray v f = Ok l.
Proof.
  intros Hv Hl Hn. unfold C.requireDistinctPathArray. rewrite (paths_take v l f false Hv Hl). cbn.
  rewrite distinct_takes; [done|done|by intros ? _ ?%elem_of_nil|done].
Qed.

Lemma listed_paths_take v l f : v = Some (C.strings l) -> op_paths l -> NoDup l -> "." ∉ l ->
  C.requireLockPathArray v f = Ok l /\ C.requireCommitPathArray v f = Ok l.
Proof.
  intros Hv Hl Hn Hr. unfold C.requireLockPathArray, C.requireCommitPathArray. rewrite (paths_take v l f false Hv Hl). cbn.
  rewrite distinct_takes; [done|done|by intros ? _ ?%elem_of_nil|done].
Qed.

Lemma one_line_takes v s f : v = Some (VStr s) -> one_line s -> C.requireRepositoryUrl v f = Ok s /\ C.requireChangelistName v f = Ok s.
Proof.
  intros Hv (Ht & H1 & H2 & H3). unfold C.requireRepositoryUrl, C.requireChangelistName, C.requireRequestString.
  rewrite (string_takes _ v s f Hv Ht). cbn. by rewrite H1, H2, H3.
Qed.

Lemma changelists_take v l f b : v = Some (C.strings l) -> changelists_ok l -> (b = false -> l <> []) -> C.requireChangelistArray v f b = Ok l.
Proof.
  intros -> [Hn Hl] Hb. unfold C.requireChangelistArray, C.strings. rewrite length_map.
  replace (b || negb (Nat.eqb (length l) 0)) with true by (destruct b, l; try done; by specialize (Hb eq_refl)). cbn [require mbind result_bind].
  assert (forall seen i, (forall p, p ∈ l -> p ∉ seen) -> C.changelist_loop f seen i (map VStr l) = Ok l) as H.
  { clear Hb. induction l as [|s l IH]; intros seen i Hs; [done|]. apply NoDup_cons in Hn as [Hsl Hn]. inversion Hl; subst.
    cbn [map C.changelist_loop]. rewrite (proj2 (one_line_takes (Some (VStr s)) s (at_index f i) eq_refl H1)). cbn.
    replace (set_has seen s) with false by (symmetry; apply bool_decide_eq_false, Hs; by left). cbn.
    rewrite IH; [done|done|done|]. intros q Hq [Hin| ->]%elem_of_set_add; [by eapply Hs; [right|]|done]. }
  apply H. by intros ? _ ?%elem_of_nil.
Qed.

Lemma message_takes v s f : v = Some (VStr s) -> plain_text s -> C.requireCommitMessage v f = Ok s.
Proof.
  intros Hv (Ht & H1 & H2). unfold C.requireCommitMessage, C.requireRequestString. rewrite (string_takes _ v s f Hv Ht). cbn. by rewrite H1, H2.
Qed.

Lemma comment_takes v o f : v = Some (nullable VStr o) -> (forall s, o = Some s -> plain_text s) -> C.requireLockComment v f = Ok o.
Proof.
  intros -> Ho. destruct o as [s|]; [|done]. destruct (Ho s eq_refl) as (Ht & H1 & H2).
  unfold C.requireLockComment. cbn [nullable]. unfold C.requireRequestString. rewrite (string_takes _ _ s f eq_refl Ht).
  cbn [mbind result_bind]. by rewrite H1, H2.
Qed.

Lemma property_name_takes v s f : v = Some (VStr s) -> property_name s -> C.requirePropertyName v f = Ok s.
Proof.
  intros Hv ((Ht & H1 & H2 & H3) & Hp). unfold C.requirePropertyName, C.requireRequestString.
  rewrite (string_takes _ v s f Hv Ht). cbn. by rewrite H1, H2, H3, Hp.
Qed.

Lemma property_value_takes v s f : v = Some (VStr s) -> includes s C.NUL = false -> includes s C.CR = false -> C.requirePropertyValue v f = Ok s.
Proof. intros -> H1 H2. cbn. by rewrite H1, H2. Qed.

Lemma depth_takes invalid v d f : v = Some (VStr (depth_name d)) -> C.requireDepth invalid v f = Ok d.
Proof. intros ->. by destruct d. Qed.
Lemma update_depth_takes v d f : v = Some (VStr (update_depth_name d)) -> C.requireUpdateDepth v f = Ok d.
Proof. intros ->. by destruct d as [|[]]. Qed.
Lemma choice_takes v c f : v = Some (VStr (choice_name c)) -> C.requireResolveChoice v f = Ok c.
Proof. intros ->. by destruct c. Qed.
Lemma move_path_takes v p f : v = Some (VStr p) -> op_path p -> p <> "." -> C.requireMovePath v f = Ok p.
Proof.
  intros Hv Hp Hne. unfold C.requireMovePath, C.requireRequestPath. rewrite (path_takes _ v p f Hv Hp). cbn.
  by rewrite bool_decide_false.
Qed.
Lemma boolean_takes v b f : v = Some (VBool b) -> C.requireRequestBoolean v f = Ok b.
Proof. by intros ->. Qed.

Lemma merge_revision_takes v z f : v = Some (num z) -> revnum z -> C.requireMergeRevision v f = Ok z.
Proof.
  intros -> [H0 H1]. unfold C.requireMergeRevision, num, requireNonNegativeInteger.
  replace (isNonNegativeSafeInteger z) with true by (symmetry; apply isNonNegativeSafeInteger_spec; unfold MAX_SVN_REVNUM, MAX_SAFE_INTEGER in *; lia).
  cbn. by replace (Z.leb z MAX_SVN_REVNUM) with true by lia.
Qed.
Lemma revision_takes v r f : v = Some (C.revision_value r) -> revision_ok r -> C.requireUpdateRevision v f = Ok r.
Proof.
  intros -> Hr. destruct r as [|z]; [done|].
  unfold C.requireUpdateRevision. cbn [C.revision_value].
  by rewrite (merge_revision_takes (Some (VNum (NumInt z))) z f eq_refl Hr).
Qed.

Lemma sticky_takes (d : UpdateOperationDepth) (sticky : bool) e :
  sticky_ok d sticky -> require (negb (match d with WorkingCopyDepth => sticky | _ => false end)) e = Ok tt.
Proof. intros H. destruct d; [by rewrite H|done]. Qed.

Lemma differ_takes (a b : string) e : a <> b -> require (negb (bool_decide (a = b))) e = Ok tt.
Proof. intros H. by rewrite bool_decide_false. Qed.
Lemma differ_num_takes (a b : Z) e : a <> b -> require (negb (Z.eqb a b)) e = Ok tt.
Proof. intros H. by replace (Z.eqb a b) with false by lia. Qed.

(** ** Requests *)
Lemma record_takes fields expected :
  (forall k, k ∈ map_keys fields -> k ∈ expected) -> C.requestRecord (Some (VObj fields)) expected = Ok (VObj fields).
Proof.
  intros H. unfold C.requestRecord, C.requireExactRequestKeys. cbn [requireRecord mbind result_bind].
  replace (eachi _ _) with (Ok tt); [done|]. symmetry. apply eachi_ok. intros i k Hk. apply require_ok, bool_decide_eq_true, H.
  by eapply list_elem_of_lookup_2.
Qed.

Lemma identity_takes r i :
  field r "repositoryId" = Some (VStr (repositoryId i)) -> field r "epoch" = Some (num (epoch i)) -> identity_ok i -> C.requireIdentity r = Ok i.
Proof.
  intros H1 H2 [Hr He]. unfold C.requireIdentity, C.requireRequestString. rewrite H1, H2.
  rewrite (string_takes _ _ (repositoryId i) "repositoryId" eq_refl Hr). cbn [mbind result_bind].
  rewrite (proj2 (requireNonNegativeInteger_ok _ _ _ (epoch i)) (conj eq_refl He)). cbn. by destruct i.
Qed.

Ltac take := apply bind_ok; eexists; split;
  [ first
    [ apply record_takes; exact (fun _ H => H)
    | eapply identity_takes; [reflexivity|reflexivity|eassumption]
    | eapply boolean_takes; reflexivity
    | eapply path_takes; [reflexivity|eassumption]
    | eapply paths_take; [reflexivity|eassumption]
    | eapply single_takes; [reflexivity|eassumption|eassumption]
    | eapply distinct_paths_take; [reflexivity|eassumption|eassumption]
    | eapply listed_paths_take; [reflexivity|eassumption|eassumption|eassumption]
    | eapply one_line_takes; [reflexivity|eassumption]
    | eapply changelists_take; [reflexivity|eassumption|discriminate]
    | eapply message_takes; [reflexivity|eassumption]
    | eapply comment_takes; [reflexivity|eassumption]
    | eapply property_name_takes; [reflexivity|eassumption]
    | eapply property_value_takes; [reflexivity|eassumption|eassumption]
    | eapply depth_takes; reflexivity
    | eapply update_depth_takes; reflexivity
    | eapply choice_takes; reflexivity
    | eapply move_path_takes; [reflexivity|eassumption|eassumption]
    | eapply merge_revision_takes; [reflexivity|eassumption]
    | eapply revision_takes; [reflexivity|eassumption]
    | eapply sticky_takes; eassumption
    | eapply differ_takes; eassumption
    | eapply differ_num_takes; eassumption
    | reflexivity ] | ].

Lemma validateAdd_takes r : operation_ok (AddRequest r) -> C.validateAddRequest (Some (encode_operation (AddRequest r))) = Ok r.
Proof. intros (Hi & Hp & H1). unfold C.validateAddRequest. repeat take. by destruct r. Qed.
Lemma validateRemove_takes r : operation_ok (RemoveRequest r) -> C.validateRemoveRequest (Some (encode_operation (RemoveRequest r))) = Ok r.
Proof. intros (Hi & Hp & Hn). unfold C.validateRemoveRequest. repeat take. by destruct r. Qed.
Lemma validateMove_takes r : operation_ok (MoveRequest r) -> C.validateMoveRequest (Some (encode_operation (MoveRequest r))) = Ok r.
Proof. intros (Hi & H1 & H2 & H3 & H4 & H5). unfold C.validateMoveRequest. repeat take. by destruct r. Qed.
Lemma validateCleanup_takes r : operation_ok (CleanupRequest r) -> C.validateCleanupRequest (Some (encode_operation (CleanupRequest r))) = Ok r.
Proof. intros (Hi & _). unfold C.validateCleanupRequest. repeat take. by destruct r. Qed.
Lemma validateUpgrade_takes r : operation_ok (UpgradeRequest r) -> C.validateUpgradeRequest (Some (encode_operation (UpgradeRequest r))) = Ok r.
Proof. intros (Hi & _). unfold C.validateUpgradeRequest. repeat take. by destruct r. Qed.
Lemma validateUpdate_takes r : operation_ok (UpdateRequest r) -> C.validateUpdateRequest (Some (encode_operation (UpdateRequest r))) = Ok r.
Proof. intros (Hi & Hp & Hr & Hs). unfold C.validateUpdateRequest. repeat take. by destruct r. Qed.
Lemma validateBranchCreate_takes r : operation_ok (BranchCreateRequest r) -> C.validateBranchCreateRequest (Some (encode_operation (BranchCreateRequest r))) = Ok r.
Proof. intros (Hi & H1 & H2 & H3 & H4 & H5). unfold C.validateBranchCreateRequest. repeat take. by destruct r. Qed.
Lemma validateSwitch_takes r : operation_ok (SwitchRequest r) -> C.validateSwitchRequest (Some (encode_operation (SwitchRequest r))) = Ok r.
Proof. intros (Hi & H1 & H2 & H3 & H4). unfold C.validateSwitchRequest. repeat take. by destruct r. Qed.
Lemma validateRelocate_takes r : operation_ok (RelocateRequest r) -> C.validateRelocateRequest (Some (encode_operation (RelocateRequest r))) = Ok r.
Proof. intros (Hi & H1 & H2 & H3). unfold C.validateRelocateRequest. repeat take. by destruct r. Qed.
Lemma validateMergeRange_takes r : operation_ok (MergeRequest r) -> C.validateMergeRangeRequest (Some (encode_operation (MergeRequest r))) = Ok r.
Proof. intros (Hi & H1 & H2 & H3 & H4 & H5). unfold C.validateMergeRangeRequest. repeat take. by destruct r. Qed.
Lemma validatePropertySet_takes r : operation_ok (PropertySetRequest r) -> C.validatePropertySetRequest (Some (encode_operation (PropertySetRequest r))) = Ok r.
Proof. intros (Hi & H1 & H2 & H3 & H4). unfold C.validatePropertySetRequest. repeat take. by destruct r. Qed.
Lemma validatePropertyDelete_takes r : operation_ok (PropertyDeleteRequest r) -> C.validatePropertyDeleteRequest (Some (encode_operation (PropertyDeleteRequest r))) = Ok r.
Proof. intros (Hi & H1 & H2). unfold C.validatePropertyDeleteRequest. repeat take. by destruct r. Qed.
Lemma validateChangelistSet_takes r : operation_ok (ChangelistSetRequest r) -> C.validateChangelistSetRequest (Some (encode_operation (ChangelistSetRequest r))) = Ok r.
Proof. intros (Hi & H1 & H2 & H3 & H4). unfold C.validateChangelistSetRequest. repeat take. by destruct r. Qed.
Lemma validateChangelistClear_takes r : operation_ok (ChangelistClearRequest r) -> C.validateChangelistClearRequest (Some (encode_operation (ChangelistClearRequest r))) = Ok r.
Proof. intros (Hi & H1 & H2 & H3). unfold C.validateChangelistClearRequest. repeat take. by destruct r. Qed.
Lemma validateLock_takes r : operation_ok (LockRequest r) -> C.validateLockRequest (Some (encode_operation (LockRequest r))) = Ok r.
Proof. intros (Hi & H1 & H2 & H3 & H4). unfold C.validateLockRequest. repeat take. by destruct r. Qed.
Lemma validateUnlock_takes r : operation_ok (UnlockRequest r) -> C.validateUnlockRequest (Some (encode_operation (UnlockRequest r))) = Ok r.
Proof. intros (Hi & H1 & H2 & H3). unfold C.validateUnlockRequest. repeat take. by destruct r. Qed.
Lemma validateCommit_takes r : operation_ok (CommitRequest r) -> C.validateCommitRequest (Some (encode_operation (CommitRequest r))) = Ok r.
Proof. intros (Hi & H1 & H2 & H3 & H4 & H5). unfold C.validateCommitRequest. repeat take. by destruct r. Qed.
Lemma validateResolve_takes r : operation_ok (ResolveRequest r) -> C.validateResolveRequest (Some (encode_operation (ResolveRequest r))) = Ok r.
Proof. intros (Hi & H1 & H2). unfold C.validateResolveRequest. repeat take. by destruct r. Qed.
Lemma validateRevert_takes r : operation_ok (RevertRequest r) -> C.validateRevertRequest (Some (encode_operation (RevertRequest r))) = Ok r.
Proof. intros (Hi & H1 & H2). unfold C.validateRevertRequest. repeat take. by destruct r. Qed.

(** ** Answers *)
Definition encode_warning (w : OperationWarning) : js_value :=
  VObj [("code", VStr (warning_code w)); ("messageKey", VStr (warning_messageKey w)); ("args", VObj (warning_args w))].
Definition encode_response (r : OperationRunResponse) : js_value :=
  VObj [("repositoryId", VStr (repositoryId (response_identity r))); ("epoch", num (epoch (response_identity r)));
        ("operationId", VStr (operationId r)); ("kind", VStr (kind r)); ("touchedPaths", C.strings (touchedPaths r));
        ("revision", nullable num (revision r));
        ("summary", VObj [("affectedPaths", num (affectedPaths (summary r))); ("skippedPaths", num (skippedPaths (summary r)))]);
        ("warnings", VArr (map encode_warning (warnings r)));
        ("reconcile", VObj [("targets", VArr (map encode_target (targets (reconcile r))));
                            ("requiresFullReconcile", VBool (requiresFullReconcile (reconcile r)))])].

(** The contract of answers; [allowEmpty] for the one operation that leaves the
    working copy alone. *)
Record response_valid (allowEmpty : bool) (r : OperationRunResponse) : Prop := {
  valid_identity : identity_ok (response_identity r);
  valid_id : text_ok (operationId r);
  valid_kind : text_ok (kind r);
  valid_touched : Forall op_path (touchedPaths r);
  valid_revision : forall z, revision r = Some z -> isSafeInteger z = true;
  valid_summary : count_ok (affectedPaths (summary r)) /\ count_ok (skippedPaths (summary r));
  valid_warnings : Forall (fun w => text_ok (warning_code w) /\ text_ok (warning_messageKey w)) (warnings r);
  valid_targets : Forall (fun t => op_path (target_path t) /\ text_ok (target_reason t)) (targets (reconcile r));
  valid_reconcile : requiresFullReconcile (reconcile r) || negb (Nat.eqb (length (targets (reconcile r))) 0) || allowEmpty = true;
}.

Lemma keys_take fields f expected : (forall k, k ∈ map_keys fields -> k ∈ expected) -> C.requireExactResponseKeys (VObj fields) f expected = Ok tt.
Proof. intros H. by apply requireExactKeys_ok. Qed.

Lemma count_takes v z f : v = Some (num z) -> count_ok z -> requireNonNegativeInteger C.invalidOperationResponse v f = Ok z.
Proof. intros -> Hz. by apply requireNonNegativeInteger_ok. Qed.

Ltac take_response := apply bind_ok; eexists; split;
  [ first
    [ reflexivity
    | apply keys_take; exact (fun _ H => H)
    | eapply string_takes; [reflexivity|eassumption]
    | eapply count_takes; [reflexivity|eassumption]
    | eapply path_takes; [reflexivity|eassumption]
    | eapply depth_takes; reflexivity ] | ].

Lemma summary_takes v s f :
  v = Some (VObj [("affectedPaths", num (affectedPaths s)); ("skippedPaths", num (skippedPaths s))]) ->
  count_ok (affectedPaths s) -> count_ok (skippedPaths s) -> C.parseOperationSummary v f = Ok s.
Proof. intros -> H1 H2. unfold C.parseOperationSummary. repeat take_response. by destruct s. Qed.

Lemma warning_takes w f : text_ok (warning_code w) -> text_ok (warning_messageKey w) -> C.parseWarning (encode_warning w) f = Ok w.
Proof.
  intros H1 H2. unfold C.parseWarning. do 2 take_response.
  change (field (encode_warning w) "args") with (Some (VObj (warning_args w))). cbn iota. repeat take_response. by destruct w.
Qed.

Lemma target_takes t f : op_path (target_path t) -> text_ok (target_reason t) -> C.parseTarget (encode_target t) f = Ok t.
Proof. intros H1 H2. unfold C.parseTarget. repeat take_response. by destruct t. Qed.

Lemma reconcile_takes v h f b :
  v = Some (VObj [("targets", VArr (map encode_target (targets h))); ("requiresFullReconcile", VBool (requiresFullReconcile h))]) ->
  Forall (fun t => op_path (target_path t) /\ text_ok (target_reason t)) (targets h) ->
  requiresFullReconcile h || negb (Nat.eqb (length (targets h)) 0) || b = true -> C.parseReconcile v f b = Ok h.
Proof.
  intros -> Ht Hr. unfold C.parseReconcile. do 2 take_response. apply bind_ok. exists (targets h). split.
  { unfold C.parseTargets. take_response. apply mapi_takes. eapply Forall_impl; [exact Ht|].
    intros t [H1 H2] i. by apply target_takes. }
  take_response. apply bind_ok. exists tt. split; [by apply require_ok|]. by destruct h.
Qed.

Lemma revision_field_takes v o f :
  v = Some (nullable num o) -> (forall z, o = Some z -> isSafeInteger z = true) -> C.requireRevision v f = Ok o.
Proof.
  intros -> H. destruct o as [z|]; [|done]. unfold C.requireRevision, requireInteger. cbn [nullable num].
  by rewrite (H z eq_refl).
Qed.

Lemma response_takes b r : response_valid b r -> C.parseOperationRunResponse (Some (encode_response r)) b = Ok r.
Proof.
  intros [[H1 H2] H3 H4 H5 H6 [H7 H8] H9 H10 H11]. unfold C.parseOperationRunResponse. do 6 take_response.
  apply bind_ok. exists (touchedPaths r). split.
  { unfold C.requireResponsePathArray. change (field (encode_response r) "touchedPaths") with (Some (C.strings (touchedPaths r))).
    unfold C.strings. cbn [orb require mbind result_bind]. apply mapi_takes. eapply Forall_impl; [exact H5|].
    intros p Hp i. by apply path_takes. }
  apply bind_ok. exists (revision r). split; [by eapply revision_field_takes|].
  apply bind_ok. exists (summary r). split; [by eapply summary_takes|].
  apply bind_ok. exists (warnings r). split.
  { unfold C.parseWarnings. take_response. apply mapi_takes. eapply Forall_impl; [exact H9|].
    intros w [Hc Hm] i. by apply warning_takes. }
  apply bind_ok. exists (reconcile r). split; [by eapply reconcile_takes|]. destruct r as [[]]. done.
Qed.


(** ** What an operation demands of its answer *)
Definition reconcile_demanded (q : OperationRequest) (h : OperationReconcileHint) : Prop :=
  match q with
  | BranchCreateRequest _ => requiresFullReconcile h = false /\ targets h = []
  | MergeRequest r => requiresFullReconcile h = negb (merge_dryRun r)
  | _ => demands_full (request_kind q) = true -> requiresFullReconcile h = true
  end.
Definition allows_empty (q : OperationRequest) : bool := match q with BranchCreateRequest _ => true | _ => false end.
Record answers (q : OperationRequest) (r : OperationRunResponse) : Prop := {
  answers_valid : response_valid (allows_empty q) r;
  answers_identity : response_identity r = request_identity q;
  answers_kind : kind r = kind_name (request_kind q);
  answers_reconcile : reconcile_demanded q (reconcile r);
  answers_revision : demands_revision (request_kind q) = true -> revision r <> None;
}.

Lemma wire_params q : C.params (request_identity q) (kind_name (request_kind q)) (request_options q) = wire_request q.
Proof. by rewrite options_are_fields. Qed.
Lemma send_takes send q r : send (wire_request q) = Ok (Some (encode_response r)) -> answers q r ->
  C.sendOperationRunRequest send (request_identity q) (kind_name (request_kind q)) (request_options q) (allows_empty q) = Ok r.
Proof.
  intros Hs [Hv Hi Hk _ _]. unfold C.sendOperationRunRequest. rewrite wire_params, Hs. cbn [mbind result_bind].
  rewrite (response_takes _ _ Hv). cbn [mbind result_bind]. unfold C.requireOperationMatchesRequest.
  rewrite Hi, Hk, !bool_decide_true, Z.eqb_refl by done. done.
Qed.
Lemma send_fails send q e : send (wire_request q) = Throw e ->
  C.sendOperationRunRequest send (request_identity q) (kind_name (request_kind q)) (request_options q) (allows_empty q) = Throw e.
Proof. intros Hs. unfold C.sendOperationRunRequest. by rewrite wire_params, Hs. Qed.

Lemma full_takes r b : requiresFullReconcile (reconcile r) = b -> C.requireFullReconcile r b = Ok tt.
Proof. intros <-. unfold C.requireFullReconcile. by rewrite Bool.eqb_reflx. Qed.
Lemma revision_demand_takes r : revision r <> None -> C.requireSomeRevision r = Ok tt.
Proof. intros H. unfold C.requireSomeRevision. by destruct (revision r). Qed.

Lemma operation_returns q send r :
  operation_ok q -> send (wire_request q) = Ok (Some (encode_response r)) -> answers q r -> run_operation (request_kind q) send (Some (encode_operation q)) = Ok r.
Proof.
  intros Hq Hs Ha. pose proof (send_takes send q r Hs Ha) as Hsend. destruct Ha as [_ _ _ Hr Hv].
  destruct q; cbn [request_kind run_operation request_identity request_options kind_name allows_empty reconcile_demanded demands_full demands_revision] in *.
  - unfold C.add. by rewrite (validateAdd_takes r0 Hq).
  - unfold C.remove. by rewrite (validateRemove_takes r0 Hq).
  - unfold C.move. by rewrite (validateMove_takes r0 Hq).
  - unfold C.cleanup. rewrite (validateCleanup_takes r0 Hq). cbn [mbind result_bind]. rewrite Hsend. cbn [mbind result_bind]. by rewrite full_takes by auto.
  - unfold C.upgrade. rewrite (validateUpgrade_takes r0 Hq). cbn [mbind result_bind]. rewrite Hsend. cbn [mbind result_bind]. by rewrite full_takes by auto.
  - unfold C.update. rewrite (validateUpdate_takes r0 Hq). cbn [mbind result_bind]. rewrite Hsend. cbn [mbind result_bind].
    rewrite full_takes by auto. cbn [mbind result_bind]. by rewrite revision_demand_takes by auto.
  - destruct Hr as [Hf Ht]. unfold C.branchCreate. rewrite (validateBranchCreate_takes r0 Hq). cbn [mbind result_bind]. rewrite Hsend. cbn [mbind result_bind].
    rewrite full_takes by auto. cbn [mbind result_bind]. rewrite Ht. cbn. by rewrite revision_demand_takes by auto.
  - unfold C.switch. rewrite (validateSwitch_takes r0 Hq). cbn [mbind result_bind]. rewrite Hsend. cbn [mbind result_bind].
    rewrite full_takes by auto. cbn [mbind result_bind]. by rewrite revision_demand_takes by auto.
  - unfold C.relocate. rewrite (validateRelocate_takes r0 Hq). cbn [mbind result_bind]. rewrite Hsend. cbn [mbind result_bind]. by rewrite full_takes by auto.
  - unfold C.merge. rewrite (validateMergeRange_takes r0 Hq). cbn [mbind result_bind]. rewrite Hsend. cbn [mbind result_bind]. by rewrite full_takes by auto.
  - unfold C.propertySet. by rewrite (validatePropertySet_takes r0 Hq).
  - unfold C.propertyDelete. by rewrite (validatePropertyDelete_takes r0 Hq).
  - unfold C.changelistSet. by rewrite (validateChangelistSet_takes r0 Hq).
  - unfold C.changelistClear. by rewrite (validateChangelistClear_takes r0 Hq).
  - unfold C.lock. by rewrite (validateLock_takes r0 Hq).
  - unfold C.unlock. by rewrite (validateUnlock_takes r0 Hq).
  - unfold C.commit. rewrite (validateCommit_takes r0 Hq). cbn [mbind result_bind]. rewrite Hsend. cbn [mbind result_bind]. by rewrite revision_demand_takes by auto.
  - unfold C.resolve. by rewrite (validateResolve_takes r0 Hq).
  - unfold C.revert. by rewrite (validateRevert_takes r0 Hq).
Qed.

Lemma operation_throws q send e :
  operation_ok q -> send (wire_request q) = Throw e -> run_operation (request_kind q) send (Some (encode_operation q)) = Throw e.
Proof.
  intros Hq Hs. pose proof (send_fails send q e Hs) as Hsend.
  destruct q; cbn [request_kind run_operation request_identity request_options kind_name allows_empty] in *.
  - unfold C.add. rewrite (validateAdd_takes r Hq). cbn [mbind result_bind]. by rewrite Hsend.
  - unfold C.remove. rewrite (validateRemove_takes r Hq). cbn [mbind result_bind]. by rewrite Hsend.
  - unfold C.move. rewrite (validateMove_takes r Hq). cbn [mbind result_bind]. by rewrite Hsend.
  - unfold C.cleanup. rewrite (validateCleanup_takes r Hq). cbn [mbind result_bind]. by rewrite Hsend.
  - unfold C.upgrade. rewrite (validateUpgrade_takes r Hq). cbn [mbind result_bind]. by rewrite Hsend.
  - unfold C.update. rewrite (validateUpdate_takes r Hq). cbn [mbind result_bind]. by rewrite Hsend.
  - unfold C.branchCreate. rewrite (validateBranchCreate_takes r Hq). cbn [mbind result_bind]. by rewrite Hsend.
  - unfold C.switch. rewrite (validateSwitch_takes r Hq). cbn [mbind result_bind]. by rewrite Hsend.
  - unfold C.relocate. rewrite (validateRelocate_takes r Hq). cbn [mbind result_bind]. by rewrite Hsend.
  - unfold C.merge. rewrite (validateMergeRange_takes r Hq). cbn [mbind result_bind]. by rewrite Hsend.
  - unfold C.propertySet. rewrite (validatePropertySet_takes r Hq). cbn [mbind result_bind]. by rewrite Hsend.
  - unfold C.propertyDelete. rewrite (validatePropertyDelete_takes r Hq). cbn [mbind result_bind]. by rewrite Hsend.
  - unfold C.changelistSet. rewrite (validateChangelistSet_takes r Hq). cbn [mbind result_bind]. by rewrite Hsend.
  - unfold C.changelistClear. rewrite (validateChangelistClear_takes r Hq). cbn [mbind result_bind]. by rewrite Hsend.
  - unfold C.lock. rewrite (validateLock_takes r Hq). cbn [mbind result_bind]. by rewrite Hsend.
  - unfold C.unlock. rewrite (validateUnlock_takes r Hq). cbn [mbind result_bind]. by rewrite Hsend.
  - unfold C.commit. rewrite (validateCommit_takes r Hq). cbn [mbind result_bind]. by rewrite Hsend.
  - unfold C.resolve. rewrite (validateResolve_takes r Hq). cbn [mbind result_bind]. by rewrite Hsend.
  - unfold C.revert. rewrite (validateRevert_takes r Hq). cbn [mbind result_bind]. by rewrite Hsend.
Qed.

(** C28: For each of the nineteen operations: a valid request goes to the backend as an object with its repository, its
    epoch, the kind of the operation and, as options, the version 1 and exactly the fields of the request (written out in
    [wire_request]).  What the backend throws is thrown.  An answer that meets the contract of answers and what the
    operation demands (its repository, epoch and kind, the full reconcile of cleanup, upgrade, update, switch, relocate and
    of a merge that is not a dry run, none for a new branch, a revision where one is made) is returned unchanged. *)
Theorem operation_answered (q : OperationRequest) (send : js_value -> result (option js_value)) : operation_ok q ->
  (forall r, answers q r -> send (wire_request q) = Ok (Some (encode_response r)) ->
     run_operation (request_kind q) send (Some (encode_operation q)) = Ok r)
  /\ (forall e, send (wire_request q) = Throw e -> run_operation (request_kind q) send (Some (encode_operation q)) = Throw e).
Proof. intros Hq. split; [intros r Ha Hs; by apply operation_returns|intros e; by apply operation_throws]. Qed.

(** ** An update *)
Definition sample_update : OperationRequest := UpdateRequest
  {| update_identity := {| repositoryId := "repo"; epoch := 3 |}; update_path := "src/lib"; update_revision := Head;
     update_depth := WorkingCopyDepth; update_depthIsSticky := false; update_ignoreExternals := true |}.
Definition sample_answer : OperationRunResponse :=
  {| response_identity := {| repositoryId := "repo"; epoch := 3 |}; operationId := "op-1"; kind := "update";
     touchedPaths := ["src/lib/a.c"]; revision := Some 42%Z; summary := {| affectedPaths := 1; skippedPaths := 0 |};
     warnings := []; reconcile := {| targets := [{| target_path := "src/lib"; target_depth := DInfinity; target_reason := "update" |}];
                                     requiresFullReconcile := true |} |}.
Definition sample_send (v : js_value) : result (option js_value) := Ok (Some (encode_response sample_answer)).

Lemma sample_update_ok : operation_ok sample_update /\ answers sample_update sample_answer.
Proof. split; [by repeat split|]. split; try done. split; cbn; try done; repeat first [apply Forall_nil_2 | apply Forall_cons_2 | split]; try done; by intros z [= <-]. Qed.

Lemma operation_answered_witness :
  run_operation KUpdate sample_send (Some (encode_operation sample_update)) = Ok sample_answer.
Proof.
  apply (proj1 (operation_answered sample_update sample_send (proj1 sample_update_ok)) sample_answer).
  - apply sample_update_ok.
  - reflexivity.
Defined.

Lemma operation_safe_witness :
  run_operation KUpdate sample_send (Some (encode_operation sample_update)) = Ok sample_answer /\
  kind sample_answer = kind_name KUpdate.
Proof.
  assert (run_operation KUpdate sample_send (Some (encode_operation sample_update)) = Ok sample_answer) as H by (vm_compute; reflexivity).
  split; [exact H|]. exact (proj1 (proj2 (operation_safe KUpdate sample_send (Some (encode_operation sample_update)) sample_answer H))).
Defined.
