(* ===== verification/SessionTypes.v ===== *)
(** repository/repositorySessionService.ts, the part without state: requests,
    the answers of "repository/open" and "repository/close", and the checks
    made of them.  [cloneSession] and the spreads copy values, the identity
    here.  The [cause] of an error is not carried.

    A value thrown by other code is [ForeignError tag]; [foreign] gives its
    properties. *)

From Stdlib Require Import ZArith Ascii String List.
From stdpp Require Import base option list strings.
From S2P Require Import Prelude JsString JsMap JsValue StatusTypes StatusWire.

Local Open Scope string_scope.

(** ** node's [path.win32.isAbsolute] and [path.posix.isAbsolute] *)
Definition is_path_separator (c : ascii) : bool := bool_decide (c = slash) || bool_decide (c = backslash).
Definition is_device_letter (c : ascii) : bool :=
  let n := N_of_ascii c in ((65 <=? n) && (n <=? 90) || (97 <=? n) && (n <=? 122))%N.
Definition win32_isAbsolute (path : string) : bool :=
  match path with
  | String c rest =>
      is_path_separator c
      || match rest with
         | String colon (String sep _) =>
             is_device_letter c && bool_decide (colon = ":"%char) && is_path_separator sep
         | _ => false
         end
  | EmptyString => false
  end.
Definition posix_isAbsolute (path : string) : bool :=
  match path with String c _ => bool_decide (c = slash) | EmptyString => false end.

Module RepositorySession.

(** ** Data *)
Record WatchScope := {
  ws_repositoryId : string;
  ws_epoch : Z;
  ws_workingCopyRoot : string;
  ws_pathCase : PathCasePolicy;
  ws_boundaryRoots : option (list string);
}.

(** The scope as the watcher service reads it. *)
Definition watched_scope (s : WatchScope) : RepositoryWatchScope :=
  {| scope_repositoryId := ws_repositoryId s; scope_epoch := ws_epoch s;
     scope_workingCopyRoot := ws_workingCopyRoot s; scope_pathCase := ws_pathCase s;
     scope_boundaryRoots := default [] (ws_boundaryRoots s) |}.

Record RepositoryOpenResponse := {
  open_repositoryId : string;
  open_epoch : Z;
  open_identity : RepositoryIdentity;
}.

Record RepositoryCloseResponse := {
  close_repositoryId : string;
  close_epoch : Z;
  close_closed : bool;
}.

Record session := {
  repositoryId : string;
  epoch : Z;
  identity : RepositoryIdentity;
  watchScope : WatchScope;
}.

Record ValidatedRepositoryOpenRequest := {
  req_path : string;
  req_pathCase : PathCasePolicy;
  req_boundaryRoots : option (list string);
}.

Record RepositorySessionsStaleRequest := {
  stale_reason : string;
  stale_timestamp : string;
  stale_source : string;
}.

Inductive ReopenResult :=
  | Reopened (repositoryId : string) (previousEpoch epoch : Z) (workingCopyRoot : string)
  | ReopenFailed (repositoryId : string) (epoch : Z) (workingCopyRoot code : string).

Inductive SessionChange :=
  | SessionOpened (repositoryId : string) (epoch : Z)
  | SessionReopened (repositoryId : string) (previousEpoch epoch : Z)
  | SessionClosed (repositoryId : string) (epoch : Z).

(** ** Errors *)
Definition sessionError (code category messageKey : string) (args : list (string * safe_arg)) : js_error :=
  StructuredError "RepositorySessionError" code category messageKey args.
Definition staleRequestInvalid (f : string) : js_error :=
  sessionError "SUBVERSIONR_REPOSITORY_STALE_REQUEST_INVALID" "input" "error.status.staleNotificationInvalid"
    [("field", ArgString f)].
Definition staleStateUnavailable (id state : string) : js_error :=
  sessionError "SUBVERSIONR_REPOSITORY_STALE_STATE_UNAVAILABLE" "lifecycle"
    "error.status.notificationStateUnavailable" [("repositoryId", ArgString id); ("state", ArgString state)].
Definition invalidBoundaryRoot (f : string) : js_error :=
  sessionError "SUBVERSIONR_REPOSITORY_BOUNDARY_ROOT_INVALID" "input" "error.repository.boundaryRootInvalid"
    [("field", ArgString f)].
Definition invalidOpenResponse (f : string) : js_error :=
  sessionError "SUBVERSIONR_REPOSITORY_OPEN_RESPONSE_INVALID" "protocol" "error.repository.openResponseInvalid"
    [("field", ArgString f)].
Definition invalidCloseResponse (f : string) : js_error :=
  sessionError "SUBVERSIONR_REPOSITORY_CLOSE_RESPONSE_INVALID" "protocol" "error.repository.closeResponseInvalid"
    [("field", ArgString f)].
Definition alreadyOpen (args : list (string * safe_arg)) : js_error :=
  sessionError "SUBVERSIONR_REPOSITORY_SESSION_ALREADY_OPEN" "lifecycle" "error.repository.sessionAlreadyOpen" args.
Definition idRequired : js_error :=
  sessionError "SUBVERSIONR_REPOSITORY_ID_REQUIRED" "input" "error.repository.idRequired" [].
Definition notOpen (args : list (string * safe_arg)) : js_error :=
  sessionError "SUBVERSIONR_REPOSITORY_SESSION_NOT_OPEN" "lifecycle" "error.repository.sessionNotOpen" args.
Definition at_epoch (id : string) (epoch : Z) : list (string * safe_arg) :=
  [("repositoryId", ArgString id); ("epoch", ArgNumber epoch)].
Definition snapshotUnavailable (id : string) (epoch : Z) : js_error :=
  sessionError "SUBVERSIONR_REPOSITORY_SESSION_SNAPSHOT_UNAVAILABLE" "lifecycle"
    "error.repository.sessionSnapshotUnavailable" (at_epoch id epoch).
Definition openCleanupFailed (id : string) (epoch : Z) : js_error :=
  sessionError "SUBVERSIONR_REPOSITORY_OPEN_CLEANUP_FAILED" "lifecycle" "error.repository.openCleanupFailed"
    (at_epoch id epoch).
Definition openRollbackFailed (id : string) (epoch : Z) : js_error :=
  sessionError "SUBVERSIONR_REPOSITORY_OPEN_ROLLBACK_FAILED" "lifecycle" "error.repository.openRollbackFailed"
    (at_epoch id epoch).
Definition closeCleanupFailed (id : string) (epoch : Z) : js_error :=
  sessionError "SUBVERSIONR_REPOSITORY_CLOSE_CLEANUP_FAILED" "lifecycle" "error.repository.closeCleanupFailed"
    (at_epoch id epoch).
Definition boundaryRootOutside (f : string) : js_error :=
  sessionError "SUBVERSIONR_REPOSITORY_BOUNDARY_ROOT_OUTSIDE_WORKING_COPY" "input"
    "error.repository.boundaryRootOutsideWorkingCopy" [("field", ArgString f)].

(** ** Paths *)
Definition normalizeAbsolutePath (path : string) : string :=
  strip_trailing (replaceAll path backslash slash) slash.

Definition isAllowedAbsolutePrefix (parts : list string) (index : nat) : bool :=
  if (index =? 0)%nat && (1 <? length parts)%nat then true
  else (index =? 1)%nat && bool_decide (parts !! 0 = Some "") && (2 <? length parts)%nat.

(** [parts.some((part, index) => ...)] *)
Fixpoint some_unsafe (all : list string) (index : nat) (parts : list string) : bool :=
  match parts with
  | [] => false
  | part :: rest =>
      (if bool_decide (part = ".") || bool_decide (part = "..") then true
       else if negb (bool_decide (part = "")) then false
       else negb (isAllowedAbsolutePrefix all index))
      || some_unsafe all (S index) rest
  end.

Definition isSafeAbsolutePath (path : string) : bool :=
  if negb (win32_isAbsolute path) && negb (posix_isAbsolute path) then false
  else let parts := split path slash in negb (some_unsafe parts 0 parts).

Definition comparisonKey (pathCase : PathCasePolicy) (path : string) : string :=
  match pathCase with CaseInsensitive => toLocaleLowerCase path | CaseSensitive => path end.

(** ** Requests *)
Definition parsePathCase (v : option js_value) : option PathCasePolicy :=
  match v with
  | Some (VStr s) => if bool_decide (s = "case-sensitive") then Some CaseSensitive
                     else if bool_decide (s = "case-insensitive") then Some CaseInsensitive else None
  | _ => None
  end.
Definition pathCase_name (p : PathCasePolicy) : string :=
  match p with CaseSensitive => "case-sensitive" | CaseInsensitive => "case-insensitive" end.

Definition validateBoundaryRoots (boundaryRoots : option js_value) : result (option (list string)) :=
  match boundaryRoots with
  | None => Ok None
  | Some (VArr items) =>
      roots ← mapi (fun index boundaryRoot =>
        match boundaryRoot with
        | VStr root =>
            _ ← require (isNonEmptyString root) (invalidBoundaryRoot (at_index "boundaryRoots" index));
            _ ← require (isSafeAbsolutePath (normalizeAbsolutePath root))
                  (invalidBoundaryRoot (at_index "boundaryRoots" index));
            Ok root
        | _ => Throw (invalidBoundaryRoot (at_index "boundaryRoots" index))
        end) items;
      Ok (Some roots)
  | Some _ => Throw (invalidBoundaryRoot "boundaryRoots")
  end.

Definition validateOpenRequest (request : option js_value) : result ValidatedRepositoryOpenRequest :=
  let pathRequired := sessionError "SUBVERSIONR_REPOSITORY_OPEN_PATH_REQUIRED" "input"
                        "error.repository.open.pathRequired" [("field", ArgString "path")] in
  match request with
  | Some req =>
      _ ← require (isRecord request) pathRequired;
      path ← match field req "path" with
             | Some (VStr path) => _ ← require (isNonEmptyString path) pathRequired; Ok path
             | _ => Throw pathRequired
             end;
      pathCase ← match parsePathCase (field req "pathCase") with
                 | Some pathCase => Ok pathCase
                 | None => Throw (sessionError "SUBVERSIONR_REPOSITORY_PATH_CASE_REQUIRED" "input"
                             "error.repository.pathCaseRequired" [("field", ArgString "pathCase")])
                 end;
      boundaryRoots ← validateBoundaryRoots (field req "boundaryRoots");
      Ok {| req_path := path; req_pathCase := pathCase; req_boundaryRoots := boundaryRoots |}
  | None => Throw pathRequired
  end.

Definition boundaryRoots_field (roots : option (list string)) : list (string * js_value) :=
  match roots with Some roots => [("boundaryRoots", VArr (map VStr roots))] | None => [] end.

Definition repositoryOpenParams (request : ValidatedRepositoryOpenRequest) : js_value :=
  VObj (("path", VStr (req_path request)) :: boundaryRoots_field (req_boundaryRoots request)).

Definition stale_field (request : js_value) (f : string) : result string :=
  match field request f with
  | Some (VStr s) => _ ← require (isNonEmptyString s) (staleRequestInvalid f); Ok s
  | _ => Throw (staleRequestInvalid f)
  end.

Definition validateStaleRequest (request : option js_value) : result RepositorySessionsStaleRequest :=
  match request with
  | Some req =>
      _ ← require (isRecord request) (staleRequestInvalid "request");
      reason ← stale_field req "reason";
      timestamp ← stale_field req "timestamp";
      source ← stale_field req "source";
      Ok {| stale_reason := reason; stale_timestamp := timestamp; stale_source := source |}
  | None => Throw (staleRequestInvalid "request")
  end.

(** ** Answers *)
Definition requireRecord (v : option js_value) (f : string) : result js_value :=
  match v with
  | Some r => if isRecord v then Ok r else Throw (invalidOpenResponse f)
  | None => Throw (invalidOpenResponse f)
  end.
Definition requireString (v : option js_value) (f : string) : result string :=
  match v with
  | Some (VStr s) => if isNonEmptyString s then Ok s else Throw (invalidOpenResponse f)
  | _ => Throw (invalidOpenResponse f)
  end.
Definition requireSafeInteger (v : option js_value) (f : string) : result Z :=
  match v with
  | Some (VNum (NumInt z)) => if negb (isSafeInteger z) || (z <? 0)%Z then Throw (invalidOpenResponse f) else Ok z
  | _ => Throw (invalidOpenResponse f)
  end.

Definition parseOpenResponse (rawResponse : option js_value) : result RepositoryOpenResponse :=
  response ← requireRecord rawResponse "result";
  identity ← requireRecord (field response "identity") "identity";
  repositoryId ← requireString (field response "repositoryId") "repositoryId";
  epoch ← requireSafeInteger (field response "epoch") "epoch";
  repositoryUuid ← requireString (field identity "repositoryUuid") "identity.repositoryUuid";
  repositoryRootUrl ← requireString (field identity "repositoryRootUrl") "identity.repositoryRootUrl";
  workingCopyRoot ← requireString (field identity "workingCopyRoot") "identity.workingCopyRoot";
  workspaceScopeRoot ← requireString (field identity "workspaceScopeRoot") "identity.workspaceScopeRoot";
  format ← requireSafeInteger (field identity "format") "identity.format";
  Ok {| open_repositoryId := repositoryId; open_epoch := epoch;
        open_identity := {| identity_repositoryUuid := repositoryUuid; identity_repositoryRootUrl := repositoryRootUrl;
          identity_workingCopyRoot := workingCopyRoot; identity_workspaceScopeRoot := workspaceScopeRoot;
          identity_format := format |} |}.

Definition requireCloseRecord (v : option js_value) (f : string) : result js_value :=
  match v with
  | Some r => if isRecord v then Ok r else Throw (invalidCloseResponse f)
  | None => Throw (invalidCloseResponse f)
  end.
Definition requireCloseString (v : option js_value) (f : string) : result string :=
  match v with
  | Some (VStr s) => if isNonEmptyString s then Ok s else Throw (invalidCloseResponse f)
  | _ => Throw (invalidCloseResponse f)
  end.
Definition requireCloseSafeInteger (v : option js_value) (f : string) : result Z :=
  match v with
  | Some (VNum (NumInt z)) => if negb (isSafeInteger z) || (z <? 0)%Z then Throw (invalidCloseResponse f) else Ok z
  | _ => Throw (invalidCloseResponse f)
  end.
Definition requireCloseBoolean (v : option js_value) (f : string) : result bool :=
  match v with
  | Some (VBool b) => Ok b
  | _ => Throw (invalidCloseResponse f)
  end.

Definition parseCloseResponse (rawResponse : option js_value) (expectedId : string) (expectedEpoch : Z)
    : result RepositoryCloseResponse :=
  response ← requireCloseRecord rawResponse "result";
  repositoryId ← requireCloseString (field response "repositoryId") "repositoryId";
  epoch ← requireCloseSafeInteger (field response "epoch") "epoch";
  closed ← requireCloseBoolean (field response "closed") "closed";
  _ ← require (bool_decide (repositoryId = expectedId)) (invalidCloseResponse "repositoryId");
  _ ← require (epoch =? expectedEpoch)%Z (invalidCloseResponse "epoch");
  _ ← require closed (invalidCloseResponse "closed");
  Ok {| close_repositoryId := repositoryId; close_epoch := epoch; close_closed := closed |}.

(** ** Scopes and identities *)
Definition validateBoundaryRootScope (workingCopyRoot : string) (request : ValidatedRepositoryOpenRequest)
    : result (option (list string)) :=
  match req_boundaryRoots request with
  | None => Ok None
  | Some roots =>
      let workingCopyRootKey := comparisonKey (req_pathCase request) (normalizeAbsolutePath workingCopyRoot) in
      roots ← mapi (fun index boundaryRoot =>
        let boundaryRootKey := comparisonKey (req_pathCase request) (normalizeAbsolutePath boundaryRoot) in
        if bool_decide (boundaryRootKey = workingCopyRootKey)
           || negb (startsWith boundaryRootKey (workingCopyRootKey ++ "/"))
        then Throw (boundaryRootOutside (at_index "boundaryRoots" index))
        else Ok boundaryRoot) roots;
      Ok (Some roots)
  end.

Definition watchScopeFromResponse (response : RepositoryOpenResponse) (request : ValidatedRepositoryOpenRequest)
    : result WatchScope :=
  boundaryRoots ← validateBoundaryRootScope (identity_workingCopyRoot (open_identity response)) request;
  Ok {| ws_repositoryId := open_repositoryId response; ws_epoch := open_epoch response;
        ws_workingCopyRoot := identity_workingCopyRoot (open_identity response);
        ws_pathCase := req_pathCase request; ws_boundaryRoots := boundaryRoots |}.

Definition validateReopenResponse (response : RepositoryOpenResponse) (s : session) : result unit :=
  let new := open_identity response in
  let old := identity s in
  require (bool_decide (open_repositoryId response = repositoryId s)
           && bool_decide (identity_repositoryUuid new = identity_repositoryUuid old)
           && bool_decide (identity_repositoryRootUrl new = identity_repositoryRootUrl old)
           && bool_decide (normalizeAbsolutePath (identity_workingCopyRoot new)
                           = normalizeAbsolutePath (identity_workingCopyRoot old)))
    (sessionError "SUBVERSIONR_REPOSITORY_REOPEN_IDENTITY_MISMATCH" "protocol"
       "error.repository.reopenIdentityMismatch"
       [("repositoryId", ArgString (repositoryId s)); ("actualRepositoryId", ArgString (open_repositoryId response))]).

Definition validateSnapshotIdentityForSession (i : RepositoryIdentity) (s : session) : result unit :=
  require (bool_decide (identity_repositoryUuid i = identity_repositoryUuid (identity s))
           && bool_decide (normalizeAbsolutePath (identity_workingCopyRoot i)
                           = normalizeAbsolutePath (identity_workingCopyRoot (identity s))))
    (sessionError "SUBVERSIONR_REPOSITORY_SESSION_IDENTITY_MISMATCH" "protocol"
       "error.repository.sessionIdentityMismatch"
       [("repositoryId", ArgString (repositoryId s)); ("actualRepositoryUuid", ArgString (identity_repositoryUuid i));
        ("actualWorkingCopyRoot", ArgString (identity_workingCopyRoot i))]).

(** ** Errors of other code *)
Section Foreign.
Variable foreign : string -> js_value.

Definition rpcErrorObject (error : js_error) : option js_value :=
  match error with
  | ForeignError tag =>
      let error_property := field (foreign tag) "error" in
      if isRecord error_property then error_property else None
  | _ => None
  end.

(** Throws in one case and returns the error otherwise; both ways it ends in
    the [throw] of the caller. *)
Definition mapRepositoryOpenError (error : js_error) : js_error :=
  match rpcErrorObject error with
  | Some rpcError =>
      match field rpcError "code" with
      | Some (VStr code) =>
          if bool_decide (code = "REPOSITORY_ALREADY_OPEN") then
            match field rpcError "args" with
            | Some args =>
                match field args "repositoryId" with
                | Some (VStr id) => alreadyOpen (if bool_decide (id = "") then [] else [("repositoryId", ArgString id)])
                | _ => alreadyOpen []
                end
            | None => alreadyOpen []
            end
          else error
      | _ => error
      end
  | None => error
  end.

Definition errorCode (error : js_error) (fallback : string) : string :=
  match error with
  | StructuredError _ code _ _ _ => if isNonEmptyString code then code else fallback
  | PlainError _ => fallback
  | ForeignError tag =>
      match field (foreign tag) "code" with
      | Some (VStr code) => if isNonEmptyString code then code else fallback
      | _ => fallback
      end
  end.
End Foreign.
End RepositorySession.
