(* ===== verification/SessionService.v ===== *)
(** repository/repositorySessionService.ts: [RepositorySessionService].

    The collaborators are an interface: methods on a world [W] of their own.
    What is awaited (the backend's [initialize] and [sendRequest], the snapshot
    client) are methods on the whole service, since other code runs meanwhile;
    the coordinator runs one session operation at a time.  A connection is named
    by a number, a listener too.  [sent] is history: the requests made, in
    order.  The check that [watchScope] is set after the [try] cannot fail and
    has no counterpart. *)

From Stdlib Require Import ZArith String List.
From stdpp Require Import base option list strings.
From S2P Require Import Prelude JsString JsMap JsValue StatusTypes ScmResources SessionTypes.

Local Open Scope string_scope.

Module RepositorySessionService.
Import RepositorySession.

Definition projection := SourceControlResourceStore.ScmRepositoryProjection.
Definition projection_repository := SourceControlResourceStore.SourceControlProjectionRepository.

Record service {W : Type} := {
  sessions : list (string * session);
  listeners : list nat;
  world : W;
  sent : list (string * js_value);
}.
Arguments service : clear implicits.

(** What the service calls and does not wait for. *)
Record Collaborators (W : Type) := {
  watcher_registerRepository : RepositoryWatchScope -> method W unit;
  watcher_replaceRepository : RepositoryWatchScope -> method W unit;
  watcher_unregisterRepository : string -> method W unit;
  status_registerRepository : string -> Z -> method W unit;
  status_unregisterRepository : string -> method W unit;
  status_applySnapshot : StatusSnapshot -> method W unit;
  status_replaceSnapshot : StatusSnapshot -> method W unit;
  status_markStale : StatusStaleMark -> method W unit;
  status_getSnapshot : W -> string -> option StatusSnapshot;
  projection_registerRepository : projection_repository -> method W unit;
  projection_unregisterRepository : string -> method W unit;
  projection_applySnapshot : StatusSnapshot -> method W unit;
  projection_replaceSnapshot : StatusSnapshot -> method W unit;
  projection_markStale : StatusStaleMark -> method W unit;
  projection_getProjection : string -> method W (option projection);
  listener : nat -> SessionChange -> method W unit;
}.
Arguments watcher_registerRepository {W}.
Arguments watcher_replaceRepository {W}.
Arguments watcher_unregisterRepository {W}.
Arguments status_registerRepository {W}.
Arguments status_unregisterRepository {W}.
Arguments status_applySnapshot {W}.
Arguments status_replaceSnapshot {W}.
Arguments status_markStale {W}.
Arguments status_getSnapshot {W}.
Arguments projection_registerRepository {W}.
Arguments projection_unregisterRepository {W}.
Arguments projection_applySnapshot {W}.
Arguments projection_replaceSnapshot {W}.
Arguments projection_markStale {W}.
Arguments projection_getProjection {W}.
Arguments listener {W}.

(** What the service awaits. *)
Record Backend (W : Type) := {
  initialize : method (service W) nat;
  sendRequest : nat -> string -> js_value -> method (service W) (option js_value);
  getSnapshot : string -> Z -> method (service W) StatusSnapshot;
}.
Arguments initialize {W}.
Arguments sendRequest {W}.
Arguments getSnapshot {W}.

(** [try { m } finally { f }] *)
Definition try_finally {S A} (m : method S A) (f : method S unit) : method S A := fun s =>
  let (r, s1) := m s in
  match f s1 with
  | (Ok _, s2) => (r, s2)
  | (Throw e, s2) => (Throw e, s2)
  end.

(** [try { m } catch (error) { cleanupError ??= error }] *)
Definition attempt {S} (m : method S unit) (cleanupError : option js_error) : method S (option js_error) :=
  try_catch (_ ← m; mret cleanupError) (fun error => mret (Some (default error cleanupError))).

Section Service.
Context {W : Type} (co : Collaborators W) (be : Backend W).
Variable foreign : string -> js_value.

Definition on_world {A} (m : method W A) : method (service W) A :=
  on_part world (fun s w => {| sessions := sessions s; listeners := listeners s; world := w; sent := sent s |}) m.
Definition set_sessions (f : list (string * session) -> list (string * session)) : method (service W) unit :=
  modify_state (fun s => {| sessions := f (sessions s); listeners := listeners s; world := world s; sent := sent s |}).
Definition set_listeners (f : list nat -> list nat) : method (service W) unit :=
  modify_state (fun s => {| sessions := sessions s; listeners := f (listeners s); world := world s; sent := sent s |}).
Definition request (connection : nat) (name : string) (params : js_value) : method (service W) (option js_value) :=
  _ ← modify_state (fun s => {| sessions := sessions s; listeners := listeners s; world := world s;
                                sent := (sent s ++ [(name, params)])%list |});
  sendRequest be connection name params.

(** ** Listeners *)
Definition onDidChangeSessions (l : nat) : method (service W) unit := set_listeners (fun ls => set_add ls l).
Definition dispose_subscription (l : nat) : method (service W) unit := set_listeners (fun ls => set_delete ls l).

Definition fireSessionChange (event : SessionChange) : method (service W) unit :=
  s ← get_state;
  for_each (fun l => on_world (listener co l event)) (listeners s).

(** ** Requests to the backend *)
Definition close_params (id : string) (epoch : Z) : js_value :=
  VObj [("repositoryId", VStr id); ("epoch", VNum (NumInt epoch))].

Definition closeBackendSession (connection : nat) (id : string) (epoch : Z) : method (service W) unit :=
  raw ← request connection "repository/close" (close_params id epoch);
  _ ← lift_result (parseCloseResponse raw id epoch);
  mret tt.

Definition rollbackOpenedRepository (connection : nat) (response : RepositoryOpenResponse) : method (service W) unit :=
  try_catch (closeBackendSession connection (open_repositoryId response) (open_epoch response))
    (fun _ => throw_error (openRollbackFailed (open_repositoryId response) (open_epoch response))).

Definition requestOpen (connection : nat) (req : ValidatedRepositoryOpenRequest) : method (service W) (option js_value) :=
  try_catch (request connection "repository/open" (repositoryOpenParams req))
    (fun error => throw_error (mapRepositoryOpenError foreign error)).

(** ** Opening *)
Record registrations := {
  watcherRegistered : bool;
  statusStoreRegistered : bool;
  sourceControlRegistered : bool;
}.

(** The service with the local variables of [openWorkingCopy]. *)
Record opening := {
  svc : service W;
  flags : registrations;
}.
Definition call {A} (m : method (service W) A) : method opening A :=
  on_part svc (fun o s => {| svc := s; flags := flags o |}) m.
Definition set_flags (f : registrations -> registrations) : method opening unit :=
  modify_state (fun o => {| svc := svc o; flags := f (flags o) |}).

Definition open_try (response : RepositoryOpenResponse) (req : ValidatedRepositoryOpenRequest) : method opening WatchScope :=
  watchScope ← lift_result (watchScopeFromResponse response req);
  _ ← call (on_world (watcher_registerRepository co (watched_scope watchScope)));
  _ ← set_flags (fun r => {| watcherRegistered := true; statusStoreRegistered := statusStoreRegistered r;
                             sourceControlRegistered := sourceControlRegistered r |});
  _ ← call (on_world (status_registerRepository co (open_repositoryId response) (open_epoch response)));
  _ ← set_flags (fun r => {| watcherRegistered := watcherRegistered r; statusStoreRegistered := true;
                             sourceControlRegistered := sourceControlRegistered r |});
  _ ← call (on_world (projection_registerRepository co
        {| SourceControlResourceStore.repo_repositoryId := open_repositoryId response;
           SourceControlResourceStore.repo_epoch := open_epoch response;
           SourceControlResourceStore.repo_workingCopyRoot := identity_workingCopyRoot (open_identity response) |}));
  _ ← set_flags (fun r => {| watcherRegistered := watcherRegistered r;
                             statusStoreRegistered := statusStoreRegistered r; sourceControlRegistered := true |});
  snapshot ← call (getSnapshot be (open_repositoryId response) (open_epoch response));
  _ ← call (on_world (status_applySnapshot co snapshot));
  _ ← call (on_world (projection_applySnapshot co snapshot));
  mret watchScope.

Definition attempt_if (b : bool) (m : method (service W) unit) (cleanupError : option js_error)
    : method (service W) (option js_error) :=
  if b then attempt m cleanupError else mret cleanupError.

Definition cleanupLocalOpenState (response : RepositoryOpenResponse) (r : registrations)
    : method (service W) (option js_error) :=
  let id := open_repositoryId response in
  cleanupError ← attempt_if (sourceControlRegistered r) (on_world (projection_unregisterRepository co id)) None;
  cleanupError ← attempt_if (statusStoreRegistered r) (on_world (status_unregisterRepository co id)) cleanupError;
  attempt_if (watcherRegistered r) (on_world (watcher_unregisterRepository co id)) cleanupError.

(** The [catch] of [openWorkingCopy]. *)
Definition open_catch {A} (connection : nat) (response : RepositoryOpenResponse) (r : registrations) (error : js_error)
    : method (service W) A :=
  cleanupError ← cleanupLocalOpenState response r;
  _ ← rollbackOpenedRepository connection response;
  match cleanupError with
  | Some _ => throw_error (openCleanupFailed (open_repositoryId response) (open_epoch response))
  | None => throw_error error
  end.

Definition open_registered (connection : nat) (response : RepositoryOpenResponse) (req : ValidatedRepositoryOpenRequest)
    : method (service W) WatchScope := fun s =>
  match open_try response req {| svc := s; flags := {| watcherRegistered := false; statusStoreRegistered := false;
                                                       sourceControlRegistered := false |} |} with
  | (Ok watchScope, o) => (Ok watchScope, svc o)
  | (Throw error, o) => open_catch connection response (flags o) error (svc o)
  end.

Definition openWorkingCopy (req : option js_value) : method (service W) session :=
  req ← lift_result (validateOpenRequest req);
  connection ← initialize be;
  raw ← requestOpen connection req;
  response ← lift_result (parseOpenResponse raw);
  s ← get_state;
  if map_has (sessions s) (open_repositoryId response)
  then throw_error (alreadyOpen [("repositoryId", ArgString (open_repositoryId response))])
  else
    watchScope ← open_registered connection response req;
    let opened := {| repositoryId := open_repositoryId response; epoch := open_epoch response;
                     identity := open_identity response; watchScope := watchScope |} in
    _ ← set_sessions (fun m => map_set m (repositoryId opened) opened);
    _ ← fireSessionChange (SessionOpened (repositoryId opened) (epoch opened));
    mret opened.

(** ** Closing *)
Definition forget (opened : session) : method (service W) unit :=
  s ← get_state;
  if map_has (sessions s) (repositoryId opened) then
    _ ← set_sessions (fun m => map_delete m (repositoryId opened));
    fireSessionChange (SessionClosed (repositoryId opened) (epoch opened))
  else mret tt.

Definition closeRepository (id : option js_value) : method (service W) unit :=
  id ← match id with
       | Some (VStr id) => if isNonEmptyString id then mret id else throw_error idRequired
       | _ => throw_error idRequired
       end;
  s ← get_state;
  match map_get (sessions s) id with
  | None => throw_error (notOpen [("repositoryId", ArgString id)])
  | Some opened =>
    connection ← initialize be;
    _ ← closeBackendSession connection (repositoryId opened) (epoch opened);
    cleanupError ← attempt (on_world (watcher_unregisterRepository co (repositoryId opened))) None;
    cleanupError ← attempt (on_world (status_unregisterRepository co (repositoryId opened))) cleanupError;
    cleanupError ← try_finally
      (attempt (on_world (projection_unregisterRepository co (repositoryId opened))) cleanupError) (forget opened);
    match cleanupError with
    | Some _ => throw_error (closeCleanupFailed (repositoryId opened) (epoch opened))
    | None => mret tt
    end
  end.

(** ** Sessions *)
Definition listOpenSessions : method (service W) (list session) :=
  s ← get_state;
  mret (map_values (sessions s)).

Definition refreshSessionIdentityFromSnapshot (id : string) (at_ : Z) : method (service W) session :=
  s ← get_state;
  match map_get (sessions s) id with
  | None => throw_error (notOpen (at_epoch id at_))
  | Some opened =>
    if negb (epoch opened =? at_)%Z then throw_error (notOpen (at_epoch id at_))
    else
      match status_getSnapshot co (world s) id with
      | None => throw_error (snapshotUnavailable id at_)
      | Some snapshot =>
        if negb (snapshot_epoch snapshot =? at_)%Z then throw_error (snapshotUnavailable id at_)
        else
          _ ← lift_result (validateSnapshotIdentityForSession (snapshot_identity snapshot) opened);
          let refreshed := {| repositoryId := repositoryId opened; epoch := epoch opened;
                              identity := snapshot_identity snapshot; watchScope := watchScope opened |} in
          _ ← set_sessions (fun m => map_set m (repositoryId refreshed) refreshed);
          mret refreshed
      end
  end.

(** ** Staleness *)
Definition requireStaleState (mark : StatusStaleMark) : method (service W) unit :=
  s ← get_state;
  let unavailable := staleStateUnavailable (mark_repositoryId mark) in
  match status_getSnapshot co (world s) (mark_repositoryId mark) with
  | None => throw_error (unavailable "status")
  | Some snapshot =>
    if negb (snapshot_epoch snapshot =? mark_epoch mark)%Z then throw_error (unavailable "status")
    else
      p ← on_world (projection_getProjection co (mark_repositoryId mark));
      match p with
      | None => throw_error (unavailable "projection")
      | Some p =>
          if negb (SourceControlResourceStore.proj_epoch p =? mark_epoch mark)%Z then throw_error (unavailable "projection")
          else mret tt
      end
  end.

Definition markProjectionStale (mark : StatusStaleMark) : method (service W) unit :=
  try_catch (on_world (projection_markStale co mark)) (fun error =>
    s ← get_state;
    match status_getSnapshot co (world s) (mark_repositoryId mark) with
    | None => throw_error (staleStateUnavailable (mark_repositoryId mark) "status")
    | Some snapshot =>
      if negb (snapshot_epoch snapshot =? mark_epoch mark)%Z
      then throw_error (staleStateUnavailable (mark_repositoryId mark) "status")
      else
        _ ← on_world (projection_replaceSnapshot co snapshot);
        throw_error error
    end).

Definition stale_mark (req : RepositorySessionsStaleRequest) (opened : session) : StatusStaleMark :=
  {| mark_repositoryId := repositoryId opened; mark_epoch := epoch opened; mark_reason := stale_reason req;
     mark_timestamp := stale_timestamp req; mark_source := stale_source req |}.

Definition markOpenSessionsStale (req : option js_value) : method (service W) unit :=
  req ← lift_result (validateStaleRequest req);
  s ← get_state;
  let marks := map (stale_mark req) (map_values (sessions s)) in
  _ ← for_each requireStaleState marks;
  for_each (fun mark =>
    _ ← on_world (status_markStale co mark);
    markProjectionStale mark) marks.

(** ** Reopening *)
Definition reopen_request (opened : session) : ValidatedRepositoryOpenRequest :=
  {| req_path := identity_workingCopyRoot (identity opened); req_pathCase := ws_pathCase (watchScope opened);
     req_boundaryRoots := ws_boundaryRoots (watchScope opened) |}.

(** The awaits and checks of [reopenSession]. *)
Definition reopen_answer (opened : session)
    : method (service W) (RepositoryOpenResponse * StatusSnapshot * WatchScope) :=
  connection ← initialize be;
  let openRequest := reopen_request opened in
  raw ← requestOpen connection openRequest;
  response ← lift_result (parseOpenResponse raw);
  _ ← lift_result (validateReopenResponse response opened);
  snapshot ← getSnapshot be (open_repositoryId response) (open_epoch response);
  scope ← lift_result (watchScopeFromResponse response openRequest);
  mret (response, snapshot, scope).

Definition reopenSession (opened : session) : method (service W) ReopenResult :=
  answer ← reopen_answer opened;
  let '(response, snapshot, scope) := answer in
  _ ← on_world (status_replaceSnapshot co snapshot);
  _ ← on_world (projection_replaceSnapshot co snapshot);
  _ ← on_world (watcher_replaceRepository co (watched_scope scope));
  let reopened := {| repositoryId := open_repositoryId response; epoch := open_epoch response;
                     identity := open_identity response; watchScope := scope |} in
  _ ← set_sessions (fun m => map_set m (repositoryId reopened) reopened);
  _ ← fireSessionChange (SessionReopened (repositoryId reopened) (epoch opened) (epoch reopened));
  mret (Reopened (repositoryId reopened) (epoch opened) (epoch reopened)
          (identity_workingCopyRoot (identity reopened))).

(** The body of the loop of [reopenOpenSessions]. *)
Definition reopen_one (opened : session) : method (service W) ReopenResult :=
  try_catch (reopenSession opened) (fun error =>
    mret (ReopenFailed (repositoryId opened) (epoch opened) (identity_workingCopyRoot (identity opened))
            (errorCode foreign error "SUBVERSIONR_REPOSITORY_REOPEN_FAILED"))).

Fixpoint reopen_all (l : list session) : method (service W) (list ReopenResult) :=
  match l with
  | [] => mret []
  | opened :: rest =>
      r ← reopen_one opened;
      rs ← reopen_all rest;
      mret (r :: rs)
  end.

Definition reopenOpenSessions : method (service W) (list ReopenResult) :=
  s ← get_state;
  reopen_all (map_values (sessions s)).

(** ** Disposal *)
Definition ignore_errors (m : method (service W) unit) : method (service W) unit := try_catch m (fun _ => mret tt).

Definition disposeLocalSession (id : string) : method (service W) unit :=
  _ ← ignore_errors (on_world (watcher_unregisterRepository co id));
  _ ← ignore_errors (on_world (status_unregisterRepository co id));
  ignore_errors (on_world (projection_unregisterRepository co id)).

Definition dispose : method (service W) unit :=
  try_finally
    (s ← get_state; for_each (fun opened => disposeLocalSession (repositoryId opened)) (map_values (sessions s)))
    (set_sessions (fun _ => [])).
End Service.
Arguments opening : clear implicits.
End RepositorySessionService.
