(* ===== verification/SessionFacts.v ===== *)
(** What the session service relies on, and what its operations do.

    [Registries] states what the watcher service and the two stores promise:
    each is a register of repositories with their epochs, which only its own
    register, replace and unregister calls change.  [Quiet] states what other
    code leaves alone while the service waits. *)

From Stdlib Require Import ZArith String List.
From stdpp Require Import base option list relations strings.
From S2P Require Import Prelude JsString JsMap JsValue StatusTypes ScmResources SessionTypes SessionService.

Local Open Scope string_scope.

(** ** Maps *)
Lemma map_set_cons {K V} `{EqDecision K} (m : list (K * V)) k' v' k v :
  map_set ((k', v') :: m) k v = if bool_decide (k' = k) then (k, v) :: m else (k', v') :: map_set m k v.
Proof. reflexivity. Qed.
Lemma map_values_set {K V V'} `{EqDecision K} (f : V -> V') (m : list (K * V)) k v :
  map (fun e => (fst e, f (snd e))) (map_set m k v) = map_set (map (fun e => (fst e, f (snd e))) m) k (f v).
Proof.
  induction m as [|[k' v'] m IH]; [done|]. cbn. rewrite !map_set_cons. case_bool_decide; cbn; [done|]. by rewrite IH.
Qed.
Lemma map_set_same {K V} `{EqDecision K} (m : list (K * V)) k v : map_get m k = Some v -> map_set m k v = m.
Proof.
  induction m as [|[k' v'] m IH]; [done|]. rewrite map_get_cons, map_set_cons.
  case_bool_decide; intros Hg; [by simplify_eq|]. by rewrite IH.
Qed.

Module SessionLaws.
Import RepositorySession RepositorySessionService.

Inductive registry := Watcher | Status | Projection.
#[export] Instance registry_eq_dec : EqDecision registry.
Proof. solve_decision. Defined.

Section Views.
Context {W : Type} (view : registry -> W -> string -> option Z).

Definition same (w w' : W) : Prop := forall r id, view r w' id = view r w id.
Definition updated (r : registry) (id : string) (v : option Z) (w w' : W) : Prop :=
  forall r' id', view r' w' id' = if bool_decide (r' = r) && bool_decide (id' = id) then v else view r' w id'.
Definition replaced (r : registry) (id : string) (epoch : Z) (w w' : W) : Prop :=
  is_Some (view r w id) /\ updated r id (Some epoch) w w'.

Definition registers (r : registry) (id : string) (epoch : Z) (m : method W unit) : Prop :=
  forall w, match m w with (Ok _, w') => updated r id (Some epoch) w w' | (Throw _, w') => same w w' end.
Definition unregisters (r : registry) (id : string) (m : method W unit) : Prop :=
  forall w, updated r id None w (snd (m w)).
(** A replacement may throw after it was made: its listeners may. *)
Definition replaces (r : registry) (id : string) (epoch : Z) (m : method W unit) : Prop :=
  forall w, match m w with
       | (Ok _, w') => replaced r id epoch w w'
       | (Throw _, w') => same w w' \/ replaced r id epoch w w'
       end.
Definition keeps {A} (m : method W A) : Prop := forall w, same w (snd (m w)).

(** Every registry has [v] at [id], and the rest is as it was. *)
Definition everywhere (id : string) (v : option Z) (w w' : W) : Prop :=
  forall r k, view r w' k = if bool_decide (k = id) then v else view r w k.

Lemma same_refl w : same w w.
Proof. done. Qed.
Lemma same_trans w1 w2 w3 : same w1 w2 -> same w2 w3 -> same w1 w3.
Proof. intros H1 H2 r id. by rewrite H2, H1. Qed.
End Views.

Class Registries {W : Type} (co : Collaborators W) := {
  view : registry -> W -> string -> option Z;
  watcher_registers scope :
    registers view Watcher (scope_repositoryId scope) (scope_epoch scope) (watcher_registerRepository co scope);
  status_registers id epoch : registers view Status id epoch (status_registerRepository co id epoch);
  projection_registers repo :
    registers view Projection (SourceControlResourceStore.repo_repositoryId repo)
      (SourceControlResourceStore.repo_epoch repo) (projection_registerRepository co repo);
  watcher_unregisters id : unregisters view Watcher id (watcher_unregisterRepository co id);
  status_unregisters id : unregisters view Status id (status_unregisterRepository co id);
  projection_unregisters id : unregisters view Projection id (projection_unregisterRepository co id);
  watcher_replaces scope :
    replaces view Watcher (scope_repositoryId scope) (scope_epoch scope) (watcher_replaceRepository co scope);
  status_replaces snapshot :
    replaces view Status (snapshot_repositoryId snapshot) (snapshot_epoch snapshot) (status_replaceSnapshot co snapshot);
  projection_replaces snapshot :
    replaces view Projection (snapshot_repositoryId snapshot) (snapshot_epoch snapshot)
      (projection_replaceSnapshot co snapshot);
  status_applies snapshot : keeps view (status_applySnapshot co snapshot);
  projection_applies snapshot : keeps view (projection_applySnapshot co snapshot);
  status_marks mark : keeps view (status_markStale co mark);
  projection_marks mark : keeps view (projection_markStale co mark);
  projection_gets id : keeps view (projection_getProjection co id);
  listener_keeps l event : keeps view (listener co l event);
}.

Section Operations.
Context {W : Type} (co : Collaborators W) `{!Registries co} (be : Backend W) (foreign : string -> js_value).
Implicit Types (s : service W) (opened : session).

(** The ids and epochs of the sessions, in their order. *)
Definition open_epochs s : list (string * (string * Z)) :=
  map (fun e => (fst e, (repositoryId (snd e), epoch (snd e)))) (sessions s).

#[local] Arguments open_epochs : simpl never.

(** Nothing the service keeps in step has changed. *)
Definition undisturbed s s' : Prop :=
  open_epochs s' = open_epochs s /\ same view (world s) (world s').

Definition leaves s s' : Prop := undisturbed s s' /\ sent s' = sent s.
Definition quiet {A} (m : method (service W) A) : Prop := forall s, leaves s (snd (m s)).

Class Quiet := {
  quiet_initialize : quiet (initialize be);
  quiet_sendRequest connection name params : quiet (sendRequest be connection name params);
  quiet_getSnapshot id epoch : quiet (getSnapshot be id epoch);
  getSnapshot_answers id epoch s snapshot s' : getSnapshot be id epoch s = (Ok snapshot, s') ->
    snapshot_repositoryId snapshot = id /\ snapshot_epoch snapshot = epoch;
}.
Context {HQ : Quiet}.

(** The invariant: what is open is registered everywhere, and nothing else. *)
Definition in_step s : Prop :=
  map_wf (sessions s)
  /\ (forall id opened, map_get (sessions s) id = Some opened -> repositoryId opened = id)
  /\ (forall r id, is_Some (view r (world s) id) <-> is_Some (map_get (sessions s) id)).

Lemma undisturbed_refl s : undisturbed s s.
Proof. done. Qed.
Lemma undisturbed_trans s1 s2 s3 : undisturbed s1 s2 -> undisturbed s2 s3 -> undisturbed s1 s3.
Proof. intros [H1 H2] [H3 H4]. split; [by rewrite H3, H1|by eapply same_trans]. Qed.

Lemma open_epochs_get s id :
  map_get (open_epochs s) id = (fun opened => (repositoryId opened, epoch opened)) <$> map_get (sessions s) id.
Proof.
  unfold open_epochs. induction (sessions s) as [|[k v] m IH]; [done|].
  cbn [map fst snd]. rewrite !map_get_cons. case_bool_decide; [done|]. apply IH.
Qed.
Lemma open_epochs_keys s : map_keys (open_epochs s) = map_keys (sessions s).
Proof. unfold open_epochs, map_keys. by rewrite map_map. Qed.

Lemma undisturbed_get s s' id opened : undisturbed s s' -> map_get (sessions s) id = Some opened ->
  exists opened', map_get (sessions s') id = Some opened' /\ repositoryId opened' = repositoryId opened
    /\ epoch opened' = epoch opened.
Proof.
  intros [He _] Hg. pose proof (open_epochs_get s id) as H. rewrite Hg in H.
  rewrite <- He, open_epochs_get in H. destruct (map_get (sessions s') id) as [opened'|]; [|done].
  exists opened'. cbn in H. by simplify_eq.
Qed.
Lemma undisturbed_None s s' id : undisturbed s s' -> map_get (sessions s) id = None <-> map_get (sessions s') id = None.
Proof. intros [He _]. rewrite !map_get_None, <- !open_epochs_keys. by rewrite He. Qed.

Lemma undisturbed_in_step s s' : undisturbed s s' -> in_step s -> in_step s'.
Proof.
  intros Hu (Hwf & Hk & Hv). repeat split.
  - unfold map_wf. rewrite <- open_epochs_keys. destruct Hu as [-> _]. by rewrite open_epochs_keys.
  - intros id opened' Hg. destruct (map_get (sessions s) id) as [opened|] eqn:Hg0.
    + destruct (undisturbed_get s s' id opened Hu Hg0) as (o & Ho & Hr & _). simplify_eq. rewrite Hr. by eapply Hk.
    + apply (undisturbed_None s s' id Hu) in Hg0. congruence.
  - rewrite (proj2 Hu), Hv. rewrite <- !not_eq_None_Some. intros H. by rewrite <- (undisturbed_None s s' id Hu).
  - rewrite (proj2 Hu), Hv. rewrite <- !not_eq_None_Some. intros H. by rewrite (undisturbed_None s s' id Hu).
Qed.

(** ** Calls that change nothing *)
Lemma leaves_trans s1 s2 s3 : leaves s1 s2 -> leaves s2 s3 -> leaves s1 s3.
Proof. intros [H1 H2] [H3 H4]. split; [by eapply undisturbed_trans|congruence]. Qed.

Lemma quiet_bind {A B} (m : method (service W) A) (f : A -> method (service W) B) :
  quiet m -> (forall a, quiet (f a)) -> quiet (a ← m; f a).
Proof.
  intros Hm Hf s. unfold mbind, method_bind. specialize (Hm s). destruct (m s) as [[a|e] s1]; [|done].
  by eapply leaves_trans, Hf.
Qed.
Lemma quiet_for_each {A} (f : A -> method (service W) unit) l : (forall x, quiet (f x)) -> quiet (for_each f l).
Proof. intros Hf. induction l as [|x l IH]; [by intros s|]. cbn [for_each]. by apply quiet_bind. Qed.
Lemma quiet_on_world {A} (m : method W A) : keeps view m -> quiet (on_world m).
Proof.
  intros Hm s. specialize (Hm (world s)). unfold on_world, on_part. destruct (m (world s)) as [r w]. by repeat split.
Qed.
Lemma quiet_fire event : quiet (fireSessionChange co event).
Proof.
  intros s. unfold fireSessionChange. cbn. apply quiet_for_each. intros l. apply quiet_on_world, listener_keeps.
Qed.

(** ** Requests *)
Definition asked (s : service W) (name : string) (params : js_value) (s' : service W) : Prop :=
  undisturbed s s' /\ sent s' = (sent s ++ [(name, params)])%list.

Lemma request_asks connection name params s : asked s name params (snd (request be connection name params s)).
Proof using HQ.
  unfold request. unfold mbind, method_bind. cbn.
  match goal with |- context [sendRequest _ _ _ _ ?s1] => destruct (quiet_sendRequest connection name params s1) as [Hu Hs] end.
  split; [done|]. by rewrite Hs.
Qed.

Lemma closeBackendSession_asks connection id e s :
  asked s "repository/close" (close_params id e) (snd (closeBackendSession be connection id e s)).
Proof using HQ.
  unfold closeBackendSession. unfold mbind at 1, method_bind at 1.
  pose proof (request_asks connection "repository/close" (close_params id e) s) as H.
  destruct (request be connection _ _ s) as [[raw|e1] s1]; [|done].
  unfold lift_result, mbind, method_bind. by destruct (parseCloseResponse raw id e).
Qed.

Lemma rollback_asks connection response s :
  asked s "repository/close" (close_params (open_repositoryId response) (open_epoch response))
    (snd (rollbackOpenedRepository be connection response s)).
Proof using HQ.
  unfold rollbackOpenedRepository, try_catch.
  pose proof (closeBackendSession_asks connection (open_repositoryId response) (open_epoch response) s) as H.
  by destruct (closeBackendSession _ _ _ _ s) as [[?|?] s1].
Qed.

Lemma requestOpen_asks connection req s :
  asked s "repository/open" (repositoryOpenParams req) (snd (requestOpen be foreign connection req s)).
Proof using HQ.
  unfold requestOpen, try_catch. pose proof (request_asks connection "repository/open" (repositoryOpenParams req) s) as H.
  by destruct (request _ _ _ _ s) as [[?|?] s1].
Qed.

(** ** Unregistering *)
Definition updates (b : bool) (r : registry) (id : string) (v : option Z) s s' : Prop :=
  open_epochs s' = open_epochs s /\ sessions s' = sessions s /\ sent s' = sent s
  /\ forall r' k, view r' (world s') k
       = if b && bool_decide (r' = r) && bool_decide (k = id) then v else view r' (world s) k.

Lemma attempt_unregisters r id (m : method W unit) error s : unregisters view r id m ->
  exists error' s', attempt (on_world m) error s = (Ok error', s') /\ updates true r id None s s'.
Proof.
  intros Hm. specialize (Hm (world s)). unfold attempt, try_catch, on_world, on_part, mbind, method_bind.
  destruct (m (world s)) as [[[]|e] w]; cbn in Hm; eexists _, _; (split; [reflexivity|]); repeat split; cbn; intros; apply Hm.
Qed.
Lemma attempt_if_unregisters b r id (m : method W unit) error s : unregisters view r id m ->
  exists error' s', attempt_if b (on_world m) error s = (Ok error', s') /\ updates b r id None s s'.
Proof. intros Hm. destruct b; [by apply attempt_unregisters|]. by eexists _, _. Qed.

(** ** Opening *)
Definition flag (f : registrations) (r : registry) : bool :=
  match r with
  | Watcher => watcherRegistered f | Status => statusStoreRegistered f | Projection => sourceControlRegistered f
  end.
(** What has been registered so far, the flags say. *)
Definition progress (response : RepositoryOpenResponse) s s' (f : registrations) : Prop :=
  open_epochs s' = open_epochs s /\ sent s' = sent s
  /\ forall r k, view r (world s') k = if flag f r && bool_decide (k = open_repositoryId response)
                                    then Some (open_epoch response) else view r (world s) k.

Lemma cleanup_undoes response s s1 f : (forall r, view r (world s) (open_repositoryId response) = None) ->
  progress response s s1 f ->
  exists error s', cleanupLocalOpenState co response f s1 = (Ok error, s') /\ leaves s s'.
Proof.
  intros Hnone (He & Hs & Hv). unfold cleanupLocalOpenState. unfold mbind, method_bind.
  destruct (attempt_if_unregisters (sourceControlRegistered f) Projection (open_repositoryId response)
    (projection_unregisterRepository co (open_repositoryId response)) None s1) as (e2 & s2 & -> & He2 & _ & Hs2 & Hv2);
    [apply projection_unregisters|].
  destruct (attempt_if_unregisters (statusStoreRegistered f) Status (open_repositoryId response)
    (status_unregisterRepository co (open_repositoryId response)) e2 s2) as (e3 & s3 & -> & He3 & _ & Hs3 & Hv3);
    [apply status_unregisters|].
  destruct (attempt_if_unregisters (watcherRegistered f) Watcher (open_repositoryId response)
    (watcher_unregisterRepository co (open_repositoryId response)) e3 s3) as (e4 & s4 & -> & He4 & _ & Hs4 & Hv4);
    [apply watcher_unregisters|].
  exists e4, s4. split; [done|]. split; [split|]; [congruence| |congruence].
  intros r k. rewrite Hv4, Hv3, Hv2, Hv. destruct (decide (k = open_repositoryId response)) as [->|Hne].
  - rewrite (bool_decide_eq_true_2 (open_repositoryId response = _)), Hnone by done.
    destruct f as [[] [] []], r; reflexivity.
  - rewrite !(bool_decide_eq_false_2 (k = _)), !andb_false_r by done. done.
Qed.

(** A registration followed by its flag. *)
Lemma register_progress response s s1 f r (m : method W unit) :
  progress response s s1 f -> registers view r (open_repositoryId response) (open_epoch response) m ->
  match on_world m s1 with
  | (Ok _, s2) => forall f', (forall r', flag f' r' = flag f r' || bool_decide (r' = r)) -> progress response s s2 f'
  | (Throw _, s2) => progress response s s2 f
  end.
Proof.
  intros (He & Hs & Hv) Hm. specialize (Hm (world s1)). unfold on_world, on_part.
  destruct (m (world s1)) as [[[]|e] w]; cbn in Hm |- *.
  - intros f' Hf'. split; [done|]. split; [done|]. intros r' k. cbn. rewrite Hm, Hv, Hf'.
    destruct (flag f r'), (bool_decide (r' = r)), (bool_decide (k = _)); done.
  - split; [done|]. split; [done|]. intros r' k. cbn. by rewrite Hm, Hv.
Qed.
Lemma leaves_progress response s s1 s2 f : progress response s s1 f -> leaves s1 s2 -> progress response s s2 f.
Proof.
  intros (He & Hs & Hv) [[He' Hv'] Hs']. split; [congruence|]. split; [congruence|]. intros r k. by rewrite Hv', Hv.
Qed.

Lemma quiet_progress {A} response s s1 f (m : method (service W) A) : progress response s s1 f -> quiet m ->
  progress response s (snd (m s1)) f.
Proof. intros Hp Hm. by eapply leaves_progress, Hm. Qed.

Definition no_flags : registrations :=
  {| watcherRegistered := false; statusStoreRegistered := false; sourceControlRegistered := false |}.
Definition all_flags : registrations :=
  {| watcherRegistered := true; statusStoreRegistered := true; sourceControlRegistered := true |}.

Lemma open_try_progress response req s :
  match open_try co be response req {| svc := s; flags := no_flags |} with
  | (Ok scope, o) => watchScopeFromResponse response req = Ok scope /\ progress response s (svc o) all_flags
  | (Throw _, o) => progress response s (svc o) (flags o)
  end.
Proof using HQ.
  assert (H0 : progress response s s no_flags) by (split_and!; [done|done|]; intros []; done).
  unfold open_try, call, on_part, set_flags, modify_state, lift_result, mbind, method_bind; cbn.
  destruct (watchScopeFromResponse response req) as [scope|e] eqn:Hscope; [|done].
  assert (Hids : scope_repositoryId (watched_scope scope) = open_repositoryId response
                 /\ scope_epoch (watched_scope scope) = open_epoch response).
  { unfold watchScopeFromResponse in Hscope. by destruct (validateBoundaryRootScope _ _); simplify_eq/=. }
  pose proof (watcher_registers (watched_scope scope)) as Hr. rewrite (proj1 Hids), (proj2 Hids) in Hr.
  apply (register_progress _ _ _ _ _ _ H0) in Hr.
  destruct (on_world (watcher_registerRepository _ _) s) as [[[]|e] s1]; [|done].
  cbn. specialize (Hr {| watcherRegistered := true; statusStoreRegistered := false; sourceControlRegistered := false |}
    ltac:(by intros [])).
  pose proof (status_registers (open_repositoryId response) (open_epoch response)) as Hr2.
  apply (register_progress _ _ _ _ _ _ Hr) in Hr2. clear Hr.
  destruct (on_world (status_registerRepository _ _ _) s1) as [[[]|e] s2]; [|done].
  cbn. specialize (Hr2 {| watcherRegistered := true; statusStoreRegistered := true; sourceControlRegistered := false |}
    ltac:(by intros [])).
  match goal with |- context [projection_registerRepository co ?repo] =>
    pose proof (projection_registers repo) as Hr3 end.
  cbn [SourceControlResourceStore.repo_repositoryId SourceControlResourceStore.repo_epoch] in Hr3.
  apply (register_progress _ _ _ _ _ _ Hr2) in Hr3. clear Hr2.
  destruct (on_world (projection_registerRepository _ _) s2) as [[[]|e] s3]; [|done].
  cbn. specialize (Hr3 all_flags ltac:(by intros [])).
  pose proof (quiet_progress _ _ _ _ _ Hr3 (quiet_getSnapshot (open_repositoryId response) (open_epoch response))) as H4.
  destruct (getSnapshot be _ _ s3) as [[snapshot|e] s4]; [|done]. cbn in H4 |- *.
  pose proof (quiet_progress _ _ _ _ _ H4 (quiet_on_world _ (status_applies snapshot))) as H5.
  destruct (on_world (status_applySnapshot co snapshot) s4) as [[?|e] s5]; [|done]. cbn in H5 |- *.
  pose proof (quiet_progress _ _ _ _ _ H5 (quiet_on_world _ (projection_applies snapshot))) as H6.
  destruct (on_world (projection_applySnapshot co snapshot) s5) as [[?|e] s6]; done.
Qed.

Lemma open_registered_spec connection response req s :
  (forall r, view r (world s) (open_repositoryId response) = None) ->
  match open_registered co be connection response req s with
  | (Ok scope, s') => watchScopeFromResponse response req = Ok scope
      /\ open_epochs s' = open_epochs s /\ sent s' = sent s
      /\ everywhere view (open_repositoryId response) (Some (open_epoch response)) (world s) (world s')
  | (Throw _, s') =>
      asked s "repository/close" (close_params (open_repositoryId response) (open_epoch response)) s'
  end.
Proof using HQ.
  intros Hnone. unfold open_registered. pose proof (open_try_progress response req s) as H. unfold no_flags in H.
  destruct (open_try _ _ _ _ _) as [[scope|e] o].
  - destruct H as (Hs & He & Hsent & Hv). split_and!; try done. intros r k. rewrite Hv. by destruct r.
  - destruct (cleanup_undoes response s (svc o) (flags o) Hnone H) as (ce & s1 & Hc & Hu & Hsent).
    unfold open_catch, mbind, method_bind. rewrite Hc.
    destruct (rollback_asks connection response s1) as [Hu2 Hs2].
    destruct (rollbackOpenedRepository _ _ _ s1) as [[[]|e2] s2]; cbn in *.
    + assert (asked s "repository/close" (close_params (open_repositoryId response) (open_epoch response)) s2).
      { split; [by eapply undisturbed_trans|congruence]. }
      by destruct ce.
    + split; [by eapply undisturbed_trans|congruence].
Qed.

(** The session [opened] is new, under its id, and registered everywhere. *)
Definition opens s (v : ValidatedRepositoryOpenRequest) opened s' : Prop :=
  map_get (sessions s) (repositoryId opened) = None
  /\ map_get (sessions s') (repositoryId opened) = Some opened
  /\ open_epochs s' = (open_epochs s ++ [(repositoryId opened, (repositoryId opened, epoch opened))])%list
  /\ everywhere view (repositoryId opened) (Some (epoch opened)) (world s) (world s')
  /\ sent s' = (sent s ++ [("repository/open", repositoryOpenParams v)])%list.

(** What the backend opens when it is asked: its answer, if it gives one and the
    answer is well formed. *)
Definition backend_opened s (v : ValidatedRepositoryOpenRequest) : option RepositoryOpenResponse :=
  match initialize be s with
  | (Ok connection, s1) =>
      match request be connection "repository/open" (repositoryOpenParams v) s1 with
      | (Ok raw, _) => match parseOpenResponse raw with Ok response => Some response | Throw _ => None end
      | (Throw _, _) => None
      end
  | (Throw _, _) => None
  end.
(** The new session is what the backend opened. *)
Definition opens_answer s (v : ValidatedRepositoryOpenRequest) opened s' : Prop :=
  opens s v opened s' /\ exists response, backend_opened s v = Some response
    /\ repositoryId opened = open_repositoryId response /\ epoch opened = open_epoch response.
(** Nothing changed here, and what the backend opened it was asked to close, unless
    the repository has a session already. *)
Definition refuses s (req : option js_value) s' : Prop :=
  undisturbed s s'
  /\ match validateOpenRequest req with
     | Throw _ => sent s' = sent s
     | Ok v =>
         let opening := ("repository/open", repositoryOpenParams v) in
         match backend_opened s v with
         | None => sent s' = sent s \/ sent s' = (sent s ++ [opening])%list
         | Some response =>
             if map_has (sessions s) (open_repositoryId response) then sent s' = (sent s ++ [opening])%list
             else sent s' = (sent s ++ [opening; ("repository/close",
               VObj [("repositoryId", VStr (open_repositoryId response)); ("epoch", VNum (NumInt (open_epoch response)))])])%list
         end
     end.

Lemma fire_sessions event s : sessions (snd (fireSessionChange co event s)) = sessions s.
Proof.
  change (fireSessionChange co event s)
    with (for_each (fun l => on_world (listener co l event)) (listeners s) s).
  generalize (listeners s). intros ls. revert s.
  induction ls as [|l ls IH]; intros s1; [done|]. cbn [for_each]. unfold mbind, method_bind.
  unfold on_world at 1, on_part at 1. destruct (listener co l event (world s1)) as [[[]|e] w]; [|done].
  by rewrite IH.
Qed.

(** What a notification throws, one of the listeners threw. *)
Definition listener_threw event s : Prop := exists l w e, l ∈ listeners s /\ fst (listener co l event w) = Throw e.
Lemma fire_throws event s e s' : fireSessionChange co event s = (Throw e, s') -> listener_threw event s'.
Proof.
  change (fireSessionChange co event s)
    with (for_each (fun l => on_world (listener co l event)) (listeners s) s).
  assert (Hsub : forall l, l ∈ listeners s -> l ∈ listeners s) by done. revert Hsub.
  generalize (listeners s) at 1 3. intros ls. revert s.
  induction ls as [|l ls IH]; intros s1 Hsub; [done|]. cbn [for_each]. unfold mbind, method_bind.
  unfold on_world at 1, on_part at 1. destruct (listener co l event (world s1)) as [[[]|e1] w] eqn:El; intros H.
  - eapply (IH _ _ H). Unshelve. intros x Hx. apply Hsub. by right.
  - injection H as <- <-. exists l, (world s1), e1. split; [apply Hsub; by left|]. by rewrite El.
Qed.

Lemma open_epochs_set_fresh s opened ls w sn : map_get (sessions s) (repositoryId opened) = None ->
  open_epochs {| sessions := map_set (sessions s) (repositoryId opened) opened; listeners := ls; world := w; sent := sn |}
  = (open_epochs s ++ [(repositoryId opened, (repositoryId opened, epoch opened))])%list.
Proof. intros H. unfold open_epochs; cbn. rewrite map_set_fresh by (by apply map_get_None). by rewrite map_app. Qed.

Lemma store_session_spec opened event s0 s v (H : map_get (sessions s0) (repositoryId opened) = None) :
  open_epochs s = open_epochs s0 ->
  everywhere view (repositoryId opened) (Some (epoch opened)) (world s0) (world s) ->
  sent s = (sent s0 ++ [("repository/open", repositoryOpenParams v)])%list ->
  opens s0 v opened (snd ((_ ← set_sessions (fun m => map_set m (repositoryId opened) opened);
                           _ ← fireSessionChange co event; mret opened) s)).
Proof.
  intros He Hv Hs. unfold mbind, method_bind. cbn.
  match goal with |- context [fireSessionChange co event ?s1] =>
    pose proof (quiet_fire event s1) as [[He1 Hv1] Hs1]; pose proof (fire_sessions event s1) as Hf;
    destruct (fireSessionChange co event s1) as [r s2] end.
  assert (Hg : map_get (sessions s) (repositoryId opened) = None).
  { apply map_get_None. rewrite <- open_epochs_keys, He, open_epochs_keys. by apply map_get_None. }
  destruct r; cbn in *; (split; [done|]); (split; [by rewrite Hf, map_get_set_eq|]); (split; [|split; [|congruence]]);
    [rewrite He1, open_epochs_set_fresh by done; by rewrite He| |rewrite He1, open_epochs_set_fresh by done; by rewrite He| ];
    intros r k; by rewrite Hv1, Hv.
Qed.

Lemma opened_is_new s s2 response : undisturbed s s2 -> map_has (sessions s2) (open_repositoryId response) = map_has (sessions s) (open_repositoryId response).
Proof.
  intros Hu. pose proof (undisturbed_None s s2 (open_repositoryId response) Hu) as H. unfold map_has.
  destruct (map_get (sessions s) _), (map_get (sessions s2) _); try done; exfalso; [discriminate (proj2 H eq_refl)|discriminate (proj1 H eq_refl)].
Qed.

(** The part of the open after the backend's answer. *)
Lemma open_answered_spec connection v s s2 response : in_step s -> undisturbed s s2 ->
  sent s2 = (sent s ++ [("repository/open", repositoryOpenParams v)])%list -> map_has (sessions s) (open_repositoryId response) = false ->
  let opened scope := {| repositoryId := open_repositoryId response; epoch := open_epoch response;
                         identity := open_identity response; watchScope := scope |} in
  match (scope ← open_registered co be connection response v;
         _ ← set_sessions (fun m => map_set m (repositoryId (opened scope)) (opened scope));
         _ ← fireSessionChange co (SessionOpened (repositoryId (opened scope)) (epoch (opened scope)));
         mret (opened scope)) s2 with
  | (Ok o, s') => repositoryId o = open_repositoryId response /\ epoch o = open_epoch response /\ opens s v o s'
  | (Throw _, s') =>
      undisturbed s s' /\ sent s' = (sent s ++ [("repository/open", repositoryOpenParams v);
        ("repository/close", close_params (open_repositoryId response) (open_epoch response))])%list
      \/ exists scope, opens s v (opened scope) s' /\ listener_threw (SessionOpened (open_repositoryId response) (open_epoch response)) s'
  end.
Proof using HQ.
  intros Hin Hu2 Hs Hhas opened. assert (Hg : map_get (sessions s) (open_repositoryId response) = None).
  { unfold map_has in Hhas. by destruct (map_get _ _). }
  pose proof (proj1 (undisturbed_None _ _ (open_repositoryId response) Hu2) Hg) as Hg2.
  assert (Hnone : forall r, view r (world s2) (open_repositoryId response) = None).
  { intros r. pose proof (undisturbed_in_step _ _ Hu2 Hin) as (_ & _ & Hv).
    apply eq_None_not_Some. rewrite Hv, Hg2. by intros []. }
  pose proof (open_registered_spec connection response v s2 Hnone) as H.
  unfold mbind at 1, method_bind at 1. destruct (open_registered _ _ _ _ _ s2) as [[scope|e] s3].
  - destruct H as (_ & He & Hs3 & Hv3).
    pose proof (store_session_spec (opened scope) (SessionOpened (open_repositoryId response) (open_epoch response)) s s3 v Hg) as Hst.
    specialize (Hst ltac:(by rewrite He, (proj1 Hu2)) ltac:(intros r k; rewrite Hv3, (proj2 Hu2); done) ltac:(by rewrite Hs3)).
    unfold mbind, method_bind, set_sessions, modify_state in *. cbn [repositoryId epoch opened] in *.
    destruct (fireSessionChange _ _ _) as [[[]|e] s5] eqn:Ef; cbn [snd mret method_ret] in *; [done|].
    right. exists scope. split; [done|]. by eapply fire_throws.
  - left. destruct H as [Hu3 Hs3]. split; [by eapply undisturbed_trans|]. by rewrite Hs3, Hs, <- List.app_assoc.
Qed.

Lemma open_spec req s : in_step s ->
  match openWorkingCopy co be foreign req s with
  | (Ok opened, s') => exists v, validateOpenRequest req = Ok v /\ opens_answer s v opened s'
  | (Throw _, s') => refuses s req s'
      \/ exists v opened, validateOpenRequest req = Ok v /\ opens_answer s v opened s'
           /\ listener_threw (SessionOpened (repositoryId opened) (epoch opened)) s'
  end.
Proof using HQ.
  intros Hin. unfold openWorkingCopy, refuses. unfold mbind at 1, method_bind at 1, lift_result at 1.
  destruct (validateOpenRequest req) as [v|e] eqn:Hreq; [|by left]. cbn zeta.
  assert (Hb : backend_opened s v = backend_opened s v) by done. unfold backend_opened in Hb at 2.
  unfold mbind at 1, method_bind at 1. pose proof (quiet_initialize s) as Hi.
  destruct (initialize be s) as [[connection|e] s1]; [|left; rewrite Hb; split; [apply Hi|left; apply Hi]]. cbn in Hi.
  unfold mbind at 1, method_bind at 1. destruct (request_asks connection "repository/open" (repositoryOpenParams v) s1) as [Hu Hs].
  unfold requestOpen, try_catch.
  destruct (request be connection "repository/open" (repositoryOpenParams v) s1) as [[raw|e] s2]; cbn in Hu, Hs; rewrite (proj2 Hi) in Hs;
    pose proof (undisturbed_trans _ _ _ (proj1 Hi) Hu) as Hu2; [|left; rewrite Hb; split; [done|by right]].
  unfold mbind at 1, method_bind at 1, lift_result at 1.
  destruct (parseOpenResponse raw) as [response|e]; rewrite Hb; [|left; split; [done|by right]].
  unfold mbind at 1, method_bind at 1, get_state. rewrite (opened_is_new s s2 response Hu2).
  destruct (map_has (sessions s) (open_repositoryId response)) eqn:Hhas; [by left|].
  pose proof (open_answered_spec connection v s s2 response Hin Hu2 Hs Hhas) as H. cbn zeta in H |- *. cbn [repositoryId epoch] in H |- *.
  match type of H with match ?m with _ => _ end => change (match m with
    | (Ok opened, s') => exists v0, Ok v = Ok v0 /\ opens_answer s v0 opened s'
    | (Throw _, s') => (undisturbed s s' /\ sent s' = (sent s ++ [("repository/open", repositoryOpenParams v);
        ("repository/close", close_params (open_repositoryId response) (open_epoch response))])%list)
        \/ exists v0 opened, Ok v = Ok v0 /\ opens_answer s v0 opened s' /\ listener_threw (SessionOpened (repositoryId opened) (epoch opened)) s'
    end); destruct m as [[o|e] s'] end.
  - destruct H as (E1 & E2 & Ho). exists v. split; [done|]. split; [done|by exists response].
  - destruct H as [H|(scope & Ho & Hl)]; [by left|right]. eexists v, _. split; [done|]. split; [split; [exact Ho|by exists response]|exact Hl].
Qed.
End Operations.
End SessionLaws.
