(* ===== verification/SessionTheorems.v ===== *)
(** What closing, reopening, marking and disposing do to the registries, and
    the invariant of the session service over every sequence of its calls. *)

From Stdlib Require Import ZArith String List.
From stdpp Require Import base option list relations strings.
From S2P Require Import Prelude JsString JsMap JsValue StatusTypes ScmResources SessionTypes SessionService SessionFacts.

Local Open Scope string_scope.

Module SessionTheorems.
Import RepositorySession RepositorySessionService SessionLaws.
#[local] Arguments open_epochs : simpl never.

Section Operations.
Context {W : Type} (co : Collaborators W) {HR : Registries co} (be : Backend W) (foreign : string -> js_value).
Context {HQ : Quiet co be}.
Implicit Types (s : service W) (opened : session).

(** ** Closing *)
Definition closes s opened s' : Prop :=
  open_epochs s' = map_delete (open_epochs s) (repositoryId opened)
  /\ everywhere view (repositoryId opened) None (world s) (world s')
  /\ sent s' = (sent s ++ [("repository/close", close_params (repositoryId opened) (epoch opened))])%list.

Lemma open_epochs_delete s id ls (w : W) sn :
  open_epochs {| sessions := map_delete (sessions s) id; listeners := ls; world := w; sent := sn |}
  = map_delete (open_epochs s) id.
Proof.
  unfold open_epochs, map_delete; cbn. induction (sessions s) as [|[k v] m IH]; [done|]. cbn.
  destruct (negb (bool_decide (k = id))); cbn; by rewrite IH.
Qed.

Lemma forget_spec opened s : is_Some (map_get (sessions s) (repositoryId opened)) ->
  let s' := snd (forget co opened s) in
  open_epochs s' = map_delete (open_epochs s) (repositoryId opened) /\ same view (world s) (world s') /\ sent s' = sent s.
Proof.
  intros [o Ho]. unfold forget, mbind, method_bind, get_state. unfold map_has. rewrite Ho.
  unfold set_sessions, modify_state.
  match goal with |- context [fireSessionChange co ?event ?s1] =>
    destruct (quiet_fire co event s1) as [[He Hv] Hs] end.
  cbn. rewrite He, Hs, open_epochs_delete. done.
Qed.

(** The session a close names. *)
Definition named s (id : option js_value) : option session :=
  match id with Some (VStr i) => if isNonEmptyString i then map_get (sessions s) i else None | _ => None end.
(** Whether the backend, asked to close the session, confirms it. *)
Definition confirmed opened (answer : result (option js_value) * service W) : bool :=
  match answer with
  | (Ok raw, _) => match parseCloseResponse raw (repositoryId opened) (epoch opened) with Ok _ => true | Throw _ => false end
  | (Throw _, _) => false
  end.
Definition backend_closed s opened : bool :=
  match initialize be s with
  | (Ok connection, s1) =>
      confirmed opened (request be connection "repository/close"
        (VObj [("repositoryId", VStr (repositoryId opened)); ("epoch", VNum (NumInt (epoch opened)))]) s1)
  | (Throw _, _) => false
  end.
Definition close_outcome id s (answer : result unit * service W) : Prop :=
  let (r, s') := answer in
  match named s id with
  | None => (exists e, r = Throw e) /\ undisturbed co s s' /\ sent s' = sent s
  | Some opened =>
      if backend_closed s opened then closes s opened s'
      else (exists e, r = Throw e) /\ undisturbed co s s'
           /\ (sent s' = sent s \/ sent s' = (sent s ++ [("repository/close", close_params (repositoryId opened) (epoch opened))])%list)
  end.

Lemma close_confirmed connection opened s :
  confirmed opened (request be connection "repository/close" (close_params (repositoryId opened) (epoch opened)) s)
  = match fst (closeBackendSession be connection (repositoryId opened) (epoch opened) s) with Ok _ => true | Throw _ => false end.
Proof.
  unfold closeBackendSession, confirmed, mbind, method_bind, lift_result.
  destruct (request _ _ _ _ s) as [[raw|e] s1]; [|done]. by destruct (parseCloseResponse _ _ _).
Qed.
(** Whatever the steps of the cleanup throw, everything is released. *)
Lemma close_cleanup_spec i opened s s2 : in_step co s -> map_get (sessions s) i = Some opened -> undisturbed co s s2 ->
  sent s2 = (sent s ++ [("repository/close", close_params (repositoryId opened) (epoch opened))])%list ->
  closes s opened (snd ((cleanupError ← attempt (on_world (watcher_unregisterRepository co (repositoryId opened))) None;
    cleanupError ← attempt (on_world (status_unregisterRepository co (repositoryId opened))) cleanupError;
    cleanupError ← try_finally
      (attempt (on_world (projection_unregisterRepository co (repositoryId opened))) cleanupError) (forget co opened);
    match cleanupError with
    | Some _ => throw_error (closeCleanupFailed (repositoryId opened) (epoch opened))
    | None => mret tt
    end) s2)).
Proof using HQ.
  intros Hin Hg Hu2 Hs. unfold mbind at 1, method_bind at 1.
  destruct (attempt_unregisters co Watcher (repositoryId opened)
    (watcher_unregisterRepository co (repositoryId opened)) None s2) as (e3 & s3 & -> & He3 & Hss3 & Hs3 & Hv3);
    [apply watcher_unregisters|].
  unfold mbind at 1, method_bind at 1.
  destruct (attempt_unregisters co Status (repositoryId opened)
    (status_unregisterRepository co (repositoryId opened)) e3 s3) as (e4 & s4 & -> & He4 & Hss4 & Hs4 & Hv4);
    [apply status_unregisters|].
  unfold mbind at 1, method_bind at 1, try_finally.
  destruct (attempt_unregisters co Projection (repositoryId opened)
    (projection_unregisterRepository co (repositoryId opened)) e4 s4) as (e5 & s5 & -> & He5 & Hss5 & Hs5 & Hv5);
    [apply projection_unregisters|].
  destruct (undisturbed_get co s s2 i opened Hu2 Hg) as (o & Ho & _).
  pose proof Hin as (_ & Hk & _). specialize (Hk i opened Hg).
  destruct (forget_spec opened s5) as (He6 & Hv6 & Hs6); [rewrite Hss5, Hss4, Hss3, Hk, Ho; by eexists|].
  assert (Hc : closes s opened (snd (forget co opened s5))).
  { split; [rewrite He6, He5, He4, He3; by rewrite (proj1 Hu2)|]. split; [|congruence].
    intros r k. rewrite Hv6, Hv5, Hv4, Hv3, (proj2 Hu2). destruct r, (bool_decide (k = repositoryId opened)); done. }
  destruct (forget co opened s5) as [[[]|e] s6]; cbn in Hc; [|done]. by destruct e5.
Qed.

Lemma close_spec id s : in_step co s -> close_outcome id s (closeRepository co be id s).
Proof using HQ.
  intros Hin. unfold closeRepository, close_outcome, named. unfold mbind at 1, method_bind at 1.
  destruct id as [[| | |i| |]|]; try (split; [by eexists|done]). destruct (isNonEmptyString i); [|split; [by eexists|done]].
  cbn [mret method_ret]. unfold mbind at 1, method_bind at 1, get_state.
  destruct (map_get (sessions s) i) as [opened|] eqn:Hg; [|split; [by eexists|done]]. unfold backend_closed.
  change (VObj _) with (close_params (repositoryId opened) (epoch opened)).
  unfold mbind at 1, method_bind at 1. pose proof (quiet_initialize co be s) as [Hi Hsi].
  destruct (initialize be s) as [[connection|e] s1]; [|split; [by eexists|split; [done|by left]]]. cbn in Hi, Hsi. rewrite close_confirmed.
  unfold mbind at 1, method_bind at 1.
  destruct (closeBackendSession_asks co be connection (repositoryId opened) (epoch opened) s1) as [Hu Hs]. rewrite Hsi in Hs.
  destruct (closeBackendSession be connection (repositoryId opened) (epoch opened) s1) as [[[]|e] s2]; cbn [fst snd] in *;
    pose proof (undisturbed_trans _ _ _ _ Hi Hu) as Hu2; [|split; [by eexists|split; [done|by right]]].
  pose proof (close_cleanup_spec i opened s s2 Hin Hg Hu2 Hs) as H.
  match goal with |- let (_, _) := ?m in _ => destruct m end. exact H.
Qed.

(** ** Ids that stay *)
Definition same_domain s s' : Prop := forall r id, is_Some (view r (world s') id) <-> is_Some (view r (world s) id).
Definition open_ids s : list (string * string) := map (fun e => (fst e, fst (snd e))) (open_epochs s).

Lemma open_ids_get s id : map_get (open_ids s) id = repositoryId <$> map_get (sessions s) id.
Proof.
  transitivity (fst <$> map_get (open_epochs s) id).
  - unfold open_ids. induction (open_epochs s) as [|[k v] m IH]; [done|].
    cbn [map fst snd]. rewrite !map_get_cons. case_bool_decide; [done|]. apply IH.
  - rewrite open_epochs_get. by destruct (map_get _ _).
Qed.
Lemma open_ids_keys s : map_keys (open_ids s) = map_keys (sessions s).
Proof. unfold open_ids. rewrite <- open_epochs_keys. unfold map_keys. by rewrite map_map. Qed.

Lemma same_ids_in_step s s' : open_ids s' = open_ids s -> same_domain s s' -> in_step co s -> in_step co s'.
Proof.
  intros Hids Hdom (Hwf & Hk & Hv). split; [|split].
  - unfold map_wf. by rewrite <- open_ids_keys, Hids, open_ids_keys.
  - intros id o Ho. pose proof (open_ids_get s' id) as H. rewrite Ho, Hids, open_ids_get in H.
    destruct (map_get (sessions s) id) as [o'|] eqn:Ho'; [|done]. cbn in H. rewrite <- (Hk id o' Ho'). congruence.
  - intros r id. rewrite (Hdom r id), Hv. rewrite <- !not_eq_None_Some, !map_get_None.
    by rewrite <- (open_ids_keys s), <- (open_ids_keys s'), Hids.
Qed.

Lemma same_domain_trans s1 s2 s3 : same_domain s1 s2 -> same_domain s2 s3 -> same_domain s1 s3.
Proof. intros H1 H2 r id. by rewrite (H2 r id), (H1 r id). Qed.
Lemma undisturbed_same s s' : undisturbed co s s' -> open_ids s' = open_ids s /\ same_domain s s'.
Proof. intros [He Hv]. split; [unfold open_ids; by rewrite He|]. intros r id. by rewrite Hv. Qed.

(** ** Reopening *)
(** Only the repository [id] may have another epoch, and it stays registered. *)
Definition touches_only id s s' : Prop :=
  open_ids s' = open_ids s /\ same_domain s s'
  /\ forall k, k <> id -> map_get (open_epochs s') k = map_get (open_epochs s) k
                   /\ forall r, view r (world s') k = view r (world s) k.
(** The session and every registry are at [e]. *)
Definition at_new_epoch id (e : Z) s : Prop :=
  map_get (open_epochs s) id = Some (id, e) /\ forall r, view r (world s) id = Some e.

Lemma touches_only_trans id s1 s2 s3 : touches_only id s1 s2 -> touches_only id s2 s3 -> touches_only id s1 s3.
Proof.
  intros (H1 & H2 & H3) (H4 & H5 & H6). split; [congruence|]. split; [by eapply same_domain_trans|].
  intros k Hk. destruct (H3 k Hk) as [E1 V1], (H6 k Hk) as [E2 V2]. split; [congruence|]. intros r. by rewrite V2.
Qed.
Lemma undisturbed_touches id s s' : undisturbed co s s' -> touches_only id s s'.
Proof. intros Hu. destruct (undisturbed_same s s' Hu), Hu as [He Hv]. split_and!; try done. intros k _. by rewrite He. Qed.
Lemma quiet_touches {A} id (m : method (service W) A) s : quiet co m -> touches_only id s (snd (m s)).
Proof. intros Hm. apply undisturbed_touches, Hm. Qed.

Lemma open_epochs_on_world {A} (m : method W A) s : open_epochs (snd (on_world m s)) = open_epochs s.
Proof. unfold on_world, on_part. by destruct (m (world s)). Qed.

Lemma replace_touches r id e (m : method W unit) s : replaces view r id e m ->
  let s' := snd (on_world m s) in
  touches_only id s s'
  /\ match fst (on_world m s) with
     | Ok _ => forall r', view r' (world s') id = if bool_decide (r' = r) then Some e else view r' (world s) id
     | Throw _ => True
     end.
Proof.
  intros Hm. specialize (Hm (world s)). pose proof (open_epochs_on_world m s) as He.
  assert (Hrep : forall w', replaced view r id e (world s) w' -> world (snd (on_world m s)) = w' ->
    touches_only id s (snd (on_world m s))).
  { intros w' [[v Hv] Hup] Hw. split; [unfold open_ids; by rewrite He|]. split.
    - intros r' k. rewrite Hw, Hup. destruct (bool_decide (r' = r)) eqn:E1; cbn; [|done].
      destruct (bool_decide (k = id)) eqn:E2; [|done]. apply bool_decide_eq_true in E1, E2. subst. rewrite Hv.
      split; by eexists.
    - intros k Hk. rewrite He, Hw. split; [done|]. intros r'. rewrite Hup, (bool_decide_eq_false_2 (k = id)) by done.
      by rewrite andb_false_r. }
  unfold on_world, on_part in *. destruct (m (world s)) as [[[]|err] w']; cbn in *.
  - split; [by eapply Hrep|]. intros r'. destruct Hm as [_ Hup]. rewrite Hup.
    rewrite (bool_decide_eq_true_2 (id = id)) by done. by rewrite andb_true_r.
  - split; [|done]. destruct Hm as [Hsame|Hm]; [|by eapply Hrep]. by apply undisturbed_touches.
Qed.


Lemma open_epochs_set s opened ls (w : W) sn :
  open_epochs {| sessions := map_set (sessions s) (repositoryId opened) opened; listeners := ls; world := w; sent := sn |}
  = map_set (open_epochs s) (repositoryId opened) (repositoryId opened, epoch opened).
Proof. unfold open_epochs. cbn. by rewrite (map_values_set (fun o => (repositoryId o, epoch o))). Qed.

(** Storing a session under the id of one that is open. *)
Lemma store_touches s opened : map_get (open_ids s) (repositoryId opened) = Some (repositoryId opened) ->
  let s' := snd (set_sessions (fun m => map_set m (repositoryId opened) opened) s) in
  touches_only (repositoryId opened) s s'
  /\ map_get (open_epochs s') (repositoryId opened) = Some (repositoryId opened, epoch opened)
  /\ world s' = world s.
Proof.
  intros Hg. unfold set_sessions, modify_state. cbn. rewrite open_epochs_set. split_and!; [|by rewrite map_get_set_eq|done].
  split; [|split; [done|]].
  - unfold open_ids. rewrite open_epochs_set, (map_values_set fst). by apply map_set_same.
  - intros k Hk. rewrite open_epochs_set, map_get_set_ne by congruence. done.
Qed.

Lemma touches_ids id s s' : touches_only id s s' -> open_ids s' = open_ids s.
Proof. by intros []. Qed.

(** Storing a session and telling the listeners. *)
Definition store_and_fire {A} opened event (a : A) : method (service W) A :=
  _ ← set_sessions (fun m => map_set m (repositoryId opened) opened);
  _ ← fireSessionChange co event;
  mret a.

Lemma store_and_fire_spec {A} opened event (a : A) s :
  map_get (open_ids s) (repositoryId opened) = Some (repositoryId opened) ->
  let s' := snd (store_and_fire opened event a s) in
  touches_only (repositoryId opened) s s'
  /\ map_get (open_epochs s') (repositoryId opened) = Some (repositoryId opened, epoch opened)
  /\ same view (world s) (world s')
  /\ match fst (store_and_fire opened event a s) with Ok b => b = a | Throw _ => True end.
Proof.
  intros Hg. destruct (store_touches s opened Hg) as (Ht & He & Hw).
  unfold store_and_fire, mbind, method_bind, set_sessions, modify_state in *. cbn in Ht, He, Hw.
  match goal with |- context [fireSessionChange co event ?s1] =>
    pose proof (quiet_fire co event s1) as [Hu _]; destruct (fireSessionChange co event s1) as [[[]|e] s2] end;
    cbn [snd fst mret method_ret] in *;
    (split_and!; [eapply touches_only_trans, undisturbed_touches; done|by rewrite (proj1 Hu)| |done]);
    intros r k; by rewrite (proj2 Hu).
Qed.

Definition reopened_as opened s (r : ReopenResult) : Prop :=
  match r with
  | Reopened id previous e _ => id = repositoryId opened /\ previous = epoch opened /\ at_new_epoch id e s
  | ReopenFailed _ _ _ _ => False
  end.

Lemma reopen_answer_spec opened s :
  match reopen_answer be foreign opened s with
  | (Ok (response, snapshot, scope), s') => undisturbed co s s'
      /\ open_repositoryId response = repositoryId opened
      /\ snapshot_repositoryId snapshot = repositoryId opened /\ snapshot_epoch snapshot = open_epoch response
      /\ scope_repositoryId (watched_scope scope) = repositoryId opened
      /\ scope_epoch (watched_scope scope) = open_epoch response
  | (Throw _, s') => undisturbed co s s'
  end.
Proof using HQ.
  unfold reopen_answer. unfold mbind at 1, method_bind at 1.
  pose proof (proj1 (quiet_initialize co be s)) as T1.
  destruct (initialize be s) as [[connection|e] s1]; [|done]. cbn in T1. cbn zeta.
  unfold mbind at 1, method_bind at 1.
  pose proof (proj1 (requestOpen_asks co be foreign connection (reopen_request opened) s1)) as T2.
  destruct (requestOpen be foreign connection (reopen_request opened) s1) as [[raw|e] s2]; cbn in T2;
    pose proof (undisturbed_trans _ _ _ _ T1 T2) as T; clear T1 T2; [|done].
  unfold mbind at 1, method_bind at 1, lift_result at 1. destruct (parseOpenResponse raw) as [response|e]; [|done].
  unfold mbind at 1, method_bind at 1, lift_result at 1.
  destruct (validateReopenResponse response opened) as [[]|e] eqn:Hval; [|done].
  assert (Hid : open_repositoryId response = repositoryId opened).
  { apply require_ok in Hval. bool_cases. done. }
  unfold mbind at 1, method_bind at 1.
  pose proof (proj1 (quiet_getSnapshot co be (open_repositoryId response) (open_epoch response) s2)) as T3.
  pose proof (getSnapshot_answers co be (open_repositoryId response) (open_epoch response) s2) as Hans.
  destruct (getSnapshot be _ _ s2) as [[snapshot|e] s3]; cbn in T3; pose proof (undisturbed_trans _ _ _ _ T T3) as T4;
    [|done].
  destruct (Hans snapshot s3 eq_refl) as [Hsid Hsep]. rewrite Hid in Hsid.
  unfold mbind, method_bind, lift_result, watchScopeFromResponse.
  by destruct (validateBoundaryRootScope _ _).
Qed.

Lemma reopen_spec opened s : map_get (open_ids s) (repositoryId opened) = Some (repositoryId opened) ->
  match reopenSession co be foreign opened s with
  | (Ok r, s') => touches_only (repositoryId opened) s s' /\ reopened_as opened s' r
  | (Throw _, s') => touches_only (repositoryId opened) s s'
  end.
Proof using HQ.
  intros Hin. set (id := repositoryId opened) in *. unfold reopenSession. unfold mbind at 1, method_bind at 1.
  pose proof (reopen_answer_spec opened s) as Ha.
  destruct (reopen_answer be foreign opened s) as [[[[response snapshot] scope]|e] s3]; [|by apply undisturbed_touches].
  destruct Ha as (Hu & Hid & Hsid & Hsep & Hwid & Hwep). apply (undisturbed_touches id) in Hu.
  pose proof (status_replaces snapshot) as R5. rewrite Hsid, Hsep in R5. apply (replace_touches _ _ _ _ s3) in R5 as [T5 V5].
  unfold mbind at 1, method_bind at 1.
  destruct (on_world (status_replaceSnapshot co snapshot) s3) as [[[]|e] s4]; cbn in T5, V5;
    pose proof (touches_only_trans _ _ _ _ Hu T5) as T6; [|done].
  pose proof (projection_replaces snapshot) as R7. rewrite Hsid, Hsep in R7.
  apply (replace_touches _ _ _ _ s4) in R7 as [T7 V7]. unfold mbind at 1, method_bind at 1.
  destruct (on_world (projection_replaceSnapshot co snapshot) s4) as [[[]|e] s5]; cbn in T7, V7;
    pose proof (touches_only_trans _ _ _ _ T6 T7) as T8; [|done].
  pose proof (watcher_replaces (watched_scope scope)) as R9. rewrite Hwid, Hwep in R9.
  apply (replace_touches _ _ _ _ s5) in R9 as [T9 V9]. unfold mbind at 1, method_bind at 1.
  destruct (on_world (watcher_replaceRepository co (watched_scope scope)) s5) as [[[]|e] s6]; cbn in T9, V9;
    pose proof (touches_only_trans _ _ _ _ T8 T9) as T10; [|done].
  match goal with |- context [set_sessions (fun m => map_set m (repositoryId ?o) ?o)] => set (reopened := o) end.
  match goal with |- context [mret (Reopened ?a ?b ?c ?d)] => set (answer := Reopened a b c d) end.
  match goal with |- context [fireSessionChange co ?ev] => set (event := ev) end.
  assert (Hri : repositoryId reopened = id) by done.
  destruct (store_and_fire_spec reopened event answer s6) as (T11 & E11 & V11 & A11).
  { rewrite Hri, (touches_ids _ _ _ T10). done. }
  change (match store_and_fire reopened event answer s6 with
    | (Ok r, s') => touches_only id s s' /\ reopened_as opened s' r
    | (Throw _, s') => touches_only id s s' end).
  rewrite Hri in T11, E11.
  destruct (store_and_fire reopened event answer s6) as [[r|e] s7]; cbn in T11, E11, V11, A11; [subst r; split|];
    [by eapply touches_only_trans| |by eapply touches_only_trans].
  split; [done|]. split; [done|]. unfold at_new_epoch. rewrite Hri. split; [done|].
  intros r. rewrite V11, V9, V7, V5. by destruct r.
Qed.

(** Every session gets one result, and those reported reopened are. *)
Definition result_of opened s (r : ReopenResult) : Prop :=
  match r with
  | Reopened id previous e _ => id = repositoryId opened /\ previous = epoch opened /\ at_new_epoch id e s
  | ReopenFailed id e root _ =>
      id = repositoryId opened /\ e = epoch opened /\ root = identity_workingCopyRoot (identity opened)
  end.

Lemma touched_elsewhere id s s' opened r : touches_only id s s' -> repositoryId opened <> id ->
  result_of opened s r -> result_of opened s' r.
Proof.
  intros (_ & _ & H) Hne. destruct r as [id' p e root|]; [|done]. cbn. intros (-> & -> & He & Hv).
  destruct (H (repositoryId opened) Hne) as [He' Hv']. unfold at_new_epoch. rewrite He'. split_and!; try done.
  intros r. by rewrite Hv'.
Qed.

Lemma reopen_one_spec opened s : map_get (open_ids s) (repositoryId opened) = Some (repositoryId opened) ->
  exists r s', reopen_one co be foreign opened s = (Ok r, s')
    /\ touches_only (repositoryId opened) s s' /\ result_of opened s' r.
Proof using HQ.
  intros Ho. unfold reopen_one, try_catch. pose proof (reopen_spec opened s Ho) as H.
  destruct (reopenSession co be foreign opened s) as [[r|e] s1]; [|by eexists _, s1].
  destruct H as [Ht Hr]. exists r, s1. split_and!; try done. by destruct r.
Qed.

Lemma reopen_all_spec l s : NoDup (map repositoryId l) ->
  Forall (fun opened => map_get (open_ids s) (repositoryId opened) = Some (repositoryId opened)) l ->
  exists rs s', reopen_all co be foreign l s = (Ok rs, s') /\ open_ids s' = open_ids s /\ same_domain s s'
    /\ (forall opened r, repositoryId opened ∉ map repositoryId l -> result_of opened s r -> result_of opened s' r)
    /\ Forall2 (fun opened r => result_of opened s' r) l rs.
Proof using HQ.
  revert s. induction l as [|opened l IH]; intros s Hnd Hall; [by exists [], s|].
  apply NoDup_cons in Hnd as [Hni Hnd]. apply Forall_cons in Hall as [Ho Hall].
  cbn [reopen_all map]. destruct (reopen_one_spec opened s Ho) as (r & s1 & Hr & Ht & Hres).
  unfold mbind at 1, method_bind at 1. rewrite Hr.
  destruct (IH s1 Hnd) as (rs & s2 & Hrs & Hids & Hdom & Hkeep & Hall2); [by rewrite (touches_ids _ _ _ Ht)|].
  unfold mbind, method_bind. rewrite Hrs. eexists _, s2. split; [reflexivity|].
  split; [by rewrite Hids, (touches_ids _ _ _ Ht)|]. split; [eapply same_domain_trans; [apply Ht|done]|]. split.
  - intros o r0 Hnin Hr0. apply not_elem_of_cons in Hnin as [Hne Hnin].
    by apply Hkeep, (touched_elsewhere (repositoryId opened) s s1).
  - apply Forall2_cons. split; [by apply Hkeep|done].
Qed.

Lemma sessions_known s : in_step co s ->
  NoDup (map repositoryId (map_values (sessions s)))
  /\ Forall (fun opened => map_get (open_ids s) (repositoryId opened) = Some (repositoryId opened)) (map_values (sessions s)).
Proof.
  intros (Hwf & Hk & _). split.
  - assert (map repositoryId (map_values (sessions s)) = map_keys (sessions s)) as ->; [|done].
    unfold map_values, map_keys. rewrite map_map. apply map_ext_in. intros [k o] Hin.
    apply (Hk k o), map_get_elem; [done|by apply list_elem_of_In].
  - apply Forall_forall. intros o Ho. apply map_value_get in Ho as (k & Hg); [|done].
    rewrite open_ids_get, (Hk k o Hg), Hg. cbn. by rewrite (Hk k o Hg).
Qed.

Lemma reopen_sessions_spec s : in_step co s ->
  exists rs s', reopenOpenSessions co be foreign s = (Ok rs, s') /\ open_ids s' = open_ids s /\ same_domain s s'
    /\ Forall2 (fun opened r => result_of opened s' r) (map_values (sessions s)) rs.
Proof using HQ.
  intros Hin. destruct (sessions_known s Hin) as [Hnd Hall].
  destruct (reopen_all_spec _ s Hnd Hall) as (rs & s' & Hr & Hids & Hdom & _ & Hall2). by exists rs, s'.
Qed.

(** ** Calls that keep what is open *)
Definition steady s s' : Prop := open_epochs s' = open_epochs s /\ same_domain s s'.
Definition steadily {A} (m : method (service W) A) : Prop := forall s, steady s (snd (m s)).

Lemma steady_trans s1 s2 s3 : steady s1 s2 -> steady s2 s3 -> steady s1 s3.
Proof. intros [H1 H2] [H3 H4]. split; [congruence|by eapply same_domain_trans]. Qed.
Lemma steady_in_step s s' : steady s s' -> in_step co s -> in_step co s'.
Proof. intros [He Hd]. apply same_ids_in_step; [|done]. unfold open_ids. by rewrite He. Qed.
Lemma steadily_bind {A B} (m : method (service W) A) (f : A -> method (service W) B) :
  steadily m -> (forall a, steadily (f a)) -> steadily (a ← m; f a).
Proof.
  intros Hm Hf s. unfold mbind, method_bind. specialize (Hm s). destruct (m s) as [[a|e] s1]; [|done].
  by eapply steady_trans, Hf.
Qed.
Lemma steadily_catch {A} (m : method (service W) A) (f : js_error -> method (service W) A) :
  steadily m -> (forall e, steadily (f e)) -> steadily (try_catch m f).
Proof.
  intros Hm Hf s. unfold try_catch. specialize (Hm s). destruct (m s) as [[a|e] s1]; [done|].
  by eapply steady_trans, Hf.
Qed.
Lemma steadily_for_each {A} (f : A -> method (service W) unit) l : (forall x, steadily (f x)) -> steadily (for_each f l).
Proof. intros Hf. induction l as [|x l IH]; [by intros s|]. cbn [for_each]. by apply steadily_bind. Qed.
Lemma steadily_keeps {A} (m : method W A) : keeps view m -> steadily (on_world m).
Proof.
  intros Hm s. destruct (quiet_on_world co m Hm s) as [[He Hv] _]. split; [done|]. intros r k. by rewrite Hv.
Qed.
Lemma steadily_replaces r id e (m : method W unit) : replaces view r id e m -> steadily (on_world m).
Proof. intros Hm s. destruct (replace_touches r id e m s Hm) as [(_ & Hd & _) _]. split; [apply open_epochs_on_world|done]. Qed.
Lemma steadily_get {A} (f : service W -> method (service W) A) : (forall s0, steadily (f s0)) ->
  steadily (s ← get_state; f s).
Proof. intros Hf s. apply Hf. Qed.
Lemma steadily_throw {A} e : steadily (throw_error e : method (service W) A).
Proof. by intros s. Qed.
Lemma steadily_lift {A} (r : result A) : steadily (lift_result r).
Proof. by intros s. Qed.

Lemma stale_steadily req : steadily (markOpenSessionsStale co req).
Proof.
  unfold markOpenSessionsStale. apply steadily_bind; [apply steadily_lift|]. intros v. apply steadily_get. intros s0.
  apply steadily_bind; intros; apply steadily_for_each; intros mark.
  - unfold requireStaleState. apply steadily_get. intros s1. destruct (status_getSnapshot _ _ _); [|apply steadily_throw].
    destruct (negb _); [apply steadily_throw|].
    apply steadily_bind; [apply steadily_keeps, projection_gets|].
    intros [p|]; [|apply steadily_throw]. by destruct (negb _).
  - apply steadily_bind; [apply steadily_keeps, status_marks|]. intros _. unfold markProjectionStale.
    apply steadily_catch; [apply steadily_keeps, projection_marks|]. intros e. apply steadily_get. intros s1.
    destruct (status_getSnapshot _ _ _) as [snapshot|]; [|apply steadily_throw]. destruct (negb _); [apply steadily_throw|].
    apply steadily_bind; [eapply steadily_replaces, projection_replaces|]. intros _. apply steadily_throw.
Qed.

Lemma refresh_identity_steady id e s : in_step co s -> steady s (snd (refreshSessionIdentityFromSnapshot co id e s)).
Proof.
  intros (_ & Hk & _). unfold refreshSessionIdentityFromSnapshot. unfold mbind at 1, method_bind at 1, get_state.
  destruct (map_get (sessions s) id) as [opened|] eqn:Hg; [|done]. destruct (negb _); [done|].
  destruct (status_getSnapshot _ _ _) as [snapshot|]; [|done]. destruct (negb _); [done|].
  unfold mbind, method_bind, lift_result, set_sessions, modify_state.
  destruct (validateSnapshotIdentityForSession _ _); [|done]. split; [|done].
  cbn [snd mret method_ret]. rewrite open_epochs_set. apply map_set_same. rewrite open_epochs_get.
  cbn [repositoryId epoch]. rewrite (Hk id opened Hg), Hg. cbn. by rewrite (Hk id opened Hg).
Qed.

(** ** Disposal *)
Lemma ignore_unregisters r id (m : method W unit) s : unregisters view r id m ->
  exists s', ignore_errors (on_world m) s = (Ok tt, s') /\ sessions s' = sessions s
    /\ updated view r id None (world s) (world s').
Proof.
  intros Hm. specialize (Hm (world s)). unfold ignore_errors, try_catch, on_world, on_part.
  destruct (m (world s)) as [[[]|e] w]; by eexists.
Qed.

Lemma disposeLocal_spec id s :
  exists s', disposeLocalSession co id s = (Ok tt, s') /\ sessions s' = sessions s
    /\ everywhere view id None (world s) (world s').
Proof.
  unfold disposeLocalSession, mbind, method_bind.
  destruct (ignore_unregisters Watcher id _ s (watcher_unregisters id)) as (s1 & -> & E1 & V1).
  destruct (ignore_unregisters Status id _ s1 (status_unregisters id)) as (s2 & -> & E2 & V2).
  destruct (ignore_unregisters Projection id _ s2 (projection_unregisters id)) as (s3 & -> & E3 & V3).
  exists s3. split_and!; [done|congruence|]. intros r k. rewrite V3, V2, V1.
  destruct r, (bool_decide (k = id)); done.
Qed.

Lemma dispose_each_spec l s :
  exists s', for_each (fun opened => disposeLocalSession co (repositoryId opened)) l s = (Ok tt, s')
    /\ forall r k, view r (world s') k = if bool_decide (k ∈ map repositoryId l) then None else view r (world s) k.
Proof.
  revert s. induction l as [|o l IH]; intros s; [by exists s|]. cbn [for_each]. unfold mbind, method_bind.
  destruct (disposeLocal_spec (repositoryId o) s) as (s1 & -> & _ & V1). destruct (IH s1) as (s2 & -> & V2).
  exists s2. split; [done|]. intros r k. rewrite V2, V1. cbn [map].
  repeat case_bool_decide; set_solver.
Qed.

Lemma dispose_spec s : in_step co s ->
  exists s', dispose co s = (Ok tt, s') /\ sessions s' = [] /\ forall r k, view r (world s') k = None.
Proof.
  intros (Hwf & Hk & Hv). unfold dispose, try_finally. unfold mbind, method_bind, get_state.
  destruct (dispose_each_spec (map_values (sessions s)) s) as (s1 & -> & V1). eexists. split; [reflexivity|].
  split; [done|]. intros r k. cbn. rewrite V1. case_bool_decide as Hin; [done|].
  apply eq_None_not_Some. rewrite Hv. intros [o Ho]. apply Hin. rewrite <- (Hk k o Ho).
  apply (list_elem_of_fmap_2 repositoryId). by eapply map_get_Some_value.
Qed.

(** ** Every sequence of calls *)
Inductive call :=
  | Open (req : option js_value)
  | Close (id : option js_value)
  | Reopen
  | MarkStale (req : option js_value)
  | RefreshIdentity (id : string) (at_ : Z)
  | Subscribe (l : nat)
  | Unsubscribe (l : nat)
  | Dispose.

Definition run (c : call) s : service W :=
  match c with
  | Open req => snd (openWorkingCopy co be foreign req s)
  | Close id => snd (closeRepository co be id s)
  | Reopen => snd (reopenOpenSessions co be foreign s)
  | MarkStale req => snd (markOpenSessionsStale co req s)
  | RefreshIdentity id at_ => snd (refreshSessionIdentityFromSnapshot co id at_ s)
  | Subscribe l => snd (onDidChangeSessions l s)
  | Unsubscribe l => snd (dispose_subscription l s)
  | Dispose => snd (dispose co s)
  end.

(** A call of the service, whether it returns or throws, or work of other code. *)
Inductive step s : service W -> Prop :=
  | step_call c : step s (run c s)
  | step_other s' : undisturbed co s s' -> step s s'.

(** A service nobody has used. *)
Definition unused s : Prop := sessions s = [] /\ forall r id, view r (world s) id = None.

Lemma unused_in_step s : unused s -> in_step co s.
Proof.
  intros [Hs Hv]. split; [rewrite Hs; apply map_wf_nil|]. split; [by rewrite Hs|].
  intros r id. rewrite Hv, Hs. split; by intros [].
Qed.
(** One id changes, in the sessions as in the registries. *)
Lemma everywhere_in_step s s' id (v : option Z) : map_wf (open_epochs s') ->
  (forall k, map_get (open_epochs s') k
        = if bool_decide (id = k) then (fun e => (id, e)) <$> v else map_get (open_epochs s) k) ->
  everywhere view id v (world s) (world s') -> in_step co s -> in_step co s'.
Proof.
  intros Hwf Hget Hv (_ & Hk & Hd). split; [by unfold map_wf; rewrite <- open_epochs_keys|]. split.
  - intros k o Ho. specialize (Hget k). rewrite !open_epochs_get, Ho in Hget. cbn in Hget. case_bool_decide as Hid.
    + destruct v; [|done]. cbn in Hget. congruence.
    + destruct (map_get (sessions s) k) as [o'|] eqn:Ho'; [|done]. cbn in Hget. rewrite <- (Hk k o' Ho'). congruence.
  - intros r k. rewrite Hv. specialize (Hget k). rewrite !open_epochs_get in Hget.
    destruct (decide (id = k)) as [<-|Hne].
    + rewrite !bool_decide_eq_true_2 in * by done.
      destruct (map_get (sessions s') id), v; try done; split; intros []; by try eexists.
    + rewrite !bool_decide_eq_false_2 in * by congruence. rewrite Hd.
      destruct (map_get (sessions s') k), (map_get (sessions s) k); try done; split; intros []; by try eexists.
Qed.

Lemma opens_in_step s v opened s' : opens co s v opened s' -> in_step co s -> in_step co s'.
Proof.
  intros (Hg & _ & He & Hv & _) Hin. rewrite <- map_set_fresh in He by (rewrite open_epochs_keys; by apply map_get_None).
  eapply everywhere_in_step; [| |done|done].
  - rewrite He. apply map_wf_set. unfold map_wf. rewrite open_epochs_keys. apply Hin.
  - intros k. by rewrite He, map_get_set.
Qed.
Lemma closes_in_step s opened s' : closes s opened s' -> in_step co s -> in_step co s'.
Proof.
  intros (He & Hv & _) Hin. eapply everywhere_in_step; [| |done|done].
  - rewrite He. apply map_wf_delete. unfold map_wf. rewrite open_epochs_keys. apply Hin.
  - intros k. by rewrite He, map_get_delete.
Qed.

Lemma run_in_step c s : in_step co s -> in_step co (run c s).
Proof using HQ.
  intros Hin. destruct c as [req|id| |req|id e|l|l|]; cbn [run].
  - pose proof (open_spec co be foreign req s Hin) as H.
    destruct (openWorkingCopy co be foreign req s) as [[o|e] s']; cbn.
    + destruct H as (v & _ & Ho & _). by eapply opens_in_step.
    + destruct H as [[Hu _]|(v & o & _ & [Ho _] & _)]; [by eapply undisturbed_in_step|by eapply opens_in_step].
  - pose proof (close_spec id s Hin) as H. unfold close_outcome in H. destruct (closeRepository co be id s) as [r s1]; cbn.
    destruct (named s id) as [o|]; [destruct (backend_closed s o)|];
      [by eapply closes_in_step|by eapply undisturbed_in_step; [apply H|]..].
  - destruct (reopen_sessions_spec s Hin) as (rs & s' & -> & Hids & Hd & _). by eapply same_ids_in_step.
  - eapply steady_in_step; [apply stale_steadily|done].
  - by eapply steady_in_step, Hin; apply refresh_identity_steady.
  - done.
  - done.
  - destruct (dispose_spec s Hin) as (s' & -> & Hs & Hv). by apply unused_in_step.
Qed.

Lemma reachable_in_step s0 s : unused s0 -> rtc step s0 s -> in_step co s.
Proof using HQ.
  intros Hu Hr. apply unused_in_step in Hu. induction Hr as [|s1 s2 s3 Hstep _ IH]; [done|]. apply IH.
  destruct Hstep as [c|s2 Hq]; [by apply run_in_step|by eapply undisturbed_in_step].
Qed.

(** ** What the service guarantees *)
Definition reachable s : Prop := exists s0, unused s0 /\ rtc step s0 s.

(** C18: In every state the session service can reach, whatever its calls
    returned or threw, the watcher service, the canonical store and the projection
    hold exactly the repositories that have an open session, and each session is
    kept under its own id.  This is proved of registers that register all or
    nothing ([Registries]: a registration that throws has registered nothing), so
    not when a listener of the projection throws while a repository is registered,
    where [registration_leak] shows a projection without a session; and of other
    code that leaves sessions and registers alone, between the calls and while the
    service waits ([step_other], [Quiet]). *)
Theorem sessions_registered s0 s : unused s0 -> rtc step s0 s -> in_step co s.
Proof using HQ. apply reachable_in_step. Qed.

(** C19: Opening is all or nothing.  If it returns, the session is what the
    backend answered, is new, is kept under its id and is registered at its epoch
    in all three registers, nothing else having changed.  If it throws, sessions
    and registers are as before, and if the backend had opened the repository and
    no session had it already, the backend was asked to close it, under the id and
    the epoch of its answer; only when a session listener threw is the session
    open.  As above, no listener of the projection throws during the
    registration, and other code leaves sessions and registers alone. *)
Theorem open_all_or_nothing req s : reachable s ->
  match openWorkingCopy co be foreign req s with
  | (Ok opened, s') => exists v, validateOpenRequest req = Ok v /\ opens_answer co be s v opened s'
  | (Throw _, s') => refuses co be s req s'
      \/ exists v opened, validateOpenRequest req = Ok v /\ opens_answer co be s v opened s'
           /\ listener_threw co (SessionOpened (repositoryId opened) (epoch opened)) s'
  end.
Proof using HQ. intros (s0 & Hu & Hr). by eapply open_spec, reachable_in_step. Qed.

(** C20: Closing asks the backend first.  If the id names no session, the call
    throws, nothing is sent and nothing changes.  If the backend does not start,
    fails or does not confirm, the call throws and the session stays open and
    registered as it was.  If the backend confirms, the session and all its
    registrations are gone and nothing else has changed, even if a cleanup step or
    a listener threw.  As above, an unregistration unregisters even when it
    throws, and other code leaves sessions and registers alone. *)
Theorem close_all_or_nothing id s : reachable s ->
  let (r, s') := closeRepository co be id s in
  match named s id with
  | None => (exists e, r = Throw e) /\ undisturbed co s s' /\ sent s' = sent s
  | Some opened =>
      let closing := ("repository/close", VObj [("repositoryId", VStr (repositoryId opened)); ("epoch", VNum (NumInt (epoch opened)))]) in
      if backend_closed s opened
      then open_epochs s' = map_delete (open_epochs s) (repositoryId opened)
           /\ everywhere view (repositoryId opened) None (world s) (world s') /\ sent s' = (sent s ++ [closing])%list
      else (exists e, r = Throw e) /\ undisturbed co s s' /\ (sent s' = sent s \/ sent s' = (sent s ++ [closing])%list)
  end.
Proof using HQ.
  intros (s0 & Hu & Hr). exact (close_spec id s (reachable_in_step _ _ Hu Hr)).
Qed.

(** C21: Reopening after a restart of the backend always returns, with one
    result per open session, in order.  A session reported reopened has its
    record and its three registrations at the new epoch when all is done; no
    session is lost, whatever fails. *)
Theorem reopen_reports s : reachable s ->
  exists rs s', reopenOpenSessions co be foreign s = (Ok rs, s')
    /\ open_ids s' = open_ids s /\ same_domain s s'
    /\ Forall2 (fun opened r => result_of opened s' r) (map_values (sessions s)) rs.
Proof using HQ. intros (s0 & Hu & Hr). by eapply reopen_sessions_spec, reachable_in_step. Qed.

(** Disposing the service never throws and leaves no session and no
    registration behind. *)
Theorem dispose_releases_all s : reachable s ->
  exists s', dispose co s = (Ok tt, s') /\ sessions s' = [] /\ forall r id, view r (world s') id = None.
Proof using HQ. intros (s0 & Hu & Hr). by eapply dispose_spec, reachable_in_step. Qed.
End Operations.
End SessionTheorems.
