(* ===== verification/SessionCollaborators.v ===== *)
(** The collaborators of the session service as they are: the watcher service
    of Watchers.v, whose pipeline's scheduler holds the two stores.  They meet
    [Registries]: the registers are [registrations] and the stores' maps.

    The session listeners are callbacks that register nothing.  The
    projection's listeners do not throw when a repository is registered: if one
    does, the projection stays registered ([registration_leak]). *)

From Stdlib Require Import ZArith String List.
From stdpp Require Import base option list strings.
From S2P Require Import Prelude JsString JsMap JsValue StatusTypes StatusStore ScmResources ProjectionService.
From S2P Require Import Notifications RefreshScheduler Watchers SessionTypes SessionService SessionFacts.

Local Open Scope string_scope.

(** ** What the stores' methods do to their epochs *)
Module StoreEpochs.
Section Epochs.
Context {T : Type} (epochs : T -> string -> option Z).
Definition sets (id : string) (v : option Z) (t t' : T) : Prop :=
  forall k, epochs t' k = if bool_decide (k = id) then v else epochs t k.
Definition unchanged (t t' : T) : Prop := forall k, epochs t' k = epochs t k.
Definition store_registers id epoch (m : method T unit) : Prop :=
  forall t, match m t with (Ok _, t') => sets id (Some epoch) t t' | (Throw _, t') => unchanged t t' end.
Definition store_unregisters id (m : method T unit) : Prop := forall t, sets id None t (snd (m t)).
Definition store_keeps {A} (m : method T A) : Prop := forall t, unchanged t (snd (m t)).
Definition store_replaces {A} id epoch (m : method T A) : Prop :=
  forall t, match m t with
       | (Ok _, t') => is_Some (epochs t id) /\ sets id (Some epoch) t t'
       | (Throw _, t') => unchanged t t' \/ (is_Some (epochs t id) /\ sets id (Some epoch) t t')
       end.
End Epochs.

Definition status_epochs (store : StatusSnapshotStore.store) (id : string) : option Z :=
  StatusSnapshotStore.st_epoch <$> map_get store id.
Definition projection_epochs (store : SourceControlResourceStore.store) (id : string) : option Z :=
  SourceControlResourceStore.ps_epoch <$> map_get (SourceControlResourceStore.repositories store) id.

Lemma fmap_set {V} (f : V -> Z) (m : list (string * V)) id v k :
  f <$> map_get (map_set m id v) k = if bool_decide (k = id) then Some (f v) else f <$> map_get m k.
Proof. rewrite map_get_set. repeat case_bool_decide; by subst. Qed.
Lemma fmap_delete {V} (f : V -> Z) (m : list (string * V)) id k :
  f <$> map_get (map_delete m id) k = if bool_decide (k = id) then None else f <$> map_get m k.
Proof. rewrite map_get_delete. repeat case_bool_decide; by subst. Qed.
Lemma fmap_set_keep {V} (f : V -> Z) (m : list (string * V)) id v0 v k : map_get m id = Some v0 -> f v = f v0 ->
  f <$> map_get (map_set m id v) k = f <$> map_get m k.
Proof. intros Hg Hf. rewrite fmap_set. case_bool_decide; [|done]. subst. rewrite Hg. cbn. by rewrite Hf. Qed.

(** *** The canonical store *)
Section Status.
Import StatusSnapshotStore.

Lemma status_register id epoch : store_registers status_epochs id epoch (registerRepository id epoch).
Proof.
  intros t. unfold registerRepository, mbind, method_bind, get_state. repeat destruct (negb _); try done.
  destruct (_ || _); [done|]. destruct (map_has t id); [done|]. intros k. cbn. unfold status_epochs. by rewrite fmap_set.
Qed.
Lemma status_unregister id : store_unregisters status_epochs id (unregisterRepository id).
Proof. intros t k. unfold status_epochs. cbn. by rewrite fmap_delete. Qed.

Lemma commit_keep id state0 state t : map_get t id = Some state0 -> st_epoch state = st_epoch state0 ->
  unchanged status_epochs t (snd (commit id state t)).
Proof. intros Hg He k. unfold status_epochs. cbn. by eapply fmap_set_keep. Qed.

Lemma status_apply snapshot : store_keeps status_epochs (applySnapshot snapshot).
Proof.
  intros t. unfold applySnapshot. unfold mbind at 1, method_bind at 1, get_state.
  destruct (map_get t _) as [state|] eqn:Hg; [|done]. destruct (negb _); [done|].
  destruct (stale_generation _ _); [done|]. by eapply commit_keep.
Qed.
Lemma status_mark mark : store_keeps status_epochs (markStale mark).
Proof.
  intros t. unfold markStale, lift_result, mbind, method_bind, get_state.
  repeat (destruct (requireNonEmptyStaleField _ _); [|done]). destruct (require _ _); [|done].
  destruct (map_get t _) as [state|] eqn:Hg; [|done]. destruct (negb _); [done|].
  destruct (requireInitializedState state); [|done]. by eapply commit_keep.
Qed.
Lemma status_replace snapshot :
  store_replaces status_epochs (snapshot_repositoryId snapshot) (snapshot_epoch snapshot) (replaceSnapshot snapshot).
Proof.
  intros t. unfold replaceSnapshot. unfold mbind at 1, method_bind at 1, get_state.
  destruct (map_get t _) as [state|] eqn:Hg; [|by left].
  destruct (if _ : bool then _ else _); [by left|].
  destruct (commit _ _ t) as [[?|?] t'] eqn:Hc; [|right];
    (split; [unfold status_epochs; rewrite Hg; by eexists|]); apply (f_equal snd) in Hc; cbn in Hc; rewrite <- Hc;
    intros k; apply (fmap_set st_epoch).
Qed.
End Status.

(** *** The projection store *)
Section Projection.
Import SourceControlResourceStore.
Variable localeCompareEn localeCompare : string -> string -> comparison.

Lemma projection_register repository :
  store_registers projection_epochs (repo_repositoryId repository) (repo_epoch repository) (registerRepository repository).
Proof.
  intros t. unfold registerRepository, mbind, method_bind, get_state.
  repeat match goal with |- context [if ?b then throw_error _ else _] => destruct b; [done|] end.
  intros k. apply (fmap_set ps_epoch).
Qed.
Lemma projection_unregister id : store_unregisters projection_epochs id (unregisterRepository id).
Proof. intros t k. apply (fmap_delete ps_epoch). Qed.

Lemma projection_commit_keep id state0 state t : map_get (repositories t) id = Some state0 ->
  ps_epoch state = ps_epoch state0 -> unchanged projection_epochs t (snd (commit localeCompareEn localeCompare id state t)).
Proof. intros Hg He k. by eapply (fmap_set_keep ps_epoch). Qed.

Lemma requireRepository_run id t :
  requireRepository id t = (match map_get (repositories t) id with
                            | None => Throw (notRegistered id) | Some state => Ok state end, t).
Proof. unfold requireRepository, mbind, method_bind, get_state. by destruct (map_get _ _). Qed.

Lemma projection_apply snapshot : store_keeps projection_epochs (applySnapshot localeCompareEn localeCompare snapshot).
Proof.
  intros t. unfold applySnapshot. unfold mbind, method_bind, lift_result. rewrite requireRepository_run.
  destruct (map_get _ _) as [state|] eqn:Hg; [|done]. destruct (requireEpoch _ _ _); [|done].
  destruct (requireNotOlder _ _); [|done]. by eapply projection_commit_keep.
Qed.
Lemma projection_mark mark : store_keeps projection_epochs (markStale localeCompareEn localeCompare mark).
Proof.
  intros t. unfold markStale. unfold mbind, method_bind, lift_result. rewrite requireRepository_run.
  destruct (map_get _ _) as [state|] eqn:Hg; [|done]. destruct (requireEpoch _ _ _); [|done].
  destruct (ps_generation state); [|done]. by eapply projection_commit_keep.
Qed.
Lemma projection_replace snapshot : store_replaces projection_epochs (snapshot_repositoryId snapshot)
  (snapshot_epoch snapshot) (replaceSnapshot localeCompareEn localeCompare snapshot).
Proof.
  intros t. unfold replaceSnapshot. unfold mbind, method_bind, lift_result. rewrite requireRepository_run.
  destruct (map_get _ _) as [state|] eqn:Hg; [|by left]. destruct (if _ : bool then _ else _); [|by left].
  destruct (commit _ _ _ _ t) as [[?|?] t'] eqn:Hc; [|right];
    (split; [unfold projection_epochs; rewrite Hg; by eexists|]); apply (f_equal snd) in Hc; cbn [snd] in Hc; rewrite <- Hc;
    intros k; apply (fmap_set ps_epoch).
Qed.
End Projection.
End StoreEpochs.

Module SessionCollaborators.
Import SessionLaws StoreEpochs.
Section Instance_.
Variable localeCompareEn localeCompare : string -> string -> comparison.
Context {E : Type} (env : SourceControlProjectionService.Environment E).
Variable options : StatusRefreshScheduler.config.
Context {F : Type} (factory : RepositoryWatcherService.Factory F).
Notation world := (RepositoryWatcherService.service E F).
Variable session_listener : nat -> RepositorySession.SessionChange -> method world unit.

Definition stores_of (w : world) : app E :=
  StatusRefreshScheduler.stores (DirtyPathPipeline.scheduler (RepositoryWatcherService.pipeline w)).
Definition on_stores {A} (m : method (app E) A) : method world A :=
  RepositoryWatcherService.on_pipeline (DirtyPathPipeline.on_scheduler (StatusRefreshScheduler.on_stores m)).
Definition ignore_value {S A} (m : method S A) : method S unit := _ ← m; mret tt.

Definition collaborators : RepositorySessionService.Collaborators world :=
  {| RepositorySessionService.watcher_registerRepository := RepositoryWatcherService.registerRepository options factory;
     RepositorySessionService.watcher_replaceRepository := RepositoryWatcherService.replaceRepository options;
     RepositorySessionService.watcher_unregisterRepository := RepositoryWatcherService.unregisterRepository factory;
     RepositorySessionService.status_registerRepository := fun id epoch =>
       on_stores (on_status (StatusSnapshotStore.registerRepository id epoch));
     RepositorySessionService.status_unregisterRepository := fun id =>
       on_stores (on_status (StatusSnapshotStore.unregisterRepository id));
     RepositorySessionService.status_applySnapshot := fun snapshot =>
       on_stores (on_status (ignore_value (StatusSnapshotStore.applySnapshot snapshot)));
     RepositorySessionService.status_replaceSnapshot := fun snapshot =>
       on_stores (on_status (ignore_value (StatusSnapshotStore.replaceSnapshot snapshot)));
     RepositorySessionService.status_markStale := fun mark =>
       on_stores (on_status (ignore_value (StatusSnapshotStore.markStale mark)));
     RepositorySessionService.status_getSnapshot := fun w id =>
       StatusSnapshotStore.getSnapshot (statusSnapshotStore (stores_of w)) id;
     RepositorySessionService.projection_registerRepository := fun repository =>
       on_stores (on_projection (SourceControlProjectionService.registerRepository env repository));
     RepositorySessionService.projection_unregisterRepository := fun id =>
       on_stores (on_projection (SourceControlProjectionService.unregisterRepository env id));
     RepositorySessionService.projection_applySnapshot := fun snapshot =>
       on_stores (on_projection (ignore_value
         (SourceControlProjectionService.applySnapshot localeCompareEn localeCompare env snapshot)));
     RepositorySessionService.projection_replaceSnapshot := fun snapshot =>
       on_stores (on_projection (ignore_value
         (SourceControlProjectionService.replaceSnapshot localeCompareEn localeCompare env snapshot)));
     RepositorySessionService.projection_markStale := fun mark =>
       on_stores (on_projection (ignore_value
         (SourceControlProjectionService.markStale localeCompareEn localeCompare env mark)));
     RepositorySessionService.projection_getProjection := fun id =>
       on_stores (on_projection (SourceControlProjectionService.getProjection localeCompareEn localeCompare id));
     RepositorySessionService.listener := session_listener |}.

(** ** The registers *)
Definition projections_of (w : world) : SourceControlResourceStore.store :=
  SourceControlProjectionService.svc_store (sourceControlProjection (stores_of w)).
Definition registered (r : registry) (w : world) (id : string) : option Z :=
  match r with
  | Watcher => (fun reg => scope_epoch (RepositoryWatcherService.reg_scope reg))
                 <$> map_get (RepositoryWatcherService.registrations w) id
  | Status => status_epochs (statusSnapshotStore (stores_of w)) id
  | Projection => projection_epochs (projections_of w) id
  end.

(** ** Methods of one store *)
Lemma on_stores_run {A} (m : method (app E) A) w :
  fst (on_stores m w) = fst (m (stores_of w)) /\ stores_of (snd (on_stores m w)) = snd (m (stores_of w))
  /\ RepositoryWatcherService.registrations (snd (on_stores m w)) = RepositoryWatcherService.registrations w.
Proof.
  unfold on_stores, RepositoryWatcherService.on_pipeline, DirtyPathPipeline.on_scheduler,
    StatusRefreshScheduler.on_stores, on_part, stores_of.
  by destruct (m _) as [r a].
Qed.

(** [M] runs [m] on the store behind the registry [r], and touches no other. *)
Definition acts_on {T A} (r : registry) (epochs : T -> string -> option Z) (get : world -> T)
    (m : method T A) (M : method world A) : Prop :=
  forall w, fst (M w) = fst (m (get w))
       /\ (forall k, registered r w k = epochs (get w) k)
       /\ forall r' k, registered r' (snd (M w)) k
            = if bool_decide (r' = r) then epochs (snd (m (get w))) k else registered r' w k.

Lemma on_status_acts {A} (m : method StatusSnapshotStore.store A) :
  acts_on Status status_epochs (fun w => statusSnapshotStore (stores_of w)) m (on_stores (on_status m)).
Proof.
  intros w. destruct (on_stores_run (on_status m) w) as (H1 & H2 & H3). rewrite H1.
  unfold registered, projections_of. rewrite H2, H3. unfold on_status, on_part.
  destruct (m (statusSnapshotStore (stores_of w))) as [x st]. split_and!; [done|done|]. by intros [].
Qed.
Lemma on_projection_acts {A} (m : method (SourceControlProjectionService.service E) A) :
  acts_on Projection (fun service => projection_epochs (SourceControlProjectionService.svc_store service))
    (fun w => sourceControlProjection (stores_of w)) m (on_stores (on_projection m)).
Proof.
  intros w. destruct (on_stores_run (on_projection m) w) as (H1 & H2 & H3). rewrite H1.
  unfold registered, projections_of. rewrite H2, H3. unfold on_projection, on_part.
  destruct (m (sourceControlProjection (stores_of w))) as [x st]. split_and!; [done|done|]. by intros [].
Qed.

Section Lift.
Context {T : Type} {r : registry} {epochs : T -> string -> option Z} {get : world -> T}.

Lemma sets_updated id v w w' t' : sets epochs id v (get w) t' -> (forall k, registered r w k = epochs (get w) k) ->
  (forall r' k, registered r' w' k = if bool_decide (r' = r) then epochs t' k else registered r' w k) ->
  updated registered r id v w w'.
Proof. intros Hs Hw Hw' r' k. rewrite Hw'. case_bool_decide; [|done]. subst r'. by rewrite Hs, Hw. Qed.
Lemma unchanged_same w w' t' : unchanged epochs (get w) t' -> (forall k, registered r w k = epochs (get w) k) ->
  (forall r' k, registered r' w' k = if bool_decide (r' = r) then epochs t' k else registered r' w k) ->
  same registered w w'.
Proof. intros Hs Hw Hw' r' k. rewrite Hw'. case_bool_decide; [|done]. subst r'. by rewrite Hs, Hw. Qed.

Lemma lift_registers id epoch m M : acts_on r epochs get m M -> store_registers epochs id epoch m ->
  registers registered r id epoch M.
Proof.
  intros Ha Hm w. destruct (Ha w) as (H1 & H2 & H3). specialize (Hm (get w)).
  destruct (M w) as [x w'], (m (get w)) as [y t']; cbn in *; subst y.
  destruct x; [by eapply sets_updated|by eapply unchanged_same].
Qed.
Lemma lift_unregisters id m M : acts_on r epochs get m M -> store_unregisters epochs id m -> unregisters registered r id M.
Proof. intros Ha Hm w. destruct (Ha w) as (H1 & H2 & H3). by eapply sets_updated. Qed.
Lemma lift_keeps {A} (m : method T A) M : acts_on r epochs get m M -> store_keeps epochs m -> keeps registered M.
Proof. intros Ha Hm w. destruct (Ha w) as (H1 & H2 & H3). by eapply unchanged_same. Qed.
Lemma lift_replaces id epoch (m : method T unit) M : acts_on r epochs get m M -> store_replaces epochs id epoch m ->
  replaces registered r id epoch M.
Proof.
  intros Ha Hm w. destruct (Ha w) as (H1 & H2 & H3). specialize (Hm (get w)).
  destruct (M w) as [x w'], (m (get w)) as [y t']; cbn in *; subst y.
  destruct x; [|destruct Hm as [Hm|Hm]; [left; by eapply unchanged_same|right]];
    destruct Hm; split; by (rewrite H2 || eapply sets_updated).
Qed.
End Lift.

Lemma ignore_value_snd {S A} (m : method S A) s : snd (ignore_value m s) = snd (m s).
Proof. unfold ignore_value, mbind, method_bind. by destruct (m s) as [[]]. Qed.
Lemma ignore_keeps {T A} (epochs : T -> string -> option Z) (m : method T A) :
  store_keeps epochs m -> store_keeps epochs (ignore_value m).
Proof. intros Hm t. rewrite ignore_value_snd. apply Hm. Qed.
Lemma ignore_replaces {T A} (epochs : T -> string -> option Z) id epoch (m : method T A) :
  store_replaces epochs id epoch m -> store_replaces epochs id epoch (ignore_value m).
Proof. intros Hm t. specialize (Hm t). unfold ignore_value, mbind, method_bind. by destruct (m t) as [[]]. Qed.

(** ** The projection service *)
Section ProjectionService_.
Import SourceControlProjectionService.
Notation epochs := (fun service => projection_epochs (svc_store service)).

Lemma on_env_silent {A} (m : method E A) s : svc_store (snd (on_env m s)) = svc_store s.
Proof. unfold on_env, on_part. by destruct (m _). Qed.
Lemma fire_silent event s : svc_store (snd (fireProjectionChange env event s)) = svc_store s.
Proof.
  unfold fireProjectionChange. revert s. induction (listeners env) as [|l ls IH]; intros s; [done|]. cbn [for_each].
  unfold mbind, method_bind. pose proof (on_env_silent (l event) s) as H.
  destruct (on_env (l event) s) as [[[]|e] s1]; [|done]. by rewrite IH.
Qed.
Lemma publish_store update s :
  svc_store (snd (publish env update s)) = snd (update (svc_store s))
  /\ match fst (publish env update s) with Ok _ => is_ok (fst (update (svc_store s))) = true | Throw _ => True end.
Proof.
  unfold publish, mbind, method_bind, on_store, on_part.
  destruct (update (svc_store s)) as [[projection|e] t]; [|done].
  match goal with |- context [on_env ?m ?s1] => pose proof (on_env_silent m s1) as H; destruct (on_env m s1) as [[[]|e] s2] end;
    [|done].
  match goal with |- context [fireProjectionChange env ?ev s2] =>
    pose proof (fire_silent ev s2) as H2; destruct (fireProjectionChange env ev s2) as [[[]|e] s3] end;
    cbn in *; by rewrite H2, H.
Qed.
Lemma service_publish_keeps update : store_keeps projection_epochs update -> store_keeps epochs (publish env update).
Proof. intros Hu s k. rewrite (proj1 (publish_store update s)). apply Hu. Qed.
Lemma publish_replaces id epoch update : store_replaces projection_epochs id epoch update ->
  store_replaces epochs id epoch (publish env update).
Proof.
  intros Hu s. specialize (Hu (svc_store s)). pose proof (publish_store update s) as [H1 H2].
  destruct (publish env update s) as [[?|?] s'], (update (svc_store s)) as [[?|?] t']; cbn in *; try done; unfold sets, unchanged;
    rewrite H1; auto.
Qed.

Hypothesis listeners_return :
  forall l id epoch x, l ∈ listeners env -> is_ok (fst (l (Registered id epoch) x)) = true.

Lemma fire_registered_returns id epoch s : is_ok (fst (fireProjectionChange env (Registered id epoch) s)) = true.
Proof using listeners_return.
  unfold fireProjectionChange. revert s. induction (listeners env) as [|l ls IH]; intros s; [done|]. cbn [for_each].
  pose proof (listeners_return l id epoch (svc_env s) ltac:(left)) as H.
  unfold mbind, method_bind. unfold on_env at 1, on_part at 1. destruct (l _ _) as [[[]|e] x]; [|done].
  apply IH. intros. apply listeners_return. by right.
Qed.

Lemma service_register repository :
  store_registers epochs (SourceControlResourceStore.repo_repositoryId repository)
    (SourceControlResourceStore.repo_epoch repository) (registerRepository env repository).
Proof using listeners_return.
  intros s. unfold registerRepository. set (id := SourceControlResourceStore.repo_repositoryId repository).
  unfold mbind at 1, method_bind at 1. unfold on_store at 1, on_part at 1.
  pose proof (projection_register repository (svc_store s)) as Hr. fold id in Hr.
  assert (Hfresh : is_ok (fst (SourceControlResourceStore.registerRepository repository (svc_store s))) = true ->
    projection_epochs (svc_store s) id = None).
  { unfold SourceControlResourceStore.registerRepository, mbind, method_bind, get_state. fold id.
    repeat match goal with |- context [if ?b then throw_error _ else _] => destruct b eqn:?; [done|] end.
    intros _. unfold projection_epochs, map_has in *. by destruct (map_get _ id). }
  destruct (SourceControlResourceStore.registerRepository repository (svc_store s)) as [[[]|e] t]; [|done].
  unfold mbind, method_bind, try_catch.
  match goal with |- context [on_env ?m ?s1] => pose proof (on_env_silent m s1) as H; destruct (on_env m s1) as [[[]|e] s2] end;
    cbn in H.
  - match goal with |- context [fireProjectionChange env (Registered ?i ?e) s2] =>
      pose proof (fire_registered_returns i e s2) as H2; pose proof (fire_silent (Registered i e) s2) as H3;
      destruct (fireProjectionChange env (Registered i e) s2) as [[[]|?] s3] end; [|done].
    cbn in H3. intros k. by rewrite H3, H.
  - cbn. intros k. cbn. rewrite H. pose proof (projection_unregister id t k) as Hu.
    unfold SourceControlResourceStore.unregisterRepository, modify_state in Hu. cbn in Hu. rewrite Hu.
    rewrite (Hr k). case_bool_decide; [|done]. subst k. by rewrite Hfresh.
Qed.
Lemma service_unregister id : store_unregisters epochs id (unregisterRepository env id).
Proof.
  intros s. unfold unregisterRepository. unfold mbind, method_bind. unfold on_store at 1, on_part at 1. cbn.
  match goal with |- context [on_env ?m ?s1] => pose proof (on_env_silent m s1) as H; destruct (on_env m s1) as [[[]|e] s2] end;
    cbn in H; intros k; [rewrite fire_silent|cbn]; rewrite H; apply (projection_unregister id (svc_store s)).
Qed.
End ProjectionService_.

(** ** The watcher service *)
Section WatcherService.
Import RepositoryWatcherService.

Definition silent {A} (M : method world A) : Prop :=
  forall w, registrations (snd (M w)) = registrations w /\ stores_of (snd (M w)) = stores_of w.

Lemma silent_bind {A B} (M : method world A) (f : A -> method world B) :
  silent M -> (forall a, silent (f a)) -> silent (a ← M; f a).
Proof.
  intros HM Hf w. unfold mbind, method_bind. specialize (HM w). destruct (M w) as [[a|e] w1]; [|done].
  destruct (Hf a w1) as [H1 H2], HM as [H3 H4]. cbn in *. by rewrite H1, H2.
Qed.
Lemma silent_catch {A} (M : method world A) (f : js_error -> method world A) :
  silent M -> (forall e, silent (f e)) -> silent (try_catch M f).
Proof.
  intros HM Hf w. unfold try_catch. specialize (HM w). destruct (M w) as [[a|e] w1]; [done|].
  destruct (Hf e w1) as [H1 H2], HM as [H3 H4]. cbn in *. by rewrite H1, H2.
Qed.
Lemma silent_editor {A} (m : method F A) : silent (on_editor m).
Proof. intros w. unfold on_editor, on_part. by destruct (m _). Qed.
Lemma silent_state {A} (M : method world A) : (forall w, snd (M w) = w) -> silent M.
Proof. intros HM w. by rewrite HM. Qed.
Lemma silent_pipeline_register scope : silent (on_pipeline (DirtyPathPipeline.registerRepository options scope)).
Proof.
  intros w. unfold on_pipeline, DirtyPathPipeline.registerRepository, DirtyPathPipeline.on_scheduler, on_part, stores_of,
    StatusRefreshScheduler.registerRepository, StatusRefreshScheduler.scheduleFullReconcile, mbind, method_bind. cbn.
  destruct (map_get _ _), (StatusRefreshScheduler.fullReconcileIntervalMs options); done.
Qed.
Lemma silent_pipeline_unregister id : silent (on_pipeline (DirtyPathPipeline.unregisterRepository id)).
Proof.
  intros w. unfold on_pipeline, DirtyPathPipeline.unregisterRepository, DirtyPathPipeline.on_scheduler, on_part, stores_of,
    StatusRefreshScheduler.unregisterRepository, mbind, method_bind. cbn.
  destruct (map_get _ _); done.
Qed.
Lemma silent_collect M errors : silent M -> silent (collect M errors).
Proof. intros HM. apply silent_catch; [apply silent_bind; [done|]|]; intros; by apply silent_state. Qed.
Lemma silent_dispose watcher subs : silent (disposeRegistration factory watcher subs).
Proof.
  unfold disposeRegistration. apply silent_bind.
  - generalize (@nil js_error). induction subs as [|sub subs IH]; intros errors; [by apply silent_state|].
    cbn [dispose_subscriptions]. apply silent_bind; [apply silent_collect, silent_editor|]. intros. apply IH.
  - intros errors. apply silent_bind; [apply silent_collect, silent_editor|]. intros [|? ?]; by apply silent_state.
Qed.
Lemma silent_subscribe watcher kinds pushed : silent (subscribe_all factory watcher kinds pushed).
Proof.
  revert pushed. induction kinds as [|kind kinds IH]; intros pushed; [by apply silent_state|]. intros w. cbn [subscribe_all].
  pose proof (silent_editor (subscribe factory watcher kind) w) as [H1 H2].
  destruct (on_editor (subscribe factory watcher kind) w) as [[sub|e] w1]; [|done].
  destruct (IH (pushed ++ [sub])%list w1) as [H3 H4]. cbn in *. by rewrite H3, H4.
Qed.
Lemma silent_same {A} (M : method world A) w : silent M -> same registered w (snd (M w)).
Proof. intros HM. destruct (HM w) as [H1 H2]. intros r k. unfold registered, projections_of. by rewrite H1, H2. Qed.

Lemma set_registrations_updates (f : list (string * registration) -> list (string * registration)) id v w w0 :
  registrations w = registrations w0 -> stores_of w = stores_of w0 ->
  (forall k, (fun reg => scope_epoch (reg_scope reg)) <$> map_get (f (registrations w0)) k
        = if bool_decide (k = id) then v else (fun reg => scope_epoch (reg_scope reg)) <$> map_get (registrations w0) k) ->
  updated registered Watcher id v w0 (snd (set_registrations f w)).
Proof.
  intros H1 H2 Hf r k. unfold registered, projections_of, set_registrations, modify_state, stores_of in *. cbn.
  rewrite H1, H2. destruct r; cbn; [|done|done]. rewrite Hf. done.
Qed.

Lemma undo_subscription watcher subs id error w :
  exists e w', (_ ← disposeRegistration factory watcher subs;
           _ ← on_pipeline (DirtyPathPipeline.unregisterRepository id);
           throw_error error : method world unit) w = (Throw e, w')
    /\ registrations w' = registrations w /\ stores_of w' = stores_of w.
Proof.
  unfold mbind, method_bind. destruct (silent_dispose watcher subs w) as [R1 S1].
  destruct (disposeRegistration _ _ _ w) as [[[]|e] w1]; cbn in R1, S1; [|by exists e, w1].
  destruct (silent_pipeline_unregister id w1) as [R2 S2].
  destruct (on_pipeline _ w1) as [[[]|e] w2]; cbn in R2, S2; eexists _, w2; split_and!; try done; congruence.
Qed.

Lemma watcher_register scope :
  registers registered Watcher (scope_repositoryId scope) (scope_epoch scope) (registerRepository options factory scope).
Proof.
  intros w. unfold registerRepository. unfold mbind at 1, method_bind at 1, get_state.
  destruct (map_has _ _); [done|]. cbn zeta. unfold mbind at 1, method_bind at 1.
  destruct (silent_pipeline_register scope w) as [R1 S1].
  destruct (on_pipeline _ w) as [[[]|e] w1]; cbn in R1, S1;
    [|intros r k; unfold registered, projections_of; by rewrite R1, S1].
  unfold mbind at 1, method_bind at 1.
  match goal with |- context [try_catch ?m ?h w1] =>
    assert (silent (try_catch m h)) as Hc by (apply silent_catch; [apply silent_editor|];
      intros; apply silent_bind; [apply silent_pipeline_unregister|by intros; apply silent_state]);
    destruct (Hc w1) as [R2 S2]; destruct (try_catch m h w1) as [[watcher|e] w2] end; cbn in R2, S2;
    [|intros r k; unfold registered, projections_of; by rewrite R2, S2, R1, S1].
  unfold mbind at 1, method_bind at 1.
  destruct (silent_subscribe watcher [Changed; Created; Deleted] [] w2) as [R3 S3].
  destruct (subscribe_all _ _ _ _ w2) as [[[subs [error|]]|e] w3]; cbn in R3, S3.
  - destruct (undo_subscription watcher subs (scope_repositoryId scope) error w3) as (e & w4 & HM & R4 & S4).
    rewrite HM. intros r k. unfold registered, projections_of. by rewrite R4, S4, R3, S3, R2, S2, R1, S1.
  - apply set_registrations_updates; [congruence|congruence|]. intros k. by rewrite fmap_set.
  - intros r k. unfold registered, projections_of. by rewrite R3, S3, R2, S2, R1, S1.
Qed.

Lemma watcher_replace scope :
  replaces registered Watcher (scope_repositoryId scope) (scope_epoch scope) (replaceRepository options scope).
Proof.
  intros w. unfold replaceRepository. unfold mbind at 1, method_bind at 1, get_state.
  destruct (map_get _ _) as [reg|] eqn:Hg; [|by left]. cbn zeta. destruct (negb _); [by left|].
  unfold mbind, method_bind.
  assert (Hu : replaced registered Watcher (scope_repositoryId scope) (scope_epoch scope) w
    (snd (set_registrations (fun m => map_set m (scope_repositoryId scope) {| reg_watcher := reg_watcher reg;
            reg_subscriptions := reg_subscriptions reg; reg_scope := scope; reg_basePath := reg_basePath reg |}) w))).
  { split; [cbn; rewrite Hg; by eexists|]. apply set_registrations_updates; [done|done|]. intros k. by rewrite fmap_set. }
  unfold set_registrations, modify_state in *. cbn [snd] in Hu.
  match goal with |- context [on_pipeline ?m ?w1] => pose proof (silent_same (on_pipeline m) w1
    (silent_pipeline_register scope)) as Hs; destruct (on_pipeline m w1) as [[[]|e] w2] end; cbn [snd] in Hs; [|right];
    (split; [apply Hu|]); intros r k; rewrite (Hs r k); apply Hu.
Qed.

Lemma watcher_unregister id : unregisters registered Watcher id (unregisterRepository factory id).
Proof.
  intros w. unfold unregisterRepository. unfold mbind at 1, method_bind at 1, get_state.
  destruct (map_get (registrations w) id) as [reg|] eqn:Hg.
  2:{ intros [] k; try done. cbn [registered snd mret method_ret].
      destruct (bool_decide_reflect (k = id)) as [->|]; [by rewrite Hg|done]. }
  unfold mbind at 1, method_bind at 1.
  match goal with |- context [try_catch ?m ?h w] =>
    assert (silent (try_catch m h)) as Hc by (apply silent_catch; [apply silent_bind; [apply silent_dispose|]|];
      by intros; apply silent_state);
    destruct (Hc w) as [R1 S1]; assert (exists o, fst (try_catch m h w) = Ok o) as [o Ho] end.
  { unfold try_catch, mbind, method_bind. destruct (disposeRegistration _ _ _ _) as [[]]; by eexists. }
  destruct (try_catch _ _ w) as [x w1]; cbn in R1, S1, Ho. subst x.
  pose proof (set_registrations_updates (fun m => map_delete m id) id None w1 w R1 S1
    (fun k => fmap_delete _ _ _ _)) as Hu.
  unfold mbind, method_bind, set_registrations, modify_state in *. cbn [snd] in Hu.
  match goal with |- context [on_pipeline ?m ?w2] => pose proof (silent_same (on_pipeline m) w2
    (silent_pipeline_unregister id)) as Hs; destruct (on_pipeline m w2) as [[[]|e] w3] end;
    cbn [snd] in Hs; [destruct o|]; intros r k; cbn [snd throw_error mret method_ret]; rewrite (Hs r k); apply Hu.
Qed.
End WatcherService.

(** ** The interface is met *)
Hypothesis listeners_return : forall l id epoch x, l ∈ SourceControlProjectionService.listeners env ->
  is_ok (fst (l (SourceControlProjectionService.Registered id epoch) x)) = true.
Hypothesis session_listener_keeps : forall l event, keeps registered (session_listener l event).

#[export] Instance collaborators_registries : Registries collaborators.
Proof using listeners_return session_listener_keeps.
  exists registered.
  - apply watcher_register.
  - intros id epoch. eapply lift_registers; [apply on_status_acts|apply status_register].
  - intros repo. eapply lift_registers; [apply on_projection_acts|by apply service_register].
  - apply watcher_unregister.
  - intros id. eapply lift_unregisters; [apply on_status_acts|apply status_unregister].
  - intros id. eapply lift_unregisters; [apply on_projection_acts|apply service_unregister].
  - apply watcher_replace.
  - intros snapshot. eapply lift_replaces; [apply on_status_acts|apply ignore_replaces, status_replace].
  - intros snapshot. eapply lift_replaces; [apply on_projection_acts|]. apply ignore_replaces, publish_replaces, projection_replace.
  - intros snapshot. eapply lift_keeps; [apply on_status_acts|apply ignore_keeps, status_apply].
  - intros snapshot. eapply lift_keeps; [apply on_projection_acts|]. apply ignore_keeps, service_publish_keeps, projection_apply.
  - intros mark. eapply lift_keeps; [apply on_status_acts|apply ignore_keeps, status_mark].
  - intros mark. eapply lift_keeps; [apply on_projection_acts|]. apply ignore_keeps, service_publish_keeps, projection_mark.
  - intros id. eapply lift_keeps; [apply on_projection_acts|]. intros s.
    unfold SourceControlProjectionService.getProjection, mbind, method_bind, get_state, lift_result.
    destruct (SourceControlResourceStore.getProjection _ _ _ _) as [[]|]; done.
  - apply session_listener_keeps.
Defined.
End Instance_.
End SessionCollaborators.
