(* ===== verification/Discovery.v ===== *)
(** repository/repositoryDiscoveryService.ts and
    repository/repositoryDiscoveryPlanning.ts: which working copies there are,
    and how their boundaries are drawn. *)

From Stdlib Require Import ZArith Ascii String List.
From stdpp Require Import base option list strings.
From S2P Require Import Prelude JsString JsMap JsValue StatusTypes StatusWire SessionTypes SessionService.

Local Open Scope string_scope.

Module RepositoryDiscovery.

Inductive ExternalsMode := Off | Lazy.
Definition mode_name (m : ExternalsMode) : string := match m with Off => "off" | Lazy => "lazy" end.

Record RepositoryDiscoveryRequest := {
  workspaceRoots : list string;
  discoverNested : bool;
  discoveryDepth : Z;
  discoveryIgnore : list string;
  ignoredRoots : list string;
  externalsMode : ExternalsMode;
}.

Record Candidate := {
  cand_identity : RepositoryIdentity;
  isNested : bool;
  isExternal : bool;
  parentWorkingCopyRoot : option string;
}.

Record RepositoryDiscoveryResponse := {
  candidates : list Candidate;
  fileExternalBoundaries : list string;
}.

Record ValidatedOpenDiscoveredRepositoryRequest := {
  disc_candidate : Candidate;
  disc_pathCase : PathCasePolicy;
  disc_boundaryRoots : option (list string);
}.

(** ** Errors *)
Definition discoveryError (code category messageKey f : string) : js_error :=
  StructuredError "RepositoryDiscoveryError" code category messageKey [("field", ArgString f)].
Definition invalidDiscoveryInput (f : string) : js_error :=
  discoveryError "SUBVERSIONR_REPOSITORY_DISCOVERY_INPUT_INVALID" "input" "error.repository.discoveryInputInvalid" f.
Definition invalidDiscoveryResponse (f : string) : js_error :=
  discoveryError "SUBVERSIONR_REPOSITORY_DISCOVERY_RESPONSE_INVALID" "protocol"
    "error.repository.discoveryResponseInvalid" f.

(** ** Parsers *)
Definition string_item (error : string -> js_error) (f : string) (v : option js_value) : result string :=
  match v with
  | Some (VStr s) => if isNonEmptyString s then Ok s else Throw (error f)
  | _ => Throw (error f)
  end.

Definition requireStringArray (v : option js_value) (f : string) (allowEmpty : bool) : result (list string) :=
  match v with
  | Some (VArr items) =>
      _ ← require (negb (negb allowEmpty && (length items =? 0)%nat)) (invalidDiscoveryInput f);
      mapi (fun index item => string_item invalidDiscoveryInput (at_index f index) (Some item)) items
  | _ => Throw (invalidDiscoveryInput f)
  end.
Definition validateOptionalStringArray (v : option js_value) (f : string) : result (option (list string)) :=
  match v with
  | None => Ok None
  | Some _ => l ← requireStringArray v f true; Ok (Some l)
  end.
Definition requireBoolean (v : option js_value) (f : string) : result bool :=
  match v with Some (VBool b) => Ok b | _ => Throw (invalidDiscoveryInput f) end.
Definition requireNonNegativeSafeInteger (v : option js_value) (f : string) : result Z :=
  match v with
  | Some (VNum (NumInt z)) => if negb (isSafeInteger z) || (z <? 0)%Z then Throw (invalidDiscoveryInput f) else Ok z
  | _ => Throw (invalidDiscoveryInput f)
  end.
Definition requireSupportedExternalsMode (v : option js_value) : result ExternalsMode :=
  let unsupported := discoveryError "SUBVERSIONR_REPOSITORY_DISCOVERY_MODE_UNSUPPORTED" "unsupported"
                       "error.repository.discoveryModeUnsupported" "externalsMode" in
  match v with
  | Some (VStr s) => if bool_decide (s = "off") then Ok Off else if bool_decide (s = "lazy") then Ok Lazy
                     else Throw unsupported
  | _ => Throw unsupported
  end.
Definition requireRecord (v : option js_value) (f : string) : result js_value :=
  match v with
  | Some r => if isRecord v then Ok r else Throw (invalidDiscoveryResponse f)
  | None => Throw (invalidDiscoveryResponse f)
  end.
Definition requireResponseString (v : option js_value) (f : string) : result string :=
  string_item invalidDiscoveryResponse f v.
Definition requireResponseStringArray (v : option js_value) (f : string) (allowEmpty : bool) : result (list string) :=
  match v with
  | Some (VArr items) =>
      _ ← require (negb (negb allowEmpty && (length items =? 0)%nat)) (invalidDiscoveryResponse f);
      mapi (fun index item => requireResponseString (Some item) (at_index f index)) items
  | _ => Throw (invalidDiscoveryResponse f)
  end.
Definition optionalResponseString (v : option js_value) (f : string) : result (option string) :=
  match v with
  | None | Some VNull => Ok None
  | _ => s ← string_item invalidDiscoveryResponse f v; Ok (Some s)
  end.
Definition requireResponseBoolean (v : option js_value) (f : string) : result bool :=
  match v with Some (VBool b) => Ok b | _ => Throw (invalidDiscoveryResponse f) end.
Definition requireResponseSafeInteger (v : option js_value) (f : string) : result Z :=
  match v with
  | Some (VNum (NumInt z)) => if negb (isSafeInteger z) || (z <? 0)%Z then Throw (invalidDiscoveryResponse f) else Ok z
  | _ => Throw (invalidDiscoveryResponse f)
  end.

Definition parseRepositoryIdentity (raw : option js_value) (f : string) : result RepositoryIdentity :=
  identity ← requireRecord raw f;
  repositoryUuid ← requireResponseString (field identity "repositoryUuid") (dot f "repositoryUuid");
  repositoryRootUrl ← requireResponseString (field identity "repositoryRootUrl") (dot f "repositoryRootUrl");
  workingCopyRoot ← requireResponseString (field identity "workingCopyRoot") (dot f "workingCopyRoot");
  workspaceScopeRoot ← requireResponseString (field identity "workspaceScopeRoot") (dot f "workspaceScopeRoot");
  format ← requireResponseSafeInteger (field identity "format") (dot f "format");
  Ok {| identity_repositoryUuid := repositoryUuid; identity_repositoryRootUrl := repositoryRootUrl;
        identity_workingCopyRoot := workingCopyRoot; identity_workspaceScopeRoot := workspaceScopeRoot;
        identity_format := format |}.

Definition parseDiscoveryCandidate (raw : option js_value) (f : string) : result Candidate :=
  candidate ← requireRecord raw f;
  identity ← parseRepositoryIdentity (field candidate "identity") (dot f "identity");
  nested ← requireResponseBoolean (field candidate "isNested") (dot f "isNested");
  external ← requireResponseBoolean (field candidate "isExternal") (dot f "isExternal");
  parent ← optionalResponseString (field candidate "parentWorkingCopyRoot") (dot f "parentWorkingCopyRoot");
  _ ← require (negb ((nested || external) && bool_decide (parent = None)))
        (invalidDiscoveryResponse (dot f "parentWorkingCopyRoot"));
  _ ← require (negb (negb nested && negb external && negb (bool_decide (parent = None))))
        (invalidDiscoveryResponse (dot f "parentWorkingCopyRoot"));
  Ok {| cand_identity := identity; isNested := nested; isExternal := external; parentWorkingCopyRoot := parent |}.

Definition parseDiscoveryResponse (raw : option js_value) : result RepositoryDiscoveryResponse :=
  response ← requireRecord raw "result";
  match field response "candidates" with
  | Some (VArr items) =>
      candidates ← mapi (fun index candidate => parseDiscoveryCandidate (Some candidate) (at_index "candidates" index)) items;
      boundaries ← requireResponseStringArray (field response "fileExternalBoundaries") "fileExternalBoundaries" true;
      Ok {| candidates := candidates; fileExternalBoundaries := boundaries |}
  | _ => Throw (invalidDiscoveryResponse "candidates")
  end.

Definition validateDiscoveryRequest (request : option js_value) : result RepositoryDiscoveryRequest :=
  match request with
  | Some req =>
      _ ← require (isRecord request) (invalidDiscoveryInput "request");
      roots ← requireStringArray (field req "workspaceRoots") "workspaceRoots" false;
      nested ← requireBoolean (field req "discoverNested") "discoverNested";
      depth ← requireNonNegativeSafeInteger (field req "discoveryDepth") "discoveryDepth";
      ignore ← requireStringArray (field req "discoveryIgnore") "discoveryIgnore" true;
      ignored ← requireStringArray (field req "ignoredRoots") "ignoredRoots" true;
      mode ← requireSupportedExternalsMode (field req "externalsMode");
      Ok {| workspaceRoots := roots; discoverNested := nested; discoveryDepth := depth; discoveryIgnore := ignore;
            ignoredRoots := ignored; externalsMode := mode |}
  | None => Throw (invalidDiscoveryInput "request")
  end.

Definition validateOpenDiscoveredRepositoryRequest (request : option js_value)
    : result ValidatedOpenDiscoveredRepositoryRequest :=
  match request with
  | Some req =>
      _ ← require (isRecord request) (invalidDiscoveryInput "request");
      candidate ← parseDiscoveryCandidate (field req "candidate") "candidate";
      pathCase ← match RepositorySession.parsePathCase (field req "pathCase") with
                 | Some pathCase => Ok pathCase
                 | None => Throw (invalidDiscoveryInput "pathCase")
                 end;
      boundaryRoots ← validateOptionalStringArray (field req "boundaryRoots") "boundaryRoots";
      Ok {| disc_candidate := candidate; disc_pathCase := pathCase; disc_boundaryRoots := boundaryRoots |}
  | None => Throw (invalidDiscoveryInput "request")
  end.

(** ** The objects as JavaScript values *)
Definition encode_request (r : RepositoryDiscoveryRequest) : js_value :=
  VObj [("workspaceRoots", VArr (map VStr (workspaceRoots r))); ("discoverNested", VBool (discoverNested r));
        ("discoveryDepth", VNum (NumInt (discoveryDepth r))); ("discoveryIgnore", VArr (map VStr (discoveryIgnore r)));
        ("ignoredRoots", VArr (map VStr (ignoredRoots r))); ("externalsMode", VStr (mode_name (externalsMode r)))].
Definition encode_identity (i : RepositoryIdentity) : js_value :=
  VObj [("repositoryUuid", VStr (identity_repositoryUuid i)); ("repositoryRootUrl", VStr (identity_repositoryRootUrl i));
        ("workingCopyRoot", VStr (identity_workingCopyRoot i));
        ("workspaceScopeRoot", VStr (identity_workspaceScopeRoot i)); ("format", VNum (NumInt (identity_format i)))].
Definition encode_candidate (c : Candidate) : js_value :=
  VObj ([("identity", encode_identity (cand_identity c)); ("isNested", VBool (isNested c)); ("isExternal", VBool (isExternal c))]
        ++ match parentWorkingCopyRoot c with Some parent => [("parentWorkingCopyRoot", VStr parent)] | None => [] end)%list.
Definition encode_response (r : RepositoryDiscoveryResponse) : js_value :=
  VObj [("candidates", VArr (map encode_candidate (candidates r)));
        ("fileExternalBoundaries", VArr (map VStr (fileExternalBoundaries r)))].

(** The request objects that callers build. *)
Definition open_discovered_request (candidate : Candidate) (pathCase : PathCasePolicy) (roots : option (list string))
    : js_value :=
  VObj ([("candidate", encode_candidate candidate); ("pathCase", VStr (RepositorySession.pathCase_name pathCase))]
        ++ RepositorySession.boundaryRoots_field roots)%list.
Definition open_request (path : string) (pathCase : PathCasePolicy) (roots : option (list string)) : js_value :=
  VObj ([("path", VStr path); ("pathCase", VStr (RepositorySession.pathCase_name pathCase))]
        ++ RepositorySession.boundaryRoots_field roots)%list.

(** ** The service *)
Section Service.
Context {W : Type} (co : RepositorySessionService.Collaborators W) (be : RepositorySessionService.Backend W).
Variable foreign : string -> js_value.
Notation svc := (RepositorySessionService.service W).

Definition discoverRepositories (request : option js_value) : method svc RepositoryDiscoveryResponse :=
  req ← lift_result (validateDiscoveryRequest request);
  connection ← RepositorySessionService.initialize be;
  raw ← RepositorySessionService.request be connection "repository/discover" (encode_request req);
  lift_result (parseDiscoveryResponse raw).

Definition openDiscoveredRepository (request : option js_value) : method svc RepositorySession.session :=
  req ← lift_result (validateOpenDiscoveredRepositoryRequest request);
  RepositorySessionService.openWorkingCopy co be foreign
    (Some (open_request (identity_workingCopyRoot (cand_identity (disc_candidate req))) (disc_pathCase req)
             (disc_boundaryRoots req))).
End Service.
End RepositoryDiscovery.

(** ** repository/repositoryDiscoveryPlanning.ts *)
Module DiscoveryPlanning.
Import RepositoryDiscovery.

Definition REPOSITORY_DISCOVERY_DEPTH : Z := 4.

Definition normalizeAbsolutePath (path : string) : string :=
  strip_trailing (replaceAll path backslash slash) slash.
Definition comparisonKey (pathCase : PathCasePolicy) (path : string) : string :=
  match pathCase with CaseInsensitive => toLocaleLowerCase path | CaseSensitive => path end.
Definition repositoryRootKey (root : string) (pathCase : PathCasePolicy) : string :=
  comparisonKey pathCase (normalizeAbsolutePath root).

Definition isDescendantRootKey (childRootKey parentRootKey : string) : bool :=
  startsWith (slice_from (String.length parentRootKey) childRootKey) "/".

Definition unopenedDiscoveryCandidates (candidates : list Candidate) (openSessions : list RepositorySession.session)
    (pathCase : PathCasePolicy) : list Candidate :=
  let openRootKeys := set_of (map (fun s => repositoryRootKey
        (identity_workingCopyRoot (RepositorySession.identity s)) pathCase) openSessions) in
  List.filter (fun candidate => negb (set_has openRootKeys
    (repositoryRootKey (identity_workingCopyRoot (cand_identity candidate)) pathCase))) candidates.

(** [addBoundaryRoot], on [seen] and [boundaryRoots]. *)
Definition addBoundaryRoot (pathCase : PathCasePolicy) (selectedRootKey : string)
    (acc : list string * list string) (root : string) : list string * list string :=
  let (seen, boundaryRoots) := acc in
  let rootKey := repositoryRootKey root pathCase in
  if bool_decide (rootKey = selectedRootKey) || set_has seen rootKey || negb (isDescendantRootKey rootKey selectedRootKey)
  then acc
  else (set_add seen rootKey, (boundaryRoots ++ [root])%list).

(** The first loop: a candidate nested in, or an external of, the selected. *)
Definition addCandidate (pathCase : PathCasePolicy) (selectedRootKey : string)
    (acc : list string * list string) (candidate : Candidate) : list string * list string :=
  if negb (isNested candidate) && negb (isExternal candidate) then acc
  else
    match parentWorkingCopyRoot candidate with
    | None => acc
    | Some parent =>
        if bool_decide (parent = "") then acc
        else if negb (bool_decide (repositoryRootKey parent pathCase = selectedRootKey)) then acc
        else addBoundaryRoot pathCase selectedRootKey acc (identity_workingCopyRoot (cand_identity candidate))
    end.

Definition discoveryBoundaryRoots (candidates : list Candidate) (selected : Candidate) (pathCase : PathCasePolicy)
    (openSessions : list RepositorySession.session) (fileExternalBoundaries : list string) : list string :=
  let selectedRootKey := repositoryRootKey (identity_workingCopyRoot (cand_identity selected)) pathCase in
  let acc := fold_left (addCandidate pathCase selectedRootKey) candidates ([], []) in
  let acc := fold_left (addBoundaryRoot pathCase selectedRootKey)
               (map (fun s => identity_workingCopyRoot (RepositorySession.identity s)) openSessions) acc in
  let acc := fold_left (addBoundaryRoot pathCase selectedRootKey) fileExternalBoundaries acc in
  snd acc.
End DiscoveryPlanning.
