(* ===== verification/DiscoveryFacts.v ===== *)
(** The discovery parsers accept exactly the encodings of well-formed
    responses, and the boundary roots of a working copy cover what lies in it. *)

From Stdlib Require Import ZArith Lia Ascii String List.
From stdpp Require Import base option list sets strings.
From S2P Require Import Prelude JsString JsMap JsValue StatusTypes StatusWire StatusWireFacts SessionTypes SessionService Discovery.

Local Open Scope string_scope.

Module DiscoveryFacts.
Import RepositoryDiscovery DiscoveryPlanning.
#[local] Arguments isNonEmptyString : simpl never.
#[local] Arguments isSafeInteger : simpl never.

(** ** Well-formed responses *)
Definition identity_ok (i : RepositoryIdentity) : Prop :=
  isNonEmptyString (identity_repositoryUuid i) = true /\ isNonEmptyString (identity_repositoryRootUrl i) = true
  /\ isNonEmptyString (identity_workingCopyRoot i) = true /\ isNonEmptyString (identity_workspaceScopeRoot i) = true
  /\ (0 <= identity_format i <= MAX_SAFE_INTEGER)%Z.
(** A nested or external working copy, and no other, has a parent. *)
Definition candidate_ok (c : Candidate) : Prop :=
  identity_ok (cand_identity c)
  /\ match parentWorkingCopyRoot c with
     | Some parent => isNonEmptyString parent = true /\ isNested c || isExternal c = true
     | None => isNested c || isExternal c = false
     end.
Definition response_ok (r : RepositoryDiscoveryResponse) : Prop :=
  Forall candidate_ok (candidates r) /\ Forall (fun b => isNonEmptyString b = true) (fileExternalBoundaries r).

Lemma safe_range z : negb (isSafeInteger z) || (z <? 0)%Z = false <-> (0 <= z <= MAX_SAFE_INTEGER)%Z.
Proof. unfold isSafeInteger, MAX_SAFE_INTEGER. lia. Qed.

Lemma string_item_ok error f v s : string_item error f v = Ok s <-> v = Some (VStr s) /\ isNonEmptyString s = true.
Proof.
  unfold string_item. destruct v as [[| | |s'| |]|]; try (split; [done|naive_solver]).
  destruct (isNonEmptyString s') eqn:E; naive_solver congruence.
Qed.
Lemma response_integer_ok v f z :
  requireResponseSafeInteger v f = Ok z <-> v = Some (VNum (NumInt z)) /\ (0 <= z <= MAX_SAFE_INTEGER)%Z.
Proof.
  unfold requireResponseSafeInteger. destruct v as [[| |[z'|]| | |]|]; try (split; [done|naive_solver]).
  rewrite <- safe_range. destruct (negb _ || _) eqn:E; naive_solver congruence.
Qed.
Lemma response_boolean_ok v f b : requireResponseBoolean v f = Ok b <-> v = Some (VBool b).
Proof. destruct v as [[]|]; naive_solver. Qed.
Lemma optional_string_ok v f o : optionalResponseString v f = Ok o <->
  match o with Some s => v = Some (VStr s) /\ isNonEmptyString s = true | None => v = None \/ v = Some VNull end.
Proof.
  destruct v as [v|]; [|destruct o; cbn; naive_solver].
  destruct v as [|b|n|s'|l|l]; cbn; try (destruct o; naive_solver).
  destruct (isNonEmptyString s') eqn:E; cbn; destruct o; naive_solver congruence.
Qed.

(** ** Sound: what is parsed is well formed *)
Lemma parse_identity_sound v f i : parseRepositoryIdentity v f = Ok i -> identity_ok i.
Proof.
  unfold parseRepositoryIdentity, requireResponseString. rewrite bind_ok. intros (r & _ & H).
  do 4 (apply bind_ok in H as (? & Hs & H); apply string_item_ok in Hs as [_ ?]).
  apply bind_ok in H as (z & [_ Hz]%response_integer_ok & [= <-]). by repeat (split; [done|]).
Qed.
Lemma parse_candidate_sound v f c : parseDiscoveryCandidate v f = Ok c -> candidate_ok c.
Proof.
  unfold parseDiscoveryCandidate. rewrite bind_ok. intros (r & _ & H).
  apply bind_ok in H as (i & Hi%parse_identity_sound & H). apply bind_ok in H as (n & _ & H).
  apply bind_ok in H as (e & _ & H). apply bind_ok in H as (p & Hp%optional_string_ok & H).
  apply bind_ok in H as ([] & H1%require_ok & H). apply bind_ok in H as ([] & H2%require_ok & [= <-]).
  split; [done|]. cbn. destruct p as [p|]; destruct n, e; naive_solver.
Qed.
Lemma parse_response_sound v r : parseDiscoveryResponse v = Ok r -> response_ok r.
Proof.
  unfold parseDiscoveryResponse. rewrite bind_ok. intros (x & _ & H).
  destruct (field x "candidates") as [[| | | |items|]|]; try done.
  apply bind_ok in H as (cs & Hcs & H). apply bind_ok in H as (bs & Hbs & [= <-]). split; cbn.
  - eapply mapi_forall; [done|]. intros k c c' Hc. exact (parse_candidate_sound _ _ _ Hc).
  - unfold requireResponseStringArray in Hbs. destruct (field x "fileExternalBoundaries") as [[| | | |bitems|]|]; try done.
    apply bind_ok in Hbs as (? & _ & Hbs). eapply mapi_forall; [done|]. intros k b b' Hb.
    by destruct (proj1 (string_item_ok _ _ _ _) Hb).
Qed.

(** ** Complete: encodings of well-formed responses are accepted *)
Lemma parse_identity_complete i f : identity_ok i -> parseRepositoryIdentity (Some (encode_identity i)) f = Ok i.
Proof.
  intros (H1 & H2 & H3 & H4 & H5). unfold parseRepositoryIdentity, requireResponseString.
  apply bind_ok. eexists. split; [reflexivity|].
  do 4 (apply bind_ok; eexists; split; [by apply string_item_ok; (split; [reflexivity|])|]).
  apply bind_ok. eexists. split; [by apply response_integer_ok; (split; [reflexivity|])|]. by destruct i.
Qed.
Lemma parse_candidate_complete c f : candidate_ok c -> parseDiscoveryCandidate (Some (encode_candidate c)) f = Ok c.
Proof.
  intros (Hi & Hp). destruct c as [i n e p]. unfold parseDiscoveryCandidate.
  cbn [cand_identity parentWorkingCopyRoot isNested isExternal] in *.
  apply bind_ok. eexists. split; [reflexivity|]. apply bind_ok. exists i. split; [by apply parse_identity_complete|].
  apply bind_ok. exists n. split; [reflexivity|]. apply bind_ok. exists e. split; [reflexivity|].
  apply bind_ok. exists p. split.
  { apply optional_string_ok. destruct p; [by destruct Hp|by left]. }
  destruct p as [p|]; [destruct Hp as [_ Hne]|]; destruct n, e; done.
Qed.
Lemma parse_response_complete r : response_ok r -> parseDiscoveryResponse (Some (encode_response r)) = Ok r.
Proof.
  intros [Hc Hb]. unfold parseDiscoveryResponse. apply bind_ok. eexists. split; [reflexivity|]. cbn [encode_response field].
  change (map_get _ "candidates") with (Some (VArr (map encode_candidate (candidates r)))). cbn match.
  apply bind_ok. exists (candidates r). split.
  { eapply mapi_encode; [done|]. intros k c. apply parse_candidate_complete. }
  apply bind_ok. exists (fileExternalBoundaries r). split; [|by destruct r].
  change (map_get _ "fileExternalBoundaries") with (Some (VArr (map VStr (fileExternalBoundaries r)))).
  unfold requireResponseStringArray. apply bind_ok. exists tt. split; [done|].
  eapply mapi_encode; [done|]. intros k b Hok. by apply string_item_ok.
Qed.

(** The discovery response parser accepts exactly well-formed responses:
    what it returns has non-empty identities and paths, and a parent exactly
    for nested and external working copies; and the encoding of every such
    response parses back to it. *)
Theorem discovery_response_exact r : response_ok r <-> parseDiscoveryResponse (Some (encode_response r)) = Ok r.
Proof. split; [apply parse_response_complete|apply parse_response_sound]. Qed.

(** ** A discovered candidate can be opened *)
Lemma reparse_candidate c pathCase roots : candidate_ok c ->
  Forall (fun r => isNonEmptyString r = true) (default [] roots) ->
  validateOpenDiscoveredRepositoryRequest (Some (open_discovered_request c pathCase roots))
  = Ok {| disc_candidate := c; disc_pathCase := pathCase; disc_boundaryRoots := roots |}.
Proof.
  intros Hc Hr. unfold validateOpenDiscoveredRepositoryRequest. apply bind_ok. exists tt. split; [reflexivity|].
  apply bind_ok. exists c. split; [by apply parse_candidate_complete|].
  apply bind_ok. exists pathCase. split; [by destruct pathCase|].
  apply bind_ok. exists roots. split; [|done]. destruct roots as [roots|]; [|done]. cbn.
  apply bind_ok. exists roots. split; [|done]. eapply mapi_encode; [exact Hr|]. intros k b Hok. by apply string_item_ok.
Qed.

(** ** Boundary roots *)
Section Boundaries.
Variable pathCase : PathCasePolicy.
Notation key root := (repositoryRootKey root pathCase).

(** The roots the three loops look at, in order. *)
Definition candidate_source (selectedKey : string) (c : Candidate) : list string :=
  if negb (isNested c) && negb (isExternal c) then []
  else match parentWorkingCopyRoot c with
       | None => []
       | Some parent => if bool_decide (parent = "") || negb (bool_decide (key parent = selectedKey)) then []
                        else [identity_workingCopyRoot (cand_identity c)]
       end.
Definition sources (selectedKey : string) (cs : list Candidate) (sessions : list RepositorySession.session)
    (externals : list string) : list string :=
  (concat (map (candidate_source selectedKey) cs)
   ++ map (fun s => identity_workingCopyRoot (RepositorySession.identity s)) sessions ++ externals)%list.

Lemma candidates_fold selectedKey cs acc :
  fold_left (addCandidate pathCase selectedKey) cs acc
  = fold_left (addBoundaryRoot pathCase selectedKey) (concat (map (candidate_source selectedKey) cs)) acc.
Proof.
  revert acc. induction cs as [|c cs IH]; intros acc; [done|]. cbn [fold_left map concat]. rewrite fold_left_app, IH. f_equal.
  unfold addCandidate, candidate_source. destruct (negb _ && negb _); [done|]. destruct (parentWorkingCopyRoot c); [|done].
  destruct (bool_decide (s = "")); [done|]. by destruct (negb (bool_decide _)).
Qed.
Lemma boundaries_fold cs selected sessions externals :
  discoveryBoundaryRoots cs selected pathCase sessions externals
  = let selectedKey := key (identity_workingCopyRoot (cand_identity selected)) in
    snd (fold_left (addBoundaryRoot pathCase selectedKey) (sources selectedKey cs sessions externals) ([], [])).
Proof. unfold discoveryBoundaryRoots, sources. rewrite !fold_left_app. by rewrite candidates_fold. Qed.

(** What the accumulator holds after the roots [l]. *)
Definition collected selectedKey (l : list string) (acc : list string * list string) : Prop :=
  let (seen, roots) := acc in
  seen = map (fun r => key r) roots /\ NoDup seen
  /\ (forall r, r ∈ roots -> r ∈ l /\ key r <> selectedKey /\ isDescendantRootKey (key r) selectedKey = true)
  /\ (forall r, r ∈ l -> key r <> selectedKey -> isDescendantRootKey (key r) selectedKey = true -> key r ∈ seen).

Lemma collected_add selectedKey l acc r :
  collected selectedKey l acc -> collected selectedKey (l ++ [r])%list (addBoundaryRoot pathCase selectedKey acc r).
Proof.
  destruct acc as [seen roots]. intros (Hs & Hnd & Hin & Hall). unfold addBoundaryRoot.
  destruct (bool_decide (key r = selectedKey) || set_has seen (key r) || negb (isDescendantRootKey (key r) selectedKey)) eqn:E.
  - split_and!; [done|done| |].
    + intros r' Hr'. destruct (Hin r' Hr') as (? & ? & ?). split_and!; try done. set_solver.
    + intros r' Hr' Hne Hd. apply elem_of_app in Hr' as [Hr'|Hr']; [by apply Hall|].
      apply list_elem_of_singleton in Hr' as ->. rewrite Hd, orb_false_r in E. apply orb_true_iff in E as [E|E];
        by apply bool_decide_eq_true in E.
  - apply orb_false_iff in E as [[E1 E2]%orb_false_iff E3]. bool_cases. unfold set_has in E2. bool_cases.
    unfold set_add, set_has. rewrite bool_decide_eq_false_2 by done. split_and!.
    + rewrite Hs, map_app. done.
    + apply NoDup_app. split_and!; [done| |apply NoDup_singleton]. intros x Hx ->%list_elem_of_singleton. done.
    + intros r' Hr'. apply elem_of_app in Hr' as [Hr'|Hr'].
      * destruct (Hin r' Hr') as (? & ? & ?). split_and!; try done. set_solver.
      * apply list_elem_of_singleton in Hr' as ->. split_and!; try done. set_solver.
    + intros r' Hr' Hne Hd. apply elem_of_app in Hr' as [Hr'|Hr'%list_elem_of_singleton]; [|subst r'; set_solver].
      apply elem_of_app. left. by apply Hall.
Qed.
Lemma collected_all selectedKey l : collected selectedKey l (fold_left (addBoundaryRoot pathCase selectedKey) l ([], [])).
Proof.
  induction l as [|r l IH] using rev_ind; [split_and!; [done|apply NoDup_nil_2| |]; set_solver|].
  rewrite fold_left_app. by apply collected_add.
Qed.

Lemma below_is_descendant (k parent : string) : startsWith k (parent ++ "/") = true -> isDescendantRootKey k parent = true.
Proof.
  intros (rest & ->)%startsWith_iff. unfold isDescendantRootKey. rewrite JsString.app_assoc, slice_from_app. done.
Qed.

(** The boundary roots of a working copy that is about to be opened: every
    root that discovery, the open sessions or the file externals place strictly
    below it is covered, no root is listed twice, none is the working copy
    itself, and every one comes from those three sources. *)
Theorem boundary_roots_cover cs selected sessions externals :
  let selectedKey := key (identity_workingCopyRoot (cand_identity selected)) in
  let roots := discoveryBoundaryRoots cs selected pathCase sessions externals in
  let from := sources selectedKey cs sessions externals in
  NoDup (map (fun r => key r) roots)
  /\ (forall r, r ∈ roots -> r ∈ from /\ key r <> selectedKey)
  /\ (forall r, r ∈ from -> startsWith (key r) (selectedKey ++ "/") = true -> key r ∈ map (fun r => key r) roots).
Proof.
  cbn zeta. rewrite boundaries_fold. cbn zeta.
  set (selectedKey := key (identity_workingCopyRoot (cand_identity selected))).
  pose proof (collected_all selectedKey (sources selectedKey cs sessions externals)) as H.
  destruct (fold_left _ _ _) as [seen roots]. destruct H as (-> & Hnd & Hin & Hall). cbn [snd]. split_and!; [done| |].
  - intros r Hr. by destruct (Hin r Hr) as (? & ? & _).
  - intros r Hr Hb. apply Hall; [done| |by apply below_is_descendant].
    intros He. rewrite He in Hb. apply startsWith_iff in Hb as (rest & Hb). apply (f_equal String.length) in Hb.
    rewrite !JsString.length_app in Hb. cbn in Hb. lia.
Qed.

(** The session service accepts the boundary roots that discovery planning
    hands it, provided that what planning takes for a descendant is one: its
    test looks at one character and not at the prefix. *)
Theorem boundary_roots_accepted cs selected sessions externals path :
  let root := identity_workingCopyRoot (cand_identity selected) in
  let roots := discoveryBoundaryRoots cs selected pathCase sessions externals in
  (forall r, r ∈ sources (key root) cs sessions externals ->
        isDescendantRootKey (key r) (key root) = true -> startsWith (key r) (key root ++ "/") = true) ->
  RepositorySession.validateBoundaryRootScope root
    {| RepositorySession.req_path := path; RepositorySession.req_pathCase := pathCase;
       RepositorySession.req_boundaryRoots := Some roots |} = Ok (Some roots).
Proof.
  cbn zeta. intros Hsrc. unfold RepositorySession.validateBoundaryRootScope. cbn [RepositorySession.req_boundaryRoots].
  apply bind_ok. eexists. split; [|reflexivity]. apply mapi_ok. split; [done|]. intros k x y Hx Hy.
  assert (x = y) as -> by congruence. apply list_elem_of_lookup_2 in Hy. revert Hy. rewrite boundaries_fold. cbn zeta.
  set (selectedKey := key (identity_workingCopyRoot (cand_identity selected))) in *.
  pose proof (collected_all selectedKey (sources selectedKey cs sessions externals)) as H.
  destruct (fold_left _ _ _) as [seen roots]. destruct H as (_ & _ & Hin & _). cbn [snd]. intros Hy.
  destruct (Hin y Hy) as (Hy1 & Hy2 & Hy3). specialize (Hsrc y Hy1 Hy3).
  cbn [RepositorySession.req_pathCase].
  change (RepositorySession.comparisonKey pathCase (RepositorySession.normalizeAbsolutePath y)) with (key y).
  change (RepositorySession.comparisonKey pathCase _) with selectedKey.
  rewrite bool_decide_eq_false_2, Hsrc by done. done.
Qed.
End Boundaries.

(** The descendant test alone: a root beside the selected one, whose parent has
    a name of the same length, passes it; the session service then refuses the
    boundary. *)
Definition root_identity (root : string) : RepositoryIdentity :=
  {| identity_repositoryUuid := "u"; identity_repositoryRootUrl := "file:///r"; identity_workingCopyRoot := root;
     identity_workspaceScopeRoot := root; identity_format := 31 |}.
Definition root_candidate (root : string) : Candidate :=
  {| cand_identity := root_identity root; isNested := false; isExternal := false; parentWorkingCopyRoot := None |}.
Definition root_session (root : string) : RepositorySession.session :=
  {| RepositorySession.repositoryId := root; RepositorySession.epoch := 1; RepositorySession.identity := root_identity root;
     RepositorySession.watchScope := {| RepositorySession.ws_repositoryId := root; RepositorySession.ws_epoch := 1;
       RepositorySession.ws_workingCopyRoot := root; RepositorySession.ws_pathCase := CaseSensitive;
       RepositorySession.ws_boundaryRoots := None |} |}.

Example sibling_taken_for_descendant :
  isDescendantRootKey "/ws/bbb/x" "/ws/aaa" = true
  /\ discoveryBoundaryRoots [root_candidate "/ws/aaa"] (root_candidate "/ws/aaa") CaseSensitive [root_session "/ws/bbb/x"] []
     = ["/ws/bbb/x"]
  /\ RepositorySession.validateBoundaryRootScope "/ws/aaa"
       {| RepositorySession.req_path := "/ws/aaa"; RepositorySession.req_pathCase := CaseSensitive;
          RepositorySession.req_boundaryRoots := Some ["/ws/bbb/x"] |}
     = Throw (RepositorySession.boundaryRootOutside "boundaryRoots.0").
Proof. vm_compute. done. Qed.

Lemma boundary_roots_accepted_witness :
  RepositorySession.validateBoundaryRootScope "/ws"
    {| RepositorySession.req_path := "/ws"; RepositorySession.req_pathCase := CaseSensitive;
       RepositorySession.req_boundaryRoots := Some ["/ws/bbb/x"] |} = Ok (Some ["/ws/bbb/x"]).
Proof.
  apply (boundary_roots_accepted CaseSensitive [root_candidate "/ws"] (root_candidate "/ws") [root_session "/ws/bbb/x"] [] "/ws").
  intros r Hr _. apply list_elem_of_singleton in Hr as ->. vm_compute. reflexivity.
Defined.
End DiscoveryFacts.
