(* ===== verification/Lifecycle.v ===== *)
(** repository/repositoryLifecycleService.ts and
    repository/repositoryLifecycleCoordinator.ts: opening what a workspace
    holds, closing what has gone, following what was moved, and reopening after
    a restart of the backend.

    [workspaceRoots], [workspaceTrusted] and [pathCasePolicy] read the editor's
    state, part of the world; [workingCopyExists] is awaited; [onEvent] is a
    callback. *)

From Stdlib Require Import ZArith Ascii String List.
From stdpp Require Import base option list strings.
From S2P Require Import Prelude JsString JsMap JsValue StatusTypes SessionTypes SessionService Discovery.

Local Open Scope string_scope.

Module RepositoryLifecycle.
Import RepositorySession RepositorySessionService RepositoryDiscovery DiscoveryPlanning.

Inductive AutoOpenTrigger := Activation | WorkspaceTrust | WorkspaceFolders.
Inductive SkippedReason :=
  | WorkspaceUntrusted | NoWorkspaceRoots | NoCandidates | AllCandidatesOpen | AmbiguousCandidates | AlreadyRunning.
Inductive CloseFailedReason := WorkingCopyMissing | WorkingCopyStatusUnavailable.
Inductive MoveFailedReason := MoveStatusUnavailable | DiscoveryFailed | MoveAmbiguous | CloseFailed | OpenFailed.

(** A repository in an event: its id, epoch and working copy root. *)
Record described := { ev_repositoryId : string; ev_epoch : Z; ev_workingCopyRoot : string }.
Definition describe (s : session) : described :=
  {| ev_repositoryId := repositoryId s; ev_epoch := epoch s; ev_workingCopyRoot := identity_workingCopyRoot (identity s) |}.

Inductive LifecycleEvent :=
  | AutoOpenSkipped (trigger : AutoOpenTrigger) (reason : SkippedReason) (candidateCount : option nat)
  | AutoOpenOpened (trigger : AutoOpenTrigger) (repository : described)
  | AutoOpenOpenedMany (trigger : AutoOpenTrigger) (openedCount : nat) (repositories : list described)
  | AutoOpenFailed (trigger : AutoOpenTrigger) (code : string)
  | OpenSessionClosed (trigger : AutoOpenTrigger) (repository : described)
  | OpenSessionCloseFailed (trigger : AutoOpenTrigger) (reason : CloseFailedReason) (repository : described) (code : string)
  | OpenSessionMoved (trigger : AutoOpenTrigger) (previous repository : described)
  | OpenSessionMoveFailed (trigger : AutoOpenTrigger) (reason : MoveFailedReason) (repository : described) (code : string)
      (candidateCount : option nat)
  | OpenSessionReopened (id : string) (previousEpoch epoch : Z) (workingCopyRoot : string)
  | OpenSessionReopenFailed (repository : described) (code : string).

(** ** Module functions *)
Definition autoOpenOpenedEvent (trigger : AutoOpenTrigger) (s : session) : LifecycleEvent := AutoOpenOpened trigger (describe s).

Definition reopenResultToLifecycleEvent (r : ReopenResult) : LifecycleEvent :=
  match r with
  | Reopened id previous e root => OpenSessionReopened id previous e root
  | ReopenFailed id e root code =>
      OpenSessionReopenFailed {| ev_repositoryId := id; ev_epoch := e; ev_workingCopyRoot := root |} code
  end.

Definition repositoryRootKey (root : string) (pathCase : PathCasePolicy) : string :=
  let normalized := strip_trailing (replaceAll root backslash slash) slash in
  match pathCase with CaseInsensitive => toLocaleLowerCase normalized | CaseSensitive => normalized end.
Definition isDescendantRootKey (childRootKey parentRootKey : string) : bool :=
  startsWith (slice_from (String.length parentRootKey) childRootKey) "/".

Definition movedCandidateMatchesSession (candidate : Candidate) (s : session) (pathCase : PathCasePolicy) : bool :=
  bool_decide (identity_repositoryUuid (cand_identity candidate) = identity_repositoryUuid (identity s))
  && bool_decide (identity_repositoryRootUrl (cand_identity candidate) = identity_repositoryRootUrl (identity s))
  && negb (bool_decide (repositoryRootKey (identity_workingCopyRoot (cand_identity candidate)) pathCase
                        = repositoryRootKey (identity_workingCopyRoot (identity s)) pathCase)).

Definition automaticOpenCandidates (candidates : list Candidate) (openSessions : list session) (pathCase : PathCasePolicy)
    : list Candidate :=
  let unopened := unopenedDiscoveryCandidates candidates openSessions pathCase in
  let root_key c := repositoryRootKey (identity_workingCopyRoot (cand_identity c)) pathCase in
  let unopenedRootKeys := map root_key unopened in
  List.filter (fun c => negb (existsb (fun ancestor =>
    negb (bool_decide (ancestor = root_key c)) && isDescendantRootKey (root_key c) ancestor) unopenedRootKeys)) unopened.

(** ** The service *)
Record lifecycle {W : Type} := {
  session_service : service W;
  autoOpenInFlight : bool;
}.
Arguments lifecycle : clear implicits.

Record Options (W : Type) := {
  workspaceRoots : W -> list string;
  workspaceTrusted : W -> bool;
  pathCasePolicy : W -> PathCasePolicy;
  workingCopyExists : string -> method (service W) bool;
  onEvent : LifecycleEvent -> method W unit;
}.
Arguments workspaceRoots {W}.
Arguments workspaceTrusted {W}.
Arguments pathCasePolicy {W}.
Arguments workingCopyExists {W}.
Arguments onEvent {W}.

Section Service.
Context {W : Type} (co : Collaborators W) (be : Backend W) (options : Options W).
Variable foreign : string -> js_value.

Definition on_sessions {A} (m : method (service W) A) : method (lifecycle W) A :=
  on_part session_service (fun l s => {| session_service := s; autoOpenInFlight := autoOpenInFlight l |}) m.
Definition set_inFlight (b : bool) : method (lifecycle W) unit :=
  modify_state (fun l => {| session_service := session_service l; autoOpenInFlight := b |}).
Definition get_world : method (lifecycle W) W := l ← get_state; mret (world (session_service l)).

Definition errorCode (error : js_error) : string :=
  RepositorySession.errorCode foreign error "SUBVERSIONR_REPOSITORY_LIFECYCLE_FAILED".

Definition emit (event : LifecycleEvent) : method (lifecycle W) LifecycleEvent :=
  _ ← on_sessions (on_world (onEvent options event));
  mret event.

(** The request object of both discoveries. *)
Definition discovery_request (roots ignored : list string) : js_value :=
  encode_request {| RepositoryDiscovery.workspaceRoots := roots; discoverNested := true;
    discoveryDepth := REPOSITORY_DISCOVERY_DEPTH; discoveryIgnore := []; ignoredRoots := ignored; externalsMode := Lazy |}.

Definition openSingleCandidate (candidates : list Candidate) (candidate : Candidate) (pathCase : PathCasePolicy)
    (openSessions : list session) (fileExternalBoundaries : list string) : method (lifecycle W) session :=
  let boundaryRoots := discoveryBoundaryRoots candidates candidate pathCase openSessions fileExternalBoundaries in
  on_sessions (openDiscoveredRepository co be foreign (Some (open_discovered_request candidate pathCase
    (if (0 <? length boundaryRoots)%nat then Some boundaryRoots else None)))).

(** The loop over several candidates. *)
Fixpoint open_many (trigger : AutoOpenTrigger) (discovery : RepositoryDiscoveryResponse) (pathCase : PathCasePolicy)
    (openSessions opened : list session) (l : list Candidate) : method (lifecycle W) (list session) :=
  match l with
  | [] => mret opened
  | candidate :: rest =>
      s ← openSingleCandidate (candidates discovery) candidate pathCase (openSessions ++ opened)%list
            (fileExternalBoundaries discovery);
      _ ← emit (autoOpenOpenedEvent trigger s);
      open_many trigger discovery pathCase openSessions (opened ++ [s])%list rest
  end.

(** The [try] of [autoOpenWorkspaceRepositories]. *)
Definition auto_open (trigger : AutoOpenTrigger) (roots : list string) : method (lifecycle W) LifecycleEvent :=
  w ← get_world;
  let pathCase := pathCasePolicy options w in
  openSessions ← on_sessions listOpenSessions;
  discovery ← on_sessions (discoverRepositories be (Some (discovery_request roots
                (map (fun s => identity_workingCopyRoot (identity s)) openSessions))));
  if (length (candidates discovery) =? 0)%nat then emit (AutoOpenSkipped trigger NoCandidates (Some 0))
  else
    match automaticOpenCandidates (candidates discovery) openSessions pathCase with
    | [] => emit (AutoOpenSkipped trigger AllCandidatesOpen (Some (length (candidates discovery))))
    | [candidate] =>
        s ← openSingleCandidate (candidates discovery) candidate pathCase openSessions (fileExternalBoundaries discovery);
        emit (autoOpenOpenedEvent trigger s)
    | unopened =>
        opened ← open_many trigger discovery pathCase openSessions [] unopened;
        emit (AutoOpenOpenedMany trigger (length opened) (map describe opened))
    end.

Definition autoOpenWorkspaceRepositories (trigger : AutoOpenTrigger) : method (lifecycle W) LifecycleEvent :=
  w ← get_world;
  if negb (workspaceTrusted options w) then emit (AutoOpenSkipped trigger WorkspaceUntrusted None)
  else
    let roots := workspaceRoots options w in
    if (length roots =? 0)%nat then emit (AutoOpenSkipped trigger NoWorkspaceRoots None)
    else
      l ← get_state;
      if autoOpenInFlight l then emit (AutoOpenSkipped trigger AlreadyRunning None)
      else
        _ ← set_inFlight true;
        try_finally
          (try_catch (auto_open trigger roots) (fun error => emit (AutoOpenFailed trigger (errorCode error))))
          (set_inFlight false).

(** The [try] around [workingCopyExists] of both loops below: what it gave. *)
Definition try_exists (s : session) : method (lifecycle W) (result bool) :=
  try_catch (b ← on_sessions (workingCopyExists options (identity_workingCopyRoot (identity s))); mret (Ok b))
    (fun error => mret (Throw error)).

(** ** Working copies that have gone *)
Fixpoint close_disappeared (trigger : AutoOpenTrigger) (events : list LifecycleEvent) (l : list session)
    : method (lifecycle W) (list LifecycleEvent) :=
  match l with
  | [] => mret events
  | s :: rest =>
      exists_ ← try_exists s;
      match exists_ with
      | Throw error =>
          event ← emit (OpenSessionCloseFailed trigger WorkingCopyStatusUnavailable (describe s) (errorCode error));
          close_disappeared trigger (events ++ [event])%list rest
      | Ok true => close_disappeared trigger events rest
      | Ok false =>
          event ← try_catch
            (_ ← on_sessions (closeRepository co be (Some (VStr (repositoryId s))));
             emit (OpenSessionClosed trigger (describe s)))
            (fun error => emit (OpenSessionCloseFailed trigger WorkingCopyMissing (describe s) (errorCode error)));
          close_disappeared trigger (events ++ [event])%list rest
      end
  end.

Definition closeDisappearedRepositories (trigger : AutoOpenTrigger) : method (lifecycle W) (list LifecycleEvent) :=
  openSessions ← on_sessions listOpenSessions;
  close_disappeared trigger [] openSessions.

(** ** Working copies that were moved *)

(** The first loop: which sessions are missing, and which exist. *)
Fixpoint split_missing (trigger : AutoOpenTrigger) (events : list LifecycleEvent) (missing existing l : list session)
    : method (lifecycle W) (list LifecycleEvent * list session * list session) :=
  match l with
  | [] => mret (events, missing, existing)
  | s :: rest =>
      exists_ ← try_exists s;
      match exists_ with
      | Throw error =>
          event ← emit (OpenSessionMoveFailed trigger MoveStatusUnavailable (describe s) (errorCode error) None);
          split_missing trigger (events ++ [event])%list missing existing rest
      | Ok true => split_missing trigger events missing (existing ++ [s])%list rest
      | Ok false => split_missing trigger events (missing ++ [s])%list existing rest
      end
  end.

Fixpoint emit_all (make : session -> LifecycleEvent) (events : list LifecycleEvent) (l : list session)
    : method (lifecycle W) (list LifecycleEvent) :=
  match l with
  | [] => mret events
  | s :: rest => event ← emit (make s); emit_all make (events ++ [event])%list rest
  end.

(** The body of the last loop: the events it pushes. *)
Definition recover_one (trigger : AutoOpenTrigger) (discovery : RepositoryDiscoveryResponse) (pathCase : PathCasePolicy)
    (existing : list session) (unopened : list Candidate) (s : session) : method (lifecycle W) (list LifecycleEvent) :=
  match List.filter (fun c => movedCandidateMatchesSession c s pathCase) unopened with
  | [] => mret []
  | [candidate] =>
      closed ← try_catch (_ ← on_sessions (closeRepository co be (Some (VStr (repositoryId s)))); mret None)
                 (fun error => mret (Some error));
      match closed with
      | Some error =>
          event ← emit (OpenSessionMoveFailed trigger CloseFailed (describe s) (errorCode error) None);
          mret [event]
      | None =>
          event ← try_catch
            (moved ← openSingleCandidate (candidates discovery) candidate pathCase existing (fileExternalBoundaries discovery);
             emit (OpenSessionMoved trigger (describe s) (describe moved)))
            (fun error => emit (OpenSessionMoveFailed trigger OpenFailed (describe s) (errorCode error) None));
          mret [event]
      end
  | moved =>
      event ← emit (OpenSessionMoveFailed trigger MoveAmbiguous (describe s)
                "SUBVERSIONR_REPOSITORY_MOVED_CANDIDATE_AMBIGUOUS" (Some (length moved)));
      mret [event]
  end.

Fixpoint recover_each (trigger : AutoOpenTrigger) (discovery : RepositoryDiscoveryResponse) (pathCase : PathCasePolicy)
    (existing : list session) (unopened : list Candidate) (events : list LifecycleEvent) (l : list session)
    : method (lifecycle W) (list LifecycleEvent) :=
  match l with
  | [] => mret events
  | s :: rest =>
      pushed ← recover_one trigger discovery pathCase existing unopened s;
      recover_each trigger discovery pathCase existing unopened (events ++ pushed)%list rest
  end.

Definition recoverMovedRepositories (trigger : AutoOpenTrigger) : method (lifecycle W) (list LifecycleEvent) :=
  w ← get_world;
  if negb (workspaceTrusted options w) then mret []
  else
    let roots := workspaceRoots options w in
    if (length roots =? 0)%nat then mret []
    else
      openSessions ← on_sessions listOpenSessions;
      split ← split_missing trigger [] [] [] openSessions;
      let '(events, missing, existing) := split in
      if (length missing =? 0)%nat then mret events
      else
        w ← get_world;
        let pathCase := pathCasePolicy options w in
        discovery ← try_catch
          (d ← on_sessions (discoverRepositories be (Some (discovery_request roots
                 (map (fun s => identity_workingCopyRoot (identity s)) existing)))); mret (Ok d))
          (fun error => mret (Throw error));
        match discovery with
        | Throw error =>
            emit_all (fun s => OpenSessionMoveFailed trigger DiscoveryFailed (describe s) (errorCode error) None) events missing
        | Ok discovery =>
            recover_each trigger discovery pathCase existing
              (unopenedDiscoveryCandidates (candidates discovery) existing pathCase) events missing
        end.

(** ** After a restart of the backend *)
Fixpoint emit_results (l : list ReopenResult) : method (lifecycle W) (list LifecycleEvent) :=
  match l with
  | [] => mret []
  | r :: rest => event ← emit (reopenResultToLifecycleEvent r); events ← emit_results rest; mret (event :: events)
  end.

Definition reopenBackendRestartedRepositories : method (lifecycle W) (list LifecycleEvent) :=
  results ← on_sessions (reopenOpenSessions co be foreign);
  emit_results results.

(** ** repository/repositoryLifecycleCoordinator.ts *)

(** The task of [reconcileWorkspaceRepositories]. *)
Definition reconcileWorkspaceRepositories (trigger : AutoOpenTrigger) : method (lifecycle W) (list LifecycleEvent) :=
  movedRecoveryEvents ← recoverMovedRepositories trigger;
  disappearedCleanupEvents ← closeDisappearedRepositories trigger;
  automaticOpenEvent ← autoOpenWorkspaceRepositories trigger;
  mret (movedRecoveryEvents ++ disappearedCleanupEvents ++ [automaticOpenEvent])%list.

(** The task of [recoverBackendRestartedRepositories]; the failure callback is
    awaited. *)
Definition recoverBackendRestartedRepositories (now : W -> string)
    (onBackendRestartStaleFailure : js_error -> method (service W) unit) : method (lifecycle W) (list LifecycleEvent) :=
  w ← get_world;
  marked ← try_catch
    (_ ← on_sessions (markOpenSessionsStale co (Some (VObj [("reason", VStr "backendConnectionLost");
            ("timestamp", VStr (now w)); ("source", VStr "backend-lifecycle")])));
     mret true)
    (fun error => _ ← on_sessions (onBackendRestartStaleFailure error); mret false);
  if marked : bool then reopenBackendRestartedRepositories else mret [].
End Service.
End RepositoryLifecycle.
