(* ===== verification/LifecycleFacts.v ===== *)
(** The lifecycle operations act on the sessions only through the session
    service: each is a sequence of its calls.  So what holds of every sequence
    of calls holds here; and a session is closed only when its working copy has
    gone. *)

From Stdlib Require Import ZArith Lia String List.
From stdpp Require Import base option list relations strings.
From S2P Require Import Prelude JsString JsMap JsValue StatusTypes SessionTypes SessionService SessionFacts SessionTheorems.
From S2P Require Import Discovery Lifecycle.

Local Open Scope string_scope.

Module LifecycleFacts.
Import RepositorySession RepositorySessionService SessionLaws SessionTheorems RepositoryDiscovery RepositoryLifecycle.
#[local] Arguments open_epochs : simpl never.

Section Facts.
Context {W : Type} (co : Collaborators W) {HR : Registries co} (be : Backend W) (options : Options W).
Context {HQ : Quiet co be}.
Variable foreign : string -> js_value.
Hypothesis exists_quiet : forall path, quiet co (workingCopyExists options path).
Hypothesis event_keeps : forall event, keeps view (onEvent options event).
Notation session_step := (step co be foreign).
Implicit Types l : lifecycle W.

(** The session service moves only by its own calls. *)
Definition stepping {A} (m : method (lifecycle W) A) : Prop :=
  forall l, rtc session_step (session_service l) (session_service (snd (m l))).

Lemma stepping_bind {A B} (m : method (lifecycle W) A) (f : A -> method (lifecycle W) B) :
  stepping m -> (forall a, stepping (f a)) -> stepping (a ← m; f a).
Proof.
  intros Hm Hf l. unfold mbind, method_bind. specialize (Hm l). destruct (m l) as [[a|e] l1]; [|done].
  etrans; [exact Hm|apply Hf].
Qed.
Lemma stepping_catch {A} (m : method (lifecycle W) A) (f : js_error -> method (lifecycle W) A) :
  stepping m -> (forall e, stepping (f e)) -> stepping (try_catch m f).
Proof.
  intros Hm Hf l. unfold try_catch. specialize (Hm l). destruct (m l) as [[a|e] l1]; [done|].
  etrans; [exact Hm|apply Hf].
Qed.
Lemma stepping_finally {A} (m : method (lifecycle W) A) (f : method (lifecycle W) unit) :
  stepping m -> stepping f -> stepping (try_finally m f).
Proof.
  intros Hm Hf l. unfold try_finally. specialize (Hm l). destruct (m l) as [r l1]. specialize (Hf l1).
  destruct (f l1) as [[a|e] l2]; (etrans; [exact Hm|exact Hf]).
Qed.
Lemma stepping_same {A} (m : method (lifecycle W) A) : (forall l, session_service (snd (m l)) = session_service l) -> stepping m.
Proof. intros Hm l. by rewrite Hm. Qed.
Lemma stepping_on_sessions {A} (m : method (service W) A) : (forall s, rtc session_step s (snd (m s))) -> stepping (on_sessions m).
Proof. intros Hm l. specialize (Hm (session_service l)). unfold on_sessions, on_part. by destruct (m _). Qed.
Lemma quiet_steps {A} (m : method (service W) A) : quiet co m -> forall s, rtc session_step s (snd (m s)).
Proof. intros Hm s. apply rtc_once, step_other, Hm. Qed.

Lemma stepping_emit event : stepping (emit options event).
Proof using event_keeps.
  apply stepping_bind; [|by intros; apply stepping_same].
  apply stepping_on_sessions, quiet_steps, quiet_on_world, event_keeps.
Qed.
Lemma stepping_exists path : stepping (on_sessions (workingCopyExists options path)).
Proof using exists_quiet. apply stepping_on_sessions, quiet_steps, exists_quiet. Qed.
Lemma stepping_try_exists s : stepping (try_exists options s).
Proof using exists_quiet.
  apply stepping_catch; [apply stepping_bind; [apply stepping_exists|]|]; intros; by apply stepping_same.
Qed.
Lemma stepping_list : stepping (on_sessions (listOpenSessions (W:=W))).
Proof. by apply stepping_same. Qed.
Lemma stepping_close id : stepping (on_sessions (closeRepository co be id)).
Proof. apply stepping_on_sessions. intros s. apply rtc_once, (step_call _ _ _ s (Close id)). Qed.
Lemma stepping_reopen : stepping (on_sessions (reopenOpenSessions co be foreign)).
Proof. apply stepping_on_sessions. intros s. apply rtc_once, (step_call _ _ _ s Reopen). Qed.
Lemma stepping_stale req : stepping (on_sessions (markOpenSessionsStale co req)).
Proof. apply stepping_on_sessions. intros s. apply rtc_once, (step_call _ _ _ s (MarkStale req)). Qed.

Lemma stepping_discover req : stepping (on_sessions (discoverRepositories be req)).
Proof using HQ.
  apply stepping_on_sessions. intros s. unfold discoverRepositories, mbind, method_bind, lift_result.
  destruct (validateDiscoveryRequest req) as [v|e]; [|done]. pose proof (quiet_initialize co be s) as [H1 _].
  destruct (initialize be s) as [[c|e] s1]; [|by apply rtc_once, step_other].
  pose proof (request_asks co be c "repository/discover" (encode_request v) s1) as [H2 _].
  destruct (request be c _ _ s1) as [[raw|e] s2]; cbn in *;
    (eapply rtc_l; [apply step_other, H1|]; apply rtc_once, step_other; done).
Qed.
Lemma stepping_open cands c pathCase opened externals :
  stepping (openSingleCandidate co be foreign cands c pathCase opened externals).
Proof.
  apply stepping_on_sessions. intros s. unfold openDiscoveredRepository, mbind, method_bind, lift_result.
  destruct (validateOpenDiscoveredRepositoryRequest _) as [v|e]; [|done]. apply rtc_once. apply (step_call _ _ _ s (Open _)).
Qed.

Hint Resolve stepping_emit stepping_try_exists stepping_list stepping_close stepping_reopen stepping_stale stepping_discover
  stepping_open : stepping.
(** Follow the structure of a lifecycle operation. *)
Ltac stepping := repeat first
  [ progress intros | assumption | solve [auto with stepping] | apply stepping_finally | apply stepping_catch
  | apply stepping_bind | solve [by apply stepping_same] | case_match ].

Lemma stepping_open_many trigger discovery pathCase sessions opened cs :
  stepping (open_many co be options foreign trigger discovery pathCase sessions opened cs).
Proof using All. revert opened. induction cs as [|c cs IH]; intros; cbn [open_many]; stepping; apply IH. Qed.
Lemma stepping_auto_open trigger : stepping (autoOpenWorkspaceRepositories co be options foreign trigger).
Proof using All.
  unfold autoOpenWorkspaceRepositories, auto_open. stepping; apply stepping_open_many.
Qed.
Lemma stepping_close_disappeared trigger : stepping (closeDisappearedRepositories co be options foreign trigger).
Proof using All.
  unfold closeDisappearedRepositories. stepping. generalize (@nil LifecycleEvent).
  induction a as [|s rest IH]; intros events; cbn [close_disappeared]; stepping; apply IH.
Qed.
Lemma stepping_split trigger events missing existing ss :
  stepping (split_missing options foreign trigger events missing existing ss).
Proof using All. revert events missing existing. induction ss as [|s rest IH]; intros; cbn [split_missing]; stepping; apply IH. Qed.
Lemma stepping_emit_all make events ss : stepping (emit_all options make events ss).
Proof using All. revert events. induction ss as [|s rest IH]; intros; cbn [emit_all]; stepping; apply IH. Qed.
Lemma stepping_recover_one trigger discovery pathCase existing unopened s :
  stepping (recover_one co be options foreign trigger discovery pathCase existing unopened s).
Proof using All. unfold recover_one. stepping. Qed.
Lemma stepping_recover_each trigger discovery pathCase existing unopened events ss :
  stepping (recover_each co be options foreign trigger discovery pathCase existing unopened events ss).
Proof using All.
  revert events. induction ss as [|s rest IH]; intros; cbn [recover_each].
  - by apply stepping_same.
  - apply stepping_bind; [apply stepping_recover_one|]. intros pushed. apply IH.
Qed.
Lemma stepping_recover trigger : stepping (recoverMovedRepositories co be options foreign trigger).
Proof using All.
  unfold recoverMovedRepositories. stepping; first [apply stepping_split|apply stepping_recover_each|apply stepping_emit_all].
Qed.
Lemma stepping_reopened : stepping (reopenBackendRestartedRepositories co be options foreign).
Proof using All.
  unfold reopenBackendRestartedRepositories. stepping. induction a as [|r rest IH]; cbn [emit_results]; stepping.
Qed.
Lemma stepping_reconcile trigger : stepping (reconcileWorkspaceRepositories co be options foreign trigger).
Proof using All.
  apply stepping_bind; [apply stepping_recover|intros moved].
  apply stepping_bind; [apply stepping_close_disappeared|intros closed].
  apply stepping_bind; [apply stepping_auto_open|intros opened]. by apply stepping_same.
Qed.
Lemma stepping_restarted now failure : (forall e, quiet co (failure e)) ->
  stepping (recoverBackendRestartedRepositories co be options foreign now failure).
Proof using All.
  intros Hf. apply stepping_bind; [by apply stepping_same|intros w].
  apply stepping_bind; [|intros []; [apply stepping_reopened|by apply stepping_same]].
  apply stepping_catch; [stepping|intros e]. apply stepping_bind; [by apply stepping_on_sessions, quiet_steps|].
  intros. by apply stepping_same.
Qed.

(** ** Tasks of the coordinator *)
Inductive task :=
  | Reconcile (trigger : AutoOpenTrigger)
  | BackendRestarted (now : W -> string) (failure : js_error -> method (service W) unit).
Definition run_task (t : task) l : lifecycle W :=
  match t with
  | Reconcile trigger => snd (reconcileWorkspaceRepositories co be options foreign trigger l)
  | BackendRestarted now failure => snd (recoverBackendRestartedRepositories co be options foreign now failure l)
  end.
Definition task_ok (t : task) : Prop :=
  match t with Reconcile _ => True | BackendRestarted _ failure => forall e, quiet co (failure e) end.
Definition run_tasks (ts : list task) l : lifecycle W := fold_left (fun l t => run_task t l) ts l.

Lemma run_tasks_steps ts l : Forall task_ok ts ->
  rtc session_step (session_service l) (session_service (run_tasks ts l)).
Proof using All.
  revert l. induction ts as [|t ts IH]; intros l; [done|]. intros [Ht Hts]%Forall_cons. cbn.
  etrans; [|by apply IH]. destruct t; [apply stepping_reconcile|by apply stepping_restarted].
Qed.


(** ** What stays open *)
Definition is_open (s : service W) (d : described) : Prop :=
  map_get (open_epochs s) (ev_repositoryId d) = Some (ev_repositoryId d, ev_epoch d).

(** A method that leaves the session [id] as it is. *)
Definition spares {A} (id : string) (m : method (lifecycle W) A) : Prop :=
  forall l, in_step co (session_service l) ->
    in_step co (session_service (snd (m l)))
    /\ map_get (open_epochs (session_service (snd (m l)))) id = map_get (open_epochs (session_service l)) id.

Lemma spares_bind {A B} id (m : method (lifecycle W) A) (f : A -> method (lifecycle W) B) :
  spares id m -> (forall a, spares id (f a)) -> spares id (a ← m; f a).
Proof.
  intros Hm Hf l Hl. unfold mbind, method_bind. specialize (Hm l Hl). destruct (m l) as [[a|e] l1]; [|done].
  destruct Hm as [H1 H2]. destruct (Hf a l1 H1) as [H3 H4]. split; [done|]. by rewrite H4.
Qed.
Lemma spares_catch {A} id (m : method (lifecycle W) A) (f : js_error -> method (lifecycle W) A) :
  spares id m -> (forall e, spares id (f e)) -> spares id (try_catch m f).
Proof.
  intros Hm Hf l Hl. unfold try_catch. specialize (Hm l Hl). destruct (m l) as [[a|e] l1]; [done|].
  destruct Hm as [H1 H2]. destruct (Hf e l1 H1) as [H3 H4]. split; [done|]. by rewrite H4.
Qed.
Lemma spares_quiet {A} id (m : method (service W) A) : quiet co m -> spares id (on_sessions m).
Proof.
  intros Hm l Hl. destruct (Hm (session_service l)) as [Hu _]. unfold on_sessions, on_part.
  destruct (m (session_service l)) as [r s]. cbn in *. split; [by eapply undisturbed_in_step|]. by rewrite (proj1 Hu).
Qed.
Lemma spares_ret {A} id (a : A) : spares id (mret a).
Proof. by intros l. Qed.
Lemma spares_emit id event : spares id (emit options event).
Proof using event_keeps. apply spares_bind; [apply spares_quiet, quiet_on_world, event_keeps|intros; apply spares_ret]. Qed.

Lemma spares_close id other : other <> id -> spares id (on_sessions (closeRepository co be (Some (VStr other)))).
Proof using HQ.
  intros Hne l Hl. pose proof (close_spec co be (Some (VStr other)) (session_service l) Hl) as H. unfold close_outcome, named in H.
  unfold on_sessions, on_part. destruct (closeRepository co be _ (session_service l)) as [r s']; cbn [snd session_service] in *.
  assert (Hkept : undisturbed co (session_service l) s' ->
    in_step co s' /\ map_get (open_epochs s') id = map_get (open_epochs (session_service l)) id).
  { intros Hu. split; [by eapply undisturbed_in_step|]. by rewrite (proj1 Hu). }
  destruct (isNonEmptyString other); [|by apply Hkept, H]. destruct (map_get _ other) as [opened|] eqn:Hg; [|by apply Hkept, H].
  destruct (backend_closed be _ opened); [|by apply Hkept, H].
  split; [by eapply closes_in_step|]. destruct H as [-> _]. apply map_get_delete_ne. destruct Hl as (_ & Hk & _). by rewrite (Hk _ _ Hg).
Qed.

(** ** What automatic opening reports *)
Definition grows l l' : Prop :=
  in_step co (session_service l')
  /\ forall d, is_open (session_service l) d -> is_open (session_service l') d.
Definition growing {A} (m : method (lifecycle W) A) : Prop :=
  forall l, in_step co (session_service l) -> grows l (snd (m l)).

Lemma grows_trans l1 l2 l3 : grows l1 l2 -> grows l2 l3 -> grows l1 l3.
Proof. intros [H1 H2] [H3 H4]. split; auto. Qed.
Lemma growing_bind {A B} (m : method (lifecycle W) A) (f : A -> method (lifecycle W) B) :
  growing m -> (forall a, growing (f a)) -> growing (a ← m; f a).
Proof.
  intros Hm Hf l Hl. unfold mbind, method_bind. specialize (Hm l Hl). destruct (m l) as [[a|e] l1]; [|done].
  eapply grows_trans; [exact Hm|]. apply Hf, Hm.
Qed.
Lemma quiet_growing {A} (m : method (service W) A) : quiet co m -> growing (on_sessions m).
Proof.
  intros Hm l Hl. destruct (Hm (session_service l)) as [Hu _]. unfold on_sessions, on_part.
  destruct (m (session_service l)) as [r s]. split; [by eapply undisturbed_in_step|]. intros d. cbn in *.
  unfold is_open. by rewrite (proj1 Hu).
Qed.
Lemma growing_emit event : growing (emit options event).
Proof using event_keeps.
  apply growing_bind; [apply quiet_growing, quiet_on_world, event_keeps|]. by intros _ l Hl.
Qed.
Lemma emit_returns event l : match fst (emit options event l) with Ok ev => ev = event | Throw _ => True end.
Proof. unfold emit, mbind, method_bind. by destruct (on_sessions _ l) as [[]]. Qed.

Lemma opens_grows s v opened s' fl : in_step co s -> opens co s v opened s' ->
  let l' := {| session_service := s'; autoOpenInFlight := fl |} in
  grows {| session_service := s; autoOpenInFlight := fl |} l' /\ is_open s' (describe opened).
Proof.
  intros Hin Ho. pose proof Ho as (Hg & _ & He & _). cbn zeta.
  rewrite <- map_set_fresh in He by (rewrite open_epochs_keys; by apply map_get_None).
  split; [split; [by eapply opens_in_step|]|unfold is_open; cbn; by rewrite He, map_get_set_eq].
  intros d. unfold is_open. cbn. rewrite He. intros Hd. rewrite map_get_set_ne; [done|]. intros Heq.
  rewrite <- Heq in Hd. rewrite open_epochs_get, Hg in Hd. done.
Qed.

Lemma open_candidate_spec cands c pathCase opened externals l : in_step co (session_service l) ->
  grows l (snd (openSingleCandidate co be foreign cands c pathCase opened externals l))
  /\ match openSingleCandidate co be foreign cands c pathCase opened externals l with
     | (Ok s, l') => is_open (session_service l') (describe s)
     | (Throw _, _) => True
     end.
Proof using HQ.
  destruct l as [s fl]. cbn [session_service]. intros Hl.
  unfold openSingleCandidate, on_sessions, on_part, openDiscoveredRepository, mbind, method_bind, lift_result.
  cbn [session_service autoOpenInFlight].
  destruct (validateOpenDiscoveredRepositoryRequest _) as [v|e]; [|by split].
  pose proof (open_spec co be foreign (Some (open_request (identity_workingCopyRoot (cand_identity (disc_candidate v)))
    (disc_pathCase v) (disc_boundaryRoots v))) s Hl) as H.
  destruct (openWorkingCopy co be foreign _ s) as [[o|e] s'].
  - destruct H as (v' & _ & Ho & _). by eapply opens_grows.
  - split; [|done]. destruct H as [[Hu _]|(v' & o & _ & [Ho _] & _)]; [|by eapply opens_grows].
    split; [by eapply undisturbed_in_step|]. intros d. unfold is_open. cbn. by rewrite (proj1 Hu).
Qed.

Lemma open_many_spec trigger discovery pathCase sessions opened cs l : in_step co (session_service l) ->
  Forall (fun s => is_open (session_service l) (describe s)) opened ->
  grows l (snd (open_many co be options foreign trigger discovery pathCase sessions opened cs l))
  /\ match open_many co be options foreign trigger discovery pathCase sessions opened cs l with
     | (Ok all, l') => length all = length opened + length cs
                       /\ Forall (fun s => is_open (session_service l') (describe s)) all
     | (Throw _, _) => True
     end.
Proof using HQ event_keeps.
  revert opened l. induction cs as [|c cs IH]; intros opened l Hl Hall.
  { cbn. split; [done|]. split; [lia|done]. }
  cbn [open_many]. unfold mbind, method_bind.
  destruct (open_candidate_spec (candidates discovery) c pathCase (sessions ++ opened)%list
    (fileExternalBoundaries discovery) l Hl) as [Hg Ho].
  destruct (openSingleCandidate _ _ _ _ _ _ _ _ l) as [[s|e] l1]; [|done]. cbn [snd] in Hg.
  pose proof (growing_emit (autoOpenOpenedEvent trigger s) l1 (proj1 Hg)) as Hg2.
  destruct (emit options _ l1) as [[ev|e] l2]; cbn [snd] in Hg2; pose proof (grows_trans _ _ _ Hg Hg2) as Hg3; [|done].
  destruct (IH (opened ++ [s])%list l2 (proj1 Hg3)) as [Hg4 Hres].
  { apply Forall_app. split; [|apply Forall_singleton, Hg2, Ho].
    eapply Forall_impl; [exact Hall|]. intros x Hx. by apply Hg3. }
  split; [by eapply grows_trans|]. destruct (open_many _ _ _ _ _ _ _ _ _ _ l2) as [[all|e] l3]; [|done].
  destruct Hres as [Hlen Hopen]. split; [|done]. rewrite Hlen, List.length_app. cbn. lia.
Qed.

(** The repositories an event says were opened. *)
Definition opened_by (event : LifecycleEvent) : list described :=
  match event with
  | AutoOpenOpened _ d => [d]
  | AutoOpenOpenedMany _ _ ds => ds
  | _ => []
  end.
Definition truthful (event : LifecycleEvent) l : Prop :=
  Forall (is_open (session_service l)) (opened_by event)
  /\ match event with AutoOpenOpenedMany _ n ds => n = length ds /\ 2 <= n | _ => True end.

Lemma emit_truthful event l : in_step co (session_service l) -> truthful event l ->
  match emit options event l with (Ok ev, l') => truthful ev l' | (Throw _, _) => True end.
Proof using event_keeps.
  intros Hl [H1 H2]. pose proof (growing_emit event l Hl) as [_ Hg]. pose proof (emit_returns event l) as He.
  destruct (emit options event l) as [[ev|e] l']; [|done]. cbn in *. subst ev. split; [|done].
  eapply Forall_impl; [exact H1|exact Hg].
Qed.
Lemma emit_nothing event l :
  match event with AutoOpenOpened _ _ | AutoOpenOpenedMany _ _ _ => False | _ => True end -> in_step co (session_service l) ->
  match emit options event l with (Ok ev, l') => truthful ev l' | (Throw _, _) => True end.
Proof using event_keeps.
  intros H Hl. apply emit_truthful; [done|]. by destruct event.
Qed.

(** [m] grows the sessions, and an event it returns is truthful. *)
Definition reports (m : method (lifecycle W) LifecycleEvent) : Prop :=
  forall l, in_step co (session_service l) ->
    grows l (snd (m l)) /\ match m l with (Ok ev, l') => truthful ev l' | (Throw _, _) => True end.

Lemma reports_bind {A} (m : method (lifecycle W) A) (f : A -> method (lifecycle W) LifecycleEvent) :
  growing m -> (forall a, reports (f a)) -> reports (a ← m; f a).
Proof.
  intros Hm Hf l Hl. unfold mbind, method_bind. specialize (Hm l Hl). destruct (m l) as [[a|e] l1]; [|done].
  destruct (Hf a l1 (proj1 Hm)) as [Hg Hr]. split; [by eapply grows_trans|done].
Qed.
Lemma reports_emit event :
  match event with AutoOpenOpened _ _ | AutoOpenOpenedMany _ _ _ => False | _ => True end -> reports (emit options event).
Proof using event_keeps. intros He l Hl. split; [by apply growing_emit|by apply emit_nothing]. Qed.
Lemma reports_then_emit {A} (m : method (lifecycle W) A) (make : A -> LifecycleEvent) :
  (forall l, in_step co (session_service l) ->
     grows l (snd (m l)) /\ match m l with (Ok a, l') => truthful (make a) l' | (Throw _, _) => True end) ->
  reports (a ← m; emit options (make a)).
Proof using event_keeps.
  intros Hm l Hl. unfold mbind, method_bind. destruct (Hm l Hl) as [Hg Ht]. destruct (m l) as [[a|e] l1]; [|done].
  cbn [snd] in Hg. split; [eapply grows_trans; [exact Hg|]; apply growing_emit, Hg|]. apply emit_truthful; [apply Hg|done].
Qed.

Lemma growing_discover req : growing (on_sessions (discoverRepositories be req)).
Proof using HQ.
  intros [s fl] Hl. unfold on_sessions, on_part, discoverRepositories, mbind, method_bind, lift_result.
  cbn [session_service autoOpenInFlight] in *.
  assert (Hu : undisturbed co s (snd (discoverRepositories be req s))).
  { unfold discoverRepositories, mbind, method_bind, lift_result. destruct (validateDiscoveryRequest req) as [v|e]; [|done].
    pose proof (quiet_initialize co be s) as [H1 _]. destruct (initialize be s) as [[c|e] s1]; [|done].
    pose proof (request_asks co be c "repository/discover" (encode_request v) s1) as [H2 _].
    destruct (request be c _ _ s1) as [[raw|e] s2]; cbn in *; by eapply undisturbed_trans. }
  unfold discoverRepositories, mbind, method_bind, lift_result in Hu.
  match goal with |- grows _ (snd (let (r, t) := ?x in _)) => destruct x as [r s'] end. cbn [snd] in Hu.
  split; [by eapply undisturbed_in_step|]. intros d. unfold is_open. cbn. by rewrite (proj1 Hu).
Qed.

Lemma auto_open_spec trigger roots : reports (auto_open co be options foreign trigger roots).
Proof using HQ event_keeps.
  unfold auto_open. apply reports_bind; [by intros l Hl|]. intros w. apply reports_bind; [by intros l Hl|]. intros openSessions.
  apply reports_bind; [apply growing_discover|]. intros discovery. destruct (length _ =? 0)%nat; [by apply reports_emit|].
  destruct (RepositoryLifecycle.automaticOpenCandidates _ _ _) as [|c [|c2 cs]]; [by apply reports_emit| |].
  - apply (reports_then_emit _ (autoOpenOpenedEvent trigger)). intros l Hl.
    destruct (open_candidate_spec (candidates discovery) c (pathCasePolicy options w) openSessions
      (fileExternalBoundaries discovery) l Hl) as [Hg Ho]. split; [done|].
    destruct (openSingleCandidate _ _ _ _ _ _ _ _ l) as [[s|e] l1]; [|done]. split; [by apply Forall_singleton|done].
  - apply (reports_then_emit _ (fun opened => AutoOpenOpenedMany trigger (length opened) (map describe opened))). intros l Hl.
    destruct (open_many_spec trigger discovery (pathCasePolicy options w) openSessions [] (c :: c2 :: cs) l Hl) as [Hg Ho];
      [done|]. split; [done|].
    destruct (open_many _ _ _ _ _ _ _ _ _ _ l) as [[all|e] l1]; [|done]. destruct Ho as [Hlen Hopen].
    split; [by apply Forall_fmap|]. cbn in *. rewrite length_map. split; [done|lia].
Qed.

(** What automatic opening reports is so.  Every repository its event names
    as opened has an open session at the epoch named when it returns, an event
    of several names at least two; sessions that were open stay open; the
    in-flight flag is as before on every way out; and in an untrusted workspace
    nothing is sent and nothing opened. *)
Theorem auto_open_reports trigger l : reachable co be foreign (session_service l) ->
  let (r, l') := autoOpenWorkspaceRepositories co be options foreign trigger l in
  autoOpenInFlight l' = autoOpenInFlight l
  /\ (forall d, is_open (session_service l) d -> is_open (session_service l') d)
  /\ (workspaceTrusted options (world (session_service l)) = false -> leaves co (session_service l) (session_service l'))
  /\ match r with Ok event => truthful event l' | Throw _ => True end.
Proof using HQ event_keeps.
  intros (s0 & Hu & Hr). pose proof (reachable_in_step co be foreign s0 _ Hu Hr) as Hin. clear s0 Hu Hr.
  unfold autoOpenWorkspaceRepositories. unfold mbind at 1, method_bind at 1.
  change (get_world l) with (Ok (world (session_service l)), l). cbn iota beta.
  assert (Hskip : forall reason n,
    let (r, l') := emit options (AutoOpenSkipped trigger reason n) l in
    autoOpenInFlight l' = autoOpenInFlight l
    /\ (forall d, is_open (session_service l) d -> is_open (session_service l') d)
    /\ leaves co (session_service l) (session_service l')
    /\ match r with Ok event => truthful event l' | Throw _ => True end).
  { intros reason n. pose proof (emit_nothing (AutoOpenSkipped trigger reason n) l I Hin) as Ht.
    pose proof (proj2 (growing_emit (AutoOpenSkipped trigger reason n) l Hin)) as Hg.
    pose proof (quiet_on_world co _ (event_keeps (AutoOpenSkipped trigger reason n)) (session_service l)) as Hq.
    unfold emit, mbind, method_bind, on_sessions, on_part in *.
    destruct (on_world _ (session_service l)) as [[[]|e] s']; cbn in *; by split_and!. }
  destruct (workspaceTrusted options (world (session_service l))) eqn:Ht; cbn [negb].
  2:{ specialize (Hskip WorkspaceUntrusted None). destruct (emit options _ l) as [r l'].
      destruct Hskip as (? & ? & ? & ?). by split_and!. }
  destruct (length _ =? 0)%nat.
  { specialize (Hskip NoWorkspaceRoots None). destruct (emit options _ l) as [r l'].
    destruct Hskip as (? & ? & ? & ?). by split_and!. }
  unfold mbind at 1, method_bind at 1, get_state. destruct (autoOpenInFlight l) eqn:Hf.
  { specialize (Hskip AlreadyRunning None). destruct (emit options _ l) as [r l'].
    destruct Hskip as (? & ? & ? & ?). by split_and!. }
  unfold mbind, method_bind, set_inFlight, modify_state, try_finally, try_catch.
  set (l0 := {| session_service := session_service l; autoOpenInFlight := true |}).
  destruct (auto_open_spec trigger (workspaceRoots options (world (session_service l))) l0 Hin) as [Hg Hrep].
  destruct (auto_open _ _ _ _ _ _ l0) as [[ev|e] l1]; cbn [snd] in Hg.
  - split_and!; [done|apply Hg|done|apply Hrep].
  - destruct (reports_emit (AutoOpenFailed trigger (errorCode foreign e)) I l1 (proj1 Hg)) as [Hg2 Hrep2].
    destruct (emit options _ l1) as [r l2]. cbn [snd] in Hg2.
    split_and!; [done|intros d Hd; apply (grows_trans _ _ _ Hg Hg2), Hd|done|]. by destruct r.
Qed.

(** What the file system says during the operation. *)
Variable oracle : string -> result bool.
Hypothesis exists_oracle : forall path s, fst (workingCopyExists options path s) = oracle path.

Lemma try_exists_run id s l : in_step co (session_service l) ->
  exists l1, try_exists options s l = (Ok (oracle (identity_workingCopyRoot (identity s))), l1)
    /\ in_step co (session_service l1)
    /\ map_get (open_epochs (session_service l1)) id = map_get (open_epochs (session_service l)) id.
Proof using exists_quiet exists_oracle.
  intros Hl. unfold try_exists, try_catch, mbind, method_bind. set (path := identity_workingCopyRoot (identity s)).
  pose proof (spares_quiet id (workingCopyExists options path) (exists_quiet path) l Hl) as [H1 H2].
  assert (Hf : fst (on_sessions (workingCopyExists options path) l) = oracle path).
  { rewrite <- (exists_oracle path (session_service l)). unfold on_sessions, on_part.
    by destruct (workingCopyExists options path (session_service l)). }
  destruct (on_sessions (workingCopyExists options path) l) as [[b|e] l1]; cbn in *; rewrite <- Hf; by exists l1.
Qed.

Lemma close_disappeared_spares id trigger ss events :
  Forall (fun s => oracle (identity_workingCopyRoot (identity s)) = Ok false -> repositoryId s <> id) ss ->
  spares id (close_disappeared co be options foreign trigger events ss).
Proof using All.
  revert events. induction ss as [|s rest IH]; intros events; [intros _; apply spares_ret|].
  intros [Hs Hrest]%Forall_cons. cbn [close_disappeared]. intros l Hl.
  destruct (try_exists_run id s l Hl) as (l1 & Hrun & H1 & <-). rewrite (method_bind_ok _ _ _ _ _ Hrun). revert l1 Hrun H1.
  destruct (oracle _) as [[]|e] eqn:Hor; intros l1 _ H1.
  - by apply IH.
  - revert l1 H1. apply (spares_bind id); [|intros; by apply IH].
    apply spares_catch; [|intros; apply spares_emit].
    apply spares_bind; [apply spares_close; by apply Hs|intros; apply spares_emit].
  - revert l1 H1. apply (spares_bind id); [apply spares_emit|intros; by apply IH].
Qed.

(** Closing what has disappeared closes nothing else: a session whose
    working copy exists, or of which the file system says nothing, is still
    open afterwards at the same epoch, however the other sessions fared. *)
Theorem only_missing_closed trigger l id opened :
  reachable co be foreign (session_service l) ->
  map_get (sessions (session_service l)) id = Some opened ->
  oracle (identity_workingCopyRoot (identity opened)) <> Ok false ->
  is_open (session_service (snd (closeDisappearedRepositories co be options foreign trigger l))) (describe opened).
Proof using All.
  intros (s0 & Hu & Hr) Hg Ho. pose proof (reachable_in_step co be foreign s0 _ Hu Hr) as Hin. pose proof Hin as (Hwf & Hk & _).
  assert (Hsp : spares id (close_disappeared co be options foreign trigger [] (map_values (sessions (session_service l))))).
  { apply close_disappeared_spares, Forall_forall. intros s Hs Hfalse Hid.
    apply map_value_get in Hs as (k & Hgk); [|done]. rewrite (Hk k s Hgk) in Hid. congruence. }
  unfold is_open, describe. cbn [ev_repositoryId ev_epoch]. rewrite (Hk id opened Hg).
  destruct l as [s fl]. cbn [session_service] in *.
  change (closeDisappearedRepositories co be options foreign trigger {| session_service := s; autoOpenInFlight := fl |})
    with (close_disappeared co be options foreign trigger [] (map_values (sessions s))
            {| session_service := s; autoOpenInFlight := fl |}).
  rewrite (proj2 (Hsp {| session_service := s; autoOpenInFlight := fl |} Hin)).
  cbn. rewrite open_epochs_get, Hg. cbn. by rewrite (Hk id opened Hg).
Qed.
End Facts.
End LifecycleFacts.
