(* ===== verification/SessionWitnesses.v ===== *)
(** The theorems about sessions and their lifecycle at concrete inputs, and examples
    of what goes wrong. *)

From Stdlib Require Import ZArith Lia String List.
From stdpp Require Import base option list relations strings.
From S2P Require Import Prelude JsString JsMap JsValue StatusTypes StatusStore ScmResources ProjectionService Notifications Witnesses RefreshScheduler SchedulerFacts SchedulerTheorems Watchers SchedulerWitnesses SessionTypes SessionService SessionFacts SessionTheorems SessionCollaborators Discovery DiscoveryFacts Lifecycle LifecycleFacts.

Import RepositorySession RepositorySessionService SessionLaws SessionTheorems SessionCollaborators.
Local Open Scope string_scope.

Notation demo_world := (RepositoryWatcherService.service Z nat).

Definition empty_world : demo_world :=
  {| RepositoryWatcherService.registrations := [];
     RepositoryWatcherService.pipeline :=
       {| DirtyPathPipeline.scopes := [];
          DirtyPathPipeline.scheduler := initial
            {| statusSnapshotStore := [];
               sourceControlProjection :=
                 {| SourceControlProjectionService.svc_store :=
                      {| SourceControlResourceStore.repositories := [];
                         SourceControlResourceStore.countPolicy := sample_policy |};
                    SourceControlProjectionService.svc_env := 0%Z |};
               watcherOverflowDiagnostics := {| WatcherOverflowDiagnostics.overflowCount := 0;
                                                WatcherOverflowDiagnostics.lastOverflow := None |} |} (Some []) |};
     RepositoryWatcherService.editor := 0 |}.

Definition no_foreign : string -> js_value := fun _ => VNull.
Definition quiet_listener : nat -> SessionChange -> method demo_world unit := fun _ _ w => (Ok tt, w).

Definition demo (env : SourceControlProjectionService.Environment Z) : Collaborators demo_world :=
  collaborators compareText compareText env sample_options (numbering_editor false false) quiet_listener.

(** The answer to an open: the epoch is the number of requests so far. *)
Definition open_answer (path : string) (epoch : Z) : js_value :=
  VObj [("repositoryId", VStr ("id:" ++ path)); ("epoch", VNum (NumInt epoch));
        ("identity", VObj [("repositoryUuid", VStr "uuid"); ("repositoryRootUrl", VStr "file:///r");
                           ("workingCopyRoot", VStr path); ("workspaceScopeRoot", VStr path);
                           ("format", VNum (NumInt 31))])].
Definition close_answer (params : js_value) : js_value :=
  match params with VObj fields => VObj (fields ++ [("closed", VBool true)])%list | _ => VNull end.
Definition snapshot_at (id : string) (epoch : Z) : StatusSnapshot :=
  {| snapshot_repositoryId := id; snapshot_epoch := epoch; snapshot_generation := 1; snapshot_completeness := Complete;
     snapshot_identity := sample_identity; snapshot_localEntries := []; snapshot_remoteEntries := [];
     snapshot_summary := {| summary_localChanges := 0; summary_remoteChanges := 0; summary_conflicts := 0;
                            summary_unversioned := 0 |};
     snapshot_timestamp := "t1"; snapshot_source := "libsvn" |}.

(** [snapshot_fails]: the snapshot client rejects. *)
Definition demo_backend (snapshot_fails : bool) : Backend demo_world :=
  {| initialize := fun s => (Ok 1, s);
     sendRequest := fun _ name params s =>
       (Ok (Some (if bool_decide (name = "repository/open") then
          match field params "path" with
          | Some (VStr path) => open_answer path (Z.of_nat (length (sent s)))
          | _ => VNull
          end
        else close_answer params)), s);
     getSnapshot := fun id epoch s =>
       (if snapshot_fails then Throw (ForeignError "snapshot") else Ok (snapshot_at id epoch), s) |}.

#[local] Instance demo_registries : Registries (demo (counting_presenter false)).
Proof.
  apply collaborators_registries; [|by intros l event w r id].
  intros l id epoch x Hl. apply list_elem_of_singleton in Hl as ->. done.
Defined.
#[local] Instance demo_quiet fails : Quiet (demo (counting_presenter false)) (demo_backend fails).
Proof.
  split; [by intros s|by intros c n p s|by intros id e s|].
  intros id e s snapshot s'. cbn. destruct fails; [done|]. by intros [= <- <-].
Defined.

Definition service0 : service demo_world := {| sessions := []; listeners := [1]; world := empty_world; sent := [] |}.
Lemma service0_unused : unused (demo (counting_presenter false)) service0.
Proof. split; [done|]. by intros [] id. Qed.
Lemma service0_reachable : reachable (demo (counting_presenter false)) (demo_backend false) no_foreign service0.
Proof. exists service0. split; [apply service0_unused|reflexivity]. Qed.

Definition open_request (path : string) : option js_value :=
  Some (VObj [("path", VStr path); ("pathCase", VStr "case-sensitive")]).
Definition calls1 : list call := [Open (open_request "/wc"); Open (open_request "/wd")].
Definition run_calls (l : list call) : service demo_world :=
  fold_left (fun s c => run (demo (counting_presenter false)) (demo_backend false) no_foreign c s) l service0.
Lemma run_calls_steps l s :
  rtc (step (demo (counting_presenter false)) (demo_backend false) no_foreign) s
    (fold_left (fun s c => run (demo (counting_presenter false)) (demo_backend false) no_foreign c s) l s).
Proof. revert s. induction l as [|c l IH]; intros s; [reflexivity|]. eapply rtc_l, IH. constructor. Qed.
Lemma run_calls_reachable l : reachable (demo (counting_presenter false)) (demo_backend false) no_foreign (run_calls l).
Proof. exists service0. split; [apply service0_unused|apply run_calls_steps]. Qed.

Lemma sessions_registered_witness :
  in_step (demo (counting_presenter false)) (run_calls calls1) /\ map_keys (sessions (run_calls calls1)) = ["id:/wc"; "id:/wd"].
Proof.
  split; [|vm_compute; reflexivity].
  exact (sessions_registered _ (demo_backend false) no_foreign service0 _ service0_unused (run_calls_steps calls1 service0)).
Defined.

(** One open returns; with a snapshot client that rejects, one throws and the
    backend was asked to close what it had opened. *)
Lemma open_all_or_nothing_witness :
  (exists opened s' v,
    openWorkingCopy (demo (counting_presenter false)) (demo_backend false) no_foreign (open_request "/wc") service0 = (Ok opened, s')
    /\ opens_answer (demo (counting_presenter false)) (demo_backend false) service0 v opened s')
  /\ refuses (demo (counting_presenter false)) (demo_backend true) service0 (open_request "/wc")
       (snd (openWorkingCopy (demo (counting_presenter false)) (demo_backend true) no_foreign (open_request "/wc") service0)).
Proof.
  split.
  - pose proof (open_all_or_nothing (demo (counting_presenter false)) (demo_backend false) no_foreign (open_request "/wc")
      service0 service0_reachable) as H.
    destruct (openWorkingCopy _ _ _ _ _) as [[opened|e] s'] eqn:E;
      [|exfalso; apply (f_equal (fun x => is_ok (fst x))) in E; vm_compute in E; discriminate E].
    destruct H as (v & _ & H). exists opened, s', v. exact (conj eq_refl H).
  - pose proof (open_all_or_nothing (demo (counting_presenter false)) (demo_backend true) no_foreign (open_request "/wc")
      service0 (ex_intro _ service0 (conj service0_unused (rtc_refl _ _)))) as H.
    assert (Hs : sessions (snd (openWorkingCopy (demo (counting_presenter false)) (demo_backend true) no_foreign (open_request "/wc") service0)) = [])
      by (vm_compute; reflexivity).
    destruct (openWorkingCopy _ _ _ _ _) as [[opened|e] s'] eqn:E;
      [exfalso; apply (f_equal (fun x => is_ok (fst x))) in E; vm_compute in E; discriminate E|].
    destruct H as [H|(v & opened & _ & [(_ & H & _) _] & _)]; [exact H|]. cbn [snd] in Hs. rewrite Hs in H. discriminate H.
Defined.

Lemma close_all_or_nothing_witness :
  exists s', closeRepository (demo (counting_presenter false)) (demo_backend false) (Some (VStr "id:/wc")) (run_calls calls1) = (Ok tt, s')
    /\ open_epochs s' = map_delete (open_epochs (run_calls calls1)) "id:/wc".
Proof.
  pose proof (close_all_or_nothing (demo (counting_presenter false)) (demo_backend false) no_foreign (Some (VStr "id:/wc"))
    (run_calls calls1) (run_calls_reachable calls1)) as H.
  destruct (closeRepository _ _ _ _) as [[[]|e] s'] eqn:E;
    [|exfalso; apply (f_equal (fun x => is_ok (fst x))) in E; vm_compute in E; discriminate E].
  destruct (named (run_calls calls1) (Some (VStr "id:/wc"))) as [opened|] eqn:Hn; [|destruct H as [[e He] _]; discriminate He].
  assert (Hid : repositoryId opened = "id:/wc") by (vm_compute in Hn; by injection Hn as <-).
  cbv zeta in H. destruct (backend_closed _ _ opened); [|destruct H as [[e He] _]; discriminate He].
  exists s'. rewrite Hid in H. exact (conj eq_refl (proj1 H)).
Defined.

Lemma reopen_reports_witness :
  exists s', reopenOpenSessions (demo (counting_presenter false)) (demo_backend false) no_foreign (run_calls calls1)
      = (Ok [Reopened "id:/wc" 1 3 "/wc"; Reopened "id:/wd" 2 4 "/wd"], s')
    /\ open_ids s' = open_ids (run_calls calls1).
Proof.
  destruct (reopen_reports (demo (counting_presenter false)) (demo_backend false) no_foreign (run_calls calls1)
    (run_calls_reachable calls1)) as (rs & s' & E & Hids & _).
  exists s'. split; [|exact Hids]. rewrite E. apply (f_equal fst) in E. vm_compute in E. injection E as <-. reflexivity.
Defined.

Lemma dispose_releases_all_witness :
  exists s', dispose (demo (counting_presenter false)) (run_calls calls1) = (Ok tt, s') /\ sessions s' = [].
Proof.
  destruct (dispose_releases_all (demo (counting_presenter false)) (demo_backend false) no_foreign (run_calls calls1)
    (run_calls_reachable calls1)) as (s' & E & H & _).
  exists s'. exact (conj E H).
Defined.

(** A snapshot that does not come: nothing stays, and the backend is told. *)
Example failed_open_rolled_back :
  let s' := snd (openWorkingCopy (demo (counting_presenter false)) (demo_backend true) no_foreign (open_request "/wc") service0) in
  sessions s' = [] /\ map fst (sent s') = ["repository/open"; "repository/close"]
  /\ RepositoryWatcherService.registrations (world s') = [].
Proof. vm_compute. done. Qed.

(** ** What a throwing callback leaves behind *)

(** A projection listener that throws on its [n]-th event, or a presenter that
    throws on its [n]-th update; the state counts both. *)
Definition throwing_at (listener_ : bool) (n : Z) : SourceControlProjectionService.Environment Z :=
  let call (mine : bool) (k : Z) : result unit * Z :=
    (if mine && (k =? n)%Z then Throw (ForeignError "callback") else Ok tt, (k + 1)%Z) in
  {| SourceControlProjectionService.presenter_register := fun _ => call false;
     SourceControlProjectionService.presenter_update := fun _ => call (negb listener_);
     SourceControlProjectionService.presenter_updateRemote := fun _ => call false;
     SourceControlProjectionService.presenter_unregister := fun _ => call false;
     SourceControlProjectionService.listeners := [fun _ => call listener_] |}.

(** The listener throws once, when the repository is registered: the open is
    rolled back, but the projection keeps the repository, and every later open
    of it fails. *)
Example registration_leak :
  let co := demo (throwing_at true 1) in
  let open s := openWorkingCopy co (demo_backend false) no_foreign (open_request "/wc") s in
  let s1 := snd (open service0) in
  is_ok (fst (open service0)) = false /\ sessions s1 = []
  /\ registered Projection (world s1) "id:/wc" = Some 1%Z
  /\ registered Watcher (world s1) "id:/wc" = None /\ registered Status (world s1) "id:/wc" = None
  /\ fst (open s1) = Throw (SourceControlResourceStore.alreadyRegistered "id:/wc").
Proof. vm_compute. done. Qed.

(** The presenter throws while a session is reopened: the stores are at the
    new epoch, the session and the watcher at the old one, and the backend is
    not asked to close what it opened.  Marking sessions stale then fails. *)
Example half_reopened :
  let co := demo (throwing_at false 4) in
  let s1 := snd (openWorkingCopy co (demo_backend false) no_foreign (open_request "/wc") service0) in
  let s2 := snd (reopenOpenSessions co (demo_backend false) no_foreign s1) in
  fst (reopenOpenSessions co (demo_backend false) no_foreign s1)
    = Ok [ReopenFailed "id:/wc" 1 "/wc" "SUBVERSIONR_REPOSITORY_REOPEN_FAILED"]
  /\ map epoch (map_values (sessions s2)) = [1%Z]
  /\ registered Watcher (world s2) "id:/wc" = Some 1%Z
  /\ registered Status (world s2) "id:/wc" = Some 2%Z /\ registered Projection (world s2) "id:/wc" = Some 2%Z
  /\ map fst (sent s2) = ["repository/open"; "repository/open"]
  /\ fst (markOpenSessionsStale co (Some (VObj [("reason", VStr "r"); ("timestamp", VStr "t"); ("source", VStr "s")])) s2)
     = Throw (staleStateUnavailable "id:/wc" "status").
Proof. vm_compute. done. Qed.

Import RepositorySession RepositorySessionService SessionLaws SessionTheorems RepositoryDiscovery RepositoryLifecycle.
Import DiscoveryFacts LifecycleFacts.
Local Open Scope string_scope.

Definition workspace_backend (found : list Candidate) : Backend demo_world :=
  {| initialize := fun s => (Ok 1, s);
     sendRequest := fun c name params s =>
       if bool_decide (name = "repository/discover")
       then (Ok (Some (encode_response {| candidates := found; fileExternalBoundaries := [] |})), s)
       else sendRequest (demo_backend false) c name params s;
     getSnapshot := getSnapshot (demo_backend false) |}.

(** The file system, as a function of the path. *)
Definition demo_options (present : string -> bool) : Options demo_world :=
  {| workspaceRoots := fun _ => ["/ws"]; workspaceTrusted := fun _ => true; pathCasePolicy := fun _ => CaseSensitive;
     workingCopyExists := fun path s => (Ok (present path), s); onEvent := fun _ w => (Ok tt, w) |}.

Notation demo_co := (demo (counting_presenter false)).
#[local] Existing Instance demo_registries.
#[local] Instance workspace_quiet found : Quiet demo_co (workspace_backend found).
Proof.
  split; [by intros s| |by intros id e s|].
  - intros c n p s. cbn. by destruct (bool_decide _).
  - intros id e s snapshot s'. cbn. by intros [= <- <-].
Defined.

Definition lifecycle0 : lifecycle demo_world := {| session_service := service0; autoOpenInFlight := false |}.
Lemma lifecycle0_reachable found : reachable demo_co (workspace_backend found) no_foreign (session_service lifecycle0).
Proof. exists service0. split; [apply service0_unused|reflexivity]. Qed.

Lemma exists_leaves present path : quiet demo_co (workingCopyExists (demo_options present) path).
Proof. by intros s. Qed.
Lemma event_leaves present event : keeps view (onEvent (demo_options present) event).
Proof. by intros w. Qed.

Definition two_roots : list Candidate := [root_candidate "/ws/a"; root_candidate "/ws/bb"].


(** Two sessions; the working copy of the first has gone. *)
Definition after_reconcile : lifecycle demo_world :=
  run_task demo_co (workspace_backend two_roots) (demo_options (fun _ => true)) no_foreign (Reconcile Activation) lifecycle0.
Lemma after_reconcile_reachable :
  reachable demo_co (workspace_backend two_roots) no_foreign (session_service after_reconcile).
Proof.
  exists service0. split; [apply service0_unused|].
  refine (stepping_reconcile demo_co (workspace_backend two_roots) (demo_options (fun _ => true)) no_foreign
    (exists_leaves _) (event_leaves _) Activation lifecycle0).
Qed.
Definition second_present (path : string) : bool := bool_decide (path = "/ws/bb").

Lemma only_missing_closed_witness :
  exists opened,
    let l' := snd (closeDisappearedRepositories demo_co (workspace_backend two_roots) (demo_options second_present) no_foreign
                Activation after_reconcile) in
    is_open (session_service l') (describe opened) /\ map_keys (sessions (session_service l')) = ["id:/ws/bb"].
Proof.
  destruct (map_get (sessions (session_service after_reconcile)) "id:/ws/bb") as [opened|] eqn:E;
    [|exfalso; apply (f_equal (fun o => bool_decide (o = None))) in E; vm_compute in E; discriminate E].
  assert (Hroot : identity_workingCopyRoot (identity opened) = "/ws/bb").
  { apply (f_equal (fun o => (fun x => identity_workingCopyRoot (identity x)) <$> o)) in E. vm_compute in E. by injection E. }
  assert (Hkept : Ok (second_present (identity_workingCopyRoot (identity opened))) <> Ok false)
    by (rewrite Hroot; vm_compute; discriminate).
  exists opened. cbv zeta. split; [|vm_compute; reflexivity].
  exact (only_missing_closed demo_co (workspace_backend two_roots) (demo_options second_present) no_foreign
    (exists_leaves second_present) (event_leaves second_present) (fun path => Ok (second_present path)) (fun _ _ => eq_refl) Activation after_reconcile "id:/ws/bb" opened
    after_reconcile_reachable E Hkept).
Defined.

Lemma auto_open_reports_witness :
  exists l', autoOpenWorkspaceRepositories demo_co (workspace_backend two_roots) (demo_options (fun _ => true)) no_foreign
      Activation lifecycle0
    = (Ok (AutoOpenOpenedMany Activation 2
             [{| ev_repositoryId := "id:/ws/a"; ev_epoch := 2; ev_workingCopyRoot := "/ws/a" |};
              {| ev_repositoryId := "id:/ws/bb"; ev_epoch := 3; ev_workingCopyRoot := "/ws/bb" |}]), l')
    /\ is_open (session_service l') {| ev_repositoryId := "id:/ws/bb"; ev_epoch := 3; ev_workingCopyRoot := "/ws/bb" |}.
Proof.
  pose proof (auto_open_reports demo_co (workspace_backend two_roots) (demo_options (fun _ => true)) no_foreign
    (event_leaves _) Activation lifecycle0 (lifecycle0_reachable two_roots)) as H.
  destruct (autoOpenWorkspaceRepositories _ _ _ _ _ _) as [r l'] eqn:E. destruct H as (_ & _ & _ & H).
  apply (f_equal fst) in E. cbn [fst] in E. vm_compute in E. subst r. exists l'. split; [reflexivity|].
  destruct H as [H _]. apply Forall_cons in H as [_ H]. apply Forall_cons in H as [H _]. exact H.
Defined.

(** ** The descendant test at work

    [/ws/bbb/x] is open; [/ws/aaa], beside it, is found.  Planning makes the
    open working copy a boundary of the new one, the session service refuses
    it, and the new one is not opened. *)
Definition sibling_open : lifecycle demo_world :=
  run_task demo_co (workspace_backend [root_candidate "/ws/bbb/x"]) (demo_options (fun _ => true)) no_foreign
    (Reconcile Activation) lifecycle0.

Example sibling_blocks_auto_open :
  let r := autoOpenWorkspaceRepositories demo_co (workspace_backend [root_candidate "/ws/aaa"]) (demo_options (fun _ => true))
             no_foreign WorkspaceFolders sibling_open in
  map_keys (sessions (session_service sibling_open)) = ["id:/ws/bbb/x"]
  /\ fst r = Ok (AutoOpenFailed WorkspaceFolders "SUBVERSIONR_REPOSITORY_BOUNDARY_ROOT_OUTSIDE_WORKING_COPY")
  /\ map_keys (sessions (session_service (snd r))) = ["id:/ws/bbb/x"].
Proof. vm_compute. done. Qed.

(** Found together, the deeper of the two is taken for nested in the other and
    not opened at all. *)
Example sibling_not_opened :
  map (fun c => identity_workingCopyRoot (cand_identity c))
    (automaticOpenCandidates [root_candidate "/ws/aaa"; root_candidate "/ws/bbb/x"] [] CaseSensitive) = ["/ws/aaa"].
Proof. vm_compute. done. Qed.
