(* ===== verification/Coordinator.v ===== *)
(** [runExclusive] of repository/repositoryLifecycleCoordinator.ts: session
    operations run one after the other.

    Each call makes a promise, kept in [tail], that it releases when its task
    has ended, and waits for the promise that was in [tail] before.  A call is
    named by its number; its promise is released when it has finished. *)

From Stdlib Require Import Lia List.
From stdpp Require Import base option list relations.
From S2P Require Import Prelude.

Module RepositoryLifecycleCoordinator.

Inductive phase := Waiting | Running | Finished (returned : bool).
#[export] Instance phase_eq_dec : EqDecision phase.
Proof. solve_decision. Defined.

Record invocation := { previous : option nat; current : phase }.
Record coordinator := { calls : list invocation; tail : option nat }.

Definition idle : coordinator := {| calls := []; tail := None |}.

Inductive event :=
  | RunExclusive
  | StartTask (call : nat)
  | EndTask (call : nat) (returned : bool).

Definition released (c : coordinator) (p : option nat) : bool :=
  match p with
  | None => true
  | Some i => match calls c !! i with
              | Some {| current := Finished _ |} => true
              | _ => false
              end
  end.
Definition set_phase (c : coordinator) (i : nat) (p : phase) : coordinator :=
  {| calls := alter (fun x => {| previous := previous x; current := p |}) i (calls c); tail := tail c |}.

(** The call up to its [await]; the [task()] once [previous] is released; the
    [finally]. *)
Definition exec (e : event) (c : coordinator) : option coordinator :=
  match e with
  | RunExclusive =>
      Some {| calls := calls c ++ [{| previous := tail c; current := Waiting |}]; tail := Some (length (calls c)) |}
  | StartTask i =>
      x ← calls c !! i;
      if bool_decide (current x = Waiting) && released c (previous x) then Some (set_phase c i Running) else None
  | EndTask i returned =>
      x ← calls c !! i;
      if bool_decide (current x = Running) then Some (set_phase c i (Finished returned)) else None
  end.

Inductive step (c : coordinator) : coordinator -> Prop :=
  | step_exec e c' : exec e c = Some c' -> step c c'.

Definition finished (x : invocation) : Prop := match current x with Finished _ => True | _ => False end.

(** Calls wait for the one before them, and everything before a call that has
    started has finished. *)
Definition ordered (c : coordinator) : Prop :=
  tail c = match length (calls c) with 0 => None | S n => Some n end
  /\ (forall i x, calls c !! i = Some x -> previous x = match i with 0 => None | S p => Some p end)
  /\ (forall i x j y, calls c !! i = Some x -> current x <> Waiting -> j < i -> calls c !! j = Some y -> finished y).

Lemma ordered_call c : ordered c ->
  ordered {| calls := calls c ++ [{| previous := tail c; current := Waiting |}]; tail := Some (length (calls c)) |}.
Proof.
  intros (Ht & Hp & Ho). split; [cbn; rewrite length_app; cbn; by rewrite Nat.add_1_r|]. split.
  - intros i x [Hi|[Hle Hi]]%lookup_app_Some; [by apply Hp|]. apply list_lookup_singleton_Some in Hi as [Hi <-]. cbn.
    rewrite Ht. assert (i = length (calls c)) as -> by lia. done.
  - intros i x j y Hi Hx Hji Hj. cbn in Hi, Hj. apply lookup_app_Some in Hi as [Hi|[Hle Hi]].
    + rewrite lookup_app_l in Hj by (apply lookup_lt_Some in Hi; lia). exact (Ho i x j y Hi Hx Hji Hj).
    + by apply list_lookup_singleton_Some in Hi as [_ <-].
Qed.

Lemma lookup_set_phase c i p j y : calls (set_phase c i p) !! j = Some y ->
  exists z, calls c !! j = Some z /\ previous y = previous z /\ (j = i /\ current y = p \/ j <> i /\ y = z).
Proof.
  cbn. destruct (decide (j = i)) as [->|Hne].
  - rewrite list_lookup_alter_eq. destruct (calls c !! i) as [z|]; [|done]. intros [= <-]. exists z. naive_solver.
  - rewrite list_lookup_alter_ne by done. intros Hy. exists y. naive_solver.
Qed.

(** [i] moves to [p]; before it all has finished, and if anything after it has
    started, [p] is an end. *)
Lemma ordered_phase c i p :
  ordered c ->
  (p <> Waiting -> forall j y, j < i -> calls c !! j = Some y -> finished y) ->
  (forall j y, i < j -> calls c !! j = Some y -> current y <> Waiting -> exists b, p = Finished b) ->
  ordered (set_phase c i p).
Proof.
  intros (Ht & Hp & Ho) Hbefore Hafter. split; [cbn; by rewrite length_alter|]. split.
  - intros j y (z & Hz & -> & _)%lookup_set_phase. by apply Hp.
  - intros j y k z Hj Hy Hkj Hk. apply lookup_set_phase in Hj as (y' & Hj & _ & Hcase).
    apply lookup_set_phase in Hk as (z' & Hk & _ & Hcase').
    destruct Hcase as [[-> Hcur]|[Hne ->]], Hcase' as [[-> Hcur']|[Hne' ->]]; [lia| | |exact (Ho j y' k z' Hj Hy Hkj Hk)].
    + eapply Hbefore; [congruence|done|done].
    + destruct (Hafter j y' Hkj Hj Hy) as [b ->]. unfold finished. by rewrite Hcur'.
Qed.

Lemma exec_ordered e c c' : exec e c = Some c' -> ordered c -> ordered c'.
Proof.
  intros He Hord. pose proof Hord as (Ht & Hp & Ho). destruct e as [|i|i returned]; cbn in He.
  - injection He as <-. by apply ordered_call.
  - apply bind_Some in He as (x & Hi & He). destruct (bool_decide (current x = Waiting)) eqn:Hw; [|done].
    destruct (released c (previous x)) eqn:Hrel; [|done]. injection He as <-. apply bool_decide_eq_true in Hw.
    apply ordered_phase; [done| |].
    + intros _ j y Hji Hj. rewrite (Hp i x Hi) in Hrel. destruct i as [|p]; [lia|]. cbn in Hrel.
      destruct (calls c !! p) as [u|] eqn:Hu; [|done]. assert (Hfin : finished u) by (unfold finished; by destruct u as [? []]).
      destruct (decide (j = p)) as [->|Hne]; [congruence|].
      assert (Hstarted : current u <> Waiting) by (unfold finished in Hfin; by destruct (current u)).
      exact (Ho p u j y Hu Hstarted ltac:(lia) Hj).
    + intros j y Hij Hj Hy. pose proof (Ho j y i x Hj Hy Hij Hi) as Hx. unfold finished in Hx. by rewrite Hw in Hx.
  - apply bind_Some in He as (x & Hi & He). destruct (bool_decide (current x = Running)) eqn:Hw; [|done].
    injection He as <-. apply bool_decide_eq_true in Hw. apply ordered_phase; [done| |by eexists].
    intros _ j y Hji Hj. exact (Ho i x j y Hi ltac:(congruence) Hji Hj).
Qed.
Lemma reachable_ordered c : rtc step idle c -> ordered c.
Proof.
  intros H. cut (ordered idle -> ordered c).
  { intros Hc. apply Hc. split; [done|]. split; by intros [] x. }
  induction H as [|c1 c2 c3 [e c2' He] _ IH]; [done|]. intros Hc. eapply IH, exec_ordered; done.
Qed.

(** C22: Session operations exclude each other and none is stuck.  At any time
    at most one task runs, and when it started every call made before it had
    ended, whether its task returned or threw.  While calls are open, the first
    of them is running or can start. *)
Theorem session_operations_serialized c : rtc step idle c ->
  (forall i j x y, calls c !! i = Some x -> calls c !! j = Some y -> current x = Running -> current y = Running -> i = j)
  /\ (forall i j x y, calls c !! i = Some x -> current x <> Waiting -> j < i -> calls c !! j = Some y -> finished y)
  /\ (forall i x, calls c !! i = Some x -> ~ finished x ->
        exists j y, j <= i /\ calls c !! j = Some y /\
          (current y = Running \/ is_Some (exec (StartTask j) c))).
Proof.
  intros Hr. destruct (reachable_ordered c Hr) as (Ht & Hp & Ho). split; [|split].
  - intros i j x y Hi Hj Hx Hy. destruct (lt_eq_lt_dec i j) as [[Hlt|]|Hlt]; [|done|].
    + pose proof (Ho j y i x Hj ltac:(congruence) Hlt Hi) as H. unfold finished in H. by rewrite Hx in H.
    + pose proof (Ho i x j y Hi ltac:(congruence) Hlt Hj) as H. unfold finished in H. by rewrite Hy in H.
  - intros i j x y. by eauto.
  - intros i. induction i as [i IH] using lt_wf_ind. intros x Hi Hnf. unfold finished in Hnf.
    destruct (current x) eqn:Hx; [|by exists i, x; auto|done].
    destruct i as [|p].
    { exists 0, x. split_and!; [lia|done|]. right. cbn. rewrite Hi. cbn. rewrite Hx, (Hp 0 x Hi). by eexists. }
    destruct (lookup_lt_is_Some_2 (calls c) p) as [u Hu]; [apply lookup_lt_Some in Hi; lia|].
    destruct (current u) eqn:Hcu.
    1,2: destruct (IH p ltac:(lia) u Hu) as (j & y & Hle & Hj & Hy); [by unfold finished; rewrite Hcu|];
      exists j, y; split_and!; [lia|done|done].
    exists (S p), x. split_and!; [lia|done|]. right. cbn. rewrite Hi. cbn. rewrite Hx, (Hp (S p) x Hi). cbn.
    rewrite Hu. destruct u as [pu cu]. cbn in Hcu. subst cu. by eexists.
Qed.

Lemma session_operations_serialized_witness :
  exists c, rtc step idle c /\ calls c !! 1 = Some {| previous := Some 0; current := Running |}
    /\ (forall i x, calls c !! i = Some x -> ~ finished x ->
          exists j y, j <= i /\ calls c !! j = Some y /\ (current y = Running \/ is_Some (exec (StartTask j) c))).
Proof.
  exists {| calls := [ {| previous := None; current := Finished false |}; {| previous := Some 0; current := Running |} ];
            tail := Some 1 |}.
  assert (Hr : rtc step idle {| calls := [ {| previous := None; current := Finished false |};
    {| previous := Some 0; current := Running |} ]; tail := Some 1 |}).
  { eapply rtc_l; [apply (step_exec _ RunExclusive); reflexivity|]. eapply rtc_l; [apply (step_exec _ RunExclusive); reflexivity|].
    eapply rtc_l; [apply (step_exec _ (StartTask 0)); reflexivity|].
    eapply rtc_l; [apply (step_exec _ (EndTask 0 false)); reflexivity|].
    eapply rtc_l; [apply (step_exec _ (StartTask 1)); reflexivity|]. apply rtc_refl. }
  split; [exact Hr|]. split; [reflexivity|]. exact (proj2 (proj2 (session_operations_serialized _ Hr))).
Defined.
End RepositoryLifecycleCoordinator.
