(* ===== verification/JsBase64.v ===== *)
(** Base64: node's [Buffer.from(text, "base64")] on the texts the clients let
    through, and the pattern they test first.  Bytes are numbers. *)

From Stdlib Require Import ZArith Lia Ascii String List.
From stdpp Require Import base option list strings.
From S2P Require Import Prelude JsString Utf8.

Local Open Scope Z_scope.

(** ** The alphabet *)
Definition ALPHABET : string := "ABCDEFGHIJKLMNOPQRSTUVWXYZabcdefghijklmnopqrstuvwxyz0123456789+/".

Fixpoint index_in (s : string) (c : ascii) : option Z :=
  match s with
  | EmptyString => None
  | String d s' => if bool_decide (c = d) then Some 0 else Z.succ <$> index_in s' c
  end.
(** The value of a character of [[A-Za-z0-9+/]]. *)
Definition digit_value (c : ascii) : option Z := index_in ALPHABET c.
Definition digit_char (d : Z) : ascii := default "A"%char (String.get (Z.to_nat d) ALPHABET).

Definition isDigit64 (c : ascii) : bool := bool_decide (is_Some (digit_value c)).

(** ** The pattern

    [/^(?:[A-Za-z0-9+/]{4})*(?:[A-Za-z0-9+/]{2}==|[A-Za-z0-9+/]{3}=)?$/] *)
Fixpoint isStandardBase64 (s : string) : bool :=
  match s with
  | EmptyString => true
  | String a (String b (String c (String d s'))) =>
      isDigit64 a && isDigit64 b
      && (isDigit64 c && (isDigit64 d && isStandardBase64 s'
                          || bool_decide (d = "="%char) && bool_decide (s' = EmptyString))
          || bool_decide (c = "="%char) && bool_decide (d = "="%char) && bool_decide (s' = EmptyString))
  | _ => false
  end.

(** ** Decoding

    A group of four digits holds three bytes; a digit short of four holds what
    whole bytes it completes, and the bits left over are dropped, as node drops
    them.  Padding ends the text. *)
Definition value64 (c : ascii) : Z := default 0 (digit_value c).

Definition bytes3 (a b c d : Z) : bytes := [a * 4 + b / 16; b mod 16 * 16 + c / 4; c mod 4 * 64 + d].
Definition bytes2 (a b c : Z) : bytes := [a * 4 + b / 16; b mod 16 * 16 + c / 4].
Definition bytes1 (a b : Z) : bytes := [a * 4 + b / 16].

Fixpoint from_base64 (s : string) : bytes :=
  match s with
  | String a (String b (String c (String d s'))) =>
      if bool_decide (c = "="%char) then bytes1 (value64 a) (value64 b)
      else if bool_decide (d = "="%char) then bytes2 (value64 a) (value64 b) (value64 c)
      else (bytes3 (value64 a) (value64 b) (value64 c) (value64 d) ++ from_base64 s')%list
  | _ => []
  end.

(** ** Encoding, as the backend encodes *)
Fixpoint to_base64 (l : bytes) : string :=
  match l with
  | [] => EmptyString
  | [x] => String (digit_char (x / 4)) (String (digit_char (x mod 4 * 16)) "==")
  | [x; y] => String (digit_char (x / 4)) (String (digit_char (x mod 4 * 16 + y / 16)) (String (digit_char (y mod 16 * 4)) "="))
  | x :: y :: z :: l' =>
      String (digit_char (x / 4)) (String (digit_char (x mod 4 * 16 + y / 16))
        (String (digit_char (y mod 16 * 4 + z / 64)) (String (digit_char (z mod 64)) (to_base64 l'))))
  end.

Definition byte (x : Z) : Prop := 0 <= x < 256.

(** ** Lemmas *)
Lemma digit_char_value d : 0 <= d < 64 -> digit_value (digit_char d) = Some d.
Proof.
  intros H. assert (Hall : forallb (fun n => bool_decide (digit_value (digit_char (Z.of_nat n)) = Some (Z.of_nat n))) (seq 0 64) = true)
    by (vm_compute; reflexivity).
  rewrite forallb_forall in Hall. specialize (Hall (Z.to_nat d)).
  rewrite Z2Nat.id in Hall by lia. eapply bool_decide_eq_true_1, Hall. rewrite in_seq. lia.
Qed.
Lemma value_char d : 0 <= d < 64 -> value64 (digit_char d) = d.
Proof. intros H. unfold value64. by rewrite digit_char_value. Qed.
Lemma char_digit d : 0 <= d < 64 -> isDigit64 (digit_char d) = true.
Proof. intros H. unfold isDigit64. rewrite digit_char_value by done. by apply bool_decide_eq_true. Qed.
Lemma char_not_pad d : 0 <= d < 64 -> bool_decide (digit_char d = "="%char) = false.
Proof.
  intros H. apply bool_decide_eq_false. intros E. pose proof (digit_char_value d H) as V. rewrite E in V. vm_compute in V. done.
Qed.

Lemma index_in_range s c v : index_in s c = Some v -> 0 <= v < Z.of_nat (String.length s).
Proof.
  revert v. induction s as [|d s IH]; intros v; cbn [index_in]; [done|].
  case_bool_decide; [intros [= <-]; cbn; lia|]. destruct (index_in s c) as [w|]; [|done].
  intros [= <-]. specialize (IH w eq_refl). cbn [String.length]. lia.
Qed.
Lemma value64_range c : 0 <= value64 c < 64.
Proof.
  unfold value64, digit_value. destruct (index_in ALPHABET c) as [v|] eqn:E; [|cbn; lia]. cbn [default].
  apply index_in_range in E. change (Z.of_nat (String.length ALPHABET)) with 64 in E. done.
Qed.

(** Texts are read four characters at a time, bytes three. *)
Lemma text4_ind (P : string -> Prop) : (forall s, (String.length s < 4)%nat -> P s) ->
  (forall a b c d s, P s -> P (String a (String b (String c (String d s))))) -> forall s, P s.
Proof.
  intros Hshort Hgroup. fix IH 1. intros [|a [|b [|c [|d s]]]]; try (apply Hshort; cbn; lia). apply Hgroup, IH.
Qed.
Lemma bytes3_ind (P : list Z -> Prop) : P [] -> (forall x, P [x]) -> (forall x y, P [x; y]) ->
  (forall x y z l, P l -> P (x :: y :: z :: l)) -> forall l, P l.
Proof.
  intros H0 H1 H2 H3. fix IH 1. intros [|x [|y [|z l]]]; [apply H0|apply H1|apply H2|apply H3, IH].
Qed.

Ltac base64_lia := unfold byte in *; Z.div_mod_to_equations; lia.

Lemma standard_encoded l : Forall byte l -> isStandardBase64 (to_base64 l) = true.
Proof.
  induction l as [|x|x y|x y z l IH] using bytes3_ind; intros Hl; [done|..];
    repeat (apply Forall_cons_1 in Hl as [? Hl]); cbn [to_base64 isStandardBase64].
  - rewrite !char_digit by base64_lia. by vm_compute.
  - rewrite !char_digit by base64_lia. by vm_compute.
  - rewrite !char_digit by base64_lia. by rewrite IH.
Qed.

Lemma decode_encoded l : Forall byte l -> from_base64 (to_base64 l) = l.
Proof.
  induction l as [|x|x y|x y z l IH] using bytes3_ind; intros Hl; [done|..];
    repeat (apply Forall_cons_1 in Hl as [? Hl]); cbn [to_base64 from_base64].
  - rewrite bool_decide_eq_true_2 by done. unfold bytes1. rewrite !value_char by base64_lia. f_equal. base64_lia.
  - rewrite char_not_pad by base64_lia. rewrite bool_decide_eq_true_2 by done. unfold bytes2.
    rewrite !value_char by base64_lia. repeat f_equal; base64_lia.
  - rewrite !char_not_pad by base64_lia. unfold bytes3. rewrite !value_char by base64_lia. rewrite IH by done.
    cbn [app]. repeat f_equal; base64_lia.
Qed.

Lemma decoded_bytes s : Forall byte (from_base64 s).
Proof.
  induction s as [s Hs|a b c d s IH] using text4_ind.
  - do 4 (destruct s as [|? s]; [constructor|]). cbn in Hs. lia.
  - cbn [from_base64]. pose proof (value64_range a). pose proof (value64_range b).
    pose proof (value64_range c). pose proof (value64_range d).
    repeat case_bool_decide; unfold bytes1, bytes2, bytes3; cbn [app]; repeat constructor; try base64_lia. done.
Qed.


Example rfc_vectors :
  map to_base64 (map literal [""; "f"; "fo"; "foo"; "foob"; "fooba"; "foobar"]%string)
  = [""; "Zg=="; "Zm8="; "Zm9v"; "Zm9vYg=="; "Zm9vYmE="; "Zm9vYmFy"]%string.
Proof. by vm_compute. Qed.
(** Two texts of the pattern may hold the same bytes. *)
Example leftover_bits : isStandardBase64 "QR==" = true /\ from_base64 "QR==" = from_base64 "QQ==".
Proof. by vm_compute. Qed.
