(* ===== verification/RpcClient.v ===== *)
(** What the request clients of history, content, properties and checkout have
    in common: the checks on fields that several files spell out alike, and the
    contract of a client.

    A client validates the caller's request, sends it, and validates the answer
    against it.  [send method params] stands for [JsonRpcSender.sendRequest]: the
    raw answer, or what the sender rejects with. *)

From Stdlib Require Import ZArith Lia Ascii String List.
From stdpp Require Import base option list strings.
From S2P Require Import Prelude JsString JsMap JsValue StatusTypes StatusWire OperationTypes.

Local Open Scope string_scope.

Definition sender : Type := string -> js_value -> result (option js_value).

Definition NUL : ascii := "000".
Definition CR : ascii := "013".
Definition LF : ascii := "010".

(** ** Revisions

    The text a regular expression is run on: [RegExp.prototype.exec] turns its
    argument into a string, which for an array of one element is the string of
    that element.  [None] is every other value that is not a string: none of
    their texts matches a pattern that starts with a letter, or that is 36
    characters with four hyphens. *)
Fixpoint pattern_text (v : js_value) : option string :=
  match v with
  | VStr s => Some s
  | VArr [x] => pattern_text x
  | _ => None
  end.
Definition pattern_matches (p : string -> bool) (v : js_value) : bool :=
  match pattern_text v with Some s => p s | None => false end.
(** [s === value] for a string [s]. *)
Definition is_text (s : string) (v : js_value) : bool :=
  match v with VStr t => bool_decide (s = t) | _ => false end.

Definition decimal_digit (c : ascii) : bool := includes "0123456789" c.
Fixpoint all_digits (s : string) : bool :=
  match s with "" => true | String c s' => decimal_digit c && all_digits s' end.
(** [Number(s)] for a text of digits.  Rounding to a double keeps the order, and
    the numbers compared with are exact, so the integer decides the comparison. *)
Definition digit_number (c : ascii) : Z := Z.of_N (N_of_ascii c) - 48.
Fixpoint number_from (acc : Z) (s : string) : Z :=
  match s with "" => acc | String c s' => number_from (acc * 10 + digit_number c) s' end.

(** The letter r and a number without leading zeros, and
    [Number(match[1]) <= MAX_SVN_REVNUM]. *)
Definition isNumberedRevision (revision : string) : bool :=
  match revision with
  | String r digits =>
      bool_decide (r = "r"%char)
      && (bool_decide (digits = "0")
          || match digits with
             | String d rest => decimal_digit d && negb (bool_decide (d = "0"%char)) && all_digits rest
             | "" => false
             end)
      && (number_from 0 digits <=? MAX_SVN_REVNUM)%Z
  | "" => false
  end.
(** One of the names ["base"] and ["head"] that the file allows, or a numbered
    revision. *)
Definition isNamedRevision (names : list string) (revision : string) : bool :=
  bool_decide (revision ∈ names) || isNumberedRevision revision.
(** The same test on a value that may not be a string: the names are compared
    with [===]. *)
Definition isRevisionValue (names : list string) (v : js_value) : bool :=
  existsb (fun name => is_text name v) names || pattern_matches isNumberedRevision v.

(** ** Paths *)
(** The segments of a path relative to the working copy. *)
Definition plain_segments (path : string) : bool := forallb safe_segment (split path slash).

(** [isRepositoryChangedPath] and [isRepositoryPath]: a path in the repository. *)
Definition isRepositoryPath (path : string) : bool :=
  if negb (startsWith path "/") || includes path backslash || includes path NUL then false
  else
    let parts := split path slash in
    if (length parts <? 2)%nat || negb (bool_decide (head parts = Some "")) then false
    else forallb safe_segment (drop 1 parts).

(** ** Fields *)
Section Fields.
Variable invalid : string -> js_error.

Definition requireExactRequestKeys (v : js_value) (expected : list string) : result unit :=
  eachi (fun _ key => require (bool_decide (key ∈ expected)) (invalid key)) (keys v).

(** A string that may be empty, or [null]. *)
Definition requireNullableText (v : option js_value) (f : string) : result (option string) :=
  match v with
  | Some VNull => Ok None
  | Some (VStr s) => Ok (Some s)
  | _ => Throw (invalid f)
  end.

Definition requireIntegerBetween (low high : Z) (v : option js_value) (f : string) : result Z :=
  match v with
  | Some (VNum (NumInt z)) => _ ← require (isSafeInteger z && (low <=? z)%Z && (z <=? high)%Z) (invalid f); Ok z
  | _ => Throw (invalid f)
  end.

Definition requireSvnRevisionNumber (v : option js_value) (f : string) : result Z :=
  revision ← requireNonNegativeInteger invalid v f;
  _ ← require (Z.leb revision MAX_SVN_REVNUM) (invalid f);
  Ok revision.
Definition requireNullableRevisionNumber (v : option js_value) (f : string) : result (option Z) :=
  match v with
  | Some VNull => Ok None
  | _ => z ← requireSvnRevisionNumber v f; Ok (Some z)
  end.

(** A non-empty string that passes [check]. *)
Definition requireChecked (check : string -> bool) (v : option js_value) (f : string) : result string :=
  s ← requireString invalid v f;
  _ ← require (check s) (invalid f);
  Ok s.
Definition requireNullableChecked (check : string -> bool) (v : option js_value) (f : string) : result (option string) :=
  match v with
  | Some VNull => Ok None
  | _ => s ← requireChecked check v f; Ok (Some s)
  end.

(** A revision of a request: one of the names, or what the pattern accepts; it
    is passed on as it is. *)
Definition requireRevisionValue (names : list string) (v : option js_value) (f : string) : result js_value :=
  match v with
  | Some x => _ ← require (isRevisionValue names x) (invalid f); Ok x
  | None => Throw (invalid f)
  end.
End Fields.

(** ** The contract of a client

    [answers r a] is what the client promises of the answer [a] to the request
    [r]; [params] is what it sends for [r] and [encode] the wire form of an
    answer. *)
Record wire_client := {
  client_request : Type;
  client_response : Type;
  client_call : sender -> option js_value -> result client_response;
  client_method : string;
  params : client_request -> js_value;
  encode : client_response -> js_value;
  request_ok : client_request -> Prop;
  answers : client_request -> client_response -> Prop;
}.

(** Whatever the caller passes and the backend answers, what the client returns
    answers a valid request that was sent as such. *)
Definition client_sound (c : wire_client) : Prop :=
  forall send request a, client_call c send request = Ok a ->
    exists r raw, request_ok c r /\ send (client_method c) (params c r) = Ok raw /\ answers c r a.
(** A valid request that the backend answers in wire form is answered. *)
Definition client_complete (c : wire_client) : Prop :=
  forall send r a, request_ok c r -> answers c r a ->
    send (client_method c) (params c r) = Ok (Some (encode c a)) -> client_call c send (Some (params c r)) = Ok a.

(** The four steps of a client. *)
Definition call_client {Req Res} (send : sender) (method : string) (validate : option js_value -> result Req)
    (to_params : Req -> js_value) (parse : option js_value -> result Res) (matches : Res -> Req -> result unit)
    (request : option js_value) : result Res :=
  validatedRequest ← validate request;
  rawResponse ← send method (to_params validatedRequest);
  response ← parse rawResponse;
  _ ← matches response validatedRequest;
  Ok response.
