(* ===== verification/HistoryClients.v ===== *)
(** history/historyLogRpcClient.ts and history/historyBlameRpcClient.ts. *)

From Stdlib Require Import ZArith String List Ascii.
From stdpp Require Import base option list strings.
From S2P Require Import Prelude JsString JsMap JsValue JsBase64 StatusTypes StatusWire OperationTypes RpcClient.

Local Open Scope string_scope.

Module HistoryLogRpcClient.

Definition MAX_HISTORY_LIMIT : Z := 500.
Inductive HistoryTristate := TriTrue | TriFalse | TriUnknown.

Record ValidatedHistoryLogRequest := {
  req_repositoryId : string; req_epoch : Z; req_path : string;
  req_startRevision : js_value; req_endRevision : js_value; req_limit : Z;
  req_discoverChangedPaths : bool; req_strictNodeHistory : bool; req_includeMergedRevisions : bool;
}.
Record HistoryChangedPath := {
  changed_path : string; changed_action : string; copyFromPath : option string; copyFromRevision : option Z;
  changed_nodeKind : string; textModified : HistoryTristate; propertiesModified : HistoryTristate;
}.
Record HistoryLogEntry := {
  entry_revision : Z; entry_author : option string; entry_date : option string; entry_message : option string;
  changedPaths : list HistoryChangedPath; hasChildren : bool; nonInheritable : bool; subtractiveMerge : bool;
}.
Record HistoryLog := {
  log_repositoryId : string; log_epoch : Z; log_path : string; log_startRevision : string; log_endRevision : string;
  log_limit : Z; log_entries : list HistoryLogEntry; log_source : string;
}.

Definition invalidHistoryRequest (f : string) : js_error :=
  StructuredError "HistoryLogResponseError" "SUBVERSIONR_HISTORY_LOG_REQUEST_INVALID" "input"
    "error.history.logRequestInvalid" [("field", ArgString f)].
Definition invalidHistoryResponse (f : string) : js_error :=
  StructuredError "HistoryLogResponseError" "SUBVERSIONR_HISTORY_LOG_RESPONSE_INVALID" "protocol"
    "error.history.logResponseInvalid" [("field", ArgString f)].

Definition isHistoryPath (path : string) : bool :=
  if bool_decide (path = ".") then true
  else if negb (isNonEmptyString path) then false
  else if startsWith path "/" || includes path ":" || includes path backslash || includes path NUL then false
  else plain_segments path.
Definition isHistoryStartRevision : string -> bool := isNamedRevision ["head"].
Definition isHistoryNumberedRevision : string -> bool := isNumberedRevision.
Definition isChangedAction (action : string) : bool :=
  match action with
  | String c "" => ((65 <=? N_of_ascii c) && (N_of_ascii c <=? 90))%N
  | _ => false
  end.
Definition isNodeKind (kind : string) : bool := bool_decide (kind ∈ ["none"; "file"; "dir"; "unknown"]).

Definition tristate_name (t : HistoryTristate) : string :=
  match t with TriTrue => "true" | TriFalse => "false" | TriUnknown => "unknown" end.
Definition requireTristate (v : option js_value) (f : string) : result HistoryTristate :=
  match v with
  | Some (VStr s) =>
      if bool_decide (s = "true") then Ok TriTrue
      else if bool_decide (s = "false") then Ok TriFalse
      else if bool_decide (s = "unknown") then Ok TriUnknown
      else Throw (invalidHistoryResponse f)
  | _ => Throw (invalidHistoryResponse f)
  end.

Definition requireRecord := StatusWire.requireRecord invalidHistoryResponse.
Definition requireExactKeys := StatusWire.requireExactKeys invalidHistoryResponse.
Definition requireNonEmptyString := requireString invalidHistoryResponse.
Definition requireNullableString := requireNullableText invalidHistoryResponse.
Definition requireSafeInteger := requireNonNegativeInteger invalidHistoryResponse.
Definition requireSvnRevisionNumber := RpcClient.requireSvnRevisionNumber invalidHistoryResponse.
Definition requireNullableRevisionNumber := RpcClient.requireNullableRevisionNumber invalidHistoryResponse.
Definition requireBoolean := StatusWire.requireBoolean invalidHistoryResponse.
Definition requireHistoryPath := requireChecked invalidHistoryResponse isHistoryPath.
Definition requireHistoryStartRevision := requireChecked invalidHistoryResponse isHistoryStartRevision.
Definition requireHistoryNumberedRevision := requireChecked invalidHistoryResponse isHistoryNumberedRevision.
Definition requireChangedPath := requireChecked invalidHistoryResponse isRepositoryPath.
Definition requireNullableChangedPath := requireNullableChecked invalidHistoryResponse isRepositoryPath.
Definition requireChangedAction := requireChecked invalidHistoryResponse isChangedAction.
Definition requireNodeKind := requireChecked invalidHistoryResponse isNodeKind.

Definition requireHistoryLimit (v : option js_value) (f : string) : result Z :=
  limit ← requireSafeInteger v f;
  _ ← require (negb ((limit <? 1) || (MAX_HISTORY_LIMIT <? limit))%Z) (invalidHistoryResponse f);
  Ok limit.

Definition LOG_REQUEST_KEYS : list string :=
  ["repositoryId"; "epoch"; "path"; "startRevision"; "endRevision"; "limit"; "discoverChangedPaths";
   "strictNodeHistory"; "includeMergedRevisions"].

(** Each field of the request is tested in place; the tests are those of the
    field parsers, with the error of a request. *)
Definition validateHistoryLogRequest (request : option js_value) : result ValidatedHistoryLogRequest :=
  r ← StatusWire.requireRecord invalidHistoryRequest request "request";
  _ ← requireExactRequestKeys invalidHistoryRequest r LOG_REQUEST_KEYS;
  repositoryId ← requireString invalidHistoryRequest (field r "repositoryId") "repositoryId";
  epoch ← requireNonNegativeInteger invalidHistoryRequest (field r "epoch") "epoch";
  path ← requireChecked invalidHistoryRequest isHistoryPath (field r "path") "path";
  startRevision ← requireRevisionValue invalidHistoryRequest ["head"] (field r "startRevision") "startRevision";
  endRevision ← requireRevisionValue invalidHistoryRequest [] (field r "endRevision") "endRevision";
  limit ← requireIntegerBetween invalidHistoryRequest 1 MAX_HISTORY_LIMIT (field r "limit") "limit";
  discoverChangedPaths ← StatusWire.requireBoolean invalidHistoryRequest (field r "discoverChangedPaths") "discoverChangedPaths";
  strictNodeHistory ← StatusWire.requireBoolean invalidHistoryRequest (field r "strictNodeHistory") "strictNodeHistory";
  includeMergedRevisions ← StatusWire.requireBoolean invalidHistoryRequest (field r "includeMergedRevisions") "includeMergedRevisions";
  Ok {| req_repositoryId := repositoryId; req_epoch := epoch; req_path := path; req_startRevision := startRevision;
        req_endRevision := endRevision; req_limit := limit; req_discoverChangedPaths := discoverChangedPaths;
        req_strictNodeHistory := strictNodeHistory; req_includeMergedRevisions := includeMergedRevisions |}.

Definition parseHistoryChangedPath (value : js_value) (f : string) : result HistoryChangedPath :=
  changedPath ← requireRecord (Some value) f;
  _ ← requireExactKeys changedPath f
        ["path"; "action"; "copyFromPath"; "copyFromRevision"; "nodeKind"; "textModified"; "propertiesModified"];
  copyFromPath ← requireNullableChangedPath (field changedPath "copyFromPath") (dot f "copyFromPath");
  copyFromRevision ← requireNullableRevisionNumber (field changedPath "copyFromRevision") (dot f "copyFromRevision");
  _ ← require (Bool.eqb (bool_decide (copyFromPath = None)) (bool_decide (copyFromRevision = None)))
        (invalidHistoryResponse (dot f "copyFromPath"));
  path ← requireChangedPath (field changedPath "path") (dot f "path");
  action ← requireChangedAction (field changedPath "action") (dot f "action");
  nodeKind ← requireNodeKind (field changedPath "nodeKind") (dot f "nodeKind");
  textModified ← requireTristate (field changedPath "textModified") (dot f "textModified");
  propertiesModified ← requireTristate (field changedPath "propertiesModified") (dot f "propertiesModified");
  Ok {| changed_path := path; changed_action := action; copyFromPath := copyFromPath; copyFromRevision := copyFromRevision;
        changed_nodeKind := nodeKind; textModified := textModified; propertiesModified := propertiesModified |}.

Definition requireHistoryChangedPaths (v : option js_value) (f : string) : result (list HistoryChangedPath) :=
  items ← requireArray invalidHistoryResponse v f;
  mapi (fun index changedPath => parseHistoryChangedPath changedPath (at_index f index)) items.

Definition parseHistoryEntry (value : js_value) (f : string) : result HistoryLogEntry :=
  entry ← requireRecord (Some value) f;
  _ ← requireExactKeys entry f
        ["revision"; "author"; "date"; "message"; "changedPaths"; "hasChildren"; "nonInheritable"; "subtractiveMerge"];
  revision ← requireSvnRevisionNumber (field entry "revision") (dot f "revision");
  author ← requireNullableString (field entry "author") (dot f "author");
  date ← requireNullableString (field entry "date") (dot f "date");
  message ← requireNullableString (field entry "message") (dot f "message");
  changedPaths ← requireHistoryChangedPaths (field entry "changedPaths") (dot f "changedPaths");
  hasChildren ← requireBoolean (field entry "hasChildren") (dot f "hasChildren");
  nonInheritable ← requireBoolean (field entry "nonInheritable") (dot f "nonInheritable");
  subtractiveMerge ← requireBoolean (field entry "subtractiveMerge") (dot f "subtractiveMerge");
  Ok {| entry_revision := revision; entry_author := author; entry_date := date; entry_message := message;
        changedPaths := changedPaths; hasChildren := hasChildren; nonInheritable := nonInheritable;
        subtractiveMerge := subtractiveMerge |}.

Definition requireHistoryEntries (v : option js_value) (f : string) : result (list HistoryLogEntry) :=
  items ← requireArray invalidHistoryResponse v f;
  mapi (fun index entry => parseHistoryEntry entry (at_index f index)) items.

Definition parseHistoryLogResponse (rawResponse : option js_value) : result HistoryLog :=
  response ← requireRecord rawResponse "result";
  _ ← requireExactKeys response "result"
        ["repositoryId"; "epoch"; "path"; "startRevision"; "endRevision"; "limit"; "entries"; "source"];
  repositoryId ← requireNonEmptyString (field response "repositoryId") "repositoryId";
  epoch ← requireSafeInteger (field response "epoch") "epoch";
  path ← requireHistoryPath (field response "path") "path";
  startRevision ← requireHistoryStartRevision (field response "startRevision") "startRevision";
  endRevision ← requireHistoryNumberedRevision (field response "endRevision") "endRevision";
  limit ← requireHistoryLimit (field response "limit") "limit";
  entries ← requireHistoryEntries (field response "entries") "entries";
  source ← requireNonEmptyString (field response "source") "source";
  Ok {| log_repositoryId := repositoryId; log_epoch := epoch; log_path := path; log_startRevision := startRevision;
        log_endRevision := endRevision; log_limit := limit; log_entries := entries; log_source := source |}.

Definition requireHistoryLogMatchesRequest (log : HistoryLog) (request : ValidatedHistoryLogRequest) : result unit :=
  _ ← require (bool_decide (log_repositoryId log = req_repositoryId request)) (invalidHistoryResponse "repositoryId");
  _ ← require (Z.eqb (log_epoch log) (req_epoch request)) (invalidHistoryResponse "epoch");
  _ ← require (bool_decide (log_path log = req_path request)) (invalidHistoryResponse "path");
  _ ← require (is_text (log_startRevision log) (req_startRevision request)) (invalidHistoryResponse "startRevision");
  _ ← require (is_text (log_endRevision log) (req_endRevision request)) (invalidHistoryResponse "endRevision");
  _ ← require (Z.eqb (log_limit log) (req_limit request)) (invalidHistoryResponse "limit");
  require (bool_decide (log_source log = "libsvn-log")) (invalidHistoryResponse "source").

(** The validated request as the sender gets it. *)
Definition log_params (r : ValidatedHistoryLogRequest) : js_value :=
  VObj [("repositoryId", VStr (req_repositoryId r)); ("epoch", VNum (NumInt (req_epoch r))); ("path", VStr (req_path r));
        ("startRevision", req_startRevision r); ("endRevision", req_endRevision r); ("limit", VNum (NumInt (req_limit r)));
        ("discoverChangedPaths", VBool (req_discoverChangedPaths r)); ("strictNodeHistory", VBool (req_strictNodeHistory r));
        ("includeMergedRevisions", VBool (req_includeMergedRevisions r))].

Definition getLog (send : sender) (request : option js_value) : result HistoryLog :=
  call_client send "history/log" validateHistoryLogRequest log_params parseHistoryLogResponse requireHistoryLogMatchesRequest request.

End HistoryLogRpcClient.

Module HistoryBlameRpcClient.

Definition MAX_BLAME_LINE_LIMIT : Z := 5000.
Inductive HistoryBlameIgnoreWhitespace := IgnoreNone | IgnoreChange | IgnoreAll.

Record ValidatedHistoryBlameRequest := {
  req_repositoryId : string; req_epoch : Z; req_path : string;
  req_pegRevision : js_value; req_startRevision : js_value; req_endRevision : js_value;
  req_lineStart : Z; req_lineLimit : Z; req_ignoreWhitespace : HistoryBlameIgnoreWhitespace;
  req_ignoreEolStyle : bool; req_ignoreMimeType : bool; req_includeMergedRevisions : bool;
}.
Record HistoryBlameLine := {
  lineNumber : Z; line_revision : option Z; line_author : option string; line_date : option string;
  mergedRevision : option Z; mergedAuthor : option string; mergedDate : option string; mergedPath : option string;
  lineBase64 : string; line_byteLength : Z; localChange : bool;
}.
Record HistoryBlame := {
  blame_repositoryId : string; blame_epoch : Z; blame_path : string;
  blame_pegRevision : string; blame_startRevision : string; blame_endRevision : string;
  resolvedStartRevision : Z; resolvedEndRevision : Z; blame_lineStart : Z; blame_lineLimit : Z;
  blame_ignoreWhitespace : HistoryBlameIgnoreWhitespace; blame_ignoreEolStyle : bool; blame_ignoreMimeType : bool;
  blame_includeMergedRevisions : bool; hasMore : bool; blame_lines : list HistoryBlameLine; blame_source : string;
}.

Definition invalidBlameRequest (f : string) : js_error :=
  StructuredError "HistoryBlameResponseError" "SUBVERSIONR_HISTORY_BLAME_REQUEST_INVALID" "input"
    "error.history.blameRequestInvalid" [("field", ArgString f)].
Definition invalidBlameResponse (f : string) : js_error :=
  StructuredError "HistoryBlameResponseError" "SUBVERSIONR_HISTORY_BLAME_RESPONSE_INVALID" "protocol"
    "error.history.blameResponseInvalid" [("field", ArgString f)].

Definition isBlamePath (path : string) : bool :=
  if bool_decide (path = ".") || negb (isNonEmptyString path) then false
  else if startsWith path "/" || includes path ":" || includes path backslash || includes path NUL then false
  else plain_segments path.
Definition isBlamePegOrEndRevision : string -> bool := isNamedRevision ["base"; "head"].
Definition isBlameNumberedRevision : string -> bool := isNumberedRevision.
Definition isCanonicalBase64 : string -> bool := isStandardBase64.

Definition ignoreWhitespace_name (i : HistoryBlameIgnoreWhitespace) : string :=
  match i with IgnoreNone => "none" | IgnoreChange => "change" | IgnoreAll => "all" end.
(** [isIgnoreWhitespace(value)], and the value it is. *)
Definition ignoreWhitespace_of (invalid : string -> js_error) (v : option js_value) (f : string) : result HistoryBlameIgnoreWhitespace :=
  match v with
  | Some (VStr s) =>
      if bool_decide (s = "none") then Ok IgnoreNone
      else if bool_decide (s = "change") then Ok IgnoreChange
      else if bool_decide (s = "all") then Ok IgnoreAll
      else Throw (invalid f)
  | _ => Throw (invalid f)
  end.

Definition requireRecord := StatusWire.requireRecord invalidBlameResponse.
Definition requireExactKeys := StatusWire.requireExactKeys invalidBlameResponse.
Definition requireNonEmptyString := requireString invalidBlameResponse.
Definition requireNullableString := requireNullableText invalidBlameResponse.
Definition requireSafeInteger := requireNonNegativeInteger invalidBlameResponse.
Definition requirePositiveSafeInteger := requireIntegerBetween invalidBlameResponse 1 MAX_SAFE_INTEGER.
Definition requireSvnRevisionNumber := RpcClient.requireSvnRevisionNumber invalidBlameResponse.
Definition requireNullableRevisionNumber := RpcClient.requireNullableRevisionNumber invalidBlameResponse.
Definition requireBoolean := StatusWire.requireBoolean invalidBlameResponse.
Definition requireBlamePath := requireChecked invalidBlameResponse isBlamePath.
Definition requireBlamePegOrEndRevision := requireChecked invalidBlameResponse isBlamePegOrEndRevision.
Definition requireBlameNumberedRevision := requireChecked invalidBlameResponse isBlameNumberedRevision.
Definition requireIgnoreWhitespace := ignoreWhitespace_of invalidBlameResponse.
Definition requireNullableRepositoryPath := requireNullableChecked invalidBlameResponse isRepositoryPath.

Definition requireLineStart (v : option js_value) (f : string) : result Z :=
  lineStart ← requirePositiveSafeInteger v f;
  _ ← require (Z.leb lineStart (MAX_SAFE_INTEGER - MAX_BLAME_LINE_LIMIT)) (invalidBlameResponse f);
  Ok lineStart.
Definition requireLineLimit (v : option js_value) (f : string) : result Z :=
  lineLimit ← requirePositiveSafeInteger v f;
  _ ← require (Z.leb lineLimit MAX_BLAME_LINE_LIMIT) (invalidBlameResponse f);
  Ok lineLimit.
Definition requireBase64 (v : option js_value) (f : string) : result string :=
  match v with
  | Some (VStr s) => _ ← require (isCanonicalBase64 s) (invalidBlameResponse f); Ok s
  | _ => Throw (invalidBlameResponse f)
  end.

Definition BLAME_REQUEST_KEYS : list string :=
  ["repositoryId"; "epoch"; "path"; "pegRevision"; "startRevision"; "endRevision"; "lineStart"; "lineLimit";
   "ignoreWhitespace"; "ignoreEolStyle"; "ignoreMimeType"; "includeMergedRevisions"].

Definition validateHistoryBlameRequest (request : option js_value) : result ValidatedHistoryBlameRequest :=
  r ← StatusWire.requireRecord invalidBlameRequest request "request";
  _ ← requireExactRequestKeys invalidBlameRequest r BLAME_REQUEST_KEYS;
  repositoryId ← requireString invalidBlameRequest (field r "repositoryId") "repositoryId";
  epoch ← requireNonNegativeInteger invalidBlameRequest (field r "epoch") "epoch";
  path ← requireChecked invalidBlameRequest isBlamePath (field r "path") "path";
  pegRevision ← requireRevisionValue invalidBlameRequest ["base"; "head"] (field r "pegRevision") "pegRevision";
  startRevision ← requireRevisionValue invalidBlameRequest [] (field r "startRevision") "startRevision";
  endRevision ← requireRevisionValue invalidBlameRequest ["base"; "head"] (field r "endRevision") "endRevision";
  lineStart ← requireIntegerBetween invalidBlameRequest 1 (MAX_SAFE_INTEGER - MAX_BLAME_LINE_LIMIT) (field r "lineStart") "lineStart";
  lineLimit ← requireIntegerBetween invalidBlameRequest 1 MAX_BLAME_LINE_LIMIT (field r "lineLimit") "lineLimit";
  ignoreWhitespace ← ignoreWhitespace_of invalidBlameRequest (field r "ignoreWhitespace") "ignoreWhitespace";
  ignoreEolStyle ← StatusWire.requireBoolean invalidBlameRequest (field r "ignoreEolStyle") "ignoreEolStyle";
  ignoreMimeType ← StatusWire.requireBoolean invalidBlameRequest (field r "ignoreMimeType") "ignoreMimeType";
  includeMergedRevisions ← StatusWire.requireBoolean invalidBlameRequest (field r "includeMergedRevisions") "includeMergedRevisions";
  Ok {| req_repositoryId := repositoryId; req_epoch := epoch; req_path := path; req_pegRevision := pegRevision;
        req_startRevision := startRevision; req_endRevision := endRevision; req_lineStart := lineStart;
        req_lineLimit := lineLimit; req_ignoreWhitespace := ignoreWhitespace; req_ignoreEolStyle := ignoreEolStyle;
        req_ignoreMimeType := ignoreMimeType; req_includeMergedRevisions := includeMergedRevisions |}.

Definition parseBlameLine (value : js_value) (f : string) : result HistoryBlameLine :=
  line ← requireRecord (Some value) f;
  _ ← requireExactKeys line f
        ["lineNumber"; "revision"; "author"; "date"; "mergedRevision"; "mergedAuthor"; "mergedDate"; "mergedPath";
         "lineBase64"; "byteLength"; "localChange"];
  lineBase64 ← requireBase64 (field line "lineBase64") (dot f "lineBase64");
  byteLength ← requireSafeInteger (field line "byteLength") (dot f "byteLength");
  _ ← require (Z.eqb byteLength (Z.of_nat (length (from_base64 lineBase64)))) (invalidBlameResponse (dot f "byteLength"));
  lineNumber ← requirePositiveSafeInteger (field line "lineNumber") (dot f "lineNumber");
  revision ← requireNullableRevisionNumber (field line "revision") (dot f "revision");
  author ← requireNullableString (field line "author") (dot f "author");
  date ← requireNullableString (field line "date") (dot f "date");
  mergedRevision ← requireNullableRevisionNumber (field line "mergedRevision") (dot f "mergedRevision");
  mergedAuthor ← requireNullableString (field line "mergedAuthor") (dot f "mergedAuthor");
  mergedDate ← requireNullableString (field line "mergedDate") (dot f "mergedDate");
  mergedPath ← requireNullableRepositoryPath (field line "mergedPath") (dot f "mergedPath");
  localChange ← requireBoolean (field line "localChange") (dot f "localChange");
  Ok {| lineNumber := lineNumber; line_revision := revision; line_author := author; line_date := date;
        mergedRevision := mergedRevision; mergedAuthor := mergedAuthor; mergedDate := mergedDate; mergedPath := mergedPath;
        lineBase64 := lineBase64; line_byteLength := byteLength; localChange := localChange |}.

Definition requireBlameLines (v : option js_value) (f : string) : result (list HistoryBlameLine) :=
  items ← requireArray invalidBlameResponse v f;
  mapi (fun index line => parseBlameLine line (at_index f index)) items.

Definition BLAME_KEYS : list string :=
  ["repositoryId"; "epoch"; "path"; "pegRevision"; "startRevision"; "endRevision"; "resolvedStartRevision";
   "resolvedEndRevision"; "lineStart"; "lineLimit"; "ignoreWhitespace"; "ignoreEolStyle"; "ignoreMimeType";
   "includeMergedRevisions"; "hasMore"; "lines"; "source"].

Definition parseHistoryBlameResponse (rawResponse : option js_value) : result HistoryBlame :=
  response ← requireRecord rawResponse "result";
  _ ← requireExactKeys response "result" BLAME_KEYS;
  repositoryId ← requireNonEmptyString (field response "repositoryId") "repositoryId";
  epoch ← requireSafeInteger (field response "epoch") "epoch";
  path ← requireBlamePath (field response "path") "path";
  pegRevision ← requireBlamePegOrEndRevision (field response "pegRevision") "pegRevision";
  startRevision ← requireBlameNumberedRevision (field response "startRevision") "startRevision";
  endRevision ← requireBlamePegOrEndRevision (field response "endRevision") "endRevision";
  resolvedStart ← requireSvnRevisionNumber (field response "resolvedStartRevision") "resolvedStartRevision";
  resolvedEnd ← requireSvnRevisionNumber (field response "resolvedEndRevision") "resolvedEndRevision";
  lineStart ← requireLineStart (field response "lineStart") "lineStart";
  lineLimit ← requireLineLimit (field response "lineLimit") "lineLimit";
  ignoreWhitespace ← requireIgnoreWhitespace (field response "ignoreWhitespace") "ignoreWhitespace";
  ignoreEolStyle ← requireBoolean (field response "ignoreEolStyle") "ignoreEolStyle";
  ignoreMimeType ← requireBoolean (field response "ignoreMimeType") "ignoreMimeType";
  includeMergedRevisions ← requireBoolean (field response "includeMergedRevisions") "includeMergedRevisions";
  hasMore ← requireBoolean (field response "hasMore") "hasMore";
  lines ← requireBlameLines (field response "lines") "lines";
  source ← requireNonEmptyString (field response "source") "source";
  Ok {| blame_repositoryId := repositoryId; blame_epoch := epoch; blame_path := path; blame_pegRevision := pegRevision;
        blame_startRevision := startRevision; blame_endRevision := endRevision; resolvedStartRevision := resolvedStart;
        resolvedEndRevision := resolvedEnd; blame_lineStart := lineStart; blame_lineLimit := lineLimit;
        blame_ignoreWhitespace := ignoreWhitespace; blame_ignoreEolStyle := ignoreEolStyle;
        blame_ignoreMimeType := ignoreMimeType; blame_includeMergedRevisions := includeMergedRevisions;
        hasMore := hasMore; blame_lines := lines; blame_source := source |}.

(** The loop over the lines with its [expectedLine]. *)
Fixpoint line_window (stop : Z) (expectedLine : Z) (lines : list HistoryBlameLine) : result unit :=
  match lines with
  | [] => Ok tt
  | line :: lines' =>
      _ ← require (negb (negb (Z.eqb (lineNumber line) expectedLine) || (stop <=? lineNumber line)%Z))
            (invalidBlameResponse "lines.lineNumber");
      line_window stop (expectedLine + 1) lines'
  end.
Definition requireLineWindow (blame : HistoryBlame) : result unit :=
  _ ← require (Z.leb (Z.of_nat (length (blame_lines blame))) (blame_lineLimit blame)) (invalidBlameResponse "lines");
  line_window (blame_lineStart blame + blame_lineLimit blame) (blame_lineStart blame) (blame_lines blame).

Definition whitespace_eqb (i j : HistoryBlameIgnoreWhitespace) : bool :=
  bool_decide (ignoreWhitespace_name i = ignoreWhitespace_name j).

Definition requireHistoryBlameMatchesRequest (blame : HistoryBlame) (request : ValidatedHistoryBlameRequest) : result unit :=
  _ ← require (bool_decide (blame_repositoryId blame = req_repositoryId request)) (invalidBlameResponse "repositoryId");
  _ ← require (Z.eqb (blame_epoch blame) (req_epoch request)) (invalidBlameResponse "epoch");
  _ ← require (bool_decide (blame_path blame = req_path request)) (invalidBlameResponse "path");
  _ ← require (is_text (blame_pegRevision blame) (req_pegRevision request)) (invalidBlameResponse "pegRevision");
  _ ← require (is_text (blame_startRevision blame) (req_startRevision request)) (invalidBlameResponse "startRevision");
  _ ← require (is_text (blame_endRevision blame) (req_endRevision request)) (invalidBlameResponse "endRevision");
  _ ← require (Z.eqb (blame_lineStart blame) (req_lineStart request)) (invalidBlameResponse "lineStart");
  _ ← require (Z.eqb (blame_lineLimit blame) (req_lineLimit request)) (invalidBlameResponse "lineLimit");
  _ ← require (whitespace_eqb (blame_ignoreWhitespace blame) (req_ignoreWhitespace request)) (invalidBlameResponse "ignoreWhitespace");
  _ ← require (Bool.eqb (blame_ignoreEolStyle blame) (req_ignoreEolStyle request)) (invalidBlameResponse "ignoreEolStyle");
  _ ← require (Bool.eqb (blame_ignoreMimeType blame) (req_ignoreMimeType request)) (invalidBlameResponse "ignoreMimeType");
  _ ← require (Bool.eqb (blame_includeMergedRevisions blame) (req_includeMergedRevisions request))
        (invalidBlameResponse "includeMergedRevisions");
  _ ← require (bool_decide (blame_source blame = "libsvn-blame")) (invalidBlameResponse "source");
  requireLineWindow blame.

Definition blame_params (r : ValidatedHistoryBlameRequest) : js_value :=
  VObj [("repositoryId", VStr (req_repositoryId r)); ("epoch", VNum (NumInt (req_epoch r))); ("path", VStr (req_path r));
        ("pegRevision", req_pegRevision r); ("startRevision", req_startRevision r); ("endRevision", req_endRevision r);
        ("lineStart", VNum (NumInt (req_lineStart r))); ("lineLimit", VNum (NumInt (req_lineLimit r)));
        ("ignoreWhitespace", VStr (ignoreWhitespace_name (req_ignoreWhitespace r)));
        ("ignoreEolStyle", VBool (req_ignoreEolStyle r)); ("ignoreMimeType", VBool (req_ignoreMimeType r));
        ("includeMergedRevisions", VBool (req_includeMergedRevisions r))].

Definition getBlame (send : sender) (request : option js_value) : result HistoryBlame :=
  call_client send "history/blame" validateHistoryBlameRequest blame_params parseHistoryBlameResponse
    requireHistoryBlameMatchesRequest request.

End HistoryBlameRpcClient.
