(* ===== verification/ContentClients.v ===== *)
(** content/contentGetRpcClient.ts, properties/propertiesListRpcClient.ts and
    repository/repositoryCheckoutRpcClient.ts. *)

From Stdlib Require Import ZArith String List Ascii.
From stdpp Require Import base option list strings.
From S2P Require Import Prelude JsString JsMap JsValue Utf8 JsBase64 StatusTypes StatusWire OperationTypes OperationClient SessionTypes RpcClient.

Local Open Scope string_scope.

Module ContentGetRpcClient.

Record ValidatedContentGetRequest := { req_repositoryId : string; req_epoch : Z; req_path : string; req_revision : js_value }.
Record ContentBlob := {
  blob_repositoryId : string; blob_epoch : Z; blob_path : string; blob_revision : string; blob_bytes : bytes;
  blob_byteLength : Z; mimeType : option string; isBinary : bool; blob_source : string;
}.

Definition invalidContentRequest (f : string) : js_error :=
  StructuredError "ContentResponseError" "SUBVERSIONR_CONTENT_REQUEST_INVALID" "input"
    "error.content.requestInvalid" [("field", ArgString f)].
Definition invalidContentResponse (f : string) : js_error :=
  StructuredError "ContentResponseError" "SUBVERSIONR_CONTENT_RESPONSE_INVALID" "protocol"
    "error.content.responseInvalid" [("field", ArgString f)].

(** Here a backslash is read as a slash. *)
Definition isContentPath (path : string) : bool :=
  if bool_decide (path = ".") || negb (isNonEmptyString path) then false
  else
    let normalized := replaceAll path backslash slash in
    if startsWith normalized "/" || includes normalized ":" || includes normalized NUL then false
    else plain_segments normalized.
Definition isContentRevision : string -> bool := isNamedRevision ["base"; "head"].

Definition expectedContentSource (revision : js_value) : string :=
  if is_text "base" revision then "libsvn-base"
  else if is_text "head" revision then "libsvn-head"
  else "libsvn-revision".

Definition requireRecord := StatusWire.requireRecord invalidContentResponse.
Definition requireExactKeys := StatusWire.requireExactKeys invalidContentResponse.
Definition requireString := StatusWire.requireString invalidContentResponse.
Definition requireNullableString := StatusWire.requireNullableString invalidContentResponse.
Definition requireSafeInteger := requireNonNegativeInteger invalidContentResponse.
Definition requireBoolean := StatusWire.requireBoolean invalidContentResponse.
Definition requireRevision := requireChecked invalidContentResponse isContentRevision.
Definition requireContentPath := requireChecked invalidContentResponse isContentPath.

Definition requireBase64Bytes (v : option js_value) (f : string) (expectedByteLength : Z) : result bytes :=
  match v with
  | Some (VStr encoded) =>
      _ ← require (isStandardBase64 encoded) (invalidContentResponse f);
      let bytes := from_base64 encoded in
      _ ← require (Z.eqb (Z.of_nat (length bytes)) expectedByteLength) (invalidContentResponse f);
      Ok bytes
  | _ => Throw (invalidContentResponse f)
  end.

(** A request that is no object, or has no repository id, is refused before its
    keys are looked at. *)
Definition validateContentRequest (request : option js_value) : result ValidatedContentGetRequest :=
  r ← StatusWire.requireRecord invalidContentRequest request "repositoryId";
  repositoryId ← StatusWire.requireString invalidContentRequest (field r "repositoryId") "repositoryId";
  _ ← requireExactRequestKeys invalidContentRequest r ["repositoryId"; "epoch"; "path"; "revision"];
  epoch ← requireNonNegativeInteger invalidContentRequest (field r "epoch") "epoch";
  path ← requireChecked invalidContentRequest isContentPath (field r "path") "path";
  revision ← requireRevisionValue invalidContentRequest ["base"; "head"] (field r "revision") "revision";
  Ok {| req_repositoryId := repositoryId; req_epoch := epoch; req_path := path; req_revision := revision |}.

Definition CONTENT_KEYS : list string :=
  ["repositoryId"; "epoch"; "path"; "revision"; "contentBase64"; "byteLength"; "mimeType"; "isBinary"; "source"].

Definition parseContentResponse (rawResponse : option js_value) : result ContentBlob :=
  response ← requireRecord rawResponse "result";
  _ ← requireExactKeys response "result" CONTENT_KEYS;
  byteLength ← requireSafeInteger (field response "byteLength") "byteLength";
  bytes ← requireBase64Bytes (field response "contentBase64") "contentBase64" byteLength;
  repositoryId ← requireString (field response "repositoryId") "repositoryId";
  epoch ← requireSafeInteger (field response "epoch") "epoch";
  path ← requireContentPath (field response "path") "path";
  revision ← requireRevision (field response "revision") "revision";
  mimeType ← requireNullableString (field response "mimeType") "mimeType";
  isBinary ← requireBoolean (field response "isBinary") "isBinary";
  source ← requireString (field response "source") "source";
  Ok {| blob_repositoryId := repositoryId; blob_epoch := epoch; blob_path := path; blob_revision := revision;
        blob_bytes := bytes; blob_byteLength := byteLength; mimeType := mimeType; isBinary := isBinary; blob_source := source |}.

Definition requireContentMatchesRequest (content : ContentBlob) (request : ValidatedContentGetRequest) : result unit :=
  _ ← require (bool_decide (blob_repositoryId content = req_repositoryId request)) (invalidContentResponse "repositoryId");
  _ ← require (Z.eqb (blob_epoch content) (req_epoch request)) (invalidContentResponse "epoch");
  _ ← require (bool_decide (blob_path content = req_path request)) (invalidContentResponse "path");
  _ ← require (is_text (blob_revision content) (req_revision request)) (invalidContentResponse "revision");
  require (bool_decide (blob_source content = expectedContentSource (req_revision request))) (invalidContentResponse "source").

Definition content_params (r : ValidatedContentGetRequest) : js_value :=
  VObj [("repositoryId", VStr (req_repositoryId r)); ("epoch", VNum (NumInt (req_epoch r))); ("path", VStr (req_path r));
        ("revision", req_revision r)].

Definition getContent (send : sender) (request : option js_value) : result ContentBlob :=
  call_client send "content/get" validateContentRequest content_params parseContentResponse requireContentMatchesRequest request.

End ContentGetRpcClient.

Module PropertiesListRpcClient.

Record PropertiesListRequest := { req_repositoryId : string; req_epoch : Z; req_path : string }.
(** [valueEncoding] is always "utf8" and [source] always "libsvn-local". *)
Record PropertyEntry := { property_name : string; property_value : string }.
Record PropertiesListResponse := {
  list_repositoryId : string; list_epoch : Z; list_path : string; list_properties : list PropertyEntry;
}.

Definition invalidPropertiesRequest (f : string) : js_error :=
  StructuredError "PropertiesListResponseError" "SUBVERSIONR_PROPERTIES_LIST_REQUEST_INVALID" "input"
    "error.properties.listRequestInvalid" [("field", ArgString f)].
Definition invalidPropertiesResponse (f : string) : js_error :=
  StructuredError "PropertiesListResponseError" "SUBVERSIONR_PROPERTIES_LIST_RESPONSE_INVALID" "protocol"
    "error.properties.listResponseInvalid" [("field", ArgString f)].

(** As the operation client has it. *)
Definition isRepositoryRelativePath : string -> bool := OperationRunRpcClient.isRepositoryRelativePath.

Definition name_char (c : ascii) : bool :=
  let n := N_of_ascii c in
  (((65 <=? n) && (n <=? 90)) || ((97 <=? n) && (n <=? 122)) || ((48 <=? n) && (n <=? 57)))%N || includes "._-" c.
Fixpoint all_chars (p : ascii -> bool) (s : string) : bool :=
  match s with "" => true | String c s' => p c && all_chars p s' end.
Definition isPropertyNamePart (part : string) : bool := negb (bool_decide (part = "")) && all_chars name_char part.
Definition isPropertyName (name : string) : bool :=
  negb (includes name NUL || includes name CR || includes name LF || negb (forallb isPropertyNamePart (split name ":"))).

Definition requireRequestString := requireString invalidPropertiesRequest.
Definition requireResponseString := requireString invalidPropertiesResponse.
Definition requireRequestPath := requireChecked invalidPropertiesRequest isRepositoryRelativePath.
Definition requireResponsePath := requireChecked invalidPropertiesResponse isRepositoryRelativePath.
Definition requireResponseRecord := requireRecord invalidPropertiesResponse.
Definition requireExactResponseKeys := requireExactKeys invalidPropertiesResponse.
Definition requirePropertyName := requireChecked invalidPropertiesResponse isPropertyName.
Definition requirePropertyValue (v : option js_value) (f : string) : result string :=
  match v with
  | Some (VStr s) => _ ← require (negb (includes s NUL || includes s CR)) (invalidPropertiesResponse f); Ok s
  | _ => Throw (invalidPropertiesResponse f)
  end.
(** [requireValueEncoding] and [requireSource]: the one text allowed. *)
Definition requireLiteral (expected : string) (v : option js_value) (f : string) : result unit :=
  s ← requireResponseString v f;
  require (bool_decide (s = expected)) (invalidPropertiesResponse f).
Definition requireValueEncoding := requireLiteral "utf8".
Definition requireSource := requireLiteral "libsvn-local".

Definition validatePropertiesListRequest (request : option js_value) : result PropertiesListRequest :=
  r ← requireRecord invalidPropertiesRequest request "repositoryId";
  _ ← requireExactRequestKeys invalidPropertiesRequest r ["repositoryId"; "epoch"; "path"];
  repositoryId ← requireRequestString (field r "repositoryId") "repositoryId";
  epoch ← requireNonNegativeInteger invalidPropertiesRequest (field r "epoch") "epoch";
  path ← requireRequestPath (field r "path") "path";
  Ok {| req_repositoryId := repositoryId; req_epoch := epoch; req_path := path |}.

Definition parsePropertyEntry (value : js_value) (f : string) : result PropertyEntry :=
  entry ← requireResponseRecord (Some value) f;
  _ ← requireExactResponseKeys entry f ["name"; "value"; "valueEncoding"];
  name ← requirePropertyName (field entry "name") (dot f "name");
  value ← requirePropertyValue (field entry "value") (dot f "value");
  _ ← requireValueEncoding (field entry "valueEncoding") (dot f "valueEncoding");
  Ok {| property_name := name; property_value := value |}.

Definition parsePropertyEntries (v : option js_value) (f : string) : result (list PropertyEntry) :=
  items ← requireArray invalidPropertiesResponse v f;
  mapi (fun index entry => parsePropertyEntry entry (at_index f index)) items.

Definition parsePropertiesListResponse (rawResponse : option js_value) : result PropertiesListResponse :=
  response ← requireResponseRecord rawResponse "result";
  _ ← requireExactResponseKeys response "result" ["repositoryId"; "epoch"; "path"; "properties"; "source"];
  repositoryId ← requireResponseString (field response "repositoryId") "repositoryId";
  epoch ← requireNonNegativeInteger invalidPropertiesResponse (field response "epoch") "epoch";
  path ← requireResponsePath (field response "path") "path";
  properties ← parsePropertyEntries (field response "properties") "properties";
  _ ← requireSource (field response "source") "source";
  Ok {| list_repositoryId := repositoryId; list_epoch := epoch; list_path := path; list_properties := properties |}.

Definition requireResponseMatchesRequest (response : PropertiesListResponse) (request : PropertiesListRequest) : result unit :=
  _ ← require (bool_decide (list_repositoryId response = req_repositoryId request)) (invalidPropertiesResponse "repositoryId");
  _ ← require (Z.eqb (list_epoch response) (req_epoch request)) (invalidPropertiesResponse "epoch");
  require (bool_decide (list_path response = req_path request)) (invalidPropertiesResponse "path").

Definition properties_params (r : PropertiesListRequest) : js_value :=
  VObj [("repositoryId", VStr (req_repositoryId r)); ("epoch", VNum (NumInt (req_epoch r))); ("path", VStr (req_path r))].

Definition listProperties (send : sender) (request : option js_value) : result PropertiesListResponse :=
  call_client send "properties/list" validatePropertiesListRequest properties_params parsePropertiesListResponse
    requireResponseMatchesRequest request.

End PropertiesListRpcClient.

Module RepositoryCheckoutRpcClient.

Inductive RepositoryCheckoutRevision := Head | Revision (z : Z).
Inductive RepositoryCheckoutDepth := Empty | Files | Immediates | Infinity.
Record RepositoryCheckoutRequest := {
  req_url : string; req_targetPath : string; req_revision : RepositoryCheckoutRevision; req_depth : RepositoryCheckoutDepth;
  req_ignoreExternals : bool;
}.
Record RepositoryCheckoutResponse := { workingCopyPath : string; checkout_revision : Z }.

Definition invalidCheckoutRequest (f : string) : js_error :=
  StructuredError "RepositoryCheckoutResponseError" "SUBVERSIONR_REPOSITORY_CHECKOUT_REQUEST_INVALID" "input"
    "error.repository.checkoutRequestInvalid" [("field", ArgString f)].
Definition invalidCheckoutResponse (f : string) : js_error :=
  StructuredError "RepositoryCheckoutResponseError" "SUBVERSIONR_REPOSITORY_CHECKOUT_RESPONSE_INVALID" "protocol"
    "error.repository.checkoutResponseInvalid" [("field", ArgString f)].

Definition isOneLine (s : string) : bool := negb (includes s NUL || includes s CR || includes s LF).
(** [path.isAbsolute] is the one of the two that fits the platform. *)
Definition isAbsolutePath (path : string) : bool := win32_isAbsolute path || posix_isAbsolute path.

(** [invalid] is the constructor that the [source] argument chooses. *)
Section Fields.
Variable invalid : string -> js_error.
Definition requireAbsolutePath := requireChecked invalid (fun path => isAbsolutePath path && isOneLine path).
Definition requireRevisionNumber (v : option js_value) (f : string) : result Z :=
  match v with
  | Some (VNum (NumInt z)) => _ ← require ((0 <=? z) && (z <=? MAX_SVN_REVNUM))%Z (invalid f); Ok z
  | _ => Throw (invalid f)
  end.
Definition requireRevision (v : option js_value) (f : string) : result RepositoryCheckoutRevision :=
  match v with
  | Some (VStr s) => if bool_decide (s = "head") then Ok Head else Throw (invalid f)
  | _ => z ← requireRevisionNumber v f; Ok (Revision z)
  end.
End Fields.

Definition requireCheckoutUrl := requireChecked invalidCheckoutRequest isOneLine.
Definition depth_name (d : RepositoryCheckoutDepth) : string :=
  match d with Empty => "empty" | Files => "files" | Immediates => "immediates" | Infinity => "infinity" end.
Definition requireCheckoutDepth (v : option js_value) (f : string) : result RepositoryCheckoutDepth :=
  depth ← requireString invalidCheckoutRequest v f;
  if bool_decide (depth = "empty") then Ok Empty
  else if bool_decide (depth = "files") then Ok Files
  else if bool_decide (depth = "immediates") then Ok Immediates
  else if bool_decide (depth = "infinity") then Ok Infinity
  else Throw (invalidCheckoutRequest f).

Definition validateCheckoutRequest (request : option js_value) : result RepositoryCheckoutRequest :=
  r ← requireRecord invalidCheckoutRequest request "url";
  _ ← requireExactRequestKeys invalidCheckoutRequest r ["url"; "targetPath"; "revision"; "depth"; "ignoreExternals"];
  url ← requireCheckoutUrl (field r "url") "url";
  targetPath ← requireAbsolutePath invalidCheckoutRequest (field r "targetPath") "targetPath";
  revision ← requireRevision invalidCheckoutRequest (field r "revision") "revision";
  depth ← requireCheckoutDepth (field r "depth") "depth";
  ignoreExternals ← requireBoolean invalidCheckoutRequest (field r "ignoreExternals") "ignoreExternals";
  Ok {| req_url := url; req_targetPath := targetPath; req_revision := revision; req_depth := depth;
        req_ignoreExternals := ignoreExternals |}.

Definition parseCheckoutResponse (rawResponse : option js_value) : result RepositoryCheckoutResponse :=
  response ← requireRecord invalidCheckoutResponse rawResponse "result";
  _ ← requireExactKeys invalidCheckoutResponse response "result" ["workingCopyPath"; "revision"];
  path ← requireAbsolutePath invalidCheckoutResponse (field response "workingCopyPath") "workingCopyPath";
  revision ← requireRevisionNumber invalidCheckoutResponse (field response "revision") "revision";
  Ok {| workingCopyPath := path; checkout_revision := revision |}.

Definition revision_value (r : RepositoryCheckoutRevision) : js_value :=
  match r with Head => VStr "head" | Revision z => VNum (NumInt z) end.
Definition checkout_params (r : RepositoryCheckoutRequest) : js_value :=
  VObj [("url", VStr (req_url r)); ("targetPath", VStr (req_targetPath r)); ("revision", revision_value (req_revision r));
        ("depth", VStr (depth_name (req_depth r))); ("ignoreExternals", VBool (req_ignoreExternals r))].

(** The answer is not compared with the request.  [options] reach the sender
    and nothing else. *)
Definition checkout (send : sender) (request : option js_value) : result RepositoryCheckoutResponse :=
  call_client send "repository/checkout" validateCheckoutRequest checkout_params parseCheckoutResponse (fun _ _ => Ok tt) request.

End RepositoryCheckoutRpcClient.
