(* ===== verification/ClientsFacts.v ===== *)
(** The request clients of history, blame, content, properties and checkout: what
    their checks accept, and that each parser accepts exactly the encodings of
    valid answers. *)

From Stdlib Require Import ZArith Lia Ascii String List.
From stdpp Require Import base option list sets strings.
From S2P Require Import Prelude JsString JsMap JsValue StatusTypes StatusWire StatusWireFacts RefreshRequests Utf8 OperationTypes JsBase64 RpcClient HistoryClients ContentClients.

Local Open Scope string_scope.

Definition revnum_ok (z : Z) : Prop := (0 <= z <= MAX_SVN_REVNUM)%Z.
Definition checked_ok (check : string -> bool) (s : string) : Prop := text_ok s /\ check s = true.
Definition opt_ok {A} (P : A -> Prop) (o : option A) : Prop := match o with Some a => P a | None => True end.

Lemma revnum_count z : revnum_ok z <-> count_ok z /\ Z.leb z MAX_SVN_REVNUM = true.
Proof. unfold revnum_ok, count_ok, MAX_SVN_REVNUM, MAX_SAFE_INTEGER. lia. Qed.

(** ** Revisions *)
Lemma is_text_iff s v : is_text s v = true <-> v = VStr s.
Proof. unfold is_text. destruct v; try naive_solver. rewrite bool_decide_eq_true. naive_solver. Qed.

Lemma numbered_text s : isNumberedRevision s = true -> text_ok s.
Proof.
  unfold text_ok. rewrite isNonEmptyString_space. destruct s as [|c s]; [done|]. cbn [isNumberedRevision all_space].
  intros H. apply andb_prop in H as [H _]. apply andb_prop in H as [->%bool_decide_eq_true_1 _]. done.
Qed.
Lemma named_text names s : Forall text_ok names -> isNamedRevision names s = true -> text_ok s.
Proof.
  unfold isNamedRevision. intros Hn [Hs%bool_decide_eq_true_1|Hs]%orb_prop; [by eapply Forall_forall|by apply numbered_text].
Qed.
(** On a string the test of a request value is the test of a response. *)
Lemma revision_value_string names s : isRevisionValue names (VStr s) = isNamedRevision names s.
Proof.
  unfold isRevisionValue, isNamedRevision. cbn [pattern_matches pattern_text]. f_equal.
  induction names as [|n names IH]; [done|]. cbn [existsb]. rewrite IH. unfold is_text.
  apply Bool.eq_iff_eq_true. rewrite orb_true_iff, !bool_decide_eq_true, elem_of_cons. naive_solver.
Qed.

Lemma named_nil s : isNamedRevision [] s = isNumberedRevision s.
Proof. unfold isNamedRevision. by rewrite bool_decide_eq_false_2 by apply not_elem_of_nil. Qed.
Lemma revision_checked names v s : Forall text_ok names -> isRevisionValue names v = true -> v = VStr s ->
  checked_ok (isNamedRevision names) s.
Proof. intros Hn Hv ->. rewrite revision_value_string in Hv. split; [by eapply named_text|done]. Qed.
Lemma numbered_checked v s : isRevisionValue [] v = true -> v = VStr s -> checked_ok isNumberedRevision s.
Proof. intros Hv E. eapply revision_checked in Hv; [|constructor|done]. destruct Hv as [? Hn]. rewrite named_nil in Hn. by split. Qed.

(** ** Fields *)
Section fields.
Context (invalid : string -> js_error).

Lemma requireExactRequestKeys_keys v expected : requireExactRequestKeys invalid v expected = Ok tt <-> keys v ⊆ expected.
Proof using Type.
  unfold requireExactRequestKeys. rewrite eachi_ok. setoid_rewrite require_ok. setoid_rewrite bool_decide_eq_true. split.
  - intros H key Hin. apply list_elem_of_lookup in Hin as [k Hk]. eauto.
  - intros H k key Hk. apply H. by eapply list_elem_of_lookup_2.
Qed.
Lemma requireNullableText_ok v f o : requireNullableText invalid v f = Ok o <-> v = Some (opt_str o).
Proof using Type. unfold requireNullableText, opt_str, nullable. destruct v as [[]|]; destruct o; naive_solver. Qed.
Lemma requireIntegerBetween_ok low high v f z : (- MAX_SAFE_INTEGER <= low)%Z -> (high <= MAX_SAFE_INTEGER)%Z ->
  requireIntegerBetween invalid low high v f = Ok z <-> v = Some (num z) /\ (low <= z <= high)%Z.
Proof using Type.
  intros Hl Hh. unfold requireIntegerBetween, num. destruct v as [[| |[]| | |]|]; try naive_solver.
  rewrite bind_ok. setoid_rewrite require_ok. unfold isSafeInteger. split.
  - intros (u & Hz & [= ->]). split; [done|lia].
  - intros [[= ->] Hz]. exists tt. split; [lia|done].
Qed.
Lemma requireSvnRevisionNumber_ok v f z : requireSvnRevisionNumber invalid v f = Ok z <-> v = Some (num z) /\ revnum_ok z.
Proof using Type.
  unfold requireSvnRevisionNumber. rewrite bind_ok. setoid_rewrite bind_ok. setoid_rewrite requireNonNegativeInteger_ok.
  setoid_rewrite require_ok. rewrite revnum_count. naive_solver.
Qed.
Lemma requireNullableRevisionNumber_ok v f o :
  requireNullableRevisionNumber invalid v f = Ok o <-> v = Some (nullable num o) /\ opt_ok revnum_ok o.
Proof using Type.
  unfold requireNullableRevisionNumber, nullable, opt_ok.
  destruct v as [[]|]; try (rewrite bind_ok; setoid_rewrite requireSvnRevisionNumber_ok); destruct o; unfold num; naive_solver.
Qed.
Lemma requireChecked_ok check v f s : requireChecked invalid check v f = Ok s <-> v = Some (VStr s) /\ checked_ok check s.
Proof using Type.
  unfold requireChecked, checked_ok. rewrite bind_ok. setoid_rewrite bind_ok. setoid_rewrite requireString_ok.
  setoid_rewrite require_ok. naive_solver.
Qed.
Lemma requireNullableChecked_ok check v f o :
  requireNullableChecked invalid check v f = Ok o <-> v = Some (opt_str o) /\ opt_ok (checked_ok check) o.
Proof using Type.
  unfold requireNullableChecked, opt_str, nullable, opt_ok.
  destruct v as [[]|]; try (rewrite bind_ok; setoid_rewrite requireChecked_ok); destruct o; naive_solver.
Qed.
Lemma requireRevisionValue_ok names v f x :
  requireRevisionValue invalid names v f = Ok x <-> v = Some x /\ isRevisionValue names x = true.
Proof using Type.
  unfold requireRevisionValue. destruct v as [y|]; [|naive_solver]. rewrite bind_ok. setoid_rewrite require_ok. naive_solver.
Qed.
End fields.

(** ** Automation *)
Ltac client_inv :=
  repeat first
  [ progress wire_inv
  | match goal with
    | H : requireNullableText _ _ _ = Ok _ |- _ => apply requireNullableText_ok in H
    | H : requireIntegerBetween _ _ _ _ _ = Ok _ |- _ => apply requireIntegerBetween_ok in H as [? ?]; [|by vm_compute|by vm_compute]
    | H : requireSvnRevisionNumber _ _ _ = Ok _ |- _ => apply requireSvnRevisionNumber_ok in H as [? ?]
    | H : requireNullableRevisionNumber _ _ _ = Ok _ |- _ => apply requireNullableRevisionNumber_ok in H as [? ?]
    | H : requireChecked _ _ _ _ = Ok _ |- _ => apply requireChecked_ok in H as [? ?]
    | H : requireNullableChecked _ _ _ _ = Ok _ |- _ => apply requireNullableChecked_ok in H as [? ?]
    | H : requireRevisionValue _ _ _ _ = Ok _ |- _ => apply requireRevisionValue_ok in H as [? ?]
    end ].

Ltac client_field :=
  lazymatch goal with
  | |- requireExactRequestKeys _ _ _ = _ => apply requireExactRequestKeys_keys; exact (fun _ H => H)
  | |- requireNullableText _ _ _ = _ => apply requireNullableText_ok; reflexivity
  | |- requireIntegerBetween _ _ _ _ _ = _ =>
      apply requireIntegerBetween_ok; [by vm_compute|by vm_compute|]; split; [reflexivity|]
  | |- requireSvnRevisionNumber _ _ _ = _ => apply requireSvnRevisionNumber_ok; split; [reflexivity|]
  | |- requireNullableRevisionNumber _ _ _ = _ => apply requireNullableRevisionNumber_ok; split; [reflexivity|]
  | |- requireChecked _ _ _ _ = _ => apply requireChecked_ok; split; [reflexivity|]
  | |- requireNullableChecked _ _ _ _ = _ => apply requireNullableChecked_ok; split; [reflexivity|]
  | |- requireRevisionValue _ _ _ _ = _ => apply requireRevisionValue_ok; split; [reflexivity|]
  | _ => wire_field
  end.
Ltac client_step := apply bind_ok; eexists; split; [solve [client_field; eauto]|].

(** ** The contract of a client from its parts *)
Lemma call_client_ok {Req Res} send m validate (to_params : Req -> js_value) parse (matches : Res -> Req -> result unit) request a :
  call_client send m validate to_params parse matches request = Ok a <->
  exists r raw, validate request = Ok r /\ send m (to_params r) = Ok raw /\ parse raw = Ok a /\ matches a r = Ok tt.
Proof.
  unfold call_client. rewrite bind_ok. setoid_rewrite bind_ok. setoid_rewrite bind_ok. setoid_rewrite bind_ok. split.
  - intros (r & Hr & raw & Hs & x & Hp & [] & Hm & [= <-]). eauto 8.
  - intros (r & raw & Hr & Hs & Hp & Hm). exists r. split; [done|]. exists raw. split; [done|]. exists a. split; [done|]. by exists tt.
Qed.

Section Contract.
Context {Req Res : Type} (m : string) (validate : option js_value -> result Req) (to_params : Req -> js_value)
  (parse : option js_value -> result Res) (matches : Res -> Req -> result unit)
  (encode_answer : Res -> js_value) (valid : Req -> Prop) (answer_for : Req -> Res -> Prop).
Context (validate_sound : forall v r, validate v = Ok r -> valid r)
  (validate_complete : forall r, valid r -> validate (Some (to_params r)) = Ok r)
  (answer_sound : forall r raw a, valid r -> parse raw = Ok a -> matches a r = Ok tt -> answer_for r a)
  (answer_complete : forall r a, valid r -> answer_for r a -> parse (Some (encode_answer a)) = Ok a /\ matches a r = Ok tt).
Definition client_of : wire_client :=
  {| client_call := fun send request => call_client send m validate to_params parse matches request;
     client_method := m; params := to_params; encode := encode_answer; request_ok := valid; answers := answer_for |}.
Lemma client_of_exact : client_sound client_of /\ client_complete client_of.
Proof using All.
  split.
  - intros send request a (r & raw & Hr & Hs & Hp & Hm)%call_client_ok. exists r, raw. split; [by eapply validate_sound|].
    split; [done|]. eapply answer_sound; eauto.
  - intros send r a Hr Ha Hs. destruct (answer_complete r a Hr Ha) as [Hp Hm].
    apply call_client_ok. exists r, (Some (encode_answer a)). split; [by apply validate_complete|done].
Qed.
End Contract.

Local Open Scope string_scope.

Module LogFacts.
Import HistoryLogRpcClient.

(** ** The contract *)
Record log_request_ok (r : ValidatedHistoryLogRequest) : Prop := {
  log_request_repository : text_ok (req_repositoryId r) /\ count_ok (req_epoch r);
  log_request_path : checked_ok isHistoryPath (req_path r);
  log_request_revisions : isRevisionValue ["head"] (req_startRevision r) = true /\ isRevisionValue [] (req_endRevision r) = true;
  log_request_limit : (1 <= req_limit r <= MAX_HISTORY_LIMIT)%Z;
}.
(** A copied path names its source and the revision copied from. *)
Record changed_path_ok (p : HistoryChangedPath) : Prop := {
  changed_in_repository : checked_ok isRepositoryPath (changed_path p);
  changed_action_letter : checked_ok isChangedAction (changed_action p);
  changed_kind_known : checked_ok isNodeKind (changed_nodeKind p);
  changed_copy : match copyFromPath p, copyFromRevision p with
                 | Some from, Some revision => checked_ok isRepositoryPath from /\ revnum_ok revision
                 | None, None => True
                 | _, _ => False
                 end;
}.
Definition log_entry_ok (e : HistoryLogEntry) : Prop := revnum_ok (entry_revision e) /\ Forall changed_path_ok (changedPaths e).
(** The log is the one asked for. *)
Record log_answers (r : ValidatedHistoryLogRequest) (l : HistoryLog) : Prop := {
  log_same_repository : log_repositoryId l = req_repositoryId r /\ log_epoch l = req_epoch r /\ log_path l = req_path r;
  log_same_revisions : req_startRevision r = VStr (log_startRevision l) /\ req_endRevision r = VStr (log_endRevision l);
  log_same_limit : log_limit l = req_limit r;
  log_from_libsvn : log_source l = "libsvn-log";
  log_entries_ok : Forall log_entry_ok (log_entries l);
}.

(** ** The wire form *)
Definition encode_changed_path (p : HistoryChangedPath) : js_value :=
  VObj [("path", VStr (changed_path p)); ("action", VStr (changed_action p)); ("copyFromPath", opt_str (copyFromPath p));
        ("copyFromRevision", nullable num (copyFromRevision p)); ("nodeKind", VStr (changed_nodeKind p));
        ("textModified", VStr (tristate_name (textModified p))); ("propertiesModified", VStr (tristate_name (propertiesModified p)))].
Definition encode_log_entry (e : HistoryLogEntry) : js_value :=
  VObj [("revision", num (entry_revision e)); ("author", opt_str (entry_author e)); ("date", opt_str (entry_date e));
        ("message", opt_str (entry_message e)); ("changedPaths", VArr (map encode_changed_path (changedPaths e)));
        ("hasChildren", VBool (hasChildren e)); ("nonInheritable", VBool (nonInheritable e));
        ("subtractiveMerge", VBool (subtractiveMerge e))].
Definition encode_log (l : HistoryLog) : js_value :=
  VObj [("repositoryId", VStr (log_repositoryId l)); ("epoch", num (log_epoch l)); ("path", VStr (log_path l));
        ("startRevision", VStr (log_startRevision l)); ("endRevision", VStr (log_endRevision l)); ("limit", num (log_limit l));
        ("entries", VArr (map encode_log_entry (log_entries l))); ("source", VStr (log_source l))].

Ltac log_names :=
  unfold requireRecord, requireExactKeys, requireNonEmptyString, requireNullableString, requireSafeInteger,
    requireSvnRevisionNumber, requireNullableRevisionNumber, requireBoolean, requireHistoryPath, requireHistoryStartRevision,
    requireHistoryNumberedRevision, requireChangedPath, requireNullableChangedPath, requireChangedAction, requireNodeKind in *.

(** ** Requests *)
Lemma validate_log_sound v r : validateHistoryLogRequest v = Ok r -> log_request_ok r.
Proof. unfold validateHistoryLogRequest. log_names. intros H. client_inv. by split. Qed.
Lemma validate_log_complete r : log_request_ok r -> validateHistoryLogRequest (Some (log_params r)) = Ok r.
Proof. intros [[] ? [] ?]. unfold validateHistoryLogRequest. do 11 client_step. by destruct r. Qed.

(** ** Answers *)
Lemma tristate_takes t f : requireTristate (Some (VStr (tristate_name t))) f = Ok t.
Proof. by destruct t. Qed.

Lemma parse_changed_path_sound v f p : parseHistoryChangedPath v f = Ok p -> changed_path_ok p.
Proof.
  unfold parseHistoryChangedPath. log_names. intros H. client_inv. split; try done. cbn [copyFromPath copyFromRevision].
  match goal with H : Bool.eqb (bool_decide (?o = None)) (bool_decide (?q = None)) = true |- _ => destruct o, q; try done end.
Qed.
Lemma parse_changed_path_complete p f : changed_path_ok p -> parseHistoryChangedPath (encode_changed_path p) f = Ok p.
Proof.
  intros [? ? ? Hc]. unfold parseHistoryChangedPath. log_names. do 2 client_step.
  apply bind_ok. exists (copyFromPath p). split; [apply requireNullableChecked_ok; split; [done|]; by destruct (copyFromPath p), (copyFromRevision p); cbn; naive_solver|].
  apply bind_ok. exists (copyFromRevision p). split; [apply requireNullableRevisionNumber_ok; split; [done|]; by destruct (copyFromPath p), (copyFromRevision p); cbn; naive_solver|].
  apply bind_ok. exists tt. split; [apply require_ok; by destruct (copyFromPath p), (copyFromRevision p)|].
  do 3 client_step. do 2 (apply bind_ok; eexists; split; [apply tristate_takes|]). by destruct p.
Qed.
Lemma parse_log_entry_sound v f e : parseHistoryEntry v f = Ok e -> log_entry_ok e.
Proof.
  unfold parseHistoryEntry, requireHistoryChangedPaths. log_names. intros H. client_inv. split; [done|]. cbn.
  eapply mapi_forall; [done|]. intros ? ? ? Hp. exact (parse_changed_path_sound _ _ _ Hp).
Qed.
Lemma parse_log_entry_complete e f : log_entry_ok e -> parseHistoryEntry (encode_log_entry e) f = Ok e.
Proof.
  intros [? Hp]. unfold parseHistoryEntry, requireHistoryChangedPaths. log_names. do 6 client_step.
  apply bind_ok. exists (changedPaths e). split.
  { client_step. eapply mapi_encode; [exact Hp|]. intros k p. apply parse_changed_path_complete. }
  do 3 client_step. by destruct e.
Qed.

Lemma match_log_ok l r : requireHistoryLogMatchesRequest l r = Ok tt <->
  (log_repositoryId l = req_repositoryId r /\ log_epoch l = req_epoch r /\ log_path l = req_path r) /\
  (req_startRevision r = VStr (log_startRevision l) /\ req_endRevision r = VStr (log_endRevision l)) /\
  log_limit l = req_limit r /\ log_source l = "libsvn-log".
Proof.
  unfold requireHistoryLogMatchesRequest. split.
  - intros H. do 6 (apply bind_ok in H as ([] & ?%require_ok & H)). apply require_ok in H.
    repeat match goal with
    | H : bool_decide _ = true |- _ => apply bool_decide_eq_true_1 in H
    | H : Z.eqb _ _ = true |- _ => apply Z.eqb_eq in H
    | H : is_text _ _ = true |- _ => apply is_text_iff in H
    end. done.
  - intros ((E1 & E2 & E3) & (E4 & E5) & E6 & E7). rewrite E1, E2, E3, E4, E5, E6, E7.
    rewrite !bool_decide_eq_true_2 by done. rewrite !Z.eqb_refl. cbn [is_text]. by rewrite !bool_decide_eq_true_2 by done.
Qed.

Lemma log_answer_sound r raw l : log_request_ok r -> parseHistoryLogResponse raw = Ok l ->
  requireHistoryLogMatchesRequest l r = Ok tt -> log_answers r l.
Proof.
  intros _ Hp (Ha & Hr & Hl & Hs)%match_log_ok. split; [done..|].
  unfold parseHistoryLogResponse, requireHistoryEntries in Hp. log_names. client_inv. cbn.
  eapply mapi_forall; [done|]. intros ? ? ? He. exact (parse_log_entry_sound _ _ _ He).
Qed.
Lemma log_answer_complete r l : log_request_ok r -> log_answers r l ->
  parseHistoryLogResponse (Some (encode_log l)) = Ok l /\ requireHistoryLogMatchesRequest l r = Ok tt.
Proof.
  intros [[Hid He] Hp [Hs Hend] Hlim] [(E1 & E2 & E3) (E4 & E5) E6 E7 Hall]. split; [|by apply match_log_ok].
  assert (checked_ok isHistoryStartRevision (log_startRevision l)) by (by eapply revision_checked; [repeat constructor|..]).
  assert (checked_ok isHistoryNumberedRevision (log_endRevision l)) by (by eapply numbered_checked).
  unfold parseHistoryLogResponse, requireHistoryEntries, requireHistoryLimit. log_names.
  rewrite <- E1 in Hid. rewrite <- E2 in He. rewrite <- E3 in Hp. rewrite <- E6 in Hlim.
  do 7 client_step. apply bind_ok. exists (log_limit l). split.
  { apply bind_ok. exists (log_limit l). split; [apply requireNonNegativeInteger_ok; split; [done|]|];
      unfold count_ok, MAX_HISTORY_LIMIT, MAX_SAFE_INTEGER in *; [lia|]. apply bind_ok. exists tt. split; [|done]. apply require_ok. lia. }
  apply bind_ok. exists (log_entries l). split.
  { client_step. eapply mapi_encode; [exact Hall|]. intros k e. apply parse_log_entry_complete. }
  assert (text_ok (log_source l)) by (by rewrite E7). client_step. by destruct l.
Qed.

Definition log_client : wire_client :=
  {| client_call := getLog; client_method := "history/log"; params := log_params; encode := encode_log;
     request_ok := log_request_ok; answers := log_answers |}.
Lemma log_client_exact : client_sound log_client /\ client_complete log_client.
Proof. exact (client_of_exact "history/log" _ _ _ _ _ _ _ validate_log_sound validate_log_complete log_answer_sound log_answer_complete). Qed.
End LogFacts.

Module BlameFacts.
Import HistoryBlameRpcClient.

(** ** The contract *)
Record blame_request_ok (r : ValidatedHistoryBlameRequest) : Prop := {
  blame_request_repository : text_ok (req_repositoryId r) /\ count_ok (req_epoch r);
  blame_request_path : checked_ok isBlamePath (req_path r);
  blame_request_revisions : isRevisionValue ["base"; "head"] (req_pegRevision r) = true
    /\ isRevisionValue [] (req_startRevision r) = true /\ isRevisionValue ["base"; "head"] (req_endRevision r) = true;
  blame_request_window : (1 <= req_lineStart r <= MAX_SAFE_INTEGER - MAX_BLAME_LINE_LIMIT)%Z
    /\ (1 <= req_lineLimit r <= MAX_BLAME_LINE_LIMIT)%Z;
}.
Record blame_line_ok (l : HistoryBlameLine) : Prop := {
  line_number_ok : (1 <= lineNumber l <= MAX_SAFE_INTEGER)%Z;
  line_revisions_ok : opt_ok revnum_ok (line_revision l) /\ opt_ok revnum_ok (mergedRevision l);
  line_path_ok : opt_ok (checked_ok isRepositoryPath) (mergedPath l);
  line_text_ok : isCanonicalBase64 (lineBase64 l) = true;
  line_length_ok : line_byteLength l = Z.of_nat (length (from_base64 (lineBase64 l))) /\ count_ok (line_byteLength l);
}.
(** The lines asked for, at most, and from the first one on. *)
Definition window (start limit : Z) (lines : list HistoryBlameLine) : Prop :=
  (Z.of_nat (length lines) <= limit)%Z /\ forall k line, lines !! k = Some line -> lineNumber line = (start + Z.of_nat k)%Z.
Record blame_answers (r : ValidatedHistoryBlameRequest) (b : HistoryBlame) : Prop := {
  blame_same_repository : blame_repositoryId b = req_repositoryId r /\ blame_epoch b = req_epoch r /\ blame_path b = req_path r;
  blame_same_revisions : req_pegRevision r = VStr (blame_pegRevision b) /\ req_startRevision r = VStr (blame_startRevision b)
    /\ req_endRevision r = VStr (blame_endRevision b);
  blame_same_window : blame_lineStart b = req_lineStart r /\ blame_lineLimit b = req_lineLimit r;
  blame_same_options : blame_ignoreWhitespace b = req_ignoreWhitespace r /\ blame_ignoreEolStyle b = req_ignoreEolStyle r
    /\ blame_ignoreMimeType b = req_ignoreMimeType r /\ blame_includeMergedRevisions b = req_includeMergedRevisions r;
  blame_from_libsvn : blame_source b = "libsvn-blame";
  blame_resolved_ok : revnum_ok (resolvedStartRevision b) /\ revnum_ok (resolvedEndRevision b);
  blame_lines_ok : Forall blame_line_ok (blame_lines b);
  blame_window : window (req_lineStart r) (req_lineLimit r) (blame_lines b);
}.

(** ** The wire form *)
Definition encode_line (l : HistoryBlameLine) : js_value :=
  VObj [("lineNumber", num (lineNumber l)); ("revision", nullable num (line_revision l)); ("author", opt_str (line_author l));
        ("date", opt_str (line_date l)); ("mergedRevision", nullable num (mergedRevision l)); ("mergedAuthor", opt_str (mergedAuthor l));
        ("mergedDate", opt_str (mergedDate l)); ("mergedPath", opt_str (mergedPath l)); ("lineBase64", VStr (lineBase64 l));
        ("byteLength", num (line_byteLength l)); ("localChange", VBool (localChange l))].
Definition encode_blame (b : HistoryBlame) : js_value :=
  VObj [("repositoryId", VStr (blame_repositoryId b)); ("epoch", num (blame_epoch b)); ("path", VStr (blame_path b));
        ("pegRevision", VStr (blame_pegRevision b)); ("startRevision", VStr (blame_startRevision b));
        ("endRevision", VStr (blame_endRevision b)); ("resolvedStartRevision", num (resolvedStartRevision b));
        ("resolvedEndRevision", num (resolvedEndRevision b)); ("lineStart", num (blame_lineStart b));
        ("lineLimit", num (blame_lineLimit b)); ("ignoreWhitespace", VStr (ignoreWhitespace_name (blame_ignoreWhitespace b)));
        ("ignoreEolStyle", VBool (blame_ignoreEolStyle b)); ("ignoreMimeType", VBool (blame_ignoreMimeType b));
        ("includeMergedRevisions", VBool (blame_includeMergedRevisions b)); ("hasMore", VBool (hasMore b));
        ("lines", VArr (map encode_line (blame_lines b))); ("source", VStr (blame_source b))].

Ltac blame_names :=
  unfold requireRecord, requireExactKeys, requireNonEmptyString, requireNullableString, requireSafeInteger, requirePositiveSafeInteger,
    requireSvnRevisionNumber, requireNullableRevisionNumber, requireBoolean, requireBlamePath, requireBlamePegOrEndRevision,
    requireBlameNumberedRevision, requireIgnoreWhitespace, requireNullableRepositoryPath in *.

(** ** Requests *)
Lemma whitespace_takes invalid i f : ignoreWhitespace_of invalid (Some (VStr (ignoreWhitespace_name i))) f = Ok i.
Proof. by destruct i. Qed.
Lemma validate_blame_sound v r : validateHistoryBlameRequest v = Ok r -> blame_request_ok r.
Proof. unfold validateHistoryBlameRequest. intros H. client_inv. by split. Qed.
Lemma validate_blame_complete r : blame_request_ok r -> validateHistoryBlameRequest (Some (blame_params r)) = Ok r.
Proof.
  intros [[] ? (? & ? & ?) W]. unfold validateHistoryBlameRequest. do 8 client_step. destruct W.
  do 2 (apply bind_ok; eexists; split; [client_field; eassumption|]).
  apply bind_ok. eexists. split; [apply whitespace_takes|]. do 3 client_step. by destruct r.
Qed.

(** ** Lines *)
Lemma base64_takes v f s : requireBase64 v f = Ok s <-> v = Some (VStr s) /\ isCanonicalBase64 s = true.
Proof.
  unfold requireBase64. destruct v as [[]|]; try naive_solver. rewrite bind_ok. setoid_rewrite require_ok. naive_solver.
Qed.
Lemma parse_line_sound v f l : parseBlameLine v f = Ok l -> blame_line_ok l.
Proof.
  unfold parseBlameLine. blame_names. intros H. client_inv.
  match goal with H : requireBase64 _ _ = Ok _ |- _ => apply base64_takes in H as [? ?] end.
  match goal with H : Z.eqb _ _ = true |- _ => apply Z.eqb_eq in H end. by split.
Qed.
Lemma parse_line_complete l f : blame_line_ok l -> parseBlameLine (encode_line l) f = Ok l.
Proof.
  intros [? [] ? ? [Hlen ?]]. unfold parseBlameLine. blame_names. do 2 client_step.
  apply bind_ok. eexists. split; [by apply base64_takes; split|]. client_step.
  apply bind_ok. exists tt. split; [apply require_ok; by apply Z.eqb_eq|]. do 9 client_step. by destruct l.
Qed.

(** ** The window *)
Lemma line_window_ok stop expected lines : line_window stop expected lines = Ok tt <->
  (forall k line, lines !! k = Some line -> lineNumber line = (expected + Z.of_nat k)%Z) /\
  (lines = [] \/ (expected + Z.of_nat (length lines) <= stop)%Z).
Proof.
  revert expected. induction lines as [|l lines IH]; intros expected; cbn [line_window]; [naive_solver|].
  rewrite bind_ok. setoid_rewrite require_ok. split.
  - intros ([] & Hl & [Hall Hend]%IH). assert (lineNumber l = expected /\ (lineNumber l < stop)%Z) as [E Hs] by lia. split.
    + intros [|k] line; [intros [= <-]; lia|]. intros Hk. rewrite (Hall k line Hk). lia.
    + right. cbn [length]. destruct Hend as [->|Hend]; [cbn; lia|lia].
  - intros [Hall [?|Hend]]; [done|]. pose proof (Hall 0 l eq_refl). cbn [length] in Hend. exists tt. split; [lia|]. apply IH. split.
    + intros k line Hk. rewrite (Hall (S k) line Hk). lia.
    + right. lia.
Qed.
Lemma requireLineWindow_ok b : (1 <= blame_lineLimit b)%Z ->
  requireLineWindow b = Ok tt <-> window (blame_lineStart b) (blame_lineLimit b) (blame_lines b).
Proof.
  intros Hl. unfold requireLineWindow, window. rewrite bind_ok. setoid_rewrite require_ok. setoid_rewrite line_window_ok. split.
  - intros (u & Hn & Hall & _). split; [lia|done].
  - intros [Hn Hall]. exists tt. split; [lia|]. split; [done|]. right. lia.
Qed.

(** ** Answers *)
Lemma whitespace_eqb_eq i j : whitespace_eqb i j = true <-> i = j.
Proof. unfold whitespace_eqb. rewrite bool_decide_eq_true. destruct i, j; naive_solver. Qed.
Lemma match_blame_ok b r : requireHistoryBlameMatchesRequest b r = Ok tt <->
  (blame_repositoryId b = req_repositoryId r /\ blame_epoch b = req_epoch r /\ blame_path b = req_path r) /\
  (req_pegRevision r = VStr (blame_pegRevision b) /\ req_startRevision r = VStr (blame_startRevision b)
   /\ req_endRevision r = VStr (blame_endRevision b)) /\
  (blame_lineStart b = req_lineStart r /\ blame_lineLimit b = req_lineLimit r) /\
  (blame_ignoreWhitespace b = req_ignoreWhitespace r /\ blame_ignoreEolStyle b = req_ignoreEolStyle r
   /\ blame_ignoreMimeType b = req_ignoreMimeType r /\ blame_includeMergedRevisions b = req_includeMergedRevisions r) /\
  blame_source b = "libsvn-blame" /\ requireLineWindow b = Ok tt.
Proof.
  unfold requireHistoryBlameMatchesRequest. split.
  - intros H. do 13 (apply bind_ok in H as ([] & ?%require_ok & H)).
    repeat match goal with
    | H : bool_decide _ = true |- _ => apply bool_decide_eq_true_1 in H
    | H : Z.eqb _ _ = true |- _ => apply Z.eqb_eq in H
    | H : is_text _ _ = true |- _ => apply is_text_iff in H
    | H : whitespace_eqb _ _ = true |- _ => apply whitespace_eqb_eq in H
    | H : Bool.eqb _ _ = true |- _ => apply Bool.eqb_prop in H
    end. done.
  - intros (Ha & Hr & Hw & Ho & Hs & Hl). destruct_and?.
    repeat (apply bind_ok; exists tt; split; [apply require_ok;
      first [by apply bool_decide_eq_true|by apply Z.eqb_eq|by apply is_text_iff|by apply whitespace_eqb_eq|by apply Bool.eqb_true_iff]|]). done.
Qed.
Lemma blame_answer_sound r raw b : blame_request_ok r -> parseHistoryBlameResponse raw = Ok b ->
  requireHistoryBlameMatchesRequest b r = Ok tt -> blame_answers r b.
Proof.
  intros [_ _ _ [_ Hlim]] Hp (Ha & Hr & (Hs & Hl) & Ho & Hsrc & Hw)%match_blame_ok. apply requireLineWindow_ok in Hw; [|lia].
  rewrite Hs, Hl in Hw.
  unfold parseHistoryBlameResponse, requireBlameLines in Hp. blame_names. client_inv. split; try done. cbn [blame_lines].
  eapply mapi_forall; [done|]. intros ? ? ? He. exact (parse_line_sound _ _ _ He).
Qed.
Lemma blame_answer_complete r b : blame_request_ok r -> blame_answers r b ->
  parseHistoryBlameResponse (Some (encode_blame b)) = Ok b /\ requireHistoryBlameMatchesRequest b r = Ok tt.
Proof.
  intros [[Hid He] Hp (R1 & R2 & R3) W] [(E1 & E2 & E3) (E4 & E5 & E6) (E7 & E8) Eo Esrc [] Hall Hw]. split.
  2: { destruct W. apply match_blame_ok. do 5 (split; [done|]). apply requireLineWindow_ok; [lia|]. by rewrite E7, E8. }
  eapply revision_checked in R1; [|repeat constructor|exact E4]. eapply revision_checked in R3; [|repeat constructor|exact E6].
  pose proof (numbered_checked _ _ R2 E5).
  assert (text_ok (blame_source b)) by (by rewrite Esrc).
  rewrite <- E1 in Hid. rewrite <- E2 in He. rewrite <- E3 in Hp. rewrite <- E7, <- E8 in W.
  unfold parseHistoryBlameResponse, requireBlameLines, requireLineStart, requireLineLimit. blame_names. do 10 client_step.
  destruct W as [W1 W2]. unfold MAX_BLAME_LINE_LIMIT in *.
  apply bind_ok. exists (blame_lineStart b). split.
  { apply bind_ok. exists (blame_lineStart b). split; [apply requireIntegerBetween_ok; [by vm_compute|by vm_compute|]; split; [done|lia]|].
    apply bind_ok. exists tt. split; [apply require_ok; lia|done]. }
  apply bind_ok. exists (blame_lineLimit b). split.
  { apply bind_ok. exists (blame_lineLimit b). split; [apply requireIntegerBetween_ok; [by vm_compute|by vm_compute|]; split; [done|unfold MAX_SAFE_INTEGER; lia]|].
    apply bind_ok. exists tt. split; [apply require_ok; lia|done]. }
  apply bind_ok. eexists. split; [apply whitespace_takes|]. clear W1 W2. do 4 client_step.
  apply bind_ok. exists (blame_lines b). split.
  { client_step. eapply mapi_encode; [exact Hall|]. intros k l. apply parse_line_complete. }
  client_step. by destruct b.
Qed.

Definition blame_client : wire_client :=
  {| client_call := getBlame; client_method := "history/blame"; params := blame_params; encode := encode_blame;
     request_ok := blame_request_ok; answers := blame_answers |}.
Lemma blame_client_exact : client_sound blame_client /\ client_complete blame_client.
Proof. exact (client_of_exact "history/blame" _ _ _ _ _ _ _ validate_blame_sound validate_blame_complete blame_answer_sound blame_answer_complete). Qed.
End BlameFacts.

Local Open Scope string_scope.

Module ContentFacts.
Import ContentGetRpcClient.

Record content_request_ok (r : ValidatedContentGetRequest) : Prop := {
  content_request_repository : text_ok (req_repositoryId r) /\ count_ok (req_epoch r);
  content_request_path : checked_ok isContentPath (req_path r);
  content_request_revision : isRevisionValue ["base"; "head"] (req_revision r) = true;
}.
(** The content is that of the path and revision asked for, from the source that
    the revision demands, and has the length it claims. *)
Record content_answers (r : ValidatedContentGetRequest) (c : ContentBlob) : Prop := {
  content_same_repository : blob_repositoryId c = req_repositoryId r /\ blob_epoch c = req_epoch r /\ blob_path c = req_path r;
  content_same_revision : req_revision r = VStr (blob_revision c);
  content_source : blob_source c = expectedContentSource (req_revision r);
  content_bytes : Forall byte (blob_bytes c) /\ blob_byteLength c = Z.of_nat (length (blob_bytes c));
  content_length_safe : count_ok (blob_byteLength c);
  content_mimeType : opt_text_ok (mimeType c);
}.

Definition encode_content (c : ContentBlob) : js_value :=
  VObj [("repositoryId", VStr (blob_repositoryId c)); ("epoch", num (blob_epoch c)); ("path", VStr (blob_path c));
        ("revision", VStr (blob_revision c)); ("contentBase64", VStr (to_base64 (blob_bytes c)));
        ("byteLength", num (blob_byteLength c)); ("mimeType", opt_str (mimeType c)); ("isBinary", VBool (isBinary c));
        ("source", VStr (blob_source c))].

Ltac content_names :=
  unfold requireRecord, requireExactKeys, requireString, requireNullableString, requireSafeInteger, requireBoolean,
    requireRevision, requireContentPath in *.

Lemma validate_content_sound v r : validateContentRequest v = Ok r -> content_request_ok r.
Proof. unfold validateContentRequest. intros H. client_inv. by split. Qed.
Lemma validate_content_complete r : content_request_ok r -> validateContentRequest (Some (content_params r)) = Ok r.
Proof. intros [[] ? ?]. unfold validateContentRequest. do 6 client_step. by destruct r. Qed.

Lemma base64_bytes_sound v f n l : requireBase64Bytes v f n = Ok l -> Forall byte l /\ n = Z.of_nat (length l).
Proof.
  unfold requireBase64Bytes. destruct v as [[| | |s| |]|]; try done. intros H. client_inv.
  split; [apply decoded_bytes|lia].
Qed.
Lemma base64_bytes_complete l f : Forall byte l ->
  requireBase64Bytes (Some (VStr (to_base64 l))) f (Z.of_nat (length l)) = Ok l.
Proof.
  intros Hl. unfold requireBase64Bytes. rewrite decode_encoded by done.
  apply bind_ok. exists tt. split; [by apply require_ok, standard_encoded|]. cbn zeta.
  apply bind_ok. exists tt. split; [apply require_ok; lia|done].
Qed.

Lemma match_content_ok c r : requireContentMatchesRequest c r = Ok tt <->
  (blob_repositoryId c = req_repositoryId r /\ blob_epoch c = req_epoch r /\ blob_path c = req_path r) /\
  req_revision r = VStr (blob_revision c) /\ blob_source c = expectedContentSource (req_revision r).
Proof.
  unfold requireContentMatchesRequest. split.
  - intros H. do 4 (apply bind_ok in H as ([] & ?%require_ok & H)). apply require_ok in H. bool_cases.
    match goal with H : Z.eqb _ _ = true |- _ => apply Z.eqb_eq in H end.
    match goal with H : is_text _ _ = true |- _ => apply is_text_iff in H end. done.
  - intros ((E1 & E2 & E3) & E4 & E5).
    repeat (apply bind_ok; exists tt; split; [apply require_ok;
      first [by apply bool_decide_eq_true|by apply Z.eqb_eq|by apply is_text_iff]|]). by apply require_ok, bool_decide_eq_true.
Qed.
Lemma content_answer_sound r raw c : content_request_ok r -> parseContentResponse raw = Ok c ->
  requireContentMatchesRequest c r = Ok tt -> content_answers r c.
Proof.
  intros _ Hp (Ha & Hr & Hs)%match_content_ok. unfold parseContentResponse in Hp. content_names. client_inv.
  match goal with H : requireBase64Bytes _ _ _ = Ok _ |- _ => apply base64_bytes_sound in H as [? ?] end. by split.
Qed.
Lemma content_answer_complete r c : content_request_ok r -> content_answers r c ->
  parseContentResponse (Some (encode_content c)) = Ok c /\ requireContentMatchesRequest c r = Ok tt.
Proof.
  intros [[Hid He] Hp Hr] [(E1 & E2 & E3) E4 E5 [Hb Hl] Hc Hm]. split; [|by apply match_content_ok].
  eapply revision_checked in Hr; [|repeat constructor|exact E4].
  rewrite <- E1 in Hid. rewrite <- E2 in He. rewrite <- E3 in Hp.
  assert (text_ok (blob_source c)) by (rewrite E5; unfold expectedContentSource; by repeat case_match).
  unfold parseContentResponse. content_names. do 3 client_step.
  apply bind_ok. exists (blob_bytes c). split; [rewrite Hl; by apply base64_bytes_complete|]. do 7 client_step. by destruct c.
Qed.

Definition content_client : wire_client :=
  {| client_call := getContent; client_method := "content/get"; params := content_params; encode := encode_content;
     request_ok := content_request_ok; answers := content_answers |}.
Lemma content_client_exact : client_sound content_client /\ client_complete content_client.
Proof. exact (client_of_exact "content/get" _ _ _ _ _ _ _ validate_content_sound validate_content_complete content_answer_sound content_answer_complete). Qed.
End ContentFacts.

Module PropertiesFacts.
Import PropertiesListRpcClient.

Definition properties_request_ok (r : PropertiesListRequest) : Prop :=
  text_ok (req_repositoryId r) /\ count_ok (req_epoch r) /\ checked_ok isRepositoryRelativePath (req_path r).
Definition value_ok (s : string) : Prop := includes s NUL = false /\ includes s CR = false.
Definition property_ok (p : PropertyEntry) : Prop := checked_ok isPropertyName (property_name p) /\ value_ok (property_value p).
Definition properties_answers (r : PropertiesListRequest) (l : PropertiesListResponse) : Prop :=
  (list_repositoryId l = req_repositoryId r /\ list_epoch l = req_epoch r /\ list_path l = req_path r)
  /\ Forall property_ok (list_properties l).

Definition encode_property (p : PropertyEntry) : js_value :=
  VObj [("name", VStr (property_name p)); ("value", VStr (property_value p)); ("valueEncoding", VStr "utf8")].
Definition encode_properties (l : PropertiesListResponse) : js_value :=
  VObj [("repositoryId", VStr (list_repositoryId l)); ("epoch", num (list_epoch l)); ("path", VStr (list_path l));
        ("properties", VArr (map encode_property (list_properties l))); ("source", VStr "libsvn-local")].

Ltac properties_names :=
  unfold requireRequestString, requireResponseString, requireRequestPath, requireResponsePath, requireResponseRecord,
    requireExactResponseKeys, requirePropertyName, requireValueEncoding, requireSource in *.

Lemma validate_properties_sound v r : validatePropertiesListRequest v = Ok r -> properties_request_ok r.
Proof. unfold validatePropertiesListRequest. properties_names. intros H. client_inv. by split. Qed.
Lemma validate_properties_complete r : properties_request_ok r -> validatePropertiesListRequest (Some (properties_params r)) = Ok r.
Proof. intros (? & ? & ?). unfold validatePropertiesListRequest. properties_names. do 5 client_step. by destruct r. Qed.

Lemma listed_value_takes v f s : requirePropertyValue v f = Ok s <-> v = Some (VStr s) /\ value_ok s.
Proof.
  unfold requirePropertyValue, value_ok. destruct v as [[| | |t| |]|]; try naive_solver. rewrite bind_ok. setoid_rewrite require_ok.
  rewrite <- orb_false_iff. split.
  - intros (u & H & [= <-]). split; [done|by apply negb_true_iff].
  - intros [[= ->] H]. exists tt. split; [by apply negb_true_iff|done].
Qed.
Lemma literal_takes expected f : text_ok expected -> requireLiteral expected (Some (VStr expected)) f = Ok tt.
Proof. intros H. unfold requireLiteral, requireResponseString. client_step. by apply require_ok, bool_decide_eq_true. Qed.
Lemma parse_property_sound v f p : parsePropertyEntry v f = Ok p -> property_ok p.
Proof.
  unfold parsePropertyEntry. properties_names. intros H. client_inv.
  match goal with H : requirePropertyValue _ _ = Ok _ |- _ => apply listed_value_takes in H as [? ?] end. by split.
Qed.
Lemma parse_property_complete p f : property_ok p -> parsePropertyEntry (encode_property p) f = Ok p.
Proof.
  intros [? ?]. unfold parsePropertyEntry. properties_names. do 3 client_step.
  apply bind_ok. eexists. split; [by apply listed_value_takes; split|].
  apply bind_ok. exists tt. split; [by apply literal_takes|]. by destruct p.
Qed.

Lemma properties_answer_sound r raw l : properties_request_ok r -> parsePropertiesListResponse raw = Ok l ->
  requireResponseMatchesRequest l r = Ok tt -> properties_answers r l.
Proof.
  intros _ Hp Hm. unfold requireResponseMatchesRequest in Hm. do 2 (apply bind_ok in Hm as ([] & ?%require_ok & Hm)).
  apply require_ok in Hm. bool_cases. match goal with H : Z.eqb _ _ = true |- _ => apply Z.eqb_eq in H end. split; [done|].
  unfold parsePropertiesListResponse, parsePropertyEntries in Hp. properties_names. client_inv. cbn.
  eapply mapi_forall; [done|]. intros ? ? ? He. exact (parse_property_sound _ _ _ He).
Qed.
Lemma properties_answer_complete r l : properties_request_ok r -> properties_answers r l ->
  parsePropertiesListResponse (Some (encode_properties l)) = Ok l /\ requireResponseMatchesRequest l r = Ok tt.
Proof.
  intros (Hid & He & Hp) [(E1 & E2 & E3) Hall]. split.
  2: { apply bind_ok. exists tt. split; [by apply require_ok, bool_decide_eq_true|]. apply bind_ok. exists tt.
       split; [by apply require_ok, Z.eqb_eq|]. by apply require_ok, bool_decide_eq_true. }
  rewrite <- E1 in Hid. rewrite <- E2 in He. rewrite <- E3 in Hp.
  unfold parsePropertiesListResponse, parsePropertyEntries. properties_names. do 5 client_step.
  apply bind_ok. exists (list_properties l). split.
  { client_step. eapply mapi_encode; [exact Hall|]. intros k p. apply parse_property_complete. }
  apply bind_ok. exists tt. split; [by apply literal_takes|]. by destruct l.
Qed.

Definition properties_client : wire_client :=
  {| client_call := listProperties; client_method := "properties/list"; params := properties_params; encode := encode_properties;
     request_ok := properties_request_ok; answers := properties_answers |}.
Lemma properties_client_exact : client_sound properties_client /\ client_complete properties_client.
Proof. exact (client_of_exact "properties/list" _ _ _ _ _ _ _ validate_properties_sound validate_properties_complete properties_answer_sound properties_answer_complete). Qed.
End PropertiesFacts.

Module CheckoutFacts.
Import RepositoryCheckoutRpcClient.

Definition place_ok (path : string) : Prop := checked_ok (fun path => isAbsolutePath path && isOneLine path) path.
Definition checkout_request_ok (r : RepositoryCheckoutRequest) : Prop :=
  checked_ok isOneLine (req_url r) /\ place_ok (req_targetPath r)
  /\ match req_revision r with Head => True | Revision z => revnum_ok z end.
Definition checkout_answers (r : RepositoryCheckoutRequest) (a : RepositoryCheckoutResponse) : Prop :=
  place_ok (workingCopyPath a) /\ revnum_ok (checkout_revision a).
Definition encode_checkout (a : RepositoryCheckoutResponse) : js_value :=
  VObj [("workingCopyPath", VStr (workingCopyPath a)); ("revision", num (checkout_revision a))].

Lemma revision_number_ok invalid v f z : requireRevisionNumber invalid v f = Ok z <-> v = Some (num z) /\ revnum_ok z.
Proof.
  unfold requireRevisionNumber, revnum_ok, num. destruct v as [[| |[]| | |]|]; try naive_solver.
  rewrite bind_ok. setoid_rewrite require_ok. split; [intros (u & ? & [= ->]); split; [done|lia]|].
  intros [[= ->] ?]. exists tt. split; [lia|done].
Qed.
Lemma revision_ok invalid v f r : requireRevision invalid v f = Ok r <->
  v = Some (revision_value r) /\ match r with Head => True | Revision z => revnum_ok z end.
Proof.
  unfold requireRevision. destruct v as [[]|]; try (rewrite bind_ok; setoid_rewrite revision_number_ok; destruct r; unfold revision_value, num; naive_solver).
  case_bool_decide; destruct r; unfold revision_value; naive_solver.
Qed.
Lemma checkout_depth_takes d f : requireCheckoutDepth (Some (VStr (depth_name d))) f = Ok d.
Proof. by destruct d. Qed.

Lemma validate_checkout_sound v r : validateCheckoutRequest v = Ok r -> checkout_request_ok r.
Proof.
  unfold validateCheckoutRequest, requireCheckoutUrl, requireAbsolutePath. intros H. client_inv.
  match goal with H : requireRevision _ _ _ = Ok _ |- _ => apply revision_ok in H as [? ?] end. by split.
Qed.
Lemma validate_checkout_complete r : checkout_request_ok r -> validateCheckoutRequest (Some (checkout_params r)) = Ok r.
Proof.
  intros (? & ? & ?). unfold validateCheckoutRequest, requireCheckoutUrl, requireAbsolutePath. do 4 client_step.
  apply bind_ok. eexists. split; [by apply revision_ok; split|]. apply bind_ok. eexists. split; [apply checkout_depth_takes|].
  client_step. by destruct r.
Qed.
Lemma checkout_answer_sound r raw a : checkout_request_ok r -> parseCheckoutResponse raw = Ok a -> Ok tt = Ok tt -> checkout_answers r a.
Proof.
  intros _ Hp _. unfold parseCheckoutResponse, requireAbsolutePath in Hp. client_inv.
  match goal with H : requireRevisionNumber _ _ _ = Ok _ |- _ => apply revision_number_ok in H as [? ?] end. by split.
Qed.
Lemma checkout_answer_complete r a : checkout_request_ok r -> checkout_answers r a ->
  parseCheckoutResponse (Some (encode_checkout a)) = Ok a /\ Ok tt = Ok tt.
Proof.
  intros _ [? ?]. split; [|done]. unfold parseCheckoutResponse, requireAbsolutePath. do 3 client_step.
  apply bind_ok. eexists. split; [by apply revision_number_ok; split|]. by destruct a.
Qed.

Definition checkout_client : wire_client :=
  {| client_call := checkout; client_method := "repository/checkout"; params := checkout_params; encode := encode_checkout;
     request_ok := checkout_request_ok; answers := checkout_answers |}.
Lemma checkout_client_exact : client_sound checkout_client /\ client_complete checkout_client.
Proof. exact (client_of_exact "repository/checkout" _ _ _ _ _ _ _ validate_checkout_sound validate_checkout_complete checkout_answer_sound checkout_answer_complete). Qed.
End CheckoutFacts.
