(* ===== verification/ReadClients.v ===== *)
(** The clients that read history, content and properties, and the checkout
    client, together: what they return, and that they return it. *)

From Stdlib Require Import ZArith Lia Ascii String List.
From stdpp Require Import base option list sets strings.
From S2P Require Import Prelude JsString JsMap JsValue Utf8 JsBase64 StatusTypes StatusWire StatusWireFacts OperationTypes.
From S2P Require Import RpcClient ClientsFacts HistoryClients ContentClients.

Local Open Scope string_scope.

Definition request_clients : list wire_client :=
  [LogFacts.log_client; BlameFacts.blame_client; ContentFacts.content_client; PropertiesFacts.properties_client;
   CheckoutFacts.checkout_client].

(** C30: The log, blame, content, properties and checkout clients return only
    answers to a valid request that they sent, whatever the caller passed and
    the backend answered; and a valid request whose answer comes back in wire
    form is answered with it. *)
Theorem request_clients_exact : Forall (fun c => client_sound c /\ client_complete c) request_clients.
Proof.
  repeat constructor; first [apply LogFacts.log_client_exact|apply BlameFacts.blame_client_exact|
    apply ContentFacts.content_client_exact|apply PropertiesFacts.properties_client_exact|apply CheckoutFacts.checkout_client_exact].
Qed.

(** ** A change of the repository's root

    Subversion lists a change of the properties of the root as the path "/", and
    a copy of the root as copied from "/". *)
Definition root_change : HistoryLogRpcClient.HistoryChangedPath :=
  {| HistoryLogRpcClient.changed_path := "/"; HistoryLogRpcClient.changed_action := "M";
     HistoryLogRpcClient.copyFromPath := None; HistoryLogRpcClient.copyFromRevision := None;
     HistoryLogRpcClient.changed_nodeKind := "dir"; HistoryLogRpcClient.textModified := HistoryLogRpcClient.TriFalse;
     HistoryLogRpcClient.propertiesModified := HistoryLogRpcClient.TriTrue |}.
Definition root_entry : HistoryLogRpcClient.HistoryLogEntry :=
  {| HistoryLogRpcClient.entry_revision := 7; HistoryLogRpcClient.entry_author := Some "ann";
     HistoryLogRpcClient.entry_date := None; HistoryLogRpcClient.entry_message := Some "ignore build";
     HistoryLogRpcClient.changedPaths := [root_change]; HistoryLogRpcClient.hasChildren := false;
     HistoryLogRpcClient.nonInheritable := false; HistoryLogRpcClient.subtractiveMerge := false |}.
Definition root_log : HistoryLogRpcClient.HistoryLog :=
  {| HistoryLogRpcClient.log_repositoryId := "repo"; HistoryLogRpcClient.log_epoch := 3; HistoryLogRpcClient.log_path := ".";
     HistoryLogRpcClient.log_startRevision := "head"; HistoryLogRpcClient.log_endRevision := "r0";
     HistoryLogRpcClient.log_limit := 50; HistoryLogRpcClient.log_entries := [root_entry];
     HistoryLogRpcClient.log_source := "libsvn-log" |}.

(** A log that shows one such change is refused as a whole. *)
Example root_change_refused :
  HistoryLogRpcClient.parseHistoryLogResponse (Some (LogFacts.encode_log root_log))
  = Throw (HistoryLogRpcClient.invalidHistoryResponse "entries.0.changedPaths.0.path").
Proof. by vm_compute. Qed.
