(* ===== verification/RemoteClients.v ===== *)
(** status/statusRemoteCheckRpcClient.ts and status/remoteRecoveryRpcClient.ts. *)

From Stdlib Require Import ZArith String List Ascii.
From stdpp Require Import base option list strings.
From S2P Require Import Prelude JsString JsMap JsValue StatusTypes StatusWire RemoteTypes RemoteState RpcClient.

Local Open Scope string_scope.

Module StatusRemoteCheckRpcClient.

(** The envelope [remote] is passed on as it is, with the fields that only the
    backend reads. *)
Record StatusRemoteCheckRequest := { req_repositoryId : string; req_epoch : Z; req_remote : js_value }.

Definition invalidRequest (f : string) : js_error :=
  StructuredError "StatusRemoteCheckRequestError" "SUBVERSIONR_STATUS_REMOTE_CHECK_REQUEST_INVALID" "input"
    "error.status.remoteCheckRequestInvalid" [("field", ArgString f)].
Definition invalidResponse (f : string) : js_error :=
  StructuredError "StatusRemoteCheckRequestError" "SUBVERSIONR_STATUS_REMOTE_CHECK_RESPONSE_INVALID" "protocol"
    "error.status.remoteCheckResponseInvalid" [("field", ArgString f)].

(** [Number.isSafeInteger(value)] with bounds. *)
Definition integer_between (low high : Z) (v : option js_value) : bool :=
  match v with Some (VNum (NumInt z)) => isSafeInteger z && (low <=? z)%Z && (z <=? high)%Z | _ => false end.
Definition text_is (expected : string) (v : option js_value) : bool :=
  match v with Some (VStr s) => bool_decide (s = expected) | _ => false end.
Definition isCanonicalUuid_ (v : option js_value) : bool :=
  match v with Some (VStr s) => isCanonicalUuid s | _ => false end.

Definition ENVELOPE_KEYS : string :=
  "expectedOrigin,intent,interaction,operationId,profile,timeoutMs,trustEpoch,version,workspaceTrust".

Definition validateRemoteEnvelope (value : option js_value) : result js_value :=
  match value with
  | Some (VObj fields) =>
      let v := VObj fields in
      if negb (bool_decide (sorted_keys v = ENVELOPE_KEYS)) then Throw (invalidRequest "remote")
      else if negb (integer_between 1 1 (field v "version"))
              || negb (isCanonicalUuid_ (field v "operationId"))
              || negb (text_is "foreground" (field v "intent"))
              || negb (text_is "allowed" (field v "interaction"))
              || negb (text_is "trusted" (field v "workspaceTrust"))
              || negb (integer_between 1 300000 (field v "timeoutMs"))
              || negb (integer_between 1 MAX_SAFE_INTEGER (field v "trustEpoch"))
      then Throw (invalidRequest "remote")
      else Ok v
  | _ => Throw (invalidRequest "remote")
  end.

Definition validateRequest (request : option js_value) : result StatusRemoteCheckRequest :=
  match request with
  | Some (VObj fields) =>
      let r := VObj fields in
      _ ← require (bool_decide (sort compareText (keys r) = ["epoch"; "remote"; "repositoryId"])) (invalidRequest "request");
      repositoryId ← requireString invalidRequest (field r "repositoryId") "repositoryId";
      epoch ← requireNonNegativeInteger invalidRequest (field r "epoch") "epoch";
      remote ← validateRemoteEnvelope (field r "remote");
      Ok {| req_repositoryId := repositoryId; req_epoch := epoch; req_remote := remote |}
  | _ => Throw (invalidRequest "repositoryId")
  end.

(** A remote check covers the working copy as a whole and leaves the local
    entries alone. *)
Definition coverage_of_check (coverage : list StatusCoverageScope) : bool :=
  match coverage with
  | [scope] => bool_decide (coverage_path scope = ".") && bool_decide (coverage_depth scope = "workingCopy")
               && bool_decide (coverage_reason scope = "manualRemoteCheck")
  | _ => false
  end.
Definition requireRemoteDelta (delta : StatusDelta) (request : StatusRemoteCheckRequest) : result unit :=
  _ ← require (bool_decide (delta_repositoryId delta = req_repositoryId request)) (invalidResponse "repositoryId");
  _ ← require (Z.eqb (delta_epoch delta) (req_epoch request)) (invalidResponse "epoch");
  require (bool_decide (delta_source delta = "libsvn-remote")
           && bool_decide (completeness_name (delta_completeness delta) = "complete")
           && Nat.eqb (length (delta_upsert delta)) 0 && Nat.eqb (length (delta_remove delta)) 0
           && coverage_of_check (delta_coverage delta)) (invalidResponse "remoteCoverage").

Definition check_params (r : StatusRemoteCheckRequest) : js_value :=
  VObj [("repositoryId", VStr (req_repositoryId r)); ("epoch", VNum (NumInt (req_epoch r))); ("remote", req_remote r)].

Definition checkRemoteStatus (win32 : bool) (send : sender) (request : option js_value) : result StatusDelta :=
  call_client send "status/checkRemote" validateRequest check_params (RefreshClient.parseStatusDelta win32) requireRemoteDelta request.

End StatusRemoteCheckRpcClient.

Module RemoteRecoveryRpcClient.

(** The operation ids are tested by a regular expression and passed on as they
    are. *)
Record RemoteRecoveryRequest := {
  req_repositoryId : string; req_epoch : Z; req_operationId : js_value; req_originOperationId : js_value; req_timeoutMs : Z;
}.
Inductive RecoveryFailure := FailIndeterminate | FailBlocked.
Inductive RemoteRecoveryResult :=
  | RecoverySafe (operationId completedAt : string)
  | RecoveryFailed (outcome : RecoveryFailure) (operationId : string) (failure : NativeRemoteFailure).

Definition RemoteRecoveryRpcError (f : string) : js_error :=
  StructuredError "RemoteRecoveryRpcError" "SUBVERSIONR_REMOTE_RECOVERY_RPC_INVALID" "protocol"
    "error.remote.recoveryRpcInvalid" [("field", ArgString f)].

(** [a === b], for values of which no two share an object. *)
Definition same_text (a b : js_value) : bool :=
  match a, b with VStr s, VStr t => bool_decide (s = t) | _, _ => false end.

(** All tests of the request have the same error, so their order shows nowhere. *)
Definition validateRequest (request : option js_value) : result RemoteRecoveryRequest :=
  let invalid := RemoteRecoveryRpcError "request" in
  match request with
  | Some (VObj fields) =>
      let r := VObj fields in
      _ ← require (bool_decide (sorted_keys r = "epoch,operationId,originOperationId,repositoryId,timeoutMs")) invalid;
      match field r "repositoryId", field r "epoch", field r "operationId", field r "originOperationId", field r "timeoutMs" with
      | Some (VStr repositoryId), Some (VNum (NumInt epoch)), Some operationId, Some originOperationId, Some (VNum (NumInt timeoutMs)) =>
          _ ← require (isNonEmptyString repositoryId && isNonNegativeSafeInteger epoch
                && pattern_matches isCanonicalUuid operationId && pattern_matches isCanonicalUuid originOperationId
                && negb (same_text originOperationId operationId)
                && isSafeInteger timeoutMs && (1 <=? timeoutMs)%Z && (timeoutMs <=? 300000)%Z) invalid;
          Ok {| req_repositoryId := repositoryId; req_epoch := epoch; req_operationId := operationId;
                req_originOperationId := originOperationId; req_timeoutMs := timeoutMs |}
      | _, _, _, _, _ => Throw invalid
      end
  | _ => Throw invalid
  end.

Definition recovery_params (r : RemoteRecoveryRequest) : js_value :=
  VObj [("repositoryId", VStr (req_repositoryId r)); ("epoch", VNum (NumInt (req_epoch r))); ("operationId", req_operationId r);
        ("originOperationId", req_originOperationId r); ("timeoutMs", VNum (NumInt (req_timeoutMs r)))].

Section Client.
Variable dateParse : string -> option Z.

Definition parseFailed (outcome : RecoveryFailure) (response : js_value) (operationId : string) : result RemoteRecoveryResult :=
  _ ← require (bool_decide (sorted_keys response = "failure,operationId,outcome")) (RemoteRecoveryRpcError "response.failure");
  match RemoteConnectionStateStore.parseWireRemoteFailure (field response "failure") with
  | Ok failure => Ok (RecoveryFailed outcome operationId failure)
  | Throw _ => Throw (RemoteRecoveryRpcError "response.failure")
  end.

Definition parseResponse (value : option js_value) (expectedOperationId : js_value) : result RemoteRecoveryResult :=
  match value with
  | Some (VObj fields) =>
      let response := VObj fields in
      match field response "operationId", expectedOperationId with
      | Some (VStr answered), VStr operationId =>
          _ ← require (bool_decide (answered = operationId)) (RemoteRecoveryRpcError "response.operationId");
          match field response "outcome" with
          | Some (VStr outcome) =>
              if bool_decide (outcome = "safe") then
                _ ← require (bool_decide (sorted_keys response = "completedAt,operationId,outcome")) (RemoteRecoveryRpcError "response.safe");
                match field response "completedAt" with
                | Some (VStr completedAt) =>
                    _ ← require (isTimestamp dateParse completedAt) (RemoteRecoveryRpcError "response.safe");
                    Ok (RecoverySafe operationId completedAt)
                | _ => Throw (RemoteRecoveryRpcError "response.safe")
                end
              else if bool_decide (outcome = "indeterminate") then parseFailed FailIndeterminate response operationId
              else if bool_decide (outcome = "blocked") then parseFailed FailBlocked response operationId
              else Throw (RemoteRecoveryRpcError "response.outcome")
          | _ => Throw (RemoteRecoveryRpcError "response.outcome")
          end
      | _, _ => Throw (RemoteRecoveryRpcError "response.operationId")
      end
  | _ => Throw (RemoteRecoveryRpcError "response")
  end.

Definition recoverWorkingCopy (send : sender) (request : option js_value) : result RemoteRecoveryResult :=
  validated ← validateRequest request;
  value ← send "remote/recoverWorkingCopy" (recovery_params validated);
  parseResponse value (req_operationId validated).
End Client.

End RemoteRecoveryRpcClient.
