(* ===== verification/RemoteServices.v ===== *)
(** status/remoteStatusCheckService.ts, status/remoteRecoveryService.ts and
    status/remoteRecoveryReconnect.ts.

    An asynchronous method is cut at its awaits: what it waits for is a value
    ([check], [recovery]), and each reaction to an answer runs to the next await.
    Between two reactions anything may happen to the stores.  The envelope
    factory, the clients, the clock and the maker of ids are parameters. *)

From Stdlib Require Import ZArith String List.
From stdpp Require Import base option list strings.
From S2P Require Import Prelude JsString JsMap JsValue JsDate StatusTypes StatusStore RemoteTypes RemoteState RemoteStateFacts ScmResources ProjectionService RemoteClients.

Import RemoteConnectionStateStore.
Local Open Scope string_scope.

(** What a promise of the options rejects with: an error of the remote profile,
    or another error, with [error.safeArgs.remoteFailure] where it has one. *)
Inductive rejection :=
  | ProfileConfigurationError (code : string)
  | OtherError (error : js_error) (remoteFailure : option js_value).

Definition LOCAL_UNSUPPORTED_REMOTE_CODES : list string :=
  ["SUBVERSIONR_REMOTE_PROXY_UNSUPPORTED"; "SUBVERSIONR_REMOTE_SSH_PROFILE_UNSUPPORTED";
   "SUBVERSIONR_REMOTE_REDIRECT_POLICY_UNSUPPORTED"; "SUBVERSIONR_REMOTE_TLS_POLICY_UNSUPPORTED";
   "SUBVERSIONR_REMOTE_AUTH_UNSUPPORTED"; "SUBVERSIONR_REMOTE_SCHEME_UNSUPPORTED"].

Definition attention (reason : NativeRemoteFailureReason) : NativeRemoteFailure :=
  {| failure_category := CatAttention; failure_reason := reason; failure_cleanupAppropriate := false |}.

Definition remoteFailureFromError (error : rejection) : NativeRemoteFailure :=
  match error with
  | ProfileConfigurationError code =>
      attention (if bool_decide (code ∈ LOCAL_UNSUPPORTED_REMOTE_CODES) then RemoteCapabilityUnsupported else RemoteConfigurationInvalid)
  | OtherError _ value =>
      match parseWireRemoteFailure value with
      | Ok failure => failure
      | Throw _ => attention UnknownRemote
      end
  end.

(** The failure as the object the store reads. *)
Definition failure_object (f : NativeRemoteFailure) : option js_value := Some (encode_failure (name_of (failure_category f)) f).

(** How an asynchronous method ends. *)
Inductive outcome (A : Type) :=
  | Fulfilled (a : A)
  | Rejected (r : rejection)
  | Threw (e : js_error)
  | RebuildFailed (error replacementError : js_error).
Arguments Fulfilled {A}.
Arguments Rejected {A}.
Arguments Threw {A}.
Arguments RebuildFailed {A}.

(** ** The objects of the options *)
Section Services.
Variable dateParse : string -> option Z.
Variable localeCompareEn localeCompare : string -> string -> comparison.
Context {L E C : Type}.
Variable listeners : list (RemoteConnectionState -> method L unit).
Variable env : SourceControlProjectionService.Environment E.
Variable now createOperationId : method C string.

Record app := {
  remoteStore : store L;
  snapshotStore : StatusSnapshotStore.store;
  projection : SourceControlProjectionService.service E;
  clock : C;
}.
Definition on_remote {A} (m : method (store L) A) : method app A :=
  on_part remoteStore (fun s t => {| remoteStore := t; snapshotStore := snapshotStore s; projection := projection s; clock := clock s |}) m.
Definition on_snapshots {A} (m : method StatusSnapshotStore.store A) : method app A :=
  on_part snapshotStore (fun s t => {| remoteStore := remoteStore s; snapshotStore := t; projection := projection s; clock := clock s |}) m.
Definition on_projection {A} (m : method (SourceControlProjectionService.service E) A) : method app A :=
  on_part projection (fun s t => {| remoteStore := remoteStore s; snapshotStore := snapshotStore s; projection := t; clock := clock s |}) m.
Definition on_clock {A} (m : method C A) : method app A :=
  on_part clock (fun s t => {| remoteStore := remoteStore s; snapshotStore := snapshotStore s; projection := projection s; clock := t |}) m.

Definition updateProjection (state : RemoteConnectionState) : method app unit :=
  on_projection (SourceControlProjectionService.updateRemoteConnectionState localeCompareEn localeCompare env state).
(** [if (completed.applied) { updateRemoteConnectionState(completed.state) }] *)
Definition show_applied (completed : ApplyResult) : method app unit :=
  if applied completed then
    match applied_state completed with Some state => updateProjection state | None => mret tt end
  else mret tt.

(** The rest of a method, run on the stores, with what it settles with. *)
Definition settle {A B} (m : method app A) (rejects : js_error -> outcome B) (k : A -> outcome B) : app -> outcome B * app := fun s =>
  match m s with
  | (Ok a, s') => (k a, s')
  | (Throw e, s') => (rejects e, s')
  end.

(** ** RemoteStatusCheckService *)
Record RemoteStatusCheckTarget := { target_repositoryId : string; target_epoch : Z; target_repositoryRootUrl : string }.
(** The envelope, as far as the service reads it, and the object itself. *)
Record RemoteOperationEnvelope := { remote_operationId : string; remote_scheme : string; remote_object : js_value }.
Record CheckRequest := { check_repositoryId : string; check_epoch : Z; check_remote : RemoteOperationEnvelope }.

Definition completeCheckFailure (target : RemoteStatusCheckTarget) (operationId : string) (error : rejection) : method app unit :=
  failedAt ← on_clock now;
  completed ← on_remote (completeFailure dateParse listeners (target_repositoryId target) (target_epoch target) operationId failedAt
    (failure_object (remoteFailureFromError error)) (Some (VBool false)));
  show_applied completed.

Definition completeCheckOnline (request : CheckRequest) (incomingApplied : bool) : method app unit :=
  checkedAt ← on_clock now;
  completed ← on_remote (completeOnline dateParse listeners (check_repositoryId request) (check_epoch request)
    (remote_operationId (check_remote request)) (remote_scheme (check_remote request)) checkedAt (Some (VBool incomingApplied)));
  show_applied completed.

(** [checkRemoteChanges] up to the await of [createRemoteEnvelope]: the id of
    the operation. *)
Definition startCheck (target : RemoteStatusCheckTarget) : method app string :=
  operationId ← on_clock createOperationId;
  startedAt ← on_clock now;
  checking ← on_remote (beginCheck dateParse listeners (target_repositoryId target) (target_epoch target) operationId startedAt);
  _ ← updateProjection checking;
  mret operationId.

(** What a started check waits for: the envelope, the client's delta, or its
    turn in [runExclusive]. *)
Inductive check :=
  | AwaitEnvelope (target : RemoteStatusCheckTarget) (operationId : string)
  | AwaitDelta (target : RemoteStatusCheckTarget) (operationId : string) (remote : RemoteOperationEnvelope)
  | AwaitTurn (request : CheckRequest) (delta : StatusDelta)
  | CheckSettled (o : outcome Z).

(** [catch (error) { this.completeFailure(...); throw error; }] *)
Definition check_failed (target : RemoteStatusCheckTarget) (operationId : string) (error : rejection) (s : app) : check * app :=
  let (o, s') := settle (completeCheckFailure target operationId error) Threw (fun _ => Rejected error) s in (CheckSettled o, s').

Definition envelope_answered (target : RemoteStatusCheckTarget) (operationId : string) (answer : rejection + RemoteOperationEnvelope)
    (s : app) : check * app :=
  match answer with
  | inl error => check_failed target operationId error s
  | inr remote => (AwaitDelta target operationId remote, s)
  end.

Definition delta_answered (target : RemoteStatusCheckTarget) (operationId : string) (remote : RemoteOperationEnvelope)
    (answer : rejection + StatusDelta) (s : app) : check * app :=
  match answer with
  | inl error => check_failed target operationId error s
  | inr delta =>
      (AwaitTurn {| check_repositoryId := target_repositoryId target; check_epoch := target_epoch target; check_remote := remote |} delta, s)
  end.

(** The callback of [runExclusive].  An [AggregateError] is the pair of errors. *)
Definition turn_taken (request : CheckRequest) (delta : StatusDelta) (s : app) : outcome Z * app :=
  match on_snapshots (StatusSnapshotStore.applyDelta delta) s with
  | (Throw error, s1) => settle (completeCheckOnline request false) Threw (fun _ => Threw error) s1
  | (Ok snapshot, s1) =>
      match on_projection (SourceControlProjectionService.applyDelta localeCompareEn localeCompare env delta) s1 with
      | (Ok _, s2) => settle (completeCheckOnline request true) Threw (fun _ => Fulfilled (summary_remoteChanges (snapshot_summary snapshot))) s2
      | (Throw error, s2) =>
          match on_projection (SourceControlProjectionService.replaceSnapshot localeCompareEn localeCompare env snapshot) s2 with
          | (Ok _, s3) => settle (completeCheckOnline request true) Threw (fun _ => Threw error) s3
          | (Throw replacementError, s3) => settle (completeCheckOnline request false) Threw (fun _ => RebuildFailed error replacementError) s3
          end
      end
  end.

(** What can happen to a waiting check: the promise it waits for settles, or
    [runExclusive] refuses it a turn. *)
Inductive check_event :=
  | EnvelopeAnswer (answer : rejection + RemoteOperationEnvelope)
  | DeltaAnswer (answer : rejection + StatusDelta)
  | Turn
  | TurnRefused (error : js_error).
Definition check_react (c : check) (ev : check_event) (s : app) : check * app :=
  match c, ev with
  | AwaitEnvelope target op, EnvelopeAnswer answer => envelope_answered target op answer s
  | AwaitDelta target op remote, DeltaAnswer answer => delta_answered target op remote answer s
  | AwaitTurn request delta, Turn => let (o, s') := turn_taken request delta s in (CheckSettled o, s')
  | AwaitTurn _ _, TurnRefused error => (CheckSettled (Threw error), s)
  | _, _ => (c, s)
  end.

(** ** RemoteRecoveryService *)
Variable timeoutMs : Z.
Definition recoveryServiceError (code category messageKey : string) (args : list (string * safe_arg)) : js_error :=
  StructuredError "RemoteRecoveryServiceError" code category messageKey args.
Definition newRecoveryService : result unit :=
  require (isSafeInteger timeoutMs && (1 <=? timeoutMs)%Z && (timeoutMs <=? 300000)%Z)
    (recoveryServiceError "SUBVERSIONR_REMOTE_RECOVERY_TIMEOUT_INVALID" "input" "error.remote.recoveryTimeoutInvalid" []).
Definition recoveryNotRequired (repositoryId : string) : js_error :=
  recoveryServiceError "SUBVERSIONR_REMOTE_RECOVERY_NOT_REQUIRED" "lifecycle" "error.remote.recoveryNotRequired"
    [("repositoryId", ArgString repositoryId)].

(** The operation a recovery is required for. *)
Definition requiredRecovery (epoch : Z) (state : option RemoteConnectionState) : option string :=
  match state with
  | Some current =>
      if negb (rc_epoch current =? epoch)%Z then None
      else match rc_kind current, rc_recovery current with
           | Indeterminate _, Required operationId _ => Some operationId
           | _, _ => None
           end
  | None => None
  end.

Definition deadline (startedAt : string) : result string :=
  match dateParse startedAt with
  | Some at_ => toISOString (at_ + timeoutMs)
  | None => Throw InvalidTime
  end.

Inductive recovery :=
  | AwaitRecovery (repositoryId : string) (epoch : Z) (operationId originOperationId : string)
  | RecoverySettled (o : outcome string).

(** [recover] up to the await of the client. *)
Definition startRecovery (repositoryId : string) (epoch : Z) : method app recovery :=
  current ← on_remote (getState repositoryId);
  match requiredRecovery epoch current with
  | None => throw_error (recoveryNotRequired repositoryId)
  | Some originOperationId =>
      operationId ← on_clock createOperationId;
      startedAt ← on_clock now;
      deadlineAt ← lift_result (deadline startedAt);
      checking ← on_remote (beginRecovery dateParse listeners repositoryId epoch operationId startedAt deadlineAt);
      _ ← updateProjection checking;
      mret (AwaitRecovery repositoryId epoch operationId originOperationId)
  end.

Definition completeRecoveryAs (repositoryId : string) (epoch : Z) (operationId completedAt result_ : string) (failure : option js_value) : method app unit :=
  completed ← on_remote (completeRecovery dateParse listeners repositoryId epoch operationId completedAt result_ failure);
  show_applied completed.

Definition outcome_name (o : RemoteRecoveryRpcClient.RecoveryFailure) : string :=
  match o with RemoteRecoveryRpcClient.FailIndeterminate => "indeterminate" | RemoteRecoveryRpcClient.FailBlocked => "blocked" end.

Definition recovery_answered (repositoryId : string) (epoch : Z) (operationId : string)
    (answer : rejection + RemoteRecoveryRpcClient.RemoteRecoveryResult) : app -> outcome string * app :=
  match answer with
  | inl error =>
      settle (completedAt ← on_clock now;
              completeRecoveryAs repositoryId epoch operationId completedAt "indeterminate" (failure_object (remoteFailureFromError error)))
        Threw (fun _ => Rejected error)
  | inr (RemoteRecoveryRpcClient.RecoverySafe _ completedAt) =>
      settle (completeRecoveryAs repositoryId epoch operationId completedAt "safe" None) Threw (fun _ => Fulfilled "safe")
  | inr (RemoteRecoveryRpcClient.RecoveryFailed o _ failure) =>
      settle (completedAt ← on_clock now;
              completeRecoveryAs repositoryId epoch operationId completedAt (outcome_name o) (failure_object failure))
        Threw (fun _ => Fulfilled (outcome_name o))
  end.

(** ** remoteRecoveryReconnect.ts

    The recoveries are started one after the other; their errors are recorded,
    those of the start at once and the others when they settle. *)
Variable recordFailure : js_error -> method C unit.

Definition pending (s : store L) (sessions : list (string * Z)) : list (string * Z) :=
  filter (fun session => is_Some (requiredRecovery (snd session) (map_get (repositories s) (fst session)))) sessions.

Fixpoint start_each (sessions : list (string * Z)) : method app (list recovery) :=
  match sessions with
  | [] => mret []
  | (repositoryId, epoch) :: sessions' =>
      started ← try_catch (r ← startRecovery repositoryId epoch; mret [r])
                  (fun error => _ ← on_clock (recordFailure error); mret []);
      rest ← start_each sessions';
      mret (started ++ rest)%list
  end.
Definition redriveRequiredRemoteRecoveries (sessions : list (string * Z)) : method app (list recovery) :=
  s ← get_state;
  start_each (pending (remoteStore s) sessions).
End Services.
