(* ===== verification/RemoteServicesFacts.v ===== *)
(** The clients of remote checks and recoveries accept exactly valid requests and
    answers; what the check and recovery services leave in the stores. *)

From Stdlib Require Import ZArith Lia String List.
From stdpp Require Import base option list sets strings.
From S2P Require Import Prelude JsString JsMap JsValue StatusTypes StatusWire StatusWireFacts StatusStore ScmResources RemoteTypes ProjectionService RemoteState RemoteStateFacts JsDate RpcClient ClientsFacts RemoteClients RemoteServices.

Local Open Scope string_scope.

Module RemoteCheckFacts.
Import StatusRemoteCheckRpcClient.
Section Client.
Variable win32 : bool.

Definition check_request_ok (r : StatusRemoteCheckRequest) : Prop :=
  text_ok (req_repositoryId r) /\ count_ok (req_epoch r) /\ validateRemoteEnvelope (Some (req_remote r)) = Ok (req_remote r).
(** The answer is a delta of the repository asked for, that touches remote
    entries only. *)
Record check_answers (r : StatusRemoteCheckRequest) (d : StatusDelta) : Prop := {
  check_delta_ok : delta_ok win32 d;
  check_same_repository : delta_repositoryId d = req_repositoryId r /\ delta_epoch d = req_epoch r;
  check_source : delta_source d = "libsvn-remote" /\ delta_completeness d = Complete;
  check_local_untouched : delta_upsert d = [] /\ delta_remove d = [];
  check_coverage : exists c, delta_coverage d = [c] /\ coverage_path c = "." /\ coverage_depth c = "workingCopy"
    /\ coverage_reason c = "manualRemoteCheck";
}.

Lemma envelope_same v e : validateRemoteEnvelope v = Ok e -> v = Some e.
Proof using Type. unfold validateRemoteEnvelope. destruct v as [[]|]; try done. cbn zeta. repeat case_match; naive_solver. Qed.
Lemma validate_check_sound v r : validateRequest v = Ok r -> check_request_ok r.
Proof using Type.
  unfold validateRequest. destruct v as [[]|]; try done. cbn zeta. intros H. client_inv.
  match goal with H : validateRemoteEnvelope _ = Ok _ |- _ => rename H into He end.
  pose proof (envelope_same _ _ He) as E. rewrite E in He. by split.
Qed.
Lemma validate_check_complete r : check_request_ok r -> validateRequest (Some (check_params r)) = Ok r.
Proof using Type.
  intros (? & ? & He). unfold validateRequest, check_params. cbn zeta.
  apply bind_ok. exists tt. split; [by apply require_ok|]. do 2 client_step.
  apply bind_ok. exists (req_remote r). split; [exact He|]. by destruct r.
Qed.

Lemma remote_delta_ok d r : requireRemoteDelta d r = Ok tt <->
  (delta_repositoryId d = req_repositoryId r /\ delta_epoch d = req_epoch r) /\
  (delta_source d = "libsvn-remote" /\ delta_completeness d = Complete) /\ (delta_upsert d = [] /\ delta_remove d = []) /\
  exists c, delta_coverage d = [c] /\ coverage_path c = "." /\ coverage_depth c = "workingCopy" /\ coverage_reason c = "manualRemoteCheck".
Proof using Type.
  unfold requireRemoteDelta. split.
  - intros H. do 2 (apply bind_ok in H as ([] & ?%require_ok & H)). apply require_ok in H. bool_cases.
    repeat match goal with
    | H : Z.eqb _ _ = true |- _ => apply Z.eqb_eq in H
    | H : Nat.eqb _ _ = true |- _ => apply Nat.eqb_eq, length_zero_iff_nil in H
    end.
    split; [done|]. split; [split; [done|]; by destruct (delta_completeness d)|]. split; [done|].
    unfold coverage_of_check in *. destruct (delta_coverage d) as [|c [|]]; try done. bool_cases. by exists c.
  - intros ((E1 & E2) & (E3 & E4) & (E5 & E6) & c & E7 & E8 & E9 & E10).
    apply bind_ok. exists tt. split; [by apply require_ok, bool_decide_eq_true|].
    apply bind_ok. exists tt. split; [by apply require_ok, Z.eqb_eq|]. apply require_ok.
    rewrite E3, E4, E5, E6, E7. cbn [coverage_of_check]. rewrite E8, E9, E10. by vm_compute.
Qed.
Lemma check_answer_sound r raw d : check_request_ok r -> RefreshClient.parseStatusDelta win32 raw = Ok d ->
  requireRemoteDelta d r = Ok tt -> check_answers r d.
Proof using Type. intros _ Hd%parseStatusDelta_ok (? & ? & ? & ?)%remote_delta_ok. by split. Qed.
Lemma check_answer_complete r d : check_request_ok r -> check_answers r d ->
  RefreshClient.parseStatusDelta win32 (Some (encode_delta d)) = Ok d /\ requireRemoteDelta d r = Ok tt.
Proof using Type. intros _ [? ? ? ? ?]. split; [by apply parseStatusDelta_encode|by apply remote_delta_ok]. Qed.

Definition check_client : wire_client :=
  {| client_call := checkRemoteStatus win32; client_method := "status/checkRemote"; params := check_params;
     encode := encode_delta; request_ok := check_request_ok; answers := check_answers |}.
Lemma check_client_exact : client_sound check_client /\ client_complete check_client.
Proof using Type.
  exact (client_of_exact "status/checkRemote" _ _ _ _ _ _ _ validate_check_sound validate_check_complete check_answer_sound check_answer_complete).
Qed.
End Client.
End RemoteCheckFacts.

Module RecoveryFacts.
Import RemoteRecoveryRpcClient.
Section Client.
Variable dateParse : string -> option Z.

Record recovery_request_ok (r : RemoteRecoveryRequest) : Prop := {
  recovery_request_repository : isNonEmptyString (req_repositoryId r) = true /\ isNonNegativeSafeInteger (req_epoch r) = true;
  recovery_request_ids : pattern_matches isCanonicalUuid (req_operationId r) = true
    /\ pattern_matches isCanonicalUuid (req_originOperationId r) = true /\ same_text (req_originOperationId r) (req_operationId r) = false;
  recovery_request_timeout : (1 <= req_timeoutMs r <= 300000)%Z;
}.
(** The answer names the recovery asked for, and what it carries can be given to
    the connection store as it is. *)
Definition recovery_answers (r : RemoteRecoveryRequest) (a : RemoteRecoveryResult) : Prop :=
  match a with
  | RecoverySafe op at_ => req_operationId r = VStr op /\ isTimestamp dateParse at_ = true
  | RecoveryFailed _ op failure => req_operationId r = VStr op /\ failure_category failure = categoryForReason (failure_reason failure)
  end.
Definition failure_name (f : RecoveryFailure) : string := match f with FailIndeterminate => "indeterminate" | FailBlocked => "blocked" end.
Definition encode_recovery (a : RemoteRecoveryResult) : js_value :=
  match a with
  | RecoverySafe op at_ => VObj [("outcome", VStr "safe"); ("operationId", VStr op); ("completedAt", VStr at_)]
  | RecoveryFailed outcome op failure =>
      VObj [("outcome", VStr (failure_name outcome)); ("operationId", VStr op);
            ("failure", encode_failure (WIRE_CATEGORY_BY_REASON (failure_reason failure)) failure)]
  end.

Lemma validate_recovery_sound v r : validateRequest v = Ok r -> recovery_request_ok r.
Proof using Type.
  unfold validateRequest. destruct v as [[| | | | |fields]|]; try done. cbn zeta. rewrite bind_ok. intros ([] & _ & H).
  repeat case_match; try done. apply bind_ok in H as ([] & Hc%require_ok & [= <-]). bool_cases. split; cbn; [done|done|lia].
Qed.
Lemma validate_recovery_complete r : recovery_request_ok r -> validateRequest (Some (recovery_params r)) = Ok r.
Proof using Type.
  intros [[H1 H2] (H3 & H4 & H5) H6]. destruct r as [id ep op origin t]. cbn in *. unfold validateRequest, recovery_params. cbn zeta.
  apply bind_ok. exists tt. split; [by apply require_ok|].
  cbn [field req_repositoryId req_epoch req_operationId req_originOperationId req_timeoutMs].
  change (map_get _ "repositoryId") with (Some (VStr id)). change (map_get _ "epoch") with (Some (VNum (NumInt ep))).
  change (map_get _ "operationId") with (Some op). change (map_get _ "originOperationId") with (Some origin).
  change (map_get _ "timeoutMs") with (Some (VNum (NumInt t))). cbn match.
  apply bind_ok. exists tt. split; [|done]. apply require_ok. rewrite H1, H2, H3, H4, H5. unfold isSafeInteger, MAX_SAFE_INTEGER. cbn [andb negb]. lia.
Qed.

Lemma parse_failed_sound o v op a : parseFailed o v op = Ok a ->
  exists f, a = RecoveryFailed o op f /\ failure_category f = categoryForReason (failure_reason f).
Proof using Type.
  unfold parseFailed. rewrite bind_ok. intros ([] & _ & H). case_match eqn:E; simplify_eq. eexists. split; [done|]. by eapply wire_failure_exact.
Qed.
Lemma recovery_answer_sound r raw a : parseResponse dateParse raw (req_operationId r) = Ok a -> recovery_answers r a.
Proof using Type.
  unfold parseResponse. destruct raw as [[| | | | |fields]|]; try done. cbn zeta.
  destruct (field (VObj fields) "operationId") as [[| | |answered| |]|]; try done.
  destruct (req_operationId r) as [| | |op| |] eqn:E; try done. rewrite bind_ok. intros ([] & _ & H).
  destruct (field (VObj fields) "outcome") as [[| | |outcome| |]|]; try done.
  case_bool_decide.
  { apply bind_ok in H as ([] & _ & H). destruct (field (VObj fields) "completedAt") as [[| | |at_| |]|]; try done.
    apply bind_ok in H as ([] & Ht%require_ok & [= <-]). done. }
  repeat case_bool_decide; try done; apply parse_failed_sound in H as (f & -> & Hf); done.
Qed.

Lemma parse_failed_complete o op f : failure_category f = categoryForReason (failure_reason f) ->
  parseFailed o (encode_recovery (RecoveryFailed o op f)) op = Ok (RecoveryFailed o op f).
Proof using Type.
  intros Hf. unfold parseFailed. apply bind_ok. exists tt. split; [by apply require_ok; destruct o|].
  change (field (encode_recovery (RecoveryFailed o op f)) "failure") with (Some (encode_failure (WIRE_CATEGORY_BY_REASON (failure_reason f)) f)).
  assert (RemoteConnectionStateStore.parseWireRemoteFailure (Some (encode_failure (WIRE_CATEGORY_BY_REASON (failure_reason f)) f)) = Ok f) as ->; [|done].
  destruct f as [cat reason cleanup]. cbn in Hf. subst cat. by destruct reason, cleanup.
Qed.
Lemma recovery_answer_complete r a : recovery_answers r a ->
  parseResponse dateParse (Some (encode_recovery a)) (req_operationId r) = Ok a.
Proof using Type.
  destruct a as [op at_|o op f]; intros [-> H].
  - unfold parseResponse. cbn [encode_recovery]. cbn zeta.
    change (field _ "operationId") with (Some (VStr op)). cbn match.
    apply bind_ok. exists tt. split; [by apply require_ok, bool_decide_eq_true|]. change (field _ "outcome") with (Some (VStr "safe")). cbn match.
    rewrite bool_decide_eq_true_2 by done. apply bind_ok. exists tt. split; [by apply require_ok|].
    change (field _ "completedAt") with (Some (VStr at_)). cbn match.
    apply bind_ok. exists tt. split; [by apply require_ok|done].
  - unfold parseResponse. cbn [encode_recovery]. cbn zeta.
    change (field _ "operationId") with (Some (VStr op)). cbn match.
    apply bind_ok. exists tt. split; [by apply require_ok, bool_decide_eq_true|]. change (field _ "outcome") with (Some (VStr (failure_name o))). cbn match.
    destruct o; exact (parse_failed_complete _ op f H).
Qed.

Definition recovery_client : wire_client :=
  {| client_call := recoverWorkingCopy dateParse; client_method := "remote/recoverWorkingCopy"; params := recovery_params;
     encode := encode_recovery; request_ok := recovery_request_ok; answers := recovery_answers |}.
Lemma recovery_client_exact : client_sound recovery_client /\ client_complete recovery_client.
Proof using Type.
  split.
  - intros send request a H. cbn in H. unfold recoverWorkingCopy in H. apply bind_ok in H as (r & Hr & H). apply bind_ok in H as (raw & Hs & Ha).
    exists r, raw. split; [by eapply validate_recovery_sound|]. split; [done|]. by eapply recovery_answer_sound.
  - intros send r a Hr Ha Hs. cbn [client_call recovery_client]. unfold recoverWorkingCopy.
    apply bind_ok. exists r. split; [by apply validate_recovery_complete|].
    apply bind_ok. exists (Some (encode_recovery a)). split; [exact Hs|]. by apply recovery_answer_complete.
Qed.
End Client.
End RecoveryFacts.

Import RemoteConnectionStateStore.
Local Open Scope string_scope.

(** ** Failures *)

(** The store accepts every failure the services report. *)
Lemma failure_accepted error :
  validateNativeRemoteFailure (failure_object (remoteFailureFromError error)) = Ok (remoteFailureFromError error).
Proof.
  destruct error as [code|e v]; cbn [remoteFailureFromError].
  - by case_bool_decide.
  - destruct (parseWireRemoteFailure v) as [f|e'] eqn:Hf; [|done]. by eapply wire_failure_exact.
Qed.
Lemma client_failure_accepted f : failure_category f = categoryForReason (failure_reason f) ->
  validateNativeRemoteFailure (failure_object f) = Ok f.
Proof. destruct f as [cat reason cleanup]. cbn. intros ->. by destruct reason, cleanup. Qed.

Section Facts.
Variable dateParse : string -> option Z.
Variable localeCompareEn localeCompare : string -> string -> comparison.
Context {L E C : Type}.
Variable listeners : list (RemoteConnectionState -> method L unit).
Variable env : SourceControlProjectionService.Environment E.
Variable now createOperationId : method C string.
Notation app := (@app L E C).

(** [now()] gives timestamps. *)
Definition clock_ok : Prop := forall c, exists at_ c', now c = (Ok at_, c') /\ isTimestamp dateParse at_ = true.

(** The store still has the check, or the recovery, under way. *)
Definition checking (s : store L) (id : string) (ep : Z) (op : string) : Prop :=
  exists st started, map_get (repositories s) id = Some st /\ rc_epoch st = ep /\ rc_kind st = Checking op started.
Definition recovering (s : store L) (id : string) (ep : Z) (op : string) : Prop :=
  exists st reason origin a b, map_get (repositories s) id = Some st /\ rc_epoch st = ep
    /\ rc_kind st = Indeterminate reason /\ rc_recovery st = RecoveryChecking op origin a b.
(** What [beginCheck] and [beginRecovery] have validated. *)
Definition operation_ok (id : string) (ep : Z) (op : string) : Prop :=
  isNonEmptyString id = true /\ isNonNegativeSafeInteger ep = true /\ isCanonicalUuid op = true.

Lemma operation_valid id ep op at_ : operation_ok id ep op -> isTimestamp dateParse at_ = true ->
  validateOperation dateParse id ep op at_ = Ok tt.
Proof using Type.
  intros (H1 & H2 & H3) H4. unfold validateOperation, validateRepository, validateTimestamp. by rewrite H1, H2, H3, H4.
Qed.

(** *** The effect on the connection store of parts that do not touch it *)
Lemma remote_run {A} (m : method (store L) A) (s : app) : remoteStore (snd (on_remote m s)) = snd (m (remoteStore s)).
Proof using Type. unfold on_remote, on_part. by destruct (m (remoteStore s)). Qed.
Lemma shown_same completed (s : app) :
  remoteStore (snd (show_applied localeCompareEn localeCompare env completed s)) = remoteStore s.
Proof using Type.
  unfold show_applied, updateProjection, on_projection, on_part. destruct (applied completed); [|done].
  destruct (applied_state completed); [|done].
  by destruct (SourceControlProjectionService.updateRemoteConnectionState _ _ _ _ _).
Qed.
Lemma then_shown (m : method app ApplyResult) (s : app) :
  remoteStore (snd ((completed ← m; show_applied localeCompareEn localeCompare env completed) s)) = remoteStore (snd (m s)).
Proof using Type. unfold mbind, method_bind. destruct (m s) as [[a|e] s']; [apply shown_same|done]. Qed.
Lemma settled_same {A B} (m : method app A) rejects (k : A -> outcome B) (s : app) :
  remoteStore (snd (settle m rejects k s)) = remoteStore (snd (m s)).
Proof using Type. unfold settle. by destruct (m s) as [[a|e] s']. Qed.
Lemma at_now (s : app) : clock_ok -> exists at_ s1, isTimestamp dateParse at_ = true /\ on_clock now s = (Ok at_, s1)
  /\ remoteStore s1 = remoteStore s.
Proof using Type.
  intros Hn. destruct (Hn (clock s)) as (at_ & c' & E1 & Ht). eexists at_, _. unfold on_clock, on_part. rewrite E1. done.
Qed.
Lemma bind_inv {S A B} (m : method S A) (f : A -> method S B) (s s' : S) b :
  (x ← m; f x) s = (Ok b, s') -> exists a s1, m s = (Ok a, s1) /\ f a s1 = (Ok b, s').
Proof using Type. unfold mbind, method_bind. destruct (m s) as [[a|e] s1]; [by exists a, s1|done]. Qed.

(** *** Completions *)
Lemma written id st (s : store L) : rc_repositoryId st = id -> map_get (map_set (repositories s) (rc_repositoryId st) st) id = Some st.
Proof using Type. intros <-. apply map_get_set_eq. Qed.
Lemma apply_repositories st s : repositories (snd (apply listeners st s)) = map_set (repositories s) (rc_repositoryId st) st.
Proof using Type.
  rewrite <- update_repositories with (listeners := listeners). unfold apply, mbind, method_bind. by destruct (update listeners st s) as [[?|?] s'].
Qed.

(** A completion of a check replaces the state of exactly that check. *)
Lemma when_current id ep op f (s : store L) :
  (forall cur, rc_repositoryId (f cur) = id) ->
  let s' := snd (whenCurrentCheck id ep op (fun cur => apply listeners (f cur)) s) in
  (exists cur, map_get (repositories s) id = Some cur /\ rc_epoch cur = ep /\ isCurrentCheck cur op = true
     /\ map_get (repositories s') id = Some (f cur))
  \/ (s' = s /\ ~ checking s id ep op).
Proof using Type.
  intros Hid. cbn zeta. unfold whenCurrentCheck, currentRepository, mbind, method_bind, get_state, mret, method_ret. cbn.
  destruct (map_get (repositories s) id) as [cur|] eqn:Hc.
  2: { right. split; [done|]. intros (st & started & H & _). congruence. }
  destruct (Z.eqb_spec (rc_epoch cur) ep) as [He|He].
  2: { right. split; [done|]. intros (st & started & H & H2 & _). congruence. }
  destruct (isCurrentCheck cur op) eqn:Hi.
  - left. exists cur. rewrite apply_repositories. split_and!; [done|done|done|]. by apply written.
  - right. split; [done|]. intros (st & started & H & _ & Hk). assert (st = cur) as -> by congruence.
    unfold isCurrentCheck in Hi. rewrite Hk in Hi. by rewrite bool_decide_eq_true_2 in Hi.
Qed.

Lemma failure_not_checking op at_ required failure : forall o started, fst (failureOutcome op at_ required failure) <> Checking o started.
Proof using Type. intros o started. unfold failureOutcome. repeat case_match; done. Qed.


(** *** What the completions write *)
Definition failed_state (id : string) (ep : Z) (op at_ : string) (failure : NativeRemoteFailure) (cur : RemoteConnectionState) : RemoteConnectionState :=
  {| rc_kind := fst (failureOutcome op at_ false failure); rc_repositoryId := id; rc_epoch := ep;
     rc_incoming := staleIncoming (rc_incoming cur); rc_recovery := snd (failureOutcome op at_ false failure);
     rc_lastFailure := Some (failureRecord failure at_) |}.
Definition online_state (id : string) (ep : Z) (scheme : RemoteScheme) (at_ : string) (fresh : bool) (cur : RemoteConnectionState) : RemoteConnectionState :=
  {| rc_kind := Online scheme at_; rc_repositoryId := id; rc_epoch := ep;
     rc_incoming := if fresh then {| incoming_kind := IncomingFresh; incoming_lastSuccessfulCheckAt := Some at_ |}
                    else staleIncoming (rc_incoming cur);
     rc_recovery := NotRequired; rc_lastFailure := None |}.

Lemma completeFailure_run id ep op at_ error s : operation_ok id ep op -> isTimestamp dateParse at_ = true ->
  completeFailure dateParse listeners id ep op at_ (failure_object (remoteFailureFromError error)) (Some (VBool false)) s
  = whenCurrentCheck id ep op (fun cur => apply listeners (failed_state id ep op at_ (remoteFailureFromError error) cur)) s.
Proof using Type.
  intros Hop Ht. unfold completeFailure, failed_state. rewrite (operation_valid _ _ _ _ Hop Ht), failure_accepted.
  unfold mbind, method_bind, lift_result. cbn beta iota. by destruct (failureOutcome op at_ false (remoteFailureFromError error)).
Qed.
Lemma completeOnline_run id ep op scheme t at_ fresh s : operation_ok id ep op -> isTimestamp dateParse at_ = true -> of_name scheme = Some t ->
  completeOnline dateParse listeners id ep op scheme at_ (Some (VBool fresh)) s
  = whenCurrentCheck id ep op (fun cur => apply listeners (online_state id ep t at_ fresh cur)) s.
Proof using Type.
  intros Hop Ht Hs. unfold completeOnline, validateTransport. rewrite (operation_valid _ _ _ _ Hop Ht), Hs. reflexivity.
Qed.

Lemma failure_ends target op error (s : app) : clock_ok -> operation_ok (target_repositoryId target) (target_epoch target) op ->
  ~ checking (remoteStore (snd (completeCheckFailure dateParse localeCompareEn localeCompare listeners env now target op error s)))
      (target_repositoryId target) (target_epoch target) op.
Proof using Type.
  intros Hn Hop. unfold completeCheckFailure. destruct (at_now s Hn) as (at_ & s1 & Ht & En & Hs). rewrite (method_bind_ok _ _ _ _ _ En).
  rewrite then_shown, remote_run, Hs, completeFailure_run by done.
  destruct (when_current (target_repositoryId target) (target_epoch target) op (failed_state (target_repositoryId target)
    (target_epoch target) op at_ (remoteFailureFromError error)) (remoteStore s) ltac:(done)) as [(cur & _ & _ & _ & Hg)|[-> Hno]]; [|done].
  intros (st & started & H & _ & Hc). rewrite Hg in H. injection H as <-. exact (failure_not_checking _ _ _ _ _ _ Hc).
Qed.

(** A completed check: its connection is online, and what is known of incoming
    changes is fresh or stale as told. *)
Lemma online_ends request scheme fresh (s : app) : clock_ok ->
  operation_ok (check_repositoryId request) (check_epoch request) (remote_operationId (check_remote request)) ->
  of_name (remote_scheme (check_remote request)) = Some scheme ->
  let s' := remoteStore (snd (completeCheckOnline dateParse localeCompareEn localeCompare listeners env now request fresh s)) in
  let id := check_repositoryId request in let ep := check_epoch request in let op := remote_operationId (check_remote request) in
  ~ checking s' id ep op /\
  (checking (remoteStore s) id ep op -> exists cur at_, map_get (repositories (remoteStore s)) id = Some cur
     /\ map_get (repositories s') id = Some (online_state id ep scheme at_ fresh cur)).
Proof using Type.
  intros Hn Hop Hsch. cbn zeta. unfold completeCheckOnline. destruct (at_now s Hn) as (at_ & s1 & Ht & En & Hs). rewrite (method_bind_ok _ _ _ _ _ En).
  rewrite then_shown, remote_run, Hs, (completeOnline_run _ _ _ _ scheme) by done.
  destruct (when_current (check_repositoryId request) (check_epoch request) (remote_operationId (check_remote request))
    (online_state (check_repositoryId request) (check_epoch request) scheme at_ fresh) (remoteStore s) ltac:(done))
    as [(cur & Hc & _ & _ & Hg)|[-> Hno]]; split; try done.
  - intros (st & started & H & _ & Hk). rewrite Hg in H. by injection H as <-.
  - intros _. by exists cur, at_.
Qed.

(** *** A check *)
(** The envelope is made for the operation, with a scheme the store knows. *)
Definition envelope_ok (op : string) (remote : RemoteOperationEnvelope) : Prop :=
  remote_operationId remote = op /\ is_Some (of_name (A:=RemoteScheme) (remote_scheme remote)).
(** A check of [target] under the id [op] that has not settled. *)
Definition waits (target : RemoteStatusCheckTarget) (op : string) (c : check) : Prop :=
  match c with
  | AwaitEnvelope t o => t = target /\ o = op
  | AwaitDelta t o remote => t = target /\ o = op /\ envelope_ok op remote
  | AwaitTurn request _ => check_repositoryId request = target_repositoryId target /\ check_epoch request = target_epoch target
      /\ envelope_ok op (check_remote request)
  | CheckSettled _ => False
  end.
Definition event_ok (op : string) (ev : check_event) : Prop :=
  match ev with EnvelopeAnswer (inr remote) => envelope_ok op remote | TurnRefused _ => False | _ => True end.
Notation react := (check_react dateParse localeCompareEn localeCompare listeners env now).
Notation take_turn := (turn_taken dateParse localeCompareEn localeCompare listeners env now).

(** Both stores have taken in the delta: the canonical store applied it, and
    the projection applied it or was rebuilt from the canonical snapshot. *)
Definition taken_in (delta : StatusDelta) (s : app) : bool :=
  match on_snapshots (StatusSnapshotStore.applyDelta delta) s with
  | (Throw _, _) => false
  | (Ok snapshot, s1) =>
      match on_projection (SourceControlProjectionService.applyDelta localeCompareEn localeCompare env delta) s1 with
      | (Ok _, _) => true
      | (Throw _, s2) =>
          is_ok (fst (on_projection (SourceControlProjectionService.replaceSnapshot localeCompareEn localeCompare env snapshot) s2))
      end
  end.

Lemma part_same {A} (m : method StatusSnapshotStore.store A) (s : app) : remoteStore (snd (on_snapshots m s)) = remoteStore s.
Proof using Type. unfold on_snapshots, on_part. by destruct (m (snapshotStore s)). Qed.
Lemma projection_same {A} (m : method (SourceControlProjectionService.service E) A) (s : app) : remoteStore (snd (on_projection m s)) = remoteStore s.
Proof using Type. unfold on_projection, on_part. by destruct (m (projection s)). Qed.

Lemma turn_completes request delta (s : app) : exists s1, remoteStore s1 = remoteStore s /\
  remoteStore (snd (take_turn request delta s))
  = remoteStore (snd (completeCheckOnline dateParse localeCompareEn localeCompare listeners env now request (taken_in delta s) s1)).
Proof using Type.
  unfold turn_taken, taken_in.
  pose proof (part_same (StatusSnapshotStore.applyDelta delta) s) as E1.
  destruct (on_snapshots _ s) as [[snapshot|error] s1]; cbn in E1; [|exists s1; by rewrite settled_same].
  pose proof (projection_same (SourceControlProjectionService.applyDelta localeCompareEn localeCompare env delta) s1) as E2.
  destruct (on_projection (SourceControlProjectionService.applyDelta _ _ _ _) s1) as [[?|error] s2]; cbn in E2.
  { exists s2. rewrite settled_same. by rewrite E2. }
  pose proof (projection_same (SourceControlProjectionService.replaceSnapshot localeCompareEn localeCompare env snapshot) s2) as E3.
  destruct (on_projection _ s2) as [[?|?] s3]; cbn in E3 |- *; exists s3; rewrite settled_same; by rewrite E3, E2.
Qed.

Lemma react_cases target op c ev (s : app) c' s' : clock_ok ->
  operation_ok (target_repositoryId target) (target_epoch target) op -> waits target op c -> event_ok op ev ->
  react c ev s = (c', s') ->
  (exists o, c' = CheckSettled o /\ ~ checking (remoteStore s') (target_repositoryId target) (target_epoch target) op)
  \/ (waits target op c' /\ s' = s).
Proof using Type.
  intros Hn Hop Hw Hev. destruct c as [t o|t o remote|request delta|]; [..|done]; cbn in Hw.
  - destruct Hw as [-> ->]. destruct ev as [[error|remote]| | |]; cbn; try (intros [= <- <-]; by right).
    unfold check_failed, settle. pose proof (failure_ends target op error s Hn Hop) as Hf.
    destruct (completeCheckFailure _ _ _ _ _ _ _ _ _ s) as [[?|?] s1]; intros [= <- <-]; left; eauto.
  - destruct Hw as (-> & -> & He). destruct ev as [|[error|delta]| |]; cbn; try (intros [= <- <-]; by right).
    unfold check_failed, settle. pose proof (failure_ends target op error s Hn Hop) as Hf.
    destruct (completeCheckFailure _ _ _ _ _ _ _ _ _ s) as [[?|?] s1]; intros [= <- <-]; left; eauto.
  - destruct Hw as (E1 & E2 & E3 & [scheme Hsch]). destruct ev as [| | |]; cbn; try (intros [= <- <-]; by right).
    destruct (turn_completes request delta s) as (s1 & Es1 & Et).
    destruct (take_turn request delta s) as [o s2] eqn:Eturn. intros [= <- <-]. left. exists o. split; [done|]. cbn in Et. rewrite Et.
    rewrite <- E1, <- E2 in Hop |- *. rewrite <- E3 in Hop |- *. by apply (online_ends request scheme).
Qed.

(** The checks a started one can become, whatever happens to the stores. *)
Inductive reached (target : RemoteStatusCheckTarget) (op : string) : check -> Prop :=
  | reached_start : reached target op (AwaitEnvelope target op)
  | reached_next c ev s : reached target op c -> event_ok op ev -> reached target op (fst (react c ev s)).
Lemma reached_waits target op c : clock_ok -> operation_ok (target_repositoryId target) (target_epoch target) op ->
  reached target op c -> waits target op c \/ exists o, c = CheckSettled o.
Proof using Type.
  intros Hn Hop. induction 1 as [|c ev s Hr IH Hev]; [by left|]. destruct IH as [Hw|[o ->]]; [|right; by exists o].
  destruct (react c ev s) as [c' s'] eqn:E1. cbn. edestruct react_cases as [(o & -> & _)|[? _]]; eauto.
Qed.

Lemma started_ok target s op s1 :
  startCheck dateParse localeCompareEn localeCompare listeners env now createOperationId target s = (Ok op, s1) ->
  operation_ok (target_repositoryId target) (target_epoch target) op.
Proof using Type.
  unfold startCheck. intros H. apply bind_inv in H as (op' & s2 & _ & H). apply bind_inv in H as (at_ & s3 & _ & H).
  apply bind_inv in H as (st & s4 & H1 & H). apply bind_inv in H as ([] & s5 & _ & [= <- <-]).
  unfold on_remote, on_part in H1. destruct (beginCheck _ _ _ _ _ _ _) as [r t] eqn:Hb. injection H1 as -> _.
  unfold beginCheck in Hb. apply bind_inv in Hb as ([] & s6 & Hv & _). injection Hv as Hv _.
  unfold validateOperation, validateRepository in Hv. apply bind_ok in Hv as ([] & Hv & Hu).
  apply bind_ok in Hv as ([] & H2%require_ok & H3%require_ok). by apply bind_ok in Hu as ([] & H4%require_ok & _).
Qed.

(** *** A recovery *)
Lemma current_run id ep (s : store L) : exists o, currentRepository id ep s = (Ok o, s) /\
  match o with
  | Some cur => map_get (repositories s) id = Some cur /\ rc_epoch cur = ep
  | None => forall st, map_get (repositories s) id = Some st -> rc_epoch st <> ep
  end.
Proof using Type.
  eexists. split; [reflexivity|]. destruct (map_get (repositories s) id) as [cur|]; [|done].
  destruct (Z.eqb_spec (rc_epoch cur) ep); [done|]. by intros st [= <-].
Qed.
(** The stored state is another one. *)
Ltac not_recovering :=
  let H := fresh in intros (?st & ? & ? & ? & ? & H & ? & ? & ?); cbn [snd mret method_ret] in H; congruence.
Lemma recovery_run id ep op at_ result_ failure input (s : store L) : operation_ok id ep op -> isTimestamp dateParse at_ = true ->
  recoveryInput result_ failure = Ok input -> remote_ok dateParse s ->
  ~ recovering (snd (completeRecovery dateParse listeners id ep op at_ result_ failure s)) id ep op.
Proof using Type.
  intros Hop Ht Hin Hok. unfold completeRecovery. rewrite (operation_valid _ _ _ _ Hop Ht), Hin.
  rewrite (method_bind_ok _ _ s tt s eq_refl), (method_bind_ok _ _ s input s eq_refl).
  destruct (current_run id ep s) as (o & E1 & Ho). rewrite (method_bind_ok _ _ _ _ _ E1). clear E1.
  destruct o as [cur|]; [destruct Ho as [Hc He]|intros (st & ? & ? & ? & ? & H1 & H2 & _); exact (Ho st H1 H2)].
  destruct (rc_kind cur) eqn:Hk; try not_recovering. destruct (rc_recovery cur) eqn:Hr; try not_recovering.
  assert (rc_repositoryId cur = id) as Hid by (by destruct (proj2 Hok id cur Hc)).
  case_bool_decide as Ho; cbn [negb]; [|not_recovering].
  destruct input as [[] [fl|]]; rewrite <- Hid; intros (st & ? & ? & ? & ? & H & _ & Hk2 & Hr2);
    rewrite apply_repositories, written in H by done; injection H as <-; done.
Qed.
Definition recovery_answer_ok (answer : rejection + RemoteRecoveryRpcClient.RemoteRecoveryResult) : Prop :=
  match answer with
  | inl _ => True
  | inr (RemoteRecoveryRpcClient.RecoverySafe _ at_) => isTimestamp dateParse at_ = true
  | inr (RemoteRecoveryRpcClient.RecoveryFailed _ _ failure) => failure_category failure = categoryForReason (failure_reason failure)
  end.
Lemma completed_as id ep op at_ result_ failure input (s : app) : operation_ok id ep op -> isTimestamp dateParse at_ = true ->
  recoveryInput result_ failure = Ok input -> remote_ok dateParse (remoteStore s) ->
  ~ recovering (remoteStore (snd (completeRecoveryAs dateParse localeCompareEn localeCompare listeners env id ep op at_ result_ failure s))) id ep op.
Proof using Type.
  intros Hop Ht Hin Hok. unfold completeRecoveryAs. rewrite then_shown, remote_run. by eapply recovery_run.
Qed.
Lemma failure_input name r f failure : name <> "safe" -> validateNativeRemoteFailure (failure_object f) = Ok failure ->
  (if bool_decide (name = "indeterminate") then Ok ResultIndeterminate else if bool_decide (name = "blocked") then Ok ResultBlocked
   else Throw (protocolError "recovery.result")) = Ok r -> recoveryInput name (failure_object f) = Ok (r, Some failure).
Proof using Type.
  intros Hn Hf Hr. unfold recoveryInput. rewrite bool_decide_eq_false_2 by done. rewrite Hr.
  change (truthy (failure_object f)) with true. cbn zeta. by rewrite Hf.
Qed.
Lemma recovery_done id ep op answer (s : app) : clock_ok -> operation_ok id ep op -> recovery_answer_ok answer ->
  remote_ok dateParse (remoteStore s) ->
  ~ recovering (remoteStore (snd (recovery_answered dateParse localeCompareEn localeCompare listeners env now id ep op answer s))) id ep op.
Proof using Type.
  intros Hn Hop Ha Hok. destruct (at_now s Hn) as (at_ & s1 & Ht & En & Hs). rewrite <- Hs in Hok.
  destruct answer as [error|[op' at'|o op' failure]]; cbn [recovery_answered]; rewrite settled_same.
  - rewrite (method_bind_ok _ _ _ _ _ En). eapply completed_as; try done. by eapply failure_input; [|apply failure_accepted|].
  - rewrite Hs in Hok. by eapply completed_as.
  - rewrite (method_bind_ok _ _ _ _ _ En).
    destruct o; cbn [outcome_name]; (eapply completed_as; try done); (eapply failure_input; [done|by apply client_failure_accepted|reflexivity]).
Qed.
End Facts.

(** C32: A remote check that was started ends, if its turn comes.  Provided that the
    clock gives timestamps ([clock_ok]), that an envelope the factory makes is for
    the operation of the check, and that [runExclusive] gives the check its turn
    ([event_ok]): whether the factory and the client answer or reject, and whatever
    happens to the stores in between, each reaction either leaves the check waiting
    and the stores alone, or settles it, and then the connection store no longer
    has it under way.  When [runExclusive] refuses the turn the check stays under
    way ([check_stuck_without_turn]). *)
Theorem remote_check_ends dateParse localeCompareEn localeCompare {L E C} (listeners : list (RemoteConnectionState -> method L unit))
    (env : SourceControlProjectionService.Environment E) (now createOperationId : method C string)
    target s0 op s1 c ev s c' s' :
  clock_ok dateParse now ->
  startCheck dateParse localeCompareEn localeCompare listeners env now createOperationId target s0 = (Ok op, s1) ->
  reached dateParse localeCompareEn localeCompare listeners env now target op c -> event_ok op ev ->
  check_react dateParse localeCompareEn localeCompare listeners env now c ev s = (c', s') ->
  match c' with
  | CheckSettled _ => (exists o, c = CheckSettled o /\ s' = s)
      \/ ~ checking (remoteStore s') (target_repositoryId target) (target_epoch target) op
  | _ => s' = s
  end.
Proof.
  intros Hn Hst Hr Hev H. eapply started_ok in Hst as Hop.
  eapply reached_waits in Hr as [Hw|[o ->]]; [|injection H as <- <-; left; eauto|done..].
  eapply react_cases in H as [(o & -> & Hno)|[Hw' ->]]; [by right| |done..]. by destruct c'.
Qed.

(** The turn of a check that is under way makes the connection online, and
    reports incoming changes as fresh exactly when both stores have taken in the
    delta: the canonical store applied it, and the projection applied it or was
    rebuilt from the canonical snapshot.  Otherwise they are stale. *)
Theorem fresh_when_shown dateParse localeCompareEn localeCompare {L E C} (listeners : list (RemoteConnectionState -> method L unit))
    (env : SourceControlProjectionService.Environment E) (now : method C string) request delta s :
  clock_ok dateParse now ->
  operation_ok (check_repositoryId request) (check_epoch request) (remote_operationId (check_remote request)) ->
  envelope_ok (remote_operationId (check_remote request)) (check_remote request) ->
  checking (remoteStore s) (check_repositoryId request) (check_epoch request) (remote_operationId (check_remote request)) ->
  exists st transport at_,
    map_get (repositories (remoteStore (snd (turn_taken dateParse localeCompareEn localeCompare listeners env now request delta s))))
      (check_repositoryId request) = Some st
    /\ rc_kind st = Online transport at_
    /\ incoming_kind (rc_incoming st)
       = (if taken_in localeCompareEn localeCompare env delta s then IncomingFresh else IncomingStale).
Proof.
  intros Hn Hop [_ [scheme Hs]] Hc.
  destruct (turn_completes dateParse localeCompareEn localeCompare listeners env now request delta s) as (s1 & E1 & E2).
  destruct (online_ends dateParse localeCompareEn localeCompare listeners env now request scheme
    (taken_in localeCompareEn localeCompare env delta s) s1 Hn Hop Hs) as [_ Hon].
  rewrite E1 in Hon. destruct (Hon Hc) as (cur & at_ & _ & Hg). rewrite E2. eexists _, scheme, at_. split; [exact Hg|].
  split; [done|]. cbn. by destruct (taken_in _ _ _ _ _).
Qed.

(** A recovery that is answered ends: the store no longer has it under way. *)
Theorem recovery_ends dateParse localeCompareEn localeCompare {L E C} (listeners : list (RemoteConnectionState -> method L unit))
    (env : SourceControlProjectionService.Environment E) (now : method C string) id ep op answer s :
  clock_ok dateParse now -> operation_ok id ep op -> recovery_answer_ok dateParse answer -> remote_ok dateParse (remoteStore s) ->
  ~ recovering (remoteStore (snd (recovery_answered dateParse localeCompareEn localeCompare listeners env now id ep op answer s))) id ep op.
Proof. apply recovery_done. Qed.
