(* ===== verification/RemoteWitnesses.v ===== *)
(** The theorems about the remote connection, its checks and recoveries at concrete
    inputs, and examples of what goes wrong. *)

From Stdlib Require Import ZArith Ascii String List.
From stdpp Require Import base option list strings.
From S2P Require Import Prelude JsString JsMap JsValue StatusTypes StatusStore ScmResources RemoteTypes ProjectionService Notifications Witnesses RemoteState RemoteStateFacts RemoteNotifications.

Import RemoteConnectionStateStore.
Local Open Scope string_scope.

(** Every text is a time, and a later one the longer it is. *)
Definition sample_dateParse (s : string) : option Z := Some (Z.of_nat (String.length s)).
Definition op1 : string := "11111111-1111-1111-8111-111111111111".
Definition op2 : string := "22222222-2222-2222-8222-222222222222".

Definition cancelled : option js_value :=
  Some (VObj [("category", VStr "cancelled"); ("reason", VStr "operationCancelled"); ("cleanupAppropriate", VBool true)]).

(** A check that is cancelled after it changed the working copy. *)
Definition sample_history : list op :=
  [Register "r1" 1; BeginCheck "r1" 1 op1 "t"; CompleteFailure "r1" 1 op1 "tt" cancelled (Some (VBool true))].

(** A listener that counts, and throws each time. *)
Definition sample_listeners : list (RemoteConnectionState -> method Z unit) :=
  [fun _ n => (Throw (ForeignError "listener"), (n + 1)%Z)].

Notation sample_run := (run_all sample_dateParse sample_listeners).

(** The attempt fails, the repository gets a new epoch, and it still waits for
    [op1]. *)
Definition sample_later : list op :=
  [BeginRecovery "r1" 1 op2 "ttt" "tttt"; CompleteRecovery "r1" 1 op2 "ttt" "indeterminate"
     (Some (VObj [("category", VStr "indeterminate"); ("reason", VStr "workerContainmentFailed"); ("cleanupAppropriate", VBool false)]));
   Rebind "r1" 2].

Definition waiting (op at_ : string) (epoch : Z) (reason : NativeRemoteFailureReason) (cleanup : bool) : RemoteConnectionState :=
  {| rc_kind := Indeterminate CancelledAfterMutation; rc_repositoryId := "r1"; rc_epoch := epoch;
     rc_incoming := {| incoming_kind := IncomingStale; incoming_lastSuccessfulCheckAt := None |};
     rc_recovery := Required op at_;
     rc_lastFailure := Some {| fail_reason := reason; fail_cleanupAppropriate := cleanup; fail_occurredAt := at_ |} |}.

Definition sample_waiting_store := sample_run sample_history (empty_store 0%Z).
Definition sample_later_store := sample_run sample_later sample_waiting_store.

Lemma recovery_not_forgotten_witness :
  map_get (repositories sample_waiting_store) "r1" = Some (waiting op1 "tt" 1 OperationCancelled true) /\
  ((exists st, map_get (repositories sample_later_store) "r1" = Some st /\ pending op1 st /\
     forall ep o at_, exists err, beginCheck sample_dateParse sample_listeners "r1" ep o at_ sample_later_store
       = (Throw err, sample_later_store)) \/
   (exists before o after st, sample_later = (before ++ o :: after)%list /\ op_id o = "r1" /\
     map_get (repositories (sample_run before sample_waiting_store)) "r1" = Some st /\ recovers o st op1)).
Proof.
  assert (map_get (repositories sample_waiting_store) "r1" =
          Some (waiting op1 "tt" 1 OperationCancelled true)) as H by (vm_compute; reflexivity).
  split; [exact H|].
  apply (recovery_not_forgotten sample_dateParse sample_listeners 0%Z sample_history sample_later "r1" _ op1 H).
  - split; [by eexists|reflexivity].
  - repeat constructor; discriminate.
Defined.

(** A check completed twice: the second completion changes nothing. *)
Definition sample_checking := sample_run [Register "r1" 1; BeginCheck "r1" 1 op1 "t"] (empty_store 0%Z).
Definition sample_online : op := CompleteOnline "r1" 1 op1 "https" "tt" (Some (VBool true)).
Definition sample_failed : op := CompleteFailure "r1" 1 op1 "tt" cancelled (Some (VBool false)).
Definition sample_completed := run sample_dateParse sample_listeners sample_online sample_checking.

Lemma completion_once_witness :
  sample_completed <> sample_checking /\
  run sample_dateParse sample_listeners sample_failed sample_completed = sample_completed.
Proof.
  assert (sample_completed <> sample_checking) as Hne.
  { intros H%(f_equal store_env). vm_compute in H. discriminate H. }
  split; [exact Hne|].
  destruct (completion_once sample_dateParse sample_listeners 0%Z [Register "r1" 1; BeginCheck "r1" 1 op1 "t"] sample_online eq_refl)
    as [H|[_ H]]; [by destruct Hne|].
  exact (H sample_failed eq_refl eq_refl).
Defined.

Definition sample_failure : NativeRemoteFailure :=
  {| failure_category := CatUnreachable; failure_reason := NetworkDns; failure_cleanupAppropriate := false |}.

Lemma wire_failure_exact_witness :
  validateNativeRemoteFailure (Some (encode_failure "unreachable" sample_failure)) = Ok sample_failure.
Proof.
  destruct (wire_failure_exact (Some (encode_failure "network" sample_failure)) sample_failure) as (_ & _ & H);
    [vm_compute; reflexivity|exact H].
Defined.

(** The daemon reports a pending recovery of [op2] for a registered repository. *)
Definition sample_note : RemoteConnectionNotification :=
  {| note_repositoryId := "r1"; note_epoch := 1; note_state := DIndeterminate WorkerTerminated op2 RecPending false |}.
Definition sample_remote_app : remote_app Z Z asked :=
  {| remoteStore := run_all sample_dateParse [] [Register "r1" 1] (empty_store 0%Z);
     projection := sourceControlProjection sample_app; clock := [] |}.

Lemma sample_remote_ok : remote_ok sample_dateParse (remoteStore sample_remote_app).
Proof. apply run_all_ok, remote_ok_empty. Qed.

Lemma recovery_scheduled_witness :
  exists a', handleRemoteNotification sample_dateParse compareText compareText [] (counting_presenter false)
      (read_clock "t") schedule "remoteConnection/state" (Some (encode_note sample_note)) sample_remote_app = (Ok true, a') /\
    clock a' = [("r1", 1%Z)].
Proof.
  eexists. split; [vm_compute; reflexivity|].
  eapply (recovery_scheduled sample_dateParse compareText compareText [] (counting_presenter false) "t"
    (Some (encode_note sample_note)) sample_note sample_remote_app);
    [exact sample_remote_ok|vm_compute; reflexivity|vm_compute; reflexivity|reflexivity|vm_compute; reflexivity|reflexivity|reflexivity].
Defined.

(** * Remote checks and recoveries *)
From S2P Require Import JsDate RemoteServices RemoteServicesFacts.
Import RemoteConnectionStateStore.
Local Open Scope string_scope.

(** A clock and a maker of ids that count. *)
Definition count_now : method nat string := fun n => (Ok "2024-01-01T00:00:00.000Z", S n).
Definition count_ids : method nat string := fun n => (Ok (if Nat.even n then op1 else op2), S n).
Definition fixed_dateParse (s : string) : option Z := Some 0%Z.

(** Repository "r1" is open in the connection store, the canonical store and the
    projection; the presenter works, or throws. *)
Definition quiet : list (RemoteConnectionState -> method Z unit) := [].
Definition start_app : RemoteServices.app :=
  {| remoteStore := run_all fixed_dateParse quiet [Register "r1" 1] (empty_store 0%Z);
     snapshotStore := statusSnapshotStore sample_app;
     RemoteServices.projection := sourceControlProjection sample_app; RemoteServices.clock := 0%nat |}.
Definition sample_target : RemoteStatusCheckTarget :=
  {| target_repositoryId := "r1"; target_epoch := 1; target_repositoryRootUrl := "https://svn.example/repo" |}.
Notation start_with fails :=
  (startCheck fixed_dateParse compareText compareText quiet (counting_presenter fails) count_now count_ids sample_target start_app).
Notation react_with fails :=
  (check_react fixed_dateParse compareText compareText quiet (counting_presenter fails) count_now).
Definition sample_envelope : RemoteOperationEnvelope :=
  {| remote_operationId := op1; remote_scheme := "https"; remote_object := VNull |}.

Definition started := snd (start_with false).
Definition turn_app := started.
Definition turn_check : check :=
  AwaitTurn {| check_repositoryId := "r1"; check_epoch := 1; check_remote := sample_envelope |} sample_delta.

Lemma fixed_clock : clock_ok fixed_dateParse count_now.
Proof. intros n. eexists _, _. split; [reflexivity|reflexivity]. Qed.
Lemma turn_reached : reached fixed_dateParse compareText compareText quiet (counting_presenter false) count_now sample_target op1 turn_check.
Proof.
  change turn_check with (fst (react_with false (fst (react_with false (AwaitEnvelope sample_target op1)
    (EnvelopeAnswer (inr sample_envelope)) started)) (DeltaAnswer (inr sample_delta)) started)).
  apply reached_next; [apply reached_next; [constructor|]|done]. split; [done|]. by eexists.
Qed.

Lemma remote_check_ends_witness :
  exists o, fst (react_with false turn_check Turn turn_app) = CheckSettled o
  /\ ~ checking (remoteStore (snd (react_with false turn_check Turn turn_app))) "r1" 1 op1.
Proof.
  destruct (react_with false turn_check Turn turn_app) as [c' s'] eqn:E.
  pose proof (remote_check_ends fixed_dateParse compareText compareText quiet (counting_presenter false) count_now count_ids
    sample_target start_app op1 started turn_check Turn turn_app c' s' fixed_clock ltac:(vm_compute; reflexivity) turn_reached I E) as H.
  assert (exists o, c' = CheckSettled o) as [o ->] by (apply (f_equal fst) in E; cbn [fst] in E; rewrite <- E; vm_compute; by eexists).
  exists o. split; [done|]. destruct H as [(o' & H & _)|H]; [discriminate H|exact H].
Defined.

Lemma fresh_when_shown_witness : exists st transport at_,
  map_get (repositories (remoteStore (snd (turn_taken fixed_dateParse compareText compareText quiet (counting_presenter false) count_now
    {| check_repositoryId := "r1"; check_epoch := 1; check_remote := sample_envelope |} sample_delta turn_app)))) "r1" = Some st
  /\ rc_kind st = Online transport at_ /\ incoming_kind (rc_incoming st) = IncomingFresh.
Proof.
  pose proof (fresh_when_shown fixed_dateParse compareText compareText quiet (counting_presenter false) count_now
    {| check_repositoryId := "r1"; check_epoch := 1; check_remote := sample_envelope |} sample_delta turn_app fixed_clock) as H.
  replace (taken_in compareText compareText (counting_presenter false) sample_delta turn_app) with true in H by (vm_compute; reflexivity).
  apply H; cbn [check_repositoryId check_epoch check_remote].
  - by split_and!.
  - split; [done|by eexists].
  - eexists _, _. split; [vm_compute; reflexivity|]. split; reflexivity.
Defined.

(** ** Checks that stay under way

    The presenter throws when the check is shown: the caller gets the error, and
    every later check of the repository is refused as one is in progress. *)
Example check_stuck_when_not_shown :
  fst (start_with true) = Throw (ForeignError "presenter")
  /\ checking (remoteStore (snd (start_with true))) "r1" 1 op1
  /\ fst (startCheck fixed_dateParse compareText compareText quiet (counting_presenter false) count_now count_ids sample_target (snd (start_with true)))
     = Throw (checkInProgress "r1").
Proof. split; [by vm_compute|]. split; [eexists _, _; split; [vm_compute; reflexivity|done]|by vm_compute]. Qed.

(** [runExclusive] refuses the turn: no completion is reported. *)
Example check_stuck_without_turn error :
  react_with false turn_check (TurnRefused error) turn_app = (CheckSettled (Threw error), turn_app)
  /\ checking (remoteStore turn_app) "r1" 1 op1.
Proof. split; [reflexivity|]. eexists _, _. split; [vm_compute; reflexivity|done]. Qed.
