(* ===== verification/Async.v ===== *)
(** Asynchronous methods that share an object, as programs.

    An [async] function runs without interruption until it awaits; between the
    await and its continuation any other function may run.  A program names its
    uninterrupted stretches ([Sync]) and what it awaits: a call of the outside
    world ([Ask]), a promise that the object holds ([Wait]), another program
    with a deadline ([Race]), or a program that is run again until it gives a
    value ([Until]).  [Fork] starts a program whose promise nobody holds, or that
    leaves its result in the object.

    The second half is a logic for such programs.  A program owns a token, says
    in [safe] what it does to the state with the token it owns ([guar]) and may
    assume that the others leave it what the token gives it ([rely]); [Protocol]
    is what tokens must promise each other, and [step_safe] the soundness of it:
    in every reachable configuration the invariant holds and every token has one
    owner. *)

From Stdlib Require Import List.
From stdpp Require Import base option list relations.
From S2P Require Import Prelude.

Section Programs.
Context {S Q : Type} {answer : Q -> Type}.

Inductive prog : Type -> Type :=
  | Done {A} (r : result A) : prog A
  | Sync {A B} (m : method S B) (k : result B -> prog A) : prog A
  | Ask {A} (q : Q) (k : result (answer q) -> prog A) : prog A
  | Wait {A B} (ready : S -> option B) (k : B -> prog A) : prog A
  | Fork {A} (p : prog unit) (k : prog A) : prog A
  | Race {A B} (late : S -> bool) (p : prog B) (k : option (result B) -> prog A) : prog A
  | Until {A B} (body cur : prog (option B)) (k : result B -> prog A) : prog A.

(** What follows a program sees whether it returned or threw. *)
Fixpoint bind {A B} (p : prog A) : (result A -> prog B) -> prog B :=
  match p in prog A return (result A -> prog B) -> prog B with
  | Done r => fun f => f r
  | Sync m k => fun f => Sync m (fun r => bind (k r) f)
  | Ask q k => fun f => Ask q (fun r => bind (k r) f)
  | Wait ready k => fun f => Wait ready (fun b => bind (k b) f)
  | Fork q k => fun f => Fork q (bind k f)
  | Race late q k => fun f => Race late q (fun r => bind (k r) f)
  | Until body cur k => fun f => Until body cur (fun r => bind (k r) f)
  end.

Definition detach {A} (p : prog A) : prog unit := bind p (fun _ => Done (Ok tt)).
(** [await] of a promise that is settled: the continuation still runs later. *)
Definition pause {A} (k : prog A) : prog A := Wait (fun _ => Some tt) (fun _ => k).

(** ** Writing programs *)
Definition ret {A} (a : A) : prog A := Done (Ok a).
Definition throw {A} (e : js_error) : prog A := Done (Throw e).
Definition sync {A} (m : method S A) : prog A := Sync m Done.
Definition ask (q : Q) : prog (answer q) := Ask q Done.
Definition and_then {A B} (p : prog A) (f : A -> prog B) : prog B :=
  bind p (fun r => match r with Ok a => f a | Throw e => throw e end).
Definition then_do {A B} (m : method S A) (f : A -> method S B) : method S B := mbind f m.
(** [await f()]: the caller goes on some time after [f] has ended. *)
Definition await {A} (p : prog A) : prog A := bind p (fun r => pause (Done r)).
Definition catch {A} (p : prog A) (handler : js_error -> prog A) : prog A :=
  bind p (fun r => match r with Ok a => ret a | Throw e => handler e end).
Definition finally {A} (p : prog A) (m : method S unit) : prog A := bind p (fun r => Sync m (fun _ => Done r)).
Definition get {A} (f : S -> A) : method S A := fun w => (Ok (f w), w).

(** The promise of [p] is raced by a timer, unless it is late already. *)
Definition deadline_race {A} (late : S -> bool) (p : prog A) : prog (option A) :=
  Race late p (fun o =>
    match o with
    | Some (Ok a) => ret (Some a)
    | Some (Throw e) => throw e
    | None => ret None
    end).

(** A promise made here and settled by the program started with it. *)
Definition start_promise {A} (cells : S -> list (option (result A))) (with_cells : list (option (result A)) -> S -> S)
    (p : prog A) : prog nat :=
  Sync (get (fun w => length (cells w))) (fun i =>
  match i with
  | Ok i =>
      Sync (modify_state (fun w => with_cells (cells w ++ [None])%list w)) (fun _ =>
      Fork (bind p (fun r => Sync (modify_state (fun w => with_cells (<[i := Some r]> (cells w)) w)) (fun _ => ret tt)))
           (ret i))
  | Throw e => throw e
  end).
Definition promise {A} (cells : S -> list (option (result A))) (i : nat) : prog A :=
  Wait (fun w => mjoin (cells w !! i)) Done.

Definition finished {A} (p : prog A) : option (result A) :=
  match p with Done r => Some r | _ => None end.

(** Runs a program to its next await; the third component are the programs it
    has started. *)
Fixpoint run {A} (p : prog A) : S -> prog A * S * list (prog unit) :=
  match p in prog A return S -> prog A * S * list (prog unit) with
  | Done r => fun s => (Done r, s, [])
  | Sync m k => fun s => run (k (fst (m s))) (snd (m s))
  | Ask q k => fun s => (Ask q k, s, [])
  | Wait ready k => fun s => (Wait ready k, s, [])
  | Fork q k => fun s =>
      let '(q', s1, started) := run q s in
      let '(k', s2, more) := run k s1 in
      (k', s2, q' :: started ++ more)
  | Race late q k => fun s =>
      let '(q', s1, started) := run q s in
      if late s1 then
        let '(k', s2, more) := run (k None) s1 in (k', s2, detach q' :: started ++ more)
      else (Race late q' k, s1, started)
  | Until body cur k => fun s =>
      let '(cur', s1, started) := run cur s in (Until body cur' k, s1, started)
  end.

(** The answers of the outside world, and what they do to the state. *)
Context (external : forall q, S -> result (answer q) -> S -> Prop).

(** One await of a program comes to an end, and it runs on to the next. *)
Inductive resume : forall {A}, prog A -> S -> prog A * S * list (prog unit) -> Prop :=
  | resume_ask {A} q (k : result (answer q) -> prog A) s r s' :
      external q s r s' -> resume (Ask q k) s (run (k r) s')
  | resume_wait {A B} ready (k : B -> prog A) s b :
      ready s = Some b -> resume (Wait ready k) s (run (k b) s)
  | resume_raced {A B} late (p : prog B) (k : option (result B) -> prog A) s p' s' started :
      resume p s (p', s', started) -> resume (Race late p k) s (Race late p' k, s', started)
  | resume_in_time {A B} late (p : prog B) (k : option (result B) -> prog A) s r :
      finished p = Some r -> resume (Race late p k) s (run (k (Some r)) s)
  | resume_timeout {A B} late (p : prog B) (k : option (result B) -> prog A) s k' s' started :
      run (k None) s = (k', s', started) -> resume (Race late p k) s (k', s', detach p :: started)
  | resume_round {A B} body cur (k : result B -> prog A) s cur' s' started :
      resume cur s (cur', s', started) -> resume (Until body cur k) s (Until body cur' k, s', started)
  | resume_again {A B} body cur (k : result B -> prog A) s cur' s' started :
      finished cur = Some (Ok None) -> run body s = (cur', s', started) ->
      resume (Until body cur k) s (Until body cur' k, s', started)
  | resume_until {A B} body cur (k : result B -> prog A) s b :
      finished cur = Some (Ok (Some b)) -> resume (Until body cur k) s (run (k (Ok b)) s)
  | resume_until_throw {A B} body cur (k : result B -> prog A) s e :
      finished cur = Some (Throw e) -> resume (Until body cur k) s (run (k (Throw e)) s).

(** A configuration: the shared state and the programs that are not known to
    have ended.  [calls] are the programs that clients may start, [env] what
    else may happen to the state. *)
Definition config : Type := S * list (prog unit).
Context (calls : prog unit -> Prop) (env : S -> S -> Prop).

Inductive step : config -> config -> Prop :=
  | step_resume s l p r p' s' started :
      resume p s (p', s', started) -> step (s, l ++ p :: r) (s', l ++ p' :: started ++ r)
  | step_call s pool p p' s' started :
      calls p -> run p s = (p', s', started) -> step (s, pool) (s', p' :: started ++ pool)
  | step_env s s' pool : env s s' -> step (s, pool) (s', pool).

(** ** A scheduler *)

(** One way to go on: the outside world answers with [reply], and the first
    program that can go on does. *)
Section Scheduler.
Context (reply : forall q, S -> result (answer q) * S) (reply_ok : forall q s, external q s (fst (reply q s)) (snd (reply q s))).

Fixpoint advance {A} (p : prog A) : S -> option (prog A * S * list (prog unit)) :=
  match p in prog A return S -> option (prog A * S * list (prog unit)) with
  | Ask q k => fun s => Some (run (k (fst (reply q s))) (snd (reply q s)))
  | Wait ready k => fun s => match ready s with Some b => Some (run (k b) s) | None => None end
  | Race late q k => fun s =>
      match finished q with
      | Some r => Some (run (k (Some r)) s)
      | None => match advance q s with Some (q', s', started) => Some (Race late q' k, s', started) | None => None end
      end
  | Until body cur k => fun s =>
      match finished cur with
      | Some (Ok None) => let '(cur', s', started) := run body s in Some (Until body cur' k, s', started)
      | Some (Ok (Some b)) => Some (run (k (Ok b)) s)
      | Some (Throw e) => Some (run (k (Throw e)) s)
      | None => match advance cur s with Some (cur', s', started) => Some (Until body cur' k, s', started) | None => None end
      end
  | _ => fun _ => None
  end.

Fixpoint advance_first (pool : list (prog unit)) (s : S) : option config :=
  match pool with
  | [] => None
  | p :: rest =>
      match advance p s with
      | Some (p', s', started) => Some (s', p' :: started ++ rest)
      | None => match advance_first rest s with Some (s', rest') => Some (s', p :: rest') | None => None end
      end
  end.
Fixpoint drain (fuel : nat) (c : config) : config :=
  match fuel with
  | O => c
  | Datatypes.S fuel => match advance_first (snd c) (fst c) with Some c' => drain fuel c' | None => c end
  end.

Lemma advance_resume {A} (p : prog A) : forall s out, advance p s = Some out -> resume p s out.
Proof using reply_ok.
  induction p as [A r|A B m k IH|A q k IH|A B ready k IH|A q IHq k IH|A B late q IHq k IH|A B body IHb cur IHc k IH]; intros s out; cbn [advance]; try done.
  - intros [= <-]. by constructor.
  - destruct (ready s) eqn:E; [|done]. intros [= <-]. by constructor.
  - destruct (finished q) eqn:E; [intros [= <-]; by constructor|].
    destruct (advance q s) as [[[q' s'] started]|] eqn:Ha; [|done]. intros [= <-]. constructor. by apply IHq.
  - destruct (finished cur) as [[[b|]|e]|] eqn:E.
    + intros [= <-]. by constructor.
    + destruct (run body s) as [[c' s'] started] eqn:Hr. intros [= <-]. by constructor.
    + intros [= <-]. by constructor.
    + destruct (advance cur s) as [[[q' s'] started]|] eqn:Ha; [|done]. intros [= <-]. constructor. by apply IHc.
Qed.
Lemma advance_first_step pool : forall s c' l, advance_first pool s = Some c' -> step (s, l ++ pool) (fst c', l ++ snd c').
Proof using reply_ok.
  induction pool as [|p rest IH]; intros s c' l; cbn; [done|]. destruct (advance p s) as [[[p' s'] started]|] eqn:E.
  - intros [= <-]. by constructor; apply advance_resume.
  - destruct (advance_first rest s) as [[s' rest']|] eqn:Er; [|done]. intros [= <-]. cbn.
    pose proof (IH s (s', rest') (l ++ [p]) Er) as H. cbn in H. by rewrite <- !app_assoc in H.
Qed.
Lemma drain_steps fuel : forall c, rtc step c (drain fuel c).
Proof using reply_ok.
  induction fuel as [|fuel IH]; intros [s pool]; [done|]. cbn. destruct (advance_first pool s) as [c'|] eqn:E; [|done].
  eapply rtc_l; [|apply IH]. pose proof (advance_first_step _ _ _ [] E) as H. by destruct c'.
Qed.
End Scheduler.

(** * The logic *)
Section Logic.
Context {T : Type} (none : T) (inv : S -> Prop) (rely : T -> S -> S -> Prop) (guar : T -> S -> T -> S -> Prop)
  (owned : list T -> S -> Prop).

Class Protocol := {
  rely_preorder t :: PreOrder (rely t);
  rely_none t s s' : rely t s s' -> rely none s s';
  owned_perm ts ts' s : ts ≡ₚ ts' -> owned ts s -> owned ts' s;
  owned_none ts s : owned ts s -> owned (none :: ts) s;
  owned_inv ts s : owned ts s -> inv s;
  guar_owned t s t' s' us : guar t s t' s' -> owned (t :: us) s ->
    owned (t' :: us) s' /\ Forall (fun u => rely u s s') us /\ rely none s s';
  env_owned s s' ts : env s s' -> owned ts s -> owned ts s' /\ Forall (fun u => rely u s s') ts;
}.

(** [safe p t post s]: started in [s] with token [t], the program guarantees
    each of its stretches, and when it ends [post] holds of its result, its
    token and the state. *)
Fixpoint safe {A} (p : prog A) : T -> (result A -> T -> S -> Prop) -> S -> Prop :=
  match p in prog A return T -> (result A -> T -> S -> Prop) -> S -> Prop with
  | Done r => fun t post s => post r t s
  | Sync m k => fun t post s =>
      exists t', guar t s t' (snd (m s)) /\ (inv (snd (m s)) -> safe (k (fst (m s))) t' post (snd (m s)))
  | Ask q k => fun t post s => forall s1 r s2, rely t s s1 -> inv s1 -> external q s1 r s2 ->
      exists t', guar t s1 t' s2 /\ (inv s2 -> safe (k r) t' post s2)
  | Wait ready k => fun t post s => forall s1 b, rely t s s1 -> inv s1 -> ready s1 = Some b -> safe (k b) t post s1
  | Fork q k => fun t post s => safe q none (fun _ t' _ => t' = none) s
      /\ forall s1, rely t s s1 -> inv s1 -> safe k t post s1
  | Race late q k => fun t post s =>
      safe q t (fun r t' s' => t' = none /\ forall s1, rely none s' s1 -> inv s1 -> safe (k (Some r)) none post s1) s
      /\ forall s1, rely none s s1 -> inv s1 -> safe (k None) none post s1
  | Until body cur k => fun t post s =>
      let round := fun r t' s' => t' = none /\ forall s1, rely none s' s1 -> inv s1 ->
        match r with
        | Ok None => True
        | Ok (Some b) => safe (k (Ok b)) none post s1
        | Throw e => safe (k (Throw e)) none post s1
        end in
      safe cur t round s /\ forall s1, rely none s s1 -> inv s1 -> safe body none round s1
  end.

Fixpoint suspended {A} (p : prog A) : Prop :=
  match p with
  | Done _ | Ask _ _ | Wait _ _ => True
  | Race _ q _ => suspended q
  | Until _ cur _ => suspended cur
  | _ => False
  end.

Definition stable {A} (post : result A -> T -> S -> Prop) : Prop :=
  forall r t s s', post r t s -> rely t s s' -> inv s' -> post r t s'.
Definition ends {A} (r : result A) (t : T) (s : S) : Prop := t = none.

Context {protocol : Protocol}.

Lemma safe_post {A} (p : prog A) : forall t (post post' : result A -> T -> S -> Prop) s,
  (forall r t s, post r t s -> post' r t s) -> safe p t post s -> safe p t post' s.
Proof using Type.
  induction p as [A r|A B m k IH|A q k IH|A B ready k IH|A q _ k IH|A B late q IHq k IH|A B body IHb cur IHc k IH];
    intros t post post' s Hpost H; cbn [safe] in *.
  - by apply Hpost.
  - destruct H as (t' & Hg & H). exists t'. split; [done|]. intros Hi. eapply IH; [done|by apply H].
  - intros s1 r s2 Hr Hi He. destruct (H _ _ _ Hr Hi He) as (t' & Hg & H'). exists t'. split; [done|].
    intros Hi2. eapply IH; [done|by apply H'].
  - intros s1 b Hr Hi Hb. eapply IH; [done|by eapply H].
  - destruct H as [Hq Hk]. split; [done|]. intros s1 Hr Hi. eapply IH; [done|by apply Hk].
  - destruct H as [Hq Hk]. split; [|intros s1 Hr Hi; eapply IH; [done|by apply Hk]].
    eapply IHq; [|exact Hq]. intros r t' s' [-> Hs]. split; [done|]. intros s1 Hr Hi. eapply IH; [done|by apply Hs].
  - destruct H as [Hc Hb]. split; [eapply IHc; [|exact Hc]|intros s1 Hr Hi; eapply IHb; [|by apply Hb]];
      intros r t' s' [-> Hs]; (split; [done|]); intros s2 Hr2 Hi2; specialize (Hs s2 Hr2 Hi2);
      destruct r as [[b|]|e]; try done; by eapply IH.
Qed.

(** The invariant holds where a program ends. *)
Lemma safe_inv {A} (p : prog A) : forall t (post : result A -> T -> S -> Prop) s,
  inv s -> safe p t post s -> safe p t (fun r t' s' => inv s' /\ post r t' s') s.
Proof using Type.
  induction p as [A r|A B m k IH|A q k IH|A B ready k IH|A q _ k IH|A B late q IHq k IH|A B body IHb cur IHc k IH];
    intros t post s Hi H; cbn [safe] in *.
  - by split.
  - destruct H as (t' & Hg & H). exists t'. split; [done|]. intros Hi'. apply IH; auto.
  - intros s1 r s2 Hr Hi1 He. destruct (H _ _ _ Hr Hi1 He) as (t' & Hg & H'). exists t'. split; [done|]. intros Hi2. apply IH; auto.
  - intros s1 b Hr Hi1 Hb. apply IH; eauto.
  - destruct H as [Hq Hk]. split; [done|]. intros s1 Hr Hi1. apply IH; auto.
  - destruct H as [Hq Hk]. split; [|intros s1 Hr Hi1; apply IH; auto].
    eapply safe_post; [|exact Hq]. intros r t' s' [-> Hs]. split; [done|]. intros s1 Hr Hi1. apply IH; auto.
  - destruct H as [Hc Hb]. split; [eapply safe_post; [|exact Hc]|intros s1 Hr Hi1; eapply safe_post; [|by apply Hb]];
      intros r t' s' [-> Hs]; (split; [done|]); intros s2 Hr2 Hi2; specialize (Hs s2 Hr2 Hi2);
      destruct r as [[b|]|e]; try done; by apply IH.
Qed.

(** A program in front of another. *)
Lemma safe_bind {A B} (p : prog A) : forall (f : result A -> prog B) t post s,
  safe p t (fun r t' s' => safe (f r) t' post s') s -> safe (bind p f) t post s.
Proof using Type.
  induction p as [A r|A C m k IH|A q k IH|A C ready k IH|A q _ k IH|A C late q IHq k IH|A C body IHb cur IHc k IH];
    intros f t post s H; cbn [safe bind] in *.
  - done.
  - destruct H as (t' & Hg & H). eauto.
  - intros s1 r s2 Hr Hi He. destruct (H _ _ _ Hr Hi He) as (t' & Hg & H'). eauto.
  - eauto.
  - destruct H as [Hq Hk]. eauto.
  - destruct H as [Hq Hk]. split; [|eauto]. eapply safe_post; [|exact Hq]. cbn. intros r t' s' [-> Hs]. eauto.
  - destruct H as [Hc Hb]. split; [eapply safe_post; [|exact Hc]|intros s1 Hr Hi; eapply safe_post; [|by apply Hb]];
      intros r t' s' [-> Hs]; (split; [done|]); intros s2 Hr2 Hi2; specialize (Hs s2 Hr2 Hi2);
      destruct r as [[b|]|e]; eauto.
Qed.

Lemma safe_pause {A} (k : prog A) t post s :
  (forall s1, rely t s s1 -> inv s1 -> safe k t post s1) -> safe (pause k) t post s.
Proof using Type. intros H s1 [] Hr Hi _. by apply H. Qed.

(** A program that awaits keeps its assertion while others run. *)
Lemma safe_stable {A} (p : prog A) : forall t post s s',
  suspended p -> stable post -> safe p t post s -> rely t s s' -> inv s' -> safe p t post s'.
Proof using All.
  induction p as [A r|A B m k IH|A q k IH|A B ready k IH|A q _ k IH|A B late q IHq k IH|A B body IHb cur IHc k IH];
    intros t post s s' Hsus Hst H Hrely Hinv; cbn [safe suspended] in *; try done.
  - by eapply Hst.
  - intros s1 r s2 Hr. apply H. by trans s'.
  - intros s1 b Hr. apply H. by trans s'.
  - destruct H as [Hq Hk]. apply rely_none in Hrely as Hrn. split; [|intros s1 Hr; apply Hk; by trans s'].
    eapply IHq; [done| |exact Hq|done|done].
    intros r u x y [-> Hs] Hr Hi. split; [done|]. intros s1 Hr1. apply Hs. by trans y.
  - destruct H as [Hc Hb]. apply rely_none in Hrely as Hrn. split; [|intros s1 Hr; apply Hb; by trans s'].
    eapply IHc; [done| |exact Hc|done|done].
    intros r u x y [-> Hs] Hr Hi. split; [done|]. intros s1 Hr1. apply Hs. by trans y.
Qed.

(** What a stretch leaves behind that started in [s] beside the tokens [us]: the
    program's own token and assertion, the programs it started with theirs, and
    the other tokens undisturbed. *)
Definition holds {A} (post : result A -> T -> S -> Prop) (us : list T) (s : S) (out : prog A * S * list (prog unit)) : Prop :=
  let '(p', s', started) := out in
  suspended p' /\ Forall suspended started /\ rely none s s' /\ Forall (fun u => rely u s s') us
  /\ exists t' ts, owned (t' :: ts ++ us) s' /\ safe p' t' post s' /\ Forall2 (fun q u => safe q u ends s') started ts.

Lemma ends_stable {A} : stable (@ends A).
Proof using Type. by intros r t s s' H _ _. Qed.

Lemma rely_trans us s1 s2 s3 :
  Forall (fun u => rely u s1 s2) us -> Forall (fun u => rely u s2 s3) us -> Forall (fun u => rely u s1 s3) us.
Proof using All. rewrite !Forall_forall. intros H1 H2 u Hu. trans s2; auto. Qed.

Lemma holds_stop {A} (p : prog A) t post us s : suspended p -> owned (t :: us) s -> safe p t post s -> holds post us s (p, s, []).
Proof using All.
  intros Hs Ho H. split; [done|]. split; [constructor|]. split; [done|]. split; [by apply Forall_true|].
  exists t, []. split; [done|]. split; [done|]. constructor.
Qed.
Lemma holds_after {A} (out : prog A * S * list (prog unit)) us s s1 post :
  rely none s s1 -> Forall (fun u => rely u s s1) us -> holds post us s1 out -> holds post us s out.
Proof using All.
  destruct out as [[p' s'] started]. intros Hn Hr (Hsus & Hst & Hr' & Hus & H).
  split; [done|]. split; [done|]. split; [by trans s1|]. split; [by eapply rely_trans|done].
Qed.

Lemma safes_stable (ps : list (prog unit)) ts s s' :
  Forall suspended ps -> Forall (fun u => rely u s s') ts -> inv s' ->
  Forall2 (fun q u => safe q u ends s) ps ts -> Forall2 (fun q u => safe q u ends s') ps ts.
Proof using All.
  intros Hs Hr Hi H. induction H as [|q u ps ts Hq _ IH]; [constructor|].
  apply Forall_cons in Hs as [? ?]. apply Forall_cons in Hr as [? ?]. constructor; [|auto].
  eapply safe_stable; eauto using ends_stable.
Qed.

(** A stretch of one program after another: the first becomes one of the
    programs that were started. *)
Lemma holds_seq {A} q' s1 started t (us : list T) s post (out : prog A * S * list (prog unit)) :
  holds ends (t :: us) s (q', s1, started) ->
  (forall us', owned (t :: us') s1 -> rely t s s1 -> holds post us' s1 out) ->
  let '(k', s2, more) := out in holds post us s (k', s2, q' :: started ++ more).
Proof using All.
  destruct out as [[k' s2] more]. intros (Hq & Hst & Hn & Hus & tq & ts & Ho & Hsq & Hss) Hk.
  apply Forall_cons in Hus as [Ht Hus].
  assert (Ho1 : owned (t :: (tq :: ts ++ us)) s1).
  { eapply owned_perm; [|exact Ho]. rewrite <- Permutation_middle. apply perm_swap. }
  destruct (Hk _ Ho1 Ht) as (Hk' & Hmore & Hn2 & Hus2 & tk & ts2 & Ho2 & Hsk & Hss2).
  apply Forall_cons in Hus2 as [Hq2 Hus2]. apply Forall_app in Hus2 as [Hts2 Hus2].
  assert (Hi2 : inv s2) by by eapply owned_inv.
  split; [done|]. split; [constructor; [done|by apply Forall_app]|]. split; [by trans s1|]. split; [by eapply rely_trans|].
  exists tk, (tq :: ts ++ ts2). split; [|split; [done|]].
  - eapply owned_perm; [|exact Ho2]. constructor. cbn. rewrite <- Permutation_middle. constructor.
    rewrite !app_assoc. apply Permutation_app_tail, Permutation_app_comm.
  - constructor; [eapply safe_stable; eauto using ends_stable|]. apply Forall2_app; [|done]. by eapply safes_stable.
Qed.

Lemma suspended_bind {A B} (p : prog A) (f : result A -> prog B) : suspended p -> (forall r, suspended (f r)) -> suspended (bind p f).
Proof using Type. induction p; cbn; auto. Qed.
Lemma suspended_detach {A} (p : prog A) : suspended p -> suspended (detach p).
Proof using Type. intros H. by apply suspended_bind. Qed.
Lemma safe_detach {A} (p : prog A) t post s : (forall r t' s', post r t' s' -> t' = none) -> safe p t post s -> safe (detach p) t ends s.
Proof using Type. intros Hp H. apply safe_bind. eapply safe_post; [|exact H]. cbn. eauto. Qed.
Lemma holds_post {A} (post post' : result A -> T -> S -> Prop) us s out :
  (forall r t s, post r t s -> post' r t s) -> holds post us s out -> holds post' us s out.
Proof using Type.
  destruct out as [[p' s'] started]. intros Hp (? & ? & ? & ? & t' & ts & ? & ? & ?).
  do 4 (split; [done|]). exists t', ts. split; [done|]. split; [|done]. by eapply safe_post.
Qed.
Lemma holds_detach {A} (p' : prog A) s' started us s post :
  (forall r t' s', post r t' s' -> t' = none) -> holds post us s (p', s', started) -> holds ends us s (detach p', s', started).
Proof using Type.
  intros Hp (? & ? & ? & ? & t' & ts & ? & ? & ?). split; [by apply suspended_detach|]. do 3 (split; [done|]).
  exists t', ts. split; [done|]. split; [|done]. by eapply safe_detach.
Qed.

Lemma run_holds {A} (p : prog A) : forall t post s us, owned (t :: us) s -> safe p t post s -> holds post us s (run p s).
Proof using All.
  induction p as [A r|A B m k IH|A q k IH|A B ready k IH|A q IHq k IH|A B late q IHq k IH|A B body IHb cur IHc k IH];
    intros t post s us Ho H; cbn [run].
  - by eapply holds_stop.
  - destruct H as (t' & Hg & H). destruct (guar_owned _ _ _ _ us Hg Ho) as (Ho' & Hr & Hn).
    eapply holds_after; [done|done|]. eapply IH; [done|]. apply H. by eapply owned_inv.
  - by eapply holds_stop.
  - by eapply holds_stop.
  - destruct H as [Hq Hk]. specialize (IHq _ _ _ (t :: us) (owned_none _ _ Ho) Hq). destruct (run q s) as [[q' s1] started].
    pose proof (holds_seq q' s1 started t us s post (run k s1) IHq) as Hseq.
    destruct (run k s1) as [[k' s2] more] eqn:Hrun. apply Hseq. intros us' Ho' Hr. rewrite <- Hrun.
    eapply IH; [done|]. apply Hk; [done|by eapply owned_inv].
  - destruct H as [Hq Hk]. destruct (run q s) as [[q' s1] started] eqn:Hrq. destruct (late s1).
    + assert (Hown : owned (t :: none :: us) s) by (eapply owned_perm; [apply perm_swap|by apply owned_none]).
      specialize (IHq _ _ _ (none :: us) Hown Hq). rewrite Hrq in IHq.
      apply holds_detach in IHq; [|by intros ? ? ? [? _]].
      pose proof (holds_seq _ s1 started none us s post (run (k None) s1) IHq) as Hseq.
      destruct (run (k None) s1) as [[k' s2] more] eqn:Hrun. apply Hseq. intros us' Ho' Hr. rewrite <- Hrun.
      eapply IH; [done|]. apply Hk; [done|by eapply owned_inv].
    + specialize (IHq _ _ _ us Ho Hq). rewrite Hrq in IHq.
      destruct IHq as (? & ? & Hn & ? & t' & ts & ? & Hsq & ?). do 4 (split; [done|]). exists t', ts. split; [done|]. split; [|done].
      split; [done|]. intros s2 Hr. apply Hk. by trans s1.
  - destruct H as [Hc Hb]. specialize (IHc _ _ _ us Ho Hc). destruct (run cur s) as [[c' s1] started].
    destruct IHc as (? & ? & Hn & ? & t' & ts & ? & Hsq & ?). do 4 (split; [done|]). exists t', ts. split; [done|]. split; [|done].
    split; [done|]. intros s2 Hr. apply Hb. by trans s1.
Qed.

Lemma finished_done {A} (p : prog A) r : finished p = Some r -> p = Done r.
Proof using Type. destruct p; cbn; congruence. Qed.

(** The program under a [Race] or [Until] has moved. *)
Lemma holds_race {A B} late (p' : prog B) (k : option (result B) -> prog A) post us s s' started :
  (forall s1, rely none s s1 -> inv s1 -> safe (k None) none post s1) ->
  holds (fun r t' s' => t' = none /\ forall s1, rely none s' s1 -> inv s1 -> safe (k (Some r)) none post s1) us s (p', s', started) ->
  holds post us s (Race late p' k, s', started).
Proof using All.
  intros Hk (? & ? & Hn & ? & t' & ts & ? & Hsq & ?). do 4 (split; [done|]). exists t', ts. split; [done|]. split; [|done].
  split; [done|]. intros s2 Hr. apply Hk. by trans s'.
Qed.
Lemma holds_until {A B} body (cur' : prog (option B)) (k : result B -> prog A) post us s s' started :
  let round := fun r t' s' => t' = none /\ forall s1, rely none s' s1 -> inv s1 ->
    match r with
    | Ok None => True
    | Ok (Some b) => safe (k (Ok b)) none post s1
    | Throw e => safe (k (Throw e)) none post s1
    end in
  (forall s1, rely none s s1 -> inv s1 -> safe body none round s1) ->
  holds round us s (cur', s', started) -> holds post us s (Until body cur' k, s', started).
Proof using All.
  intros round Hb (? & ? & Hn & ? & t' & ts & ? & Hsq & ?). do 4 (split; [done|]). exists t', ts. split; [done|]. split; [|done].
  split; [done|]. intros s2 Hr. apply Hb. by trans s'.
Qed.

Lemma resume_holds {A} (p : prog A) s out : resume p s out -> forall t post us,
  owned (t :: us) s -> suspended p -> safe p t post s -> holds post us s out.
Proof using All.
  induction 1 as [A q k s r s' He|A B ready k s b Hb|A B late p k s p' s' started _ IH|A B late p k s r Hf
    |A B late p k s k' s' started Hrun|A B body cur k s cur' s' started _ IH|A B body cur k s cur' s' started Hf Hrun
    |A B body cur k s b Hf|A B body cur k s e Hf]; intros t post us Ho Hsus Hsafe;
    assert (Hi : inv s) by (by eapply owned_inv); cbn [suspended] in Hsus.
  - destruct (Hsafe s r s' ltac:(reflexivity) Hi He) as (t' & Hg & Hk).
    destruct (guar_owned _ _ _ _ us Hg Ho) as (Ho' & Hr & Hn). eapply holds_after; [done|done|].
    eapply run_holds; [done|]. apply Hk. by eapply owned_inv.
  - eapply run_holds; [done|]. by eapply (Hsafe s b).
  - destruct Hsafe as [Hp Hk]. apply holds_race; [done|]. by eapply IH.
  - apply finished_done in Hf as ->. destruct Hsafe as [[-> Hp] Hk]. eapply run_holds; [done|]. by apply Hp.
  - destruct Hsafe as [Hp Hk]. assert (Ho' : owned (none :: t :: us) s) by by apply owned_none.
    pose proof (run_holds (k None) none post s (t :: us) Ho' (Hk s ltac:(reflexivity) Hi)) as H. rewrite Hrun in H.
    destruct H as (? & ? & Hn & Hus & t' & ts & Ho2 & Hsk & Hss). apply Forall_cons in Hus as [Ht Hus].
    assert (Hi' : inv s') by by eapply owned_inv.
    split; [done|]. split; [constructor; [by apply suspended_detach|done]|]. split; [done|]. split; [done|].
    exists t', (t :: ts). split; [eapply owned_perm; [|exact Ho2]; constructor; symmetry; apply Permutation_middle|]. split; [done|].
    constructor; [|done]. eapply safe_stable; [by apply suspended_detach|apply ends_stable| |exact Ht|done].
    eapply safe_detach; [|exact Hp]. by intros ? ? ? [? _].
  - destruct Hsafe as [Hc Hb]. apply holds_until; [done|]. by eapply IH.
  - apply finished_done in Hf as ->. destruct Hsafe as [[-> _] Hb]. apply holds_until; [done|]. rewrite <- Hrun.
    eapply run_holds; [done|]. by apply Hb.
  - apply finished_done in Hf as ->. destruct Hsafe as [[-> Hc] Hb]. eapply run_holds; [done|]. by apply (Hc s).
  - apply finished_done in Hf as ->. destruct Hsafe as [[-> Hc] Hb]. eapply run_holds; [done|]. by apply (Hc s).
Qed.

(** ** Configurations *)
Definition config_ok (c : config) : Prop :=
  Forall suspended (snd c) /\ exists ts, owned ts (fst c) /\ Forall2 (fun p t => safe p t ends (fst c)) (snd c) ts.

Context (calls_safe : forall p s, calls p -> inv s -> safe p none ends s).

Theorem step_safe c c' : step c c' -> config_ok c -> config_ok c'.
Proof using All.
  destruct 1 as [s l p r p' s' started Hres|s pool p p' s' started Hcall Hrun|s s' pool Henv]; intros [Hsus (ts & Ho & Hsafe)].
  - cbn in Hsus, Ho, Hsafe. apply Forall_app in Hsus as [Hl Hpr]. apply Forall_cons in Hpr as [Hp Hr].
    apply Forall2_app_inv_l in Hsafe as (tl & tpr & Hsl & Hspr & ->). apply Forall2_cons_inv_l in Hspr as (t & tr & Hsp & Hsr & ->).
    assert (Ho' : owned (t :: tl ++ tr) s) by (eapply owned_perm; [|exact Ho]; symmetry; apply Permutation_middle).
    destruct (resume_holds _ _ _ Hres _ _ _ Ho' Hp Hsp) as (Hp' & Hst & _ & Hus & t' & ts & Ho2 & Hsp' & Hss).
    apply Forall_app in Hus as [Hul Hur]. assert (Hi : inv s') by by eapply owned_inv.
    split; cbn; [apply Forall_app; split; [done|]; constructor; [done|]; by apply Forall_app|].
    exists (tl ++ t' :: ts ++ tr). split.
    + eapply owned_perm; [|exact Ho2]. rewrite <- Permutation_middle. constructor. rewrite !app_assoc.
      apply Permutation_app_tail, Permutation_app_comm.
    + apply Forall2_app; [by eapply safes_stable|]. constructor; [done|]. apply Forall2_app; [done|]. by eapply safes_stable.
  - cbn in Hsus, Ho, Hsafe. assert (Ho' : owned (none :: ts) s) by by apply owned_none.
    assert (Hp : safe p none ends s) by (apply calls_safe; [done|by eapply owned_inv]).
    pose proof (run_holds p none ends s ts Ho' Hp) as H. rewrite Hrun in H.
    destruct H as (Hp' & Hst & _ & Hus & t' & ts' & Ho2 & Hsp' & Hss). assert (Hi : inv s') by by eapply owned_inv.
    split; cbn; [constructor; [done|]; by apply Forall_app|]. exists (t' :: ts' ++ ts). split; [done|].
    constructor; [done|]. apply Forall2_app; [done|]. by eapply safes_stable.
  - cbn in Hsus, Ho, Hsafe. destruct (env_owned _ _ _ Henv Ho) as [Ho' Hr]. split; [done|]. exists ts. split; [done|].
    eapply safes_stable; eauto. by eapply owned_inv.
Qed.

Corollary steps_safe c c' : rtc step c c' -> config_ok c -> config_ok c'.
Proof using All. induction 1; eauto using step_safe. Qed.
Lemma config_start s : owned [] s -> config_ok (s, []).
Proof using Type. intros H. split; [constructor|]. exists []. by split. Qed.
(** ** Programs without a token *)
Definition fine_from {A} (post : A -> S -> Prop) (s : S) (p : prog A) : Prop :=
  safe p none (fun r t s' => t = none /\ forall a, r = Ok a -> post a s') s.
Definition fine {A} (post : A -> S -> Prop) (p : prog A) : Prop := forall s, inv s -> fine_from post s p.
Definition any {A} (a : A) (s : S) : Prop := True.
Definition always {A} (P : A -> Prop) (a : A) (s : S) : Prop := P a.
(** What holds whatever other programs do. *)
Definition lasting {A} (post : A -> S -> Prop) : Prop := forall a s s', rely none s s' -> post a s -> post a s'.

Lemma always_kept {A} (P : A -> Prop) : lasting (always P).
Proof using Type. by intros a s s' _ H. Qed.
Lemma any_kept {A} : lasting (@any A).
Proof using Type. by intros a s s' _ H. Qed.

Lemma fine_ret {A} (post : A -> S -> Prop) a s : post a s -> fine_from post s (ret a).
Proof using Type. intros H. split; [done|]. by intros ? [= <-]. Qed.
Lemma fine_throw {A} (post : A -> S -> Prop) e s : fine_from post s (throw e).
Proof using Type. by split. Qed.
Lemma fine_weaken {A} (post post' : A -> S -> Prop) s p : (forall a s', post a s' -> post' a s') -> fine_from post s p -> fine_from post' s p.
Proof using Type. intros H Hp. eapply safe_post; [|exact Hp]. intros r t s' [-> Hr]. split; [done|]. intros a Ha. by apply H, Hr. Qed.
Lemma fine_bind {A B} (post : A -> S -> Prop) (post' : B -> S -> Prop) s (p : prog A) f : inv s ->
  fine_from post s p -> (forall a s', inv s' -> post a s' -> fine_from post' s' (f (Ok a))) ->
  (forall e s', inv s' -> fine_from post' s' (f (Throw e))) -> fine_from post' s (bind p f).
Proof using Type.
  intros Hi Hp Hf He. apply safe_bind. eapply safe_post; [|apply safe_inv; [exact Hi|exact Hp]].
  intros [a|e] t s' (Hi' & -> & Hr); [|by apply He]. apply Hf; auto.
Qed.
Lemma fine_then {A B} (post : A -> S -> Prop) (post' : B -> S -> Prop) s (p : prog A) f : inv s ->
  fine_from post s p -> (forall a s', inv s' -> post a s' -> fine_from post' s' (f a)) -> fine_from post' s (and_then p f).
Proof using Type. intros Hi Hp Hf. eapply fine_bind; [done|exact Hp|done|]. intros. apply fine_throw. Qed.
Lemma fine_await {A} (post : A -> S -> Prop) s (p : prog A) : inv s -> lasting post -> fine_from post s p -> fine_from post s (await p).
Proof using Type.
  intros Hi HQ Hp. apply safe_bind. eapply safe_post; [|exact Hp]. intros r t s' [-> Hr]. apply safe_pause. intros s1 Hg Hi1.
  split; [done|]. intros a Ha. eapply HQ; [exact Hg|auto].
Qed.
(** A stretch without awaits. *)
Lemma fine_stretch {A} (post : A -> S -> Prop) s (m : method S A) :
  (inv s -> guar none s none (snd (m s)) /\ forall a, inv (snd (m s)) -> fst (m s) = Ok a -> post a (snd (m s))) ->
  inv s -> fine_from post s (sync m).
Proof using Type.
  intros H Hi. destruct (H Hi) as [Hk HQ]. exists none. split; [done|]. intros Hi'. split; [done|]. by intros a Ha; apply HQ.
Qed.
Lemma fine_race {A} (post : A -> S -> Prop) s late (p : prog A) : lasting post -> fine_from post s p ->
  fine_from (fun o s => match o with Some a => post a s | None => True end) s (deadline_race late p).
Proof using Type.
  intros HQ Hp. split.
  - eapply safe_post; [|exact Hp]. intros r t s' [-> Hr]. split; [done|]. intros s1 Hg Hi.
    destruct r as [a|e]; [apply fine_ret; by eapply HQ, Hr|apply fine_throw].
  - intros s1 _ Hi. by apply fine_ret.
Qed.
Lemma fine_until {A} (post : A -> S -> Prop) s (body : prog (option A)) : inv s -> lasting post ->
  fine (fun o s => match o with Some a => post a s | None => True end) body -> fine_from post s (Until body body Done).
Proof using Type.
  intros Hi HQ Hb. assert (Hround : forall s, inv s -> safe body none (fun r t' s' => t' = none /\ forall s1, rely none s' s1 -> inv s1 ->
    match r with
    | Ok None => True
    | Ok (Some b) => safe (Done (Ok b)) none (fun r t s' => t = none /\ forall a, r = Ok a -> post a s') s1
    | Throw e => safe (Done (Throw e)) none (fun (r : result A) t s' => t = none /\ forall a, r = Ok a -> post a s') s1
    end) s).
  { intros s0 Hi0. eapply safe_post; [|by apply Hb]. intros r t s' [-> Hr]. split; [done|]. intros s1 Hg Hi1.
    destruct r as [[a|]|e]; [|done|by split]. split; [done|]. intros b [= <-]. eapply HQ; [exact Hg|]. by apply (Hr (Some a)). }
  split; [by apply Hround|]. intros s1 _ Hi1. by apply Hround.
Qed.
Lemma fine_ended {A} (post : A -> S -> Prop) s (p : prog A) m : inv s -> (forall a s, post a s -> post a (snd (m s))) ->
  (forall s, guar none s none (snd (m s))) -> fine_from post s p -> fine_from post s (finally p m).
Proof using Type.
  intros Hi HQ Hm Hp. apply safe_bind. eapply safe_post; [|exact Hp]. intros r t s' [-> Hr]. exists none.
  split; [apply Hm|]. intros _. split; [done|]. intros a Ha. by apply HQ, Hr.
Qed.
(** A promise is started with its program, and its result waited for. *)
Lemma fine_started {A} (post : A -> S -> Prop) s (cells : S -> list (option (result A))) with_cells (p : prog A) :
  guar none s none s -> (forall s, guar none s none (with_cells (cells s ++ [None])%list s)) ->
  (forall s i r, inv s -> (forall a, r = Ok a -> post a s) -> guar none s none (with_cells (<[i := Some r]> (cells s)) s)) ->
  fine post p -> fine_from any s (start_promise cells with_cells p).
Proof using Type.
  intros H0 H1 H2 Hp. exists none. split; [done|]. intros Hi. cbn [fst get].
  exists none. split; [apply H1|]. intros Hi1. split; [|intros s2 _ _; by split].
  apply safe_bind. eapply safe_post; [|apply safe_inv; [exact Hi1|by apply Hp]]. intros r t s' (Hi' & -> & Hr).
  exists none. split; [by apply H2|]. done.
Qed.
Lemma fine_promise {A} (post : A -> S -> Prop) s (cells : S -> list (option (result A))) i :
  (forall s a, inv s -> cells s !! i = Some (Some (Ok a)) -> post a s) -> fine_from post s (promise cells i).
Proof using Type.
  intros H s1 r _ Hi Hr. split; [done|]. intros a ->. apply H; [done|]. unfold mjoin, option_join in Hr.
  by destruct (cells s1 !! i) as [[x|]|]; simplify_eq.
Qed.
(** Whatever follows a program in the pool. *)
Lemma fine_ends {A} (post : A -> S -> Prop) s (p : prog A) (f : result A -> prog unit) : inv s -> fine_from post s p ->
  (forall r s', inv s' -> (forall a, r = Ok a -> post a s') -> safe (f r) none ends s') -> safe (bind p f) none ends s.
Proof using Type.
  intros Hi Hp Hf. apply safe_bind. eapply safe_post; [|apply safe_inv; [exact Hi|exact Hp]].
  intros r t s' (Hi' & -> & Hr). by apply Hf.
Qed.
End Logic.
End Programs.

(** ** Objects without turns *)

(** Where no program owns anything, an invariant and an order in which the state
    grows are a protocol. *)
Section Plain.
Context {S : Type} (env : S -> S -> Prop) (inv : S -> Prop) (grows : S -> S -> Prop) {grows_order : PreOrder grows}.
Context (env_inv : forall s s', env s s' -> inv s -> inv s') (env_grows : forall s s', env s s' -> grows s s').
Definition plain_rely (t : unit) : S -> S -> Prop := grows.
Definition plain_guar (t : unit) (s : S) (t' : unit) (s' : S) : Prop := (inv s -> inv s') /\ grows s s'.
Definition plain_owned (ts : list unit) : S -> Prop := inv.
Lemma plain_protocol : Protocol env tt inv plain_rely plain_guar plain_owned.
Proof using All.
  split; try done.
  - intros t s t' s' us [Hi Hg] H. split; [by apply Hi|]. split; [by apply Forall_forall|done].
  - intros s s' ts He H. split; [by eapply env_inv|]. apply Forall_forall. intros. by apply env_grows.
Qed.

(** A program only lets the state grow. *)
Context {Q : Type} {answer : Q -> Type} (external : forall q, S -> result (answer q) -> S -> Prop).
Lemma plain_safe_grows {A} (p : @prog S Q answer A) : forall t (post : result A -> unit -> S -> Prop) s0 s, grows s0 s ->
  safe external tt inv plain_rely plain_guar p t post s ->
  safe external tt inv plain_rely plain_guar p t (fun r t' s' => grows s0 s' /\ post r t' s') s.
Proof using grows_order.
  induction p as [A r|A B m k IH|A q k IH|A B ready k IH|A q _ k IH|A B late q IHq k IH|A B body IHb cur IHc k IH];
    intros t post s0 s Hg H; cbn [safe] in *.
  - by split.
  - destruct H as (t' & [Hi Hm] & H). exists t'. split; [by split|]. intros Hi'. apply IH; [by trans s|by apply H].
  - intros s1 r s2 Hr Hi He. destruct (H _ _ _ Hr Hi He) as (t' & [Hi2 Hm] & H'). exists t'. split; [by split|]. intros Hi'.
    apply IH; [|by apply H']. trans s; [done|]. by trans s1.
  - intros s1 b Hr Hi Hb. apply IH; [by trans s|by eapply H].
  - destruct H as [Hq Hk]. split; [done|]. intros s1 Hr Hi. apply IH; [by trans s|by apply Hk].
  - destruct H as [Hq Hk]. split; [|intros s1 Hr Hi; apply IH; [by trans s|by apply Hk]].
    eapply safe_post; [|by eapply (IHq _ _ s0)]. cbn. intros r t' s' (Hg' & -> & Hs). split; [done|]. intros s1 Hr Hi.
    apply IH; [by trans s'|by apply Hs].
  - destruct H as [Hc Hb]. split; [eapply safe_post; [|by eapply (IHc _ _ s0)]|intros s1 Hr Hi; eapply safe_post; [|eapply (IHb _ _ s0); [by trans s|by apply Hb]]];
      cbn; intros r t' s' (Hg' & -> & Hs); (split; [done|]); intros s2 Hr2 Hi2; specialize (Hs s2 Hr2 Hi2);
      destruct r as [[b|]|e]; try done; (apply IH; [by trans s'|done]).
Qed.
End Plain.

Arguments fine_bind {S Q answer external T none inv rely guar A B} post post' s p f.
Arguments fine_then {S Q answer external T none inv rely guar A B} post post' s p f.

Declare Scope prog_scope.
Notation "x <~ p ; k" := (and_then p (fun x => k)) (at level 20, p at level 100, k at level 200, format "x  <~  p ; '/' k") : prog_scope.
Notation "x <- m ; k" := (then_do m (fun x => k)) (at level 20, m at level 100, k at level 200, format "x  <-  m ; '/' k") : prog_scope.
