(* ===== verification/CredentialTypes.v ===== *)
(** auth/credentialController.ts: its data, its errors, and the parsers of what
    the backend sends and of what the secret storage holds.

    [hashText] (SHA-256 in hex), [isIP(host) === 6] and the [URL] class of node
    are parameters. *)

From Stdlib Require Import ZArith Lia Ascii String List.
From stdpp Require Import base option list strings.
From S2P Require Import Prelude JsString JsMap JsValue RemoteTypes.

Local Open Scope string_scope.

Definition SUBVERSIONR_CREDENTIAL_CANCELLED := "SUBVERSIONR_CREDENTIAL_CANCELLED".
Definition SUBVERSIONR_CREDENTIAL_NON_INTERACTIVE := "SUBVERSIONR_CREDENTIAL_NON_INTERACTIVE".
Definition SUBVERSIONR_CREDENTIAL_TIMEOUT := "SUBVERSIONR_CREDENTIAL_TIMEOUT".
Definition SUBVERSIONR_CREDENTIAL_UNTRUSTED_WORKSPACE := "SUBVERSIONR_CREDENTIAL_UNTRUSTED_WORKSPACE".
Definition SUBVERSIONR_CREDENTIAL_LEGACY_BLOCKED := "SUBVERSIONR_CREDENTIAL_LEGACY_BLOCKED".
Definition SUBVERSIONR_CREDENTIAL_LEGACY_CLEAR_DECLINED := "SUBVERSIONR_CREDENTIAL_LEGACY_CLEAR_DECLINED".
Definition SUBVERSIONR_CREDENTIAL_ACCOUNT_UNAVAILABLE := "SUBVERSIONR_CREDENTIAL_ACCOUNT_UNAVAILABLE".
Definition SUBVERSIONR_CREDENTIAL_RETRY_INVALID := "SUBVERSIONR_CREDENTIAL_RETRY_INVALID".
Definition SUBVERSIONR_CREDENTIAL_STORAGE_INTEGRITY := "SUBVERSIONR_CREDENTIAL_STORAGE_INTEGRITY".
Definition SUBVERSIONR_CREDENTIAL_LEASE_UNKNOWN := "SUBVERSIONR_CREDENTIAL_LEASE_UNKNOWN".
Definition SUBVERSIONR_CREDENTIAL_LEASE_FOREIGN := "SUBVERSIONR_CREDENTIAL_LEASE_FOREIGN".
Definition SUBVERSIONR_CREDENTIAL_LEASE_EXPIRED := "SUBVERSIONR_CREDENTIAL_LEASE_EXPIRED".
Definition SUBVERSIONR_CREDENTIAL_SETTLEMENT_CONFLICT := "SUBVERSIONR_CREDENTIAL_SETTLEMENT_CONFLICT".
Definition SUBVERSIONR_CREDENTIAL_SECRET_INVALID := "SUBVERSIONR_CREDENTIAL_SECRET_INVALID".

Definition LEGACY_INDEX_KEY := "subversionr.credential.index.v1".
Definition LEGACY_ENTRY_PREFIX := "subversionr.credential.v1.".
Definition V2_INDEX_KEY := "subversionr.credential.index.v2".
Definition V2_ENTRY_PREFIX := "subversionr.credential.v2.".
Definition MAX_INDEX_ENTRIES : nat := 256.
Definition MAX_ACTIVE_LEASES : nat := 1024.
Definition MAX_TOMBSTONES : nat := 4096.
Definition MAX_SECRET_UTF8_BYTES : Z := 32768.

(** ** Data *)
Inductive CredentialPersistenceIntent := InSecretStorage | InSession.
Inductive ServerAuthKind := Basic | CramMd5.
Inductive CredentialSettlementOutcome := Accepted | Rejected | Unused | Cancelled | TimedOut.
Inductive CredentialScheme := Http | Https | Svn.
Inductive CredentialOrigin := Foreground | Background.

Record CanonicalCredentialEndpoint := { scheme : CredentialScheme; canonicalHost : string; effectivePort : Z }.
Inductive CredentialAccountSelection := FixedAccount (username : string) | ChooseForeground.
Inductive CredentialAttempt := InitialAttempt | RetryAfterRejected (previousLeaseId : string).

Record CredentialRequest := {
  req_requestId : string; req_operationId : string; req_endpoint : CanonicalCredentialEndpoint; req_authKind : ServerAuthKind;
  req_realm : string; req_account : CredentialAccountSelection; req_attempt : CredentialAttempt;
  req_interactive : bool; req_persistenceAllowed : bool; req_origin : CredentialOrigin; req_timeoutMs : Z;
}.

Record Credential := { username : string; secret : string }.

Record CredentialError := { error_code_ : string; error_category : string; error_messageKey : string; error_args : list (string * safe_arg) }.

Inductive CredentialResponse :=
  | Provide (requestId operationId leaseId : string) (credential : Credential) (persistenceIntent : CredentialPersistenceIntent)
  | Cancel (requestId operationId : string) (error : CredentialError).

Record CredentialSettlementRequest := {
  settle_requestId : string; settle_operationId : string; settle_leaseId : string;
  settle_outcome : CredentialSettlementOutcome; settle_timeoutMs : Z;
}.
Record CredentialSettlementAck := {
  ack_requestId : string; ack_operationId : string; ack_leaseId : string; ack_outcome : CredentialSettlementOutcome;
}.

(** The field [version], which is always 2, is written out where the value is
    made into text. *)
Record StoredCredential := {
  stored_authorityHash : string; stored_accountHash : string; stored_username : string; stored_secret : string; stored_generation : string;
}.
Record CredentialIndexEntry := {
  entry_storageKey : string; entry_authorityHash : string; entry_accountHash : string; entry_username : string;
}.

Inductive CredentialSource := FromStored | FromSession | FromPrompt.
Record AcquiredCredential := {
  acq_credential : Credential; acq_persistenceIntent : CredentialPersistenceIntent; acq_generation : string;
  acq_source : CredentialSource; acq_baseGeneration : option string; acq_acquisitionId : string;
}.
Record PendingLease := {
  lease_acquired : AcquiredCredential; lease_leaseId : string; lease_operationId : string; lease_authorityHash : string;
  lease_accountHash : string; lease_storageKey : string; lease_expiresAt : Z; lease_connectionEpoch : nat;
}.
Record LeaseTombstone := {
  tomb_operationId : string; tomb_leaseId : string; tomb_outcome : CredentialSettlementOutcome; tomb_authorityHash : string;
  tomb_accountHash : string; tomb_generation : string; tomb_source : CredentialSource; tomb_username : string; tomb_retryConsumed : bool;
}.
Record OperationRequestState := { op_epoch : nat; op_inFlight : nat; op_closed : bool }.

#[export] Instance intent_eq_dec : EqDecision CredentialPersistenceIntent. Proof. solve_decision. Defined.
#[export] Instance auth_eq_dec : EqDecision ServerAuthKind. Proof. solve_decision. Defined.
#[export] Instance outcome_eq_dec : EqDecision CredentialSettlementOutcome. Proof. solve_decision. Defined.
#[export] Instance scheme_eq_dec : EqDecision CredentialScheme. Proof. solve_decision. Defined.
#[export] Instance origin_eq_dec : EqDecision CredentialOrigin. Proof. solve_decision. Defined.
#[export] Instance source_eq_dec : EqDecision CredentialSource. Proof. solve_decision. Defined.
#[export] Instance credential_eq_dec : EqDecision Credential. Proof. solve_decision. Defined.
#[export] Instance acquired_eq_dec : EqDecision AcquiredCredential. Proof. solve_decision. Defined.
#[export] Instance lease_eq_dec : EqDecision PendingLease. Proof. solve_decision. Defined.

Definition OUTCOMES : list (string * CredentialSettlementOutcome) :=
  [("accepted", Accepted); ("rejected", Rejected); ("unused", Unused); ("cancelled", Cancelled); ("timedOut", TimedOut)].
Definition AUTH_KINDS : list (string * ServerAuthKind) := [("basic", Basic); ("cramMd5", CramMd5)].
Definition SCHEMES : list (string * CredentialScheme) := [("http", Http); ("https", Https); ("svn", Svn)].
Definition ORIGINS : list (string * CredentialOrigin) := [("foreground", Foreground); ("background", Background)].
(** The text of a constant of a type of texts. *)
Definition text_of {A} `{EqDecision A} (names : list (string * A)) (a : A) : string :=
  match List.find (fun p => bool_decide (snd p = a)) names with Some (s, _) => s | None => "" end.

(** ** Errors *)
Definition CredentialRpcError (code category messageKey : string) (safeArgs : list (string * safe_arg)) : js_error :=
  StructuredError "CredentialRpcError" code category messageKey safeArgs.
Definition isCredentialRpcError (e : js_error) : bool :=
  match e with StructuredError name _ _ _ _ => bool_decide (name = "CredentialRpcError") | _ => false end.
Definition has_code (code : string) (e : js_error) : bool := bool_decide (error_code e = Some code).

Definition storageIntegrityError : js_error :=
  CredentialRpcError SUBVERSIONR_CREDENTIAL_STORAGE_INTEGRITY "auth" "error.auth.credentialStorageIntegrity" [].
Definition invalidParams (f : string) : js_error :=
  CredentialRpcError "RPC_INVALID_PARAMS" "protocol" "error.rpc.invalidParams" [("field", ArgString f)].

(** ** Checks of texts *)
Definition NUL : ascii := "000".
Definition code (c : ascii) : N := N_of_ascii c.
(** [Buffer.byteLength(value, "utf8")] *)
Fixpoint utf8Length (s : string) : Z :=
  match s with
  | EmptyString => 0
  | String c s' => (if (code c <? 128)%N then 1 else 2) + utf8Length s'
  end.
Fixpoint all_chars (p : ascii -> bool) (s : string) : bool :=
  match s with EmptyString => true | String c s' => p c && all_chars p s' end.
Definition control_char (c : ascii) : bool := (code c <? 32)%N || (code c =? 127)%N.

Definition isValidSecret (value : string) : bool :=
  (1 <=? String.length value)%nat && negb (includes value NUL) && (utf8Length value <=? MAX_SECRET_UTF8_BYTES)%Z.

Definition normalizeUsername (value : option js_value) : option string :=
  match value with
  | Some (VStr s) =>
      if Nat.eqb (String.length s) 0 || (256 <? utf8Length s)%Z || negb (bool_decide (s = trim s))
         || negb (all_chars (fun c => negb (control_char c)) s)
      then None else Some s
  | _ => None
  end.

(** [/^[0-9a-f]{8}-[0-9a-f]{4}-4[0-9a-f]{3}-[89ab][0-9a-f]{3}-[0-9a-f]{12}$/] *)
Definition id_classes : list (ascii -> bool) :=
  (repeat hex 8 ++ [char_in "-"] ++ repeat hex 4 ++ [char_in "-"] ++ [char_in "4"] ++ repeat hex 3 ++
   [char_in "-"] ++ [char_in "89ab"] ++ repeat hex 3 ++ [char_in "-"] ++ repeat hex 12)%list.
Definition isCanonicalIdText (s : string) : bool := matches id_classes s.
Definition isCanonicalId (v : option js_value) : bool :=
  match v with Some (VStr s) => isCanonicalIdText s | _ => false end.
Definition isHash (s : string) : bool := matches (repeat hex 64) s.

(** ** Field parsers *)
Definition requireRecord (value : option js_value) (f : string) : result js_value :=
  match value with Some (VObj fields) => Ok (VObj fields) | _ => Throw (invalidParams f) end.
Definition hasExactKeys (value : js_value) (expected : list string) : bool :=
  bool_decide (sort compareText (keys value) = sort compareText expected).
Definition requireExactKeys (value : js_value) (expected : list string) (f : string) : result unit :=
  require (hasExactKeys value expected) (invalidParams f).
Definition requireBoundedString (value : option js_value) (f : string) (minimum maximum : nat) : result string :=
  match value with
  | Some (VStr s) => _ ← require ((minimum <=? String.length s)%nat && (String.length s <=? maximum)%nat) (invalidParams f); Ok s
  | _ => Throw (invalidParams f)
  end.
Definition requireBoolean (value : option js_value) (f : string) : result bool :=
  match value with Some (VBool b) => Ok b | _ => Throw (invalidParams f) end.
Definition requireInteger (value : option js_value) (f : string) (minimum maximum : Z) : result Z :=
  match value with
  | Some (VNum (NumInt z)) => _ ← require (isSafeInteger z && (minimum <=? z)%Z && (z <=? maximum)%Z) (invalidParams f); Ok z
  | _ => Throw (invalidParams f)
  end.
Definition requireEnum {A} (value : option js_value) (values : list (string * A)) (f : string) : result A :=
  match value with
  | Some (VStr s) => match map_get values s with Some a => Ok a | None => Throw (invalidParams f) end
  | _ => Throw (invalidParams f)
  end.
Definition requireCanonicalId (value : option js_value) (f : string) : result string :=
  match value with
  | Some (VStr s) => _ ← require (isCanonicalIdText s) (invalidParams f); Ok s
  | _ => Throw (invalidParams f)
  end.
Definition requireHash (value : option js_value) (f : string) : result string :=
  match value with
  | Some (VStr s) => _ ← require (isHash s) (invalidParams f); Ok s
  | _ => Throw (invalidParams f)
  end.
Definition text_is (expected : string) (v : option js_value) : bool :=
  match v with Some (VStr s) => bool_decide (s = expected) | _ => false end.
Definition number_is (expected : Z) (v : option js_value) : bool :=
  match v with Some (VNum (NumInt z)) => Z.eqb z expected | _ => false end.

Section Parsers.
Context (hashText : string -> string) (isIPv6 : string -> bool) (urlHostname : string -> option string).

Definition credentialAccountHash (name : string) : string := hashText ("account" ++ String NUL name).
Definition credentialStorageKey (authorityHash accountHash : string) : string :=
  V2_ENTRY_PREFIX ++ authorityHash ++ "." ++ accountHash.
Definition credentialAuthorityHash (request : CredentialRequest) : string :=
  let e := req_endpoint request in
  hashText (text_of SCHEMES (scheme e) ++ String NUL (canonicalHost e ++ String NUL (decimal (Z.to_nat (effectivePort e))
    ++ String NUL (text_of AUTH_KINDS (req_authKind request) ++ String NUL (req_realm request))))).
Definition generationKey (authorityHash accountHash generation : string) : string :=
  authorityHash ++ String NUL (accountHash ++ String NUL generation).

Definition label_char (c : ascii) : bool := char_in "abcdefghijklmnopqrstuvwxyz0123456789-" c.
Definition host_label (label : string) : bool :=
  (1 <=? String.length label)%nat && (String.length label <=? 63)%nat && negb (startsWith label "-") && negb (endsWith label "-")
  && all_chars label_char label.
Definition isCanonicalHost (host : string) : bool :=
  if negb ((1 <=? String.length host)%nat && all_chars (fun c => (code c <? 128)%N) host)
     || negb (bool_decide (host = toLocaleLowerCase host)) then false
  else if isIPv6 host then
    match urlHostname ("http://[" ++ host ++ "]/") with
    | Some hostname => bool_decide (hostname = "[" ++ host ++ "]")
    | None => false
    end
  else if startsWith host "." || endsWith host "." then false
  else forallb host_label (split host ".").

Definition parseEndpoint (value : option js_value) : result CanonicalCredentialEndpoint :=
  endpoint ← requireRecord value "endpoint";
  _ ← requireExactKeys endpoint ["scheme"; "canonicalHost"; "effectivePort"] "endpoint";
  s ← requireEnum (field endpoint "scheme") SCHEMES "endpoint.scheme";
  host ← requireBoundedString (field endpoint "canonicalHost") "endpoint.canonicalHost" 1 253;
  _ ← require (isCanonicalHost host) (invalidParams "endpoint.canonicalHost");
  port ← requireInteger (field endpoint "effectivePort") "endpoint.effectivePort" 1 65535;
  Ok {| scheme := s; canonicalHost := host; effectivePort := port |}.

Definition parseAccount (value : option js_value) : result CredentialAccountSelection :=
  account ← requireRecord value "account";
  if text_is "chooseForeground" (field account "mode") then
    _ ← requireExactKeys account ["mode"] "account"; Ok ChooseForeground
  else
    _ ← requireExactKeys account ["mode"; "username"] "account";
    _ ← require (text_is "fixed" (field account "mode")) (invalidParams "account.mode");
    match normalizeUsername (field account "username") with
    | Some name => Ok (FixedAccount name)
    | None => Throw (invalidParams "account.username")
    end.

Definition parseAttempt (value : option js_value) : result CredentialAttempt :=
  attempt ← requireRecord value "attempt";
  if text_is "initial" (field attempt "kind") then
    _ ← requireExactKeys attempt ["kind"] "attempt"; Ok InitialAttempt
  else
    _ ← requireExactKeys attempt ["kind"; "previousLeaseId"] "attempt";
    _ ← require (text_is "retryAfterRejected" (field attempt "kind")) (invalidParams "attempt.kind");
    previous ← requireCanonicalId (field attempt "previousLeaseId") "attempt.previousLeaseId";
    Ok (RetryAfterRejected previous).

Definition REQUEST_KEYS : list string :=
  ["requestId"; "operationId"; "endpoint"; "authKind"; "realm"; "account"; "attempt"; "interactive"; "persistenceAllowed"; "origin"; "timeoutMs"].

Definition parseCredentialRequest (params : option js_value) : result CredentialRequest :=
  value ← requireRecord params "params";
  _ ← requireExactKeys value REQUEST_KEYS "params";
  endpoint ← parseEndpoint (field value "endpoint");
  authKind ← requireEnum (field value "authKind") AUTH_KINDS "authKind";
  _ ← require (Bool.eqb (bool_decide (authKind = CramMd5)) (bool_decide (scheme endpoint = Svn))) (invalidParams "authKind");
  operationId ← requireCanonicalId (field value "operationId") "operationId";
  requestId ← requireBoundedString (field value "requestId") "requestId" 1 128;
  realm ← requireBoundedString (field value "realm") "realm" 1 4096;
  _ ← require (negb (includes realm NUL) && (utf8Length realm <=? 4096)%Z) (invalidParams "realm");
  account ← parseAccount (field value "account");
  attempt ← parseAttempt (field value "attempt");
  origin ← requireEnum (field value "origin") ORIGINS "origin";
  interactive ← requireBoolean (field value "interactive") "interactive";
  persistenceAllowed ← requireBoolean (field value "persistenceAllowed") "persistenceAllowed";
  _ ← require (negb (bool_decide (origin = Background) && (interactive || match account with FixedAccount _ => false | _ => true end)))
        (invalidParams "interactive");
  timeoutMs ← requireInteger (field value "timeoutMs") "timeoutMs" 1 300000;
  Ok {| req_requestId := requestId; req_operationId := operationId; req_endpoint := endpoint; req_authKind := authKind;
        req_realm := realm; req_account := account; req_attempt := attempt; req_interactive := interactive;
        req_persistenceAllowed := persistenceAllowed; req_origin := origin; req_timeoutMs := timeoutMs |}.

Definition SETTLEMENT_KEYS : list string := ["requestId"; "operationId"; "leaseId"; "outcome"; "timeoutMs"].

Definition parseCredentialSettlementRequest (params : option js_value) : result CredentialSettlementRequest :=
  value ← requireRecord params "params";
  _ ← requireExactKeys value SETTLEMENT_KEYS "params";
  requestId ← requireBoundedString (field value "requestId") "requestId" 1 128;
  operationId ← requireCanonicalId (field value "operationId") "operationId";
  leaseId ← requireCanonicalId (field value "leaseId") "leaseId";
  outcome ← requireEnum (field value "outcome") OUTCOMES "outcome";
  timeoutMs ← requireInteger (field value "timeoutMs") "timeoutMs" 1 300000;
  Ok {| settle_requestId := requestId; settle_operationId := operationId; settle_leaseId := leaseId;
        settle_outcome := outcome; settle_timeoutMs := timeoutMs |}.

Definition ENTRY_KEYS : list string := ["storageKey"; "authorityHash"; "accountHash"; "username"].

Definition parseIndexEntry (value : option js_value) : result CredentialIndexEntry :=
  entry ← requireRecord value "index.entries";
  _ ← requireExactKeys entry ENTRY_KEYS "index.entries";
  authorityHash ← requireHash (field entry "authorityHash") "index.authorityHash";
  accountHash ← requireHash (field entry "accountHash") "index.accountHash";
  storageKey ← requireBoundedString (field entry "storageKey") "index.storageKey" 1 256;
  match normalizeUsername (field entry "username") with
  | Some name =>
      _ ← require (bool_decide (accountHash = credentialAccountHash name)
                   && bool_decide (storageKey = credentialStorageKey authorityHash accountHash)) storageIntegrityError;
      Ok {| entry_storageKey := storageKey; entry_authorityHash := authorityHash; entry_accountHash := accountHash; entry_username := name |}
  | None => Throw storageIntegrityError
  end.

(** ** Answers *)
Definition safeCredentialArgs (request : CredentialRequest) : list (string * safe_arg) :=
  [("operationHash", ArgString (hashText ("operation" ++ String NUL (req_operationId request))));
   ("authorityHash", ArgString (credentialAuthorityHash request));
   ("authKind", ArgString (text_of AUTH_KINDS (req_authKind request)));
   ("accountMode", ArgString match req_account request with FixedAccount _ => "fixed" | ChooseForeground => "chooseForeground" end);
   ("attempt", ArgString match req_attempt request with InitialAttempt => "initial" | RetryAfterRejected _ => "retryAfterRejected" end);
   ("origin", ArgString (text_of ORIGINS (req_origin request)))].

Definition cancel (request : CredentialRequest) (code category messageKey : string) : CredentialResponse :=
  Cancel (req_requestId request) (req_operationId request)
    {| error_code_ := code; error_category := category; error_messageKey := messageKey; error_args := safeCredentialArgs request |}.

Definition settlementAck (request : CredentialSettlementRequest) : CredentialSettlementAck :=
  {| ack_requestId := settle_requestId request; ack_operationId := settle_operationId request;
     ack_leaseId := settle_leaseId request; ack_outcome := settle_outcome request |}.

Definition settlement_args (request : CredentialSettlementRequest) : list (string * safe_arg) :=
  [("operationHash", ArgString (hashText ("operation" ++ String NUL (settle_operationId request))));
   ("leaseHash", ArgString (hashText ("lease" ++ String NUL (settle_leaseId request))))].
Definition leaseError (code messageKey : string) (request : CredentialSettlementRequest) : js_error :=
  CredentialRpcError code "auth" messageKey (settlement_args request ++ [("outcome", ArgString (text_of OUTCOMES (settle_outcome request)))]).
Definition settlementLifecycleError (request : CredentialSettlementRequest) : js_error :=
  CredentialRpcError SUBVERSIONR_CREDENTIAL_UNTRUSTED_WORKSPACE "lifecycle" "error.auth.credentialUntrustedWorkspace" (settlement_args request).
End Parsers.

Definition acquiredFromStored (stored : StoredCredential) (source : CredentialSource) (acquisitionId : string) : AcquiredCredential :=
  {| acq_credential := {| username := stored_username stored; secret := stored_secret stored |};
     acq_persistenceIntent := if bool_decide (source = FromStored) then InSecretStorage else InSession;
     acq_generation := stored_generation stored; acq_source := source; acq_baseGeneration := Some (stored_generation stored);
     acq_acquisitionId := acquisitionId |}.

(** Values that [JSON.parse] gives back as they were: numbers are safe integers,
    no object has a key twice, and no key is a number, so that the order of the
    keys is that of the text. *)
Definition key_ok (k : string) : bool := negb (all_chars (char_in "0123456789") k).
Fixpoint json_ok (v : js_value) : bool :=
  match v with
  | VNum (NumInt z) => isSafeInteger z
  | VNum (NumFraction _ _) => false
  | VArr items => forallb json_ok items
  | VObj fields => bool_decide (NoDup (map fst fields)) && forallb (fun p => key_ok (fst p) && json_ok (snd p)) fields
  | _ => true
  end.

(** ** Facts about texts *)
Lemma matches_length classes s : matches classes s = true -> String.length s = length classes.
Proof. revert s. induction classes as [|p classes IH]; intros [|c s]; cbn; try done. intros [_ H]%andb_prop. f_equal. by apply IH. Qed.
Lemma hash_length s : isHash s = true -> String.length s = 64.
Proof. intros H. by rewrite (matches_length _ _ H), repeat_length. Qed.
Lemma same_length_inj a b a' b' : String.length a = String.length a' -> a ++ b = a' ++ b' -> a = a' /\ b = b'.
Proof.
  revert a'. induction a as [|c a IH]; intros [|c' a']; cbn; try done. intros [= Hl] [= -> H]. by destruct (IH a' Hl H) as [-> ->].
Qed.

#[global] Opaque MAX_INDEX_ENTRIES MAX_ACTIVE_LEASES MAX_TOMBSTONES.
