(* ===== verification/CredentialController.v ===== *)
(** auth/credentialController.ts: the controller of credential leases.

    The controller hands a credential to a backend operation under a lease, and
    keeps or forgets the credential when the operation reports how it went.  Its
    methods run interleaved: each is a program of Async.v, with an [await] where
    the code has one.  The world holds the controller's fields, the secret
    storage, the clock, whether the workspace is trusted, and how many ids have
    been made; the promises that the controller's fields refer to are places in
    the lists [queue], [promptPromises], [settlementPromises] and
    [legacyPromises].  A promise of the storage queue is [Released] when it has
    been resolved, and [Running] while the operation it was made for runs.
    [trace] records what a reader outside wants to know afterwards.

    The host's clock gives integers of milliseconds, so [Math.ceil] shows
    nowhere.  A getter of the secret storage, the prompts and the clock are the
    outside world's; [JSON] is a parameter. *)

From Stdlib Require Import ZArith Ascii String List.
From stdpp Require Import base option list gmap strings.
From S2P Require Import Prelude JsString JsMap JsValue RemoteTypes Async CredentialTypes.

Local Open Scope string_scope.

Inductive question :=
  | GetSecret (key : string)
  | StoreSecret (key value : string)
  | DeleteSecret (key : string)
  | PickAccount (request : CredentialRequest) (storedAccounts : list string)
  | PromptSecret (request : CredentialRequest) (name : string)
  | PickPersistence (request : CredentialRequest)
  | ConfirmLegacyClear (request : CredentialRequest) (entryCount : nat).

Definition answer (q : question) : Type :=
  match q with
  | GetSecret _ => option string
  | StoreSecret _ _ | DeleteSecret _ => unit
  | PickAccount _ _ | PromptSecret _ _ => option string
  | PickPersistence _ => option CredentialPersistenceIntent
  | ConfirmLegacyClear _ _ => bool
  end.

(** What a prompt or a look-up ends with. *)
Definition acquisition : Type := AcquiredCredential + CredentialResponse.

Inductive ticket := Queued | Running | Released.

Inductive trace_event :=
  | Issued (leaseId operationId : string)
  | Settled (leaseId : string) (outcome : CredentialSettlementOutcome)
  | Acknowledged (ack : CredentialSettlementAck)
  | RollbackFailed.

Record Controller := {
  sessionCredentials : list (string * StoredCredential);
  pendingLeases : list (string * PendingLease);
  tombstones : list (string * LeaseTombstone);
  operationLeases : list (string * list string);
  promptFlights : list (string * (string * nat));
  acceptedGenerations : list string;
  settlementFlights : list (string * nat);
  operationRequests : list (string * OperationRequestState);
  storageQueue : nat;
  legacyClearFlight : option nat;
  legacyReady : bool;
  storageBlocked : bool;
  disposed : bool;
  connectionEpoch : nat;
}.

Definition with_sessionCredentials (x : list (string * StoredCredential)) (c : Controller) : Controller :=
  {| sessionCredentials := x; pendingLeases := pendingLeases c; tombstones := tombstones c; operationLeases := operationLeases c; promptFlights := promptFlights c; acceptedGenerations := acceptedGenerations c; settlementFlights := settlementFlights c; operationRequests := operationRequests c; storageQueue := storageQueue c; legacyClearFlight := legacyClearFlight c; legacyReady := legacyReady c; storageBlocked := storageBlocked c; disposed := disposed c; connectionEpoch := connectionEpoch c |}.
Definition with_pendingLeases (x : list (string * PendingLease)) (c : Controller) : Controller :=
  {| sessionCredentials := sessionCredentials c; pendingLeases := x; tombstones := tombstones c; operationLeases := operationLeases c; promptFlights := promptFlights c; acceptedGenerations := acceptedGenerations c; settlementFlights := settlementFlights c; operationRequests := operationRequests c; storageQueue := storageQueue c; legacyClearFlight := legacyClearFlight c; legacyReady := legacyReady c; storageBlocked := storageBlocked c; disposed := disposed c; connectionEpoch := connectionEpoch c |}.
Definition with_tombstones (x : list (string * LeaseTombstone)) (c : Controller) : Controller :=
  {| sessionCredentials := sessionCredentials c; pendingLeases := pendingLeases c; tombstones := x; operationLeases := operationLeases c; promptFlights := promptFlights c; acceptedGenerations := acceptedGenerations c; settlementFlights := settlementFlights c; operationRequests := operationRequests c; storageQueue := storageQueue c; legacyClearFlight := legacyClearFlight c; legacyReady := legacyReady c; storageBlocked := storageBlocked c; disposed := disposed c; connectionEpoch := connectionEpoch c |}.
Definition with_operationLeases (x : list (string * list string)) (c : Controller) : Controller :=
  {| sessionCredentials := sessionCredentials c; pendingLeases := pendingLeases c; tombstones := tombstones c; operationLeases := x; promptFlights := promptFlights c; acceptedGenerations := acceptedGenerations c; settlementFlights := settlementFlights c; operationRequests := operationRequests c; storageQueue := storageQueue c; legacyClearFlight := legacyClearFlight c; legacyReady := legacyReady c; storageBlocked := storageBlocked c; disposed := disposed c; connectionEpoch := connectionEpoch c |}.
Definition with_promptFlights (x : list (string * (string * nat))) (c : Controller) : Controller :=
  {| sessionCredentials := sessionCredentials c; pendingLeases := pendingLeases c; tombstones := tombstones c; operationLeases := operationLeases c; promptFlights := x; acceptedGenerations := acceptedGenerations c; settlementFlights := settlementFlights c; operationRequests := operationRequests c; storageQueue := storageQueue c; legacyClearFlight := legacyClearFlight c; legacyReady := legacyReady c; storageBlocked := storageBlocked c; disposed := disposed c; connectionEpoch := connectionEpoch c |}.
Definition with_acceptedGenerations (x : list string) (c : Controller) : Controller :=
  {| sessionCredentials := sessionCredentials c; pendingLeases := pendingLeases c; tombstones := tombstones c; operationLeases := operationLeases c; promptFlights := promptFlights c; acceptedGenerations := x; settlementFlights := settlementFlights c; operationRequests := operationRequests c; storageQueue := storageQueue c; legacyClearFlight := legacyClearFlight c; legacyReady := legacyReady c; storageBlocked := storageBlocked c; disposed := disposed c; connectionEpoch := connectionEpoch c |}.
Definition with_settlementFlights (x : list (string * nat)) (c : Controller) : Controller :=
  {| sessionCredentials := sessionCredentials c; pendingLeases := pendingLeases c; tombstones := tombstones c; operationLeases := operationLeases c; promptFlights := promptFlights c; acceptedGenerations := acceptedGenerations c; settlementFlights := x; operationRequests := operationRequests c; storageQueue := storageQueue c; legacyClearFlight := legacyClearFlight c; legacyReady := legacyReady c; storageBlocked := storageBlocked c; disposed := disposed c; connectionEpoch := connectionEpoch c |}.
Definition with_operationRequests (x : list (string * OperationRequestState)) (c : Controller) : Controller :=
  {| sessionCredentials := sessionCredentials c; pendingLeases := pendingLeases c; tombstones := tombstones c; operationLeases := operationLeases c; promptFlights := promptFlights c; acceptedGenerations := acceptedGenerations c; settlementFlights := settlementFlights c; operationRequests := x; storageQueue := storageQueue c; legacyClearFlight := legacyClearFlight c; legacyReady := legacyReady c; storageBlocked := storageBlocked c; disposed := disposed c; connectionEpoch := connectionEpoch c |}.
Definition with_storageQueue (x : nat) (c : Controller) : Controller :=
  {| sessionCredentials := sessionCredentials c; pendingLeases := pendingLeases c; tombstones := tombstones c; operationLeases := operationLeases c; promptFlights := promptFlights c; acceptedGenerations := acceptedGenerations c; settlementFlights := settlementFlights c; operationRequests := operationRequests c; storageQueue := x; legacyClearFlight := legacyClearFlight c; legacyReady := legacyReady c; storageBlocked := storageBlocked c; disposed := disposed c; connectionEpoch := connectionEpoch c |}.
Definition with_legacyClearFlight (x : option nat) (c : Controller) : Controller :=
  {| sessionCredentials := sessionCredentials c; pendingLeases := pendingLeases c; tombstones := tombstones c; operationLeases := operationLeases c; promptFlights := promptFlights c; acceptedGenerations := acceptedGenerations c; settlementFlights := settlementFlights c; operationRequests := operationRequests c; storageQueue := storageQueue c; legacyClearFlight := x; legacyReady := legacyReady c; storageBlocked := storageBlocked c; disposed := disposed c; connectionEpoch := connectionEpoch c |}.
Definition with_legacyReady (x : bool) (c : Controller) : Controller :=
  {| sessionCredentials := sessionCredentials c; pendingLeases := pendingLeases c; tombstones := tombstones c; operationLeases := operationLeases c; promptFlights := promptFlights c; acceptedGenerations := acceptedGenerations c; settlementFlights := settlementFlights c; operationRequests := operationRequests c; storageQueue := storageQueue c; legacyClearFlight := legacyClearFlight c; legacyReady := x; storageBlocked := storageBlocked c; disposed := disposed c; connectionEpoch := connectionEpoch c |}.
Definition with_storageBlocked (x : bool) (c : Controller) : Controller :=
  {| sessionCredentials := sessionCredentials c; pendingLeases := pendingLeases c; tombstones := tombstones c; operationLeases := operationLeases c; promptFlights := promptFlights c; acceptedGenerations := acceptedGenerations c; settlementFlights := settlementFlights c; operationRequests := operationRequests c; storageQueue := storageQueue c; legacyClearFlight := legacyClearFlight c; legacyReady := legacyReady c; storageBlocked := x; disposed := disposed c; connectionEpoch := connectionEpoch c |}.
Definition with_disposed (x : bool) (c : Controller) : Controller :=
  {| sessionCredentials := sessionCredentials c; pendingLeases := pendingLeases c; tombstones := tombstones c; operationLeases := operationLeases c; promptFlights := promptFlights c; acceptedGenerations := acceptedGenerations c; settlementFlights := settlementFlights c; operationRequests := operationRequests c; storageQueue := storageQueue c; legacyClearFlight := legacyClearFlight c; legacyReady := legacyReady c; storageBlocked := storageBlocked c; disposed := x; connectionEpoch := connectionEpoch c |}.
Definition with_connectionEpoch (x : nat) (c : Controller) : Controller :=
  {| sessionCredentials := sessionCredentials c; pendingLeases := pendingLeases c; tombstones := tombstones c; operationLeases := operationLeases c; promptFlights := promptFlights c; acceptedGenerations := acceptedGenerations c; settlementFlights := settlementFlights c; operationRequests := operationRequests c; storageQueue := storageQueue c; legacyClearFlight := legacyClearFlight c; legacyReady := legacyReady c; storageBlocked := storageBlocked c; disposed := disposed c; connectionEpoch := x |}.

Record World := {
  controller : Controller;
  queue : list ticket;
  promptPromises : list (option (result acquisition));
  settlementPromises : list (option (result CredentialSettlementAck));
  legacyPromises : list (option (result (option bool)));
  secretStorage : gmap string string;
  clock : Z;
  trusted : bool;
  ids : nat;
  trace : list trace_event;
}.

Definition with_controller (x : Controller) (w : World) : World :=
  {| controller := x; queue := queue w; promptPromises := promptPromises w; settlementPromises := settlementPromises w; legacyPromises := legacyPromises w; secretStorage := secretStorage w; clock := clock w; trusted := trusted w; ids := ids w; trace := trace w |}.
Definition with_queue (x : list ticket) (w : World) : World :=
  {| controller := controller w; queue := x; promptPromises := promptPromises w; settlementPromises := settlementPromises w; legacyPromises := legacyPromises w; secretStorage := secretStorage w; clock := clock w; trusted := trusted w; ids := ids w; trace := trace w |}.
Definition with_promptPromises (x : list (option (result acquisition))) (w : World) : World :=
  {| controller := controller w; queue := queue w; promptPromises := x; settlementPromises := settlementPromises w; legacyPromises := legacyPromises w; secretStorage := secretStorage w; clock := clock w; trusted := trusted w; ids := ids w; trace := trace w |}.
Definition with_settlementPromises (x : list (option (result CredentialSettlementAck))) (w : World) : World :=
  {| controller := controller w; queue := queue w; promptPromises := promptPromises w; settlementPromises := x; legacyPromises := legacyPromises w; secretStorage := secretStorage w; clock := clock w; trusted := trusted w; ids := ids w; trace := trace w |}.
Definition with_legacyPromises (x : list (option (result (option bool)))) (w : World) : World :=
  {| controller := controller w; queue := queue w; promptPromises := promptPromises w; settlementPromises := settlementPromises w; legacyPromises := x; secretStorage := secretStorage w; clock := clock w; trusted := trusted w; ids := ids w; trace := trace w |}.
Definition with_secretStorage (x : gmap string string) (w : World) : World :=
  {| controller := controller w; queue := queue w; promptPromises := promptPromises w; settlementPromises := settlementPromises w; legacyPromises := legacyPromises w; secretStorage := x; clock := clock w; trusted := trusted w; ids := ids w; trace := trace w |}.
Definition with_clock (x : Z) (w : World) : World :=
  {| controller := controller w; queue := queue w; promptPromises := promptPromises w; settlementPromises := settlementPromises w; legacyPromises := legacyPromises w; secretStorage := secretStorage w; clock := x; trusted := trusted w; ids := ids w; trace := trace w |}.
Definition with_trusted (x : bool) (w : World) : World :=
  {| controller := controller w; queue := queue w; promptPromises := promptPromises w; settlementPromises := settlementPromises w; legacyPromises := legacyPromises w; secretStorage := secretStorage w; clock := clock w; trusted := x; ids := ids w; trace := trace w |}.
Definition with_ids (x : nat) (w : World) : World :=
  {| controller := controller w; queue := queue w; promptPromises := promptPromises w; settlementPromises := settlementPromises w; legacyPromises := legacyPromises w; secretStorage := secretStorage w; clock := clock w; trusted := trusted w; ids := x; trace := trace w |}.
Definition with_trace (x : list trace_event) (w : World) : World :=
  {| controller := controller w; queue := queue w; promptPromises := promptPromises w; settlementPromises := settlementPromises w; legacyPromises := legacyPromises w; secretStorage := secretStorage w; clock := clock w; trusted := trusted w; ids := ids w; trace := x |}.

Abbreviation prog := (@Async.prog World question answer).

Open Scope prog_scope.

Definition state {A} (f : Controller -> A) : method World A := get (fun w => f (controller w)).
Definition this : method World Controller := get controller.
Definition update (f : Controller -> Controller) : method World unit := modify_state (fun w => with_controller (f (controller w)) w).
Definition record_event (e : trace_event) : method World unit := modify_state (fun w => with_trace (trace w ++ [e])%list w).

Definition withDeadline {A} (deadline : Z) (p : prog A) : prog (option A) :=
  deadline_race (fun w => (deadline - clock w <=? 0)%Z) p.

Section Controller.
Context (hashText : string -> string) (createId_ : nat -> string)
  (json_parse : string -> option js_value) (json_stringify : js_value -> string).

Definition now : method World Z := get clock.
Definition workspaceTrusted : method World bool := get trusted.
Definition createId : method World string := fun w => (Ok (createId_ (ids w)), with_ids (S (ids w)) w).

(** ** Texts in the storage *)
Definition number (z : Z) : js_value := VNum (NumInt z).
Definition encode_entry (e : CredentialIndexEntry) : js_value :=
  VObj [("storageKey", VStr (entry_storageKey e)); ("authorityHash", VStr (entry_authorityHash e));
        ("accountHash", VStr (entry_accountHash e)); ("username", VStr (entry_username e))].
Definition index_text (entries : list CredentialIndexEntry) : string :=
  json_stringify (VObj [("version", number 2); ("entries", VArr (map encode_entry entries))]).
Definition encode_stored (s : StoredCredential) : js_value :=
  VObj [("version", number 2); ("authorityHash", VStr (stored_authorityHash s)); ("accountHash", VStr (stored_accountHash s));
        ("username", VStr (stored_username s)); ("secret", VStr (stored_secret s)); ("generation", VStr (stored_generation s))].
Definition legacy_text (keys : list string) : string :=
  json_stringify (VObj [("version", number 1); ("keys", VArr (map VStr keys))]).

(** ** Changes of the fields *)
Definition hasUnsettledSibling (lease : PendingLease) (c : Controller) : bool :=
  existsb (fun candidate =>
    negb (bool_decide (lease_leaseId candidate = lease_leaseId lease))
    && bool_decide (lease_authorityHash candidate = lease_authorityHash lease)
    && bool_decide (lease_accountHash candidate = lease_accountHash lease)
    && bool_decide (acq_generation (lease_acquired candidate) = acq_generation (lease_acquired lease)))
    (map_values (pendingLeases c)).
Definition leaseGenerationKey (lease : PendingLease) : string :=
  generationKey (lease_authorityHash lease) (lease_accountHash lease) (acq_generation (lease_acquired lease)).

Definition removeOperationLease (operationId leaseId : string) (c : Controller) : Controller :=
  match map_get (operationLeases c) operationId with
  | Some operation =>
      let operation := set_delete operation leaseId in
      with_operationLeases
        (if Nat.eqb (length operation) 0 then map_delete (operationLeases c) operationId
         else map_set (operationLeases c) operationId operation) c
  | None => c
  end.
(** The first half of [settleLease] and of [discardLease]. *)
Definition removeLease (lease : PendingLease) (c : Controller) : Controller :=
  removeOperationLease (lease_operationId lease) (lease_leaseId lease)
    (with_pendingLeases (map_delete (pendingLeases c) (lease_leaseId lease)) c).
Definition forgetGeneration (lease : PendingLease) (c : Controller) : Controller :=
  if hasUnsettledSibling lease c then c
  else with_acceptedGenerations (set_delete (acceptedGenerations c) (leaseGenerationKey lease)) c.

Definition discardLease (lease : PendingLease) (c : Controller) : Controller := forgetGeneration lease (removeLease lease c).

Definition tombstone_of (lease : PendingLease) (outcome : CredentialSettlementOutcome) : LeaseTombstone :=
  {| tomb_operationId := lease_operationId lease; tomb_leaseId := lease_leaseId lease; tomb_outcome := outcome;
     tomb_authorityHash := lease_authorityHash lease; tomb_accountHash := lease_accountHash lease;
     tomb_generation := acq_generation (lease_acquired lease); tomb_source := acq_source (lease_acquired lease);
     tomb_username := username (acq_credential (lease_acquired lease)); tomb_retryConsumed := false |}.
Definition addTombstone (lease : PendingLease) (outcome : CredentialSettlementOutcome) : method World unit :=
  c <- this;
  if (MAX_TOMBSTONES <=? map_size (tombstones c))%nat then
    _ <- update (with_storageBlocked true); throw_error storageIntegrityError
  else
    _ <- update (with_tombstones (map_set (tombstones c) (lease_leaseId lease) (tombstone_of lease outcome)));
    record_event (Settled (lease_leaseId lease) outcome).

Definition settleLease (lease : PendingLease) (outcome : CredentialSettlementOutcome) : method World unit :=
  _ <- update (removeLease lease);
  _ <- addTombstone lease outcome;
  update (forgetGeneration lease).

Definition invalidateBackendConnection : method World unit :=
  update (fun c =>
    with_acceptedGenerations [] (with_legacyClearFlight None (with_settlementFlights [] (with_promptFlights []
      (with_tombstones [] (with_operationLeases [] (with_pendingLeases [] (with_connectionEpoch (S (connectionEpoch c)) c)))))))).

Definition dispose : method World unit :=
  d <- state disposed;
  if d then mret tt
  else
    _ <- update (with_disposed true);
    _ <- invalidateBackendConnection;
    update (with_sessionCredentials []).

Definition close_request (st : OperationRequestState) : OperationRequestState :=
  {| op_epoch := S (op_epoch st); op_inFlight := op_inFlight st; op_closed := true |}.
Definition discard_of (c : Controller) (leaseId : string) : Controller :=
  match map_get (pendingLeases c) leaseId with Some lease => discardLease lease c | None => c end.
Definition discardOperation (operationId : string) : method World unit :=
  update (fun c =>
    let c := match map_get (operationRequests c) operationId with
             | Some st => with_operationRequests (map_set (operationRequests c) operationId (close_request st)) c
             | None => c
             end in
    let c := match map_get (operationLeases c) operationId with
             | Some ids => let c := fold_left discard_of ids c in
                           with_operationLeases (map_delete (operationLeases c) operationId) c
             | None => c
             end in
    with_tombstones (List.filter (fun e => negb (bool_decide (tomb_operationId (snd e) = operationId))) (tombstones c)) c).

(** ** Requests of an operation *)
Definition beginOperationRequest (operationId : string) : method World nat :=
  c <- this;
  let st : OperationRequestState := default {| op_epoch := 0; op_inFlight := 0; op_closed := false |} (map_get (operationRequests c) operationId) in
  _ <- update (with_operationRequests (map_set (operationRequests c) operationId
        {| op_epoch := op_epoch st; op_inFlight := S (op_inFlight st); op_closed := op_closed st |}));
  mret (op_epoch st).

Definition finishOperationRequest (operationId : string) : method World unit :=
  update (fun c =>
    match map_get (operationRequests c) operationId with
    | Some st =>
        let inFlight := pred (op_inFlight st) in
        with_operationRequests
          (if Nat.eqb inFlight 0 then map_delete (operationRequests c) operationId
           else map_set (operationRequests c) operationId
                  {| op_epoch := op_epoch st; op_inFlight := inFlight; op_closed := op_closed st |}) c
    | None => c
    end).

Definition operationRequestCurrent (operationId : string) (operationEpoch : nat) : method World bool :=
  state (fun c => match map_get (operationRequests c) operationId with
                  | Some st => Nat.eqb (op_epoch st) operationEpoch && negb (op_closed st)
                  | None => false
                  end).

(** [this.disposed || !this.options.workspaceTrusted()] *)
Definition inactive : method World bool := get (fun w => disposed (controller w) || negb (trusted w)).

Definition requestLifecycleCurrent (operationId : string) (operationEpoch : nat) (deadline : Z) (epoch : nat) : method World bool :=
  d <- inactive; current <- operationRequestCurrent operationId operationEpoch; e <- state connectionEpoch; t <- now;
  mret (negb d && current && Nat.eqb e epoch && (t <? deadline)%Z).

Definition assertRequestLifecycle (request : CredentialRequest) (operationEpoch : nat) (deadline : Z) (epoch : nat) : method World unit :=
  let args := safeCredentialArgs hashText request in
  t <- now;
  if (deadline <=? t)%Z then throw_error (CredentialRpcError SUBVERSIONR_CREDENTIAL_TIMEOUT "auth" "error.auth.credentialTimeout" args) else
  current <- operationRequestCurrent (req_operationId request) operationEpoch;
  if negb current then throw_error (CredentialRpcError SUBVERSIONR_CREDENTIAL_CANCELLED "auth" "error.auth.credentialCancelled" args) else
  d <- inactive; e <- state connectionEpoch;
  if d || negb (Nat.eqb e epoch) then
    throw_error (CredentialRpcError SUBVERSIONR_CREDENTIAL_UNTRUSTED_WORKSPACE "lifecycle" "error.auth.credentialUntrustedWorkspace" args)
  else mret tt.

Definition requestWithRemainingTimeout (request : CredentialRequest) (deadline : Z) : method World (option CredentialRequest) :=
  t <- now;
  let remaining := (deadline - t)%Z in
  mret (if (remaining <=? 0)%Z then None else Some
    {| req_requestId := req_requestId request; req_operationId := req_operationId request; req_endpoint := req_endpoint request;
       req_authKind := req_authKind request; req_realm := req_realm request; req_account := req_account request;
       req_attempt := req_attempt request; req_interactive := req_interactive request;
       req_persistenceAllowed := req_persistenceAllowed request; req_origin := req_origin request; req_timeoutMs := remaining |}).

(** ** Settlements *)
Definition assertSettlementLifecycle (lease : PendingLease) (request : CredentialSettlementRequest) : method World unit :=
  d <- inactive;
  if d then _ <- invalidateBackendConnection; throw_error (settlementLifecycleError hashText request) else
  c <- this;
  if negb (Nat.eqb (lease_connectionEpoch lease) (connectionEpoch c))
     || negb (bool_decide (map_get (pendingLeases c) (lease_leaseId lease) = Some lease))
  then throw_error (leaseError hashText SUBVERSIONR_CREDENTIAL_LEASE_UNKNOWN "error.auth.credentialLeaseUnknown" request)
  else mret tt.
Definition assertSettlementWritable (lease : PendingLease) (deadline : Z) (request : CredentialSettlementRequest) : method World unit :=
  _ <- assertSettlementLifecycle lease request;
  t <- now;
  if (deadline <=? t)%Z then throw_error (leaseError hashText SUBVERSIONR_CREDENTIAL_TIMEOUT "error.auth.credentialTimeout" request)
  else mret tt.

Definition acknowledgeTombstone (request : CredentialSettlementRequest) : method World CredentialSettlementAck :=
  c <- this;
  match map_get (tombstones c) (settle_leaseId request) with
  | None => throw_error (leaseError hashText SUBVERSIONR_CREDENTIAL_LEASE_UNKNOWN "error.auth.credentialLeaseUnknown" request)
  | Some tombstone =>
      if negb (bool_decide (tomb_operationId tombstone = settle_operationId request)) then
        throw_error (leaseError hashText SUBVERSIONR_CREDENTIAL_LEASE_FOREIGN "error.auth.credentialLeaseForeign" request)
      else if negb (bool_decide (tomb_outcome tombstone = settle_outcome request)) then
        throw_error (leaseError hashText SUBVERSIONR_CREDENTIAL_SETTLEMENT_CONFLICT "error.auth.credentialSettlementConflict" request)
      else mret (settlementAck request)
  end.

(** ** The storage queue *)
Definition takeTicket : method World (nat * nat) :=
  c <- this;
  q <- get queue;
  _ <- modify_state (fun w => with_queue (q ++ [Queued])%list w);
  _ <- update (with_storageQueue (length q));
  mret (storageQueue c, length q).
Definition set_ticket (n : nat) (t : ticket) : method World unit := modify_state (fun w => with_queue (<[n := t]> (queue w)) w).
Definition released (n : nat) (w : World) : option unit :=
  match queue w !! n with Some Released => Some tt | _ => None end.

(** The [catch] and [finally] of [serializeStorage] and [serializeCleanup]. *)
Definition storage_result {A} (r : result A) : result A :=
  match r with
  | Throw e => Throw (if isCredentialRpcError e then e else storageIntegrityError)
  | Ok a => Ok a
  end.
Definition blocks (e : js_error) : bool := negb (isCredentialRpcError e) || has_code SUBVERSIONR_CREDENTIAL_STORAGE_INTEGRITY e.
Definition leave (n : nat) {A} (blocking : js_error -> bool) (r : result A) : method World A :=
  _ <- match r with
      | Throw e => if blocking e then update (with_storageBlocked true) else mret tt
      | Ok _ => mret tt
      end;
  _ <- set_ticket n Released;
  lift_result (storage_result r).

Definition in_queue {A} (blocking : js_error -> bool) (operation : prog A) : prog A :=
  tickets <~ sync takeTicket;
  _ <~ (Wait (released (fst tickets)) (fun _ => sync (set_ticket (snd tickets) Running)) : prog unit);
  Async.bind operation (fun r => sync (leave (snd tickets) blocking r)).
Definition refuse_blocked : method World unit :=
  b <- state storageBlocked; if b then throw_error storageIntegrityError else mret tt.
Definition serializeStorage {A} (operation : prog A) : prog A :=
  in_queue blocks (_ <~ sync refuse_blocked; await operation).
Definition serializeCleanup {A} (operation : prog A) : prog A := in_queue (fun _ => true) (await operation).

(** ** Reading the storage *)

(** The [catch] of the readers: whatever they throw blocks the storage. *)
Definition checked {A} (r : result A) : prog A :=
  match storage_result r with
  | Ok a => ret a
  | Throw e => _ <~ sync (update (with_storageBlocked true)); throw e
  end.
Definition parsed (raw : string) : result js_value :=
  match json_parse raw with Some v => Ok v | None => Throw storageIntegrityError end.
Definition array_of (v : option js_value) : option (list js_value) := match v with Some (VArr items) => Some items | _ => None end.

Definition legacy_key (v : js_value) : option string :=
  match v with VStr s => if startsWith s LEGACY_ENTRY_PREFIX then Some s else None | _ => None end.
Definition parseLegacyIndex (raw : string) : result (list string) :=
  v ← parsed raw;
  _ ← require (isPlainRecord (Some v) && hasExactKeys v ["version"; "keys"] && number_is 1 (field v "version")) storageIntegrityError;
  match array_of (field v "keys") with
  | Some items =>
      match mapM legacy_key items with
      | Some keys =>
          _ ← require ((1 <=? length keys)%nat && (length keys <=? MAX_INDEX_ENTRIES)%nat
                       && Nat.eqb (length (set_of keys)) (length keys)) storageIntegrityError;
          Ok keys
      | None => Throw storageIntegrityError
      end
  | None => Throw storageIntegrityError
  end.
Definition readLegacyIndex : prog (list string) :=
  raw <~ await (ask (GetSecret LEGACY_INDEX_KEY));
  match raw with None => ret [] | Some raw => checked (parseLegacyIndex raw) end.

Definition account_pair (e : CredentialIndexEntry) : string := entry_authorityHash e ++ String NUL (entry_accountHash e).
Definition parseV2Index (raw : string) : result (list CredentialIndexEntry) :=
  v ← parsed raw;
  _ ← require (isPlainRecord (Some v) && hasExactKeys v ["version"; "entries"] && number_is 2 (field v "version")) storageIntegrityError;
  match array_of (field v "entries") with
  | Some items =>
      _ ← require ((1 <=? length items)%nat && (length items <=? MAX_INDEX_ENTRIES)%nat) storageIntegrityError;
      entries ← mapi (fun _ item => parseIndexEntry hashText (Some item)) items;
      _ ← require (Nat.eqb (length (set_of (map entry_storageKey entries))) (length entries)
                   && Nat.eqb (length (set_of (map account_pair entries))) (length entries)) storageIntegrityError;
      Ok entries
  | None => Throw storageIntegrityError
  end.
Definition readV2Index : prog (list CredentialIndexEntry) :=
  raw <~ await (ask (GetSecret V2_INDEX_KEY));
  match raw with None => ret [] | Some raw => checked (parseV2Index raw) end.

Definition STORED_KEYS : list string := ["version"; "authorityHash"; "accountHash"; "username"; "secret"; "generation"].
(** With the value read, which is written back as it was. *)
Definition parseStoredCredential (metadata : CredentialIndexEntry) (raw : string) : result (js_value * StoredCredential) :=
  v ← parsed raw;
  _ ← require (isPlainRecord (Some v) && hasExactKeys v STORED_KEYS && number_is 2 (field v "version")
               && text_is (entry_authorityHash metadata) (field v "authorityHash")
               && text_is (entry_accountHash metadata) (field v "accountHash")
               && text_is (entry_username metadata) (field v "username")) storageIntegrityError;
  match field v "secret", field v "generation" with
  | Some (VStr s), Some (VStr g) =>
      _ ← require (isValidSecret s && isCanonicalIdText g) storageIntegrityError;
      Ok (v, {| stored_authorityHash := entry_authorityHash metadata; stored_accountHash := entry_accountHash metadata;
                stored_username := entry_username metadata; stored_secret := s; stored_generation := g |})
  | _, _ => Throw storageIntegrityError
  end.
Definition readStoredCredential (metadata : CredentialIndexEntry) : prog (js_value * StoredCredential) :=
  raw <~ await (ask (GetSecret (entry_storageKey metadata)));
  match raw with
  | None => _ <~ sync (update (with_storageBlocked true)); throw storageIntegrityError
  | Some raw => checked (parseStoredCredential metadata raw)
  end.

Definition find_entry (storageKey : string) (entries : list CredentialIndexEntry) : option CredentialIndexEntry :=
  List.find (fun e => bool_decide (entry_storageKey e = storageKey)) entries.

Definition readAvailableCredential (authorityHash name : string) : prog (option AcquiredCredential) :=
  let accountHash := credentialAccountHash hashText name in
  let storageKey := credentialStorageKey authorityHash accountHash in
  session <~ sync (state (fun c => map_get (sessionCredentials c) storageKey));
  match session with
  | Some session => id <~ sync createId; ret (Some (acquiredFromStored session FromSession id))
  | None =>
      await (serializeStorage (
        entries <~ await readV2Index;
        match find_entry storageKey entries with
        | None => ret None
        | Some metadata =>
            if negb (bool_decide (entry_authorityHash metadata = authorityHash)) || negb (bool_decide (entry_accountHash metadata = accountHash))
               || negb (bool_decide (entry_username metadata = name))
            then throw storageIntegrityError
            else
              stored <~ await (readStoredCredential metadata);
              id <~ sync createId;
              ret (Some (acquiredFromStored (snd stored) FromStored id))
        end))
  end.

Definition readAccounts (authorityHash : string) : prog (list string) :=
  await (serializeStorage (
    entries <~ await readV2Index;
    let accounts := set_of (map entry_username (List.filter (fun e => bool_decide (entry_authorityHash e = authorityHash)) entries)) in
    sessions <~ sync (state sessionCredentials);
    ret (fold_left set_add
           (map stored_username (List.filter (fun s => bool_decide (stored_authorityHash s = authorityHash)) (map_values sessions))) accounts))).

(** ** Writing the storage *)

(** The closures [rollback] of the code, with the variables they have captured. *)
Inductive StorageMutation :=
  | NoMutation
  | RestoreSession (key : string) (current : option StoredCredential)
  | RestoreStored (key previous : string) (attempted : bool)
  | RemoveStored (key : string) (previousIndex : option string) (credentialAttempted indexAttempted : bool)
  | RestoreRejected (key previousCredential previousIndex : string) (credentialAttempted indexAttempted : bool)
  | RestoreLegacy (snapshots : list (string * string)) (current deleted : list string) (indexDeleteAttempted : bool).

Definition when (b : bool) (p : prog unit) : prog unit := if b then p else ret tt.
Fixpoint store_all (snapshots : list (string * string)) (deleted : list string) : prog unit :=
  match deleted with
  | [] => ret tt
  | key :: rest =>
      _ <~ await (ask (StoreSecret key (default "undefined" (map_get snapshots key))));
      store_all snapshots rest
  end.
Definition rollback (m : StorageMutation) : prog unit :=
  match m with
  | NoMutation => ret tt
  | RestoreSession key current =>
      sync (update (fun c => with_sessionCredentials
        match current with
        | Some s => map_set (sessionCredentials c) key s
        | None => map_delete (sessionCredentials c) key
        end c))
  | RestoreStored key previous attempted => when attempted (await (ask (StoreSecret key previous)))
  | RemoveStored key previousIndex credentialAttempted indexAttempted =>
      _ <~ when credentialAttempted (await (ask (DeleteSecret key)));
      when indexAttempted match previousIndex with
        | None => await (ask (DeleteSecret V2_INDEX_KEY))
        | Some text => await (ask (StoreSecret V2_INDEX_KEY text))
        end
  | RestoreRejected key previousCredential previousIndex credentialAttempted indexAttempted =>
      _ <~ when credentialAttempted (await (ask (StoreSecret key previousCredential)));
      when indexAttempted (await (ask (StoreSecret V2_INDEX_KEY previousIndex)))
  | RestoreLegacy snapshots current deleted indexDeleteAttempted =>
      _ <~ store_all snapshots deleted;
      when indexDeleteAttempted (await (ask (StoreSecret LEGACY_INDEX_KEY (legacy_text current))))
  end.
Definition rollbackMutation (m : StorageMutation) : prog unit :=
  catch (await (rollback m)) (fun _ =>
    _ <~ sync (update (with_storageBlocked true));
    _ <~ sync (record_event RollbackFailed);
    throw storageIntegrityError).
(** A statement of a [try] whose [catch] rolls the mutation back as it then is. *)
Definition attempt {A B} (m : StorageMutation) (p : prog A) (k : A -> prog B) : prog B :=
  Async.bind p (fun r =>
    match r with
    | Ok a => k a
    | Throw e => _ <~ await (rollbackMutation m); throw e
    end).

Definition lease_stored (lease : PendingLease) : StoredCredential :=
  {| stored_authorityHash := lease_authorityHash lease; stored_accountHash := lease_accountHash lease;
     stored_username := username (acq_credential (lease_acquired lease)); stored_secret := secret (acq_credential (lease_acquired lease));
     stored_generation := acq_generation (lease_acquired lease) |}.
Definition lease_entry (lease : PendingLease) : CredentialIndexEntry :=
  {| entry_storageKey := lease_storageKey lease; entry_authorityHash := lease_authorityHash lease;
     entry_accountHash := lease_accountHash lease; entry_username := username (acq_credential (lease_acquired lease)) |}.

Section Settlement.
Context (lease : PendingLease) (deadline : Z) (request : CredentialSettlementRequest).
Let key := lease_storageKey lease.
Let generation := acq_generation (lease_acquired lease).
Definition writable : prog unit := sync (assertSettlementWritable lease deadline request).

Definition accept_session : prog StorageMutation :=
  current <~ sync (state (fun c => map_get (sessionCredentials c) key));
  if match current with
     | None => true
     | Some s => bool_decide (Some (stored_generation s) = acq_baseGeneration (lease_acquired lease)) || bool_decide (stored_generation s = generation)
     end
  then
    _ <~ writable;
    _ <~ sync (update (fun c => with_sessionCredentials (map_set (sessionCredentials c) key (lease_stored lease)) c));
    ret (RestoreSession key current)
  else ret NoMutation.

Definition accept_known (metadata : CredentialIndexEntry) : prog StorageMutation :=
  current <~ await (readStoredCredential metadata);
  let '(raw, current) := current in
  if negb (bool_decide (stored_generation current = generation))
     && negb (bool_decide (Some (stored_generation current) = acq_baseGeneration (lease_acquired lease)))
  then ret NoMutation
  else if bool_decide (stored_generation current = generation) then ret NoMutation
  else
    let previous := json_stringify raw in
    attempt (RestoreStored key previous false) writable (fun _ =>
    attempt (RestoreStored key previous true) (await (ask (StoreSecret key (json_stringify (encode_stored (lease_stored lease)))))) (fun _ =>
    ret (RestoreStored key previous true))).

Definition accept_new (entries : list CredentialIndexEntry) : prog StorageMutation :=
  if (MAX_INDEX_ENTRIES <=? length entries)%nat then throw storageIntegrityError else
  let previousIndex := match entries with [] => None | _ => Some (index_text entries) end in
  attempt (RemoveStored key previousIndex false false) writable (fun _ =>
  attempt (RemoveStored key previousIndex false true)
    (await (ask (StoreSecret V2_INDEX_KEY (index_text (entries ++ [lease_entry lease])%list)))) (fun _ =>
  attempt (RemoveStored key previousIndex false true) writable (fun _ =>
  attempt (RemoveStored key previousIndex true true)
    (await (ask (StoreSecret key (json_stringify (encode_stored (lease_stored lease)))))) (fun _ =>
  ret (RemoveStored key previousIndex true true))))).

Definition acceptLease : prog StorageMutation :=
  if bool_decide (acq_persistenceIntent (lease_acquired lease) = InSession) then accept_session
  else
    entries <~ await readV2Index;
    match find_entry key entries with
    | Some metadata => accept_known metadata
    | None => accept_new entries
    end.

Definition reject_session : prog StorageMutation :=
  current <~ sync (state (fun c => map_get (sessionCredentials c) key));
  match current with
  | Some s =>
      if bool_decide (stored_generation s = generation) then
        _ <~ writable;
        _ <~ sync (update (fun c => with_sessionCredentials (map_delete (sessionCredentials c) key) c));
        ret (RestoreSession key (Some s))
      else ret NoMutation
  | None => ret NoMutation
  end.

Definition reject_stored : prog StorageMutation :=
  entries <~ await readV2Index;
  match find_entry key entries with
  | None => ret NoMutation
  | Some metadata =>
      current <~ await (readStoredCredential metadata);
      let '(raw, current) := current in
      if negb (bool_decide (stored_generation current = generation)) then ret NoMutation
      else
        let remaining := List.filter (fun e => negb (bool_decide (entry_storageKey e = key))) entries in
        let mutation := RestoreRejected key (json_stringify raw) (index_text entries) in
        attempt (mutation false false) writable (fun _ =>
        attempt (mutation true false) (await (ask (DeleteSecret key))) (fun _ =>
        attempt (mutation true false) writable (fun _ =>
        attempt (mutation true true)
          match remaining with
          | [] => await (ask (DeleteSecret V2_INDEX_KEY))
          | _ => await (ask (StoreSecret V2_INDEX_KEY (index_text remaining)))
          end (fun _ =>
        ret (mutation true true)))))
  end.

Definition rejectLease : prog StorageMutation :=
  accepted <~ sync (state (fun c => set_has (acceptedGenerations c) (leaseGenerationKey lease)));
  if accepted then ret NoMutation
  else match acq_source (lease_acquired lease) with
       | FromSession => reject_session
       | FromStored => reject_stored
       | FromPrompt => ret NoMutation
       end.

(** The body of [serializeStorage] in [settleCredential]. *)
Definition settle_catch {A} (mutation : StorageMutation) (acceptedGenerationAdded : bool) (e : js_error) : prog A :=
  _ <~ when acceptedGenerationAdded
        (sync (update (fun c => with_acceptedGenerations (set_delete (acceptedGenerations c) (leaseGenerationKey lease)) c)));
  _ <~ await (rollbackMutation mutation);
  throw e.
Definition settle_try {A B} (mutation : StorageMutation) (added : bool) (p : prog A) (k : A -> prog B) : prog B :=
  Async.bind p (fun r => match r with Ok a => k a | Throw e => settle_catch mutation added e end).
Definition addAcceptedGeneration : method World bool :=
  c <- this;
  if bool_decide (settle_outcome request = Accepted) && negb (set_has (acceptedGenerations c) (leaseGenerationKey lease)) then
    _ <- update (with_acceptedGenerations (set_add (acceptedGenerations c) (leaseGenerationKey lease))); mret true
  else mret false.
Definition settle_stored : prog unit :=
  settle_try NoMutation false writable (fun _ =>
  settle_try NoMutation false (await (if bool_decide (settle_outcome request = Accepted) then acceptLease else rejectLease)) (fun mutation =>
  settle_try mutation false writable (fun _ =>
  settle_try mutation false (sync addAcceptedGeneration) (fun added =>
  settle_try mutation added (sync (settleLease lease (settle_outcome request))) (fun _ => ret tt))))).
End Settlement.

Definition settleCredential (request : CredentialSettlementRequest) : prog CredentialSettlementAck :=
  d <~ sync inactive;
  if d then _ <~ sync invalidateBackendConnection; throw (settlementLifecycleError hashText request) else
  c <~ sync this;
  match map_get (pendingLeases c) (settle_leaseId request) with
  | None => sync (acknowledgeTombstone request)
  | Some lease =>
      if negb (bool_decide (lease_operationId lease = settle_operationId request)) then
        throw (leaseError hashText SUBVERSIONR_CREDENTIAL_LEASE_FOREIGN "error.auth.credentialLeaseForeign" request)
      else if negb (Nat.eqb (lease_connectionEpoch lease) (connectionEpoch c)) then
        _ <~ sync (update (discardLease lease));
        throw (leaseError hashText SUBVERSIONR_CREDENTIAL_LEASE_UNKNOWN "error.auth.credentialLeaseUnknown" request)
      else
        t <~ sync now;
        let deadline := Z.min (lease_expiresAt lease) (t + settle_timeoutMs request) in
        if (lease_expiresAt lease <=? t)%Z && negb (bool_decide (settle_outcome request = TimedOut)) then
          _ <~ sync (update (discardLease lease));
          throw (leaseError hashText SUBVERSIONR_CREDENTIAL_LEASE_EXPIRED "error.auth.credentialLeaseExpired" request)
        else if bool_decide (settle_outcome request = Accepted) || bool_decide (settle_outcome request = Rejected) then
          _ <~ await (serializeStorage (settle_stored lease deadline request));
          ret (settlementAck request)
        else
          _ <~ sync (assertSettlementLifecycle lease request);
          _ <~ sync (settleLease lease (settle_outcome request));
          ret (settlementAck request)
  end.

(** A settlement waits for the one under way for its lease, and then starts
    over. *)
Definition settlement_round (request : CredentialSettlementRequest) : prog (option CredentialSettlementAck) :=
  active <~ sync (state (fun c => map_get (settlementFlights c) (settle_leaseId request)));
  match active with
  | Some i => _ <~ promise settlementPromises i; ret None
  | None =>
      i <~ start_promise settlementPromises with_settlementPromises (settleCredential request);
      _ <~ sync (update (fun c => with_settlementFlights (map_set (settlementFlights c) (settle_leaseId request) i) c));
      ack <~ finally (promise settlementPromises i) (update (fun c =>
        if bool_decide (map_get (settlementFlights c) (settle_leaseId request) = Some i)
        then with_settlementFlights (map_delete (settlementFlights c) (settle_leaseId request)) c else c));
      ret (Some ack)
  end.
Definition handleCredentialSettlement (request : CredentialSettlementRequest) : prog CredentialSettlementAck :=
  Until (settlement_round request) (settlement_round request) Done.

(** ** Acquiring a credential *)
Definition cancelled (request : CredentialRequest) (code category messageKey : string) : acquisition := inr (cancel hashText request code category messageKey).
Definition timed_out (request : CredentialRequest) : CredentialResponse :=
  cancel hashText request SUBVERSIONR_CREDENTIAL_TIMEOUT "auth" "error.auth.credentialTimeout".
Definition was_cancelled (request : CredentialRequest) : CredentialResponse :=
  cancel hashText request SUBVERSIONR_CREDENTIAL_CANCELLED "auth" "error.auth.credentialCancelled".

Definition prompted (name s : string) (intent : CredentialPersistenceIntent) (baseGeneration : option string) : method World acquisition :=
  generation <- createId; acquisitionId <- createId;
  mret (inl {| acq_credential := {| username := name; secret := s |}; acq_persistenceIntent := intent; acq_generation := generation;
               acq_source := FromPrompt; acq_baseGeneration := baseGeneration; acq_acquisitionId := acquisitionId |}).

Definition promptForSecret (request : CredentialRequest) (deadline : Z) (name : string) (baseGeneration : option string) : prog acquisition :=
  secretRequest <~ sync (requestWithRemainingTimeout request deadline);
  match secretRequest with
  | None => ret (inr (timed_out request))
  | Some secretRequest =>
      s <~ await (withDeadline deadline (ask (PromptSecret secretRequest name)));
      match s with
      | None => ret (inr (timed_out request))
      | Some None => ret (inr (was_cancelled request))
      | Some (Some s) =>
          if negb (isValidSecret s) then
            ret (cancelled request SUBVERSIONR_CREDENTIAL_SECRET_INVALID "auth" "error.auth.credentialSecretInvalid")
          else if negb (req_persistenceAllowed request) then sync (prompted name s InSession baseGeneration)
          else
            persistenceRequest <~ sync (requestWithRemainingTimeout request deadline);
            match persistenceRequest with
            | None => ret (inr (timed_out request))
            | Some persistenceRequest =>
                persistence <~ await (withDeadline deadline (ask (PickPersistence persistenceRequest)));
                match persistence with
                | None => ret (inr (timed_out request))
                | Some None => ret (inr (was_cancelled request))
                | Some (Some intent) => sync (prompted name s intent baseGeneration)
                end
            end
      end
  end.

(** One prompt at a time for an authority: a request that asks the same shares
    the answer of the prompt under way, another waits for it and starts over. *)
Definition prompt_round (request : CredentialRequest) (deadline : Z) (authorityHash compatibilityKey : string) (factory : prog acquisition)
    : prog (option acquisition) :=
  active <~ sync (state (fun c => map_get (promptFlights c) authorityHash));
  match active with
  | Some (key, i) =>
      r <~ await (withDeadline deadline (promise promptPromises i));
      match r with
      | None => ret (Some (inr (timed_out request)))
      | Some r => if bool_decide (key = compatibilityKey) then ret (Some r) else ret None
      end
  | None =>
      i <~ start_promise promptPromises with_promptPromises factory;
      _ <~ sync (update (fun c => with_promptFlights (map_set (promptFlights c) authorityHash (compatibilityKey, i)) c));
      r <~ finally (promise promptPromises i) (update (fun c =>
        if bool_decide (snd <$> map_get (promptFlights c) authorityHash = Some i)
        then with_promptFlights (map_delete (promptFlights c) authorityHash) c else c));
      ret (Some r)
  end.
Definition runPromptFlight (request : CredentialRequest) (deadline : Z) (authorityHash compatibilityKey : string) (factory : prog acquisition)
    : prog acquisition :=
  Until (prompt_round request deadline authorityHash compatibilityKey factory)
        (prompt_round request deadline authorityHash compatibilityKey factory) Done.

Definition acquirePromptSingleFlight (request : CredentialRequest) (authorityHash name : string) (baseGeneration : option string) (deadline : Z)
    : prog acquisition :=
  await (runPromptFlight request deadline authorityHash ("fixed" ++ String NUL (name ++ String NUL (default "" baseGeneration)))
    (await (promptForSecret request deadline name baseGeneration))).

Definition stored_or_prompt (request : CredentialRequest) (authorityHash : string) (deadline : Z) (name : string) : prog acquisition :=
  stored <~ await (readAvailableCredential authorityHash name);
  match stored with
  | Some a => ret (inl a)
  | None => await (promptForSecret request deadline name None)
  end.

Definition acquireChooserSingleFlight (request : CredentialRequest) (authorityHash : string) (deadline : Z) : prog acquisition :=
  await (runPromptFlight request deadline authorityHash "chooseForeground" (
    accounts <~ await (readAccounts authorityHash);
    uiRequest <~ sync (requestWithRemainingTimeout request deadline);
    match uiRequest with
    | None => ret (inr (timed_out request))
    | Some uiRequest =>
        selected <~ await (withDeadline deadline (ask (PickAccount uiRequest accounts)));
        match selected with
        | None => ret (inr (timed_out request))
        | Some None => ret (inr (was_cancelled request))
        | Some (Some selected) =>
            match normalizeUsername (Some (VStr selected)) with
            | None => throw (invalidParams "account.username")
            | Some name => stored_or_prompt request authorityHash deadline name
            end
        end
    end)).

Definition acquireInitial (request : CredentialRequest) (authorityHash : string) (deadline : Z) : prog acquisition :=
  match req_account request with
  | FixedAccount name =>
      if negb (req_interactive request) || bool_decide (req_origin request = Background) then
        stored <~ await (readAvailableCredential authorityHash name);
        match stored with
        | Some a => ret (inl a)
        | None => ret (cancelled request SUBVERSIONR_CREDENTIAL_ACCOUNT_UNAVAILABLE "auth" "error.auth.credentialAccountUnavailable")
        end
      else
        await (runPromptFlight request deadline authorityHash ("fixed-initial" ++ String NUL name)
          (stored_or_prompt request authorityHash deadline name))
  | ChooseForeground =>
      if negb (req_interactive request) || negb (bool_decide (req_origin request = Foreground)) then
        ret (cancelled request SUBVERSIONR_CREDENTIAL_NON_INTERACTIVE "auth" "error.auth.credentialNonInteractive")
      else await (acquireChooserSingleFlight request authorityHash deadline)
  end.

Definition retryable (request : CredentialRequest) (authorityHash : string) (previous : LeaseTombstone) : bool :=
  bool_decide (tomb_operationId previous = req_operationId request) && bool_decide (tomb_outcome previous = Rejected)
  && bool_decide (tomb_authorityHash previous = authorityHash) && negb (tomb_retryConsumed previous)
  && (bool_decide (tomb_source previous = FromStored) || bool_decide (tomb_source previous = FromSession)).
Definition consume_retry (t : LeaseTombstone) : LeaseTombstone :=
  {| tomb_operationId := tomb_operationId t; tomb_leaseId := tomb_leaseId t; tomb_outcome := tomb_outcome t;
     tomb_authorityHash := tomb_authorityHash t; tomb_accountHash := tomb_accountHash t; tomb_generation := tomb_generation t;
     tomb_source := tomb_source t; tomb_username := tomb_username t; tomb_retryConsumed := true |}.

Definition acquireRetry (request : CredentialRequest) (authorityHash previousLeaseId : string) (deadline : Z) : prog acquisition :=
  let invalid := cancelled request SUBVERSIONR_CREDENTIAL_RETRY_INVALID "auth" "error.auth.credentialRetryInvalid" in
  previous <~ sync (state (fun c => map_get (tombstones c) previousLeaseId));
  match previous with
  | Some previous =>
      if negb (retryable request authorityHash previous) then ret invalid
      else if negb (req_interactive request) || negb (bool_decide (req_origin request = Foreground)) then
        ret (cancelled request SUBVERSIONR_CREDENTIAL_NON_INTERACTIVE "auth" "error.auth.credentialNonInteractive")
      else if match req_account request with FixedAccount name => negb (bool_decide (name = tomb_username previous)) | _ => false end
      then ret invalid
      else
        _ <~ sync (update (fun c => with_tombstones (map_set (tombstones c) previousLeaseId (consume_retry previous)) c));
        await (acquirePromptSingleFlight request authorityHash (tomb_username previous) (Some (tomb_generation previous)) deadline)
  | None => ret invalid
  end.

(** ** Credentials of version 1 *)
Section Legacy.
Context (request : CredentialRequest) (deadline : Z) (epoch operationEpoch : nat).
Let alive : method World bool := requestLifecycleCurrent (req_operationId request) operationEpoch deadline epoch.
Definition check_alive : prog unit := sync (assertRequestLifecycle request operationEpoch deadline epoch).
(** [this.now() >= deadline ? PROMPT_TIMEOUT : false] *)
Definition late_or_not : method World (option bool) := t <- now; mret (if (deadline <=? t)%Z then None else Some false).

Fixpoint legacySnapshots (keys : list string) (snapshots : list (string * string)) : prog (list (string * string)) :=
  match keys with
  | [] => ret snapshots
  | key :: rest =>
      value <~ await (ask (GetSecret key));
      _ <~ check_alive;
      match value with
      | None => throw storageIntegrityError
      | Some v => legacySnapshots rest (map_set snapshots key v)
      end
  end.
Fixpoint deleteLegacy (mutation : list string -> bool -> StorageMutation) (keys deleted : list string) : prog unit :=
  match keys with
  | [] =>
      attempt (mutation deleted true) (await (ask (DeleteSecret LEGACY_INDEX_KEY))) (fun _ =>
      attempt (mutation deleted true) check_alive ret)
  | key :: rest =>
      let deleted := set_add deleted key in
      attempt (mutation deleted false) (await (ask (DeleteSecret key))) (fun _ =>
      attempt (mutation deleted false) check_alive (fun _ => deleteLegacy mutation rest deleted))
  end.
Definition clearLegacy : prog unit :=
  _ <~ check_alive;
  current <~ await readLegacyIndex;
  _ <~ check_alive;
  snapshots <~ legacySnapshots current [];
  deleteLegacy (RestoreLegacy snapshots current) current [].

Definition legacyFlight (entryCount : nat) : prog (option bool) :=
  uiRequest <~ sync (requestWithRemainingTimeout request deadline);
  match uiRequest with
  | None => ret None
  | Some uiRequest =>
      confirmed <~ await (withDeadline deadline (ask (ConfirmLegacyClear uiRequest entryCount)));
      match confirmed with
      | None => ret None
      | Some false => ret (Some false)
      | Some true =>
          a <~ sync alive;
          if negb a then sync late_or_not else
          Async.bind (await (serializeStorage clearLegacy)) (fun r =>
            match r with
            | Throw e =>
                if isCredentialRpcError e && has_code SUBVERSIONR_CREDENTIAL_TIMEOUT e then ret None
                else if isCredentialRpcError e
                        && (has_code SUBVERSIONR_CREDENTIAL_UNTRUSTED_WORKSPACE e || has_code SUBVERSIONR_CREDENTIAL_CANCELLED e)
                then ret (Some false)
                else throw e
            | Ok _ =>
                a <~ sync alive;
                if negb a then sync late_or_not
                else _ <~ sync (update (with_legacyReady true)); ret (Some true)
            end)
      end
  end.

Definition ensureLegacyReady : prog (option bool) :=
  c <~ sync this;
  if legacyReady c then ret (Some true) else
  match legacyClearFlight c with
  | Some i =>
      r <~ await (withDeadline deadline (promise legacyPromises i));
      ret (match r with Some r => r | None => None end)
  | None =>
      legacy <~ await (withDeadline deadline (serializeStorage (await readLegacyIndex)));
      match legacy with
      | None => ret None
      | Some legacy =>
          a <~ sync alive;
          if negb a then sync late_or_not
          else match legacy with
               | [] => _ <~ sync (update (with_legacyReady true)); ret (Some true)
               | _ =>
                   if negb (req_interactive request) || negb (bool_decide (req_origin request = Foreground)) then ret (Some false)
                   else
                     i <~ start_promise legacyPromises with_legacyPromises (legacyFlight (length legacy));
                     _ <~ sync (update (with_legacyClearFlight (Some i)));
                     finally (promise legacyPromises i) (update (fun c =>
                       if bool_decide (legacyClearFlight c = Some i) then with_legacyClearFlight None c else c))
               end
      end
  end.
End Legacy.

(** ** Requests *)
Definition issueLease (request : CredentialRequest) (authorityHash : string) (acquired : AcquiredCredential) (deadline : Z) (epoch : nat)
    : method World CredentialResponse :=
  let accountHash := credentialAccountHash hashText (username (acq_credential acquired)) in
  leaseId <- createId;
  let lease := {| lease_acquired := acquired; lease_leaseId := leaseId; lease_operationId := req_operationId request;
                  lease_authorityHash := authorityHash; lease_accountHash := accountHash;
                  lease_storageKey := credentialStorageKey authorityHash accountHash; lease_expiresAt := deadline;
                  lease_connectionEpoch := epoch |} in
  _ <- update (fun c =>
    let operation := default [] (map_get (operationLeases c) (req_operationId request)) in
    with_operationLeases (map_set (operationLeases c) (req_operationId request) (set_add operation leaseId))
      (with_pendingLeases (map_set (pendingLeases c) leaseId lease) c));
  _ <- record_event (Issued leaseId (req_operationId request));
  mret (Provide (req_requestId request) (req_operationId request) leaseId (acq_credential acquired) (acq_persistenceIntent acquired)).

Definition untrusted (request : CredentialRequest) : CredentialResponse :=
  cancel hashText request SUBVERSIONR_CREDENTIAL_UNTRUSTED_WORKSPACE "lifecycle" "error.auth.credentialUntrustedWorkspace".
Definition storage_failed (request : CredentialRequest) : CredentialResponse :=
  cancel hashText request SUBVERSIONR_CREDENTIAL_STORAGE_INTEGRITY "auth" "error.auth.credentialStorageIntegrity".
Definition legacy_refused (request : CredentialRequest) : CredentialResponse :=
  if bool_decide (req_origin request = Foreground) && req_interactive request
  then cancel hashText request SUBVERSIONR_CREDENTIAL_LEGACY_CLEAR_DECLINED "auth" "error.auth.credentialLegacyClearDeclined"
  else cancel hashText request SUBVERSIONR_CREDENTIAL_LEGACY_BLOCKED "auth" "error.auth.credentialLegacyBlocked".
(** [{ ...acquired, requestId, operationId }] *)
Definition answer_to (request : CredentialRequest) (response : CredentialResponse) : CredentialResponse :=
  match response with
  | Provide _ _ leaseId credential intent => Provide (req_requestId request) (req_operationId request) leaseId credential intent
  | Cancel _ _ error => Cancel (req_requestId request) (req_operationId request) error
  end.

(** The end of a request, once something is acquired. *)
Definition finishRequest (request : CredentialRequest) (operationEpoch epoch : nat) (deadline : Z) (authorityHash : string)
    (acquired : option acquisition) : method World CredentialResponse :=
  match acquired with
  | None => mret (timed_out request)
  | Some (inr response) => mret (answer_to request response)
  | Some (inl acquired) =>
      current <- operationRequestCurrent (req_operationId request) operationEpoch;
      if negb current then mret (was_cancelled request) else
      c <- this; isTrusted <- workspaceTrusted;
      if disposed c || negb isTrusted || negb (Nat.eqb (connectionEpoch c) epoch) then
        _ <- (if negb (disposed c) && negb isTrusted then invalidateBackendConnection else mret tt);
        mret (untrusted request)
      else
        t <- now;
        if (deadline <=? t)%Z then mret (timed_out request)
        else issueLease request authorityHash acquired deadline epoch
  end.

Definition afterLegacy (request : CredentialRequest) (operationEpoch epoch : nat) (legacy : option (option bool))
    : method World (option CredentialResponse) :=
  current <- operationRequestCurrent (req_operationId request) operationEpoch;
  if negb current then mret (Some (was_cancelled request)) else
  c <- this; isTrusted <- workspaceTrusted;
  if disposed c || negb isTrusted || negb (Nat.eqb (connectionEpoch c) epoch) then
    _ <- (if disposed c then mret tt else invalidateBackendConnection);
    mret (Some (untrusted request))
  else
    match legacy with
    | None | Some None => mret (Some (timed_out request))
    | Some (Some false) => mret (Some (legacy_refused request))
    | Some (Some true) => mret (if (MAX_ACTIVE_LEASES <=? map_size (pendingLeases c))%nat then Some (storage_failed request) else None)
    end.

Definition handleCredentialRequestInOperation (request : CredentialRequest) (operationEpoch : nat) : prog CredentialResponse :=
  epoch <~ sync (state connectionEpoch);
  t <~ sync now;
  let deadline := (t + req_timeoutMs request)%Z in
  current <~ sync (operationRequestCurrent (req_operationId request) operationEpoch);
  if negb current then ret (was_cancelled request) else
  d <~ sync inactive;
  if d then ret (untrusted request) else
  blocked <~ sync (state storageBlocked);
  if blocked then ret (storage_failed request) else
  legacy <~ await (withDeadline deadline (ensureLegacyReady request deadline epoch operationEpoch));
  refused <~ sync (afterLegacy request operationEpoch epoch legacy);
  match refused with
  | Some response => ret response
  | None =>
      let authorityHash := credentialAuthorityHash hashText request in
      acquired <~ await (withDeadline deadline
        match req_attempt request with
        | InitialAttempt => acquireInitial request authorityHash deadline
        | RetryAfterRejected previousLeaseId => acquireRetry request authorityHash previousLeaseId deadline
        end);
      sync (finishRequest request operationEpoch epoch deadline authorityHash acquired)
  end.

Definition handleCredentialRequest (request : CredentialRequest) : prog CredentialResponse :=
  operationEpoch <~ sync (beginOperationRequest (req_operationId request));
  finally (await (handleCredentialRequestInOperation request operationEpoch)) (finishOperationRequest (req_operationId request)).

(** ** Clearing *)
Fixpoint delete_all (keys : list string) : prog unit :=
  match keys with
  | [] => ret tt
  | key :: rest => _ <~ await (ask (DeleteSecret key)); delete_all rest
  end.
Definition clearSavedCredentials : prog nat :=
  d <~ sync (state disposed);
  if d then throw storageIntegrityError else
  await (serializeCleanup (
    _ <~ sync invalidateBackendConnection;
    entries <~ await readV2Index;
    legacy <~ await readLegacyIndex;
    _ <~ delete_all (map entry_storageKey entries);
    _ <~ delete_all legacy;
    _ <~ when (negb (Nat.eqb (length entries) 0)) (await (ask (DeleteSecret V2_INDEX_KEY)));
    _ <~ when (negb (Nat.eqb (length legacy) 0)) (await (ask (DeleteSecret LEGACY_INDEX_KEY)));
    _ <~ sync (update (fun c => with_storageBlocked false (with_legacyReady true (with_sessionCredentials [] c))));
    ret (length entries + length legacy))).

(** ** The handler of the backend's requests *)
Context (isIPv6 : string -> bool) (urlHostname : string -> option string).

Definition createCredentialRequestHandler (method : string) (params : option js_value)
    : prog (CredentialResponse + CredentialSettlementAck) :=
  if bool_decide (method = "credentials/request") then
    match parseCredentialRequest isIPv6 urlHostname params with
    | Ok request => response <~ await (handleCredentialRequest request); ret (inl response)
    | Throw e => throw e
    end
  else if bool_decide (method = "credentials/settle") then
    match parseCredentialSettlementRequest params with
    | Ok request => ack <~ await (handleCredentialSettlement request); ret (inr ack)
    | Throw e => throw e
    end
  else throw (CredentialRpcError "RPC_METHOD_NOT_FOUND" "unsupported" "error.rpc.methodNotFound" [("method", ArgString method)]).

Definition discardCredentialOperationAfterBackendRequest (params : option js_value) : method World unit :=
  match params with
  | Some (VObj fields) =>
      match field (VObj fields) "remote" with
      | Some (VObj remote) =>
          match field (VObj remote) "operationId" with
          | Some (VStr operationId) =>
              if number_is 1 (field (VObj remote) "version") && isCanonicalIdText operationId then discardOperation operationId else mret tt
          | _ => mret tt
          end
      | _ => mret tt
      end
  | _ => mret tt
  end.

(** ** The controller in its world *)

(** What the backend and the extension may start. *)
Definition logged (p : prog (CredentialResponse + CredentialSettlementAck)) : prog unit :=
  Async.bind p (fun r =>
    match r with
    | Ok (inr ack) => sync (record_event (Acknowledged ack))
    | _ => ret tt
    end).
Inductive client_call : prog unit -> Prop :=
  | call_handler method params : client_call (logged (createCredentialRequestHandler method params))
  | call_discard params : client_call (sync (discardCredentialOperationAfterBackendRequest params))
  | call_invalidate : client_call (sync invalidateBackendConnection)
  | call_dispose : client_call (sync dispose)
  | call_clear : client_call (detach clearSavedCredentials).

(** The clock and the trust of the workspace change as they like. *)
Inductive world_moves : World -> World -> Prop :=
  | world_moves_to w t b : world_moves w (with_clock t (with_trusted b w)).

(** The storage does what it is asked, or rejects and may have done it; it does
    not throw errors of this module.  Prompts answer anything. *)
Definition storage_error (e : js_error) : Prop := isCredentialRpcError e = false.
Definition answers (q : question) : World -> result (answer q) -> World -> Prop :=
  match q return World -> result (answer q) -> World -> Prop with
  | GetSecret key => fun w r w' => w' = w /\ (r = Ok (secretStorage w !! key) \/ exists e, r = Throw e /\ storage_error e)
  | StoreSecret key value => fun w r w' =>
      let w1 := with_secretStorage (<[key := value]> (secretStorage w)) w in
      (r = Ok tt /\ w' = w1) \/ exists e, r = Throw e /\ storage_error e /\ (w' = w \/ w' = w1)
  | DeleteSecret key => fun w r w' =>
      let w1 := with_secretStorage (delete key (secretStorage w)) w in
      (r = Ok tt /\ w' = w1) \/ exists e, r = Throw e /\ storage_error e /\ (w' = w \/ w' = w1)
  | _ => fun w _ w' => w' = w
  end.

Definition credential_step : config -> config -> Prop := step answers client_call world_moves.
End Controller.
