(* ===== verification/CredentialInvariant.v ===== *)
(** The invariant of the credential controller, what its methods may assume of
    each other, and the proof that this is a protocol in the sense of Async.v; then
    the stretches of code between two awaits, method by method.  The token of a
    program is its place in the storage queue. *)

From Stdlib Require Import ZArith Lia Ascii String List.
From stdpp Require Import base option list gmap strings.
From S2P Require Import Prelude JsString JsMap JsValue RemoteTypes Async CredentialTypes CredentialController.

Local Open Scope string_scope.

(** ** Tickets *)
Inductive ticket_move : option nat -> list ticket -> option nat -> list ticket -> Prop :=
  | move_none t q : ticket_move t q t q
  | move_take q : ticket_move None q (Some (length q)) (q ++ [Queued])%list
  | move_enter n q : q !! n = Some Queued -> ticket_move (Some n) q (Some n) (<[n := Running]> q)
  | move_leave n q : q !! n = Some Running -> ticket_move (Some n) q None (<[n := Released]> q).

Lemma elem_of_tokens (n : nat) (ts : list (option nat)) : n ∈ omap (fun t => t) ts <-> Some n ∈ ts.
Proof. rewrite list_elem_of_omap. naive_solver. Qed.

Lemma move_tokens t q t' q' (us : list (option nat)) n : ticket_move t q t' q' -> NoDup (omap (fun t => t) (t :: us)) ->
  (forall n, Some n ∈ t :: us <-> exists x, q !! n = Some x /\ x <> Released) ->
  NoDup (omap (fun t => t) (t' :: us)) /\ (Some n ∈ t' :: us <-> exists x, q' !! n = Some x /\ x <> Released).
Proof.
  intros Hm Hnd Hts. destruct Hm as [t q|q|m q Hm|m q Hm].
  - done.
  - split.
    + cbn. constructor; [|done]. rewrite elem_of_tokens. intros Hin.
      destruct (proj1 (Hts (length q))) as (x & Hx & _); [by right|]. apply lookup_lt_Some in Hx. lia.
    + specialize (Hts n). rewrite elem_of_cons in *. split.
      * intros [[= ->]|Hin]; [exists Queued; rewrite lookup_app_r, Nat.sub_diag by done; done|].
        destruct Hts as [Hts _]. destruct Hts as (x & Hx & ?); [by right|]. exists x. by rewrite lookup_app_l by by eapply lookup_lt_Some.
      * intros (x & Hx & Hr). destruct (decide (n < length q)) as [Hlt|Hge].
        -- rewrite lookup_app_l in Hx by done. destruct Hts as [_ Hts]. destruct Hts as [?|?]; [by eauto|done|by right].
        -- left. apply lookup_lt_Some in Hx. rewrite List.length_app in Hx. cbn in Hx. f_equal. lia.
  - split; [done|]. rewrite Hts. destruct (decide (n = m)) as [->|Hne].
    + rewrite list_lookup_insert_eq by by eapply lookup_lt_Some. split; intros _; [by exists Running|by exists Queued].
    + by rewrite list_lookup_insert_ne.
  - cbn in Hnd. apply NoDup_cons in Hnd as [Hni Hnd]. split; [done|]. specialize (Hts n). rewrite elem_of_cons in *.
    destruct (decide (n = m)) as [->|Hne].
    + rewrite list_lookup_insert_eq by by eapply lookup_lt_Some. rewrite elem_of_tokens in Hni. naive_solver.
    + rewrite list_lookup_insert_ne by done. rewrite <- Hts. naive_solver.
Qed.

(** A move of one ticket leaves the others as they are. *)
Lemma move_others t q t' q' m x : ticket_move t q t' q' -> t <> Some m -> q !! m = Some x -> q' !! m = Some x.
Proof.
  intros Hm Hne Hx. destruct Hm as [t q|q|n q Hn|n q Hn]; [done| | |].
  - by rewrite lookup_app_l by by eapply lookup_lt_Some.
  - rewrite list_lookup_insert_ne; [done|]. by intros ->.
  - rewrite list_lookup_insert_ne; [done|]. by intros ->.
Qed.

Section Invariant.
Context (hashText : string -> string) (createId_ : nat -> string) (json_parse : string -> option js_value).

(** ** Data *)
Definition username_ok (name : string) : Prop := normalizeUsername (Some (VStr name)) = Some name.
Record acquired_ok (a : AcquiredCredential) : Prop := {
  acquired_username : username_ok (username (acq_credential a));
  acquired_secret : isValidSecret (secret (acq_credential a)) = true;
}.
Record stored_ok (s : StoredCredential) : Prop := {
  stored_name : username_ok (stored_username s);
  stored_text : isValidSecret (stored_secret s) = true;
}.
Record lease_ok (l : PendingLease) : Prop := {
  lease_acquired_ok : acquired_ok (lease_acquired l);
  lease_authority : isHash (lease_authorityHash l) = true;
  lease_account : lease_accountHash l = credentialAccountHash hashText (username (acq_credential (lease_acquired l)));
  lease_key : lease_storageKey l = credentialStorageKey (lease_authorityHash l) (lease_accountHash l);
}.
Definition acquisition_ok (r : option (result acquisition)) : Prop :=
  match r with Some (Ok (inl a)) => acquired_ok a | _ => True end.

(** ** Leases *)
Definition settled_id (e : trace_event) : option string := match e with Settled l _ => Some l | _ => None end.
Definition settled_ids (tr : list trace_event) : list string := omap settled_id tr.
Definition used (ids : nat) (l : string) : Prop := exists i, i < ids /\ l = createId_ i.

Record leases_ok (c : Controller) (ids : nat) (tr : list trace_event) : Prop := {
  leases_wf : map_wf (pendingLeases c) /\ map_wf (operationLeases c) /\ map_wf (tombstones c);
  (** A pending lease is of this connection, and listed for its operation. *)
  pending_ok l lease : map_get (pendingLeases c) l = Some lease ->
    lease_leaseId lease = l /\ lease_connectionEpoch lease = connectionEpoch c /\ lease_ok lease
    /\ exists ls, map_get (operationLeases c) (lease_operationId lease) = Some ls /\ l ∈ ls;
  (** What is listed for an operation is pending. *)
  listed_ok op ls : map_get (operationLeases c) op = Some ls ->
    ls <> [] /\ forall l, l ∈ ls -> exists lease, map_get (pendingLeases c) l = Some lease /\ lease_operationId lease = op;
  disposed_ok : disposed c = true -> pendingLeases c = [];
  tombstone_ok l t : map_get (tombstones c) l = Some t -> Settled l (tomb_outcome t) ∈ tr /\ username_ok (tomb_username t);
  tombstones_bounded : map_size (tombstones c) <= MAX_TOMBSTONES;
  (** A lease is settled once, and then no longer pending. *)
  settled_once : NoDup (settled_ids tr);
  settled_gone l : l ∈ settled_ids tr -> map_get (pendingLeases c) l = None;
  ids_used l : l ∈ map_keys (pendingLeases c) \/ l ∈ settled_ids tr -> used ids l;
}.

(** An operation that was discarded while requests of it were in flight gets no
    lease until they have ended. *)
Definition closed_ok (c : Controller) : Prop := forall op st l lease,
  map_get (operationRequests c) op = Some st -> op_closed st = true ->
  map_get (pendingLeases c) l = Some lease -> lease_operationId lease <> op.

(** ** Acknowledgements *)
Definition acknowledged_ok (tr : list trace_event) (a : CredentialSettlementAck) : Prop := Settled (ack_leaseId a) (ack_outcome a) ∈ tr.
Definition ack_ok (tr : list trace_event) (r : option (result CredentialSettlementAck)) : Prop :=
  match r with Some (Ok a) => acknowledged_ok tr a | _ => True end.

(** ** The storage *)
Definition vault_entries (st : gmap string string) : option (list CredentialIndexEntry) :=
  match st !! V2_INDEX_KEY with
  | None => Some []
  | Some raw => match parseV2Index hashText json_parse raw with Ok es => Some es | Throw _ => None end
  end.
(** The index can be read, and every credential it lists is there. *)
Definition listed (st : gmap string string) : Prop :=
  exists es, vault_entries st = Some es /\ forall e, e ∈ es -> is_Some (st !! entry_storageKey e).
(** Every credential in the storage is listed. *)
Definition indexed (st : gmap string string) : Prop :=
  exists es, vault_entries st = Some es /\
    forall k, startsWith k V2_ENTRY_PREFIX = true -> is_Some (st !! k) -> k ∈ map entry_storageKey es.
Definition failed (w : World) : Prop := RollbackFailed ∈ trace w.
Definition blocked (w : World) : Prop := storageBlocked (controller w) = true.
Definition vault (w : World) : Prop :=
  (blocked w \/ listed (secretStorage w)) /\ (failed w \/ indexed (secretStorage w)).

(** ** The queue *)
Definition running (n : nat) (w : World) : Prop := queue w !! n = Some Running.
Record queue_ok (w : World) : Prop := {
  queue_first : queue w !! 0 = Some Released;
  queue_last : S (storageQueue (controller w)) = length (queue w);
  queue_order n t : queue w !! S n = Some t -> t <> Queued -> queue w !! n = Some Released;
}.

Record inv (w : World) : Prop := {
  inv_leases : leases_ok (controller w) (ids w) (trace w);
  inv_closed : closed_ok (controller w);
  inv_sessions : Forall stored_ok (map_values (sessionCredentials (controller w)));
  inv_prompts : Forall acquisition_ok (promptPromises w);
  inv_settlements : Forall (ack_ok (trace w)) (settlementPromises w);
  inv_acknowledged a : Acknowledged a ∈ trace w -> acknowledged_ok (trace w) a;
  inv_queue : queue_ok w;
  inv_vault : (forall n, ~ running n w) -> vault w;
}.

(** ** What programs assume and guarantee *)
Definition grows (w w' : World) : Prop := trace w `prefix_of` trace w'.
Definition rely (t : option nat) (w w' : World) : Prop :=
  grows w w' /\
  match t with
  | Some n => queue w' !! n = queue w !! n
              /\ (running n w -> secretStorage w' = secretStorage w /\ (blocked w -> blocked w'))
  | None => True
  end.

Definition holds_queue (t : option nat) (w : World) : Prop := match t with Some n => running n w | None => False end.

Record guar (t : option nat) (w : World) (t' : option nat) (w' : World) : Prop := {
  guar_keeps : inv w -> inv w';
  guar_grows : grows w w';
  guar_ticket : ticket_move t (queue w) t' (queue w');
  guar_storage : holds_queue t w \/ secretStorage w' = secretStorage w;
  guar_blocked : holds_queue t w \/ (blocked w -> blocked w');
}.

(** Every ticket that is not released has one owner. *)
Record owned (ts : list (option nat)) (w : World) : Prop := {
  owned_holds : inv w;
  owned_once : NoDup (omap (fun t => t) ts);
  owned_tickets n : Some n ∈ ts <-> exists t, queue w !! n = Some t /\ t <> Released;
}.

Lemma released_below w n m : queue_ok w -> m <= n -> queue w !! n = Some Released -> queue w !! m = Some Released.
Proof using Type.
  intros Hq Hle. induction Hle as [|n Hle IH]; [done|]. intros Hn. apply IH. by eapply queue_order.
Qed.
Lemma running_below w n m : queue_ok w -> running n w -> m < n -> queue w !! m = Some Released.
Proof using Type.
  intros Hq Hn Hm. destruct n as [|n]; [lia|]. apply (released_below w n); [done|lia|]. by eapply queue_order.
Qed.
Lemma running_once w n m : queue_ok w -> running n w -> running m w -> n = m.
Proof using Type.
  intros Hq Hn Hm. destruct (decide (n < m)) as [H|H]; [|destruct (decide (m < n)) as [H'|H']; [|lia]].
  - eapply running_below in H; [|done|exact Hm]. unfold running in *. congruence.
  - eapply running_below in H'; [|done|exact Hn]. unfold running in *. congruence.
Qed.

Lemma grows_same w w' : trace w' = trace w -> grows w w'.
Proof using Type. unfold grows. by intros ->. Qed.
#[local] Instance grows_preorder : PreOrder grows.
Proof using Type. split; [intros w; unfold grows; reflexivity|]. intros x y z. unfold grows. apply transitivity. Qed.
#[local] Instance rely_pre t : PreOrder (rely t).
Proof using Type.
  split.
  - intros w. split; [done|]. by destruct t.
  - intros x y z [Hg1 H1] [Hg2 H2]. split; [by trans y|]. destruct t as [n|]; [|done].
    destruct H1 as [Q1 R1], H2 as [Q2 R2]. split; [congruence|]. intros Hr. destruct (R1 Hr) as [S1 B1].
    assert (Hry : running n y) by (unfold running in *; congruence). destruct (R2 Hry) as [S2 B2]. split; [congruence|auto].
Qed.

#[export] Instance credential_protocol : Protocol world_moves None inv rely guar owned.
Proof using Type.
  split.
  - apply rely_pre.
  - intros t w w' [H _]. by split.
  - intros ts ts' w Hp [Hi Hn Ht]. split; [done| |].
    + by rewrite <- Hp.
    + intros n. by rewrite <- Hp.
  - intros ts w [Hi Hn Ht]. split; [done|done|]. intros n. rewrite <- Ht, elem_of_cons. naive_solver.
  - by intros ts w [].
  - intros t w t' w' us Hg [Hi Hn Ht]. assert (Hi' : inv w') by by apply (guar_keeps _ _ _ _ Hg).
    pose proof (guar_ticket _ _ _ _ Hg) as Hm. split; [|split].
    + split; [done| |]; [by eapply (move_tokens _ _ _ _ us 0 Hm)|]. intros n. by eapply (move_tokens _ _ _ _ us n Hm).
    + apply Forall_forall. intros [m|] Hu; [|split; [by eapply guar_grows|done]].
      assert (Hne : t <> Some m).
      { intros ->. cbn in Hn. apply NoDup_cons in Hn as [Hn _]. apply Hn. by apply elem_of_tokens. }
      destruct (proj1 (Ht m)) as (x & Hx & _); [by right|]. split; [by eapply guar_grows|]. split.
      * rewrite Hx. by eapply move_others.
      * intros Hr. assert (Hnh : ~ holds_queue t w).
        { destruct t as [n|]; [|by intros []]. cbn. intros Hn'. apply Hne. f_equal. apply (running_once w); [by apply inv_queue|done|done]. }
        split; [by destruct (guar_storage _ _ _ _ Hg)|by destruct (guar_blocked _ _ _ _ Hg)].
    + split; [by eapply guar_grows|done].
  - intros w w' ts Hm [Hi Hn Ht]. destruct Hm as [w x b]. split.
    + split; [|done|done]. destruct Hi as [? ? ? ? ? ? [? ? ?] ?]. split; done.
    + apply Forall_forall. intros [m|] _; (split; [by apply grows_same|]); [|done]. split; [done|]. intros _. by split.
Qed.
End Invariant.

Local Open Scope string_scope.

(** Runs a method. *)
Ltac run_method :=
  unfold then_do, mbind, method_bind, record_event, update, this, state, get, modify_state, mret, method_ret, throw_error, lift_result;
  cbn [fst snd].

Section Steps.
Context (hashText : string -> string) (createId_ : nat -> string) (json_parse : string -> option js_value).
Context (createId_inj : forall i j, createId_ i = createId_ j -> i = j).
Local Abbreviation inv := (inv hashText createId_ json_parse).
Local Abbreviation leases_ok := (leases_ok hashText createId_).
Local Abbreviation lease_ok := (lease_ok hashText).

(** ** The leases *)
Lemma remove_leases lease c ids tr : leases_ok c ids tr -> map_get (pendingLeases c) (lease_leaseId lease) = Some lease ->
  leases_ok (removeLease lease c) ids tr
  /\ (forall l, map_get (pendingLeases (removeLease lease c)) l =
       if bool_decide (l = lease_leaseId lease) then None else map_get (pendingLeases c) l).
Proof using Type.
  intros Hok Hp. set (l0 := lease_leaseId lease) in *. set (op := lease_operationId lease).
  destruct (pending_ok _ _ _ _ _ Hok _ _ Hp) as (_ & _ & _ & ls & Hls & Hl0).
  destruct (leases_wf _ _ _ _ _ Hok) as (Hw1 & Hw2 & Hw3).
  fold op in Hls. set (ls' := set_delete ls l0).
  assert (Hctl : removeLease lease c =
    with_operationLeases (if Nat.eqb (length ls') 0 then map_delete (operationLeases c) op else map_set (operationLeases c) op ls')
      (with_pendingLeases (map_delete (pendingLeases c) l0) c)).
  { unfold removeLease, removeOperationLease. cbn [operationLeases with_pendingLeases]. fold op l0. by rewrite Hls. }
  assert (Hget : forall l, map_get (map_delete (pendingLeases c) l0) l = if bool_decide (l = l0) then None else map_get (pendingLeases c) l)
    by (intros l; case_bool_decide as E; [rewrite E; apply map_get_delete_eq|by apply map_get_delete_ne]).
  assert (Hpend : pendingLeases (removeLease lease c) = map_delete (pendingLeases c) l0) by by rewrite Hctl.
  split; [|intros l; by rewrite Hpend, Hget]. clear Hpend. rewrite Hctl. clear Hctl.
  split; cbn [pendingLeases operationLeases tombstones connectionEpoch disposed with_operationLeases with_pendingLeases].
  - split; [by apply map_wf_delete|]. split; [case_match; [by apply map_wf_delete|by apply map_wf_set]|done].
  - intros l x. rewrite Hget. case_bool_decide as Hne; [done|]. intros Hx.
    destruct (pending_ok _ _ _ _ _ Hok _ _ Hx) as (? & ? & ? & ks & Hks & Hin). do 3 (split; [done|]).
    destruct (decide (lease_operationId x = op)) as [E|E].
    + rewrite E in Hks |- *. assert (ks = ls) as -> by congruence.
      assert (Hin' : l ∈ ls') by by apply elem_of_set_delete. destruct ls' as [|a b] eqn:Els; [by apply elem_of_nil in Hin'|].
      cbn [length Nat.eqb]. exists (a :: b). split; [apply map_get_set_eq|done].
    + exists ks. split; [|done]. case_match; [by rewrite map_get_delete_ne|by rewrite map_get_set_ne].
  - intros o ks Hks. destruct (decide (o = op)) as [->|E].
    + destruct (Nat.eqb (length ls') 0) eqn:El; [by rewrite map_get_delete_eq in Hks|]. rewrite map_get_set_eq in Hks.
      injection Hks as <-. split; [by intros ->|]. intros l [Hin Hne]%elem_of_set_delete.
      destruct (listed_ok _ _ _ _ _ Hok _ _ Hls) as [_ H]. destruct (H l Hin) as (x & Hx & Hxo). exists x. split; [|done].
      rewrite Hget. by rewrite bool_decide_eq_false_2.
    + assert (Hks' : map_get (operationLeases c) o = Some ks)
        by (revert Hks; case_match; [by rewrite map_get_delete_ne|by rewrite map_get_set_ne]).
      destruct (listed_ok _ _ _ _ _ Hok _ _ Hks') as [? H]. split; [done|]. intros l Hin. destruct (H l Hin) as (x & Hx & Hxo).
      exists x. split; [|done]. rewrite Hget. rewrite bool_decide_eq_false_2; [done|]. intros ->. apply E. rewrite <- Hxo. unfold op. congruence.
  - intros Hd. by rewrite (disposed_ok _ _ _ _ _ Hok Hd).
  - apply (tombstone_ok _ _ _ _ _ Hok).
  - apply (tombstones_bounded _ _ _ _ _ Hok).
  - apply (settled_once _ _ _ _ _ Hok).
  - intros l Hl. rewrite Hget. case_bool_decide; [done|]. by apply (settled_gone _ _ _ _ _ Hok).
  - intros l [Hl|Hl]; apply (ids_used _ _ _ _ _ Hok); [left|by right]. by apply elem_of_keys_delete in Hl as [_ Hl].
Qed.

(** The fields that the invariant of the leases reads. *)
Definition same_leases (c c' : Controller) : Prop :=
  pendingLeases c' = pendingLeases c /\ operationLeases c' = operationLeases c /\ tombstones c' = tombstones c
  /\ connectionEpoch c' = connectionEpoch c /\ disposed c' = disposed c.
Lemma leases_same c c' ids tr : same_leases c c' -> leases_ok c ids tr -> leases_ok c' ids tr.
Proof using Type. intros (E1 & E2 & E3 & E4 & E5) []. by split; rewrite ?E1, ?E2, ?E3, ?E4, ?E5. Qed.

(** More of the trace, and more ids. *)
Lemma leases_event c ids ids' tr e : ids <= ids' -> settled_id e = None -> leases_ok c ids tr -> leases_ok c ids' (tr ++ [e])%list.
Proof using Type.
  intros Hi He Hok. assert (Hs : settled_ids (tr ++ [e])%list = settled_ids tr).
  { unfold settled_ids. rewrite omap_app. cbn. rewrite He. apply List.app_nil_r. }
  destruct Hok as [H1 H2 H3 H4 Ht H6 H7 H8 Hu]. split; rewrite ?Hs; try done.
  - intros l t Hl. destruct (Ht l t Hl). split; [by apply elem_of_app; left|done].
  - intros l Hl. destruct (Hu l Hl) as (i & ? & ->). exists i. split; [lia|done].
Qed.
Lemma leases_ids c ids ids' tr : ids <= ids' -> leases_ok c ids tr -> leases_ok c ids' tr.
Proof using Type.
  intros Hi [H1 H2 H3 H4 H5 H6 H7 H8 Hu]. split; try done. intros l Hl. destruct (Hu l Hl) as (i & ? & ->). exists i. split; [lia|done].
Qed.

(** ** Changes that keep the invariant *)
Record keeps (w w' : World) : Prop := {
  keeps_inv : inv w -> inv w';
  keeps_grows : grows w w';
  keeps_queue : queue w' = queue w;
  keeps_storage : secretStorage w' = secretStorage w;
  keeps_blocked : blocked w -> blocked w';
}.
Lemma keeps_guar t w w' : keeps w w' -> guar hashText createId_ json_parse t w t w'.
Proof using Type. intros [? ? Hq ? ?]. split; try done; try (by right). rewrite Hq. constructor. Qed.
Lemma keeps_refl w : keeps w w.
Proof using Type. split; try done. by apply grows_same. Qed.
Lemma keeps_trans w1 w2 w3 : keeps w1 w2 -> keeps w2 w3 -> keeps w1 w3.
Proof using Type.
  intros [i1 g1 q1 s1 b1] [i2 g2 q2 s2 b2]. split; [auto|unfold grows in *; by etrans|by rewrite q2|by rewrite s2|auto].
Qed.
Lemma keeps_under w w' : (inv w -> keeps w w') -> grows w w' -> queue w' = queue w -> secretStorage w' = secretStorage w ->
  (blocked w -> blocked w') -> keeps w w'.
Proof using Type. intros H Hg Hq Hs Hb. split; [|exact Hg|exact Hq|exact Hs|exact Hb]. intros Hi. exact (keeps_inv _ _ (H Hi) Hi). Qed.

Lemma keeps_controller w c' :
  (inv w -> leases_ok c' (ids w) (trace w) /\ closed_ok c' /\ Forall stored_ok (map_values (sessionCredentials c'))) ->
  storageQueue c' = storageQueue (controller w) -> (blocked w -> storageBlocked c' = true) ->
  keeps w (with_controller c' w).
Proof using Type.
  intros H Hq Hb. split; [|by apply grows_same|reflexivity|reflexivity|exact Hb]. intros Hi. destruct (H Hi) as (H1 & H2 & H3).
  destruct Hi as [_ _ _ Hp Hs Ha [q1 q2 q3] Hv]. split; [exact H1|exact H2|exact H3|exact Hp|exact Hs|exact Ha| |].
  - split; [exact q1|cbn; by rewrite Hq|exact q3].
  - intros Hr. destruct (Hv Hr) as [[B|L] F]; (split; [|exact F]); [left; exact (Hb B)|right; exact L].
Qed.
Lemma closed_same c c' : operationRequests c' = operationRequests c -> pendingLeases c' = pendingLeases c -> closed_ok c -> closed_ok c'.
Proof using Type. intros E1 E2 H op st l lease. rewrite E1, E2. apply H. Qed.
(** A change of the other fields. *)
Lemma keeps_minor w c' :
  same_leases (controller w) c' -> operationRequests c' = operationRequests (controller w) ->
  sessionCredentials c' = sessionCredentials (controller w) -> storageQueue c' = storageQueue (controller w) ->
  (blocked w -> storageBlocked c' = true) -> keeps w (with_controller c' w).
Proof using Type.
  intros Hs Ho Hc Hq Hb. apply keeps_controller; [|done|done]. intros Hi. split; [by eapply leases_same, inv_leases|].
  split; [eapply closed_same; [done|by apply Hs|by apply Hi]|]. rewrite Hc. by apply Hi.
Qed.
Lemma keeps_sessions w (sessions : list (string * StoredCredential)) :
  (inv w -> Forall stored_ok (map_values sessions)) -> keeps w (with_controller (with_sessionCredentials sessions (controller w)) w).
Proof using Type.
  intros H. apply keeps_controller; [|done|done]. intros Hi. split; [by eapply leases_same, inv_leases|].
  split; [|by apply H]. by eapply closed_same, Hi.
Qed.
Lemma keeps_shrink w c' :
  (inv w -> leases_ok c' (ids w) (trace w)) ->
  (forall l x, map_get (pendingLeases c') l = Some x -> map_get (pendingLeases (controller w)) l = Some x) ->
  operationRequests c' = operationRequests (controller w) ->
  sessionCredentials c' = sessionCredentials (controller w) -> storageQueue c' = storageQueue (controller w) ->
  storageBlocked c' = storageBlocked (controller w) -> keeps w (with_controller c' w).
Proof using Type.
  intros Hl Hp Ho Hc Hq Hb. apply keeps_controller; [|done|intros H; by rewrite Hb]. intros Hi. split; [by apply Hl|].
  split; [|rewrite Hc; by apply Hi]. intros op st l x. rewrite Ho. intros H1 H2 H3%Hp. by eapply (inv_closed _ _ _ _ Hi).
Qed.

Lemma keeps_event w e : settled_id e = None -> (forall a, e = Acknowledged a -> acknowledged_ok (trace w) a) ->
  keeps w (with_trace (trace w ++ [e])%list w).
Proof using Type.
  intros He Ha. split; [|by apply prefix_app_r|reflexivity|reflexivity|exact id].
  intros [Hl Hc Hs Hp Ht Hk [q1 q2 q3] Hv]. split; [|exact Hc|exact Hs|exact Hp| | |by split|].
  - by eapply leases_event.
  - eapply Forall_impl; [exact Ht|]. intros [[a|]|]; cbn; try done. intros H. by apply elem_of_app; left.
  - cbn. intros a [H|H]%elem_of_app; [apply elem_of_app; left; by apply Hk|].
    apply list_elem_of_singleton in H. apply elem_of_app; left. by apply Ha.
  - intros Hr. destruct (Hv Hr) as [? [?|?]]; (split; [done|]); [left; by apply elem_of_app; left|by right].
Qed.

(** ** The methods *)
Ltac as_controller := match goal with |- keeps ?w ?w' => change w' with (with_controller (controller w') w) end.
Lemma keeps_block w : keeps w (with_controller (with_storageBlocked true (controller w)) w).
Proof using Type. by apply keeps_minor. Qed.

Lemma cleared_leases c c' ids tr : leases_ok c ids tr ->
  pendingLeases c' = [] -> operationLeases c' = [] -> tombstones c' = [] -> leases_ok c' ids tr.
Proof using Type.
  intros Hok E1 E2 E3. split; rewrite ?E1, ?E2, ?E3; try done.
  - split; [apply map_wf_nil|]. split; apply map_wf_nil.
  - apply Nat.le_0_l.
  - apply (settled_once _ _ _ _ _ Hok).
  - intros l [H|H]; [by apply elem_of_nil in H|]. apply (ids_used _ _ _ _ _ Hok). by right.
Qed.
Lemma invalidate_keeps w : keeps w (snd (invalidateBackendConnection w)).
Proof using Type.
  unfold invalidateBackendConnection. run_method. as_controller.
  apply keeps_shrink; try done. intros Hi. eapply cleared_leases; [by apply inv_leases in Hi|done..].
Qed.
Lemma controller_disposed w : keeps w (snd (dispose w)).
Proof using Type.
  unfold dispose. run_method. destruct (disposed (controller w)) eqn:Hd; [apply keeps_refl|]. as_controller.
  apply keeps_controller; [|done|done]. intros Hi. split; [eapply cleared_leases; [by apply inv_leases in Hi|done..]|].
  split; [|constructor]. by intros op st l lease _ _ H.
Qed.

Lemma forget_same lease c : same_leases c (forgetGeneration lease c).
Proof using Type. unfold forgetGeneration. by case_match. Qed.
Lemma forget_requests lease c : operationRequests (forgetGeneration lease c) = operationRequests c
  /\ sessionCredentials (forgetGeneration lease c) = sessionCredentials c /\ storageQueue (forgetGeneration lease c) = storageQueue c
  /\ storageBlocked (forgetGeneration lease c) = storageBlocked c.
Proof using Type. unfold forgetGeneration. by case_match. Qed.
Lemma remove_requests lease c : operationRequests (removeLease lease c) = operationRequests c
  /\ sessionCredentials (removeLease lease c) = sessionCredentials c /\ storageQueue (removeLease lease c) = storageQueue c
  /\ storageBlocked (removeLease lease c) = storageBlocked c /\ tombstones (removeLease lease c) = tombstones c
  /\ disposed (removeLease lease c) = disposed c /\ connectionEpoch (removeLease lease c) = connectionEpoch c.
Proof using Type. unfold removeLease, removeOperationLease. by case_match. Qed.

Lemma discard_leases lease c ids tr : leases_ok c ids tr -> map_get (pendingLeases c) (lease_leaseId lease) = Some lease ->
  leases_ok (discardLease lease c) ids tr
  /\ (forall l, map_get (pendingLeases (discardLease lease c)) l =
       if bool_decide (l = lease_leaseId lease) then None else map_get (pendingLeases c) l).
Proof using Type.
  intros Hok Hp. destruct (remove_leases _ _ _ _ Hok Hp) as [H1 H2]. unfold discardLease. split.
  - eapply leases_same; [apply forget_same|done].
  - intros l. rewrite <- H2. by rewrite (proj1 (forget_same lease (removeLease lease c))).
Qed.
Lemma discard_fields lease c : operationRequests (discardLease lease c) = operationRequests c
  /\ sessionCredentials (discardLease lease c) = sessionCredentials c /\ storageQueue (discardLease lease c) = storageQueue c
  /\ storageBlocked (discardLease lease c) = storageBlocked c.
Proof using Type.
  unfold discardLease. destruct (forget_requests lease (removeLease lease c)) as (-> & -> & -> & ->).
  by destruct (remove_requests lease c) as (-> & -> & -> & -> & _).
Qed.
Lemma discardLease_keeps w lease : map_get (pendingLeases (controller w)) (lease_leaseId lease) = Some lease ->
  keeps w (with_controller (discardLease lease (controller w)) w).
Proof using Type.
  intros Hp. destruct (discard_fields lease (controller w)) as (E1 & E2 & E3 & E4).
  apply keeps_under; [|by apply grows_same|reflexivity|reflexivity|intros H; unfold blocked; cbn; by rewrite E4].
  intros Hi0. destruct (discard_leases lease (controller w) _ _ (inv_leases _ _ _ _ Hi0) Hp) as [H1 H2].
  apply keeps_shrink; [intros _; exact H1| |exact E1|exact E2|exact E3|exact E4].
  intros l x. rewrite H2. by case_bool_decide.
Qed.

Lemma discard_of_leases c ids tr l : leases_ok c ids tr -> leases_ok (discard_of c l) ids tr
  /\ map_get (pendingLeases (discard_of c l)) l = None
  /\ (forall k x, map_get (pendingLeases (discard_of c l)) k = Some x -> map_get (pendingLeases c) k = Some x)
  /\ operationRequests (discard_of c l) = operationRequests c /\ sessionCredentials (discard_of c l) = sessionCredentials c
  /\ storageQueue (discard_of c l) = storageQueue c /\ storageBlocked (discard_of c l) = storageBlocked c.
Proof using Type.
  intros Hok. unfold discard_of. destruct (map_get (pendingLeases c) l) as [x|] eqn:Hx; [|do 6 (split; [done|]); done].
  destruct (pending_ok _ _ _ _ _ Hok _ _ Hx) as (<- & _). destruct (discard_leases x c ids tr Hok Hx) as [H1 H2].
  split; [done|]. split; [rewrite H2; by rewrite bool_decide_eq_true_2|].
  split; [intros k y; rewrite H2; by case_bool_decide|]. apply discard_fields.
Qed.
Lemma discard_all_leases ls : forall c ids tr, leases_ok c ids tr ->
  let c' := fold_left discard_of ls c in
  leases_ok c' ids tr /\ (forall l, l ∈ ls -> map_get (pendingLeases c') l = None)
  /\ (forall k x, map_get (pendingLeases c') k = Some x -> map_get (pendingLeases c) k = Some x)
  /\ operationRequests c' = operationRequests c /\ sessionCredentials c' = sessionCredentials c
  /\ storageQueue c' = storageQueue c /\ storageBlocked c' = storageBlocked c.
Proof using Type.
  induction ls as [|l ls IH]; intros c ids tr Hok; cbn [fold_left].
  - split; [done|]. split; [by intros l H%elem_of_nil|]. do 4 (split; [done|]). done.
  - destruct (discard_of_leases c ids tr l Hok) as (H1 & H2 & H3 & E1 & E2 & E3 & E4).
    destruct (IH _ _ _ H1) as (I1 & I2 & I3 & F1 & F2 & F3 & F4). split; [done|]. split.
    + intros k [->|Hk]%elem_of_cons; [|by apply I2]. destruct (map_get (pendingLeases (fold_left discard_of ls (discard_of c l))) l) as [x|] eqn:Hx; [|done]. apply I3 in Hx. congruence.
    + split; [intros k x Hx; by apply H3, I3|]. rewrite F1, F2, F3, F4. done.
Qed.

(** Forgetting an operation with no pending lease, and the tombstones of it. *)
Lemma drop_operation_leases c ids tr op ts : leases_ok c ids tr ->
  (forall l x, map_get (pendingLeases c) l = Some x -> lease_operationId x <> op) ->
  map_wf ts -> map_size ts <= map_size (tombstones c) ->
  (forall l t, map_get ts l = Some t -> map_get (tombstones c) l = Some t) ->
  leases_ok (with_tombstones ts (with_operationLeases (map_delete (operationLeases c) op) c)) ids tr.
Proof using Type.
  intros Hok Hno Hw Hsz Hts. destruct Hok as [(W1 & W2 & W3) H2 H3 H4 H5 H6 H7 H8 H9].
  split; cbn [pendingLeases operationLeases tombstones connectionEpoch disposed with_operationLeases with_tombstones]; try assumption.
  - split; [done|]. split; [by apply map_wf_delete|done].
  - intros l x Hx. destruct (H2 l x Hx) as (? & ? & ? & ls & ? & ?). do 3 (split; [done|]). exists ls. split; [|done].
    rewrite map_get_delete_ne; [done|]. by apply not_eq_sym, (Hno l).
  - intros o ls. rewrite map_get_delete. case_bool_decide; [done|]. apply H3.
  - intros l t Ht. by apply H5, Hts.
  - lia.
Qed.
Lemma drop_tombstones c ids tr (f : string * LeaseTombstone -> bool) : leases_ok c ids tr ->
  let ts := List.filter f (tombstones c) in
  map_wf ts /\ map_size ts <= map_size (tombstones c) /\ forall l t, map_get ts l = Some t -> map_get (tombstones c) l = Some t.
Proof using Type.
  intros Hok ts. destruct (leases_wf _ _ _ _ _ Hok) as (_ & _ & Hw). assert (Hw' : map_wf ts) by by apply map_wf_filter.
  split; [done|]. split; [apply List.filter_length_le|]. intros l t Ht. apply map_get_elem in Ht; [|done].
  apply map_get_elem; [done|]. apply list_elem_of_In in Ht. apply filter_In in Ht as [Ht _]. by apply list_elem_of_In.
Qed.

Lemma discardOperation_keeps w op : keeps w (snd (discardOperation op w)).
Proof using Type.
  unfold discardOperation. run_method. as_controller. cbn [controller with_controller].
  set (c := controller w).
  set (c1 := match map_get (operationRequests c) op with
             | Some st => with_operationRequests (map_set (operationRequests c) op (close_request st)) c
             | None => c end).
  assert (S1 : same_leases c c1) by (unfold c1; by case_match).
  assert (S2 : sessionCredentials c1 = sessionCredentials c /\ storageQueue c1 = storageQueue c /\ storageBlocked c1 = storageBlocked c)
    by (unfold c1; by case_match).
  assert (S3 : forall o, o <> op -> map_get (operationRequests c1) o = map_get (operationRequests c) o)
    by (intros o Ho; unfold c1; case_match; [by apply map_get_set_ne|done]).
  set (c2 := match map_get (operationLeases c1) op with
             | Some ids => let c := fold_left discard_of ids c1 in with_operationLeases (map_delete (operationLeases c) op) c
             | None => c1 end).
  set (f := fun e : string * LeaseTombstone => negb (bool_decide (tomb_operationId (snd e) = op))).
  assert (Hcase : leases_ok c (ids w) (trace w) -> closed_ok c ->
    leases_ok (with_tombstones (List.filter f (tombstones c2)) c2) (ids w) (trace w) /\ closed_ok (with_tombstones (List.filter f (tombstones c2)) c2)
    /\ True).
  { intros Hok Hcl. assert (Hok1 : leases_ok c1 (ids w) (trace w)) by by eapply leases_same.
    destruct S1 as (P1 & P2 & P3 & P4 & P5).
    assert (Hsub : (forall l x, map_get (pendingLeases c2) l = Some x -> map_get (pendingLeases c) l = Some x /\ lease_operationId x <> op)
      /\ operationRequests c2 = operationRequests c1 /\ leases_ok c2 (ids w) (trace w)).
    { unfold c2. rewrite P2. destruct (map_get (operationLeases c) op) as [ls|] eqn:Hls.
      - destruct (discard_all_leases ls c1 _ _ Hok1) as (I1 & I2 & I3 & F1 & _).
        assert (Hs : forall l x, map_get (pendingLeases (fold_left discard_of ls c1)) l = Some x ->
          map_get (pendingLeases c) l = Some x /\ lease_operationId x <> op).
        { intros l x Hx. apply I3 in Hx as Hx'. rewrite P1 in Hx'. split; [done|]. intros E.
          destruct (pending_ok _ _ _ _ _ Hok _ _ Hx') as (_ & _ & _ & ks & Hks & Hin). rewrite E in Hks.
          assert (ks = ls) as -> by congruence. rewrite (I2 l Hin) in Hx. done. }
        split; [exact Hs|]. split; [exact F1|].
        eapply leases_same; [|apply (drop_operation_leases (fold_left discard_of ls c1) _ _ op (tombstones (fold_left discard_of ls c1)))];
          [by repeat split|exact I1|intros l x Hx; by apply (Hs l x)|by apply (leases_wf _ _ _ _ _ I1)|lia|done].
      - split; [|by split]. intros l x Hx. rewrite P1 in Hx. split; [done|]. intros E.
        destruct (pending_ok _ _ _ _ _ Hok _ _ Hx) as (_ & _ & _ & ks & Hks & Hin). congruence. }
    destruct Hsub as (Hsub & Hreq & Hok2). split; [|split; [|done]].
    - destruct (drop_tombstones c2 _ _ f Hok2) as (W & Sz & Sub).
      destruct Hok2 as [(W1 & W2 & W3) H2 H3 H4 H5 H6 H7 H8 H9].
      split; cbn [pendingLeases operationLeases tombstones connectionEpoch disposed with_tombstones]; try assumption.
      + split; [exact W1|]. split; [exact W2|exact W].
      + intros l t Ht. by apply H5, Sub.
      + lia.
    - intros o st l x. cbn [operationRequests pendingLeases with_tombstones]. rewrite Hreq. intros Ho Hc Hx.
      destruct (Hsub l x Hx) as [Hx' Hne]. destruct (decide (o = op)) as [->|Ho']; [done|].
      rewrite S3 in Ho by done. by eapply Hcl. }
  assert (S4 : sessionCredentials c2 = sessionCredentials c /\ storageQueue c2 = storageQueue c /\ storageBlocked c2 = storageBlocked c).
  { destruct S2 as (E1 & E2 & E3). rewrite <- E1, <- E2, <- E3. unfold c2. case_match; [|done].
    clear. generalize c1. induction (l : list string) as [|k ks IH]; intros d; [done|]. cbn [fold_left].
    destruct (IH (discard_of d k)) as (G1 & G2 & G3). cbn in *. rewrite G1, G2, G3. unfold discard_of. case_match; [|done].
    by destruct (discard_fields p d) as (_ & -> & -> & ->). }
  destruct S4 as (E1 & E2 & E3). apply keeps_controller.
  - intros Hi. destruct (Hcase (inv_leases _ _ _ _ Hi) (inv_closed _ _ _ _ Hi)) as (H1 & H2 & _). split; [exact H1|]. split; [exact H2|].
    cbn. rewrite E1. exact (inv_sessions _ _ _ _ Hi).
  - exact E2.
  - intros H. cbn. rewrite E3. exact H.
Qed.

Lemma keeps_requests w reqs : (closed_ok (controller w) -> closed_ok (with_operationRequests reqs (controller w))) ->
  keeps w (with_controller (with_operationRequests reqs (controller w)) w).
Proof using Type.
  intros H. apply keeps_controller; [|reflexivity|exact id]. intros Hi. split; [eapply leases_same; [|exact (inv_leases _ _ _ _ Hi)]; by split_and!|].
  split; [apply H; exact (inv_closed _ _ _ _ Hi)|exact (inv_sessions _ _ _ _ Hi)].
Qed.
Lemma begin_keeps w op : keeps w (snd (beginOperationRequest op w)).
Proof using Type.
  unfold beginOperationRequest. run_method. apply keeps_requests. intros Hc o st l x. cbn [operationRequests pendingLeases with_operationRequests].
  rewrite map_get_set. case_bool_decide as E; [|apply Hc]. intros [= <-] Hcl Hx. subst o. cbn in Hcl.
  destruct (map_get (operationRequests (controller w)) op) as [st|] eqn:Hst; [|done]. by eapply Hc.
Qed.
Lemma finish_keeps w op : keeps w (snd (finishOperationRequest op w)).
Proof using Type.
  unfold finishOperationRequest. run_method. destruct (map_get (operationRequests (controller w)) op) as [st|] eqn:Hst.
  - apply keeps_requests. intros Hc o st' l x. cbn [operationRequests pendingLeases with_operationRequests].
    case_match; [rewrite map_get_delete; case_bool_decide; [done|apply Hc]|].
    rewrite map_get_set. case_bool_decide as E; [|apply Hc]. intros [= <-] Hcl Hx. subst o. by eapply Hc.
  - as_controller. by apply keeps_minor.
Qed.
Lemma consume_keeps w l t : map_get (tombstones (controller w)) l = Some t ->
  keeps w (with_controller (with_tombstones (map_set (tombstones (controller w)) l (consume_retry t)) (controller w)) w).
Proof using Type.
  intros Ht. apply keeps_shrink; try reflexivity; [|done]. intros Hi.
  destruct (inv_leases _ _ _ _ Hi) as [(W1 & W2 & W3) H2 H3 H4 H5 H6 H7 H8 H9].
  split; cbn [pendingLeases operationLeases tombstones connectionEpoch disposed with_tombstones]; try assumption.
  - split; [exact W1|]. split; [exact W2|by apply map_wf_set].
  - intros k u. rewrite map_get_set. case_bool_decide as E; [|apply H5]. intros [= <-]. subst k. exact (H5 l t Ht).
  - rewrite map_size_set. case_decide as E; [exact H6|]. destruct E. by eapply map_get_Some_key.
Qed.

Lemma createId_keeps w : keeps w (snd (createId createId_ w)).
Proof using Type.
  split; [|by apply grows_same|reflexivity|reflexivity|exact id].
  intros [Hl Hc Hs Hp Ht Hk [q1 q2 q3] Hv]. split; [|exact Hc|exact Hs|exact Hp|exact Ht|exact Hk|by split|exact Hv].
  cbn. eapply leases_ids; [|exact Hl]. lia.
Qed.
Lemma fresh_id w : inv w -> createId_ (ids w) ∉ map_keys (pendingLeases (controller w)) /\ createId_ (ids w) ∉ settled_ids (trace w).
Proof using createId_inj.
  intros Hi. assert (H : ~ used createId_ (ids w) (createId_ (ids w))).
  { intros (i & Hlt & E). apply createId_inj in E. lia. }
  split; intros Hin; apply H, (ids_used _ _ _ _ _ (inv_leases _ _ _ _ Hi)); first [by left|by right].
Qed.

(** A new lease. *)
Lemma add_lease_leases c ids tr lease : leases_ok c ids tr -> lease_ok lease -> lease_connectionEpoch lease = connectionEpoch c ->
  disposed c = false -> map_get (pendingLeases c) (lease_leaseId lease) = None -> lease_leaseId lease ∉ settled_ids tr ->
  used createId_ ids (lease_leaseId lease) ->
  let op := lease_operationId lease in
  leases_ok (with_operationLeases (map_set (operationLeases c) op (set_add (default [] (map_get (operationLeases c) op)) (lease_leaseId lease)))
    (with_pendingLeases (map_set (pendingLeases c) (lease_leaseId lease) lease) c)) ids tr.
Proof using Type.
  intros [(W1 & W2 & W3) H2 H3 H4 H5 H6 H7 H8 H9] Hl He Hd Hnew Hns Hu op.
  split; cbn [pendingLeases operationLeases tombstones connectionEpoch disposed with_operationLeases with_pendingLeases]; try assumption.
  - split; [by apply map_wf_set|]. split; [by apply map_wf_set|exact W3].
  - intros l x. rewrite map_get_set. case_bool_decide as E.
    + intros [= <-]. subst l. split; [done|]. split; [done|]. split; [done|]. eexists. rewrite map_get_set_eq. split; [done|].
      apply elem_of_set_add. by right.
    + intros Hx. destruct (H2 l x Hx) as (? & ? & ? & ls & Hls & Hin). do 3 (split; [done|]).
      rewrite map_get_set. case_bool_decide as Eo; [|by exists ls]. eexists. split; [done|]. apply elem_of_set_add. left. by rewrite Eo, Hls.
  - intros o ls. rewrite map_get_set. case_bool_decide as Eo.
    + intros [= <-]. subst o. split.
      { intros E. assert (Hin : lease_leaseId lease ∈ set_add (default [] (map_get (operationLeases c) op)) (lease_leaseId lease))
          by (apply elem_of_set_add; by right). rewrite E in Hin. by apply elem_of_nil in Hin. }
      intros l [Hin| ->]%elem_of_set_add; [|exists lease; rewrite map_get_set_eq; done].
      destruct (map_get (operationLeases c) op) as [ls|] eqn:Hls; [|by apply elem_of_nil in Hin].
      destruct (H3 op ls Hls) as [_ H]. destruct (H l Hin) as (x & Hx & Hop). exists x. split; [|done].
      rewrite map_get_set_ne; [done|]. intros E. congruence.
    + intros Hls. destruct (H3 o ls Hls) as [Hne H]. split; [done|]. intros l Hin. destruct (H l Hin) as (x & Hx & Hop).
      exists x. split; [|done]. rewrite map_get_set_ne; [done|]. intros E. congruence.
  - congruence.
  - intros l Hs. rewrite map_get_set. case_bool_decide as E; [congruence|by apply H8].
  - intros l [Hin|Hin]; [|apply H9; by right]. apply elem_of_keys_set in Hin as [->|Hin]; [done|]. apply H9. by left.
Qed.

Lemma issueLease_keeps w request authorityHash acquired deadline epoch :
  acquired_ok acquired -> isHash authorityHash = true -> disposed (controller w) = false -> connectionEpoch (controller w) = epoch ->
  (exists st, map_get (operationRequests (controller w)) (req_operationId request) = Some st /\ op_closed st = false) ->
  keeps w (snd (issueLease hashText createId_ request authorityHash acquired deadline epoch w)).
Proof using createId_inj.
  intros Ha Hh Hd He (st & Hst & Hcl). unfold issueLease, createId. run_method.
  apply keeps_under; [|by apply prefix_app_r|reflexivity|reflexivity|exact id]. intros Hi.
  destruct (fresh_id w Hi) as [Hf1 Hf2]. set (op := req_operationId request) in *.
  eapply keeps_trans; [apply createId_keeps|]. eapply keeps_trans; [|apply keeps_event; [reflexivity|done]].
  cbn [createId snd]. set (w1 := with_ids (S (ids w)) w). apply keeps_controller; [|reflexivity|exact id]. intros Hi1.
  split; [|split].
  - set (lease := {| lease_acquired := acquired |}).
    apply (add_lease_leases (controller w) _ _ lease).
    + apply (leases_ids _ (ids w)); [cbn; lia|]. exact (inv_leases _ _ _ _ Hi).
    + by split.
    + done.
    + done.
    + by apply map_get_None.
    + done.
    + exists (ids w). split; [cbn; lia|done].
  - intros o st' l x. cbn [operationRequests pendingLeases with_operationLeases with_pendingLeases]. rewrite map_get_set.
    case_bool_decide as E; [|apply (inv_closed _ _ _ _ Hi)]. intros Ho Hc [= <-]. cbn. intros <-. fold op in Ho. change (controller w1) with (controller w) in Ho. congruence.
  - exact (inv_sessions _ _ _ _ Hi).
Qed.

Lemma tombstone_keeps w lease o : map_size (tombstones (controller w)) < MAX_TOMBSTONES ->
  map_get (pendingLeases (controller w)) (lease_leaseId lease) = None -> lease_leaseId lease ∉ settled_ids (trace w) ->
  used createId_ (ids w) (lease_leaseId lease) -> lease_ok lease ->
  keeps w (with_trace (trace w ++ [Settled (lease_leaseId lease) o])%list (with_controller
    (with_tombstones (map_set (tombstones (controller w)) (lease_leaseId lease) (tombstone_of lease o)) (controller w)) w)).
Proof using Type.
  intros Hsz Hp Hs Hu Hl. split; [|by apply prefix_app_r|reflexivity|reflexivity|exact id].
  intros [Hle Hc Hse Hpr Ht Hk [q1 q2 q3] Hv]. set (e := Settled (lease_leaseId lease) o).
  assert (Hsub : forall x, x ∈ trace w -> x ∈ (trace w ++ [e])%list) by (intros x Hx; apply elem_of_app; by left).
  assert (Hids : settled_ids (trace w ++ [e])%list = (settled_ids (trace w) ++ [lease_leaseId lease])%list)
    by (unfold settled_ids; by rewrite omap_app).
  split; [|exact Hc|exact Hse|exact Hpr| | |by split|].
  - destruct Hle as [(W1 & W2 & W3) H2 H3 H4 H5 H6 H7 H8 H9].
    split; cbn [controller trace ids with_trace with_controller pendingLeases operationLeases tombstones connectionEpoch disposed with_tombstones];
      rewrite ?Hids; try assumption.
    + split; [exact W1|]. split; [exact W2|by apply map_wf_set].
    + intros l t. rewrite map_get_set. case_bool_decide as E.
      * intros [= <-]. subst l. split; [apply elem_of_app; right; by apply list_elem_of_singleton|]. apply Hl.
      * intros Hg. destruct (H5 l t Hg) as [? ?]. split; [by apply Hsub|done].
    + rewrite map_size_set. case_decide; lia.
    + apply NoDup_app. split; [done|]. split; [|apply NoDup_singleton]. intros x Hx ->%list_elem_of_singleton. done.
    + intros l [Hin| ->%list_elem_of_singleton]%elem_of_app; [by apply H8|done].
    + intros l [Hin|[Hin| ->%list_elem_of_singleton]%elem_of_app]; [apply H9; by left|apply H9; by right|done].
  - cbn. eapply Forall_impl; [exact Ht|]. intros [[a|]|]; cbn; try done. apply Hsub.
  - cbn. intros a [H|H]%elem_of_app; [by apply Hsub, Hk|]. by apply list_elem_of_singleton in H.
  - intros Hr. destruct (Hv Hr) as [? [?|?]]; (split; [done|]); [left; by apply Hsub|by right].
Qed.

Lemma settleLease_keeps w lease o : map_get (pendingLeases (controller w)) (lease_leaseId lease) = Some lease ->
  keeps w (snd (settleLease lease o w))
  /\ (fst (settleLease lease o w) = Ok tt -> Settled (lease_leaseId lease) o ∈ trace (snd (settleLease lease o w)))
  /\ (forall e, fst (settleLease lease o w) = Throw e -> blocked (snd (settleLease lease o w))).
Proof using Type.
  intros Hp. destruct (remove_requests lease (controller w)) as (E1 & E2 & E3 & E4 & E5 & E6 & E7).
  unfold settleLease, addTombstone. run_method. cbn [controller with_controller]. rewrite E5.
  destruct (MAX_TOMBSTONES <=? map_size (tombstones (controller w)))%nat eqn:Hsz; cbn [fst snd].
  - split; [|split; [done|intros e _; reflexivity]]. as_controller. cbn [controller with_controller].
    apply keeps_under; [|by apply grows_same|reflexivity|reflexivity|reflexivity]. intros Hi.
    destruct (remove_leases _ _ _ _ (inv_leases _ _ _ _ Hi) Hp) as [H1 H2].
    eapply keeps_trans; [|apply (keeps_block (with_controller (removeLease lease (controller w)) w))].
    apply keeps_shrink; try done. intros l x. rewrite H2. by case_bool_decide.
  - split; [|split; [intros _; apply elem_of_app; right; by apply list_elem_of_singleton|done]].
    apply keeps_under; [|by apply prefix_app_r|reflexivity|reflexivity|].
    2: { intros Hb. unfold blocked. cbn. destruct (forget_requests lease (with_tombstones
           (map_set (tombstones (controller w)) (lease_leaseId lease) (tombstone_of lease o)) (removeLease lease (controller w)))) as (_ & _ & _ & ->).
         cbn. rewrite E4. exact Hb. }
    intros Hi. destruct (remove_leases _ _ _ _ (inv_leases _ _ _ _ Hi) Hp) as [H1 H2].
    set (w1 := with_controller (removeLease lease (controller w)) w).
    assert (K1 : keeps w w1) by (apply keeps_shrink; try done; intros l x; rewrite H2; by case_bool_decide).
    eapply keeps_trans; [exact K1|]. eapply keeps_trans; [apply (tombstone_keeps w1 lease o)|].
    + cbn. rewrite E5. apply Nat.leb_gt in Hsz. exact Hsz.
    + cbn. rewrite H2. by rewrite bool_decide_eq_true_2.
    + intros Hin. apply (settled_gone _ _ _ _ _ (inv_leases _ _ _ _ Hi)) in Hin. congruence.
    + apply (ids_used _ _ _ _ _ (inv_leases _ _ _ _ Hi)). left. by eapply map_get_Some_key.
    + by apply (pending_ok _ _ _ _ _ (inv_leases _ _ _ _ Hi) _ _ Hp).
    + cbn [controller trace with_trace with_controller w1]. rewrite E5.
      match goal with |- keeps ?a ?b => change b with (with_controller (controller b) a) end.
      destruct (forget_requests lease (with_tombstones (map_set (tombstones (controller w)) (lease_leaseId lease) (tombstone_of lease o))
        (removeLease lease (controller w)))) as (F1 & F2 & F3 & F4).
      apply keeps_minor; [apply forget_same|exact F1|exact F2|exact F3|intros Hb; cbn; rewrite F4; exact Hb].
Qed.
End Steps.
