(* ===== verification/CredentialLogic.v ===== *)
(** The secret storage as the controller writes it, and rules for the programs of
    the controller: [fine] for programs that hold no ticket, [held] for what runs
    inside the storage queue. *)

From Stdlib Require Import ZArith Lia Ascii String List.
From stdpp Require Import base option list gmap strings.
From S2P Require Import Prelude JsString JsMap JsValue RemoteTypes Async CredentialTypes CredentialController CredentialInvariant.

Local Open Scope string_scope.

Section Vault.
Context (hashText : string -> string) (json_parse : string -> option js_value) (json_stringify : js_value -> string).
Context (hash_ok : forall s, isHash (hashText s) = true)
  (json_round : forall v, json_ok v = true -> json_parse (json_stringify v) = Some v).
Local Abbreviation vault_entries := (vault_entries hashText json_parse).
Local Abbreviation listed := (listed hashText json_parse).
Local Abbreviation indexed := (indexed hashText json_parse).
Local Abbreviation parseV2Index := (parseV2Index hashText json_parse).
Local Abbreviation index_text := (index_text json_stringify).

(** ** The index *)
Record entry_ok (e : CredentialIndexEntry) : Prop := {
  entry_authority : isHash (entry_authorityHash e) = true;
  entry_account : entry_accountHash e = credentialAccountHash hashText (entry_username e);
  entry_key : entry_storageKey e = credentialStorageKey (entry_authorityHash e) (entry_accountHash e);
  entry_name : username_ok (entry_username e);
}.
Record entries_ok (es : list CredentialIndexEntry) : Prop := {
  entries_each : Forall entry_ok es;
  entries_size : 1 <= length es <= MAX_INDEX_ENTRIES;
  entries_keys : NoDup (map entry_storageKey es);
}.

Lemma normalize_ok v name : normalizeUsername v = Some name -> v = Some (VStr name) /\ username_ok name.
Proof using Type.
  unfold username_ok, normalizeUsername. destruct v as [[| | |s| |]|]; try done. case_match eqn:E; [done|]. intros [= <-]. by rewrite E.
Qed.

Lemma key_length e : entry_ok e -> String.length (entry_storageKey e) <= 256.
Proof using hash_ok.
  intros [Ha Hc Hk _]. rewrite Hk. unfold credentialStorageKey, V2_ENTRY_PREFIX. rewrite !length_app, (hash_length _ Ha), Hc. unfold credentialAccountHash.
  rewrite (hash_length _ (hash_ok _)). cbn. lia.
Qed.
Lemma key_prefix e : entry_ok e -> startsWith (entry_storageKey e) V2_ENTRY_PREFIX = true.
Proof using Type. intros [_ _ Hk _]. rewrite Hk. apply startsWith_app. Qed.
Lemma hash_app_inj a b a' b' : isHash a = true -> isHash a' = true -> a ++ b = a' ++ b' -> a = a' /\ b = b'.
Proof using Type. intros Ha Ha'. apply same_length_inj. by rewrite !hash_length. Qed.
Lemma pair_key e e' : entry_ok e -> entry_ok e' -> account_pair e = account_pair e' -> entry_storageKey e = entry_storageKey e'.
Proof using Type.
  intros [Ha _ Hk _] [Ha' _ Hk' _] H. apply hash_app_inj in H as [H1 [= H2]]; [|done|done]. by rewrite Hk, Hk', H1, H2.
Qed.
Lemma pairs_nodup es : Forall entry_ok es -> NoDup (map entry_storageKey es) -> NoDup (map account_pair es).
Proof using Type.
  intros Hes Hn. induction es as [|e es IH]; [constructor|]. apply Forall_cons in Hes as [He Hes]. cbn in *. apply NoDup_cons in Hn as [Hin Hn].
  constructor; [|by apply IH]. intros H. apply Hin. apply list_elem_of_fmap in H as (e' & Hp & He').
  apply list_elem_of_fmap. exists e'. split; [|done]. apply pair_key; [done|by eapply Forall_forall|done].
Qed.

Lemma set_of_length {A} `{EqDecision A} (l : list A) : length (set_of l) = length l <-> NoDup l.
Proof using Type.
  unfold set_of. enough (H : forall acc, NoDup acc -> length (fold_left set_add l acc) <= length acc + length l /\
    (length (fold_left set_add l acc) = length acc + length l <-> NoDup (acc ++ l)%list)).
  { destruct (H [] (NoDup_nil_2)) as [_ H']. exact H'. }
  induction l as [|x l IH]; intros acc Hacc; cbn [fold_left].
  - rewrite List.app_nil_r. cbn. split; [lia|]. split; [done|lia].
  - unfold set_add at 2 4. unfold set_has. case_bool_decide as Hx; cbn.
    + destruct (IH acc Hacc) as [Hle _]. split; [lia|]. split; [lia|]. intros (_ & H & _)%NoDup_app. exfalso. apply (H x Hx). constructor.
    + assert (Hacc' : NoDup (acc ++ [x])%list).
      { apply NoDup_app. split; [done|]. split; [|apply NoDup_singleton]. by intros y Hy ->%list_elem_of_singleton. }
      destruct (IH _ Hacc') as [Hle Hiff]. rewrite List.length_app in *. cbn in *. split; [lia|].
      rewrite <- List.app_assoc in Hiff. cbn in Hiff. rewrite <- Hiff. lia.
Qed.

Lemma parse_entry_ok v e : parseIndexEntry hashText v = Ok e -> entry_ok e.
Proof using Type.
  unfold parseIndexEntry. intros H. repeat (apply bind_ok in H as (? & ? & H)).
  destruct (normalizeUsername _) as [name|] eqn:Hn; [|done]. apply normalize_ok in Hn as [_ Hn].
  apply bind_ok in H as (? & Hr & [= <-]). apply require_ok in Hr. apply andb_prop in Hr as [Hc%bool_decide_eq_true_1 Hk%bool_decide_eq_true_1].
  split; cbn; try done. unfold requireHash in *.
  match goal with H : match field _ "authorityHash" with _ => _ end = Ok _ |- _ => revert H end.
  destruct (field x "authorityHash") as [[| | |s| |]|]; try done. intros (? & Hr & [= <-])%bind_ok. by apply require_ok in Hr.
Qed.
Lemma hash_field s f : isHash s = true -> requireHash (Some (VStr s)) f = Ok s.
Proof using Type. intros H. unfold requireHash. apply bind_ok. exists tt. by rewrite require_ok. Qed.
Lemma bounded_field s f lo hi : lo <= String.length s <= hi -> requireBoundedString (Some (VStr s)) f lo hi = Ok s.
Proof using Type. intros H. unfold requireBoundedString. apply bind_ok. exists tt. rewrite require_ok. split; [|done]. apply andb_true_iff. rewrite !Nat.leb_le. lia. Qed.
Lemma parse_encoded_entry e : entry_ok e -> parseIndexEntry hashText (Some (encode_entry e)) = Ok e.
Proof using hash_ok.
  intros He. pose proof (key_length e He) as Hlen. destruct He as [Ha Hc Hk Hn]. unfold parseIndexEntry, encode_entry.
  apply bind_ok. eexists. split; [reflexivity|]. apply bind_ok. exists tt. split; [by apply require_ok|].
  apply bind_ok. eexists. split; [by apply hash_field|].
  apply bind_ok. eexists. split; [apply hash_field; rewrite Hc; apply hash_ok|].
  apply bind_ok. eexists. split; [apply bounded_field; split; [rewrite Hk; cbn; lia|done]|].
  change (field _ "username") with (Some (VStr (entry_username e))). rewrite Hn.
  apply bind_ok. exists tt. rewrite require_ok. split; [|by destruct e].
  apply andb_true_iff. split; by apply bool_decide_eq_true.
Qed.

Lemma index_json es : json_ok (VObj [("version", number 2); ("entries", VArr (map encode_entry es))]) = true.
Proof using Type.
  cbn [json_ok]. apply andb_true_iff. split; [by vm_compute|]. cbn [forallb fst snd json_ok number].
  replace (key_ok "version") with true by done. replace (key_ok "entries") with true by done. replace (isSafeInteger 2) with true by done.
  cbn [andb]. rewrite andb_true_r. apply forallb_forall. intros x (e & <- & _)%in_map_iff. by vm_compute.
Qed.
Lemma parse_index_ok raw es : parseV2Index raw = Ok es -> entries_ok es.
Proof using Type.
  unfold CredentialController.parseV2Index. intros H. apply bind_ok in H as (v & Hv & H). apply bind_ok in H as (? & Hr & H).
  destruct (array_of _) as [items|]; [|done]. apply bind_ok in H as (? & Hsz & H). apply bind_ok in H as (es' & Hes & H).
  apply bind_ok in H as (? & Hnd & [= <-]). apply require_ok in Hsz, Hnd.
  apply andb_prop in Hsz as [Hs1%Nat.leb_le Hs2%Nat.leb_le], Hnd as [Hn1%Nat.eqb_eq Hn2%Nat.eqb_eq].
  pose proof (proj1 (mapi_ok _ _ _) Hes) as [Hlen _]. split.
  - eapply mapi_forall; [exact Hes|]. intros i item y Hy. exact (parse_entry_ok (Some item) y Hy).
  - lia.
  - apply set_of_length. by rewrite Hn1, length_map.
Qed.
Lemma parse_index_text es : entries_ok es -> parseV2Index (index_text es) = Ok es.
Proof using hash_ok json_round.
  intros [He Hs Hn]. unfold CredentialController.parseV2Index, parsed, CredentialController.index_text. rewrite json_round by apply index_json.
  apply bind_ok. eexists. split; [reflexivity|]. apply bind_ok. exists tt. split; [by apply require_ok|].
  change (array_of _) with (Some (map encode_entry es)). apply bind_ok. exists tt. rewrite require_ok. split.
  { rewrite length_map. apply andb_true_iff. rewrite !Nat.leb_le. lia. }
  apply bind_ok. exists es. split.
  - apply mapi_ok. rewrite length_map. split; [done|]. intros i x y Hx Hi.
    change (map encode_entry es) with (encode_entry <$> es) in Hx. rewrite list_lookup_fmap, Hi in Hx. injection Hx as <-. apply parse_encoded_entry. by eapply Forall_lookup_1.
  - apply bind_ok. exists tt. rewrite require_ok. split; [|done]. apply andb_true_iff. rewrite !Nat.eqb_eq. split.
    + rewrite (proj2 (set_of_length _) Hn). apply length_map.
    + rewrite (proj2 (set_of_length _) (pairs_nodup es He Hn)). apply length_map.
Qed.

(** ** The storage as a vault *)

(** The storage holds the credentials of [es], and unless [f] no others. *)
Record holds_entries (f : Prop) (es : list CredentialIndexEntry) (st : gmap string string) : Prop := {
  holds_index : vault_entries st = Some es;
  holds_listed e : e ∈ es -> is_Some (st !! entry_storageKey e);
  holds_indexed : f \/ forall k, startsWith k V2_ENTRY_PREFIX = true -> is_Some (st !! k) -> k ∈ map entry_storageKey es;
}.
Definition good (f : Prop) (st : gmap string string) : Prop := exists es, holds_entries f es st.

Lemma good_iff f st : good f st <-> listed st /\ (f \/ indexed st).
Proof using Type.
  split.
  - intros (es & [H1 H2 H3]). split; [by exists es|]. destruct H3 as [?|H3]; [by left|right]. by exists es.
  - intros [(es & H1 & H2) Hf]. exists es. split; [done|done|]. destruct Hf as [?|(es' & H3 & H4)]; [by left|right]. rewrite H1 in H3. injection H3 as <-. exact H4.
Qed.
Lemma good_at f st es : good f st -> vault_entries st = Some es -> holds_entries f es st.
Proof using Type. intros (es' & [H1 H2 H3]) H. rewrite H in H1. injection H1 as <-. by split. Qed.

Lemma vault_entries_ok st es : vault_entries st = Some es -> es = [] \/ entries_ok es.
Proof using Type.
  unfold CredentialInvariant.vault_entries. destruct (st !! V2_INDEX_KEY) as [raw|]; [|intros [= <-]; by left].
  destruct (parseV2Index raw) as [es'|e] eqn:Hp; [|done]. intros [= <-]. right. by eapply parse_index_ok.
Qed.
Lemma vault_each st es : vault_entries st = Some es -> Forall entry_ok es /\ NoDup (map entry_storageKey es).
Proof using Type. intros [->|[? ? ?]]%vault_entries_ok; [split; constructor|by split]. Qed.
Lemma vault_same_index st st' : st' !! V2_INDEX_KEY = st !! V2_INDEX_KEY -> vault_entries st' = vault_entries st.
Proof using Type. unfold CredentialInvariant.vault_entries. by intros ->. Qed.

(** The index that the code writes for the entries [es]. *)
Definition index_of (es : list CredentialIndexEntry) : option string := match es with [] => None | _ => Some (index_text es) end.
Lemma vault_written st es : es = [] \/ entries_ok es -> st !! V2_INDEX_KEY = index_of es -> vault_entries st = Some es.
Proof using hash_ok json_round.
  unfold CredentialInvariant.vault_entries. intros [->|He] ->; [done|]. destruct es as [|e es]; [done|]. cbn [index_of].
  by rewrite parse_index_text.
Qed.
Lemma prefix_not_index k : startsWith k V2_ENTRY_PREFIX = true -> k <> V2_INDEX_KEY.
Proof using Type. by intros H ->. Qed.
Lemma entry_not_index f es st e : holds_entries f es st -> e ∈ es -> entry_storageKey e <> V2_INDEX_KEY.
Proof using Type.
  intros [Hi _ _] He. apply prefix_not_index, key_prefix. destruct (vault_each _ _ Hi) as [H _]. by eapply Forall_forall.
Qed.

(** What the vault shows depends on the index and on the keys with its prefix. *)
Lemma good_ext f st st' : st' !! V2_INDEX_KEY = st !! V2_INDEX_KEY ->
  (forall k, startsWith k V2_ENTRY_PREFIX = true -> is_Some (st' !! k) <-> is_Some (st !! k)) -> good f st -> good f st'.
Proof using Type.
  intros Hi Hk (es & [H1 H2 H3]). exists es. split.
  - rewrite <- H1. by apply vault_same_index.
  - intros e He. destruct (vault_each _ _ H1) as [Hok _]. apply Hk; [|by apply H2]. apply key_prefix. by eapply Forall_forall.
  - destruct H3 as [?|H3]; [by left|right]. intros k Hp Hs. apply H3; [done|]. by apply Hk.
Qed.
Lemma holds_put f st es e v : holds_entries f es st -> e ∈ es -> holds_entries f es (<[entry_storageKey e := v]> st).
Proof using Type.
  intros H He. pose proof (entry_not_index _ _ _ _ H He) as Hk. destruct H as [H1 H2 H3]. split.
  - rewrite <- H1. apply vault_same_index. by rewrite lookup_insert_ne.
  - intros x Hx. destruct (decide (entry_storageKey x = entry_storageKey e)) as [->|Hne]; [by rewrite lookup_insert_eq|].
    rewrite lookup_insert_ne by done. by apply H2.
  - destruct H3 as [?|H3]; [by left|right]. intros k Hp Hs. destruct (decide (k = entry_storageKey e)) as [->|Hne]; [apply list_elem_of_fmap; eauto|].
    rewrite lookup_insert_ne in Hs by done. by apply H3.
Qed.

(** ** A new credential *)
Lemma lease_entry_ok lease : CredentialInvariant.lease_ok hashText lease -> entry_ok (lease_entry lease).
Proof using Type. intros [[Hu _] Ha Hc Hk]. by split. Qed.
Lemma entries_new es e : es = [] \/ entries_ok es -> entry_ok e -> entry_storageKey e ∉ map entry_storageKey es ->
  length es < MAX_INDEX_ENTRIES -> entries_ok (es ++ [e])%list.
Proof using Type.
  intros Hes He Hn Hl. assert (Hes' : Forall entry_ok es /\ NoDup (map entry_storageKey es))
    by (destruct Hes as [->|[]]; [split; constructor|by split]). destruct Hes' as [H1 H2]. split.
  - apply Forall_app. split; [done|]. by constructor.
  - rewrite List.length_app. cbn. lia.
  - rewrite List.map_app. apply NoDup_app. split; [done|]. split; [|apply NoDup_singleton]. by intros x Hx ->%list_elem_of_singleton.
Qed.
Lemma good_new f st es e v : holds_entries f es st -> entry_ok e -> entry_storageKey e ∉ map entry_storageKey es ->
  length es < MAX_INDEX_ENTRIES -> good f (<[entry_storageKey e := v]> (<[V2_INDEX_KEY := index_text (es ++ [e])%list]> st)).
Proof using hash_ok json_round.
  intros H He Hn Hl. assert (Hk : entry_storageKey e <> V2_INDEX_KEY) by by apply prefix_not_index, key_prefix.
  exists (es ++ [e])%list. split.
  - apply vault_written.
    + right. eapply entries_new; try done. eapply vault_entries_ok, H.
    + rewrite lookup_insert_ne, lookup_insert_eq by done. unfold index_of. by destruct es.
  - intros x [Hx| ->%list_elem_of_singleton]%elem_of_app; [|by rewrite lookup_insert_eq].
    destruct (decide (entry_storageKey x = entry_storageKey e)) as [->|Hne]; [by rewrite lookup_insert_eq|].
    rewrite !lookup_insert_ne; [by apply H|by apply not_eq_sym; eapply entry_not_index|done].
  - destruct H as [H1 H2 [?|H3]]; [by left|right]. intros k Hp Hs. rewrite List.map_app. apply elem_of_app. cbn.
    destruct (decide (k = entry_storageKey e)) as [->|Hne]; [right; by apply list_elem_of_singleton|left].
    rewrite !lookup_insert_ne in Hs; [by apply H3|by apply not_eq_sym, prefix_not_index|done].
Qed.
Definition set_index (o : option string) (st : gmap string string) : gmap string string :=
  match o with Some t => <[V2_INDEX_KEY := t]> st | None => delete V2_INDEX_KEY st end.
Lemma set_index_at o st : set_index o st !! V2_INDEX_KEY = o.
Proof using Type. destruct o; [apply lookup_insert_eq|apply lookup_delete_eq]. Qed.
Lemma set_index_ne o st k : k <> V2_INDEX_KEY -> set_index o st !! k = st !! k.
Proof using Type. intros H. destruct o; [by apply lookup_insert_ne|by apply lookup_delete_ne]. Qed.

(** Restoring the index of [es] in a storage that differs from one with [es] at
    keys that [es] does not list, where nothing is left. *)
Lemma good_index f st es st' : holds_entries f es st ->
  (forall k, startsWith k V2_ENTRY_PREFIX = true -> st' !! k = st !! k \/ (st' !! k = None /\ k ∉ map entry_storageKey es)) ->
  good f (set_index (index_of es) st').
Proof using hash_ok json_round.
  intros H Hst. exists es. split.
  - apply vault_written; [eapply vault_entries_ok, H|apply set_index_at].
  - intros e He. rewrite set_index_ne by by eapply entry_not_index.
    destruct (Hst (entry_storageKey e)) as [->|[_ Hn]]; [|by apply H|destruct Hn; apply list_elem_of_fmap; eauto].
    apply key_prefix. destruct (vault_each _ _ (holds_index _ _ _ H)) as [Hok _]. by eapply Forall_forall.
  - destruct H as [H1 H2 [?|H3]]; [by left|right]. intros k Hp. rewrite set_index_ne by by apply prefix_not_index.
    destruct (Hst k Hp) as [->|[-> _]]; [by apply H3|]. by intros [? ?].
Qed.

(** ** A rejected credential *)
Definition without (key : string) (es : list CredentialIndexEntry) : list CredentialIndexEntry :=
  List.filter (fun e => negb (bool_decide (entry_storageKey e = key))) es.
Lemma elem_of_without key es e : e ∈ without key es <-> e ∈ es /\ entry_storageKey e <> key.
Proof using Type. unfold without. rewrite !list_elem_of_In, filter_In, negb_true_iff, bool_decide_eq_false. done. Qed.
Lemma without_ok key es : entries_ok es -> without key es = [] \/ entries_ok (without key es).
Proof using Type.
  intros [H1 H2 H3]. destruct (without key es) as [|e l] eqn:E; [by left|right]. rewrite <- E. split.
  - apply Forall_forall. intros x [Hx _]%elem_of_without. by eapply Forall_forall.
  - split; [rewrite E; cbn; lia|]. trans (length es); [apply List.filter_length_le|lia].
  - unfold without. clear -H3. induction es as [|x es IH]; [constructor|]. cbn in *. apply NoDup_cons in H3 as [Hx H3].
    case_bool_decide; cbn; [by apply IH|]. constructor; [|by apply IH]. intros (y & Hy & Hin)%list_elem_of_fmap. apply Hx.
    apply list_elem_of_fmap. exists y. split; [done|]. apply list_elem_of_In in Hin. apply filter_In in Hin as [Hin _]. by apply list_elem_of_In.
Qed.
Lemma good_rejected f st es e : holds_entries f es st -> e ∈ es ->
  good f (set_index (index_of (without (entry_storageKey e) es)) (delete (entry_storageKey e) st)).
Proof using hash_ok json_round.
  intros H He. assert (Hes : entries_ok es).
  { destruct (vault_entries_ok _ _ (holds_index _ _ _ H)) as [->|?]; [by apply elem_of_nil in He|done]. }
  exists (without (entry_storageKey e) es). split.
  - apply vault_written; [by apply without_ok|apply set_index_at].
  - intros x [Hx Hne]%elem_of_without. rewrite set_index_ne by by eapply entry_not_index. rewrite lookup_delete_ne by done. by apply H.
  - destruct H as [H1 H2 [?|H3]]; [by left|right]. intros k Hp. rewrite set_index_ne by by apply prefix_not_index.
    destruct (decide (k = entry_storageKey e)) as [->|Hne]; [rewrite lookup_delete_eq; by intros [? ?]|].
    rewrite lookup_delete_ne by done. intros Hs. destruct (proj1 (list_elem_of_fmap _ _ _) (H3 k Hp Hs)) as (x & -> & Hx).
    apply list_elem_of_fmap. exists x. split; [done|]. by apply elem_of_without.
Qed.
(** Undoing it, whatever has become of the key and of the index. *)
Lemma good_unrejected f st es e v st' : holds_entries f es st -> e ∈ es ->
  (forall k, startsWith k V2_ENTRY_PREFIX = true -> k <> entry_storageKey e -> st' !! k = st !! k) ->
  good f (<[V2_INDEX_KEY := index_text es]> (<[entry_storageKey e := v]> st')).
Proof using hash_ok json_round.
  intros H He Hst. replace (<[V2_INDEX_KEY := index_text es]> (<[entry_storageKey e := v]> st')) with
    (set_index (index_of es) (<[entry_storageKey e := v]> st')) by (destruct es; [by apply elem_of_nil in He|done]).
  eapply good_index; [by apply (holds_put f st es e v)|]. intros k Hp. left.
  destruct (decide (k = entry_storageKey e)) as [->|Hne]; [by rewrite !lookup_insert_eq|]. rewrite !lookup_insert_ne by done. by apply Hst.
Qed.

(** ** Rollbacks *)
Fixpoint restore_all (snapshots : list (string * string)) (deleted : list string) (st : gmap string string) : gmap string string :=
  match deleted with
  | [] => st
  | key :: rest => restore_all snapshots rest (<[key := default "undefined" (map_get snapshots key)]> st)
  end.
(** What a rollback makes of the storage. *)
Definition rolled_back (m : StorageMutation) (st : gmap string string) : gmap string string :=
  match m with
  | NoMutation | RestoreSession _ _ => st
  | RestoreStored key previous attempted => if attempted then <[key := previous]> st else st
  | RemoveStored key previousIndex credentialAttempted indexAttempted =>
      let st := if credentialAttempted then delete key st else st in
      if indexAttempted then set_index previousIndex st else st
  | RestoreRejected key previousCredential previousIndex credentialAttempted indexAttempted =>
      let st := if credentialAttempted then <[key := previousCredential]> st else st in
      if indexAttempted then <[V2_INDEX_KEY := previousIndex]> st else st
  | RestoreLegacy snapshots current deleted indexDeleteAttempted =>
      let st := restore_all snapshots deleted st in
      if indexDeleteAttempted then <[LEGACY_INDEX_KEY := legacy_text json_stringify current]> st else st
  end.
Definition legacy_keys (keys : list string) : Prop := Forall (fun k => startsWith k LEGACY_ENTRY_PREFIX = true) keys.
Lemma legacy_foreign k : startsWith k LEGACY_ENTRY_PREFIX = true -> k <> V2_INDEX_KEY /\ startsWith k V2_ENTRY_PREFIX = false.
Proof using Type.
  intros (r & ->)%startsWith_iff. split; [done|]. reflexivity.
Qed.
(** A key that the vault does not read. *)
Definition foreign (k : string) : Prop := k <> V2_INDEX_KEY /\ startsWith k V2_ENTRY_PREFIX = false.
Lemma good_foreign f st k (v : option string) : foreign k -> good f st -> good f (partial_alter (fun _ => v) k st).
Proof using Type.
  intros [H1 H2] Hg. eapply good_ext; [| |exact Hg].
  - by rewrite lookup_partial_alter_ne.
  - intros k' Hk. rewrite lookup_partial_alter_ne; [done|]. intros <-. congruence.
Qed.
Lemma good_foreign_put f st k v : foreign k -> good f st -> good f (<[k := v]> st).
Proof using Type. apply (good_foreign f st k (Some v)). Qed.
Lemma good_foreign_delete f st k : foreign k -> good f st -> good f (delete k st).
Proof using Type. apply (good_foreign f st k None). Qed.
Lemma legacy_index_foreign : foreign LEGACY_INDEX_KEY.
Proof using Type. by split. Qed.
Lemma good_restore_all f snapshots deleted : legacy_keys deleted -> forall st, good f st -> good f (restore_all snapshots deleted st).
Proof using Type.
  induction deleted as [|k ks IH]; intros Hk st Hg; [done|]. apply Forall_cons in Hk as [Hk Hks]. cbn. apply IH; [done|].
  apply good_foreign_put; [by apply legacy_foreign|done].
Qed.
End Vault.

Local Open Scope string_scope.

(** What the trace shows stays shown. *)
Abbreviation kept_by_trace := (lasting None rely).

Section Logic.
Context (hashText : string -> string) (createId_ : nat -> string) (json_parse : string -> option js_value).
Local Abbreviation inv := (inv hashText createId_ json_parse).
Local Abbreviation guar := (guar hashText createId_ json_parse).
Local Abbreviation keeps := (keeps hashText createId_ json_parse).
Local Abbreviation safe := (Async.safe answers None inv rely guar).
Local Abbreviation listed := (listed hashText json_parse).
Local Abbreviation indexed := (indexed hashText json_parse).
Local Abbreviation vault := (vault hashText json_parse).

(** ** Moves in the queue *)
Lemma take_guar w : guar None w (Some (length (queue w))) (snd (takeTicket w))
  /\ fst (takeTicket w) = Ok (storageQueue (controller w), length (queue w))
  /\ queue (snd (takeTicket w)) = (queue w ++ [Queued])%list.
Proof using Type.
  unfold takeTicket. run_method. split; [|done].
  split; [|by apply grows_same|constructor|by right|right; exact id].
  intros [H1 H2 H3 H4 H5 H6 [q1 q2 q3] H8]. split; [|exact H2|exact H3|exact H4|exact H5|exact H6| |].
  - eapply leases_same; [|exact H1]. by split_and!.
  - split; cbn.
    + by rewrite lookup_app_l by by eapply lookup_lt_Some.
    + rewrite List.length_app. cbn. lia.
    + intros n t Ht Hne. destruct (decide (S n < length (queue w))) as [Hlt|Hge].
      * rewrite lookup_app_l in * by lia. by eapply q3.
      * rewrite lookup_app_r in Ht by lia. destruct (S n - length (queue w)) as [|m]; [by injection Ht as <-|by destruct m].
  - intros Hr. apply H8. intros n Hn. apply (Hr n). unfold running in *. cbn. by rewrite lookup_app_l by by eapply lookup_lt_Some.
Qed.

Lemma enter_guar w n : queue w !! S n = Some Queued -> queue w !! n = Some Released ->
  let w' := snd (set_ticket (S n) Running w) in
  guar (Some (S n)) w (Some (S n)) w' /\ running (S n) w' /\ (inv w -> vault w').
Proof using Type.
  intros Hq Hp w'. unfold w', set_ticket. run_method. assert (Hl : S n < length (queue w)) by by eapply lookup_lt_Some.
  split; [|split; [by apply list_lookup_insert_eq|]].
  - split; [|by apply grows_same|by constructor|by right|right; exact id].
    intros [H1 H2 H3 H4 H5 H6 [q1 q2 q3] H8]. split; [exact H1|exact H2|exact H3|exact H4|exact H5|exact H6| |].
    + split; cbn.
      * by rewrite list_lookup_insert_ne.
      * by rewrite length_insert.
      * intros m t Ht Hne. destruct (decide (m = n)) as [->|Hmn]; [by rewrite list_lookup_insert_ne by lia|].
        rewrite list_lookup_insert_ne in Ht by lia. destruct (decide (m = S n)) as [->|Hm].
        { apply q3 in Ht; [|done]. congruence. }
        rewrite list_lookup_insert_ne by lia. by eapply q3.
    + intros Hr. exfalso. apply (Hr (S n)). unfold running. cbn. by apply list_lookup_insert_eq.
  - intros Hi. apply (inv_vault _ _ _ _ Hi). intros m Hm. destruct (inv_queue _ _ _ _ Hi) as [q1 q2 q3].
    assert (Hok : queue_ok w) by by split. unfold running in Hm.
    destruct (decide (m <= n)) as [Hle|Hgt].
    + pose proof (released_below w n m Hok Hle Hp). congruence.
    + destruct (decide (m = S n)) as [->|Hne]; [congruence|].
      pose proof (running_below w m (S n) Hok Hm ltac:(lia)). congruence.
Qed.

Lemma release_guar w n c' : running n w -> storageQueue c' = storageQueue (controller w) ->
  same_leases (controller w) c' -> operationRequests c' = operationRequests (controller w) ->
  sessionCredentials c' = sessionCredentials (controller w) ->
  let w' := with_queue (<[n := Released]> (queue w)) (with_controller c' w) in
  vault w' -> guar (Some n) w None w'.
Proof using Type.
  intros Hn Hq Hs Ho Hc w' Hv. assert (Hl : n < length (queue w)) by by eapply lookup_lt_Some.
  split; [|by apply grows_same|by apply move_leave|by left|by left].
  intros Hi. assert (Hok : queue_ok w) by apply Hi. destruct Hi as [H1 H2 H3 H4 H5 H6 [q1 q2 q3] H8].
  split; [by eapply leases_same| |cbn; by rewrite Hc|exact H4|exact H5|exact H6| |intros _; exact Hv].
  - eapply closed_same; [exact Ho|by apply Hs|exact H2].
  - split; cbn.
    + destruct (decide (n = 0)) as [->|?]; [by apply list_lookup_insert_eq|by rewrite list_lookup_insert_ne].
    + by rewrite Hq, length_insert.
    + intros m t Ht Hne. destruct (decide (n = m)) as [->|Hm]; [by apply list_lookup_insert_eq|]. rewrite list_lookup_insert_ne by done.
      destruct (decide (n = S m)) as [->|Hm']; [by eapply running_below; [|exact Hn|lia]|].
      rewrite list_lookup_insert_ne in Ht by done. by eapply q3.
Qed.

Lemma write_guar w n st : running n w -> guar (Some n) w (Some n) (with_secretStorage st w).
Proof using Type.
  intros Hn. split; [|by apply grows_same|constructor|by left|by left].
  intros [H1 H2 H3 H4 H5 H6 [q1 q2 q3] H8]. split; [exact H1|exact H2|exact H3|exact H4|exact H5|exact H6|by split|].
  intros Hr. by destruct (Hr n).
Qed.

(** ** Promises *)
Lemma keeps_prompts w ps : (inv w -> Forall acquisition_ok ps) -> keeps w (with_promptPromises ps w).
Proof using Type.
  intros H. split; [|by apply grows_same|reflexivity|reflexivity|exact id]. intros Hi. specialize (H Hi).
  destruct Hi as [H1 H2 H3 H4 H5 H6 [q1 q2 q3] H8]. split; [exact H1|exact H2|exact H3|exact H|exact H5|exact H6|by split|exact H8].
Qed.
Lemma keeps_settlements w ps : (inv w -> Forall (ack_ok (trace w)) ps) -> keeps w (with_settlementPromises ps w).
Proof using Type.
  intros H. split; [|by apply grows_same|reflexivity|reflexivity|exact id]. intros Hi. specialize (H Hi).
  destruct Hi as [H1 H2 H3 H4 H5 H6 [q1 q2 q3] H8]. split; [exact H1|exact H2|exact H3|exact H4|exact H|exact H6|by split|exact H8].
Qed.
Lemma keeps_legacy w ps : keeps w (with_legacyPromises ps w).
Proof using Type.
  split; [|by apply grows_same|reflexivity|reflexivity|exact id]. intros [H1 H2 H3 H4 H5 H6 [q1 q2 q3] H8].
  split; [exact H1|exact H2|exact H3|exact H4|exact H5|exact H6|by split|exact H8].
Qed.

(** ** Programs without a ticket *)
Local Abbreviation fine_from := (Async.fine_from answers None inv rely guar).
Local Abbreviation fine := (Async.fine answers None inv rely guar).

(** A stretch that keeps the invariant. *)
Lemma fine_sync {A} (Q : A -> World -> Prop) w (m : method World A) :
  (inv w -> keeps w (snd (m w)) /\ forall a, inv (snd (m w)) -> fst (m w) = Ok a -> Q a (snd (m w))) -> inv w -> fine_from Q w (sync m).
Proof using Type. intros H. apply fine_stretch. intros Hi. destruct (H Hi). split; [by apply keeps_guar|done]. Qed.
Lemma fine_read {A} (Q : A -> World -> Prop) w (f : World -> A) : inv w -> Q (f w) w -> fine_from Q w (sync (get f)).
Proof using Type. intros Hi HQ. apply fine_sync; [|done]. intros _. split; [apply keeps_refl|]. by intros a _ [= <-]. Qed.
Lemma fine_ask w q : (forall w r w', answers q w r w' -> w' = w) -> fine_from any w (ask q).
Proof using Type.
  intros H w1 r w2 _ Hi He. apply H in He as ->. exists None. split; [apply keeps_guar, keeps_refl|]. by split.
Qed.
Lemma fine_deadline {A} (Q : A -> World -> Prop) w deadline (p : prog A) : kept_by_trace Q -> fine_from Q w p ->
  fine_from (fun o w => match o with Some a => Q a w | None => True end) w (withDeadline deadline p).
Proof using Type. apply fine_race. Qed.
Lemma fine_finally {A} (Q : A -> World -> Prop) w (p : prog A) m : inv w -> kept_by_trace Q -> (forall w, keeps w (snd (m w))) ->
  fine_from Q w p -> fine_from Q w (finally p m).
Proof using Type.
  intros Hi HQ Hm. apply fine_ended; [done| |intros; by apply keeps_guar]. intros a w1. apply HQ. split; [apply Hm|done].
Qed.
Lemma fine_start {A} (Q : A -> World -> Prop) w (cells : World -> list (option (result A))) with_cells (p : prog A) :
  (forall w, keeps w (with_cells (cells w ++ [None])%list w)) ->
  (forall w i r, inv w -> (forall a, r = Ok a -> Q a w) -> keeps w (with_cells (<[i := Some r]> (cells w)) w)) ->
  fine Q p -> fine_from any w (start_promise cells with_cells p).
Proof using Type.
  intros H1 H2. apply fine_started; [apply keeps_guar, keeps_refl|intros; by apply keeps_guar|]. intros w1 i r Hi Hr. by apply keeps_guar, H2.
Qed.

(** ** Programs in the queue *)

(** What a predicate may say so that other programs keep it for the holder of
    the queue. *)
Definition kept (P : World -> Prop) : Prop :=
  forall w w', secretStorage w' = secretStorage w -> grows w w' -> (blocked w -> blocked w') -> P w -> P w'.
Definition held {A} (n : nat) (P : World -> Prop) (Q : result A -> World -> Prop) (p : prog A) : Prop :=
  forall w, inv w -> running n w -> P w -> safe p (Some n) (fun r t w' => t = Some n /\ running n w' /\ Q r w') w.

Lemma kept_rely P n w w' : kept P -> P w -> running n w -> rely (Some n) w w' -> running n w' /\ P w'.
Proof using Type.
  intros HP Hw Hn (Hg & Hq & Hs). destruct (Hs Hn) as [Hst Hb]. split; [unfold running in *; congruence|]. by eapply HP.
Qed.
Lemma kept_keeps P w w' : kept P -> keeps w w' -> P w -> P w'.
Proof using Type. intros HP []. by apply HP. Qed.

Lemma held_done {A} n P (Q : result A -> World -> Prop) r : (forall w, P w -> Q r w) -> held n P Q (Done r).
Proof using Type. intros H w Hi Hn HP. split; [done|]. split; [done|]. by apply H. Qed.
Lemma held_conseq {A} n (P P' : World -> Prop) (Q Q' : result A -> World -> Prop) p :
  (forall w, P' w -> P w) -> (forall r w, Q r w -> Q' r w) -> held n P Q p -> held n P' Q' p.
Proof using Type.
  intros HP HQ Hp w Hi Hn Hw. eapply safe_post; [|apply Hp; [done|done|by apply HP]]. intros r t w' (-> & ? & ?). auto.
Qed.
Lemma held_pure {A} n (P : World -> Prop) (H : Prop) (Q : result A -> World -> Prop) p :
  (H -> held n P Q p) -> held n (fun w => P w /\ H) Q p.
Proof using Type. intros Hp w Hi Hn [HP HH]. by apply Hp. Qed.
Lemma held_bind {A B} n P (R : result A -> World -> Prop) (Q : result B -> World -> Prop) (p : prog A) f :
  held n P R p -> (forall r, held n (R r) Q (f r)) -> held n P Q (Async.bind p f).
Proof using Type.
  intros Hp Hf w Hi Hn HP. apply safe_bind. eapply safe_post; [|apply safe_inv; [exact Hi|by apply Hp]].
  intros r t w' (Hi' & -> & Hn' & HR). by apply Hf.
Qed.
Lemma held_then {A B} n P (R : result A -> World -> Prop) (Q : result B -> World -> Prop) (p : prog A) f :
  held n P R p -> (forall a, held n (R (Ok a)) Q (f a)) -> (forall e w, R (Throw e) w -> Q (Throw e) w) -> held n P Q (x <~ p; f x).
Proof using Type.
  intros Hp Hf He. eapply held_bind; [exact Hp|]. intros [a|e]; [apply Hf|]. apply held_done. apply He.
Qed.
Lemma held_await {A} n P (Q : result A -> World -> Prop) p : (forall r, kept (Q r)) -> held n P Q p -> held n P Q (await p).
Proof using Type.
  intros HQ Hp w Hi Hn HP. apply safe_bind. eapply safe_post; [|by apply Hp]. intros r t w' (-> & Hn' & Hr).
  apply safe_pause. intros w1 Hrel _. destruct (kept_rely _ _ _ _ (HQ r) Hr Hn' Hrel). by split.
Qed.
Lemma held_sync {A} n P (Q : result A -> World -> Prop) (m : method World A) :
  (forall w, inv w -> P w -> keeps w (snd (m w)) /\ Q (fst (m w)) (snd (m w))) -> held n P Q (sync m).
Proof using Type.
  intros H w Hi Hn HP. destruct (H w Hi HP) as [Hk HQ]. exists (Some n). split; [by apply keeps_guar|]. intros _.
  split; [done|]. split; [|done]. unfold running. by rewrite (keeps_queue _ _ _ _ _ Hk).
Qed.
Lemma held_get n P k : kept P ->
  held n P (fun r w => P w /\ match r with Ok o => o = secretStorage w !! k | Throw e => storage_error e end) (ask (GetSecret k)).
Proof using Type.
  intros HP w Hi Hn Hw w1 r w2 Hrel Hi1 [-> He]. destruct (kept_rely _ _ _ _ HP Hw Hn Hrel) as [Hn1 Hw1]. exists (Some n).
  split; [apply keeps_guar, keeps_refl|]. intros _. split; [done|]. split; [done|]. split; [done|].
  by destruct He as [->|(e & -> & ?)].
Qed.
(** A write: it is done, or it is not known whether it was done. *)
Definition written (P : World -> Prop) (Q : result unit -> World -> Prop) (change : gmap string string -> gmap string string) : Prop :=
  forall w, P w -> let w1 := with_secretStorage (change (secretStorage w)) w in
    Q (Ok tt) w1 /\ forall e, storage_error e -> Q (Throw e) w /\ Q (Throw e) w1.
Lemma held_store n P Q k v : kept P -> written P Q (fun st => <[k := v]> st) -> held n P Q (ask (StoreSecret k v)).
Proof using Type.
  intros HP HQ w Hi Hn Hw w1 r w2 Hrel Hi1 He. destruct (kept_rely _ _ _ _ HP Hw Hn Hrel) as [Hn1 Hw1]. exists (Some n).
  destruct (HQ w1 Hw1) as [HQ1 HQ2]. destruct He as [[-> ->]|(e & -> & Hs & [->| ->])].
  - split; [by apply write_guar|]. intros _. by split.
  - split; [apply keeps_guar, keeps_refl|]. intros _. split; [done|]. split; [done|]. by apply HQ2.
  - split; [by apply write_guar|]. intros _. split; [done|]. split; [done|]. by apply HQ2.
Qed.
Lemma held_delete n P Q k : kept P -> written P Q (fun st => delete k st) -> held n P Q (ask (DeleteSecret k)).
Proof using Type.
  intros HP HQ w Hi Hn Hw w1 r w2 Hrel Hi1 He. destruct (kept_rely _ _ _ _ HP Hw Hn Hrel) as [Hn1 Hw1]. exists (Some n).
  destruct (HQ w1 Hw1) as [HQ1 HQ2]. destruct He as [[-> ->]|(e & -> & Hs & [->| ->])].
  - split; [by apply write_guar|]. intros _. by split.
  - split; [apply keeps_guar, keeps_refl|]. intros _. split; [done|]. split; [done|]. by apply HQ2.
  - split; [by apply write_guar|]. intros _. split; [done|]. split; [done|]. by apply HQ2.
Qed.

(** How an operation must leave the storage: an error that blocks the storage
    excuses an index that cannot be read, and a rollback that failed excuses a
    credential that is not listed. *)
Definition exit_ok {A} (blocking : js_error -> bool) (r : result A) (w : World) : Prop :=
  (match r with Throw e => blocking e = true | Ok _ => False end \/ blocked w \/ listed (secretStorage w))
  /\ (failed w \/ indexed (secretStorage w)).
Lemma failed_grows w w' : grows w w' -> failed w -> failed w'.
Proof using Type. intros [l E] H. unfold failed. rewrite E. apply elem_of_app. by left. Qed.
Lemma vault_kept : kept vault.
Proof using Type.
  intros w w' E Hg Hb [H1 H2]. unfold CredentialInvariant.vault. rewrite E. split; [destruct H1; [left; auto|by right]|].
  destruct H2; [left; by eapply failed_grows|by right].
Qed.
Lemma exit_kept {A} blocking (r : result A) : kept (exit_ok blocking r).
Proof using Type.
  intros w w' E Hg Hb [H1 H2]. unfold exit_ok. rewrite E. split; [destruct H1 as [?|[?|?]]; auto|].
  destruct H2; [left; by eapply failed_grows|by right].
Qed.

Lemma leave_vault {A} n blocking (r : result A) w : running n w -> exit_ok blocking r w ->
  guar (Some n) w None (snd (leave n blocking r w)) /\ fst (leave n blocking r w) = storage_result r /\ trace (snd (leave n blocking r w)) = trace w.
Proof using Type.
  intros Hn [H1 H2]. unfold leave, set_ticket. destruct r as [a|e]; [|destruct (blocking e) eqn:Hb]; run_method; (split; [|done]).
  - apply (release_guar w n (controller w)); try done. split; [by destruct H1 as [[]|?]|done].
  - apply (release_guar w n (with_storageBlocked true (controller w))); try done. split; [by left|done].
  - apply (release_guar w n (controller w)); try done. split; [by destruct H1 as [?|?]|done].
Qed.

Lemma fine_in_queue {A} (Q : A -> World -> Prop) w blocking (op : prog A) : inv w -> kept_by_trace Q ->
  (forall n, held n vault (fun r w => exit_ok blocking r w /\ forall a, r = Ok a -> Q a w) op) -> fine_from Q w (in_queue blocking op).
Proof using Type.
  intros Hi HQ Hop. destruct (take_guar w) as (Hg & Hr & Hq). set (w1 := snd (takeTicket w)) in *.
  destruct (inv_queue _ _ _ _ Hi) as [_ Hlast _]. eexists. split; [exact Hg|]. intros Hi1. rewrite Hr. cbn [fst snd].
  set (n := storageQueue (controller w)) in *. rewrite <- Hlast in *. apply safe_bind. intros w2 [] Hrel Hi2 Hready.
  destruct Hrel as (_ & Hq2 & _). assert (Hn : queue w2 !! S n = Some Queued).
  { trans (queue w1 !! S n); [exact Hq2|]. rewrite Hq, Hlast. by rewrite lookup_app_r, Nat.sub_diag by lia. }
  assert (Hp : queue w2 !! n = Some Released).
  { unfold released in Hready. cbn [fst] in Hready. fold n in Hready. destruct (queue w2 !! n) as [[]|]; try discriminate Hready. reflexivity. }
  destruct (enter_guar w2 n Hn Hp) as (Hg2 & Hrun & Hv). exists (Some (S n)). split; [exact Hg2|]. intros Hi3.
  change (safe (Async.bind op (fun r => sync (leave (S n) blocking r))) (Some (S n)) (fun r t w' => t = None /\ forall a, r = Ok a -> Q a w')
    (snd (set_ticket (S n) Running w2))).
  apply safe_bind. eapply safe_post; [|apply (Hop (S n)); [exact Hi3|exact Hrun|by apply Hv]].
  intros r t w4 (-> & Hn4 & Hex & Hres). destruct (leave_vault (S n) blocking r w4 Hn4 Hex) as (Hg4 & Hf4 & Ht4).
  exists None. split; [exact Hg4|]. intros _. split; [done|]. rewrite Hf4. intros a Ha.
  apply (HQ a w4); [split; [by apply grows_same|done]|]. apply Hres. destruct r; [exact Ha|done].
Qed.

(** A storage that does not change, and what has failed so far. *)
Definition view (f : Prop) (st : gmap string string) (w : World) : Prop := secretStorage w = st /\ (f -> failed w).
Lemma view_kept f st : kept (view f st).
Proof using Type. intros w w' E Hg _ [H1 H2]. split; [congruence|]. intros Hf. by eapply failed_grows, H2. Qed.
Local Abbreviation good := (good hashText json_parse).
Lemma view_exit {A} f st blocking (r : result A) w : good f st -> view f st w -> exit_ok blocking r w.
Proof using Type.
  intros [H1 H2]%good_iff [Hs Hf]. unfold exit_ok. rewrite Hs. split; [by right; right|]. destruct H2; [left; auto|by right].
Qed.
Definition good_now (w : World) : Prop := good (failed w) (secretStorage w).
Lemma held_view {A} n (Q : result A -> World -> Prop) p : (forall f st, good f st -> held n (view f st) Q p) -> held n good_now Q p.
Proof using Type. intros H w Hi Hn Hg. by apply (H (failed w) (secretStorage w)). Qed.

Lemma fine_serialize {A} (Q : A -> World -> Prop) w (op : prog A) : inv w -> kept_by_trace Q ->
  (forall n f st, good f st -> held n (view f st) (fun r w => exit_ok blocks r w /\ forall a, r = Ok a -> Q a w) op) ->
  fine_from Q w (serializeStorage op).
Proof using Type.
  intros Hi HQ Hop. apply fine_in_queue; [done|done|]. intros n.
  eapply (held_then n _ (fun r w => match r with Ok _ => good_now w | Throw e => exit_ok blocks (Throw e : result A) w end)).
  - apply held_sync. intros w0 Hi0 [H1 H2]. unfold refuse_blocked. run_method.
    destruct (storageBlocked (controller w0)) eqn:Hb; cbn [fst snd]; (split; [apply keeps_refl|]).
    + split; [by left|done].
    + apply good_iff. split; [|done]. destruct H1 as [H1|H1]; [|done]. unfold blocked in H1. congruence.
  - intros _. apply held_await; [|apply held_view; intros f st; apply Hop].
    intros r w1 w2 E Hg Hb [He Hq]. split; [by eapply exit_kept|]. intros a Ha. eapply HQ; [split; [exact Hg|done]|auto].
  - done.
Qed.
Lemma fine_cleanup {A} (Q : A -> World -> Prop) w (op : prog A) : inv w -> kept_by_trace Q ->
  (forall n, held n vault (fun r w => exit_ok (fun _ => true) r w /\ forall a, r = Ok a -> Q a w) op) ->
  fine_from Q w (serializeCleanup op).
Proof using Type.
  intros Hi HQ Hop. apply fine_in_queue; [done|done|]. intros n. apply held_await; [|apply Hop].
  intros r w1 w2 E Hg Hb [He Hq]. split; [by eapply exit_kept|]. intros a Ha. eapply HQ; [split; [exact Hg|done]|auto].
Qed.
End Logic.
