(* ===== verification/CredentialSafe.v ===== *)
(** Every method of the credential controller keeps the invariant: the readers and
    the acquisition of credentials, settlements with their rollbacks, the
    credentials of version 1, requests and clearing. *)

From Stdlib Require Import ZArith Lia Ascii String List.
From stdpp Require Import base option list gmap strings.
From S2P Require Import Prelude JsString JsMap JsValue RemoteTypes Async CredentialTypes CredentialController CredentialInvariant CredentialLogic.

Local Open Scope string_scope.

Section Safe.
Context (hashText : string -> string) (createId_ : nat -> string) (json_parse : string -> option js_value) (json_stringify : js_value -> string).
Context (createId_inj : forall i j, createId_ i = createId_ j -> i = j)
  (hash_ok : forall s, isHash (hashText s) = true)
  (json_round : forall v, json_ok v = true -> json_parse (json_stringify v) = Some v).
Local Abbreviation inv := (inv hashText createId_ json_parse).
Local Abbreviation keeps := (keeps hashText createId_ json_parse).
Local Abbreviation fine := (Async.fine answers None inv rely (guar hashText createId_ json_parse)).
Local Abbreviation fine_from := (Async.fine_from answers None inv rely (CredentialInvariant.guar hashText createId_ json_parse)).
Local Abbreviation held := (held hashText createId_ json_parse).
Local Abbreviation exit_ok := (exit_ok hashText json_parse).
Local Abbreviation good := (good hashText json_parse).
Local Abbreviation vault_entries := (vault_entries hashText json_parse).
Local Abbreviation lease_ok := (lease_ok hashText).

(** ** Reading the storage *)
Lemma view_and_kept f st (P : Prop) : kept (fun w => view f st w /\ P).
Proof using Type. intros w w' E Hg Hb [H HP]. split; [by eapply view_kept|done]. Qed.
(** A reader leaves the storage alone, and tells the truth. *)
Definition reads {A} (f : Prop) (st : gmap string string) (P : A -> Prop) (r : result A) (w : World) : Prop :=
  view f st w /\ match r with Ok a => P a | Throw _ => True end.
Lemma reads_kept {A} f st (P : A -> Prop) r : kept (reads f st P r).
Proof using Type. apply view_and_kept. Qed.

Lemma held_get_view n f st key : held n (view f st) (reads f st (fun o => o = st !! key)) (await (ask (GetSecret key))).
Proof using Type.
  apply held_await; [apply reads_kept|]. eapply held_conseq; [exact (fun w H => H)| |apply held_get, view_kept].
  intros r w [Hv Hr]. split; [done|]. destruct r; [|done]. by destruct Hv as [<- _].
Qed.
Lemma held_checked {A} n f st (r : result A) (P : A -> Prop) : (forall a, r = Ok a -> P a) -> held n (view f st) (reads f st P) (checked r).
Proof using Type.
  intros HP. unfold checked. destruct r as [a|e]; cbn [storage_result].
  - apply held_done. intros w Hw. split; [done|]. by apply HP.
  - eapply (held_then _ _ _ n _ (fun _ => view f st)); [|intros _; by apply held_done|by split].
    apply held_sync. intros w Hi Hw. run_method. split; [apply keeps_block|]. eapply view_kept; [..|exact Hw]; [done|by apply grows_same|done].
Qed.
Lemma held_readV2Index n f st : held n (view f st) (reads f st (fun es => vault_entries st = Some es)) (readV2Index hashText json_parse).
Proof using Type.
  unfold readV2Index. eapply held_then; [apply held_get_view| |by intros e w [H _]].
  intros [raw|]; apply held_pure; intros Hraw.
  - apply held_checked. intros es Hes. unfold CredentialInvariant.vault_entries. by rewrite <- Hraw, Hes.
  - apply held_done. intros w Hw. split; [done|]. unfold CredentialInvariant.vault_entries. by rewrite <- Hraw.
Qed.
Lemma mapM_legacy items keys : mapM legacy_key items = Some keys -> legacy_keys keys.
Proof using Type.
  intros H. apply mapM_Some_1 in H. apply Forall_forall. intros k Hk. apply list_elem_of_lookup in Hk as [i Hi].
  destruct (Forall2_lookup_r _ _ _ _ _ H Hi) as (v & _ & Hv). unfold legacy_key in Hv. destruct v; try done. case_match eqn:E; [|done].
  by injection Hv as <-.
Qed.
Lemma parse_legacy_ok raw keys : parseLegacyIndex json_parse raw = Ok keys -> legacy_keys keys.
Proof using Type.
  unfold parseLegacyIndex. intros (v & _ & H)%bind_ok. apply bind_ok in H as (u & _ & H). destruct (array_of _) as [items|]; [|done].
  destruct (mapM legacy_key items) as [ks|] eqn:E; [|done]. apply bind_ok in H as (u' & _ & [= <-]). by eapply mapM_legacy.
Qed.
Lemma held_readLegacyIndex n f st : held n (view f st) (reads f st legacy_keys) (readLegacyIndex json_parse).
Proof using Type.
  unfold readLegacyIndex. eapply held_then; [apply held_get_view| |by intros e w [H _]].
  intros [raw|]; apply held_pure; intros Hraw.
  - apply held_checked. intros es Hes. by eapply parse_legacy_ok.
  - apply held_done. intros w Hw. split; [done|constructor].
Qed.
Definition stored_for (metadata : CredentialIndexEntry) (x : js_value * StoredCredential) : Prop :=
  stored_username (snd x) = entry_username metadata /\ isValidSecret (stored_secret (snd x)) = true.
Lemma parse_stored_ok metadata raw x : parseStoredCredential json_parse metadata raw = Ok x -> stored_for metadata x.
Proof using Type.
  unfold parseStoredCredential. intros (v & _ & H)%bind_ok. apply bind_ok in H as (u & _ & H).
  destruct (field v "secret") as [[| | |s| |]|]; try done. destruct (field v "generation") as [[| | |g| |]|]; try done.
  apply bind_ok in H as (u' & Hr & [= <-]). apply require_ok in Hr. apply andb_prop in Hr as [? ?]. by split.
Qed.
Lemma held_readStored n f st metadata :
  held n (view f st) (reads f st (stored_for metadata)) (readStoredCredential json_parse metadata).
Proof using Type.
  unfold readStoredCredential. eapply held_then; [apply held_get_view| |by intros e w [H _]].
  intros [raw|]; apply held_pure; intros Hraw.
  - apply held_checked. intros x Hx. by eapply parse_stored_ok.
  - eapply (held_then _ _ _ n _ (fun _ => view f st)); [|intros _; by apply held_done|by split].
    apply held_sync. intros w Hi Hw. run_method. split; [apply keeps_block|]. eapply view_kept; [..|exact Hw]; [done|by apply grows_same|done].
Qed.

(** An operation that only reads leaves the queue as it should. *)
Lemma held_reads_exit {A} n f st (P : A -> Prop) (p : prog A) : good f st -> held n (view f st) (reads f st P) p ->
  held n (view f st) (fun r w => exit_ok blocks r w /\ forall a, r = Ok a -> always P a w) p.
Proof using Type.
  intros Hg Hp. eapply held_conseq; [exact (fun w H => H)| |exact Hp]. intros r w [Hv Hr]. split; [by eapply view_exit|].
  by intros a ->.
Qed.
Lemma held_reads_then {A B} n f st (P : A -> Prop) (P' : B -> Prop) (p : prog A) (k : A -> prog B) :
  held n (view f st) (reads f st P) p -> (forall a, P a -> held n (view f st) (reads f st P') (k a)) ->
  held n (view f st) (reads f st P') (x <~ await p; k x).
Proof using Type.
  intros Hp Hk. eapply held_then; [apply held_await; [apply reads_kept|exact Hp]| |by intros e w [H _]].
  intros a. apply held_pure. apply Hk.
Qed.
Lemma held_createId {A} n f st (P : A -> Prop) (k : string -> prog A) : (forall id, held n (view f st) (reads f st P) (k id)) ->
  held n (view f st) (reads f st P) (id <~ sync (createId createId_); k id).
Proof using Type.
  intros Hk. eapply (held_then _ _ _ n _ (fun _ => view f st)); [|exact Hk|by split].
  apply held_sync. intros w Hi Hw. split; [apply createId_keeps|]. eapply view_kept; [..|exact Hw]; [done|by apply grows_same|done].
Qed.

(** ** Acquiring *)
Definition available_ok (o : option AcquiredCredential) : Prop := match o with Some a => acquired_ok a | None => True end.
Definition outcome_ok (a : acquisition) : Prop := match a with inl a => acquired_ok a | inr _ => True end.

Lemma from_stored_ok s source id : stored_ok s -> acquired_ok (acquiredFromStored s source id).
Proof using Type. by intros [? ?]. Qed.
Lemma find_entry_ok key es e : find_entry key es = Some e -> e ∈ es /\ entry_storageKey e = key.
Proof using Type.
  unfold find_entry. intros H. apply find_some in H as [Hin He]. split; [by apply list_elem_of_In|]. by apply bool_decide_eq_true_1 in He.
Qed.
Lemma vault_names st es e : vault_entries st = Some es -> e ∈ es -> username_ok (entry_username e).
Proof using Type. intros H He. destruct (vault_each _ _ _ _ H) as [Hok _]. rewrite Forall_forall in Hok. by destruct (Hok e He). Qed.

Lemma fine_readAvailable w authorityHash name : inv w ->
  fine_from (always available_ok) w (readAvailableCredential hashText createId_ json_parse authorityHash name).
Proof using Type.
  intros Hi. unfold readAvailableCredential. eapply (fine_then (fun o w => match o with Some s => stored_ok s | None => True end)); [done| |].
  - apply fine_read; [done|]. destruct (map_get _ _) as [s|] eqn:Hs; [|done]. apply map_get_Some_value in Hs.
    eapply Forall_forall; [exact (inv_sessions _ _ _ _ Hi)|done].
  - intros [s|] w1 Hi1 Hs.
    + eapply (fine_then any); [done| |intros id w2 _ _; apply fine_ret; by apply from_stored_ok].
      apply fine_sync; [|done]. intros _. split; [apply createId_keeps|done].
    + apply fine_await; [done|apply always_kept|]. apply fine_serialize; [done|apply always_kept|]. intros n f st Hg.
      apply held_reads_exit; [done|]. eapply held_reads_then; [apply held_readV2Index|]. intros es Hes.
      destruct (find_entry _ es) as [md|] eqn:Hmd; [|by apply held_done].
      case_match; [by apply held_done|]. eapply held_reads_then; [apply held_readStored|]. intros [v stored] (Hu & Hsec).
      apply held_createId. intros id. apply held_done. intros w2 Hw2. split; [done|]. apply from_stored_ok.
      apply find_entry_ok in Hmd as [Hin _]. split; [|done]. rewrite Hu. exact (vault_names _ _ _ Hes Hin).
Qed.
Lemma fine_readAccounts w authorityHash : inv w -> fine_from any w (readAccounts hashText json_parse authorityHash).
Proof using Type.
  intros Hi. unfold readAccounts. apply fine_await; [done|apply any_kept|]. apply fine_serialize; [done|apply any_kept|]. intros n f st Hg.
  eapply held_conseq; [exact (fun w H => H)| |apply (held_reads_exit n f st (fun _ => True)); [done|]].
  - intros r w1 [H _]. by split.
  - eapply held_reads_then; [apply held_readV2Index|]. intros es Hes.
    eapply (held_then _ _ _ n _ (fun _ => view f st)); [|intros ss; by apply held_done|by split].
    apply held_sync. intros w1 _ Hw1. split; [apply keeps_refl|done].
Qed.

Lemma fine_remaining w request deadline (Q : option CredentialRequest -> World -> Prop) : (forall o w, Q o w) -> inv w ->
  fine_from Q w (sync (requestWithRemainingTimeout request deadline)).
Proof using Type. intros HQ Hi. apply fine_sync; [|done]. intros _. split; [apply keeps_refl|]. intros; apply HQ. Qed.
Lemma fine_ui w deadline q : inv w -> (forall w r w', answers q w r w' -> w' = w) -> fine_from any w (await (withDeadline deadline (ask q))).
Proof using Type.
  intros Hi Hq. apply fine_await; [done|apply any_kept|]. eapply fine_weaken; [|apply fine_deadline; [apply any_kept|by apply fine_ask]]. done.
Qed.
Lemma fine_prompted w name s intent base : inv w -> username_ok name -> isValidSecret s = true ->
  fine_from (always outcome_ok) w (sync (prompted createId_ name s intent base)).
Proof using Type.
  intros Hi Hn Hs. apply fine_sync; [|done]. intros _. unfold prompted, createId. run_method. split.
  - eapply keeps_trans; [apply (createId_keeps hashText createId_)|]. apply (createId_keeps hashText createId_ json_parse (with_ids (S (ids w)) w)).
  - intros a _ [= <-]. by split.
Qed.
Lemma fine_promptForSecret w request deadline name base : inv w -> username_ok name ->
  fine_from (always outcome_ok) w (promptForSecret hashText createId_ request deadline name base).
Proof using Type.
  intros Hi Hn. unfold promptForSecret. eapply fine_then; [done|by apply (fine_remaining _ _ _ any)|]. intros [sr|] w1 Hi1 _; [|by apply fine_ret].
  eapply fine_then; [done|by apply fine_ui|]. intros [[s|]|] w2 Hi2 _; [|by apply fine_ret..].
  destruct (isValidSecret s) eqn:Hs; cbn [negb]; [|by apply fine_ret]. case_match; [by apply fine_prompted|].
  eapply fine_then; [done|by apply (fine_remaining _ _ _ any)|]. intros [pr|] w3 Hi3 _; [|by apply fine_ret].
  eapply fine_then; [done|by apply fine_ui|]. intros [[i|]|] w4 Hi4 _; [|by apply fine_ret..]. by apply fine_prompted.
Qed.

Lemma fine_runPromptFlight w request deadline authorityHash key factory : inv w -> fine (always outcome_ok) factory ->
  fine_from (always outcome_ok) w (runPromptFlight hashText request deadline authorityHash key factory).
Proof using Type.
  intros Hi Hf. apply fine_until; [done|apply always_kept|]. intros w0 Hi0. unfold prompt_round.
  assert (Hprom : forall w i, fine_from (always outcome_ok) w (promise promptPromises i)).
  { intros w1 i. apply fine_promise. intros w2 a Hi2 Ha. pose proof (inv_prompts _ _ _ _ Hi2) as Hp.
    eapply Forall_lookup_1 in Hp; [|exact Ha]. by destruct a. }
  eapply (fine_then any); [done|by apply fine_read|]. intros [[k i]|] w1 Hi1 _.
  - eapply fine_then; [done| |].
    + apply fine_await; [done| |apply fine_deadline; [apply always_kept|apply Hprom]]. by intros [a|] w2 w3 _ H.
    + intros [r|] w2 Hi2 Hr; [|by apply fine_ret]. case_match; by apply fine_ret.
  - eapply (fine_then any); [done| |].
    + eapply (fine_start _ _ _ (always outcome_ok)); [| |done].
      * intros w2. apply keeps_prompts. intros Hi2. apply Forall_app. split; [exact (inv_prompts _ _ _ _ Hi2)|by constructor].
      * intros w2 i r _ Hr. apply keeps_prompts. intros Hi2. apply Forall_insert; [exact (inv_prompts _ _ _ _ Hi2)|].
        destruct r as [a|]; [|done]. specialize (Hr a eq_refl). by destruct a.
    + intros i w2 Hi2 _. eapply (fine_then any); [done| |].
      * apply fine_sync; [|done]. intros _. run_method. split; [by apply keeps_minor|done].
      * intros [] w3 Hi3 _. eapply fine_then; [done| |].
        -- apply fine_finally; [done|apply always_kept| |apply Hprom]. intros w4. run_method. case_match; by apply keeps_minor.
        -- intros a w4 _ Ha. by apply fine_ret.
Qed.
Lemma fine_stored_or_prompt w request authorityHash deadline name : inv w -> username_ok name ->
  fine_from (always outcome_ok) w (stored_or_prompt hashText createId_ json_parse request authorityHash deadline name).
Proof using Type.
  intros Hi Hn. eapply fine_then; [done|apply fine_await; [done|apply always_kept|by apply fine_readAvailable]|].
  intros [a|] w1 Hi1 Ha; [by apply fine_ret|]. apply fine_await; [done|apply always_kept|by apply fine_promptForSecret].
Qed.

Definition request_ok (request : CredentialRequest) : Prop :=
  match req_account request with FixedAccount name => username_ok name | ChooseForeground => True end.

Lemma fine_acquireInitial w request authorityHash deadline : inv w -> request_ok request ->
  fine_from (always outcome_ok) w (acquireInitial hashText createId_ json_parse request authorityHash deadline).
Proof using Type.
  intros Hi Hreq. unfold acquireInitial, request_ok in *. destruct (req_account request) as [name|].
  - case_match.
    + eapply fine_then; [done|apply fine_await; [done|apply always_kept|by apply fine_readAvailable]|].
      intros [a|] w1 Hi1 Ha; by apply fine_ret.
    + apply fine_await; [done|apply always_kept|]. apply fine_runPromptFlight; [done|]. intros w1 Hi1. by apply fine_stored_or_prompt.
  - case_match; [by apply fine_ret|]. apply fine_await; [done|apply always_kept|]. apply fine_await; [done|apply always_kept|].
    apply fine_runPromptFlight; [done|]. intros w1 Hi1.
    eapply (fine_then any); [done|apply fine_await; [done|apply any_kept|by apply fine_readAccounts]|]. intros accounts w2 Hi2 _.
    eapply fine_then; [done|by apply (fine_remaining _ _ _ any)|]. intros [ui|] w3 Hi3 _; [|by apply fine_ret].
    eapply fine_then; [done|by apply fine_ui|]. intros [[s|]|] w4 Hi4 _; [|by apply fine_ret..].
    destruct (normalizeUsername _) as [name|] eqn:Hn; [|apply fine_throw]. apply normalize_ok in Hn as [_ Hn]. by apply fine_stored_or_prompt.
Qed.
Lemma fine_acquireRetry w request authorityHash previous deadline : inv w ->
  fine_from (always outcome_ok) w (acquireRetry hashText createId_ request authorityHash previous deadline).
Proof using Type.
  intros Hi. unfold acquireRetry.
  eapply (fine_then (fun o w => o = map_get (tombstones (controller w)) previous)); [done|by apply fine_read|].
  intros [t|] w1 Hi1 Ht; [|by apply fine_ret]. destruct (negb (retryable _ _ _)); [by apply fine_ret|].
  case_match; [by apply fine_ret|]. case_match; [by apply fine_ret|].
  assert (Hn : username_ok (tomb_username t)) by by apply (tombstone_ok _ _ _ _ _ (inv_leases _ _ _ _ Hi1) previous).
  eapply (fine_then any); [done| |].
  - apply fine_sync; [|done]. intros _. run_method. split; [by apply consume_keeps|done].
  - intros [] w2 Hi2 _. apply fine_await; [done|apply always_kept|]. apply fine_await; [done|apply always_kept|].
    apply fine_runPromptFlight; [done|]. intros w3 Hi3. apply fine_await; [done|apply always_kept|by apply fine_promptForSecret].
Qed.

(** ** Requests *)
Lemma current_open op epoch w : fst (operationRequestCurrent op epoch w) = Ok true ->
  exists st, map_get (operationRequests (controller w)) op = Some st /\ op_closed st = false.
Proof using Type.
  unfold operationRequestCurrent. run_method. destruct (map_get _ op) as [st|] eqn:Hst; [|done].
  intros [= H]. apply andb_prop in H as [_ H%negb_true_iff]. eauto.
Qed.
Lemma finishRequest_keeps w request operationEpoch epoch deadline authorityHash acquired :
  isHash authorityHash = true -> match acquired with Some a => outcome_ok a | None => True end ->
  keeps w (snd (finishRequest hashText createId_ request operationEpoch epoch deadline authorityHash acquired w)).
Proof using createId_inj.
  intros Hh Ha. unfold finishRequest. destruct acquired as [[a|r]|]; [|apply keeps_refl..].
  pose proof (current_open (req_operationId request) operationEpoch w) as Hcur.
  unfold then_do at 1, mbind, method_bind. unfold operationRequestCurrent, state, get in *. cbn [fst snd] in *.
  destruct (match map_get _ _ with Some _ => _ | None => _ end) eqn:Hc; cbn [negb]; [|apply keeps_refl].
  specialize (Hcur eq_refl). unfold this, workspaceTrusted, now. unfold then_do at 1 2, get, mbind, method_bind. cbn beta iota.
  destruct (disposed (controller w)) eqn:Hd; cbn [orb negb andb]; [apply keeps_refl|].
  destruct (trusted w) eqn:Ht; cbn [orb negb andb].
  - destruct (Nat.eqb_spec (connectionEpoch (controller w)) epoch) as [He|He]; cbn [negb]; [|apply keeps_refl].
    unfold then_do at 1, mbind, method_bind. cbn beta iota. destruct (deadline <=? clock w)%Z; [apply keeps_refl|].
    by apply issueLease_keeps.
  - unfold then_do at 1, mbind, method_bind.
    pose proof (invalidate_keeps hashText createId_ json_parse w) as Hk. destruct (invalidateBackendConnection w) as [[u|e] w'] eqn:E; exact Hk.
Qed.
Lemma afterLegacy_keeps w request operationEpoch epoch legacy :
  keeps w (snd (afterLegacy hashText request operationEpoch epoch legacy w)).
Proof using Type.
  unfold afterLegacy. unfold then_do at 1, mbind, method_bind. unfold operationRequestCurrent, state, get.
  destruct (match map_get _ _ with Some _ => _ | None => _ end); cbn [negb]; [|apply keeps_refl].
  unfold this, workspaceTrusted. unfold then_do at 1 2, get, mbind, method_bind. cbn beta iota. case_match.
  - unfold then_do at 1, mbind, method_bind. destruct (disposed (controller w)); [apply keeps_refl|].
    pose proof (invalidate_keeps hashText createId_ json_parse w) as Hk. destruct (invalidateBackendConnection w) as [[u|e] w'] eqn:E; exact Hk.
  - destruct legacy as [[[|]|]|]; apply keeps_refl.
Qed.
End Safe.

Local Open Scope string_scope.

Section Settle.
Context (hashText : string -> string) (createId_ : nat -> string) (json_parse : string -> option js_value) (json_stringify : js_value -> string).
Context (createId_inj : forall i j, createId_ i = createId_ j -> i = j)
  (hash_ok : forall s, isHash (hashText s) = true)
  (json_round : forall v, json_ok v = true -> json_parse (json_stringify v) = Some v).
Local Abbreviation inv := (inv hashText createId_ json_parse).
Local Abbreviation keeps := (keeps hashText createId_ json_parse).
Local Abbreviation fine := (Async.fine answers None inv rely (guar hashText createId_ json_parse)).
Local Abbreviation fine_from := (Async.fine_from answers None inv rely (CredentialInvariant.guar hashText createId_ json_parse)).
Local Abbreviation held := (held hashText createId_ json_parse).
Local Abbreviation exit_ok := (exit_ok hashText json_parse).
Local Abbreviation good := (good hashText json_parse).
Local Abbreviation vault_entries := (vault_entries hashText json_parse).
Local Abbreviation lease_ok := (lease_ok hashText).
Local Abbreviation rolled_back := (rolled_back json_stringify).

(** ** Writes and rollbacks *)
Definition changed (f : Prop) (st st' : gmap string string) (r : result unit) (w : World) : Prop :=
  match r with Ok _ => view f st' w | Throw e => storage_error e /\ (view f st w \/ view f st' w) end.
Lemma changed_kept f st st' r : kept (changed f st st' r).
Proof using Type.
  intros w w' E Hg Hb. destruct r as [[]|e]; cbn; [by apply view_kept|].
  intros [He [H|H]]; (split; [done|]); [left|right]; by eapply view_kept.
Qed.
Lemma view_write f st st' w : view f st w -> view f st' (with_secretStorage st' w).
Proof using Type. by intros [_ H]. Qed.
Lemma held_put n f st k v : held n (view f st) (changed f st (<[k := v]> st)) (await (ask (StoreSecret k v))).
Proof using Type.
  apply held_await; [apply changed_kept|]. apply held_store; [apply view_kept|]. intros w Hw. destruct Hw as [<- Hf].
  split; [by split|]. intros e He. split; (split; [done|]); [left|right]; by split.
Qed.
Lemma held_del n f st k : held n (view f st) (changed f st (delete k st)) (await (ask (DeleteSecret k))).
Proof using Type.
  apply held_await; [apply changed_kept|]. apply held_delete; [apply view_kept|]. intros w Hw. destruct Hw as [<- Hf].
  split; [by split|]. intros e He. split; (split; [done|]); [left|right]; by split.
Qed.
Definition undone (f : Prop) (st' : gmap string string) (r : result unit) (w : World) : Prop :=
  match r with Ok _ => view f st' w | Throw _ => True end.
Lemma undone_kept f st r : kept (undone f st r).
Proof using Type. intros w w' E Hg Hb. destruct r as [[]|e]; cbn; [by apply view_kept|done]. Qed.
Lemma held_undo n f st st' (p : prog unit) : held n (view f st) (changed f st st') p -> held n (view f st) (undone f st') p.
Proof using Type. apply held_conseq; [done|]. intros r w H. destruct r; [exact H|exact I]. Qed.
Lemma held_undo_then n f st st1 st2 (p q : prog unit) : held n (view f st) (undone f st1) p -> held n (view f st1) (undone f st2) q ->
  held n (view f st) (undone f st2) (_ <~ p; q).
Proof using Type. intros Hp Hq. eapply held_then; [exact Hp|intros []; exact Hq|done]. Qed.
Lemma held_when n f st st' (b : bool) (p : prog unit) : held n (view f st) (undone f st') p ->
  held n (view f st) (undone f (if b then st' else st)) (when b p).
Proof using Type. intros Hp. destruct b; [done|]. by apply held_done. Qed.

Definition mutation_ok (m : StorageMutation) : Prop :=
  match m with RestoreSession _ (Some s) => stored_ok s | _ => True end.

Lemma held_store_all n f snapshots deleted : forall st, held n (view f st) (undone f (restore_all snapshots deleted st)) (store_all snapshots deleted).
Proof using Type.
  induction deleted as [|k ks IH]; intros st; cbn [store_all restore_all]; [by apply held_done|].
  eapply held_undo_then; [apply held_undo, held_put|apply IH].
Qed.
Lemma sessions_set w key s : inv w -> stored_ok s -> Forall stored_ok (map_values (map_set (sessionCredentials (controller w)) key s)).
Proof using Type.
  intros Hi Hs. apply Forall_forall. intros x [->|Hx]%elem_of_values_set; [done|].
  eapply Forall_forall; [exact (inv_sessions _ _ _ _ Hi)|done].
Qed.
Lemma sessions_delete w key : inv w -> Forall stored_ok (map_values (map_delete (sessionCredentials (controller w)) key)).
Proof using Type.
  intros Hi. apply Forall_forall. intros x Hx. unfold map_values, map_delete in Hx. apply list_elem_of_fmap in Hx as (p & -> & Hp).
  apply list_elem_of_In, filter_In in Hp as [Hp _]. eapply Forall_forall; [exact (inv_sessions _ _ _ _ Hi)|].
  apply list_elem_of_fmap. exists p. split; [done|]. by apply list_elem_of_In.
Qed.
Lemma held_rollback n f st m : mutation_ok m -> held n (view f st) (undone f (rolled_back m st)) (rollback json_stringify m).
Proof using Type.
  intros Hm. destruct m as [|key cur|key prev a|key prev a b|key pc pi a b|snaps cur del b]; cbn [rollback CredentialLogic.rolled_back].
  - by apply held_done.
  - apply held_sync. intros w Hi Hw. run_method. split.
    + apply keeps_sessions. intros _. destruct cur; [by apply sessions_set|by apply sessions_delete].
    + eapply view_kept; [..|exact Hw]; [done|by apply grows_same|done].
  - apply held_when, held_undo, held_put.
  - eapply held_undo_then; [apply held_when, held_undo, held_del|]. apply held_when, held_undo. destruct prev; [apply held_put|apply held_del].
  - eapply held_undo_then; [apply held_when, held_undo, held_put|]. apply held_when, held_undo, held_put.
  - eapply held_undo_then; [apply held_store_all|]. apply held_when, held_undo, held_put.
Qed.

(** A rollback restores, or blocks the storage and says so. *)
Lemma held_rollbackMutation n f st m : mutation_ok m ->
  held n (view f st) (fun r w => match r with Ok _ => view f (rolled_back m st) w | Throw e => blocked w /\ failed w end)
    (rollbackMutation json_stringify m).
Proof using Type.
  intros Hm. unfold rollbackMutation, catch. eapply held_bind; [apply held_await; [apply undone_kept|by apply held_rollback]|].
  intros [[]|e]; [by apply held_done|].
  eapply (held_then _ _ _ n _ (fun r w => match r with Ok _ => blocked w | Throw _ => False end)); [|intros []|done].
  - apply held_sync. intros w Hi _. run_method. split; [apply keeps_block|done].
  - eapply (held_then _ _ _ n _ (fun _ w => blocked w /\ failed w)); [|intros []; by apply held_done|done].
    apply held_sync. intros w Hi Hb. run_method. split; [by apply keeps_event|]. split; [exact Hb|].
    apply elem_of_app. right. by apply list_elem_of_singleton.
Qed.
Lemma failed_exit {A} w e : blocked w -> failed w -> exit_ok blocks (Throw e : result A) w.
Proof using Type. intros Hb Hf. split; [right; by left|by left]. Qed.

(** Where a rollback would leave the storage as it should be. *)
Definition undoable (f : Prop) (m : StorageMutation) (w : World) : Prop := exists st, view f st w /\ good f (rolled_back m st).
Lemma undoable_kept f m : kept (undoable f m).
Proof using Type. intros w w' E Hg Hb (st & H1 & H2). exists st. split; [by eapply view_kept|done]. Qed.
Lemma held_ex {A X} n (P : X -> World -> Prop) (Q : result A -> World -> Prop) p :
  (forall x, held n (P x) Q p) -> held n (fun w => exists x, P x w) Q p.
Proof using Type. intros H w Hi Hn [x Hx]. by apply (H x). Qed.
Lemma held_undo_throw {A} n f m e : mutation_ok m ->
  held n (undoable f m) (fun r w => exit_ok blocks (r : result A) w /\ forall a, r <> Ok a)
    (_ <~ await (rollbackMutation json_stringify m); throw e).
Proof using Type.
  intros Hm. apply held_ex. intros st. apply held_pure. intros Hg.
  eapply held_then; [apply held_await; [|by apply held_rollbackMutation]| |].
  - intros [[]|e']; [apply view_kept|]. intros w w' E Hgr Hb [H1 H2]. split; [auto|by eapply failed_grows].
  - intros []. apply held_done. intros w Hw. split; [by eapply view_exit|done].
  - intros e' w [Hb Hf]. split; [by apply failed_exit|done].
Qed.
Lemma held_attempt {A B} n f P (R : A -> World -> Prop) (Q : result B -> World -> Prop) m (p : prog A) (k : A -> prog B) : mutation_ok m ->
  held n P (fun r w => match r with Ok a => R a w | Throw _ => undoable f m w end) p ->
  (forall a, held n (R a) Q (k a)) -> (forall e w, exit_ok blocks (Throw e : result B) w -> Q (Throw e) w) ->
  held n P Q (attempt json_stringify m p k).
Proof using Type.
  intros Hm Hp Hk HQ. eapply held_bind; [exact Hp|]. intros [a|e]; [apply Hk|].
  eapply held_conseq; [exact (fun w H => H)| |by apply held_undo_throw]. intros [b|e'] w [H1 H2]; [by destruct (H2 b)|by apply HQ].
Qed.

(** ** Accepting and rejecting *)
Section Lease.
Context (lease : PendingLease) (deadline : Z) (request : CredentialSettlementRequest) (Hlease : lease_ok lease).
Local Abbreviation key := (lease_storageKey lease).
Local Abbreviation writable := (writable hashText lease deadline request).

(** The storage is as it should be, and would be again after a rollback. *)
Definition mutated (f : Prop) (r : result StorageMutation) (w : World) : Prop :=
  match r with
  | Ok m => mutation_ok m /\ exists st, view f st w /\ good f st /\ good f (rolled_back m st)
  | Throw e => exit_ok blocks (Throw e : result unit) w
  end.
Lemma mutated_kept f r : kept (mutated f r).
Proof using Type.
  intros w w' E Hg Hb. destruct r as [m|e]; cbn; [|by apply exit_kept].
  intros (Hm & st & Hv & H1 & H2). split; [done|]. exists st. split; [by eapply view_kept|done].
Qed.
Lemma no_mutation n f st : good f st -> held n (view f st) (mutated f) (ret NoMutation).
Proof using Type. intros Hg. apply held_done. intros w Hw. split; [done|]. by exists st. Qed.
Lemma done_mutation n f st m : mutation_ok m -> good f st -> good f (rolled_back m st) -> held n (view f st) (mutated f) (ret m).
Proof using Type. intros Hm H1 H2. apply held_done. intros w Hw. split; [done|]. by exists st. Qed.
Lemma throw_mutation f st e w : good f st -> view f st w -> mutated f (Throw e) w.
Proof using Type. intros Hg Hw. cbn. by eapply view_exit. Qed.

Lemma lifecycle_keeps w : keeps w (snd (assertSettlementLifecycle hashText lease request w))
  /\ (fst (assertSettlementLifecycle hashText lease request w) = Ok tt -> snd (assertSettlementLifecycle hashText lease request w) = w
        /\ map_get (pendingLeases (controller w)) (lease_leaseId lease) = Some lease).
Proof using Type.
  assert (E : assertSettlementLifecycle hashText lease request w =
    if disposed (controller w) || negb (trusted w) then (Throw (settlementLifecycleError hashText request), snd (invalidateBackendConnection w))
    else if negb (lease_connectionEpoch lease =? connectionEpoch (controller w))%nat
            || negb (bool_decide (map_get (pendingLeases (controller w)) (lease_leaseId lease) = Some lease))
    then (Throw (leaseError hashText SUBVERSIONR_CREDENTIAL_LEASE_UNKNOWN "error.auth.credentialLeaseUnknown" request), w) else (Ok tt, w)).
  { unfold assertSettlementLifecycle, then_do, mbind, method_bind, inactive, this, get. repeat case_match; done. }
  rewrite E. case_match; [split; [apply invalidate_keeps|intros [=]]|]. case_match eqn:C; (split; [apply keeps_refl|]); [intros [=]|].
  intros _. split; [done|]. apply orb_false_iff in C as [_ C%negb_false_iff]. by apply bool_decide_eq_true_1 in C.
Qed.
Lemma writable_keeps w : keeps w (snd (assertSettlementWritable hashText lease deadline request w))
  /\ (fst (assertSettlementWritable hashText lease deadline request w) = Ok tt ->
        map_get (pendingLeases (controller (snd (assertSettlementWritable hashText lease deadline request w)))) (lease_leaseId lease) = Some lease).
Proof using Type.
  destruct (lifecycle_keeps w) as [Hk Hp]. unfold assertSettlementWritable, then_do, mbind, method_bind.
  destruct (assertSettlementLifecycle hashText lease request w) as [[[]|e] w1]; cbn [fst snd] in *; [|split; [exact Hk|intros [=]]].
  destruct (Hp eq_refl) as [-> Hget]. unfold now, get. case_match; by split.
Qed.
Lemma held_writable n f st : held n (view f st) (fun r w => view f st w
  /\ (r = Ok tt -> map_get (pendingLeases (controller w)) (lease_leaseId lease) = Some lease)) writable.
Proof using Type.
  apply held_sync. intros w Hi Hw. destruct (writable_keeps w) as [Hk Hp]. split; [done|]. split; [|done]. by eapply kept_keeps; [apply view_kept|exact Hk|].
Qed.
Lemma held_check n f st m (k : unit -> prog StorageMutation) : mutation_ok m -> good f (rolled_back m st) ->
  held n (view f st) (mutated f) (k tt) -> held n (view f st) (mutated f) (attempt json_stringify m writable k).
Proof using Type.
  intros Hm Hg Hk. eapply (held_attempt n f _ (fun _ => view f st)); [done| |by intros []|done].
  eapply held_conseq; [exact (fun w H => H)| |apply (held_writable n f st)]. intros [u|e] w [Hv _]; [done|]. by exists st.
Qed.
Lemma held_write n f st st' m (p : prog unit) (k : unit -> prog StorageMutation) : mutation_ok m ->
  good f (rolled_back m st) -> good f (rolled_back m st') -> held n (view f st) (changed f st st') p ->
  held n (view f st') (mutated f) (k tt) -> held n (view f st) (mutated f) (attempt json_stringify m p k).
Proof using Type.
  intros Hm H1 H2 Hp Hk. eapply (held_attempt n f _ (fun _ => view f st')); [done| |by intros []|done].
  eapply held_conseq; [exact (fun w H => H)| |exact Hp]. intros [u|e] w; cbn; [done|]. intros [_ [Hv|Hv]]; eexists; by split.
Qed.

Lemma lease_stored_ok : stored_ok (lease_stored lease).
Proof using Hlease. destruct Hlease as [[? ?] ? ? ?]. by split. Qed.
Lemma held_current n f st :
  held n (view f st) (fun r w => view f st w /\ match r with Ok (Some s) => stored_ok s | _ => True end)
    (sync (state (fun c => map_get (sessionCredentials c) key))).
Proof using Type.
  apply held_sync. intros w Hi Hw. run_method. split; [apply keeps_refl|]. split; [done|].
  destruct (map_get _ _) as [x|] eqn:E; [|done]. apply map_get_Some_value in E. eapply Forall_forall; [exact (inv_sessions _ _ _ _ Hi)|done].
Qed.
Lemma held_session n f st cur (sessions : list (string * StoredCredential) -> list (string * StoredCredential)) : good f st ->
  match cur with Some s => stored_ok s | None => True end ->
  (forall w, inv w -> Forall stored_ok (map_values (sessions (sessionCredentials (controller w))))) ->
  held n (view f st) (mutated f) (_ <~ writable; _ <~ sync (update (fun c => with_sessionCredentials (sessions (sessionCredentials c)) c));
    ret (RestoreSession key cur)).
Proof using Type.
  intros Hg Hcur Hs. eapply (held_then _ _ _ n _ (fun _ => view f st)); [|intros []|intros; by eapply throw_mutation].
  - eapply held_conseq; [exact (fun w H => H)| |apply (held_writable n f st)]. by intros r w [Hv _].
  - eapply (held_then _ _ _ n _ (fun _ => view f st)); [|intros []|intros; by eapply throw_mutation].
    + apply held_sync. intros w Hi Hw. run_method. split; [apply keeps_sessions; intros _; by apply Hs|]. eapply view_kept; [..|exact Hw]; [done|by apply grows_same|done].
    + apply done_mutation; [by destruct cur|done|done].
Qed.
Lemma held_accept_session n f st : good f st -> held n (view f st) (mutated f) (accept_session hashText lease deadline request).
Proof using Hlease.
  intros Hg. eapply held_then; [apply held_current| |intros e w [Hv _]; by eapply throw_mutation].
  intros cur. apply held_pure. intros Hcur. match goal with |- context [if ?b then _ else _] => destruct b end; [|by apply no_mutation].
  apply (held_session n f st cur (fun l => map_set l key (lease_stored lease))); [done|by destruct cur|].
  intros w Hi. apply sessions_set; [done|apply lease_stored_ok].
Qed.
Lemma held_accept_known n f st es metadata : holds_entries hashText json_parse f es st -> metadata ∈ es -> entry_storageKey metadata = key ->
  held n (view f st) (mutated f) (accept_known hashText json_parse json_stringify lease deadline request metadata).
Proof using Type.
  intros Hes Hin Hkey. assert (Hg : good f st) by by exists es. assert (Hput : forall v, good f (<[key := v]> st)).
  { intros v. rewrite <- Hkey. exists es. by apply holds_put. }
  unfold accept_known. eapply held_then; [apply held_await; [apply reads_kept|apply held_readStored]| |intros e w [Hv _]; by eapply throw_mutation].
  intros [raw cur]. apply held_pure. intros _. case_match; [by apply no_mutation|]. case_match; [by apply no_mutation|].
  apply held_check; [done|done|]. eapply held_write; [done|apply Hput| |apply held_put|].
  - cbn. by rewrite insert_insert_eq.
  - apply done_mutation; [done|done|]. cbn. by rewrite insert_insert_eq.
Qed.
Lemma held_accept_new n f st es : holds_entries hashText json_parse f es st -> key ∉ map entry_storageKey es ->
  held n (view f st) (mutated f) (accept_new hashText json_stringify lease deadline request es).
Proof using Hlease hash_ok json_round.
  intros Hes Hkey. assert (Hg : good f st) by by exists es. unfold accept_new.
  destruct (MAX_INDEX_ENTRIES <=? length es)%nat eqn:Hlen; [apply held_done; intros w Hw; by eapply throw_mutation|]. apply Nat.leb_gt in Hlen.
  change (match es with [] => None | _ :: _ => Some (index_text json_stringify es) end) with (index_of json_stringify es).
  assert (Hk : key <> V2_INDEX_KEY) by (apply prefix_not_index; by apply (key_prefix hashText (lease_entry lease)), lease_entry_ok).
  assert (Hundo1 : forall st', (forall k, k <> V2_INDEX_KEY -> st' !! k = st !! k) -> good f (set_index (index_of json_stringify es) st')).
  { intros st' H. eapply good_index; [done|done|exact Hes|]. intros k Hp. left. by apply H, prefix_not_index. }
  assert (Hundo2 : forall st', (forall k, k <> V2_INDEX_KEY -> k <> key -> st' !! k = st !! k) ->
    good f (set_index (index_of json_stringify es) (delete key st'))).
  { intros st' H. eapply good_index; [done|done|exact Hes|]. intros k Hp. destruct (decide (k = key)) as [->|Hne].
    - right. split; [apply lookup_delete_eq|done].
    - left. rewrite lookup_delete_ne by done. apply H; [by apply prefix_not_index|done]. }
  apply held_check; [done|done|]. eapply held_write; [done|by apply Hundo1|apply Hundo1; intros k Hk'; by rewrite lookup_insert_ne|apply held_put|].
  apply held_check; [done|apply Hundo1; intros k Hk'; by rewrite lookup_insert_ne|].
  eapply held_write; [done| | |apply held_put|].
  - apply Hundo2. intros k Hk1 Hk2. by rewrite lookup_insert_ne.
  - apply Hundo2. intros k Hk1 Hk2. by rewrite !lookup_insert_ne.
  - apply done_mutation; [done| |apply Hundo2; intros k Hk1 Hk2; by rewrite !lookup_insert_ne].
    apply (good_new hashText json_parse json_stringify hash_ok json_round f st es (lease_entry lease)); [done|by apply lease_entry_ok|done|done].
Qed.
Lemma held_acceptLease n f st : good f st -> held n (view f st) (mutated f) (acceptLease hashText json_parse json_stringify lease deadline request).
Proof using Hlease hash_ok json_round.
  intros Hg. unfold acceptLease. case_match; [by apply held_accept_session|].
  eapply held_then; [apply held_await; [apply reads_kept|apply held_readV2Index]| |intros e w [Hv _]; by eapply throw_mutation].
  intros es. apply held_pure. intros Hes%(good_at _ _ _ _ _ Hg). destruct (find_entry key es) as [md|] eqn:Hmd.
  - apply find_entry_ok in Hmd as [Hin Hk]. by eapply held_accept_known.
  - apply held_accept_new; [done|]. intros (e & He & Hin)%list_elem_of_fmap. unfold find_entry in Hmd.
    apply list_elem_of_In in Hin. eapply find_none in Hmd; [|exact Hin]. cbn in Hmd. apply bool_decide_eq_false_1 in Hmd. by apply Hmd.
Qed.

Lemma held_reject_session n f st : good f st -> held n (view f st) (mutated f) (reject_session hashText lease deadline request).
Proof using Type.
  intros Hg. eapply held_then; [apply held_current| |intros e w [Hv _]; by eapply throw_mutation].
  intros [cur|]; apply held_pure; intros Hcur; [|by apply no_mutation]. case_match; [|by apply no_mutation].
  apply (held_session n f st (Some cur) (fun l => map_delete l key)); [done|done|]. intros w Hi. by apply sessions_delete.
Qed.
Lemma held_reject_stored n f st : good f st -> held n (view f st) (mutated f) (reject_stored hashText json_parse json_stringify lease deadline request).
Proof using hash_ok json_round.
  intros Hg. unfold reject_stored.
  eapply held_then; [apply held_await; [apply reads_kept|apply held_readV2Index]| |intros e w [Hv _]; by eapply throw_mutation].
  intros es. apply held_pure. intros Hes%(good_at _ _ _ _ _ Hg). destruct (find_entry key es) as [md|] eqn:Hmd; [|by apply no_mutation].
  apply find_entry_ok in Hmd as [Hin Hk].
  eapply held_then; [apply held_await; [apply reads_kept|apply held_readStored]| |intros e w [Hv _]; by eapply throw_mutation].
  intros [raw cur]. apply held_pure. intros _. case_match; [by apply no_mutation|].
  change (List.filter _ es) with (without key es). set (remaining := without key es).
  assert (Hundo1 : forall v st', (forall k, k <> key -> st' !! k = st !! k) -> good f (<[key := v]> st')).
  { intros v st' H'. replace (<[key := v]> st') with (<[key := v]> st); [rewrite <- Hk; exists es; by apply holds_put|].
    apply map_eq. intros k. destruct (decide (k = key)) as [->|Hne]; [by rewrite !lookup_insert_eq|]. rewrite !lookup_insert_ne by done. by rewrite H'. }
  assert (Hundo2 : forall v st', (forall k, k <> V2_INDEX_KEY -> k <> key -> st' !! k = st !! k) ->
    good f (<[V2_INDEX_KEY := index_text json_stringify es]> (<[key := v]> st'))).
  { intros v st' H'. rewrite <- Hk in *. eapply good_unrejected; [done|done|exact Hes|done|]. intros k Hp Hne. apply H'; [by apply prefix_not_index|done]. }
  apply held_check; [done|done|]. eapply held_write; [done|by apply Hundo1| |apply held_del|].
  { apply Hundo1. intros k Hne. by rewrite lookup_delete_ne. }
  apply held_check; [done|apply Hundo1; intros k Hne; by rewrite lookup_delete_ne|].
  assert (Hrej : good f (set_index (index_of json_stringify remaining) (delete key st))).
  { unfold remaining. rewrite <- Hk. by eapply good_rejected. }
  eapply (held_write _ _ _ (set_index (index_of json_stringify remaining) (delete key st))); [done| | | |].
  - apply Hundo2. intros k H1 H2. by rewrite lookup_delete_ne.
  - apply Hundo2. intros k H1 H2. by rewrite set_index_ne, lookup_delete_ne.
  - clearbody remaining. destruct remaining; [apply held_del|apply held_put].
  - apply done_mutation; [done|done|]. apply Hundo2. intros k H1 H2. by rewrite set_index_ne, lookup_delete_ne.
Qed.
Lemma held_rejectLease n f st : good f st -> held n (view f st) (mutated f) (rejectLease hashText json_parse json_stringify lease deadline request).
Proof using hash_ok json_round.
  intros Hg. unfold rejectLease. eapply (held_then _ _ _ n _ (fun _ => view f st)); [|intros accepted|intros; by eapply throw_mutation].
  - apply held_sync. intros w Hi Hw. run_method. split; [apply keeps_refl|done].
  - destruct accepted; [by apply no_mutation|]. destruct (acq_source (lease_acquired lease)); [by apply held_reject_stored|by apply held_reject_session|by apply no_mutation].
Qed.

(** ** The operation of a settlement *)
Definition settled (r : result unit) (w : World) : Prop :=
  exit_ok blocks r w /\ forall a, r = Ok a -> Settled (lease_leaseId lease) (settle_outcome request) ∈ trace w.

Lemma accepted_keeps w x : keeps w (with_controller (with_acceptedGenerations x (controller w)) w).
Proof using Type. by apply keeps_minor. Qed.
Lemma held_settle_catch n f m added e : mutation_ok m -> held n (undoable f m) settled (settle_catch json_stringify lease m added e).
Proof using Type.
  intros Hm. unfold settle_catch.
  eapply (held_then _ _ _ n _ (fun r w => match r with Ok _ => undoable f m w | Throw _ => False end)); [|intros []|done].
  - destruct added; [|by apply held_done]. apply held_sync. intros w Hi Hw. run_method. split; [apply accepted_keeps|].
    eapply undoable_kept; [..|exact Hw]; [done|by apply grows_same|done].
  - eapply held_conseq; [exact (fun w H => H)| |by apply held_undo_throw]. intros r w [H1 H2]. split; [done|]. intros a ->. by destruct (H2 a).
Qed.
(** With nothing to roll back. *)
Lemma held_catch_nothing n e : held n (exit_ok blocks (Throw e : result unit)) settled (settle_catch json_stringify lease NoMutation false e).
Proof using Type.
  set (P := fun (r : result unit) w => match r with Ok _ => exit_ok blocks (Throw e : result unit) w | Throw _ => False end).
  assert (HP : forall r, kept (P r)) by (intros [[]|e']; [apply exit_kept|by intros ? ? ? ? ? []]).
  unfold settle_catch. eapply (held_then _ _ _ n _ P); [by apply held_done|intros []|done].
  eapply (held_then _ _ _ n _ P); [apply held_await; [done|]|intros []; apply held_done; intros w Hw; split; [exact Hw|done]|done].
  unfold rollbackMutation, catch. eapply (held_bind _ _ _ n _ P); [apply held_await; [done|by apply held_done]|].
  intros [[]|e']; [by apply held_done|]. by intros w _ _ [].
Qed.
Lemma held_settle_try {A} n f P (R : A -> World -> Prop) m added (p : prog A) (k : A -> prog unit) : mutation_ok m ->
  held n P (fun r w => match r with Ok a => R a w | Throw _ => undoable f m w end) p ->
  (forall a, held n (R a) settled (k a)) -> held n P settled (settle_try json_stringify lease m added p k).
Proof using Type. intros Hm Hp Hk. eapply held_bind; [exact Hp|]. intros [a|e]; [apply Hk|by apply held_settle_catch]. Qed.

Lemma held_settle_stored n f st : good f st -> held n (view f st) settled (settle_stored hashText json_parse json_stringify lease deadline request).
Proof using Hlease hash_ok json_round.
  intros Hg. unfold settle_stored. eapply (held_settle_try n f _ (fun _ => view f st)); [done| |intros []].
  { eapply held_conseq; [exact (fun w H => H)| |apply (held_writable n f st)]. intros [u|e] w [Hv _]; [done|]. by exists st. }
  eapply held_bind; [apply held_await; [apply mutated_kept|]; case_match; [by apply held_acceptLease|by apply held_rejectLease]|].
  intros [m|e]; [|apply held_catch_nothing]. intros w Hi Hn (Hm & st' & Hv & Hg1 & Hg2). revert w Hi Hn Hv.
  change (held n (view f st') settled (settle_try json_stringify lease m false writable (fun _ =>
    settle_try json_stringify lease m false (sync (addAcceptedGeneration lease request)) (fun added =>
    settle_try json_stringify lease m added (sync (settleLease lease (settle_outcome request))) (fun _ => ret tt))))).
  set (pending := fun w => view f st' w /\ map_get (pendingLeases (controller w)) (lease_leaseId lease) = Some lease).
  eapply (held_settle_try n f _ (fun _ => pending)); [done| |intros []].
  { eapply held_conseq; [exact (fun w H => H)| |apply (held_writable n f st')]. intros [[]|e] w [Hv Hp]; [split; [done|by apply Hp]|]. by exists st'. }
  eapply (held_settle_try n f _ (fun _ => pending)); [done| |intros added].
  { apply held_sync. intros w Hi [Hv Hp]. unfold addAcceptedGeneration, then_do, mbind, method_bind, this, get.
    case_match; (split; [first [apply accepted_keeps|apply keeps_refl]|]); (split; [|exact Hp]);
      (eapply view_kept; [..|exact Hv]; [done|by apply grows_same|done]). }
  eapply (held_settle_try n f _ (fun _ w => settled (Ok tt) w)); [done| |intros []; by apply held_done].
  apply held_sync. intros w Hi [Hv Hp]. destruct (settleLease_keeps hashText createId_ json_parse w lease (settle_outcome request) Hp) as (Hk & Hok & Hth).
  split; [done|]. assert (Hv' : view f st' (snd (settleLease lease (settle_outcome request) w))) by (eapply kept_keeps; [apply view_kept|exact Hk|done]).
  destruct (fst (settleLease lease (settle_outcome request) w)) as [[]|e]; [|by exists st']. split; [eapply view_exit; [exact Hg1|exact Hv']|]. intros _ _. by apply Hok.
Qed.
End Lease.

(** ** Settlements *)
Definition acked (a : CredentialSettlementAck) (w : World) : Prop := acknowledged_ok (trace w) a.
Lemma acked_kept : kept_by_trace acked.
Proof using Type. intros a w w' [[l E] _] H. unfold acked, acknowledged_ok in *. rewrite E. apply elem_of_app. by left. Qed.

Lemma fine_settleCredential w request : inv w -> fine_from acked w (settleCredential hashText json_parse json_stringify request).
Proof using hash_ok json_round.
  intros Hi. unfold settleCredential. eapply (fine_then any); [done|by apply fine_read|]. intros d w1 Hi1 _. destruct d.
  { eapply (fine_then any); [done| |intros; apply fine_throw]. apply fine_sync; [|done]. intros _. split; [apply invalidate_keeps|done]. }
  eapply (fine_then (fun c w => c = controller w)); [done|by apply fine_read|]. intros c w2 Hi2 ->.
  destruct (map_get (pendingLeases (controller w2)) (settle_leaseId request)) as [lease|] eqn:Hp.
  - destruct (pending_ok _ _ _ _ _ (inv_leases _ _ _ _ Hi2) _ _ Hp) as (Hid & _ & Hl & _).
    assert (Hdis : forall e, fine_from acked w2 (_ <~ sync (update (discardLease lease)); throw e)).
    { intros e. eapply (fine_then any); [done| |intros; apply fine_throw]. apply fine_sync; [|done]. intros _. run_method.
      split; [|done]. apply discardLease_keeps. by rewrite Hid. }
    destruct (negb (bool_decide (lease_operationId lease = settle_operationId request))); [apply fine_throw|].
    destruct (negb (lease_connectionEpoch lease =? connectionEpoch (controller w2))%nat); [apply Hdis|].
    eapply (fine_then (fun t w => w = w2)); [done|by apply fine_read|]. intros t w3 Hi3 ->.
    destruct ((lease_expiresAt lease <=? t)%Z && negb (bool_decide (settle_outcome request = TimedOut))); [apply Hdis|].
    destruct (bool_decide (settle_outcome request = Accepted) || bool_decide (settle_outcome request = Rejected)).
    + eapply (fine_then (fun _ w => acked (settlementAck request) w)); [done| |intros [] w4 Hi4 Ha; by apply fine_ret].
      apply fine_await; [done|intros _; apply acked_kept|]. apply fine_serialize; [done|intros _; apply acked_kept|]. intros n f st Hg.
      eapply held_conseq; [exact (fun w H => H)| |by apply held_settle_stored]. intros r w4 [H1 H2]. split; [done|]. intros a Ha.
      specialize (H2 a Ha). by rewrite Hid in H2.
    + eapply (fine_then (fun _ w => w = w2 /\ map_get (pendingLeases (controller w2)) (lease_leaseId lease) = Some lease)); [done| |].
      * apply fine_sync; [|done]. intros _. destruct (lifecycle_keeps lease request w2) as [Hk Hok]. split; [done|]. intros [] _ Ha. by apply Hok.
      * intros [] w4 Hi4 [-> Hp']. destruct (settleLease_keeps hashText createId_ json_parse w2 lease (settle_outcome request) Hp') as (Hk & Hok & _).
        eapply (fine_then (fun _ w => acked (settlementAck request) w)); [done| |intros [] w5 Hi5 Ha; by apply fine_ret].
        apply fine_sync; [|done]. intros _. split; [done|]. intros [] _ Ha. specialize (Hok Ha). by rewrite Hid in Hok.
  - apply fine_sync; [|done]. intros _. unfold acknowledgeTombstone, then_do, mbind, method_bind, this, get.
    destruct (map_get (tombstones (controller w2)) (settle_leaseId request)) as [t|] eqn:Ht; [|split; [apply keeps_refl|intros a _ [=]]].
    case_match; [split; [apply keeps_refl|intros a _ [=]]|]. case_match eqn:Ho; [split; [apply keeps_refl|intros a _ [=]]|].
    split; [apply keeps_refl|]. intros a _ [= <-]. apply negb_false_iff, bool_decide_eq_true_1 in Ho.
    destruct (tombstone_ok _ _ _ _ _ (inv_leases _ _ _ _ Hi2) _ _ Ht) as [Hs _]. rewrite Ho in Hs. exact Hs.
Qed.
Lemma fine_handleCredentialSettlement w request : inv w -> fine_from acked w (handleCredentialSettlement hashText json_parse json_stringify request).
Proof using hash_ok json_round.
  intros Hi. apply fine_until; [done|apply acked_kept|]. intros w0 Hi0. unfold settlement_round.
  assert (Hprom : forall w i, fine_from acked w (promise settlementPromises i)).
  { intros w1 i. apply fine_promise. intros w2 a Hi2 Ha. pose proof (inv_settlements _ _ _ _ Hi2) as Hs. by eapply Forall_lookup_1 in Hs; [|exact Ha]. }
  eapply (fine_then any); [done|by apply fine_read|]. intros [i|] w1 Hi1 _.
  - eapply fine_then; [done|apply Hprom|]. intros a w2 _ _. by apply fine_ret.
  - eapply (fine_then any); [done| |].
    + eapply (fine_start _ _ _ acked); [| |intros w2 Hi2; by apply fine_settleCredential].
      * intros w2. apply keeps_settlements. intros Hi2. apply Forall_app. split; [exact (inv_settlements _ _ _ _ Hi2)|by constructor].
      * intros w2 i r _ Hr. apply keeps_settlements. intros Hi2. apply Forall_insert; [exact (inv_settlements _ _ _ _ Hi2)|].
        destruct r as [a|]; [|done]. by apply (Hr a).
    + intros i w2 Hi2 _. eapply (fine_then any); [done| |].
      * apply fine_sync; [|done]. intros _. run_method. split; [by apply keeps_minor|done].
      * intros [] w3 Hi3 _. eapply fine_then; [done| |].
        -- apply fine_finally; [done|apply acked_kept| |apply Hprom]. intros w4. run_method. case_match; by apply keeps_minor.
        -- intros a w4 _ Ha. by apply fine_ret.
Qed.
End Settle.

Local Open Scope string_scope.

Section Requests.
Context (hashText : string -> string) (createId_ : nat -> string) (json_parse : string -> option js_value) (json_stringify : js_value -> string).
Context (createId_inj : forall i j, createId_ i = createId_ j -> i = j)
  (hash_ok : forall s, isHash (hashText s) = true)
  (json_round : forall v, json_ok v = true -> json_parse (json_stringify v) = Some v).
Local Abbreviation inv := (inv hashText createId_ json_parse).
Local Abbreviation keeps := (keeps hashText createId_ json_parse).
Local Abbreviation guar := (guar hashText createId_ json_parse).
Local Abbreviation fine := (Async.fine answers None inv rely (guar hashText createId_ json_parse)).
Local Abbreviation fine_from := (Async.fine_from answers None inv rely (CredentialInvariant.guar hashText createId_ json_parse)).
Local Abbreviation held := (held hashText createId_ json_parse).
Local Abbreviation exit_ok := (exit_ok hashText json_parse).
Local Abbreviation good := (good hashText json_parse).
Local Abbreviation vault := (vault hashText json_parse).
Local Abbreviation vault_entries := (vault_entries hashText json_parse).
Local Abbreviation indexed := (indexed hashText json_parse).
Local Abbreviation listed := (listed hashText json_parse).

(** ** Credentials of version 1 *)
Section Legacy.
Context (request : CredentialRequest) (deadline : Z) (epoch operationEpoch : nat).
Local Abbreviation check_alive := (check_alive hashText request deadline epoch operationEpoch).
Definition left_ok {A} (r : result A) (w : World) : Prop := exit_ok blocks r w /\ forall a, r = Ok a -> any a w.

Lemma alive_same w : snd (assertRequestLifecycle hashText request operationEpoch deadline epoch w) = w.
Proof using Type.
  unfold assertRequestLifecycle, operationRequestCurrent, inactive, now, then_do, mbind, method_bind, state, get. repeat case_match; by simplify_eq.
Qed.
Lemma held_alive n f st : held n (view f st) (fun _ => view f st) check_alive.
Proof using Type. apply held_sync. intros w Hi Hw. rewrite alive_same. split; [apply keeps_refl|done]. Qed.
Lemma held_snapshots n f st keys : forall acc, held n (view f st) (fun _ => view f st)
  (legacySnapshots hashText request deadline epoch operationEpoch keys acc).
Proof using Type.
  induction keys as [|k ks IH]; intros acc; cbn [legacySnapshots]; [by apply held_done|].
  eapply held_then; [apply held_get_view| |by intros e w [H _]]. intros v. apply held_pure. intros _.
  eapply (held_then _ _ _ n _ (fun _ => view f st)); [apply held_alive|intros _|done]. destruct v; [apply IH|by apply held_done].
Qed.
Lemma held_deleteLegacy n f snapshots current keys : legacy_keys keys -> forall st deleted, good f st -> legacy_keys deleted ->
  held n (view f st) left_ok (deleteLegacy hashText json_stringify request deadline epoch operationEpoch (RestoreLegacy snapshots current) keys deleted).
Proof using Type.
  assert (Hroll : forall st d b, good f st -> legacy_keys d -> good f (rolled_back json_stringify (RestoreLegacy snapshots current d b) st)).
  { intros st d b Hg Hd. cbn. destruct b; [apply good_foreign_put; [apply legacy_index_foreign|]|]; by apply good_restore_all. }
  assert (Halive : forall st d b (k : unit -> prog unit), good f st -> legacy_keys d -> held n (view f st) left_ok (k tt) ->
    held n (view f st) left_ok (attempt json_stringify (RestoreLegacy snapshots current d b) check_alive k)).
  { intros st d b k Hg Hd Hk. eapply (held_attempt _ _ _ _ n f _ (fun _ => view f st)); [done| |by intros []|by split].
    eapply held_conseq; [exact (fun w H => H)| |apply (held_alive n f st)]. intros [u|e] w Hv; [done|]. exists st. auto. }
  assert (Hdel : forall st d b key (k : unit -> prog unit), good f st -> good f (delete key st) -> legacy_keys d ->
    held n (view f (delete key st)) left_ok (k tt) ->
    held n (view f st) left_ok (attempt json_stringify (RestoreLegacy snapshots current d b) (await (ask (DeleteSecret key))) k)).
  { intros st d b key k Hg Hg' Hd Hk. eapply (held_attempt _ _ _ _ n f _ (fun _ => view f (delete key st))); [done| |by intros []|by split].
    eapply held_conseq; [exact (fun w H => H)| |apply (held_del _ _ _ n f st key)]. intros [u|e] w; cbn; [done|].
    intros [_ [Hv|Hv]]; eexists; (split; [exact Hv|auto]). }
  induction keys as [|key keys IH]; intros Hk st deleted Hg Hd; cbn [deleteLegacy].
  - pose proof (good_foreign_delete _ _ f st _ legacy_index_foreign Hg) as Hg'.
    apply Hdel; [done|done|done|]. apply Halive; [done|done|]. apply held_done. intros w Hw. split; [by eapply view_exit|done].
  - apply Forall_cons in Hk as [Hkey Hk]. pose proof (good_foreign_delete _ _ f st _ (legacy_foreign _ Hkey) Hg) as Hg'.
    assert (Hd' : legacy_keys (set_add deleted key)).
    { apply Forall_forall. intros x [Hx| ->]%elem_of_set_add; [unfold legacy_keys in Hd; rewrite Forall_forall in Hd; by apply Hd|done]. }
    apply Hdel; [done|done|done|]. apply Halive; [done|done|]. by apply IH.
Qed.
Lemma held_clearLegacy n f st : good f st -> held n (view f st) left_ok (clearLegacy hashText json_parse json_stringify request deadline epoch operationEpoch).
Proof using Type.
  intros Hg. assert (Hexit : forall e w, view f st w -> left_ok (Throw e : result unit) w) by (intros e w Hw; split; [by eapply view_exit|done]).
  unfold clearLegacy. eapply (held_then _ _ _ n _ (fun _ => view f st)); [apply held_alive|intros _|apply Hexit].
  eapply held_then; [apply held_await; [apply reads_kept|apply held_readLegacyIndex]| |intros e w [Hv _]; by apply Hexit].
  intros keys. apply held_pure. intros Hkeys. eapply (held_then _ _ _ n _ (fun _ => view f st)); [apply held_alive|intros _|apply Hexit].
  eapply (held_then _ _ _ n _ (fun _ => view f st)); [apply held_snapshots|intros snaps|apply Hexit].
  apply held_deleteLegacy; [done|done|constructor].
Qed.

Lemma fine_same {A} w (m : method World A) : (forall w, snd (m w) = w) -> inv w -> fine_from any w (sync m).
Proof using Type. intros H Hi. apply fine_sync; [|done]. intros _. rewrite H. split; [apply keeps_refl|done]. Qed.
Lemma current_same w : snd (requestLifecycleCurrent (req_operationId request) operationEpoch deadline epoch w) = w.
Proof using Type. done. Qed.
Lemma fine_legacyFlight w count : inv w ->
  fine_from any w (legacyFlight hashText json_parse json_stringify request deadline epoch operationEpoch count).
Proof using Type.
  intros Hi. unfold legacyFlight. eapply fine_then; [done|by apply (fine_remaining _ _ _ _ _ _ any)|]. intros [ui|] w1 Hi1 _; [|by apply fine_ret].
  eapply fine_then; [done|by apply fine_ui|]. intros [[|]|] w2 Hi2 _; [|by apply fine_ret..].
  eapply fine_then; [done|by apply fine_same|]. intros [|] w3 Hi3 _; cbn [negb]; [|by apply fine_same].
  eapply (fine_bind any); [done| | |].
  - apply fine_await; [done|apply any_kept|]. apply fine_serialize; [done|apply any_kept|]. intros n f st Hg. by apply held_clearLegacy.
  - intros [] w4 Hi4 _. eapply fine_then; [done|by apply fine_same|]. intros [|] w5 Hi5 _; cbn [negb]; [|by apply fine_same].
    eapply (fine_then any); [done| |intros; by apply fine_ret]. apply fine_sync; [|done]. intros _. run_method. split; [by apply keeps_minor|done].
  - intros e w4 Hi4. repeat case_match; [by apply fine_ret|by apply fine_ret|apply fine_throw].
Qed.
Lemma fine_ensureLegacyReady w : inv w -> fine_from any w (ensureLegacyReady hashText json_parse json_stringify request deadline epoch operationEpoch).
Proof using Type.
  intros Hi. assert (Hprom : forall w i, fine_from any w (promise legacyPromises i)) by (intros; by apply fine_promise).
  unfold ensureLegacyReady. eapply (fine_then any); [done|by apply fine_read|]. intros c w1 Hi1 _.
  destruct (legacyReady c); [by apply fine_ret|]. destruct (legacyClearFlight c) as [i|].
  - eapply (fine_then any); [done| |intros; by apply fine_ret]. apply fine_await; [done|apply any_kept|].
    eapply fine_weaken; [|apply fine_deadline; [apply any_kept|apply Hprom]]. done.
  - eapply (fine_then any); [done| |].
    + apply fine_await; [done|apply any_kept|]. eapply fine_weaken; [|apply fine_deadline; [apply any_kept|]]; [done|].
      apply fine_serialize; [done|apply any_kept|]. intros n f st Hg.
      eapply held_conseq; [exact (fun w H => H)| |apply held_reads_exit; [exact Hg|apply held_await; [apply reads_kept|apply held_readLegacyIndex]]].
      intros r w2 [H _]. by split.
    + intros [legacy|] w2 Hi2 _; [|by apply fine_ret]. eapply fine_then; [done|by apply fine_same|].
      intros [|] w3 Hi3 _; cbn [negb]; [|by apply fine_same]. destruct legacy as [|k ks].
      * eapply (fine_then any); [done| |intros; by apply fine_ret]. apply fine_sync; [|done]. intros _. run_method. split; [by apply keeps_minor|done].
      * case_match; [by apply fine_ret|]. eapply (fine_then any); [done| |].
        -- eapply (fine_start _ _ _ any); [intros; apply keeps_legacy|intros; apply keeps_legacy|]. intros w4 Hi4. by apply fine_legacyFlight.
        -- intros i w4 Hi4 _. eapply (fine_then any); [done| |].
           ++ apply fine_sync; [|done]. intros _. run_method. split; [by apply keeps_minor|done].
           ++ intros [] w5 Hi5 _. apply fine_finally; [done|apply any_kept| |apply Hprom]. intros w6. run_method. case_match; by apply keeps_minor.
Qed.
End Legacy.

(** ** Requests *)
Lemma fine_handleCredentialRequest w request : inv w -> request_ok request ->
  fine_from any w (handleCredentialRequest hashText createId_ json_parse json_stringify request).
Proof using createId_inj hash_ok.
  intros Hi Hreq. unfold handleCredentialRequest. eapply (fine_then any); [done| |].
  { apply fine_sync; [|done]. intros _. split; [apply begin_keeps|done]. }
  intros operationEpoch w1 Hi1 _. apply fine_finally; [done|apply any_kept|intros; apply finish_keeps|]. apply fine_await; [done|apply any_kept|].
  unfold handleCredentialRequestInOperation. eapply (fine_then any); [done|by apply fine_read|]. intros epoch w2 Hi2 _.
  eapply (fine_then any); [done|by apply fine_read|]. intros t w3 Hi3 _.
  eapply (fine_then any); [done|by apply fine_read|]. intros [|] w4 Hi4 _; cbn [negb]; [|by apply fine_ret].
  eapply (fine_then any); [done|by apply fine_read|]. intros [|] w5 Hi5 _; [by apply fine_ret|].
  eapply (fine_then any); [done|by apply fine_read|]. intros [|] w6 Hi6 _; [by apply fine_ret|].
  eapply (fine_then any); [done| |].
  { apply fine_await; [done|apply any_kept|]. eapply fine_weaken; [|apply fine_deadline; [apply any_kept|by apply fine_ensureLegacyReady]]. done. }
  intros legacy w7 Hi7 _. eapply (fine_then any); [done| |].
  { apply fine_sync; [|done]. intros _. split; [apply afterLegacy_keeps|done]. }
  intros [r|] w8 Hi8 _; [by apply fine_ret|].
  eapply (fine_then (fun o w => match o with Some a => outcome_ok a | None => True end)); [done| |].
  { apply fine_await; [done|by intros [a|] ? ? ? ?|]. apply fine_deadline; [apply always_kept|].
    destruct (req_attempt request); [by apply fine_acquireInitial|by apply fine_acquireRetry]. }
  intros acquired w9 Hi9 Ha. apply fine_sync; [|done]. intros _. split; [|done]. apply finishRequest_keeps; [done|apply hash_ok|done].
Qed.

(** ** Clearing *)
Definition removed (ks : list string) (st : gmap string string) : gmap string string := fold_left (fun st k => delete k st) ks st.
Lemma removed_lookup ks : forall st k, removed ks st !! k = if decide (k ∈ ks) then None else st !! k.
Proof using Type.
  unfold removed. induction ks as [|x ks IH]; intros st k; cbn [fold_left]; [case_decide as H; [by apply elem_of_nil in H|done]|].
  rewrite IH. destruct (decide (k = x)) as [->|Hne].
  - rewrite (decide_True (P := x ∈ x :: ks)) by constructor. case_decide; [done|apply lookup_delete_eq].
  - rewrite lookup_delete_ne by done. destruct (decide (k ∈ ks)) as [Hk|Hk].
    + by rewrite decide_True by (by constructor).
    + rewrite decide_False; [done|]. by intros [?|?]%elem_of_cons.
Qed.
(** Less of the storage with the same index. *)
Definition shrunk (st st' : gmap string string) : Prop :=
  st' !! V2_INDEX_KEY = st !! V2_INDEX_KEY /\ forall k, is_Some (st' !! k) -> is_Some (st !! k).
Lemma shrunk_refl st : shrunk st st.
Proof using Type. by split. Qed.
Lemma shrunk_trans a b c : shrunk a b -> shrunk b c -> shrunk a c.
Proof using Type. intros [E1 H1] [E2 H2]. split; [congruence|auto]. Qed.
Lemma shrunk_delete st k : k <> V2_INDEX_KEY -> shrunk st (delete k st).
Proof using Type.
  intros Hk. split; [by rewrite lookup_delete_ne|]. intros k'. destruct (decide (k = k')) as [->|Hne]; [rewrite lookup_delete_eq; by intros [? ?]|by rewrite lookup_delete_ne].
Qed.
Lemma shrunk_removed ks : Forall (fun k => k <> V2_INDEX_KEY) ks -> forall st, shrunk st (removed ks st).
Proof using Type.
  induction ks as [|k ks IH]; intros Hks st; [apply shrunk_refl|]. apply Forall_cons in Hks as [Hk Hks].
  eapply shrunk_trans; [by apply shrunk_delete|by apply IH].
Qed.
Lemma shrunk_indexed st st' : shrunk st st' -> indexed st -> indexed st'.
Proof using Type.
  intros [E H] (es & H1 & H2). exists es. split; [|intros k Hp Hs; apply H2; auto].
  rewrite <- H1. by apply vault_same_index.
Qed.
Definition clearing {A} (f : Prop) (st st' : gmap string string) (r : result A) (w : World) : Prop :=
  match r with Ok _ => view f st' w | Throw _ => exists s, view f s w /\ shrunk st s end.
Lemma clearing_kept {A} f st st' (r : result A) : kept (clearing f st st' r).
Proof using Type.
  destruct r; [apply view_kept|]. intros w w' E Hg Hb (s & H1 & H2). exists s. split; [by eapply view_kept|done].
Qed.
Lemma held_delete_all n f ks : Forall (fun k => k <> V2_INDEX_KEY) ks -> forall st, held n (view f st) (clearing f st (removed ks st)) (delete_all ks).
Proof using Type.
  induction ks as [|k ks IH]; intros Hks st; cbn [delete_all]; [by apply held_done|]. apply Forall_cons in Hks as [Hk Hks].
  pose proof (shrunk_delete st k Hk) as Hsh. eapply held_then; [apply held_del|intros []; eapply held_conseq; [exact (fun w H => H)| |by apply IH]|].
  - intros [u|e] w; cbn; [done|]. intros (s & Hv & Hs). exists s. split; [done|]. by eapply shrunk_trans.
  - intros e w [_ [Hv|Hv]]; eexists; (split; [exact Hv|]); [apply shrunk_refl|done].
Qed.

(** When everything listed has been deleted. *)
Lemma cleared_good f st es legacy : vault_entries st = Some es -> f \/ indexed st -> legacy_keys legacy ->
  let st1 := removed legacy (removed (map entry_storageKey es) st) in
  good f (if Nat.eqb (length es) 0 then st1 else delete V2_INDEX_KEY st1)
  /\ (f \/ indexed st1) /\ good f (delete V2_INDEX_KEY st1).
Proof using Type.
  intros Hes Hf Hleg st1. destruct (vault_each _ _ _ _ Hes) as [Hok _].
  assert (Hne : Forall (fun k => k <> V2_INDEX_KEY) (map entry_storageKey es)).
  { apply Forall_forall. intros k (e & -> & He)%list_elem_of_fmap. rewrite Forall_forall in Hok. eapply prefix_not_index, key_prefix, Hok, He. }
  assert (Hne' : Forall (fun k => k <> V2_INDEX_KEY) legacy) by (eapply Forall_impl; [exact Hleg|]; intros k Hk; by apply legacy_foreign).
  assert (Hsh : shrunk st st1) by (eapply shrunk_trans; by apply shrunk_removed).
  assert (Hnone : f \/ forall k, startsWith k V2_ENTRY_PREFIX = true -> st1 !! k = None).
  { destruct Hf as [?|(es' & H1 & H2)]; [by left|right]. assert (es' = es) as -> by congruence. intros k Hp.
    destruct (st1 !! k) as [v|] eqn:Hv; [|done]. unfold st1 in Hv. rewrite !removed_lookup in Hv. do 2 (case_decide; [done|]).
    exfalso. apply H0. by apply H2. }
  assert (Hgood : forall s, vault_entries s = Some [] -> (forall k, startsWith k V2_ENTRY_PREFIX = true -> s !! k = st1 !! k) -> good f s).
  { intros s H1 H2. exists []. split; [done|by intros e He%elem_of_nil|]. destruct Hnone as [?|Hn]; [by left|right].
    intros k Hp [v Hv]. rewrite H2, Hn in Hv by done. done. }
  assert (Hg2 : good f (delete V2_INDEX_KEY st1)).
  { apply Hgood; [unfold CredentialInvariant.vault_entries; by rewrite lookup_delete_eq|]. intros k Hp. rewrite lookup_delete_ne; [done|]. by apply not_eq_sym, prefix_not_index. }
  split; [|split; [|done]].
  - destruct es as [|e es]; [|done]. cbn [length Nat.eqb]. apply Hgood; [|done]. rewrite <- Hes. apply vault_same_index, Hsh.
  - destruct Hf as [?|Hf]; [by left|right]. by eapply shrunk_indexed.
Qed.

Lemma clear_guar w n : running n w ->
  guar (Some n) w (Some n) (with_controller (with_storageBlocked false (with_legacyReady true (with_sessionCredentials [] (controller w)))) w).
Proof using Type.
  intros Hn. split; [|by apply grows_same|constructor|by left|by left].
  intros [H1 H2 H3 H4 H5 H6 [q1 q2 q3] H8].
  split; [eapply leases_same; [|exact H1]; by split_and!|exact H2|constructor|exact H4|exact H5|exact H6|by split|].
  intros Hr. by destruct (Hr n).
Qed.

Definition cleared {A} (r : result A) (w : World) : Prop := exit_ok (fun _ => true) r w /\ forall a, r = Ok a -> any a w.
Lemma cleared_throw {A} f st s e w : f \/ indexed st -> shrunk st s -> view f s w -> cleared (Throw e : result A) w.
Proof using Type.
  intros Hf Hsh [Hs Hfail]. split; [|done]. split; [by left|]. destruct Hf as [?|Hi]; [left; auto|right]. rewrite Hs. by eapply shrunk_indexed.
Qed.
Lemma held_clear n : held n vault cleared (
  _ <~ sync invalidateBackendConnection;
  entries <~ await (readV2Index hashText json_parse);
  legacy <~ await (readLegacyIndex json_parse);
  _ <~ delete_all (map entry_storageKey entries);
  _ <~ delete_all legacy;
  _ <~ when (negb (Nat.eqb (length entries) 0)) (await (ask (DeleteSecret V2_INDEX_KEY)));
  _ <~ when (negb (Nat.eqb (length legacy) 0)) (await (ask (DeleteSecret LEGACY_INDEX_KEY)));
  _ <~ sync (update (fun c => with_storageBlocked false (with_legacyReady true (with_sessionCredentials [] c))));
  ret (length entries + length legacy)).
Proof using Type.
  eapply (held_then _ _ _ n _ (fun r w => match r with Ok _ => failed w \/ indexed (secretStorage w) | Throw _ => False end)); [|intros []|done].
  { apply held_sync. intros w Hi Hv. pose proof (invalidate_keeps hashText createId_ json_parse w) as Hk. split; [done|].
    destruct (kept_keeps _ _ _ _ _ _ (vault_kept hashText json_parse) Hk Hv) as [_ H]. exact H. }
  intros w Hi Hn Hf. revert Hf. set (f := failed w). set (st := secretStorage w). intros Hf.
  assert (Hv : view f st w) by (split; [done|exact id]).
  cut (held n (view f st) cleared (
    entries <~ await (readV2Index hashText json_parse);
    legacy <~ await (readLegacyIndex json_parse);
    _ <~ delete_all (map entry_storageKey entries);
    _ <~ delete_all legacy;
    _ <~ when (negb (Nat.eqb (length entries) 0)) (await (ask (DeleteSecret V2_INDEX_KEY)));
    _ <~ when (negb (Nat.eqb (length legacy) 0)) (await (ask (DeleteSecret LEGACY_INDEX_KEY)));
    _ <~ sync (update (fun c => with_storageBlocked false (with_legacyReady true (with_sessionCredentials [] c))));
    ret (length entries + length legacy))); [intros H; by apply H|].
  clearbody f st. clear w Hi Hn Hv.
  assert (Hthrow : forall s e w, shrunk st s -> view f s w -> cleared (Throw e : result nat) w) by (intros; by eapply cleared_throw).
  eapply held_then; [apply held_await; [apply reads_kept|apply held_readV2Index]| |intros e w [Hv _]; eapply Hthrow; [apply shrunk_refl|done]].
  intros es. apply held_pure. intros Hes.
  eapply held_then; [apply held_await; [apply reads_kept|apply held_readLegacyIndex]| |intros e w [Hv _]; eapply Hthrow; [apply shrunk_refl|done]].
  intros legacy. apply held_pure. intros Hleg. destruct (vault_each _ _ _ _ Hes) as [Hok _].
  assert (Hne : Forall (fun k => k <> V2_INDEX_KEY) (map entry_storageKey es)).
  { apply Forall_forall. intros k (e & -> & He)%list_elem_of_fmap. rewrite Forall_forall in Hok. eapply prefix_not_index, key_prefix, Hok, He. }
  assert (Hne' : Forall (fun k => k <> V2_INDEX_KEY) legacy) by (eapply Forall_impl; [exact Hleg|]; intros k Hk; by apply legacy_foreign).
  eapply held_then; [by apply (held_delete_all n f _ Hne st)|intros []|intros e w (s & Hv & Hs); by eapply Hthrow].
  eapply held_then; [by apply (held_delete_all n f _ Hne')|intros []|].
  2: { intros e w (s & Hv & Hs). eapply Hthrow; [|exact Hv]. eapply shrunk_trans; [|exact Hs]. by apply shrunk_removed. }
  destruct (cleared_good f st es legacy Hes Hf Hleg) as (Hg & Hidx & Hg').
  cbn [clearing]. set (st1 := removed legacy (removed (map entry_storageKey es) st)) in *.
  set (st2 := if Nat.eqb (length es) 0 then st1 else delete V2_INDEX_KEY st1) in *.
  assert (Hexit : forall e w, view f st1 w \/ view f (delete V2_INDEX_KEY st1) w -> cleared (Throw e : result nat) w).
  { intros e w [[Hs Hfail]|Hv]; [|split; [by eapply view_exit|done]]. split; [|done]. split; [by left|]. rewrite Hs. destruct Hidx; [left; auto|by right]. }
  eapply (held_then _ _ _ n _ (fun r w => match r with Ok _ => view f st2 w | Throw _ => view f st1 w \/ view f (delete V2_INDEX_KEY st1) w end));
    [|intros []|by intros e w H; apply Hexit].
  { unfold st2. destruct (Nat.eqb (length es) 0); cbn [negb when]; [by apply held_done|].
    eapply held_conseq; [exact (fun w H => H)| |apply (held_del _ _ _ n f st1 V2_INDEX_KEY)]. intros [u|e] w; cbn; [done|]. by intros [_ H]. }
  pose proof (good_foreign_delete _ _ f st2 _ legacy_index_foreign Hg) as Hg3.
  eapply (held_then _ _ _ n _ (fun r w => exists s, good f s /\ view f s w)); [|intros []|].
  { destruct (Nat.eqb (length legacy) 0); cbn [negb when]; [apply held_done; by eauto|].
    eapply held_conseq; [exact (fun w H => H)| |apply (held_del _ _ _ n f st2 LEGACY_INDEX_KEY)]. intros [u|e] w; cbn; [by eauto|]. intros [_ [H|H]]; by eauto. }
  2: { intros e w (s & Hs & Hv). split; [by eapply view_exit|done]. }
  apply held_ex. intros s w Hi Hn [Hs Hv].
  exists (Some n). split; [by apply clear_guar|]. intros Hi'. split; [done|]. split; [exact Hn|]. split; [|done].
  eapply view_exit; [exact Hs|]. by destruct Hv.
Qed.
Lemma fine_clearSavedCredentials w : inv w -> fine_from any w (clearSavedCredentials hashText json_parse).
Proof using Type.
  intros Hi. unfold clearSavedCredentials. eapply (fine_then any); [done|by apply fine_read|]. intros [|] w1 Hi1 _; [apply fine_throw|].
  apply fine_await; [done|apply any_kept|]. apply fine_cleanup; [done|apply any_kept|]. apply held_clear.
Qed.
End Requests.
