(* ===== verification/CredentialParsers.v ===== *)
(** The parsers of the backend's credential requests accept exactly the
    encodings of valid requests. *)

From Stdlib Require Import ZArith Lia Ascii String List.
From stdpp Require Import base option list gmap strings.
From S2P Require Import Prelude JsString JsMap JsValue RemoteTypes CredentialTypes CredentialController CredentialInvariant.

Local Open Scope string_scope.

(** ** Fields *)
Lemma bounded_ok v f lo hi s : requireBoundedString v f lo hi = Ok s <-> v = Some (VStr s) /\ (lo <= String.length s <= hi)%nat.
Proof.
  unfold requireBoundedString. destruct v as [[| | |t| |]|]; try naive_solver. rewrite bind_ok. setoid_rewrite require_ok.
  setoid_rewrite andb_true_iff. setoid_rewrite Nat.leb_le. naive_solver.
Qed.
Lemma canonicalId_ok v f s : requireCanonicalId v f = Ok s <-> v = Some (VStr s) /\ isCanonicalIdText s = true.
Proof. unfold requireCanonicalId. destruct v as [[| | |t| |]|]; try naive_solver. rewrite bind_ok. setoid_rewrite require_ok. naive_solver. Qed.
Lemma boolean_ok v f b : requireBoolean v f = Ok b <-> v = Some (VBool b).
Proof. unfold requireBoolean. destruct v as [[]|]; naive_solver. Qed.
Lemma integer_ok v f lo hi z : (- MAX_SAFE_INTEGER <= lo)%Z -> (hi <= MAX_SAFE_INTEGER)%Z ->
  requireInteger v f lo hi = Ok z <-> v = Some (number z) /\ (lo <= z <= hi)%Z.
Proof.
  intros Hl Hh. unfold requireInteger, number. destruct v as [[| |[]| | |]|]; try naive_solver. rewrite bind_ok. setoid_rewrite require_ok.
  unfold isSafeInteger. split; [intros (u & Hz & [= ->]); split; [done|lia]|intros [[= ->] Hz]; exists tt; split; [lia|done]].
Qed.
Lemma record_field v f r : requireRecord v f = Ok r <-> v = Some r /\ exists fields, r = VObj fields.
Proof. unfold requireRecord. destruct v as [[]|]; naive_solver. Qed.
Lemma enum_sound {A} v (values : list (string * A)) f a : requireEnum v values f = Ok a -> exists s, v = Some (VStr s) /\ map_get values s = Some a.
Proof. unfold requireEnum. destruct v as [[| | |s| |]|]; try done. destruct (map_get values s) eqn:E; [|done]. intros [= <-]. eauto. Qed.

Section Exact.
Context (isIPv6 : string -> bool) (urlHostname : string -> option string).

(** ** Valid requests *)
Record endpoint_valid (e : CanonicalCredentialEndpoint) : Prop := {
  host_valid : isCanonicalHost isIPv6 urlHostname (canonicalHost e) = true /\ (1 <= String.length (canonicalHost e) <= 253)%nat;
  port_valid : (1 <= effectivePort e <= 65535)%Z;
}.
Definition account_valid (a : CredentialAccountSelection) : Prop := match a with FixedAccount name => username_ok name | ChooseForeground => True end.
Definition attempt_valid (a : CredentialAttempt) : Prop := match a with InitialAttempt => True | RetryAfterRejected l => isCanonicalIdText l = true end.
(** A background request names its account and asks nobody. *)
Definition origin_valid (r : CredentialRequest) : Prop :=
  req_origin r = Background -> req_interactive r = false /\ exists name, req_account r = FixedAccount name.
Record request_valid (r : CredentialRequest) : Prop := {
  valid_endpoint : endpoint_valid (req_endpoint r);
  valid_auth : req_authKind r = CramMd5 <-> scheme (req_endpoint r) = Svn;
  valid_operation : isCanonicalIdText (req_operationId r) = true;
  valid_id : (1 <= String.length (req_requestId r) <= 128)%nat;
  valid_realm : (1 <= String.length (req_realm r) <= 4096)%nat /\ includes (req_realm r) NUL = false /\ (utf8Length (req_realm r) <= 4096)%Z;
  valid_account : account_valid (req_account r);
  valid_attempt : attempt_valid (req_attempt r);
  valid_origin : origin_valid r;
  valid_timeout : (1 <= req_timeoutMs r <= 300000)%Z;
}.
Record settlement_valid (r : CredentialSettlementRequest) : Prop := {
  settlement_id : (1 <= String.length (settle_requestId r) <= 128)%nat;
  settlement_operation : isCanonicalIdText (settle_operationId r) = true;
  settlement_lease : isCanonicalIdText (settle_leaseId r) = true;
  settlement_timeout : (1 <= settle_timeoutMs r <= 300000)%Z;
}.

Definition encode_endpoint (e : CanonicalCredentialEndpoint) : js_value :=
  VObj [("scheme", VStr (text_of SCHEMES (scheme e))); ("canonicalHost", VStr (canonicalHost e)); ("effectivePort", number (effectivePort e))].
Definition encode_account (a : CredentialAccountSelection) : js_value :=
  match a with
  | FixedAccount name => VObj [("mode", VStr "fixed"); ("username", VStr name)]
  | ChooseForeground => VObj [("mode", VStr "chooseForeground")]
  end.
Definition encode_attempt (a : CredentialAttempt) : js_value :=
  match a with
  | InitialAttempt => VObj [("kind", VStr "initial")]
  | RetryAfterRejected l => VObj [("kind", VStr "retryAfterRejected"); ("previousLeaseId", VStr l)]
  end.
Definition encode_request (r : CredentialRequest) : js_value :=
  VObj [("requestId", VStr (req_requestId r)); ("operationId", VStr (req_operationId r)); ("endpoint", encode_endpoint (req_endpoint r));
        ("authKind", VStr (text_of AUTH_KINDS (req_authKind r))); ("realm", VStr (req_realm r)); ("account", encode_account (req_account r));
        ("attempt", encode_attempt (req_attempt r)); ("interactive", VBool (req_interactive r));
        ("persistenceAllowed", VBool (req_persistenceAllowed r)); ("origin", VStr (text_of ORIGINS (req_origin r))); ("timeoutMs", number (req_timeoutMs r))].
Definition encode_settlement (r : CredentialSettlementRequest) : js_value :=
  VObj [("requestId", VStr (settle_requestId r)); ("operationId", VStr (settle_operationId r)); ("leaseId", VStr (settle_leaseId r));
        ("outcome", VStr (text_of OUTCOMES (settle_outcome r))); ("timeoutMs", number (settle_timeoutMs r))].

(** ** Soundness *)
Lemma username_sound v name : normalizeUsername v = Some name -> username_ok name.
Proof using Type.
  unfold username_ok, normalizeUsername. destruct v as [[| | |s| |]|]; try done. case_match eqn:E; [done|]. intros [= <-]. by rewrite E.
Qed.
Lemma endpoint_sound v e : parseEndpoint isIPv6 urlHostname v = Ok e -> endpoint_valid e.
Proof using Type.
  unfold parseEndpoint. intros H. repeat (apply bind_ok in H as (? & ? & H)). injection H as <-.
  repeat match goal with
  | H : requireBoundedString _ _ _ _ = Ok _ |- _ => apply bounded_ok in H as [? ?]
  | H : requireInteger _ _ _ _ = Ok _ |- _ => apply integer_ok in H as [? ?]; [|by vm_compute|by vm_compute]
  | H : require _ _ = Ok _ |- _ => apply require_ok in H
  end. by split.
Qed.
Lemma account_sound v a : parseAccount v = Ok a -> account_valid a.
Proof using Type.
  unfold parseAccount. intros (r & _ & H)%bind_ok. case_match.
  - apply bind_ok in H as (? & _ & [= <-]). done.
  - apply bind_ok in H as (? & _ & H). apply bind_ok in H as (? & _ & H). destruct (normalizeUsername _) as [name|] eqn:E; [|done].
    injection H as <-. by eapply username_sound.
Qed.
Lemma attempt_sound v a : parseAttempt v = Ok a -> attempt_valid a.
Proof using Type.
  unfold parseAttempt. intros (r & _ & H)%bind_ok. case_match.
  - by apply bind_ok in H as (? & _ & [= <-]).
  - apply bind_ok in H as (? & _ & H). apply bind_ok in H as (? & _ & H). apply bind_ok in H as (l & [_ Hl]%canonicalId_ok & [= <-]). done.
Qed.
Lemma request_sound v r : parseCredentialRequest isIPv6 urlHostname v = Ok r -> request_valid r.
Proof using Type.
  unfold parseCredentialRequest. intros H. repeat (apply bind_ok in H as (? & ? & H)). injection H as <-.
  repeat match goal with
  | H : parseEndpoint _ _ _ = Ok _ |- _ => apply endpoint_sound in H
  | H : parseAccount _ = Ok _ |- _ => apply account_sound in H
  | H : parseAttempt _ = Ok _ |- _ => apply attempt_sound in H
  | H : requireBoundedString _ _ _ _ = Ok _ |- _ => apply bounded_ok in H as [? ?]
  | H : requireCanonicalId _ _ = Ok _ |- _ => apply canonicalId_ok in H as [? ?]
  | H : requireInteger _ _ _ _ = Ok _ |- _ => apply integer_ok in H as [? ?]; [|by vm_compute|by vm_compute]
  | H : require _ _ = Ok _ |- _ => apply require_ok in H
  end.
  split; cbn; try done.
  - match goal with H : Bool.eqb _ _ = true |- _ => apply Bool.eqb_prop in H; revert H end. repeat case_bool_decide; naive_solver.
  - split; [done|]. match goal with H : andb (negb (includes ?s NUL)) _ = true |- _ => apply andb_prop in H as [Hn Hl]; apply negb_true_iff in Hn; apply Z.leb_le in Hl end. by split.
  - intros E. cbn in E. match goal with H : negb (andb _ _) = true |- _ => apply negb_true_iff in H; revert H end.
    rewrite bool_decide_eq_true_2 by done. cbn [andb]. intros [? Hacc]%orb_false_iff. split; [done|]. cbn.
    match goal with |- exists name, ?a = FixedAccount name => destruct a end; [by eauto|done].
Qed.
Lemma settlement_sound v r : parseCredentialSettlementRequest v = Ok r -> settlement_valid r.
Proof using Type.
  unfold parseCredentialSettlementRequest. intros H. repeat (apply bind_ok in H as (? & ? & H)). injection H as <-.
  repeat match goal with
  | H : requireBoundedString _ _ _ _ = Ok _ |- _ => apply bounded_ok in H as [? ?]
  | H : requireCanonicalId _ _ = Ok _ |- _ => apply canonicalId_ok in H as [? ?]
  | H : requireInteger _ _ _ _ = Ok _ |- _ => apply integer_ok in H as [? ?]; [|by vm_compute|by vm_compute]
  end. by split.
Qed.

(** ** Completeness *)
Ltac next := apply bind_ok; eexists; split.
Ltac next_is x := apply bind_ok; exists x; split.
Lemma endpoint_complete e : endpoint_valid e -> parseEndpoint isIPv6 urlHostname (Some (encode_endpoint e)) = Ok e.
Proof using Type.
  intros [[Hh Hl] Hp]. unfold parseEndpoint. next; [reflexivity|]. next_is tt; [by apply require_ok|].
  next_is (scheme e); [by destruct (scheme e)|]. next; [by apply bounded_ok|]. next_is tt; [by apply require_ok|].
  next; [apply integer_ok; [by vm_compute|by vm_compute|by split]|]. by destruct e.
Qed.
Lemma account_complete a : account_valid a -> parseAccount (Some (encode_account a)) = Ok a.
Proof using Type.
  destruct a as [name|]; intros H; [|done]. unfold parseAccount. next; [reflexivity|].
  replace (text_is "chooseForeground" _) with false by done. next_is tt; [by apply require_ok|]. next_is tt; [by apply require_ok|].
  change (field _ "username") with (Some (VStr name)). by rewrite H.
Qed.
Lemma attempt_complete a : attempt_valid a -> parseAttempt (Some (encode_attempt a)) = Ok a.
Proof using Type.
  destruct a as [|l]; intros H; [done|]. unfold parseAttempt. next; [reflexivity|].
  replace (text_is "initial" _) with false by done. next_is tt; [by apply require_ok|]. next_is tt; [by apply require_ok|].
  next; [by apply canonicalId_ok|]. done.
Qed.
Lemma request_complete r : request_valid r -> parseCredentialRequest isIPv6 urlHostname (Some (encode_request r)) = Ok r.
Proof using Type.
  intros [He Ha Ho Hi (Hr1 & Hr2 & Hr3) Hacc Hatt Hor Ht]. unfold parseCredentialRequest.
  next; [reflexivity|]. next_is tt; [by apply require_ok|]. next; [by apply endpoint_complete|]. next_is (req_authKind r); [by destruct (req_authKind r)|].
  next_is tt; [apply require_ok; apply Bool.eqb_true_iff; do 2 case_bool_decide; naive_solver|].
  next; [by apply canonicalId_ok|]. next; [by apply bounded_ok|]. next; [by apply bounded_ok|].
  next_is tt; [apply require_ok, andb_true_iff; split; [by rewrite Hr2|by apply Z.leb_le]|].
  next; [by apply account_complete|]. next; [by apply attempt_complete|]. next_is (req_origin r); [by destruct (req_origin r)|].
  next; [reflexivity|]. next; [reflexivity|]. next_is tt.
  { apply require_ok, negb_true_iff. case_bool_decide as E; [|done]. destruct (Hor E) as [-> [name ->]]. done. }
  next; [apply integer_ok; [by vm_compute|by vm_compute|by split]|]. by destruct r.
Qed.
Lemma settlement_complete r : settlement_valid r -> parseCredentialSettlementRequest (Some (encode_settlement r)) = Ok r.
Proof using Type.
  intros [Hi Ho Hl Ht]. unfold parseCredentialSettlementRequest. next; [reflexivity|]. next_is tt; [by apply require_ok|].
  next; [by apply bounded_ok|]. next; [by apply canonicalId_ok|]. next; [by apply canonicalId_ok|]. next_is (settle_outcome r); [by destruct (settle_outcome r)|].
  next; [apply integer_ok; [by vm_compute|by vm_compute|by split]|]. by destruct r.
Qed.
End Exact.

(** C12: The types of what the backend sends hold: whatever the parameters of
    [credentials/request] and [credentials/settle] are, a request or settlement
    that reaches the controller is valid (canonical host and ids, texts within
    their bounds, an authentication kind that fits the scheme, no interaction
    and a fixed account in the background); and every valid one is passed on as
    it was sent. *)
Theorem credential_requests_typed isIPv6 urlHostname :
  (forall params r, parseCredentialRequest isIPv6 urlHostname params = Ok r -> request_valid isIPv6 urlHostname r)
  /\ (forall r, request_valid isIPv6 urlHostname r -> parseCredentialRequest isIPv6 urlHostname (Some (encode_request r)) = Ok r)
  /\ (forall params r, parseCredentialSettlementRequest params = Ok r -> settlement_valid r)
  /\ (forall r, settlement_valid r -> parseCredentialSettlementRequest (Some (encode_settlement r)) = Ok r).
Proof.
  split; [apply request_sound|]. split; [apply request_complete|]. split; [apply settlement_sound|apply settlement_complete].
Qed.
