(* ===== verification/CredentialTheorems.v ===== *)
(** The credential controller as a whole: whatever the backend and the user call,
    in any order and interleaved at every [await], with a storage that may fail
    at any access, a clock that runs and a workspace that gains and loses trust. *)

From Stdlib Require Import ZArith Lia Ascii String List.
From stdpp Require Import base option list gmap strings relations.
From S2P Require Import Prelude JsString JsMap JsValue RemoteTypes Async CredentialTypes CredentialController CredentialInvariant CredentialLogic CredentialSafe CredentialParsers.

Local Open Scope string_scope.

(** ** The start *)
Definition newController : Controller :=
  {| sessionCredentials := []; pendingLeases := []; tombstones := []; operationLeases := []; promptFlights := [];
     acceptedGenerations := []; settlementFlights := []; operationRequests := []; storageQueue := 0; legacyClearFlight := None;
     legacyReady := false; storageBlocked := false; disposed := false; connectionEpoch := 0 |}.
(** [Promise.resolve()] is the first promise of the queue. *)
Definition newWorld (storage : gmap string string) (t : Z) (isTrusted : bool) : World :=
  {| controller := newController; queue := [Released]; promptPromises := []; settlementPromises := []; legacyPromises := [];
     secretStorage := storage; clock := t; trusted := isTrusted; ids := 0; trace := [] |}.

Section Controller.
Context (hashText : string -> string) (createId_ : nat -> string) (json_parse : string -> option js_value) (json_stringify : js_value -> string)
  (isIPv6 : string -> bool) (urlHostname : string -> option string).

Inductive reachable (storage : gmap string string) (c : config) : Prop :=
  | reachable_from t isTrusted :
      rtc (credential_step hashText createId_ json_parse json_stringify isIPv6 urlHostname) (newWorld storage t isTrusted, []) c ->
      reachable storage c.

Context (createId_inj : forall i j, createId_ i = createId_ j -> i = j)
  (hash_ok : forall s, isHash (hashText s) = true)
  (json_round : forall v, json_ok v = true -> json_parse (json_stringify v) = Some v).
Local Abbreviation inv := (inv hashText createId_ json_parse).
Local Abbreviation fine_from := (Async.fine_from answers None inv rely (CredentialInvariant.guar hashText createId_ json_parse)).
Local Abbreviation safe := (Async.safe answers None inv rely (guar hashText createId_ json_parse)).
Local Abbreviation listed := (listed hashText json_parse).
Local Abbreviation indexed := (indexed hashText json_parse).
Local Abbreviation vault := (vault hashText json_parse).

(** ** Every call keeps the protocol *)
Lemma parsed_request_ok v r : parseCredentialRequest isIPv6 urlHostname v = Ok r -> request_ok r.
Proof using Type. intros H%request_sound. exact (valid_account _ _ _ H). Qed.

Definition acked_if (a : CredentialResponse + CredentialSettlementAck) (w : World) : Prop :=
  match a with inr a => acked a w | inl _ => True end.
Lemma acked_if_kept : kept_by_trace acked_if.
Proof using Type. intros [a|a] w w' Hg H; [done|]. by eapply acked_kept. Qed.

Lemma fine_handler w m params : inv w ->
  fine_from acked_if w (createCredentialRequestHandler hashText createId_ json_parse json_stringify isIPv6 urlHostname m params).
Proof using createId_inj hash_ok json_round.
  intros Hi. unfold createCredentialRequestHandler. case_bool_decide.
  - destruct (parseCredentialRequest _ _ _) as [request|e] eqn:E; [|apply fine_throw].
    eapply (fine_then any); [done| |intros a w' _ _; by apply fine_ret].
    apply fine_await; [done|apply any_kept|]. apply fine_handleCredentialRequest; [done|done|done|by eapply parsed_request_ok].
  - case_bool_decide; [|apply fine_throw].
    destruct (parseCredentialSettlementRequest _) as [request|e]; [|apply fine_throw].
    eapply fine_then; [done| |intros a w' _ Ha; apply fine_ret; exact Ha].
    apply fine_await; [done|apply acked_kept|]. by apply fine_handleCredentialSettlement.
Qed.

Lemma sync_ends w (m : method World unit) : keeps hashText createId_ json_parse w (snd (m w)) -> safe (sync m) None (ends None) w.
Proof using Type. intros Hk. exists None. split; [by apply keeps_guar|]. by intros _. Qed.
Lemma discard_params_keeps w params : keeps hashText createId_ json_parse w (snd (discardCredentialOperationAfterBackendRequest params w)).
Proof using Type.
  unfold discardCredentialOperationAfterBackendRequest. repeat (case_match; try apply keeps_refl). apply discardOperation_keeps.
Qed.

Lemma client_calls_safe p w : client_call hashText createId_ json_parse json_stringify isIPv6 urlHostname p -> inv w -> safe p None (ends None) w.
Proof using createId_inj hash_ok json_round.
  intros Hc Hi. destruct Hc as [m params|params| | |].
  - eapply fine_ends; [done|by apply fine_handler|]. intros [[a|a]|e] w' Hi' Ha; [done| |done].
    apply sync_ends. apply keeps_event; [done|]. intros a' [= <-]. by apply (Ha (inr a)).
  - apply sync_ends, discard_params_keeps.
  - apply sync_ends, invalidate_keeps.
  - apply sync_ends, controller_disposed.
  - eapply fine_ends; [done|by apply fine_clearSavedCredentials|]. by intros.
Qed.

Lemma start_owned storage t b : listed storage -> indexed storage -> owned hashText createId_ json_parse [] (newWorld storage t b).
Proof using Type.
  intros Hl Hx. split; [|constructor|].
  - split; cbn; [| |constructor|constructor|constructor|by intros a ?%elem_of_nil| |].
    + split; cbn; [split_and!; apply NoDup_nil_2|done|done|done|done|apply Nat.le_0_l|constructor|by intros l ?%elem_of_nil|].
      intros l [H|H]; by apply elem_of_nil in H.
    + by intros op st l lease [=].
    + split; cbn; [done|done|]. intros n t' H. by destruct n.
    + intros _. split; by right.
  - intros n. split; [by intros ?%elem_of_nil|]. intros (x & Hx' & Hne). destruct n as [|n]; [by injection Hx' as <-|by destruct n].
Qed.

Lemma controller_config_ok storage c : listed storage -> indexed storage -> reachable storage c ->
  config_ok answers None inv rely (guar hashText createId_ json_parse) (owned hashText createId_ json_parse) c.
Proof using createId_inj hash_ok json_round.
  intros Hl Hx [t b Hr]. eapply steps_safe; [| |exact Hr|by apply config_start, start_owned].
  all: try (apply credential_protocol). intros p w. apply client_calls_safe.
Qed.
Lemma reachable_inv storage c : listed storage -> indexed storage -> reachable storage c -> inv (fst c).
Proof using createId_inj hash_ok json_round. intros Hl Hx Hr. destruct (controller_config_ok _ _ Hl Hx Hr) as [_ (ts & Ho & _)]. apply Ho. Qed.

(** ** Owners of tickets *)
Lemma owner_unfinished w (p : prog unit) n : safe p (Some n) (ends None) w -> finished p = None.
Proof using Type. by destruct p. Qed.
Definition position {A} `{EqDecision A} (x : A) (l : list A) : nat := match list_find (fun y => y = x) l with Some (i, _) => i | None => 0 end.
Lemma position_at {A} `{EqDecision A} (x : A) l : x ∈ l -> l !! position x l = Some x.
Proof using Type.
  intros Hin. unfold position. destruct (list_find _ l) as [[i y]|] eqn:E.
  - by apply list_find_Some in E as (? & -> & _).
  - apply list_find_None in E. rewrite Forall_forall in E. by destruct (E x Hin).
Qed.

(** ** Settlements *)
Lemma outcome_unique tr l o o' : NoDup (settled_ids tr) -> Settled l o ∈ tr -> Settled l o' ∈ tr -> o = o'.
Proof using Type.
  induction tr as [|e tr IH]; [by intros _ ?%elem_of_nil|]. intros Hnd. rewrite !elem_of_cons.
  assert (Hin : forall o, Settled l o ∈ tr -> l ∈ settled_ids tr) by (intros x Hx; apply list_elem_of_omap; by exists (Settled l x)).
  intros [<-|H1] [[= <-]|H2]; [done| | |].
  - cbn in Hnd. apply NoDup_cons in Hnd as [Hni _]. by destruct (Hni (Hin _ H2)).
  - cbn in Hnd. apply NoDup_cons in Hnd as [Hni _]. by destruct (Hni (Hin _ H1)).
  - apply IH; [|done|done]. cbn in Hnd. destruct (settled_id e); [by apply NoDup_cons in Hnd as [_ ?]|done].
Qed.

(** C10: However calls interleave, a lease that is pending belongs to the current
    connection and to a controller that is not disposed of, is listed for its
    operation, was never settled, and its operation has not been discarded while
    requests of it run; nothing else is listed for any operation, and the
    tombstones stay within their bound. *)
Theorem leases_current storage c : listed storage -> indexed storage -> reachable storage c ->
  let ctl := controller (fst c) in
  (forall l lease, map_get (pendingLeases ctl) l = Some lease ->
     lease_leaseId lease = l /\ lease_connectionEpoch lease = connectionEpoch ctl /\ disposed ctl = false
     /\ (exists ls, map_get (operationLeases ctl) (lease_operationId lease) = Some ls /\ l ∈ ls)
     /\ (forall o, Settled l o ∉ trace (fst c))
     /\ (forall st, map_get (operationRequests ctl) (lease_operationId lease) = Some st -> op_closed st = false))
  /\ (forall op ls l, map_get (operationLeases ctl) op = Some ls -> l ∈ ls ->
        exists lease, map_get (pendingLeases ctl) l = Some lease /\ lease_operationId lease = op)
  /\ map_size (tombstones ctl) <= MAX_TOMBSTONES.
Proof using createId_inj hash_ok json_round.
  intros Hl Hx Hr ctl. pose proof (reachable_inv _ _ Hl Hx Hr) as Hi. pose proof (inv_leases _ _ _ _ Hi) as H. split; [|split; [|apply H]].
  - intros l lease Hp. destruct (pending_ok _ _ _ _ _ H _ _ Hp) as (Hid & He & _ & Hls). split; [done|]. split; [done|]. split; [|split; [done|split]].
    + destruct (disposed ctl) eqn:Hd; [|done]. pose proof (disposed_ok _ _ _ _ _ H Hd) as E. unfold ctl in Hp. by rewrite E in Hp.
    + intros o Ho. unfold ctl in Hp. rewrite (settled_gone _ _ _ _ _ H l) in Hp; [done|]. apply list_elem_of_omap. by exists (Settled l o).
    + intros st Hst. destruct (op_closed st) eqn:Ec; [|done]. by destruct (inv_closed _ _ _ _ Hi _ _ _ _ Hst Ec Hp).
  - intros op ls l Hls Hin. by apply (proj2 (listed_ok _ _ _ _ _ H _ _ Hls)).
Qed.

(** C8: A lease is settled at most once, and the backend is told the truth: what
    was acknowledged was settled with that outcome, and no two acknowledgements
    of one lease disagree, whether they come from the settlement itself, from one
    it joined while in flight or from a repeated report. *)
Theorem settlements_agree storage c a b : listed storage -> indexed storage -> reachable storage c ->
  Acknowledged a ∈ trace (fst c) -> Acknowledged b ∈ trace (fst c) -> ack_leaseId a = ack_leaseId b ->
  ack_outcome a = ack_outcome b
  /\ Settled (ack_leaseId a) (ack_outcome a) ∈ trace (fst c)
  /\ map_get (pendingLeases (controller (fst c))) (ack_leaseId a) = None
  /\ NoDup (settled_ids (trace (fst c))).
Proof using createId_inj hash_ok json_round.
  intros Hl Hx Hr Ha Hb Hab. pose proof (reachable_inv _ _ Hl Hx Hr) as Hi. pose proof (inv_leases _ _ _ _ Hi) as H.
  pose proof (inv_acknowledged _ _ _ _ Hi _ Ha) as Sa. pose proof (inv_acknowledged _ _ _ _ Hi _ Hb) as Sb.
  unfold acknowledged_ok in *. rewrite <- Hab in Sb. pose proof (settled_once _ _ _ _ _ H) as Hnd.
  split; [by eapply outcome_unique|]. split; [done|]. split; [|done]. apply (settled_gone _ _ _ _ _ H).
  apply list_elem_of_omap. by exists (Settled (ack_leaseId a) (ack_outcome a)).
Qed.

(** C9: The secret storage stays consistent through failures.  Started on a
    storage whose index can be read, lists only credentials that are there and
    lists all of them ([listed], [indexed]; a new one is such a storage), whatever
    calls interleave and whatever accesses fail: whenever no storage operation is
    under way, either the controller refuses to use the
    storage or the index can be read and every credential it lists is there; and
    unless an attempt to undo a half-done change has itself failed, every
    credential in the storage is listed in the index. *)
Theorem vault_intact storage c : listed storage -> indexed storage -> reachable storage c ->
  (forall n, queue (fst c) !! n <> Some Running) ->
  (storageBlocked (controller (fst c)) = true \/ listed (secretStorage (fst c)))
  /\ (RollbackFailed ∈ trace (fst c) \/ indexed (secretStorage (fst c))).
Proof using createId_inj hash_ok json_round.
  intros Hl Hx Hr Hq. pose proof (reachable_inv _ _ Hl Hx Hr) as Hi. apply (inv_vault _ _ _ _ Hi). exact Hq.
Qed.

(** C11: The storage queue runs one operation at a time, in the order they were
    asked for, and loses no turn: at most one ticket is running, all before it are
    released, and every ticket that is not released belongs to a program of its
    own that has not ended.  So when every call has ended the queue is free. *)
Theorem storage_turns storage c : listed storage -> indexed storage -> reachable storage c ->
  (forall n m, queue (fst c) !! n = Some Running -> m < n -> queue (fst c) !! m = Some Released)
  /\ (forall n m, queue (fst c) !! n = Some Running -> queue (fst c) !! m = Some Running -> n = m)
  /\ (exists owner : nat -> nat, forall n x, queue (fst c) !! n = Some x -> x <> Released ->
        (exists p, snd c !! owner n = Some p /\ finished p = None)
        /\ forall m y, queue (fst c) !! m = Some y -> y <> Released -> owner m = owner n -> m = n)
  /\ (Forall (fun p => is_Some (finished p)) (snd c) -> Forall (eq Released) (queue (fst c))).
Proof using createId_inj hash_ok json_round.
  intros Hl Hx Hr. destruct (controller_config_ok _ _ Hl Hx Hr) as [_ (ts & Ho & Hs)]. pose proof (inv_queue _ _ _ _ (owned_holds _ _ _ _ _ Ho)) as Hq.
  assert (Hat : forall n x, queue (fst c) !! n = Some x -> x <> Released ->
    exists p, snd c !! position (Some n) ts = Some p /\ finished p = None /\ ts !! position (Some n) ts = Some (Some n)).
  { intros n x Hn Hne. assert (Hin : Some n ∈ ts) by (apply (owned_tickets _ _ _ _ _ Ho); eauto). apply position_at in Hin as Ht.
    destruct (Forall2_lookup_r _ _ _ _ _ Hs Ht) as (p & Hp & Hsafe). eauto using owner_unfinished. }
  split; [intros n m Hn Hm; by eapply running_below|]. split; [intros n m Hn Hm; by eapply (running_once (fst c))|]. split.
  - exists (fun n => position (Some n) ts). intros n x Hn Hne. destruct (Hat _ _ Hn Hne) as (p & Hp & Hf & Ht). split; [by eauto|].
    intros m y Hm Hme Heq. destruct (Hat _ _ Hm Hme) as (_ & _ & _ & Ht'). congruence.
  - intros Hall. apply Forall_lookup_2. intros n x Hn. assert (Hne : x = Released \/ x <> Released) by (destruct x; auto). destruct Hne as [Hne|Hne]; [done|].
    destruct (Hat _ _ Hn Hne) as (p & Hp & Hf & _). rewrite Forall_lookup in Hall. apply Hall in Hp as [r Hr']. congruence.
Qed.
End Controller.
