(* ===== verification/CredentialWitnesses.v ===== *)
(** The theorems about the credential controller at a concrete run: an empty
    storage, a request for a credential that the user types and wants to keep,
    the report that the server accepted it, and the same report once more. *)

From Stdlib Require Import ZArith Lia Ascii String List.
From stdpp Require Import base option list gmap strings relations countable pretty.
From S2P Require Import Prelude JsString JsMap JsValue RemoteTypes Async CredentialTypes CredentialController CredentialInvariant CredentialLogic CredentialParsers CredentialTheorems.

Local Open Scope string_scope.

(** ** Hashes and ids *)
Definition zeros : string := "0000000000000000000000000000000000000000000000000000000000000000".
Definition test_hash (s : string) : string := zeros.
Definition test_id (n : nat) : string := "00000000-0000-4000-8000-00000000000" ++ pretty n.
Lemma test_id_inj i j : test_id i = test_id j -> i = j.
Proof. unfold test_id. intros H. apply (inj pretty). by apply (inj (String.append "00000000-0000-4000-8000-00000000000")). Qed.

(** ** A text for every value *)
Definition leaf : Type := unit + (bool + (Z + (Z * Z + string))).
Fixpoint to_tree (v : js_value) : gen_tree leaf :=
  match v with
  | VNull => GenLeaf (inl tt)
  | VBool b => GenLeaf (inr (inl b))
  | VNum (NumInt z) => GenLeaf (inr (inr (inl z)))
  | VNum (NumFraction a b) => GenLeaf (inr (inr (inr (inl (a, b)))))
  | VStr s => GenLeaf (inr (inr (inr (inr s))))
  | VArr items => GenNode 0 (map to_tree items)
  | VObj fields => GenNode 1 (flat_map (fun p => [GenLeaf (inr (inr (inr (inr (fst p))))); to_tree (snd p)]) fields)
  end.
Fixpoint of_tree (t : gen_tree leaf) : js_value :=
  match t with
  | GenLeaf (inl _) => VNull
  | GenLeaf (inr (inl b)) => VBool b
  | GenLeaf (inr (inr (inl z))) => VNum (NumInt z)
  | GenLeaf (inr (inr (inr (inl (a, b))))) => VNum (NumFraction a b)
  | GenLeaf (inr (inr (inr (inr s)))) => VStr s
  | GenNode 0 ts => VArr (map of_tree ts)
  | GenNode _ ts =>
      VObj ((fix go ts := match ts with
             | GenLeaf (inr (inr (inr (inr k)))) :: t :: rest => (k, of_tree t) :: go rest
             | _ => []
             end) ts)
  end.
Fixpoint of_to_tree (v : js_value) : of_tree (to_tree v) = v.
Proof.
  destruct v as [|b|[z|a b]|s|items|fields]; try reflexivity.
  - cbn. f_equal. induction items as [|v items IH]; cbn; [done|]. by rewrite of_to_tree, IH.
  - cbn. f_equal. induction fields as [|[k v] fields IH]; cbn; [done|]. by rewrite of_to_tree, IH.
Defined.

Fixpoint bits (p : positive) : string :=
  match p with xH => "" | xO p => String "0" (bits p) | xI p => String "1" (bits p) end.
Fixpoint of_bits (s : string) : positive :=
  match s with EmptyString => xH | String c s => if bool_decide (c = "0"%char) then xO (of_bits s) else xI (of_bits s) end.
Lemma of_bits_bits p : of_bits (bits p) = p.
Proof. induction p as [p IH|p IH|]; cbn; [by rewrite IH|by rewrite IH|done]. Qed.
Definition test_stringify (v : js_value) : string := bits (encode (to_tree v)).
Definition test_parse (s : string) : option js_value :=
  match decode (A:=gen_tree leaf) (of_bits s) with Some t => Some (of_tree t) | None => None end.
Lemma test_round v : test_parse (test_stringify v) = Some v.
Proof. unfold test_parse, test_stringify. by rewrite of_bits_bits, decode_encode, of_to_tree. Qed.

(** ** A run *)
Definition test_reply (q : question) : World -> result (answer q) * World :=
  match q return World -> result (answer q) * World with
  | GetSecret key => fun w => (Ok (secretStorage w !! key), w)
  | StoreSecret key value => fun w => (Ok tt, with_secretStorage (<[key := value]> (secretStorage w)) w)
  | DeleteSecret key => fun w => (Ok tt, with_secretStorage (delete key (secretStorage w)) w)
  | PickAccount _ _ => fun w => (Ok (Some "alice"), w)
  | PromptSecret _ _ => fun w => (Ok (Some "open sesame"), w)
  | PickPersistence _ => fun w => (Ok (Some InSecretStorage), w)
  | ConfirmLegacyClear _ _ => fun w => (Ok true, w)
  end.
Lemma test_reply_ok q w : answers q w (fst (test_reply q w)) (snd (test_reply q w)).
Proof. destruct q; cbn; auto. Qed.

Abbreviation test_handler := (createCredentialRequestHandler test_hash test_id test_parse test_stringify (fun _ => false) (fun _ => None)).
Abbreviation test_step := (credential_step test_hash test_id test_parse test_stringify (fun _ => false) (fun _ => None)).
(** The handler is called and everything that can go on goes on. *)
Definition called (method : string) (params : js_value) (c : config) : config :=
  let '(p, s, started) := run (logged (test_handler method (Some params))) (fst c) in
  drain test_reply 60 (s, p :: started ++ snd c).
Lemma called_steps method params c : rtc test_step c (called method params c).
Proof.
  destruct c as [s pool]. unfold called. destruct (run _ _) as [[p s'] started] eqn:E. eapply rtc_l; [|apply drain_steps, test_reply_ok].
  eapply step_call; [|exact E]. constructor.
Qed.

Definition test_request : CredentialRequest :=
  {| req_requestId := "r1"; req_operationId := "00000000-0000-4000-8000-0000000000aa";
     req_endpoint := {| scheme := Https; canonicalHost := "svn.example.org"; effectivePort := 443 |}; req_authKind := Basic;
     req_realm := "Private"; req_account := FixedAccount "alice"; req_attempt := InitialAttempt; req_interactive := true;
     req_persistenceAllowed := true; req_origin := Foreground; req_timeoutMs := 1000 |}.
Definition test_settlement : CredentialSettlementRequest :=
  {| settle_requestId := "r2"; settle_operationId := "00000000-0000-4000-8000-0000000000aa";
     settle_leaseId := test_id 2; settle_outcome := Accepted; settle_timeoutMs := 1000 |}.
Abbreviation configuration := (@config World question answer).
Definition test_start : configuration := (newWorld ∅ 0 true, []).
Definition after_request : configuration := called "credentials/request" (encode_request test_request) test_start.
Definition after_settlement : configuration := called "credentials/settle" (encode_settlement test_settlement) after_request.
Definition after_both : configuration := called "credentials/settle" (encode_settlement test_settlement) after_settlement.

Lemma empty_listed : listed test_hash test_parse ∅.
Proof. exists []. split; [done|]. by intros e ?%elem_of_nil. Qed.
Lemma empty_indexed : indexed test_hash test_parse ∅.
Proof. exists []. split; [done|]. intros k _ [x Hx]. by rewrite lookup_empty in Hx. Qed.
Abbreviation test_reachable := (reachable test_hash test_id test_parse test_stringify (fun _ => false) (fun _ => None) ∅).
Lemma request_reached : test_reachable after_request.
Proof. exists 0%Z true. apply called_steps. Qed.
Lemma settlement_reached : test_reachable after_settlement.
Proof. exists 0%Z true. etransitivity; apply called_steps. Qed.
Lemma both_reached : test_reachable after_both.
Proof. exists 0%Z true. etransitivity; [apply called_steps|]. etransitivity; apply called_steps. Qed.
Lemma test_hash_ok s : isHash (test_hash s) = true.
Proof. by vm_compute. Qed.
Lemma test_json v : json_ok v = true -> test_parse (test_stringify v) = Some v.
Proof. intros _. apply test_round. Qed.

Definition test_ack : CredentialSettlementAck := settlementAck test_settlement.
(** The second report finds the tombstone and is acknowledged again. *)
Example both_trace : trace (fst after_both) =
  [Issued (test_id 2) (req_operationId test_request); Settled (test_id 2) Accepted; Acknowledged test_ack; Acknowledged test_ack].
Proof. by vm_compute. Qed.
Example no_turn_left : queue (fst after_settlement) = [Released; Released; Released; Released].
Proof. by vm_compute. Qed.
(** The credential and its index are in the storage. *)
Example credential_kept : size (secretStorage (fst after_settlement)) = 2.
Proof. by vm_compute. Qed.

Lemma leases_current_witness : exists lease, map_get (pendingLeases (controller (fst after_request))) (test_id 2) = Some lease
  /\ lease_connectionEpoch lease = connectionEpoch (controller (fst after_request)).
Proof.
  destruct (leases_current test_hash test_id test_parse test_stringify (fun _ => false) (fun _ => None) test_id_inj test_hash_ok test_json
    ∅ after_request empty_listed empty_indexed request_reached) as [H _].
  destruct (map_get (pendingLeases (controller (fst after_request))) (test_id 2)) as [lease|] eqn:E; [|by vm_compute in E].
  exists lease. split; [reflexivity|]. by destruct (H _ _ E) as (_ & He & _).
Defined.
Lemma settlements_agree_witness : Acknowledged test_ack ∈ trace (fst after_both)
  /\ map_get (pendingLeases (controller (fst after_both))) (test_id 2) = None.
Proof.
  assert (Hin : Acknowledged test_ack ∈ trace (fst after_both)) by (rewrite both_trace; do 2 right; left). split; [exact Hin|].
  destruct (settlements_agree test_hash test_id test_parse test_stringify (fun _ => false) (fun _ => None) test_id_inj test_hash_ok test_json
    ∅ after_both test_ack test_ack empty_listed empty_indexed both_reached Hin Hin eq_refl) as (_ & _ & H & _). exact H.
Defined.
Lemma vault_intact_witness : storageBlocked (controller (fst after_settlement)) = false /\ listed test_hash test_parse (secretStorage (fst after_settlement)).
Proof.
  assert (Hb : storageBlocked (controller (fst after_settlement)) = false) by by vm_compute. split; [exact Hb|].
  destruct (vault_intact test_hash test_id test_parse test_stringify (fun _ => false) (fun _ => None) test_id_inj test_hash_ok test_json
    ∅ after_settlement empty_listed empty_indexed settlement_reached) as [[H|H] _]; [|congruence|exact H].
  rewrite no_turn_left. intros n H. do 4 (destruct n as [|n]; [by injection H|]). by destruct n.
Defined.
Lemma storage_turns_witness : queue (fst after_settlement) <> [] /\ Forall (eq Released) (queue (fst after_settlement)).
Proof.
  split; [by rewrite no_turn_left|].
  destruct (storage_turns test_hash test_id test_parse test_stringify (fun _ => false) (fun _ => None) test_id_inj test_hash_ok test_json
    ∅ after_settlement empty_listed empty_indexed settlement_reached) as (_ & _ & _ & H). apply H.
  rewrite Forall_forall. intros p Hp.
  assert (Hall : forallb (fun p => match finished p with Some _ => true | None => false end) (snd after_settlement) = true) by by vm_compute.
  rewrite forallb_forall in Hall. apply list_elem_of_In, Hall in Hp. destruct (finished p); [by eexists|done].
Defined.
