(* ===== verification/CertificateTrust.v ===== *)
(** auth/certificateTrustController.ts: whether a server certificate that the
    system does not trust is accepted.

    The controller is a program of Async.v.  The world holds its map of open
    prompts, the promises the map refers to with the request each was made for,
    the secret storage, the clock and whether the workspace is trusted; [trace]
    records what the user was asked, decided, and what the backend was told.
    SHA-256 and [JSON] are parameters. *)

From Stdlib Require Import ZArith Lia Ascii String List.
From stdpp Require Import base option list gmap strings relations.
From S2P Require Import Prelude JsString JsMap JsValue RemoteTypes Async CredentialTypes.

Local Open Scope string_scope.

Definition SUBVERSIONR_CERTIFICATE_CANCELLED := "SUBVERSIONR_CERTIFICATE_CANCELLED".
Definition SUBVERSIONR_CERTIFICATE_CHANGED := "SUBVERSIONR_CERTIFICATE_CHANGED".
Definition SUBVERSIONR_CERTIFICATE_FINGERPRINT_ALGORITHM_UNSUPPORTED := "SUBVERSIONR_CERTIFICATE_FINGERPRINT_ALGORITHM_UNSUPPORTED".
Definition SUBVERSIONR_CERTIFICATE_NON_INTERACTIVE := "SUBVERSIONR_CERTIFICATE_NON_INTERACTIVE".
Definition SUBVERSIONR_CERTIFICATE_PERSISTENCE_DISALLOWED := "SUBVERSIONR_CERTIFICATE_PERSISTENCE_DISALLOWED".
Definition SUBVERSIONR_CERTIFICATE_REALM_REQUIRED := "SUBVERSIONR_CERTIFICATE_REALM_REQUIRED".
Definition SUBVERSIONR_CERTIFICATE_REJECTED := "SUBVERSIONR_CERTIFICATE_REJECTED".
Definition SUBVERSIONR_CERTIFICATE_STORE_INVALID := "SUBVERSIONR_CERTIFICATE_STORE_INVALID".
Definition SUBVERSIONR_CERTIFICATE_TIMEOUT := "SUBVERSIONR_CERTIFICATE_TIMEOUT".
Definition SUBVERSIONR_CERTIFICATE_UNTRUSTED_WORKSPACE := "SUBVERSIONR_CERTIFICATE_UNTRUSTED_WORKSPACE".
Definition SUPPORTED_FINGERPRINT_ALGORITHM := "sha256-der".

Inductive CertificateTrustDecision := RejectCertificate | TrustOnce | TrustPermanent.
Record CertificateTrustRequest := {
  cert_requestId : string; realm : string; host : string; fingerprint : string; fingerprintAlgorithm : string; failures : list string;
  validFrom : string; validTo : string; issuer : option string; subject : option string; interactive : bool; persistenceAllowed : bool;
  cert_origin : CredentialOrigin; timeoutMs : Z; cert_repositoryId : option string; cert_workingCopyRoot : option string;
}.
Record CertificateTrustError := { cert_code : string; cert_category : string; cert_messageKey : string; cert_args : list (string * safe_arg) }.
(** The trust of an answer is [TrustOnce] or [TrustPermanent]. *)
Inductive CertificateTrustResponse :=
  | Trusted (requestId : string) (certificateTrust : CertificateTrustDecision) (print algorithm : string)
  | Refused (requestId : string) (error : CertificateTrustError).
Record StoredCertificateTrust := { stored_fingerprint : string; stored_fingerprintAlgorithm : string; stored_trustedAt : string }.

Definition CertificateTrustRpcError (code category messageKey : string) (safeArgs : list (string * safe_arg)) : js_error :=
  StructuredError "CertificateTrustRpcError" code category messageKey safeArgs.
Definition invalidCertificateParams (f : string) : js_error :=
  CertificateTrustRpcError "RPC_INVALID_PARAMS" "protocol" "error.rpc.invalidParams" [("field", ArgString f)].

(** ** The parser *)
Definition blank (s : string) : bool := Nat.eqb (String.length (trim s)) 0.
Definition requireRecord (value : option js_value) (f : string) : result js_value :=
  match value with
  | Some (VObj fields) => Ok (VObj fields)
  | Some (VArr items) => Ok (VArr items)
  | _ => Throw (invalidCertificateParams f)
  end.
Definition requireString (value : option js_value) (f : string) : result string :=
  match value with
  | Some (VStr s) => if blank s then Throw (invalidCertificateParams f) else Ok s
  | _ => Throw (invalidCertificateParams f)
  end.
Definition optionalString (value : option js_value) (f : string) : result (option string) :=
  match value with
  | None => Ok None
  | Some v => s ← requireString (Some v) f; Ok (Some s)
  end.
Definition filled_text (v : js_value) : option string :=
  match v with VStr s => if blank s then None else Some s | _ => None end.
Definition requireStringArray (value : option js_value) (f : string) : result (list string) :=
  match value with
  | Some (VArr (item :: rest)) =>
      match mapM filled_text (item :: rest) with Some texts => Ok texts | None => Throw (invalidCertificateParams f) end
  | _ => Throw (invalidCertificateParams f)
  end.
Definition requireBoolean (value : option js_value) (f : string) : result bool :=
  match value with Some (VBool b) => Ok b | _ => Throw (invalidCertificateParams f) end.
Definition requireNumber (value : option js_value) (f : string) : result Z :=
  match value with Some (VNum (NumInt z)) => Ok z | _ => Throw (invalidCertificateParams f) end.

Definition parseCertificateTrustRequest (params : option js_value) : result CertificateTrustRequest :=
  record ← requireRecord params "params";
  originText ← requireString (field record "origin") "origin";
  origin ← match map_get ORIGINS originText with Some o => Ok o | None => Throw (invalidCertificateParams "origin") end;
  requestId ← requireString (field record "requestId") "requestId";
  rlm ← requireString (field record "realm") "realm";
  hst ← requireString (field record "host") "host";
  print ← requireString (field record "fingerprint") "fingerprint";
  algorithm ← requireString (field record "fingerprintAlgorithm") "fingerprintAlgorithm";
  fails ← requireStringArray (field record "failures") "failures";
  from ← requireString (field record "validFrom") "validFrom";
  to ← requireString (field record "validTo") "validTo";
  iss ← optionalString (field record "issuer") "issuer";
  subj ← optionalString (field record "subject") "subject";
  inter ← requireBoolean (field record "interactive") "interactive";
  persist ← requireBoolean (field record "persistenceAllowed") "persistenceAllowed";
  timeout ← requireNumber (field record "timeoutMs") "timeoutMs";
  repo ← optionalString (field record "repositoryId") "repositoryId";
  root ← optionalString (field record "workingCopyRoot") "workingCopyRoot";
  Ok {| cert_requestId := requestId; realm := rlm; host := hst; fingerprint := print; fingerprintAlgorithm := algorithm;
        failures := fails; validFrom := from; validTo := to; issuer := iss; subject := subj; interactive := inter;
        persistenceAllowed := persist; cert_origin := origin; timeoutMs := timeout; cert_repositoryId := repo; cert_workingCopyRoot := root |}.

(** ** The world *)
Inductive question :=
  | GetSecret (key : string)
  | StoreSecret (key value : string)
  | PickTrust (request : CertificateTrustRequest).
Definition answer (q : question) : Type :=
  match q with
  | GetSecret _ => option string
  | StoreSecret _ _ => unit
  | PickTrust _ => option CertificateTrustDecision
  end.
Inductive trace_event :=
  | Asked (request : CertificateTrustRequest)
  | Decided (request : CertificateTrustRequest) (decision : CertificateTrustDecision)
  | Answered (request : CertificateTrustRequest) (response : CertificateTrustResponse).
Record World := {
  pendingInteractivePrompts : list (string * nat);
  promptPromises : list (option (result CertificateTrustResponse));
  promptRequests : list CertificateTrustRequest;
  secretStorage : gmap string string;
  clock : string;
  workspaceTrusted : bool;
  trace : list trace_event;
}.
Definition with_pending (x : list (string * nat)) (w : World) : World :=
  {| pendingInteractivePrompts := x; promptPromises := promptPromises w; promptRequests := promptRequests w;
     secretStorage := secretStorage w; clock := clock w; workspaceTrusted := workspaceTrusted w; trace := trace w |}.
Definition with_promptPromises (x : list (option (result CertificateTrustResponse))) (w : World) : World :=
  {| pendingInteractivePrompts := pendingInteractivePrompts w; promptPromises := x; promptRequests := promptRequests w;
     secretStorage := secretStorage w; clock := clock w; workspaceTrusted := workspaceTrusted w; trace := trace w |}.
Definition with_secretStorage (x : gmap string string) (w : World) : World :=
  {| pendingInteractivePrompts := pendingInteractivePrompts w; promptPromises := promptPromises w; promptRequests := promptRequests w;
     secretStorage := x; clock := clock w; workspaceTrusted := workspaceTrusted w; trace := trace w |}.
Definition with_host (t : string) (b : bool) (w : World) : World :=
  {| pendingInteractivePrompts := pendingInteractivePrompts w; promptPromises := promptPromises w; promptRequests := promptRequests w;
     secretStorage := secretStorage w; clock := t; workspaceTrusted := b; trace := trace w |}.
Definition with_event (e : trace_event) (w : World) : World :=
  {| pendingInteractivePrompts := pendingInteractivePrompts w; promptPromises := promptPromises w; promptRequests := promptRequests w;
     secretStorage := secretStorage w; clock := clock w; workspaceTrusted := workspaceTrusted w; trace := (trace w ++ [e])%list |}.

Abbreviation prog := (@Async.prog World question answer).
Open Scope prog_scope.

(** The promise of a prompt is made, and the map refers to it.  [pickTrust] runs
    before the entry is made and reads nothing of the map. *)
Definition open_prompt (key : string) (request : CertificateTrustRequest) : method World nat := fun w =>
  (Ok (length (promptPromises w)),
   {| pendingInteractivePrompts := map_set (pendingInteractivePrompts w) key (length (promptPromises w));
      promptPromises := (promptPromises w ++ [None])%list; promptRequests := (promptRequests w ++ [request])%list;
      secretStorage := secretStorage w; clock := clock w; workspaceTrusted := workspaceTrusted w; trace := trace w |}).
Definition settle_prompt (i : nat) (r : result CertificateTrustResponse) : method World unit :=
  modify_state (fun w => with_promptPromises (<[i := Some r]> (promptPromises w)) w).
Definition close_prompt (key : string) (i : nat) : method World unit := modify_state (fun w =>
  if bool_decide (map_get (pendingInteractivePrompts w) key = Some i)
  then with_pending (map_delete (pendingInteractivePrompts w) key) w else w).
Definition record_event (e : trace_event) : method World unit := modify_state (with_event e).

Section Controller.
Context (hashText : string -> string) (json_parse : string -> option js_value) (json_stringify : js_value -> string).

Definition realmHash (request : CertificateTrustRequest) : string := hashText ("certificate" ++ String NUL (realm request)).
Definition certificateTrustStorageKey (request : CertificateTrustRequest) : string := "subversionr.certificateTrust.v1." ++ realmHash request.
Definition certificatePromptKey (request : CertificateTrustRequest) : string :=
  certificateTrustStorageKey request ++ String NUL (fingerprintAlgorithm request ++ String NUL (fingerprint request
    ++ String NUL (if persistenceAllowed request then "true" else "false"))).
Definition safeCertificateArgs (request : CertificateTrustRequest) : list (string * safe_arg) :=
  [("realmHash", ArgString (realmHash request)); ("fingerprint", ArgString (fingerprint request));
   ("fingerprintAlgorithm", ArgString (fingerprintAlgorithm request)); ("failureCount", ArgNumber (Z.of_nat (length (failures request))));
   ("origin", ArgString (text_of ORIGINS (cert_origin request)))].

Definition trust (request : CertificateTrustRequest) (certificateTrust : CertificateTrustDecision) : CertificateTrustResponse :=
  Trusted (cert_requestId request) certificateTrust (fingerprint request) (fingerprintAlgorithm request).
Definition reject (request : CertificateTrustRequest) (code category messageKey : string) : CertificateTrustResponse :=
  Refused (cert_requestId request) {| cert_code := code; cert_category := category; cert_messageKey := messageKey; cert_args := safeCertificateArgs request |}.
Definition withRequestId (response : CertificateTrustResponse) (requestId : string) : CertificateTrustResponse :=
  match response with
  | Trusted _ t print algorithm => Trusted requestId t print algorithm
  | Refused _ error => Refused requestId error
  end.

(** ** The storage *)
Definition parse_trust (raw : string) : option StoredCertificateTrust :=
  match json_parse raw with
  | Some v =>
      match field v "fingerprint", field v "trustedAt" with
      | Some (VStr print), Some (VStr at_) =>
          if number_is 1 (field v "version") && text_is SUPPORTED_FINGERPRINT_ALGORITHM (field v "fingerprintAlgorithm")
          then Some {| stored_fingerprint := print; stored_fingerprintAlgorithm := SUPPORTED_FINGERPRINT_ALGORITHM; stored_trustedAt := at_ |}
          else None
      | _, _ => None
      end
  | None => None
  end.
Definition readStoredCertificateTrust (storageKey : string) (request : CertificateTrustRequest)
    : prog (option StoredCertificateTrust + CertificateTrustResponse) :=
  raw <~ await (ask (GetSecret storageKey));
  ret match raw with
      | None => inl None
      | Some raw =>
          match parse_trust raw with
          | Some stored => inl (Some stored)
          | None => inr (reject request SUBVERSIONR_CERTIFICATE_STORE_INVALID "auth" "error.auth.certificateStoreInvalid")
          end
      end.
Definition trust_text (request : CertificateTrustRequest) (at_ : string) : string :=
  json_stringify (VObj [("version", VNum (NumInt 1)); ("fingerprint", VStr (fingerprint request));
                        ("fingerprintAlgorithm", VStr (fingerprintAlgorithm request)); ("trustedAt", VStr at_)]).

(** ** Prompts *)
Definition withCertificateTimeout {A} (request : CertificateTrustRequest) (p : prog A) : prog (option A) :=
  deadline_race (fun _ => (timeoutMs request <=? 0)%Z) p.

Definition promptForCertificateTrust (request : CertificateTrustRequest) (storageKey : string) : prog CertificateTrustResponse :=
  _ <~ sync (record_event (Asked request));
  decision <~ await (withCertificateTimeout request (ask (PickTrust request)));
  match decision with
  | None => ret (reject request SUBVERSIONR_CERTIFICATE_TIMEOUT "auth" "error.auth.certificateTimeout")
  | Some None => ret (reject request SUBVERSIONR_CERTIFICATE_CANCELLED "auth" "error.auth.certificateCancelled")
  | Some (Some d) =>
      _ <~ sync (record_event (Decided request d));
      match d with
      | RejectCertificate => ret (reject request SUBVERSIONR_CERTIFICATE_REJECTED "auth" "error.auth.certificateRejected")
      | TrustPermanent =>
          if negb (persistenceAllowed request)
          then ret (reject request SUBVERSIONR_CERTIFICATE_PERSISTENCE_DISALLOWED "auth" "error.auth.certificatePersistenceDisallowed")
          else
            at_ <~ sync (get clock);
            _ <~ await (ask (StoreSecret storageKey (trust_text request at_)));
            ret (trust request TrustPermanent)
      | TrustOnce => ret (trust request TrustOnce)
      end
  end.

Definition prompted_answer (request : CertificateTrustRequest) (storageKey : string) : prog CertificateTrustResponse :=
  let pendingKey := certificatePromptKey request in
  pending <~ sync (get (fun w => map_get (pendingInteractivePrompts w) pendingKey));
  match pending with
  | Some i => response <~ promise promptPromises i; ret (withRequestId response (cert_requestId request))
  | None =>
      i <~ sync (open_prompt pendingKey request);
      Fork (Async.bind (promptForCertificateTrust request storageKey) (fun r => sync (settle_prompt i r)))
        (finally (response <~ promise promptPromises i; ret (withRequestId response (cert_requestId request))) (close_prompt pendingKey i))
  end.

Definition background (request : CertificateTrustRequest) : bool :=
  negb (interactive request) || bool_decide (cert_origin request = Background).

Definition handleCertificateTrustRequest (request : CertificateTrustRequest) : prog CertificateTrustResponse :=
  trusted <~ sync (get workspaceTrusted);
  if negb trusted then ret (reject request SUBVERSIONR_CERTIFICATE_UNTRUSTED_WORKSPACE "lifecycle" "error.auth.certificateUntrustedWorkspace")
  else if blank (realm request) then ret (reject request SUBVERSIONR_CERTIFICATE_REALM_REQUIRED "auth" "error.auth.certificateRealmRequired")
  else if negb (bool_decide (fingerprintAlgorithm request = SUPPORTED_FINGERPRINT_ALGORITHM)) then
    ret (reject request SUBVERSIONR_CERTIFICATE_FINGERPRINT_ALGORITHM_UNSUPPORTED "auth" "error.auth.certificateFingerprintAlgorithmUnsupported")
  else
    let storageKey := certificateTrustStorageKey request in
    stored <~ await (readStoredCertificateTrust storageKey request);
    match stored with
    | inr response => ret response
    | inl (Some stored) =>
        if bool_decide (stored_fingerprint stored = fingerprint request)
           && bool_decide (stored_fingerprintAlgorithm stored = fingerprintAlgorithm request)
        then ret (trust request TrustPermanent)
        else if background request then ret (reject request SUBVERSIONR_CERTIFICATE_CHANGED "auth" "error.auth.certificateChanged")
        else prompted_answer request storageKey
    | inl None =>
        if background request then ret (reject request SUBVERSIONR_CERTIFICATE_NON_INTERACTIVE "auth" "error.auth.certificateNonInteractive")
        else prompted_answer request storageKey
    end.

Definition createCertificateTrustRequestHandler (method : string) (params : option js_value) : prog CertificateTrustResponse :=
  if negb (bool_decide (method = "certificate/request")) then
    throw (CertificateTrustRpcError "RPC_METHOD_NOT_FOUND" "unsupported" "error.rpc.methodNotFound" [("method", ArgString method)])
  else
    match parseCertificateTrustRequest params with
    | Ok request => await (handleCertificateTrustRequest request)
    | Throw e => throw e
    end.

(** ** The controller in its world *)
Definition logged (method : string) (params : option js_value) : prog unit :=
  Async.bind (createCertificateTrustRequestHandler method params) (fun r =>
    match r, parseCertificateTrustRequest params with
    | Ok response, Ok request => sync (record_event (Answered request response))
    | _, _ => ret tt
    end).
Inductive client_call : prog unit -> Prop :=
  | call_handler method params : client_call (logged method params).
Inductive world_moves : World -> World -> Prop :=
  | world_moves_to w t b : world_moves w (with_host t b w).
(** The storage does what it is asked, or rejects and may have done it. *)
Definition answers (q : question) : World -> result (answer q) -> World -> Prop :=
  match q return World -> result (answer q) -> World -> Prop with
  | GetSecret key => fun w r w' => w' = w /\ (r = Ok (secretStorage w !! key) \/ exists e, r = Throw e)
  | StoreSecret key value => fun w r w' =>
      let w1 := with_secretStorage (<[key := value]> (secretStorage w)) w in
      (r = Ok tt /\ w' = w1) \/ exists e, r = Throw e /\ (w' = w \/ w' = w1)
  | PickTrust _ => fun w _ w' => w' = w
  end.
Definition certificate_step : config -> config -> Prop := step answers client_call world_moves.
End Controller.
