(* ===== verification/CertificateTrustFacts.v ===== *)
(** What the certificate controller answers follows from a decision: the
    invariant of its world, that every method keeps it, and a concrete run. *)

From Stdlib Require Import ZArith Lia Ascii String List.
From stdpp Require Import base option list gmap strings relations.
From S2P Require Import Prelude JsString JsMap JsValue RemoteTypes Async CredentialTypes CredentialWitnesses CertificateTrust.

Local Open Scope string_scope.

(** ** Keys *)
Lemma longer_prefix a : forall b x y, String.length b = S (String.length a) -> a ++ x = b ++ y -> exists c, x = String c y.
Proof.
  induction a as [|c a IH]; intros [|d b] x y Hl H; try discriminate Hl.
  - destruct b as [|? b]; [|discriminate Hl]. exists d. exact H.
  - injection H as -> H. apply (IH b); [|done]. by injection Hl.
Qed.
Lemma flagged_inj a b (x y : bool) :
  a ++ String NUL (if x then "true" else "false") = b ++ String NUL (if y then "true" else "false") -> a = b /\ x = y.
Proof.
  intros H. pose proof (f_equal String.length H) as Hl. rewrite !length_app in Hl. destruct x, y; cbn in Hl.
  - apply same_length_inj in H as [-> _]; [done|lia].
  - symmetry in H. apply longer_prefix in H as [c [= ]]. lia.
  - apply longer_prefix in H as [c [= ]]. lia.
  - apply same_length_inj in H as [-> _]; [done|lia].
Qed.

Lemma is_text t v : text_is t v = true -> v = Some (VStr t).
Proof. destruct v as [[]|]; cbn; try done. by intros ->%bool_decide_eq_true. Qed.
Lemma is_number n v : number_is n v = true -> v = Some (VNum (NumInt n)).
Proof. destruct v as [[| |[]| | |]|]; cbn; try done. by intros ->%Z.eqb_eq. Qed.
Lemma foreground_only r : background r = false -> interactive r = true /\ cert_origin r = Foreground.
Proof.
  unfold background. intros [H1%negb_false_iff H2]%orb_false_iff. split; [done|]. apply bool_decide_eq_false in H2. by destruct (cert_origin r).
Qed.

Section Facts.
Context (hashText : string -> string) (json_parse : string -> option js_value) (json_stringify : js_value -> string).
Context (hash_ok : forall s, isHash (hashText s) = true)
  (json_round : forall v, json_ok v = true -> json_parse (json_stringify v) = Some v).
Context (storage : gmap string string).
Local Abbreviation storageKey := (certificateTrustStorageKey hashText).
Local Abbreviation promptKey := (certificatePromptKey hashText).

Lemma promptKey_inj r r' : fingerprintAlgorithm r = fingerprintAlgorithm r' -> promptKey r = promptKey r' ->
  storageKey r = storageKey r' /\ fingerprint r = fingerprint r' /\ persistenceAllowed r = persistenceAllowed r'.
Proof using hash_ok.
  intros Ha H. unfold certificatePromptKey in H. apply same_length_inj in H as [Hk H].
  - split; [done|]. injection H as H. rewrite Ha in H. apply same_length_inj in H as [_ H]; [|done]. injection H as H. by apply flagged_inj in H.
  - unfold certificateTrustStorageKey. rewrite !length_app. unfold realmHash. by rewrite !(hash_length _ (hash_ok _)).
Qed.

#[local] Opaque certificatePromptKey certificateTrustStorageKey.

(** ** What answers say *)

(** The storage at the start held a record of this certificate. *)
Definition accepted_before (key print : string) : Prop :=
  exists raw v at_, storage !! key = Some raw /\ json_parse raw = Some v /\ field v "version" = Some (VNum (NumInt 1))
    /\ field v "fingerprint" = Some (VStr print) /\ field v "fingerprintAlgorithm" = Some (VStr "sha256-der") /\ field v "trustedAt" = Some (VStr at_).
Lemma parsed_trust key raw s : storage !! key = Some raw -> parse_trust json_parse raw = Some s -> accepted_before key (stored_fingerprint s).
Proof using Type.
  unfold parse_trust. intros Hraw H. destruct (json_parse raw) as [v|] eqn:Ev; [|done].
  destruct (field v "fingerprint") as [[]|] eqn:Ef; try done. destruct (field v "trustedAt") as [[]|] eqn:Et; try done.
  destruct (number_is 1 _) eqn:En; [|done]. destruct (text_is _ _) eqn:Ea; [|done]. injection H as <-.
  eexists raw, v, _. split_and!; [done|done|by apply is_number|exact Ef|by apply is_text|exact Et].
Qed.
(** The user decided so, for a request that allowed it. *)
Definition decided (tr : list trace_event) (r : CertificateTrustRequest) (d : CertificateTrustDecision) : Prop :=
  d <> RejectCertificate /\ exists r', Decided r' d ∈ tr /\ background r' = false /\ storageKey r' = storageKey r /\ fingerprint r' = fingerprint r
    /\ fingerprintAlgorithm r' = fingerprintAlgorithm r /\ (d = TrustPermanent -> persistenceAllowed r' = true).
Definition answer_ok (tr : list trace_event) (r : CertificateTrustRequest) (response : CertificateTrustResponse) : Prop :=
  match response with
  | Trusted id d print algorithm =>
      id = cert_requestId r /\ print = fingerprint r /\ algorithm = fingerprintAlgorithm r
      /\ (d = TrustPermanent /\ accepted_before (storageKey r) (fingerprint r) \/ decided tr r d)
  | Refused id _ => id = cert_requestId r
  end.
Definition prompt_ok (tr : list trace_event) (r : CertificateTrustRequest) (response : CertificateTrustResponse) : Prop :=
  match response with
  | Trusted _ d print algorithm => print = fingerprint r /\ algorithm = fingerprintAlgorithm r /\ decided tr r d
  | Refused _ _ => True
  end.

(** ** The invariant *)
Record inv (w : World) : Prop := {
  inv_store key raw : secretStorage w !! key = Some raw -> storage !! key = Some raw \/
    exists r at_, Decided r TrustPermanent ∈ trace w /\ background r = false /\ persistenceAllowed r = true /\ storageKey r = key
      /\ fingerprintAlgorithm r = SUPPORTED_FINGERPRINT_ALGORITHM /\ raw = trust_text json_stringify r at_;
  inv_prompts : length (promptRequests w) = length (promptPromises w);
  inv_response i r response : promptRequests w !! i = Some r -> promptPromises w !! i = Some (Some (Ok response)) -> prompt_ok (trace w) r response;
  inv_pending k i : map_get (pendingInteractivePrompts w) k = Some i -> exists r, promptRequests w !! i = Some r /\ promptKey r = k
    /\ fingerprintAlgorithm r = SUPPORTED_FINGERPRINT_ALGORITHM;
  inv_open i r : promptPromises w !! i = Some None -> promptRequests w !! i = Some r ->
    map_get (pendingInteractivePrompts w) (promptKey r) = Some i;
  inv_answered r response : Answered r response ∈ trace w -> answer_ok (trace w) r response;
  inv_asked r : Asked r ∈ trace w -> background r = false;
}.
Definition settled (i : nat) (w : World) : Prop := exists r, promptPromises w !! i = Some (Some r).
Record grows (w w' : World) : Prop := {
  grows_trace : trace w `prefix_of` trace w';
  grows_requests : promptRequests w `prefix_of` promptRequests w';
  grows_settled i : settled i w -> settled i w';
}.
#[local] Instance grows_pre : PreOrder grows.
Proof using Type.
  split; [intros w; by split|]. intros x y z [a1 b1 c1] [a2 b2 c2]. split; [by trans (trace y)|by trans (promptRequests y)|auto].
Qed.
Local Abbreviation rely := (plain_rely grows).
Local Abbreviation guar := (plain_guar inv grows).
Local Abbreviation safe := (Async.safe answers tt inv rely guar).
Local Abbreviation fine_from := (Async.fine_from answers tt inv rely guar).

Lemma decided_grows w w' r d : trace w `prefix_of` trace w' -> decided (trace w) r d -> decided (trace w') r d.
Proof using Type.
  intros [l E] (Hd & r' & Hin & H). split; [done|]. exists r'. split; [|done]. rewrite E. apply elem_of_app. by left.
Qed.
Lemma prompt_ok_grows w w' r x : trace w `prefix_of` trace w' -> prompt_ok (trace w) r x -> prompt_ok (trace w') r x.
Proof using Type. intros Hp. destruct x; [|done]. intros (? & ? & H). split; [done|]. split; [done|]. by eapply decided_grows. Qed.
Lemma answer_ok_grows w w' r x : trace w `prefix_of` trace w' -> answer_ok (trace w) r x -> answer_ok (trace w') r x.
Proof using Type.
  intros Hp. destruct x; [|done]. intros (? & ? & ? & [H|H]); do 3 (split; [done|]); [by left|right]. by eapply decided_grows.
Qed.
Lemma certificate_grows_same w w' : trace w' = trace w -> promptRequests w' = promptRequests w -> (forall i, settled i w -> settled i w') -> grows w w'.
Proof using Type. intros E1 E2 H. split; [by rewrite E1|by rewrite E2|done]. Qed.

(** ** The stretches *)
Lemma event_guar w e : (forall r response, e = Answered r response -> answer_ok (trace w) r response) ->
  (forall r, e = Asked r -> background r = false) -> guar tt w tt (with_event e w).
Proof using Type.
  intros Ha Hq. assert (Hp : trace w `prefix_of` trace (with_event e w)) by by exists [e]. split; [|split; [exact Hp|done|done]].
  intros [s p rp pd op an aq]. split; cbn; [|done| |done|done| |].
  - intros key raw H. destruct (s _ _ H) as [?|(r & at_ & Hin & ?)]; [by left|right]. exists r, at_. split; [|done]. apply elem_of_app. by left.
  - intros i r x H1 H2. eapply (prompt_ok_grows w (with_event e w)); [done|by eapply rp].
  - intros r x [H|H]%elem_of_app; [eapply (answer_ok_grows w (with_event e w)); [done|by apply an]|].
    apply list_elem_of_singleton in H. eapply (answer_ok_grows w (with_event e w)); [done|by apply Ha].
  - intros r [H|H]%elem_of_app; [by apply aq|]. apply list_elem_of_singleton in H. by apply Hq.
Qed.
Lemma same_guar w : guar tt w tt w.
Proof using Type. by split. Qed.
Lemma store_guar w r at_ : Decided r TrustPermanent ∈ trace w -> background r = false -> persistenceAllowed r = true ->
  fingerprintAlgorithm r = SUPPORTED_FINGERPRINT_ALGORITHM ->
  guar tt w tt (with_secretStorage (<[storageKey r := trust_text json_stringify r at_]> (secretStorage w)) w).
Proof using Type.
  intros Hd Hb Hp Ha. split; [|by apply certificate_grows_same]. intros [s p rp pd op an aq]. split; cbn; try done.
  intros key raw. destruct (decide (storageKey r = key)) as [<-|Hne].
  - rewrite lookup_insert_eq. intros [= <-]. right. by exists r, at_.
  - rewrite lookup_insert_ne by done. apply s.
Qed.
Lemma open_guar w r : fingerprintAlgorithm r = SUPPORTED_FINGERPRINT_ALGORITHM -> map_get (pendingInteractivePrompts w) (promptKey r) = None ->
  guar tt w tt (snd (open_prompt (promptKey r) r w)).
Proof using Type.
  intros Ha Hn. assert (Hset : forall i x, promptPromises w !! i = Some x -> (promptPromises w ++ [None])%list !! i = Some x).
  { intros i x Hi. by rewrite lookup_app_l by by eapply lookup_lt_Some. }
  split; [|split; [done|by exists [r]|intros i [x Hx]; exists x; by apply Hset]].
  intros [s p rp pd op an aq]. split; cbn; [done|rewrite !List.length_app; cbn; lia| | | |done|done].
  - intros i r0 x H1 H2. apply lookup_app_Some in H2 as [H2|[_ H2]]; [|by destruct (i - _) as [|[]]].
    rewrite lookup_app_l in H1 by (rewrite p; by eapply lookup_lt_Some). by eapply rp.
  - intros k i. rewrite map_get_set. case_bool_decide as E.
    + intros [= <-]. exists r. split; [|by subst k]. by rewrite lookup_app_r, p, Nat.sub_diag by lia.
    + intros H. destruct (pd _ _ H) as (r0 & Hr & ?). exists r0. split; [|done]. by rewrite lookup_app_l by by eapply lookup_lt_Some.
  - intros i r0 H1 H2. rewrite map_get_set. apply lookup_app_Some in H1 as [H1|[Hge H1]].
    + rewrite lookup_app_l in H2 by (rewrite p; by eapply lookup_lt_Some). specialize (op _ _ H1 H2). case_bool_decide as E; [|done]. rewrite <- E, Hn in op. done.
    + assert (i = length (promptPromises w)) as ->; [|].
      { destruct (i - length (promptPromises w)) as [|[]] eqn:E; [lia|done|done]. }
      rewrite lookup_app_r, p, Nat.sub_diag in H2 by lia. injection H2 as <-. by rewrite bool_decide_eq_true_2.
Qed.
Lemma settle_guar w i r x : promptRequests w !! i = Some r -> (forall a, x = Ok a -> prompt_ok (trace w) r a) ->
  guar tt w tt (snd (settle_prompt i x w)).
Proof using Type.
  intros Hr Hx. split.
  - intros [s p rp pd op an aq]. split; cbn; [done|by rewrite length_insert| |done| |done|done].
    + intros j r0 a H1 H2. apply list_lookup_insert_Some in H2 as [(<- & [= ->] & _)|[Hne H2]]; [|by eapply rp].
      rewrite Hr in H1. injection H1 as <-. by apply Hx.
    + intros j r0 H1 H2. apply list_lookup_insert_Some in H1 as [(<- & [= ] & _)|[Hne H1]]. by eapply op.
  - apply certificate_grows_same; [done|done|]. intros j [y Hy]. unfold settled. cbn. destruct (decide (i = j)) as [->|Hne].
    + exists x. apply list_lookup_insert_eq. by eapply lookup_lt_Some.
    + exists y. by rewrite list_lookup_insert_ne.
Qed.
Lemma close_guar w k i : settled i w -> guar tt w tt (snd (close_prompt k i w)).
Proof using Type.
  intros [y Hy]. unfold close_prompt. cbn. case_bool_decide as E; [|apply same_guar].
  split; [|by apply certificate_grows_same]. intros [s p rp pd op an aq]. split; cbn; try done.
  - intros k' j. rewrite map_get_delete. case_bool_decide; [done|]. apply pd.
  - intros j r H1 H2. rewrite map_get_delete. specialize (op _ _ H1 H2). case_bool_decide as E'; [|done]. congruence.
Qed.

(** ** The methods *)
Lemma fine_event w (Q : unit -> World -> Prop) e : inv w -> guar tt w tt (with_event e w) -> Q tt (with_event e w) -> fine_from Q w (sync (record_event e)).
Proof using Type. intros Hi Hg HQ. apply fine_stretch; [|done]. intros _. split; [exact Hg|]. by intros [] _ _. Qed.
Lemma fine_get {A} w (f : World -> A) : inv w -> fine_from (fun a w' => w' = w /\ a = f w) w (sync (get f)).
Proof using Type. intros Hi. apply fine_stretch; [|done]. intros _. split; [apply same_guar|]. by intros a _ [= <-]. Qed.
Lemma fine_pick w r : fine_from any w (ask (PickTrust r)).
Proof using Type. intros w1 a w2 _ Hi ->. exists tt. split; [apply same_guar|]. by split. Qed.

Definition has_decided r d : unit -> World -> Prop := fun _ w => Decided r d ∈ trace w.
Lemma has_decided_lasting r d : lasting tt rely (has_decided r d).
Proof using Type. intros [] w w' [[l E] _ _] H. unfold has_decided in *. rewrite E. apply elem_of_app. by left. Qed.
Lemma decided_own w r d : d <> RejectCertificate -> background r = false -> (d = TrustPermanent -> persistenceAllowed r = true) ->
  Decided r d ∈ trace w -> prompt_ok (trace w) r (trust r d).
Proof using Type. intros Hd Hb Hp H. do 3 (split; [done|]). by exists r. Qed.

Lemma fine_prompt w r : inv w -> background r = false -> fingerprintAlgorithm r = SUPPORTED_FINGERPRINT_ALGORITHM ->
  fine_from (fun a w => prompt_ok (trace w) r a) w (promptForCertificateTrust hashText json_stringify r (storageKey r)).
Proof using Type.
  intros Hi Hb Ha. unfold promptForCertificateTrust. eapply (fine_then any); [done|apply fine_event; [done| |done]|].
  { apply event_guar; [done|]. by intros ? [= <-]. }
  intros [] w1 Hi1 _. eapply (fine_then any); [done| |].
  { apply fine_await; [done|apply any_kept|]. eapply fine_weaken; [|apply fine_race; [apply any_kept|apply fine_pick]]. done. }
  intros [[d|]|] w2 Hi2 _; [|by apply fine_ret|by apply fine_ret].
  eapply (fine_then (has_decided r d)); [done|apply fine_event; [done| |]|].
  { by apply event_guar. }
  { unfold has_decided. cbn. apply elem_of_app. right. by apply list_elem_of_singleton. }
  intros [] w3 Hi3 Hd. destruct d; [by apply fine_ret| |].
  - apply fine_ret. by apply decided_own.
  - destruct (persistenceAllowed r) eqn:Hp; [|by apply fine_ret]. cbn [negb].
    eapply fine_then; [done|by apply fine_get|]. intros at_ w4 Hi4 [-> ->].
    eapply (fine_then (has_decided r TrustPermanent)); [done| |].
    + apply fine_await; [done|apply has_decided_lasting|]. intros w5 x w6 Hrel Hi5 Hx.
      assert (Hd5 : has_decided r TrustPermanent tt w5) by by eapply has_decided_lasting.
      pose proof (store_guar w5 r (clock w3) Hd5 Hb Hp Ha) as Hs.
      exists tt. destruct Hx as [[-> ->]|(e & -> & [-> | ->])]; (split; [first [exact Hs|apply same_guar]|]); intros _; (split; [done|]);
        intros [] [=]; exact Hd5.
    + intros [] w5 Hi5 Hd5. apply fine_ret. by apply decided_own.
Qed.

Lemma answered_own w r a : prompt_ok (trace w) r a -> answer_ok (trace w) r (withRequestId a (cert_requestId r)).
Proof using Type. destruct a; cbn; [|done]. intros (? & ? & ?). split_and!; [done|done|done|by right]. Qed.
Lemma answered_shared w r r' a : fingerprintAlgorithm r = SUPPORTED_FINGERPRINT_ALGORITHM -> fingerprintAlgorithm r' = SUPPORTED_FINGERPRINT_ALGORITHM ->
  promptKey r' = promptKey r -> prompt_ok (trace w) r' a -> answer_ok (trace w) r (withRequestId a (cert_requestId r)).
Proof using hash_ok.
  intros Ha Ha' Hk. apply promptKey_inj in Hk as (Hs & Hf & Hp); [|congruence]. destruct a; cbn; [|done].
  intros (-> & -> & Hd & r0 & ? & ? & ? & ? & ? & ?). split; [done|]. split; [done|]. split; [congruence|]. right. split; [done|].
  exists r0. split_and!; [done|done|congruence|congruence|congruence|done].
Qed.

Lemma request_stays w w' i r : grows w w' -> promptRequests w !! i = Some r -> promptRequests w' !! i = Some r.
Proof using Type. intros [_ H _] Hr. by eapply prefix_lookup_Some. Qed.
Definition answered_well r : CertificateTrustResponse -> World -> Prop := fun a w => answer_ok (trace w) r a.
Lemma answered_well_lasting r : lasting tt rely (answered_well r).
Proof using Type. intros a w w' [H _ _]. unfold answered_well. by apply answer_ok_grows. Qed.

Lemma prompt_ready_settled w i (x : result CertificateTrustResponse) : mjoin (promptPromises w !! i) = Some x -> promptPromises w !! i = Some (Some x).
Proof using Type. destruct (promptPromises w !! i) as [[y|]|]; by intros [= ->]. Qed.

Lemma fine_prompted_answer w r : inv w -> background r = false -> fingerprintAlgorithm r = SUPPORTED_FINGERPRINT_ALGORITHM ->
  fine_from (answered_well r) w (prompted_answer hashText json_stringify r (storageKey r)).
Proof using hash_ok.
  intros Hi Hb Ha. unfold prompted_answer. eapply fine_then; [done|by apply fine_get|]. intros o w1 Hi1 [-> ->].
  destruct (map_get (pendingInteractivePrompts w) (promptKey r)) as [i|] eqn:Hp.
  - destruct (inv_pending _ Hi _ _ Hp) as (r0 & Hr & Hk & Ha0). intros w2 x Hrel Hi2 Hx%prompt_ready_settled. cbn.
    destruct x as [a|e]; cbn; (split; [done|]); [|by intros ? [=]]. intros b [= <-].
    eapply (answered_shared _ r r0); [done|done|done|]. eapply inv_response; [done| |exact Hx]. by eapply request_stays.
  - exists tt. split; [by apply open_guar|]. intros Hi2. set (i := length (promptPromises w)).
    set (w2 := snd (open_prompt (promptKey r) r w)) in *.
    assert (Hr2 : promptRequests w2 !! i = Some r).
    { unfold w2, i. cbn. rewrite <- (inv_prompts _ Hi). by rewrite lookup_app_r, Nat.sub_diag by lia. }
    split.
    + apply safe_bind. eapply safe_post; [|eapply (plain_safe_grows inv grows); [reflexivity|by apply fine_prompt]].
      intros x [] w3 (Hg & _ & Hx). exists tt. split; [|done]. exact (settle_guar w3 i r x (request_stays _ _ _ _ Hg Hr2) Hx).
    + intros w3 Hrel Hi3 w4 x Hrel4 Hi4 Hx%prompt_ready_settled.
      assert (Hr4 : promptRequests w4 !! i = Some r) by exact (request_stays _ _ _ _ Hrel4 (request_stays _ _ _ _ Hrel Hr2)).
      assert (Hc : guar tt w4 tt (snd (close_prompt (promptKey r) i w4))) by (apply close_guar; by exists x).
      destruct x as [a|e]; cbn; exists tt; (split; [exact Hc|]); intros _; (split; [done|]); [|by intros ? [=]]. intros b [= <-].
      eapply answered_well_lasting; [apply Hc|]. apply answered_own. by eapply inv_response.
Qed.

Lemma stored_parses r at_ s : parse_trust json_parse (trust_text json_stringify r at_) = Some s -> stored_fingerprint s = fingerprint r.
Proof using json_round.
  unfold parse_trust, trust_text. rewrite json_round by by vm_compute. cbn.
  change (map_get _ "fingerprint") with (Some (VStr (fingerprint r))). change (map_get _ "trustedAt") with (Some (VStr at_)).
  intros H. repeat case_match; by simplify_eq.
Qed.
Lemma stored_answer w r raw s : inv w -> fingerprintAlgorithm r = SUPPORTED_FINGERPRINT_ALGORITHM -> secretStorage w !! storageKey r = Some raw -> parse_trust json_parse raw = Some s ->
  stored_fingerprint s = fingerprint r -> answer_ok (trace w) r (trust r TrustPermanent).
Proof using json_round.
  intros Hi Ha Hraw Hs Hf. do 3 (split; [done|]). destruct (inv_store _ Hi _ _ Hraw) as [H|(r' & at_ & Hd & Hb & Hp & Hk & Ha' & ->)].
  - left. split; [done|]. rewrite <- Hf. by eapply parsed_trust.
  - right. split; [done|]. exists r'. split_and!; [done|done|done| |congruence|done]. apply stored_parses in Hs. congruence.
Qed.

(** What the storage said once stays a reason. *)
Definition read_well r (x : option StoredCertificateTrust + CertificateTrustResponse) (w : World) : Prop :=
  match x with
  | inl (Some s) => stored_fingerprint s = fingerprint r -> answer_ok (trace w) r (trust r TrustPermanent)
  | inl None => True
  | inr a => answer_ok (trace w) r a
  end.
Lemma read_well_lasting r : lasting tt rely (read_well r).
Proof using Type. intros [[s|]|a] w w' [H _ _]; cbn -[answer_ok]; eauto using answer_ok_grows. Qed.
Lemma fine_readStored w r : inv w -> fingerprintAlgorithm r = SUPPORTED_FINGERPRINT_ALGORITHM -> fine_from (read_well r) w (readStoredCertificateTrust hashText json_parse (storageKey r) r).
Proof using json_round.
  intros Hi Ha. unfold readStoredCertificateTrust. eapply (fine_then (fun o w => forall raw s, o = Some raw -> parse_trust json_parse raw = Some s ->
    stored_fingerprint s = fingerprint r -> answer_ok (trace w) r (trust r TrustPermanent))); [done| |].
  - apply fine_await; [done| |].
    + intros o w1 w2 [Hg _ _] H raw s E1 E2 E3. eapply answer_ok_grows; [exact Hg|by eapply H].
    + intros w1 x w2 _ Hi1 [-> Hx]. exists tt. split; [apply same_guar|]. intros _. split; [done|]. intros o Ho raw s E1 E2 E3.
      destruct Hx as [Hx|[e Hx]]; [|congruence]. eapply stored_answer; [done|done| |done|done]. congruence.
  - intros o w1 Hi1 H. apply fine_ret. destruct o as [raw|]; [|done]. destruct (parse_trust json_parse raw) as [s|] eqn:E; [|done]. intros Hf. by apply (H raw s).
Qed.

Lemma fine_handle w r : inv w -> fine_from (answered_well r) w (handleCertificateTrustRequest hashText json_parse json_stringify r).
Proof using hash_ok json_round.
  intros Hi. unfold handleCertificateTrustRequest. eapply fine_then; [done|by apply fine_get|]. intros b w1 Hi1 [-> ->].
  destruct (workspaceTrusted w); [|by apply fine_ret]. cbn [negb]. destruct (blank (realm r)); [by apply fine_ret|].
  case_bool_decide as Ha; [|by apply fine_ret]. cbn [negb].
  eapply (fine_then (read_well r)); [done|apply fine_await; [done|apply read_well_lasting|by apply fine_readStored]|].
  intros [[s|]|a] w2 Hi2 Hs; [| |by apply fine_ret].
  - do 2 case_bool_decide; cbn [andb]; try (destruct (background r) eqn:Hb; [by apply fine_ret|by apply fine_prompted_answer]). apply fine_ret. by apply Hs.
  - destruct (background r) eqn:Hb; [by apply fine_ret|by apply fine_prompted_answer].
Qed.

Lemma certificate_calls_safe p w : client_call hashText json_parse json_stringify p -> inv w -> safe p tt (ends tt) w.
Proof using hash_ok json_round.
  intros [m params] Hi. unfold logged, createCertificateTrustRequestHandler.
  destruct (bool_decide (m = "certificate/request")); [|done]. cbn [negb].
  destruct (parseCertificateTrustRequest params) as [r|e]; [|done].
  eapply (fine_ends _ _ _ _ _ (answered_well r)); [done|apply fine_await; [done|apply answered_well_lasting|by apply fine_handle]|].
  intros [a|e] w' Hi' Ha; [|done]. exists tt. split; [|done]. apply event_guar; [|done]. intros ? ? [= <- <-]. by apply Ha.
Qed.

Definition start (t : string) (b : bool) : World :=
  {| pendingInteractivePrompts := []; promptPromises := []; promptRequests := []; secretStorage := storage; clock := t;
     workspaceTrusted := b; trace := [] |}.
Lemma start_inv t b : inv (start t b).
Proof using Type.
  split; cbn; try done; try (by intros ? ?%elem_of_nil); try (by intros ? ? ?%elem_of_nil). intros key raw H. by left.
Qed.
Inductive certificate_reachable (c : config) : Prop :=
  | certificate_reachable_from t b : rtc (certificate_step hashText json_parse json_stringify) (start t b, []) c -> certificate_reachable c.

Lemma certificate_inv c : certificate_reachable c -> inv (fst c).
Proof using hash_ok json_round.
  intros [t b Hr].
  assert (Hok : config_ok answers tt inv rely guar (plain_owned inv) c).
  { eapply steps_safe; [|exact certificate_calls_safe|exact Hr|apply config_start, start_inv].
    apply plain_protocol; [apply _| |]; intros x y [w t' b']; [|by intros; apply certificate_grows_same]. by intros [? ? ? ? ? ? ?]; split. }
  destruct Hok as [_ (ts & Ho & _)]. exact Ho.
Qed.
End Facts.

(** C13: No certificate is trusted without a decision for it.  However requests
    interleave and whatever storage accesses fail, a request answered with trust
    is answered under its own id, with the fingerprint and the algorithm it sent.
    Either the answer is permanent and the storage held, when the controller
    started, a record of this fingerprint under the key made of the hash of the
    request's realm; such an answer does not look at the permission to remember.
    Or a user was asked in the foreground about this fingerprint, for a request
    of the same realm (or of a realm with the same hash, a collision), and decided
    so; the user's decision is permanent only when that request allowed it. *)
Theorem certificate_trust_decided hashText json_parse json_stringify
    (hash_ok : forall s, isHash (hashText s) = true) (json_round : forall v, json_ok v = true -> json_parse (json_stringify v) = Some v)
    storage c r id d print algorithm :
  certificate_reachable hashText json_parse json_stringify storage c ->
  Answered r (Trusted id d print algorithm) ∈ trace (fst c) ->
  id = cert_requestId r /\ print = fingerprint r /\ algorithm = fingerprintAlgorithm r /\ d <> RejectCertificate
  /\ (d = TrustPermanent
       /\ accepted_before json_parse storage ("subversionr.certificateTrust.v1." ++ hashText ("certificate" ++ String NUL (realm r))) (fingerprint r)
      \/ exists r', Decided r' d ∈ trace (fst c) /\ interactive r' = true /\ cert_origin r' = Foreground
           /\ fingerprint r' = fingerprint r /\ fingerprintAlgorithm r' = fingerprintAlgorithm r
           /\ (realm r' = realm r
               \/ realm r' <> realm r /\ hashText ("certificate" ++ String NUL (realm r')) = hashText ("certificate" ++ String NUL (realm r)))
           /\ (d = TrustPermanent -> persistenceAllowed r' = true)).
Proof.
  intros Hr H. destruct (inv_answered _ _ _ _ _ (certificate_inv _ _ _ hash_ok json_round _ _ Hr) _ _ H) as (-> & -> & -> & Hc).
  do 3 (split; [done|]). destruct Hc as [[-> Hs]|(Hd & r' & Hin & Hb & Hk & Hf & Ha & Hp)]; (split; [done|]); [by left|right].
  exists r'. apply foreground_only in Hb as [Hi Ho]. split_and!; try done.
  apply same_length_inj in Hk as [_ Hk]; [|done]. destruct (decide (realm r' = realm r)); [by left|by right].
Qed.

(** C14: The user is asked about a certificate only for interactive requests of
    the foreground, and at most once at a time: of two prompts that are still
    open, the realm, the fingerprint, its algorithm or the permission to remember
    differ. *)
Theorem certificate_prompts_single hashText json_parse json_stringify
    (hash_ok : forall s, isHash (hashText s) = true) (json_round : forall v, json_ok v = true -> json_parse (json_stringify v) = Some v)
    storage c : certificate_reachable hashText json_parse json_stringify storage c ->
  (forall r, Asked r ∈ trace (fst c) -> interactive r = true /\ cert_origin r = Foreground)
  /\ (forall i j r r', promptPromises (fst c) !! i = Some None -> promptPromises (fst c) !! j = Some None ->
        promptRequests (fst c) !! i = Some r -> promptRequests (fst c) !! j = Some r' ->
        realm r = realm r' -> fingerprint r = fingerprint r' -> fingerprintAlgorithm r = fingerprintAlgorithm r' ->
        persistenceAllowed r = persistenceAllowed r' -> i = j).
Proof.
  intros Hr. pose proof (certificate_inv _ _ _ hash_ok json_round _ _ Hr) as Hi. split.
  - intros r H. apply (inv_asked _ _ _ _ _ Hi) in H. by apply foreground_only.
  - intros i j r r' H1 H2 R1 R2 E1 E2 E3 E4. pose proof (inv_open _ _ _ _ _ Hi _ _ H1 R1). pose proof (inv_open _ _ _ _ _ Hi _ _ H2 R2).
    assert (certificatePromptKey hashText r = certificatePromptKey hashText r'); [|congruence].
    unfold certificatePromptKey, certificateTrustStorageKey, realmHash. by rewrite E1, E2, E3, E4.
Qed.

(** ** A run: a certificate is asked about, trusted for good, and recognised *)
Definition sample_certificate : js_value :=
  VObj [("requestId", VStr "q1"); ("realm", VStr "https://svn.example.org:443"); ("host", VStr "svn.example.org"); ("fingerprint", VStr "ab:cd");
        ("fingerprintAlgorithm", VStr "sha256-der"); ("failures", VArr [VStr "unknownCa"]); ("validFrom", VStr "2024"); ("validTo", VStr "2025");
        ("interactive", VBool true); ("persistenceAllowed", VBool true); ("origin", VStr "foreground"); ("timeoutMs", VNum (NumInt 1000))].
Definition pick_permanent (q : question) : World -> result (answer q) * World :=
  match q return World -> result (answer q) * World with
  | GetSecret key => fun w => (Ok (secretStorage w !! key), w)
  | StoreSecret key value => fun w => (Ok tt, with_secretStorage (<[key := value]> (secretStorage w)) w)
  | PickTrust _ => fun w => (Ok (Some TrustPermanent), w)
  end.
Lemma pick_permanent_ok q w : answers q w (fst (pick_permanent q w)) (snd (pick_permanent q w)).
Proof. destruct q; cbn; auto. Qed.
Abbreviation certificate_config := (@config World question answer).
Definition ask_certificate (c : certificate_config) : certificate_config :=
  let '(p, s, started) := run (logged test_hash test_parse test_stringify "certificate/request" (Some sample_certificate)) (fst c) in
  drain pick_permanent 20 (s, p :: started ++ snd c)%list.
Lemma ask_certificate_steps c : rtc (certificate_step test_hash test_parse test_stringify) c (ask_certificate c).
Proof.
  destruct c as [s pool]. unfold ask_certificate. destruct (run _ _) as [[p s'] started] eqn:E.
  eapply rtc_l; [|apply drain_steps, pick_permanent_ok]. eapply step_call; [|exact E]. constructor.
Qed.
Definition asked_twice : certificate_config := ask_certificate (ask_certificate (start ∅ "now" true, [])).
Lemma asked_twice_reached : certificate_reachable test_hash test_parse test_stringify ∅ asked_twice.
Proof. exists "now" true. etransitivity; apply ask_certificate_steps. Qed.
Definition sample_trust_request : CertificateTrustRequest :=
  {| cert_requestId := "q1"; realm := "https://svn.example.org:443"; host := "svn.example.org"; fingerprint := "ab:cd";
     fingerprintAlgorithm := "sha256-der"; failures := ["unknownCa"]; validFrom := "2024"; validTo := "2025"; issuer := None; subject := None;
     interactive := true; persistenceAllowed := true; cert_origin := Foreground; timeoutMs := 1000; cert_repositoryId := None;
     cert_workingCopyRoot := None |}.
(** The user is asked once; the second request finds the stored record. *)
Example asked_twice_trace : trace (fst asked_twice) =
  [Asked sample_trust_request; Decided sample_trust_request TrustPermanent;
   Answered sample_trust_request (Trusted "q1" TrustPermanent "ab:cd" "sha256-der");
   Answered sample_trust_request (Trusted "q1" TrustPermanent "ab:cd" "sha256-der")].
Proof. by vm_compute. Qed.

Lemma certificate_trust_decided_witness :
  accepted_before test_parse ∅ ("subversionr.certificateTrust.v1." ++ test_hash ("certificate" ++ String NUL "https://svn.example.org:443")) "ab:cd"
  \/ exists r', Decided r' TrustPermanent ∈ trace (fst asked_twice) /\ interactive r' = true.
Proof.
  destruct (certificate_trust_decided test_hash test_parse test_stringify test_hash_ok test_json ∅ asked_twice sample_trust_request
    "q1" TrustPermanent "ab:cd" "sha256-der" asked_twice_reached) as (_ & _ & _ & _ & [[_ H]|(r' & H & Hi & _)]);
    [|by left|right; by exists r'].
  rewrite asked_twice_trace. do 2 right. left.
Defined.
Lemma certificate_prompts_single_witness : interactive sample_trust_request = true /\ cert_origin sample_trust_request = Foreground.
Proof.
  destruct (certificate_prompts_single test_hash test_parse test_stringify test_hash_ok test_json ∅ asked_twice asked_twice_reached) as [H _].
  apply H. rewrite asked_twice_trace. left.
Defined.
