(* ===== verification/ContentUris.v ===== *)
(** content/baseContentUri.ts, headContentUri.ts and revisionContentUri.ts: the
    URIs under which the editor opens the content of a file, and the form encoding
    of their query ([URLSearchParams]).

    Texts are UTF-16 code units (Utf8.v), so that every path is covered.  The
    three files repeat the same helpers, which here take the error of their file
    as an argument.

    The form encoding of a query can be read back, every valid request survives
    its URI, and nothing but valid requests comes out of one. *)

From Stdlib Require Import ZArith Lia Ascii String List ZifyBool.
From stdpp Require Import base option list.
From S2P Require Import Prelude JsString JsMap Utf8.

Local Open Scope Z_scope.
Local Open Scope list_scope.

(** ** Results *)
Record ContentUriError := { uri_error_name : string; uri_error_code : string; uri_error_field : text }.
Inductive uri_result (A : Type) := UriOk (a : A) | UriError (e : ContentUriError).
Arguments UriOk {A} a.
Arguments UriError {A} e.
#[export] Instance uri_bind : MBind uri_result := fun A B f r => match r with UriOk a => f a | UriError e => UriError e end.
Definition demand (b : bool) (e : ContentUriError) : uri_result unit := if b then UriOk tt else UriError e.

(** ** [URLSearchParams] *)
Definition digit_unit (u : Z) : bool := (48 <=? u) && (u <=? 57).
Definition form_safe (b : Z) : bool :=
  digit_unit b || (65 <=? b) && (b <=? 90) || (97 <=? b) && (b <=? 122) || (b =? 42) || (b =? 45) || (b =? 46) || (b =? 95).
Definition hex_unit (n : Z) : Z := if n <? 10 then 48 + n else 55 + n.
Definition form_byte (b : Z) : text :=
  if form_safe b then [b] else if b =? 32 then [43] else [37; hex_unit (b / 16); hex_unit (b mod 16)].
Definition form_encode (t : text) : text := List.concat (map form_byte (utf8 t)).
Definition form_pair (p : text * text) : text := form_encode (fst p) ++ 61 :: form_encode (snd p).
Fixpoint join_with (sep : Z) (parts : list text) : text :=
  match parts with
  | [] => []
  | [part] => part
  | part :: rest => part ++ sep :: join_with sep rest
  end.
(** [query.toString()] *)
Definition serialize (ps : list (text * text)) : text := join_with 38 (map form_pair ps).

Fixpoint split_on (sep : Z) (t : text) : list text :=
  match t with
  | [] => [[]]
  | u :: t' =>
      if u =? sep then [] :: split_on sep t'
      else match split_on sep t' with part :: rest => (u :: part) :: rest | [] => [[u]] end
  end.
(** The parts before and after the first [=]; nothing after where there is none. *)
Fixpoint cut (t : text) : text * text :=
  match t with
  | [] => ([], [])
  | u :: t' => if u =? 61 then ([], t') else let (a, b) := cut t' in (u :: a, b)
  end.
Definition hex_of (u : Z) : option Z :=
  if digit_unit u then Some (u - 48)
  else if (65 <=? u) && (u <=? 70) then Some (u - 55)
  else if (97 <=? u) && (u <=? 102) then Some (u - 87)
  else None.
Fixpoint percent_decode (l : bytes) : bytes :=
  match l with
  | [] => []
  | b :: l' =>
      match l' with
      | h :: o :: l'' =>
          match (if b =? 37 then hex_of h else None), hex_of o with
          | Some x, Some y => 16 * x + y :: percent_decode l''
          | _, _ => b :: percent_decode l'
          end
      | _ => b :: percent_decode l'
      end
  end.
Definition plus_to_space (l : bytes) : bytes := map (fun b => if b =? 43 then 32 else b) l.
Definition form_decode (l : bytes) : text := toString (percent_decode (plus_to_space l)).
Definition pair_of (part : text) : text * text := let (a, b) := cut part in (form_decode a, form_decode b).
Definition without_mark (t : text) : text := match t with u :: t' => if u =? 63 then t' else t | [] => [] end.
(** [new URLSearchParams(query)] *)
Definition search_params (query : text) : list (text * text) :=
  map pair_of (List.filter (fun part => negb (Nat.eqb (length part) 0)) (split_on 38 (utf8 (without_mark query)))).
Definition param (ps : list (text * text)) (name : text) : option text := map_get ps name.

(** ** Texts *)
(** White space and line terminators, as [trim] removes them. *)
Definition space_unit (u : Z) : bool :=
  (9 <=? u) && (u <=? 13) || (u =? 32) || (u =? 160) || (u =? 5760) || (8192 <=? u) && (u <=? 8202) || (u =? 8232) || (u =? 8233)
  || (u =? 8239) || (u =? 8287) || (u =? 12288) || (u =? 65279).
(** [value.trim().length === 0] *)
Definition blank_text (t : text) : bool := forallb space_unit t.
Definition has_unit (u : Z) (t : text) : bool := existsb (Z.eqb u) t.
Fixpoint number_go (acc : Z) (t : text) : Z := match t with [] => acc | u :: t' => number_go (10 * acc + (u - 48)) t' end.
(** [Number(value)] for digits; it rounds only what is no safe integer anyway. *)
Definition number_of (t : text) : Z := number_go 0 t.
Definition all_digits (t : text) : bool := negb (Nat.eqb (length t) 0) && forallb digit_unit t.
(** [String(n)]; a number has at most as many decimal as binary digits. *)
Fixpoint digits_go (fuel : nat) (n : Z) (acc : text) : text :=
  match fuel with
  | O => acc
  | S fuel => if n <? 10 then 48 + n :: acc else digits_go fuel (n / 10) (48 + n mod 10 :: acc)
  end.
Definition digits_of (n : Z) : text := digits_go (S (Z.to_nat (Z.log2 n))) n [].

Definition text_eqb (a b : text) : bool := bool_decide (a = b).
Definition part_ok (part : text) : bool :=
  negb (Nat.eqb (length part) 0) && negb (text_eqb part (literal ".")) && negb (text_eqb part (literal "..")).
Definition starts_with_slash (t : text) : bool := match t with u :: _ => u =? 47 | [] => false end.
Definition slashes (t : text) : text := map (fun u => if u =? 92 then 47 else u) t.

Record UriComponents := { uri_scheme : text; uri_authority : text; uri_path : text; uri_query : text }.

(** ** What the three files share *)
Section Shared.
Context (invalid : text -> ContentUriError).

Fixpoint count_key (key : text) (names : list text) : nat :=
  match names with [] => 0 | k :: rest => (if text_eqb k key then 1 else 0) + count_key key rest end%nat.
Fixpoint refuse_unknown (expected names : list text) : uri_result unit :=
  match names with
  | [] => UriOk tt
  | key :: rest => if existsb (text_eqb key) expected then refuse_unknown expected rest else UriError (invalid key)
  end.
Fixpoint require_once (expected names : list text) : uri_result unit :=
  match expected with
  | [] => UriOk tt
  | key :: rest => if Nat.eqb (count_key key names) 1 then require_once rest names else UriError (invalid key)
  end.
Definition requireExactQueryKeys (query : list (text * text)) (expected : list text) : uri_result unit :=
  _ ← refuse_unknown expected (map fst query); require_once expected (map fst query).
Definition requireQueryString (query : list (text * text)) (f : text) : uri_result text :=
  match param query f with
  | Some value => if blank_text value then UriError (invalid f) else UriOk value
  | None => UriError (invalid f)
  end.
Definition requireQueryInteger (query : list (text * text)) (f : text) : uri_result Z :=
  value ← requireQueryString query f;
  if negb (all_digits value) then UriError (invalid f)
  else if isSafeInteger (number_of value) then UriOk (number_of value) else UriError (invalid f).
Definition validate_repositoryId (r : text) : uri_result unit := demand (negb (blank_text r)) (invalid (literal "repositoryId")).
Definition validate_count (n : Z) (f : text) : uri_result unit := demand (isSafeInteger n && (0 <=? n)) (invalid f).
End Shared.

(** ** content/baseContentUri.ts *)
Module BaseContentUri.
Definition BASE_CONTENT_URI_SCHEME : text := literal "svn-r-base".
Definition invalidBaseContentUri (f : text) : ContentUriError :=
  {| uri_error_name := "BaseContentUriError"; uri_error_code := "SUBVERSIONR_BASE_CONTENT_URI_INVALID"; uri_error_field := f |}.
Record BaseContentUriRequest := { repositoryId : text; epoch : Z; generation : Z; path : text; revision : text }.

Definition isContentPath (path : text) : bool :=
  if text_eqb path (literal ".") || blank_text path then false
  else let normalized := slashes path in
       if starts_with_slash normalized || has_unit 58 normalized || has_unit 0 normalized then false
       else forallb part_ok (split_on 47 normalized).
Definition validateBaseContentUriRequest (request : BaseContentUriRequest) : uri_result unit :=
  _ ← validate_repositoryId invalidBaseContentUri (repositoryId request);
  _ ← validate_count invalidBaseContentUri (epoch request) (literal "epoch");
  _ ← validate_count invalidBaseContentUri (generation request) (literal "generation");
  _ ← demand (isContentPath (path request)) (invalidBaseContentUri (literal "path"));
  demand (text_eqb (revision request) (literal "base")) (invalidBaseContentUri (literal "revision")).
Definition createBaseContentUriComponents (request : BaseContentUriRequest) : uri_result UriComponents :=
  _ ← validateBaseContentUriRequest request;
  UriOk {| uri_scheme := BASE_CONTENT_URI_SCHEME; uri_authority := literal "base"; uri_path := literal "/";
           uri_query := serialize [(literal "repositoryId", repositoryId request); (literal "epoch", digits_of (epoch request));
                                   (literal "generation", digits_of (generation request)); (literal "path", path request);
                                   (literal "revision", revision request)] |}.
Definition requireExactQueryKeys := ContentUris.requireExactQueryKeys invalidBaseContentUri.
Definition requireQueryString := ContentUris.requireQueryString invalidBaseContentUri.
Definition requireQueryInteger := ContentUris.requireQueryInteger invalidBaseContentUri.
Definition KEYS : list text := map literal ["repositoryId"; "epoch"; "generation"; "path"; "revision"]%string.
Definition parseBaseContentUri (uri : UriComponents) : uri_result BaseContentUriRequest :=
  _ ← demand (text_eqb (uri_scheme uri) BASE_CONTENT_URI_SCHEME) (invalidBaseContentUri (literal "scheme"));
  _ ← demand (text_eqb (uri_authority uri) (literal "base")) (invalidBaseContentUri (literal "authority"));
  _ ← demand (text_eqb (uri_path uri) (literal "/")) (invalidBaseContentUri (literal "path"));
  let query := search_params (uri_query uri) in
  _ ← requireExactQueryKeys query KEYS;
  r ← requireQueryString query (literal "repositoryId");
  e ← requireQueryInteger query (literal "epoch");
  g ← requireQueryInteger query (literal "generation");
  p ← requireQueryString query (literal "path");
  v ← requireQueryString query (literal "revision");
  let request := {| repositoryId := r; epoch := e; generation := g; path := p; revision := v |} in
  _ ← validateBaseContentUriRequest request;
  UriOk {| repositoryId := r; epoch := e; generation := g; path := p; revision := literal "base" |}.
End BaseContentUri.

(** Paths of the other two files: no backslashes. *)
Definition isPlainContentPath (path : text) : bool :=
  if text_eqb path (literal ".") || blank_text path then false
  else if starts_with_slash path || has_unit 58 path || has_unit 92 path || has_unit 0 path then false
  else forallb part_ok (split_on 47 path).

(** ** content/headContentUri.ts *)
Module HeadContentUri.
Definition HEAD_CONTENT_URI_SCHEME : text := literal "svn-r-head".
Definition invalidHeadContentUri (f : text) : ContentUriError :=
  {| uri_error_name := "HeadContentUriError"; uri_error_code := "SUBVERSIONR_HEAD_CONTENT_URI_INVALID"; uri_error_field := f |}.
Record HeadContentUriRequest := { repositoryId : text; epoch : Z; generation : Z; path : text; revision : text; requestId : text }.

Definition lower_hex (u : Z) : bool := digit_unit u || (97 <=? u) && (u <=? 102).
Definition unit_is (c : Z) (u : Z) : bool := u =? c.
Definition variant_unit (u : Z) : bool := (u =? 56) || (u =? 57) || (u =? 97) || (u =? 98).
Definition id_units : list (Z -> bool) :=
  repeat lower_hex 8 ++ [unit_is 45] ++ repeat lower_hex 4 ++ [unit_is 45] ++ [unit_is 52] ++ repeat lower_hex 3
  ++ [unit_is 45] ++ [variant_unit] ++ repeat lower_hex 3 ++ [unit_is 45] ++ repeat lower_hex 12.
Fixpoint matches_units (classes : list (Z -> bool)) (t : text) : bool :=
  match classes, t with
  | [], [] => true
  | c :: classes, u :: t => c u && matches_units classes t
  | _, _ => false
  end.
Definition isRequestId (value : text) : bool := matches_units id_units value.
Definition validateHeadContentUriRequest (request : HeadContentUriRequest) : uri_result unit :=
  _ ← validate_repositoryId invalidHeadContentUri (repositoryId request);
  _ ← validate_count invalidHeadContentUri (epoch request) (literal "epoch");
  _ ← validate_count invalidHeadContentUri (generation request) (literal "generation");
  _ ← demand (isPlainContentPath (path request)) (invalidHeadContentUri (literal "path"));
  _ ← demand (text_eqb (revision request) (literal "head")) (invalidHeadContentUri (literal "revision"));
  demand (isRequestId (requestId request)) (invalidHeadContentUri (literal "requestId")).
Definition createHeadContentUriComponents (request : HeadContentUriRequest) : uri_result UriComponents :=
  _ ← validateHeadContentUriRequest request;
  UriOk {| uri_scheme := HEAD_CONTENT_URI_SCHEME; uri_authority := literal "head"; uri_path := literal "/";
           uri_query := serialize [(literal "repositoryId", repositoryId request); (literal "epoch", digits_of (epoch request));
                                   (literal "generation", digits_of (generation request)); (literal "path", path request);
                                   (literal "revision", revision request); (literal "requestId", requestId request)] |}.
Definition requireExactQueryKeys := ContentUris.requireExactQueryKeys invalidHeadContentUri.
Definition requireQueryString := ContentUris.requireQueryString invalidHeadContentUri.
Definition requireQueryInteger := ContentUris.requireQueryInteger invalidHeadContentUri.
Definition KEYS : list text := map literal ["repositoryId"; "epoch"; "generation"; "path"; "revision"; "requestId"]%string.
Definition parseHeadContentUri (uri : UriComponents) : uri_result HeadContentUriRequest :=
  _ ← demand (text_eqb (uri_scheme uri) HEAD_CONTENT_URI_SCHEME) (invalidHeadContentUri (literal "scheme"));
  _ ← demand (text_eqb (uri_authority uri) (literal "head")) (invalidHeadContentUri (literal "authority"));
  _ ← demand (text_eqb (uri_path uri) (literal "/")) (invalidHeadContentUri (literal "path"));
  let query := search_params (uri_query uri) in
  _ ← requireExactQueryKeys query KEYS;
  r ← requireQueryString query (literal "repositoryId");
  e ← requireQueryInteger query (literal "epoch");
  g ← requireQueryInteger query (literal "generation");
  p ← requireQueryString query (literal "path");
  v ← requireQueryString query (literal "revision");
  i ← requireQueryString query (literal "requestId");
  let request := {| repositoryId := r; epoch := e; generation := g; path := p; revision := v; requestId := i |} in
  _ ← validateHeadContentUriRequest request;
  UriOk {| repositoryId := r; epoch := e; generation := g; path := p; revision := literal "head"; requestId := i |}.
End HeadContentUri.

(** ** content/revisionContentUri.ts *)
Module RevisionContentUri.
Definition REVISION_CONTENT_URI_SCHEME : text := literal "svn-r-revision".
Definition invalidRevisionContentUri (f : text) : ContentUriError :=
  {| uri_error_name := "RevisionContentUriError"; uri_error_code := "SUBVERSIONR_REVISION_CONTENT_URI_INVALID"; uri_error_field := f |}.
Record RevisionContentUriRequest := { repositoryId : text; epoch : Z; path : text; revision : text }.

(** [r] and a decimal number of at most 31 bits without leading zeros. *)
Definition isExplicitRevision (revision : text) : bool :=
  match revision with
  | 114 :: t => all_digits t && (text_eqb t [48] || negb (bool_decide (head t = Some 48))) && (number_of t <=? 2147483647)
  | _ => false
  end.
Definition validateRevisionContentUriRequest (request : RevisionContentUriRequest) : uri_result unit :=
  _ ← validate_repositoryId invalidRevisionContentUri (repositoryId request);
  _ ← validate_count invalidRevisionContentUri (epoch request) (literal "epoch");
  _ ← demand (isPlainContentPath (path request)) (invalidRevisionContentUri (literal "path"));
  demand (isExplicitRevision (revision request)) (invalidRevisionContentUri (literal "revision")).
Definition createRevisionContentUriComponents (request : RevisionContentUriRequest) : uri_result UriComponents :=
  _ ← validateRevisionContentUriRequest request;
  UriOk {| uri_scheme := REVISION_CONTENT_URI_SCHEME; uri_authority := literal "revision"; uri_path := literal "/";
           uri_query := serialize [(literal "repositoryId", repositoryId request); (literal "epoch", digits_of (epoch request));
                                   (literal "path", path request); (literal "revision", revision request)] |}.
Definition requireExactQueryKeys := ContentUris.requireExactQueryKeys invalidRevisionContentUri.
Definition requireQueryString := ContentUris.requireQueryString invalidRevisionContentUri.
Definition requireQueryInteger := ContentUris.requireQueryInteger invalidRevisionContentUri.
Definition KEYS : list text := map literal ["repositoryId"; "epoch"; "path"; "revision"]%string.
Definition parseRevisionContentUri (uri : UriComponents) : uri_result RevisionContentUriRequest :=
  _ ← demand (text_eqb (uri_scheme uri) REVISION_CONTENT_URI_SCHEME) (invalidRevisionContentUri (literal "scheme"));
  _ ← demand (text_eqb (uri_authority uri) (literal "revision")) (invalidRevisionContentUri (literal "authority"));
  _ ← demand (text_eqb (uri_path uri) (literal "/")) (invalidRevisionContentUri (literal "path"));
  let query := search_params (uri_query uri) in
  _ ← requireExactQueryKeys query KEYS;
  r ← requireQueryString query (literal "repositoryId");
  e ← requireQueryInteger query (literal "epoch");
  p ← requireQueryString query (literal "path");
  v ← requireQueryString query (literal "revision");
  let request := {| repositoryId := r; epoch := e; path := p; revision := v |} in
  _ ← validateRevisionContentUriRequest request;
  UriOk request.
End RevisionContentUri.

Local Open Scope Z_scope.
Local Open Scope list_scope.

Lemma uri_bind_ok {A B} (r : uri_result A) (f : A -> uri_result B) b : mbind f r = UriOk b <-> exists a, r = UriOk a /\ f a = UriOk b.
Proof. unfold mbind, uri_bind. destruct r as [a|e]; naive_solver. Qed.
Lemma demand_ok b e u : demand b e = UriOk u <-> b = true.
Proof. destruct b, u; naive_solver. Qed.
Lemma text_eqb_true a b : text_eqb a b = true <-> a = b.
Proof. apply bool_decide_eq_true. Qed.

(** ** The form encoding *)
Definition form_out (u : Z) : bool := is_ascii u && negb (u =? 38) && negb (u =? 61) && negb (u =? 63).
Ltac bounds := repeat match goal with
  | |- context [?a <? ?b] => destruct (Z.ltb_spec a b)
  | |- context [?a <=? ?b] => destruct (Z.leb_spec a b)
  | |- context [?a =? ?b] => destruct (Z.eqb_spec a b)
  end; cbn in *; try done; try lia.
Lemma form_safe_out b : form_safe b = true -> form_out b = true /\ b <> 37 /\ b <> 43.
Proof. unfold form_safe, form_out, digit_unit, is_ascii. lia. Qed.
Lemma hex_unit_out n : 0 <= n < 16 -> form_out (hex_unit n) = true /\ hex_unit n <> 43.
Proof. intros H. unfold hex_unit, form_out, is_ascii. destruct (Z.ltb_spec n 10); lia. Qed.
Lemma hex_of_unit n : 0 <= n < 16 -> hex_of (hex_unit n) = Some n.
Proof. intros H. unfold hex_unit, hex_of, digit_unit. bounds; f_equal; lia. Qed.
Lemma byte_halves b : 0 <= b < 256 -> 0 <= b / 16 < 16 /\ 0 <= b mod 16 < 16 /\ 16 * (b / 16) + b mod 16 = b.
Proof. intros H. pose proof (Z.div_mod b 16). pose proof (Z.mod_pos_bound b 16). split; [split; [apply Z.div_pos; lia|apply Z.div_lt_upper_bound; lia]|lia]. Qed.

Lemma form_byte_out b : 0 <= b < 256 -> forallb form_out (form_byte b) = true.
Proof.
  intros H. unfold form_byte. destruct (form_safe b) eqn:E; [cbn; by rewrite (proj1 (form_safe_out b E))|].
  destruct (b =? 32); [done|]. destruct (byte_halves b H) as (H1 & H2 & _). cbn [forallb].
  by rewrite (proj1 (hex_unit_out _ H1)), (proj1 (hex_unit_out _ H2)).
Qed.
Lemma decode_form_byte b rest : 0 <= b < 256 -> percent_decode (plus_to_space (form_byte b) ++ rest) = b :: percent_decode rest.
Proof.
  intros H. assert (Hlit : forall c, c <> 37 -> percent_decode (c :: rest) = c :: percent_decode rest).
  { intros c Hc. cbn [percent_decode]. destruct rest as [|h [|o r]]; try done. by rewrite (proj2 (Z.eqb_neq c 37) Hc). }
  unfold form_byte. destruct (form_safe b) eqn:E.
  - destruct (form_safe_out b E) as (_ & H1 & H2). cbn. rewrite (proj2 (Z.eqb_neq b 43) H2). by apply Hlit.
  - destruct (Z.eqb_spec b 32) as [->|Hb]; [by apply Hlit|]. destruct (byte_halves b H) as (H1 & H2 & H3).
    cbn [map app plus_to_space]. unfold plus_to_space. cbn [map app].
    rewrite (proj2 (Z.eqb_neq _ 43) (proj2 (hex_unit_out _ H1))), (proj2 (Z.eqb_neq _ 43) (proj2 (hex_unit_out _ H2))).
    change (37 =? 43) with false. cbn [percent_decode]. change (37 =? 37) with true. cbn iota.
    rewrite !hex_of_unit by done. by rewrite H3.
Qed.
Lemma decode_form_bytes l : Forall (fun b => 0 <= b < 256) l -> percent_decode (plus_to_space (List.concat (map form_byte l))) = l.
Proof.
  induction 1 as [|b l Hb Hl IH]; [done|]. cbn [map List.concat]. unfold plus_to_space in *. rewrite map_app.
  change (map (fun b0 => if b0 =? 43 then 32 else b0) (form_byte b)) with (plus_to_space (form_byte b)).
  rewrite decode_form_byte by done. by rewrite IH.
Qed.
Lemma encode_scalar_bytes c : is_scalar c = true -> Forall (fun b => 0 <= b < 256) (encode_scalar c).
Proof.
  intros H%is_scalar_spec. unfold encode_scalar.
  pose proof (Z.mod_pos_bound c 64 ltac:(lia)). pose proof (Z.mod_pos_bound (c / 64) 64 ltac:(lia)). pose proof (Z.mod_pos_bound (c / 4096) 64 ltac:(lia)).
  pose proof (Z.div_pos c 64 ltac:(lia) ltac:(lia)). pose proof (Z.div_pos c 4096 ltac:(lia) ltac:(lia)). pose proof (Z.div_pos c 262144 ltac:(lia) ltac:(lia)).
  destruct (Z.ltb_spec c 128); [repeat constructor; lia|]. destruct (Z.ltb_spec c 2048); [|destruct (Z.ltb_spec c 65536)].
  - assert (c / 64 < 32) by (apply Z.div_lt_upper_bound; lia). repeat constructor; lia.
  - assert (c / 4096 < 16) by (apply Z.div_lt_upper_bound; lia). repeat constructor; lia.
  - assert (c / 262144 < 5) by (apply Z.div_lt_upper_bound; lia). repeat constructor; lia.
Qed.
Lemma utf8_bytes t : well_formed t = true -> Forall (fun b => 0 <= b < 256) (utf8 t).
Proof.
  intros H%well_formed_units%scalars_are_scalar. unfold utf8. induction H as [|c l Hc Hl IH]; [constructor|].
  cbn. apply Forall_app. split; [by apply encode_scalar_bytes|done].
Qed.
Lemma form_round t : well_formed t = true -> form_decode (form_encode t) = t.
Proof. intros H. unfold form_decode, form_encode. rewrite decode_form_bytes by by apply utf8_bytes. by apply toString_utf8. Qed.
Lemma form_encode_out t : well_formed t = true -> forallb form_out (form_encode t) = true.
Proof.
  intros H%utf8_bytes. unfold form_encode. induction H as [|b l Hb Hl IH]; [done|]. cbn. rewrite forallb_app. by rewrite form_byte_out, IH.
Qed.

(** ** Lists of parameters *)
Lemma split_join parts : parts <> [] -> Forall (fun part => forallb (fun u => negb (u =? 38)) part = true) parts ->
  split_on 38 (join_with 38 parts) = parts.
Proof.
  intros Hne H. induction H as [|part rest Hp Hr IH]; [done|]. clear Hne.
  assert (Hone : forall tail, split_on 38 (part ++ 38 :: tail) = part :: split_on 38 tail).
  { intros tail. clear - Hp. induction part as [|u part IH]; [done|]. cbn in Hp. apply andb_prop in Hp as [Hu%negb_true_iff Hp].
    cbn. rewrite Hu. by rewrite IH. }
  destruct rest as [|next rest]; cbn [join_with].
  - clear - Hp. induction part as [|u part IH]; [done|]. cbn in Hp. apply andb_prop in Hp as [Hu%negb_true_iff Hp].
    cbn. rewrite Hu. by rewrite IH.
  - rewrite Hone. f_equal. by apply IH.
Qed.
Lemma cut_at a b : forallb (fun u => negb (u =? 61)) a = true -> cut (a ++ 61 :: b) = (a, b).
Proof.
  induction a as [|u a IH]; [done|]. cbn. intros [Hu%negb_true_iff Ha]%andb_prop. rewrite Hu. by rewrite IH.
Qed.
Lemma forallb_weaken {A} (f g : A -> bool) l : (forall x, f x = true -> g x = true) -> forallb f l = true -> forallb g l = true.
Proof. intros H. rewrite !forallb_forall. eauto. Qed.
Lemma form_out_spec u : form_out u = true -> is_ascii u = true /\ (u =? 38) = false /\ (u =? 61) = false /\ (u =? 63) = false.
Proof. unfold form_out. intros [[[? ?%negb_true_iff]%andb_prop ?%negb_true_iff]%andb_prop ?%negb_true_iff]%andb_prop. done. Qed.

Definition pair_wf (p : text * text) : bool := well_formed (fst p) && well_formed (snd p).
Definition query_unit (u : Z) : bool := is_ascii u && negb (u =? 63).
Lemma form_pair_units p : pair_wf p = true -> forallb (fun u => query_unit u && negb (u =? 38)) (form_pair p) = true.
Proof.
  intros [H1%form_encode_out H2%form_encode_out]%andb_prop. unfold form_pair. rewrite forallb_app. cbn [forallb]. apply andb_true_iff.
  split; [|apply andb_true_iff; split; [done|]]; (eapply forallb_weaken; [|eassumption]); intros u (Ha & Hb & _ & Hc)%form_out_spec;
    unfold query_unit; by rewrite Ha, Hb, Hc.
Qed.
Lemma serialize_units ps : forallb pair_wf ps = true -> forallb query_unit (serialize ps) = true.
Proof.
  unfold serialize. induction ps as [|p ps IH]; [done|]. cbn [forallb map]. intros [Hp Hps]%andb_prop. specialize (IH Hps).
  assert (Hone : forallb query_unit (form_pair p) = true).
  { eapply forallb_weaken; [|by apply form_pair_units]. by intros u [? _]%andb_prop. }
  destruct ps as [|q ps]; [done|]. cbn [map join_with] in *. rewrite forallb_app, Hone. cbn [forallb]. by rewrite IH.
Qed.
Lemma pair_round p : pair_wf p = true -> pair_of (form_pair p) = p.
Proof.
  intros [H1 H2]%andb_prop. unfold pair_of, form_pair. rewrite cut_at.
  - rewrite !form_round by done. by destruct p.
  - eapply forallb_weaken; [|by apply form_encode_out]. intros u (_ & _ & H & _)%form_out_spec. by rewrite H.
Qed.
Lemma params_round ps : ps <> [] -> forallb pair_wf ps = true -> search_params (serialize ps) = ps.
Proof.
  intros Hne Hps. pose proof (serialize_units ps Hps) as Hu. unfold search_params.
  assert (Hmark : without_mark (serialize ps) = serialize ps).
  { destruct (serialize ps) as [|u t]; [done|]. cbn in *. apply andb_prop in Hu as [Hu _]. apply andb_prop in Hu as [_ Hu%negb_true_iff]. by rewrite Hu. }
  rewrite Hmark. assert (Hascii : utf8 (serialize ps) = serialize ps).
  { rewrite <- (List.app_nil_r (serialize ps)) at 1. rewrite utf8_ascii; [by apply List.app_nil_r|].
    eapply forallb_weaken; [|exact Hu]. by intros u [? _]%andb_prop. }
  rewrite Hascii. unfold serialize. rewrite split_join.
  - clear - Hps. induction ps as [|p ps IH]; [done|]. cbn in Hps. apply andb_prop in Hps as [Hp Hps]. cbn [map List.filter].
    assert (Hl : Nat.eqb (length (form_pair p)) 0 = false).
    { unfold form_pair. apply Nat.eqb_neq. rewrite List.length_app. cbn. lia. }
    rewrite Hl. cbn. by rewrite pair_round, IH.
  - by destruct ps.
  - apply Forall_forall. intros part (p & <- & Hp)%list_elem_of_In%in_map_iff. rewrite forallb_forall in Hps.
    eapply forallb_weaken; [|apply form_pair_units; by apply Hps]. by intros u [_ ?]%andb_prop.
Qed.

(** ** Numbers *)
Lemma number_go_app a b acc : number_go acc (a ++ b) = number_go (number_go acc a) b.
Proof. revert acc. induction a as [|u a IH]; intros acc; [done|]. cbn. apply IH. Qed.
Lemma digits_go_spec fuel : forall n acc, 0 <= n < 2 ^ Z.of_nat fuel -> forallb digit_unit acc = true ->
  forallb digit_unit (digits_go fuel n acc) = true /\ (fuel <> O -> digits_go fuel n acc <> []) /\
  exists d, digits_go fuel n acc = d ++ acc /\ (fuel <> O -> number_of d = n).
Proof.
  induction fuel as [|fuel IH]; intros n acc Hn Hacc; cbn [digits_go].
  { split; [done|]. split; [done|]. by exists []. }
  destruct (Z.ltb_spec n 10) as [Hlt|Hge].
  - split; [cbn; rewrite Hacc; unfold digit_unit; bounds|]. split; [done|]. exists [48 + n]. split; [done|]. intros _. unfold number_of. cbn. lia.
  - pose proof (Z.mod_pos_bound n 10 ltac:(lia)) as Hm. pose proof (Z.div_mod n 10 ltac:(lia)) as Hd.
    assert (Hq : 0 <= n / 10 < 2 ^ Z.of_nat fuel).
    { split; [lia|]. rewrite Nat2Z.inj_succ, Z.pow_succ_r in Hn by lia. lia. }
    assert (Hf : fuel <> O). { intros ->. cbn in Hn. lia. }
    destruct (IH (n / 10) (48 + n mod 10 :: acc) Hq) as (H1 & H2 & d & H3 & H4).
    { cbn. rewrite Hacc. unfold digit_unit. bounds. }
    split; [done|]. split; [by intros _; apply H2|]. exists (d ++ [48 + n mod 10]). split; [by rewrite H3, <- List.app_assoc|]. intros _.
    unfold number_of in *. rewrite number_go_app, (H4 Hf). cbn. lia.
Qed.
Lemma digits_ok n : 0 <= n -> all_digits (digits_of n) = true /\ number_of (digits_of n) = n.
Proof.
  intros Hn. unfold digits_of. set (fuel := S (Z.to_nat (Z.log2 n))).
  assert (Hb : 0 <= n < 2 ^ Z.of_nat fuel).
  { split; [done|]. unfold fuel. rewrite Nat2Z.inj_succ, Z2Nat.id by apply Z.log2_nonneg. destruct (Z.eq_dec n 0) as [->|]; [done|].
    by apply Z.log2_spec; lia. }
  destruct (digits_go_spec fuel n [] Hb eq_refl) as (H1 & H2 & d & H3 & H4). rewrite List.app_nil_r in H3. split.
  - unfold all_digits. rewrite H1. specialize (H2 ltac:(done)). by destruct (digits_go fuel n []).
  - rewrite H3. by apply H4.
Qed.
Lemma digits_text t : all_digits t = true -> blank_text t = false /\ well_formed t = true.
Proof.
  intros [Hl Hd]%andb_prop. split.
  - destruct t as [|u t]; [done|]. cbn in Hd. apply andb_prop in Hd as [Hu _]. cbn. unfold digit_unit in Hu. apply andb_prop in Hu.
    assert (Hs : space_unit u = false) by (unfold space_unit; lia). by rewrite Hs.
  - clear Hl. induction t as [|u t IH]; [done|]. cbn in *. apply andb_prop in Hd as [Hu Hd]. rewrite (IH Hd). unfold digit_unit in Hu.
    apply andb_prop in Hu. unfold is_high, is_low. bounds.
Qed.

(** ** Paths *)

(** A path that stays inside its working copy: parts between slashes, none of
    them empty or a step up, no drive and no NUL. *)
Record inside (p : text) : Prop := {
  inside_filled : blank_text p = false;
  inside_drive : 58 ∉ p /\ 0 ∉ p;
  inside_parts part : part ∈ split_on 47 p -> part <> [] /\ part <> literal "." /\ part <> literal "..";
}.
Lemma has_unit_false u t : has_unit u t = false <-> u ∉ t.
Proof.
  unfold has_unit. rewrite <- not_true_iff_false, existsb_exists. setoid_rewrite Z.eqb_eq. rewrite list_elem_of_In.
  split; [intros H Hin; apply H; eauto|intros H (x & Hx & ->); done].
Qed.
Lemma part_ok_iff part : part_ok part = true <-> part <> [] /\ part <> literal "." /\ part <> literal "..".
Proof.
  unfold part_ok, text_eqb. rewrite !andb_true_iff, !negb_true_iff, !bool_decide_eq_false. destruct part; cbn; naive_solver.
Qed.
Lemma parts_iff p : forallb part_ok (split_on 47 p) = true <-> forall part, part ∈ split_on 47 p -> part <> [] /\ part <> literal "." /\ part <> literal "..".
Proof. rewrite forallb_forall. setoid_rewrite part_ok_iff. by setoid_rewrite <- list_elem_of_In. Qed.
Lemma inside_no_slash p : (forall part, part ∈ split_on 47 p -> part <> []) -> starts_with_slash p = false.
Proof.
  intros H. destruct p as [|u p]; [done|]. cbn. destruct (Z.eqb_spec u 47) as [->|]; [|done]. destruct (H []); [|done]. cbn. left.
Qed.
Lemma slashes_blank p : blank_text (slashes p) = blank_text p.
Proof.
  unfold blank_text, slashes. induction p as [|u p IH]; [done|]. cbn [map forallb]. rewrite IH. by destruct (Z.eqb_spec u 92) as [->|].
Qed.
Lemma dot_parts : ~ forall part, part ∈ split_on 47 (literal ".") -> part <> [] /\ part <> literal "." /\ part <> literal "..".
Proof. intros H. destruct (H (literal ".")) as (_ & H' & _); [cbn; left|done]. Qed.
Lemma plain_iff p : isPlainContentPath p = true <-> inside p /\ 92 ∉ p.
Proof.
  unfold isPlainContentPath. split.
  - destruct (text_eqb p (literal ".")); [done|]. destruct (blank_text p) eqn:Hb; [done|]. cbn [orb].
    destruct (starts_with_slash p); [done|]. destruct (has_unit 58 p) eqn:H1; [done|]. destruct (has_unit 92 p) eqn:H2; [done|].
    destruct (has_unit 0 p) eqn:H3; [done|]. cbn [orb]. rewrite parts_iff. intros H. apply has_unit_false in H1, H2, H3.
    split; [split; [exact Hb|by split|exact H]|exact H2].
  - intros [[Hb [H1 H3] Hp] H2]. apply has_unit_false in H1, H2, H3. rewrite Hb, H1, H2, H3.
    destruct (text_eqb p (literal ".")) eqn:E; [apply text_eqb_true in E as ->; by destruct dot_parts|].
    rewrite inside_no_slash by (intros; by apply Hp). cbn [orb]. by apply parts_iff.
Qed.
Lemma base_iff p : BaseContentUri.isContentPath p = true <-> inside (slashes p).
Proof.
  unfold BaseContentUri.isContentPath. split.
  - destruct (text_eqb p (literal ".")); [done|]. destruct (blank_text p) eqn:Hb; [done|]. cbn [orb].
    destruct (starts_with_slash (slashes p)); [done|]. destruct (has_unit 58 (slashes p)) eqn:H1; [done|].
    destruct (has_unit 0 (slashes p)) eqn:H3; [done|]. cbn [orb]. rewrite parts_iff. intros H. apply has_unit_false in H1, H3.
    split; [by rewrite slashes_blank|done|done].
  - intros [Hb [H1 H3] Hp]. rewrite slashes_blank in Hb. apply has_unit_false in H1, H3. rewrite Hb, H1, H3.
    destruct (text_eqb p (literal ".")) eqn:E; [apply text_eqb_true in E as ->; by destruct dot_parts|].
    rewrite inside_no_slash by (intros; by apply Hp). cbn [orb]. by apply parts_iff.
Qed.

(** ** Valid requests *)
Definition count_ok (n : Z) : Prop := 0 <= n <= MAX_SAFE_INTEGER.
Lemma count_iff invalid n f u : validate_count invalid n f = UriOk u <-> count_ok n.
Proof. unfold validate_count. rewrite demand_ok. unfold isSafeInteger, count_ok, MAX_SAFE_INTEGER. lia. Qed.
Lemma repository_iff invalid r u : validate_repositoryId invalid r = UriOk u <-> blank_text r = false.
Proof. unfold validate_repositoryId. by rewrite demand_ok, negb_true_iff. Qed.

Record base_valid (r : BaseContentUri.BaseContentUriRequest) : Prop := {
  base_repository : blank_text (BaseContentUri.repositoryId r) = false;
  base_counts : count_ok (BaseContentUri.epoch r) /\ count_ok (BaseContentUri.generation r);
  base_path : inside (slashes (BaseContentUri.path r));
  base_revision : BaseContentUri.revision r = literal "base";
}.
Record head_valid (r : HeadContentUri.HeadContentUriRequest) : Prop := {
  head_repository : blank_text (HeadContentUri.repositoryId r) = false;
  head_counts : count_ok (HeadContentUri.epoch r) /\ count_ok (HeadContentUri.generation r);
  head_path : inside (HeadContentUri.path r) /\ 92 ∉ HeadContentUri.path r;
  head_revision : HeadContentUri.revision r = literal "head";
  head_request : HeadContentUri.isRequestId (HeadContentUri.requestId r) = true;
}.
Record revision_valid (r : RevisionContentUri.RevisionContentUriRequest) : Prop := {
  revision_repository : blank_text (RevisionContentUri.repositoryId r) = false;
  revision_epoch : count_ok (RevisionContentUri.epoch r);
  revision_path : inside (RevisionContentUri.path r) /\ 92 ∉ RevisionContentUri.path r;
  revision_number : exists t, RevisionContentUri.revision r = 114 :: t /\ all_digits t = true /\ (t = [48] \/ head t <> Some 48)
    /\ number_of t <= 2147483647;
}.

Ltac uri_steps H := repeat match type of H with mbind _ _ = UriOk _ => apply uri_bind_ok in H as (? & ? & H) end.
Lemma base_checked r u : BaseContentUri.validateBaseContentUriRequest r = UriOk u <-> base_valid r.
Proof.
  unfold BaseContentUri.validateBaseContentUriRequest. rewrite !uri_bind_ok. setoid_rewrite uri_bind_ok. setoid_rewrite uri_bind_ok. setoid_rewrite uri_bind_ok.
  setoid_rewrite repository_iff. setoid_rewrite count_iff. setoid_rewrite demand_ok. setoid_rewrite base_iff. setoid_rewrite text_eqb_true.
  split; [intros (_ & ? & _ & ? & _ & ? & _ & ? & ?); by split|]. intros [? [? ?] ? ?]. by repeat (exists tt; split).
Qed.
Lemma head_checked r u : HeadContentUri.validateHeadContentUriRequest r = UriOk u <-> head_valid r.
Proof.
  unfold HeadContentUri.validateHeadContentUriRequest. rewrite !uri_bind_ok. do 4 setoid_rewrite uri_bind_ok.
  setoid_rewrite repository_iff. setoid_rewrite count_iff. setoid_rewrite demand_ok. setoid_rewrite plain_iff. setoid_rewrite text_eqb_true.
  split; [intros (_ & ? & _ & ? & _ & ? & _ & ? & _ & ? & ?); by split|]. intros [? [? ?] ? ? ?]. by repeat (exists tt; split).
Qed.

Lemma explicit_iff v : RevisionContentUri.isExplicitRevision v = true <->
  exists t, v = 114 :: t /\ all_digits t = true /\ (t = [48] \/ head t <> Some 48) /\ number_of t <= 2147483647.
Proof.
  assert (Heq : forall u t, RevisionContentUri.isExplicitRevision (u :: t) = (u =? 114) &&
    (all_digits t && (text_eqb t [48] || negb (bool_decide (head t = Some 48))) && (number_of t <=? 2147483647))).
  { intros u t. destruct (Z.eqb_spec u 114) as [->|Hu]; [done|]. cbn. destruct u as [|u|u]; try done. do 7 (destruct u as [u|u|]; try done). }
  split.
  - destruct v as [|u t]; [done|]. rewrite Heq. intros [Hu%Z.eqb_eq [[Hd Hz]%andb_prop Hn%Z.leb_le]%andb_prop]%andb_prop. subst u.
    exists t. split; [done|]. split; [done|]. split; [|done]. apply orb_true_iff in Hz as [Hz|Hz]; [left; by apply text_eqb_true|right].
    by apply negb_true_iff, bool_decide_eq_false in Hz.
  - intros (t & -> & Hd & Hz & Hn). rewrite Heq, Hd. cbn. apply andb_true_iff. split; [|by apply Z.leb_le]. apply orb_true_iff.
    destruct Hz as [Hz|Hz]; [left; by apply text_eqb_true|right]. by apply negb_true_iff, bool_decide_eq_false.
Qed.
Lemma revision_request_checked r u : RevisionContentUri.validateRevisionContentUriRequest r = UriOk u <-> revision_valid r.
Proof.
  unfold RevisionContentUri.validateRevisionContentUriRequest. rewrite !uri_bind_ok. do 2 setoid_rewrite uri_bind_ok.
  setoid_rewrite repository_iff. setoid_rewrite count_iff. setoid_rewrite demand_ok. setoid_rewrite plain_iff. setoid_rewrite explicit_iff.
  split; [intros (_ & ? & _ & ? & _ & ? & ?); by split|]. intros [? ? ? ?]. by repeat (exists tt; split).
Qed.

(** ** Reading a query back *)
Lemma query_string invalid ps f v : param ps f = Some v -> blank_text v = false -> requireQueryString invalid ps f = UriOk v.
Proof. intros H Hb. unfold requireQueryString. by rewrite H, Hb. Qed.
Lemma query_integer invalid ps f n : param ps f = Some (digits_of n) -> count_ok n -> requireQueryInteger invalid ps f = UriOk n.
Proof.
  intros H [Hn Hm]. destruct (digits_ok n Hn) as [Hd Hv]. destruct (digits_text _ Hd) as [Hb _]. unfold requireQueryInteger.
  rewrite (query_string _ _ _ _ H Hb). unfold mbind, uri_bind. rewrite Hd, Hv. unfold isSafeInteger. cbn [negb]. by replace (_ && _) with true by (unfold MAX_SAFE_INTEGER in *; lia).
Qed.
Lemma inside_blank p : inside p -> blank_text p = false.
Proof. by intros []. Qed.
Ltac next_uri x := apply uri_bind_ok; exists x; split.

Lemma base_round r : well_formed (BaseContentUri.repositoryId r) = true -> well_formed (BaseContentUri.path r) = true -> base_valid r ->
  exists c, BaseContentUri.createBaseContentUriComponents r = UriOk c /\ BaseContentUri.parseBaseContentUri c = UriOk r.
Proof.
  intros W1 W2 Hv. pose proof Hv as [Hr [He Hg] Hp Hrev]. destruct (digits_ok _ (proj1 He)) as [De _]. destruct (digits_ok _ (proj1 Hg)) as [Dg _].
  apply digits_text in De as [_ We], Dg as [_ Wg]. unfold BaseContentUri.createBaseContentUriComponents. eexists. split.
  { next_uri tt; [by apply base_checked|]. reflexivity. }
  unfold BaseContentUri.parseBaseContentUri. cbn [uri_scheme uri_authority uri_path uri_query].
  rewrite params_round; [|done|cbn [forallb]; unfold pair_wf; cbn [fst snd]; by rewrite W1, W2, We, Wg, Hrev].
  next_uri tt; [reflexivity|]. next_uri tt; [reflexivity|]. next_uri tt; [reflexivity|]. next_uri tt; [reflexivity|].
  next_uri (BaseContentUri.repositoryId r); [by apply query_string|]. next_uri (BaseContentUri.epoch r); [by apply query_integer|].
  next_uri (BaseContentUri.generation r); [by apply query_integer|].
  next_uri (BaseContentUri.path r); [apply query_string; [done|]; rewrite <- slashes_blank; by apply inside_blank|].
  next_uri (literal "base"); [apply query_string; [by rewrite <- Hrev|done]|]. rewrite <- Hrev. next_uri tt; [apply base_checked; by destruct r|]. by destruct r.
Qed.
Lemma id_text t : HeadContentUri.isRequestId t = true -> blank_text t = false /\ well_formed t = true.
Proof.
  unfold HeadContentUri.isRequestId.
  assert (Hcls : Forall (fun f : Z -> bool => forall u, f u = true -> 45 <= u <= 102) HeadContentUri.id_units).
  { unfold HeadContentUri.id_units, HeadContentUri.lower_hex, HeadContentUri.unit_is, HeadContentUri.variant_unit, digit_unit.
    cbn [repeat app]. repeat first [apply Forall_nil_2 | apply Forall_cons_2; [intros u; lia|]]. }
  assert (Hne : HeadContentUri.id_units <> []) by done. revert Hcls Hne. generalize HeadContentUri.id_units. intros classes Hcls Hne Hm. split.
  - destruct Hcls as [|f classes Hf Hrest]; [done|]. destruct t as [|u t]; [done|]. cbn in Hm. apply andb_prop in Hm as [Hu _].
    apply Hf in Hu. cbn. assert (Hs : space_unit u = false) by (unfold space_unit; lia). by rewrite Hs.
  - clear Hne. revert t Hm. induction Hcls as [|f classes Hf Hrest IH]; intros [|u t]; cbn; try done. intros [Hu Ht]%andb_prop.
    apply Hf in Hu. rewrite (IH t Ht). unfold is_high, is_low. bounds.
Qed.
Lemma head_round r : well_formed (HeadContentUri.repositoryId r) = true -> well_formed (HeadContentUri.path r) = true -> head_valid r ->
  exists c, HeadContentUri.createHeadContentUriComponents r = UriOk c /\ HeadContentUri.parseHeadContentUri c = UriOk r.
Proof.
  intros W1 W2 Hv. pose proof Hv as [Hr [He Hg] [Hp Hb] Hrev Hid]. destruct (digits_ok _ (proj1 He)) as [De _]. destruct (digits_ok _ (proj1 Hg)) as [Dg _].
  apply digits_text in De as [_ We], Dg as [_ Wg]. destruct (id_text _ Hid) as [Bi Wi].
  unfold HeadContentUri.createHeadContentUriComponents. eexists. split.
  { next_uri tt; [by apply head_checked|]. reflexivity. }
  unfold HeadContentUri.parseHeadContentUri. cbn [uri_scheme uri_authority uri_path uri_query].
  rewrite params_round; [|done|cbn [forallb]; unfold pair_wf; cbn [fst snd]; by rewrite W1, W2, We, Wg, Hrev, Wi].
  next_uri tt; [reflexivity|]. next_uri tt; [reflexivity|]. next_uri tt; [reflexivity|]. next_uri tt; [reflexivity|].
  next_uri (HeadContentUri.repositoryId r); [by apply query_string|]. next_uri (HeadContentUri.epoch r); [by apply query_integer|].
  next_uri (HeadContentUri.generation r); [by apply query_integer|].
  next_uri (HeadContentUri.path r); [apply query_string; [done|by apply inside_blank]|].
  next_uri (literal "head"); [apply query_string; [by rewrite <- Hrev|done]|].
  next_uri (HeadContentUri.requestId r); [by apply query_string|].
  rewrite <- Hrev. next_uri tt; [apply head_checked; by destruct r|]. by destruct r.
Qed.
Lemma revision_round r : well_formed (RevisionContentUri.repositoryId r) = true -> well_formed (RevisionContentUri.path r) = true -> revision_valid r ->
  exists c, RevisionContentUri.createRevisionContentUriComponents r = UriOk c /\ RevisionContentUri.parseRevisionContentUri c = UriOk r.
Proof.
  intros W1 W2 Hv. pose proof Hv as [Hr He [Hp Hb] (t & Hrev & Dt & _)]. destruct (digits_ok _ (proj1 He)) as [De _].
  apply digits_text in De as [_ We]. apply digits_text in Dt as [Bt Wt].
  unfold RevisionContentUri.createRevisionContentUriComponents. eexists. split.
  { next_uri tt; [by apply revision_request_checked|]. reflexivity. }
  unfold RevisionContentUri.parseRevisionContentUri. cbn [uri_scheme uri_authority uri_path uri_query].
  rewrite params_round; [|done|cbn [forallb]; unfold pair_wf; cbn [fst snd]; rewrite W1, W2, We, Hrev; cbn; by rewrite Wt].
  next_uri tt; [reflexivity|]. next_uri tt; [reflexivity|]. next_uri tt; [reflexivity|]. next_uri tt; [reflexivity|].
  next_uri (RevisionContentUri.repositoryId r); [by apply query_string|]. next_uri (RevisionContentUri.epoch r); [by apply query_integer|].
  next_uri (RevisionContentUri.path r); [apply query_string; [done|by apply inside_blank]|].
  next_uri (RevisionContentUri.revision r); [apply query_string; [done|by rewrite Hrev]|].
  next_uri tt; [apply revision_request_checked; by destruct r|]. by destruct r.
Qed.

(** C31: A content URI carries its request and nothing else.  Every valid request
    for the content of a file, at its base, at the head or at a revision, is made
    into a URI that is read back as the same request, whatever Unicode texts the
    repository id and the path are; and whatever URI the editor passes, a request
    read from it is valid, so that its path stays inside the working copy. *)
Theorem content_uris_exact :
  (forall r, well_formed (BaseContentUri.repositoryId r) = true -> well_formed (BaseContentUri.path r) = true -> base_valid r ->
     exists c, BaseContentUri.createBaseContentUriComponents r = UriOk c /\ BaseContentUri.parseBaseContentUri c = UriOk r)
  /\ (forall u r, BaseContentUri.parseBaseContentUri u = UriOk r -> base_valid r)
  /\ (forall r, well_formed (HeadContentUri.repositoryId r) = true -> well_formed (HeadContentUri.path r) = true -> head_valid r ->
     exists c, HeadContentUri.createHeadContentUriComponents r = UriOk c /\ HeadContentUri.parseHeadContentUri c = UriOk r)
  /\ (forall u r, HeadContentUri.parseHeadContentUri u = UriOk r -> head_valid r)
  /\ (forall r, well_formed (RevisionContentUri.repositoryId r) = true -> well_formed (RevisionContentUri.path r) = true -> revision_valid r ->
     exists c, RevisionContentUri.createRevisionContentUriComponents r = UriOk c /\ RevisionContentUri.parseRevisionContentUri c = UriOk r)
  /\ (forall u r, RevisionContentUri.parseRevisionContentUri u = UriOk r -> revision_valid r).
Proof.
  split; [apply base_round|]. split; [|split; [apply head_round|]; split; [|split; [apply revision_round|]]].
  - intros u r H. unfold BaseContentUri.parseBaseContentUri in H. cbn zeta in H. uri_steps H. injection H as <-.
    match goal with H : BaseContentUri.validateBaseContentUriRequest _ = _ |- _ => apply base_checked in H; destruct H as [? ? ? Hr] end.
    cbn in Hr. by split.
  - intros u r H. unfold HeadContentUri.parseHeadContentUri in H. cbn zeta in H. uri_steps H. injection H as <-.
    match goal with H : HeadContentUri.validateHeadContentUriRequest _ = _ |- _ => apply head_checked in H; destruct H as [? ? ? Hr ?] end.
    cbn in Hr. by split.
  - intros u r H. unfold RevisionContentUri.parseRevisionContentUri in H. cbn zeta in H. uri_steps H. injection H as <-.
    by match goal with H : RevisionContentUri.validateRevisionContentUriRequest _ = _ |- _ => apply revision_request_checked in H end.
Qed.

(** A path with a space, an ampersand and letters outside ASCII, as it travels. *)
Example encoded_path : form_encode (literal "a b&c" ++ [228; 26085; 55357; 56832]) = literal "a+b%26c%C3%A4%E6%97%A5%F0%9F%98%80".
Proof. by vm_compute. Qed.
