(* ===== verification/BackendService.v ===== *)
(** backend/backendService.ts: the service that starts the backend, restarts it
    with a growing delay when it fails, watches it with heartbeats and shuts it
    down.

    The world holds the fields of the service and what is under way: the startups
    with their promise chains, the heartbeat requests and the shutdowns.  A
    connection is a number.  An [event] is a call, or the continuation of a
    promise or a timer; they come in any order that their guards allow.

    [told] is the log of what listeners are told.  A listener of the lifecycle may
    throw: the events that tell one carry what it throws, if it does, and the rest
    of the code around it is skipped.  What a listener calls is an event after the
    one that told it, since no field of the service is touched once a listener
    has run.  Listeners of terminations are told last, so what they throw changes
    nothing.  [dispose] of a connection does not throw.

    [disturbed] is not a field of the service: it records that a heartbeat failed
    while a shutdown waited, or that a listener threw when it was told that the
    service is ready or that a heartbeat failed.  Three runs at the end of the file
    show what each of these breaks. *)

From Stdlib Require Import ZArith Lia String List.
From stdpp Require Import base option list relations.
From S2P Require Import Prelude JsString.

Local Open Scope Z_scope.
Local Open Scope list_scope.

Record BackendRestartPolicy := { initialBackoffMs : Z; maxBackoffMs : Z }.
Inductive BackendHeartbeatPolicy := HeartbeatDisabled | HeartbeatEnabled (intervalMs timeoutMs : Z).
Inductive BackendDegradedReason := startupFailed | terminated | heartbeatFailed | protocolFault.
Inductive BackendLifecycleState :=
  | Idle
  | Ready (since : Z)
  | Degraded (reason : BackendDegradedReason) (since failures restartAfter : Z) (lastErrorCode : string).
Inductive BackendLifecycleEvent :=
  | StateChanged (state : BackendLifecycleState)
  | Recovered (since : Z) (recoveredFrom : BackendDegradedReason) (failures : Z).
Inductive BackendConnectionTerminationReason := processExit | processClose | processError | protocolFaulted | heartbeatLost.
(** The exit code and the signal of the event are passed on and not read. *)
Record BackendConnectionTermination := { termination_reason : BackendConnectionTerminationReason; termination_message : option string }.

(** What rejects a startup: [BackendStartupCancellationError], or what the
    starter rejects with. *)
Inductive startup_error := BackendStartupCancellationError (message : string) | StartFailed (error : js_error).

Definition errorCode (error : startup_error) (fallback : string) : string :=
  match error with
  | StartFailed (StructuredError _ code _ _ _) => if Nat.eqb (String.length (trim code)) 0 then fallback else code
  | _ => fallback
  end.
Definition degradationFromTermination (event : BackendConnectionTermination) : BackendDegradedReason * string :=
  match termination_reason event with
  | protocolFaulted =>
      (protocolFault,
       match termination_message event with
       | Some message => if Nat.eqb (String.length (trim message)) 0 then "SUBVERSIONR_BACKEND_PROTOCOL_FAULT"%string else message
       | None => "SUBVERSIONR_BACKEND_PROTOCOL_FAULT"%string
       end)
  | _ => (terminated, "SUBVERSIONR_BACKEND_TERMINATED"%string)
  end.
Definition BackendHeartbeatTimeoutError : js_error :=
  StructuredError "Error" "SUBVERSIONR_BACKEND_HEARTBEAT_TIMEOUT" "" "" [].
Definition validatePositiveMilliseconds (value : Z) (name : string) : result unit :=
  if value <=? 0 then Throw (PlainError (name ++ " must be greater than 0")) else Ok tt.
Definition validateHeartbeatPolicy (policy : BackendHeartbeatPolicy) : result unit :=
  match policy with
  | HeartbeatDisabled => Ok tt
  | HeartbeatEnabled interval timeout =>
      _ ← validatePositiveMilliseconds interval "heartbeatPolicy.intervalMs";
      validatePositiveMilliseconds timeout "heartbeatPolicy.timeoutMs"
  end.

(** ** The state *)

(** [startupAttempt]: asleep until its time, waiting for the starter, answered
    with its own continuation still to come, over. *)
Inductive attempt_work := Sleeping (until : Z) | Starting | Answered (c : nat) | WorkOver.
(** The race with the cancellation, then the [then], then the [catch]. *)
Inductive attempt_chain := Racing | ToThen (c : nat) | ToCatch (e : startup_error) | ChainOver (r : nat + startup_error).
Record attempt := { work : attempt_work; chain : attempt_chain; cancelled : bool }.

(** Startups and cancellations are named by the number of their attempt. *)
Record BackendService := {
  startup : option nat;
  startupCancellation : option nat;
  connection : option nat;
  connectionTerminationSubscription : option nat;
  shutdownPromise : bool;
  disposed : bool;
  lifecycleState : BackendLifecycleState;
  consecutiveFailures : Z;
  heartbeatTimer : option (nat * nat);
  heartbeatToken : nat;
}.
Record World := {
  service : BackendService;
  attempts : list attempt;
  beats : list (nat * nat);
  shutdowns : list nat;
  clock : Z;
  made : nat;
  disposals : list nat;
  ended : list nat;
  told : list (BackendLifecycleEvent + BackendConnectionTermination);
  disturbed : bool;
}.

Definition with_startup (x y : option nat) (s : BackendService) : BackendService :=
  {| startup := x; startupCancellation := y; connection := connection s; connectionTerminationSubscription := connectionTerminationSubscription s;
     shutdownPromise := shutdownPromise s; disposed := disposed s; lifecycleState := lifecycleState s; consecutiveFailures := consecutiveFailures s;
     heartbeatTimer := heartbeatTimer s; heartbeatToken := heartbeatToken s |}.
Definition with_connection (x y : option nat) (s : BackendService) : BackendService :=
  {| startup := startup s; startupCancellation := startupCancellation s; connection := x; connectionTerminationSubscription := y;
     shutdownPromise := shutdownPromise s; disposed := disposed s; lifecycleState := lifecycleState s; consecutiveFailures := consecutiveFailures s;
     heartbeatTimer := heartbeatTimer s; heartbeatToken := heartbeatToken s |}.
Definition with_shutdown (b d : bool) (s : BackendService) : BackendService :=
  {| startup := startup s; startupCancellation := startupCancellation s; connection := connection s;
     connectionTerminationSubscription := connectionTerminationSubscription s; shutdownPromise := b; disposed := d;
     lifecycleState := lifecycleState s; consecutiveFailures := consecutiveFailures s; heartbeatTimer := heartbeatTimer s; heartbeatToken := heartbeatToken s |}.
Definition with_state (x : BackendLifecycleState) (n : Z) (s : BackendService) : BackendService :=
  {| startup := startup s; startupCancellation := startupCancellation s; connection := connection s;
     connectionTerminationSubscription := connectionTerminationSubscription s; shutdownPromise := shutdownPromise s; disposed := disposed s;
     lifecycleState := x; consecutiveFailures := n; heartbeatTimer := heartbeatTimer s; heartbeatToken := heartbeatToken s |}.
Definition with_heartbeat (x : option (nat * nat)) (n : nat) (s : BackendService) : BackendService :=
  {| startup := startup s; startupCancellation := startupCancellation s; connection := connection s;
     connectionTerminationSubscription := connectionTerminationSubscription s; shutdownPromise := shutdownPromise s; disposed := disposed s;
     lifecycleState := lifecycleState s; consecutiveFailures := consecutiveFailures s; heartbeatTimer := x; heartbeatToken := n |}.

Definition on_service (f : BackendService -> BackendService) (w : World) : World :=
  {| service := f (service w); attempts := attempts w; beats := beats w; shutdowns := shutdowns w; clock := clock w; made := made w;
     disposals := disposals w; ended := ended w; told := told w; disturbed := disturbed w |}.
Definition on_attempts (f : list attempt -> list attempt) (w : World) : World :=
  {| service := service w; attempts := f (attempts w); beats := beats w; shutdowns := shutdowns w; clock := clock w; made := made w;
     disposals := disposals w; ended := ended w; told := told w; disturbed := disturbed w |}.
Definition on_pending (b : list (nat * nat)) (s : list nat) (w : World) : World :=
  {| service := service w; attempts := attempts w; beats := b; shutdowns := s; clock := clock w; made := made w;
     disposals := disposals w; ended := ended w; told := told w; disturbed := disturbed w |}.
Definition on_clock (t : Z) (w : World) : World :=
  {| service := service w; attempts := attempts w; beats := beats w; shutdowns := shutdowns w; clock := t; made := made w;
     disposals := disposals w; ended := ended w; told := told w; disturbed := disturbed w |}.
Definition on_connections (m : nat) (d e : list nat) (w : World) : World :=
  {| service := service w; attempts := attempts w; beats := beats w; shutdowns := shutdowns w; clock := clock w; made := m;
     disposals := d; ended := e; told := told w; disturbed := disturbed w |}.
Definition on_log (t : list (BackendLifecycleEvent + BackendConnectionTermination)) (l : bool) (w : World) : World :=
  {| service := service w; attempts := attempts w; beats := beats w; shutdowns := shutdowns w; clock := clock w; made := made w;
     disposals := disposals w; ended := ended w; told := t; disturbed := l |}.

Definition fireLifecycle (e : BackendLifecycleEvent) (w : World) : World := on_log (told w ++ [inl e]) (disturbed w) w.
Definition fireTerminate (e : BackendConnectionTermination) (w : World) : World := on_log (told w ++ [inr e]) (disturbed w) w.
(** [connection.dispose()] *)
Definition dispose_connection (c : nat) (w : World) : World := on_connections (made w) (disposals w ++ [c]) (ended w) w.
Definition set_work (i : nat) (x : attempt_work) : World -> World :=
  on_attempts (alter (fun a => {| work := x; chain := chain a; cancelled := cancelled a |}) i).
Definition set_chain (i : nat) (x : attempt_chain) : World -> World :=
  on_attempts (alter (fun a => {| work := work a; chain := x; cancelled := cancelled a |}) i).
(** The race is won by what settles first. *)
Definition settle_race (i : nat) (x : attempt_chain) : World -> World :=
  on_attempts (alter (fun a => {| work := work a; chain := match chain a with Racing => x | y => y end; cancelled := cancelled a |}) i).

(** ** The operations *)
Section Service.
Context (heartbeatPolicy : BackendHeartbeatPolicy) (restartPolicy : BackendRestartPolicy).

Definition stopHeartbeat (s : BackendService) : BackendService := with_heartbeat None (S (heartbeatToken s)) s.
Definition clearConnectionTerminationSubscription (s : BackendService) : BackendService := with_connection (connection s) None s.
Definition isHeartbeatCurrent (c token : nat) (s : BackendService) : bool :=
  negb (disposed s) && bool_decide (connection s = Some c) && Nat.eqb (heartbeatToken s) token.
Definition scheduleHeartbeat (c token : nat) (s : BackendService) : BackendService :=
  match heartbeatPolicy with
  | HeartbeatEnabled _ _ => if isHeartbeatCurrent c token s then with_heartbeat (Some (c, token)) (heartbeatToken s) s else s
  | HeartbeatDisabled => s
  end.
Definition startHeartbeat (c : nat) (s : BackendService) : BackendService :=
  let s := stopHeartbeat s in
  match heartbeatPolicy with
  | HeartbeatEnabled _ _ => scheduleHeartbeat c (heartbeatToken s) s
  | HeartbeatDisabled => s
  end.

Definition markReady (w : World) : World :=
  let previous := lifecycleState (service w) in
  let w := on_service (with_state (Ready (clock w)) 0) w in
  match previous with
  | Degraded reason _ failures _ _ => fireLifecycle (Recovered (clock w) reason failures) w
  | _ => fireLifecycle (StateChanged (lifecycleState (service w))) w
  end.
Definition backoffMs (failures : Z) : Z := Z.min (initialBackoffMs restartPolicy * 2 ^ (failures - 1)) (maxBackoffMs restartPolicy).
Definition markDegraded (reason : BackendDegradedReason) (lastErrorCode : string) (w : World) : World :=
  let now := clock w in
  let failures := consecutiveFailures (service w) + 1 in
  let w := on_service (with_state (Degraded reason now failures (now + backoffMs failures) lastErrorCode) failures) w in
  fireLifecycle (StateChanged (lifecycleState (service w))) w.

(** [startConnection]; [config] is what [readConfig] throws, if it does. *)
Definition startConnection (i : nat) (config : option js_error) (w : World) : World :=
  if disposed (service w) then settle_race i (ToCatch (StartFailed (PlainError "backend service disposed"))) (set_work i WorkOver w)
  else match config with
       | Some e => settle_race i (ToCatch (StartFailed e)) (set_work i WorkOver w)
       | None => set_work i Starting w
       end.
Definition restartBackoffDelayMs (w : World) : Z :=
  match lifecycleState (service w) with
  | Degraded _ _ _ restartAfter _ => Z.max 0 (restartAfter - clock w)
  | _ => 0
  end.
(** [initializeConnection] up to its first [await]. *)
Definition initializeConnection (i : nat) (config : option js_error) (w : World) : World :=
  let delayMs := restartBackoffDelayMs w in
  if 0 <? delayMs then set_work i (Sleeping (clock w + delayMs)) w else startConnection i config w.

Inductive initialized := InitializeRejected (message : string) | InitializeReturns (c : nat) | InitializeStarts (i : nat).
Definition initialize (config : option js_error) (w : World) : initialized * World :=
  let s := service w in
  if disposed s then (InitializeRejected "backend service disposed", w)
  else match connection s, startup s with
       | Some c, _ => (InitializeReturns c, w)
       | None, Some i => (InitializeStarts i, w)
       | None, None =>
           let i := length (attempts w) in
           let w := on_attempts (fun l => l ++ [{| work := Starting; chain := Racing; cancelled := false |}]) w in
           let w := initializeConnection i config w in
           (InitializeStarts i, on_service (with_startup (Some i) (Some i)) w)
       end.

Definition cancel (i : nat) (message : string) (w : World) : World :=
  match attempts w !! i with
  | Some a =>
      if cancelled a then w
      else settle_race i (ToCatch (BackendStartupCancellationError message))
             (on_attempts (alter (fun a => {| work := work a; chain := chain a; cancelled := true |}) i) w)
  | None => w
  end.
Definition cancel_current (message : string) (w : World) : World :=
  match startupCancellation (service w) with Some i => cancel i message w | None => w end.

(** [shutdown], with [shutdownInitializedConnection] up to its [await]. *)
Definition shutdown (w : World) : World :=
  let s := service w in
  if shutdownPromise s then w
  else match connection s, startup s with
       | None, Some _ =>
           on_service (fun s => with_state Idle (consecutiveFailures s) (with_startup None None s))
             (cancel_current "backend service shutdown during startup" w)
       | None, None => w
       | Some c, _ =>
           on_pending (beats w) (shutdowns w ++ [c])
             (on_service (fun s => clearConnectionTerminationSubscription (stopHeartbeat (with_shutdown true (disposed s) s))) w)
       end.
(** The [finally] of [shutdownInitializedConnection]. *)
Definition finish_shutdown (c : nat) (w : World) : World :=
  on_service (fun s => with_state Idle (consecutiveFailures s) (with_shutdown false (disposed s)
      (with_startup None (startupCancellation s) (with_connection None (connectionTerminationSubscription s) s))))
    (dispose_connection c w).
Definition dispose (w : World) : World :=
  let w := on_service (with_shutdown (shutdownPromise (service w)) true) w in
  let w := cancel_current "backend service disposed" w in
  let w := on_service (fun s => clearConnectionTerminationSubscription (stopHeartbeat (with_startup (startup s) None s))) w in
  let w := match connection (service w) with Some c => dispose_connection c w | None => w end in
  on_service (fun s => with_shutdown false (disposed s) (with_startup None (startupCancellation s) (with_connection None None s))) w.

Definition start_answered (i : nat) (r : option js_error) (w : World) : World :=
  match r with
  | None => on_connections (S (made w)) (disposals w) (ended w) (settle_race i (ToThen (made w)) (set_work i (Answered (made w)) w))
  | Some e => settle_race i (ToCatch (StartFailed e)) (set_work i WorkOver w)
  end.
(** The [then] of [startupAttempt] itself. *)
Definition attempt_reaction (i : nat) (a : attempt) (c : nat) (w : World) : World :=
  let w := set_work i WorkOver w in if cancelled a then dispose_connection c w else w.
Definition clear_cancellation (i : nat) (s : BackendService) : BackendService :=
  if bool_decide (startupCancellation s = Some i) then with_startup (startup s) None s else s.
Definition disturb (w : World) : World := on_log (told w) true w.
(** The [then] and the [catch] of the race; [thrown] is what a listener of the
    lifecycle throws. *)
Definition run_then (i : nat) (a : attempt) (c : nat) (thrown : option js_error) (w : World) : World :=
  if disposed (service w) || cancelled a then
    set_chain i (ToCatch (BackendStartupCancellationError
      (if disposed (service w) then "backend service disposed" else "backend service startup cancelled"))) (dispose_connection c w)
  else
    let w := markReady (on_service (fun s => startHeartbeat c (with_connection (Some c) (Some c) (clear_cancellation i s))) w) in
    match thrown with
    | None => set_chain i (ChainOver (inl c)) w
    | Some x => set_chain i (ToCatch (StartFailed x)) (disturb w)
    end.
Definition run_catch (i : nat) (e : startup_error) (thrown : option js_error) (w : World) : World :=
  let w := on_service (fun s => if bool_decide (startup s = Some i) then with_startup None (startupCancellation s) s else s) w in
  let w := on_service (clear_cancellation i) w in
  match e with
  | BackendStartupCancellationError _ => set_chain i (ChainOver (inr e)) w
  | StartFailed _ =>
      if disposed (service w) then set_chain i (ChainOver (inr e)) w
      else set_chain i (ChainOver (inr (match thrown with Some x => StartFailed x | None => e end)))
             (markDegraded startupFailed (errorCode e "SUBVERSIONR_BACKEND_STARTUP_FAILED") w)
  end.

(** [this.connection], [this.startup] and [this.shutdownPromise] are forgotten,
    heartbeat and subscription with them. *)
Definition drop_connection (s : BackendService) : BackendService :=
  with_shutdown false (disposed s) (with_startup None (startupCancellation s) (with_connection None None (stopHeartbeat s))).
Definition handle_termination (c : nat) (event : BackendConnectionTermination) (thrown : option js_error) (w : World) : World :=
  if bool_decide (connection (service w) = Some c) then
    let (reason, code) := degradationFromTermination event in
    let w := markDegraded reason code (on_service drop_connection w) in
    match thrown with None => fireTerminate event w | Some _ => w end
  else w.
(** The connection ends by itself; its listeners are told. *)
Definition terminate (c : nat) (event : BackendConnectionTermination) (thrown : option js_error) (w : World) : World :=
  let w := on_connections (made w) (disposals w) (ended w ++ [c]) w in
  if bool_decide (connectionTerminationSubscription (service w) = Some c) then handle_termination c event thrown w else w.

(** When a listener of the lifecycle throws, neither [connection.dispose()] nor
    [fireTerminate] is reached. *)
Definition handleHeartbeatFailure (c : nat) (error : js_error) (thrown : option js_error) (w : World) : World :=
  let s := service w in
  if negb (bool_decide (connection s = Some c)) || disposed s then w
  else
    let lastErrorCode := errorCode (StartFailed error) "SUBVERSIONR_BACKEND_HEARTBEAT_FAILED" in
    let w := on_log (told w) (disturbed w || shutdownPromise s) w in
    let w := markDegraded heartbeatFailed lastErrorCode (on_service drop_connection w) in
    match thrown with
    | None => fireTerminate {| termination_reason := heartbeatLost; termination_message := Some lastErrorCode |} (dispose_connection c w)
    | Some _ => disturb w
    end.
(** The timer of [scheduleHeartbeat], and [runHeartbeat] up to its [await]. *)
Definition heartbeat_fires (c token : nat) (w : World) : World :=
  let w := on_service (fun s => with_heartbeat None (heartbeatToken s) s) w in
  if isHeartbeatCurrent c token (service w) then on_pending (beats w ++ [(c, token)]) (shutdowns w) w else w.
(** The rest of [runHeartbeat]: the request is answered, fails or times out. *)
Definition heartbeat_answered (k c token : nat) (r thrown : option js_error) (w : World) : World :=
  let w := on_pending (delete k (beats w)) (shutdowns w) w in
  match r with
  | None => on_service (scheduleHeartbeat c token) w
  | Some e => handleHeartbeatFailure c e thrown w
  end.

Definition getLifecycleState (w : World) : BackendLifecycleState := lifecycleState (service w).
Definition isRemoteSubmissionEnabled (enabled : nat -> bool) (w : World) : bool :=
  match connection (service w) with Some c => enabled c | None => false end.

(** ** Events *)
Inductive event :=
  | CallInitialize (config : option js_error)
  | CallShutdown
  | CallDispose
  | ClockMoves (ms : Z)
  | SleepOver (i : nat) (config : option js_error)
  | StartAnswered (i : nat) (r : option js_error)
  | AttemptReaction (i : nat)
  | RunThen (i : nat) (thrown : option js_error)
  | RunCatch (i : nat) (thrown : option js_error)
  | Terminates (c : nat) (e : BackendConnectionTermination) (thrown : option js_error)
  | HeartbeatFires
  | HeartbeatAnswered (k : nat) (r thrown : option js_error)
  | ShutdownEnds (k : nat).

(** Continuations run in the order in which their races were settled; a startup is
    made only when the race of the one before is settled. *)
Definition idle_chain (a : attempt) : bool := match chain a with Racing | ChainOver _ => true | _ => false end.
Definition in_turn (i : nat) (w : World) : bool := forallb idle_chain (take i (attempts w)).

Definition exec (e : event) (w : World) : option World :=
  match e with
  | CallInitialize config => Some (snd (initialize config w))
  | CallShutdown => Some (shutdown w)
  | CallDispose => Some (dispose w)
  | ClockMoves ms => if 0 <=? ms then Some (on_clock (clock w + ms) w) else None
  | SleepOver i config =>
      a ← attempts w !! i;
      match work a with Sleeping until => if until <=? clock w then Some (startConnection i config w) else None | _ => None end
  | StartAnswered i r => a ← attempts w !! i; match work a with Starting => Some (start_answered i r w) | _ => None end
  | AttemptReaction i => a ← attempts w !! i; match work a with Answered c => Some (attempt_reaction i a c w) | _ => None end
  | RunThen i thrown =>
      a ← attempts w !! i;
      if in_turn i w then match work a, chain a with Answered _, _ => None | _, ToThen c => Some (run_then i a c thrown w) | _, _ => None end else None
  | RunCatch i thrown =>
      a ← attempts w !! i;
      if in_turn i w then match chain a with ToCatch e => Some (run_catch i e thrown w) | _ => None end else None
  | Terminates c e thrown =>
      if Nat.ltb c (made w) && negb (bool_decide (c ∈ disposals w)) && negb (bool_decide (c ∈ ended w)) then Some (terminate c e thrown w) else None
  | HeartbeatFires => p ← heartbeatTimer (service w); Some (heartbeat_fires (fst p) (snd p) w)
  | HeartbeatAnswered k r thrown => p ← beats w !! k; Some (heartbeat_answered k (fst p) (snd p) r thrown w)
  | ShutdownEnds k => c ← shutdowns w !! k; Some (finish_shutdown c (on_pending (beats w) (delete k (shutdowns w)) w))
  end.
Inductive step (w : World) : World -> Prop := step_exec e w' : exec e w = Some w' -> step w w'.

Definition newService : BackendService :=
  {| startup := None; startupCancellation := None; connection := None; connectionTerminationSubscription := None; shutdownPromise := false;
     disposed := false; lifecycleState := Idle; consecutiveFailures := 0; heartbeatTimer := None; heartbeatToken := 0 |}.
Definition newWorld (t : Z) : World :=
  {| service := newService; attempts := []; beats := []; shutdowns := []; clock := t; made := 0; disposals := []; ended := []; told := [];
     disturbed := false |}.
End Service.

(** ** What holds in every state *)
Definition over (a : attempt) : Prop := exists r, chain a = ChainOver r.
(** Connection [c] is in the hands of the startup, whose continuations adopt or
    dispose it. *)
Definition holds (c : nat) (a : attempt) : Prop := chain a = ToThen c \/ work a = Answered c /\ cancelled a = true.
Definition at_work (a : attempt) : Prop := match work a with Sleeping _ | Starting => True | _ => False end.
Definition accounted (w : World) (c : nat) : Prop :=
  connection (service w) = Some c \/ c ∈ disposals w \/ c ∈ ended w \/ exists i a, attempts w !! i = Some a /\ holds c a.

(** The state of a service that is not disposed. *)
Record live (s : BackendService) (l : list attempt) (sh : list nat) : Prop := {
  live_over : connection s <> None -> forall i a, l !! i = Some a -> over a;
  live_startup i : startup s = Some i -> connection s = None ->
    startupCancellation s = Some i /\ S i = length l /\ exists a, l !! i = Some a /\ ~ over a /\ cancelled a = false;
  live_rest i a : l !! i = Some a -> startup s <> Some i -> over a \/ cancelled a = true /\ chain a <> Racing;
  live_cancellation i : startupCancellation s = Some i -> startup s = Some i /\ connection s = None;
  live_shutdown : if shutdownPromise s then connectionTerminationSubscription s = None /\ exists c, connection s = Some c /\ sh = [c] else sh = [];
  live_ready : connection s <> None <-> exists t, lifecycleState s = Ready t;
}.
Lemma alter_lookup {A} (f : A -> A) (i : nat) (l : list A) j y : alter f i l !! j = Some y -> exists z, l !! j = Some z /\ (j = i /\ y = f z \/ j <> i /\ y = z).
Proof.
  destruct (decide (j = i)) as [->|Hne].
  - rewrite list_lookup_alter_eq. destruct (l !! i) as [z|]; [|done]. intros [= <-]. exists z. naive_solver.
  - rewrite list_lookup_alter_ne by done. intros Hy. exists y. naive_solver.
Qed.
(** A change of one startup keeps what it holds, or what it holds is accounted
    for otherwise. *)
Lemma accounted_alter w (f : attempt -> attempt) i c : accounted w c ->
  (forall a, attempts w !! i = Some a -> holds c a -> holds c (f a) \/ c ∈ disposals w) -> accounted (on_attempts (alter f i) w) c.
Proof.
  intros [|[|[|(j & a & Hj & Ha)]]] Hf; unfold accounted; cbn; [tauto..|]. destruct (decide (j = i)) as [->|Hne].
  - destruct (Hf a Hj Ha) as [Hh|]; [|tauto]. do 3 right. exists i, (f a). by rewrite list_lookup_alter_eq, Hj.
  - do 3 right. exists j, a. by rewrite list_lookup_alter_ne.
Qed.
(** [live] and the changes of startups: a startup that is not over stays so, and
    its race, once settled, too. *)
Definition tame (f : attempt -> attempt) (l : list attempt) (i : nat) : Prop := forall a, l !! i = Some a ->
  (over a <-> over (f a)) /\ (cancelled a = cancelled (f a)) /\ (chain a <> Racing -> chain (f a) <> Racing).
Lemma live_tame s l sh f i : tame f l i -> live s l sh -> live s (alter f i l) sh.
Proof.
  intros Hf [H1 H2 H3 H4 H5 H6]. split; [| | |done|done|done].
  - intros Hc j a (z & Hz & [[-> ->]|[_ ->]])%alter_lookup; [apply (Hf z Hz)|]; by eapply H1.
  - intros j Hj Hc. destruct (H2 j Hj Hc) as (Hx & Hl & a & Ha & Ho & Hn). split; [done|]. split; [by rewrite length_alter|].
    destruct (decide (j = i)) as [->|Hne]; [|exists a; by rewrite list_lookup_alter_ne].
    exists (f a). rewrite list_lookup_alter_eq, Ha. destruct (Hf a Ha) as (Ho' & Hc' & _). rewrite <- Hc'. split; [done|]. split; [by rewrite <- Ho'|done].
  - intros j a (z & Hz & [[-> ->]|[_ ->]])%alter_lookup Hs; [|by eapply H3]. destruct (Hf z Hz) as (Ho' & Hc' & Hr).
    destruct (H3 i z Hz Hs) as [Ho|[Hc Hn]]; [left; by apply Ho'|right; rewrite <- Hc'; by split; [|apply Hr]].
Qed.

Section Invariant.
Context (heartbeatPolicy : BackendHeartbeatPolicy) (restartPolicy : BackendRestartPolicy).
Record failures_ok (s : BackendService) (now : Z) : Prop := {
  failures_count : 0 <= consecutiveFailures s;
  failures_degraded reason since k ra code : lifecycleState s = Degraded reason since k ra code ->
    1 <= k /\ k = consecutiveFailures s /\ since <= now /\ ra = since + backoffMs restartPolicy k;
}.
Record inv (w : World) : Prop := {
  inv_work i a : attempts w !! i = Some a -> at_work a -> chain a <> Racing -> cancelled a = true;
  inv_accounted : disturbed w = false -> forall c, (c < made w)%nat -> accounted w c;
  inv_disposed : disposed (service w) = true -> connection (service w) = None;
  inv_live : disturbed w = false -> disposed (service w) = false -> live (service w) (attempts w) (shutdowns w);
  inv_failures : failures_ok (service w) (clock w);
}.

Ltac inv_split H := destruct H as [Hwork Hacc Hdisp Hlive Hfail]; split; cbn [on_service on_attempts on_pending on_clock on_connections on_log
  service attempts beats shutdowns clock made disposals ended told disturbed].

(** ** Changes of one startup *)
Lemma inv_alter w f i : inv w -> tame f (attempts w) i ->
  (forall a, attempts w !! i = Some a -> at_work (f a) -> chain (f a) <> Racing -> cancelled (f a) = true) ->
  (forall a c, attempts w !! i = Some a -> holds c a -> holds c (f a) \/ c ∈ disposals w) -> inv (on_attempts (alter f i) w).
Proof.
  intros Hi Hf Hw Hh. inv_split Hi.
  - intros j a (z & Hz & [[-> ->]|[_ ->]])%alter_lookup; [by apply Hw|by eapply Hwork].
  - intros Hl c Hc. apply accounted_alter; [by apply Hacc|]. eauto.
  - done.
  - intros Hl Hd. by apply live_tame; [|apply Hlive].
  - done.
Qed.
Lemma inv_set_work w i x : inv w -> (forall a, attempts w !! i = Some a -> at_work a) -> inv (set_work i x w).
Proof.
  intros Hi Hat. apply inv_alter; [done| | |].
  - intros a Ha. done.
  - intros a Ha _ Hc. cbn in *. by eapply inv_work; [|done|by apply Hat|].
  - intros a c Ha [Hc|[Hc _]]; [by left; left|]. specialize (Hat a Ha). unfold at_work in Hat. by rewrite Hc in Hat.
Qed.
Definition to_continue (x : attempt_chain) : Prop := match x with ToThen _ | ToCatch _ => True | _ => False end.
Lemma inv_settle w i x : inv w -> (forall a, attempts w !! i = Some a -> at_work a -> cancelled a = true) -> to_continue x -> inv (settle_race i x w).
Proof.
  intros Hi Hat Hx. apply inv_alter; [done| | |].
  - intros a Ha. unfold over. cbn. split; [|split; [done|]]; destruct (chain a) eqn:E; destruct x; cbn in Hx; naive_solver.
  - intros a Ha Hw _. exact (Hat a Ha Hw).
  - intros a c Ha [Hc|Hc]; left; [left; cbn; by rewrite Hc|by right].
Qed.
Lemma work_set w i x j a : attempts (set_work i x w) !! j = Some a -> j = i -> work a = x.
Proof. intros (z & _ & [[-> ->]|[Hn ->]])%alter_lookup; done. Qed.
Lemma inv_end_work w i e : inv w -> (forall a, attempts w !! i = Some a -> at_work a) -> inv (settle_race i (ToCatch e) (set_work i WorkOver w)).
Proof.
  intros Hi Hat. apply inv_settle; [by apply inv_set_work| |done]. intros a Ha Hw. pose proof (work_set _ _ _ _ _ Ha eq_refl) as E.
  unfold at_work in Hw. by rewrite E in Hw.
Qed.
Lemma inv_startConnection w i config : inv w -> (forall a, attempts w !! i = Some a -> at_work a) -> inv (startConnection i config w).
Proof.
  intros Hi Hat. unfold startConnection. destruct (disposed (service w)); [by apply inv_end_work|].
  destruct config; [by apply inv_end_work|by apply inv_set_work].
Qed.
Lemma inv_start_answered w i r a : inv w -> attempts w !! i = Some a -> work a = Starting -> inv (start_answered i r w).
Proof.
  intros Hi Ha Hs. assert (Hat : at_work a) by (unfold at_work; by rewrite Hs).
  assert (Hall : forall a, attempts w !! i = Some a -> at_work a) by (intros ? E; rewrite Ha in E; by injection E as <-).
  destruct r as [e|]; cbn [start_answered]; [by apply inv_end_work|].
  assert (Hi' : inv (settle_race i (ToThen (made w)) (set_work i (Answered (made w)) w))).
  { apply inv_settle; [by apply inv_set_work| |done]. intros b Hb Hw. pose proof (work_set _ _ _ _ _ Hb eq_refl) as E.
    unfold at_work in Hw. by rewrite E in Hw. }
  inv_split Hi'; [done| |done|done|done].
  intros Hl c Hc. destruct (decide (c = made w)) as [->|Hne]; [|apply (Hacc Hl c); cbn in *; lia].
  do 3 right. exists i. cbn. rewrite list_lookup_alter_eq, list_lookup_alter_eq, Ha. cbn. eexists. split; [done|]. unfold holds. cbn.
  destruct (chain a) eqn:E; [by left|..]; right; split; try done; apply (inv_work w Hi i a Ha Hat); by rewrite E.
Qed.
Lemma inv_dispose_connection w c : inv w -> inv (dispose_connection c w).
Proof.
  intros Hi. inv_split Hi; [done| |done|done|done]. intros Hl x Hx. destruct (Hacc Hl x Hx) as [|[|[|]]]; unfold accounted; cbn; [tauto| |tauto..].
  right; left. apply elem_of_app. by left.
Qed.
Lemma disposed_now w c : c ∈ disposals (dispose_connection c w).
Proof. apply elem_of_app. right. by apply list_elem_of_singleton. Qed.
Lemma inv_attempt_reaction w i a c : inv w -> attempts w !! i = Some a -> work a = Answered c -> inv (attempt_reaction i a c w).
Proof.
  intros Hi Ha Hw. unfold attempt_reaction.
  assert (Hgo : forall w', inv w' -> attempts w' = attempts w -> (cancelled a = true -> c ∈ disposals w') -> inv (set_work i WorkOver w')).
  { intros w' Hi' E Hd. apply inv_alter; [done|by intros b Hb|done|]. rewrite E. intros b x Hb [Hh|[Hh Hc]]; [by left; left|].
    rewrite Ha in Hb. injection Hb as <-. right. rewrite Hw in Hh. injection Hh as <-. by apply Hd. }
  destruct (cancelled a); [|by apply Hgo].
  apply (Hgo (dispose_connection c w)); [by apply inv_dispose_connection|done|intros; apply disposed_now].
Qed.

(** ** Changes of the service alone *)
Lemma inv_heartbeat w x n : inv w -> inv (on_service (with_heartbeat x n) w).
Proof. intros Hi. inv_split Hi; [done|done|done| |by destruct Hfail]. intros Hl Hd. by destruct (Hlive Hl Hd). Qed.
Lemma inv_scheduleHeartbeat w c token : inv w -> inv (on_service (scheduleHeartbeat heartbeatPolicy c token) w).
Proof.
  intros Hi. unfold scheduleHeartbeat. destruct heartbeatPolicy; [by destruct w|]. unfold on_service.
  destruct (isHeartbeatCurrent c token (service w)); [exact (inv_heartbeat w _ _ Hi)|by destruct w].
Qed.
Lemma inv_tell w t : inv w -> inv (on_log t (disturbed w) w).
Proof. intros Hi. by inv_split Hi. Qed.
Lemma inv_disturb w t : inv w -> inv (on_log t true w).
Proof. intros Hi. by inv_split Hi. Qed.
Lemma inv_beats w b : inv w -> inv (on_pending b (shutdowns w) w).
Proof. intros Hi. by inv_split Hi. Qed.
Lemma inv_clock w ms : 0 <= ms -> inv w -> inv (on_clock (clock w + ms) w).
Proof.
  intros Hm Hi. inv_split Hi; [done..|]. destruct Hfail as [Hc Hd]. split; [done|]. intros reason since k ra code E.
  destruct (Hd _ _ _ _ _ E) as (? & ? & ? & ?). repeat split; [done..|lia|done].
Qed.
Lemma failures_degrade s now reason code : failures_ok s now ->
  failures_ok (with_state (Degraded reason now (consecutiveFailures s + 1) (now + backoffMs restartPolicy (consecutiveFailures s + 1)) code) (consecutiveFailures s + 1) s) now.
Proof. intros [Hc _]. split; cbn; [lia|]. intros ? ? ? ? ? [= <- <- <- <- <-]. repeat split; lia. Qed.
Lemma failures_calm s now st n : failures_ok s now -> 0 <= n -> (st = Idle \/ exists t, st = Ready t) -> failures_ok (with_state st n s) now.
Proof. intros _ Hn Hs. split; cbn; [done|]. intros ? ? ? ? ? ->. destruct Hs as [|[? ?]]; done. Qed.
Lemma failures_same s s' now : lifecycleState s' = lifecycleState s -> consecutiveFailures s' = consecutiveFailures s -> failures_ok s now -> failures_ok s' now.
Proof. intros E1 E2 [Hc Hd]. split; rewrite E2; [done|]. rewrite E1. eauto. Qed.

(** ** The continuations of a startup *)
Lemma in_turn_idle w i j a : in_turn i w = true -> (j < i)%nat -> attempts w !! j = Some a -> idle_chain a = true.
Proof.
  intros Ht Hj Ha. unfold in_turn in Ht. rewrite forallb_forall in Ht. apply Ht. apply list_elem_of_In.
  apply list_elem_of_lookup. exists j. by rewrite lookup_take_lt.
Qed.
(** A startup that is neither over nor cancelled is the current one. *)
Lemma current_startup s l sh i a : live s l sh -> l !! i = Some a -> ~ over a -> cancelled a = false -> startup s = Some i.
Proof.
  intros H Ha Ho Hc. destruct (decide (startup s = Some i)) as [|Hn]; [done|]. destruct (live_rest _ _ _ H i a Ha Hn) as [|[? _]]; congruence.
Qed.
Lemma no_connection s l sh i a : live s l sh -> l !! i = Some a -> ~ over a -> connection s = None.
Proof. intros H Ha Ho. destruct (connection s) as [c|] eqn:E; [|done]. destruct Ho. eapply live_over; [done| |done]. by rewrite E. Qed.
Definition end_chain (r : nat + startup_error) (a : attempt) : attempt := {| work := work a; chain := ChainOver r; cancelled := cancelled a |}.
Lemma over_alter (l : list attempt) (i : nat) r j b : (j <> i -> l !! j = Some b -> over b) -> alter (end_chain r) i l !! j = Some b -> over b.
Proof. intros H (z & Hz & [[-> ->]|[Hn ->]])%alter_lookup; [by eexists|by apply H]. Qed.
Lemma live_adopted w i a c t x n : live (service w) (attempts w) (shutdowns w) -> attempts w !! i = Some a -> chain a = ToThen c -> cancelled a = false ->
  in_turn i w = true ->
  live (with_state (Ready t) 0 (with_heartbeat x n (with_connection (Some c) (Some c) (clear_cancellation i (service w)))))
    (alter (end_chain (inl c)) i (attempts w)) (shutdowns w).
Proof.
  intros Hl Ha Hc Hcan Ht. assert (Hno : ~ over a) by (intros [r Hr]; congruence).
  pose proof (current_startup _ _ _ _ _ Hl Ha Hno Hcan) as Hs. pose proof (no_connection _ _ _ _ _ Hl Ha Hno) as Hn.
  destruct (live_startup _ _ _ Hl i Hs Hn) as (Hx & Hlen & _).
  assert (Hrest : forall j b, j <> i -> attempts w !! j = Some b -> over b).
  { intros j b Hne Hb. assert (Hj : (j < i)%nat) by (apply lookup_lt_Some in Hb; lia).
    destruct (live_rest _ _ _ Hl j b Hb) as [|[_ Hr]]; [congruence|done|]. pose proof (in_turn_idle _ _ _ _ Ht Hj Hb) as Hidle.
    unfold idle_chain in Hidle. destruct (chain b) eqn:E; try done. by eexists. }
  assert (Hall : forall j b, alter (end_chain (inl c)) i (attempts w) !! j = Some b -> over b) by (intros j b; apply over_alter; eauto).
  unfold clear_cancellation. rewrite Hx, bool_decide_true by done. split; cbn; [intros _; exact Hall|done|intros j b Hb _; left; eauto|done| |split; eauto].
  pose proof (live_shutdown _ _ _ Hl) as Hsh. destruct (shutdownPromise (service w)); [|done]. destruct Hsh as (_ & d & Hd & _). congruence.
Qed.
(** A connection is adopted; the chain ends with it, or goes on to the [catch] when
    a listener throws. *)
Lemma inv_adopted w i a c x n s1 y late : inv w -> attempts w !! i = Some a -> chain a = ToThen c -> (forall d, work a <> Answered d) ->
  in_turn i w = true -> disposed (service w) = false -> cancelled a = false ->
  s1 (service w) = with_heartbeat x n (with_connection (Some c) (Some c) (clear_cancellation i (service w))) ->
  y <> Racing -> (late = false -> disturbed w = false /\ y = ChainOver (inl c)) -> forall t,
  inv (on_attempts (alter (fun a => {| work := work a; chain := y; cancelled := cancelled a |}) i)
    (on_log t late (on_service (fun s => with_state (Ready (clock w)) 0 (s1 s)) w))).
Proof.
  intros Hi Ha Hc Hw Ht Hd Hcan Hs1 Hy Hlate t. split; cbn; rewrite ?Hs1.
  - intros j b (z & Hz & [[-> ->]|[_ ->]])%alter_lookup Hat Hr; cbn in *; [|by eapply (inv_work w Hi)].
    rewrite Ha in Hz. injection Hz as <-. eapply (inv_work w Hi); [done..|]. by rewrite Hc.
  - intros [Hl ->]%Hlate v Hv. destruct (inv_accounted w Hi Hl v Hv) as [Hcon|[|[|(j & b & Hj & Hh)]]]; unfold accounted; cbn; rewrite ?Hs1; cbn; [|tauto..|].
    { pose proof (no_connection _ _ _ _ _ (inv_live w Hi Hl Hd) Ha ltac:(intros [r Hr]; congruence)) as Hn. congruence. }
    destruct (decide (j = i)) as [->|Hne]; [|do 3 right; exists j, b; by rewrite list_lookup_alter_ne].
    rewrite Ha in Hj. injection Hj as <-. destruct Hh as [Hh|[Hh _]]; [left; congruence|by destruct (Hw v)].
  - unfold clear_cancellation. case_bool_decide; cbn; congruence.
  - intros [Hl ->]%Hlate _. by eapply live_adopted; [apply (inv_live w Hi)|..].
  - apply failures_calm; [|lia|eauto]. eapply failures_same; [| |apply (inv_failures w Hi)]; unfold clear_cancellation; by case_bool_decide.
Qed.
Lemma inv_run_then w i a c : inv w -> attempts w !! i = Some a -> chain a = ToThen c -> (forall d, work a <> Answered d) -> in_turn i w = true ->
  forall thrown, inv (run_then heartbeatPolicy i a c thrown w).
Proof.
  intros Hi Ha Hc Hw Ht thrown. unfold run_then. destruct (disposed (service w) || cancelled a) eqn:E.
  - apply inv_alter; [by apply inv_dispose_connection| | |]; cbn [dispose_connection attempts on_connections].
    + intros b Hb. rewrite Ha in Hb. injection Hb as <-. unfold over. rewrite Hc. cbn. naive_solver.
    + intros b Hb Hat _. cbn in *. rewrite Ha in Hb. injection Hb as <-. eapply (inv_work w Hi); [done..|]. by rewrite Hc.
    + intros b x Hb [Hh|[Hh _]]; rewrite Ha in Hb; injection Hb as <-; [|by destruct (Hw x)].
      rewrite Hc in Hh. injection Hh as <-. right. apply disposed_now.
  - apply orb_false_iff in E as [Hd Hcan].
    assert (Hs1 : exists x n, startHeartbeat heartbeatPolicy c (with_connection (Some c) (Some c) (clear_cancellation i (service w)))
      = with_heartbeat x n (with_connection (Some c) (Some c) (clear_cancellation i (service w)))).
    { unfold startHeartbeat, scheduleHeartbeat, stopHeartbeat. destruct heartbeatPolicy; [by eexists _, _|].
      destruct (isHeartbeatCurrent _ _ _); by eexists _, _. }
    destruct Hs1 as (x & n & Hs1).
    pose proof (fun y late => inv_adopted w i a c x n (fun s => startHeartbeat heartbeatPolicy c (with_connection (Some c) (Some c) (clear_cancellation i s)))
      y late Hi Ha Hc Hw Ht Hd Hcan Hs1) as Hgo.
    unfold markReady. set (previous := lifecycleState _). destruct thrown as [e|].
    + pose proof (Hgo (ToCatch (StartFailed e)) true) as Hgo'. destruct previous; by refine (Hgo' _ _ _).
    + pose proof (Hgo (ChainOver (inl c)) (disturbed w)) as Hgo'. destruct previous; by refine (Hgo' _ _ _).
Qed.
Definition caught (i : nat) (s : BackendService) : BackendService :=
  clear_cancellation i (if bool_decide (startup s = Some i) then with_startup None (startupCancellation s) s else s).
Lemma live_caught s l sh i a st n r : live s l sh -> l !! i = Some a -> ~ over a -> (st = lifecycleState s \/ forall t, st <> Ready t) ->
  live (with_state st n (caught i s)) (alter (end_chain r) i l) sh.
Proof.
  intros Hl Ha Ho Hst. pose proof (no_connection _ _ _ _ _ Hl Ha Ho) as Hn. pose proof (live_cancellation _ _ _ Hl) as Hcan.
  pose proof (live_shutdown _ _ _ Hl) as Hsh. pose proof (live_ready _ _ _ Hl) as Hr.
  assert (Hr' : connection s <> None <-> exists t, st = Ready t).
  { split; [by rewrite Hn|]. intros [t ->]. destruct Hst as [E|Hst]; [apply Hr; eauto|by destruct (Hst t)]. }
  assert (Hrest : forall j b, alter (end_chain r) i l !! j = Some b -> (j <> i -> startup s <> Some j) -> over b \/ cancelled b = true /\ chain b <> Racing).
  { intros j b (z & Hz & [[-> ->]|[Hne ->]])%alter_lookup Hs; [left; by eexists|]. eapply live_rest; eauto. }
  unfold caught, clear_cancellation. destruct (decide (startup s = Some i)) as [Hs|Hs].
  - rewrite (bool_decide_true (startup s = Some i)) by done. cbn [startup startupCancellation with_startup].
    destruct (live_startup _ _ _ Hl i Hs Hn) as (Hx & _). rewrite Hx, bool_decide_true by done.
    split; cbn; [done|done|intros j b Hb _; eapply Hrest; [done|congruence]|done|done|done].
  - rewrite (bool_decide_false (startup s = Some i)) by done.
    assert (startupCancellation s <> Some i) as Hx by (intros E; by destruct (Hcan i E)). rewrite bool_decide_false by done.
    split; cbn; [done| |intros j b Hb Hj; eapply Hrest; eauto|done|done|done].
    intros j Hj _. destruct (live_startup _ _ _ Hl j Hj Hn) as (? & ? & b & Hb & ?). rewrite length_alter, list_lookup_alter_ne by congruence. eauto.
Qed.
Lemma caught_same i s : connection (caught i s) = connection s /\ disposed (caught i s) = disposed s
  /\ lifecycleState (caught i s) = lifecycleState s /\ consecutiveFailures (caught i s) = consecutiveFailures s.
Proof. unfold caught, clear_cancellation. by repeat case_bool_decide. Qed.
Lemma caught_state i s : caught i s = with_state (lifecycleState s) (consecutiveFailures s) (caught i s).
Proof. unfold caught, clear_cancellation. by destruct s; repeat case_bool_decide. Qed.
Lemma inv_caught w i a e st n r : inv w -> attempts w !! i = Some a -> chain a = ToCatch e ->
  (st = lifecycleState (service w) /\ n = consecutiveFailures (service w) \/ (forall t, st <> Ready t) /\ failures_ok (with_state st n (service w)) (clock w)) ->
  inv (on_attempts (alter (end_chain r) i) (on_service (fun s => with_state st n (caught i s)) w)).
Proof.
  intros Hi Ha Hc Hst. destruct (caught_same i (service w)) as (E1 & E2 & E3 & E4). inv_split Hi.
  - intros j b (z & Hz & [[-> ->]|[_ ->]])%alter_lookup Hat Hr; cbn in *; [|by eapply Hwork].
    rewrite Ha in Hz. injection Hz as <-. eapply Hwork; [done..|]. by rewrite Hc.
  - intros Hl y Hy. apply (accounted_alter (on_service _ w)).
    + destruct (Hacc Hl y Hy) as [|]; [left; cbn; by rewrite E1|by right].
    + intros b Hb [Hh|Hh]; [|left; by right]. cbn in Hb. rewrite Ha in Hb. injection Hb as <-. congruence.
  - cbn. rewrite E1, E2. done.
  - cbn. rewrite E2. intros Hl Hd. eapply live_caught; [by apply Hlive|done|intros [r' Hr]; congruence|naive_solver].
  - destruct Hst as [[-> ->]|[_ [H1 H2]]]; [eapply failures_same; [| |exact Hfail]; done|by split].
Qed.
Lemma inv_run_catch w i a e thrown : inv w -> attempts w !! i = Some a -> chain a = ToCatch e -> inv (run_catch restartPolicy i e thrown w).
Proof.
  intros Hi Ha Hc. destruct (caught_same i (service w)) as (E1 & E2 & E3 & E4).
  assert (Hplain : inv (set_chain i (ChainOver (inr e)) (on_service (clear_cancellation i)
    (on_service (fun s => if bool_decide (startup s = Some i) then with_startup None (startupCancellation s) s else s) w)))).
  { pose proof (inv_caught w i a e _ _ (inr e) Hi Ha Hc (or_introl (conj eq_refl eq_refl))) as H. unfold on_service in H at 1.
    rewrite <- caught_state in H. exact H. }
  unfold run_catch. destruct e as [m|e]; [exact Hplain|]. cbn [on_service service].
  change (clear_cancellation i _) with (caught i (service w)). rewrite E2. destruct (disposed (service w)) eqn:Hd; [exact Hplain|].
  unfold markDegraded. cbn [on_service service clock]. change (clear_cancellation i _) with (caught i (service w)). rewrite E4.
  set (code := errorCode _ _). pose proof (failures_degrade _ _ startupFailed code (inv_failures w Hi)) as Hf.
  refine (inv_tell _ _ (inv_caught w i a _ _ _ _ Hi Ha Hc (or_intror (conj _ Hf)))). done.
Qed.

(** ** Cancelling a startup *)
Definition cancel_attempt (m : string) (a : attempt) : attempt :=
  {| work := work a; chain := match chain a with Racing => ToCatch (BackendStartupCancellationError m) | y => y end; cancelled := true |}.
Record cancels (m : string) (w : World) (l : list attempt) : Prop := {
  cancels_from (j : nat) b : l !! j = Some b -> exists z, attempts w !! j = Some z /\ (b = z \/ b = cancel_attempt m z);
  cancels_to (j : nat) z : attempts w !! j = Some z -> exists b, l !! j = Some b /\ (b = z \/ b = cancel_attempt m z);
  cancels_current (i : nat) b : startupCancellation (service w) = Some i -> l !! i = Some b -> cancelled b = true;
}.
Lemma cancel_current_spec m w : exists l, cancel_current m w = on_attempts (fun _ => l) w /\ cancels m w l.
Proof.
  unfold cancel_current, cancel. destruct (startupCancellation (service w)) as [i|] eqn:Hs.
  2:{ exists (attempts w). split; [by destruct w|]. split; [eauto..|by rewrite Hs]. }
  destruct (attempts w !! i) as [a|] eqn:Ha.
  2:{ exists (attempts w). split; [by destruct w|]. split; [eauto..|rewrite Hs; intros ? ? [= <-]; by rewrite Ha]. }
  destruct (cancelled a) eqn:Hc.
  { exists (attempts w). split; [by destruct w|]. split; [eauto..|rewrite Hs; intros ? b [= <-]; rewrite Ha; congruence]. }
  exists (alter (cancel_attempt m) i (attempts w)). split; [unfold settle_race, on_attempts; cbn; f_equal; by rewrite alter_alter|]. split.
  - intros j b (z & Hz & [[-> ->]|[_ ->]])%alter_lookup; eauto.
  - intros j z Hz. destruct (decide (j = i)) as [->|Hne]; [rewrite list_lookup_alter_eq|rewrite list_lookup_alter_ne by done]; rewrite Hz; eauto.
  - rewrite Hs. intros j b [= <-] (z & _ & [[_ ->]|[Hn _]])%alter_lookup; done.
Qed.
Lemma cancelled_over m a : over (cancel_attempt m a) <-> over a.
Proof. unfold over. cbn. destruct (chain a); naive_solver. Qed.
Lemma cancelled_settled m a : chain (cancel_attempt m a) <> Racing.
Proof. cbn. by destruct (chain a). Qed.
Lemma cancelled_holds m a c : holds c a -> holds c (cancel_attempt m a).
Proof. intros [H|[H H']]; [left; cbn; by rewrite H|by right]. Qed.
(** What does not depend on the service: work, and what startups hold. *)
Lemma cancels_work m w l i a : inv w -> cancels m w l -> l !! i = Some a -> at_work a -> chain a <> Racing -> cancelled a = true.
Proof. intros Hi Hl Ha Hat Hr. destruct (cancels_from _ _ _ Hl i a Ha) as (z & Hz & [->| ->]); [by eapply inv_work|done]. Qed.
Lemma cancels_held m w l c : cancels m w l -> (exists i a, attempts w !! i = Some a /\ holds c a) -> exists i a, l !! i = Some a /\ holds c a.
Proof.
  intros Hl (i & a & Ha & Hh). destruct (cancels_to _ _ _ Hl i a Ha) as (b & Hb & [->| ->]); exists i; eauto using cancelled_holds.
Qed.
Lemma inv_shutdown_startup w i m : inv w -> startup (service w) = Some i -> connection (service w) = None ->
  inv (on_service (fun s => with_state Idle (consecutiveFailures s) (with_startup None None s)) (cancel_current m w)).
Proof.
  intros Hi Hs Hn. destruct (cancel_current_spec m w) as (l & -> & Hl). pose proof (fun i a => cancels_work m w l i a Hi Hl) as Hw. inv_split Hi; [exact Hw| |done| |].
  - intros Hlate c Hc. destruct (Hacc Hlate c Hc) as [|[|[|Hh]]]; unfold accounted; cbn; [tauto..|]. do 3 right. by eapply cancels_held.
  - intros Hlate Hd. specialize (Hlive Hlate Hd). destruct (live_startup _ _ _ Hlive i Hs Hn) as (Hx & _ & a & Ha & _ & Hcan).
    split; cbn; rewrite ?Hn; [done|done| |done| |].
    + intros j b Hb _. destruct (cancels_from _ _ _ Hl j b Hb) as (z & Hz & [->| ->]); [|right; split; [done|apply cancelled_settled]].
      destruct (decide (j = i)) as [->|Hne]; [|eapply live_rest; [done..|congruence]].
      pose proof (cancels_current _ _ _ Hl i z Hx Hb). congruence.
    + pose proof (live_shutdown _ _ _ Hlive) as Hsh. rewrite Hn in Hsh. done.
    + split; [done|]. by intros [t ?].
  - split; cbn; [apply Hfail|done].
Qed.
Lemma inv_shutdown w : inv w -> inv (shutdown w).
Proof.
  intros Hi. unfold shutdown. destruct (shutdownPromise (service w)) eqn:Hp; [done|].
  destruct (connection (service w)) as [c|] eqn:Hn; [|destruct (startup (service w)) eqn:Hs; [by eapply inv_shutdown_startup|done]].
  inv_split Hi; [done|done|done| |by destruct Hfail].
  intros Hl Hd. destruct (Hlive Hl Hd) as [H1 H2 H3 H4 H5 H6]. rewrite Hp in H5. split; cbn; [done..| |done]. rewrite H5. split; eauto.
Qed.
Lemma inv_dispose w : inv w -> inv (dispose w).
Proof.
  intros Hi. unfold dispose. destruct (cancel_current_spec "backend service disposed" (on_service (with_shutdown (shutdownPromise (service w)) true) w)) as (l & -> & Hl).
  assert (Hl' : cancels "backend service disposed" w l) by (by destruct Hl).
  pose proof (fun i a => cancels_work _ w l i a Hi Hl') as Hw.
  cbn [service on_service on_attempts connection with_startup clearConnectionTerminationSubscription stopHeartbeat with_heartbeat with_connection with_shutdown].
  destruct (connection (service w)) as [d|] eqn:Hn; (inv_split Hi; [exact Hw| |done|done|by destruct Hfail]);
    intros Hlate c Hc; destruct (Hacc Hlate c Hc) as [Hcon|[|[|Hh]]]; unfold accounted; cbn; try (do 3 right; by eapply cancels_held).
  - right; left. apply elem_of_app. right. apply list_elem_of_singleton. congruence.
  - right; left. apply elem_of_app. by left.
  - tauto.
  - congruence.
  - tauto.
  - tauto.
Qed.

(** ** Starting, ending and losing a connection *)
Definition new_attempt : attempt := {| work := Starting; chain := Racing; cancelled := false |}.
Definition begun (w : World) : World :=
  on_service (with_startup (Some (length (attempts w))) (Some (length (attempts w)))) (on_attempts (fun l => l ++ [new_attempt]) w).
Lemma initialize_begun config w : disposed (service w) = false -> connection (service w) = None -> startup (service w) = None ->
  snd (initialize config w) = initializeConnection (length (attempts w)) config (begun w).
Proof.
  intros Hd Hn Hs. unfold initialize. rewrite Hd, Hn, Hs. cbn [snd]. unfold initializeConnection, restartBackoffDelayMs, startConnection, begun.
  cbn [service on_service on_attempts clock with_startup disposed lifecycleState]. rewrite Hd.
  destruct (0 <? _); [done|]. by destruct config.
Qed.
Lemma inv_begun w : inv w -> connection (service w) = None -> startup (service w) = None -> disposed (service w) = false -> inv (begun w).
Proof.
  intros Hi Hn Hs Hd. inv_split Hi; [| |done| |by destruct Hfail].
  - intros j a [Hj|[_ Hj]]%lookup_app_Some; [by eapply Hwork|]. by apply list_lookup_singleton_Some in Hj as [_ <-].
  - intros Hl c Hc. destruct (Hacc Hl c Hc) as [|[|[|(i & a & Ha & Hh)]]]; unfold accounted; cbn; [tauto..|]. do 3 right.
    exists i, a. split; [by apply lookup_app_l_Some|done].
  - intros Hl _. destruct (Hlive Hl Hd) as [H1 H2 H3 H4 H5 H6]. split; cbn; rewrite ?Hn; [done| | | | |by rewrite Hn in H6].
    + intros i [= <-] _. split; [done|]. rewrite List.length_app. split; [cbn; lia|]. exists new_attempt.
      rewrite lookup_app_r, Nat.sub_diag by done. split; [done|]. split; [by intros [r Hr]|done].
    + intros i a [Hj|[Hle Hj]]%lookup_app_Some Hne; [eapply H3; [done|congruence]|].
      apply list_lookup_singleton_Some in Hj as [Hj _]. destruct Hne. f_equal. lia.
    + by intros i [= <-].
    + by rewrite Hn in H5.
Qed.
Lemma begun_at_work w a : attempts (begun w) !! length (attempts w) = Some a -> at_work a.
Proof. cbn. rewrite lookup_app_r, Nat.sub_diag by done. by intros [= <-]. Qed.
Lemma inv_initialize w config : inv w -> inv (snd (initialize config w)).
Proof.
  intros Hi. destruct (disposed (service w)) eqn:Hd; [unfold initialize; by rewrite Hd|].
  destruct (connection (service w)) as [c|] eqn:Hn; [unfold initialize; by rewrite Hd, Hn|].
  destruct (startup (service w)) as [i|] eqn:Hs; [unfold initialize; by rewrite Hd, Hn, Hs|]. rewrite initialize_begun by done.
  pose proof (inv_begun w Hi Hn Hs Hd) as Hb. unfold initializeConnection.
  destruct (0 <? _); [apply inv_set_work|apply inv_startConnection]; try done; apply begun_at_work.
Qed.
Lemma inv_finish_shutdown w k c : inv w -> shutdowns w !! k = Some c -> inv (finish_shutdown c (on_pending (beats w) (delete k (shutdowns w)) w)).
Proof.
  intros Hi Hk. pose proof Hi as [_ _ Hd0 Hl0 _]. inv_split Hi; [done| |done| |split; cbn; [apply Hfail|done]].
  - intros Hl d Hd. destruct (Hacc Hl d Hd) as [Hcon|[|[|]]]; unfold accounted; cbn; [|right; left; apply elem_of_app; by left|tauto..].
    right; left. apply elem_of_app. right. apply list_elem_of_singleton. destruct (disposed (service w)) eqn:E; [rewrite (Hd0 eq_refl) in Hcon; done|].
    pose proof (live_shutdown _ _ _ (Hl0 Hl eq_refl)) as Hsh. destruct (shutdownPromise (service w)); [|by rewrite Hsh in Hk].
    destruct Hsh as (_ & x & Hx & Hsh). rewrite Hsh in Hk. apply list_lookup_singleton_Some in Hk as [_ ->]. congruence.
  - intros Hl Hd. cbn in Hd. destruct (Hlive Hl Hd) as [H1 H2 H3 H4 H5 H6]. destruct (shutdownPromise (service w)); [|by rewrite H5 in Hk].
    destruct H5 as (_ & x & Hx & H5). rewrite H5 in *. apply list_lookup_singleton_Some in Hk as [-> _].
    split; cbn; [done|done| | |done|split; [done|by intros [t ?]]].
    + intros i a Ha _. left. eapply H1; [congruence|done].
    + intros i E. destruct (H4 i E). congruence.
Qed.
(** The connection is dropped and the service degraded. *)
Lemma inv_dropped w c reason code d e late : inv w -> connection (service w) = Some c -> disposed (service w) = false ->
  (late = false -> disturbed w = false /\ shutdownPromise (service w) = false /\ (c ∈ d \/ c ∈ e)) ->
  (forall x, x ∈ disposals w -> x ∈ d) -> (forall x, x ∈ ended w -> x ∈ e) -> forall t,
  inv (on_log t late (on_connections (made w) d e (on_service (fun s => with_state (Degraded reason (clock w) (consecutiveFailures s + 1)
    (clock w + backoffMs restartPolicy (consecutiveFailures s + 1)) code) (consecutiveFailures s + 1) (drop_connection s)) w))).
Proof.
  intros Hi Hc Hd Hlate Hsub1 Hsub2 t. inv_split Hi; [done| |done| |].
  - intros Hl x Hx. destruct (Hlate Hl) as (Hl' & _ & Hde). destruct (Hacc Hl' x Hx) as [Hcon|[|[|]]]; unfold accounted; cbn; [|eauto..].
    replace x with c by congruence. destruct Hde; eauto.
  - intros Hl _. destruct (Hlate Hl) as (Hl' & Hsh & _). destruct (Hlive Hl' Hd) as [H1 H2 H3 H4 H5 H6]. rewrite Hsh in H5.
    split; cbn; [done|done| | |done|split; [done|by intros [u ?]]].
    + intros i a Ha _. left. eapply H1; [congruence|done].
    + intros i E. destruct (H4 i E). congruence.
  - eapply (failures_degrade (drop_connection (service w))). by eapply failures_same; [| |exact Hfail].
Qed.
Lemma inv_terminate w c e thrown : inv w -> inv (terminate restartPolicy c e thrown w).
Proof.
  intros Hi. assert (Hend : inv (on_connections (made w) (disposals w) (ended w ++ [c]) w)).
  { inv_split Hi; [done| |done..]. intros Hl x Hx. destruct (Hacc Hl x Hx) as [|[|[|]]]; unfold accounted; cbn; [tauto|tauto| |tauto].
    do 2 right. left. apply elem_of_app. by left. }
  unfold terminate, handle_termination. cbn [service on_connections]. case_bool_decide as Hsub; [|done]. case_bool_decide as Hc; [|done].
  destruct (degradationFromTermination e) as [reason code]. destruct (disposed (service w)) eqn:Hd; [by rewrite (inv_disposed w Hi Hd) in Hc|].
  pose proof (inv_dropped w c reason code (disposals w) (ended w ++ [c]) (disturbed w) Hi Hc Hd) as Hgo.
  assert (Hlate : disturbed w = false -> disturbed w = false /\ shutdownPromise (service w) = false /\ (c ∈ disposals w \/ c ∈ ended w ++ [c])).
  { intros Hl. split; [done|]. pose proof (live_shutdown _ _ _ (inv_live w Hi Hl Hd)) as Hs. split.
    - destruct (shutdownPromise (service w)); [|done]. destruct Hs as [Hs _]. congruence.
    - right. apply elem_of_app. right. by apply list_elem_of_singleton. }
  destruct thrown; refine (Hgo Hlate _ _ _); [done| |done|]; intros x Hx; apply elem_of_app; by left.
Qed.
Lemma inv_handleHeartbeatFailure w c e thrown : inv w -> inv (handleHeartbeatFailure restartPolicy c e thrown w).
Proof.
  intros Hi. unfold handleHeartbeatFailure. case_bool_decide as Hc; [|done]. cbn [negb orb]. destruct (disposed (service w)) eqn:Hd; [done|].
  destruct thrown as [x|].
  - by refine (inv_dropped w c heartbeatFailed _ (disposals w) (ended w) true Hi Hc Hd _ _ _ _).
  - refine (inv_dropped w c heartbeatFailed _ (disposals w ++ [c]) (ended w) (disturbed w || shutdownPromise (service w)) Hi Hc Hd _ _ _ _).
    + intros [? ?]%orb_false_iff. split_and!; [done|done|left]. apply elem_of_app. right. by apply list_elem_of_singleton.
    + intros x Hx. apply elem_of_app. by left.
    + done.
Qed.

(** ** All states *)
Lemma inv_exec e w w' : exec heartbeatPolicy restartPolicy e w = Some w' -> inv w -> inv w'.
Proof.
  intros He Hi. destruct e as [config| | |ms|i config|i r|i|i t|i t|c e t| |k r t|k]; cbn [exec] in He.
  - injection He as <-. by apply inv_initialize.
  - injection He as <-. by apply inv_shutdown.
  - injection He as <-. by apply inv_dispose.
  - destruct (Z.leb_spec 0 ms); [|done]. injection He as <-. by apply inv_clock.
  - apply bind_Some in He as (a & Ha & He). destruct (work a) as [until| | |] eqn:Hw; try done. destruct (until <=? clock w); [|done].
    injection He as <-. apply inv_startConnection; [done|]. intros b Hb. rewrite Ha in Hb. injection Hb as <-. unfold at_work. by rewrite Hw.
  - apply bind_Some in He as (a & Ha & He). destruct (work a) eqn:Hw; try done. injection He as <-. by eapply inv_start_answered.
  - apply bind_Some in He as (a & Ha & He). destruct (work a) as [| |c|] eqn:Hw; try done. injection He as <-. by eapply inv_attempt_reaction.
  - apply bind_Some in He as (a & Ha & He). destruct (in_turn i w) eqn:Ht; [|done].
    destruct (work a) as [| |d|] eqn:Hw; [| |done|]; destruct (chain a) as [|c| |] eqn:Hc; try done; injection He as <-;
      (eapply inv_run_then; [done..| |done]; intros d; by rewrite Hw).
  - apply bind_Some in He as (a & Ha & He). destruct (in_turn i w) eqn:Ht; [|done]. destruct (chain a) as [| |e|] eqn:Hc; try done.
    injection He as <-. by eapply inv_run_catch.
  - destruct (_ && _); [|done]. injection He as <-. by apply inv_terminate.
  - apply bind_Some in He as ([c token] & Hp & He). injection He as <-. unfold heartbeat_fires. cbn [fst snd].
    assert (Hb : inv (on_service (fun s => with_heartbeat None (heartbeatToken s) s) w)) by exact (inv_heartbeat w _ _ Hi).
    destruct (isHeartbeatCurrent c token _); [by apply inv_beats|done].
  - apply bind_Some in He as ([c token] & Hp & He). injection He as <-. unfold heartbeat_answered. cbn [fst snd].
    destruct r; [apply inv_handleHeartbeatFailure|apply inv_scheduleHeartbeat]; by apply inv_beats.
  - apply bind_Some in He as (c & Hk & He). injection He as <-. by eapply inv_finish_shutdown.
Qed.
Definition backend_reachable (w : World) : Prop := exists t, rtc (step heartbeatPolicy restartPolicy) (newWorld t) w.
Lemma inv_newWorld t : inv (newWorld t).
Proof.
  split; [done|by intros _ c Hc; cbn in Hc; lia|done| |by split].
  intros _ _. split; cbn; [by intros []|done|done|done|done|split; [by intros []|by intros [? ?]]].
Qed.
Lemma backend_reachable_inv w : backend_reachable w -> inv w.
Proof.
  intros [t H]. assert (Hi := inv_newWorld t). revert H Hi. generalize (newWorld t). intros w0 H. induction H as [|w1 w2 w3 [e w2' He] _ IH]; [done|].
  intros Hi. by eapply IH, inv_exec.
Qed.


End Invariant.

(** ** Runs *)
Definition sample_policy : BackendRestartPolicy := {| initialBackoffMs := 1000; maxBackoffMs := 30000 |}.
Definition sample_heartbeat : BackendHeartbeatPolicy := HeartbeatEnabled 30000 10000.
Definition run (es : list event) (w : World) : option World :=
  foldl (fun o e => w ← o; exec sample_heartbeat sample_policy e w) (Some w) es.
Lemma run_step es e w : run (es ++ [e]) w = (w' ← run es w; exec sample_heartbeat sample_policy e w').
Proof. unfold run. by rewrite foldl_app. Qed.
Lemma run_reachable t es w : run es (newWorld t) = Some w -> backend_reachable sample_heartbeat sample_policy w.
Proof.
  revert w. induction es as [|e es IH] using rev_ind; [intros w [= <-]; by exists t|]. intros w. rewrite run_step.
  intros (w' & Hw & He)%bind_Some. destruct (IH w' Hw) as [t' Hr]. exists t'. eapply rtc_r; [exact Hr|]. by econstructor.
Qed.
Definition connected (i : nat) : list event := [StartAnswered i None; AttemptReaction i; RunThen i None].
Definition crash : event := Terminates 0 {| termination_reason := processExit; termination_message := None |} None.
(** The backend is started, crashes, is started again after a second, and the
    service is disposed. *)
Definition restarted_run : list event :=
  [CallInitialize None] ++ connected 0 ++ [crash; CallInitialize None; ClockMoves 1000; SleepOver 1 None] ++ connected 1.

(** A heartbeat fails while a shutdown waits; a startup begins before the shutdown
    ends, the end of the shutdown forgets it, a second startup begins, and the
    backend of the first is lost: it is not in use, not disposed, not ended, and
    no startup holds it. *)
Example late_failure_loses_backend :
  exists w, run ([CallInitialize None] ++ connected 0 ++ [HeartbeatFires; CallShutdown; HeartbeatAnswered 0 (Some (PlainError "timeout")) None;
      CallInitialize None; ShutdownEnds 0; CallInitialize None; ClockMoves 1000; SleepOver 1 None] ++ connected 1 ++ connected 2) (newWorld 0) = Some w
    /\ (1 < made w)%nat /\ ~ accounted w 1.
Proof.
  eexists. split; [by vm_compute|]. split; [cbn; lia|]. intros [H|[H|[H|(i & a & Ha & Hh)]]]; [done| | |].
  - cbn in H. repeat (apply elem_of_cons in H as [H|H]; [done|]). by apply elem_of_nil in H.
  - cbn in H. by apply elem_of_nil in H.
  - destruct i as [|[|[|i]]]; [injection Ha as <-..|done]; destruct Hh as [|[? ?]]; done.
Qed.

(** A heartbeat fails and a listener throws when it is told: the backend is neither
    disposed nor in use. *)
Example throwing_listener_loses_backend :
  exists w, run ([CallInitialize None] ++ connected 0 ++ [HeartbeatFires; HeartbeatAnswered 0 (Some (PlainError "timeout")) (Some (PlainError "listener"))])
      (newWorld 0) = Some w
    /\ (0 < made w)%nat /\ ~ accounted w 0.
Proof.
  eexists. split; [by vm_compute|]. split; [cbn; lia|]. intros [H|[H|[H|(i & a & Ha & Hh)]]]; [done|by apply elem_of_nil in H..|].
  destruct i as [|i]; [injection Ha as <-|done]; destruct Hh as [|[? ?]]; done.
Qed.
(** A listener throws when it is told that the service is ready: the startup is
    reported as failed, and the connection stays in use. *)
Example throwing_listener_misreports :
  exists w, run ([CallInitialize None; StartAnswered 0 None; AttemptReaction 0; RunThen 0 (Some (PlainError "listener")); RunCatch 0 None])
      (newWorld 0) = Some w
    /\ connection (service w) = Some 0%nat
    /\ getLifecycleState w = Degraded startupFailed 0 1 1000 "SUBVERSIONR_BACKEND_STARTUP_FAILED".
Proof. eexists. split; [by vm_compute|]. by split. Qed.
