(* ===== verification/RemoteProfile.v ===== *)
(** security/remoteAccessProfile.ts: the profiles of the remote servers in the
    user's settings, and the envelope that a remote operation is sent with;
    [createRemoteEnvelope] of extension.ts, which composes them; and
    security/externalToolConfiguration.ts and security/workspaceTrust.ts.

    The [URL] class of node is a parameter: the parts of a URL, or nothing when
    the constructor throws. *)

From Stdlib Require Import ZArith Lia Ascii String List.
From stdpp Require Import base option list strings.
From S2P Require Import Prelude JsString JsMap JsValue CredentialTypes RemoteTypes RemoteClients.

Local Open Scope string_scope.

Definition REMOTE_PROFILE_SCHEMA : string := "subversionr.remote-profile.v1".
Inductive RemoteOperationIntent := Foreground | Background.
Inductive RemoteInteraction := Allowed | Forbidden.
Inductive ServerAuth := Anonymous | Basic | CramMd5.
Record CanonicalEndpoint := { scheme : RemoteScheme; canonicalHost : string; effectivePort : Z }.
Inductive ServerAccountSnapshot := NoAccount | FixedAccount (username : string) | ChooseForeground.
(** The fields that hold one constant are written out by [profile_value]; [tls]
    says whether the field is there. *)
Record RemoteAccessProfileSnapshot := {
  profileId : string; authority : CanonicalEndpoint; serverAuth : ServerAuth; serverAccount : ServerAccountSnapshot; tls : bool;
}.
Record RemoteOperationEnvelope := {
  operationId : string; intent : RemoteOperationIntent; interaction : RemoteInteraction; timeoutMs : Z; trustEpoch : Z;
  profile : RemoteAccessProfileSnapshot; expectedOrigin : CanonicalEndpoint;
}.
Record RemoteProfileConfigurationInspection := {
  globalValue : option js_value; workspaceValue : option js_value; workspaceFolderValue : option js_value; defaultLanguageValue : option js_value;
  globalLanguageValue : option js_value; workspaceLanguageValue : option js_value; workspaceFolderLanguageValue : option js_value;
}.
(** The parts of a [URL]; the port is [None] where the text is empty. *)
Record Url := { url_protocol : string; url_username : string; url_password : string; url_hostname : string; url_port : option Z;
  url_search : string; url_hash : string }.

#[export] Instance scheme_eq_dec : EqDecision RemoteScheme. Proof. solve_decision. Defined.
#[export] Instance intent_eq_dec : EqDecision RemoteOperationIntent. Proof. solve_decision. Defined.
#[export] Instance interaction_eq_dec : EqDecision RemoteInteraction. Proof. solve_decision. Defined.
#[export] Instance server_auth_eq_dec : EqDecision ServerAuth. Proof. solve_decision. Defined.
#[export] Instance account_eq_dec : EqDecision ServerAccountSnapshot. Proof. solve_decision. Defined.
#[export] Instance endpoint_eq_dec : EqDecision CanonicalEndpoint. Proof. solve_decision. Defined.

#[export, refine] Instance intent_named : Named RemoteOperationIntent := {|
  all_of := [Foreground; Background]; name_of i := match i with Foreground => "foreground" | Background => "background" end |}.
Proof. by intros []. Defined.
#[export, refine] Instance interaction_named : Named RemoteInteraction := {|
  all_of := [Allowed; Forbidden]; name_of i := match i with Allowed => "allowed" | Forbidden => "forbidden" end |}.
Proof. by intros []. Defined.
#[export, refine] Instance auth_named : Named ServerAuth := {|
  all_of := [Anonymous; Basic; CramMd5]; name_of i := match i with Anonymous => "anonymous" | Basic => "basic" | CramMd5 => "cramMd5" end |}.
Proof. by intros []. Defined.

Definition RemoteProfileConfigurationError (code messageKey : string) (safeArgs : list (string * safe_arg)) : js_error :=
  StructuredError "RemoteProfileConfigurationError" code "" messageKey safeArgs.
Definition configurationError (code f : string) : js_error :=
  RemoteProfileConfigurationError code "error.remote.contractInvalid" [("field", ArgString f)].
Definition contractError (f : string) : js_error := configurationError "SUBVERSIONR_REMOTE_PROFILE_CONTRACT_INVALID" f.

(** ** Fields *)
Definition requireObject (value : option js_value) (f : string) : result js_value :=
  match value with Some (VObj fields) => Ok (VObj fields) | _ => Throw (contractError f) end.
Definition requireString (value : option js_value) (f : string) : result string :=
  match value with Some (VStr s) => if Nat.eqb (String.length s) 0 then Throw (contractError f) else Ok s | _ => Throw (contractError f) end.
Definition requireEnum {A} `{Named A} (value : option js_value) (f : string) : result A :=
  match value with Some (VStr s) => match of_name s with Some a => Ok a | None => Throw (contractError f) end | _ => Throw (contractError f) end.
Definition known_key (known : list string) (key : string) : bool := bool_decide (key ∈ known).
Definition requireExactKeys (value : js_value) (known optional : list string) (f : string) : result unit :=
  let required := List.filter (fun key => negb (known_key optional key)) known in
  require (forallb (known_key known) (keys value) && forallb (known_key (keys value)) required) (contractError f).

(** ** Texts *)
Definition ascii_char (c : ascii) : bool := (N_of_ascii c <? 128)%N.
Definition digit_char (c : ascii) : bool := char_in "0123456789" c.
Definition id_char (c : ascii) : bool := char_in "ABCDEFGHIJKLMNOPQRSTUVWXYZabcdefghijklmnopqrstuvwxyz0123456789._:-" c.
Fixpoint decimal_value (acc : Z) (s : string) : Z :=
  match s with EmptyString => acc | String c s' => decimal_value (10 * acc + (Z.of_N (N_of_ascii c) - 48)) s' end.
(** One to three digits without a leading zero, at most 255. *)
Definition ipv4_part (s : string) : bool :=
  (1 <=? String.length s)%nat && (String.length s <=? 3)%nat && all_chars digit_char s
  && (bool_decide (s = "0") || negb (startsWith s "0")) && (decimal_value 0 s <=? 255)%Z.
Definition isIpv4 (host : string) : bool := let parts := split host "." in Nat.eqb (length parts) 4 && forallb ipv4_part parts.
Definition dns_label (s : string) : bool :=
  (1 <=? String.length s)%nat && (String.length s <=? 63)%nat && negb (startsWith s "-") && negb (endsWith s "-") && all_chars label_char s.
Definition uuid_any : list (ascii -> bool) :=
  (repeat hex 8 ++ [char_in "-"] ++ repeat hex 4 ++ [char_in "-"] ++ repeat hex 4 ++ [char_in "-"] ++ repeat hex 4 ++ [char_in "-"] ++ repeat hex 12)%list.
Definition isCanonicalUuid (s : string) : bool := matches uuid_any s && negb (bool_decide (s = "00000000-0000-0000-0000-000000000000")).

Definition endpointsEqual (left right : CanonicalEndpoint) : bool :=
  bool_decide (scheme left = scheme right) && bool_decide (canonicalHost left = canonicalHost right)
  && Z.eqb (effectivePort left) (effectivePort right).

(** ** The objects that the code makes and passes on *)
Definition endpoint_value (e : CanonicalEndpoint) : js_value :=
  VObj [("scheme", VStr (name_of (scheme e))); ("canonicalHost", VStr (canonicalHost e)); ("effectivePort", VNum (NumInt (effectivePort e)))].
Definition account_value (a : ServerAccountSnapshot) : js_value :=
  match a with
  | NoAccount => VStr "none"
  | FixedAccount name => VObj [("mode", VStr "fixed"); ("username", VStr name)]
  | ChooseForeground => VObj [("mode", VStr "chooseForeground")]
  end.
Definition profile_value (p : RemoteAccessProfileSnapshot) : js_value :=
  VObj ([("schema", VStr REMOTE_PROFILE_SCHEMA); ("profileId", VStr (profileId p)); ("authority", endpoint_value (authority p));
         ("serverAuth", VStr (name_of (serverAuth p))); ("serverAccount", account_value (serverAccount p));
         ("serverCredentialPersistence", VStr "secretStorage")]
        ++ (if tls p then [("tls", VObj [("trust", VStr "windowsRootsThenBroker")])] else [])
        ++ [("proxy", VStr "none"); ("ssh", VStr "none"); ("redirectPolicy", VStr "rejectAll")])%list.
Definition envelope_value (e : RemoteOperationEnvelope) : js_value :=
  VObj [("version", VNum (NumInt 1)); ("operationId", VStr (operationId e)); ("intent", VStr (name_of (intent e)));
        ("interaction", VStr (name_of (interaction e))); ("timeoutMs", VNum (NumInt (timeoutMs e))); ("workspaceTrust", VStr "trusted");
        ("trustEpoch", VNum (NumInt (trustEpoch e))); ("profile", profile_value (profile e)); ("expectedOrigin", endpoint_value (expectedOrigin e))].

Section Profiles.
Context (newUrl : string -> option Url).

Definition canonicalIpv6 (host : string) : bool :=
  match newUrl ("http://[" ++ host ++ "]/") with Some url => bool_decide (url_hostname url = "[" ++ host ++ "]") | None => false end.
Definition isIpv6 (host : string) : bool := includes host ":" && canonicalIpv6 host.
Definition isDns (host : string) : bool := negb (includes host ":") && forallb dns_label (split host ".").
Definition host_text (host : string) : bool :=
  (1 <=? String.length host)%nat && (String.length host <=? 253)%nat && all_chars ascii_char host && bool_decide (host = toLocaleLowerCase host).
Definition validateEndpoint (port : js_number) (host f : string) : result Z :=
  effective ← match port with
              | NumInt z => if isSafeInteger z && (1 <=? z)%Z && (z <=? 65535)%Z then Ok z else Throw (contractError (f ++ ".effectivePort"))
              | NumFraction _ _ => Throw (contractError (f ++ ".effectivePort"))
              end;
  _ ← require (host_text host) (contractError (f ++ ".canonicalHost"));
  _ ← require (isIpv4 host || isIpv6 host || isDns host) (contractError (f ++ ".canonicalHost"));
  Ok effective.
Definition parseEndpoint (value : option js_value) (f : string) : result CanonicalEndpoint :=
  endpoint ← requireObject value f;
  _ ← requireExactKeys endpoint ["scheme"; "canonicalHost"; "effectivePort"] [] f;
  port ← match field endpoint "effectivePort" with Some (VNum n) => Ok n | _ => Throw (contractError (f ++ ".effectivePort")) end;
  s ← requireEnum (field endpoint "scheme") (f ++ ".scheme");
  host ← requireString (field endpoint "canonicalHost") (f ++ ".canonicalHost");
  effective ← validateEndpoint port host f;
  Ok {| scheme := s; canonicalHost := host; effectivePort := effective |}.

Definition username_text (username : string) : bool :=
  negb (256 <? String.length username)%nat && bool_decide (username = trim username) && all_chars (fun c => negb (control_char c)) username.
Definition parseServerAccount (value : option js_value) : result ServerAccountSnapshot :=
  if text_is "none" value then Ok NoAccount
  else
    account ← requireObject value "serverAccount";
    if text_is "chooseForeground" (field account "mode") then
      _ ← requireExactKeys account ["mode"] [] "serverAccount"; Ok ChooseForeground
    else
      _ ← requireExactKeys account ["mode"; "username"] [] "serverAccount";
      _ ← require (text_is "fixed" (field account "mode")) (contractError "serverAccount.mode");
      username ← requireString (field account "username") "serverAccount.username";
      _ ← require (username_text username) (contractError "serverAccount.username");
      Ok (FixedAccount username).
Definition validateAccount (auth : ServerAuth) (account : ServerAccountSnapshot) : result unit :=
  require (Bool.eqb (bool_decide (auth = Anonymous)) (bool_decide (account = NoAccount))) (contractError "serverAccount").

Definition PROFILE_KEYS : list string :=
  ["schema"; "profileId"; "authority"; "serverAuth"; "serverAccount"; "serverCredentialPersistence"; "tls"; "proxy"; "ssh"; "redirectPolicy"].
Definition profileId_text (s : string) : bool := (1 <=? String.length s)%nat && (String.length s <=? 128)%nat && all_chars id_char s.
Definition parseTls (s : RemoteScheme) (value : option js_value) : result bool :=
  if bool_decide (s = Https) then
    tlsValue ← requireObject value "tls";
    _ ← requireExactKeys tlsValue ["trust"] [] "tls";
    _ ← require (text_is "windowsRootsThenBroker" (field tlsValue "trust"))
          (RemoteProfileConfigurationError "SUBVERSIONR_REMOTE_TLS_POLICY_UNSUPPORTED" "error.remote.tlsPolicyUnsupported" []);
    Ok true
  else match value with Some _ => Throw (contractError "tls") | None => Ok false end.
Definition auth_supported (s : RemoteScheme) (auth : ServerAuth) : bool :=
  if bool_decide (s = Http) || bool_decide (s = Https) then bool_decide (auth = Anonymous) || bool_decide (auth = Basic)
  else bool_decide (auth = Anonymous) || bool_decide (auth = CramMd5).
Definition parseProfile (value : option js_value) (index : nat) : result RemoteAccessProfileSnapshot :=
  let f := "profiles[" ++ decimal index ++ "]" in
  p ← requireObject value f;
  _ ← requireExactKeys p PROFILE_KEYS ["tls"] f;
  _ ← require (text_is REMOTE_PROFILE_SCHEMA (field p "schema")) (contractError "schema");
  id ← requireString (field p "profileId") "profileId";
  _ ← require (profileId_text id) (contractError "profileId");
  endpoint ← parseEndpoint (field p "authority") "authority";
  auth ← requireEnum (field p "serverAuth") "serverAuth";
  account ← parseServerAccount (field p "serverAccount");
  _ ← require (text_is "secretStorage" (field p "serverCredentialPersistence")) (contractError "serverCredentialPersistence");
  _ ← require (text_is "none" (field p "proxy"))
        (RemoteProfileConfigurationError "SUBVERSIONR_REMOTE_PROXY_UNSUPPORTED" "error.remote.proxyUnsupported" []);
  _ ← require (text_is "none" (field p "ssh") && negb (bool_decide (scheme endpoint = SvnSsh)))
        (RemoteProfileConfigurationError "SUBVERSIONR_REMOTE_SSH_PROFILE_UNSUPPORTED" "error.remote.sshProfileUnsupported" []);
  _ ← require (text_is "rejectAll" (field p "redirectPolicy"))
        (RemoteProfileConfigurationError "SUBVERSIONR_REMOTE_REDIRECT_POLICY_UNSUPPORTED" "error.remote.redirectPolicyUnsupported" []);
  secure ← parseTls (scheme endpoint) (field p "tls");
  _ ← require (auth_supported (scheme endpoint) auth)
        (RemoteProfileConfigurationError "SUBVERSIONR_REMOTE_AUTH_UNSUPPORTED" "error.remote.authUnsupported" []);
  _ ← validateAccount auth account;
  Ok {| profileId := id; authority := endpoint; serverAuth := auth; serverAccount := account; tls := secure |}.

(** ** The profiles in the settings *)
Fixpoint parse_profiles (index : nat) (values : list js_value) : result (list RemoteAccessProfileSnapshot) :=
  match values with
  | [] => Ok []
  | value :: rest => p ← parseProfile (Some value) index; ps ← parse_profiles (S index) rest; Ok (p :: ps)
  end.
Fixpoint refuse_duplicates (ids : list string) (ps : list RemoteAccessProfileSnapshot) : result unit :=
  match ps with
  | [] => Ok tt
  | p :: rest =>
      if bool_decide (profileId p ∈ ids) then Throw (configurationError "SUBVERSIONR_REMOTE_PROFILE_DUPLICATE_ID" "remote.profiles")
      else refuse_duplicates (profileId p :: ids) rest
  end.
Definition scoped (i : RemoteProfileConfigurationInspection) : bool :=
  existsb (fun v => match v with Some _ => true | None => false end)
    [workspaceValue i; workspaceFolderValue i; defaultLanguageValue i; globalLanguageValue i; workspaceLanguageValue i; workspaceFolderLanguageValue i].
Definition readRemoteAccessProfiles (inspection : option RemoteProfileConfigurationInspection) : result (list RemoteAccessProfileSnapshot) :=
  match inspection with
  | None => Ok []
  | Some i =>
      if scoped i then Throw (configurationError "SUBVERSIONR_REMOTE_PROFILE_SCOPE_INVALID" "remote.profiles")
      else match globalValue i with
           | None => Ok []
           | Some (VArr values) => profiles ← parse_profiles 0 values; _ ← refuse_duplicates [] profiles; Ok profiles
           | Some _ => Throw (contractError "remote.profiles")
           end
  end.
Definition selectRemoteAccessProfile (profiles : list RemoteAccessProfileSnapshot) (expectedOrigin : js_value) : result RemoteAccessProfileSnapshot :=
  canonicalOrigin ← parseEndpoint (Some expectedOrigin) "expectedOrigin";
  match List.filter (fun p => endpointsEqual (authority p) canonicalOrigin) profiles with
  | [p] => Ok p
  | matches => Throw (RemoteProfileConfigurationError "SUBVERSIONR_REMOTE_PROFILE_MATCH_INVALID" "error.remote.profileMatchInvalid"
                        [("matchCount", ArgNumber (Z.of_nat (length matches)))])
  end.

(** ** The endpoint of a repository *)
Definition urlError : js_error := configurationError "SUBVERSIONR_REMOTE_REPOSITORY_URL_INVALID" "repositoryRootUrl".
Definition default_port (s : RemoteScheme) : Z := match s with Http => 80 | Https => 443 | Svn => 3690 | SvnSsh => 22 end.
(** [hostname.replace] of a bracket at the start and one at the end. *)
Definition without_brackets (host : string) : string :=
  let host := match host with String c rest => if bool_decide (c = "["%char) then rest else host | EmptyString => host end in
  if endsWith host "]" then slice_to (String.length host - 1) host else host.
Definition canonicalEndpointFromRepositoryUrl (repositoryRootUrl : string) : result CanonicalEndpoint :=
  if Nat.eqb (String.length repositoryRootUrl) 0 || (4096 <? String.length repositoryRootUrl)%nat then Throw urlError
  else match newUrl repositoryRootUrl with
       | None => Throw urlError
       | Some url =>
           if negb (bool_decide (url_username url = "") && bool_decide (url_password url = "") && bool_decide (url_search url = "")
                    && bool_decide (url_hash url = ""))
           then Throw urlError
           else
             let text := slice_to (String.length (url_protocol url) - 1) (url_protocol url) in
             match of_name text with
             | None => Throw (RemoteProfileConfigurationError "SUBVERSIONR_REMOTE_SCHEME_UNSUPPORTED" "error.remote.schemeUnsupported"
                                [("scheme", ArgString (slice_to 32 text))])
             | Some s =>
                 let host := toLocaleLowerCase (without_brackets (url_hostname url)) in
                 let port := default (default_port s) (url_port url) in
                 effective ← validateEndpoint (NumInt port) host "repositoryRootUrl";
                 Ok {| scheme := s; canonicalHost := host; effectivePort := effective |}
             end
       end.

(** ** The envelope *)
Definition truthy (v : option js_value) : bool :=
  match v with
  | None | Some VNull | Some (VBool false) | Some (VNum (NumInt 0)) | Some (VStr "") => false
  | Some _ => true
  end.
Definition envelopeError (f : string) : js_error := configurationError "SUBVERSIONR_REMOTE_ENVELOPE_INVALID" f.
Definition INPUT_KEYS : list string :=
  ["operationId"; "intent"; "interaction"; "timeoutMs"; "trustEpoch"; "profile"; "expectedOrigin"; "remoteSubmissionEnabled"].
Definition integer_in (low high : Z) (value : option js_value) (f : string) : result Z :=
  match value with
  | Some (VNum (NumInt z)) => if isSafeInteger z && (low <=? z)%Z && (z <=? high)%Z then Ok z else Throw (envelopeError f)
  | _ => Throw (envelopeError f)
  end.
Definition buildRemoteOperationEnvelope (input : js_value) : result RemoteOperationEnvelope :=
  v ← requireObject (Some input) "remote";
  _ ← requireExactKeys v INPUT_KEYS [] "remote";
  _ ← require (truthy (field v "remoteSubmissionEnabled"))
        (RemoteProfileConfigurationError "SUBVERSIONR_REMOTE_TRUST_NOT_ACKNOWLEDGED" "error.remote.trustNotAcknowledged" []);
  id ← match field v "operationId" with
       | Some (VStr s) => if isCanonicalUuid s then Ok s else Throw (envelopeError "operationId")
       | _ => Throw (envelopeError "operationId")
       end;
  timeout ← integer_in 1 300000 (field v "timeoutMs") "timeoutMs";
  epoch ← integer_in 1 MAX_SAFE_INTEGER (field v "trustEpoch") "trustEpoch";
  i ← requireEnum (field v "intent") "intent";
  a ← requireEnum (field v "interaction") "interaction";
  _ ← require (negb (bool_decide (i = Background) && negb (bool_decide (a = Forbidden)))) (envelopeError "interaction");
  p ← parseProfile (field v "profile") 0;
  origin ← parseEndpoint (field v "expectedOrigin") "expectedOrigin";
  _ ← require (negb (bool_decide (serverAccount p = ChooseForeground) && (negb (bool_decide (i = Foreground)) || negb (bool_decide (a = Allowed)))))
        (envelopeError "profile.serverAccount");
  _ ← require (endpointsEqual (authority p) origin)
        (RemoteProfileConfigurationError "SUBVERSIONR_REMOTE_ORIGIN_MISMATCH" "error.remote.originMismatch" []);
  Ok {| operationId := id; intent := i; interaction := a; timeoutMs := timeout; trustEpoch := epoch; profile := p; expectedOrigin := origin |}.

(** [createRemoteEnvelope] of extension.ts for a check of remote changes; [epoch]
    and [enabled] are what the connection says. *)
Definition REMOTE_STATUS_CHECK_TIMEOUT_MS : Z := 30000.
Definition check_input (id : string) (p : RemoteAccessProfileSnapshot) (origin : CanonicalEndpoint) (epoch : Z) (enabled : bool) : js_value :=
  VObj [("operationId", VStr id); ("intent", VStr "foreground"); ("interaction", VStr "allowed");
        ("timeoutMs", VNum (NumInt REMOTE_STATUS_CHECK_TIMEOUT_MS)); ("trustEpoch", VNum (NumInt epoch)); ("profile", profile_value p);
        ("expectedOrigin", endpoint_value origin); ("remoteSubmissionEnabled", VBool enabled)].
Definition createRemoteEnvelope (inspection : option RemoteProfileConfigurationInspection) (id repositoryRootUrl : string) (epoch : Z) (enabled : bool)
    : result RemoteOperationEnvelope :=
  origin ← canonicalEndpointFromRepositoryUrl repositoryRootUrl;
  profiles ← readRemoteAccessProfiles inspection;
  p ← selectRemoteAccessProfile profiles (endpoint_value origin);
  buildRemoteOperationEnvelope (check_input id p origin epoch enabled).
End Profiles.

(** ** security/workspaceTrust.ts and security/externalToolConfiguration.ts *)
Definition WorkspaceTrustError : js_error :=
  StructuredError "WorkspaceTrustError" "SUBVERSIONR_WORKSPACE_UNTRUSTED_OPERATION" "lifecycle" "error.workspace.untrustedOperation" [].
Definition requireTrustedWorkspace (workspaceTrusted : bool) : result unit := require workspaceTrusted WorkspaceTrustError.

Definition ExternalToolConfigurationError (code category messageKey name value : string) : js_error :=
  StructuredError "ExternalToolConfigurationError" code category messageKey [(name, ArgString value)].
Record ExternalToolConfigurationInspection := {
  tool_workspaceValue : option string; tool_workspaceFolderValue : option string; tool_workspaceLanguageValue : option string;
  tool_workspaceFolderLanguageValue : option string;
}.
Definition EXTERNAL_TOOL_RESTRICTED_CONFIGURATION_KEYS : list string :=
  ["subversionr.tortoise.executablePath"; "subversionr.tortoise.configDirectory"].
Definition SETTINGS : list (string * string) :=
  [("tortoise.executablePath", "subversionr.tortoise.executablePath"); ("tortoise.configDirectory", "subversionr.tortoise.configDirectory")].
Record ExternalToolSettings := { tortoiseExecutablePath : option string; tortoiseConfigDirectory : option string }.
Definition readExternalToolSettings (get : string -> option string) : ExternalToolSettings :=
  {| tortoiseExecutablePath := get "tortoise.executablePath"; tortoiseConfigDirectory := get "tortoise.configDirectory" |}.
Definition hasWorkspaceProvidedValue (i : ExternalToolConfigurationInspection) : bool :=
  existsb (fun v => match v with Some _ => true | None => false end)
    [tool_workspaceValue i; tool_workspaceFolderValue i; tool_workspaceLanguageValue i; tool_workspaceFolderLanguageValue i].
Definition requireExternalToolExecutionTrusted (workspaceTrusted : bool) : result unit :=
  require workspaceTrusted (ExternalToolConfigurationError "SUBVERSIONR_EXTERNAL_TOOL_UNTRUSTED_WORKSPACE" "lifecycle"
    "error.externalTool.untrustedWorkspace" "feature" "tortoise").
Fixpoint refuse_workspace_values (inspect : string -> option ExternalToolConfigurationInspection) (settings : list (string * string)) : result unit :=
  match settings with
  | [] => Ok tt
  | (section, fullKey) :: rest =>
      match inspect section with
      | Some i =>
          if hasWorkspaceProvidedValue i
          then Throw (ExternalToolConfigurationError "SUBVERSIONR_EXTERNAL_TOOL_WORKSPACE_SETTING_UNTRUSTED" "configuration"
                        "error.externalTool.workspaceSettingUntrusted" "setting" fullKey)
          else refuse_workspace_values inspect rest
      | None => refuse_workspace_values inspect rest
      end
  end.
Definition assertExternalToolSettingsTrusted (inspect : string -> option ExternalToolConfigurationInspection) (workspaceTrusted : bool) : result unit :=
  if workspaceTrusted then Ok tt else refuse_workspace_values inspect SETTINGS.
(** [path.posix.isAbsolute] and [path.win32.isAbsolute]; [path.isAbsolute] is one
    of them. *)
Definition separator (c : ascii) : bool := bool_decide (c = slash) || bool_decide (c = backslash).
Definition letter (c : ascii) : bool := char_in "ABCDEFGHIJKLMNOPQRSTUVWXYZabcdefghijklmnopqrstuvwxyz" c.
Definition isAbsolutePath (value : string) : bool :=
  match value with
  | String c rest => separator c || letter c && match rest with String d (String e _) => bool_decide (d = ":"%char) && separator e | _ => false end
  | EmptyString => false
  end.
Definition normalizeExternalToolPath (setting : string) (value : option string) : result (option string) :=
  match value with
  | None => Ok None
  | Some text =>
      let normalized := trim text in
      if Nat.eqb (String.length normalized) 0 then Ok None
      else if isAbsolutePath normalized then Ok (Some normalized)
      else Throw (ExternalToolConfigurationError "SUBVERSIONR_EXTERNAL_TOOL_PATH_NOT_ABSOLUTE" "configuration"
                    "error.externalTool.pathNotAbsolute" "setting" setting)
  end.

(** ** Profiles are exact *)
Section Exact.
Context (newUrl : string -> option Url).
Record endpoint_valid (e : CanonicalEndpoint) : Prop := {
  endpoint_port : (1 <= effectivePort e <= 65535)%Z;
  endpoint_text : host_text (canonicalHost e) = true;
  endpoint_host : isIpv4 (canonicalHost e) || isIpv6 newUrl (canonicalHost e) || isDns (canonicalHost e) = true;
}.
Record profile_valid (p : RemoteAccessProfileSnapshot) : Prop := {
  profile_id : profileId_text (profileId p) = true;
  profile_authority : endpoint_valid (authority p) /\ scheme (authority p) <> SvnSsh;
  profile_tls : tls p = bool_decide (scheme (authority p) = Https);
  profile_auth : auth_supported (scheme (authority p)) (serverAuth p) = true;
  profile_account : serverAuth p = Anonymous <-> serverAccount p = NoAccount;
  profile_username name : serverAccount p = FixedAccount name -> name <> "" /\ username_text name = true;
}.
Ltac next_is x := apply bind_ok; exists x; split.

Lemma object_ok v f o : requireObject v f = Ok o -> v = Some o.
Proof. unfold requireObject. destruct v as [[]|]; naive_solver. Qed.
Lemma string_ok v f s : requireString v f = Ok s <-> v = Some (VStr s) /\ s <> "".
Proof. unfold requireString. destruct v as [[| | |[]| |]|]; cbn; naive_solver. Qed.
Lemma enum_ok {A} `{Named A} v f (a : A) : requireEnum v f = Ok a <-> v = Some (VStr (name_of a)).
Proof.
  unfold requireEnum. destruct v as [[| | |s| |]|]; try naive_solver. destruct (of_name s) as [b|] eqn:E.
  - apply of_name_spec in E as ->. split; [intros [= ->]; done|]. intros [= E]. apply of_name_spec in E. rewrite (proj2 (of_name_spec _ b) eq_refl) in E. congruence.
  - split; [done|]. intros [= ->]. rewrite (proj2 (of_name_spec _ a) eq_refl) in E. done.
Qed.
Lemma text_is_ok s v : text_is s v = true <-> v = Some (VStr s).
Proof. unfold text_is. destruct v as [[]|]; rewrite ?bool_decide_eq_true; naive_solver. Qed.
Lemma endpointsEqual_ok a b : endpointsEqual a b = true <-> a = b.
Proof.
  unfold endpointsEqual. rewrite !andb_true_iff, !bool_decide_eq_true, Z.eqb_eq. destruct a, b; cbn. naive_solver.
Qed.
Lemma port_ok z : isSafeInteger z && (1 <=? z)%Z && (z <=? 65535)%Z = true <-> (1 <= z <= 65535)%Z.
Proof. unfold isSafeInteger, MAX_SAFE_INTEGER. rewrite !andb_true_iff, !Z.leb_le. lia. Qed.
Lemma validateEndpoint_ok n host f z s : validateEndpoint newUrl n host f = Ok z <->
  n = NumInt z /\ endpoint_valid {| scheme := s; canonicalHost := host; effectivePort := z |}.
Proof.
  unfold validateEndpoint. rewrite bind_ok. setoid_rewrite bind_ok. setoid_rewrite bind_ok. setoid_rewrite require_ok. split.
  - intros (e & He & _ & Ht & _ & Hh & [= <-]). destruct n as [y|]; [|done]. destruct (_ && _) eqn:Hp in He; [|done]. injection He as ->.
    split; [done|]. split; [by apply port_ok|done|done].
  - intros [-> [Hp Ht Hh]]. exists z. cbn in Hp. apply port_ok in Hp. rewrite Hp. split; [done|]. exists tt. split; [done|]. by exists tt.
Qed.
Lemma authority_sound v f e : parseEndpoint newUrl v f = Ok e -> endpoint_valid e.
Proof.
  unfold parseEndpoint. intros H. repeat (apply bind_ok in H as (? & ? & H)). injection H as <-.
  match goal with H : validateEndpoint _ _ _ _ = Ok _ |- _ => eapply validateEndpoint_ok in H as [_ H]; exact H end.
Qed.
Lemma authority_complete e f : endpoint_valid e -> parseEndpoint newUrl (Some (endpoint_value e)) f = Ok e.
Proof.
  intros Hv. pose proof Hv as [_ Ht _]. unfold parseEndpoint. next_is (endpoint_value e); [done|]. next_is tt; [reflexivity|]. next_is (NumInt (effectivePort e)); [reflexivity|].
  next_is (scheme e); [by apply enum_ok|]. next_is (canonicalHost e).
  { apply string_ok. split; [reflexivity|]. intros E. by rewrite E in Ht. }
  next_is (effectivePort e); [|by destruct e]. apply (validateEndpoint_ok _ _ _ _ (scheme e)). split; [done|]. by destruct e.
Qed.
Lemma server_account_sound v a : parseServerAccount v = Ok a -> forall name, a = FixedAccount name -> name <> "" /\ username_text name = true.
Proof.
  unfold parseServerAccount. destruct (text_is _ v); [by intros [= <-]|]. intros (r & _ & H)%bind_ok. destruct (text_is _ _).
  - by apply bind_ok in H as (? & _ & [= <-]).
  - apply bind_ok in H as (? & _ & H). apply bind_ok in H as (? & _ & H). apply bind_ok in H as (u & [_ Hu]%string_ok & H).
    apply bind_ok in H as (? & Ht%require_ok & [= <-]). by intros name [= <-].
Qed.
Lemma server_account_complete a : (forall name, a = FixedAccount name -> name <> "" /\ username_text name = true) -> parseServerAccount (Some (account_value a)) = Ok a.
Proof.
  intros Ha. unfold parseServerAccount. destruct a as [|name|]; [done| |done]. destruct (Ha name eq_refl) as [Hn Ht].
  change (text_is "none" _) with false. cbn iota. next_is (account_value (FixedAccount name)); [done|]. change (text_is "chooseForeground" _) with false. cbn iota.
  next_is tt; [reflexivity|]. next_is tt; [reflexivity|]. next_is name; [by apply string_ok|]. next_is tt; [by apply require_ok|]. done.
Qed.
Lemma validateAccount_ok auth account u : validateAccount auth account = Ok u <-> (auth = Anonymous <-> account = NoAccount).
Proof.
  unfold validateAccount. rewrite require_ok, Bool.eqb_true_iff. repeat case_bool_decide; naive_solver.
Qed.
Lemma tls_sound s v b : parseTls s v = Ok b -> b = bool_decide (s = Https).
Proof.
  unfold parseTls. case_bool_decide; [|by destruct v; intros [= <-]]. intros H'. repeat (apply bind_ok in H' as (? & ? & H')). by injection H' as <-.
Qed.
Lemma profile_sound v i p : parseProfile newUrl v i = Ok p -> profile_valid p.
Proof.
  unfold parseProfile. intros H. repeat (apply bind_ok in H as (? & ? & H)). injection H as <-.
  repeat match goal with
  | H : require _ _ = Ok _ |- _ => apply require_ok in H
  | H : parseEndpoint _ _ _ = Ok _ |- _ => apply authority_sound in H
  | H : parseTls _ _ = Ok _ |- _ => apply tls_sound in H
  | H : validateAccount _ _ = Ok _ |- _ => apply validateAccount_ok in H
  | H : _ && negb (bool_decide _) = true |- _ => apply andb_prop in H as [? ?%negb_true_iff%bool_decide_eq_false]
  end.
  split; cbn; try done. intros name E. match goal with H : parseServerAccount _ = Ok _ |- _ => exact (server_account_sound _ _ H name E) end.
Qed.
Lemma profile_complete p i : profile_valid p -> parseProfile newUrl (Some (profile_value p)) i = Ok p.
Proof.
  intros [Hid [He Hs] Htls Hauth Hacc Hname]. unfold parseProfile.
  next_is (profile_value p); [done|]. next_is tt; [by destruct p as [? ? ? ? []]|]. next_is tt; [done|]. next_is (profileId p).
  { apply string_ok. split; [done|]. intros E. by rewrite E in Hid. }
  next_is tt; [by apply require_ok|]. next_is (authority p); [by apply authority_complete|]. next_is (serverAuth p); [by apply enum_ok|].
  next_is (serverAccount p); [by apply server_account_complete|]. next_is tt; [done|]. next_is tt; [by destruct p as [? ? ? ? []]|].
  next_is tt; [apply require_ok; rewrite bool_decide_false by done; by destruct p as [? ? ? ? []]|]. next_is tt; [by destruct p as [? ? ? ? []]|].
  next_is (tls p).
  { rewrite Htls. unfold parseTls. destruct p as [? ? ? ? b]. cbn in *. subst b. by case_bool_decide. }
  next_is tt; [by apply require_ok|]. next_is tt; [by apply validateAccount_ok|]. by destruct p.
Qed.

(** ** The settings, the origin and the envelope *)
Lemma profiles_sound values : forall i ps, parse_profiles newUrl i values = Ok ps -> forall p, p ∈ ps -> profile_valid p.
Proof.
  induction values as [|v values IH]; intros i ps; cbn [parse_profiles]; [intros [= <-] p []%elem_of_nil|].
  intros (p & Hp & H)%bind_ok. apply bind_ok in H as (rest & Hr & [= <-]). intros q [->|Hq]%elem_of_cons; [by eapply profile_sound|by eapply IH].
Qed.
Lemma read_sound inspection ps : readRemoteAccessProfiles newUrl inspection = Ok ps ->
  ps = [] \/ exists i values, inspection = Some i /\ scoped i = false /\ globalValue i = Some (VArr values) /\ parse_profiles newUrl 0 values = Ok ps.
Proof.
  unfold readRemoteAccessProfiles. destruct inspection as [i|]; [|intros [= <-]; by left]. destruct (scoped i) eqn:Hs; [done|].
  destruct (globalValue i) as [[| | | |values|]|] eqn:Hg; try done; [|intros [= <-]; by left].
  intros (qs & Hq & H)%bind_ok. apply bind_ok in H as (_ & _ & [= <-]). right. by exists i, values.
Qed.
Lemma read_valid inspection ps p : readRemoteAccessProfiles newUrl inspection = Ok ps -> p ∈ ps -> profile_valid p.
Proof. intros [->|(i & values & _ & _ & _ & H)]%read_sound Hp; [by apply elem_of_nil in Hp|by eapply profiles_sound]. Qed.
Lemma select_ok ps origin p : endpoint_valid origin -> selectRemoteAccessProfile newUrl ps (endpoint_value origin) = Ok p <->
  List.filter (fun p => endpointsEqual (authority p) origin) ps = [p].
Proof.
  intros Ho. unfold selectRemoteAccessProfile. rewrite bind_ok, (authority_complete origin _ Ho). split.
  - intros (o & [= <-] & H). destruct (List.filter _ _) as [|q [|]]; [done| |done]. by injection H as <-.
  - intros H. exists origin. by rewrite H.
Qed.
Lemma origin_sound url origin : canonicalEndpointFromRepositoryUrl newUrl url = Ok origin -> endpoint_valid origin.
Proof.
  unfold canonicalEndpointFromRepositoryUrl. destruct (_ || _); [done|]. destruct (newUrl url) as [u|]; [|done]. destruct (negb _); [done|].
  destruct (of_name _) as [s|]; [|done]. cbn zeta. intros (z & Hz & [= <-])%bind_ok. by eapply validateEndpoint_ok in Hz as [_ Hz].
Qed.
Definition check_envelope (id : string) (p : RemoteAccessProfileSnapshot) (origin : CanonicalEndpoint) (epoch : Z) : RemoteOperationEnvelope :=
  {| operationId := id; intent := Foreground; interaction := Allowed; timeoutMs := REMOTE_STATUS_CHECK_TIMEOUT_MS; trustEpoch := epoch;
     profile := p; expectedOrigin := origin |}.
Record envelope_allowed (id : string) (epoch : Z) (enabled : bool) : Prop := {
  allowed_enabled : enabled = true;
  allowed_id : isCanonicalUuid id = true;
  allowed_epoch : (1 <= epoch <= MAX_SAFE_INTEGER)%Z;
}.
Lemma epoch_ok epoch f z : integer_in 1 MAX_SAFE_INTEGER (Some (VNum (NumInt epoch))) f = Ok z <-> z = epoch /\ (1 <= epoch <= MAX_SAFE_INTEGER)%Z.
Proof.
  unfold integer_in, isSafeInteger. destruct (_ && _) eqn:E.
  - rewrite !andb_true_iff, !Z.leb_le in E. split; [intros [= <-]; split; [done|lia]|by intros [-> _]].
  - split; [done|]. intros [_ [H1 H2]]. rewrite !andb_false_iff, !Z.leb_gt in E. unfold MAX_SAFE_INTEGER in *. lia.
Qed.
Lemma build_ok id p origin epoch enabled env : profile_valid p -> endpoint_valid origin -> authority p = origin ->
  buildRemoteOperationEnvelope newUrl (check_input id p origin epoch enabled) = Ok env <->
  envelope_allowed id epoch enabled /\ env = check_envelope id p origin epoch.
Proof.
  intros Hp Ho Ha. unfold buildRemoteOperationEnvelope. split.
  - intros H. apply bind_ok in H as (v & [= <-]%object_ok & H).
    apply bind_ok in H as (_ & _ & H). apply bind_ok in H as (_ & Hen%require_ok & H). apply bind_ok in H as (i & Hid & H).
    apply bind_ok in H as (t & Ht & H). apply bind_ok in H as (e & He & H). apply bind_ok in H as (it & Hit%enum_ok & H).
    apply bind_ok in H as (ia & Hia%enum_ok & H). apply bind_ok in H as (_ & _ & H). apply bind_ok in H as (q & Hq & H).
    apply bind_ok in H as (o & Hor & H). apply bind_ok in H as (_ & _ & H). apply bind_ok in H as (_ & _ & [= <-]).
    change (field _ "operationId") with (Some (VStr id)) in Hid. cbn beta iota in Hid. destruct (isCanonicalUuid id) eqn:Hu; [|done]. injection Hid as <-.
    change (field _ "trustEpoch") with (Some (VNum (NumInt epoch))) in He. apply epoch_ok in He as [-> He].
    change (field _ "profile") with (Some (profile_value p)) in Hq. rewrite (profile_complete p 0 Hp) in Hq. injection Hq as <-.
    change (field _ "expectedOrigin") with (Some (endpoint_value origin)) in Hor. rewrite (authority_complete origin _ Ho) in Hor. injection Hor as <-.
    change (field _ "intent") with (Some (VStr "foreground")) in Hit. change (field _ "interaction") with (Some (VStr "allowed")) in Hia.
    destruct it; [|done]. destruct ia; [|done]. injection Ht as <-. by destruct enabled.
  - intros [[-> Hu He] ->]. next_is (check_input id p origin epoch true); [done|]. next_is tt; [reflexivity|]. next_is tt; [reflexivity|].
    next_is id; [change (field _ _) with (Some (VStr id)); cbn beta iota; by rewrite Hu|]. next_is REMOTE_STATUS_CHECK_TIMEOUT_MS; [reflexivity|].
    next_is epoch; [by apply epoch_ok|]. next_is Foreground; [reflexivity|]. next_is Allowed; [reflexivity|]. next_is tt; [reflexivity|].
    next_is p; [exact (profile_complete p 0 Hp)|]. next_is origin; [exact (authority_complete origin _ Ho)|].
    next_is tt; [by case_bool_decide|]. next_is tt; [by apply require_ok, endpointsEqual_ok|]. done.
Qed.
Lemma filter_one {A} (f : A -> bool) l p : List.filter f l = [p] -> exists l1 l2, l = (l1 ++ p :: l2)%list /\ f p = true /\ forall q, q ∈ (l1 ++ l2)%list -> f q = false.
Proof.
  induction l as [|x l IH]; [done|]. cbn. destruct (f x) eqn:E.
  - intros [= -> H]. exists [], l. split; [done|]. split; [done|]. intros q Hq. destruct (f q) eqn:Eq; [|done].
    assert (In q (List.filter f l)) as Hin by (apply filter_In; split; [by apply list_elem_of_In|done]). by rewrite H in Hin.
  - intros (l1 & l2 & -> & Hp & Hq)%IH. exists (x :: l1), l2. split; [done|]. split; [done|]. intros q [->|Hin]%elem_of_cons; [done|by apply Hq].
Qed.
Lemma filter_none {A} (f : A -> bool) l : (forall q, q ∈ l -> f q = false) -> List.filter f l = [].
Proof.
  induction l as [|x l IH]; [done|]. intros H. cbn. rewrite (H x) by apply list_elem_of_here. apply IH. intros q Hq. apply H. by apply list_elem_of_further.
Qed.

(** Settings that only the user has made. *)
Record user_only (i : RemoteProfileConfigurationInspection) : Prop := {
  no_workspace : workspaceValue i = None /\ workspaceFolderValue i = None;
  no_language : defaultLanguageValue i = None /\ globalLanguageValue i = None;
  no_workspace_language : workspaceLanguageValue i = None /\ workspaceFolderLanguageValue i = None;
}.
Lemma unscoped_user i : scoped i = false -> user_only i.
Proof.
  destruct i as [g w1 w2 l1 l2 l3 l4]. destruct w1; [done|]. destruct w2; [done|]. destruct l1; [done|]. destruct l2; [done|].
  destruct l3; [done|]. by destruct l4.
Qed.
(** The profile of an origin: the only one in the list for it. *)
Definition the_profile (ps : list RemoteAccessProfileSnapshot) (origin : CanonicalEndpoint) (p : RemoteAccessProfileSnapshot) : Prop :=
  exists l1 l2, ps = (l1 ++ p :: l2)%list /\ authority p = origin /\ forall q, q ∈ (l1 ++ l2)%list -> authority q <> origin.
Lemma the_profile_ok ps origin p : List.filter (fun p => endpointsEqual (authority p) origin) ps = [p] <-> the_profile ps origin p.
Proof.
  split.
  - intros (l1 & l2 & -> & Hp%endpointsEqual_ok & Hq)%filter_one. exists l1, l2. split; [done|]. split; [done|]. intros q Hin E.
    specialize (Hq q Hin). apply endpointsEqual_ok in E. congruence.
  - intros (l1 & l2 & -> & Hp & Hq). apply endpointsEqual_ok in Hp. rewrite List.filter_app. cbn. rewrite Hp.
    assert (Hoff : forall q, q ∈ (l1 ++ l2)%list -> endpointsEqual (authority q) origin = false).
    { intros q Hin. destruct (endpointsEqual (authority q) origin) eqn:E; [|done]. apply endpointsEqual_ok in E. destruct (Hq q Hin E). }
    rewrite !filter_none; [done|..]; intros q Hin; apply Hoff, elem_of_app; tauto.
Qed.

(** C17: A remote check is sent with the profile the user made for that server, and
    with nothing a workspace says.  An envelope is made exactly when the URL of the
    repository names a supported endpoint, the profiles in the user's own settings
    are readable, exactly one of them is for that endpoint, and the backend has
    acknowledged the trust of the workspace; it then carries that profile, which is
    valid, and that endpoint.  With an operation id of the usual form, the client
    of the check accepts it. *)
Theorem remote_envelope_exact inspection id url epoch enabled env :
  (createRemoteEnvelope newUrl inspection id url epoch enabled = Ok env <->
   exists origin ps p, canonicalEndpointFromRepositoryUrl newUrl url = Ok origin /\ readRemoteAccessProfiles newUrl inspection = Ok ps
     /\ the_profile ps origin p /\ envelope_allowed id epoch enabled /\ env = check_envelope id p origin epoch)
  /\ (createRemoteEnvelope newUrl inspection id url epoch enabled = Ok env ->
      profile_valid (profile env)
      /\ (exists i values ps, inspection = Some i /\ user_only i /\ globalValue i = Some (VArr values)
           /\ parse_profiles newUrl 0 values = Ok ps /\ the_profile ps (expectedOrigin env) (profile env))
      /\ (RemoteTypes.isCanonicalUuid id = true ->
          StatusRemoteCheckRpcClient.validateRemoteEnvelope (Some (envelope_value env)) = Ok (envelope_value env))).
Proof.
  assert (Hiff : createRemoteEnvelope newUrl inspection id url epoch enabled = Ok env <->
   exists origin ps p, canonicalEndpointFromRepositoryUrl newUrl url = Ok origin /\ readRemoteAccessProfiles newUrl inspection = Ok ps
     /\ the_profile ps origin p /\ envelope_allowed id epoch enabled /\ env = check_envelope id p origin epoch).
  { unfold createRemoteEnvelope. rewrite bind_ok. setoid_rewrite bind_ok. setoid_rewrite bind_ok. split.
    - intros (origin & Ho & ps & Hr & p & Hs & H). pose proof (origin_sound _ _ Ho) as Hv. apply (select_ok _ _ _ Hv), the_profile_ok in Hs.
      pose proof Hs as (l1 & l2 & -> & Ha & _). apply (build_ok _ _ _ _ _ _) in H; [|eapply read_valid; [done|]; apply elem_of_app; right; apply list_elem_of_here|done..].
      destruct H. by exists origin, (l1 ++ p :: l2)%list, p.
    - intros (origin & ps & p & Ho & Hr & Hs & Hen & ->). pose proof (origin_sound _ _ Ho) as Hv. exists origin. split; [done|]. exists ps. split; [done|]. exists p.
      pose proof Hs as (l1 & l2 & -> & Ha & _). split; [by apply select_ok, the_profile_ok|]. apply build_ok; [|done..].
      eapply read_valid; [done|]. apply elem_of_app. right. apply list_elem_of_here. }
  split; [exact Hiff|]. intros (origin & ps & p & Ho & Hr & Hs & [_ _ He] & ->)%Hiff. pose proof Hs as (l1 & l2 & Hl & _).
  assert (Hp : p ∈ ps) by (rewrite Hl; apply elem_of_app; right; apply list_elem_of_here). split; [by eapply read_valid|]. split.
  - apply read_sound in Hr as [->|(i & values & ? & ? & ? & ?)]; [by apply elem_of_nil in Hp|]. exists i, values, ps.
    by split; [|split; [apply unscoped_user|]].
  - intros Hu. unfold StatusRemoteCheckRpcClient.validateRemoteEnvelope, envelope_value. rewrite bool_decide_true by reflexivity. cbn [negb].
    change (field _ "operationId") with (Some (VStr id)). change (field _ "trustEpoch") with (Some (VNum (NumInt epoch))).
    unfold StatusRemoteCheckRpcClient.isCanonicalUuid_. rewrite Hu.
    assert (He' : StatusRemoteCheckRpcClient.integer_between 1 MAX_SAFE_INTEGER (Some (VNum (NumInt epoch))) = true).
    { unfold StatusRemoteCheckRpcClient.integer_between, isSafeInteger. rewrite !andb_true_iff, !Z.leb_le. unfold MAX_SAFE_INTEGER in *. lia. }
    rewrite He'. reflexivity.
Qed.
End Exact.

(** ** An example *)
Definition sample_url (text : string) : option Url :=
  if bool_decide (text = "https://svn.example.org/repo") then
    Some {| url_protocol := "https:"; url_username := ""; url_password := ""; url_hostname := "svn.example.org"; url_port := None; url_search := ""; url_hash := "" |}
  else None.
Definition sample_profile : RemoteAccessProfileSnapshot :=
  {| profileId := "work"; authority := {| scheme := Https; canonicalHost := "svn.example.org"; effectivePort := 443 |}; serverAuth := Basic;
     serverAccount := FixedAccount "alice"; tls := true |}.
Definition user_settings (v : js_value) (workspace : option js_value) : option RemoteProfileConfigurationInspection :=
  Some {| globalValue := Some v; workspaceValue := workspace; workspaceFolderValue := None; defaultLanguageValue := None; globalLanguageValue := None;
          workspaceLanguageValue := None; workspaceFolderLanguageValue := None |}.
Definition sample_id : string := "0b2f1c3d-4e5f-4a6b-8c7d-9e0f1a2b3c4d".
Example envelope_made :
  createRemoteEnvelope sample_url (user_settings (VArr [profile_value sample_profile]) None) sample_id "https://svn.example.org/repo" 1 true
  = Ok (check_envelope sample_id sample_profile (authority sample_profile) 1).
Proof. by vm_compute. Qed.
Example workspace_profile_refused :
  createRemoteEnvelope sample_url (user_settings (VArr []) (Some (VArr [profile_value sample_profile]))) sample_id "https://svn.example.org/repo" 1 true
  = Throw (configurationError "SUBVERSIONR_REMOTE_PROFILE_SCOPE_INVALID" "remote.profiles").
Proof. by vm_compute. Qed.
(** A user name of 129 letters outside ASCII passes as that of a profile, whose
    bound is on letters, and is refused in the credential request that the backend
    makes for it, where the bound is on bytes. *)
Fixpoint letters (n : nat) : string := match n with O => "" | S n => String "228" (letters n) end.
Example long_name_refused :
  parseServerAccount (Some (account_value (FixedAccount (letters 129)))) = Ok (FixedAccount (letters 129))
  /\ CredentialTypes.parseAccount (Some (account_value (FixedAccount (letters 129)))) = Throw (invalidParams "account.username").
Proof. by vm_compute. Qed.
